(* ===== verification/_CoqProject ===== *)
-Q . S2P
Prelude.v
Wire.v
Identity.v
Core.v
Effects.v
Text.v
Events.v
Scheduling.v
Files.v
Containment.v
Disk.v
FoldTypes.v
Canonical.v
Admission.v
RosterChain.v
Chain.v
LamportCap.v
StateMachine.v
Fold.v
FoldRun.v
Store.v
Client.v
Gate.v
Claims.v
Approvals.v
Mapping.v
Tracker.v
Ports.v
Sandbox.v
Native.v
HostSandbox.v
RunnerSpec.v
ShellRunner.v
Watching.v
Confining.v
Running.v
Manager.v
Workspaces.v
Proofs.v
Workers.v
TaskLists.v
Discovering.v
Retention.v
Trust.v
Orchestrator.v
TurnFacts.v
Traced.v
Orchestrating.v
Settling.v
Slots.v
Recovering.v
Transport.v
Signer.v
GossipClient.v
X0xdClient.v
Auth.v
WorkflowConfig.v
Literals.v
Configured.v
Api.v
Requests.v
Shown.v
ApiClient.v
Cli.v
Symphonyd.v
Fixture.v
Sandboxed.v
Rehearsal.v
TaskTracking.v
TaskLife.v
TaskBoard.v
Guarantees.v
Dispatching.v
Tracking.v
Serving.v
Peers.v
Desk.v
Asking.v
Networked.v
Wired.v
