(* ===== verification/Prelude.v ===== *)
(** * Verification of x0x-symphony

    x0x-symphony is a distributed issue tracker and agent dispatcher.  Agents
    share an issue list through per-author append-only key-value stores; every
    record is signed; and every reader computes the state of the list by a pure
    deterministic _fold_ over the records.  An orchestrator polls the tracker,
    claims issues under a concurrency budget, decides whether an issue from the
    network may run at all, drives an agent in a workspace through hooks and
    retries, keeps proofs of each run, and recovers on startup.  The agent is a
    child process of the shell runner, inside a sandbox of the host.  An older
    tracker keeps its issues in the task lists of the x0xd daemon with signed
    side records; daemons find each other by worker cards they gossip.  A daemon
    is configured by a workflow file, talks to its local x0xd over HTTP, and is
    asked through a local REST API by a command line.

    ** Parts and files

    General parts:
    - [Prelude] (this file): Rust's [Result] with the question-mark operator
      ([let?], [bail]), machine integers as [N] with their saturating and
      wrapping additions, [Ord] as the class [RustOrd], stable sort,
      [dedup_by], [BTreeMap] iteration, string functions, the tactics [ok_inv]
      and [guards], and the hint databases [ordering] and [lists].
    - [Effects]: the monad [Run] of stateful fallible code, inversion of
      successful runs ([run_inv]) and the logic [ensures] for invariants on
      both outcomes (tactic [keeps], hint database [effects]).
    - [Text], [Files]: Rust's string and path functions; the file system and
      hook processes as classes ([Fs], [HookProcess]), with instances that log
      every call ([LoggedFs], [LoggedProcess]).  [Disk]: a disk in memory.

    The v2 integrity layer (x0x-symphony-tracker-x0x-crdt/src/v2):
    - [Wire] (events.rs): topics, keys, list references, envelopes and payload
      types.  The class [Extern] declares SHA-256, ML-DSA-65, base64 and the
      serde_json decoders.  [Identity] (identity.rs, sha256_hex of
      core/signing.rs): the signing buffer, agent ids, [envelope_verify].
    - [FoldTypes], [Canonical], [Admission], [RosterChain], [Chain],
      [LamportCap], [StateMachine], [Fold] (fold.rs): the data of the fold and
      its steps in the order fold_v2 runs them.  [FoldRun] proves the facts of
      a successful fold that the guarantees share ([fold_facts]).
    - [Store] (store.rs): [V2StoreManager] over an abstract daemon.  [Gate]
      (gate.rs): [evaluate_and_consume], [confirm_decision],
      [build_claim_transition].
    - [Tracker] (tracker.rs): every operation of the v2 tracker adapter.

    The task-list tracker (x0x-symphony-tracker-x0x-crdt/src):
    - [Client] (client.rs): the data of the HTTP client; its calls are fields of
      the classes of the trackers.  [Mapping] (mapping.rs, and the payloads of
      core/signing.rs): side records, and tasks to issues and back.
      [TaskLists] (lib.rs): every operation of [X0xCrdtTracker] and its builder.

    Worker discovery (core/workers.rs, x0x-symphony-bin/src/workers.rs):
    - [Events]: the framing of the event stream.  [Workers]: cards, the worker
      view, publishing, receiving and reaping, the consumer's loop and the
      daemon's.

    The sandbox (saorsa-sandbox/src):
    - [Sandbox] (lib.rs): specifications, and a command wrapped for each
      backend as plain functions.  [Native] (linux.rs): the native backend: a
      launcher that restricts itself before it becomes the target, control
      groups and private directories.  [HostSandbox] (lib.rs): the choice of a
      backend, sessions, the self-test.

    The shell runner (x0x-symphony-runner-shell/src):
    - [RunnerSpec] (spec.rs, env.rs, error.rs, preset): specifications, presets,
      the workflow's runner block, the environment of a child.  [ShellRunner]
      (runner.rs): sessions, the bounded event queue and the turn; it implements
      the class [RunnerApi] of [Ports].  The tasks of a turn are a list of
      completed steps at each point where the turn waits, and there the
      shutdown may drop the turn.
    - [Watching]: the operating system lifted to a world that also keeps the
      calls that change it; [logs c L] says what calls a run makes.

    The core crate:
    - [Core] (issue.rs, claim.rs, handoff.rs, error.rs), [Approvals]
      (approval.rs), [Claims] (claim.rs, shard.rs, and reconcile.rs of the
      orchestrator: Modules [Shards] and [Reconcile]), [Ports] (tracker.rs,
      runner.rs, workspace.rs, workflow.rs and the traits of the signing
      crate): the interfaces as classes over a world, on which any number of
      other agents act between two calls.

    Workspaces (x0x-symphony-workspace): [Containment] (containment.rs),
    [Manager] (manager.rs, error.rs; it implements the class [WorkspaceApi] of
    [Ports]).

    The orchestrator crate:
    - [Scheduling] (concurrency.rs, retry.rs), [Proofs] (proofs.rs, reaper.rs,
      error.rs), [Trust] (trust_gate.rs, clock.rs), [Orchestrator] (lib.rs,
      dispatch.rs, orphans.rs): the dispatcher over the classes of [Ports].
      Its state is a record of the budget, the registered runs, the live
      heartbeat tasks, the guard of the run at hand, and the world.
    - [Traced]: each interface lifted to a world that also keeps the calls with
      their answers; [emits c L] says what calls a run makes.

    The clients of x0xd: [Transport]: requests, responses and the decoding the
    clients share, over the class [Transport].  [Signer]
    (x0x-symphony-signing/src/lib.rs): the signing client and its resolver of
    keys, on a world that also holds the client's one key.  [X0xdClient]
    (client.rs of the tracker crate): every call as a request; it implements
    the interfaces of the two trackers.  [GossipClient] (workers.rs).

    The daemon and its command line (x0x-symphony-bin/src):
    - [Auth] (auth.rs, constant_time_eq of core/signing.rs): the token file.
      [WorkflowConfig] (config.rs): the workflow file; a parser notes problems
      beside its world, and its [None] is the error of the monad [PM].  [Api]
      (api.rs): authentication, the router's table and the handlers, over the
      classes of [Ports] and the class [Axum].
    - [ApiClient] (client.rs), [Cli] (cli.rs, bin/x0x-symphony.rs): the client
      of the API, the commands and what they print.  [Symphonyd]
      (bin/x0x-symphonyd.rs): what the daemon builds before it serves
      ([prepare]), its start, its scans of the proofs and its events.

    Theorems: [Guarantees], [Dispatching] (fold, store, gate), [Tracking] (v2
    tracker), [TaskTracking], [TaskLife] (task-list tracker), [Discovering]
    (worker discovery), [Workspaces], [Retention], [Confining] (the native
    sandbox), [Running], [TurnFacts] (the shell runner), [Orchestrating] (who
    is dispatched), [Settling] (how a run ends), [Slots] (slots and
    heartbeats), [Recovering] (reconciliation and the orphan sweep), [Literals]
    and [Configured] (the workflow file; [parses c Q]: a parser that notes no
    problem gives a value in [Q]), [Requests] and [Shown] (the API), [Peers]
    (what a daemon takes from its peers), [Desk] (what a started daemon holds, its
    scans, and what the command line finds of it), [Asking] (the command line and
    the API).
    [Fixture], [Rehearsal], [TaskBoard], [Sandboxed], [Serving], [Networked] and
    [Wired] are concrete instances of every interface on which the theorems are
    applied: two authors' lists, a whole daemon in memory, a task list, a
    sandboxed turn, a workflow file with the API in front of one issue, an x0xd
    over HTTP with a peer's task and a directory a daemon starts in, and an HTTP
    stack between the command line and the API.

    Names are the source's.  Struct fields carry a prefix of their type
    ([tr_] for TransitionEventV2, [fo_] for FoldOutput, and so on); the
    variants of enums carry one where they would clash ([Tk], [St], [Rc],
    [Trust], ...); the struct Admitted is [AdmittedEvent]; V2StoreError::Invalid
    is [InvalidRecord].  A loop is a [foldl] of a step function, or a [Fixpoint]
    where it can stop early; parts of long functions that have a name here
    ([raw_budget], [phase1], [attempt_round], [kept_events], ...) are the
    consecutive parts of the function the name of the whole definition gives.

    ** What the theorems show

    - The fold is a function of the set of records: order, duplicates and
      splitting of streams do not matter.
    - Nothing enters the state without a valid signature of its author for
      this list, in a roster the creator signed; every rejection is reported.
    - An issue's state is a run of the abstract transition system
      [status_step]; the first claim in fold order wins; completion is final;
      a blocked issue is requeued only with a signed approval; the consume and
      handoff ledgers hold exactly what their fences allow.
    - Each author's accepted events are the longest unambiguous hash chain;
      the lamport cap keeps the greatest clean set and its loop terminates.
    - The store manager never overwrites a record, what it appends is admitted
      and what it reads is within the fold's budgets.
    - The gate proceeds only on an approval that the confirming fold shows as
      spent by its own consume; at most one gate proceeds on agreed records;
      it refuses exactly for the stated reasons without writing.
    - What the v2 tracker reports as claimed, handed off or requeued is what
      every reader of the same records sees.
    - A workspace operation stays in its root and destroys only validated
      children; captured hook output is bounded.
    - A run of the orchestrator touches a workspace or the runner only after
      answers that authorise it; settles its claim once, as it reports; makes
      at most the configured turns; stops each session; and gives back its
      slot and heartbeat on every exit.  Recovery touches only what it may.
    - The task-list tracker implements an abstract life of each issue; under
      required signing it shows only claims, handoffs and provenance that their
      owners signed for the issue.
    - A worker view holds only verified cards; cutting the event stream into
      chunks does not matter; one unsigned card with an oversized time to live
      ends the consumer.
    - Work from the network is spawned only inside the sandbox; the launcher
      becomes its target only under the enforced rules of the configuration it
      was sent, which is the plan; a turn gives back what its sandbox took
      unless it is dropped, and a dropped turn abandons its child; the event
      queue loses only the oldest events; a child's environment is exact, and
      its exit code survives to the proof of the run.
    - The reaper deletes only expired runs; artifacts come from the workspace.
    - A workflow file is refused with every problem that was noted and never for
      an internal gap; an accepted one is well formed, and the daemon takes it
      unless a state is blank; a duration is read back from count and unit.
    - A request makes the daemon read only below the proofs directory, and
      changes nothing unless it is a POST with the token; the exemption of
      OPTIONS lets anyone read the proofs; a submitted consent is stored
      signed, binding what the operator was shown, before the issue moves; the
      list of pending approvals is exact.
    - With the signing client the daemon is built with, which knows one key, a
      peer's worker card is never taken and a peer's records are never shown.
    - The scans of the proofs spare what is in flight or in progress; the
      command line finds the daemon that runs in its data directory, and a command
      does what the handler it is meant for does.
    - A started daemon's parts agree with each other and with a well-formed
      workflow file.
    - Shards are the closest workers; conflicting claims have one winner;
      heartbeats keep claims fresh; the budget refines a multiset of slots;
      the backoff is the capped product it means to be.

    ** Assumptions

    Hypotheses on code outside the repository are fields of classes:
    [ExternLaws] (sequence numbers decoded from JSON are [u64] values),
    [EncodeLaws] (codecs round-trip, payloads are not empty), [ChronoFormatLaws]
    (a timestamp format round-trips); [HonestSigner] says what the local
    daemon's signing call returns.  [TrackerLaws] is what the orchestrator takes
    for granted of any tracker: a granted claim names the issue asked for.  No
    theorem assumes collision resistance or unforgeability: authenticity is
    stated as the existence of a record whose signature verifies, or of the
    answers of a verifier.  [TaskLife] assumes of the x0xd daemon that nobody
    else writes to it ([QuietX0xd]) and that the codecs of side records round
    trip; [Confining] that the codec of the launcher's configuration does.
    [AxumLaws] says that the router matches the path of the one exempt route
    with that route only; [OneSigner] that an x0xd signs as one agent;
    [KeepsFiles] that a file reads as it was written; [StackLaws] what the HTTP
    library, the router, the extractors and serde_json do with the requests of
    the command line and the answers of the API.  [Fixture], [Retention],
    [Rehearsal], [TaskBoard], [Sandboxed], [Serving], [Networked] and [Wired]
    satisfy them.

    ** Fuel and bounds

    [walk_rosters] runs on [S (size by_epoch)]: every round consumes one epoch
    of the map, which [walk_rosters_spec] uses.  [cap_loop] runs on one round
    more than there are candidates; [lamport_cap_terminates] shows that this is
    enough.  [attempt_loop] runs on the attempts that are left below the
    maximum; [retry_loop_ends] shows that this is enough.  The daemon loop
    never ends by itself: [drain], [poll_loop] and [wait_drained] take the
    number of rounds to look at, and theorems hold for every number.  Counters
    are [N] with the [u64] operations of the source; [next_chain_link] and the
    roster epoch use the wrapping addition of a release build.  Instants and
    durations are in nanoseconds and stay far within the ranges of their Rust
    types.

    ** Not modelled

    Log messages; JSON, YAML, base64, cryptography, chrono's formats, the HTTP
    library, the file system, processes, sockets and the Landlock crate
    (parameters); the serde implementations and builder methods of the core
    types; what only Windows or other systems without Unix processes compile; a
    drop of a turn halfway through the hook of a started child; the matching of
    paths, the extractors and the event stream's transport of the web framework;
    the parsing of arguments and of socket addresses; tracing, signals, and the
    select between the daemon's poll loop and its server.  The tasks the daemon
    spawns are modelled as sequential runs. *)

From Stdlib Require Export Ascii.
From stdpp Require Export sorting base strings pretty gmap numbers list.

(** ** Results and early returns *)

(** Rust's [Result<A, E>]. *)
Inductive result (A E : Type) : Type :=
  | Ok (a : A)
  | Err (e : E).
Arguments Ok {A E} _.
Arguments Err {A E} _.

Declare Scope rust_scope.
Delimit Scope rust_scope with rust.
Open Scope rust_scope.

(** The question-mark operator: continue with the value, or return the error. *)
Notation "'let?' x := c 'in' k" :=
  (match c with Ok x => k | Err e => Err e end)
  (at level 10, x pattern, c at level 200, k at level 200) : rust_scope.

(** [if cond { return Err(e) }]. *)
Notation "'bail' e 'when' b ; k" :=
  (if b then Err e else k)
  (at level 10, e at level 99, b at level 99, k at level 200) : rust_scope.

Definition map_err {A E F} (f : E → F) (r : result A E) : result A F :=
  match r with Ok a => Ok a | Err e => Err (f e) end.

Definition ok_or {A E} (o : option A) (e : E) : result A E :=
  match o with Some a => Ok a | None => Err e end.

Definition is_ok {A E} (r : result A E) : bool :=
  match r with Ok _ => true | Err _ => false end.

(** The value of a computation known to succeed. *)
Definition ok_get {A E} (r : result A E) : is_ok r = true → A :=
  match r with
  | Ok a => λ _, a
  | Err _ => λ H, False_rect A (eq_ind false (λ b, if b then False else True) I true H)
  end.

Lemma ok_get_eq {A E} (r : result A E) (H : is_ok r = true) : r = Ok (ok_get r H).
Proof. by destruct r. Qed.

#[export] Instance result_eq_dec `{EqDecision A, EqDecision E} : EqDecision (result A E).
Proof. solve_decision. Defined.

Lemma ok_or_Ok {A E} (o : option A) (e : E) a : ok_or o e = Ok a ↔ o = Some a.
Proof. destruct o; naive_solver. Qed.

Lemma map_err_Ok {A E F} (f : E → F) (r : result A E) a : map_err f r = Ok a ↔ r = Ok a.
Proof. destruct r; naive_solver. Qed.

(** Invert a computation made of [let?], [bail] and [match] that returned [Ok]. *)
Ltac ok_step :=
  match goal with
  | H : ok_or _ _ = Ok _ |- _ => apply ok_or_Ok in H
  | H : map_err _ _ = Ok _ |- _ => apply map_err_Ok in H
  | H : Ok _ = Ok _ |- _ => injection H as H; subst
  | H : Err _ = Ok _ |- _ => discriminate H
  | H : (let (_, _) := ?p in _) = Ok _ |- _ => destruct p
  | H : (match ?c with Ok _ => _ | Err _ => _ end) = Ok _ |- _ =>
      let E := fresh "Hok" in destruct c eqn:E; [|discriminate H]
  | H : (if ?b then Err _ else _) = Ok _ |- _ =>
      let E := fresh "Hg" in destruct b eqn:E; [discriminate H|]
  end.
Ltac ok_inv := repeat ok_step.

(** Turn the boolean guards collected by [ok_inv] into propositions. *)
Ltac guards :=
  repeat match goal with
  | H : bool_decide _ = true |- _ => apply bool_decide_eq_true_1 in H
  | H : bool_decide _ = false |- _ => apply bool_decide_eq_false_1 in H
  | H : (_ || _) = false |- _ => apply orb_false_iff in H as [? ?]
  | H : (_ && _) = true |- _ => apply andb_true_iff in H as [? ?]
  | H : negb _ = false |- _ => apply negb_false_iff in H
  | H : negb _ = true |- _ => apply negb_true_iff in H
  | H : ¬ ¬ _ |- _ => apply dec_stable in H
  end.

(** ** Bytes and machine integers *)

(** A Rocq [string] is a sequence of 8-bit characters.  It models both [&str]
    (whose contents are its UTF-8 bytes) and [Vec<u8>]; [String.compare] is
    the byte-wise lexicographic order both types have. *)
Abbreviation bytes := string (only parsing).

(** [usize] counts and [u64] fields are values of [N] below [2^64]. *)
Definition u64_max : N := 18446744073709551615.
Definition u32_max : N := 4294967295.

(** [u64::saturating_add] and the wrapping [+] of a release build. *)
Definition sat_add64 (a b : N) : N := N.min (a + b) u64_max.
Definition wrap_add64 (a b : N) : N := (a + b) mod (u64_max + 1).

(** [Vec::len] and [str::len]. *)
Definition llen {A} (l : list A) : N := N.of_nat (length l).
Definition blen (b : bytes) : N := N.of_nat (String.length b).

Lemma sat_add64_le a b : (sat_add64 a b ≤ a + b)%N.
Proof. unfold sat_add64. lia. Qed.

Lemma wrap_add64_small a b : (a + b ≤ u64_max → wrap_add64 a b = a + b)%N.
Proof. intros H. unfold wrap_add64. apply N.mod_small. lia. Qed.

Lemma wrap_add64_succ_max : wrap_add64 u64_max 1 = 0%N.
Proof. reflexivity. Qed.

Lemma llen_app {A} (l k : list A) : llen (l ++ k) = (llen l + llen k)%N.
Proof. unfold llen. rewrite length_app. lia. Qed.

(** The elements of [l ++ [a]], each with the prefix before it. *)
Lemma split_snoc {A} (P : list A → A → Prop) (l : list A) (a : A) :
  (∃ pre b post, l ++ [a] = pre ++ b :: post ∧ P pre b) ↔
  P l a ∨ ∃ pre b post, l = pre ++ b :: post ∧ P pre b.
Proof.
  split.
  - intros (pre&b&post&Heq&He). destruct post as [|z post _] using rev_ind.
    + apply app_inj_tail in Heq as [-> ->]. by left.
    + rewrite app_comm_cons, app_assoc in Heq. apply app_inj_tail in Heq as [-> ->]. right. eauto.
  - intros [He|(pre&b&post&->&He)]; [by exists l, a, []|].
    exists pre, b, (post ++ [a]). by rewrite <-app_assoc.
Qed.

(** ** Rust's [Ord] and its stable sort *)

Class RustOrd (K : Type) := {
  rcmp : K → K → comparison;
  rcmp_eq : ∀ a b, rcmp a b = Eq ↔ a = b;
  rcmp_antisym : ∀ a b, rcmp b a = CompOpp (rcmp a b);
  rcmp_trans : ∀ a b c, rcmp a b = Lt → rcmp b c = Lt → rcmp a c = Lt
}.

#[export] Program Instance N_ord : RustOrd N := {| rcmp := N.compare |}.
Next Obligation. intros. apply N.compare_eq_iff. Qed.
Next Obligation. intros. apply N.compare_antisym. Qed.
Next Obligation. intros a b c. rewrite !N.compare_lt_iff. lia. Qed.

Lemma string_compare_refl (s : string) : String.compare s s = Eq.
Proof.
  induction s as [|c s IH]; [done|]. simpl. unfold Ascii.compare.
  by rewrite N.compare_refl.
Qed.

Lemma string_compare_lt_trans (a b c : string) :
  String.compare a b = Lt → String.compare b c = Lt → String.compare a c = Lt.
Proof.
  revert b c. induction a as [|x a IH]; intros [|y b] [|z c]; simpl; try done.
  destruct (Ascii.compare x y) eqn:Exy; try done.
  - apply Ascii.compare_eq_iff in Exy as ->.
    destruct (Ascii.compare y z); [apply IH|done|done].
  - destruct (Ascii.compare y z) eqn:Eyz; try done; intros _ _.
    + apply Ascii.compare_eq_iff in Eyz as ->. by rewrite Exy.
    + assert (Ascii.compare x z = Lt) as ->; [|done].
      unfold Ascii.compare in *. rewrite N.compare_lt_iff in *. lia.
Qed.

#[export] Program Instance string_ord : RustOrd string := {| rcmp := String.compare |}.
Next Obligation.
  intros a b. split; [apply String.compare_eq_iff|intros ->; apply string_compare_refl].
Qed.
Next Obligation. intros. apply String.compare_antisym. Qed.
Next Obligation. exact string_compare_lt_trans. Qed.

(** Tuples compare lexicographically; a triple is a nested pair. *)
Definition pair_cmp {A B} (ca : A → A → comparison) (cb : B → B → comparison)
    (p q : A * B) : comparison :=
  match ca p.1 q.1 with Eq => cb p.2 q.2 | c => c end.

#[export] Program Instance prod_ord `{RustOrd A, RustOrd B} : RustOrd (A * B) :=
  {| rcmp := pair_cmp rcmp rcmp |}.
Next Obligation.
  intros A oa B ob [a b] [a' b']. unfold pair_cmp; simpl.
  destruct (rcmp a a') eqn:E.
  - apply rcmp_eq in E as ->. rewrite rcmp_eq. naive_solver.
  - split; [done|]. intros [= -> ->]. assert (rcmp a' a' = Eq) by by apply rcmp_eq. congruence.
  - split; [done|]. intros [= -> ->]. assert (rcmp a' a' = Eq) by by apply rcmp_eq. congruence.
Qed.
Next Obligation.
  intros A oa B ob [a b] [a' b']. unfold pair_cmp; simpl.
  rewrite (rcmp_antisym a a'), (rcmp_antisym b b'). by destruct (rcmp a a').
Qed.
Next Obligation.
  intros A oa B ob [a b] [a' b'] [a'' b'']. unfold pair_cmp; simpl.
  destruct (rcmp a a') eqn:E1; try done; destruct (rcmp a' a'') eqn:E2; try done; intros H1 H2.
  - apply rcmp_eq in E1 as ->. apply rcmp_eq in E2 as ->.
    assert (rcmp a'' a'' = Eq) as -> by by apply rcmp_eq. by eapply rcmp_trans.
  - apply rcmp_eq in E1 as ->. by rewrite E2.
  - apply rcmp_eq in E2 as ->. by rewrite E1.
  - by rewrite (rcmp_trans _ _ _ E1 E2).
Qed.

Lemma rcmp_refl `{RustOrd K} (a : K) : rcmp a a = Eq.
Proof. by apply rcmp_eq. Qed.

(** [a <= b] in the order of a key. *)
Definition ord_le `{RustOrd K} (a b : K) : Prop := rcmp a b ≠ Gt.
Definition ord_lt `{RustOrd K} (a b : K) : Prop := rcmp a b = Lt.

Section ord_facts.
Context `{HK : RustOrd K}.
Implicit Types a b c : K.

Lemma ord_le_lt_or_eq a b : ord_le a b ↔ ord_lt a b ∨ a = b.
Proof.
  unfold ord_le, ord_lt. destruct (rcmp a b) eqn:E.
  - apply rcmp_eq in E. naive_solver.
  - naive_solver.
  - split; [done|]. intros [?| ->]; [done|]. by rewrite rcmp_refl in E.
Qed.
Lemma rcmp_gt_lt a b : rcmp a b = Gt ↔ ord_lt b a.
Proof. unfold ord_lt. rewrite (rcmp_antisym a b). by destruct (rcmp a b). Qed.
Lemma ord_lt_irrefl a : ¬ ord_lt a a.
Proof. unfold ord_lt. by rewrite rcmp_refl. Qed.
#[export] Instance ord_lt_trans : Transitive ord_lt.
Proof. intros a b c. apply rcmp_trans. Qed.
#[export] Instance ord_le_trans : Transitive ord_le.
Proof.
  intros a b c. rewrite !ord_le_lt_or_eq. intros [H1| ->] [H2| ->]; eauto.
  left. by etrans.
Qed.
#[export] Instance ord_le_antisym : AntiSymm (=) ord_le.
Proof.
  intros a b. rewrite !ord_le_lt_or_eq. intros [H1|?] [H2|?]; try done.
  destruct (ord_lt_irrefl a). by etrans.
Qed.
#[export] Instance ord_le_total : Total ord_le.
Proof.
  intros a b. unfold ord_le. rewrite (rcmp_antisym a b). destruct (rcmp a b); auto.
Qed.
Lemma ord_le_refl a : ord_le a a.
Proof. unfold ord_le. by rewrite rcmp_refl. Qed.
End ord_facts.

(** [slice::sort_by] / [sort_by_key]: a stable sort by the key [f]. *)
Section sort_by.
Context {A : Type} `{HK : RustOrd K} (f : A → K).
Implicit Types (x y : A) (l k : list A).

Fixpoint insert_by x l : list A :=
  match l with
  | [] => [x]
  | y :: l' => match rcmp (f x) (f y) with Gt => y :: insert_by x l' | _ => x :: l end
  end.

Definition sort_by l : list A := foldr insert_by [] l.

Definition key_le x y : Prop := ord_le (f x) (f y).

#[export] Instance key_le_trans : Transitive key_le.
Proof. intros x y z. unfold key_le. apply ord_le_trans. Qed.

Lemma insert_by_perm x l : insert_by x l ≡ₚ x :: l.
Proof.
  induction l as [|y l IH]; simpl; [done|].
  destruct (rcmp (f x) (f y)); [done..|]. rewrite IH. constructor.
Qed.

Lemma sort_by_perm l : sort_by l ≡ₚ l.
Proof. induction l as [|x l IH]; simpl; [done|]. by rewrite insert_by_perm, IH. Qed.

Lemma elem_of_sort_by x l : x ∈ sort_by l ↔ x ∈ l.
Proof. by rewrite sort_by_perm. Qed.

Lemma length_sort_by l : length (sort_by l) = length l.
Proof. by rewrite sort_by_perm. Qed.

Lemma insert_by_sorted x l :
  StronglySorted key_le l → StronglySorted key_le (insert_by x l).
Proof.
  induction 1 as [|y l Hs IH Hall]; simpl; [repeat constructor|].
  destruct (rcmp (f x) (f y)) eqn:E.
  1, 2: assert (key_le x y) by (unfold key_le, ord_le; congruence);
    constructor; [by constructor|]; constructor; [done|];
    (eapply Forall_impl; [exact Hall|]); intros z Hz; by etrans.
  constructor; [done|]. rewrite insert_by_perm. constructor; [|done].
  apply ord_le_lt_or_eq. left. by apply rcmp_gt_lt.
Qed.

Lemma sort_by_sorted l : StronglySorted key_le (sort_by l).
Proof. induction l; simpl; [constructor|]. by apply insert_by_sorted. Qed.

(** On a list where the key identifies the element, the sorted order depends
    only on the multiset of elements. *)
Lemma sort_by_unique l k :
  (∀ x y, x ∈ l → y ∈ l → f x = f y → x = y) → l ≡ₚ k → sort_by l = sort_by k.
Proof.
  intros Hinj Hlk. apply (StronglySorted_unique_strong key_le); try apply sort_by_sorted.
  - intros x y Hx Hy Hxy Hyx. rewrite elem_of_sort_by in Hx, Hy.
    apply Hinj; [done|by rewrite Hlk|]. by apply ord_le_antisym.
  - by rewrite !sort_by_perm.
Qed.

Lemma insert_by_le_head x l : Forall (key_le x) l → insert_by x l = x :: l.
Proof.
  destruct l as [|y l]; [done|]. intros Hall. inversion_clear Hall as [|?? Hy _]. simpl.
  unfold key_le, ord_le in Hy. by destruct (rcmp (f x) (f y)).
Qed.

(** Sorting a sorted list changes nothing (stability on a whole list). *)
Lemma sort_by_id l : StronglySorted key_le l → sort_by l = l.
Proof.
  induction 1 as [|x l Hs IH Hall]; simpl; [done|]. rewrite IH. by apply insert_by_le_head.
Qed.
End sort_by.

(** [Vec::dedup_by] on a key: keep the first of each run of equal keys. *)
Fixpoint dedup_by {A K} `{EqDecision K} (f : A → K) (l : list A) : list A :=
  match l with
  | [] => []
  | x :: l' =>
      match dedup_by f l' with
      | [] => [x]
      | y :: k => if bool_decide (f x = f y) then x :: k else x :: y :: k
      end
  end.

(** [Vec::dedup]. *)
Definition dedup {A} `{EqDecision A} (l : list A) : list A := dedup_by id l.

Lemma elem_of_dedup_by {A K} `{EqDecision K} (f : A → K) x l : x ∈ dedup_by f l → x ∈ l.
Proof.
  revert x. induction l as [|y l IH]; intros x; simpl; [done|].
  destruct (dedup_by f l) as [|z k]; [set_solver|].
  case_bool_decide; rewrite !elem_of_cons in *; intros [->|Hx]; auto.
  - right. apply IH. apply elem_of_cons. by right.
  - right. apply IH. by apply elem_of_cons.
Qed.

Lemma dedup_by_keys {A K} `{EqDecision K} (f : A → K) k l :
  k ∈ f <$> dedup_by f l ↔ k ∈ f <$> l.
Proof.
  induction l as [|y l IH]; simpl; [done|]. rewrite elem_of_cons, <-IH.
  destruct (dedup_by f l) as [|z k']; simpl; [by rewrite elem_of_cons|].
  case_bool_decide as E; simpl; rewrite !elem_of_cons; [rewrite E|]; tauto.
Qed.

Lemma elem_of_dedup {A} `{EqDecision A} (x : A) l : x ∈ dedup l ↔ x ∈ l.
Proof. pose proof (dedup_by_keys id x l) as H. by rewrite !list_fmap_id in H. Qed.

(** ** [BTreeMap]: a finite map iterated in key order *)

Section btree.
Context {K : Type} `{Countable K} {HK : RustOrd K} {V : Type}.
Implicit Types m : gmap K V.

Definition btree_iter m : list (K * V) := sort_by fst (map_to_list m).
Definition btree_values m : list V := snd <$> btree_iter m.

Lemma elem_of_btree_iter m k v : (k, v) ∈ btree_iter m ↔ m !! k = Some v.
Proof. unfold btree_iter. by rewrite elem_of_sort_by, elem_of_map_to_list. Qed.

Lemma elem_of_btree_values m v : v ∈ btree_values m ↔ ∃ k, m !! k = Some v.
Proof.
  unfold btree_values. rewrite list_elem_of_fmap. split.
  - intros [[k w] [-> Hkw]]. exists k. by apply elem_of_btree_iter.
  - intros [k Hk]. exists (k, v). by rewrite elem_of_btree_iter.
Qed.

Lemma NoDup_btree_keys m : NoDup (btree_iter m).*1.
Proof. unfold btree_iter. rewrite sort_by_perm. apply NoDup_fst_map_to_list. Qed.

Lemma btree_iter_sorted m : StronglySorted (key_le fst) (btree_iter m).
Proof. apply sort_by_sorted. Qed.

Lemma length_btree_iter m : length (btree_iter m) = size m.
Proof. unfold btree_iter. by rewrite length_sort_by, length_map_to_list. Qed.
End btree.

(** Iterations of two maps related pointwise are related pointwise. *)
Lemma sorted_keys_eq {K} `{HK : RustOrd K} (l1 l2 : list K) :
  NoDup l1 → NoDup l2 → StronglySorted ord_le l1 → StronglySorted ord_le l2 →
  (∀ k, k ∈ l1 ↔ k ∈ l2) → l1 = l2.
Proof.
  intros ???? Hk. apply (StronglySorted_unique ord_le); [done..|]. by apply NoDup_Permutation.
Qed.

Lemma StronglySorted_keys {A K} `{HK : RustOrd K} (f : A → K) (l : list A) :
  StronglySorted (key_le f) l → StronglySorted ord_le (f <$> l).
Proof.
  induction 1 as [|x l Hs IH Hall]; simpl; constructor; [done|]. by apply Forall_fmap.
Qed.

Lemma btree_iter_Forall2 {K V W} `{Countable K} {HK : RustOrd K} (R : K → V → W → Prop)
    (m1 : gmap K V) (m2 : gmap K W) :
  (∀ k, option_Forall2 (R k) (m1 !! k) (m2 !! k)) →
  Forall2 (λ p q, p.1 = q.1 ∧ R p.1 p.2 q.2) (btree_iter m1) (btree_iter m2).
Proof.
  intros HR. assert (Hk : (btree_iter m1).*1 = (btree_iter m2).*1).
  { apply sorted_keys_eq; try apply NoDup_btree_keys.
    1, 2: apply StronglySorted_keys, btree_iter_sorted.
    intros k. rewrite !list_elem_of_fmap. specialize (HR k). split.
    - intros [[k' v] [-> Hv%elem_of_btree_iter]]. simpl in *. rewrite Hv in HR.
      inversion HR as [? w _ E1 E2|]. exists (k', w). by rewrite elem_of_btree_iter.
    - intros [[k' w] [-> Hw%elem_of_btree_iter]]. simpl in *. rewrite Hw in HR.
      inversion HR as [v ? _ E1 E2|]. exists (k', v). by rewrite elem_of_btree_iter. }
  apply Forall2_same_length_lookup. split.
  { apply (f_equal length) in Hk. by rewrite !length_fmap in Hk. }
  intros i [k v] [k' w] Hi Hi'. simpl.
  assert (k = k') as <-.
  { apply (f_equal (λ l, l !! i)) in Hk. rewrite !list_lookup_fmap, Hi, Hi' in Hk.
    by injection Hk. }
  split; [done|]. apply list_elem_of_lookup_2, elem_of_btree_iter in Hi, Hi'.
  specialize (HR k). rewrite Hi, Hi' in HR. by inversion HR.
Qed.

(** Sorting by an identifying key and dropping repetitions depends only on
    the set of elements. *)
Section sort_dedup.
Context {A K : Type} `{HK : RustOrd K} `{EqDecision A} (f : A → K) {Hf : Inj (=) (=) f}.

Lemma dedup_sorted (l : list A) :
  StronglySorted (key_le f) l →
  StronglySorted (key_le f) (dedup l) ∧ NoDup (dedup l).
Proof.
  induction 1 as [|x l Hs [IHs IHn] Hall]; [split; constructor|].
  assert (Hall' : Forall (key_le f x) (dedup l)).
  { rewrite Forall_forall in Hall |- *. intros y Hy. by apply Hall, elem_of_dedup. }
  unfold dedup in *. simpl.
  destruct (dedup_by id l) as [|y k]; [split; repeat constructor; set_solver|].
  case_bool_decide as E; [by rewrite (E : x = y)|]. split; [by constructor|].
  constructor; [|done].
  intros Hin%elem_of_cons. destruct Hin as [?|Hin]; [done|].
  inversion IHs as [|?? _ Hyk]. rewrite Forall_forall in Hyk. apply E.
  inversion Hall' as [|?? Hxy _]. apply Hf. apply (anti_symm ord_le); [done|].
  by apply Hyk.
Qed.

Lemma sort_dedup_set (l1 l2 : list A) :
  (∀ x, x ∈ l1 ↔ x ∈ l2) → dedup (sort_by f l1) = dedup (sort_by f l2).
Proof.
  intros Hset. destruct (dedup_sorted _ (sort_by_sorted f l1)) as [Hs1 Hn1].
  destruct (dedup_sorted _ (sort_by_sorted f l2)) as [Hs2 Hn2].
  apply (StronglySorted_unique_strong (key_le f)); try done.
  - intros x y _ _ Hxy Hyx. apply Hf. by apply (anti_symm ord_le).
  - apply NoDup_Permutation; [done..|]. intros x.
    by rewrite !elem_of_dedup, !elem_of_sort_by.
Qed.
End sort_dedup.

(** ** Strings *)

Fixpoint str_all (p : ascii → bool) (s : string) : bool :=
  match s with
  | EmptyString => true
  | String c s' => p c && str_all p s'
  end.

(** [str::strip_prefix] and [str::starts_with]. *)
Fixpoint strip_prefix (p s : string) : option string :=
  match p, s with
  | EmptyString, _ => Some s
  | String a p', String b s' => if bool_decide (a = b) then strip_prefix p' s' else None
  | String _ _, EmptyString => None
  end.
Definition starts_with (p s : string) : bool := bool_decide (is_Some (strip_prefix p s)).

(** [str::split_once] on a one-byte separator. *)
Fixpoint split_once (sep : ascii) (s : string) : option (string * string) :=
  match s with
  | EmptyString => None
  | String c s' =>
      if bool_decide (c = sep) then Some (EmptyString, s')
      else match split_once sep s' with
           | Some (a, b) => Some (String c a, b)
           | None => None
           end
  end.

(** [[String]::join]. *)
Fixpoint str_join (sep : string) (l : list string) : string :=
  match l with
  | [] => ""
  | [x] => x
  | x :: l' => x +:+ sep +:+ str_join sep l'
  end.

Definition in_byte_range (lo hi : N) (c : ascii) : bool :=
  (lo <=? N_of_ascii c)%N && (N_of_ascii c <=? hi)%N.
Definition is_ascii_digit : ascii → bool := in_byte_range 48 57.
Definition is_ascii_lowercase : ascii → bool := in_byte_range 97 122.

(** [String::from_utf8] succeeds on well-formed UTF-8 (Unicode, table 3-7). *)
Fixpoint utf8_valid (s : string) : bool :=
  match s with
  | EmptyString => true
  | String a s1 =>
      if in_byte_range 0 127 a then utf8_valid s1
      else match s1 with
      | EmptyString => false
      | String b s2 =>
          if in_byte_range 194 223 a then in_byte_range 128 191 b && utf8_valid s2
          else match s2 with
          | EmptyString => false
          | String c s3 =>
              let lo := (if bool_decide (N_of_ascii a = 224) then 160 else 128)%N in
              let hi := (if bool_decide (N_of_ascii a = 237) then 159 else 191)%N in
              if in_byte_range 224 239 a then
                in_byte_range lo hi b && in_byte_range 128 191 c && utf8_valid s3
              else match s3 with
              | EmptyString => false
              | String d s4 =>
                  let lo := (if bool_decide (N_of_ascii a = 240) then 144 else 128)%N in
                  let hi := (if bool_decide (N_of_ascii a = 244) then 143 else 191)%N in
                  in_byte_range 240 244 a && in_byte_range lo hi b && in_byte_range 128 191 c &&
                  in_byte_range 128 191 d && utf8_valid s4
              end
          end
      end
  end.

Lemma str_app_nil_r s : s +:+ "" = s.
Proof. induction s as [|c s IH]; [done|]. change (String c (s +:+ "") = String c s). by rewrite IH. Qed.

Lemma str_app_cons c s t : String c s +:+ t = String c (s +:+ t).
Proof. done. Qed.

Lemma str_cons_inj c (a b : string) : String c a = String c b → a = b.
Proof. congruence. Qed.

Lemma str_app_assoc (a b c : string) : (a +:+ b) +:+ c = a +:+ (b +:+ c).
Proof. induction a as [|x a IH]; [done|]. by rewrite !str_app_cons, IH. Qed.

Lemma str_length_app (a b : string) : String.length (a +:+ b) = String.length a + String.length b.
Proof. induction a as [|x a IH]; [done|]. rewrite str_app_cons. simpl. by rewrite IH. Qed.

(** Two concatenations whose right parts (or left parts) have equal length
    agree componentwise. *)
Lemma str_app_inj_l (a a' b b' : string) :
  String.length a = String.length a' → a +:+ b = a' +:+ b' → a = a' ∧ b = b'.
Proof.
  revert a'. induction a as [|x a IH]; intros [|y a'] Hlen; try done.
  rewrite !str_app_cons. intros [= -> Heq].
  destruct (IH a') as [-> ->]; [|done|done]. by simpl in Hlen; lia.
Qed.

Lemma str_app_inj_r (a a' b b' : string) :
  String.length b = String.length b' → a +:+ b = a' +:+ b' → a = a' ∧ b = b'.
Proof.
  intros Hlen Heq. apply str_app_inj_l; [|done].
  apply (f_equal String.length) in Heq. rewrite !str_length_app in Heq. lia.
Qed.

Lemma strip_prefix_Some p s r : strip_prefix p s = Some r ↔ s = p +:+ r.
Proof.
  revert s. induction p as [|a p IH]; intros s; simpl.
  { change ("" +:+ r) with r. split; [by intros [= ->]|by intros ->]. }
  destruct s as [|b s].
  - rewrite str_app_cons. done.
  - rewrite str_app_cons. case_bool_decide as E.
    + rewrite IH. subst b. split; [by intros ->|by intros [= ->]].
    + split; [done|]. intros [= Hb _]. by destruct E.
Qed.

Lemma starts_with_app p s : starts_with p (p +:+ s) = true.
Proof. apply bool_decide_eq_true_2. exists s. by apply strip_prefix_Some. Qed.

Lemma starts_with_spec p s : starts_with p s = true ↔ ∃ r, s = p +:+ r.
Proof.
  unfold starts_with. rewrite bool_decide_eq_true. unfold is_Some.
  by setoid_rewrite strip_prefix_Some.
Qed.

Lemma split_once_Some sep s a b :
  split_once sep s = Some (a, b) → s = a +:+ String sep b.
Proof.
  revert a b. induction s as [|c s IH]; intros a b; simpl; [done|].
  case_bool_decide as E; [by intros [= <- <-]; subst|].
  destruct (split_once sep s) as [[a' b']|] eqn:Es; [|done].
  intros [= <- <-]. rewrite str_app_cons. by rewrite (IH a' b').
Qed.

Lemma split_once_app sep (p : ascii → bool) a b :
  p sep = false → str_all p a = true → split_once sep (a +:+ String sep b) = Some (a, b).
Proof.
  intros Hsep. induction a as [|c a IH]; intros Hall.
  - change (EmptyString +:+ String sep b) with (String sep b). cbn [split_once].
    by rewrite bool_decide_eq_true_2.
  - cbn [str_all] in Hall. apply andb_true_iff in Hall as [Hc Ha].
    rewrite str_app_cons. cbn [split_once].
    rewrite bool_decide_eq_false_2 by congruence. by rewrite (IH Ha).
Qed.

(** ** Hint databases *)

Create HintDb ordering.
#[export] Hint Resolve ord_le_refl sort_by_sorted NoDup_btree_keys btree_iter_sorted : ordering.

Create HintDb lists.
#[export] Hint Rewrite @elem_of_dedup @elem_of_sort_by @length_sort_by : lists.
