(* ===== verification/Wire.v ===== *)
(** * Wire types of tracker integrity v2 (v2/events.rs)

    The constants, KV keys, topics and list references of the protocol, and
    every payload record of [events.rs] with its fields in source order.
    Serialization itself ([serde_json]) is third-party code and appears in
    [Identity.v] as operations of the [Extern] class. *)

From S2P Require Import Prelude.

(** ** Constants *)

Definition V2_SCHEMA : N := 2.
Definition V2_SIGN_ALGORITHM : string := "x0x.agent-sign.v2.ml-dsa-65".
Definition TRANSITION_CONTEXT_V2 : string := "x0x-symphony-transition-v2".
Definition GENESIS_CONTEXT_V2 : string := "x0x-symphony-genesis-v2".
Definition ROSTER_CONTEXT_V2 : string := "x0x-symphony-roster-v2".
Definition APPROVAL_CONTEXT_V2 : string := "x0x-symphony-approval-v2".
Definition CONSUME_CONTEXT_V2 : string := "x0x-symphony-consume-v2".
Definition HANDOFF_CONTEXT_V2 : string := "x0x-symphony-handoff-v2".
Definition V2_LIST_REF_PREFIX : string := "symphony2:".
Definition CARD_SELF_KEY : string := "card-self".
Definition GENESIS_KEY : string := "genesis".
Definition ROSTER_KEY_PREFIX : string := "roster-".
Definition EVENT_KEY_PREFIX : string := "ev-".
Definition APPROVAL_KEY_PREFIX : string := "ap-".
Definition CONSUME_KEY_PREFIX : string := "cs-".
Definition HANDOFF_KEY_PREFIX : string := "ho-".

(** ** Topics and keys *)

Definition event_store_topic (list_uuid agent_id_hex : string) : string :=
  "symphony2-ev-" +:+ list_uuid +:+ "-" +:+ agent_id_hex.
Definition heartbeat_store_topic (list_uuid agent_id_hex : string) : string :=
  "symphony2-hb-" +:+ list_uuid +:+ "-" +:+ agent_id_hex.

Definition event_key (issue_id event_hash_hex : string) : string :=
  EVENT_KEY_PREFIX +:+ issue_id +:+ "-" +:+ event_hash_hex.
Definition approval_key (issue_id event_hash_hex : string) : string :=
  APPROVAL_KEY_PREFIX +:+ issue_id +:+ "-" +:+ event_hash_hex.
Definition consume_key (issue_id event_hash_hex : string) : string :=
  CONSUME_KEY_PREFIX +:+ issue_id +:+ "-" +:+ event_hash_hex.
Definition handoff_key (issue_id event_hash_hex : string) : string :=
  HANDOFF_KEY_PREFIX +:+ issue_id +:+ "-" +:+ event_hash_hex.

(** [format!("{n:010}")]: decimal, left-padded with zeros to ten digits. *)
Fixpoint zeros (n : nat) : string :=
  match n with O => "" | S n' => String "0" (zeros n') end.
Definition pad10 (n : N) : string :=
  zeros (10 - String.length (pretty n)) +:+ pretty n.
Definition roster_key (roster_epoch : N) (event_hash_hex : string) : string :=
  ROSTER_KEY_PREFIX +:+ pad10 roster_epoch +:+ "-" +:+ event_hash_hex.

(** ** Validated identifiers and list references *)

Definition uuid_byte (b : ascii) : bool :=
  is_ascii_lowercase b || is_ascii_digit b || bool_decide (b = "-"%char).

Definition is_valid_list_uuid (list_uuid : string) : bool :=
  negb (bool_decide (list_uuid = "")) && (blen list_uuid <=? 64)%N &&
  str_all uuid_byte list_uuid.

Definition is_valid_agent_id_hex (agent_id : string) : bool :=
  (blen agent_id =? 64)%N &&
  str_all (λ b, is_ascii_digit b || in_byte_range 97 102 b) agent_id.

Record V2ListRef := {
  lr_list_uuid : string;
  lr_creator : string
}.

#[export] Instance V2ListRef_eq_dec : EqDecision V2ListRef.
Proof. solve_decision. Defined.

Definition to_ref_string (r : V2ListRef) : string :=
  V2_LIST_REF_PREFIX +:+ lr_list_uuid r +:+ ":" +:+ lr_creator r.

Definition is_v2_namespace (list_ref : string) : bool :=
  starts_with V2_LIST_REF_PREFIX list_ref.

Definition parse_list_ref (list_ref : string) : result V2ListRef string :=
  let? rest := ok_or (strip_prefix V2_LIST_REF_PREFIX list_ref)
    ("not a v2 list reference: " +:+ list_ref) in
  let? (list_uuid, creator) := ok_or (split_once ":" rest)
    "v2 list reference must be symphony2:<uuid>:<creator>" in
  bail ("invalid v2 list uuid: " +:+ list_uuid) when negb (is_valid_list_uuid list_uuid);
  bail ("invalid v2 creator agent id: " +:+ creator) when negb (is_valid_agent_id_hex creator);
  Ok {| lr_list_uuid := list_uuid; lr_creator := creator |}.

(** ** Payload records *)

Record EventEnvelope := {
  env_schema : N;
  env_context : string;
  env_algorithm : string;
  env_payload_b64 : string;
  env_public_key_b64 : string;
  env_signature_b64 : string;
  env_signer_agent_id : string
}.

Record GenesisPolicy := { gp_required_trust : option string }.

Record GenesisManifestV2 := {
  gen_schema : N;
  gen_kind : string;
  gen_list_uuid : string;
  gen_creator : string;
  gen_roster : list string;
  gen_policy : GenesisPolicy;
  gen_created_at : N
}.

Record RosterEventV2 := {
  ros_schema : N;
  ros_kind : string;
  ros_list_uuid : string;
  ros_genesis_manifest_hash : string;
  ros_roster_epoch : N;
  ros_prev_roster_hash : string;
  ros_roster : list string;
  ros_actor : string
}.

Inductive BlockReason :=
  | AwaitingApproval
  | OtherReason (detail : string).

Record RequeueJustification := {
  rj_block_event_hash : string;
  rj_claim_nonce : string;
  rj_approval_event_hash : string;
  rj_approval_payload_sha256 : string;
  rj_approver : string;
  rj_approval : EventEnvelope
}.

Record ApprovalPayloadV2 := {
  ap_schema : N;
  ap_kind : string;
  ap_list_uuid : string;
  ap_genesis_manifest_hash : string;
  ap_issue_id : string;
  ap_block_event_hash : string;
  ap_claim_nonce : string;
  ap_approver : string;
  ap_approved_at : N
}.

#[export] Instance ApprovalPayloadV2_eq_dec : EqDecision ApprovalPayloadV2.
Proof. solve_decision. Defined.

(** [TransitionKind]: the source's variants carry the prefix [Tk]. *)
Inductive TransitionKind :=
  | TkOpen (title spec title_sha256 spec_sha256 : string)
  | TkClaim (claim_nonce : string)
  | TkRelease (claim_nonce claimed_event_hash : string)
  | TkBlock (claim_nonce claimed_event_hash : string) (reason : BlockReason)
  | TkComplete (claim_nonce claimed_event_hash : string)
  | TkRequeue (justification : RequeueJustification).

Definition tk_name (k : TransitionKind) : string :=
  match k with
  | TkOpen _ _ _ _ => "open"
  | TkClaim _ => "claim"
  | TkRelease _ _ => "release"
  | TkBlock _ _ _ => "block"
  | TkComplete _ _ => "complete"
  | TkRequeue _ => "requeue"
  end.

Record TransitionEventV2 := {
  tr_schema : N;
  tr_list_uuid : string;
  tr_genesis_manifest_hash : string;
  tr_roster_epoch : N;
  tr_issue_id : string;
  tr_actor : string;
  tr_lamport : N;
  tr_author_seq : N;
  tr_prev_own_event_hash : string;
  tr_kind : TransitionKind
}.

(** [ApprovalVerdictV2]. *)
Inductive ApprovalVerdictV2 := Approve | Deny.

Record ApprovalEventV2 := {
  ae_schema : N;
  ae_kind : string;
  ae_list_uuid : string;
  ae_genesis_manifest_hash : string;
  ae_roster_epoch : N;
  ae_issue_id : string;
  ae_open_event_hash : string;
  ae_actor : string;
  ae_lamport : N;
  ae_author_seq : N;
  ae_prev_own_event_hash : string;
  ae_verdict : ApprovalVerdictV2;
  ae_entropy : string;
  ae_approved_at : N;
  ae_v1_record_json : string
}.

Record ConsumeEventV2 := {
  ce_schema : N;
  ce_kind : string;
  ce_list_uuid : string;
  ce_genesis_manifest_hash : string;
  ce_roster_epoch : N;
  ce_issue_id : string;
  ce_actor : string;
  ce_lamport : N;
  ce_author_seq : N;
  ce_prev_own_event_hash : string;
  ce_approval_event_hash : string;
  ce_approval_payload_sha256 : string;
  ce_approver : string;
  ce_claim_nonce : string;
  ce_claimed_event_hash : string;
  ce_entropy : string;
  ce_v1_record_json : string
}.

Record HandoffValidationV2 := {
  hv_command : string;
  hv_status : string;
  hv_exit_code : option Z
}.

Record HandoffEventV2 := {
  he_schema : N;
  he_kind : string;
  he_list_uuid : string;
  he_genesis_manifest_hash : string;
  he_roster_epoch : N;
  he_issue_id : string;
  he_actor : string;
  he_lamport : N;
  he_author_seq : N;
  he_prev_own_event_hash : string;
  he_claim_nonce : string;
  he_claimed_event_hash : string;
  he_summary : string;
  he_files_changed : list string;
  he_validation : list HandoffValidationV2;
  he_follow_up : list string;
  he_proofs_dir : option string
}.

#[export] Instance BlockReason_eq_dec : EqDecision BlockReason.
Proof. solve_decision. Defined.
#[export] Instance EventEnvelope_eq_dec : EqDecision EventEnvelope.
Proof. solve_decision. Defined.
#[export] Instance RequeueJustification_eq_dec : EqDecision RequeueJustification.
Proof. solve_decision. Defined.
#[export] Instance TransitionKind_eq_dec : EqDecision TransitionKind.
Proof. solve_decision. Defined.
#[export] Instance ApprovalVerdictV2_eq_dec : EqDecision ApprovalVerdictV2.
Proof. solve_decision. Defined.

(** ** Facts about list references and keys *)

(** A reference is well formed when both components validate. *)
Definition list_ref_valid (r : V2ListRef) : Prop :=
  is_valid_list_uuid (lr_list_uuid r) = true ∧ is_valid_agent_id_hex (lr_creator r) = true.

Lemma valid_uuid_no_colon u :
  is_valid_list_uuid u = true → str_all uuid_byte u = true.
Proof. unfold is_valid_list_uuid. intros H. by guards. Qed.

Lemma parse_list_ref_Ok s r :
  parse_list_ref s = Ok r ↔ list_ref_valid r ∧ s = to_ref_string r.
Proof.
  unfold parse_list_ref, list_ref_valid, to_ref_string. split.
  - intros H. destruct (strip_prefix _ s) as [rest|] eqn:Hs; simpl in H; [|done].
    destruct (split_once ":" rest) as [[u c]|] eqn:Hu; simpl in H; [|done].
    ok_inv. guards. apply strip_prefix_Some in Hs as ->. apply split_once_Some in Hu as ->.
    simpl. split; [done|]. done.
  - intros [[Hu Hc] ->].
    assert (strip_prefix V2_LIST_REF_PREFIX
              (V2_LIST_REF_PREFIX +:+ lr_list_uuid r +:+ ":" +:+ lr_creator r) =
            Some (lr_list_uuid r +:+ ":" +:+ lr_creator r)) as -> by by apply strip_prefix_Some.
    cbn [ok_or]. change (":" +:+ lr_creator r) with (String ":" (lr_creator r)).
    rewrite (split_once_app _ uuid_byte) by (try apply valid_uuid_no_colon; done).
    cbn [ok_or]. rewrite Hu, Hc. by destruct r.
Qed.

(** KV keys with a fixed-width hash determine the issue and the hash. *)
Lemma keyed_inj p i h i' h' :
  String.length h = String.length h' →
  p +:+ i +:+ "-" +:+ h = p +:+ i' +:+ "-" +:+ h' → i = i' ∧ h = h'.
Proof.
  intros Hlen Heq. apply (inj (String.app p)) in Heq.
  apply str_app_inj_r in Heq as [-> Heq]; [|by rewrite !str_length_app, Hlen].
  split; [done|]. by apply (inj (String.app "-")) in Heq.
Qed.

(** ** Properties *)

(** List references round-trip: parsing accepts exactly the printed forms
    of well-formed references, and returns the reference that was printed. *)
Theorem list_ref_roundtrip (s : string) (r : V2ListRef) :
  parse_list_ref s = Ok r ↔ list_ref_valid r ∧ s = to_ref_string r.
Proof. apply parse_list_ref_Ok. Qed.
