(* ===== verification/Identity.v ===== *)
(** * Identity and envelopes (v2/identity.rs, [EventEnvelope] of v2/events.rs)

    [Extern] collects the third-party code the fold calls: the SHA-256
    compression ([sha2]), base64 decoding ([base64]), ML-DSA-65 ([saorsa_pqc])
    and the derived JSON decoders ([serde_json]).  Everything else of
    identity.rs and of the envelope is translated: hex encoding, the signing
    buffer, agent-id derivation, and the checks of [EventEnvelope::verify]. *)

From S2P Require Import Prelude Wire.

(** ** Third-party operations *)

Class Extern := {
  (** [Sha256::digest] *)
  sha256 : bytes → bytes;
  (** [base64] STANDARD [decode]; the error is its [Display] text *)
  b64_decode : string → result bytes string;
  (** [saorsa_pqc]: key and signature parsing, and verification *)
  MlDsaPublicKey : Type;
  MlDsaSignature : Type;
  pk_from_bytes : bytes → result MlDsaPublicKey string;
  sig_from_bytes : bytes → result MlDsaSignature string;
  mldsa_verify : MlDsaPublicKey → bytes → MlDsaSignature → result bool string;
  (** [serde_json::from_slice] at each payload type *)
  json_envelope : bytes → result EventEnvelope string;
  json_genesis : bytes → result GenesisManifestV2 string;
  json_roster : bytes → result RosterEventV2 string;
  json_approval_payload : bytes → result ApprovalPayloadV2 string;
  json_transition : bytes → result TransitionEventV2 string;
  json_approval : bytes → result ApprovalEventV2 string;
  json_consume : bytes → result ConsumeEventV2 string;
  json_handoff : bytes → result HandoffEventV2 string
}.

(** ** Hex digests (core/signing.rs) *)

Definition hex_nibble (nibble : N) : ascii :=
  if (nibble <=? 9)%N then ascii_of_N (48 + nibble)
  else if (nibble <=? 15)%N then ascii_of_N (97 + (nibble - 10))
  else "0"%char.

Fixpoint hex_encode (digest : bytes) : string :=
  match digest with
  | EmptyString => EmptyString
  | String byte rest =>
      String (hex_nibble (N.shiftr (N_of_ascii byte) 4))
        (String (hex_nibble (N.land (N_of_ascii byte) 15)) (hex_encode rest))
  end.

Lemma hex_nibbles_inj (b c : ascii) :
  hex_nibble (N.shiftr (N_of_ascii b) 4) = hex_nibble (N.shiftr (N_of_ascii c) 4) →
  hex_nibble (N.land (N_of_ascii b) 15) = hex_nibble (N.land (N_of_ascii c) 15) →
  b = c.
Proof.
  assert (Hhi : ∀ n m, (n < 16)%N → (m < 16)%N → hex_nibble n = hex_nibble m → n = m).
  { intros n m Hn Hm. unfold hex_nibble. intros H. apply (f_equal N_of_ascii) in H.
    destruct (N.leb_spec n 9), (N.leb_spec m 9), (N.leb_spec n 15), (N.leb_spec m 15);
      rewrite ?N_ascii_embedding in H; simpl in H; lia. }
  intros H1 H2. pose proof (N_ascii_bounded b) as Hb. pose proof (N_ascii_bounded c) as Hc.
  assert (Hs : ∀ n, (n < 256)%N → (N.shiftr n 4 < 16)%N).
  { intros n Hn. rewrite N.shiftr_div_pow2. apply N.Div0.div_lt_upper_bound. lia. }
  assert (Hl : ∀ n, (N.land n 15 < 16)%N).
  { intros n. change 15%N with (N.ones 4). rewrite N.land_ones. by apply N.mod_lt. }
  apply Hhi in H1; [|by apply Hs..]. apply Hhi in H2; [|by apply Hl..].
  change 15%N with (N.ones 4) in H2. rewrite !N.land_ones in H2.
  rewrite !N.shiftr_div_pow2 in H1.
  rewrite <-(ascii_N_embedding b), <-(ascii_N_embedding c). f_equal.
  rewrite (N.div_mod' (N_of_ascii b) (2 ^ 4)), (N.div_mod' (N_of_ascii c) (2 ^ 4)).
  by rewrite H1, H2.
Qed.

#[export] Instance hex_encode_inj : Inj (=) (=) hex_encode.
Proof.
  intros a. induction a as [|b a IH]; intros [|c a']; simpl; try done.
  intros [= H1 H2 H3]. f_equal; [by apply hex_nibbles_inj|by apply IH].
Qed.

Lemma hex_encode_length d : String.length (hex_encode d) = 2 * String.length d.
Proof. induction d as [|b d IH]; simpl; [done|]. rewrite IH. lia. Qed.

Section identity.
Context `{X : Extern}.

Definition sha256_hex (payload : bytes) : string := hex_encode (sha256 payload).

(** ** identity.rs *)

Definition NAMESPACE_TAG : ascii := ascii_of_N 240.
Definition MAGIC : bytes := "x0x.external-agent-sign.v1".
Definition AGENT_ID_DOMAIN_PREFIX : bytes := "AUTONOMI_PEER_ID_V2:".
Definition ML_DSA_65_PUBLIC_KEY_SIZE : N := 1952.
Definition ML_DSA_65_SIGNATURE_SIZE : N := 3309.

(** [u32::to_be_bytes]. *)
Definition u32_to_be_bytes (n : N) : bytes :=
  String (ascii_of_N (N.land (N.shiftr n 24) 255))
    (String (ascii_of_N (N.land (N.shiftr n 16) 255))
      (String (ascii_of_N (N.land (N.shiftr n 8) 255))
        (String (ascii_of_N (N.land n 255)) EmptyString))).

Definition assemble_external_dst (context : string) (payload : bytes) : bytes :=
  let len := if (blen context <=? u32_max)%N then blen context else u32_max in
  String NAMESPACE_TAG (MAGIC +:+ u32_to_be_bytes len +:+ context +:+ payload).

Definition derive_agent_id_hex (public_key : bytes) : string :=
  sha256_hex (AGENT_ID_DOMAIN_PREFIX +:+ public_key).

Inductive SignatureCheckError :=
  | BadPublicKey (detail : string)
  | BadSignature (detail : string)
  | VerifyFailed (detail : string)
  | Invalid.

Definition sce_display (e : SignatureCheckError) : string :=
  match e with
  | BadPublicKey detail => "bad ML-DSA-65 public key: " +:+ detail
  | BadSignature detail => "bad ML-DSA-65 signature: " +:+ detail
  | VerifyFailed detail => "ML-DSA-65 verification errored: " +:+ detail
  | Invalid => "signature does not verify"
  end.

Definition verify_external_signature (context : string) (payload signature public_key : bytes)
    : result unit SignatureCheckError :=
  bail (BadPublicKey ("expected " +:+ pretty ML_DSA_65_PUBLIC_KEY_SIZE +:+ " bytes, got "
                        +:+ pretty (blen public_key)))
    when negb (blen public_key =? ML_DSA_65_PUBLIC_KEY_SIZE)%N;
  bail (BadSignature ("expected " +:+ pretty ML_DSA_65_SIGNATURE_SIZE +:+ " bytes, got "
                        +:+ pretty (blen signature)))
    when negb (blen signature =? ML_DSA_65_SIGNATURE_SIZE)%N;
  let? pk := map_err BadPublicKey (pk_from_bytes public_key) in
  let? sig := map_err BadSignature (sig_from_bytes signature) in
  let canonical := assemble_external_dst context payload in
  let? valid := map_err VerifyFailed (mldsa_verify pk canonical sig) in
  if valid : bool then Ok () else Err Invalid.

Definition decode_b64 (field value : string) : result bytes string :=
  map_err (λ e, "invalid base64 in " +:+ field +:+ ": " +:+ e) (b64_decode value).

(** ** EventEnvelope *)

Definition envelope_decode (value : bytes) : result EventEnvelope string :=
  let? envelope := map_err (λ e, "envelope decode failed: " +:+ e) (json_envelope value) in
  bail ("unsupported envelope schema " +:+ pretty (env_schema envelope))
    when bool_decide (env_schema envelope ≠ V2_SCHEMA);
  Ok envelope.

Definition payload_bytes (e : EventEnvelope) : result bytes string :=
  decode_b64 "payload_b64" (env_payload_b64 e).

Definition envelope_verify (e : EventEnvelope) (expected_context : string)
    : result (bytes * string) string :=
  bail ("unsupported envelope schema " +:+ pretty (env_schema e))
    when bool_decide (env_schema e ≠ V2_SCHEMA);
  bail ("unsupported algorithm " +:+ env_algorithm e)
    when bool_decide (env_algorithm e ≠ V2_SIGN_ALGORITHM);
  bail ("context mismatch: envelope names " +:+ env_context e +:+ ", expected "
          +:+ expected_context)
    when bool_decide (env_context e ≠ expected_context);
  let? payload := payload_bytes e in
  bail "empty payload" when bool_decide (payload = "");
  let? signature := decode_b64 "signature_b64" (env_signature_b64 e) in
  let? public_key := decode_b64 "public_key_b64" (env_public_key_b64 e) in
  let? _ := map_err (λ err, "signature check failed: " +:+ sce_display err)
    (verify_external_signature expected_context payload signature public_key) in
  let derived := derive_agent_id_hex public_key in
  bail ("signer binding failed: key derives to " +:+ derived +:+ ", envelope claims "
          +:+ env_signer_agent_id e)
    when bool_decide (derived ≠ env_signer_agent_id e);
  Ok (payload, sha256_hex payload).

(** ** What a verified envelope attests *)

(** A signature by [public_key] over the signing buffer of
    [context]/[payload] that ML-DSA-65 accepts. *)
Definition signed_by (public_key : bytes) (context : string) (payload : bytes) : Prop :=
  ∃ signature pk sig,
    blen public_key = ML_DSA_65_PUBLIC_KEY_SIZE ∧
    blen signature = ML_DSA_65_SIGNATURE_SIZE ∧
    pk_from_bytes public_key = Ok pk ∧ sig_from_bytes signature = Ok sig ∧
    mldsa_verify pk (assemble_external_dst context payload) sig = Ok true.

Record envelope_attests (e : EventEnvelope) (ctx : string) (pk payload : bytes)
    (h : string) : Prop := {
  att_context : env_context e = ctx;
  att_algorithm : env_algorithm e = V2_SIGN_ALGORITHM;
  att_payload : payload_bytes e = Ok payload;
  att_nonempty : payload ≠ "";
  att_key : decode_b64 "public_key_b64" (env_public_key_b64 e) = Ok pk;
  att_signed : signed_by pk ctx payload;
  att_signer : env_signer_agent_id e = derive_agent_id_hex pk;
  att_hash : h = sha256_hex payload
}.

Lemma verify_external_signature_Ok ctx payload sig pk :
  verify_external_signature ctx payload sig pk = Ok () → signed_by pk ctx payload.
Proof.
  unfold verify_external_signature. intros H. ok_inv. destruct a1; [|done].
  guards. rewrite N.eqb_eq in *. by exists sig, a, a0.
Qed.

Lemma envelope_verify_Ok e ctx payload h :
  envelope_verify e ctx = Ok (payload, h) →
  ∃ pk, envelope_attests e ctx pk payload h.
Proof.
  unfold envelope_verify. intros H. ok_inv. guards.
  match goal with u : unit |- _ => destruct u end.
  eexists. split; try done. by eapply verify_external_signature_Ok.
Qed.

(** [u32::from_be_bytes], the inverse of [u32_to_be_bytes]. *)
Definition u32_from_be_bytes (b : bytes) : N :=
  match b with
  | String b3 (String b2 (String b1 (String b0 EmptyString))) =>
      ((N_of_ascii b3 * 256 + N_of_ascii b2) * 256 + N_of_ascii b1) * 256 + N_of_ascii b0
  | _ => 0
  end%N.

Lemma byte_of_N n : N_of_ascii (ascii_of_N (N.land n 255)) = (n mod 256)%N.
Proof.
  change 255%N with (N.ones 8). rewrite N.land_ones. apply N_ascii_embedding.
  by apply N.mod_lt.
Qed.

Lemma u32_be_roundtrip n :
  (n ≤ u32_max)%N → u32_from_be_bytes (u32_to_be_bytes n) = n.
Proof.
  unfold u32_max. intros Hn. cbn [u32_from_be_bytes u32_to_be_bytes].
  rewrite !byte_of_N, !N.shiftr_div_pow2.
  change (2 ^ 24)%N with (256 * 256 * 256)%N. change (2 ^ 16)%N with (256 * 256)%N.
  change (2 ^ 8)%N with 256%N. rewrite <-!N.Div0.div_div.
  assert (n / 256 / 256 / 256 < 256)%N.
  { rewrite !N.Div0.div_div. apply N.Div0.div_lt_upper_bound. lia. }
  rewrite (N.mod_small (n / 256 / 256 / 256)) by done.
  pose proof (N.div_mod' n 256). pose proof (N.div_mod' (n / 256) 256).
  pose proof (N.div_mod' (n / 256 / 256) 256). lia.
Qed.

Lemma u32_to_be_bytes_inj n m :
  (n ≤ u32_max)%N → (m ≤ u32_max)%N → u32_to_be_bytes n = u32_to_be_bytes m → n = m.
Proof.
  intros Hn Hm H. rewrite <-(u32_be_roundtrip n), <-(u32_be_roundtrip m) by done.
  by rewrite H.
Qed.

(** The signing buffer determines the context and the payload, for contexts
    shorter than 4 GiB. *)
Lemma assemble_external_dst_inj c p c' p' :
  (blen c ≤ u32_max)%N → (blen c' ≤ u32_max)%N →
  assemble_external_dst c p = assemble_external_dst c' p' → c = c' ∧ p = p'.
Proof.
  intros Hc Hc'. unfold assemble_external_dst.
  rewrite (proj2 (N.leb_le _ _) Hc), (proj2 (N.leb_le _ _) Hc').
  intros H. apply str_cons_inj in H. apply (inj (String.app MAGIC)) in H.
  apply str_app_inj_l in H as [Hlen H]; [|done].
  apply u32_to_be_bytes_inj in Hlen; [|done..].
  apply str_app_inj_l in H; [done|]. unfold blen in Hlen. lia.
Qed.

(** ** Properties *)

(** [EventEnvelope::verify] accepts exactly the envelopes it should: those
    of schema 2, the fixed algorithm and the expected context, with a
    non-empty payload, a key and a signature of the ML-DSA-65 sizes that
    verify over the domain-separated buffer, and a signer that is the agent
    id of the key; it returns the payload with its digest. *)
Theorem envelope_verify_exact (e : EventEnvelope) (ctx : string) (payload : bytes) (h : string) :
  envelope_verify e ctx = Ok (payload, h) ↔
  env_schema e = V2_SCHEMA ∧ env_algorithm e = V2_SIGN_ALGORITHM ∧ env_context e = ctx ∧
  payload_bytes e = Ok payload ∧ payload ≠ "" ∧ h = sha256_hex payload ∧
  ∃ signature pk, decode_b64 "signature_b64" (env_signature_b64 e) = Ok signature ∧
    decode_b64 "public_key_b64" (env_public_key_b64 e) = Ok pk ∧
    verify_external_signature ctx payload signature pk = Ok () ∧
    env_signer_agent_id e = derive_agent_id_hex pk.
Proof.
  unfold envelope_verify. split.
  - intros H. ok_inv. guards. match goal with u : unit |- _ => destruct u end. eauto 15.
  - intros (Hs&Ha&Hc&Hp&Hne&->&signature&pk&Hsig&Hpk&Hv&Hd).
    rewrite !bool_decide_eq_false_2 by naive_solver. rewrite Hp. cbn.
    rewrite bool_decide_eq_false_2 by done. rewrite Hsig. cbn. rewrite Hpk. cbn. rewrite Hv. cbn.
    by rewrite bool_decide_eq_false_2 by (by intros []).
Qed.

(** The signing buffer separates domains: two (context, payload) pairs
    with the same buffer are equal, so a signature made for one protocol
    context or payload is a signature over different bytes than any other. *)
Theorem signing_buffer_injective (c c' : string) (p p' : bytes) :
  (blen c ≤ u32_max)%N → (blen c' ≤ u32_max)%N →
  assemble_external_dst c p = assemble_external_dst c' p' → c = c' ∧ p = p'.
Proof. apply assemble_external_dst_inj. Qed.
End identity.

(** ** Witnesses *)

Lemma signing_buffer_injective_witness :
  TRANSITION_CONTEXT_V2 = TRANSITION_CONTEXT_V2 ∧ "payload" = "payload".
Proof.
  apply signing_buffer_injective; [vm_compute; discriminate|vm_compute; discriminate|reflexivity].
Defined.
