(* ===== verification/Core.v ===== *)
(** * Core types shared by trackers (issue.rs, claim.rs, handoff.rs, tracker.rs,
    approval.rs and signing.rs of the core crate)

    The issue record with its validated names, claims, shards, handoffs and
    release reasons, and the content hash that approvals bind. *)

From S2P Require Import Prelude Wire Identity.

(** ** Text *)

(** The tail after a leading Unicode white-space character ([char::is_whitespace])
    of a UTF-8 string. *)
Definition ws_tail (s : string) : option string :=
  match s with
  | String a s1 =>
      let n := N_of_ascii a in
      if ((9 <=? n) && (n <=? 13) || (n =? 32))%N then Some s1
      else match s1 with
      | String b s2 =>
          let m := N_of_ascii b in
          if ((n =? 194) && ((m =? 133) || (m =? 160)))%N then Some s2
          else match s2 with
          | String c s3 =>
              let k := N_of_ascii c in
              if ((n =? 225) && (m =? 154) && (k =? 128)
                  || (n =? 226) && (m =? 128) && ((128 <=? k) && (k <=? 138)
                        || (k =? 168) || (k =? 169) || (k =? 175))
                  || (n =? 226) && (m =? 129) && (k =? 159)
                  || (n =? 227) && (m =? 128) && (k =? 128))%N
              then Some s3 else None
          | EmptyString => None
          end
      | EmptyString => None
      end
  | EmptyString => None
  end.

(** [str::trim_start], with the string's length as fuel. *)
Fixpoint trim_start_fuel (fuel : nat) (s : string) : string :=
  match fuel with
  | O => s
  | S fuel => match ws_tail s with Some s' => trim_start_fuel fuel s' | None => s end
  end.
Definition trim_start (s : string) : string := trim_start_fuel (String.length s) s.

(** [s.trim().is_empty()]. *)
Definition is_blank (s : string) : bool := bool_decide (trim_start s = "").

(** [str::trim_end]: cut before the first suffix that is blank. *)
Fixpoint trim_end (s : string) : string :=
  if is_blank s then ""
  else match s with EmptyString => "" | String c s' => String c (trim_end s') end.

Definition trim (s : string) : string := trim_end (trim_start s).

Definition ascii_lower (c : ascii) : ascii :=
  if in_byte_range 65 90 c then ascii_of_N (N_of_ascii c + 32) else c.
Fixpoint to_ascii_lowercase (s : string) : string :=
  match s with EmptyString => "" | String c s' => String (ascii_lower c) (to_ascii_lowercase s') end.

(** ** Errors *)

(** [SymphonyError].  The text of a [Tracker] error is kept as the data [T] it
    is formatted from; I/O and JSON errors are their messages. *)
Inductive SymphonyError {T : Type} :=
  | Validation (field message : string)
  | Tracker (detail : T)
  | Unsupported (message : string)
  | RunnerError (message : string)
  | WorkspaceError (message : string)
  | WorkflowError (message : string)
  | IoFailure (message : string)
  | JsonFailure (message : string).
Arguments SymphonyError : clear implicits.

(** [Display]. *)
Definition show_symphony {T} (show : T → string) (e : SymphonyError T) : string :=
  match e with
  | Validation field message => "invalid " +:+ field +:+ ": " +:+ message
  | Tracker detail => "tracker error: " +:+ show detail
  | Unsupported message => "unsupported operation: " +:+ message
  | RunnerError message => "runner error: " +:+ message
  | WorkspaceError message => "workspace error: " +:+ message
  | WorkflowError message => "workflow error: " +:+ message
  | IoFailure message | JsonFailure message => message
  end.

(** ** Newtypes: an [IssueId], [AgentId] or [IssueState] is its string *)

Definition new_issue_id {T} (value : string) : result string (SymphonyError T) :=
  if is_blank value then Err (Validation "issue.id" "must not be empty") else Ok value.

Definition new_agent_id {T} (value : string) : result string (SymphonyError T) :=
  if is_blank value then Err (Validation "agent.id" "must not be empty") else Ok value.

Definition new_issue_state {T} (value : string) : result string (SymphonyError T) :=
  let normalized := to_ascii_lowercase (trim value) in
  if bool_decide (normalized = "") then Err (Validation "issue.state" "must not be empty")
  else Ok normalized.

(** ** Claims and shards *)

Record SignatureEnvelope := {
  se_algorithm : string;
  se_context : string;
  se_public_key_b64 : string;
  se_signature_b64 : string;
  se_payload_sha256 : string;
  se_signer_agent_id : string
}.

(** [usize::MAX] on a 64-bit target. *)
Abbreviation usize_max := u64_max.

Inductive ShardRole :=
  | Primary
  | Backup (index : N)
  | ManualM1.

Definition rank (role : ShardRole) : N :=
  match role with
  | Primary => 0
  | Backup index => sat_add64 index 1
  | ManualM1 => usize_max
  end.

Record Shard := {
  primary : string;
  backups : list string;
  claim_ttl_ms : N;
  created_view_epoch : N
}.

Record Claim := {
  cl_issue_id : option string;
  cl_by : string;
  cl_at : string;
  cl_heartbeat_at : string;
  cl_shard_role : ShardRole;
  cl_signature : option SignatureEnvelope
}.

#[export] Instance SignatureEnvelope_eq_dec : EqDecision SignatureEnvelope.
Proof. solve_decision. Defined.
#[export] Instance ShardRole_eq_dec : EqDecision ShardRole.
Proof. solve_decision. Defined.
#[export] Instance Claim_eq_dec : EqDecision Claim.
Proof. solve_decision. Defined.

(** [Claim::new] and [Claim::with_heartbeat]. *)
Definition new_claim (issue_id : option string) (by_ at_ : string) (role : ShardRole) : Claim :=
  {| cl_issue_id := issue_id; cl_by := by_; cl_at := at_; cl_heartbeat_at := at_;
     cl_shard_role := role; cl_signature := None |}.

Definition with_heartbeat (c : Claim) (heartbeat_at : string) : Claim :=
  {| cl_issue_id := cl_issue_id c; cl_by := cl_by c; cl_at := cl_at c;
     cl_heartbeat_at := heartbeat_at; cl_shard_role := cl_shard_role c;
     cl_signature := cl_signature c |}.

(** ** Handoffs *)

Inductive ValidationStatus := Passed | Failed | Skipped.

(** The spelling serde and [as_str] give the statuses. *)
Definition validation_status_str (s : ValidationStatus) : string :=
  match s with Passed => "passed" | Failed => "failed" | Skipped => "skipped" end.
Definition parse_validation_status (s : string) : option ValidationStatus :=
  if bool_decide (s = "passed") then Some Passed
  else if bool_decide (s = "failed") then Some Failed
  else if bool_decide (s = "skipped") then Some Skipped
  else None.

Record ValidationResult := {
  vr_command : string;
  vr_status : ValidationStatus;
  vr_exit_code : option Z
}.

Record Handoff := {
  ho_summary : string;
  ho_files_changed : list string;
  ho_validation : list ValidationResult;
  ho_follow_up : list string;
  ho_proofs_dir : option string;
  ho_issue_id : option string;
  ho_signer_agent_id : option string;
  ho_signature : option SignatureEnvelope
}.

(** ** Release reasons *)

(** [ReleaseReasonCode], with the prefix [Rc]. *)
Inductive ReleaseReasonCode :=
  | RcOperatorCancelled | RcRunnerFailed | RcExpiredHeartbeat | RcConflict | RcRetryExhausted
  | RcInsufficientTrust | RcNetworkDispatchDisabled | RcAwaitingApproval
  | RcApprovalVerifierUnconfigured | RcMissingVerifiedSignature | RcInvalidSignature
  | RcVerifyTransportError | RcUnknownSigner | RcUntrustedSigner | RcBlockedSigner
  | RcShutdown | RcOther.

Definition reason_code_str (c : ReleaseReasonCode) : string :=
  match c with
  | RcOperatorCancelled => "operator_cancelled"
  | RcRunnerFailed => "runner_failed"
  | RcExpiredHeartbeat => "expired_heartbeat"
  | RcConflict => "conflict"
  | RcRetryExhausted => "retry_exhausted"
  | RcInsufficientTrust => "insufficient_trust"
  | RcNetworkDispatchDisabled => "network_dispatch_disabled"
  | RcAwaitingApproval => "awaiting_approval"
  | RcApprovalVerifierUnconfigured => "approval_verifier_unconfigured"
  | RcMissingVerifiedSignature => "missing_verified_signature"
  | RcInvalidSignature => "invalid_signature"
  | RcVerifyTransportError => "verify_transport_error"
  | RcUnknownSigner => "unknown_signer"
  | RcUntrustedSigner => "untrusted_signer"
  | RcBlockedSigner => "blocked_signer"
  | RcShutdown => "shutdown"
  | RcOther => "other"
  end.

Record ReleaseReason := { rr_code : ReleaseReasonCode; rr_message : string }.

#[export] Instance ReleaseReasonCode_eq_dec : EqDecision ReleaseReasonCode.
Proof. solve_decision. Defined.

(** ** Issues *)

Inductive SignatureProvenance :=
  | ProvenanceVerified (signer_agent_id : string)
  | ProvenanceInvalid (reason : string)
  | ProvenanceTransportError (reason : string).

Inductive VerificationNoticeKind := BadClaim | NoticeForkEvidence.

Record VerificationNotice := {
  vn_kind : VerificationNoticeKind;
  vn_claimant : option string;
  vn_reason : string
}.

Record IssueRef := { ir_id : string; ir_identifier : string; ir_state : string }.

Record IssueDraft := {
  id_title : string;
  id_description : option string;
  id_priority : option Z;
  id_labels : list string
}.

(** [IssueSource]; [Local] is [LocalIssue]. *)
Inductive IssueSource := LocalIssue | NetworkSourced.

#[export] Instance IssueSource_eq_dec : EqDecision IssueSource.
Proof. solve_decision. Defined.

Definition issue_source_str (s : IssueSource) : string :=
  match s with LocalIssue => "local" | NetworkSourced => "network_sourced" end.

(** [serde_json::Value] and the encoding of objects. *)
Class Json := {
  Value : Type;
  JNull : Value;
  JString : string → Value;
  as_str : Value → option string;
  as_array : Value → option (list Value);
  enc_object : gmap string Value → result bytes string
}.

Section issue.
Context `{X : Extern} `{J : Json}.

Record Issue := {
  iss_schema_version : N;
  iss_id : string;
  iss_identifier : string;
  iss_title : string;
  iss_description : string;
  iss_priority : option N;
  iss_state : string;
  iss_branch_name : option string;
  iss_url : option string;
  iss_labels : list string;
  iss_blocked_by : list IssueRef;
  iss_shard : option Shard;
  iss_claim : option Claim;
  iss_handoff : option Handoff;
  iss_signature_provenance : option SignatureProvenance;
  iss_verification_notices : list VerificationNotice;
  iss_created_at : string;
  iss_updated_at : string;
  iss_extra : gmap string Value
}.

Definition ISSUE_SCHEMA_VERSION_V1 : N := 1.

(** [Issue::new]. *)
Definition new_issue {T} (id identifier title state created_at : string)
    : result Issue (SymphonyError T) :=
  if is_blank identifier then Err (Validation "issue.identifier" "must not be empty")
  else if is_blank title then Err (Validation "issue.title" "must not be empty")
  else if is_blank created_at then Err (Validation "issue.created_at" "must not be empty")
  else Ok {|
    iss_schema_version := ISSUE_SCHEMA_VERSION_V1; iss_id := id; iss_identifier := identifier;
    iss_title := title; iss_description := ""; iss_priority := None; iss_state := state;
    iss_branch_name := None; iss_url := None; iss_labels := []; iss_blocked_by := [];
    iss_shard := None; iss_claim := None; iss_handoff := None;
    iss_signature_provenance := None; iss_verification_notices := [];
    iss_created_at := created_at; iss_updated_at := created_at; iss_extra := ∅ |}.

(** ** The content hash of an issue *)

Definition extra_value_or_null (issue : Issue) (key : string) : Value :=
  default JNull (iss_extra issue !! key).

Definition canonical_content_payload (issue : Issue) : gmap string Value :=
  {[ "body" := extra_value_or_null issue "body";
     "commands" := extra_value_or_null issue "commands";
     "description" := JString (iss_description issue);
     "title" := JString (iss_title issue) ]}.

Definition content_hash (issue : Issue) : string :=
  match enc_object (canonical_content_payload issue) with
  | Ok bytes => sha256_hex bytes
  | Err _ => sha256_hex ""
  end.

(** ** Where an issue comes from *)

(** [IssueSource::from_marker]: [replace('-', "_")] is a map over bytes. *)
Fixpoint dashes_to_underscores (s : string) : string :=
  match s with
  | EmptyString => ""
  | String c s' => String (if bool_decide (c = "-"%char) then "_"%char else c)
                          (dashes_to_underscores s')
  end.

Definition from_marker (value : string) : option IssueSource :=
  let normalized := dashes_to_underscores (to_ascii_lowercase (trim value)) in
  if bool_decide (normalized = "local") then Some LocalIssue
  else if bool_decide (normalized ∈ ["network"; "network_sourced"; "x0x"; "x0x_crdt"])
  then Some NetworkSourced
  else None.

Definition from_json_value (value : Value) : option IssueSource := as_str value ≫= from_marker.

(** The first of the two keys whose value is a known marker. *)
Definition from_issue (issue : Issue) : IssueSource :=
  match (iss_extra issue !! "issue_source") ≫= from_json_value with
  | Some source => source
  | None => default LocalIssue ((iss_extra issue !! "source") ≫= from_json_value)
  end.

Definition for_execution (issue : Issue) : IssueSource :=
  if bool_decide (from_issue issue = NetworkSourced)
     || bool_decide (is_Some (iss_signature_provenance issue))
  then NetworkSourced else LocalIssue.
End issue.

Lemma trim_start_fuel_stop s n : ws_tail s = None → trim_start_fuel n s = s.
Proof. intros H. destruct n; simpl; [done|]. by rewrite H. Qed.

Lemma is_blank_space : is_blank "" = true ∧ is_blank " " = true ∧ is_blank "x" = false.
Proof. done. Qed.

Lemma parse_validation_status_str s : parse_validation_status (validation_status_str s) = Some s.
Proof. by destruct s. Qed.
