(* ===== verification/Effects.v ===== *)
(** * Stateful, fallible code

    The monad of the async methods that thread a state and return a [Result]:
    an error keeps the state it happened in.  Inversion lemmas for successful
    runs, and a logic for invariants that hold on
    both outcomes. *)

From S2P Require Import Prelude.

Definition Run (S E A : Type) : Type := S → result A E * S.

Section effects.
Context {S E : Type}.

#[export] Instance Run_ret : MRet (Run S E) := λ A a s, (Ok a, s).
#[export] Instance Run_bind : MBind (Run S E) := λ A B f m s,
  match m s with
  | (Ok a, s') => f a s'
  | (Err e, s') => (Err e, s')
  end.

(** [return Err(e)], and [result?] on a local result. *)
Definition throw {A} (e : E) : Run S E A := λ s, (Err e, s).
Definition lift_result {A} (r : result A E) : Run S E A := λ s, (r, s).

(** [match call.await] without the question mark: the result as a value, in a
    run with errors of any type. *)
Definition catch {A F} (c : Run S E A) : Run S F (result A E) :=
  λ s, let '(r, s') := c s in (Ok r, s').

(** [call.map_err(f)]. *)
Definition mapping_err {A F} (f : E → F) (c : Run S E A) : Run S F A :=
  λ s, let '(r, s') := c s in (map_err f r, s').

(** A call that threads the state and cannot fail. *)
Definition embed {A} (c : S → A * S) : Run S E A := λ s, let '(a, s') := c s in (Ok a, s').

Definition gets {A} (f : S → A) : Run S E A := λ s, (Ok (f s), s).
Definition modify (f : S → S) : Run S E unit := λ s, (Ok (), f s).

(** [for x in xs { body(x)?; }]. *)
Fixpoint for_each {A} (body : A → Run S E unit) (xs : list A) : Run S E unit :=
  match xs with
  | [] => mret ()
  | x :: xs => _ ← body x; for_each body xs
  end.

(** ** Successful runs *)

Lemma run_bind_Ok {A B} (c : Run S E A) (f : A → Run S E B) s b s' :
  (c ≫= f) s = (Ok b, s') ↔ ∃ a s1, c s = (Ok a, s1) ∧ f a s1 = (Ok b, s').
Proof.
  unfold mbind, Run_bind. destruct (c s) as [[a|e] s1]; [naive_solver|].
  split; [done|]. intros (?&?&[=]&_).
Qed.

Lemma run_bind_ext {A B} (c : Run S E A) (f g : A → Run S E B) s :
  (∀ a s', f a s' = g a s') → (c ≫= f) s = (c ≫= g) s.
Proof. intros Hfg. unfold mbind, Run_bind. by destruct (c s) as [[a|e] s']. Qed.

Lemma run_ret_Ok {A} (a b : A) s s' : (mret a : Run S E A) s = (Ok b, s') ↔ a = b ∧ s = s'.
Proof. unfold mret, Run_ret. naive_solver. Qed.

Lemma run_lift_Ok {A} (r : result A E) a s s' : lift_result r s = (Ok a, s') ↔ r = Ok a ∧ s = s'.
Proof. unfold lift_result. naive_solver. Qed.

Lemma run_catch_Ok {A F} (c : Run S E A) r s s' :
  catch (F := F) c s = (Ok r, s') ↔ c s = (r, s').
Proof. unfold catch. destruct (c s). naive_solver. Qed.

Lemma run_mapping_Ok {A F} (f : E → F) (c : Run S E A) a s s' :
  mapping_err f c s = (Ok a, s') ↔ c s = (Ok a, s').
Proof. unfold mapping_err. destruct (c s) as [[?|?] ?]; naive_solver. Qed.

Lemma run_embed_Ok {A} (c : S → A * S) a s s' : embed c s = (Ok a, s') ↔ c s = (a, s').
Proof. unfold embed. destruct (c s). naive_solver. Qed.

Lemma run_gets_Ok {A} (f : S → A) a s s' : gets f s = (Ok a, s') ↔ a = f s ∧ s' = s.
Proof. unfold gets. naive_solver. Qed.

Lemma run_modify_Ok f u s s' : modify f s = (Ok u, s') ↔ s' = f s.
Proof. unfold modify. destruct u. naive_solver. Qed.

(** ** Invariants of runs, whatever they return *)

(** From a state in [P] the run ends in [P], and a value it returns satisfies
    [Φ]. *)
Definition ensures {A} (P : S → Prop) (c : Run S E A) (Φ : A → Prop) : Prop :=
  ∀ s, P s → P (c s).2 ∧ ∀ a, (c s).1 = Ok a → Φ a.

Lemma ensures_ret {A} (P : S → Prop) (a : A) (Φ : A → Prop) : Φ a → ensures P (mret a) Φ.
Proof. intros Ha s Hs. split; [done|]. by intros ? [= <-]. Qed.

Lemma ensures_throw {A} (P : S → Prop) (e : E) (Φ : A → Prop) : ensures P (throw e) Φ.
Proof. intros s Hs. by split. Qed.

Lemma ensures_lift {A} (P : S → Prop) (r : result A E) (Φ : A → Prop) :
  (∀ a, r = Ok a → Φ a) → ensures P (lift_result r) Φ.
Proof. intros Hr s Hs. by split. Qed.

Lemma ensures_embed {A} (P : S → Prop) (c : S → A * S) (Φ : A → Prop) :
  (∀ s, P s → P (c s).2 ∧ Φ (c s).1) → ensures P (embed c) Φ.
Proof.
  intros Hc s Hs. specialize (Hc s Hs). unfold embed. destruct (c s) as [a s'].
  split; [apply Hc|]. intros ? [= <-]. apply Hc.
Qed.

Lemma ensures_gets {A} (P : S → Prop) (f : S → A) (Φ : A → Prop) :
  (∀ s, P s → Φ (f s)) → ensures P (gets f) Φ.
Proof. intros Hf s Hs. split; [done|]. intros ? [= <-]. by apply Hf. Qed.

Lemma ensures_modify (P : S → Prop) (f : S → S) (Φ : unit → Prop) :
  (∀ s, P s → P (f s)) → Φ () → ensures P (modify f) Φ.
Proof. intros Hf HΦ s Hs. split; [by apply Hf|]. by intros [] _. Qed.

Lemma ensures_bind {A B} (P : S → Prop) (c : Run S E A) (f : A → Run S E B) Φ Ψ :
  ensures P c Φ → (∀ a, Φ a → ensures P (f a) Ψ) → ensures P (c ≫= f) Ψ.
Proof.
  intros Hc Hf s Hs. unfold mbind, Run_bind. destruct (Hc s Hs) as [Hs1 Ha].
  destruct (c s) as [[a|e] s1]; [by apply Hf; [apply Ha|]|]. by split.
Qed.

Lemma ensures_weaken {A} (P : S → Prop) (c : Run S E A) (Φ Ψ : A → Prop) :
  ensures P c Φ → (∀ a, Φ a → Ψ a) → ensures P c Ψ.
Proof. intros Hc HΦ s Hs. destruct (Hc s Hs). split; [done|]. auto. Qed.

Lemma ensures_value {A} (P : S → Prop) (c : Run S E A) (Φ : A → Prop) :
  ensures P c (λ _, True) → (∀ s a s', c s = (Ok a, s') → Φ a) → ensures P c Φ.
Proof.
  intros Hc HΦ s Hs. destruct (Hc s Hs) as [Hs' _]. split; [done|]. intros a Ha.
  apply (HΦ s a (c s).2). rewrite <-Ha. by destruct (c s).
Qed.

Lemma ensures_Ok {A} (P : S → Prop) (c : Run S E A) (Φ : A → Prop) s a s' :
  ensures P c Φ → P s → c s = (Ok a, s') → P s' ∧ Φ a.
Proof. intros Hc Hs Hrun. destruct (Hc s Hs) as [Hs' Ha]. rewrite Hrun in *. auto. Qed.

Lemma ensures_for_each {A} (P : S → Prop) (body : A → Run S E unit) xs :
  (∀ x, x ∈ xs → ensures P (body x) (λ _, True)) → ensures P (for_each body xs) (λ _, True).
Proof.
  intros Hb. induction xs as [|x xs IH]; [by apply ensures_ret|].
  eapply ensures_bind; [apply Hb, elem_of_cons; by left|]. intros _ _. apply IH.
  intros y Hy. by apply Hb, elem_of_cons; right.
Qed.
End effects.

Lemma ensures_catch {S E A F} (P : S → Prop) (c : Run S E A) (Φ : A → Prop) :
  ensures P c Φ → ensures P (catch (F := F) c) (λ r, ∀ a, r = Ok a → Φ a).
Proof.
  intros Hc s Hs. unfold catch. destruct (Hc s Hs). destruct (c s) as [r s']. split; [done|].
  by intros ? [= <-].
Qed.

Lemma ensures_mapping {S E A F} (P : S → Prop) (f : E → F) (c : Run S E A) (Φ : A → Prop) :
  ensures P c Φ → ensures P (mapping_err f c) Φ.
Proof.
  intros Hc s Hs. unfold mapping_err. destruct (Hc s Hs) as [Hs' Ha].
  destruct (c s) as [[a|e] s']; (split; [done|]); [|done]. intros ? [= <-]. by apply Ha.
Qed.

#[global] Arguments Run _%_type_scope _%_type_scope _%_type_scope.

(** *** The same, when nothing is asked of the value *)

Lemma keeps_bind {S E A B} (P : S → Prop) (c : Run S E A) (f : A → Run S E B) Ψ :
  ensures P c (λ _, True) → (∀ a, ensures P (f a) Ψ) → ensures P (c ≫= f) Ψ.
Proof. intros Hc Hf. eapply ensures_bind; [exact Hc|auto]. Qed.

Lemma keeps_lift {S E A} (P : S → Prop) (r : result A E) : ensures P (lift_result r) (λ _, True).
Proof. by apply ensures_lift. Qed.

Lemma keeps_catch {S E A F} (P : S → Prop) (c : Run S E A) :
  ensures P c (λ _, True) → ensures P (catch (F := F) c) (λ _, True).
Proof. intros Hc. eapply ensures_weaken; [by apply ensures_catch|done]. Qed.

Lemma keeps_any {S E A} (P : S → Prop) (c : Run S E A) Φ :
  ensures P c Φ → ensures P c (λ _, True).
Proof. intros Hc. by eapply ensures_weaken. Qed.

Create HintDb effects.
#[export] Hint Resolve keeps_lift : effects.

(** Prove that a run keeps an invariant, call by call. *)
Ltac keeps_step :=
  match goal with
  | |- ∀ _, ensures _ _ _ => intros ?
  | |- ensures _ (throw _) _ => apply ensures_throw
  | |- ensures _ (mret _) _ => apply ensures_ret; solve [auto]
  | |- ensures _ (_ ≫= _) _ => apply keeps_bind; [|intros ?]
  | |- ensures _ (catch _) _ => apply keeps_catch
  | |- ensures _ (mapping_err _ _) _ => apply ensures_mapping
  | |- ensures _ (match ?x with _ => _ end) _ => destruct x eqn:?
  | |- ensures _ (if ?b then _ else _) _ => destruct b eqn:?
  | |- ensures _ (let '(_, _) := ?x in _) _ => destruct x eqn:?
  end.
Ltac keeps := repeat first [keeps_step | solve [eauto 3 with effects]].

(** Unfold a successful run into the successful runs of its calls. *)
Ltac run_step :=
  match goal with
  | H : (_ ≫= _) _ = (Ok _, _) |- _ => apply run_bind_Ok in H as (?&?&?&?)
  | H : mret _ _ = (Ok _, _) |- _ => apply run_ret_Ok in H as [? ?]; subst
  | H : lift_result _ _ = (Ok _, _) |- _ => apply run_lift_Ok in H as [? ?]; subst
  | H : catch _ _ = (Ok _, _) |- _ => apply (proj1 (run_catch_Ok _ _ _ _)) in H
  | H : mapping_err _ _ _ = (Ok _, _) |- _ => apply (proj1 (run_mapping_Ok _ _ _ _ _)) in H
  | H : embed _ _ = (Ok _, _) |- _ => apply run_embed_Ok in H
  | H : gets _ _ = (Ok _, _) |- _ => apply run_gets_Ok in H as [? ?]; subst
  | H : modify _ _ = (Ok _, _) |- _ => apply run_modify_Ok in H; subst
  | H : throw _ _ = (Ok _, _) |- _ => discriminate H
  end.
Ltac run_inv := repeat run_step.
