(* ===== verification/Text.v ===== *)
(** * Text

    The [str] methods the orchestrator, the workspace and the configuration
    use: splitting, lines, ASCII case, suffixes and integer parsing. *)

From S2P Require Import Prelude Core.

Definition str_char (n : N) : string := String (ascii_of_N n) EmptyString.
Definition NL : ascii := ascii_of_N 10.
Definition CR : ascii := ascii_of_N 13.

(** [str::split] on one character. *)
Fixpoint split_char (sep : ascii) (s : string) : list string :=
  match s with
  | EmptyString => [""]
  | String c s' =>
      if bool_decide (c = sep) then "" :: split_char sep s'
      else match split_char sep s' with
           | p :: ps => String c p :: ps
           | [] => [String c ""]
           end
  end.

(** [str::split] on separators that [sep] recognises at the head of a string,
    returning what follows them; the string's length bounds the steps. *)
Fixpoint split_fuel (fuel : nat) (sep : string → option string) (s : string) : list string :=
  match fuel with
  | O => [s]
  | S fuel =>
      match sep s with
      | Some s' => "" :: split_fuel fuel sep s'
      | None =>
          match s with
          | EmptyString => [""]
          | String c s' =>
              match split_fuel fuel sep s' with
              | p :: ps => String c p :: ps
              | [] => [String c ""]
              end
          end
      end
  end.
Definition split_with (sep : string → option string) (s : string) : list string :=
  split_fuel (S (String.length s)) sep s.

Fixpoint last_char (s : string) : option ascii :=
  match s with
  | EmptyString => None
  | String c EmptyString => Some c
  | String _ s' => last_char s'
  end.
Fixpoint drop_last (s : string) : string :=
  match s with
  | EmptyString => ""
  | String _ EmptyString => ""
  | String c s' => String c (drop_last s')
  end.
Definition ends_with_char (c : ascii) (s : string) : bool := bool_decide (last_char s = Some c).

Definition strip_cr (s : string) : string := if ends_with_char CR s then drop_last s else s.

(** [str::ends_with]. *)
Fixpoint ends_with (suffix s : string) : bool :=
  bool_decide (s = suffix) ||
  match s with EmptyString => false | String _ s' => ends_with suffix s' end.

(** The parts of [split_char NL] as lines: every part but the last ended in a
    line feed; an empty last part is no line. *)
Fixpoint lines_of (parts : list string) : list string :=
  match parts with
  | [] => []
  | [p] => if bool_decide (p = "") then [] else [p]
  | p :: ps => strip_cr p :: lines_of ps
  end.
Definition str_lines (s : string) : list string := lines_of (split_char NL s).

Definition ascii_upper (c : ascii) : ascii :=
  if in_byte_range 97 122 c then ascii_of_N (N_of_ascii c - 32) else c.
Fixpoint str_map (f : ascii → ascii) (s : string) : string :=
  match s with EmptyString => "" | String c s' => String (f c) (str_map f s') end.
Definition to_ascii_uppercase : string → string := str_map ascii_upper.
(** [str::replace] of one character by another. *)
Definition replace_char (a b : ascii) : string → string :=
  str_map (λ c, if bool_decide (c = a) then b else c).

Fixpoint contains_char (a : ascii) (s : string) : bool :=
  match s with EmptyString => false | String c s' => bool_decide (c = a) || contains_char a s' end.

(** All the parts, one after the other. *)
Definition str_concat (parts : list string) : string := foldr String.append "" parts.

(** [str::find] and [str::contains] on a string. *)
Fixpoint str_find (p s : string) : option nat :=
  if starts_with p s then Some 0
  else match s with EmptyString => None | String _ s' => S <$> str_find p s' end.
Definition str_contains (p s : string) : bool := bool_decide (is_Some (str_find p s)).

(** [str::trim_end_matches] of one character. *)
Fixpoint trim_end_char (a : ascii) (s : string) : string :=
  match s with
  | EmptyString => ""
  | String c s' =>
      let rest := trim_end_char a s' in
      if bool_decide (rest = "") && bool_decide (c = a) then "" else String c rest
  end.

(** [s.trim()] when it is not empty. *)
Definition non_blank (s : string) : option string :=
  let t := trim s in if bool_decide (t = "") then None else Some t.

(** ** Integers *)

Fixpoint digits_value (acc : N) (s : string) : option N :=
  match s with
  | EmptyString => Some acc
  | String c s' =>
      if is_ascii_digit c then digits_value (acc * 10 + (N_of_ascii c - 48)) s' else None
  end.
(** At least one digit, and only digits. *)
Definition parse_digits (s : string) : option N :=
  match s with EmptyString => None | _ => digits_value 0 s end.

Definition in_i32 (z : Z) : bool := ((-2147483648 <=? z) && (z <=? 2147483647))%Z.

(** [str::parse::<i32>]. *)
Definition parse_i32 (s : string) : option Z :=
  z ← match s with
      | String "-" s' => (λ n, (- Z.of_N n)%Z) <$> parse_digits s'
      | String "+" s' => Z.of_N <$> parse_digits s'
      | _ => Z.of_N <$> parse_digits s
      end;
  if in_i32 z then Some z else None.

(** ** [String::from_utf8_lossy] *)

Definition byte_at (n : nat) (s : string) : N :=
  match String.get n s with Some c => N_of_ascii c | None => 0 end.
Definition in_range (lo hi n : N) : bool := ((lo <=? n) && (n <=? hi))%N.

(** Whether the text begins with a well-formed character, and the length of it
    or of the ill-formed part. *)
Definition utf8_head (s : string) : bool * nat :=
  let a := byte_at 0 s in let b := byte_at 1 s in
  let cont n := in_range 128 191 (byte_at n s) in
  if (a <? 128)%N then (true, 1)
  else if in_range 194 223 a then if cont 1 then (true, 2) else (false, 1)
  else if in_range 224 239 a then
    if in_range (if (a =? 224)%N then 160 else 128) (if (a =? 237)%N then 159 else 191) b
    then if cont 2 then (true, 3) else (false, 2)
    else (false, 1)
  else if in_range 240 244 a then
    if in_range (if (a =? 240)%N then 144 else 128) (if (a =? 244)%N then 143 else 191) b
    then if cont 2 then if cont 3 then (true, 4) else (false, 3) else (false, 2)
    else (false, 1)
  else (false, 1).

Definition REPLACEMENT : string := str_char 239 +:+ str_char 191 +:+ str_char 189.

Definition str_drop (n : nat) (s : string) : string :=
  String.substring n (String.length s - n) s.

(** Every round consumes a byte; the length is enough fuel. *)
Fixpoint lossy_fuel (fuel : nat) (s : string) : string :=
  match fuel, s with
  | S fuel, String _ _ =>
      let '(ok, n) := utf8_head s in
      (if ok then String.substring 0 n s else REPLACEMENT) +:+ lossy_fuel fuel (str_drop n s)
  | _, _ => ""
  end.
Definition from_utf8_lossy (s : bytes) : string := lossy_fuel (String.length s) s.

(** ** Facts *)

Lemma split_char_not_nil sep s : split_char sep s ≠ [].
Proof. destruct s; simpl; [done|]. case_bool_decide; [done|]. by destruct (split_char sep s). Qed.

(** Splitting loses nothing. *)
Lemma split_char_join sep s : str_join (String sep "") (split_char sep s) = s.
Proof.
  induction s as [|c s IH]; [done|]. simpl. pose proof (split_char_not_nil sep s) as Hn.
  case_bool_decide as Hc.
  - subst c. destruct (split_char sep s) as [|p ps]; [done|].
    change (str_join (String sep "") ("" :: p :: ps))
      with (String sep (str_join (String sep "") (p :: ps))). by rewrite IH.
  - destruct (split_char sep s) as [|p ps]; [done|]. destruct ps as [|q ps]; simpl in *.
    + by rewrite <-IH.
    + by rewrite <-IH.
Qed.

Lemma split_char_free sep s p : p ∈ split_char sep s → contains_char sep p = false.
Proof.
  revert p. induction s as [|c s IH]; intros p; simpl.
  - intros ->%list_elem_of_singleton. done.
  - case_bool_decide as Hc.
    + intros [->|Hp]%elem_of_cons; [done|by apply IH].
    + destruct (split_char sep s) as [|q qs].
      * intros ->%list_elem_of_singleton. simpl. by rewrite bool_decide_eq_false_2.
      * intros [->|Hp]%elem_of_cons.
        -- simpl. rewrite bool_decide_eq_false_2 by done. apply IH. by apply elem_of_cons; left.
        -- apply IH. by apply elem_of_cons; right.
Qed.

Lemma parse_i32_range s z : parse_i32 s = Some z → (-2147483648 ≤ z ≤ 2147483647)%Z.
Proof.
  unfold parse_i32. intros (z'&_&H)%bind_Some. destruct (in_i32 z') eqn:Hr; [|done].
  injection H as <-. unfold in_i32 in Hr. lia.
Qed.

(** Cutting a text at a position. *)
Lemma substring_app n (a b : string) :
  String.substring 0 n (a +:+ b) =
    String.substring 0 n a +:+ String.substring 0 (n - String.length a) b.
Proof.
  revert n. induction a as [|c a IH]; intros n; simpl.
  - rewrite Nat.sub_0_r. by destruct n, b.
  - destruct n; simpl; [by destruct b|]. by rewrite IH.
Qed.

Lemma substring_0 (s : string) : String.substring 0 0 s = "".
Proof. by destruct s. Qed.

Lemma substring_all (n : nat) (s : string) : String.length s ≤ n → String.substring 0 n s = s.
Proof.
  revert n. induction s as [|c s IH]; intros [|n] Hn; simpl in *; try done; [lia|].
  f_equal. apply IH. lia.
Qed.

Lemma substring_prefix n (a b : string) :
  n ≤ String.length a → String.substring 0 n (a +:+ b) = String.substring 0 n a.
Proof.
  intros Hn. rewrite substring_app.
  by replace (n - String.length a) with 0 by lia; rewrite substring_0, str_app_nil_r.
Qed.

Lemma str_drop_0 s : str_drop 0 s = s.
Proof. unfold str_drop. apply substring_all. lia. Qed.

Lemma str_drop_cons n c s : str_drop (S n) (String c s) = str_drop n s.
Proof. done. Qed.

Lemma str_drop_app n s b : n ≤ String.length s → str_drop n (s +:+ b) = str_drop n s +:+ b.
Proof.
  revert s. induction n as [|n IH]; intros s Hn; [by rewrite !str_drop_0|].
  destruct s as [|c s]; simpl in Hn; [lia|]. rewrite str_app_cons, !str_drop_cons. apply IH. lia.
Qed.

Lemma length_str_drop n s : String.length (str_drop n s) = String.length s - n.
Proof.
  revert s. induction n as [|n IH]; intros s; [by rewrite str_drop_0, Nat.sub_0_r|].
  destruct s as [|c s]; [done|]. rewrite str_drop_cons. apply IH.
Qed.

Example text_examples :
  str_lines ("a" +:+ str_char 13 +:+ str_char 10 +:+ str_char 10 +:+ "b") = ["a"; ""; "b"] ∧
  str_lines ("a" +:+ str_char 10) = ["a"] ∧ str_lines "" = [] ∧
  from_utf8_lossy ("a" +:+ str_char 195 +:+ "b") = "a" +:+ REPLACEMENT +:+ "b" ∧
  from_utf8_lossy (str_char 195 +:+ str_char 169) = str_char 195 +:+ str_char 169 ∧
  parse_i32 "-12" = Some (-12)%Z ∧ parse_i32 "2147483648" = None ∧ parse_i32 "+" = None.
Proof. done. Qed.
