(* ===== verification/Events.v ===== *)
(** * Server-sent events (the framing of workers.rs of the daemon crate)

    The gossip consumer pushes the chunks of the event stream into a text
    buffer and takes complete events off its front.  How the stream is cut
    into chunks does not change the events. *)

From S2P Require Import Prelude Core Text.

Definition LF2 : string := String NL (String NL "").
Definition CRLF2 : string := String CR (String NL (String CR (String NL ""))).

(** The position and the length of the first blank line. *)
Definition sse_boundary (buffer : string) : option (nat * nat) :=
  match str_find LF2 buffer, str_find CRLF2 buffer with
  | Some lf, Some crlf => if (crlf <? lf)%nat then Some (crlf, 4) else Some (lf, 2)
  | Some lf, None => Some (lf, 2)
  | None, Some crlf => Some (crlf, 4)
  | None, None => None
  end.

(** The first event and the rest of the buffer. *)
Definition next_sse_chunk (buffer : string) : option (string * string) :=
  '(index, separator_len) ← sse_boundary buffer;
  Some (String.substring 0 index buffer, str_drop (index + separator_len) buffer).

(** [while let Some(event) = next_sse_chunk(&mut buffer)]; every round shortens
    the buffer. *)
Fixpoint drain_fuel (fuel : nat) (buffer : string) : list string * string :=
  match fuel with
  | O => ([], buffer)
  | S fuel =>
      match next_sse_chunk buffer with
      | None => ([], buffer)
      | Some (event, rest) =>
          let '(events, rest) := drain_fuel fuel rest in (event :: events, rest)
      end
  end.
Definition drain_events (buffer : string) : list string * string :=
  drain_fuel (S (String.length buffer)) buffer.

(** One chunk: [buffer.push_str(&String::from_utf8_lossy(&chunk))], then the
    events that are complete. *)
Definition push_chunk (buffer : string) (chunk : bytes) : list string * string :=
  drain_events (buffer +:+ from_utf8_lossy chunk).

(** The events of a sequence of chunks and what stays in the buffer. *)
Fixpoint stream_events (buffer : string) (chunks : list bytes) : list string * string :=
  match chunks with
  | [] => ([], buffer)
  | chunk :: chunks =>
      let '(events, buffer) := push_chunk buffer chunk in
      let '(more, buffer) := stream_events buffer chunks in
      (events ++ more, buffer)
  end.

Definition sse_data (event : string) : option string :=
  let lines := omap (λ line, trim <$> strip_prefix "data:" (trim_end_char CR line))
                    (str_lines event) in
  match lines with [] => None | _ => Some (str_join (String NL "") lines) end.

(** ** The first blank line *)

(** The separator at the head of a text. *)
Definition sep_at (s : string) : option nat :=
  if starts_with LF2 s then Some 2 else if starts_with CRLF2 s then Some 4 else None.

Fixpoint first_sep (s : string) : option (nat * nat) :=
  match sep_at s with
  | Some n => Some (0, n)
  | None =>
      match s with
      | EmptyString => None
      | String _ s' => '(i, n) ← first_sep s'; Some (S i, n)
      end
  end.

Lemma sse_boundary_first s : sse_boundary s = first_sep s.
Proof.
  induction s as [|c s IH]; [done|]. unfold sse_boundary in *. cbn [str_find first_sep].
  unfold sep_at. destruct (starts_with LF2 (String c s)) eqn:Hlf.
  - destruct (starts_with CRLF2 (String c s)) eqn:Hcr; [|by destruct (str_find CRLF2 s)].
    apply starts_with_spec in Hlf as [r Hlf], Hcr as [r' Hcr]. by rewrite Hlf in Hcr.
  - destruct (starts_with CRLF2 (String c s)); [by destruct (str_find LF2 s)|].
    rewrite <-IH. destruct (str_find LF2 s) as [lf|], (str_find CRLF2 s) as [cr|]; simpl; try done.
    change (S cr <? S lf)%nat with (cr <? lf)%nat. by destruct (cr <? lf)%nat.
Qed.

Lemma starts_with_more p s b : starts_with p s = true → starts_with p (s +:+ b) = true.
Proof. intros [r ->]%starts_with_spec. rewrite str_app_assoc. apply starts_with_app. Qed.

Lemma sep_at_more s b n : sep_at s = Some n → sep_at (s +:+ b) = Some n.
Proof.
  unfold sep_at. destruct (starts_with LF2 s) eqn:Hlf; [by rewrite (starts_with_more _ _ b Hlf)|].
  destruct (starts_with CRLF2 s) eqn:Hcr; [|done]. rewrite (starts_with_more _ _ b Hcr).
  apply starts_with_spec in Hcr as [r ->]. by destruct (starts_with LF2 _) eqn:H;
    [apply starts_with_spec in H as [r' H]|].
Qed.

(** A text that contains a separator further on gains none at its head. *)
Lemma sep_at_none_more s b : sep_at s = None → is_Some (first_sep s) → sep_at (s +:+ b) = None.
Proof.
  intros Hs Hf. unfold sep_at. destruct (starts_with LF2 (s +:+ b)) eqn:Hlf;
    [|destruct (starts_with CRLF2 (s +:+ b)) eqn:Hcr; [|done]].
  - apply starts_with_spec in Hlf as [r Hlf].
    destruct s as [|c0 [|c1 s]]; [by destruct Hf| |]; injection Hlf as ->.
    + by destruct Hf.
    + by subst.
  - apply starts_with_spec in Hcr as [r Hcr].
    destruct s as [|c0 [|c1 [|c2 [|c3 s]]]]; [by destruct Hf|..]; injection Hcr as ->; subst;
      by destruct Hf.
Qed.

Lemma first_sep_more s b i n :
  first_sep s = Some (i, n) →
  first_sep (s +:+ b) = Some (i, n) ∧ (i + n ≤ String.length s)%nat ∧ (0 < n)%nat.
Proof.
  revert i n. induction s as [|c s IH]; intros i n Hf; [done|].
  rewrite str_app_cons. cbn [first_sep] in *. destruct (sep_at (String c s)) as [m|] eqn:Hs.
  - injection Hf as <- <-. rewrite <-str_app_cons, (sep_at_more _ b _ Hs). split; [done|].
    unfold sep_at in Hs. destruct (starts_with LF2 _) eqn:Hlf.
    + injection Hs as <-. apply starts_with_spec in Hlf as [r ->]. simpl. lia.
    + destruct (starts_with CRLF2 _) eqn:Hcr; [|done]. injection Hs as <-.
      apply starts_with_spec in Hcr as [r ->]. simpl. lia.
  - rewrite <-str_app_cons, sep_at_none_more; [|done|].
    2: { cbn [first_sep]. rewrite Hs. destruct (first_sep s) as [[]|]; [by eexists|done]. }
    destruct (first_sep s) as [[j k]|] eqn:Hj; [|done].
    injection Hf as <- <-. destruct (IH j k eq_refl) as (Hf&Hle&Hn). rewrite Hf. simpl. split; [done|lia].
Qed.

(** ** Draining a buffer *)

Lemma next_sse_chunk_more s b event rest :
  next_sse_chunk s = Some (event, rest) →
  next_sse_chunk (s +:+ b) = Some (event, rest +:+ b) ∧
  (String.length rest < String.length s)%nat.
Proof.
  unfold next_sse_chunk. rewrite !sse_boundary_first.
  destruct (first_sep s) as [[i n]|] eqn:Hf; [|done]. simpl. intros [= <- <-].
  destruct (first_sep_more s b i n Hf) as (->&Hle&Hn). simpl.
  rewrite substring_prefix, str_drop_app by lia. split; [done|].
  rewrite length_str_drop. lia.
Qed.

Lemma drain_fuel_enough n m s :
  (String.length s < n)%nat → (String.length s < m)%nat → drain_fuel n s = drain_fuel m s.
Proof.
  revert m s. induction n as [|n IH]; intros [|m] s Hn Hm; try lia. cbn [drain_fuel].
  destruct (next_sse_chunk s) as [[event rest]|] eqn:Hs; [|done].
  apply (next_sse_chunk_more s "") in Hs as [_ Hlt]. by rewrite (IH m rest) by lia.
Qed.

Lemma drain_step s :
  drain_events s =
    match next_sse_chunk s with
    | None => ([], s)
    | Some (event, rest) => let '(events, tail) := drain_events rest in (event :: events, tail)
    end.
Proof.
  unfold drain_events at 1. cbn [drain_fuel].
  destruct (next_sse_chunk s) as [[event rest]|] eqn:Hs; [|done].
  apply (next_sse_chunk_more s "") in Hs as [_ Hlt]. unfold drain_events.
  by rewrite (drain_fuel_enough (String.length s) (S (String.length rest))) by lia.
Qed.

(** What arrives later is drained from what the buffer kept. *)
Lemma drain_events_app a b :
  drain_events (a +:+ b) =
    (let '(events, rest) := drain_events a in
     let '(more, rest) := drain_events (rest +:+ b) in (events ++ more, rest)).
Proof.
  induction (well_founded_ltof _ String.length a) as [a _ IH].
  rewrite (drain_step a). destruct (next_sse_chunk a) as [[event rest]|] eqn:Ha.
  - destruct (next_sse_chunk_more a b event rest Ha) as [Hab Hlt].
    rewrite drain_step, Hab, (IH rest Hlt). destruct (drain_events rest) as [events tail].
    by destruct (drain_events (tail +:+ b)).
  - by destruct (drain_events (a +:+ b)).
Qed.

Lemma drain_events_rest s events rest :
  drain_events s = (events, rest) → next_sse_chunk rest = None.
Proof.
  revert events. induction (well_founded_ltof _ String.length s) as [s _ IH]. intros events.
  rewrite drain_step. destruct (next_sse_chunk s) as [[event tail]|] eqn:Hs; [|by intros [= <- <-]].
  apply (next_sse_chunk_more s "") in Hs as [_ Hlt].
  destruct (drain_events tail) as [more rest'] eqn:Hl. intros [= <- <-]. by eapply IH.
Qed.

Lemma stream_events_drain buffer chunks :
  next_sse_chunk buffer = None → Forall (λ chunk, from_utf8_lossy chunk = chunk) chunks →
  stream_events buffer chunks = drain_events (buffer +:+ str_concat chunks).
Proof.
  intros Hb Hc. revert buffer Hb. induction Hc as [|chunk chunks Hchunk Hc IH]; intros buffer Hb.
  { change (str_concat []) with "". rewrite str_app_nil_r, drain_step, Hb. done. }
  cbn [stream_events]. unfold push_chunk. rewrite Hchunk. change (str_concat (chunk :: chunks)) with (chunk +:+ str_concat chunks).
  rewrite <-str_app_assoc.
  rewrite (drain_events_app (buffer +:+ chunk)).
  destruct (drain_events (buffer +:+ chunk)) as [events rest] eqn:Hd.
  by rewrite (IH rest) by (by eapply drain_events_rest).
Qed.

(** How the stream is cut does not matter: from chunks of well-formed text the
    consumer takes the events of the whole text, wherever the cuts fall (inside
    a separator included), and no complete event stays in the buffer. *)
Theorem sse_chunking_irrelevant (chunks : list bytes) :
  Forall (λ chunk, from_utf8_lossy chunk = chunk) chunks →
  stream_events "" chunks = drain_events (str_concat chunks) ∧
  next_sse_chunk (stream_events "" chunks).2 = None.
Proof.
  intros Hc. rewrite (stream_events_drain "" chunks) by done. split; [done|].
  destruct (drain_events _) eqn:Hd. by eapply drain_events_rest.
Qed.

Definition demo_cuts : list bytes :=
  ["data: a" +:+ String NL (String CR ""); String NL (String CR ""); String NL ("data: b" +:+ LF2)].

Lemma sse_chunking_irrelevant_witness :
  stream_events "" demo_cuts = drain_events (str_concat demo_cuts) ∧
  next_sse_chunk (stream_events "" demo_cuts).2 = None.
Proof. apply (sse_chunking_irrelevant demo_cuts). repeat constructor. Defined.

Example sse_examples :
  (drain_events (str_concat demo_cuts)).2 = "" ∧
  sse_data <$> (drain_events (str_concat demo_cuts)).1 = [Some "a"; Some "b"] ∧
  sse_data ("event: x" +:+ String NL "data:1" +:+ String NL "data: 2") = Some ("1" +:+ String NL "2") ∧
  sse_data ": ping" = None.
Proof. done. Qed.
