(* ===== verification/Scheduling.v ===== *)
(** * Scheduling limits (concurrency.rs and retry.rs of the orchestrator)

    [Concurrency]: the budget of in-flight runs, with a global cap and caps per
    issue state, refines a multiset of held slots.  [Retry]: the capped
    exponential backoff and the attempts cap. *)

From S2P Require Import Prelude.

(** [usize::saturating_sub] is [N.sub]. *)

Module Concurrency.
(** An [IssueState] is its name. *)
Record Headroom := { hd_global : N; hd_per_state : N }.

Definition available (h : Headroom) : N := N.min (hd_global h) (hd_per_state h).
Definition is_open (h : Headroom) : bool := (0 <? available h)%N.

Record Budget := {
  global_cap : N;
  global_used : N;
  per_state_caps : gmap string N;
  per_state_used : gmap string N
}.

(** [Budget::new]. *)
Definition new_budget (cap : N) (caps : gmap string N) : Budget :=
  {| global_cap := cap; global_used := 0; per_state_caps := caps; per_state_used := ∅ |}.

Definition headroom (b : Budget) (state : string) : Headroom := {|
  hd_global := global_cap b - global_used b;
  hd_per_state :=
    match per_state_caps b !! state with
    | Some cap => cap - match per_state_used b !! state with Some value => value | None => 0 end
    | None => u64_max
    end
|}%N.

(** [Budget::try_acquire]: the answer and the budget afterwards. *)
Definition try_acquire (b : Budget) (state : string) : bool * Budget :=
  if negb (is_open (headroom b state)) then (false, b)
  else (true, {|
    global_cap := global_cap b;
    global_used := sat_add64 (global_used b) 1;
    per_state_caps := per_state_caps b;
    per_state_used :=
      match per_state_caps b !! state with
      | Some _ => <[state := sat_add64 (default 0%N (per_state_used b !! state)) 1]> (per_state_used b)
      | None => per_state_used b
      end |}).

Definition release (b : Budget) (state : string) : Budget := {|
  global_cap := global_cap b;
  global_used := global_used b - 1;
  per_state_caps := per_state_caps b;
  per_state_used :=
    match per_state_used b !! state with
    | Some entry => <[state := (entry - 1)%N]> (per_state_used b)
    | None => per_state_used b
    end |}%N.

Definition in_flight (b : Budget) : N := global_used b.

(** ** The abstract budget: the states whose slots are held *)

Inductive op := Acquire (state : string) | Release (state : string).

Definition held_in (state : string) (held : list string) : N :=
  llen (filter (λ s, s = state) held).

(** A slot is free for [state]. *)
Definition fits (cap : N) (caps : gmap string N) (state : string) (held : list string) : Prop :=
  (llen held < cap)%N ∧ ∀ c, caps !! state = Some c → (held_in state held < c)%N.

(** What the users of a budget do: slots are granted exactly when they fit,
    and only held slots are released. *)
Inductive slots_run (cap : N) (caps : gmap string N) :
    list string → list op → list bool → list string → Prop :=
  | slots_done held : slots_run cap caps held [] [] held
  | slots_granted held state ops answers held' :
      fits cap caps state held → slots_run cap caps (state :: held) ops answers held' →
      slots_run cap caps held (Acquire state :: ops) (true :: answers) held'
  | slots_refused held state ops answers held' :
      ¬ fits cap caps state held → slots_run cap caps held ops answers held' →
      slots_run cap caps held (Acquire state :: ops) (false :: answers) held'
  | slots_released held rest state ops answers held' :
      held ≡ₚ state :: rest → slots_run cap caps rest ops answers held' →
      slots_run cap caps held (Release state :: ops) answers held'.

Fixpoint run (ops : list op) (b : Budget) : list bool * Budget :=
  match ops with
  | [] => ([], b)
  | Acquire state :: ops =>
      let '(ok, b1) := try_acquire b state in
      let '(answers, b2) := run ops b1 in
      (ok :: answers, b2)
  | Release state :: ops => run ops (release b state)
  end.

(** The budget counts the held slots. *)
Record counts (cap : N) (caps : gmap string N) (held : list string) (b : Budget) : Prop := {
  cn_cap : global_cap b = cap;
  cn_caps : per_state_caps b = caps;
  cn_global : global_used b = llen held;
  cn_state : ∀ s, caps !! s = None → per_state_used b !! s = None;
  cn_used : ∀ s c, caps !! s = Some c → default 0%N (per_state_used b !! s) = held_in s held;
  cn_bound : (llen held ≤ cap)%N;
  cn_bounds : ∀ s c, caps !! s = Some c → (held_in s held ≤ c)%N
}.

Lemma held_in_cons s t held :
  held_in s (t :: held) = (if decide (t = s) then held_in s held + 1 else held_in s held)%N.
Proof.
  unfold held_in. rewrite filter_cons. destruct (decide (t = s)); [|done].
  unfold llen. simpl. lia.
Qed.

Lemma held_in_perm s held held' : held ≡ₚ held' → held_in s held = held_in s held'.
Proof. intros H. unfold held_in, llen. by rewrite H. Qed.

Section refinement.
Context (cap : N) (caps : gmap string N).
Hypothesis cap_fits : (cap ≤ u64_max)%N.
Hypothesis caps_fit : ∀ s c, caps !! s = Some c → (c ≤ u64_max)%N.

Lemma is_open_fits held b s :
  counts cap caps held b → is_open (headroom b s) = true ↔ fits cap caps s held.
Proof.
  intros [Hc Hcs Hg _ Hu _ _]. unfold is_open, available, headroom, fits. simpl.
  rewrite N.ltb_lt, Hc, Hcs, Hg. destruct (caps !! s) as [c|] eqn:Hs.
  - specialize (Hu s c Hs). destruct (per_state_used b !! s); simpl in Hu; subst;
      (split; [intros; split; [lia|intros ? [= <-]; lia]|intros [? H]; specialize (H _ eq_refl); lia]).
  - unfold u64_max. split; [intros; split; [lia|done]|intros [? _]; lia].
Qed.

Lemma acquire_counts held b s :
  counts cap caps held b → fits cap caps s held →
  counts cap caps (s :: held) (try_acquire b s).2.
Proof.
  intros C Hf. pose proof (proj2 (is_open_fits _ _ s C) Hf) as Ho.
  unfold try_acquire. rewrite Ho. simpl. destruct C as [Hc Hcs Hg Hn Hu Hb Hbs].
  destruct Hf as [Hlt Hfit]. split; simpl; try done.
  - rewrite Hg. unfold sat_add64, llen in *. simpl. lia.
  - intros t Ht. rewrite Hcs. destruct (caps !! s) eqn:Hs; [|by apply Hn].
    rewrite lookup_insert_ne by (intros ->; congruence). by apply Hn.
  - intros t c Ht. rewrite Hcs, held_in_cons. destruct (decide (s = t)) as [->|Hne].
    + rewrite Ht, lookup_insert_eq. simpl. rewrite (Hu t c Ht). specialize (Hfit c Ht).
      specialize (caps_fit t c Ht). unfold sat_add64. lia.
    + destruct (caps !! s); [rewrite lookup_insert_ne by done|]; by eapply Hu.
  - unfold llen in *. simpl. lia.
  - intros t c Ht. rewrite held_in_cons. destruct (decide (s = t)) as [->|]; [|by apply Hbs].
    specialize (Hfit c Ht). lia.
Qed.

Lemma release_counts held rest b s :
  held ≡ₚ s :: rest → counts cap caps held b → counts cap caps rest (release b s).
Proof.
  intros Hp [Hc Hcs Hg Hn Hu Hb Hbs].
  assert (Hlen : llen held = (llen rest + 1)%N).
  { unfold llen. rewrite Hp. simpl. lia. }
  assert (Hin : ∀ t, held_in t held = held_in t (s :: rest)) by (intros t; by apply held_in_perm).
  setoid_rewrite held_in_cons in Hin. split; simpl; try done.
  - lia.
  - intros t Ht. destruct (per_state_used b !! s) eqn:Hs; [|by apply Hn].
    rewrite lookup_insert_ne; [by apply Hn|]. intros ->. specialize (Hn t Ht). congruence.
  - intros t c Ht. specialize (Hu t c Ht). specialize (Hin t).
    destruct (decide (s = t)) as [->|Hne].
    + destruct (per_state_used b !! t) eqn:Hs; simpl in Hu; [|rewrite Hs; simpl; lia].
      rewrite lookup_insert_eq. simpl. lia.
    + destruct (per_state_used b !! s) eqn:Hs; [rewrite lookup_insert_ne by done|]; lia.
  - lia.
  - intros t c Ht. specialize (Hbs t c Ht). specialize (Hin t).
    destruct (decide (s = t)); lia.
Qed.

Lemma run_counts held ops answers held' b :
  slots_run cap caps held ops answers held' → counts cap caps held b →
  (run ops b).1 = answers ∧ counts cap caps held' (run ops b).2.
Proof.
  intros Hr. revert b. induction Hr as [|held s ops answers held' Hf _ IH
    |held s ops answers held' Hf _ IH|held rest s ops answers held' Hp _ IH];
    intros b C; [done|..]; simpl.
  - pose proof (acquire_counts _ _ _ C Hf) as C'. apply (is_open_fits _ _ _ C) in Hf.
    unfold try_acquire in *. rewrite Hf in *. simpl in *. destruct (IH _ C') as [<- ?].
    by destruct (run ops _).
  - rewrite <-(is_open_fits _ _ _ C) in Hf. apply not_true_is_false in Hf.
    unfold try_acquire. rewrite Hf. simpl. destruct (IH _ C) as [<- ?].
    by destruct (run ops b).
  - apply IH. by eapply release_counts.
Qed.
End refinement.

(** The budget grants a slot exactly when one is free: for every sequence
    of acquires and releases in which only held slots are released, the
    answers are those of the abstract multiset of held slots, the number in
    flight is the number of held slots, and neither the global cap nor any
    per-state cap is ever exceeded. *)
Theorem budget_refines_slots (cap : N) (caps : gmap string N) (ops : list op)
    (answers : list bool) (held : list string) :
  (cap ≤ u64_max)%N → (∀ s c, caps !! s = Some c → c ≤ u64_max)%N →
  slots_run cap caps [] ops answers held →
  (run ops (new_budget cap caps)).1 = answers ∧
  in_flight (run ops (new_budget cap caps)).2 = llen held ∧
  (llen held ≤ cap)%N ∧ (∀ s c, caps !! s = Some c → held_in s held ≤ c)%N.
Proof.
  intros Hcap Hcaps Hrun. apply run_counts with (b := new_budget cap caps) in Hrun as [<- C];
    [|done..|].
  - destruct C. by split_and!.
  - split; try done; intros; unfold held_in, llen; simpl; lia.
Qed.

(** One global slot of two is taken by "security", whose own cap is one. *)
Lemma budget_refines_slots_witness :
  (run [Acquire "security"; Acquire "security"; Acquire "todo"; Acquire "todo";
        Release "security"; Acquire "todo"] (new_budget 2 {["security" := 1%N]})).1 =
    [true; false; true; false; true].
Proof.
  apply (budget_refines_slots 2 {["security" := 1%N]}
           [Acquire "security"; Acquire "security"; Acquire "todo"; Acquire "todo";
            Release "security"; Acquire "todo"] [true; false; true; false; true]
           ["todo"; "todo"]); [done| |].
  - intros s c Hs. apply lookup_singleton_Some in Hs as [_ <-]. done.
  - apply slots_granted; [split; [done|intros c Hc; by vm_compute in Hc; simplify_eq]|].
    apply slots_refused.
    { intros [_ H]. specialize (H 1%N eq_refl). by vm_compute in H. }
    apply slots_granted; [by split|].
    apply slots_refused; [by intros [H _]|].
    apply (slots_released _ _ _ ["todo"]); [by apply perm_swap|].
    apply slots_granted; [by split|]. constructor.
Defined.
End Concurrency.

Module Retry.
(** A [Duration] is a number of nanoseconds. *)
Definition MILLISECOND : N := 1000000.
Definition SECOND : N := 1000 * MILLISECOND.
Definition u128_max : N := 340282366920938463463374607431768211455.

Record RetryPolicy := { base : N; max : N; max_attempts : N }.

(** [RetryPolicy::new]. *)
Definition new_policy (base max max_attempts : N) : RetryPolicy :=
  {| base := N.max base MILLISECOND; max := max; max_attempts := N.max max_attempts 1 |}.

(** [RetryPolicy::default]. *)
Definition default_policy : RetryPolicy := new_policy (5 * SECOND) (5 * 60 * SECOND) 3.

(** The [u64] in the first eight little-endian bytes of a [u128]. *)
Definition low_u64 (n : N) : N := N.land n u64_max.

Definition backoff_after (p : RetryPolicy) (attempt : N) : N :=
  let factor := N.min (attempt - 1) 31 in
  let multiplier := N.shiftl 1 factor in
  let base_nanos := N.min (base p) u64_max in
  let raw_nanos := N.min (base_nanos * multiplier) u128_max in
  let capped := N.min raw_nanos u64_max in
  let nanos := low_u64 capped in
  N.min nanos (max p).

Definition is_exhausted (p : RetryPolicy) (attempts_so_far : N) : bool :=
  (max_attempts p <=? attempts_so_far)%N.

Lemma pow2_pos e : (1 ≤ 2 ^ e)%N.
Proof. pose proof (N.pow_nonzero 2 e). lia. Qed.

(** The truncations never lose anything: the delay is a product, capped. *)
Lemma backoff_after_product p attempt :
  backoff_after p attempt =
    N.min (N.min (base p * 2 ^ N.min (attempt - 1) 31) u64_max) (max p).
Proof.
  unfold backoff_after, low_u64. rewrite N.shiftl_1_l.
  pose proof (pow2_pos (N.min (attempt - 1) 31)) as H1.
  assert (H2 : (2 ^ N.min (attempt - 1) 31 ≤ 2 ^ 31)%N) by (apply N.pow_le_mono_r; [done|lia]).
  set (m := (2 ^ N.min (attempt - 1) 31)%N) in *.
  change u64_max with (N.ones 64) at 3. rewrite N.land_ones, N.mod_small.
  - unfold u64_max, u128_max. change (2 ^ 31)%N with 2147483648%N in H2. nia.
  - unfold u64_max. change (2 ^ 64)%N with 18446744073709551616%N. lia.
Qed.

(** The retry delay: for a maximum that fits in 64-bit nanoseconds, the
    delay after an attempt doubles from the base, at least one millisecond,
    and stops at the maximum (the saturating and truncating steps lose
    nothing, as long as the thirty-first doubling reaches the maximum or is
    not passed); delays never shrink as attempts grow; and a policy allows at
    least one attempt. *)
Theorem backoff_exact (b m n attempt : N) :
  (m ≤ u64_max)%N →
  let p := new_policy b m n in
  ((attempt ≤ 32 ∨ m ≤ N.max b MILLISECOND * 2 ^ 31)%N →
   backoff_after p attempt = N.min m (N.max b MILLISECOND * 2 ^ (attempt - 1))%N) ∧
  (∀ attempt', attempt ≤ attempt' → backoff_after p attempt ≤ backoff_after p attempt')%N ∧
  (backoff_after p attempt ≤ m)%N ∧
  (MILLISECOND ≤ m → MILLISECOND ≤ backoff_after p attempt)%N ∧
  is_exhausted p 0 = false.
Proof.
  intros Hm p. subst p. setoid_rewrite backoff_after_product. simpl.
  set (b' := N.max b MILLISECOND). assert (Hb : (MILLISECOND ≤ b')%N) by (unfold b'; lia).
  split_and!.
  - intros [Ha|Ha].
    + rewrite (N.min_l (attempt - 1) 31) by lia. lia.
    + destruct (N.le_gt_cases (attempt - 1) 31) as [Hle|Hgt].
      * rewrite (N.min_l (attempt - 1) 31) by lia. lia.
      * rewrite (N.min_r (attempt - 1) 31) by lia.
        assert (2 ^ 31 ≤ 2 ^ (attempt - 1))%N by (apply N.pow_le_mono_r; [done|lia]). nia.
  - intros attempt' Hle.
    assert (2 ^ N.min (attempt - 1) 31 ≤ 2 ^ N.min (attempt' - 1) 31)%N
      by (apply N.pow_le_mono_r; [done|lia]). nia.
  - lia.
  - intros Hmm. pose proof (pow2_pos (N.min (attempt - 1) 31)). unfold u64_max in *. nia.
  - unfold is_exhausted. simpl. apply N.leb_gt. lia.
Qed.

(** The default policy waits 5, 10 and 20 seconds. *)
Lemma backoff_exact_witness :
  backoff_after default_policy 3 = (20 * SECOND)%N.
Proof.
  destruct (backoff_exact (5 * SECOND) (5 * 60 * SECOND) 3 3) as [H _]; [done|].
  etransitivity; [apply H; left; discriminate|reflexivity].
Defined.
End Retry.
