(* ===== verification/Files.v ===== *)
(** * Paths, files and processes

    [std::path] on Unix: a path is its text, compared by its components.  The
    calls of [std::fs] and of the process API are classes over a world in which
    other processes act between any two calls; [LoggedFs] and [LoggedProcess]
    record the calls that change files and processes, so that a theorem can say
    what a program asked for whatever it was told. *)

From S2P Require Import Prelude Core Text Effects.

(** ** Paths *)

Abbreviation path := string (only parsing).

Definition SLASH : ascii := "/"%char.

Inductive Component :=
  | RootDir
  | CurDir
  | ParentDir
  | Normal (name : string).

#[export] Instance Component_eq_dec : EqDecision Component.
Proof. solve_decision. Defined.

(** Repeated slashes and inner dots are no components. *)
Definition component_of (part : string) : option Component :=
  if bool_decide (part = "") then None
  else if bool_decide (part = ".") then None
  else if bool_decide (part = "..") then Some ParentDir
  else Some (Normal part).

Definition is_absolute (p : path) : bool :=
  match p with String c _ => bool_decide (c = SLASH) | EmptyString => false end.

Definition components (p : path) : list Component :=
  let parts := split_char SLASH p in
  if is_absolute p then RootDir :: omap component_of parts
  else match parts with
       | "." :: rest => CurDir :: omap component_of rest
       | _ => omap component_of parts
       end.

(** [Path] equality, [Path::starts_with] and [Path::parent]. *)
Definition same_path (p q : path) : bool := bool_decide (components p = components q).
Definition path_starts_with (p base : path) : bool :=
  bool_decide (components base `prefix_of` components p).
Definition parent_components (p : path) : option (list Component) :=
  match last (components p) with
  | Some (Normal _ | CurDir | ParentDir) => Some (removelast (components p))
  | _ => None
  end.

(** [Path::file_name], and [OsStr::to_str]. *)
Definition file_name (p : path) : option string :=
  match last (components p) with Some (Normal name) => Some name | _ => None end.
Definition to_str (s : string) : option string := if utf8_valid s then Some s else None.

(** [Path::join]. *)
Definition join (p q : path) : path :=
  if is_absolute q then q
  else if bool_decide (p = "") || ends_with_char SLASH p then p +:+ q
  else p +:+ String SLASH q.

(** ** Facts about paths *)

Lemma split_char_app sep a b :
  split_char sep (a +:+ String sep b) = split_char sep a ++ split_char sep b.
Proof.
  induction a as [|c a IH]; simpl.
  - by rewrite bool_decide_eq_true_2.
  - rewrite IH.
    case_bool_decide; [done|]. pose proof (split_char_not_nil sep a).
    by destruct (split_char sep a).
Qed.

Lemma split_char_single sep a : contains_char sep a = false → split_char sep a = [a].
Proof.
  induction a as [|c a IH]; simpl; [done|]. intros [Hc Ha]%orb_false_iff.
  apply bool_decide_eq_false_1 in Hc. rewrite bool_decide_eq_false_2 by done.
  by rewrite IH.
Qed.

Lemma split_char_ends sep a :
  ends_with_char sep a = true → a = drop_last a +:+ String sep "".
Proof.
  unfold ends_with_char. rewrite bool_decide_eq_true.
  induction a as [|c a IH]; [done|]. destruct a as [|d a].
  - intros [= ->]. done.
  - intros H. change (last_char (String c (String d a))) with (last_char (String d a)) in H.
    specialize (IH H). change (drop_last (String c (String d a)))
      with (String c (drop_last (String d a))). rewrite str_app_cons. by f_equal.
Qed.

(** A name that can only be a plain component. *)
Definition plain_name (s : string) : bool :=
  negb (bool_decide (s = "")) && negb (bool_decide (s = ".")) && negb (bool_decide (s = ".."))
  && negb (contains_char SLASH s).

Lemma component_of_plain s : plain_name s = true → component_of s = Some (Normal s).
Proof.
  unfold plain_name, component_of. rewrite !andb_true_iff, !negb_true_iff, !bool_decide_eq_false.
  intros [[[H1 H2] H3] _]. by rewrite !bool_decide_eq_false_2.
Qed.

(** Joining a plain name to an absolute path adds one component. *)
Lemma components_join p s :
  is_absolute p = true → plain_name s = true → components (join p s) = components p ++ [Normal s].
Proof.
  intros Hp Hs. pose proof (component_of_plain _ Hs) as Hc.
  assert (Hns : contains_char SLASH s = false).
  { unfold plain_name in Hs. rewrite !andb_true_iff, !negb_true_iff in Hs. by destruct Hs. }
  assert (Ha : is_absolute s = false).
  { destruct s as [|c s]; [done|]. simpl in *. by apply orb_false_iff in Hns as [-> _]. }
  destruct p as [|c p]; [done|]. unfold join. rewrite Ha.
  rewrite (bool_decide_eq_false_2 (String c p = "")) by done. simpl orb.
  destruct (ends_with_char SLASH (String c p)) eqn:He.
  - apply split_char_ends in He. set (q := drop_last (String c p)) in *. rewrite He.
    rewrite He in Hp. rewrite <-(str_app_nil_r s) at 1. rewrite str_app_assoc.
    change (String SLASH "" +:+ s +:+ "") with (String SLASH (s +:+ "")).
    rewrite str_app_nil_r. unfold components.
    assert (is_absolute (q +:+ String SLASH s) = true) as ->.
    { destruct q; [done|]. exact Hp. }
    rewrite Hp, !split_char_app, !omap_app, (split_char_single _ s Hns). simpl. rewrite Hc.
    by rewrite app_nil_r.
  - unfold components. assert (is_absolute (String c p +:+ String SLASH s) = true) as -> by done.
    rewrite Hp, split_char_app, omap_app, (split_char_single _ s Hns). simpl. by rewrite Hc.
Qed.

Lemma is_absolute_components p : is_absolute p = true ↔ head (components p) = Some RootDir.
Proof.
  unfold components. destruct (is_absolute p); [done|]. split; [done|]. intros H. exfalso.
  assert (Hno : ∀ l, head (omap component_of l) ≠ Some RootDir).
  { induction l as [|x l IH]; [done|]. simpl. unfold component_of at 1.
    repeat case_bool_decide; done. }
  destruct (split_char SLASH p) as [|x l]; [done|].
  destruct x as [|c x]; [by apply (Hno ("" :: l))|].
  repeat (destruct c as [[] [] [] [] [] [] [] []]; try by apply Hno in H).
  destruct x; [done|]. by apply Hno in H.
Qed.

Lemma is_absolute_extends p q :
  is_absolute p = true → components p `prefix_of` components q → is_absolute q = true.
Proof.
  rewrite !is_absolute_components. intros Hp [k Hk]. rewrite Hk.
  by destruct (components p).
Qed.

Lemma file_name_join p s :
  is_absolute p = true → plain_name s = true → file_name (join p s) = Some s.
Proof. intros. unfold file_name. by rewrite components_join, last_snoc. Qed.

(** ** The file system *)

Inductive IoKind := IoNotFound | IoAlreadyExists | IoOther.
#[export] Instance IoKind_eq_dec : EqDecision IoKind.
Proof. solve_decision. Defined.

(** [io::Error]: its kind and its message. *)
Record IoError := { io_kind : IoKind; io_text : string }.

Inductive FileKind := KDir | KFile | KSymlink | KOther.
#[export] Instance FileKind_eq_dec : EqDecision FileKind.
Proof. solve_decision. Defined.

(** The calls of [std::fs]; a creation mode is given where the code sets one.
    [fs_metadata] follows links.  A directory entry is its file name. *)
Class Fs (W : Type) := {
  fs_canonicalize : path → Run W IoError path;
  fs_metadata : path → Run W IoError FileKind;
  fs_symlink_metadata : path → Run W IoError FileKind;
  fs_read_dir : path → Run W IoError (list (result string IoError));
  fs_create_dir : option N → path → Run W IoError unit;
  fs_create_dir_all : option N → path → Run W IoError unit;
  fs_set_permissions : N → path → Run W IoError unit;
  fs_remove_dir_all : path → Run W IoError unit;
  fs_rename : path → path → Run W IoError unit;
  fs_write : path → bytes → Run W IoError unit;
  fs_append : path → bytes → Run W IoError unit;
  fs_copy : path → path → Run W IoError unit
}.

(** ** Processes *)

(** [ExitStatus::code]: none when a signal ended the process. *)
Abbreviation ExitStatus := (option Z) (only parsing).
Definition success (status : ExitStatus) : bool := bool_decide (status = Some 0%Z).

(** A command with a cleared environment, piped output and its own group. *)
Record HookCommand := {
  hc_program : string;
  hc_args : list string;
  hc_current_dir : path;
  hc_envs : gmap string string
}.

(** What joining a reader task gives: the chunks it read, up to the end of the
    stream or an error; or the task died; or it still runs when the drain time
    is over. *)
Inductive Joined :=
  | ReaderEnded (chunks : list bytes)
  | ReaderFailed (source : IoError)
  | TaskFailed (message : string)
  | StillRunning.

Class HookProcess (W : Type) := {
  hp_spawn : HookCommand → Run W IoError N;
  (** whether the child has its pipe *)
  hp_pipe : N → string → W → bool * W;
  (** waiting for at most so many milliseconds *)
  hp_wait_timeout : N → N → W → option (result ExitStatus IoError) * W;
  hp_id : N → W → option N * W;
  (** SIGKILL; a process that does not exist is no error *)
  hp_kill : Z → Run W string unit;
  hp_wait : N → Run W IoError ExitStatus;
  hp_join : N → string → option N → W → Joined * W;
  hp_abort : N → string → W → unit * W
}.

(** ** The calls a program makes *)

Inductive SysCall :=
  | CreateDir (mode : option N) (p : path)
  | CreateDirAll (mode : option N) (p : path)
  | SetPermissions (mode : N) (p : path)
  | RemoveDirAll (p : path)
  | Rename (from to : path)
  | WriteFile (p : path) (b : bytes)
  | AppendFile (p : path) (b : bytes)
  | CopyFile (from to : path)
  | Spawn (command : HookCommand)
  | Kill (pid : Z).

Definition unlogged {W E A} (c : Run W E A) : Run (W * list SysCall) E A :=
  λ s, let '(r, w) := c s.1 in (r, (w, s.2)).
Definition logging {W E A} (call : SysCall) (c : Run W E A) : Run (W * list SysCall) E A :=
  λ s, let '(r, w) := c s.1 in (r, (w, s.2 ++ [call])).

#[export] Instance LoggedFs {W} (F : Fs W) : Fs (W * list SysCall) := {|
  fs_canonicalize p := unlogged (fs_canonicalize p);
  fs_metadata p := unlogged (fs_metadata p);
  fs_symlink_metadata p := unlogged (fs_symlink_metadata p);
  fs_read_dir p := unlogged (fs_read_dir p);
  fs_create_dir m p := logging (CreateDir m p) (fs_create_dir m p);
  fs_create_dir_all m p := logging (CreateDirAll m p) (fs_create_dir_all m p);
  fs_set_permissions m p := logging (SetPermissions m p) (fs_set_permissions m p);
  fs_remove_dir_all p := logging (RemoveDirAll p) (fs_remove_dir_all p);
  fs_rename p q := logging (Rename p q) (fs_rename p q);
  fs_write p b := logging (WriteFile p b) (fs_write p b);
  fs_append p b := logging (AppendFile p b) (fs_append p b);
  fs_copy p q := logging (CopyFile p q) (fs_copy p q)
|}.

#[export] Instance LoggedProcess {W} (P : HookProcess W) : HookProcess (W * list SysCall) := {|
  hp_spawn c := logging (Spawn c) (hp_spawn c);
  hp_pipe child stream := λ s, let '(b, w) := hp_pipe child stream s.1 in (b, (w, s.2));
  hp_wait_timeout child ms := λ s, let '(r, w) := hp_wait_timeout child ms s.1 in (r, (w, s.2));
  hp_id child := λ s, let '(r, w) := hp_id child s.1 in (r, (w, s.2));
  hp_kill pid := logging (Kill pid) (hp_kill pid);
  hp_wait child := unlogged (hp_wait child);
  hp_join child stream drain :=
    λ s, let '(r, w) := hp_join child stream drain s.1 in (r, (w, s.2));
  hp_abort child stream := λ s, let '(r, w) := hp_abort child stream s.1 in (r, (w, s.2))
|}.

(** Every call so far satisfies [P]. *)
Definition calls {W} (P : SysCall → Prop) (s : W * list SysCall) : Prop := Forall P s.2.

Lemma ensures_unlogged {W E A} P (c : Run W E A) :
  ensures (calls P) (unlogged c) (λ a, ∃ w w', c w = (Ok a, w')).
Proof.
  intros [w l] Hs. unfold unlogged, calls in *. simpl in *. destruct (c w) eqn:Hc.
  split; [done|]. simpl. intros a ->. eauto.
Qed.

Lemma ensures_logging {W E A} (P : SysCall → Prop) call (c : Run W E A) :
  P call → ensures (calls P) (logging call c) (λ _, True).
Proof.
  intros Hc [w l] Hs. unfold logging, calls in *. simpl in *. destruct (c w). simpl.
  split; [|done]. apply Forall_app. by rewrite Forall_singleton.
Qed.

Section logged.
Context {W : Type} `{F : Fs W} `{P : HookProcess W}.
Implicit Types Q : SysCall → Prop.

(** The read-only calls of the file system, and those of a process that only
    wait or read. *)
Lemma ensures_read {A} Q (c : Run W IoError A) : ensures (calls Q) (unlogged c) (λ _, True).
Proof. eapply ensures_weaken; [apply ensures_unlogged|done]. Qed.

Lemma ensures_wait {E A} Q (c : W → A * W) :
  ensures (E := E) (calls Q) (embed (λ s : W * list SysCall, let '(a, w) := c s.1 in (a, (w, s.2))))
    (λ _, True).
Proof.
  apply ensures_embed. intros [w l] Hs. unfold calls in *. simpl in *. by destruct (c w).
Qed.

Lemma keeps_canonicalize Q p : ensures (calls Q) (fs_canonicalize p) (λ _, True).
Proof. apply ensures_read. Qed.
Lemma keeps_metadata Q p : ensures (calls Q) (fs_metadata p) (λ _, True).
Proof. apply ensures_read. Qed.
Lemma keeps_symlink_metadata Q p : ensures (calls Q) (fs_symlink_metadata p) (λ _, True).
Proof. apply ensures_read. Qed.
Lemma keeps_read_dir Q p : ensures (calls Q) (fs_read_dir p) (λ _, True).
Proof. apply ensures_read. Qed.
Lemma keeps_wait Q child : ensures (calls Q) (hp_wait child) (λ _, True).
Proof. apply ensures_read. Qed.
Lemma keeps_pipe {E} Q child stream :
  ensures (E := E) (calls Q) (embed (hp_pipe child stream)) (λ _, True).
Proof. apply ensures_wait. Qed.
Lemma keeps_wait_timeout {E} Q child ms :
  ensures (E := E) (calls Q) (embed (hp_wait_timeout child ms)) (λ _, True).
Proof. apply ensures_wait. Qed.
Lemma keeps_id {E} Q child : ensures (E := E) (calls Q) (embed (hp_id child)) (λ _, True).
Proof. apply ensures_wait. Qed.
Lemma keeps_join {E} Q child stream drain :
  ensures (E := E) (calls Q) (embed (hp_join child stream drain)) (λ _, True).
Proof. apply ensures_wait. Qed.
Lemma keeps_abort {E} Q child stream :
  ensures (E := E) (calls Q) (embed (hp_abort child stream)) (λ _, True).
Proof. apply ensures_wait. Qed.
End logged.
#[export] Hint Resolve keeps_canonicalize keeps_metadata keeps_symlink_metadata keeps_read_dir keeps_wait
  keeps_pipe keeps_wait_timeout keeps_id keeps_join keeps_abort : effects.
