(* ===== verification/Containment.v ===== *)
(** * Path containment (containment.rs of the workspace crate)

    Issue identifiers that may name a workspace, and the check that an existing
    path is the direct child of the root that its name says.  Errors are the
    source's variants; [show_containment] is their [Display]. *)

From S2P Require Import Prelude Identity Core Text Files Effects.

Definition MAX_IDENTIFIER_BYTES : N := 255.

(** [ContainmentError]. *)
Inductive ContainmentError :=
  | EmptyIdentifier
  | IdentifierTooLong (actual max : N)
  | LeadingDot
  | LeadingSlash
  | TrailingDot
  | ParentTraversal
  | NonWhitelistedByte (offset byte : N)
  | ReservedDeviceName (stem : string)
  | RelativePath (p : path)
  | RootNotDirectory (p : path)
  | EscapesRoot (root p : path)
  | RootItself (p : path)
  | NotDirectChild (root p : path)
  | AliasMismatch (requested resolved : string)
  | MissingFileName (p : path)
  | ContainmentMetadata (p : path) (source : IoError)
  | CanonicalizeFailed (p : path) (source : IoError).

(** The [Debug] form of a string ([{:?}]), which escapes by Unicode class. *)
Class DebugStr := { debug_str : string → string }.

(** [{:02x}] of a byte. *)
Definition hex_byte (n : N) : string := hex_encode (String (ascii_of_N n) "").

Definition show_containment `{DebugStr} (e : ContainmentError) : string :=
  match e with
  | EmptyIdentifier => "issue identifier must not be empty"
  | IdentifierTooLong actual max =>
      "issue identifier is " +:+ pretty actual +:+ " bytes; maximum is " +:+ pretty max +:+ " bytes"
  | LeadingDot => "issue identifier must not start with '.'"
  | LeadingSlash => "issue identifier must not start with '/'"
  | TrailingDot => "issue identifier must not end with '.'"
  | ParentTraversal => "issue identifier must not contain '..'"
  | NonWhitelistedByte offset byte =>
      "issue identifier contains non-whitelisted byte 0x" +:+ hex_byte byte +:+ " at offset " +:+
      pretty offset
  | ReservedDeviceName stem =>
      "issue identifier matches a reserved Windows device name: " +:+ stem
  | RelativePath p => "workspace path is not absolute: " +:+ p
  | RootNotDirectory p => "workspace root is not a directory: " +:+ p
  | EscapesRoot root p => "workspace path escaped root: root=" +:+ root +:+ ", path=" +:+ p
  | RootItself p => "workspace path resolves to root itself: " +:+ p
  | NotDirectChild root p =>
      "workspace path is not a direct child of root: root=" +:+ root +:+ ", path=" +:+ p
  | AliasMismatch requested resolved =>
      "workspace path alias mismatch: requested " +:+ debug_str requested +:+ ", resolved " +:+
      debug_str resolved
  | MissingFileName p => "workspace path has no UTF-8 file name: " +:+ p
  | ContainmentMetadata p source => "failed to read metadata for " +:+ p +:+ ": " +:+ io_text source
  | CanonicalizeFailed p source => "failed to canonicalize " +:+ p +:+ ": " +:+ io_text source
  end.

(** ** Identifiers *)

Definition is_allowed_identifier_byte (c : ascii) : bool :=
  in_byte_range 65 90 c || in_byte_range 97 122 c || is_ascii_digit c ||
  bool_decide (c = "."%char) || bool_decide (c = "_"%char) || bool_decide (c = "-"%char).

(** [windows(2).any(|w| w == b"..")]. *)
Fixpoint has_dot_dot (s : string) : bool :=
  match s with
  | String a (String b _ as s') =>
      (bool_decide (a = "."%char) && bool_decide (b = "."%char)) || has_dot_dot s'
  | _ => false
  end.

(** The first byte outside the whitelist, with its offset. *)
Fixpoint first_bad (offset : N) (s : string) : option (N * N) :=
  match s with
  | EmptyString => None
  | String c s' =>
      if is_allowed_identifier_byte c then first_bad (offset + 1) s'
      else Some (offset, N_of_ascii c)
  end.

Definition RESERVED : list string :=
  ["CON"; "PRN"; "AUX"; "NUL"; "COM1"; "COM2"; "COM3"; "COM4"; "COM5"; "COM6"; "COM7"; "COM8";
   "COM9"; "LPT1"; "LPT2"; "LPT3"; "LPT4"; "LPT5"; "LPT6"; "LPT7"; "LPT8"; "LPT9"].
Definition is_reserved_windows_device_name (upper_stem : string) : bool :=
  bool_decide (upper_stem ∈ RESERVED).

Definition DOT : ascii := "."%char.
(** The bytes before the first dot. *)
Definition stem (raw : string) : string := default raw (head (split_char DOT raw)).

(** A [SanitizedIdentifier] is its text. *)
Definition sanitize_issue_identifier (raw : string) : result string ContainmentError :=
  bail EmptyIdentifier when bool_decide (raw = "");
  bail (IdentifierTooLong (blen raw) MAX_IDENTIFIER_BYTES)
    when (MAX_IDENTIFIER_BYTES <? blen raw)%N;
  bail LeadingDot when starts_with "." raw;
  bail LeadingSlash when starts_with "/" raw;
  bail TrailingDot when ends_with_char DOT raw;
  bail ParentTraversal when has_dot_dot raw;
  match first_bad 0 raw with
  | Some (offset, byte) => Err (NonWhitelistedByte offset byte)
  | None =>
      let upper_stem := to_ascii_uppercase (stem raw) in
      bail (ReservedDeviceName upper_stem) when is_reserved_windows_device_name upper_stem;
      Ok raw
  end.

Definition deterministic_path (root : path) (identifier : string) : path := join root identifier.

(** ** Existing paths *)

Definition utf8_file_name (p : path) : result string ContainmentError :=
  ok_or (file_name p ≫= to_str) (MissingFileName p).

Section containment.
Context {W : Type} `{F : Fs W}.

Definition canonicalize_root (root : path) : Run W ContainmentError path :=
  canonical ← mapping_err (CanonicalizeFailed root) (fs_canonicalize root);
  if negb (is_absolute canonical) then throw (RelativePath canonical)
  else
    metadata ← mapping_err (ContainmentMetadata canonical) (fs_metadata canonical);
    if bool_decide (metadata ≠ KDir) then throw (RootNotDirectory canonical)
    else mret canonical.

Definition validate_existing_workspace_path (root candidate : path)
    : Run W ContainmentError path :=
  if negb (is_absolute root) then throw (RelativePath root)
  else if negb (is_absolute candidate) then throw (RelativePath candidate)
  else
    requested_name ← lift_result (utf8_file_name candidate);
    _ ← lift_result (sanitize_issue_identifier requested_name);
    canonical ← mapping_err (CanonicalizeFailed candidate) (fs_canonicalize candidate);
    if negb (path_starts_with canonical root) then throw (EscapesRoot root canonical)
    else if same_path canonical root then throw (RootItself canonical)
    else if bool_decide (parent_components canonical ≠ Some (components root))
    then throw (NotDirectChild root canonical)
    else
      resolved_name ← lift_result (utf8_file_name canonical);
      if bool_decide (requested_name ≠ resolved_name)
      then throw (AliasMismatch requested_name resolved_name)
      else mret canonical.
End containment.

(** ** What is accepted *)

Record safe_name (s : string) : Prop := {
  sn_length : (1 ≤ blen s ≤ MAX_IDENTIFIER_BYTES)%N;
  sn_bytes : str_all is_allowed_identifier_byte s = true;
  sn_first : starts_with "." s = false;
  sn_last : ends_with_char DOT s = false;
  sn_parent : has_dot_dot s = false;
  sn_device : is_reserved_windows_device_name (to_ascii_uppercase (stem s)) = false
}.

Lemma first_bad_None n s : first_bad n s = None ↔ str_all is_allowed_identifier_byte s = true.
Proof.
  revert n. induction s as [|c s IH]; intros n; simpl; [done|].
  destruct (is_allowed_identifier_byte c); simpl; [apply IH|done].
Qed.

Lemma starts_with_slash s : str_all is_allowed_identifier_byte s = true → starts_with "/" s = false.
Proof.
  destruct s as [|c s]; [done|]. simpl. intros [Hc _]%andb_true_iff.
  apply not_true_is_false. intros Hs%starts_with_spec. destruct Hs as [r Hr]. simpl in Hr.
  injection Hr as -> _. by vm_compute in Hc.
Qed.

Lemma sanitize_Ok raw s : sanitize_issue_identifier raw = Ok s ↔ s = raw ∧ safe_name raw.
Proof.
  unfold sanitize_issue_identifier. split.
  - case_bool_decide as Hne; [done|]. intros H. ok_inv.
    destruct (first_bad 0 raw) as [[? ?]|] eqn:Hb; [done|]. ok_inv. split; [done|].
    apply first_bad_None in Hb. apply N.ltb_ge in Hg. split; try done.
    split; [|done]. destruct s; [done|]. unfold blen; simpl; lia.
  - intros [-> [[Hl1 Hl2] Hb Hf Hl Hp Hd]]. case_bool_decide as Hne; [by subst|].
    rewrite (proj2 (N.ltb_ge _ _) Hl2), Hf, (starts_with_slash _ Hb), Hl, Hp.
    by rewrite (proj2 (first_bad_None 0 raw) Hb), Hd.
Qed.

Lemma allowed_no_slash s : str_all is_allowed_identifier_byte s = true → contains_char SLASH s = false.
Proof.
  induction s as [|c s IH]; [done|]. simpl. intros [Hc Hs]%andb_true_iff.
  rewrite (IH Hs), orb_false_r. apply bool_decide_eq_false_2. intros ->. by vm_compute in Hc.
Qed.

(** A safe name is one plain path component. *)
Lemma safe_plain s : safe_name s → plain_name s = true.
Proof.
  intros [[Hl _] Hb Hf _ _ _]. unfold plain_name.
  rewrite (allowed_no_slash _ Hb). rewrite !bool_decide_eq_false_2; [done|..];
    intros ->; (by vm_compute in Hl) || (by vm_compute in Hf).
Qed.

(** An accepted path is the direct child of the root with the requested name. *)
Definition child_of (root : path) (name : string) (p : path) : Prop :=
  components p = components root ++ [Normal name] ∧ safe_name name.

Lemma parent_file_name p cs name :
  parent_components p = Some cs → file_name p = Some name → components p = cs ++ [Normal name].
Proof.
  unfold parent_components, file_name.
  destruct (components p) as [|c l] using rev_ind; [done|].
  rewrite last_snoc, removelast_last. destruct c; naive_solver.
Qed.

Lemma utf8_file_name_Ok p name : utf8_file_name p = Ok name → file_name p = Some name.
Proof.
  unfold utf8_file_name. intros H. apply ok_or_Ok in H.
  destruct (file_name p) as [n|]; [|done]. simpl in H. unfold to_str in H.
  destruct (utf8_valid n); naive_solver.
Qed.

Lemma validate_existing_Ok `{F : Fs W} root candidate w canonical w' :
  validate_existing_workspace_path root candidate w = (Ok canonical, w') →
  is_absolute root = true ∧ is_absolute candidate = true ∧
  ∃ name, file_name candidate = Some name ∧ child_of root name canonical ∧
    fs_canonicalize candidate w = (Ok canonical, w').
Proof.
  unfold validate_existing_workspace_path. intros H.
  destruct (is_absolute root); [|done]. destruct (is_absolute candidate); [|done]. simpl in H.
  run_inv. rename select (sanitize_issue_identifier _ = _) into Hs.
  rename select (fs_canonicalize _ _ = _) into Hc. apply sanitize_Ok in Hs as [-> Hs].
  destruct (path_starts_with _ root); [|done]. simpl in *.
  destruct (same_path _ root); [done|]. case_bool_decide as Hp; [done|].
  run_inv. case_bool_decide as Hn; [done|]. subst. run_inv.
  split; [done|]. split; [done|]. eexists. split; [by apply utf8_file_name_Ok|].
  split; [|done]. split; [|done]. apply parent_file_name; [done|]. by apply utf8_file_name_Ok.
Qed.

(** Issue identifiers and workspaces: an identifier is accepted exactly if it
    is a safe name; the path it gets is a direct child of the root under this
    very name, so distinct identifiers get distinct paths. *)
Lemma sanitize_contains root raw :
  is_absolute root = true →
  match sanitize_issue_identifier raw with
  | Ok s => s = raw ∧ child_of root raw (deterministic_path root s)
  | Err _ => ¬ safe_name raw
  end.
Proof.
  intros Hr. destruct (sanitize_issue_identifier raw) as [s|e] eqn:E.
  - apply sanitize_Ok in E as [-> Hs]. split; [done|]. split; [|done].
    apply components_join; [done|by apply safe_plain].
  - intros Hs. assert (sanitize_issue_identifier raw = Ok raw) by by apply sanitize_Ok. congruence.
Qed.

Lemma child_of_inj root n n' p : child_of root n p → child_of root n' p → n = n'.
Proof. intros [H1 _] [H2 _]. rewrite H1 in H2. by simplify_list_eq. Qed.

Example sanitize_examples :
  sanitize_issue_identifier "XSY-0005" = Ok "XSY-0005" ∧
  sanitize_issue_identifier "con.txt" = Err (ReservedDeviceName "CON") ∧
  sanitize_issue_identifier "a..b" = Err ParentTraversal ∧
  sanitize_issue_identifier "a b" = Err (NonWhitelistedByte 1 32) ∧
  sanitize_issue_identifier ".." = Err LeadingDot.
Proof. done. Qed.
