(* ===== verification/Disk.v ===== *)
(** * A disk in memory

    A concrete file system and process table, on which the theorems about the
    workspace manager and the orchestrator are applied.  Paths are looked up by
    their text; a link names its target. *)

From S2P Require Import Prelude Core Text Effects Files Containment.

Inductive node := Dir | File (b : bytes) | Link (to : path).

Abbreviation disk := (gmap string node) (only parsing).

Definition not_found : IoError := {| io_kind := IoNotFound; io_text := "No such file or directory" |}.
Definition already_exists : IoError := {| io_kind := IoAlreadyExists; io_text := "File exists" |}.

Definition kind_of (n : node) : FileKind :=
  match n with Dir => KDir | File _ => KFile | Link _ => KSymlink end.

Definition resolve (d : disk) (p : path) : path :=
  match d !! p with Some (Link to) => to | _ => p end.

(** The name of [q] if it is a child of [p]. *)
Definition child_name (p q : path) : option string :=
  n ← strip_prefix (p +:+ "/") q; if contains_char SLASH n then None else Some n.
Definition inside (p q : path) : bool := bool_decide (p = q) || starts_with (p +:+ "/") q.

Definition found {A} (o : option A) : result A IoError := ok_or o not_found.

#[export] Instance DiskFs : Fs disk := {|
  fs_canonicalize p := λ d, (found ((λ _, resolve d p) <$> d !! resolve d p), d);
  fs_metadata p := λ d, (found (kind_of <$> d !! resolve d p), d);
  fs_symlink_metadata p := λ d, (found (kind_of <$> d !! p), d);
  fs_read_dir p := λ d, (Ok (Ok <$> omap (child_name p) (btree_iter d).*1), d);
  fs_create_dir _ p := λ d,
    match d !! p with Some _ => (Err already_exists, d) | None => (Ok (), <[p := Dir]> d) end;
  fs_create_dir_all _ p := λ d,
    match d !! p with Some _ => (Ok (), d) | None => (Ok (), <[p := Dir]> d) end;
  fs_set_permissions _ p := λ d, (found ((λ _, ()) <$> d !! p), d);
  fs_remove_dir_all p := λ d, (Ok (), filter (λ e, inside p e.1 = false) d);
  fs_rename p q := λ d,
    (Ok (), list_to_map ((λ e, (match strip_prefix p e.1 with
                                | Some rest => if inside p e.1 then q +:+ rest else e.1
                                | None => e.1 end, e.2)) <$> map_to_list d));
  fs_write p b := λ d, (Ok (), <[p := File b]> d);
  fs_append p b := λ d,
    (Ok (), <[p := File (match d !! p with Some (File old) => old +:+ b | _ => b end)]> d);
  fs_copy p q := λ d,
    match d !! resolve d p with
    | Some (File b) => (Ok (), <[q := File b]> d)
    | _ => (Err not_found, d)
    end
|}.

(** Every hook prints one line and succeeds. *)
#[export] Instance DiskProcess : HookProcess disk := {|
  hp_spawn _ := λ d, (Ok 7%N, d);
  hp_pipe _ _ := λ d, (true, d);
  hp_wait_timeout _ _ := λ d, (Some (Ok (Some 0%Z)), d);
  hp_id _ := λ d, (Some 7%N, d);
  hp_kill _ := λ d, (Ok (), d);
  hp_wait _ := λ d, (Ok (Some 0%Z), d);
  hp_join _ _ _ := λ d, (ReaderEnded ["done"], d);
  hp_abort _ _ := λ d, ((), d)
|}.

Definition quoted (s : string) : string := String (ascii_of_N 34) (s +:+ String (ascii_of_N 34) "").
#[export] Instance PlainDebug : DebugStr := {| debug_str := quoted |}.

(** JSON values without numbers; every object encodes to the same text. *)
Inductive plain_value := PlainNull | PlainString (s : string) | PlainArray (l : list plain_value).
Definition plain_json : Json := {|
  Value := plain_value; JNull := PlainNull; JString := PlainString;
  as_str v := match v with PlainString s => Some s | _ => None end;
  as_array v := match v with PlainArray l => Some l | _ => None end;
  enc_object _ := Ok "content" |}.
