(* ===== verification/FoldTypes.v ===== *)
(** * Data of the fold (v2/fold.rs)

    Input streams, refusals, diagnostics, folded issue state, the chained
    candidates that flow from phase 1 to phase 2, and the fold output with its
    two readers [next_chain_link] and [unconsumed_approvals]. *)

From S2P Require Import Prelude Wire.

Definition LAMPORT_MAX_SKEW : N := 64.

(** ** Input *)

Record StoreRecord := {
  sr_key : string;
  sr_value : bytes
}.

Record AuthorStream := {
  as_owner : string;
  as_card_self : option bytes;
  as_records : list StoreRecord
}.

Record FoldLimits := {
  max_roster_members : N;
  max_records_per_stream : N;
  max_record_bytes : N
}.

(** [FoldLimits::default]. *)
Definition default_limits : FoldLimits := {|
  max_roster_members := 256;
  max_records_per_stream := 4096;
  max_record_bytes := 256 * 1024
|}.

Record FoldInput := {
  fi_list_uuid : string;
  fi_creator : string;
  fi_streams : list AuthorStream;
  fi_limits : FoldLimits
}.

#[export] Instance StoreRecord_eq_dec : EqDecision StoreRecord.
Proof. solve_decision. Defined.
#[export] Instance AuthorStream_eq_dec : EqDecision AuthorStream.
Proof. solve_decision. Defined.

(** ** Refusals and diagnostics *)

Inductive ListRefusal :=
  | MissingCreatorStream (creator : string)
  | MissingGenesis
  | InvalidGenesis (reason : string)
  | BudgetExceeded (reason : string).

Record ForkEvidence := {
  fe_author : string;
  fe_author_seq : N;
  fe_event_hashes : list string
}.

Inductive RejectionPhase := Admission | StateMachine.

Record Rejection := {
  re_author : string;
  re_key : string;
  re_phase : RejectionPhase;
  re_reason : string
}.

Definition admission_rejection (author key reason : string) : Rejection :=
  {| re_author := author; re_key := key; re_phase := Admission; re_reason := reason |}.

#[export] Instance ListRefusal_eq_dec : EqDecision ListRefusal.
Proof. solve_decision. Defined.
#[export] Instance ForkEvidence_eq_dec : EqDecision ForkEvidence.
Proof. solve_decision. Defined.
#[export] Instance RejectionPhase_eq_dec : EqDecision RejectionPhase.
Proof. solve_decision. Defined.
#[export] Instance Rejection_eq_dec : EqDecision Rejection.
Proof. solve_decision. Defined.

(** ** Folded issue state *)

(** [IssueStatusV2]: the source's variants carry the prefix [St]. *)
Inductive IssueStatusV2 :=
  | StOpen
  | StClaimed (claimant claim_nonce claim_event_hash : string)
  | StBlocked (claimant claim_nonce claim_event_hash block_event_hash : string)
      (reason : BlockReason)
  | StDone (completed_by complete_event_hash : string).

Record IssueStateV2 := {
  is_issue_id : string;
  is_title : string;
  is_spec : string;
  is_opened_by : string;
  is_open_event_hash : string;
  is_status : IssueStatusV2;
  is_applied : list string
}.

#[export] Instance IssueStatusV2_eq_dec : EqDecision IssueStatusV2.
Proof. solve_decision. Defined.
#[export] Instance IssueStateV2_eq_dec : EqDecision IssueStateV2.
Proof. solve_decision. Defined.

(** [issue.status = st; issue.applied.push(h)]. *)
Definition set_status (i : IssueStateV2) (st : IssueStatusV2) (h : string) : IssueStateV2 := {|
  is_issue_id := is_issue_id i;
  is_title := is_title i;
  is_spec := is_spec i;
  is_opened_by := is_opened_by i;
  is_open_event_hash := is_open_event_hash i;
  is_status := st;
  is_applied := is_applied i ++ [h]
|}.

(** ** Ledgers *)

Record HandoffRecordV2 := { hr_event_hash : string; hr_handoff : HandoffEventV2 }.
Record ChainTipV2 := { ct_author_seq : N; ct_last_event_hash : string }.
Record AdmittedApprovalV2 := { aa_event_hash : string; aa_approval : ApprovalEventV2 }.
Record EffectiveConsumeV2 := { ec_event_hash : string; ec_consume : ConsumeEventV2 }.

Record ConsumeDiagnostic := {
  cd_author : string;
  cd_key : string;
  cd_event_hash : string;
  cd_approval_event_hash : string;
  cd_reason : string
}.

(** ** Phase-1 candidates *)

Inductive ChainedPayload :=
  | PTransition (event : TransitionEventV2)
  | PApproval (event : ApprovalEventV2)
  | PConsume (event : ConsumeEventV2)
  | PHandoff (event : HandoffEventV2).

(** The source's struct [Admitted]: one phase-1 candidate. *)
Record AdmittedEvent := {
  ad_author : string;
  ad_key : string;
  ad_event_hash : string;
  ad_lamport : N;
  ad_author_seq : N;
  ad_prev_own_event_hash : string;
  ad_payload : ChainedPayload
}.

#[export] Instance TransitionEventV2_eq_dec : EqDecision TransitionEventV2.
Proof. solve_decision. Defined.
#[export] Instance ApprovalEventV2_eq_dec : EqDecision ApprovalEventV2.
Proof. solve_decision. Defined.
#[export] Instance ConsumeEventV2_eq_dec : EqDecision ConsumeEventV2.
Proof. solve_decision. Defined.
#[export] Instance HandoffValidationV2_eq_dec : EqDecision HandoffValidationV2.
Proof. solve_decision. Defined.
#[export] Instance HandoffEventV2_eq_dec : EqDecision HandoffEventV2.
Proof. solve_decision. Defined.
#[export] Instance ChainedPayload_eq_dec : EqDecision ChainedPayload.
Proof. solve_decision. Defined.
#[export] Instance Admitted_eq_dec : EqDecision AdmittedEvent.
Proof. solve_decision. Defined.

(** The fold position of a candidate: [(lamport, author, event_hash)]. *)
Definition fold_position (a : AdmittedEvent) : N * string * string :=
  (ad_lamport a, ad_author a, ad_event_hash a).

(** ** Output *)

Record FoldOutput := {
  fo_genesis : GenesisManifestV2;
  fo_genesis_hash : string;
  fo_latest_roster_epoch : N;
  fo_current_roster : gset string;
  fo_issues : gmap string IssueStateV2;
  fo_max_admitted_lamport : N;
  fo_rejections : list Rejection;
  fo_forks : list ForkEvidence;
  fo_approvals : gmap string AdmittedApprovalV2;
  fo_effective_consumes : gmap string EffectiveConsumeV2;
  fo_losing_consumes : list ConsumeDiagnostic;
  fo_handoffs : gmap string (list HandoffRecordV2);
  fo_author_chain_tips : gmap string ChainTipV2
}.

(** [FoldOutput::next_chain_link]; [tip.author_seq + 1] is the [u64] addition. *)
Definition next_chain_link (out : FoldOutput) (author : string) : N * string :=
  match fo_author_chain_tips out !! author with
  | None => (1%N, fo_genesis_hash out)
  | Some tip => (wrap_add64 (ct_author_seq tip) 1, ct_last_event_hash tip)
  end.

Definition approval_covers (issue_id open_hash : string) (v : ApprovalVerdictV2)
    (a : AdmittedApprovalV2) : bool :=
  bool_decide (ae_issue_id (aa_approval a) = issue_id) &&
  bool_decide (ae_open_event_hash (aa_approval a) = open_hash) &&
  bool_decide (ae_verdict (aa_approval a) = v).

(** [FoldOutput::unconsumed_approvals]. *)
Definition unconsumed_approvals (out : FoldOutput) (issue_id : string)
    : list AdmittedApprovalV2 :=
  match fo_issues out !! issue_id with
  | None => []
  | Some issue =>
      let covers := approval_covers issue_id (is_open_event_hash issue) in
      if existsb (covers Deny) (btree_values (fo_approvals out)) then []
      else List.filter
        (λ a, covers Approve a &&
              bool_decide (fo_effective_consumes out !! aa_event_hash a = None))
        (btree_values (fo_approvals out))
  end.

Lemma approval_covers_true i h v a :
  approval_covers i h v a = true ↔
  ae_issue_id (aa_approval a) = i ∧ ae_open_event_hash (aa_approval a) = h ∧
  ae_verdict (aa_approval a) = v.
Proof.
  unfold approval_covers. rewrite !andb_true_iff, !bool_decide_eq_true. tauto.
Qed.

(** Membership in [unconsumed_approvals], on every branch. *)
Lemma elem_of_unconsumed out i a :
  a ∈ unconsumed_approvals out i ↔
  ∃ issue k, fo_issues out !! i = Some issue ∧ fo_approvals out !! k = Some a ∧
    approval_covers i (is_open_event_hash issue) Approve a = true ∧
    fo_effective_consumes out !! aa_event_hash a = None ∧
    (∀ k' d, fo_approvals out !! k' = Some d →
       approval_covers i (is_open_event_hash issue) Deny d = false).
Proof.
  unfold unconsumed_approvals.
  destruct (fo_issues out !! i) as [issue|] eqn:Hi;
    [|split; [by intros ?%elem_of_nil|by intros (?&?&?&_)]].
  destruct (existsb _ _) eqn:Hex.
  - split; [by intros ?%elem_of_nil|]. intros (issue'&k&[= <-]&_&_&_&Hno).
    apply existsb_exists in Hex as (d&Hd&Hcov).
    apply list_elem_of_In, elem_of_btree_values in Hd as [k' Hk'].
    by rewrite (Hno k' d Hk') in Hcov.
  - rewrite list_elem_of_In, filter_In, <-list_elem_of_In, elem_of_btree_values,
      andb_true_iff, bool_decide_eq_true. split.
    + intros [[k Hk] [Hc Hn]]. exists issue, k. split_and!; try done.
      intros k' d Hd. apply not_true_iff_false. intros Hcov.
      apply not_true_iff_false in Hex. apply Hex, existsb_exists. exists d.
      split; [|done]. apply list_elem_of_In, elem_of_btree_values. by exists k'.
    + intros (issue'&k&[= <-]&Hk&Hc&Hn&_). eauto.
Qed.
