(* ===== verification/Canonical.v ===== *)
(** * Canonical streams ([canonical_streams] of v2/fold.rs)

    The reader hands the fold a vector of author streams in arbitrary order,
    possibly with several copies per owner.  [canonical_streams] merges them
    into a map of key-sorted, deduplicated streams and reports the owners whose
    [card-self] values conflict.  The main lemma, [canonical_streams_equiv],
    says that its result is determined by the set of records and cards. *)

From S2P Require Import Prelude Wire Identity FoldTypes.

(** ** The merge *)

Definition empty_stream (owner : string) : AuthorStream :=
  {| as_owner := owner; as_card_self := None; as_records := [] |}.

Definition merge_acc : Type := gmap string AuthorStream * gmap string (gset bytes).

(** One iteration of the first loop. *)
Definition merge_stream (acc : merge_acc) (stream : AuthorStream) : merge_acc :=
  let '(merged, cards) := acc in
  let owner := as_owner stream in
  let entry := default (empty_stream owner) (merged !! owner) in
  let entry := {|
    as_owner := as_owner entry;
    as_card_self :=
      match as_card_self entry with None => as_card_self stream | Some c => Some c end;
    as_records := as_records entry ++ as_records stream
  |} in
  let cards :=
    match as_card_self stream with
    | Some card => <[owner := {[card]} ∪ default ∅ (cards !! owner)]> cards
    | None => cards
    end in
  (<[owner := entry]> merged, cards).

(** Records sort by [(key, value)]. *)
Definition record_key (r : StoreRecord) : string * string := (sr_key r, sr_value r).

Definition canonicalize_stream (s : AuthorStream) : AuthorStream := {|
  as_owner := as_owner s;
  as_card_self := as_card_self s;
  as_records := dedup (sort_by record_key (as_records s))
|}.

(** [BTreeSet] iteration. *)
Definition bset_iter (s : gset string) : list string := sort_by id (elements s).

(** The [card-self] candidates of an owner: explicit fields and records. *)
Definition card_candidates (cards : gmap string (gset bytes)) (s : AuthorStream) : gset bytes :=
  default ∅ (cards !! as_owner s) ∪
  list_to_set (sr_value <$> List.filter (λ r, bool_decide (sr_key r = CARD_SELF_KEY)) (as_records s)).

Section canonical.
Context `{X : Extern}.

Definition conflict_reason (cards : gmap string (gset bytes)) (s : AuthorStream)
    : option string :=
  let candidates := card_candidates cards s in
  if bool_decide (1 < size candidates) then
    Some ("conflicting card-self values for this owner (sha256: " +:+
          str_join " vs " (sha256_hex <$> bset_iter candidates) +:+
          ") — no deterministic author binding is possible; all events from this stream are rejected")
  else None.

Definition collect_conflict (cards : gmap string (gset bytes))
    (conflicted : gmap string string) (s : AuthorStream) : gmap string string :=
  match conflict_reason cards s with
  | Some reason => <[as_owner s := reason]> conflicted
  | None => conflicted
  end.

Definition canonical_streams (streams : list AuthorStream)
    : gmap string AuthorStream * gmap string string :=
  let '(merged, cards) := foldl merge_stream (∅, ∅) streams in
  let merged := canonicalize_stream <$> merged in
  (merged, foldl (collect_conflict cards) ∅ (btree_values merged)).

(** ** Lookups in the merge *)

Definition streams_of (o : string) (streams : list AuthorStream) : list AuthorStream :=
  filter (λ s, as_owner s = o) streams.
Definition records_of (o : string) (streams : list AuthorStream) : list StoreRecord :=
  streams_of o streams ≫= as_records.
Definition cards_of (o : string) (streams : list AuthorStream) : list bytes :=
  omap as_card_self (streams_of o streams).

Definition merged_stream (o : string) (streams : list AuthorStream) : option AuthorStream :=
  match streams_of o streams with
  | [] => None
  | _ => Some {| as_owner := o; as_card_self := head (cards_of o streams);
                 as_records := records_of o streams |}
  end.

Lemma streams_of_snoc o l s :
  streams_of o (l ++ [s]) =
  streams_of o l ++ if decide (as_owner s = o) then [s] else [].
Proof.
  unfold streams_of. rewrite filter_app, filter_cons, filter_nil. done.
Qed.

Lemma merge_stream_lookup acc s o :
  (merge_stream acc s).1 !! o =
  if decide (as_owner s = o) then
    let entry := default (empty_stream o) (acc.1 !! o) in
    Some {| as_owner := as_owner entry;
            as_card_self := match as_card_self entry with
                            | None => as_card_self s | Some c => Some c end;
            as_records := as_records entry ++ as_records s |}
  else acc.1 !! o.
Proof.
  destruct acc as [m c]. simpl. case_decide as E; [|by apply lookup_insert_ne].
  rewrite <-E. apply lookup_insert_eq.
Qed.

Lemma merge_lookup streams o :
  (foldl merge_stream (∅, ∅) streams).1 !! o = merged_stream o streams.
Proof.
  induction streams as [|s l IH] using rev_ind; [done|].
  rewrite foldl_snoc, merge_stream_lookup, IH. unfold merged_stream.
  rewrite streams_of_snoc. unfold cards_of, records_of. rewrite !streams_of_snoc.
  case_decide as E; [|by rewrite !app_nil_r].
  destruct (streams_of o l) as [|s' l']; simpl.
  - f_equal. f_equal; [by destruct (as_card_self s)|by rewrite app_nil_r].
  - f_equal. rewrite omap_app, bind_app. simpl. rewrite app_nil_r.
    f_equal; [|by rewrite app_assoc].
    destruct (as_card_self s'); [done|]. 
    change (list_omap AuthorStream string as_card_self l') with (omap as_card_self l').
    by destruct (omap as_card_self l'), (as_card_self s).
Qed.

Lemma merge_cards_lookup streams o :
  default ∅ ((foldl merge_stream (∅, ∅) streams).2 !! o) =@{gset bytes}
  list_to_set (cards_of o streams).
Proof.
  induction streams as [|s l IH] using rev_ind; [done|].
  rewrite foldl_snoc. unfold cards_of in *. rewrite streams_of_snoc.
  destruct (foldl merge_stream (∅, ∅) l) as [m c]. simpl in *.
  rewrite omap_app, list_to_set_app_L, <-IH. case_decide as E; simpl.
  - subst o. destruct (as_card_self s) as [k|]; simpl; [|set_solver].
    rewrite lookup_insert_eq. simpl. set_solver.
  - destruct (as_card_self s) as [k|]; [rewrite lookup_insert_ne by done|]; set_solver.
Qed.

(** The stream map that the fold works on, in closed form. *)
Lemma canonical_streams_lookup streams o :
  (canonical_streams streams).1 !! o = canonicalize_stream <$> merged_stream o streams.
Proof.
  unfold canonical_streams. pose proof (merge_lookup streams o) as H.
  destruct (foldl _ _ _) as [m c]. cbn [fst] in *. rewrite lookup_fmap. by f_equal.
Qed.

Lemma merged_stream_owner o streams s : merged_stream o streams = Some s → as_owner s = o.
Proof. unfold merged_stream. destruct (streams_of o streams); naive_solver. Qed.

Lemma canonical_owner streams o s :
  (canonical_streams streams).1 !! o = Some s → as_owner s = o.
Proof.
  rewrite canonical_streams_lookup. intros [s' [Hs' ->]]%fmap_Some.
  by apply merged_stream_owner in Hs'.
Qed.

(** Every canonical record was supplied in some input stream of that owner. *)
Lemma canonical_records streams o s r :
  (canonical_streams streams).1 !! o = Some s → r ∈ as_records s →
  ∃ st, st ∈ streams ∧ as_owner st = o ∧ r ∈ as_records st.
Proof.
  rewrite canonical_streams_lookup. intros [s' [Hs' ->]]%fmap_Some. simpl.
  rewrite elem_of_dedup, elem_of_sort_by. unfold merged_stream in Hs'.
  intros Hr. assert (r ∈ records_of o streams) as Hin.
  { destruct (streams_of o streams); [done|]. by injection Hs' as <-. }
  apply list_elem_of_bind in Hin as (st&Hr'&Hst).
  apply list_elem_of_filter in Hst as [Ho Hst]. eauto.
Qed.

(** Collecting conflicts over a list of streams with distinct owners. *)
Lemma collect_conflict_notin cards l c o :
  o ∉ as_owner <$> l → foldl (collect_conflict cards) c l !! o = c !! o.
Proof.
  revert c. induction l as [|s l IH]; intros c; [done|]. simpl.
  intros [Hne Hnot]%not_elem_of_cons. rewrite IH by done. unfold collect_conflict.
  destruct (conflict_reason cards s); [by apply lookup_insert_ne|done].
Qed.

Lemma collect_conflict_lookup cards l s :
  NoDup (as_owner <$> l) → s ∈ l →
  foldl (collect_conflict cards) ∅ l !! as_owner s = conflict_reason cards s.
Proof.
  assert (∀ c, NoDup (as_owner <$> l) → s ∈ l → c !! as_owner s = None →
    foldl (collect_conflict cards) c l !! as_owner s = conflict_reason cards s); [|auto].
  induction l as [|s' l IH]; intros c; simpl; [by intros _ ?%elem_of_nil|].
  intros [Hn Hnd]%NoDup_cons Hin Hc. apply elem_of_cons in Hin as [->|Hin].
  - rewrite collect_conflict_notin by done. unfold collect_conflict.
    destruct (conflict_reason cards s'); [apply lookup_insert_eq|done].
  - apply IH; [done..|]. unfold collect_conflict.
    assert (as_owner s' ≠ as_owner s).
    { intros E. apply Hn. rewrite E. by apply list_elem_of_fmap_2. }
    destruct (conflict_reason cards s'); [by rewrite lookup_insert_ne|done].
Qed.

Lemma canonical_conflicted streams o :
  (canonical_streams streams).2 !! o =
  (canonical_streams streams).1 !! o ≫=
    conflict_reason (foldl merge_stream (∅, ∅) streams).2.
Proof.
  pose proof (canonical_owner streams) as Hown. unfold canonical_streams in *.
  destruct (foldl _ _ _) as [m c]. cbn [fst snd] in *.
  assert (Hkeys : as_owner <$> btree_values (canonicalize_stream <$> m) =
                  (btree_iter (canonicalize_stream <$> m)).*1).
  { unfold btree_values. rewrite <-list_fmap_compose. apply list_fmap_ext.
    intros i [k s] Hi. simpl. apply Hown, elem_of_btree_iter.
    by eapply list_elem_of_lookup_2. }
  destruct ((canonicalize_stream <$> m) !! o) as [s|] eqn:Hs; simpl.
  - rewrite <-(Hown _ _ Hs). apply collect_conflict_lookup.
    + rewrite Hkeys. apply NoDup_btree_keys.
    + apply elem_of_btree_values. eauto.
  - rewrite collect_conflict_notin; [done|]. rewrite Hkeys.
    intros [[k s] [-> Hk%elem_of_btree_iter]]%list_elem_of_fmap. simpl in Hs. congruence.
Qed.

(** ** The result depends only on the event set *)

(** Two stream vectors carry the same event set: for every owner, the same
    presence, the same explicit cards and the same records. *)
Definition same_event_set (l1 l2 : list AuthorStream) : Prop :=
  ∀ o, (streams_of o l1 = [] ↔ streams_of o l2 = []) ∧
       (∀ c, c ∈ cards_of o l1 ↔ c ∈ cards_of o l2) ∧
       (∀ r, r ∈ records_of o l1 ↔ r ∈ records_of o l2).

(** What the rest of the fold sees of a stream: the [card_self] field of a
    conflicted owner is never read. *)
Definition stream_equiv (conflicted : gmap string string) (o : string)
    (s1 s2 : AuthorStream) : Prop :=
  as_owner s1 = as_owner s2 ∧ as_records s1 = as_records s2 ∧
  (conflicted !! o = None → as_card_self s1 = as_card_self s2).

#[local] Instance record_key_inj : Inj (=) (=) record_key.
Proof. intros [k v] [k' v'] [= -> ->]. done. Qed.

Lemma same_set_cards o l1 l2 :
  same_event_set l1 l2 →
  list_to_set (cards_of o l1) =@{gset bytes} list_to_set (cards_of o l2).
Proof.
  intros Hs. destruct (Hs o) as (_&Hc&_). apply set_eq. intros c.
  rewrite !elem_of_list_to_set. apply Hc.
Qed.

Lemma same_set_merged l1 l2 o :
  same_event_set l1 l2 →
  option_Forall2 (λ s1 s2, as_owner s1 = o ∧ as_owner s2 = o ∧ as_records s1 = as_records s2 ∧
      as_card_self s1 = head (cards_of o l1) ∧ as_card_self s2 = head (cards_of o l2))
    (canonicalize_stream <$> merged_stream o l1) (canonicalize_stream <$> merged_stream o l2).
Proof.
  intros Hs. destruct (Hs o) as (Hp&_&Hr). unfold merged_stream.
  destruct (streams_of o l1) eqn:E1, (streams_of o l2) eqn:E2; simpl.
  - constructor.
  - destruct Hp as [Hp _]. discriminate (Hp eq_refl).
  - destruct Hp as [_ Hp]. discriminate (Hp eq_refl).
  - constructor. split_and!; try done. by apply (sort_dedup_set record_key).
Qed.

Lemma card_candidates_same l1 l2 o s1 s2 :
  same_event_set l1 l2 →
  as_owner s1 = o → as_owner s2 = o → as_records s1 = as_records s2 →
  card_candidates (foldl merge_stream (∅, ∅) l1).2 s1 =
  card_candidates (foldl merge_stream (∅, ∅) l2).2 s2.
Proof.
  intros Hs <- Ho Hr. unfold card_candidates.
  by rewrite !merge_cards_lookup, Hr, Ho, (same_set_cards _ _ _ Hs).
Qed.

(** A set of cards with at most one element determines the first of them. *)
Lemma head_of_small (l1 l2 : list bytes) :
  (∀ c, c ∈ l1 ↔ c ∈ l2) → size (list_to_set l1 : gset bytes) ≤ 1 → head l1 = head l2.
Proof.
  intros Hc Hsz. destruct l1 as [|a l1], l2 as [|b l2]; simpl; try done.
  - exfalso. apply (not_elem_of_nil b), Hc, elem_of_cons. by left.
  - exfalso. apply (not_elem_of_nil a), Hc, elem_of_cons. by left.
  - assert (b ∈ a :: l1) as Hb by (apply Hc, elem_of_cons; by left).
    f_equal. eapply (size_singleton_inv (list_to_set (a :: l1) : gset bytes)).
    + assert (size (list_to_set (a :: l1) : gset bytes) ≠ 0) as Hne.
      { rewrite size_non_empty_iff. set_solver. }
      lia.
    + rewrite elem_of_list_to_set. apply elem_of_cons. by left.
    + by rewrite elem_of_list_to_set.
Qed.

Lemma no_conflict_small cards s :
  conflict_reason cards s = None → size (card_candidates cards s) ≤ 1.
Proof. unfold conflict_reason. case_bool_decide; [done|]. lia. Qed.

Lemma canonical_streams_equiv l1 l2 :
  same_event_set l1 l2 →
  (canonical_streams l1).2 = (canonical_streams l2).2 ∧
  ∀ o, option_Forall2 (stream_equiv (canonical_streams l1).2 o)
         ((canonical_streams l1).1 !! o) ((canonical_streams l2).1 !! o).
Proof.
  intros Hs.
  assert (Hc : (canonical_streams l1).2 = (canonical_streams l2).2).
  { apply map_eq. intros o. rewrite !canonical_conflicted, !canonical_streams_lookup.
    destruct (same_set_merged l1 l2 o Hs) as [s1 s2 (H1&H2&Hr&_)|]; [|done].
    simpl. unfold conflict_reason. by rewrite (card_candidates_same l1 l2 o s1 s2). }
  split; [done|]. intros o.
  pose proof (canonical_conflicted l1 o) as Hconf. rewrite !canonical_streams_lookup in *.
  destruct (same_set_merged l1 l2 o Hs) as [s1 s2 (H1&H2&Hr&Hh1&Hh2)|]; constructor.
  split_and!; [congruence|done|]. intros Hnone. rewrite Hconf in Hnone. simpl in Hnone.
  rewrite Hh1, Hh2. apply head_of_small; [by apply Hs|].
  apply no_conflict_small in Hnone. etrans; [|exact Hnone]. apply subseteq_size.
  unfold card_candidates. rewrite merge_cards_lookup, H1. set_solver.
Qed.

(** Reordering the vector and the records inside its streams keeps the set. *)
Definition stream_perm (s1 s2 : AuthorStream) : Prop :=
  as_owner s1 = as_owner s2 ∧ as_card_self s1 = as_card_self s2 ∧
  as_records s1 ≡ₚ as_records s2.

Lemma same_event_set_perm l1 l2 : l1 ≡ₚ l2 → same_event_set l1 l2.
Proof.
  intros Hp o. assert (Hf : streams_of o l1 ≡ₚ streams_of o l2) by (unfold streams_of; by rewrite Hp).
  split_and!.
  - split; intros E; rewrite E in Hf; apply Permutation_length in Hf; by apply nil_length_inv.
  - intros c. unfold cards_of. by rewrite Hf.
  - intros r. unfold records_of. by rewrite Hf.
Qed.

Lemma same_event_set_records l1 l2 : Forall2 stream_perm l1 l2 → same_event_set l1 l2.
Proof.
  intros HF o.
  assert (Hf : Forall2 stream_perm (streams_of o l1) (streams_of o l2)).
  { unfold streams_of. induction HF as [|s1 s2 l1 l2 Hsp _ IH]; [constructor|]. destruct (Hsp) as (Ho&_&_).
    rewrite !filter_cons, <-Ho. case_decide; [by constructor|done]. }
  clear HF. split_and!.
  - inversion Hf; naive_solver.
  - unfold cards_of. induction Hf as [|s1 s2 k1 k2 (_&Hc&_) _ IH]; [done|].
    intros c. simpl. rewrite Hc. destruct (as_card_self s2); simpl; [|apply IH].
    rewrite !elem_of_cons. by rewrite IH.
  - unfold records_of. induction Hf as [|s1 s2 k1 k2 (_&_&Hr) _ IH]; [done|].
    intros r. simpl. by rewrite !elem_of_app, Hr, IH.
Qed.

#[export] Instance same_event_set_equiv : Equivalence same_event_set.
Proof.
  split.
  - intros l o. naive_solver.
  - intros l1 l2 H o. destruct (H o) as (?&?&?). split_and!; naive_solver.
  - intros l1 l2 l3 H1 H2 o. destruct (H1 o) as (->&Hc&Hr), (H2 o) as (->&Hc'&Hr').
    split_and!; [done|intros c; by rewrite Hc|intros r; by rewrite Hr].
Qed.

(** ** Inputs with one stream per owner *)

Lemma streams_of_unique o s l :
  NoDup (as_owner <$> l) → s ∈ l → as_owner s = o → streams_of o l = [s].
Proof.
  unfold streams_of. induction l as [|s' l IH]; intros Hnd Hs Ho; [by apply elem_of_nil in Hs|].
  simpl in Hnd. apply NoDup_cons in Hnd as [Hn Hnd]. rewrite filter_cons.
  apply elem_of_cons in Hs as [<-|Hs].
  - rewrite decide_True by done. f_equal.
    destruct (filter _ l) as [|x k] eqn:E; [done|]. destruct Hn.
    assert (x ∈ x :: k) as Hx by (apply elem_of_cons; by left). rewrite <-E in Hx.
    apply list_elem_of_filter in Hx as [Hx Hxl]. rewrite Ho, <-Hx.
    by apply list_elem_of_fmap_2.
  - rewrite decide_False; [by apply IH|]. intros Heq. destruct Hn. rewrite Heq, <-Ho.
    by apply list_elem_of_fmap_2.
Qed.

Lemma streams_of_none o l : o ∉ as_owner <$> l → streams_of o l = [].
Proof.
  unfold streams_of. induction l as [|s l IH]; intros Hn; [done|].
  simpl in Hn. apply not_elem_of_cons in Hn as [Hne Hn]. rewrite filter_cons.
  rewrite decide_False by done. by apply IH.
Qed.

(** The card of a stream is unambiguous: its field and its records agree. *)
Definition card_consistent (s : AuthorStream) : Prop :=
  ∃ k, (∀ c, as_card_self s = Some c → c = k) ∧
    ∀ r, r ∈ as_records s → sr_key r = CARD_SELF_KEY → sr_value r = k.

Lemma canonical_unique l :
  NoDup (as_owner <$> l) → Forall card_consistent l →
  canonical_streams l =
    (list_to_map ((λ s, (as_owner s, canonicalize_stream s)) <$> l), ∅).
Proof.
  intros Hnd Hc.
  assert (Hkeys : ((λ s, (as_owner s, canonicalize_stream s)) <$> l).*1 = as_owner <$> l)
    by (rewrite <-list_fmap_compose; done).
  assert (H1 : ∀ o, (canonical_streams l).1 !! o =
    (list_to_map ((λ s, (as_owner s, canonicalize_stream s)) <$> l) : gmap _ _) !! o).
  { intros o. rewrite canonical_streams_lookup. unfold merged_stream, cards_of, records_of.
    destruct (decide (o ∈ as_owner <$> l)) as [Ho|Ho].
    - apply list_elem_of_fmap in Ho as (s&Hos&Hs). rewrite (streams_of_unique o s l) by done.
      simpl. rewrite app_nil_r. symmetry. apply elem_of_list_to_map; [by rewrite Hkeys|].
      apply list_elem_of_fmap. exists s. split; [|done].
      destruct s as [ow card recs]; simpl in *. subst ow. by destruct card.
    - rewrite (streams_of_none o l) by done. symmetry. apply not_elem_of_list_to_map.
      by rewrite Hkeys. }
  apply injective_projections; cbn [fst snd]; apply map_eq; intros o; [apply H1|].
  rewrite canonical_conflicted, lookup_empty, H1.
  destruct (list_to_map _ !! o) as [s|] eqn:Hs; [|done]. cbn [mbind option_bind].
  apply elem_of_list_to_map in Hs; [|by rewrite Hkeys].
  apply list_elem_of_fmap in Hs as (s0&[= -> ->]&Hs0).
  rewrite Forall_forall in Hc. destruct (Hc _ Hs0) as (k&Hfield&Hrec).
  unfold conflict_reason. rewrite bool_decide_eq_false_2; [done|].
  assert (card_candidates (foldl merge_stream (∅, ∅) l).2 (canonicalize_stream s0) ⊆ {[k]}) as Hsub.
  { unfold card_candidates. rewrite merge_cards_lookup. simpl. unfold cards_of.
    rewrite (streams_of_unique _ s0 l) by done. intros c [Hin|Hin]%elem_of_union;
      apply elem_of_singleton; rewrite elem_of_list_to_set in Hin.
    - apply list_elem_of_omap in Hin as (s1&Hs1&Hc1).
      apply list_elem_of_singleton in Hs1 as ->. auto.
    - apply list_elem_of_fmap in Hin as (r&->&[Hin Hk]%list_elem_of_In%filter_In).
      apply bool_decide_eq_true in Hk. apply list_elem_of_In in Hin.
      rewrite elem_of_dedup, elem_of_sort_by in Hin. auto. }
  apply subseteq_size in Hsub. rewrite size_singleton in Hsub. lia.
Qed.
End canonical.
