(* ===== verification/Admission.v ===== *)
(** * Phase-1 admission (v2/fold.rs)

    The genesis refusal gate, the creator-signed roster chain, and the
    admission of one chained record: envelope verification, four-way author
    binding (C5), list and genesis bindings (C8), content address, roster
    membership at the named epoch, and the requeue justification (C6). *)

From S2P Require Import Prelude Wire Identity FoldTypes.

Section admission.
Context `{X : Extern}.

(** ** Author cards *)

Definition find_record (key : string) (records : list StoreRecord) : option StoreRecord :=
  List.find (λ r, bool_decide (sr_key r = key)) records.

Definition verified_card (stream : AuthorStream) : result bytes string :=
  let? card := ok_or
    (match as_card_self stream with
     | Some card => Some card
     | None => sr_value <$> find_record CARD_SELF_KEY (as_records stream)
     end) "card-self is missing" in
  let derived := derive_agent_id_hex card in
  bail ("card-self key derives to " +:+ derived +:+ ", store owner is " +:+ as_owner stream)
    when bool_decide (derived ≠ as_owner stream);
  Ok card.

Definition check_envelope_key (envelope : EventEnvelope) (expected_signer : string)
    (card : bytes) : result unit string :=
  bail ("envelope signer " +:+ env_signer_agent_id envelope +:+ " is not " +:+ expected_signer)
    when bool_decide (env_signer_agent_id envelope ≠ expected_signer);
  let? key := decode_b64 "public_key_b64" (env_public_key_b64 envelope) in
  bail "envelope signing key differs from the author's card-self key"
    when bool_decide (key ≠ card);
  Ok ().

(** ** Genesis *)

Definition verify_genesis (record : StoreRecord) (list_uuid creator : string)
    (creator_card : bytes) : result (GenesisManifestV2 * string) string :=
  let? envelope := envelope_decode (sr_value record) in
  let? (payload, hash) := envelope_verify envelope GENESIS_CONTEXT_V2 in
  let? _ := check_envelope_key envelope creator creator_card in
  let? genesis := map_err (λ e, "genesis decode failed: " +:+ e) (json_genesis payload) in
  bail ("genesis schema " +:+ pretty (gen_schema genesis) +:+ " != " +:+ pretty V2_SCHEMA)
    when bool_decide (gen_schema genesis ≠ V2_SCHEMA);
  bail ("genesis kind " +:+ gen_kind genesis +:+ " != genesis")
    when bool_decide (gen_kind genesis ≠ "genesis");
  bail ("genesis names list " +:+ gen_list_uuid genesis +:+ " but the address names " +:+ list_uuid)
    when bool_decide (gen_list_uuid genesis ≠ list_uuid);
  bail ("genesis names creator " +:+ gen_creator genesis +:+ " but the address names " +:+ creator)
    when bool_decide (gen_creator genesis ≠ creator);
  bail "genesis roster is empty" when bool_decide (gen_roster genesis = []);
  Ok (genesis, hash).

(** ** Roster chain *)

(** [(record key, roster event, payload hash)]. *)
Abbreviation roster_candidate := (string * RosterEventV2 * string)%type.

(** The closure of [build_roster_chain] that verifies one roster record. *)
Definition verify_roster_record (record : StoreRecord) (list_uuid creator : string)
    (creator_card : bytes) (genesis_hash : string) : result (RosterEventV2 * string) string :=
  let? envelope := envelope_decode (sr_value record) in
  let? (payload, hash) := envelope_verify envelope ROSTER_CONTEXT_V2 in
  let? _ := check_envelope_key envelope creator creator_card in
  let? roster := map_err (λ e, "roster decode failed: " +:+ e) (json_roster payload) in
  bail "roster schema/kind mismatch"
    when bool_decide (ros_schema roster ≠ V2_SCHEMA) || bool_decide (ros_kind roster ≠ "roster");
  bail "roster list/genesis binding mismatch"
    when bool_decide (ros_list_uuid roster ≠ list_uuid) ||
         bool_decide (ros_genesis_manifest_hash roster ≠ genesis_hash);
  bail ("roster actor " +:+ ros_actor roster +:+ " is not the creator")
    when bool_decide (ros_actor roster ≠ creator);
  bail "roster epoch 0 is reserved for the genesis roster"
    when bool_decide (ros_roster_epoch roster = 0%N);
  bail "roster update is empty" when bool_decide (ros_roster roster = []);
  Ok (roster, hash).

(** First loop: verified roster events keyed by epoch. *)
Fixpoint collect_rosters (records : list StoreRecord) (list_uuid creator : string)
    (creator_card : bytes) (genesis_hash : string) (max_roster_members : N)
    (by_epoch : gmap N (list roster_candidate)) (rejections : list Rejection)
    : result (gmap N (list roster_candidate) * list Rejection) ListRefusal :=
  match records with
  | [] => Ok (by_epoch, rejections)
  | record :: rest =>
      let continue := collect_rosters rest list_uuid creator creator_card genesis_hash
                        max_roster_members in
      if negb (starts_with ROSTER_KEY_PREFIX (sr_key record)) then continue by_epoch rejections
      else
        match verify_roster_record record list_uuid creator creator_card genesis_hash with
        | Ok (roster, hash) =>
            bail BudgetExceeded ("roster update " +:+ sr_key record +:+ " has " +:+
                   pretty (llen (ros_roster roster)) +:+ " members (max " +:+
                   pretty max_roster_members +:+ ")")
              when (max_roster_members <? llen (ros_roster roster))%N;
            let e := ros_roster_epoch roster in
            continue (<[e := default [] (by_epoch !! e) ++ [(sr_key record, roster, hash)]]> by_epoch)
              rejections
        | Err reason =>
            continue by_epoch (rejections ++ [admission_rejection creator (sr_key record) reason])
        end
  end.

Record roster_walk := {
  rw_rosters : list (gset string);
  rw_cumulative : gset string;
  rw_prev_hash : string;
  rw_epoch : N;
  rw_rejections : list Rejection;
  rw_forks : list ForkEvidence
}.

Definition cand_hash (c : roster_candidate) : string := c.2.
Definition cand_linked (prev_hash : string) (c : roster_candidate) : bool :=
  bool_decide (ros_prev_roster_hash c.1.2 = prev_hash).

(** The [while let] loop over epochs; each round consumes one epoch. *)
Fixpoint walk_rosters (fuel : nat) (creator : string) (max_roster_members : N)
    (by_epoch : gmap N (list roster_candidate)) (w : roster_walk)
    : result roster_walk ListRefusal :=
  match fuel with
  | O => Ok w
  | S fuel =>
      match by_epoch !! rw_epoch w with
      | None => Ok w
      | Some candidates =>
          let linked := dedup_by cand_hash
            (sort_by cand_hash (List.filter (cand_linked (rw_prev_hash w)) candidates)) in
          let rejections := rw_rejections w ++
            ((λ c : roster_candidate, admission_rejection creator c.1.1
                                        "roster prev-hash does not chain") <$>
               List.filter (λ c, negb (cand_linked (rw_prev_hash w) c)) candidates) in
          match linked with
          | [] => Ok {| rw_rosters := rw_rosters w; rw_cumulative := rw_cumulative w;
                        rw_prev_hash := rw_prev_hash w; rw_epoch := rw_epoch w;
                        rw_rejections := rejections; rw_forks := rw_forks w |}
          | [(_, roster, hash)] =>
              let members : gset string := list_to_set (ros_roster roster) in
              let cumulative := rw_cumulative w ∪ members in
              bail BudgetExceeded ("cumulative roster union reaches " +:+
                     pretty (N.of_nat (size cumulative)) +:+ " members across epochs (max " +:+
                     pretty max_roster_members +:+ ")")
                when (max_roster_members <? N.of_nat (size cumulative))%N;
              walk_rosters fuel creator max_roster_members by_epoch
                {| rw_rosters := rw_rosters w ++ [members]; rw_cumulative := cumulative;
                   rw_prev_hash := hash; rw_epoch := wrap_add64 (rw_epoch w) 1;
                   rw_rejections := rejections; rw_forks := rw_forks w |}
          | many =>
              Ok {| rw_rosters := rw_rosters w; rw_cumulative := rw_cumulative w;
                    rw_prev_hash := rw_prev_hash w; rw_epoch := rw_epoch w;
                    rw_rejections := rejections ++
                      ((λ c : roster_candidate, admission_rejection creator c.1.1
                          ("roster chain fork at epoch " +:+ pretty (rw_epoch w))) <$> many);
                    rw_forks := rw_forks w ++
                      [{| fe_author := creator; fe_author_seq := rw_epoch w;
                          fe_event_hashes := cand_hash <$> many |}] |}
          end
      end
  end.

(** Epochs recorded beyond the verified chain. *)
Definition unreachable_epochs (creator : string) (epoch : N)
    (by_epoch : gmap N (list roster_candidate)) : list Rejection :=
  btree_iter by_epoch ≫= λ '(e, candidates),
    if (epoch <=? e)%N then
      (λ c : roster_candidate, admission_rejection creator c.1.1
          ("roster epoch " +:+ pretty e +:+ " does not extend the verified chain")) <$> candidates
    else [].

Definition build_roster_chain (creator_stream : AuthorStream) (list_uuid creator : string)
    (creator_card : bytes) (genesis_hash : string) (max_roster_members : N)
    (rosters : list (gset string)) (rejections : list Rejection) (forks : list ForkEvidence)
    : result (list (gset string) * list Rejection * list ForkEvidence) ListRefusal :=
  let? (by_epoch, rejections) := collect_rosters (as_records creator_stream) list_uuid creator
    creator_card genesis_hash max_roster_members ∅ rejections in
  let? w := walk_rosters (S (size by_epoch)) creator max_roster_members by_epoch
    {| rw_rosters := rosters; rw_cumulative := default ∅ (head rosters);
       rw_prev_hash := genesis_hash; rw_epoch := 1;
       rw_rejections := rejections; rw_forks := forks |} in
  Ok (rw_rosters w, rw_rejections w ++ unreachable_epochs creator (rw_epoch w) by_epoch,
      rw_forks w).

(** ** Chained records *)

Definition is_event_record (r : StoreRecord) : bool :=
  starts_with EVENT_KEY_PREFIX (sr_key r) || starts_with APPROVAL_KEY_PREFIX (sr_key r) ||
  starts_with CONSUME_KEY_PREFIX (sr_key r) || starts_with HANDOFF_KEY_PREFIX (sr_key r).

Definition event_records (stream : AuthorStream) : list StoreRecord :=
  List.filter is_event_record (as_records stream).

Record ChainedBindings := {
  cb_record_key : string;
  cb_expected_key : string;
  cb_schema : N;
  cb_event_list_uuid : string;
  cb_event_genesis : string;
  cb_roster_epoch : N;
  cb_actor : string
}.

(** [usize::try_from(roster_epoch)] cannot fail on a 64-bit target. *)
Definition check_chained_common (b : ChainedBindings) (owner list_uuid genesis_hash : string)
    (rosters : list (gset string)) : result (gset string) string :=
  bail ("event actor " +:+ cb_actor b +:+ " is not the store owner " +:+ owner)
    when bool_decide (cb_actor b ≠ owner);
  bail ("event schema " +:+ pretty (cb_schema b) +:+ " != " +:+ pretty V2_SCHEMA)
    when bool_decide (cb_schema b ≠ V2_SCHEMA);
  bail ("event names list " +:+ cb_event_list_uuid b +:+ " but this list is " +:+ list_uuid +:+
        " (cross-list replay?)")
    when bool_decide (cb_event_list_uuid b ≠ list_uuid);
  bail "event genesis binding does not match this list's genesis"
    when bool_decide (cb_event_genesis b ≠ genesis_hash);
  bail ("record key " +:+ cb_record_key b +:+ " does not match content address " +:+
        cb_expected_key b)
    when bool_decide (cb_record_key b ≠ cb_expected_key b);
  let? roster := ok_or (rosters !! N.to_nat (cb_roster_epoch b))
    ("event names unknown roster epoch " +:+ pretty (cb_roster_epoch b)) in
  bail ("actor " +:+ cb_actor b +:+ " is not a roster member at epoch " +:+
        pretty (cb_roster_epoch b))
    when bool_decide (cb_actor b ∉ roster);
  Ok roster.

(** The fields every chained payload declares. *)
Definition p_schema (p : ChainedPayload) : N :=
  match p with PTransition e => tr_schema e | PApproval e => ae_schema e
             | PConsume e => ce_schema e | PHandoff e => he_schema e end.
Definition p_list_uuid (p : ChainedPayload) : string :=
  match p with PTransition e => tr_list_uuid e | PApproval e => ae_list_uuid e
             | PConsume e => ce_list_uuid e | PHandoff e => he_list_uuid e end.
Definition p_genesis (p : ChainedPayload) : string :=
  match p with PTransition e => tr_genesis_manifest_hash e | PApproval e => ae_genesis_manifest_hash e
             | PConsume e => ce_genesis_manifest_hash e | PHandoff e => he_genesis_manifest_hash e end.
Definition p_epoch (p : ChainedPayload) : N :=
  match p with PTransition e => tr_roster_epoch e | PApproval e => ae_roster_epoch e
             | PConsume e => ce_roster_epoch e | PHandoff e => he_roster_epoch e end.
Definition p_issue (p : ChainedPayload) : string :=
  match p with PTransition e => tr_issue_id e | PApproval e => ae_issue_id e
             | PConsume e => ce_issue_id e | PHandoff e => he_issue_id e end.
Definition p_actor (p : ChainedPayload) : string :=
  match p with PTransition e => tr_actor e | PApproval e => ae_actor e
             | PConsume e => ce_actor e | PHandoff e => he_actor e end.
Definition p_lamport (p : ChainedPayload) : N :=
  match p with PTransition e => tr_lamport e | PApproval e => ae_lamport e
             | PConsume e => ce_lamport e | PHandoff e => he_lamport e end.
Definition p_author_seq (p : ChainedPayload) : N :=
  match p with PTransition e => tr_author_seq e | PApproval e => ae_author_seq e
             | PConsume e => ce_author_seq e | PHandoff e => he_author_seq e end.
Definition p_prev (p : ChainedPayload) : string :=
  match p with PTransition e => tr_prev_own_event_hash e | PApproval e => ae_prev_own_event_hash e
             | PConsume e => ce_prev_own_event_hash e | PHandoff e => he_prev_own_event_hash e end.

Definition bindings_of (record : StoreRecord) (expected_key : string) (p : ChainedPayload)
    : ChainedBindings := {|
  cb_record_key := sr_key record;
  cb_expected_key := expected_key;
  cb_schema := p_schema p;
  cb_event_list_uuid := p_list_uuid p;
  cb_event_genesis := p_genesis p;
  cb_roster_epoch := p_epoch p;
  cb_actor := p_actor p
|}.

Definition mk_admitted (owner : string) (record : StoreRecord) (event_hash : string)
    (p : ChainedPayload) : AdmittedEvent := {|
  ad_author := owner;
  ad_key := sr_key record;
  ad_event_hash := event_hash;
  ad_lamport := p_lamport p;
  ad_author_seq := p_author_seq p;
  ad_prev_own_event_hash := p_prev p;
  ad_payload := p
|}.

Definition admit_handoff (record : StoreRecord) (owner : string) (card : bytes)
    (list_uuid genesis_hash : string) (rosters : list (gset string)) : result AdmittedEvent string :=
  let? envelope := envelope_decode (sr_value record) in
  let? (payload, event_hash) := envelope_verify envelope HANDOFF_CONTEXT_V2 in
  let? _ := check_envelope_key envelope owner card in
  let? event := map_err (λ e, "handoff decode failed: " +:+ e) (json_handoff payload) in
  bail ("handoff record kind " +:+ he_kind event +:+ " != handoff")
    when bool_decide (he_kind event ≠ "handoff");
  let expected_key := handoff_key (he_issue_id event) event_hash in
  let? _ := check_chained_common (bindings_of record expected_key (PHandoff event))
    owner list_uuid genesis_hash rosters in
  Ok (mk_admitted owner record event_hash (PHandoff event)).

Definition admit_approval (record : StoreRecord) (owner : string) (card : bytes)
    (list_uuid genesis_hash : string) (rosters : list (gset string)) : result AdmittedEvent string :=
  let? envelope := envelope_decode (sr_value record) in
  let? (payload, event_hash) := envelope_verify envelope APPROVAL_CONTEXT_V2 in
  let? _ := check_envelope_key envelope owner card in
  let? event := map_err (λ e, "approval decode failed: " +:+ e) (json_approval payload) in
  bail ("approval record kind " +:+ ae_kind event +:+ " != dispatch_approval")
    when bool_decide (ae_kind event ≠ "dispatch_approval");
  let expected_key := approval_key (ae_issue_id event) event_hash in
  let? _ := check_chained_common (bindings_of record expected_key (PApproval event))
    owner list_uuid genesis_hash rosters in
  Ok (mk_admitted owner record event_hash (PApproval event)).

Definition admit_consume (record : StoreRecord) (owner : string) (card : bytes)
    (list_uuid genesis_hash : string) (rosters : list (gset string)) : result AdmittedEvent string :=
  let? envelope := envelope_decode (sr_value record) in
  let? (payload, event_hash) := envelope_verify envelope CONSUME_CONTEXT_V2 in
  let? _ := check_envelope_key envelope owner card in
  let? event := map_err (λ e, "consume decode failed: " +:+ e) (json_consume payload) in
  bail ("consume record kind " +:+ ce_kind event +:+ " != consume")
    when bool_decide (ce_kind event ≠ "consume");
  bail "consume approval hash fields disagree (v2 identity)"
    when bool_decide (ce_approval_payload_sha256 event ≠ ce_approval_event_hash event);
  let expected_key := consume_key (ce_issue_id event) event_hash in
  let? _ := check_chained_common (bindings_of record expected_key (PConsume event))
    owner list_uuid genesis_hash rosters in
  Ok (mk_admitted owner record event_hash (PConsume event)).

(** The WP-B2 content bindings of [Open]. *)
Definition check_open_content (kind : TransitionKind) : result unit string :=
  match kind with
  | TkOpen title spec title_sha256 spec_sha256 =>
      bail "open title_sha256 does not match the carried title"
        when bool_decide (title_sha256 ≠ sha256_hex title);
      bail "open spec_sha256 does not match the carried spec"
        when bool_decide (spec_sha256 ≠ sha256_hex spec);
      Ok ()
  | _ => Ok ()
  end.

(** The C6 justification of [Requeue], checked at admission. *)
Definition check_requeue (event : TransitionEventV2) (list_uuid genesis_hash : string)
    (roster : gset string) : result unit string :=
  match tr_kind event with
  | TkRequeue j =>
      let? (approval_payload, approval_hash) :=
        map_err (λ e, "requeue approval envelope: " +:+ e)
          (envelope_verify (rj_approval j) APPROVAL_CONTEXT_V2) in
      bail "requeue approval event hash does not match the embedded record"
        when bool_decide (approval_hash ≠ rj_approval_event_hash j);
      bail "requeue approval payload hash does not match the embedded record"
        when bool_decide (approval_hash ≠ rj_approval_payload_sha256 j);
      let? approval := map_err (λ e, "approval decode failed: " +:+ e)
        (json_approval_payload approval_payload) in
      bail "approval schema/kind mismatch"
        when bool_decide (ap_schema approval ≠ V2_SCHEMA) ||
             bool_decide (ap_kind approval ≠ "approval");
      bail "approval list/genesis binding mismatch"
        when bool_decide (ap_list_uuid approval ≠ list_uuid) ||
             bool_decide (ap_genesis_manifest_hash approval ≠ genesis_hash);
      bail "approval issue does not match the requeue issue"
        when bool_decide (ap_issue_id approval ≠ tr_issue_id event);
      bail "approval approver does not match the justification"
        when bool_decide (ap_approver approval ≠ rj_approver j);
      bail "approval signer is not the named approver"
        when bool_decide (env_signer_agent_id (rj_approval j) ≠ ap_approver approval);
      bail "approval block binding does not match the justification"
        when bool_decide (ap_block_event_hash approval ≠ rj_block_event_hash j);
      bail "approval claim nonce does not match the justification"
        when bool_decide (ap_claim_nonce approval ≠ rj_claim_nonce j);
      bail ("approver " +:+ ap_approver approval +:+ " is not a roster member at epoch " +:+
            pretty (tr_roster_epoch event))
        when bool_decide (ap_approver approval ∉ roster);
      Ok ()
  | _ => Ok ()
  end.

Definition admit_transition (record : StoreRecord) (owner : string) (card : bytes)
    (list_uuid genesis_hash : string) (rosters : list (gset string)) : result AdmittedEvent string :=
  let? envelope := envelope_decode (sr_value record) in
  let? (payload, event_hash) := envelope_verify envelope TRANSITION_CONTEXT_V2 in
  let? _ := check_envelope_key envelope owner card in
  let? event := map_err (λ e, "transition decode failed: " +:+ e) (json_transition payload) in
  let expected_key := event_key (tr_issue_id event) event_hash in
  let? roster := check_chained_common (bindings_of record expected_key (PTransition event))
    owner list_uuid genesis_hash rosters in
  let? _ := check_open_content (tr_kind event) in
  let? _ := check_requeue event list_uuid genesis_hash roster in
  Ok (mk_admitted owner record event_hash (PTransition event)).

Definition admit_event (record : StoreRecord) (owner : string) (card : bytes)
    (list_uuid genesis_hash : string) (rosters : list (gset string)) : result AdmittedEvent string :=
  if starts_with EVENT_KEY_PREFIX (sr_key record) then
    admit_transition record owner card list_uuid genesis_hash rosters
  else if starts_with APPROVAL_KEY_PREFIX (sr_key record) then
    admit_approval record owner card list_uuid genesis_hash rosters
  else if starts_with CONSUME_KEY_PREFIX (sr_key record) then
    admit_consume record owner card list_uuid genesis_hash rosters
  else if starts_with HANDOFF_KEY_PREFIX (sr_key record) then
    admit_handoff record owner card list_uuid genesis_hash rosters
  else Err "not a chained record".

(** ** What admission establishes *)

Definition p_context (p : ChainedPayload) : string :=
  match p with PTransition _ => TRANSITION_CONTEXT_V2 | PApproval _ => APPROVAL_CONTEXT_V2
             | PConsume _ => CONSUME_CONTEXT_V2 | PHandoff _ => HANDOFF_CONTEXT_V2 end.

Definition p_decodes (p : ChainedPayload) (payload : bytes) : Prop :=
  match p with
  | PTransition e => json_transition payload = Ok e
  | PApproval e => json_approval payload = Ok e
  | PConsume e => json_consume payload = Ok e
  | PHandoff e => json_handoff payload = Ok e
  end.

Definition p_key (p : ChainedPayload) (h : string) : string :=
  match p with
  | PTransition e => event_key (tr_issue_id e) h
  | PApproval e => approval_key (ae_issue_id e) h
  | PConsume e => consume_key (ce_issue_id e) h
  | PHandoff e => handoff_key (he_issue_id e) h
  end.

(** The justification of an admitted requeue: an approval signed by a roster
    member for exactly this list, issue, block and parked nonce. *)
Definition requeue_justified (e : TransitionEventV2) (list_uuid genesis_hash : string)
    (roster : gset string) : Prop :=
  match tr_kind e with
  | TkRequeue j =>
      ∃ pk payload a,
        envelope_attests (rj_approval j) APPROVAL_CONTEXT_V2 pk payload (rj_approval_event_hash j) ∧
        json_approval_payload payload = Ok a ∧
        ap_kind a = "approval" ∧ ap_list_uuid a = list_uuid ∧
        ap_genesis_manifest_hash a = genesis_hash ∧ ap_issue_id a = tr_issue_id e ∧
        ap_block_event_hash a = rj_block_event_hash j ∧
        ap_claim_nonce a = rj_claim_nonce j ∧
        ap_approver a = derive_agent_id_hex pk ∧ rj_approver j = ap_approver a ∧
        ap_approver a ∈ roster
  | _ => True
  end.

(** Everything phase 1 proves about one record before the chain checks. *)
Record authentic (owner : string) (card : bytes) (list_uuid genesis_hash : string)
    (rosters : list (gset string)) (record : StoreRecord) (adm : AdmittedEvent) : Prop := {
  au_envelope : ∃ env payload,
    envelope_decode (sr_value record) = Ok env ∧
    envelope_attests env (p_context (ad_payload adm)) card payload (ad_event_hash adm) ∧
    env_signer_agent_id env = owner ∧
    p_decodes (ad_payload adm) payload;
  au_author : ad_author adm = owner;
  au_actor : p_actor (ad_payload adm) = owner;
  au_schema : p_schema (ad_payload adm) = V2_SCHEMA;
  au_list : p_list_uuid (ad_payload adm) = list_uuid;
  au_genesis : p_genesis (ad_payload adm) = genesis_hash;
  au_key : sr_key record = p_key (ad_payload adm) (ad_event_hash adm);
  au_adkey : ad_key adm = sr_key record;
  au_roster : ∃ roster, rosters !! N.to_nat (p_epoch (ad_payload adm)) = Some roster ∧
    owner ∈ roster ∧
    match ad_payload adm with
    | PTransition e => requeue_justified e list_uuid genesis_hash roster
    | _ => True
    end;
  au_lamport : ad_lamport adm = p_lamport (ad_payload adm);
  au_seq : ad_author_seq adm = p_author_seq (ad_payload adm);
  au_prev : ad_prev_own_event_hash adm = p_prev (ad_payload adm)
}.

Lemma check_envelope_key_Ok env owner card :
  check_envelope_key env owner card = Ok () →
  env_signer_agent_id env = owner ∧
  decode_b64 "public_key_b64" (env_public_key_b64 env) = Ok card.
Proof. unfold check_envelope_key. intros H. ok_inv. guards. by subst. Qed.

Lemma check_chained_common_Ok b owner list_uuid genesis_hash rosters roster :
  check_chained_common b owner list_uuid genesis_hash rosters = Ok roster →
  cb_actor b = owner ∧ cb_schema b = V2_SCHEMA ∧ cb_event_list_uuid b = list_uuid ∧
  cb_event_genesis b = genesis_hash ∧ cb_record_key b = cb_expected_key b ∧
  rosters !! N.to_nat (cb_roster_epoch b) = Some roster ∧ owner ∈ roster.
Proof.
  unfold check_chained_common. intros H. ok_inv. guards. split_and!; try done. congruence.
Qed.

Lemma check_requeue_Ok e list_uuid genesis_hash roster :
  check_requeue e list_uuid genesis_hash roster = Ok () →
  requeue_justified e list_uuid genesis_hash roster.
Proof.
  unfold check_requeue, requeue_justified. destruct (tr_kind e) as [| | | | |j]; try done.
  intros H. ok_inv. guards.
  match goal with E : envelope_verify _ _ = Ok _ |- _ =>
    apply envelope_verify_Ok in E as [pk Hatt] end.
  match goal with E : json_approval_payload ?p = Ok ?a |- _ => exists pk, p, a end.
  pose proof (att_signer _ _ _ _ _ Hatt). split_and!; congruence.
Qed.

Ltac admit_crush :=
  repeat match goal with
  | u : unit |- _ => destruct u
  | E : envelope_verify _ _ = Ok _ |- _ => apply envelope_verify_Ok in E as [? ?]
  | E : check_envelope_key _ _ _ = Ok _ |- _ => apply check_envelope_key_Ok in E as [? ?]
  | E : check_requeue _ _ _ _ = Ok _ |- _ => apply check_requeue_Ok in E
  | E : check_chained_common _ _ _ _ _ = Ok _ |- _ =>
      apply check_chained_common_Ok in E as (?&?&?&?&?&?&?)
  end;
  match goal with
  | A : envelope_attests ?e _ ?pk _ _, K : decode_b64 _ (env_public_key_b64 ?e) = Ok ?card |- _ =>
      assert (pk = card) as -> by (pose proof (att_key _ _ _ _ _ A); congruence)
  end.

Lemma admit_event_Ok record owner card list_uuid genesis_hash rosters adm :
  admit_event record owner card list_uuid genesis_hash rosters = Ok adm →
  authentic owner card list_uuid genesis_hash rosters record adm.
Proof.
  unfold admit_event. intros H. repeat case_match; try done; clear - H.
  all: unfold admit_transition, admit_approval, admit_consume, admit_handoff in H.
  all: ok_inv; guards; admit_crush; split; simpl in *; try done; eauto 10.
Qed.

(** ** When a record is admitted *)

(** The conditions that depend on the kind of record. *)
Definition p_content_ok (p : ChainedPayload) (list_uuid genesis_hash : string)
    (roster : gset string) : Prop :=
  match p with
  | PTransition e =>
      check_open_content (tr_kind e) = Ok () ∧ check_requeue e list_uuid genesis_hash roster = Ok ()
  | PApproval e => ae_kind e = "dispatch_approval"
  | PConsume e => ce_kind e = "consume" ∧ ce_approval_payload_sha256 e = ce_approval_event_hash e
  | PHandoff e => he_kind e = "handoff"
  end.

Lemma check_chained_common_complete p record h owner list_uuid genesis_hash rosters roster :
  p_actor p = owner → p_schema p = V2_SCHEMA → p_list_uuid p = list_uuid →
  p_genesis p = genesis_hash → sr_key record = p_key p h →
  rosters !! N.to_nat (p_epoch p) = Some roster → owner ∈ roster →
  check_chained_common (bindings_of record (p_key p h) p) owner list_uuid genesis_hash rosters
    = Ok roster.
Proof.
  intros Ha Hs Hl Hg Hk Hr Hin. unfold check_chained_common. simpl.
  rewrite !bool_decide_eq_false_2 by (by intros []). rewrite Hr. simpl.
  rewrite bool_decide_eq_false_2; [done|]. rewrite Ha. by intros [].
Qed.

Lemma admit_event_complete p record env payload h owner card list_uuid genesis_hash rosters roster :
  sr_key record = p_key p h →
  envelope_decode (sr_value record) = Ok env →
  envelope_verify env (p_context p) = Ok (payload, h) →
  check_envelope_key env owner card = Ok () →
  p_decodes p payload → p_content_ok p list_uuid genesis_hash roster →
  p_actor p = owner → p_schema p = V2_SCHEMA → p_list_uuid p = list_uuid →
  p_genesis p = genesis_hash →
  rosters !! N.to_nat (p_epoch p) = Some roster → owner ∈ roster →
  admit_event record owner card list_uuid genesis_hash rosters =
    Ok (mk_admitted owner record h p).
Proof.
  intros Hkey Hdec Hver Hck Hjson Hok Ha Hs Hl Hg Hr Hin.
  pose proof (check_chained_common_complete p record h owner list_uuid genesis_hash rosters roster
    Ha Hs Hl Hg Hkey Hr Hin) as Hcc.
  unfold admit_event. rewrite Hkey. destruct p as [e|e|e|e]; simpl in *.
  - unfold admit_transition. rewrite Hdec, Hver, Hck, Hjson. simpl. rewrite Hcc.
    destruct Hok as [-> ->]. done.
  - unfold admit_approval. rewrite Hdec, Hver, Hck, Hjson. simpl. rewrite Hok, Hcc. done.
  - unfold admit_consume. rewrite Hdec, Hver, Hck, Hjson. simpl. destruct Hok as [-> ->]. simpl.
    rewrite bool_decide_eq_false_2 by (by intros []). by rewrite Hcc.
  - unfold admit_handoff. rewrite Hdec, Hver, Hck, Hjson. simpl. rewrite Hok, Hcc. done.
Qed.
End admission.
