(* ===== verification/RosterChain.v ===== *)
(** * The roster chain ([build_roster_chain] of v2/fold.rs)

    Epoch 0 is the genesis roster; epoch [e + 1] is the one creator-signed
    roster event that names epoch [e]'s hash.  The specification says that the
    epochs the fold uses form such a chain, that no unique event extends it,
    and that the union of all rosters stays within the budget. *)

From S2P Require Import Prelude Wire Identity FoldTypes Admission.

Section roster.
Context `{X : Extern}.
Context (list_uuid creator : string) (card : bytes) (genesis_hash : string).

(** A roster record of the list's creator, for epoch [e] after [prev]. *)
Definition roster_authentic (records : list StoreRecord) (e : N) (prev h : string)
    (members : list string) : Prop :=
  ∃ record env payload ros,
    record ∈ records ∧ starts_with ROSTER_KEY_PREFIX (sr_key record) = true ∧
    envelope_decode (sr_value record) = Ok env ∧
    envelope_attests env ROSTER_CONTEXT_V2 card payload h ∧
    env_signer_agent_id env = creator ∧
    json_roster payload = Ok ros ∧
    ros_schema ros = V2_SCHEMA ∧ ros_kind ros = "roster" ∧
    ros_list_uuid ros = list_uuid ∧ ros_genesis_manifest_hash ros = genesis_hash ∧
    ros_actor ros = creator ∧ ros_roster_epoch ros = e ∧ e ≠ 0%N ∧
    ros_prev_roster_hash ros = prev ∧ ros_roster ros = members ∧ members ≠ [].

(** [ext] are the rosters of epochs [e], [e + 1], ...; [tip] is the hash of
    the last one. *)
Fixpoint roster_ext (records : list StoreRecord) (e : N) (prev : string)
    (ext : list (gset string)) (tip : string) : Prop :=
  match ext with
  | [] => tip = prev
  | m :: ext' => ∃ h members, roster_authentic records e prev h members ∧
      m = list_to_set members ∧ roster_ext records (e + 1) h ext' tip
  end.

Abbreviation verified record := (verify_roster_record record list_uuid creator card genesis_hash).

Lemma verify_roster_record_Ok records record ros h :
  record ∈ records → starts_with ROSTER_KEY_PREFIX (sr_key record) = true →
  verified record = Ok (ros, h) →
  roster_authentic records (ros_roster_epoch ros) (ros_prev_roster_hash ros) h (ros_roster ros).
Proof.
  intros Hin Hpre. unfold verify_roster_record. intros H. ok_inv. guards.
  match goal with u : unit |- _ => destruct u end.
  match goal with E : envelope_verify _ _ = Ok _ |- _ =>
    apply envelope_verify_Ok in E as [pk Hatt] end.
  match goal with E : check_envelope_key _ _ _ = Ok _ |- _ =>
    apply check_envelope_key_Ok in E as [? ?] end.
  assert (pk = card) as -> by (pose proof (att_key _ _ _ _ _ Hatt); congruence).
  do 4 eexists. split_and!; eauto.
Qed.

(** ** The first loop *)

Definition by_epoch_ok (records : list StoreRecord)
    (m : gmap N (list (string * RosterEventV2 * string))) : Prop :=
  ∀ e cands, m !! e = Some cands → ∀ c, c ∈ cands →
    roster_authentic records e (ros_prev_roster_hash c.1.2) (cand_hash c) (ros_roster c.1.2).

Lemma by_epoch_empty records : by_epoch_ok records ∅.
Proof. intros e cands He. by rewrite lookup_empty in He. Qed.

Lemma roster_authentic_mono records records' e prev h ms :
  records ⊆ records' → roster_authentic records e prev h ms →
  roster_authentic records' e prev h ms.
Proof. intros Hsub (r&env&p&ros&Hin&H). exists r, env, p, ros. split; [by apply Hsub|done]. Qed.

Lemma collect_rosters_spec records l max m rej m' rej' :
  l ⊆ records → by_epoch_ok records m →
  collect_rosters l list_uuid creator card genesis_hash max m rej = Ok (m', rej') →
  by_epoch_ok records m' ∧
  (∀ e c, c ∈ default [] (m !! e) → c ∈ default [] (m' !! e)) ∧
  (∀ r ros h, r ∈ l → starts_with ROSTER_KEY_PREFIX (sr_key r) = true →
     verified r = Ok (ros, h) →
     (sr_key r, ros, h) ∈ default [] (m' !! ros_roster_epoch ros)).
Proof.
  revert m rej. induction l as [|r l IH]; intros m rej Hsub Hok H; simpl in H.
  { injection H as <- <-. split_and!; [done|done|]. intros r ros h Hr. by apply elem_of_nil in Hr. }
  assert (Hsub' : l ⊆ records) by set_solver.
  assert (Hr : r ∈ records) by set_solver.
  destruct (starts_with _ (sr_key r)) eqn:Hpre; simpl in H.
  2:{ destruct (IH _ _ Hsub' Hok H) as (?&?&Hall). split_and!; try done.
      intros r' ros h [->|Hr']%elem_of_cons Hp Hv; [congruence|eauto]. }
  destruct (verified r) as [[ros h]|reason] eqn:Hv.
  2:{ destruct (IH _ _ Hsub' Hok H) as (?&?&Hall). split_and!; try done.
      intros r' ros h [->|Hr']%elem_of_cons Hp Hv'; [congruence|eauto]. }
  case_match; [done|].
  match type of H with collect_rosters _ _ _ _ _ _ ?m1 _ = _ =>
    assert (Hok1 : by_epoch_ok records m1) end.
  { intros e cands. destruct (decide (ros_roster_epoch ros = e)) as [<-|Hne].
    - rewrite lookup_insert_eq. intros [= <-] c [Hc|Hc%list_elem_of_singleton]%elem_of_app.
      + destruct (m !! ros_roster_epoch ros) eqn:Em; [|by apply elem_of_nil in Hc].
        by apply (Hok _ _ Em).
      + subst c. by apply (verify_roster_record_Ok records r).
    - rewrite lookup_insert_ne by done. apply Hok. }
  destruct (IH _ _ Hsub' Hok1 H) as (Hok'&Hmono&Hall).
  split_and!; [done| |].
  - intros e c Hc. apply Hmono. destruct (decide (ros_roster_epoch ros = e)) as [<-|Hne].
    + rewrite lookup_insert_eq. simpl. apply elem_of_app. by left.
    + by rewrite lookup_insert_ne.
  - intros r' ros' h' [->|Hr']%elem_of_cons Hp Hv'; [|eauto].
    rewrite Hv in Hv'. injection Hv' as <- <-. apply Hmono. rewrite lookup_insert_eq.
    simpl. apply elem_of_app. right. by apply list_elem_of_singleton.
Qed.

(** ** The walk *)

Definition linked_rosters (prev : string) (cands : list (string * RosterEventV2 * string)) :=
  dedup_by cand_hash (sort_by cand_hash (List.filter (cand_linked prev) cands)).

Lemma elem_of_linked_rosters prev cands c :
  c ∈ linked_rosters prev cands → c ∈ cands ∧ ros_prev_roster_hash c.1.2 = prev.
Proof.
  intros Hc%elem_of_dedup_by. rewrite elem_of_sort_by, list_elem_of_In, filter_In in Hc.
  rewrite <-list_elem_of_In in Hc. unfold cand_linked in Hc.
  by rewrite bool_decide_eq_true in Hc.
Qed.

Lemma linked_rosters_hash prev cands c :
  c ∈ cands → ros_prev_roster_hash c.1.2 = prev →
  cand_hash c ∈ cand_hash <$> linked_rosters prev cands.
Proof.
  intros Hc Hp. apply dedup_by_keys, list_elem_of_fmap_2, elem_of_sort_by.
  rewrite list_elem_of_In. apply filter_In. rewrite <-list_elem_of_In. split; [done|].
  by apply bool_decide_eq_true.
Qed.

(** The number of epochs at or beyond [e]: what the walk has left. *)
Definition epochs_left (e : N) (m : gmap N (list (string * RosterEventV2 * string))) : nat :=
  size (filter (λ p, e ≤ p.1)%N m).

Lemma epochs_left_step e m cands :
  m !! e = Some cands → epochs_left (e + 1) m < epochs_left e m.
Proof.
  intros He. unfold epochs_left. apply map_subset_size. split.
  - apply map_subseteq_spec. intros k v. rewrite !map_lookup_filter_Some. simpl.
    intros [? ?]. split; [done|lia].
  - intros Hsub. assert (Hk : filter (λ p, e ≤ p.1)%N m !! e = Some cands).
    { rewrite map_lookup_filter_Some. simpl. split; [done|lia]. }
    rewrite map_subseteq_spec in Hsub. apply Hsub in Hk.
    rewrite map_lookup_filter_Some in Hk. simpl in Hk. lia.
Qed.

Lemma epochs_left_le e m : epochs_left e m ≤ size m.
Proof. apply map_subseteq_size, map_filter_subseteq. Qed.

Definition walk_done (m : gmap N (list (string * RosterEventV2 * string))) (w : roster_walk)
    : Prop :=
  ∀ cands, m !! rw_epoch w = Some cands → length (linked_rosters (rw_prev_hash w) cands) ≠ 1.

Lemma walk_rosters_spec records fuel max m w w' :
  by_epoch_ok records m →
  ((1 ≤ rw_epoch w ≤ u64_max)%N ∧ epochs_left (rw_epoch w) m < fuel) ∨
    (rw_epoch w = 0%N ∧ 0 < fuel) →
  (N.of_nat (size (rw_cumulative w)) ≤ max)%N →
  walk_rosters fuel creator max m w = Ok w' →
  ∃ ext,
    rw_rosters w' = rw_rosters w ++ ext ∧
    roster_ext records (rw_epoch w) (rw_prev_hash w) ext (rw_prev_hash w') ∧
    (rw_epoch w' = rw_epoch w + llen ext ∨ (rw_epoch w' = 0 ∧ rw_epoch w + llen ext = u64_max + 1))%N ∧
    rw_cumulative w' = rw_cumulative w ∪ ⋃ ext ∧
    (N.of_nat (size (rw_cumulative w')) ≤ max)%N ∧
    walk_done m w'.
Proof.
  intros Hok. revert w. induction fuel as [|fuel IH]; intros w He Hc H; [lia|].
  assert (Hstop : ∀ w1, rw_rosters w1 = rw_rosters w → rw_epoch w1 = rw_epoch w →
    rw_prev_hash w1 = rw_prev_hash w → rw_cumulative w1 = rw_cumulative w → walk_done m w1 →
    ∃ ext, rw_rosters w1 = rw_rosters w ++ ext ∧
    roster_ext records (rw_epoch w) (rw_prev_hash w) ext (rw_prev_hash w1) ∧
    (rw_epoch w1 = rw_epoch w + llen ext ∨
      (rw_epoch w1 = 0 ∧ rw_epoch w + llen ext = u64_max + 1))%N ∧
    rw_cumulative w1 = rw_cumulative w ∪ ⋃ ext ∧
    (N.of_nat (size (rw_cumulative w1)) ≤ max)%N ∧ walk_done m w1).
  { intros w1 -> -> -> -> Hd. exists []. rewrite app_nil_r. split_and!; try done.
    - left. unfold llen. simpl. lia.
    - simpl. by rewrite union_empty_r_L. }
  simpl in H. destruct (m !! rw_epoch w) as [cands|] eqn:Em.
  2:{ injection H as <-. apply Hstop; try done. unfold walk_done. by rewrite Em. }
  fold (linked_rosters (rw_prev_hash w) cands) in H.
  destruct (linked_rosters (rw_prev_hash w) cands) as [|[[k ros] h] [|c2 many]] eqn:El.
  - injection H as <-. apply Hstop; try done. unfold walk_done. simpl.
    intros cs. rewrite Em. intros [= <-]. by rewrite El.
  - case_match eqn:Hmax; [done|]. apply N.ltb_ge in Hmax.
    assert (Hlink : (k, ros, h) ∈ linked_rosters (rw_prev_hash w) cands)
      by (rewrite El; by apply list_elem_of_singleton).
    apply elem_of_linked_rosters in Hlink as [Hin Hprev]. simpl in Hprev.
    pose proof (Hok _ _ Em _ Hin) as Hauth. simpl in Hauth. rewrite Hprev in Hauth.
    destruct He as [[He Hfuel]|[He0 _]];
      [|destruct Hauth as (?&?&?&?&H0); rewrite He0 in H0; tauto].
    pose proof (epochs_left_step _ _ _ Em) as Hstep.
    match type of H with walk_rosters _ _ _ _ ?w1 = _ => destruct (IH w1) as
      (ext&Hr&Hext&Hep&Hcum&Hb&Hd); [|done|exact H|] end.
    + simpl. destruct (decide (rw_epoch w = u64_max)) as [->|].
      * right. split; [done|lia].
      * left. rewrite wrap_add64_small by lia. split; lia.
    + simpl in *. exists (list_to_set (ros_roster ros) :: ext).
      assert (Hlen : llen ((list_to_set (ros_roster ros) : gset string) :: ext) = (1 + llen ext)%N)
        by (unfold llen; simpl; lia).
      assert (Hwrap : rw_epoch w = u64_max → ext = []).
      { intros Emax. destruct ext; [done|]. destruct Hext as (?&?&Ha&_). rewrite Emax in Ha.
        destruct Ha as (?&?&?&?&Ha). change (wrap_add64 u64_max 1) with 0%N in Ha. tauto. }
      split_and!; try done.
      * by rewrite Hr, <-app_assoc.
      * exists h, (ros_roster ros). split_and!; [done|done|].
        destruct (decide (rw_epoch w = u64_max)) as [Emax|].
        -- by rewrite (Hwrap Emax) in *.
        -- by rewrite wrap_add64_small in Hext by lia.
      * rewrite Hlen. destruct (decide (rw_epoch w = u64_max)) as [Emax|].
        -- rewrite (Hwrap Emax), Emax in *. change (wrap_add64 u64_max 1) with 0%N in Hep.
           change (llen (@nil (gset string))) with 0%N in *. lia.
        -- rewrite wrap_add64_small in Hep by lia. lia.
      * rewrite Hcum. simpl. set_solver.
  - injection H as <-. apply Hstop; try done. unfold walk_done. simpl.
    intros cs. rewrite Em. intros [= <-]. by rewrite El.
Qed.

(** ** [build_roster_chain] *)

Lemma dedup_by_head_ne {A K} `{EqDecision K} (f : A → K) x y k l :
  dedup_by f l = x :: y :: k → f x ≠ f y.
Proof.
  revert x y k. induction l as [|z l IH]; intros x y k; [done|]. simpl.
  destruct (dedup_by f l) as [|z' k'] eqn:E; [done|].
  case_bool_decide as Hz; intros Heq; simplify_eq; [|done].
  rewrite Hz. by eapply IH.
Qed.

Lemma walk_done_not_extendable records m e tip :
  by_epoch_ok records m →
  (∀ r ros h, r ∈ records → starts_with ROSTER_KEY_PREFIX (sr_key r) = true →
     verified r = Ok (ros, h) → (sr_key r, ros, h) ∈ default [] (m !! ros_roster_epoch ros)) →
  (∀ cands, m !! e = Some cands → length (linked_rosters tip cands) ≠ 1) →
  ∀ r ros h, r ∈ records → starts_with ROSTER_KEY_PREFIX (sr_key r) = true →
    verified r = Ok (ros, h) → ros_roster_epoch ros = e → ros_prev_roster_hash ros = tip →
    ∃ h' ms', h' ≠ h ∧ roster_authentic records e tip h' ms'.
Proof.
  intros Hok Hall Hd r ros h Hr Hp Hv <- <-. specialize (Hall _ _ _ Hr Hp Hv).
  destruct (m !! ros_roster_epoch ros) as [cands|] eqn:Em; [|by apply elem_of_nil in Hall].
  simpl in Hall. specialize (Hd _ eq_refl).
  pose proof (linked_rosters_hash _ _ _ Hall eq_refl) as Hh.
  destruct (linked_rosters _ cands) as [|c1 [|c2 k]] eqn:El;
    [by apply elem_of_nil in Hh|done|].
  pose proof (dedup_by_head_ne _ _ _ _ _ El) as Hne.
  assert (Hc : ∀ c, c ∈ c1 :: c2 :: k → roster_authentic records (ros_roster_epoch ros)
               (ros_prev_roster_hash ros) (cand_hash c) (ros_roster c.1.2)).
  { intros c Hc. rewrite <-El in Hc. apply elem_of_linked_rosters in Hc as [Hc <-].
    by apply (Hok _ _ Em). }
  destruct (decide (cand_hash c1 = h)) as [<-|Hne1].
  - exists (cand_hash c2), (ros_roster c2.1.2). split; [done|]. apply Hc. set_solver.
  - exists (cand_hash c1), (ros_roster c1.1.2). split; [done|]. apply Hc. set_solver.
Qed.

(** The rosters the fold uses are the genesis roster and a linked chain of
    creator-signed extensions; the chain stops where no unique verified
    record continues it; the union of all rosters respects the budget. *)
Lemma build_roster_chain_spec stream max genesis rej forks rosters rej' forks' :
  (N.of_nat (size genesis) ≤ max)%N →
  build_roster_chain stream list_uuid creator card genesis_hash max [genesis] rej forks =
    Ok (rosters, rej', forks') →
  ∃ ext tip,
    rosters = genesis :: ext ∧
    roster_ext (as_records stream) 1 genesis_hash ext tip ∧
    (N.of_nat (size (⋃ rosters)) ≤ max)%N ∧
    (llen ext < u64_max → ∀ r ros h, r ∈ as_records stream →
       starts_with ROSTER_KEY_PREFIX (sr_key r) = true → verified r = Ok (ros, h) →
       ros_roster_epoch ros = 1 + llen ext → ros_prev_roster_hash ros = tip →
       ∃ h' ms', h' ≠ h ∧
         roster_authentic (as_records stream) (1 + llen ext) tip h' ms')%N.
Proof.
  intros Hg H. unfold build_roster_chain in H. ok_inv.
  rename Hok into Hcol, Hok0 into Hwalk.
  destruct (collect_rosters_spec (as_records stream) _ _ _ _ _ _ (reflexivity _)
              (by_epoch_empty _) Hcol) as (Hok&_&Hall).
  edestruct (walk_rosters_spec (as_records stream)) as (ext&Hr&Hext&Hep&Hcum&Hb&Hd);
    [exact Hok| | |exact Hwalk|].
  - left. simpl. split; [unfold u64_max; lia|]. pose proof (epochs_left_le 1 g). lia.
  - done.
  - exists ext. eexists. simpl in *. rewrite Hcum in Hb. split_and!; [done|exact Hext| |].
    + by rewrite Hr.
    + intros Hlt r ros h Hin Hp Hv Hrep Hprev.
      eapply walk_done_not_extendable; [exact Hok|exact Hall| |done..].
      replace (1 + llen ext)%N with (rw_epoch a) by lia. exact Hd.
Qed.

(** The only refusal of the roster phase is a budget. *)
Lemma collect_rosters_Err l max m rej e :
  collect_rosters l list_uuid creator card genesis_hash max m rej = Err e →
  ∃ reason, e = BudgetExceeded reason.
Proof.
  revert m rej. induction l as [|r l IH]; intros m rej; simpl; [done|].
  destruct (negb _); [apply IH|]. destruct (verified r) as [[ros h]|]; [|apply IH].
  case_match; [intros [= <-]; eauto|apply IH].
Qed.

Lemma walk_rosters_Err fuel max m w e :
  walk_rosters fuel creator max m w = Err e → ∃ reason, e = BudgetExceeded reason.
Proof.
  revert w. induction fuel as [|fuel IH]; intros w; simpl; [done|].
  destruct (m !! rw_epoch w); [|done].
  destruct (dedup_by _ _) as [|[[k ros] h] [|]]; [done| |done].
  case_match; [intros [= <-]; eauto|apply IH].
Qed.

Lemma build_roster_chain_Err stream max rosters rej forks e :
  build_roster_chain stream list_uuid creator card genesis_hash max rosters rej forks = Err e →
  ∃ reason, e = BudgetExceeded reason.
Proof.
  unfold build_roster_chain. intros H.
  destruct (collect_rosters _ _ _ _ _ _ _ _) as [[m rej1]|e1] eqn:Hc.
  - match type of H with context [walk_rosters ?f ?c ?mx ?b ?w] =>
      destruct (walk_rosters f c mx b w) as [w'|e2] eqn:Hw end; [done|].
    injection H as <-. by eapply walk_rosters_Err.
  - injection H as <-. by eapply collect_rosters_Err.
Qed.
End roster.
