(* ===== verification/Chain.v ===== *)
(** * Author hash chains ([chain_author] of v2/fold.rs)

    [chain_author] admits the longest properly linked prefix of one author's
    candidates and rejects the rest with a gap, fork or link-break reason.  The
    specification is declarative: the admitted events form a linked chain, and
    nothing in the candidate set extends it unambiguously. *)

From S2P Require Import Prelude Wire FoldTypes.

(** ** [chain_author] *)

Record chain_state := {
  ch_expected_seq : N;
  ch_prev_hash : string;
  ch_broken : option string;
  ch_chained : list AdmittedEvent;
  ch_rejections : list Rejection;
  ch_forks : list ForkEvidence
}.

Definition reject_all (author reason : string) (group : list AdmittedEvent) : list Rejection :=
  (λ c, admission_rejection author (ad_key c) reason) <$> group.

(** [by_seq]: candidates grouped by sequence number, then each group sorted by
    event hash and deduplicated. *)
Definition push_seq (m : gmap N (list AdmittedEvent)) (c : AdmittedEvent) : gmap N (list AdmittedEvent) :=
  <[ad_author_seq c := default [] (m !! ad_author_seq c) ++ [c]]> m.

Definition canonical_group (g : list AdmittedEvent) : list AdmittedEvent :=
  dedup_by ad_event_hash (sort_by ad_event_hash g).

Definition group_by_seq (candidates : list AdmittedEvent) : gmap N (list AdmittedEvent) :=
  canonical_group <$> foldl push_seq ∅ candidates.

(** A state that has just broken on [group] for [reason]. *)
Definition break_on (author reason : string) (group : list AdmittedEvent) (st : chain_state) : chain_state := {|
  ch_expected_seq := ch_expected_seq st;
  ch_prev_hash := ch_prev_hash st;
  ch_broken := Some reason;
  ch_chained := ch_chained st;
  ch_rejections := ch_rejections st ++ reject_all author reason group;
  ch_forks := ch_forks st
|}.

Definition add_fork (f : ForkEvidence) (st : chain_state) : chain_state := {|
  ch_expected_seq := ch_expected_seq st;
  ch_prev_hash := ch_prev_hash st;
  ch_broken := ch_broken st;
  ch_chained := ch_chained st;
  ch_rejections := ch_rejections st;
  ch_forks := ch_forks st ++ [f]
|}.

Definition extend_chain (c : AdmittedEvent) (st : chain_state) : chain_state := {|
  ch_expected_seq := wrap_add64 (ch_expected_seq st) 1;
  ch_prev_hash := ad_event_hash c;
  ch_broken := None;
  ch_chained := ch_chained st ++ [c];
  ch_rejections := ch_rejections st;
  ch_forks := ch_forks st
|}.

(** One iteration over [by_seq]. *)
Definition chain_step (author : string) (st : chain_state) (p : N * list AdmittedEvent) : chain_state :=
  let '(seq, group) := p in
  match ch_broken st with
  | Some reason => break_on author reason group st
  | None =>
      if bool_decide (seq ≠ ch_expected_seq st) then
        break_on author ("author chain gap: expected seq " +:+ pretty (ch_expected_seq st) +:+
                         ", found " +:+ pretty seq) group st
      else if bool_decide (1 < length group) then
        break_on author ("author chain fork at seq " +:+ pretty seq) group
          (add_fork {| fe_author := author; fe_author_seq := seq;
                       fe_event_hashes := ad_event_hash <$> group |} st)
      else
        match group with
        | [] => st (* groups are never empty *)
        | cand :: _ =>
            if bool_decide (ad_prev_own_event_hash cand ≠ ch_prev_hash st) then
              break_on author ("author chain link break at seq " +:+ pretty seq) [cand] st
            else extend_chain cand st
        end
  end.

Definition chain_author (author : string) (candidates : list AdmittedEvent) (genesis_hash : string)
    (chained : list AdmittedEvent) (rejections : list Rejection) (forks : list ForkEvidence)
    : list AdmittedEvent * list Rejection * list ForkEvidence :=
  let st := foldl (chain_step author)
    {| ch_expected_seq := 1; ch_prev_hash := genesis_hash; ch_broken := None;
       ch_chained := chained; ch_rejections := rejections; ch_forks := forks |}
    (btree_iter (group_by_seq candidates)) in
  (ch_chained st, ch_rejections st, ch_forks st).

(** ** Specification *)

(** Consecutive sequence numbers from [seq], each event naming its
    predecessor's hash. *)
Fixpoint linked (seq : N) (prev : string) (l : list AdmittedEvent) : Prop :=
  match l with
  | [] => True
  | c :: l' =>
      ad_author_seq c = seq ∧ ad_prev_own_event_hash c = prev ∧
      linked (seq + 1) (ad_event_hash c) l'
  end.

(** The hash the next event of a chain must name. *)
Definition chain_tip (genesis_hash : string) (l : list AdmittedEvent) : string :=
  match last l with Some c => ad_event_hash c | None => genesis_hash end.

(** The distinct candidates with sequence number [s], ordered by hash. *)
Definition seq_group (s : N) (candidates : list AdmittedEvent) : list AdmittedEvent :=
  canonical_group (filter (λ c, ad_author_seq c = s) candidates).

Lemma linked_app s p l k :
  linked s p (l ++ k) ↔ linked s p l ∧ linked (s + llen l) (chain_tip p l) k.
Proof.
  revert s p. induction l as [|c l IH]; intros s p.
  - change (llen (@nil AdmittedEvent)) with 0%N. rewrite N.add_0_r. simpl. tauto.
  - simpl. rewrite IH.
    assert (s + llen (c :: l) = s + 1 + llen l)%N as -> by (unfold llen; simpl length; lia).
    assert (chain_tip (ad_event_hash c) l = chain_tip p (c :: l)) as ->.
    { unfold chain_tip. rewrite last_cons. by destruct (last l). }
    tauto.
Qed.

Lemma linked_seqs s p l i c :
  linked s p l → l !! i = Some c → ad_author_seq c = (s + N.of_nat i)%N.
Proof.
  revert s p i. induction l as [|c' l IH]; intros s p i; [done|].
  intros (Hs&_&Hl) Hi. destruct i as [|i]; simpl in Hi.
  - injection Hi as <-. lia.
  - rewrite (IH _ _ _ Hl Hi). lia.
Qed.

Lemma linked_tip_snoc s p l c :
  linked s p l → ad_author_seq c = (s + llen l)%N → ad_prev_own_event_hash c = chain_tip p l →
  linked s p (l ++ [c]).
Proof. intros Hl Hs Hp. apply linked_app. simpl. done. Qed.

(** ** Grouping *)

Lemma push_seq_lookup m c s :
  push_seq m c !! s =
  if decide (ad_author_seq c = s) then Some (default [] (m !! s) ++ [c]) else m !! s.
Proof.
  unfold push_seq. case_decide as E; [|by apply lookup_insert_ne].
  rewrite <-E. apply lookup_insert_eq.
Qed.

Lemma push_all_lookup candidates s :
  foldl push_seq ∅ candidates !! s =
  match filter (λ c, ad_author_seq c = s) candidates with [] => None | g => Some g end.
Proof.
  induction candidates as [|c l IH] using rev_ind; [done|].
  rewrite foldl_snoc, push_seq_lookup, IH, filter_app, filter_cons, filter_nil.
  case_decide; [|by rewrite app_nil_r].
  by destruct (filter (λ c, ad_author_seq c = s) l).
Qed.

Lemma group_by_seq_lookup candidates s g :
  group_by_seq candidates !! s = Some g ↔
  g = seq_group s candidates ∧ filter (λ c, ad_author_seq c = s) candidates ≠ [].
Proof.
  unfold group_by_seq, seq_group. rewrite lookup_fmap, push_all_lookup.
  destruct (filter _ candidates); simpl; naive_solver.
Qed.

Lemma elem_of_seq_group s candidates c :
  c ∈ seq_group s candidates → c ∈ candidates ∧ ad_author_seq c = s.
Proof.
  unfold seq_group, canonical_group. intros Hc%elem_of_dedup_by.
  rewrite elem_of_sort_by in Hc. by apply list_elem_of_filter in Hc as [? ?].
Qed.

(** Every candidate has a representative with its hash in its group. *)
Lemma seq_group_hash candidates c :
  c ∈ candidates →
  ∃ c', c' ∈ seq_group (ad_author_seq c) candidates ∧ ad_event_hash c' = ad_event_hash c.
Proof.
  intros Hc. assert (ad_event_hash c ∈ ad_event_hash <$> seq_group (ad_author_seq c) candidates) as H.
  { unfold seq_group, canonical_group. apply dedup_by_keys, list_elem_of_fmap_2.
    rewrite elem_of_sort_by. by apply list_elem_of_filter. }
  apply list_elem_of_fmap in H as (c'&->&?). eauto.
Qed.

(** ** The walk over the groups *)

Lemma chain_broken_fold author l st r :
  ch_broken st = Some r →
  ch_chained (foldl (chain_step author) st l) = ch_chained st ∧
  ch_forks (foldl (chain_step author) st l) = ch_forks st ∧
  ∃ rej, ch_rejections (foldl (chain_step author) st l) = ch_rejections st ++ rej ∧
         ∀ p c, p ∈ l → c ∈ p.2 → ∃ x, x ∈ rej ∧ re_author x = author ∧ re_key x = ad_key c.
Proof.
  revert st. induction l as [|[s g] l IH]; intros st Hb; simpl.
  - split_and!; [done..|]. exists []. rewrite app_nil_r. set_solver.
  - rewrite Hb. destruct (IH (break_on author r g st)) as (->&->&rej&->&Hrej); [done|].
    split_and!; [done..|]. exists (reject_all author r g ++ rej). simpl.
    split; [by rewrite app_assoc|]. intros p c [->|Hp]%elem_of_cons Hc.
    + eexists. split; [apply elem_of_app; left; by apply list_elem_of_fmap_2|]. done.
    + destruct (Hrej p c Hp Hc) as (x&?&?). exists x. split; [|done]. apply elem_of_app. by right.
Qed.

(** What the walk adds, starting unbroken at sequence number [e] with tip [p]:
    a linked list [k], after which the next group is not a single candidate
    naming the tip; fork evidence exactly when that group has two hashes; and
    every member of every group is chained or rejected. *)
Definition walk_result (author : string) (e : N) (p : string) (l : list (N * list AdmittedEvent))
    (st st' : chain_state) : Prop :=
  ∃ k rej,
    ch_chained st' = ch_chained st ++ k ∧ ch_rejections st' = ch_rejections st ++ rej ∧
    linked e p k ∧
    (∀ c, c ∈ k → ∃ s, (s, [c]) ∈ l) ∧
    (∀ c, ((e + llen k)%N, [c]) ∈ l → ad_prev_own_event_hash c ≠ chain_tip p k) ∧
    (∀ g, ((e + llen k)%N, g) ∈ l → 1 < length g →
       ch_forks st' = ch_forks st ++ [{| fe_author := author; fe_author_seq := e + llen k;
                                         fe_event_hashes := ad_event_hash <$> g |}]) ∧
    (∀ q c, q ∈ l → c ∈ q.2 → c ∈ k ∨
       ∃ x, x ∈ rej ∧ re_author x = author ∧ re_key x = ad_key c).

Lemma walk_breaks author e p q g l st st1 reason :
  Forall (λ x : N * list AdmittedEvent, q < x.1)%N l →
  ch_broken st1 = Some reason →
  ch_chained st1 = ch_chained st →
  ch_rejections st1 = ch_rejections st ++ reject_all author reason g →
  (q = e → ∀ c, g = [c] → ad_prev_own_event_hash c ≠ p) →
  (if bool_decide (q = e ∧ 1 < length g)
   then ch_forks st1 = ch_forks st ++ [{| fe_author := author; fe_author_seq := e;
                                          fe_event_hashes := ad_event_hash <$> g |}]
   else True) →
  (e ≤ q)%N →
  walk_result author e p ((q, g) :: l) st (foldl (chain_step author) st1 l).
Proof.
  intros Hl Hb Hch Hrej Hsingle Hfork Hle.
  destruct (chain_broken_fold author l st1 reason Hb) as (Hc'&Hf'&rej&Hr'&Hacc).
  assert (Hin : ∀ g', (e, g') ∈ (q, g) :: l → q = e ∧ g' = g).
  { intros g' [[= -> ->]|Hg]%elem_of_cons; [done|]. rewrite Forall_forall in Hl.
    specialize (Hl _ Hg). simpl in Hl. lia. }
  exists [], (reject_all author reason g ++ rej). change (llen (@nil AdmittedEvent)) with 0%N.
  rewrite N.add_0_r, app_nil_r. split_and!.
  - by rewrite Hc'.
  - by rewrite Hr', Hrej, app_assoc.
  - done.
  - intros c ?%elem_of_nil. done.
  - intros c [-> Hg]%Hin. by apply Hsingle.
  - intros g' [-> ->]%Hin Hlen. rewrite Hf'. by rewrite bool_decide_eq_true_2 in Hfork.
  - intros [q' g'] c [[= -> ->]|Hq]%elem_of_cons Hc; right; simpl in Hc.
    + eexists. split; [apply elem_of_app; left; by apply list_elem_of_fmap_2|]. done.
    + destruct (Hacc _ _ Hq Hc) as (x&?&?). exists x. split; [|done]. apply elem_of_app. by right.
Qed.

Lemma walk_extend author e p c l st st' :
  ad_author_seq c = e → ad_prev_own_event_hash c = p →
  Forall (λ x : N * list AdmittedEvent, e < x.1)%N l →
  walk_result author (e + 1) (ad_event_hash c) l (extend_chain c st) st' →
  walk_result author e p ((e, [c]) :: l) st st'.
Proof.
  intros Hs Hp Hl (k&rej&Hch&Hrej&Hk&Hkin&Hmax&Hfork&Hacc). exists (c :: k), rej.
  assert (e + llen (c :: k) = e + 1 + llen k)%N as -> by (unfold llen; simpl length; lia).
  assert (chain_tip p (c :: k) = chain_tip (ad_event_hash c) k) as ->.
  { unfold chain_tip. rewrite last_cons. by destruct (last k). }
  assert (Hin : ∀ g, ((e + 1 + llen k)%N, g) ∈ (e, [c]) :: l → ((e + 1 + llen k)%N, g) ∈ l).
  { intros g [[= E _]|?]%elem_of_cons; [lia|done]. }
  split_and!; try done.
  - rewrite Hch. simpl. by rewrite <-app_assoc.
  - intros c' [->|Hc']%elem_of_cons; [exists e; by apply elem_of_cons; left|].
    destruct (Hkin c' Hc') as [s ?]. exists s. apply elem_of_cons. by right.
  - intros c' Hc'. by apply Hmax, Hin.
  - intros g Hg. by apply Hfork, Hin.
  - intros q c' [->|Hq]%elem_of_cons Hc'.
    + simpl in Hc'. apply list_elem_of_singleton in Hc' as ->. left. apply elem_of_cons. by left.
    + destruct (Hacc q c' Hq Hc') as [?|?]; [left; apply elem_of_cons; by right|by right].
Qed.

Lemma walk_chain author e p l st :
  ch_broken st = None → ch_expected_seq st = e → ch_prev_hash st = p →
  StronglySorted (λ x y : N * list AdmittedEvent, x.1 < y.1)%N l →
  Forall (λ x, e ≤ x.1 ∧ x.1 ≤ u64_max)%N l →
  Forall (λ x, x.2 ≠ [] ∧ ∀ c, c ∈ x.2 → ad_author_seq c = x.1) l →
  walk_result author e p l st (foldl (chain_step author) st l).
Proof.
  intros Hb He Hp Hs. revert e p st Hb He Hp.
  induction Hs as [|[q g] l Hs IH Hlt]; intros e p st Hb He Hp Hge Hg.
  { exists [], []. rewrite !app_nil_r. split_and!; set_solver. }
  inversion_clear Hge as [|?? [Hqe Hqm] Hge']. inversion_clear Hg as [|?? [Hne Hseq] Hg'].
  simpl in *. rewrite Hb, He. case_bool_decide as Eq.
  { eapply walk_breaks; try done. rewrite bool_decide_eq_false_2; [done|naive_solver]. }
  subst q. case_bool_decide as Elen.
  { eapply walk_breaks; try done.
    - intros _ c ->. simpl in Elen. lia.
    - by rewrite bool_decide_eq_true_2. }
  destruct g as [|c [|c' g]]; [done| |simpl in Elen; lia].
  rewrite Hp. case_bool_decide as Ep.
  { eapply walk_breaks; try done.
    - by intros _ c' [= <-].
    - rewrite bool_decide_eq_false_2; [done|]. intros [_ ?]. simpl in *. lia. }
  apply walk_extend; [|done|done|].
  { apply Hseq, list_elem_of_singleton. done. }
  destruct l as [|[q' g'] l].
  { exists [], []. rewrite !app_nil_r. split_and!; set_solver. }
  assert (e < q' ∧ q' ≤ u64_max)%N as [Hq1 Hq2].
  { inversion Hlt; inversion Hge'; naive_solver. }
  apply IH; try done.
  - simpl. rewrite He. apply wrap_add64_small. lia.
  - rewrite Forall_forall in Hlt, Hge' |- *. intros y Hy.
    specialize (Hlt y Hy). specialize (Hge' y Hy). lia.
Qed.

Lemma group_iter_sorted candidates :
  StronglySorted (λ x y : N * list AdmittedEvent, x.1 < y.1)%N (btree_iter (group_by_seq candidates)).
Proof.
  pose proof (btree_iter_sorted (group_by_seq candidates)) as Hs.
  pose proof (NoDup_btree_keys (group_by_seq candidates)) as Hn.
  induction Hs as [|x l Hs IH Hall]; [constructor|]. simpl in Hn.
  apply NoDup_cons in Hn as [Hx Hn]. constructor; [by apply IH|].
  rewrite Forall_forall in Hall |- *. intros y Hy. specialize (Hall y Hy).
  assert (x.1 ≠ y.1) by (intros E; apply Hx; rewrite E; by apply list_elem_of_fmap_2).
  unfold key_le in Hall. apply ord_le_lt_or_eq in Hall as [Hlt|]; [|done].
  by apply N.compare_lt_iff.
Qed.

(** [chain_author] in one statement. *)
Lemma chain_author_spec author candidates genesis_hash chained rejections forks :
  Forall (λ c, 1 ≤ ad_author_seq c ≤ u64_max)%N candidates →
  ∃ k rej forks',
    chain_author author candidates genesis_hash chained rejections forks =
      (chained ++ k, rejections ++ rej, forks') ∧
    linked 1 genesis_hash k ∧
    (∀ c, c ∈ k → c ∈ candidates) ∧
    (∀ c, seq_group (1 + llen k) candidates = [c] →
       ad_prev_own_event_hash c ≠ chain_tip genesis_hash k) ∧
    (1 < length (seq_group (1 + llen k) candidates) →
       forks' = forks ++ [{| fe_author := author; fe_author_seq := 1 + llen k;
         fe_event_hashes := ad_event_hash <$> seq_group (1 + llen k) candidates |}]) ∧
    (∀ c, c ∈ candidates → ∃ c', c' ∈ candidates ∧ ad_author_seq c' = ad_author_seq c ∧
       ad_event_hash c' = ad_event_hash c ∧
       (c' ∈ k ∨ ∃ x, x ∈ rej ∧ re_author x = author ∧ re_key x = ad_key c')).
Proof.
  intros Hbound. rewrite Forall_forall in Hbound.
  set (st := {| ch_expected_seq := 1; ch_prev_hash := genesis_hash; ch_broken := None;
       ch_chained := chained; ch_rejections := rejections; ch_forks := forks |}).
  assert (Hin : ∀ s g, (s, g) ∈ btree_iter (group_by_seq candidates) ↔
                  g = seq_group s candidates ∧ filter (λ c, ad_author_seq c = s) candidates ≠ []).
  { intros s g. by rewrite elem_of_btree_iter, group_by_seq_lookup. }
  assert (Hne : ∀ s c, c ∈ seq_group s candidates →
                  filter (λ c, ad_author_seq c = s) candidates ≠ []).
  { intros s c Hc%elem_of_seq_group E. apply (not_elem_of_nil c). rewrite <-E.
    by apply list_elem_of_filter; destruct Hc. }
  destruct (walk_chain author 1 genesis_hash (btree_iter (group_by_seq candidates)) st)
    as (k&rej&Hch&Hrej&Hk&Hkin&Hmax&Hfork&Hacc); try done.
  - apply group_iter_sorted.
  - rewrite Forall_forall. intros [s g] [_ Hf]%Hin. simpl.
    destruct (filter _ candidates) as [|c f] eqn:Ef; [done|].
    assert (c ∈ filter (λ c, ad_author_seq c = s) candidates) as Hc
      by (rewrite Ef; apply elem_of_cons; by left).
    apply list_elem_of_filter in Hc as [<- Hc]. specialize (Hbound _ Hc). simpl in Hbound. lia.
  - rewrite Forall_forall. intros [s g] [-> Hf]%Hin. simpl. split.
    + destruct (filter _ candidates) as [|c f] eqn:Ef; [done|].
      assert (c ∈ filter (λ c, ad_author_seq c = s) candidates) as Hc
        by (rewrite Ef; apply elem_of_cons; by left).
      apply list_elem_of_filter in Hc as [<- Hc].
      destruct (seq_group_hash _ _ Hc) as (c'&Hc'&_). intros E. rewrite E in Hc'.
      by apply elem_of_nil in Hc'.
    + intros c Hc. by apply elem_of_seq_group in Hc as [_ ?].
  - exists k, rej, (ch_forks (foldl (chain_step author) st (btree_iter (group_by_seq candidates)))).
    unfold chain_author. fold st. split_and!; try done.
    + by rewrite Hch, Hrej.
    + intros c Hc. destruct (Hkin c Hc) as [s Hs]. apply Hin in Hs as [Hs _].
      assert (c ∈ seq_group s candidates) as Hc' by (rewrite <-Hs; by apply list_elem_of_singleton).
      by apply elem_of_seq_group in Hc' as [? _].
    + intros c Hc. apply Hmax, Hin. split; [done|]. apply (Hne _ c). rewrite Hc.
      by apply list_elem_of_singleton.
    + intros Hlen. apply Hfork; [|done]. apply Hin. split; [done|].
      destruct (seq_group (1 + llen k) candidates) as [|c g] eqn:E; [simpl in Hlen; lia|].
      apply (Hne _ c). rewrite E. apply elem_of_cons. by left.
    + intros c Hc. destruct (seq_group_hash _ _ Hc) as (c'&Hc'&Hh). exists c'.
      pose proof (elem_of_seq_group _ _ _ Hc') as [? ?]. split_and!; try done.
      apply (Hacc (ad_author_seq c, seq_group (ad_author_seq c) candidates)); [|done].
      apply Hin. split; [done|]. by apply (Hne _ c').
Qed.

(** An event numbered 0 is a gap before the first number, so the whole stream
    of its author is rejected. *)
Lemma chain_author_zero author candidates genesis_hash chained rejections forks c0 :
  c0 ∈ candidates → ad_author_seq c0 = 0%N →
  ∃ rej, chain_author author candidates genesis_hash chained rejections forks =
           (chained, rejections ++ rej, forks) ∧
    ∀ c, c ∈ candidates → ∃ c', c' ∈ candidates ∧ ad_author_seq c' = ad_author_seq c ∧
       ad_event_hash c' = ad_event_hash c ∧
       ∃ x, x ∈ rej ∧ re_author x = author ∧ re_key x = ad_key c'.
Proof.
  intros Hc0 Hz. unfold chain_author.
  assert (Hin : ∀ c, c ∈ candidates → ∃ c', c' ∈ candidates ∧
     ad_author_seq c' = ad_author_seq c ∧ ad_event_hash c' = ad_event_hash c ∧
     ∃ p, p ∈ btree_iter (group_by_seq candidates) ∧ c' ∈ p.2 ∧ p.1 = ad_author_seq c).
  { intros c Hc. destruct (seq_group_hash _ _ Hc) as (c'&Hc'&Hh). exists c'.
    destruct (elem_of_seq_group _ _ _ Hc') as [? ?]. split_and!; try done.
    exists (ad_author_seq c, seq_group (ad_author_seq c) candidates). split_and!; try done.
    apply elem_of_btree_iter, group_by_seq_lookup. split; [done|]. intros E.
    apply (not_elem_of_nil c). rewrite <-E. by apply list_elem_of_filter. }
  pose proof (group_iter_sorted candidates) as Hs.
  destruct (btree_iter (group_by_seq candidates)) as [|[q g] l].
  { destruct (Hin c0 Hc0) as (c'&_&_&_&p&Hp&_). by apply elem_of_nil in Hp. }
  assert (q = 0%N) as ->.
  { destruct (Hin c0 Hc0) as (c'&_&_&_&[q' g']&Hp&_&Hq'). simpl in Hq'.
    apply elem_of_cons in Hp as [[= -> ->]|Hp]; [congruence|].
    inversion_clear Hs as [|?? _ Hlt]. rewrite Forall_forall in Hlt.
    specialize (Hlt _ Hp). simpl in Hlt. lia. }
  cbn [foldl chain_step ch_broken ch_expected_seq]. rewrite bool_decide_eq_true_2 by done.
  set (reason := _ +:+ _). match goal with |- context [foldl _ ?s l] => set (st1 := s) end.
  destruct (chain_broken_fold author l st1 reason eq_refl) as (->&->&rej&->&Hrej). simpl.
  exists (reject_all author reason g ++ rej). split; [by rewrite app_assoc|].
  intros c Hc. destruct (Hin c Hc) as (c'&?&?&?&p&Hp&Hcp&_). exists c'. split_and!; try done.
  apply elem_of_cons in Hp as [->|Hp].
  - eexists. split; [apply elem_of_app; left; by apply list_elem_of_fmap_2|]. done.
  - destruct (Hrej p c' Hp Hcp) as (x&?&?). exists x. split; [|done]. apply elem_of_app. by right.
Qed.

Lemma chain_author_sound author candidates genesis_hash chained rejections forks :
  Forall (λ c, ad_author_seq c ≤ u64_max)%N candidates →
  ∃ k rej forks',
    chain_author author candidates genesis_hash chained rejections forks =
      (chained ++ k, rejections ++ rej, forks') ∧
    linked 1 genesis_hash k ∧ (∀ c, c ∈ k → c ∈ candidates) ∧
    (∀ c, c ∈ candidates → ∃ c', c' ∈ candidates ∧ ad_author_seq c' = ad_author_seq c ∧
       ad_event_hash c' = ad_event_hash c ∧
       (c' ∈ k ∨ ∃ x, x ∈ rej ∧ re_author x = author ∧ re_key x = ad_key c')).
Proof.
  intros Hb. destruct (decide (Exists (λ c, ad_author_seq c = 0%N) candidates)) as [Hz|Hnz].
  - apply Exists_exists in Hz as (c0&Hc0&Hz).
    destruct (chain_author_zero author candidates genesis_hash chained rejections forks c0)
      as (rej&Heq&Hacc); [done..|].
    exists [], rej, forks. rewrite app_nil_r. split_and!; try done.
    + intros c ?%elem_of_nil. done.
    + intros c Hc. destruct (Hacc c Hc) as (c'&?&?&?&?). exists c'. auto.
  - apply not_Exists_Forall in Hnz; [|apply _].
    destruct (chain_author_spec author candidates genesis_hash chained rejections forks)
      as (k&rej&forks'&?&?&?&_&_&?); [|by exists k, rej, forks'].
    rewrite Forall_forall in *. intros c Hc. specialize (Hb c Hc). specialize (Hnz c Hc).
    simpl in *. lia.
Qed.

(** ** Properties *)

(** [chain_author] admits the longest unambiguous hash chain: the admitted
    events are numbered 1, 2, ... and each names its predecessor's hash, from
    the genesis hash on; it stops only where no candidate has the next number,
    where several do (which is reported as a fork with all their hashes), or
    where the only one names another predecessor; every other candidate (up to
    identical payloads) gets a rejection. *)
Theorem chain_author_longest (author : string) (candidates : list AdmittedEvent)
    (genesis_hash : string) (rejections : list Rejection) (forks : list ForkEvidence) :
  Forall (λ c, 1 ≤ ad_author_seq c ≤ u64_max)%N candidates →
  ∃ chain rej forks',
    chain_author author candidates genesis_hash [] rejections forks =
      (chain, rejections ++ rej, forks') ∧
    linked 1 genesis_hash chain ∧ (∀ c, c ∈ chain → c ∈ candidates) ∧
    (∀ c, seq_group (1 + llen chain) candidates = [c] →
       ad_prev_own_event_hash c ≠ chain_tip genesis_hash chain) ∧
    (1 < length (seq_group (1 + llen chain) candidates) →
       forks' = forks ++ [{| fe_author := author; fe_author_seq := 1 + llen chain;
         fe_event_hashes := ad_event_hash <$> seq_group (1 + llen chain) candidates |}]) ∧
    (∀ c, c ∈ candidates → ∃ c', c' ∈ candidates ∧ ad_author_seq c' = ad_author_seq c ∧
       ad_event_hash c' = ad_event_hash c ∧
       (c' ∈ chain ∨ ∃ x, x ∈ rej ∧ re_author x = author ∧ re_key x = ad_key c')).
Proof.
  intros Hb. destruct (chain_author_spec author candidates genesis_hash [] rejections forks Hb)
    as (k&rej&forks'&?&?). by exists k, rej, forks'.
Qed.

(** A sequence number 0 poisons its author: one such candidate and nothing
    of that author is admitted. *)
Lemma chain_author_rejects_zero (author : string) (candidates : list AdmittedEvent)
    (genesis_hash : string) (chained : list AdmittedEvent) (rejections : list Rejection)
    (forks : list ForkEvidence) (c0 : AdmittedEvent) :
  c0 ∈ candidates → ad_author_seq c0 = 0%N →
  ∃ rej, chain_author author candidates genesis_hash chained rejections forks =
    (chained, rejections ++ rej, forks).
Proof.
  intros Hc Hz.
  destruct (chain_author_zero author candidates genesis_hash chained rejections forks c0 Hc Hz)
    as (rej&?&_). by exists rej.
Qed.

(** ** Witnesses *)

Definition sample_event (seq : N) (prev h : string) : AdmittedEvent := {|
  ad_author := "x"; ad_key := h; ad_event_hash := h; ad_lamport := 1; ad_author_seq := seq;
  ad_prev_own_event_hash := prev; ad_payload := PTransition {|
    tr_schema := 2; tr_list_uuid := "u"; tr_genesis_manifest_hash := "g"; tr_roster_epoch := 0;
    tr_issue_id := "i"; tr_actor := "x"; tr_lamport := 1; tr_author_seq := seq;
    tr_prev_own_event_hash := prev; tr_kind := TkClaim "n" |} |}.

(** A fork at the second event. *)
Definition sample_fork : list AdmittedEvent :=
  [sample_event 2 "h1" "h3"; sample_event 1 "g" "h1"; sample_event 2 "h1" "h2"].

Example sample_fork_admits :
  chain_author "x" sample_fork "g" [] [] [] =
  ([sample_event 1 "g" "h1"],
   reject_all "x" "author chain fork at seq 2" [sample_event 2 "h1" "h2"; sample_event 2 "h1" "h3"],
   [{| fe_author := "x"; fe_author_seq := 2; fe_event_hashes := ["h2"; "h3"] |}]).
Proof. reflexivity. Qed.

Lemma chain_author_longest_witness :
  ∃ chain rej forks',
    chain_author "x" sample_fork "g" [] [] [] = (chain, [] ++ rej, forks') ∧ linked 1 "g" chain.
Proof.
  destruct (chain_author_longest "x" sample_fork "g" [] []) as (k&rej&f&?&?&_);
    [repeat constructor; simpl; unfold u64_max; lia|].
  exists k, rej, f. split; assumption.
Defined.

Lemma chain_author_rejects_zero_witness :
  ∃ rej, chain_author "x" [sample_event 0 "g" "h0"; sample_event 1 "g" "h1"] "g" [] [] [] =
    ([], [] ++ rej, []).
Proof.
  apply (chain_author_rejects_zero "x" _ "g" [] [] [] (sample_event 0 "g" "h0"));
    [apply elem_of_cons; by left|reflexivity].
Defined.
