(* ===== verification/LamportCap.v ===== *)
(** * The lamport future-dating cap ([apply_lamport_cap] of v2/fold.rs)

    The cap removes future-dated events, and the suffix of their author's
    chain, until a walk over the survivors marks nothing.  The specification is
    order-theoretic: the result is the greatest subset of the candidates that
    is clean and closed under chain prefixes. *)

From S2P Require Import Prelude Wire FoldTypes.

(** ** Definitions *)

Record pass_state := {
  ps_running_max : N;
  ps_rejected : list bool;
  ps_truncate_from : gmap string N
}.

(** One candidate of the marking walk. *)
Definition pass_step (st : pass_state) (cand : AdmittedEvent) : pass_state :=
  if (sat_add64 (ps_running_max st) LAMPORT_MAX_SKEW <? ad_lamport cand)%N then {|
    ps_running_max := ps_running_max st;
    ps_rejected := ps_rejected st ++ [true];
    ps_truncate_from :=
      <[ad_author cand :=
          N.min (default (ad_author_seq cand) (ps_truncate_from st !! ad_author cand))
                (ad_author_seq cand)]> (ps_truncate_from st)
  |} else {|
    ps_running_max := N.max (ps_running_max st) (ad_lamport cand);
    ps_rejected := ps_rejected st ++ [false];
    ps_truncate_from := ps_truncate_from st
  |}.

Definition lamport_pass (survivors : list AdmittedEvent) : pass_state :=
  foldl pass_step {| ps_running_max := 0; ps_rejected := []; ps_truncate_from := ∅ |} survivors.

Definition truncated (truncate_from : gmap string N) (cand : AdmittedEvent) : bool :=
  match truncate_from !! ad_author cand with
  | Some from_seq => (from_seq <=? ad_author_seq cand)%N
  | None => false
  end.

(** The removal loop: keep the unmarked, untruncated candidates. *)
Definition keep_step (truncate_from : gmap string N)
    (acc : list AdmittedEvent * list Rejection) (p : AdmittedEvent * bool) : list AdmittedEvent * list Rejection :=
  let '(next, rejections) := acc in
  let '(cand, marked) := p in
  if marked : bool then
    (next, rejections ++ [admission_rejection (ad_author cand) (ad_key cand)
       ("lamport " +:+ pretty (ad_lamport cand) +:+ " exceeds admitted maximum + " +:+
        pretty LAMPORT_MAX_SKEW)])
  else if truncated truncate_from cand then
    (next, rejections ++ [admission_rejection (ad_author cand) (ad_key cand)
       "author chain truncated by a lamport rejection"])
  else (next ++ [cand], rejections).

Fixpoint cap_loop (fuel : nat) (survivors : list AdmittedEvent) (rejections : list Rejection)
    : list AdmittedEvent * list Rejection :=
  match fuel with
  | O => (survivors, rejections)
  | S fuel =>
      let pass := lamport_pass survivors in
      if bool_decide (ps_truncate_from pass = ∅) then (survivors, rejections)
      else
        let '(next, rejections) :=
          foldl (keep_step (ps_truncate_from pass)) ([], rejections)
            (zip survivors (ps_rejected pass)) in
        cap_loop fuel next rejections
  end.

(** Each round that continues removes a candidate, so one more round than
    there are candidates always reaches the exit ([cap_loop_fuel] below). *)
Definition apply_lamport_cap (candidates : list AdmittedEvent) (rejections : list Rejection)
    : list AdmittedEvent * list Rejection :=
  let survivors := sort_by fold_position candidates in
  cap_loop (S (length survivors)) survivors rejections.

(** ** Specification *)

(** A walk from horizon [rm] that marks nothing. *)
Fixpoint lamport_clean (rm : N) (l : list AdmittedEvent) : Prop :=
  match l with
  | [] => True
  | c :: l' => (ad_lamport c ≤ sat_add64 rm LAMPORT_MAX_SKEW)%N ∧
               lamport_clean (N.max rm (ad_lamport c)) l'
  end.

(** Closed under the earlier events of each author's chain. *)
Definition prefix_closed (candidates s : list AdmittedEvent) : Prop :=
  ∀ c c', c ∈ s → c' ∈ candidates → ad_author c' = ad_author c →
    (ad_author_seq c' < ad_author_seq c)%N → c' ∈ s.

(** One event per author and sequence number, as [chain_author] leaves it. *)
Definition seq_unique (l : list AdmittedEvent) : Prop :=
  ∀ c c', c ∈ l → c' ∈ l → ad_author c = ad_author c' →
    ad_author_seq c = ad_author_seq c' → c = c'.

Lemma lamport_clean_mono rm rm' l :
  (rm ≤ rm')%N → lamport_clean rm l → lamport_clean rm' l.
Proof.
  revert rm rm'. induction l as [|c l IH]; intros rm rm' Hle; [done|].
  intros [Hc Hl]. split.
  - unfold sat_add64, LAMPORT_MAX_SKEW in *. lia.
  - eapply IH; [|exact Hl]. lia.
Qed.

(** In a clean walk over [n] events no timestamp exceeds [64 * n]: no author
    can push the clock ahead faster than the list grows. *)
Lemma lamport_clean_bound rm l c :
  lamport_clean rm l → c ∈ l → (ad_lamport c ≤ rm + LAMPORT_MAX_SKEW * llen l)%N.
Proof.
  revert rm. induction l as [|c' l IH]; intros rm; [by intros _ ?%elem_of_nil|].
  intros [Hc' Hl] Hc. unfold LAMPORT_MAX_SKEW in *.
  assert (llen (c' :: l) = 1 + llen l)%N as -> by (unfold llen; simpl length; lia).
  pose proof (sat_add64_le rm 64).
  apply elem_of_cons in Hc as [->|Hc]; [lia|]. specialize (IH _ Hl Hc). lia.
Qed.

Lemma lamport_clean_position rm l i c :
  lamport_clean rm l → l !! i = Some c →
  (ad_lamport c ≤ rm + LAMPORT_MAX_SKEW * (N.of_nat i + 1))%N.
Proof.
  revert rm i. induction l as [|c' l IH]; intros rm i; [done|].
  intros [Hc' Hl] Hi. unfold LAMPORT_MAX_SKEW in *. pose proof (sat_add64_le rm 64).
  destruct i as [|i]; simpl in Hi; [injection Hi as <-; lia|].
  specialize (IH _ _ Hl Hi). lia.
Qed.

(** ** One pass *)

Definition exceeds (rm : N) (c : AdmittedEvent) : bool :=
  (sat_add64 rm LAMPORT_MAX_SKEW <? ad_lamport c)%N.

Fixpoint marks (rm : N) (l : list AdmittedEvent) : list bool :=
  match l with
  | [] => []
  | c :: l' => if exceeds rm c then true :: marks rm l'
               else false :: marks (N.max rm (ad_lamport c)) l'
  end.

Lemma pass_marks st l :
  ps_rejected (foldl pass_step st l) = ps_rejected st ++ marks (ps_running_max st) l.
Proof.
  revert st. induction l as [|c l IH]; intros st; simpl; [by rewrite app_nil_r|].
  rewrite IH. unfold pass_step. fold (exceeds (ps_running_max st) c).
  destruct (exceeds _ c); simpl; by rewrite <-app_assoc.
Qed.

Lemma length_marks rm l : length (marks rm l) = length l.
Proof.
  revert rm. induction l as [|c l IH]; intros rm; simpl; [done|].
  destruct (exceeds rm c); simpl; by rewrite IH.
Qed.

(** What the truncation map records: the least marked number per author. *)
Definition marked_in (rm : N) (l : list AdmittedEvent) (c : AdmittedEvent) : Prop :=
  (c, true) ∈ zip l (marks rm l).

Lemma marked_cons rm c l c' :
  marked_in rm (c :: l) c' ↔
  (exceeds rm c = true ∧ (c' = c ∨ marked_in rm l c')) ∨
  (exceeds rm c = false ∧ marked_in (N.max rm (ad_lamport c)) l c').
Proof.
  unfold marked_in. simpl. destruct (exceeds rm c); simpl; rewrite elem_of_cons; naive_solver.
Qed.

(** [after] is the least of [before] and the numbers of [a]'s marked events. *)
Definition least_marked (a : string) (before : option N) (marked : AdmittedEvent → Prop)
    (after : option N) : Prop :=
  match after with
  | None => before = None ∧ ∀ c, marked c → ad_author c ≠ a
  | Some s =>
      (before = Some s ∨ ∃ c, marked c ∧ ad_author c = a ∧ ad_author_seq c = s) ∧
      (∀ s', before = Some s' → s ≤ s')%N ∧
      (∀ c, marked c → ad_author c = a → s ≤ ad_author_seq c)%N
  end.

Lemma least_marked_ext a before m m' after :
  (∀ c, m c ↔ m' c) → least_marked a before m after → least_marked a before m' after.
Proof.
  intros Hm. unfold least_marked. destruct after as [s|]; [|by setoid_rewrite Hm].
  by setoid_rewrite Hm.
Qed.

Lemma least_marked_cons a before c m after :
  least_marked a
    (if decide (ad_author c = a)
     then Some (N.min (default (ad_author_seq c) before) (ad_author_seq c)) else before) m after →
  least_marked a before (λ c', c' = c ∨ m c') after.
Proof.
  unfold least_marked. case_decide as Ea.
  - destruct after as [s|]; [|naive_solver]. intros (H1&H2&H3).
    specialize (H2 _ eq_refl). split_and!.
    + destruct H1 as [[= <-]|(c'&?&?&?)]; [|right; exists c'; naive_solver].
      destruct before as [s0|]; simpl; [|right; exists c; rewrite N.min_id; naive_solver].
      destruct (N.min_spec s0 (ad_author_seq c)) as [[_ ->]|[_ ->]]; [by left|].
      right. exists c. naive_solver.
    + intros s' ->. simpl in H2. lia.
    + intros c' [->|Hm] Hc'; [|by apply H3]. destruct before; simpl in H2; lia.
  - destruct after as [s|].
    + intros (H1&H2&H3). split_and!; [|done|].
      * destruct H1 as [?|(c'&?&?&?)]; [by left|]. right. exists c'. naive_solver.
      * intros c' [->|Hm] Hc'; [done|by apply H3].
    + intros [H1 H2]. split; [done|]. intros c' [->|Hm]; [done|by apply H2].
Qed.

Lemma pass_truncate st l a :
  least_marked a (ps_truncate_from st !! a) (marked_in (ps_running_max st) l)
    (ps_truncate_from (foldl pass_step st l) !! a).
Proof.
  revert st. induction l as [|c l IH]; intros st.
  { simpl. unfold least_marked. destruct (ps_truncate_from st !! a) as [s|].
    - split_and!; [by left|intros s' [= <-]; lia|intros c Hc; by apply elem_of_nil in Hc].
    - split; [done|]. intros c Hc. by apply elem_of_nil in Hc. }
  change (foldl pass_step st (c :: l)) with (foldl pass_step (pass_step st c) l).
  specialize (IH (pass_step st c)). revert IH.
  generalize (foldl pass_step (pass_step st c) l). intros [rm' rj' tr'].
  cbn [ps_truncate_from]. unfold pass_step. fold (exceeds (ps_running_max st) c).
  destruct (exceeds (ps_running_max st) c) eqn:E; cbn [ps_truncate_from ps_running_max]; intros IH.
  - apply (least_marked_ext _ _ (λ c', c' = c ∨ marked_in (ps_running_max st) l c')).
    { intros c'. rewrite marked_cons, E. naive_solver. }
    apply least_marked_cons. case_decide as Ea; [subst a; by rewrite lookup_insert_eq in IH|].
    by rewrite lookup_insert_ne in IH.
  - eapply least_marked_ext; [|exact IH]. intros c'. rewrite marked_cons, E. naive_solver.
Qed.

Lemma lookup_pass_none l a :
  least_marked a None (marked_in 0 l) (ps_truncate_from (lamport_pass l) !! a).
Proof.
  unfold lamport_pass. pose proof (pass_truncate
    {| ps_running_max := 0; ps_rejected := []; ps_truncate_from := ∅ |} l a) as H.
  cbn [ps_truncate_from ps_running_max] in H. by rewrite lookup_empty in H.
Qed.

Lemma pass_spec l :
  let p := lamport_pass l in
  ps_rejected p = marks 0 l ∧
  (∀ c, marked_in 0 l c → truncated (ps_truncate_from p) c = true) ∧
  (∀ c, truncated (ps_truncate_from p) c = true →
     ∃ m, marked_in 0 l m ∧ ad_author m = ad_author c ∧ (ad_author_seq m ≤ ad_author_seq c)%N).
Proof.
  split_and!; [apply pass_marks|..]; intros c; unfold truncated;
    pose proof (lookup_pass_none l (ad_author c)) as H;
    destruct (ps_truncate_from (lamport_pass l) !! ad_author c) as [s|].
  - intros Hm. apply N.leb_le. by apply H.
  - intros Hm. destruct H as [_ H]. by destruct (H c Hm).
  - intros Hs%N.leb_le. destruct H as [[H|(m&Hm&Ha&<-)] _]; [done|eauto].
  - done.
Qed.

Lemma clean_no_marks rm l : lamport_clean rm l ↔ ∀ c, ¬ marked_in rm l c.
Proof.
  revert rm. induction l as [|c l IH]; intros rm; simpl.
  { split; [intros _ c Hc; by apply elem_of_nil in Hc|done]. }
  setoid_rewrite marked_cons. unfold exceeds. split.
  - intros [Hle Hl] c' [[Hlt%N.ltb_lt _]|[_ Hm]]; [lia|]. by apply IH in Hm.
  - intros H. assert (Hle : (ad_lamport c ≤ sat_add64 rm LAMPORT_MAX_SKEW)%N).
    { destruct (N.ltb_spec (sat_add64 rm LAMPORT_MAX_SKEW) (ad_lamport c)) as [Hlt|]; [|done].
      destruct (H c). left. split; [done|by left]. }
    split; [done|]. apply IH. intros c' Hm. apply (H c'). right. split; [|done].
    by apply N.ltb_ge.
Qed.

Lemma pass_clean l : ps_truncate_from (lamport_pass l) = ∅ ↔ lamport_clean 0 l.
Proof.
  rewrite clean_no_marks. destruct (pass_spec l) as (_&Hm&_). split.
  - intros E c Hc. apply Hm in Hc. unfold truncated in Hc. by rewrite E, lookup_empty in Hc.
  - intros Hn. apply map_eq. intros a. rewrite lookup_empty.
    pose proof (lookup_pass_none l a) as H.
    destruct (ps_truncate_from (lamport_pass l) !! a) as [s|]; [|done].
    destruct H as [[H|(c&Hc&_)] _]; [done|by apply Hn in Hc].
Qed.

(** ** The loop *)

Lemma marked_elem rm l c : marked_in rm l c → c ∈ l.
Proof. unfold marked_in. intros H. by apply elem_of_zip_l in H. Qed.

(** A marked candidate is also truncated, so the survivors of a round are
    exactly the untruncated candidates. *)
Lemma keep_fold tr zs next rej :
  (∀ c, (c, true) ∈ zs → truncated tr c = true) →
  ∃ rej', foldl (keep_step tr) (next, rej) zs =
    (next ++ List.filter (λ c, negb (truncated tr c)) zs.*1, rej ++ rej') ∧
    ∀ c, c ∈ zs.*1 → truncated tr c = true →
      ∃ x, x ∈ rej' ∧ re_author x = ad_author c ∧ re_key x = ad_key c.
Proof.
  revert next rej. induction zs as [|[c m] zs IH]; intros next rej Hm.
  { exists []. simpl. rewrite !app_nil_r. split; [done|]. intros c Hc. by apply elem_of_nil in Hc. }
  assert (Hm' : ∀ c', (c', true) ∈ zs → truncated tr c' = true).
  { intros c' Hc'. apply Hm, elem_of_cons. by right. }
  assert (Hstep : ∃ new, keep_step tr (next, rej) (c, m) =
    (next ++ (if truncated tr c then [] else [c]), rej ++ new) ∧
    (truncated tr c = true → ∃ x, x ∈ new ∧ re_author x = ad_author c ∧ re_key x = ad_key c)).
  { simpl. destruct m.
    - rewrite (Hm c) by (apply elem_of_cons; by left). eexists [_]. rewrite app_nil_r.
      split; [done|]. intros _. eexists. split; [by apply list_elem_of_singleton|done].
    - destruct (truncated tr c).
      + eexists [_]. rewrite app_nil_r. split; [done|]. intros _.
        eexists. split; [by apply list_elem_of_singleton|done].
      + exists []. rewrite app_nil_r. done. }
  destruct Hstep as (new&Hstep&Hnew). change (foldl ?f ?a (?x :: ?l)) with (foldl f (f a x) l).
  rewrite Hstep. destruct (IH (next ++ (if truncated tr c then [] else [c])) (rej ++ new) Hm')
    as (rej'&->&Hrej). exists (new ++ rej'). split.
  - simpl. rewrite <-!app_assoc. by destruct (truncated tr c).
  - intros c' [->|Hc']%elem_of_cons Ht.
    + destruct (Hnew Ht) as (x&?&?). exists x. split; [|done]. apply elem_of_app. by left.
    + destruct (Hrej c' Hc' Ht) as (x&?&?). exists x. split; [|done]. apply elem_of_app. by right.
Qed.

Definition survivors_of (l : list AdmittedEvent) : list AdmittedEvent :=
  List.filter (λ c, negb (truncated (ps_truncate_from (lamport_pass l)) c)) l.

Lemma keep_round l rej :
  ∃ rej', foldl (keep_step (ps_truncate_from (lamport_pass l))) ([], rej)
            (zip l (ps_rejected (lamport_pass l))) = (survivors_of l, rej ++ rej') ∧
    ∀ c, c ∈ l → c ∉ survivors_of l →
      ∃ x, x ∈ rej' ∧ re_author x = ad_author c ∧ re_key x = ad_key c.
Proof.
  destruct (pass_spec l) as (Hr&Hm&_). rewrite Hr.
  destruct (keep_fold (ps_truncate_from (lamport_pass l)) (zip l (marks 0 l)) [] rej)
    as (rej'&->&Hrej); [exact Hm|].
  exists rej'. rewrite fst_zip in * by (rewrite length_marks; lia). split; [done|].
  intros c Hc Hn. apply Hrej; [done|]. apply not_false_iff_true. intros Hf. apply Hn.
  unfold survivors_of. apply list_elem_of_In, filter_In. rewrite Hf. split; [by apply list_elem_of_In|done].
Qed.

Lemma elem_of_survivors l c :
  c ∈ survivors_of l ↔ c ∈ l ∧ truncated (ps_truncate_from (lamport_pass l)) c = false.
Proof.
  unfold survivors_of. rewrite list_elem_of_In, filter_In, <-list_elem_of_In, negb_true_iff. done.
Qed.

Lemma survivors_shrink l :
  ¬ lamport_clean 0 l → length (survivors_of l) < length l.
Proof.
  rewrite clean_no_marks. intros Hn.
  assert (∃ c, c ∈ l ∧ truncated (ps_truncate_from (lamport_pass l)) c = true) as (c&Hc&Ht).
  { destruct (decide (Exists (λ c, truncated (ps_truncate_from (lamport_pass l)) c = true) l))
      as [He|He]; [by apply Exists_exists in He|].
    destruct Hn. intros c Hm. apply He, Exists_exists. exists c.
    split; [by eapply marked_elem|]. by apply pass_spec. }
  unfold survivors_of. apply list_elem_of_In, in_split in Hc as (l1&l2&E).
  generalize dependent (truncated (ps_truncate_from (lamport_pass l))). intros f Hf. subst l.
  rewrite List.filter_app, !length_app. simpl. rewrite Hf. simpl.
  pose proof (List.filter_length_le (λ c, negb (f c)) l1).
  pose proof (List.filter_length_le (λ c, negb (f c)) l2). lia.
Qed.

Lemma survivors_sublist l : survivors_of l `sublist_of` l.
Proof.
  unfold survivors_of. generalize (λ c, negb (truncated (ps_truncate_from (lamport_pass l)) c)).
  intros f. induction l as [|c l IH]; simpl; [constructor|]. destruct (f c); by constructor.
Qed.

Lemma survivors_prefix_closed l : prefix_closed l (survivors_of l).
Proof.
  intros c c' [Hc Ht]%elem_of_survivors Hc' Ha Hlt. apply elem_of_survivors. split; [done|].
  unfold truncated in *. rewrite Ha. destruct (_ !! ad_author c) as [s|]; [|done].
  apply N.leb_gt in Ht. apply N.leb_gt. lia.
Qed.

(** No element of a clean prefix-closed subset is ever removed. *)
Lemma marked_not_in_clean rm rm' s l c :
  (rm' ≤ rm)%N → s `sublist_of` l → lamport_clean rm' s → NoDup l →
  marked_in rm l c → c ∉ s.
Proof.
  intros Hle Hsub. revert rm rm' Hle.
  induction Hsub as [|x s l Hsub IH|x s l Hsub IH]; intros rm rm' Hle Hcl Hnd Hm.
  - by apply not_elem_of_nil.
  - apply NoDup_cons in Hnd as [Hx Hnd]. destruct Hcl as [Hx' Hcl]. apply marked_cons in Hm.
    assert (exceeds rm x = false) as E.
    { unfold exceeds. apply N.ltb_ge. unfold sat_add64 in *. lia. }
    rewrite E in Hm. destruct Hm as [[? _]|[_ Hm]]; [done|].
    apply not_elem_of_cons. split; [|by eapply IH; [|exact Hcl|done|exact Hm]; lia].
    intros ->. by apply marked_elem in Hm.
  - apply NoDup_cons in Hnd as [Hx Hnd]. apply marked_cons in Hm.
    destruct Hm as [[_ [->|Hm]]|[_ Hm]].
    + intros Hin. apply Hx. eapply elem_of_submseteq; [exact Hin|by apply sublist_submseteq].
    + by eapply IH.
    + eapply IH; [|exact Hcl|done|exact Hm]. lia.
Qed.

Lemma survivors_greatest l s :
  NoDup l → seq_unique l → s `sublist_of` l → lamport_clean 0 s → prefix_closed l s →
  s `sublist_of` survivors_of l.
Proof.
  intros Hnd Hu Hsub Hcl Hpc.
  assert (Hkeep : ∀ c, c ∈ s → truncated (ps_truncate_from (lamport_pass l)) c = false).
  { intros c Hc. apply not_true_is_false. intros Ht.
    apply pass_spec in Ht as (m&Hm&Ha&Hle).
    assert (m ∉ s) as Hms by (eapply (marked_not_in_clean 0 0); done || lia). apply Hms.
    pose proof (marked_elem _ _ _ Hm) as Hml.
    assert (c ∈ l) as Hcl' by (eapply elem_of_submseteq; [done|by apply sublist_submseteq]).
    destruct (decide (ad_author_seq m = ad_author_seq c)) as [E|E].
    - by rewrite (Hu m c).
    - eapply Hpc; try done. lia. }
  unfold survivors_of. clear - Hsub Hkeep. revert Hkeep.
  generalize (truncated (ps_truncate_from (lamport_pass l))). intros f Hkeep.
  induction Hsub as [|x s l Hsub IH|x s l Hsub IH]; simpl; [constructor|..].
  - rewrite (Hkeep x) by (apply elem_of_cons; by left). simpl. constructor. apply IH.
    intros c Hc. apply Hkeep, elem_of_cons. by right.
  - destruct (negb (f x)); [constructor|]; by apply IH.
Qed.

(** The loop, run with enough fuel: the result is clean, closed under chain
    prefixes, and contains every subset that is. *)
Lemma cap_loop_spec fuel l rej :
  NoDup l → seq_unique l → length l < fuel →
  ∃ r rej', cap_loop fuel l rej = (r, rej ++ rej') ∧
    r `sublist_of` l ∧ lamport_clean 0 r ∧ prefix_closed l r ∧
    (∀ s, s `sublist_of` l → lamport_clean 0 s → prefix_closed l s → s `sublist_of` r) ∧
    (∀ c, c ∈ l → c ∉ r → ∃ x, x ∈ rej' ∧ re_author x = ad_author c ∧ re_key x = ad_key c).
Proof.
  revert l rej. induction fuel as [|fuel IH]; intros l rej Hnd Hu Hlen; [lia|].
  simpl. case_bool_decide as Hcl.
  { exists l, []. rewrite app_nil_r. apply pass_clean in Hcl. split_and!; try done.
    intros c c' _ Hc' _ _. done. }
  destruct (keep_round l rej) as (rej1&->&Hrej1).
  pose proof (survivors_sublist l) as Hsub.
  assert (Hin : ∀ c, c ∈ survivors_of l → c ∈ l) by (intros c Hc; apply elem_of_survivors in Hc; tauto).
  destruct (IH (survivors_of l) (rej ++ rej1)) as (r&rej2&->&Hr&Hrc&Hrp&Hrg&Hrr).
  - by eapply sublist_NoDup.
  - intros c c' Hc Hc'. apply Hu; by apply Hin.
  - assert (¬ lamport_clean 0 l) as Hn by by rewrite <-pass_clean.
    apply survivors_shrink in Hn. lia.
  - exists r, (rej1 ++ rej2). rewrite app_assoc. split_and!; try done.
    + by etrans.
    + intros c c' Hc Hc' Ha Hlt. assert (c ∈ survivors_of l) as Hcs.
      { eapply elem_of_submseteq; [done|by apply sublist_submseteq]. }
      eapply Hrp; try done. by eapply survivors_prefix_closed.
    + intros s Hs Hsc Hsp. apply Hrg; [by apply survivors_greatest|done|].
      intros c c' Hc Hc'. by apply Hsp, Hin.
    + intros c Hc Hcr.
      destruct (truncated (ps_truncate_from (lamport_pass l)) c) eqn:Et.
      * destruct (Hrej1 c Hc) as (x&?&?); [by rewrite elem_of_survivors, Et; intros []|].
        exists x. split; [|done]. apply elem_of_app. by left.
      * destruct (Hrr c) as (x&?&?); [by apply elem_of_survivors|done|].
        exists x. split; [|done]. apply elem_of_app. by right.
Qed.

(** [apply_lamport_cap] in one statement. *)
Lemma apply_lamport_cap_spec candidates rej :
  NoDup candidates → seq_unique candidates →
  ∃ r rej', apply_lamport_cap candidates rej = (r, rej ++ rej') ∧
    r `sublist_of` sort_by fold_position candidates ∧
    lamport_clean 0 r ∧ prefix_closed candidates r ∧
    (∀ s, s `sublist_of` sort_by fold_position candidates → lamport_clean 0 s →
       prefix_closed candidates s → s `sublist_of` r) ∧
    (∀ c, c ∈ candidates → c ∉ r →
       ∃ x, x ∈ rej' ∧ re_author x = ad_author c ∧ re_key x = ad_key c).
Proof.
  intros Hnd Hu. unfold apply_lamport_cap.
  destruct (cap_loop_spec (S (length (sort_by fold_position candidates)))
              (sort_by fold_position candidates) rej)
    as (r&rej'&->&Hr&Hc&Hp&Hg&Hx).
  - by rewrite sort_by_perm.
  - intros c c'. rewrite !elem_of_sort_by. apply Hu.
  - lia.
  - assert (Hpc : ∀ s, prefix_closed (sort_by fold_position candidates) s ↔ prefix_closed candidates s).
    { intros s. unfold prefix_closed. by setoid_rewrite elem_of_sort_by. }
    exists r, rej'. split_and!; try done.
    + by apply Hpc.
    + intros s ? ? ?%Hpc. by apply Hg.
    + intros c Hc' Hn. apply Hx; [by apply elem_of_sort_by|done].
Qed.

(** More fuel than the loop needs does not change its result. *)
Lemma cap_loop_fuel fuel fuel' l rej :
  length l < fuel → fuel ≤ fuel' → cap_loop fuel l rej = cap_loop fuel' l rej.
Proof.
  revert fuel' l rej. induction fuel as [|fuel IH]; intros fuel' l rej Hl Hle; [lia|].
  destruct fuel' as [|fuel']; [lia|]. simpl. case_bool_decide as Hcl; [done|].
  destruct (keep_round l rej) as (rej1&->&_). apply IH; [|lia].
  assert (¬ lamport_clean 0 l) as Hn by by rewrite <-pass_clean.
  apply survivors_shrink in Hn. lia.
Qed.

(** ** Properties *)

(** The cap keeps as much as any sound rule could: its result, in fold
    order, is clean (no event is more than 64 ahead of the maximum before it)
    and closed under the earlier events of every author's chain, and every
    clean, prefix-closed selection of the candidates is contained in it; each
    removed event gets a rejection that names it. *)
Theorem lamport_cap_greatest (candidates : list AdmittedEvent) (rejections : list Rejection) :
  NoDup candidates → seq_unique candidates →
  ∃ kept rej',
    apply_lamport_cap candidates rejections = (kept, rejections ++ rej') ∧
    kept `sublist_of` sort_by fold_position candidates ∧
    lamport_clean 0 kept ∧ prefix_closed candidates kept ∧
    (∀ s, s `sublist_of` sort_by fold_position candidates → lamport_clean 0 s →
       prefix_closed candidates s → s `sublist_of` kept) ∧
    (∀ c, c ∈ candidates → c ∉ kept →
       ∃ x, x ∈ rej' ∧ re_author x = ad_author c ∧ re_key x = ad_key c).
Proof. apply apply_lamport_cap_spec. Qed.

(** The fixpoint loop of the cap terminates by itself: with one round more
    than there are candidates it has reached its exit, so any larger number of
    rounds gives the same result. *)
Theorem lamport_cap_terminates (candidates : list AdmittedEvent) (rejections : list Rejection)
    (fuel : nat) :
  length candidates < fuel →
  cap_loop fuel (sort_by fold_position candidates) rejections =
  apply_lamport_cap candidates rejections.
Proof.
  intros Hf. unfold apply_lamport_cap. symmetry. apply cap_loop_fuel; [lia|].
  rewrite length_sort_by. lia.
Qed.

(** ** Witnesses *)

Definition stamped (author : string) (lamport seq : N) : AdmittedEvent := {|
  ad_author := author; ad_key := author; ad_event_hash := author; ad_lamport := lamport;
  ad_author_seq := seq; ad_prev_own_event_hash := "g"; ad_payload := PTransition {|
    tr_schema := 2; tr_list_uuid := "u"; tr_genesis_manifest_hash := "g"; tr_roster_epoch := 0;
    tr_issue_id := "i"; tr_actor := author; tr_lamport := lamport; tr_author_seq := seq;
    tr_prev_own_event_hash := "g"; tr_kind := TkClaim "n" |} |}.

(** The second event of [x] is future-dated; removing its third leaves [y]'s
    event future-dated as well. *)
Definition sample_stamps : list AdmittedEvent :=
  [stamped "x" 10 1; stamped "x" 200 2; stamped "x" 70 3; stamped "y" 130 1].

Example sample_stamps_capped : (apply_lamport_cap sample_stamps []).1 = [stamped "x" 10 1].
Proof. vm_compute. reflexivity. Qed.

Lemma lamport_cap_greatest_witness :
  ∃ kept rej', apply_lamport_cap sample_stamps [] = (kept, [] ++ rej') ∧ lamport_clean 0 kept.
Proof.
  destruct (lamport_cap_greatest sample_stamps []) as (k&r&?&_&?&_).
  - apply (NoDup_fmap_1 ad_lamport). vm_compute. repeat constructor; set_solver.
  - intros c c' Hc Hc' Ha Hs. unfold sample_stamps in *.
    rewrite !elem_of_cons, elem_of_nil in Hc, Hc'.
    destruct Hc as [->|[->|[->|[->|[]]]]], Hc' as [->|[->|[->|[->|[]]]]];
      try reflexivity; first [discriminate Ha|discriminate Hs].
  - exists k, r. split; assumption.
Defined.

Lemma lamport_cap_terminates_witness :
  cap_loop 9 (sort_by fold_position sample_stamps) [] = apply_lamport_cap sample_stamps [].
Proof. apply lamport_cap_terminates. vm_compute. lia. Defined.
