(* ===== verification/StateMachine.v ===== *)
(** * Phase 2: the issue state machine and the approval ledger (v2/fold.rs)

    The ordered walk over admitted events: transitions drive the per-issue
    state machine, consumes are effective or losing, handoffs are recorded when
    fenced.  [status_step] is the abstract transition system; [apply_transition]
    is proved to be exactly one of its steps or an error. *)

From S2P Require Import Prelude Wire FoldTypes.

(** ** Transitions *)

Definition check_claim_fence (issue : IssueStateV2) (actor claim_nonce claimed_event_hash : string)
    : result unit string :=
  match is_status issue with
  | StClaimed claimant current_nonce claim_event_hash =>
      bail ("actor " +:+ actor +:+ " is not the claimant " +:+ claimant)
        when bool_decide (claimant ≠ actor);
      bail "claim nonce does not match the winning claim"
        when bool_decide (current_nonce ≠ claim_nonce);
      bail "claimed event hash does not match the winning claim"
        when bool_decide (claim_event_hash ≠ claimed_event_hash);
      Ok ()
  | _ => Err "issue is not claimed"
  end.

Definition apply_requeue (issue : IssueStateV2) (justification : RequeueJustification)
    (event_hash : string) : result IssueStateV2 string :=
  match is_status issue with
  | StBlocked _ claim_nonce _ block_event_hash reason =>
      bail "only awaiting_approval blocks are requeue-able (design r2 C6)"
        when bool_decide (reason ≠ AwaitingApproval);
      bail "requeue names a block that is not the current block"
        when bool_decide (rj_block_event_hash justification ≠ block_event_hash);
      bail "requeue claim nonce does not match the parked claim"
        when bool_decide (rj_claim_nonce justification ≠ claim_nonce);
      Ok (set_status issue StOpen event_hash)
  | _ => Err "requeue on an issue that is not blocked"
  end.

Definition issue_mut (issues : gmap string IssueStateV2) (issue_id : string)
    : result IssueStateV2 string :=
  ok_or (issues !! issue_id) "issue does not exist".

Definition open_issue (adm : AdmittedEvent) (event : TransitionEventV2) (title spec : string)
    : IssueStateV2 := {|
  is_issue_id := tr_issue_id event;
  is_title := title;
  is_spec := spec;
  is_opened_by := tr_actor event;
  is_open_event_hash := ad_event_hash adm;
  is_status := StOpen;
  is_applied := [ad_event_hash adm]
|}.

(** An error leaves the map as it was; a success is the updated map. *)
Definition apply_transition (issues : gmap string IssueStateV2) (adm : AdmittedEvent)
    (event : TransitionEventV2) : result (gmap string IssueStateV2) string :=
  let id := tr_issue_id event in
  let h := ad_event_hash adm in
  match tr_kind event with
  | TkOpen title spec _ _ =>
      bail "issue already exists" when bool_decide (is_Some (issues !! id));
      Ok (<[id := open_issue adm event title spec]> issues)
  | TkClaim claim_nonce =>
      let? issue := issue_mut issues id in
      match is_status issue with
      | StOpen => Ok (<[id := set_status issue (StClaimed (tr_actor event) claim_nonce h) h]> issues)
      | _ => Err "issue is not claimable"
      end
  | TkRelease claim_nonce claimed_event_hash =>
      let? issue := issue_mut issues id in
      let? _ := check_claim_fence issue (tr_actor event) claim_nonce claimed_event_hash in
      Ok (<[id := set_status issue StOpen h]> issues)
  | TkBlock claim_nonce claimed_event_hash reason =>
      let? issue := issue_mut issues id in
      let? _ := check_claim_fence issue (tr_actor event) claim_nonce claimed_event_hash in
      Ok (<[id := set_status issue
             (StBlocked (tr_actor event) claim_nonce claimed_event_hash h reason) h]> issues)
  | TkComplete claim_nonce claimed_event_hash =>
      let? issue := issue_mut issues id in
      let? _ := check_claim_fence issue (tr_actor event) claim_nonce claimed_event_hash in
      Ok (<[id := set_status issue (StDone (tr_actor event) h) h]> issues)
  | TkRequeue justification =>
      let? issue := issue_mut issues id in
      let? issue' := apply_requeue issue justification h in
      Ok (<[id := issue']> issues)
  end.

(** ** Consumes and handoffs *)

Definition consume_effectiveness (issues : gmap string IssueStateV2)
    (approvals : gmap string AdmittedApprovalV2)
    (effective_consumes : gmap string EffectiveConsumeV2) (consume : ConsumeEventV2)
    : result unit string :=
  let? admitted := ok_or (approvals !! ce_approval_event_hash consume)
    "references an unknown or inadmissible approval" in
  let approval := aa_approval admitted in
  bail "approval issue does not match the consume issue"
    when bool_decide (ae_issue_id approval ≠ ce_issue_id consume);
  bail "approval approver does not match the consume"
    when bool_decide (ae_actor approval ≠ ce_approver consume);
  bail "cannot consume a denial" when bool_decide (ae_verdict approval ≠ Approve);
  let? issue := ok_or (issues !! ce_issue_id consume)
    "issue does not exist at the consume's fold position" in
  bail "approval binds different issue content"
    when bool_decide (ae_open_event_hash approval ≠ is_open_event_hash issue);
  match is_status issue with
  | StClaimed claimant claim_nonce claim_event_hash =>
      bail "consume is not fenced by the fold-winning claim"
        when bool_decide (claimant ≠ ce_actor consume) ||
             bool_decide (claim_nonce ≠ ce_claim_nonce consume) ||
             bool_decide (claim_event_hash ≠ ce_claimed_event_hash consume);
      bail "approval already consumed by an earlier fold-ordered consume"
        when bool_decide (is_Some (effective_consumes !! ce_approval_event_hash consume));
      Ok ()
  | _ => Err "issue is not claimed at the consume's fold position"
  end.

Definition handoff_fence (issues : gmap string IssueStateV2) (handoff : HandoffEventV2)
    : result unit string :=
  let? issue := ok_or (issues !! he_issue_id handoff) "handoff on an issue that does not exist" in
  check_claim_fence issue (he_actor handoff) (he_claim_nonce handoff) (he_claimed_event_hash handoff).

(** ** The ordered walk *)

Record ledger := {
  lg_issues : gmap string IssueStateV2;
  lg_effective_consumes : gmap string EffectiveConsumeV2;
  lg_losing_consumes : list ConsumeDiagnostic;
  lg_handoffs : gmap string (list HandoffRecordV2);
  lg_rejections : list Rejection
}.

Definition ledger_reject (adm : AdmittedEvent) (reason : string) (g : ledger) : ledger := {|
  lg_issues := lg_issues g;
  lg_effective_consumes := lg_effective_consumes g;
  lg_losing_consumes := lg_losing_consumes g;
  lg_handoffs := lg_handoffs g;
  lg_rejections := lg_rejections g ++
    [{| re_author := ad_author adm; re_key := ad_key adm; re_phase := StateMachine;
        re_reason := reason |}]
|}.

(** The approval pre-pass: an order-independent set. *)
Definition collect_approval (m : gmap string AdmittedApprovalV2) (adm : AdmittedEvent)
    : gmap string AdmittedApprovalV2 :=
  match ad_payload adm with
  | PApproval approval =>
      <[ad_event_hash adm := {| aa_event_hash := ad_event_hash adm; aa_approval := approval |}]> m
  | _ => m
  end.

Definition collect_approvals (ordered : list AdmittedEvent) : gmap string AdmittedApprovalV2 :=
  foldl collect_approval ∅ ordered.

Definition phase2_step (approvals : gmap string AdmittedApprovalV2) (g : ledger) (adm : AdmittedEvent)
    : ledger :=
  match ad_payload adm with
  | PTransition event =>
      match apply_transition (lg_issues g) adm event with
      | Ok issues => {| lg_issues := issues; lg_effective_consumes := lg_effective_consumes g;
                        lg_losing_consumes := lg_losing_consumes g;
                        lg_handoffs := lg_handoffs g; lg_rejections := lg_rejections g |}
      | Err reason => ledger_reject adm reason g
      end
  | PApproval _ => g
  | PConsume consume =>
      match consume_effectiveness (lg_issues g) approvals (lg_effective_consumes g) consume with
      | Ok _ => {| lg_issues := lg_issues g;
                   lg_effective_consumes :=
                     <[ce_approval_event_hash consume :=
                         {| ec_event_hash := ad_event_hash adm; ec_consume := consume |}]>
                       (lg_effective_consumes g);
                   lg_losing_consumes := lg_losing_consumes g;
                   lg_handoffs := lg_handoffs g; lg_rejections := lg_rejections g |}
      | Err reason => {| lg_issues := lg_issues g;
                   lg_effective_consumes := lg_effective_consumes g;
                   lg_losing_consumes := lg_losing_consumes g ++
                     [{| cd_author := ad_author adm; cd_key := ad_key adm;
                         cd_event_hash := ad_event_hash adm;
                         cd_approval_event_hash := ce_approval_event_hash consume;
                         cd_reason := reason |}];
                   lg_handoffs := lg_handoffs g; lg_rejections := lg_rejections g |}
      end
  | PHandoff handoff =>
      match handoff_fence (lg_issues g) handoff with
      | Ok _ => {| lg_issues := lg_issues g; lg_effective_consumes := lg_effective_consumes g;
                   lg_losing_consumes := lg_losing_consumes g;
                   lg_handoffs :=
                     <[he_issue_id handoff := default [] (lg_handoffs g !! he_issue_id handoff) ++
                         [{| hr_event_hash := ad_event_hash adm; hr_handoff := handoff |}]]>
                       (lg_handoffs g);
                   lg_rejections := lg_rejections g |}
      | Err reason => ledger_reject adm reason g
      end
  end.

Definition empty_ledger (rejections : list Rejection) : ledger := {|
  lg_issues := ∅; lg_effective_consumes := ∅; lg_losing_consumes := [];
  lg_handoffs := ∅; lg_rejections := rejections
|}.

Definition phase2 (approvals : gmap string AdmittedApprovalV2) (g : ledger) (ordered : list AdmittedEvent)
    : ledger := foldl (phase2_step approvals) g ordered.

(** ** The abstract transition system *)

(** [status_step actor h k s s']: an event of kind [k], signed by [actor] with
    payload hash [h], moves the status [s] to [s']. *)
Inductive status_step (actor h : string) : TransitionKind → IssueStatusV2 → IssueStatusV2 → Prop :=
  | step_claim nonce :
      status_step actor h (TkClaim nonce) StOpen (StClaimed actor nonce h)
  | step_release nonce claim :
      status_step actor h (TkRelease nonce claim) (StClaimed actor nonce claim) StOpen
  | step_block nonce claim reason :
      status_step actor h (TkBlock nonce claim reason) (StClaimed actor nonce claim)
        (StBlocked actor nonce claim h reason)
  | step_complete nonce claim :
      status_step actor h (TkComplete nonce claim) (StClaimed actor nonce claim) (StDone actor h)
  | step_requeue j claimant claim :
      status_step actor h (TkRequeue j)
        (StBlocked claimant (rj_claim_nonce j) claim (rj_block_event_hash j) AwaitingApproval) StOpen.

Lemma check_claim_fence_Ok i a n h :
  check_claim_fence i a n h = Ok () ↔ is_status i = StClaimed a n h.
Proof.
  unfold check_claim_fence. destruct (is_status i); try (split; discriminate).
  split; [intros; ok_inv; guards; by subst|].
  intros [= -> -> ->]. by rewrite !bool_decide_eq_false_2 by naive_solver.
Qed.

Lemma apply_requeue_Ok i j h i' :
  apply_requeue i j h = Ok i' ↔
  i' = set_status i StOpen h ∧
  ∃ claimant claim, is_status i =
    StBlocked claimant (rj_claim_nonce j) claim (rj_block_event_hash j) AwaitingApproval.
Proof.
  unfold apply_requeue. destruct (is_status i); try (split; [discriminate|naive_solver]).
  split; [intros; ok_inv; guards; subst; eauto|].
  intros (->&cl&c&[= -> -> -> -> ->]). by rewrite !bool_decide_eq_false_2 by naive_solver.
Qed.

Lemma issue_mut_Ok issues id i : issue_mut issues id = Ok i ↔ issues !! id = Some i.
Proof. unfold issue_mut. destruct (issues !! id); simpl; naive_solver. Qed.

(** The outcome [apply_transition] promises on success. *)
Definition transition_result (issues : gmap string IssueStateV2) (adm : AdmittedEvent)
    (ev : TransitionEventV2) (issues' : gmap string IssueStateV2) : Prop :=
  (∃ title spec th sh, tr_kind ev = TkOpen title spec th sh ∧ issues !! tr_issue_id ev = None ∧
     issues' = <[tr_issue_id ev := open_issue adm ev title spec]> issues) ∨
  (∃ issue st, issues !! tr_issue_id ev = Some issue ∧
     status_step (tr_actor ev) (ad_event_hash adm) (tr_kind ev) (is_status issue) st ∧
     issues' = <[tr_issue_id ev := set_status issue st (ad_event_hash adm)]> issues).

Lemma apply_transition_sound issues adm ev issues' :
  apply_transition issues adm ev = Ok issues' → transition_result issues adm ev issues'.
Proof.
  unfold apply_transition, transition_result. destruct (tr_kind ev) eqn:Hk; intros; ok_inv; guards;
    repeat match goal with
    | H : issue_mut _ _ = Ok _ |- _ => apply issue_mut_Ok in H
    | H : check_claim_fence _ _ _ _ = Ok ?u |- _ => destruct u; apply check_claim_fence_Ok in H
    | H : apply_requeue _ _ _ = Ok _ |- _ => apply apply_requeue_Ok in H as (->&?&?&?)
    end.
  2: destruct (is_status a) eqn:Hs; ok_inv.
  2-6: right; match goal with
    | Hi : _ !! _ = Some ?i, Hs : is_status ?i = _ |- _ =>
        exists i; eexists; split_and!; [exact Hi|rewrite Hs; constructor|reflexivity]
    end.
  left. do 4 eexists. split_and!; [done| |done]. by apply eq_None_not_Some.
Qed.

Lemma apply_transition_complete issues adm ev issues' :
  transition_result issues adm ev issues' → apply_transition issues adm ev = Ok issues'.
Proof.
  intros [(t&s&th&sh&Hk&Hn&->)|(i&st&Hi&Hst&->)]; unfold apply_transition.
  - rewrite Hk, Hn. by rewrite bool_decide_eq_false_2 by (by intros []).
  - unfold issue_mut. rewrite Hi. simpl.
    remember (tr_kind ev) as k eqn:Hk. remember (is_status i) as s eqn:Hs.
    destruct Hst as [n|n c|n c r|n c|j cl c]; [done| | | |].
    4: by rewrite (proj2 (apply_requeue_Ok i j (ad_event_hash adm) _)) by eauto.
    all: by rewrite (proj2 (check_claim_fence_Ok i (tr_actor ev) n c)).
Qed.

Lemma apply_transition_iff issues adm ev issues' :
  apply_transition issues adm ev = Ok issues' ↔ transition_result issues adm ev issues'.
Proof. split; [apply apply_transition_sound|apply apply_transition_complete]. Qed.

(** [Done] admits no further transition. *)
Lemma status_step_done a h k who c s : ¬ status_step a h k (StDone who c) s.
Proof. inversion 1. Qed.

(** ** Issue histories *)

(** [issue_run id tr i]: the transitions [tr], in this order, are an opening
    of [id] followed by abstract steps, and leave it in the state [i]. *)
Inductive issue_run (id : string) : list AdmittedEvent → IssueStateV2 → Prop :=
  | run_open adm ev title spec th sh :
      ad_payload adm = PTransition ev → tr_issue_id ev = id →
      tr_kind ev = TkOpen title spec th sh →
      issue_run id [adm] (open_issue adm ev title spec)
  | run_step tr i adm ev st :
      issue_run id tr i →
      ad_payload adm = PTransition ev → tr_issue_id ev = id →
      status_step (tr_actor ev) (ad_event_hash adm) (tr_kind ev) (is_status i) st →
      issue_run id (tr ++ [adm]) (set_status i st (ad_event_hash adm)).

(** [adm] is a claim of [id] by [who] under [nonce], with payload hash [h]. *)
Definition is_claim_of (id who nonce h : string) (adm : AdmittedEvent) : Prop :=
  ∃ ev, ad_payload adm = PTransition ev ∧ tr_issue_id ev = id ∧ tr_actor ev = who ∧
    tr_kind ev = TkClaim nonce ∧ ad_event_hash adm = h.

(** What a status records is backed by events of the history. *)
Definition status_backed (id : string) (tr : list AdmittedEvent) (s : IssueStatusV2) : Prop :=
  match s with
  | StOpen => True
  | StClaimed who nonce h => Exists (is_claim_of id who nonce h) tr
  | StBlocked who nonce h bh reason =>
      Exists (is_claim_of id who nonce h) tr ∧
      Exists (λ adm, ∃ ev, ad_payload adm = PTransition ev ∧ tr_actor ev = who ∧
                ad_event_hash adm = bh ∧ tr_kind ev = TkBlock nonce h reason) tr
  | StDone who dh =>
      ∃ nonce h, Exists (is_claim_of id who nonce h) tr ∧
        Exists (λ adm, ∃ ev, ad_payload adm = PTransition ev ∧ tr_actor ev = who ∧
                  ad_event_hash adm = dh ∧ tr_kind ev = TkComplete nonce h) tr
  end.

Lemma issue_run_applied id tr i : issue_run id tr i → is_applied i = ad_event_hash <$> tr.
Proof.
  induction 1 as [|tr i adm ev st ? IH]; [done|].
  simpl. by rewrite IH, fmap_app.
Qed.

(** Opening data never changes after the opening event. *)
Lemma issue_run_opened id tr i :
  issue_run id tr i → ∃ adm ev title spec th sh rest,
    tr = adm :: rest ∧ ad_payload adm = PTransition ev ∧
    tr_kind ev = TkOpen title spec th sh ∧ tr_issue_id ev = id ∧
    is_issue_id i = id ∧ is_title i = title ∧ is_spec i = spec ∧ is_opened_by i = tr_actor ev ∧
    is_open_event_hash i = ad_event_hash adm.
Proof.
  induction 1 as [adm ev t s th sh|tr i adm ev st ? IH].
  - exists adm, ev, t, s, th, sh, []. by split_and!.
  - destruct IH as (a&e&t&s&th&sh&rest&->&?). exists a, e, t, s, th, sh, (rest ++ [adm]).
    split; [done|]. naive_solver.
Qed.

Lemma status_backed_app id tr tr' s : status_backed id tr s → status_backed id (tr ++ tr') s.
Proof.
  destruct s; simpl; rewrite ?Exists_app; [done|tauto|tauto|].
  intros (n&h&?&?). exists n, h. rewrite !Exists_app. tauto.
Qed.

Lemma issue_run_backed id tr i : issue_run id tr i → status_backed id tr (is_status i).
Proof.
  induction 1 as [|tr i adm ev st Hr IH Hp Hid Hst]; [done|].
  apply (status_backed_app _ _ [adm]) in IH. simpl.
  remember (is_status i) as s eqn:Hs. remember (tr_kind ev) as k eqn:Hk.
  destruct Hst as [n|n c|n c r|n c|j cl c]; simpl in *; [|done| | |done].
  - apply Exists_app. right. constructor. by exists ev.
  - split; [done|]. apply Exists_app. right. constructor. by exists ev.
  - exists n, c. split; [done|]. apply Exists_app. right. constructor. by exists ev.
Qed.

Lemma issue_run_transitions id tr i :
  issue_run id tr i →
  Forall (λ adm, ∃ ev, ad_payload adm = PTransition ev ∧ tr_issue_id ev = id) tr.
Proof.
  induction 1; [by constructor; eauto|]. apply Forall_app; split; [done|].
  constructor; eauto.
Qed.

(** ** The ordered walk, prefix by prefix *)

Lemma phase2_snoc approvals g l a :
  phase2 approvals g (l ++ [a]) = phase2_step approvals (phase2 approvals g l) a.
Proof. unfold phase2. by rewrite foldl_app. Qed.

Lemma phase2_app approvals g l k :
  phase2 approvals g (l ++ k) = phase2 approvals (phase2 approvals g l) k.
Proof. unfold phase2. by rewrite foldl_app. Qed.

(** The issue map after one step. *)
Lemma phase2_step_issues approvals g a :
  lg_issues (phase2_step approvals g a) =
    match ad_payload a with
    | PTransition ev => match apply_transition (lg_issues g) a ev with
                        | Ok m => m | Err _ => lg_issues g end
    | _ => lg_issues g
    end.
Proof. unfold phase2_step. destruct (ad_payload a); repeat case_match; done. Qed.

(** Every folded issue is the result of a run over a subsequence of the
    ordered events. *)
Lemma phase2_issue_run approvals rej ordered id i :
  lg_issues (phase2 approvals (empty_ledger rej) ordered) !! id = Some i →
  ∃ tr, tr `sublist_of` ordered ∧ issue_run id tr i.
Proof.
  revert i. induction ordered as [|a l IH] using rev_ind; intros i; [done|].
  rewrite phase2_snoc, phase2_step_issues.
  assert (Hkeep : lg_issues (phase2 approvals (empty_ledger rej) l) !! id = Some i →
    ∃ tr, tr `sublist_of` (l ++ [a]) ∧ issue_run id tr i).
  { intros (tr&?&?)%IH. exists tr. split; [by apply sublist_inserts_r|done]. }
  destruct (ad_payload a) as [ev| | |] eqn:Hp; try done.
  destruct (apply_transition _ a ev) as [m|] eqn:Ha; [|done].
  apply apply_transition_sound in Ha as [(t&s&th&sh&Hk&Hn&->)|(i0&st&Hi0&Hst&->)];
    (destruct (decide (tr_issue_id ev = id)) as [<-|Hne];
     [rewrite lookup_insert_eq; intros [= <-]|by rewrite lookup_insert_ne]).
  - exists [a]. split; [by apply sublist_inserts_l|]. by eapply run_open.
  - destruct (IH _ Hi0) as (tr&Hsub&Hrun). exists (tr ++ [a]).
    split; [by apply sublist_app|]. by eapply run_step.
Qed.

(** Rejections only grow. *)
Lemma phase2_step_rejections approvals g a :
  lg_rejections g `prefix_of` lg_rejections (phase2_step approvals g a).
Proof.
  unfold phase2_step. destruct (ad_payload a); repeat case_match; simpl;
    try reflexivity; by eexists.
Qed.

Lemma phase2_rejections approvals g l :
  lg_rejections g `prefix_of` lg_rejections (phase2 approvals g l).
Proof.
  induction l as [|a l IH] using rev_ind; [done|].
  rewrite phase2_snoc. etrans; [exact IH|apply phase2_step_rejections].
Qed.

(** A completed issue is final. *)
Lemma phase2_done_final approvals g l id i who h :
  lg_issues g !! id = Some i → is_status i = StDone who h →
  lg_issues (phase2 approvals g l) !! id = Some i.
Proof.
  intros Hi Hs. induction l as [|a l IH] using rev_ind; [done|].
  rewrite phase2_snoc, phase2_step_issues.
  destruct (ad_payload a) as [ev| | |]; try done.
  destruct (apply_transition _ a ev) eqn:Ha; [|done].
  apply apply_transition_sound in Ha as [(t&s&th&sh&Hk&Hn&->)|(i0&st&Hi0&Hst&->)].
  - rewrite lookup_insert_ne; [done|]. intros <-. congruence.
  - destruct (decide (tr_issue_id ev = id)) as [Heq|Hne]; [|by rewrite lookup_insert_ne].
    rewrite Heq, IH in Hi0. injection Hi0 as <-. rewrite Hs in Hst.
    by apply status_step_done in Hst.
Qed.

(** ** Consumes *)

(** When a consume takes effect: it names an admitted approve verdict for this
    issue and this issue content, it is fenced by the current claim, and no
    earlier consume used the approval. *)
Definition consume_effective (issues : gmap string IssueStateV2)
    (approvals : gmap string AdmittedApprovalV2)
    (effective : gmap string EffectiveConsumeV2) (c : ConsumeEventV2) : Prop :=
  ∃ a i,
    approvals !! ce_approval_event_hash c = Some a ∧
    ae_issue_id (aa_approval a) = ce_issue_id c ∧
    ae_actor (aa_approval a) = ce_approver c ∧
    ae_verdict (aa_approval a) = Approve ∧
    issues !! ce_issue_id c = Some i ∧
    ae_open_event_hash (aa_approval a) = is_open_event_hash i ∧
    is_status i = StClaimed (ce_actor c) (ce_claim_nonce c) (ce_claimed_event_hash c) ∧
    effective !! ce_approval_event_hash c = None.

Lemma consume_effectiveness_Ok issues approvals eff c :
  consume_effectiveness issues approvals eff c = Ok () ↔ consume_effective issues approvals eff c.
Proof.
  unfold consume_effectiveness, consume_effective. split.
  - intros H. ok_inv. guards. destruct (is_status a0) eqn:Hs; ok_inv. guards. subst.
    exists a, a0. split_and!; try done. by apply eq_None_not_Some.
  - intros (a&i&Ha&Hid&Hact&Hv&Hi&Ho&Hs&He). rewrite Ha. simpl. rewrite Hi. simpl.
    rewrite !bool_decide_eq_false_2 by (by intros []). rewrite Hs, He.
    rewrite !bool_decide_eq_false_2 by (by try intros []). done.
Qed.

Lemma handoff_fence_Ok issues h :
  handoff_fence issues h = Ok () ↔
  ∃ i, issues !! he_issue_id h = Some i ∧
    is_status i = StClaimed (he_actor h) (he_claim_nonce h) (he_claimed_event_hash h).
Proof.
  unfold handoff_fence. split.
  - intros H. ok_inv. apply check_claim_fence_Ok in H. eauto.
  - intros (i&Hi&Hs). rewrite Hi. simpl. by apply check_claim_fence_Ok.
Qed.

(** The ledger seen by the event that follows the prefix [pre]. *)
Abbreviation ledger_at approvals rej pre := (phase2 approvals (empty_ledger rej) pre).

Lemma phase2_step_effective approvals g a :
  lg_effective_consumes (phase2_step approvals g a) =
    match ad_payload a with
    | PConsume c =>
        match consume_effectiveness (lg_issues g) approvals (lg_effective_consumes g) c with
        | Ok _ => <[ce_approval_event_hash c :=
                      {| ec_event_hash := ad_event_hash a; ec_consume := c |}]>
                    (lg_effective_consumes g)
        | Err _ => lg_effective_consumes g
        end
    | _ => lg_effective_consumes g
    end.
Proof. unfold phase2_step. destruct (ad_payload a); repeat case_match; done. Qed.

(** An effective consume is never replaced. *)
Lemma phase2_effective_mono approvals g l k e :
  lg_effective_consumes g !! k = Some e → lg_effective_consumes (phase2 approvals g l) !! k = Some e.
Proof.
  intros Hk. induction l as [|a l IH] using rev_ind; [done|].
  rewrite phase2_snoc, phase2_step_effective. destruct (ad_payload a) as [| |c|]; try done.
  destruct (consume_effectiveness _ _ _ c) as [[]|] eqn:Hc; [|done].
  apply consume_effectiveness_Ok in Hc as (?&?&_&_&_&_&_&_&_&Hnone).
  rewrite lookup_insert_ne; [done|]. intros <-. congruence.
Qed.

Definition effective_at (approvals : gmap string AdmittedApprovalV2) (g : ledger) (k : string)
    (e : EffectiveConsumeV2) (a : AdmittedEvent) : Prop :=
  ∃ c, ad_payload a = PConsume c ∧ ce_approval_event_hash c = k ∧
    e = {| ec_event_hash := ad_event_hash a; ec_consume := c |} ∧
    consume_effective (lg_issues g) approvals (lg_effective_consumes g) c.

Lemma phase2_step_effective_iff approvals g a k e :
  lg_effective_consumes (phase2_step approvals g a) !! k = Some e ↔
  effective_at approvals g k e a ∨ lg_effective_consumes g !! k = Some e.
Proof.
  rewrite phase2_step_effective. unfold effective_at.
  destruct (ad_payload a) as [| |c|] eqn:Hp; try naive_solver.
  destruct (consume_effectiveness _ _ _ c) as [[]|] eqn:Hc.
  - apply consume_effectiveness_Ok in Hc. pose proof Hc as (_&_&_&_&_&_&_&_&_&Hnone).
    destruct (decide (ce_approval_event_hash c = k)) as [<-|Hne].
    + rewrite lookup_insert_eq, Hnone. naive_solver.
    + rewrite lookup_insert_ne by done. naive_solver.
  - split; [by right|]. intros [(c'&[= <-]&_&_&He)|]; [|done].
    apply consume_effectiveness_Ok in He. congruence.
Qed.

(** The effective consumes are exactly the consumes whose conditions hold at
    their own fold position. *)
Lemma phase2_effective_iff approvals rej ordered k e :
  lg_effective_consumes (ledger_at approvals rej ordered) !! k = Some e ↔
  ∃ pre a post, ordered = pre ++ a :: post ∧
    effective_at approvals (ledger_at approvals rej pre) k e a.
Proof.
  induction ordered as [|a l IH] using rev_ind.
  - split; [done|]. intros (pre&?&?&H&_). by destruct pre.
  - rewrite phase2_snoc, phase2_step_effective_iff, IH.
    rewrite (split_snoc (λ pre a, effective_at approvals (ledger_at approvals rej pre) k e a)).
    tauto.
Qed.

(** ** Handoffs *)

Lemma phase2_step_handoffs approvals g a :
  lg_handoffs (phase2_step approvals g a) =
    match ad_payload a with
    | PHandoff h =>
        match handoff_fence (lg_issues g) h with
        | Ok _ => <[he_issue_id h := default [] (lg_handoffs g !! he_issue_id h) ++
                      [{| hr_event_hash := ad_event_hash a; hr_handoff := h |}]]> (lg_handoffs g)
        | Err _ => lg_handoffs g
        end
    | _ => lg_handoffs g
    end.
Proof. unfold phase2_step. destruct (ad_payload a); repeat case_match; done. Qed.

Definition handoff_at (g : ledger) (id : string) (r : HandoffRecordV2) (a : AdmittedEvent) : Prop :=
  ∃ h i, ad_payload a = PHandoff h ∧ he_issue_id h = id ∧
    r = {| hr_event_hash := ad_event_hash a; hr_handoff := h |} ∧
    lg_issues g !! id = Some i ∧
    is_status i = StClaimed (he_actor h) (he_claim_nonce h) (he_claimed_event_hash h).

Lemma phase2_handoffs_iff approvals rej ordered id r :
  r ∈ default [] (lg_handoffs (ledger_at approvals rej ordered) !! id) ↔
  ∃ pre a post, ordered = pre ++ a :: post ∧ handoff_at (ledger_at approvals rej pre) id r a.
Proof.
  induction ordered as [|a l IH] using rev_ind.
  - split; [by intros ?%elem_of_nil|]. intros (pre&?&?&H&_). by destruct pre.
  - rewrite phase2_snoc.
    rewrite (split_snoc (λ pre a, handoff_at (ledger_at approvals rej pre) id r a)), <-IH, phase2_step_handoffs. clear. unfold handoff_at.
    destruct (ad_payload a) as [| | |h] eqn:Hp; try naive_solver.
    destruct (handoff_fence _ h) as [[]|] eqn:Hf.
    + apply handoff_fence_Ok in Hf as (i&Hi&Hs).
      destruct (decide (he_issue_id h = id)) as [<-|Hne].
      * rewrite lookup_insert_eq. simpl. rewrite elem_of_app, list_elem_of_singleton. naive_solver.
      * rewrite lookup_insert_ne by done. naive_solver.
    + split; [by right|]. intros [(h2&i&[= <-]&<-&_&Hi&Hs)|]; [|done].
      assert (Hok : handoff_fence (lg_issues (ledger_at approvals rej l)) h = Ok ())
        by (apply handoff_fence_Ok; eauto). by rewrite Hok in Hf.
Qed.

(** ** Every event is accounted for *)

(** A later state of the same issue. *)
Record issue_extends (i i' : IssueStateV2) : Prop := {
  ie_id : is_issue_id i' = is_issue_id i;
  ie_title : is_title i' = is_title i;
  ie_spec : is_spec i' = is_spec i;
  ie_open : is_open_event_hash i' = is_open_event_hash i;
  ie_applied : is_applied i `prefix_of` is_applied i'
}.

#[export] Instance issue_extends_preorder : PreOrder issue_extends.
Proof.
  split; [by constructor|].
  intros i j k [] []. constructor; try congruence. by etrans.
Qed.

Lemma set_status_extends i st h : issue_extends i (set_status i st h).
Proof. constructor; try done. simpl. by eexists. Qed.

Lemma phase2_issue_mono approvals g l id i :
  lg_issues g !! id = Some i →
  ∃ i', lg_issues (phase2 approvals g l) !! id = Some i' ∧ issue_extends i i'.
Proof.
  intros Hi. induction l as [|a l IH] using rev_ind; [by exists i|].
  destruct IH as (j&Hj&Hext). rewrite phase2_snoc, phase2_step_issues.
  destruct (ad_payload a) as [ev| | |]; [|by exists j..].
  destruct (apply_transition _ a ev) eqn:Ha; [|by exists j].
  apply apply_transition_sound in Ha as [(t&s&th&sh&Hk&Hn&->)|(i0&st&Hi0&Hst&->)];
    destruct (decide (tr_issue_id ev = id)) as [Heq|Hne];
    [congruence|rewrite lookup_insert_ne by done; by exists j| |
     rewrite lookup_insert_ne by done; by exists j].
  subst. rewrite Hj in Hi0. injection Hi0 as <-. rewrite lookup_insert_eq.
  eexists. split; [done|]. etrans; [done|apply set_status_extends].
Qed.

Definition rejection_of (a : AdmittedEvent) (reason : string) : Rejection :=
  {| re_author := ad_author a; re_key := ad_key a; re_phase := StateMachine; re_reason := reason |}.

(** Where the ordered event [a] shows up in the ledger [g]. *)
Definition accounted (g : ledger) (a : AdmittedEvent) : Prop :=
  match ad_payload a with
  | PTransition ev =>
      (∃ i, lg_issues g !! tr_issue_id ev = Some i ∧ ad_event_hash a ∈ is_applied i) ∨
      (∃ reason, rejection_of a reason ∈ lg_rejections g)
  | PApproval _ => True
  | PConsume c =>
      lg_effective_consumes g !! ce_approval_event_hash c =
        Some {| ec_event_hash := ad_event_hash a; ec_consume := c |} ∨
      (∃ d, d ∈ lg_losing_consumes g ∧ cd_event_hash d = ad_event_hash a ∧
         cd_author d = ad_author a ∧ cd_key d = ad_key a ∧
         cd_approval_event_hash d = ce_approval_event_hash c)
  | PHandoff h =>
      {| hr_event_hash := ad_event_hash a; hr_handoff := h |} ∈
        default [] (lg_handoffs g !! he_issue_id h) ∨
      (∃ reason, rejection_of a reason ∈ lg_rejections g)
  end.

Lemma phase2_step_accounted approvals g a : accounted (phase2_step approvals g a) a.
Proof.
  unfold accounted, phase2_step. destruct (ad_payload a) as [ev| |c|h].
  - destruct (apply_transition _ a ev) as [m|reason] eqn:Ha.
    + left. apply apply_transition_sound in Ha as [(t&s&th&sh&_&_&->)|(i&st&_&_&->)]; simpl;
        rewrite lookup_insert_eq; eexists; (split; [done|]); simpl; set_solver.
    + right. exists reason. simpl. set_solver.
  - done.
  - destruct (consume_effectiveness _ _ _ c); simpl; [left; by rewrite lookup_insert_eq|].
    right. eexists. split; [apply elem_of_app; right; by apply list_elem_of_singleton|done].
  - destruct (handoff_fence _ h) as [|reason]; simpl.
    + left. rewrite lookup_insert_eq. simpl. set_solver.
    + right. exists reason. set_solver.
Qed.

Lemma phase2_step_losing approvals g a :
  lg_losing_consumes g `prefix_of` lg_losing_consumes (phase2_step approvals g a).
Proof.
  unfold phase2_step. destruct (ad_payload a); repeat case_match; simpl;
    try reflexivity; by eexists.
Qed.

Lemma phase2_losing approvals g l :
  lg_losing_consumes g `prefix_of` lg_losing_consumes (phase2 approvals g l).
Proof.
  induction l as [|a l IH] using rev_ind; [done|].
  rewrite phase2_snoc. etrans; [exact IH|apply phase2_step_losing].
Qed.

Lemma phase2_handoffs_mono approvals g l id r :
  r ∈ default [] (lg_handoffs g !! id) →
  r ∈ default [] (lg_handoffs (phase2 approvals g l) !! id).
Proof.
  intros Hr. induction l as [|a l IH] using rev_ind; [done|].
  rewrite phase2_snoc, phase2_step_handoffs. destruct (ad_payload a) as [| | |h]; try done.
  destruct (handoff_fence _ h); [|done].
  destruct (decide (he_issue_id h = id)) as [<-|]; [|by rewrite lookup_insert_ne].
  rewrite lookup_insert_eq. simpl. set_solver.
Qed.

Lemma prefix_elem {A} (x : A) l k : l `prefix_of` k → x ∈ l → x ∈ k.
Proof. intros [z ->] ?. set_solver. Qed.

Lemma accounted_mono approvals g l a : accounted g a → accounted (phase2 approvals g l) a.
Proof.
  unfold accounted. destruct (ad_payload a) as [ev| |c|h].
  - intros [(i&Hi&Hin)|(r&Hr)].
    + left. destruct (phase2_issue_mono approvals g l _ i Hi) as (i'&Hi'&Hext).
      exists i'. split; [done|]. by eapply prefix_elem; [apply Hext|].
    + right. exists r. by eapply prefix_elem; [apply phase2_rejections|].
  - done.
  - intros [He|(d&Hd&?)]; [left; by apply phase2_effective_mono|].
    right. exists d. split; [|done]. by eapply prefix_elem; [apply phase2_losing|].
  - intros [He|(r&Hr)]; [left; by apply phase2_handoffs_mono|].
    right. exists r. by eapply prefix_elem; [apply phase2_rejections|].
Qed.

Lemma phase2_accounted approvals g l a : a ∈ l → accounted (phase2 approvals g l) a.
Proof.
  intros (l1&l2&->)%list_elem_of_split.
  rewrite phase2_app. simpl. apply accounted_mono, phase2_step_accounted.
Qed.

(** ** The approval pre-pass *)

Lemma collect_approvals_snoc l a :
  collect_approvals (l ++ [a]) = collect_approval (collect_approvals l) a.
Proof. unfold collect_approvals. by rewrite foldl_app. Qed.

Lemma collect_approvals_Some l h ap :
  collect_approvals l !! h = Some ap →
  ∃ a, a ∈ l ∧ ad_event_hash a = h ∧ ad_payload a = PApproval (aa_approval ap) ∧
    aa_event_hash ap = h.
Proof.
  induction l as [|a l IH] using rev_ind; [done|].
  rewrite collect_approvals_snoc. unfold collect_approval.
  assert (Hold : collect_approvals l !! h = Some ap → ∃ b, b ∈ l ++ [a] ∧
    ad_event_hash b = h ∧ ad_payload b = PApproval (aa_approval ap) ∧ aa_event_hash ap = h).
  { intros (b&?&?)%IH. exists b. split; [apply elem_of_app; by left|done]. }
  destruct (ad_payload a) as [|ev| |] eqn:Hp; try done.
  destruct (decide (ad_event_hash a = h)) as [<-|Hne]; [|by rewrite lookup_insert_ne].
  rewrite lookup_insert_eq. intros [= <-]. exists a.
  split_and!; try done. apply elem_of_app. right. by apply list_elem_of_singleton.
Qed.

Lemma collect_approvals_is_Some l a ev :
  a ∈ l → ad_payload a = PApproval ev → is_Some (collect_approvals l !! ad_event_hash a).
Proof.
  induction l as [|b l IH] using rev_ind; [by intros ?%elem_of_nil|].
  rewrite collect_approvals_snoc. unfold collect_approval. intros Hin Hp.
  apply elem_of_app in Hin as [Hin|Hin%list_elem_of_singleton].
  - specialize (IH Hin Hp). destruct (ad_payload b); try done.
    rewrite lookup_insert_is_Some. destruct (decide (ad_event_hash b = ad_event_hash a)); auto.
  - subst. rewrite Hp, lookup_insert_eq. by eexists.
Qed.

(** ** The history of an issue within an order of events *)

(** What may happen to an issue next: one that does not exist may be opened,
    one that does may make a step of the transition system. *)
Definition enabled (st : option (list AdmittedEvent * IssueStateV2)) (adm : AdmittedEvent)
    (ev : TransitionEventV2) : Prop :=
  match st with
  | None => ∃ title spec th sh, tr_kind ev = TkOpen title spec th sh
  | Some (_, i) => ∃ s, status_step (tr_actor ev) (ad_event_hash adm) (tr_kind ev) (is_status i) s
  end.

(** [history refused id l st]: after the events [l], in this order, the issue
    [id] has taken the events of the first component of [st] and is in the
    state of the second.  Every transition of [id] in [l] is either taken or,
    where it is not enabled, [refused]; no other event touches the issue. *)
Inductive history (refused : AdmittedEvent → Prop) (id : string) :
    list AdmittedEvent → option (list AdmittedEvent * IssueStateV2) → Prop :=
  | history_nil : history refused id [] None
  | history_other l st adm :
      history refused id l st →
      (∀ ev, ad_payload adm = PTransition ev → tr_issue_id ev ≠ id) →
      history refused id (l ++ [adm]) st
  | history_open l adm ev title spec th sh :
      history refused id l None →
      ad_payload adm = PTransition ev → tr_issue_id ev = id →
      tr_kind ev = TkOpen title spec th sh →
      history refused id (l ++ [adm]) (Some ([adm], open_issue adm ev title spec))
  | history_step l tr i adm ev s :
      history refused id l (Some (tr, i)) →
      ad_payload adm = PTransition ev → tr_issue_id ev = id →
      status_step (tr_actor ev) (ad_event_hash adm) (tr_kind ev) (is_status i) s →
      history refused id (l ++ [adm]) (Some (tr ++ [adm], set_status i s (ad_event_hash adm)))
  | history_refused l st adm ev :
      history refused id l st →
      ad_payload adm = PTransition ev → tr_issue_id ev = id →
      ¬ enabled st adm ev → refused adm →
      history refused id (l ++ [adm]) st.

Lemma history_impl (P Q : AdmittedEvent → Prop) id l st :
  (∀ a, P a → Q a) → history P id l st → history Q id l st.
Proof.
  intros Himp. induction 1; [by constructor|by econstructor|by eapply history_open|
    by eapply history_step|eapply history_refused; eauto].
Qed.

Lemma history_run refused id l tr i :
  history refused id l (Some (tr, i)) → issue_run id tr i ∧ tr `sublist_of` l.
Proof.
  remember (Some (tr, i)) as st eqn:Hst. intros H. revert tr i Hst.
  induction H as [|l st adm H IH Hn|l adm ev t s th sh H _ Hp Hid Hk|l tr i adm ev s H IH Hp Hid Hs|
    l st adm ev H IH Hp Hid Hen Href]; intros tr' i' Heq; simplify_eq.
  - destruct (IH _ _ eq_refl). split; [done|by apply sublist_inserts_r].
  - split; [by eapply run_open|by apply sublist_inserts_l].
  - destruct (IH _ _ eq_refl). split; [by eapply run_step|by apply sublist_app].
  - destruct (IH _ _ eq_refl). split; [done|by apply sublist_inserts_r].
Qed.

(** The transitions of a history's order are exactly those the ledger applies. *)
Lemma enabled_iff issues adm ev (st : option (list AdmittedEvent * IssueStateV2)) :
  issues !! tr_issue_id ev = snd <$> st →
  enabled st adm ev ↔ ∃ issues', transition_result issues adm ev issues'.
Proof.
  intros Hi. unfold transition_result. destruct st as [[tr i]|]; simpl in *; rewrite Hi; split.
  - intros [s Hs]. eexists. right. by eexists i, s.
  - intros (m&[(?&?&?&?&_&?&_)|(i'&s&?&?&_)]); simplify_eq; eauto.
  - intros (t&s&th&sh&Hk). eexists. left. by eexists t, s, th, sh.
  - intros (m&[(t&s&th&sh&Hk&_)|(i'&s&?&_)]); [by exists t, s, th, sh|done].
Qed.

(** Any history of the walked events ends in the ledger's state of the issue. *)
Lemma history_ledger refused approvals rej id l st :
  history refused id l st →
  lg_issues (phase2 approvals (empty_ledger rej) l) !! id = snd <$> st.
Proof.
  induction 1 as [|l st adm H IH Hn|l adm ev t s th sh H IH Hp <- Hk|
    l tr i adm ev s H IH Hp <- Hs|l st adm ev H IH Hp <- Hen Href];
    [done|rewrite phase2_snoc, phase2_step_issues; simpl in *..].
  - destruct (ad_payload adm) as [ev| | |]; try done. specialize (Hn ev eq_refl).
    destruct (apply_transition _ adm ev) as [m|] eqn:Ha; [|done].
    apply apply_transition_sound in Ha as [(?&?&?&?&_&_&->)|(?&?&_&_&->)];
      by rewrite lookup_insert_ne.
  - rewrite Hp. set (m := lg_issues _) in *.
    rewrite (proj2 (apply_transition_iff m adm ev (<[tr_issue_id ev := open_issue adm ev t s]> m)));
      [by rewrite lookup_insert_eq|]. left. by eexists t, s, th, sh.
  - rewrite Hp. set (m := lg_issues _) in *.
    rewrite (proj2 (apply_transition_iff m adm ev
      (<[tr_issue_id ev := set_status i s (ad_event_hash adm)]> m)));
      [by rewrite lookup_insert_eq|]. right. by eexists i, s.
  - rewrite Hp. destruct (apply_transition _ adm ev) as [m|] eqn:Ha; [|done].
    apply apply_transition_sound in Ha. exfalso. apply Hen. by eapply enabled_iff; eauto.
Qed.

(** The events a ledger has rejected in its walk. *)
Definition refused_in (rejections : list Rejection) (adm : AdmittedEvent) : Prop :=
  ∃ reason, rejection_of adm reason ∈ rejections.

(** The walk gives every issue a history. *)
Lemma phase2_history approvals rej id l :
  ∃ st, history (refused_in (lg_rejections (phase2 approvals (empty_ledger rej) l))) id l st.
Proof.
  induction l as [|a l (st&IH)] using rev_ind; [exists None; constructor|].
  pose proof (history_ledger _ approvals rej _ _ _ IH) as Hst.
  set (g := phase2 approvals (empty_ledger rej) l) in *.
  assert (Hmono : ∀ b, refused_in (lg_rejections g) b →
    refused_in (lg_rejections (phase2_step approvals g a)) b).
  { intros b [r Hr]. exists r. by eapply prefix_elem; [apply phase2_step_rejections|]. }
  rewrite phase2_snoc. fold g. apply (history_impl _ _ _ _ _ Hmono) in IH. clear Hmono.
  destruct (ad_payload a) as [ev| | |] eqn:Hp; [|exists st; constructor; [done|congruence]..].
  destruct (decide (tr_issue_id ev = id)) as [<-|Hne];
    [|exists st; apply history_other; [done|congruence]].
  destruct (apply_transition (lg_issues g) a ev) as [m|reason] eqn:Ha.
  - apply apply_transition_sound in Ha as [(t&s&th&sh&Hk&Hn&_)|(i&s&Hi&Hs&_)].
    + destruct st as [[tr i]|]; simpl in Hst; [congruence|].
      eexists. by eapply history_open.
    + destruct st as [[tr i']|]; simpl in Hst; [|congruence].
      rewrite Hst in Hi. injection Hi as ->. eexists. by eapply history_step.
  - exists st. eapply history_refused; [done|done|done| |].
    + rewrite (enabled_iff _ _ _ _ Hst). intros (m&Hm%apply_transition_complete). congruence.
    + exists reason. unfold phase2_step. rewrite Hp, Ha. simpl.
      apply elem_of_app. right. by apply list_elem_of_singleton.
Qed.

(** A prefix of a history is a history. *)
Lemma history_prefix refused id l k st :
  history refused id (l ++ k) st → ∃ st', history refused id l st'.
Proof.
  revert st. induction k as [|a k IH] using rev_ind; intros st; [rewrite app_nil_r; eauto|].
  rewrite app_assoc. remember ((l ++ k) ++ [a]) as m eqn:Hm. intros H.
  destruct H as [|m st adm H _|m adm ev t s th sh H _ _ _|m tr i adm ev s H _ _ _|m st adm ev H _ _ _ _];
    [by destruct (app_cons_not_nil (l ++ k) [] a)|..]; apply app_inj_tail in Hm as [-> _]; eauto.
Qed.

(** ** Properties *)

(** [apply_transition] implements the abstract transition system exactly:
    it succeeds just when the event opens a fresh issue or is a [status_step]
    from the issue's current status, and then changes that issue only; in
    particular a release, block or completion succeeds only for the claimant
    with the current nonce and claim hash. *)
Theorem apply_transition_refines (issues : gmap string IssueStateV2) (adm : AdmittedEvent)
    (ev : TransitionEventV2) (issues' : gmap string IssueStateV2) :
  apply_transition issues adm ev = Ok issues' ↔ transition_result issues adm ev issues'.
Proof. apply apply_transition_iff. Qed.

(** Claims are exclusive: of two claims of an open issue the first in fold
    order wins, the issue is then claimed by its actor under its nonce, and the
    other is rejected without changing the ledger's state. *)
Theorem first_claim_wins (approvals : gmap string AdmittedApprovalV2) (g : ledger)
    (a b : AdmittedEvent) (ea eb : TransitionEventV2) (na nb : string) (i : IssueStateV2) :
  ad_payload a = PTransition ea → tr_kind ea = TkClaim na →
  ad_payload b = PTransition eb → tr_kind eb = TkClaim nb → tr_issue_id eb = tr_issue_id ea →
  lg_issues g !! tr_issue_id ea = Some i → is_status i = StOpen →
  let g1 := phase2 approvals g [a] in
  lg_issues g1 !! tr_issue_id ea =
    Some (set_status i (StClaimed (tr_actor ea) na (ad_event_hash a)) (ad_event_hash a)) ∧
  phase2 approvals g [a; b] = ledger_reject b "issue is not claimable" g1.
Proof.
  intros Hpa Hka Hpb Hkb Hid Hi Hs. unfold phase2. cbn [foldl]. cbv zeta.
  set (issue' := set_status i (StClaimed (tr_actor ea) na (ad_event_hash a)) (ad_event_hash a)).
  assert (Happ : apply_transition (lg_issues g) a ea = Ok (<[tr_issue_id ea := issue']> (lg_issues g))).
  { apply apply_transition_iff. right. exists i. eexists. split_and!; [done| |reflexivity].
    rewrite Hka, Hs. constructor. }
  assert (Hg1 : lg_issues (phase2_step approvals g a) = <[tr_issue_id ea := issue']> (lg_issues g))
    by (by rewrite phase2_step_issues, Hpa, Happ).
  split; [by rewrite Hg1, lookup_insert_eq|].
  set (g1 := phase2_step approvals g a) in *. unfold phase2_step. rewrite Hpb.
  unfold apply_transition. rewrite Hkb, Hid, Hg1. unfold issue_mut. by rewrite lookup_insert_eq.
Qed.

(** Completion is final: whatever events follow in fold order, a completed
    issue keeps its state. *)
Theorem done_is_final (approvals : gmap string AdmittedApprovalV2) (g : ledger)
    (l : list AdmittedEvent) (id who h : string) (i : IssueStateV2) :
  lg_issues g !! id = Some i → is_status i = StDone who h →
  lg_issues (phase2 approvals g l) !! id = Some i.
Proof. apply phase2_done_final. Qed.

(** The consume ledger is exact: an approval is recorded as consumed by [e]
    if and only if some consume event, at its own fold position, met every
    condition (known approve verdict for this issue and content, by the named
    approver; current claim held by the consumer; approval unspent). *)
Theorem consume_ledger_exact (approvals : gmap string AdmittedApprovalV2) (rej : list Rejection)
    (ordered : list AdmittedEvent) (k : string) (e : EffectiveConsumeV2) :
  lg_effective_consumes (ledger_at approvals rej ordered) !! k = Some e ↔
  ∃ pre a post, ordered = pre ++ a :: post ∧
    effective_at approvals (ledger_at approvals rej pre) k e a.
Proof. apply phase2_effective_iff. Qed.

(** The handoff ledger is exact: a handoff is recorded for an issue if and
    only if its author held the issue's claim at its fold position. *)
Lemma handoff_ledger_exact (approvals : gmap string AdmittedApprovalV2) (rej : list Rejection)
    (ordered : list AdmittedEvent) (id : string) (r : HandoffRecordV2) :
  r ∈ default [] (lg_handoffs (ledger_at approvals rej ordered) !! id) ↔
  ∃ pre a post, ordered = pre ++ a :: post ∧ handoff_at (ledger_at approvals rej pre) id r a.
Proof. apply phase2_handoffs_iff. Qed.

(** ** Witnesses *)

Definition claim_event (actor nonce : string) : TransitionEventV2 := {|
  tr_schema := V2_SCHEMA; tr_list_uuid := "u"; tr_genesis_manifest_hash := "g";
  tr_roster_epoch := 0; tr_issue_id := "i"; tr_actor := actor; tr_lamport := 2;
  tr_author_seq := 1; tr_prev_own_event_hash := "g"; tr_kind := TkClaim nonce |}.

Definition claim_adm (actor nonce h : string) : AdmittedEvent := {|
  ad_author := actor; ad_key := "k"; ad_event_hash := h; ad_lamport := 2; ad_author_seq := 1;
  ad_prev_own_event_hash := "g"; ad_payload := PTransition (claim_event actor nonce) |}.

Definition sample_issue (s : IssueStatusV2) : IssueStateV2 := {|
  is_issue_id := "i"; is_title := "t"; is_spec := "s"; is_opened_by := "o";
  is_open_event_hash := "h0"; is_status := s; is_applied := ["h0"] |}.

Definition sample_ledger (s : IssueStatusV2) : ledger := {|
  lg_issues := {["i" := sample_issue s]}; lg_effective_consumes := ∅; lg_losing_consumes := [];
  lg_handoffs := ∅; lg_rejections := [] |}.

Lemma first_claim_wins_witness :
  let g1 := phase2 ∅ (sample_ledger StOpen) [claim_adm "x" "n1" "h1"] in
  lg_issues g1 !! "i" = Some (set_status (sample_issue StOpen) (StClaimed "x" "n1" "h1") "h1") ∧
  phase2 ∅ (sample_ledger StOpen) [claim_adm "x" "n1" "h1"; claim_adm "y" "n2" "h2"] =
    ledger_reject (claim_adm "y" "n2" "h2") "issue is not claimable" g1.
Proof.
  exact (first_claim_wins ∅ (sample_ledger StOpen) (claim_adm "x" "n1" "h1") (claim_adm "y" "n2" "h2")
    (claim_event "x" "n1") (claim_event "y" "n2") "n1" "n2" (sample_issue StOpen)
    eq_refl eq_refl eq_refl eq_refl eq_refl eq_refl eq_refl).
Defined.

Lemma done_is_final_witness :
  lg_issues (phase2 ∅ (sample_ledger (StDone "x" "h")) [claim_adm "y" "n2" "h2"]) !! "i" =
  Some (sample_issue (StDone "x" "h")).
Proof.
  exact (done_is_final ∅ (sample_ledger (StDone "x" "h")) [claim_adm "y" "n2" "h2"] "i" "x" "h"
    (sample_issue (StDone "x" "h")) eq_refl eq_refl).
Defined.
