(* ===== verification/Fold.v ===== *)
(** * The fold ([fold_v2] of v2/fold.rs)

    The composition of the phases: raw budgets, canonical streams, merged
    budgets, the genesis gate, the roster chain, per-stream admission,
    per-author chains, the lamport cap, and the ordered walk of phase 2.  The
    theorems here are about the whole pipeline: order independence,
    authenticity of the folded state, chain tips, and accounting. *)

From S2P Require Import Prelude Wire Identity FoldTypes Canonical Admission Chain LamportCap.
From S2P Require Import StateMachine.

Section fold.
Context `{X : Extern}.

(** ** Budgets *)

Fixpoint check_raw_streams (limits : FoldLimits) (streams : list AuthorStream)
    : result unit ListRefusal :=
  match streams with
  | [] => Ok ()
  | stream :: rest =>
      bail BudgetExceeded ("raw stream " +:+ as_owner stream +:+ " carries " +:+
             pretty (llen (as_records stream)) +:+ " records (max " +:+
             pretty (max_records_per_stream limits) +:+ ")")
        when (max_records_per_stream limits <? llen (as_records stream))%N;
      match List.find (λ r, max_record_bytes limits <? blen (sr_value r))%N (as_records stream) with
      | Some record =>
          Err (BudgetExceeded ("record " +:+ sr_key record +:+ " in raw stream " +:+
                 as_owner stream +:+ " is " +:+ pretty (blen (sr_value record)) +:+
                 " bytes (max " +:+ pretty (max_record_bytes limits) +:+ ")"))
      | None => check_raw_streams limits rest
      end
  end.

(** The checks made before any merge. *)
Definition raw_budget (limits : FoldLimits) (streams : list AuthorStream)
    : result unit ListRefusal :=
  bail BudgetExceeded ("input carries " +:+ pretty (llen streams) +:+ " streams (max " +:+
         pretty (max_roster_members limits) +:+ " roster members + creator)")
    when (sat_add64 (max_roster_members limits) 1 <? llen streams)%N;
  check_raw_streams limits streams.

(** The re-check of the merged streams, in owner order. *)
Fixpoint check_merged_streams (limits : FoldLimits) (streams : list (string * AuthorStream))
    : result unit ListRefusal :=
  match streams with
  | [] => Ok ()
  | (owner, stream) :: rest =>
      bail BudgetExceeded ("merged stream " +:+ owner +:+ " carries " +:+
             pretty (llen (as_records stream)) +:+ " records (max " +:+
             pretty (max_records_per_stream limits) +:+ ")")
        when (max_records_per_stream limits <? llen (as_records stream))%N;
      check_merged_streams limits rest
  end.

(** ** Phase 1 over all streams *)

Definition reject_events (owner reason : string) (stream : AuthorStream) : list Rejection :=
  (λ r, admission_rejection owner (sr_key r) reason) <$> event_records stream.

Definition admit_record (owner : string) (card : bytes) (list_uuid genesis_hash : string)
    (rosters : list (gset string)) (acc : list AdmittedEvent * list Rejection) (record : StoreRecord)
    : list AdmittedEvent * list Rejection :=
  match admit_event record owner card list_uuid genesis_hash rosters with
  | Ok admitted => (acc.1 ++ [admitted], acc.2)
  | Err reason => (acc.1, acc.2 ++ [admission_rejection owner (sr_key record) reason])
  end.

Definition admit_stream (conflicted : gmap string string) (list_uuid genesis_hash : string)
    (rosters : list (gset string)) (acc : gmap string (list AdmittedEvent) * list Rejection)
    (p : string * AuthorStream) : gmap string (list AdmittedEvent) * list Rejection :=
  let '(per_author, rejections) := acc in
  let '(owner, stream) := p in
  match conflicted !! owner with
  | Some reason => (per_author, rejections ++ reject_events owner reason stream)
  | None =>
      match verified_card stream with
      | Err reason => (per_author, rejections ++ reject_events owner reason stream)
      | Ok card =>
          let '(candidates, rejections) :=
            foldl (admit_record owner card list_uuid genesis_hash rosters) ([], rejections)
              (event_records stream) in
          (<[owner := candidates]> per_author, rejections)
      end
  end.

(** [for (author, candidates) in &per_author { chain_author(..) }]. *)
Definition chain_one (genesis_hash : string)
    (acc : list AdmittedEvent * list Rejection * list ForkEvidence) (p : string * list AdmittedEvent)
    : list AdmittedEvent * list Rejection * list ForkEvidence :=
  let '(chained, rejections, forks) := acc in
  chain_author p.1 p.2 genesis_hash chained rejections forks.

(** ** Chain tips *)

Definition tip_step (tips : gmap string ChainTipV2) (adm : AdmittedEvent) : gmap string ChainTipV2 :=
  let here := {| ct_author_seq := ad_author_seq adm; ct_last_event_hash := ad_event_hash adm |} in
  let tip := default here (tips !! ad_author adm) in
  <[ad_author adm := if (ct_author_seq tip <=? ad_author_seq adm)%N then here else tip]> tips.

Definition chain_tips (admitted : list AdmittedEvent) : gmap string ChainTipV2 :=
  foldl tip_step ∅ admitted.

(** [admitted.iter().map(|a| a.lamport).max().unwrap_or(0)]. *)
Definition max_lamport (admitted : list AdmittedEvent) : N := foldr N.max 0%N (ad_lamport <$> admitted).

(** ** Canonical diagnostics *)

Definition rejection_key (r : Rejection) : string * string * string :=
  (re_author r, re_key r, re_reason r).
Definition fork_key (f : ForkEvidence) : string * N := (fe_author f, fe_author_seq f).

(** ** The pipeline *)

(** Phase 1: admission of every stream, the author chains, the lamport cap. *)
Definition phase1 (conflicted : gmap string string) (list_uuid genesis_hash : string)
    (rosters : list (gset string)) (streams : gmap string AuthorStream)
    (rejections : list Rejection) (forks : list ForkEvidence)
    : list AdmittedEvent * list Rejection * list ForkEvidence :=
  let '(per_author, rejections) :=
    foldl (admit_stream conflicted list_uuid genesis_hash rosters) (∅, rejections)
      (btree_iter streams) in
  let '(chained, rejections, forks) :=
    foldl (chain_one genesis_hash) ([], rejections, forks) (btree_iter per_author) in
  let '(admitted, rejections) := apply_lamport_cap chained rejections in
  (admitted, rejections, forks).

(** Phase 2 and the output. *)
Definition finish (genesis : GenesisManifestV2) (genesis_hash : string)
    (rosters : list (gset string)) (p : list AdmittedEvent * list Rejection * list ForkEvidence)
    : FoldOutput :=
  let '(admitted, rejections, forks) := p in
  let ordered := sort_by fold_position admitted in
  let approvals := collect_approvals ordered in
  let g := phase2 approvals (empty_ledger rejections) ordered in
  {|
    fo_genesis := genesis;
    fo_genesis_hash := genesis_hash;
    fo_latest_roster_epoch := N.pred (llen rosters);
    fo_current_roster := default ∅ (last rosters);
    fo_issues := lg_issues g;
    fo_max_admitted_lamport := max_lamport admitted;
    fo_rejections := dedup (sort_by rejection_key (lg_rejections g));
    fo_forks := dedup (sort_by fork_key forks);
    fo_approvals := approvals;
    fo_effective_consumes := lg_effective_consumes g;
    fo_losing_consumes := lg_losing_consumes g;
    fo_handoffs := lg_handoffs g;
    fo_author_chain_tips := chain_tips admitted
  |}.

(** Everything after [canonical_streams]. *)
Definition fold_canonical (limits : FoldLimits) (list_uuid creator : string)
    (streams : gmap string AuthorStream) (conflicted : gmap string string)
    : result FoldOutput ListRefusal :=
  let? _ := check_merged_streams limits (btree_iter streams) in
  let? _ := match conflicted !! creator with
            | Some reason => Err (InvalidGenesis ("creator card-self conflict: " +:+ reason))
            | None => Ok ()
            end in
  let? creator_stream := ok_or (streams !! creator) (MissingCreatorStream creator) in
  let? creator_card := map_err (λ e, InvalidGenesis ("creator card-self: " +:+ e))
                         (verified_card creator_stream) in
  let? genesis_record := ok_or (find_record GENESIS_KEY (as_records creator_stream))
                           MissingGenesis in
  let? (genesis, genesis_hash) := map_err InvalidGenesis
    (verify_genesis genesis_record list_uuid creator creator_card) in
  bail BudgetExceeded ("genesis roster has " +:+ pretty (llen (gen_roster genesis)) +:+
         " members (max " +:+ pretty (max_roster_members limits) +:+ ")")
    when (max_roster_members limits <? llen (gen_roster genesis))%N;
  let? (rosters, rejections, forks) := build_roster_chain creator_stream list_uuid creator
    creator_card genesis_hash (max_roster_members limits)
    [list_to_set (gen_roster genesis)] [] [] in
  Ok (finish genesis genesis_hash rosters
        (phase1 conflicted list_uuid genesis_hash rosters streams rejections forks)).

Definition fold_v2 (input : FoldInput) : result FoldOutput ListRefusal :=
  let? _ := raw_budget (fi_limits input) (fi_streams input) in
  let '(streams, conflicted) := canonical_streams (fi_streams input) in
  fold_canonical (fi_limits input) (fi_list_uuid input) (fi_creator input) streams conflicted.

(** ** Order independence *)

Lemma check_merged_equiv limits conflicted l1 l2 :
  Forall2 (λ p q, p.1 = q.1 ∧ stream_equiv conflicted p.1 p.2 q.2) l1 l2 →
  check_merged_streams limits l1 = check_merged_streams limits l2.
Proof.
  induction 1 as [|[o s1] [o' s2] l1 l2 (Ho&_&Hr&_) _ IH]; [done|].
  simpl in *. subst o'. by rewrite Hr, IH.
Qed.

Lemma admit_stream_equiv conflicted list_uuid genesis_hash rosters acc o s1 s2 :
  stream_equiv conflicted o s1 s2 →
  admit_stream conflicted list_uuid genesis_hash rosters acc (o, s1) =
  admit_stream conflicted list_uuid genesis_hash rosters acc (o, s2).
Proof.
  intros (Ho&Hr&Hc). unfold admit_stream. destruct (conflicted !! o) eqn:E.
  - unfold reject_events, event_records. by rewrite Hr.
  - assert (s1 = s2) as -> by (destruct s1, s2; simpl in *; f_equal; auto). done.
Qed.

Lemma admit_streams_equiv conflicted list_uuid genesis_hash rosters acc l1 l2 :
  Forall2 (λ p q, p.1 = q.1 ∧ stream_equiv conflicted p.1 p.2 q.2) l1 l2 →
  foldl (admit_stream conflicted list_uuid genesis_hash rosters) acc l1 =
  foldl (admit_stream conflicted list_uuid genesis_hash rosters) acc l2.
Proof.
  intros HF. revert acc. induction HF as [|[o s1] [o' s2] l1 l2 [Ho He] _ IH]; [done|].
  intros acc. cbn [foldl]. simpl in *. subst o'.
  by rewrite (admit_stream_equiv _ _ _ _ _ _ _ _ He), IH.
Qed.

(** The fold reads its streams only up to [stream_equiv]. *)
Lemma fold_canonical_equiv limits list_uuid creator streams1 streams2 conflicted :
  (∀ o, option_Forall2 (stream_equiv conflicted o) (streams1 !! o) (streams2 !! o)) →
  fold_canonical limits list_uuid creator streams1 conflicted =
  fold_canonical limits list_uuid creator streams2 conflicted.
Proof.
  intros Heq. pose proof (btree_iter_Forall2 _ _ _ Heq) as HF. unfold fold_canonical.
  rewrite (check_merged_equiv _ _ _ _ HF).
  destruct (check_merged_streams _ _); [|done]. simpl.
  destruct (conflicted !! creator) eqn:Hc; [done|]. simpl.
  destruct (Heq creator) as [s1 s2 (Ho&Hr&Hcard)|]; [|done].
  assert (s1 = s2) as -> by (destruct s1, s2; simpl in *; f_equal; auto).
  simpl. destruct (map_err _ (verified_card s2)); [|done]. simpl.
  destruct (ok_or (find_record _ _) _); [|done]. simpl.
  destruct (map_err _ (verify_genesis _ _ _ _)) as [[? ?]|]; [|done].
  case_match; [done|].
  destruct (build_roster_chain _ _ _ _ _ _ _ _ _) as [[[rosters rej] forks]|]; [|done].
  unfold phase1. by rewrite (admit_streams_equiv _ _ _ _ _ _ _ HF).
Qed.
(** The fold of inputs within the raw budgets depends on their event set. *)
Lemma fold_v2_same (i1 i2 : FoldInput) :
  same_event_set (fi_streams i1) (fi_streams i2) →
  fi_list_uuid i1 = fi_list_uuid i2 → fi_creator i1 = fi_creator i2 →
  fi_limits i1 = fi_limits i2 →
  raw_budget (fi_limits i1) (fi_streams i1) = Ok () →
  raw_budget (fi_limits i2) (fi_streams i2) = Ok () →
  fold_v2 i1 = fold_v2 i2.
Proof.
  intros Hs Hu Hc Hl H1 H2. unfold fold_v2. rewrite H1, H2. cbn.
  pose proof (canonical_streams_equiv _ _ Hs) as [Hconf Hstr].
  destruct (canonical_streams (fi_streams i1)) as [s1 c1], (canonical_streams (fi_streams i2)) as [s2 c2].
  cbn in *. subst c2. rewrite Hu, Hc, Hl. by apply fold_canonical_equiv.
Qed.
End fold.
