(* ===== verification/FoldRun.v ===== *)
(** * What a successful fold establishes

    Lemmas about the phases of [fold_v2] as the pipeline runs them: admission
    over all streams, the author chains of the whole list, the lamport cap on
    their union, the chain tips, and the record [fold_facts] that collects what
    an [Ok] result guarantees. *)

From S2P Require Import Prelude Wire Identity FoldTypes Canonical Admission RosterChain Chain.
From S2P Require Import LamportCap StateMachine Fold.

(** Rejections that point at a record. *)
Definition rejects (o key : string) (x : Rejection) : Prop := re_author x = o ∧ re_key x = key.

Section run.
Context `{X : Extern}.

(** [serde] decodes [author_seq] into a [u64]. *)
Class ExternLaws : Prop := {
  decoded_seq_u64 : ∀ p payload, p_decodes p payload → (p_author_seq p ≤ u64_max)%N
}.

(** ** Admission of one stream and of all streams *)

Lemma admit_records_spec owner card list_uuid gh rosters l acc :
  ∃ k rej,
    foldl (admit_record owner card list_uuid gh rosters) acc l = (acc.1 ++ k, acc.2 ++ rej) ∧
    (∀ a, a ∈ k → ∃ r, r ∈ l ∧ admit_event r owner card list_uuid gh rosters = Ok a) ∧
    (∀ r, r ∈ l →
       (∃ a, a ∈ k ∧ admit_event r owner card list_uuid gh rosters = Ok a) ∨
       (∃ x, x ∈ rej ∧ rejects owner (sr_key r) x)).
Proof.
  induction l as [|r l IH] using rev_ind.
  - exists [], []. rewrite !app_nil_r. split_and!; [by destruct acc|..];
      intros ? ?%elem_of_nil; done.
  - destruct IH as (k&rej&Heq&Hk&Hl). rewrite foldl_snoc, Heq. unfold admit_record at 1. simpl.
    destruct (admit_event r owner card list_uuid gh rosters) as [a|reason] eqn:Ha.
    + exists (k ++ [a]), rej. rewrite app_assoc. split_and!; [done| |].
      * intros b [Hb|Hb%list_elem_of_singleton]%elem_of_app; [|subst b; set_solver].
        destruct (Hk b Hb) as (r'&?&?). exists r'. set_solver.
      * intros r' [Hr|Hr%list_elem_of_singleton]%elem_of_app; [|subst r'; left; exists a; set_solver].
        destruct (Hl r' Hr) as [(b&?&?)|(x&?&?)]; [left; exists b; set_solver|right; by exists x].
    + exists k, (rej ++ [admission_rejection owner (sr_key r) reason]). rewrite app_assoc.
      split_and!; [done| |].
      * intros b Hb. destruct (Hk b Hb) as (r'&?&?). exists r'. set_solver.
      * intros r' [Hr|Hr%list_elem_of_singleton]%elem_of_app; [|subst r'].
        -- destruct (Hl r' Hr) as [?|(x&?&?)]; [by left|right; exists x; set_solver].
        -- right. eexists. split; [apply elem_of_app; right; by apply list_elem_of_singleton|done].
Qed.

Lemma reject_events_spec owner reason s r :
  r ∈ event_records s → ∃ x, x ∈ reject_events owner reason s ∧ rejects owner (sr_key r) x.
Proof. intros Hr. eexists. split; [by apply list_elem_of_fmap_2|done]. Qed.

(** The candidates of one owner come from records that verify under its card. *)
Definition owner_candidates (list_uuid gh : string) (rosters : list (gset string))
    (o : string) (s : AuthorStream) (cands : list AdmittedEvent) : Prop :=
  ∃ card, verified_card s = Ok card ∧
    ∀ a, a ∈ cands → ∃ r, r ∈ event_records s ∧ admit_event r o card list_uuid gh rosters = Ok a.

Definition record_outcome (list_uuid gh : string) (rosters : list (gset string)) (o : string)
    (m : gmap string (list AdmittedEvent)) (rej : list Rejection) (r : StoreRecord) : Prop :=
  (∃ a card, a ∈ default [] (m !! o) ∧ authentic o card list_uuid gh rosters r a) ∨
  (∃ x, x ∈ rej ∧ rejects o (sr_key r) x).

Lemma admit_stream_spec conflicted list_uuid gh rosters m rej o s :
  m !! o = None →
  ∃ rej' m',
    admit_stream conflicted list_uuid gh rosters (m, rej) (o, s) = (m', rej ++ rej') ∧
    (∀ o', o' ≠ o → m' !! o' = m !! o') ∧
    (∀ cands, m' !! o = Some cands → owner_candidates list_uuid gh rosters o s cands) ∧
    (∀ r, r ∈ event_records s → record_outcome list_uuid gh rosters o m' rej' r).
Proof.
  intros Hn. unfold admit_stream.
  assert (Hrej : ∀ reason, ∃ rej' m',
    (m, rej ++ reject_events o reason s) = (m', rej ++ rej') ∧
    (∀ o', o' ≠ o → m' !! o' = m !! o') ∧
    (∀ cands, m' !! o = Some cands → owner_candidates list_uuid gh rosters o s cands) ∧
    (∀ r, r ∈ event_records s → record_outcome list_uuid gh rosters o m' rej' r)).
  { intros reason. exists (reject_events o reason s), m. split_and!; try done; [congruence|].
    intros r Hr. right. by apply reject_events_spec. }
  destruct (conflicted !! o); [apply Hrej|].
  destruct (verified_card s) as [card|] eqn:Hc; [|apply Hrej].
  destruct (admit_records_spec o card list_uuid gh rosters (event_records s) ([], rej))
    as (k&rej'&->&Hk&Hl). simpl.
  exists rej', (<[o := k]> m). split_and!; try done.
  - intros o' Hne. by rewrite lookup_insert_ne.
  - intros cands. rewrite lookup_insert_eq. intros [= <-]. by exists card.
  - intros r Hr. destruct (Hl r Hr) as [(a&?&?)|?]; [left|by right].
    exists a, card. rewrite lookup_insert_eq. split; [done|]. by apply admit_event_Ok.
Qed.

Lemma admit_streams_spec conflicted list_uuid gh rosters l m rej :
  NoDup l.*1 → (∀ o, o ∈ l.*1 → m !! o = None) →
  ∃ m' rej',
    foldl (admit_stream conflicted list_uuid gh rosters) (m, rej) l = (m', rej ++ rej') ∧
    (∀ o, o ∉ l.*1 → m' !! o = m !! o) ∧
    (∀ o s cands, (o, s) ∈ l → m' !! o = Some cands →
       owner_candidates list_uuid gh rosters o s cands) ∧
    (∀ o s r, (o, s) ∈ l → r ∈ event_records s → record_outcome list_uuid gh rosters o m' rej' r).
Proof.
  revert m rej. induction l as [|[o s] l IH]; intros m rej Hnd Hm.
  - exists m, []. rewrite app_nil_r. split_and!; try done; by intros ??? ?%elem_of_nil.
  - simpl in Hnd. apply NoDup_cons in Hnd as [Hno Hnd].
    destruct (admit_stream_spec conflicted list_uuid gh rosters m rej o s)
      as (rej1&m1&Heq&Hother&Hown&Hrec); [apply Hm; set_solver|].
    cbn [foldl]. rewrite Heq.
    destruct (IH m1 (rej ++ rej1) Hnd) as (m2&rej2&->&Ho2&Hc2&Hr2).
    { intros o' Ho'. rewrite Hother by (intros ->; done). apply Hm. set_solver. }
    exists m2, (rej1 ++ rej2). rewrite app_assoc. split_and!; [done| | |].
    + intros o' Ho'. rewrite Ho2, Hother by set_solver. done.
    + intros o' s' cands [[= -> ->]|Hin]%elem_of_cons Hl; [|by eapply Hc2].
      apply Hown. by rewrite <-Ho2.
    + intros o' s' r [[= -> ->]|Hin]%elem_of_cons Hr.
      * destruct (Hrec r Hr) as [(a&card&?&?)|(x&?&?)];
          [left; exists a, card; by rewrite Ho2|right; exists x; set_solver].
      * destruct (Hr2 _ _ _ Hin Hr) as [?|(x&?&?)]; [by left|right; exists x; set_solver].
Qed.

(** ** The chains of all authors *)

Definition author_events (o : string) (l : list AdmittedEvent) : list AdmittedEvent :=
  filter (λ c, ad_author c = o) l.

Lemma elem_of_author_events o l c : c ∈ author_events o l ↔ ad_author c = o ∧ c ∈ l.
Proof. unfold author_events. by rewrite list_elem_of_filter. Qed.

Lemma author_events_same o l : (∀ c, c ∈ l → ad_author c = o) → author_events o l = l.
Proof.
  intros H. induction l as [|c l IH]; [done|]. unfold author_events.
  rewrite filter_cons_True by (apply H; set_solver). f_equal. apply IH. set_solver.
Qed.

Lemma author_events_other o l : (∀ c, c ∈ l → ad_author c ≠ o) → author_events o l = [].
Proof.
  intros H. induction l as [|c l IH]; [done|]. unfold author_events.
  rewrite filter_cons_False by (apply H; set_solver). apply IH. set_solver.
Qed.

Lemma author_events_app o l k : author_events o (l ++ k) = author_events o l ++ author_events o k.
Proof. apply filter_app. Qed.

(** [c], or a record with the same payload hash, is in [l] or rejected. *)
Definition kept_or_rejected (o : string) (cs l : list AdmittedEvent) (rej : list Rejection)
    (c : AdmittedEvent) : Prop :=
  ∃ c', c' ∈ cs ∧ ad_author_seq c' = ad_author_seq c ∧ ad_event_hash c' = ad_event_hash c ∧
    (c' ∈ l ∨ ∃ x, x ∈ rej ∧ rejects o (ad_key c') x).

Lemma chain_all_spec gh l chained rej forks :
  NoDup l.*1 →
  (∀ o cs c, (o, cs) ∈ l → c ∈ cs → ad_author c = o ∧ (ad_author_seq c ≤ u64_max)%N) →
  ∃ k rej' forks',
    foldl (chain_one gh) (chained, rej, forks) l = (chained ++ k, rej ++ rej', forks') ∧
    (∀ o, linked 1 gh (author_events o k)) ∧
    (∀ c, c ∈ k → ∃ cs, (ad_author c, cs) ∈ l ∧ c ∈ cs) ∧
    (∀ o cs c, (o, cs) ∈ l → c ∈ cs → kept_or_rejected o cs k rej' c).
Proof.
  revert chained rej forks. induction l as [|[o cs] l IH]; intros chained rej forks Hnd Hl.
  - exists [], [], forks. rewrite !app_nil_r. split_and!; try done.
    + by intros ? ?%elem_of_nil.
    + by intros ??? ?%elem_of_nil.
  - simpl in Hnd. apply NoDup_cons in Hnd as [Hno Hnd]. cbn [foldl chain_one fst snd].
    destruct (chain_author_sound o cs gh chained rej forks)
      as (k1&rej1&forks1&->&Hk1&Hin1&Hacc1).
    { apply Forall_forall. intros c Hc. by apply (Hl o cs c); [set_solver|]. }
    destruct (IH (chained ++ k1) (rej ++ rej1) forks1 Hnd) as (k2&rej2&forks2&->&Hk2&Hin2&Hacc2).
    { intros o' cs' c Hin. apply Hl. set_solver. }
    assert (Ha1 : ∀ c, c ∈ k1 → ad_author c = o).
    { intros c Hc. apply (Hl o cs c); [set_solver|auto]. }
    assert (Ha2 : ∀ c, c ∈ k2 → ad_author c ≠ o).
    { intros c Hc Heq. destruct (Hin2 c Hc) as (cs'&Hcs&_). rewrite Heq in Hcs.
      apply Hno. by apply (list_elem_of_fmap_2 fst) in Hcs. }
    exists (k1 ++ k2), (rej1 ++ rej2), forks2. rewrite !app_assoc. split_and!; [done| | |].
    + intros o'. rewrite author_events_app. destruct (decide (o' = o)) as [->|Hne].
      * by rewrite (author_events_same o k1), (author_events_other o k2), app_nil_r.
      * rewrite (author_events_other o' k1); [apply Hk2|]. intros c Hc%Ha1. congruence.
    + intros c [Hc|Hc]%elem_of_app.
      * exists cs. rewrite (Ha1 c Hc). split; [set_solver|auto].
      * destruct (Hin2 c Hc) as (cs'&?&?). exists cs'. set_solver.
    + intros o' cs' c [[= -> ->]|Hin]%elem_of_cons Hc.
      * destruct (Hacc1 c Hc) as (c'&?&?&?&Hout). exists c'. split_and!; try done.
        unfold rejects. destruct Hout as [?|(x&?&?)]; [left; set_solver|right; exists x; set_solver].
      * destruct (Hacc2 _ _ _ Hin Hc) as (c'&?&?&?&Hout). exists c'. split_and!; try done.
        destruct Hout as [?|(x&?&?)]; [left; set_solver|right; exists x; set_solver].
Qed.

(** ** Consequences of being linked, author by author *)

Lemma linked_unique s p l c c' :
  linked s p l → c ∈ l → c' ∈ l → ad_author_seq c = ad_author_seq c' → c = c'.
Proof.
  intros Hl (i&Hi)%list_elem_of_lookup (j&Hj)%list_elem_of_lookup Heq.
  rewrite (linked_seqs _ _ _ _ _ Hl Hi), (linked_seqs _ _ _ _ _ Hl Hj) in Heq.
  assert (i = j) as -> by lia. congruence.
Qed.

Lemma linked_NoDup s p l : linked s p l → NoDup l.
Proof.
  intros Hl. apply NoDup_alt. intros i j c Hi Hj.
  pose proof (linked_seqs _ _ _ _ _ Hl Hi). pose proof (linked_seqs _ _ _ _ _ Hl Hj). lia.
Qed.

Lemma chains_seq_unique gh k :
  (∀ o, linked 1 gh (author_events o k)) → seq_unique k.
Proof.
  intros H c c' Hc Hc' Ha Hs. eapply (linked_unique 1 gh (author_events (ad_author c) k)); try done;
    by apply elem_of_author_events.
Qed.

Lemma author_events_NoDup k : (∀ o, NoDup (author_events o k)) → NoDup k.
Proof.
  induction k as [|c k IH]; intros H; [constructor|]. apply NoDup_cons. split.
  - intros Hc. specialize (H (ad_author c)). unfold author_events in H.
    rewrite filter_cons_True in H by done. apply NoDup_cons in H as [Hn _].
    by apply Hn, elem_of_author_events.
  - apply IH. intros o. specialize (H o). unfold author_events in *.
    rewrite filter_cons in H. case_decide; [by apply NoDup_cons in H as [_ ?]|done].
Qed.

Lemma chains_NoDup gh k : (∀ o, linked 1 gh (author_events o k)) → NoDup k.
Proof. intros H. apply author_events_NoDup. intros o. by eapply linked_NoDup. Qed.

(** Keeping an initial part of a chain, by sequence number, keeps a chain. *)
Lemma linked_filter (P : AdmittedEvent → Prop) `{∀ c, Decision (P c)} s p l :
  linked s p l →
  (∀ c c', c ∈ l → c' ∈ l → P c → (ad_author_seq c' < ad_author_seq c)%N → P c') →
  linked s p (filter P l).
Proof.
  revert s p. induction l as [|c l IH]; intros s p; [done|].
  intros (Hs&Hp&Hl) Hclosed. destruct (decide (P c)) as [HP|HP].
  - rewrite filter_cons_True by done. simpl. split_and!; try done. apply IH; [done|].
    intros c1 c2 H1 H2. apply Hclosed; set_solver.
  - rewrite filter_cons_False by done.
    assert (filter P l = []) as ->; [|done].
    destruct (filter P l) as [|c1 k] eqn:E; [done|].
    assert (c1 ∈ filter P l) as Hc1 by (rewrite E; set_solver).
    apply list_elem_of_filter in Hc1 as [HP1 Hc1]. destruct HP.
    eapply (Hclosed c1); [set_solver..|done|].
    apply list_elem_of_lookup in Hc1 as [i Hi].
    rewrite (linked_seqs _ _ _ _ _ Hl Hi). lia.
Qed.

(** ** Chain tips *)

Definition tip_of (c : AdmittedEvent) : ChainTipV2 :=
  {| ct_author_seq := ad_author_seq c; ct_last_event_hash := ad_event_hash c |}.

Lemma chain_tips_spec l o :
  match chain_tips l !! o with
  | None => ∀ c, c ∈ l → ad_author c ≠ o
  | Some t => ∃ c, c ∈ l ∧ ad_author c = o ∧ t = tip_of c ∧
      ∀ c', c' ∈ l → ad_author c' = o → (ad_author_seq c' ≤ ad_author_seq c)%N
  end.
Proof.
  unfold chain_tips. induction l as [|a l IH] using rev_ind; [simpl; rewrite lookup_empty; by intros ? ?%elem_of_nil|].
  rewrite foldl_snoc. set (tips := foldl tip_step ∅ l) in *. unfold tip_step.
  destruct (decide (ad_author a = o)) as [<-|Hne].
  - rewrite lookup_insert_eq. destruct (tips !! ad_author a) as [t|] eqn:Et; simpl.
    + destruct IH as (c&Hc&Hca&->&Hmax). simpl.
      destruct (ad_author_seq c <=? ad_author_seq a)%N eqn:Hle;
        [apply N.leb_le in Hle|apply N.leb_gt in Hle].
      * exists a. split_and!; [set_solver|done|done|].
        intros c' [Hc'|Hc'%list_elem_of_singleton]%elem_of_app Ha; [|by subst].
        specialize (Hmax _ Hc' Ha). lia.
      * exists c. split_and!; [set_solver|done|done|].
        intros c' [Hc'|Hc'%list_elem_of_singleton]%elem_of_app Ha; [auto|subst; lia].
    + rewrite N.leb_refl. exists a. split_and!; [set_solver|done|done|].
      intros c' [Hc'|Hc'%list_elem_of_singleton]%elem_of_app Ha; [|by subst].
      by destruct (IH c' Hc').
  - rewrite lookup_insert_ne by done. destruct (tips !! o) as [t|].
    + destruct IH as (c&Hc&Hca&->&Hmax). exists c. split_and!; [set_solver|done|done|].
      intros c' [Hc'|Hc'%list_elem_of_singleton]%elem_of_app Ha; [auto|by subst].
    + intros c [Hc|Hc%list_elem_of_singleton]%elem_of_app; [auto|by subst].
Qed.

(** ** Input records *)

(** [r] is a record of some supplied stream of [o]. *)
Definition supplied (streams : list AuthorStream) (o : string) (r : StoreRecord) : Prop :=
  ∃ st, st ∈ streams ∧ as_owner st = o ∧ r ∈ as_records st.

Lemma canonical_supplied streams o r :
  supplied streams o r ↔ ∃ s, (canonical_streams streams).1 !! o = Some s ∧ r ∈ as_records s.
Proof.
  split.
  - intros (st&Hst&Ho&Hr). rewrite canonical_streams_lookup. unfold merged_stream.
    assert (Hin : st ∈ streams_of o streams) by (unfold streams_of; by rewrite list_elem_of_filter).
    destruct (streams_of o streams) as [|s' l] eqn:E; [by apply elem_of_nil in Hin|].
    eexists. split; [done|]. simpl. rewrite elem_of_dedup, elem_of_sort_by.
    unfold records_of. rewrite E. apply list_elem_of_bind. by exists st.
  - intros (s&Hs&Hr). by eapply canonical_records.
Qed.

Lemma verified_card_Ok s card : verified_card s = Ok card → derive_agent_id_hex card = as_owner s.
Proof. unfold verified_card. intros H. ok_inv. by guards. Qed.

Lemma find_record_Some key l r : find_record key l = Some r → r ∈ l ∧ sr_key r = key.
Proof.
  unfold find_record. intros [Hin Hk]%find_some. split; [by apply list_elem_of_In|].
  by apply bool_decide_eq_true in Hk.
Qed.

(** The genesis manifest of a list: signed by the creator under the key its
    agent id is derived from, and naming this list and this creator. *)
Definition genesis_authentic (streams : list AuthorStream) (list_uuid creator : string)
    (card : bytes) (genesis : GenesisManifestV2) (h : string) : Prop :=
  ∃ record env payload,
    supplied streams creator record ∧ sr_key record = GENESIS_KEY ∧
    envelope_decode (sr_value record) = Ok env ∧
    envelope_attests env GENESIS_CONTEXT_V2 card payload h ∧
    env_signer_agent_id env = creator ∧ derive_agent_id_hex card = creator ∧
    json_genesis payload = Ok genesis ∧
    gen_schema genesis = V2_SCHEMA ∧ gen_kind genesis = "genesis" ∧
    gen_list_uuid genesis = list_uuid ∧ gen_creator genesis = creator ∧ gen_roster genesis ≠ [].

Lemma verify_genesis_Ok record list_uuid creator card genesis h :
  verify_genesis record list_uuid creator card = Ok (genesis, h) →
  ∃ env payload,
    envelope_decode (sr_value record) = Ok env ∧
    envelope_attests env GENESIS_CONTEXT_V2 card payload h ∧
    env_signer_agent_id env = creator ∧ json_genesis payload = Ok genesis ∧
    gen_schema genesis = V2_SCHEMA ∧ gen_kind genesis = "genesis" ∧
    gen_list_uuid genesis = list_uuid ∧ gen_creator genesis = creator ∧ gen_roster genesis ≠ [].
Proof.
  unfold verify_genesis. intros H. ok_inv. guards.
  match goal with u : unit |- _ => destruct u end.
  match goal with E : envelope_verify _ _ = Ok _ |- _ =>
    apply envelope_verify_Ok in E as [pk Hatt] end.
  match goal with E : check_envelope_key _ _ _ = Ok _ |- _ =>
    apply check_envelope_key_Ok in E as [? ?] end.
  assert (pk = card) as -> by (pose proof (att_key _ _ _ _ _ Hatt); congruence).
  do 2 eexists. split_and!; eauto.
Qed.

(** ** The facts of an [Ok] fold *)

(** [l] is the admitted part of [o]'s hash chain, in chain order. *)
Definition admitted_chain (gh : string) (ordered : list AdmittedEvent) (o : string)
    (l : list AdmittedEvent) : Prop :=
  linked 1 gh l ∧ ∀ c, c ∈ l ↔ c ∈ ordered ∧ ad_author c = o.

Record fold_facts (input : FoldInput) (out : FoldOutput) (rosters : list (gset string))
    (ordered : list AdmittedEvent) (g : ledger) : Prop := {
  ff_raw_budget : raw_budget (fi_limits input) (fi_streams input) = Ok ();
  ff_genesis : ∃ card ext tip,
    genesis_authentic (fi_streams input) (fi_list_uuid input) (fi_creator input) card
      (fo_genesis out) (fo_genesis_hash out) ∧
    rosters = list_to_set (gen_roster (fo_genesis out)) :: ext ∧
    ∃ records, (∀ r, r ∈ records ↔ supplied (fi_streams input) (fi_creator input) r) ∧
      roster_ext (fi_list_uuid input) (fi_creator input) card (fo_genesis_hash out) records 1
        (fo_genesis_hash out) ext tip;
  ff_epoch : fo_latest_roster_epoch out = N.pred (llen rosters);
  ff_current : last rosters = Some (fo_current_roster out);
  ff_roster_budget : (N.of_nat (size (⋃ rosters)) ≤ max_roster_members (fi_limits input))%N;
  ff_authentic : ∀ a, a ∈ ordered → ∃ record card,
    supplied (fi_streams input) (ad_author a) record ∧
    derive_agent_id_hex card = ad_author a ∧
    authentic (ad_author a) card (fi_list_uuid input) (fo_genesis_hash out) rosters record a;
  ff_sorted : StronglySorted (key_le fold_position) ordered;
  ff_nodup : NoDup ordered;
  ff_chain : ∀ o, ∃ l, admitted_chain (fo_genesis_hash out) ordered o l ∧
    next_chain_link out o = (wrap_add64 (llen l) 1, chain_tip (fo_genesis_hash out) l);
  ff_lamport : lamport_clean 0 ordered;
  ff_max_lamport : fo_max_admitted_lamport out = max_lamport ordered;
  ff_ledger : ∃ rej, g = phase2 (fo_approvals out) (empty_ledger rej) ordered;
  ff_approvals : fo_approvals out = collect_approvals ordered;
  ff_issues : fo_issues out = lg_issues g;
  ff_effective : fo_effective_consumes out = lg_effective_consumes g;
  ff_losing : fo_losing_consumes out = lg_losing_consumes g;
  ff_handoffs : fo_handoffs out = lg_handoffs g;
  ff_rejections : ∀ x, x ∈ fo_rejections out ↔ x ∈ lg_rejections g;
  ff_accounted : ∀ o r, supplied (fi_streams input) o r → is_event_record r = true →
    (∃ x, x ∈ fo_rejections out ∧ rejects o (sr_key r) x) ∨
    (∃ card a a', authentic o card (fi_list_uuid input) (fo_genesis_hash out) rosters r a ∧
       ad_author a' = o ∧ ad_event_hash a' = ad_event_hash a ∧
       (a' ∈ ordered ∨ ∃ x, x ∈ fo_rejections out ∧ rejects o (ad_key a') x))
}.

(** ** After the cap *)

Lemma StronglySorted_sublist {A} (R : A → A → Prop) l k :
  l `sublist_of` k → StronglySorted R k → StronglySorted R l.
Proof.
  intros Hs. induction Hs as [|x l k Hs IH|x l k Hs IH]; intros Hk; [done|..];
    inversion_clear Hk as [|?? Hk' Hx]; [|by apply IH].
  constructor; [by apply IH|]. rewrite Forall_forall in *. intros y Hy. apply Hx.
  eapply elem_of_submseteq; [done|by apply sublist_submseteq].
Qed.

Lemma StronglySorted_mono {A} (R S : A → A → Prop) l :
  (∀ x y, R x y → S x y) → StronglySorted R l → StronglySorted S l.
Proof.
  intros H. induction 1 as [|x l _ IH Hx]; constructor; [done|].
  eapply Forall_impl; [exact Hx|]. apply H.
Qed.

Lemma capped_facts gh chained rej admitted rej' :
  (∀ o, linked 1 gh (author_events o chained)) →
  apply_lamport_cap chained rej = (admitted, rej') →
  sort_by fold_position admitted = admitted ∧
  StronglySorted (key_le fold_position) admitted ∧ NoDup admitted ∧ lamport_clean 0 admitted ∧
  (∀ c, c ∈ admitted → c ∈ chained) ∧
  (∀ o, ∃ l, admitted_chain gh admitted o l) ∧
  ∃ rej1, rej' = rej ++ rej1 ∧
    ∀ c, c ∈ chained → c ∉ admitted → ∃ x, x ∈ rej1 ∧ rejects (ad_author c) (ad_key c) x.
Proof.
  intros Hch Hcap.
  destruct (apply_lamport_cap_spec chained rej) as (r&rej1&Heq&Hsub&Hcl&Hpc&_&Hrej);
    [by eapply chains_NoDup|by eapply chains_seq_unique|].
  rewrite Heq in Hcap. injection Hcap as <- <-.
  assert (Hsorted : StronglySorted (key_le fold_position) r).
  { eapply StronglySorted_sublist; [done|]. auto with ordering. }
  assert (Hin : ∀ c, c ∈ r → c ∈ chained).
  { intros c Hc. apply (elem_of_sort_by fold_position).
    eapply elem_of_submseteq; [done|by apply sublist_submseteq]. }
  split_and!; try done.
  - by apply sort_by_id.
  - eapply sublist_NoDup; [|done]. rewrite sort_by_perm. by eapply chains_NoDup.
  - intros o. exists (filter (λ c, c ∈ r) (author_events o chained)). split.
    + apply linked_filter; [apply Hch|]. intros c c' Hc Hc' Hr Hlt.
      apply elem_of_author_events in Hc as [Ha Hc], Hc' as [Ha' Hc'].
      apply (Hpc c c'); congruence.
    + intros c. rewrite list_elem_of_filter, elem_of_author_events.
      split; [tauto|]. intros [Hr Ha]. auto.
  - exists rej1. split; [done|]. intros c Hc Hn. by apply Hrej.
Qed.

Lemma next_link_of_chain out ordered o l :
  fo_author_chain_tips out = chain_tips ordered →
  admitted_chain (fo_genesis_hash out) ordered o l →
  next_chain_link out o = (wrap_add64 (llen l) 1, chain_tip (fo_genesis_hash out) l).
Proof.
  intros Ht [Hl Hin]. unfold next_chain_link. rewrite Ht.
  pose proof (chain_tips_spec ordered o) as Hs. destruct (chain_tips ordered !! o) as [t|].
  - destruct Hs as (c&Hc&Ha&->&Hmax). simpl.
    assert (c ∈ l) as Hcl by (by apply Hin).
    destruct l as [|c' k _] using rev_ind; [by apply elem_of_nil in Hcl|].
    assert (c' ∈ k ++ [c']) as Hc' by set_solver.
    assert (Hseq : ad_author_seq c' = llen (k ++ [c'])).
    { apply linked_app in Hl as [_ [Hs _]]. rewrite Hs. unfold llen. rewrite length_app. simpl. lia. }
    assert (c = c') as <-.
    { eapply linked_unique; [done..|]. apply Hin in Hc' as [Ho Ha'].
      specialize (Hmax _ Ho Ha'). apply list_elem_of_lookup in Hcl as [i Hi].
      pose proof (linked_seqs _ _ _ _ _ Hl Hi). apply lookup_lt_Some in Hi.
      unfold llen in Hseq. lia. }
    unfold chain_tip. by rewrite last_snoc, Hseq.
  - destruct l as [|c l]; [done|]. exfalso. destruct (Hin c) as [Hc _].
    destruct Hc as [Hc Ha]; [set_solver|]. by apply (Hs c).
Qed.

Lemma roster_of_genesis_size (genesis : GenesisManifestV2) max :
  (llen (gen_roster genesis) ≤ max)%N →
  (N.of_nat (size (list_to_set (gen_roster genesis) : gset string)) ≤ max)%N.
Proof.
  intros H. assert (size (list_to_set (gen_roster genesis) : gset string) ≤
                    length (gen_roster genesis)); [|unfold llen in H; lia].
  generalize (gen_roster genesis). intros l. induction l as [|x l IH]; [done|]. simpl.
  rewrite size_union_alt, size_singleton.
  pose proof (subseteq_size (list_to_set l ∖ {[x]} : gset string) (list_to_set l)
    ltac:(set_solver)). lia.
Qed.

(** ** Phase 1 as a whole *)

Lemma admit_event_seq `{!ExternLaws} r o card list_uuid gh rosters a :
  admit_event r o card list_uuid gh rosters = Ok a → (ad_author_seq a ≤ u64_max)%N.
Proof.
  intros Ha%admit_event_Ok. rewrite (au_seq _ _ _ _ _ _ _ Ha).
  destruct (au_envelope _ _ _ _ _ _ _ Ha) as (env&payload&_&_&_&Hdec).
  by eapply decoded_seq_u64.
Qed.

Lemma elem_of_event_records s r : r ∈ event_records s ↔ r ∈ as_records s ∧ is_event_record r = true.
Proof. unfold event_records. rewrite list_elem_of_In, filter_In, <-list_elem_of_In. done. Qed.

Lemma phase1_spec `{!ExternLaws} conflicted list_uuid gh rosters streams rej forks admitted rej' forks' :
  phase1 conflicted list_uuid gh rosters streams rej forks = (admitted, rej', forks') →
  sort_by fold_position admitted = admitted ∧
  StronglySorted (key_le fold_position) admitted ∧ NoDup admitted ∧ lamport_clean 0 admitted ∧
  (∀ o, ∃ l, admitted_chain gh admitted o l) ∧
  (∀ a, a ∈ admitted → ∃ s card r, streams !! ad_author a = Some s ∧ r ∈ as_records s ∧
     verified_card s = Ok card ∧ authentic (ad_author a) card list_uuid gh rosters r a) ∧
  (∀ o s r, streams !! o = Some s → r ∈ as_records s → is_event_record r = true →
     (∃ x, x ∈ rej' ∧ rejects o (sr_key r) x) ∨
     (∃ card a a', authentic o card list_uuid gh rosters r a ∧ ad_author a' = o ∧
        ad_event_hash a' = ad_event_hash a ∧
        (a' ∈ admitted ∨ ∃ x, x ∈ rej' ∧ rejects o (ad_key a') x))).
Proof.
  unfold phase1. intros Hp.
  destruct (admit_streams_spec conflicted list_uuid gh rosters (btree_iter streams) ∅ rej)
    as (m&rej1&Heq1&Hm&Hcand&Hrec); [auto with ordering|done|].
  rewrite Heq1 in Hp.
  assert (Hauth : ∀ o cs a, (o, cs) ∈ btree_iter m → a ∈ cs → ∃ s card r,
    streams !! o = Some s ∧ r ∈ as_records s ∧ verified_card s = Ok card ∧
    admit_event r o card list_uuid gh rosters = Ok a).
  { intros o cs a Hin%elem_of_btree_iter Ha.
    destruct (decide (o ∈ (btree_iter streams).*1)) as [Ho|Ho]; [|by rewrite Hm in Hin].
    apply list_elem_of_fmap in Ho as ([o' s]&->&Hs). simpl in *.
    destruct (Hcand _ _ _ Hs Hin) as (card&Hc&Hall). destruct (Hall a Ha) as (r&Hr&Hadm).
    apply elem_of_event_records in Hr as [Hr _]. apply elem_of_btree_iter in Hs. by exists s, card, r. }
  destruct (chain_all_spec gh (btree_iter m) [] (rej ++ rej1) forks)
    as (k&rej2&forks2&Heq2&Hlink&Hk&Hacc); [auto with ordering| |].
  { intros o cs c Hin Hc. destruct (Hauth _ _ _ Hin Hc) as (s&card&r&_&_&_&Hadm).
    split; [|by eapply admit_event_seq]. apply admit_event_Ok in Hadm. apply Hadm. }
  rewrite Heq2 in Hp. simpl in Hp.
  destruct (apply_lamport_cap k ((rej ++ rej1) ++ rej2)) as [adm rej3] eqn:Hcap.
  injection Hp as <- <- <-.
  destruct (capped_facts gh k _ _ _ Hlink Hcap) as (Hid&Hs&Hnd&Hcl&Hin&Hch&rej4&->&Hrej4).
  split_and!; try done.
  - intros a Ha. destruct (Hk a (Hin a Ha)) as (cs&Hcs&Hacs).
    destruct (Hauth _ _ _ Hcs Hacs) as (s&card&r&?&?&?&Hadm). exists s, card, r.
    split_and!; try done. by apply admit_event_Ok.
  - intros o s r Hs' Hr He.
    destruct (Hrec o s r) as [(a&card&Ha&Hauth')|(x&Hx&?)];
      [by apply elem_of_btree_iter|by apply elem_of_event_records| |].
    2:{ left. exists x. split; [|done]. rewrite !elem_of_app. tauto. }
    destruct (m !! o) as [cs|] eqn:Em; [|by apply elem_of_nil in Ha]. simpl in Ha.
    apply elem_of_btree_iter in Em. right.
    assert (Hao : ∀ b, b ∈ cs → ad_author b = o).
    { intros b Hb. destruct (Hauth _ _ _ Em Hb) as (?&?&?&_&_&_&Hadm%admit_event_Ok). apply Hadm. }
    destruct (Hacc _ _ _ Em Ha) as (a'&Ha'&_&Hh&Hout). exists card, a, a'. split_and!; auto.
    destruct Hout as [Hin'|(x&Hx&?)].
    + destruct (decide (a' ∈ adm)) as [|Hn]; [by left|right].
      destruct (Hrej4 a' Hin' Hn) as (x&Hx&Hrx). rewrite (Hao a' Ha') in Hrx.
      exists x. split; [|done]. rewrite !elem_of_app. tauto.
    + right. exists x. split; [|done]. rewrite !elem_of_app. tauto.
Qed.

(** ** The facts hold *)

Lemma fold_canonical_facts `{!ExternLaws} limits input out streams conflicted :
  fold_canonical limits (fi_list_uuid input) (fi_creator input) streams conflicted = Ok out →
  limits = fi_limits input → raw_budget (fi_limits input) (fi_streams input) = Ok () →
  (∀ o s, streams !! o = Some s → as_owner s = o) →
  (∀ o r, supplied (fi_streams input) o r ↔ ∃ s, streams !! o = Some s ∧ r ∈ as_records s) →
  ∃ rosters ordered g, fold_facts input out rosters ordered g.
Proof.
  intros Hfold -> Hraw Hown Hsup. unfold fold_canonical in Hfold. ok_inv.
  match goal with E : verify_genesis ?r _ _ _ = Ok (?g, ?h) |- _ =>
    rename E into Hgen, g into genesis, h into gh, r into grec end.
  match goal with E : verified_card ?s = Ok ?c |- _ =>
    rename E into Hcard, s into cs, c into card end.
  match goal with E : streams !! _ = Some cs |- _ => rename E into Hcs end.
  match goal with E : find_record _ _ = Some _ |- _ => apply find_record_Some in E as [Hgr Hgk] end.
  match goal with E : (_ <? _)%N = false |- _ => apply N.ltb_ge in E as Hsize end.
  match goal with E : build_roster_chain _ _ _ _ _ _ _ _ _ = Ok (?rs, ?rj, ?fk) |- _ =>
    rename E into Hros, rs into rosters, rj into rej, fk into forks end.
  pose proof (roster_of_genesis_size _ _ Hsize) as Hgsize.
  destruct (build_roster_chain_spec _ _ _ _ _ _ _ _ _ _ _ _ Hgsize Hros)
    as (ext&tip&->&Hext&Hunion&_).
  destruct (phase1 conflicted (fi_list_uuid input) gh _ streams rej forks)
    as [[ordered rej'] forks'] eqn:Hp1.
  apply phase1_spec in Hp1 as (Hid&Hsort&Hnd&Hcl&Hch&Hau&Hacc).
  apply verify_genesis_Ok in Hgen as (env&payload&Hdec&Hatt&Hsig&Hjson&Hrest).
  pose proof (verified_card_Ok _ _ Hcard) as Hderive. rewrite (Hown _ _ Hcs) in Hderive.
  eexists _, ordered, _. unfold finish. rewrite Hid. constructor; simpl; try done.
  - exists card, ext, tip. split_and!; [|done|].
    + exists grec, env, payload. split_and!; try done; try apply Hrest.
      apply Hsup. by exists cs.
    + exists (as_records cs). split; [|done]. intros r. rewrite Hsup. split; [by exists cs|].
      intros (s&Hs&?). by rewrite Hcs in Hs; injection Hs as <-.
  - by destruct (last_is_Some (list_to_set (gen_roster genesis) :: ext)) as [_ [? ->]].
  - intros b Hb. destruct (Hau b Hb) as (s&c&r&Hs&Hr&Hc&Hauth). exists r, c.
    split_and!; [apply Hsup; by exists s| |done].
    rewrite (verified_card_Ok _ _ Hc). by apply Hown.
  - intros o. destruct (Hch o) as [l Hl]. exists l. split; [done|]. by apply next_link_of_chain with ordered.
  - by exists rej'.
  - intros x. by autorewrite with lists.
  - intros o r (s&Hs&Hr)%Hsup He.
    assert (Hmono : ∀ x, x ∈ rej' → x ∈ dedup (sort_by rejection_key (lg_rejections
      (ledger_at (collect_approvals ordered) rej' ordered)))).
    { intros x Hx. rewrite elem_of_dedup, elem_of_sort_by.
      eapply prefix_elem; [apply phase2_rejections|done]. }
    destruct (Hacc o s r Hs Hr He) as [(x&?&?)|(c&b&b'&?&?&?&Hout)]; [left; eauto|right].
    exists c, b, b'. split_and!; try done. destruct Hout as [|(x&?&?)]; eauto.
Qed.

Lemma fold_v2_facts `{!ExternLaws} input out :
  fold_v2 input = Ok out → ∃ rosters ordered g, fold_facts input out rosters ordered g.
Proof.
  unfold fold_v2. intros Hfold.
  pose proof (canonical_owner (fi_streams input)) as Hown.
  pose proof (canonical_supplied (fi_streams input)) as Hsup.
  destruct (canonical_streams (fi_streams input)) as [streams conflicted].
  destruct (raw_budget (fi_limits input) (fi_streams input)) as [[]|] eqn:Hraw; [|done].
  by eapply fold_canonical_facts.
Qed.
End run.

(** ** The raw budget *)

(** The budget of one raw stream. *)
Definition within_budget (limits : FoldLimits) (s : AuthorStream) : Prop :=
  (llen (as_records s) ≤ max_records_per_stream limits)%N ∧
  ∀ r, r ∈ as_records s → (blen (sr_value r) ≤ max_record_bytes limits)%N.

Lemma find_none_Forall {A} (f : A → bool) l :
  List.find f l = None ↔ ∀ x, x ∈ l → f x = false.
Proof.
  split.
  - intros H x Hx. eapply find_none; [done|by apply list_elem_of_In].
  - intros H. destruct (List.find f l) as [x|] eqn:E; [|done].
    apply find_some in E as [Hx Hf]. apply list_elem_of_In in Hx. rewrite H in Hf; done.
Qed.

Lemma check_raw_streams_Ok limits l :
  check_raw_streams limits l = Ok () ↔ ∀ s, s ∈ l → within_budget limits s.
Proof.
  induction l as [|s l IH]; simpl; [split; [by intros _ ? ?%elem_of_nil|done]|].
  destruct (max_records_per_stream limits <? llen (as_records s))%N eqn:Hn.
  { split; [done|]. intros H. destruct (H s) as [Hle _]; [set_solver|].
    apply N.ltb_lt in Hn. lia. }
  apply N.ltb_ge in Hn. destruct (List.find _ _) as [r|] eqn:Hf.
  - split; [done|]. intros H. destruct (H s) as [_ Hb]; [set_solver|].
    apply find_some in Hf as [Hr Hlt]. apply list_elem_of_In in Hr. specialize (Hb _ Hr).
    apply N.ltb_lt in Hlt. lia.
  - rewrite IH. pose proof (proj1 (find_none_Forall _ _) Hf) as Hall. split.
    + intros H s' [->|Hs']%elem_of_cons; [|auto]. split; [done|]. intros r Hr.
      specialize (Hall _ Hr). by apply N.ltb_ge.
    + intros H s' Hs'. apply H. set_solver.
Qed.

Lemma raw_budget_Ok limits l :
  raw_budget limits l = Ok () ↔
  (llen l ≤ sat_add64 (max_roster_members limits) 1)%N ∧ ∀ s, s ∈ l → within_budget limits s.
Proof.
  unfold raw_budget. rewrite <-check_raw_streams_Ok, <-N.ltb_ge.
  destruct (_ <? _)%N; [|tauto]. split; [done|]. intros [? _]. done.
Qed.

Lemma raw_budget_Err limits l e : raw_budget limits l = Err e → ∃ reason, e = BudgetExceeded reason.
Proof.
  unfold raw_budget. case_match; [intros [= <-]; eauto|].
  induction l as [|s l IH]; simpl; [done|]. case_match; [intros [= <-]; eauto|].
  case_match; [intros [= <-]; eauto|]. apply IH. revert H. unfold llen. simpl length.
  rewrite !N.ltb_ge. lia.
Qed.
