(* ===== verification/Store.v ===== *)
(** * Event stores ([V2StoreManager] of v2/store.rs)

    The manager that creates the local author's store, joins peers, publishes
    signed records and reads the fold input back.  The x0xd daemon behind it is
    a parameter: every call may fail and may change the world, so the
    definitions are written in a state and error monad over an abstract world.
    The theorems say what the manager guarantees whatever the daemon does, and,
    for honest signing and encoding, that what it appends is admitted by the
    fold. *)

From S2P Require Import Prelude Wire Identity FoldTypes Canonical Admission Fold FoldRun.

(** ** The daemon *)

(** [ClientError]: the code only distinguishes [Http] and its status. *)
Inductive ClientError :=
  | Http (status : N) (body : string)
  | OtherClientError (display : string).

Definition CONFLICT : N := 409.
Definition NOT_FOUND : N := 404.

Record StoreDetailEntry := {
  sd_id : string;
  sd_owner : option string;
  sd_policy : option string
}.

Record SignResponse := {
  sg_agent_id : string;
  sg_public_key_b64 : string;
  sg_signature_b64 : string;
  sg_algorithm : string;
  sg_context : string
}.

(** The [V2StoreApi] and [SigningClient] traits, as calls on a world. *)
Class Daemon := {
  world : Type;
  create_kv_store_with_policy :
    string → string → option string → world → result unit ClientError * world;
  join_kv_store : string → string → world → result unit ClientError * world;
  kv_store_detail : string → world → result (option StoreDetailEntry) ClientError * world;
  list_kv_keys : string → world → result (list string) ClientError * world;
  get_kv : string → string → world → result (option bytes) ClientError * world;
  put_kv : string → string → bytes → string → world → result unit ClientError * world;
  sign : string → bytes → world → result SignResponse string * world;
  (** [tokio::time::sleep]: time passes, other agents act *)
  sleep : N → world → world
}.

(** [serde_json::to_vec] at each record type, and base64 [encode]. *)
Class Encoders := {
  b64_encode : bytes → string;
  enc_envelope : EventEnvelope → result bytes string;
  enc_genesis : GenesisManifestV2 → result bytes string;
  enc_roster : RosterEventV2 → result bytes string;
  enc_transition : TransitionEventV2 → result bytes string;
  enc_approval : ApprovalEventV2 → result bytes string;
  enc_consume : ConsumeEventV2 → result bytes string;
  enc_handoff : HandoffEventV2 → result bytes string
}.

(** ** Configuration and errors *)

Definition V2_ENVELOPE_CONTENT_TYPE : string := "application/x0x-symphony-v2+json".
Definition CARD_SELF_CONTENT_TYPE : string := "application/octet-stream".
Definition BOOTSTRAP_CONTEXT_V2 : string := "x0x-symphony-bootstrap-v2".

Inductive StorePolicyMode := AppendOnly | SignedFallback.

#[export] Instance StorePolicyMode_eq_dec : EqDecision StorePolicyMode.
Proof. solve_decision. Defined.

Definition from_config_value (value : string) : option StorePolicyMode :=
  if bool_decide (value = "append_only") then Some AppendOnly
  else if bool_decide (value = "signed") then Some SignedFallback
  else None.

Definition policy_as_str (mode : StorePolicyMode) : string :=
  match mode with AppendOnly => "append_only" | SignedFallback => "signed" end.

Inductive V2StoreError :=
  | Client (e : ClientError)
  | Signing (e : string)
  | PolicyNotHonored (topic : string) (actual : option string)
  | ImmutableConflict (topic key : string)
  | SignerMismatch (detail : string)
  | InvalidRecord (detail : string)
  | NotFound (topic : string)
  | AnchorMismatch (topic reason : string)
  | Refused (refusal : ListRefusal).

Record OwnEventStore := {
  own_list_uuid : string;
  own_agent_id : string;
  own_public_key : bytes;
  own_topic : string;
  own_policy : StorePolicyMode
}.

(** [V2StoreManager], less its handles on the daemon. *)
Record V2StoreManager := {
  mgr_mode : StorePolicyMode;
  mgr_limits : FoldLimits
}.

Definition new_manager (mode : StorePolicyMode) : V2StoreManager :=
  {| mgr_mode := mode; mgr_limits := default_limits |}.

Definition with_limits (m : V2StoreManager) (limits : FoldLimits) : V2StoreManager :=
  {| mgr_mode := mgr_mode m; mgr_limits := limits |}.

(** [Debug] of an [Option<String>] (for text without characters to escape). *)
Definition dquote : string := String (ascii_of_N 34) EmptyString.
Definition debug_opt (o : option string) : string :=
  match o with
  | None => "None"
  | Some s => "Some(" +:+ dquote +:+ s +:+ dquote +:+ ")"
  end.

Section store.
Context `{X : Extern} `{D : Daemon} `{E : Encoders}.

(** ** The monad *)

Definition M (A : Type) : Type := world → result A V2StoreError * world.

#[export] Instance M_ret : MRet M := λ A a w, (Ok a, w).
#[export] Instance M_bind : MBind M := λ A B f m w,
  match m w with
  | (Ok a, w') => f a w'
  | (Err e, w') => (Err e, w')
  end.

Definition fail {A} (e : V2StoreError) : M A := λ w, (Err e, w).

(** [call.await?] on a daemon call, and on a local result. *)
Definition client {A} (call : world → result A ClientError * world) : M A :=
  λ w, let '(r, w') := call w in (map_err Client r, w').
Definition lift {A} (r : result A V2StoreError) : M A := λ w, (r, w).

(** A call whose HTTP 409 counts as success. *)
Definition tolerate_conflict (call : world → result unit ClientError * world) : M unit :=
  λ w, match call w with
       | (Ok _, w') => (Ok (), w')
       | (Err (Http status body), w') =>
           if (status =? CONFLICT)%N then (Ok (), w') else (Err (Client (Http status body)), w')
       | (Err e, w') => (Err (Client e), w')
       end.

(** ** Anchors *)

Definition verify_store_anchor (m : V2StoreManager) (topic expected_owner : string) : M unit :=
  detail ← client (kv_store_detail topic);
  match detail with
  | None => fail (NotFound topic)
  | Some detail =>
      if bool_decide (sd_owner detail = Some expected_owner) then
        if bool_decide (mgr_mode m = AppendOnly) && bool_decide (sd_policy detail ≠ Some "append_only")
        then fail (PolicyNotHonored topic (sd_policy detail))
        else mret ()
      else fail (AnchorMismatch topic ("daemon reports owner " +:+ debug_opt (sd_owner detail) +:+
                   ", expected author " +:+ expected_owner))
  end.

(** ** The local store *)

Definition ensure_own_store (m : V2StoreManager) (list_uuid : string) : M OwnEventStore :=
  r ← (λ w, let '(r, w') := sign BOOTSTRAP_CONTEXT_V2 "x0x-symphony-v2-key-bootstrap" w in
            (map_err Signing r, w'));
  public_key ← lift (map_err InvalidRecord (decode_b64 "public_key_b64" (sg_public_key_b64 r)));
  let derived := derive_agent_id_hex public_key in
  if bool_decide (derived ≠ sg_agent_id r) then
    fail (SignerMismatch ("x0xd reports agent " +:+ sg_agent_id r +:+ " but its key derives to " +:+
            derived))
  else
  let topic := event_store_topic list_uuid (sg_agent_id r) in
  let requested_policy :=
    match mgr_mode m with AppendOnly => Some "append_only" | SignedFallback => None end in
  _ ← tolerate_conflict (create_kv_store_with_policy topic topic requested_policy);
  _ ← verify_store_anchor m topic (sg_agent_id r);
  existing ← client (get_kv topic CARD_SELF_KEY);
  _ ← match existing with
      | Some value => if bool_decide (value = public_key) then mret ()
                      else fail (ImmutableConflict topic CARD_SELF_KEY)
      | None => client (put_kv topic CARD_SELF_KEY public_key CARD_SELF_CONTENT_TYPE)
      end;
  mret {| own_list_uuid := list_uuid; own_agent_id := sg_agent_id r;
          own_public_key := public_key; own_topic := topic; own_policy := mgr_mode m |}.

(** ** Peers *)

Definition join_peer_store (m : V2StoreManager) (list_uuid peer_agent_id : string) : M string :=
  let topic := event_store_topic list_uuid peer_agent_id in
  _ ← tolerate_conflict (join_kv_store topic peer_agent_id);
  _ ← verify_store_anchor m topic peer_agent_id;
  mret topic.

Fixpoint join_roster_stores (m : V2StoreManager) (list_uuid : string) (roster : list string)
    (own_agent_id : string) : M (list string) :=
  match roster with
  | [] => mret []
  | peer :: rest =>
      if bool_decide (peer = own_agent_id) then join_roster_stores m list_uuid rest own_agent_id
      else
        topic ← join_peer_store m list_uuid peer;
        topics ← join_roster_stores m list_uuid rest own_agent_id;
        mret (topic :: topics)
  end.

(** ** Signing and writing *)

Definition sign_envelope (own : OwnEventStore) (context : string) (payload : bytes)
    : M EventEnvelope :=
  r ← (λ w, let '(r, w') := sign context payload w in (map_err Signing r, w'));
  if bool_decide (sg_agent_id r ≠ own_agent_id own) then
    fail (SignerMismatch ("x0xd signed as " +:+ sg_agent_id r +:+
            " but the bound store owner is " +:+ own_agent_id own))
  else
    mret {| env_schema := V2_SCHEMA; env_context := context; env_algorithm := sg_algorithm r;
            env_payload_b64 := b64_encode payload;
            env_public_key_b64 := sg_public_key_b64 r;
            env_signature_b64 := sg_signature_b64 r;
            env_signer_agent_id := sg_agent_id r |}.

Definition put_once (topic key : string) (envelope : EventEnvelope) : M unit :=
  value ← lift (map_err (λ e, InvalidRecord ("envelope encode failed: " +:+ e))
                        (enc_envelope envelope));
  existing ← client (get_kv topic key);
  match existing with
  | Some found => if bool_decide (found = value) then mret ()
                  else fail (ImmutableConflict topic key)
  | None =>
      λ w, match put_kv topic key value V2_ENVELOPE_CONTENT_TYPE w with
           | (Ok _, w') => (Ok (), w')
           | (Err (Http status body), w') =>
               if (status =? CONFLICT)%N then (Err (ImmutableConflict topic key), w')
               else (Err (Client (Http status body)), w')
           | (Err e, w') => (Err (Client e), w')
           end
  end.

Definition publish_genesis (own : OwnEventStore) (roster : list string)
    (required_trust : option string) (created_at : N) : M (GenesisManifestV2 * string) :=
  let manifest := {| gen_schema := V2_SCHEMA; gen_kind := "genesis";
    gen_list_uuid := own_list_uuid own; gen_creator := own_agent_id own; gen_roster := roster;
    gen_policy := {| gp_required_trust := required_trust |}; gen_created_at := created_at |} in
  payload ← lift (map_err (λ e, InvalidRecord ("genesis encode failed: " +:+ e))
                          (enc_genesis manifest));
  let hash := sha256_hex payload in
  envelope ← sign_envelope own GENESIS_CONTEXT_V2 payload;
  _ ← put_once (own_topic own) GENESIS_KEY envelope;
  mret (manifest, hash).

Definition publish_roster_update (own : OwnEventStore) (genesis_manifest_hash : string)
    (roster_epoch : N) (prev_roster_hash : string) (roster : list string) : M string :=
  let event := {| ros_schema := V2_SCHEMA; ros_kind := "roster";
    ros_list_uuid := own_list_uuid own; ros_genesis_manifest_hash := genesis_manifest_hash;
    ros_roster_epoch := roster_epoch; ros_prev_roster_hash := prev_roster_hash;
    ros_roster := roster; ros_actor := own_agent_id own |} in
  payload ← lift (map_err (λ e, InvalidRecord ("roster encode failed: " +:+ e)) (enc_roster event));
  let hash := sha256_hex payload in
  envelope ← sign_envelope own ROSTER_CONTEXT_V2 payload;
  _ ← put_once (own_topic own) (roster_key roster_epoch hash) envelope;
  mret hash.

(** The common tail of the four [append_*] operations. *)
Definition append_signed (own : OwnEventStore) (context : string) (payload : bytes)
    (key_of_hash : string → string) : M string :=
  let hash := sha256_hex payload in
  envelope ← sign_envelope own context payload;
  _ ← put_once (own_topic own) (key_of_hash hash) envelope;
  mret hash.

(** Their common checks; [what] names the record in the messages. *)
Definition check_own (own : OwnEventStore) (what actor list_uuid : string) : M unit :=
  if bool_decide (actor ≠ own_agent_id own) then
    fail (InvalidRecord (what +:+ " actor " +:+ actor +:+ " is not the local author " +:+
            own_agent_id own))
  else if bool_decide (list_uuid ≠ own_list_uuid own) then
    fail (InvalidRecord (what +:+ " names list " +:+ list_uuid +:+ " but this store serves " +:+
            own_list_uuid own))
  else mret ().

Definition append_transition (own : OwnEventStore) (event : TransitionEventV2) : M string :=
  _ ← check_own own "event" (tr_actor event) (tr_list_uuid event);
  payload ← lift (map_err (λ e, InvalidRecord ("transition encode failed: " +:+ e))
                          (enc_transition event));
  append_signed own TRANSITION_CONTEXT_V2 payload (event_key (tr_issue_id event)).

Definition append_approval (own : OwnEventStore) (event : ApprovalEventV2) : M string :=
  _ ← check_own own "approval" (ae_actor event) (ae_list_uuid event);
  payload ← lift (map_err (λ e, InvalidRecord ("approval encode failed: " +:+ e))
                          (enc_approval event));
  append_signed own APPROVAL_CONTEXT_V2 payload (approval_key (ae_issue_id event)).

Definition append_consume (own : OwnEventStore) (event : ConsumeEventV2) : M string :=
  _ ← check_own own "consume" (ce_actor event) (ce_list_uuid event);
  payload ← lift (map_err (λ e, InvalidRecord ("consume encode failed: " +:+ e))
                          (enc_consume event));
  append_signed own CONSUME_CONTEXT_V2 payload (consume_key (ce_issue_id event)).

Definition sign_approval_payload (own : OwnEventStore) (payload : bytes) : M EventEnvelope :=
  sign_envelope own APPROVAL_CONTEXT_V2 payload.

Definition append_handoff (own : OwnEventStore) (event : HandoffEventV2) : M string :=
  _ ← check_own own "handoff" (he_actor event) (he_list_uuid event);
  payload ← lift (map_err (λ e, InvalidRecord ("handoff encode failed: " +:+ e))
                          (enc_handoff event));
  append_signed own HANDOFF_CONTEXT_V2 payload (handoff_key (he_issue_id event)).

Definition derive_claim_nonce (author : string) (author_seq lamport : N) (issue_id : string)
    : string :=
  sha256_hex (author +:+ ":" +:+ pretty author_seq +:+ ":" +:+ pretty lamport +:+ ":" +:+
              issue_id +:+ ":claim").

(** ** Reading *)

Fixpoint read_records (m : V2StoreManager) (author_agent_id topic : string) (keys : list string)
    (card_self : option bytes) (records : list StoreRecord)
    : M (option bytes * list StoreRecord) :=
  match keys with
  | [] => mret (card_self, records)
  | key :: rest =>
      found ← client (get_kv topic key);
      match found with
      | None => read_records m author_agent_id topic rest card_self records
      | Some value =>
          if (max_record_bytes (mgr_limits m) <? blen value)%N then
            fail (InvalidRecord ("record " +:+ key +:+ " in stream " +:+ author_agent_id +:+
                    " is " +:+ pretty (blen value) +:+ " bytes (budget " +:+
                    pretty (max_record_bytes (mgr_limits m)) +:+ "); refusing the read"))
          else
            read_records m author_agent_id topic rest
              (if bool_decide (key = CARD_SELF_KEY) then Some value else card_self)
              (records ++ [{| sr_key := key; sr_value := value |}])
      end
  end.

Definition read_author_stream (m : V2StoreManager) (list_uuid author_agent_id : string)
    : M AuthorStream :=
  let topic := event_store_topic list_uuid author_agent_id in
  _ ← verify_store_anchor m topic author_agent_id;
  keys ← client (list_kv_keys topic);
  if (max_records_per_stream (mgr_limits m) <? llen keys)%N then
    fail (InvalidRecord ("stream " +:+ author_agent_id +:+ " lists " +:+ pretty (llen keys) +:+
            " records (budget " +:+ pretty (max_records_per_stream (mgr_limits m)) +:+
            "); refusing the read"))
  else
    p ← read_records m author_agent_id topic keys None [];
    mret {| as_owner := author_agent_id; as_card_self := p.1; as_records := p.2 |}.

(** The unverified roster names of one creator record. *)
Definition roster_names (record : StoreRecord) : list string :=
  let is_genesis := bool_decide (sr_key record = GENESIS_KEY) in
  let is_roster := starts_with ROSTER_KEY_PREFIX (sr_key record) in
  if negb is_genesis && negb is_roster then []
  else
    match envelope_decode (sr_value record) with
    | Err _ => []
    | Ok envelope =>
        match payload_bytes envelope with
        | Err _ => []
        | Ok payload =>
            if is_genesis then
              match json_genesis payload with Ok genesis => gen_roster genesis | Err _ => [] end
            else
              match json_roster payload with Ok roster => ros_roster roster | Err _ => [] end
        end
    end.

Definition roster_members (records : list StoreRecord) : gset string :=
  list_to_set (records ≫= roster_names).

Fixpoint read_members (m : V2StoreManager) (list_uuid creator : string) (members : list string)
    (streams : list AuthorStream) : M (list AuthorStream) :=
  match members with
  | [] => mret streams
  | member :: rest =>
      if bool_decide (member = creator) then read_members m list_uuid creator rest streams
      else
        λ w, match read_author_stream m list_uuid member w with
             | (Ok stream, w') =>
                 read_members m list_uuid creator rest (streams ++ [stream]) w'
             | (Err (Client (Http status body)), w') =>
                 if (status =? NOT_FOUND)%N then read_members m list_uuid creator rest streams w'
                 else (Err (Client (Http status body)), w')
             | (Err (NotFound _), w') => read_members m list_uuid creator rest streams w'
             | (Err e, w') => (Err e, w')
             end
  end.

Definition read_fold_input (m : V2StoreManager) (list_uuid creator : string) : M FoldInput :=
  creator_stream ← read_author_stream m list_uuid creator;
  let members := roster_members (as_records creator_stream) in
  if (max_roster_members (mgr_limits m) <? N.of_nat (size members))%N then
    fail (InvalidRecord ("roster payloads name " +:+ pretty (N.of_nat (size members)) +:+
            " members (budget " +:+ pretty (max_roster_members (mgr_limits m)) +:+
            "); refusing the read"))
  else
    streams ← read_members m list_uuid creator (bset_iter members) [creator_stream];
    mret {| fi_list_uuid := list_uuid; fi_creator := creator; fi_streams := streams;
            fi_limits := mgr_limits m |}.

(** ** Heartbeats *)

Definition put_heartbeat (own : OwnEventStore) (issue_id heartbeat_at : string) : M unit :=
  let topic := heartbeat_store_topic (own_list_uuid own) (own_agent_id own) in
  _ ← tolerate_conflict (create_kv_store_with_policy topic topic None);
  client (put_kv topic ("hb-" +:+ issue_id) heartbeat_at "text/plain").

(** A read that maps every failure to [None]; it never fails itself. *)
Definition read_heartbeat (list_uuid author_agent_id issue_id : string) (w : world)
    : option string * world :=
  match get_kv (heartbeat_store_topic list_uuid author_agent_id) ("hb-" +:+ issue_id) w with
  | (Ok (Some value), w') => (if utf8_valid value then Some value else None, w')
  | (_, w') => (None, w')
  end.

Definition join_peer_heartbeats (list_uuid peer_agent_id : string) : M unit :=
  tolerate_conflict (join_kv_store (heartbeat_store_topic list_uuid peer_agent_id) peer_agent_id).

(** ** Inversion of the monad *)

Lemma bind_Ok {A B} (c : M A) (f : A → M B) w b w' :
  (c ≫= f) w = (Ok b, w') ↔ ∃ a w1, c w = (Ok a, w1) ∧ f a w1 = (Ok b, w').
Proof.
  unfold mbind, M_bind. destruct (c w) as [[a|e] w1]; [naive_solver|].
  split; [done|]. intros (?&?&[=]&_).
Qed.

Lemma mret_Ok {A} (a b : A) w w' : (mret a : M A) w = (Ok b, w') ↔ a = b ∧ w = w'.
Proof. unfold mret, M_ret. naive_solver. Qed.

Lemma client_Ok {A} (call : world → result A ClientError * world) w a w' :
  client call w = (Ok a, w') ↔ call w = (Ok a, w').
Proof. unfold client. destruct (call w) as [[?|?] ?]; simpl; naive_solver. Qed.

Lemma lift_Ok {A} (r : result A V2StoreError) a w w' :
  lift r w = (Ok a, w') ↔ r = Ok a ∧ w = w'.
Proof. unfold lift. naive_solver. Qed.
End store.

(** Unfold an [Ok] run of the monad into the [Ok] runs of its calls. *)
Ltac m_inv :=
  repeat match goal with
  | H : (_ ≫= _) _ = (Ok _, _) |- _ => apply bind_Ok in H as (?&?&?&?)
  | H : mret _ _ = (Ok _, _) |- _ => apply mret_Ok in H as [? ?]; subst
  | H : client _ _ = (Ok _, _) |- _ => apply client_Ok in H
  | H : lift _ _ = (Ok _, _) |- _ => apply lift_Ok in H as [? ?]; subst
  | H : fail _ _ = (Ok _, _) |- _ => discriminate H
  | H : (if ?b then _ else _) _ = (Ok _, _) |- _ => destruct b eqn:?
  | H : (match ?o with None => _ | Some _ => _ end) _ = (Ok _, _) |- _ => destruct o eqn:?
  end.

Section store_spec.
Context `{X : Extern} `{D : Daemon} `{E : Encoders}.

(** ** What an accepted anchor means *)

Definition anchored (m : V2StoreManager) (topic owner : string) (w : world) : Prop :=
  ∃ d, (kv_store_detail topic w).1 = Ok (Some d) ∧ sd_owner d = Some owner ∧
    (mgr_mode m = AppendOnly → sd_policy d = Some "append_only").

Lemma verify_store_anchor_Ok m topic owner w :
  (verify_store_anchor m topic owner w).1 = Ok () ↔ anchored m topic owner w.
Proof.
  unfold verify_store_anchor, anchored, client, mbind, M_bind.
  destruct (kv_store_detail topic w) as [[[d|]|e] w1]; simpl; [|naive_solver..].
  case_bool_decide as Ho; simpl; [|naive_solver].
  case_bool_decide as Hm; simpl; [|naive_solver].
  case_bool_decide as Hp; simpl; naive_solver.
Qed.

(** ** Reads respect the budgets of the fold *)

Lemma read_records_budget m author topic keys card acc w card' records w' :
  read_records m author topic keys card acc w = (Ok (card', records), w') →
  (∀ r, r ∈ acc → (blen (sr_value r) ≤ max_record_bytes (mgr_limits m))%N) →
  length records ≤ length acc + length keys ∧
  ∀ r, r ∈ records → (blen (sr_value r) ≤ max_record_bytes (mgr_limits m))%N.
Proof.
  revert card acc w. induction keys as [|key keys IH]; intros card acc w H Hacc; simpl in H.
  - m_inv. simplify_eq. split; [lia|done].
  - m_inv; [|by edestruct IH as [? ?]; [done..|split; [simpl; lia|]]].
    edestruct IH as [Hlen Hall]; [done| |].
    + intros r [Hr|Hr%list_elem_of_singleton]%elem_of_app; [auto|]. subst r. simpl.
      by apply N.ltb_ge.
    + split; [|done]. rewrite length_app in Hlen. simpl in *. lia.
Qed.

Lemma read_author_stream_Ok m list_uuid author w s w' :
  read_author_stream m list_uuid author w = (Ok s, w') →
  as_owner s = author ∧ within_budget (mgr_limits m) s ∧
  anchored m (event_store_topic list_uuid author) author w.
Proof.
  unfold read_author_stream. intros H. m_inv. simpl.
  match goal with Hr : read_records _ _ _ _ _ _ _ = (Ok ?p, _) |- _ =>
    destruct p as [card records]; apply read_records_budget in Hr as [Hlen Hall];
      [|by intros ? ?%elem_of_nil] end.
  match goal with Hl : (_ <? _)%N = false |- _ => apply N.ltb_ge in Hl end.
  split_and!; [done|split|].
  - simpl in *. unfold llen in *. lia.
  - done.
  - apply verify_store_anchor_Ok.
    match goal with Ha : verify_store_anchor _ _ _ w = (Ok ?u, _) |- _ => rewrite Ha; by destruct u end.
Qed.

Lemma read_members_Ok m list_uuid creator members streams w streams' w' :
  read_members m list_uuid creator members streams w = (Ok streams', w') →
  ∃ added, streams' = streams ++ added ∧
    (as_owner <$> added) `sublist_of` filter (λ a, a ≠ creator) members ∧
    ∀ s, s ∈ added → within_budget (mgr_limits m) s ∧
      ∃ w1, anchored m (event_store_topic list_uuid (as_owner s)) (as_owner s) w1.
Proof.
  revert streams w. induction members as [|member rest IH]; intros streams w H; simpl in H.
  { m_inv. exists []. rewrite app_nil_r. split_and!; [done|done|by intros ? ?%elem_of_nil]. }
  rewrite filter_cons. case_bool_decide as Hm.
  { rewrite decide_False by (intros []; done). by eapply IH. }
  rewrite decide_True by done.
  assert (Hskip : ∀ w1, read_members m list_uuid creator rest streams w1 = (Ok streams', w') →
    ∃ added, streams' = streams ++ added ∧
    (as_owner <$> added) `sublist_of` member :: filter (λ a, a ≠ creator) rest ∧
    ∀ s, s ∈ added → within_budget (mgr_limits m) s ∧
      ∃ w1, anchored m (event_store_topic list_uuid (as_owner s)) (as_owner s) w1).
  { intros w1 H1. destruct (IH _ _ H1) as (added&?&?&?). exists added.
    split_and!; [done|by apply sublist_cons|done]. }
  destruct (read_author_stream m list_uuid member w) as [[s|e] w1] eqn:Hs.
  - apply read_author_stream_Ok in Hs as (<-&Hb&Ha).
    destruct (IH _ _ H) as (added&->&Hsub&Hall). exists (s :: added).
    rewrite <-app_assoc. split_and!; [done|by apply sublist_skip|].
    intros s' [->|Hs']%elem_of_cons; [by split; [|exists w]|auto].
  - destruct e as [[status body|]| | | | | | | |]; try done; [|by eapply Hskip].
    destruct (status =? NOT_FOUND)%N; [by eapply Hskip|done].
Qed.

(** Everything a successful read guarantees. *)
Lemma read_fold_input_Ok m list_uuid creator w input w' :
  read_fold_input m list_uuid creator w = (Ok input, w') →
  fi_list_uuid input = list_uuid ∧ fi_creator input = creator ∧ fi_limits input = mgr_limits m ∧
  (llen (fi_streams input) ≤ max_roster_members (mgr_limits m) + 1)%N ∧
  NoDup (as_owner <$> fi_streams input) ∧
  head (as_owner <$> fi_streams input) = Some creator ∧
  ∀ s, s ∈ fi_streams input → within_budget (mgr_limits m) s ∧
    ∃ w1, anchored m (event_store_topic list_uuid (as_owner s)) (as_owner s) w1.
Proof.
  unfold read_fold_input. intros H. m_inv. simpl.
  match goal with Hs : read_author_stream _ _ _ _ = (Ok ?s, _) |- _ =>
    apply read_author_stream_Ok in Hs as (Ho&Hb&Ha); rename s into cs end.
  match goal with Hr : read_members _ _ _ _ _ _ = (Ok _, _) |- _ =>
    apply read_members_Ok in Hr as (added&->&Hsub&Hall) end.
  match goal with Hl : (_ <? _)%N = false |- _ => apply N.ltb_ge in Hl as Hsize end.
  assert (Hlen : length added ≤ size (roster_members (as_records cs))).
  { rewrite <-(length_fmap as_owner added). etrans; [by apply sublist_length|].
    etrans; [apply length_filter|]. unfold bset_iter. by rewrite length_sort_by. }
  split_and!; try done.
  - unfold llen. simpl. lia.
  - simpl. rewrite Ho. apply NoDup_cons. split.
    + intros Hin. eapply elem_of_submseteq in Hin; [|by apply sublist_submseteq].
      by apply list_elem_of_filter in Hin as [? _].
    + eapply sublist_NoDup; [|done]. apply NoDup_filter. unfold bset_iter.
      rewrite sort_by_perm. apply NoDup_elements.
  - simpl. by rewrite Ho.
  - simpl. intros s [->|Hs]%elem_of_cons; [|auto]. split; [done|]. exists w. by rewrite Ho.
Qed.

(** ** Writes *)

(** The record [key -> value] is in the store [topic]: the daemon returned it,
    or it acknowledged writing it. *)
Definition published (topic key : string) (value : bytes) : Prop :=
  (∃ w, (get_kv topic key w).1 = Ok (Some value)) ∨
  (∃ w, (put_kv topic key value V2_ENVELOPE_CONTENT_TYPE w).1 = Ok ()).

Lemma put_once_Ok topic key env w u w' :
  put_once topic key env w = (Ok u, w') →
  ∃ value, enc_envelope env = Ok value ∧ published topic key value.
Proof.
  unfold put_once. intros H. m_inv.
  - match goal with He : map_err _ (enc_envelope env) = Ok ?v |- _ =>
      apply map_err_Ok in He; exists v; split; [done|] end.
    match goal with Hb : bool_decide _ = true |- _ => apply bool_decide_eq_true in Hb as -> end.
    left. match goal with Hg : get_kv topic key ?w0 = _ |- _ => exists w0; by rewrite Hg end.
  - match goal with He : map_err _ (enc_envelope env) = Ok ?v |- _ =>
      apply map_err_Ok in He; exists v; split; [done|] end.
    right. match goal with Hp : match put_kv _ _ _ _ ?w0 with _ => _ end = _ |- _ => exists w0 end.
    destruct (put_kv _ _ _ _ _) as [[[]|e] w1]; [done|].
    destruct e as [status body|]; [destruct (_ =? _)%N|]; done.
Qed.

(** A write is attempted only when the daemon reported the key absent: with
    any value present the world is left as the lookup left it. *)
Lemma put_once_present topic key env w w1 value r w' :
  get_kv topic key w = (Ok (Some value), w1) → put_once topic key env w = (r, w') →
  match enc_envelope env with
  | Ok b => w' = w1 ∧ r = if bool_decide (value = b) then Ok () else Err (ImmutableConflict topic key)
  | Err _ => w' = w
  end.
Proof.
  intros Hg. unfold put_once, mbind, M_bind, lift. destruct (enc_envelope env) as [b|e]; simpl.
  - unfold client. rewrite Hg. simpl. case_bool_decide; intros [= <- <-]; done.
  - by intros [= <- <-].
Qed.

(** ** The local store is bound to the local key *)

Definition own_bound (own : OwnEventStore) : Prop :=
  derive_agent_id_hex (own_public_key own) = own_agent_id own ∧
  own_topic own = event_store_topic (own_list_uuid own) (own_agent_id own).

Lemma ensure_own_store_Ok m list_uuid w own w' :
  ensure_own_store m list_uuid w = (Ok own, w') →
  own_bound own ∧ own_list_uuid own = list_uuid ∧ own_policy own = mgr_mode m ∧
  (∃ w1, anchored m (own_topic own) (own_agent_id own) w1) ∧
  ((∃ w1, (get_kv (own_topic own) CARD_SELF_KEY w1).1 = Ok (Some (own_public_key own))) ∨
   (∃ w1, (put_kv (own_topic own) CARD_SELF_KEY (own_public_key own) CARD_SELF_CONTENT_TYPE w1).1
            = Ok ())).
Proof.
  unfold ensure_own_store. intros H. m_inv; simpl;
    match goal with Hd : bool_decide (derive_agent_id_hex _ ≠ _) = false |- _ =>
      apply bool_decide_eq_false_1, dec_stable in Hd as Hder end;
    match goal with Ha : verify_store_anchor _ _ _ ?w0 = (Ok ?u, _) |- _ =>
      assert (Hanch : ∃ w1, anchored m _ _ w1)
        by (exists w0; apply verify_store_anchor_Ok; rewrite Ha; by destruct u) end;
    (split_and!; [by split|done|done|exact Hanch|]).
  - left. match goal with Hb : bool_decide (_ = _) = true |- _ =>
      apply bool_decide_eq_true in Hb as <- end.
    match goal with Hg : get_kv _ CARD_SELF_KEY ?w0 = _ |- _ => exists w0; by rewrite Hg end.
  - right. match goal with Hp : put_kv _ _ _ _ ?w0 = (Ok ?u, _) |- _ =>
      exists w0; rewrite Hp; by destruct u end.
Qed.

(** ** Appended records are admitted *)

(** The codecs round-trip, and no payload encodes to nothing. *)
Class EncodeLaws : Prop := {
  b64_roundtrip : ∀ b, b64_decode (b64_encode b) = Ok b;
  envelope_roundtrip : ∀ e b, enc_envelope e = Ok b → json_envelope b = Ok e;
  transition_roundtrip : ∀ e b, enc_transition e = Ok b → b ≠ "" ∧ json_transition b = Ok e;
  approval_roundtrip : ∀ e b, enc_approval e = Ok b → b ≠ "" ∧ json_approval b = Ok e;
  consume_roundtrip : ∀ e b, enc_consume e = Ok b → b ≠ "" ∧ json_consume b = Ok e;
  handoff_roundtrip : ∀ e b, enc_handoff e = Ok b → b ≠ "" ∧ json_handoff b = Ok e
}.

(** The daemon's [/agent/sign] for the agent that owns [own]: its responses
    carry the v2 algorithm, the agent's key and a signature that verifies. *)
Class HonestSigner (own : OwnEventStore) : Prop := honest_sign :
  ∀ ctx payload w r w', sign ctx payload w = (Ok r, w') → sg_agent_id r = own_agent_id own →
    sg_algorithm r = V2_SIGN_ALGORITHM ∧
    decode_b64 "public_key_b64" (sg_public_key_b64 r) = Ok (own_public_key own) ∧
    ∃ signature, decode_b64 "signature_b64" (sg_signature_b64 r) = Ok signature ∧
      verify_external_signature ctx payload signature (own_public_key own) = Ok ().

Context `{L : !EncodeLaws}.

Lemma sign_envelope_verifies own `{!HonestSigner own} ctx payload w env w' :
  own_bound own → payload ≠ "" →
  sign_envelope own ctx payload w = (Ok env, w') →
  env_schema env = V2_SCHEMA ∧
  envelope_verify env ctx = Ok (payload, sha256_hex payload) ∧
  check_envelope_key env (own_agent_id own) (own_public_key own) = Ok ().
Proof.
  intros [Hder _] Hne. unfold sign_envelope. intros H. m_inv.
  match goal with Hs : (let '(_, _) := sign ctx payload ?w0 in _) = (Ok ?r, _) |- _ =>
    destruct (sign ctx payload w0) as [[r0|] w2] eqn:Hsign; [|discriminate Hs];
    injection Hs as -> -> end.
  match goal with Hd : bool_decide (_ ≠ _) = false |- _ =>
    apply bool_decide_eq_false_1, dec_stable in Hd as Hid end.
  destruct (honest_sign _ _ _ _ _ Hsign Hid) as (Halg&Hpk&signature&Hsig&Hver).
  split_and!; [done| |].
  - unfold envelope_verify, payload_bytes. simpl. rewrite Halg.
    rewrite !bool_decide_eq_false_2 by (by intros []).
    unfold decode_b64 at 1. rewrite b64_roundtrip. simpl. rewrite bool_decide_eq_false_2 by done.
    rewrite Hsig. simpl. rewrite Hpk. simpl. rewrite Hver. simpl.
    rewrite Hder, Hid. by rewrite bool_decide_eq_false_2 by (by intros []).
  - unfold check_envelope_key. simpl. rewrite Hid. rewrite bool_decide_eq_false_2 by (by intros []).
    rewrite Hpk. simpl. by rewrite bool_decide_eq_false_2 by (by intros []).
Qed.

(** The operation that appends a payload of each kind. *)
Definition append_payload (own : OwnEventStore) (p : ChainedPayload) : M string :=
  match p with
  | PTransition e => append_transition own e
  | PApproval e => append_approval own e
  | PConsume e => append_consume own e
  | PHandoff e => append_handoff own e
  end.

(** The four operations have one shape. *)
Lemma append_payload_Ok own p w h w' :
  append_payload own p w = (Ok h, w') →
  p_actor p = own_agent_id own ∧ p_list_uuid p = own_list_uuid own ∧
  ∃ payload w1 env w2 u,
    payload ≠ "" ∧ p_decodes p payload ∧ h = sha256_hex payload ∧
    sign_envelope own (p_context p) payload w1 = (Ok env, w2) ∧
    put_once (own_topic own) (p_key p h) env w2 = (Ok u, w').
Proof.
  destruct p as [e|e|e|e]; simpl;
    [unfold append_transition|unfold append_approval|unfold append_consume|unfold append_handoff];
    intros H; unfold check_own, append_signed in H; m_inv;
    repeat match goal with
    | Hd : bool_decide (_ ≠ _) = false |- _ => apply bool_decide_eq_false_1, dec_stable in Hd
    | He : map_err _ _ = Ok _ |- _ => apply map_err_Ok in He
    end;
    (split; [done|split; [done|]]); do 5 eexists; split_and!; try done.
  all: first [by eapply transition_roundtrip|by eapply approval_roundtrip
             |by eapply consume_roundtrip|by eapply handoff_roundtrip].
Qed.
End store_spec.
