(* ===== verification/Client.v ===== *)
(** * The x0xd client (client.rs of the tracker crate)

    The records the task-list, key-value and named-group endpoints exchange,
    and their calls as a class over the daemon's world.  HTTP and JSON are
    behind the calls; the endpoints nobody calls here (listing the keys of a
    store for v1 lists, the event stream) are left out. *)

From S2P Require Import Prelude Wire Identity Core Store.

Record TaskListEntry := { tl_id : string; tl_topic : string }.

Record NamedGroupEntry := { ng_group_id : string; ng_name : string }.
Record NamedGroupMember := { gm_agent_id : string; gm_state : option string }.
Record NamedGroupDetails := {
  nd_group_id : string;
  nd_name : string;
  nd_members : list NamedGroupMember
}.
Record JoinedGroup := { jg_group_id : string; jg_group_name : option string }.

Record TaskEntry := {
  te_id : string;
  te_title : string;
  te_description : string;
  te_state : string;
  te_assignee : option string;
  te_priority : N
}.

Record AddTaskDraft := { td_title : string; td_description : option string }.

(** [AddTaskDraft::new] and [with_description]. *)
Definition new_task_draft (title : string) : AddTaskDraft :=
  {| td_title := title; td_description := None |}.
Definition with_description (d : AddTaskDraft) (description : string) : AddTaskDraft :=
  {| td_title := td_title d; td_description := Some description |}.

Inductive TaskAction := TaskClaim | TaskComplete.

#[export] Instance TaskAction_eq_dec : EqDecision TaskAction.
Proof. solve_decision. Defined.

Definition task_action_str (a : TaskAction) : string :=
  match a with TaskClaim => "claim" | TaskComplete => "complete" end.
