(* ===== verification/Gate.v ===== *)
(** * The dispatch gate ([V2ApprovalGate] of v2/gate.rs)

    Consume-then-execute over the event store: the first fold selects an
    approval, a signed consume record is appended, and the gate says [Proceed]
    only when a second fold shows that this very record spent the approval.
    [gate_select] and [gate_consume] are the parts of [evaluate_and_consume]
    before the append; [confirm_decision] is the part after the re-read. *)

From S2P Require Import Prelude Wire Identity FoldTypes Canonical Admission Fold FoldRun Store.

Record V2GateConfig := {
  approval_ttl_secs : N;
  (** the settle delay, in nanoseconds *)
  settle : N
}.

(** [V2GateConfig::default]. *)
Definition default_gate_config : V2GateConfig :=
  {| approval_ttl_secs := 3600; settle := 2 * 1000000000 |}.

Inductive V2GateDecision :=
  | Proceed (approval_event_hash consume_event_hash : string)
  | PendingApproval
  | Denied
  | NotClaimWinner
  | AbortCompetingConsume (approval_event_hash winner_author winner_event_hash : string)
  | AbortIneffective (reason : string).

#[export] Instance V2GateDecision_eq_dec : EqDecision V2GateDecision.
Proof. solve_decision. Defined.

(** What the first fold authorises: the approval and the claim it is for. *)
Record gate_candidate := {
  gc_approval : AdmittedApprovalV2;
  gc_claim_nonce : string;
  gc_claim_event_hash : string
}.

(** Either an immediate decision or a candidate to consume. *)
Inductive gate_selection :=
  | Decided (d : V2GateDecision)
  | Selected (c : gate_candidate).

(** The claim fence, the denial check, and the first unconsumed approval
    within its time to live. *)
Definition gate_select (config : V2GateConfig) (own : OwnEventStore) (out : FoldOutput)
    (issue_id : string) (now_secs : N) : result gate_selection V2StoreError :=
  match fo_issues out !! issue_id with
  | None => Err (InvalidRecord ("issue " +:+ issue_id +:+ " does not exist in the folded list"))
  | Some issue =>
      match is_status issue with
      | StClaimed claimant claim_nonce claim_event_hash =>
          if bool_decide (claimant ≠ own_agent_id own) then Ok (Decided NotClaimWinner)
          else if existsb (approval_covers issue_id (is_open_event_hash issue) Deny)
                          (btree_values (fo_approvals out)) then Ok (Decided Denied)
          else
            match List.find
                    (λ a, (now_secs <=? sat_add64 (ae_approved_at (aa_approval a))
                                                  (approval_ttl_secs config))%N)
                    (unconsumed_approvals out issue_id) with
            | None => Ok (Decided PendingApproval)
            | Some candidate =>
                Ok (Selected {| gc_approval := candidate; gc_claim_nonce := claim_nonce;
                                gc_claim_event_hash := claim_event_hash |})
            end
      | _ => Ok (Decided NotClaimWinner)
      end
  end.

Section gate.
Context `{X : Extern} `{D : Daemon} `{E : Encoders}.

(** The consume record built for the selected candidate. *)
Definition gate_consume (own : OwnEventStore) (out : FoldOutput) (issue_id entropy_seed : string)
    (c : gate_candidate) : ConsumeEventV2 :=
  let '(author_seq, prev_own_event_hash) := next_chain_link out (own_agent_id own) in
  {| ce_schema := V2_SCHEMA; ce_kind := "consume"; ce_list_uuid := own_list_uuid own;
     ce_genesis_manifest_hash := fo_genesis_hash out;
     ce_roster_epoch := fo_latest_roster_epoch out; ce_issue_id := issue_id;
     ce_actor := own_agent_id own; ce_lamport := sat_add64 (fo_max_admitted_lamport out) 1;
     ce_author_seq := author_seq; ce_prev_own_event_hash := prev_own_event_hash;
     ce_approval_event_hash := aa_event_hash (gc_approval c);
     ce_approval_payload_sha256 := aa_event_hash (gc_approval c);
     ce_approver := ae_actor (aa_approval (gc_approval c));
     ce_claim_nonce := gc_claim_nonce c; ce_claimed_event_hash := gc_claim_event_hash c;
     ce_entropy := sha256_hex (own_agent_id own +:+ ":" +:+ pretty author_seq +:+ ":" +:+
                               entropy_seed +:+ ":consume");
     ce_v1_record_json := "" |}.

Definition confirm_decision (confirm : FoldOutput) (approval_event_hash my_consume_hash : string)
    : V2GateDecision :=
  match fo_effective_consumes confirm !! approval_event_hash with
  | Some winner =>
      if bool_decide (ec_event_hash winner = my_consume_hash) then
        Proceed approval_event_hash my_consume_hash
      else
        AbortCompetingConsume approval_event_hash (ce_actor (ec_consume winner))
          (ec_event_hash winner)
  | None =>
      AbortIneffective
        match List.find (λ d, bool_decide (cd_event_hash d = my_consume_hash))
                        (fo_losing_consumes confirm) with
        | Some d => cd_reason d
        | None => "consume did not take effect"
        end
  end.

(** [tokio::time::sleep(self.config.settle)], skipped for a zero delay. *)
Definition settle_sleep (config : V2GateConfig) : M unit :=
  if (settle config =? 0)%N then mret () else λ w, (Ok (), sleep (settle config) w).

Definition evaluate_and_consume (m : V2StoreManager) (config : V2GateConfig)
    (own : OwnEventStore) (creator issue_id : string) (now_secs : N) (entropy_seed : string)
    : M V2GateDecision :=
  input ← read_fold_input m (own_list_uuid own) creator;
  out ← lift (map_err Refused (fold_v2 input));
  selection ← lift (gate_select config own out issue_id now_secs);
  match selection with
  | Decided d => mret d
  | Selected c =>
      my_consume_hash ← append_consume own (gate_consume own out issue_id entropy_seed c);
      _ ← settle_sleep config;
      input2 ← read_fold_input m (own_list_uuid own) creator;
      confirm ← lift (map_err Refused (fold_v2 input2));
      mret (confirm_decision confirm (aa_event_hash (gc_approval c)) my_consume_hash)
  end.

Definition build_claim_transition (out : FoldOutput) (list_uuid agent_id issue_id : string)
    : TransitionEventV2 :=
  let '(author_seq, prev_own_event_hash) := next_chain_link out agent_id in
  let lamport := sat_add64 (fo_max_admitted_lamport out) 1 in
  {| tr_schema := V2_SCHEMA; tr_list_uuid := list_uuid;
     tr_genesis_manifest_hash := fo_genesis_hash out;
     tr_roster_epoch := fo_latest_roster_epoch out; tr_issue_id := issue_id;
     tr_actor := agent_id; tr_lamport := lamport; tr_author_seq := author_seq;
     tr_prev_own_event_hash := prev_own_event_hash;
     tr_kind := TkClaim (derive_claim_nonce agent_id author_seq lamport issue_id) |}.

(** ** Selection *)

(** A candidate the gate may spend for [own] on the claimed issue [id]. *)
Definition spendable (config : V2GateConfig) (own : OwnEventStore) (out : FoldOutput)
    (id : string) (now : N) (c : gate_candidate) : Prop :=
  ∃ issue, fo_issues out !! id = Some issue ∧
    is_status issue = StClaimed (own_agent_id own) (gc_claim_nonce c) (gc_claim_event_hash c) ∧
    gc_approval c ∈ unconsumed_approvals out id ∧
    (now ≤ sat_add64 (ae_approved_at (aa_approval (gc_approval c))) (approval_ttl_secs config))%N.

(** [own] holds the claim of the issue; its content is denied. *)
Definition claim_held (own : OwnEventStore) (issue : IssueStateV2) : Prop :=
  ∃ n h, is_status issue = StClaimed (own_agent_id own) n h.
#[export] Instance claim_held_dec own issue : Decision (claim_held own issue).
Proof.
  unfold claim_held. destruct (is_status issue) as [|who n h|who n h b r|who h].
  2: destruct (decide (who = own_agent_id own)) as [->|]; [left; eauto|].
  all: right; intros (?&?&?); congruence.
Defined.
Definition content_denied (out : FoldOutput) (id : string) (issue : IssueStateV2) : Prop :=
  ∃ k a, fo_approvals out !! k = Some a ∧
    approval_covers id (is_open_event_hash issue) Deny a = true.

(** Why the gate decides without consuming anything. *)
Definition gate_reason (config : V2GateConfig) (own : OwnEventStore) (out : FoldOutput)
    (id : string) (now : N) (d : V2GateDecision) : Prop :=
  ∃ issue, fo_issues out !! id = Some issue ∧
  match d with
  | NotClaimWinner => ¬ claim_held own issue
  | Denied => claim_held own issue ∧ content_denied out id issue
  | PendingApproval => claim_held own issue ∧ ¬ content_denied out id issue ∧
      ∀ a, a ∈ unconsumed_approvals out id →
        (sat_add64 (ae_approved_at (aa_approval a)) (approval_ttl_secs config) < now)%N
  | _ => False
  end.

Lemma denied_spec out id issue :
  existsb (approval_covers id (is_open_event_hash issue) Deny) (btree_values (fo_approvals out))
    = true ↔ content_denied out id issue.
Proof.
  unfold content_denied. rewrite existsb_exists. split.
  - intros (a&Ha&Hc). apply list_elem_of_In, elem_of_btree_values in Ha as [k Hk]. eauto.
  - intros (k&a&Hk&Hc). exists a. split; [|done]. apply list_elem_of_In, elem_of_btree_values. eauto.
Qed.

Lemma gate_select_Selected config own out id now c :
  gate_select config own out id now = Ok (Selected c) → spendable config own out id now c.
Proof.
  unfold gate_select, spendable. destruct (fo_issues out !! id) as [issue|]; [|done].
  destruct (is_status issue) eqn:Hs; try done.
  case_bool_decide as Hc; [done|]. rewrite Hc in Hs.
  destruct (existsb _ _); [done|].
  destruct (List.find _ _) as [a|] eqn:Hf; [|done]. intros [= <-]. simpl.
  apply find_some in Hf as [Hin Hle]. exists issue. split_and!; [done|done| |].
  - by apply list_elem_of_In.
  - by apply N.leb_le.
Qed.

Lemma gate_select_Decided config own out id now d :
  gate_select config own out id now = Ok (Decided d) ↔ gate_reason config own out id now d.
Proof.
  unfold gate_select, gate_reason. destruct (fo_issues out !! id) as [issue|];
    [|split; [done|by intros (?&?&_)]].
  trans (match d with
         | NotClaimWinner => ¬ claim_held own issue
         | Denied => claim_held own issue ∧ content_denied out id issue
         | PendingApproval => claim_held own issue ∧ ¬ content_denied out id issue ∧
             ∀ a, a ∈ unconsumed_approvals out id →
               (sat_add64 (ae_approved_at (aa_approval a)) (approval_ttl_secs config) < now)%N
         | _ => False end); [|naive_solver].
  destruct (decide (claim_held own issue)) as [Hh|Hh].
  2: { unfold claim_held in Hh. trans (NotClaimWinner = d).
       - destruct (is_status issue); try naive_solver. rewrite bool_decide_eq_true_2; naive_solver.
       - unfold claim_held. destruct d; naive_solver. }
  pose proof Hh as (n&h&->). rewrite bool_decide_eq_false_2 by (by intros []).
  destruct (existsb _ _) eqn:Hex.
  { apply denied_spec in Hex. unfold claim_held. destruct d; naive_solver. }
  apply not_true_iff_false in Hex. rewrite denied_spec in Hex.
  destruct (List.find _ _) as [a|] eqn:Hf.
  - apply find_some in Hf as [Hin%list_elem_of_In Hle%N.leb_le].
    split; [done|]. destruct d; try done; try naive_solver.
    intros (_&_&Hall). specialize (Hall a Hin). lia.
  - trans (PendingApproval = d); [naive_solver|]. split; [|destruct d; naive_solver].
    intros <-. split_and!; [done..|].
    intros a Ha%list_elem_of_In. by apply N.leb_gt, (find_none _ _ Hf).
Qed.

(** ** Runs of the gate *)

(** A run that ends in a decision either decided on the first fold, leaving
    the world as the read left it, or consumed and confirmed. *)
Lemma evaluate_and_consume_Ok m config own creator id now seed w d w' :
  evaluate_and_consume m config own creator id now seed w = (Ok d, w') →
  ∃ input out w1, read_fold_input m (own_list_uuid own) creator w = (Ok input, w1) ∧
    fold_v2 input = Ok out ∧
    ((gate_reason config own out id now d ∧ w' = w1) ∨
     ∃ c h w2 w3 input2 confirm,
       spendable config own out id now c ∧
       append_consume own (gate_consume own out id seed c) w1 = (Ok h, w2) ∧
       (settle_sleep config w2).2 = w3 ∧
       read_fold_input m (own_list_uuid own) creator w3 = (Ok input2, w') ∧
       fold_v2 input2 = Ok confirm ∧
       d = confirm_decision confirm (aa_event_hash (gc_approval c)) h).
Proof.
  unfold evaluate_and_consume. intros H. m_inv.
  repeat match goal with
  | He : map_err Refused _ = Ok _ |- _ => apply map_err_Ok in He
  | He : map_err Refused _ = Ok _ ∧ _ |- _ => destruct He as [He ?]; subst
  end.
  do 3 eexists. split; [eassumption|]. split; [eassumption|].
  match goal with Hs : gate_select _ _ _ _ _ = Ok ?s |- _ => destruct s as [d0|c] end.
  - m_inv. left. split; [|done]. by apply gate_select_Decided.
  - m_inv. right.
    repeat match goal with He : map_err Refused _ = Ok _ |- _ => apply map_err_Ok in He end.
    do 6 eexists. split_and!; [by apply gate_select_Selected|eassumption| |eassumption..|done].
    match goal with Hs : settle_sleep _ _ = _ |- _ => by rewrite Hs end.
Qed.

(** The consume record of the gate meets the conditions of admission that
    depend on its content. *)
Lemma gate_consume_content own out id seed c list_uuid gh roster :
  p_content_ok (PConsume (gate_consume own out id seed c)) list_uuid gh roster.
Proof. unfold gate_consume. by destruct (next_chain_link _ _). Qed.

Lemma confirm_decision_Proceed confirm a h a' h' :
  confirm_decision confirm a h = Proceed a' h' ↔
  a' = a ∧ h' = h ∧ ∃ e, fo_effective_consumes confirm !! a = Some e ∧ ec_event_hash e = h.
Proof.
  unfold confirm_decision. destruct (fo_effective_consumes confirm !! a) as [e|].
  - case_bool_decide; naive_solver.
  - naive_solver.
Qed.
End gate.
