(* ===== verification/Claims.v ===== *)
(** * Claims and shards (shard.rs of the core crate, reconcile.rs of the
    orchestrator)

    [Shards]: the deterministic assignment of an issue to its closest workers.
    [Reconcile]: claim freshness, heartbeat intervals and the tiebreak between
    conflicting claims. *)

From S2P Require Import Prelude Wire Identity Core Canonical.

Module Shards.
Section shards.
Context `{X : Extern}.

Definition DEFAULT_REPLICATION_FACTOR : N := 3.
Definition DEFAULT_CLAIM_TTL_MS : N := 3600000.
Definition STATIC_WORKER_VIEW_EPOCH : N := 1.

(** SHA-256 digests are the 32-byte node identifiers. *)
Definition node_id (value : string) : bytes := sha256 value.

Fixpoint xor_distance (l r : bytes) : bytes :=
  match l, r with
  | String a l, String b r =>
      String (ascii_of_N (N.lxor (N_of_ascii a) (N_of_ascii b))) (xor_distance l r)
  | _, _ => EmptyString
  end.

Definition unique_workers (workers : list string) : list string :=
  bset_iter (list_to_set workers).

(** The sort key of a worker: its distance to the issue, then its id. *)
Definition ranked_worker (issue_id worker : string) : bytes * string :=
  (xor_distance (node_id issue_id) (node_id worker), worker).

Definition assign_with_metadata (issue_id : string) (workers : list string)
    (k ttl_ms view_epoch : N) : option Shard :=
  let ranked := sort_by id (ranked_worker issue_id <$> unique_workers workers) in
  p ← head ranked;
  let backup_count := N.min (k - 1) (llen ranked - 1) in
  Some {| primary := p.2;
          backups := snd <$> take (N.to_nat backup_count) (drop 1 ranked);
          claim_ttl_ms := ttl_ms; created_view_epoch := view_epoch |}.

Definition assign (issue_id : string) (workers : list string) (k : N) : option Shard :=
  assign_with_metadata issue_id workers k DEFAULT_CLAIM_TTL_MS STATIC_WORKER_VIEW_EPOCH.

(** The owners of a shard, in the order in which they may claim. *)
Definition slate (s : Shard) : list string := primary s :: backups s.

(** [slate] lists the [k] workers closest to the issue (at least one, at most
    all), closest first. *)
Definition closest (issue_id : string) (workers : list string) (k : N) (l : list string) : Prop :=
  NoDup l ∧ l ⊆ workers ∧
  llen l = N.min (N.max k 1) (N.of_nat (size (list_to_set workers : gset string))) ∧
  StronglySorted (key_le (ranked_worker issue_id)) l ∧
  ∀ w v, w ∈ l → v ∈ workers → v ∉ l → key_le (ranked_worker issue_id) w v.

Lemma elem_of_unique_workers w workers : w ∈ unique_workers workers ↔ w ∈ workers.
Proof. unfold unique_workers, bset_iter. by rewrite elem_of_sort_by, elem_of_elements, elem_of_list_to_set. Qed.

Lemma NoDup_unique_workers workers : NoDup (unique_workers workers).
Proof. unfold unique_workers, bset_iter. rewrite sort_by_perm. apply NoDup_elements. Qed.

(** Sorting by the key of the workers is sorting the workers by their key. *)
Lemma sort_ranked issue_id l :
  sort_by id (ranked_worker issue_id <$> l) =
    ranked_worker issue_id <$> sort_by (ranked_worker issue_id) l.
Proof.
  induction l as [|w l IH]; [done|].
  change (insert_by id (ranked_worker issue_id w) (sort_by id (ranked_worker issue_id <$> l)) =
    ranked_worker issue_id <$> insert_by (ranked_worker issue_id) w
      (sort_by (ranked_worker issue_id) l)). rewrite IH.
  generalize (sort_by (ranked_worker issue_id) l) as k. clear.
  induction k as [|v k IH]; [done|]. rewrite fmap_cons. cbn [insert_by]. unfold id at 1 2.
  destruct (rcmp _ _); [done..|]. by rewrite fmap_cons, IH.
Qed.

Lemma StronglySorted_take_drop {A} (R : A → A → Prop) n (l : list A) x y :
  StronglySorted R l → x ∈ take n l → y ∈ drop n l → R x y.
Proof.
  intros Hs. revert n. induction Hs as [|a l Hs IH Ha]; intros [|n]; simpl;
    try (by intros ?%elem_of_nil); try (intros ? ?%elem_of_nil; done).
  intros [->|Hx]%elem_of_cons Hy; [|by eapply IH].
  rewrite Forall_forall in Ha. apply Ha. by eapply elem_of_submseteq, submseteq_drop.
Qed.

Lemma assign_slate issue_id workers k ttl epoch s :
  assign_with_metadata issue_id workers k ttl epoch = Some s →
  let l := sort_by (ranked_worker issue_id) (unique_workers workers) in
  slate s = take (N.to_nat (N.min (N.max k 1) (llen l))) l ∧
  claim_ttl_ms s = ttl ∧ created_view_epoch s = epoch.
Proof.
  unfold assign_with_metadata. rewrite sort_ranked. intros H. simpl.
  destruct (sort_by (ranked_worker issue_id) (unique_workers workers)) as [|w l]; [done|].
  simpl in H. injection H as <-. unfold slate. simpl. split; [|done].
  replace (N.to_nat (N.min (N.max k 1) (llen (w :: l))))
    with (S (N.to_nat (N.min (k - 1) (llen (w :: l) - 1)))) by (unfold llen; simpl; lia).
  simpl. f_equal. unfold llen. rewrite drop_0, <-fmap_take. simpl. rewrite length_fmap.
  rewrite <-list_fmap_compose. by rewrite list_fmap_id.
Qed.

(** An issue is owned by the workers closest to it: no worker listed means
    no shard; otherwise the primary and the backups, in this order, are the
    [k] distinct workers (at least one, at most all) with the least XOR
    distance between the digests of issue and worker, ties broken by agent id;
    and agents that see the same set of workers, in any order and with any
    repetitions, freeze the same shard. *)
Theorem assign_closest (issue_id : string) (workers : list string) (k ttl_ms view_epoch : N) :
  match assign_with_metadata issue_id workers k ttl_ms view_epoch with
  | None => workers = []
  | Some s => closest issue_id workers k (slate s) ∧
      claim_ttl_ms s = ttl_ms ∧ created_view_epoch s = view_epoch
  end ∧
  ∀ workers', (∀ w, w ∈ workers ↔ w ∈ workers') →
    assign_with_metadata issue_id workers' k ttl_ms view_epoch =
      assign_with_metadata issue_id workers k ttl_ms view_epoch.
Proof.
  split.
  - destruct (assign_with_metadata issue_id workers k ttl_ms view_epoch) as [s|] eqn:Ha.
    + apply assign_slate in Ha as (Hs&->&->). split; [|done]. rewrite Hs.
      set (l := sort_by (ranked_worker issue_id) (unique_workers workers)) in *.
      assert (Hl : ∀ w, w ∈ l ↔ w ∈ workers).
      { intros w. unfold l. by rewrite elem_of_sort_by, elem_of_unique_workers. }
      assert (Hlen : llen l = N.of_nat (size (list_to_set workers : gset string))).
      { unfold llen, l, unique_workers, bset_iter. by rewrite !length_sort_by. }
      assert (Hsort : StronglySorted (key_le (ranked_worker issue_id)) l) by (unfold l; auto with ordering).
      split_and!.
      * eapply sublist_NoDup; [|apply sublist_take]. unfold l. rewrite sort_by_perm.
        apply NoDup_unique_workers.
      * intros w Hw. apply Hl. by eapply elem_of_submseteq, submseteq_take.
      * unfold llen in *. rewrite length_take. lia.
      * rewrite <-(take_drop (N.to_nat (N.min (N.max k 1) (llen l))) l) in Hsort.
        by apply StronglySorted_app_1_l in Hsort.
      * intros w v Hw Hv Hnv. eapply StronglySorted_take_drop; [exact Hsort|exact Hw|].
        apply Hl in Hv. rewrite <-(take_drop (N.to_nat (N.min (N.max k 1) (llen l))) l) in Hv.
        by apply elem_of_app in Hv as [|].
    + unfold assign_with_metadata in Ha. rewrite sort_ranked in Ha.
      destruct (sort_by (ranked_worker issue_id) (unique_workers workers)) eqn:Hl; [|done].
      destruct workers as [|w workers]; [done|]. exfalso. apply (not_elem_of_nil w).
      rewrite <-Hl, elem_of_sort_by, elem_of_unique_workers. apply elem_of_cons. by left.
  - intros workers' Hw. unfold assign_with_metadata, unique_workers.
    replace (list_to_set workers' : gset string) with (list_to_set workers : gset string); [done|].
    apply leibniz_equiv. intros w. rewrite !elem_of_list_to_set. apply Hw.
Qed.
End shards.
End Shards.

Module Reconcile.
(** [DateTime::parse_from_rfc3339], in nanoseconds since the epoch. *)
Class Chrono := { parse_from_rfc3339 : string → result Z string }.

Inductive Error := BadHeartbeat (timestamp source : string).

Inductive ClaimStance := FreshSelf | StaleSelf | Foreign.

#[export] Instance ClaimStance_eq_dec : EqDecision ClaimStance.
Proof. solve_decision. Defined.

(** Instants and [chrono::Duration]s are in nanoseconds. *)
Definition ms_ns : Z := 1000000.
Definition i64_max : N := 9223372036854775807.

Section reconcile.
Context `{C : Chrono}.

Definition parse_heartbeat (heartbeat_at : string) : result Z Error :=
  map_err (BadHeartbeat heartbeat_at) (parse_from_rfc3339 heartbeat_at).

Definition classify (claim : Claim) (owner : string) (now ttl : Z) : result ClaimStance Error :=
  if bool_decide (cl_by claim ≠ owner) then Ok Foreign
  else
    let? heartbeat := parse_heartbeat (cl_heartbeat_at claim) in
    let age := (now - heartbeat)%Z in
    Ok (if (ttl <=? age)%Z then StaleSelf else FreshSelf).

(** [is_fresh_self], at the clock's time. *)
Definition is_fresh_self (claim : Claim) (owner : string) (now ttl : Z) : result bool Error :=
  let? stance := classify claim owner now ttl in
  Ok (bool_decide (stance = FreshSelf)).

Definition is_heartbeat_stale (claim : Claim) (now ttl : Z) : result bool Error :=
  let? heartbeat := parse_heartbeat (cl_heartbeat_at claim) in
  Ok (ttl <=? now - heartbeat)%Z.

(** A [u64] of milliseconds as a duration; [i64::MAX] at most. *)
Definition duration_from_millis_saturating (millis : N) : Z :=
  (Z.of_N (if (millis <=? i64_max)%N then millis else i64_max) * ms_ns)%Z.

(** The functions below read an issue only through its shard. *)
Definition issue_claim_ttl (shard : option Shard) (default_ttl : Z) : Z :=
  match shard with
  | None => default_ttl
  | Some shard => duration_from_millis_saturating (claim_ttl_ms shard)
  end.

(** [num_milliseconds] truncates towards zero. *)
Definition heartbeat_interval_for_ttl (ttl : Z) : Z :=
  let quarter_ms := (Z.max (Z.quot ttl ms_ns) 0 / 4)%Z in
  (Z.max quarter_ms 1 * ms_ns)%Z.

Definition issue_heartbeat_interval (shard : option Shard) (default_ttl : Z) : Z :=
  match shard with
  | None => heartbeat_interval_for_ttl default_ttl
  | Some shard => (Z.of_N (N.max (claim_ttl_ms shard / 4) 1) * ms_ns)%Z
  end.

Definition agent_shard_role (shard : option Shard) (agent_id : string) : option ShardRole :=
  shard ← shard;
  if bool_decide (primary shard = agent_id) then Some Primary
  else (Backup ∘ N.of_nat ∘ fst) <$> list_find (λ backup, backup = agent_id) (backups shard).

(** [Ordering::then_with]. *)
Definition then_with (c d : comparison) : comparison := match c with Eq => d | _ => c end.

Definition compare_claim_precedence (l r : Claim) : comparison :=
  then_with (then_with (rank (cl_shard_role l) ?= rank (cl_shard_role r))%N
                       (String.compare (cl_by l) (cl_by r)))
            (String.compare (cl_at l) (cl_at r)).

(** [Iterator::min_by]: the first of the least elements. *)
Definition winning_conflict_claim (claims : list Claim) : option Claim :=
  match claims with
  | [] => None
  | c :: claims =>
      Some (foldl (λ best d, match compare_claim_precedence best d with Gt => d | _ => best end)
                  c claims)
  end.

(** What the precedence compares. *)
Definition precedence (c : Claim) : N * string * string :=
  (rank (cl_shard_role c), cl_by c, cl_at c).

Lemma compare_claim_precedence_eq l r :
  compare_claim_precedence l r = rcmp (precedence l) (precedence r).
Proof.
  unfold compare_claim_precedence, then_with. simpl. unfold pair_cmp. simpl. unfold pair_cmp. simpl.
  by destruct (rank _ ?= rank _)%N, (String.compare (cl_by l) (cl_by r)).
Qed.

Lemma winning_conflict_claim_spec claims c :
  winning_conflict_claim claims = Some c →
  c ∈ claims ∧ ∀ d, d ∈ claims → key_le precedence c d.
Proof.
  destruct claims as [|c0 claims]; [done|]. intros [= <-].
  induction claims as [|d claims IH] using rev_ind; simpl.
  { split; [by apply elem_of_cons; left|]. intros d Hd%list_elem_of_singleton. subst d. apply ord_le_refl. }
  destruct IH as [Hin Hle]. rewrite foldl_app. simpl.
  set (best := foldl _ c0 claims) in *. rewrite compare_claim_precedence_eq.
  rewrite app_comm_cons. destruct (rcmp _ _) eqn:E.
  1, 2: split; [by apply elem_of_app; left|]; intros d' [Hd|Hd%list_elem_of_singleton]%elem_of_app;
    [by apply Hle|subst d'; unfold key_le, ord_le; congruence].
  split; [by apply elem_of_app; right; apply list_elem_of_singleton|].
  assert (key_le precedence d best) as Hd.
  { apply ord_le_lt_or_eq. left. by apply rcmp_gt_lt. }
  intros d' [Hd'|Hd'%list_elem_of_singleton]%elem_of_app; [|subst d'; apply ord_le_refl].
  etrans; [exact Hd|by apply Hle].
Qed.

(** Conflicting claims have one winner everywhere: agents that see the
    same set of claims, in any order, agree on the role, the claimant and the
    claim time that win; the winner is one of the claims and no claim
    precedes it; with no claims there is no winner. *)
Theorem conflict_winner_agreed (claims claims' : list Claim) :
  (∀ c, c ∈ claims ↔ c ∈ claims') →
  (precedence <$> winning_conflict_claim claims) = (precedence <$> winning_conflict_claim claims') ∧
  match winning_conflict_claim claims with
  | None => claims = []
  | Some c => c ∈ claims ∧ ∀ d, d ∈ claims → key_le precedence c d
  end.
Proof.
  intros Hc. destruct (winning_conflict_claim claims) as [c|] eqn:E.
  - pose proof (winning_conflict_claim_spec _ _ E) as [Hin Hle]. split; [|done].
    destruct (winning_conflict_claim claims') as [c'|] eqn:E'.
    + apply winning_conflict_claim_spec in E' as [Hin' Hle']. simpl. f_equal.
      apply (anti_symm ord_le); [apply Hle, Hc, Hin'|apply Hle', Hc, Hin].
    + destruct claims'; [|done]. by apply Hc, elem_of_nil in Hin.
  - destruct claims; [|done]. split; [|done]. destruct claims' as [|c' ?]; [done|].
    exfalso. apply (not_elem_of_nil c'), Hc, elem_of_cons. by left.
Qed.

(** Heartbeats keep a claim alive: a claim whose last heartbeat is at most
    one heartbeat interval old is never stale, for every shard TTL of at least
    two milliseconds (and for the default TTL when there is no shard); a claim
    of one's own is stale exactly from its TTL on, a foreign one never; and a
    timestamp that does not parse is an error, not freshness. *)
Theorem heartbeat_freshness (shard : option Shard) (default_ttl : Z) (claim : Claim)
    (owner : string) (now : Z) :
  (2 * ms_ns ≤ issue_claim_ttl shard default_ttl)%Z →
  (∀ s, shard = Some s → (claim_ttl_ms s ≤ i64_max)%N) →
  let ttl := issue_claim_ttl shard default_ttl in
  match parse_from_rfc3339 (cl_heartbeat_at claim) with
  | Err e =>
      classify claim owner now ttl =
        if bool_decide (cl_by claim = owner) then Err (BadHeartbeat (cl_heartbeat_at claim) e)
        else Ok Foreign
  | Ok heartbeat =>
      ((now - heartbeat ≤ issue_heartbeat_interval shard default_ttl)%Z →
       classify claim owner now ttl =
         Ok (if bool_decide (cl_by claim = owner) then FreshSelf else Foreign)) ∧
      (classify claim owner now ttl = Ok StaleSelf ↔
       cl_by claim = owner ∧ (heartbeat + ttl ≤ now)%Z)
  end.
Proof.
  intros Httl Hms ttl. subst ttl. unfold classify, parse_heartbeat.
  destruct (parse_from_rfc3339 (cl_heartbeat_at claim)) as [hb|e]; simpl.
  2: { repeat case_bool_decide; try done; congruence. }
  assert (Hint : (issue_heartbeat_interval shard default_ttl < issue_claim_ttl shard default_ttl)%Z).
  { destruct shard as [s|]; simpl in *.
    - specialize (Hms s eq_refl). unfold duration_from_millis_saturating in *.
      rewrite (proj2 (N.leb_le _ _) Hms) in *. unfold ms_ns in *.
      pose proof (N.Div0.mul_div_le (claim_ttl_ms s) 4). lia.
    - unfold heartbeat_interval_for_ttl, ms_ns in *.
      rewrite Z.quot_div_nonneg by lia.
      pose proof (Z.mul_div_le default_ttl 1000000).
      pose proof (Z.mul_div_le (Z.max (default_ttl / 1000000) 0) 4). lia. }
  case_bool_decide as Hby.
  - rewrite bool_decide_eq_false_2 by done. split; [done|]. split; [done|]. by intros [? _].
  - rewrite bool_decide_eq_true_2 by done. split.
    + intros Hage. rewrite (proj2 (Z.leb_gt _ _)) by lia. done.
    + destruct (_ <=? _)%Z eqn:Hle; [apply Z.leb_le in Hle|apply Z.leb_gt in Hle];
        (split; [|intros [_ ?]]); try done; try lia. intros _. split; [done|lia].
Qed.
End reconcile.
End Reconcile.

(** ** Concrete claims *)

Module ClaimsDemo.
Import Reconcile.

Definition primary_claim : Claim := new_claim (Some "i") "worker-b" "t1" Primary.
Definition backup_claim : Claim := new_claim (Some "i") "worker-a" "t0" (Backup 0).

(** The primary wins over an earlier claim of a backup. *)
Lemma conflict_winner_agreed_witness :
  precedence <$> winning_conflict_claim [backup_claim; primary_claim] =
    precedence <$> winning_conflict_claim [primary_claim; backup_claim] ∧
  winning_conflict_claim [backup_claim; primary_claim] = Some primary_claim.
Proof.
  destruct (conflict_winner_agreed [backup_claim; primary_claim] [primary_claim; backup_claim])
    as [H _].
  - intros c. rewrite !elem_of_cons. tauto.
  - split; [exact H|reflexivity].
Defined.

(** Heartbeats at time zero, in a format of one instant. *)
#[export] Instance demo_chrono : Chrono := {|
  parse_from_rfc3339 := λ s, if bool_decide (s = "t0") then Ok 0%Z else Err "invalid"
|}.

Definition demo_shard : Shard := {|
  primary := "worker-b"; backups := ["worker-a"]; claim_ttl_ms := 3600000;
  created_view_epoch := 1 |}.

(** Fifteen minutes after its heartbeat the claim is fresh; after an hour it is
    stale. *)
Lemma heartbeat_freshness_witness :
  classify backup_claim "worker-a" (900000 * ms_ns) (3600000 * ms_ns) = Ok FreshSelf ∧
  classify backup_claim "worker-a" (3600000 * ms_ns) (3600000 * ms_ns) = Ok StaleSelf.
Proof.
  assert (Hs : ∀ s, Some demo_shard = Some s → (claim_ttl_ms s ≤ i64_max)%N)
    by (intros s [= <-]; discriminate).
  assert (Ht : (2 * ms_ns ≤ issue_claim_ttl (Some demo_shard) 0)%Z) by (vm_compute; discriminate).
  split.
  - destruct (heartbeat_freshness (Some demo_shard) 0 backup_claim "worker-a" (900000 * ms_ns)
                Ht Hs) as [H _]. apply H. vm_compute. discriminate.
  - destruct (heartbeat_freshness (Some demo_shard) 0 backup_claim "worker-a" (3600000 * ms_ns)
                Ht Hs) as [_ H]. apply H. split; [reflexivity|]. vm_compute. discriminate.
Defined.
End ClaimsDemo.
