(* ===== verification/Approvals.v ===== *)
(** * Approval records of the core crate (approval.rs)

    The v1 approval, denial and consumption records that the v2 tracker
    carries, and the decision over them: denials are terminal, an approval must
    bind the issue's current content and signer, be unexpired and unspent. *)

From S2P Require Import Prelude Wire Identity Core Claims.
Import Reconcile.

Definition APPROVAL_CONTEXT : string := "x0x-symphony-approval-v1".
Definition APPROVAL_CONSUMED_CONTEXT : string := "x0x-symphony-approval-consumed-v1".
Definition SIGN_ALGORITHM : string := "x0x.agent-sign.v2.ml-dsa-65".

Record ApprovalBindingKey := {
  bk_issue_id : string;
  bk_content_hash : string;
  bk_signer_agent_id : string
}.

#[export] Instance ApprovalBindingKey_eq_dec : EqDecision ApprovalBindingKey.
Proof. solve_decision. Defined.

(** [ApprovalVerdict], with the prefix [V1]. *)
Inductive ApprovalVerdict := V1Approve | V1Deny.

#[export] Instance ApprovalVerdict_eq_dec : EqDecision ApprovalVerdict.
Proof. solve_decision. Defined.

Record ApprovalEvent := {
  av_issue_id : string;
  av_content_hash : string;
  av_signer_agent_id : string;
  av_verdict : ApprovalVerdict;
  av_approved_at : string;
  av_approver_agent_id : string;
  av_claim_id : option string;
  av_signature : option SignatureEnvelope
}.

Record ApprovalConsumed := {
  ac_issue_id : string;
  ac_content_hash : string;
  ac_signer_agent_id : string;
  ac_nonce : string;
  ac_consumed_at : string;
  ac_signature : SignatureEnvelope
}.

Record ApprovalState := {
  aps_events : list ApprovalEvent;
  aps_consumed : list ApprovalConsumed
}.

Inductive ApprovalDecision := Approved | DeniedDecision | Pending.
Inductive ApprovalValidity :=
  | Valid | HashMismatch | Expired | Consumed | SignerMismatch | SignatureInvalid.

#[export] Instance ApprovalDecision_eq_dec : EqDecision ApprovalDecision.
Proof. solve_decision. Defined.
#[export] Instance ApprovalValidity_eq_dec : EqDecision ApprovalValidity.
Proof. solve_decision. Defined.

(** [serde_json] at the two records; an approval is encoded for signing with
    its [signature] cleared, a consumption as the fields before it. *)
Class ApprovalCodec := {
  enc_v1_approval : ApprovalEvent → result bytes string;
  enc_v1_consumed : ApprovalConsumed → result bytes string;
  enc_v1_consumed_payload : ApprovalConsumed → result bytes string;
  dec_v1_approval : bytes → result ApprovalEvent string;
  dec_v1_consumed : bytes → result ApprovalConsumed string
}.

Section approvals.
Context `{X : Extern} `{J : Json} `{C : Chrono} `{V : ApprovalCodec}.

Definition is_lower_hex (c : ascii) : bool := is_ascii_digit c || in_byte_range 97 102 c.

(** [ContentHash::new]. *)
Definition new_content_hash {T} (value : string) : result string (SymphonyError T) :=
  if negb (blen value =? 64)%N || negb (str_all is_lower_hex value) then
    Err (Validation "approval.content_hash" "must be a lowercase SHA-256 hex digest")
  else Ok value.

Definition unsigned (e : ApprovalEvent) : ApprovalEvent := {|
  av_issue_id := av_issue_id e; av_content_hash := av_content_hash e;
  av_signer_agent_id := av_signer_agent_id e; av_verdict := av_verdict e;
  av_approved_at := av_approved_at e; av_approver_agent_id := av_approver_agent_id e;
  av_claim_id := av_claim_id e; av_signature := None |}.

Definition signing_payload_sha256 (e : ApprovalEvent) : result string string :=
  let? payload := enc_v1_approval (unsigned e) in Ok (sha256_hex payload).

Definition signature_envelope_is_consistent (e : ApprovalEvent) : bool :=
  match av_signature e with
  | None => false
  | Some s =>
      bool_decide (se_algorithm s = SIGN_ALGORITHM) && bool_decide (se_context s = APPROVAL_CONTEXT) &&
      bool_decide (se_signer_agent_id s = av_approver_agent_id e) &&
      match signing_payload_sha256 e with
      | Ok digest => bool_decide (digest = se_payload_sha256 s)
      | Err _ => false
      end
  end.

Definition binding_key (e : ApprovalEvent) : ApprovalBindingKey := {|
  bk_issue_id := av_issue_id e; bk_content_hash := av_content_hash e;
  bk_signer_agent_id := av_signer_agent_id e |}.

Definition matches_binding (c : ApprovalConsumed) (b : ApprovalBindingKey) : bool :=
  bool_decide (ac_issue_id c = bk_issue_id b) && bool_decide (ac_content_hash c = bk_content_hash b) &&
  bool_decide (ac_signer_agent_id c = bk_signer_agent_id b).

(** The consistency of a consumption record. *)
Definition consumed_envelope_is_consistent (c : ApprovalConsumed) : bool :=
  bool_decide (se_algorithm (ac_signature c) = SIGN_ALGORITHM) &&
  bool_decide (se_context (ac_signature c) = APPROVAL_CONSUMED_CONTEXT) &&
  match enc_v1_consumed_payload c with
  | Ok payload => bool_decide (sha256_hex payload = se_payload_sha256 (ac_signature c))
  | Err _ => false
  end.

(** The largest [chrono::Duration], in nanoseconds. *)
Definition chrono_max : Z := Z.of_N i64_max * ms_ns.

(** [ttl] is a [std::time::Duration] in nanoseconds. *)
Definition approval_expired (approved_at now : string) (ttl : N) : bool :=
  match parse_from_rfc3339 approved_at, parse_from_rfc3339 now with
  | Ok approved_at, Ok now =>
      if (Z.of_N ttl <=? chrono_max)%Z then (Z.of_N ttl <? now - approved_at)%Z else true
  | _, _ => true
  end.

Definition is_valid (e : ApprovalEvent) (issue : Issue) (signer now : string) (ttl : N)
    (consumed : list ApprovalConsumed) : ApprovalValidity :=
  if negb (signature_envelope_is_consistent e) then SignatureInvalid
  else if bool_decide (av_content_hash e ≠ content_hash issue) then HashMismatch
  else if bool_decide (av_signer_agent_id e ≠ signer) then SignerMismatch
  else if bool_decide (av_verdict e = V1Approve) && approval_expired (av_approved_at e) now ttl
  then Expired
  else if bool_decide (av_verdict e = V1Approve) &&
          existsb (λ c, matches_binding c (binding_key e)) consumed then Consumed
  else Valid.

Fixpoint decide_approvals (events : list ApprovalEvent) (issue : Issue) (signer now : string)
    (ttl : N) (consumed : list ApprovalConsumed) (approved : bool) : ApprovalDecision :=
  match events with
  | [] => if approved then Approved else Pending
  | e :: events =>
      if bool_decide (is_valid e issue signer now ttl consumed = Valid) then
        match av_verdict e with
        | V1Approve => decide_approvals events issue signer now ttl consumed true
        | V1Deny => DeniedDecision
        end
      else decide_approvals events issue signer now ttl consumed approved
  end.

Definition approval_decision (events : list ApprovalEvent) (issue : Issue) (signer now : string)
    (ttl : N) (consumed : list ApprovalConsumed) : ApprovalDecision :=
  decide_approvals events issue signer now ttl consumed false.

(** ** When an event binds *)

(** A signed event of this verdict on the issue's current content and signer. *)
Definition binds (e : ApprovalEvent) (v : ApprovalVerdict) (issue : Issue) (signer : string) : Prop :=
  av_verdict e = v ∧ av_content_hash e = content_hash issue ∧ av_signer_agent_id e = signer ∧
  ∃ s payload, av_signature e = Some s ∧ enc_v1_approval (unsigned e) = Ok payload ∧
    se_payload_sha256 s = sha256_hex payload ∧ se_context s = APPROVAL_CONTEXT ∧
    se_algorithm s = SIGN_ALGORITHM ∧ se_signer_agent_id s = av_approver_agent_id e.

(** The time to live has not passed, by parseable timestamps. *)
Definition unexpired (e : ApprovalEvent) (now : string) (ttl : N) : Prop :=
  ∃ t t', parse_from_rfc3339 (av_approved_at e) = Ok t ∧ parse_from_rfc3339 now = Ok t' ∧
    (Z.of_N ttl ≤ chrono_max)%Z ∧ (t' - t ≤ Z.of_N ttl)%Z.

Definition unspent (e : ApprovalEvent) (consumed : list ApprovalConsumed) : Prop :=
  ∀ c, c ∈ consumed → matches_binding c (binding_key e) = false.

Lemma envelope_consistent_spec e :
  signature_envelope_is_consistent e = true ↔
  ∃ s payload, av_signature e = Some s ∧ enc_v1_approval (unsigned e) = Ok payload ∧
    se_payload_sha256 s = sha256_hex payload ∧ se_context s = APPROVAL_CONTEXT ∧
    se_algorithm s = SIGN_ALGORITHM ∧ se_signer_agent_id s = av_approver_agent_id e.
Proof.
  unfold signature_envelope_is_consistent, signing_payload_sha256.
  destruct (av_signature e) as [s|]; [|naive_solver].
  destruct (enc_v1_approval (unsigned e)) as [p|]; simpl.
  - rewrite !andb_true_iff, !bool_decide_eq_true. naive_solver.
  - rewrite andb_false_r. naive_solver.
Qed.

Lemma approval_expired_spec e now ttl :
  approval_expired (av_approved_at e) now ttl = false ↔ unexpired e now ttl.
Proof.
  unfold approval_expired, unexpired.
  destruct (parse_from_rfc3339 (av_approved_at e)) as [t|], (parse_from_rfc3339 now) as [t'|];
    try (split; [done|naive_solver]).
  destruct (_ <=? _)%Z eqn:Hle; [apply Z.leb_le in Hle|apply Z.leb_gt in Hle].
  - rewrite Z.ltb_ge. split; [eauto 10|]. by intros (?&?&[= <-]&[= <-]&_&?).
  - split; [done|]. intros (?&?&_&_&?&_). lia.
Qed.

Lemma is_valid_Valid e issue signer now ttl consumed :
  is_valid e issue signer now ttl consumed = Valid ↔
  binds e (av_verdict e) issue signer ∧
  (av_verdict e = V1Approve → unexpired e now ttl ∧ unspent e consumed).
Proof.
  unfold is_valid, binds. rewrite <-envelope_consistent_spec, <-approval_expired_spec.
  destruct (signature_envelope_is_consistent e); simpl; [|naive_solver].
  case_bool_decide as H1; [naive_solver|]. case_bool_decide as H2; [naive_solver|].
  assert (Hu : existsb (λ c, matches_binding c (binding_key e)) consumed = false ↔
    unspent e consumed).
  { unfold unspent. rewrite <-not_true_iff_false, existsb_exists. split.
    - intros Hn c Hc. apply not_true_iff_false. intros Hm. apply Hn. exists c.
      by rewrite <-list_elem_of_In.
    - intros Ha (c&Hc%list_elem_of_In&Hm). by rewrite Ha in Hm. }
  rewrite <-Hu. case_bool_decide as H3; simpl; [|naive_solver].
  destruct (approval_expired _ _ _); simpl; [naive_solver|].
  destruct (existsb _ _); naive_solver.
Qed.

(** Consent is decided by the binding events alone: a signed denial of the
    issue's current content and signer refuses, for good and before any
    approval; otherwise the issue is approved exactly if some signed approval
    of that content and signer is unexpired and unspent; otherwise the decision
    is pending. *)
Theorem approval_decision_exact (events : list ApprovalEvent) (issue : Issue)
    (signer now : string) (ttl : N) (consumed : list ApprovalConsumed) :
  let denied := Exists (λ e, binds e V1Deny issue signer) events in
  let approved := Exists (λ e, binds e V1Approve issue signer ∧ unexpired e now ttl ∧
                                unspent e consumed) events in
  match approval_decision events issue signer now ttl consumed with
  | DeniedDecision => denied
  | Approved => ¬ denied ∧ approved
  | Pending => ¬ denied ∧ ¬ approved
  end.
Proof.
  intros denied approved. unfold approval_decision.
  enough (H : ∀ b, match decide_approvals events issue signer now ttl consumed b with
    | DeniedDecision => denied
    | Approved => ¬ denied ∧ (b = true ∨ approved)
    | Pending => ¬ denied ∧ b = false ∧ ¬ approved end).
  { specialize (H false). destruct (decide_approvals _ _ _ _ _ _ _); naive_solver. }
  subst denied approved.
  set (D := λ e, binds e V1Deny issue signer).
  set (A := λ e, binds e V1Approve issue signer ∧ unexpired e now ttl ∧ unspent e consumed).
  induction events as [|e events IH]; intros b; simpl.
  { pose proof (Exists_nil D). pose proof (Exists_nil A). destruct b; naive_solver. }
  pose proof (Exists_cons D e events). pose proof (Exists_cons A e events).
  case_bool_decide as Hv; rewrite is_valid_Valid in Hv.
  - destruct Hv as [Hb Ha]. destruct (av_verdict e) eqn:Hve; [|naive_solver].
    specialize (IH true). destruct (Ha eq_refl) as [Hx Hu].
    assert (¬ D e) by (intros [? _]; congruence). assert (A e) by done.
    destruct (decide_approvals _ _ _ _ _ _ _); naive_solver.
  - specialize (IH b).
    assert (¬ D e).
    { intros Hd. apply Hv. pose proof Hd as [Hvd _]. rewrite Hvd. split; [done|]. done. }
    assert (¬ A e).
    { intros (Hd&?&?). apply Hv. pose proof Hd as [Hvd _]. rewrite Hvd. done. }
    destruct (decide_approvals _ _ _ _ _ _ _); naive_solver.
Qed.
(** A record that spends the approval of [signer]'s issue, as the dispatch gate
    mints it: it names the issue, its current content and the signer. *)
Definition spends (c : ApprovalConsumed) (issue : Issue) (signer : string) : Prop :=
  ac_issue_id c = iss_id issue ∧ ac_content_hash c = content_hash issue ∧
  ac_signer_agent_id c = signer.

Lemma approval_decision_Approved events issue signer now ttl consumed :
  approval_decision events issue signer now ttl consumed = Approved →
  ∃ e, e ∈ events ∧ binds e V1Approve issue signer ∧ unexpired e now ttl ∧ unspent e consumed.
Proof.
  unfold approval_decision. enough (H : ∀ b,
    decide_approvals events issue signer now ttl consumed b = Approved → b = true ∨
    ∃ e, e ∈ events ∧ binds e V1Approve issue signer ∧ unexpired e now ttl ∧ unspent e consumed).
  { intros Hd. destruct (H false Hd) as [?|?]; done. }
  induction events as [|e events IH]; intros b; cbn [decide_approvals]; [destruct b; [by left|done]|].
  case_bool_decide as Hv.
  - apply is_valid_Valid in Hv as [Hb Ha]. destruct (av_verdict e) eqn:Hve; [|done].
    intros _. right. exists e. split; [by apply elem_of_cons; left|]. by destruct (Ha eq_refl).
  - intros H. destruct (IH b H) as [|(e'&?&?)]; [by left|]. right. exists e'.
    split; [by apply elem_of_cons; right|done].
Qed.

(** Consent is used once: as long as the approval events under an issue
    name that issue, a consumption record for the issue, its content and the
    signer spends all of them, whatever is recorded before or after. *)
Theorem consumption_spends (events : list ApprovalEvent) (issue : Issue) (signer now : string)
    (ttl : N) (consumed : list ApprovalConsumed) (c : ApprovalConsumed) :
  (∀ e, e ∈ events → av_issue_id e = iss_id issue) →
  c ∈ consumed → spends c issue signer →
  approval_decision events issue signer now ttl consumed ≠ Approved.
Proof.
  intros Hids Hc (Hci&Hcc&Hcs) Hd.
  apply approval_decision_Approved in Hd as (e&He&(Hv&Hcon&Hsig&_)&_&Hun).
  specialize (Hun c Hc). unfold matches_binding, binding_key in Hun. simpl in Hun.
  rewrite !bool_decide_eq_true_2 in Hun; [done|congruence|congruence|].
  by rewrite Hci, (Hids e He).
Qed.

(** The hypothesis on the events matters: [is_valid] does not compare the issue
    an event names with the issue it is evaluated for.  An approval of an issue
    with the same content, found under this issue, approves it, and no
    consumption record for this issue ever spends it. *)
Lemma foreign_approval_survives e issue signer now ttl consumed :
  binds e V1Approve issue signer → unexpired e now ttl → av_issue_id e ≠ iss_id issue →
  (∀ c, c ∈ consumed → spends c issue signer) →
  approval_decision [e] issue signer now ttl consumed = Approved.
Proof.
  intros Hb Hx Hne Hc. unfold approval_decision. simpl.
  assert (is_valid e issue signer now ttl consumed = Valid) as Hv.
  { apply is_valid_Valid. pose proof Hb as [-> _]. split; [done|]. intros _. split; [done|].
    intros c (Hci&_&_)%Hc. unfold matches_binding, binding_key. simpl.
    rewrite bool_decide_eq_false_2; [done|]. by rewrite Hci. }
  rewrite bool_decide_eq_true_2 by done. by destruct Hb as [-> _].
Qed.
End approvals.
