(* ===== verification/Mapping.v ===== *)
(** * Issues as task records (mapping.rs of the tracker crate)

    The sidecar records a v1 list keeps in its key-value store, their keys, and
    the conversion between a task with its records and an issue. *)

From S2P Require Import Prelude Wire Identity Core Text Store Client Approvals.

Definition SYMPHONY_JSON_CONTENT_TYPE : string := "application/vnd.x0x-symphony+json".
Definition CLAIM_BLOB_KIND : string := "x0x-symphony-claim-v1".
Definition HANDOFF_BLOB_KIND : string := "x0x-symphony-handoff-v1".
Definition APPROVAL_BLOB_KIND : string := "x0x-symphony-approval-v1".
Definition SHARD_BLOB_KIND : string := "shard".
Definition PROVENANCE_BLOB_KIND : string := "x0x-symphony-provenance-v1".
Definition SCHEMA_VERSION : N := 1.
Definition DEFAULT_TIMESTAMP : string := "1970-01-01T00:00:00Z".

(** The text of a nested tracker error is its message. *)
Abbreviation serror := (SymphonyError string).

Inductive MappingError :=
  | MapCore (e : serror)
  | MapJson (source : string)
  | IssueMismatch (blob_kind blob_issue_id task_id : string).

Definition show_mapping_error (e : MappingError) : string :=
  match e with
  | MapCore e => show_symphony id e
  | MapJson source => "JSON error: " +:+ source
  | IssueMismatch blob_kind blob_issue_id task_id =>
      blob_kind +:+ " blob belongs to " +:+ blob_issue_id +:+ ", not task " +:+ task_id
  end.

(** ** The records *)

(** [ClaimBlobStatus], with the prefix [Blob]. *)
Inductive ClaimBlobStatus := BlobActive | BlobReleased | BlobCompleted | BlobBlocked.

#[export] Instance ClaimBlobStatus_eq_dec : EqDecision ClaimBlobStatus.
Proof. solve_decision. Defined.

(** The derived [Debug]. *)
Definition debug_status (s : ClaimBlobStatus) : string :=
  match s with
  | BlobActive => "Active" | BlobReleased => "Released"
  | BlobCompleted => "Completed" | BlobBlocked => "Blocked"
  end.

Record ClaimBlob := {
  cb_schema_version : N;
  cb_kind : string;
  cb_status : ClaimBlobStatus;
  cb_claim : Claim;
  cb_release_reason : option ReleaseReason;
  cb_updated_at : string
}.

Definition new_claim_blob (status : ClaimBlobStatus) (claim : Claim)
    (release_reason : option ReleaseReason) (updated_at : string) : ClaimBlob := {|
  cb_schema_version := SCHEMA_VERSION; cb_kind := CLAIM_BLOB_KIND; cb_status := status;
  cb_claim := claim; cb_release_reason := release_reason; cb_updated_at := updated_at |}.

(** [ClaimBlob::active], [released], [completed] and [blocked]. *)
Definition active_blob (claim : Claim) (updated_at : string) : ClaimBlob :=
  new_claim_blob BlobActive claim None updated_at.
Definition released_blob (claim : Claim) (reason : ReleaseReason) (updated_at : string) : ClaimBlob :=
  new_claim_blob BlobReleased claim (Some reason) updated_at.
Definition completed_blob (claim : Claim) (updated_at : string) : ClaimBlob :=
  new_claim_blob BlobCompleted claim None updated_at.
Definition blocked_blob (claim : Claim) (reason : ReleaseReason) (updated_at : string) : ClaimBlob :=
  new_claim_blob BlobBlocked claim (Some reason) updated_at.

Definition is_active (blob : ClaimBlob) : bool := bool_decide (cb_status blob = BlobActive).

Record HandoffBlob := {
  hb_schema_version : N;
  hb_kind : string;
  hb_handoff : Handoff;
  hb_updated_at : string
}.
Definition new_handoff_blob (handoff : Handoff) (updated_at : string) : HandoffBlob := {|
  hb_schema_version := SCHEMA_VERSION; hb_kind := HANDOFF_BLOB_KIND; hb_handoff := handoff;
  hb_updated_at := updated_at |}.

Record ApprovalBlob := {
  ab_schema_version : N;
  ab_kind : string;
  ab_issue_id : string;
  ab_events : list ApprovalEvent;
  ab_consumed : list ApprovalConsumed;
  ab_updated_at : string
}.
Definition new_approval_blob (issue_id updated_at : string) : ApprovalBlob := {|
  ab_schema_version := SCHEMA_VERSION; ab_kind := APPROVAL_BLOB_KIND; ab_issue_id := issue_id;
  ab_events := []; ab_consumed := []; ab_updated_at := updated_at |}.
Definition with_event (blob : ApprovalBlob) (event : ApprovalEvent) : ApprovalBlob := {|
  ab_schema_version := ab_schema_version blob; ab_kind := ab_kind blob;
  ab_issue_id := ab_issue_id blob; ab_events := ab_events blob ++ [event];
  ab_consumed := ab_consumed blob; ab_updated_at := ab_updated_at blob |}.
Definition with_consumed (blob : ApprovalBlob) (consumed : ApprovalConsumed) : ApprovalBlob := {|
  ab_schema_version := ab_schema_version blob; ab_kind := ab_kind blob;
  ab_issue_id := ab_issue_id blob; ab_events := ab_events blob;
  ab_consumed := ab_consumed blob ++ [consumed]; ab_updated_at := ab_updated_at blob |}.
Definition set_updated_at (blob : ApprovalBlob) (updated_at : string) : ApprovalBlob := {|
  ab_schema_version := ab_schema_version blob; ab_kind := ab_kind blob;
  ab_issue_id := ab_issue_id blob; ab_events := ab_events blob;
  ab_consumed := ab_consumed blob; ab_updated_at := updated_at |}.

Record ShardBlob := {
  sb_schema_version : N;
  sb_kind : string;
  sb_shard : Shard;
  sb_created_view_epoch : N;
  sb_written_at : string
}.
Definition new_shard_blob (shard : Shard) (created_view_epoch : N) (written_at : string)
    : ShardBlob := {|
  sb_schema_version := SCHEMA_VERSION; sb_kind := SHARD_BLOB_KIND; sb_shard := shard;
  sb_created_view_epoch := created_view_epoch; sb_written_at := written_at |}.

Record ProvenanceBlob := {
  pb_schema_version : N;
  pb_kind : string;
  pb_envelope : SignatureEnvelope
}.
Definition new_provenance_blob (envelope : SignatureEnvelope) : ProvenanceBlob := {|
  pb_schema_version := SCHEMA_VERSION; pb_kind := PROVENANCE_BLOB_KIND; pb_envelope := envelope |}.

(** ** Keys *)

Definition store_id_for_list (list_id : string) : string := "symphony-" +:+ list_id.
Definition claim_key (task_id : string) : string := "claim-" +:+ task_id.
Definition handoff_key (task_id : string) : string := "handoff-" +:+ task_id.
Definition shard_key (task_id : string) : string := "shard-" +:+ task_id.
Definition provenance_key (task_id : string) : string := "provenance-" +:+ task_id.
Definition approval_key (issue_id : string) : string := "approval-" +:+ issue_id.
Definition consumed_key (issue_id : string) : string := "approval-consumed-" +:+ issue_id.

(** ** Encodings *)

(** [serde_json] at the records, at a claim and a handoff as they are signed,
    and at a release reason. *)
Class BlobCodec `{J : Json} := {
  json_claim_blob : ClaimBlob → result bytes string;
  parse_claim_blob : bytes → result ClaimBlob string;
  json_handoff_blob : HandoffBlob → result bytes string;
  parse_handoff_blob : bytes → result HandoffBlob string;
  json_shard_blob : ShardBlob → result bytes string;
  parse_shard_blob : bytes → result ShardBlob string;
  json_provenance_blob : ProvenanceBlob → result bytes string;
  parse_provenance_blob : bytes → result ProvenanceBlob string;
  json_approval_blob : ApprovalBlob → result bytes string;
  parse_approval_blob : bytes → result ApprovalBlob string;
  json_claim : Claim → result bytes string;
  json_handoff : Handoff → result bytes string;
  reason_value : ReleaseReason → result Value string
}.

Section mapping.
Context `{X : Extern} `{J : Json} `{BC : !BlobCodec}.

Definition encode_claim_blob (blob : ClaimBlob) : result bytes MappingError :=
  map_err MapJson (json_claim_blob blob).
Definition decode_claim_blob (b : bytes) : result ClaimBlob MappingError :=
  map_err MapJson (parse_claim_blob b).
Definition encode_handoff_blob (blob : HandoffBlob) : result bytes MappingError :=
  map_err MapJson (json_handoff_blob blob).
Definition decode_handoff_blob (b : bytes) : result HandoffBlob MappingError :=
  map_err MapJson (parse_handoff_blob b).
Definition encode_shard_blob (blob : ShardBlob) : result bytes MappingError :=
  map_err MapJson (json_shard_blob blob).
Definition decode_shard_blob (b : bytes) : result ShardBlob MappingError :=
  map_err MapJson (parse_shard_blob b).
Definition encode_provenance_blob (blob : ProvenanceBlob) : result bytes MappingError :=
  map_err MapJson (json_provenance_blob blob).
Definition decode_provenance_blob (b : bytes) : result ProvenanceBlob MappingError :=
  map_err MapJson (parse_provenance_blob b).
Definition encode_approval_blob (blob : ApprovalBlob) : result bytes MappingError :=
  map_err MapJson (json_approval_blob blob).
Definition decode_approval_blob (b : bytes) : result ApprovalBlob MappingError :=
  map_err MapJson (parse_approval_blob b).

(** ** What is signed (signing.rs of the core crate) *)

(** A claim without its signature and with an empty heartbeat. *)
Definition claim_signing_payload (claim : Claim) : result bytes string :=
  json_claim {| cl_issue_id := cl_issue_id claim; cl_by := cl_by claim; cl_at := cl_at claim;
                cl_heartbeat_at := ""; cl_shard_role := cl_shard_role claim;
                cl_signature := None |}.

Definition handoff_signing_payload (handoff : Handoff) : result bytes string :=
  json_handoff {| ho_summary := ho_summary handoff; ho_files_changed := ho_files_changed handoff;
                  ho_validation := ho_validation handoff; ho_follow_up := ho_follow_up handoff;
                  ho_proofs_dir := ho_proofs_dir handoff; ho_issue_id := ho_issue_id handoff;
                  ho_signer_agent_id := ho_signer_agent_id handoff; ho_signature := None |}.

(** ** Tasks from issues *)

Definition add_task_draft_from_issue (issue : Issue) : AddTaskDraft :=
  with_description (new_task_draft (iss_title issue)) (iss_description issue).

Definition task_state_from_issue (issue : Issue) : string :=
  let marked (base : string) :=
    match iss_claim issue with None => base | Some claim => base +:+ ":" +:+ cl_by claim end in
  if bool_decide (iss_state issue = "in_progress") then marked "claimed"
  else if bool_decide (iss_state issue ∈ ["review"; "done"]) then marked "done"
  else "empty".

Definition task_entry_from_issue (issue : Issue) : TaskEntry := {|
  te_id := iss_id issue; te_title := iss_title issue; te_description := iss_description issue;
  te_state := task_state_from_issue issue; te_assignee := cl_by <$> iss_claim issue;
  te_priority := default 0%N (iss_priority issue) |}.

(** ** Issues from tasks *)

Definition normalized_task_state (state : string) : string :=
  let lower := to_ascii_lowercase (trim state) in
  if bool_decide (lower = "empty") then "empty"
  else if bool_decide (lower = "claimed") || starts_with "claimed:" lower then "claimed"
  else if bool_decide (lower = "done") || starts_with "done:" lower then "done"
  else lower.

Definition has_status (status : ClaimBlobStatus) (claim_blob : option ClaimBlob) : bool :=
  match claim_blob with Some blob => bool_decide (cb_status blob = status) | None => false end.

(** The name of the state, and the state. *)
Definition task_state_name (task : TaskEntry) (claim_blob : option ClaimBlob)
    (handoff_blob : option HandoffBlob) : string :=
  if has_status BlobBlocked claim_blob then "blocked"
  else if bool_decide (is_Some handoff_blob) then "review"
  else if has_status BlobReleased claim_blob then "todo"
  else
    let normalized := normalized_task_state (te_state task) in
    if bool_decide (normalized = "claimed") then "in_progress"
    else if bool_decide (normalized = "done") then "done"
    else "todo".
Definition issue_state_for_task (task : TaskEntry) (claim_blob : option ClaimBlob)
    (handoff_blob : option HandoffBlob) : result string MappingError :=
  map_err MapCore (new_issue_state (task_state_name task claim_blob handoff_blob)).

Definition active_claim_for_issue (claim_blob : option ClaimBlob)
    (handoff_blob : option HandoffBlob) : option Claim :=
  match handoff_blob with
  | Some _ => None
  | None => blob ← claim_blob; if is_active blob then Some (cb_claim blob) else None
  end.

Definition updated_at_for_blobs (claim_blob : option ClaimBlob) (handoff_blob : option HandoffBlob)
    (shard_blob : option ShardBlob) : string :=
  match handoff_blob, claim_blob, shard_blob with
  | Some blob, _, _ => hb_updated_at blob
  | None, Some blob, _ => cb_updated_at blob
  | None, None, Some blob => sb_written_at blob
  | None, None, None => DEFAULT_TIMESTAMP
  end.

Definition extra_for_task (task : TaskEntry) (claim_blob : option ClaimBlob)
    : result (gmap string Value) MappingError :=
  let extra := match te_assignee task with
               | Some assignee => {["x0x_assignee" := JString assignee]}
               | None => ∅
               end : gmap string Value in
  let extra := <["x0x_task_state" := JString (te_state task)]> extra in
  let extra := <["issue_source" := JString (issue_source_str NetworkSourced)]> extra in
  match (blob ← claim_blob;
         if bool_decide (cb_status blob = BlobBlocked) then cb_release_reason blob else None) with
  | Some reason =>
      let? value := map_err MapJson (reason_value reason) in
      Ok (<["blocked_reason" := value]> extra)
  | None => Ok extra
  end.

Definition validate_claim_blob (task : TaskEntry) (claim_blob : option ClaimBlob)
    : result unit MappingError :=
  match (blob ← claim_blob; cl_issue_id (cb_claim blob)) with
  | Some issue_id =>
      if bool_decide (issue_id ≠ te_id task)
      then Err (IssueMismatch CLAIM_BLOB_KIND issue_id (te_id task)) else Ok ()
  | None => Ok ()
  end.
Definition validate_handoff_blob (task : TaskEntry) (handoff_blob : option HandoffBlob)
    : result unit MappingError :=
  match (blob ← handoff_blob; ho_issue_id (hb_handoff blob)) with
  | Some issue_id =>
      if bool_decide (issue_id ≠ te_id task)
      then Err (IssueMismatch HANDOFF_BLOB_KIND issue_id (te_id task)) else Ok ()
  | None => Ok ()
  end.

Definition issue_from_task (task : TaskEntry) (claim_blob : option ClaimBlob)
    (handoff_blob : option HandoffBlob) (shard_blob : option ShardBlob)
    : result Issue MappingError :=
  let? _ := validate_claim_blob task claim_blob in
  let? _ := validate_handoff_blob task handoff_blob in
  let? id := map_err MapCore (new_issue_id (te_id task)) in
  let updated_at := updated_at_for_blobs claim_blob handoff_blob shard_blob in
  let? state := issue_state_for_task task claim_blob handoff_blob in
  let? issue := map_err MapCore (new_issue id (te_id task) (te_title task) state DEFAULT_TIMESTAMP) in
  let? extra := extra_for_task task claim_blob in
  Ok {| iss_schema_version := iss_schema_version issue; iss_id := iss_id issue;
        iss_identifier := iss_identifier issue; iss_title := iss_title issue;
        iss_description := te_description task; iss_priority := Some (te_priority task);
        iss_state := iss_state issue; iss_branch_name := iss_branch_name issue;
        iss_url := iss_url issue; iss_labels := iss_labels issue;
        iss_blocked_by := iss_blocked_by issue; iss_shard := sb_shard <$> shard_blob;
        iss_claim := active_claim_for_issue claim_blob handoff_blob;
        iss_handoff := hb_handoff <$> handoff_blob;
        iss_signature_provenance := iss_signature_provenance issue;
        iss_verification_notices := iss_verification_notices issue;
        iss_created_at := iss_created_at issue; iss_updated_at := updated_at; iss_extra := extra |}.
End mapping.
