(* ===== verification/Tracker.v ===== *)
(** * The v2 tracker ([V2Tracker] of v2/tracker.rs)

    The tracker operations the orchestrator calls, over the store manager and
    the fold: every mutation appends a signed chained event, every read is fold
    output.  The tracker keeps three caches (the bound own store, the display
    list, the set of joined members); they are the state threaded beside the
    world.  Log messages are left out. *)

From S2P Require Import Prelude Wire Identity Core FoldTypes Canonical Admission StateMachine Fold.
From S2P Require Import FoldRun Store Client Gate Claims Approvals.
Import Reconcile.

Definition EPOCH_RFC3339 : string := "1970-01-01T00:00:00Z".
Definition DISPLAY_MARKER : string := "[x0x-symphony-v2 issue ".
Definition MAX_JOIN_PASSES : nat := 8.

(** What the tracker's error messages are made of. *)
Inductive tracker_error :=
  | TeStore (e : V2StoreError)
  | TeRefused (refusal : ListRefusal)
  | TeWrongSigner (signer configured : string)
  | TeNoFixpoint (list_ref : string)
  | TeAnchor (member : string) (e : V2StoreError)
  | TeNotLocal (what agent : string)
  | TeNoIssue (issue_id : string)
  | TeNotHeld (issue_id : string) (status : IssueStatusV2)
  | TeNotClaimable (issue_id : string) (status : IssueStatusV2)
  | TeLostRace (issue_id : string) (status : IssueStatusV2)
  | TeVanished (issue_id : string)
  | TeNotFoldedBack (issue_id : string)
  | TeNoClaimIssue
  | TeNotBlocked (issue_id : string) (status : IssueStatusV2)
  | TeNotAwaiting (issue_id : string)
  | TeEncode (what e : string)
  | TeStaleApproval (content_hash : string)
  | TeBadApprovedAt (e : string)
  | TeStaleConsumption
  | TeNoApproval (issue_id : string)
  | TeCompetingConsume (approval_event_hash actor : string)
  | TeIneffective (approval_event_hash reason : string).

Abbreviation terror := (SymphonyError tracker_error).

(** ** What the tracker calls besides the store *)

(** The clock, the task-list calls of [X0xdApi] and one more encoder. *)
Class Host `{D : Daemon} := {
  now_utc : world → string * world;
  (** [Utc::now().timestamp()] *)
  now_timestamp : world → Z * world;
  enc_approval_payload : ApprovalPayloadV2 → result bytes string;
  create_task_list : string → string → world → result string ClientError * world;
  list_task_lists : world → result (list TaskListEntry) ClientError * world;
  list_tasks : string → world → result (list TaskEntry) ClientError * world;
  add_task : string → AddTaskDraft → world → result string ClientError * world;
  update_task : string → string → TaskAction → world → result unit ClientError * world
}.

Record V2Tracker := {
  vt_manager : V2StoreManager;
  (** whether a display surface is configured *)
  vt_display : bool;
  vt_list_ref : V2ListRef;
  vt_agent_id : string;
  vt_settle : N
}.

(** The [OnceCell]s and the joined set. *)
Record tracker_state := {
  ts_own : option OwnEventStore;
  ts_display_list : option string;
  ts_joined : gset string
}.

Definition initial_state : tracker_state :=
  {| ts_own := None; ts_display_list := None; ts_joined := ∅ |}.

Section tracker.
Context `{X : Extern} `{D : Daemon} `{E : Encoders} `{J : Json} `{C : Chrono} `{V : ApprovalCodec}
  `{H : !Host}.

(** ** The monad *)

Definition TM (A : Type) : Type :=
  tracker_state * world → result A terror * (tracker_state * world).

#[export] Instance TM_ret : MRet TM := λ A a s, (Ok a, s).
#[export] Instance TM_bind : MBind TM := λ A B f m s,
  match m s with
  | (Ok a, s') => f a s'
  | (Err e, s') => (Err e, s')
  end.

Definition tfail {A} (e : tracker_error) : TM A := λ s, (Err (Tracker e), s).
Definition tlift {A} (r : result A terror) : TM A := λ s, (r, s).

(** A store operation: its result as a value, or its error as the tracker's. *)
Definition attempt {A} (c : M A) : TM (result A V2StoreError) :=
  λ s, let '(r, w) := c s.2 in (Ok r, (s.1, w)).
Definition store {A} (c : M A) : TM A :=
  r ← attempt c;
  match r with Ok a => mret a | Err e => tfail (TeStore e) end.

(** A call of the host, which threads the world. *)
Definition host {A} (c : world → A * world) : TM A :=
  λ s, let '(a, w) := c s.2 in (Ok a, (s.1, w)).

Definition get_state : TM tracker_state := λ s, (Ok s.1, s).
Definition put_state (t : tracker_state) : TM unit := λ s, (Ok (), (t, s.2)).

Definition now_secs : TM N :=
  t ← host now_timestamp; mret (Z.to_N t).

(** ** The own store and the joined members *)

Definition v2_own (t : V2Tracker) : TM OwnEventStore :=
  st ← get_state;
  match ts_own st with
  | Some own => mret own
  | None =>
      own ← store (ensure_own_store (vt_manager t) (lr_list_uuid (vt_list_ref t)));
      if bool_decide (own_agent_id own ≠ vt_agent_id t) then
        tfail (TeWrongSigner (own_agent_id own) (vt_agent_id t))
      else
        st ← get_state;
        _ ← put_state {| ts_own := Some own; ts_display_list := ts_display_list st;
                         ts_joined := ts_joined st |};
        mret own
  end.

Definition read_and_fold (t : V2Tracker) : TM FoldOutput :=
  input ← store (read_fold_input (vt_manager t) (lr_list_uuid (vt_list_ref t))
                                 (lr_creator (vt_list_ref t)));
  match fold_v2 input with
  | Ok out => mret out
  | Err refusal => tfail (TeRefused refusal)
  end.

Definition joined (member : string) : TM bool :=
  st ← get_state; mret (bool_decide (member ∈ ts_joined st)).
Definition insert_joined (member : string) : TM unit :=
  st ← get_state;
  put_state {| ts_own := ts_own st; ts_display_list := ts_display_list st;
               ts_joined := {[member]} ∪ ts_joined st |}.

Fixpoint join_members (t : V2Tracker) (members : list string) (joined_any : bool) : TM bool :=
  match members with
  | [] => mret joined_any
  | member :: rest =>
      seen ← joined member;
      if bool_decide (member = vt_agent_id t) || seen then join_members t rest joined_any
      else
        r ← attempt (join_peer_store (vt_manager t) (lr_list_uuid (vt_list_ref t)) member);
        match r with
        | Ok _ =>
            _ ← insert_joined member;
            _ ← attempt (join_peer_heartbeats (lr_list_uuid (vt_list_ref t)) member);
            join_members t rest true
        | Err (AnchorMismatch _ _ as e) | Err (PolicyNotHonored _ _ as e) =>
            tfail (TeAnchor member e)
        | Err _ => join_members t rest joined_any
        end
  end.

Definition join_new_members (t : V2Tracker) (out : FoldOutput) : TM bool :=
  join_members t (gen_roster (fo_genesis out) ++ bset_iter (fo_current_roster out)) false.

(** The passes of [fold_view] after its first fold. *)
Fixpoint join_passes (t : V2Tracker) (passes : nat) (out : FoldOutput) : TM FoldOutput :=
  more ← join_new_members t out;
  if negb more then mret out
  else
    match passes with
    | O => tfail (TeNoFixpoint (to_ref_string (vt_list_ref t)))
    | S passes => out ← read_and_fold t; join_passes t passes out
    end.

Definition fold_view (t : V2Tracker) : TM FoldOutput :=
  out ← read_and_fold t;
  join_passes t MAX_JOIN_PASSES out.
(** ** Projection to the v1 issue surface *)

Definition validation_from_v2 (v : HandoffValidationV2) : option ValidationResult :=
  status ← parse_validation_status (hv_status v);
  Some {| vr_command := hv_command v; vr_status := status; vr_exit_code := hv_exit_code v |}.

Definition validation_to_v2 (v : ValidationResult) : HandoffValidationV2 := {|
  hv_command := vr_command v; hv_status := validation_status_str (vr_status v);
  hv_exit_code := vr_exit_code v |}.

(** Validation entries that do not project are dropped. *)
Definition project_handoff (issue_id : string) (ev : HandoffEventV2) : Handoff := {|
  ho_summary := he_summary ev; ho_files_changed := he_files_changed ev;
  ho_validation := omap validation_from_v2 (he_validation ev);
  ho_follow_up := he_follow_up ev; ho_proofs_dir := he_proofs_dir ev;
  ho_issue_id := Some issue_id; ho_signer_agent_id := Some (he_actor ev);
  ho_signature := None |}.

Definition state_name (status : IssueStatusV2) (handoffs : option (list HandoffRecordV2))
    : string :=
  match status with
  | StOpen => "todo"
  | StClaimed _ _ _ => "in_progress"
  | StBlocked _ _ _ _ _ => "blocked"
  | StDone _ _ => match handoffs with Some (_ :: _) => "review" | _ => "done" end
  end.

(** The authors whose forks are reported with the issue. *)
Definition involved (st : IssueStateV2) : list string :=
  match is_status st with
  | StClaimed claimant _ _ | StBlocked claimant _ _ _ _ => [is_opened_by st; claimant]
  | _ => [is_opened_by st]
  end.

Definition fork_notice (fork : ForkEvidence) : VerificationNotice := {|
  vn_kind := NoticeForkEvidence;
  vn_claimant := match new_agent_id (T := tracker_error) (fe_author fork) with
                 | Ok a => Some a | Err _ => None end;
  vn_reason := "author " +:+ fe_author fork +:+ " equivocated at chain seq " +:+
    pretty (fe_author_seq fork) +:+ " (" +:+ pretty (llen (fe_event_hashes fork)) +:+
    " conflicting signed events); the forked suffix is inadmissible" |}.

Definition fork_notices (out : FoldOutput) (st : IssueStateV2) : list VerificationNotice :=
  fork_notice <$> List.filter (λ f, bool_decide (fe_author f ∈ involved st)) (fo_forks out).

(** The part of the projection before the heartbeat is read. *)
Definition project_base (out : FoldOutput) (st : IssueStateV2) : result Issue terror :=
  let handoffs := fo_handoffs out !! is_issue_id st in
  let? state := new_issue_state (state_name (is_status st) handoffs) in
  let? id := new_issue_id (is_issue_id st) in
  let? issue := new_issue id (is_issue_id st) (is_title st) state EPOCH_RFC3339 in
  Ok {| iss_schema_version := iss_schema_version issue; iss_id := iss_id issue;
        iss_identifier := iss_identifier issue; iss_title := iss_title issue;
        iss_description := is_spec st; iss_priority := iss_priority issue;
        iss_state := iss_state issue; iss_branch_name := iss_branch_name issue;
        iss_url := iss_url issue; iss_labels := iss_labels issue;
        iss_blocked_by := iss_blocked_by issue; iss_shard := iss_shard issue;
        iss_claim := None;
        iss_handoff := r ← (handoffs ≫= last);
                       Some (project_handoff (iss_id issue) (hr_handoff r));
        iss_signature_provenance := Some (ProvenanceVerified (is_opened_by st));
        iss_verification_notices := fork_notices out st;
        iss_created_at := iss_created_at issue; iss_updated_at := iss_updated_at issue;
        iss_extra := iss_extra issue |}.

Definition set_claim (issue : Issue) (claim : Claim) (updated_at : string) : Issue := {|
  iss_schema_version := iss_schema_version issue; iss_id := iss_id issue;
  iss_identifier := iss_identifier issue; iss_title := iss_title issue;
  iss_description := iss_description issue; iss_priority := iss_priority issue;
  iss_state := iss_state issue; iss_branch_name := iss_branch_name issue;
  iss_url := iss_url issue; iss_labels := iss_labels issue;
  iss_blocked_by := iss_blocked_by issue; iss_shard := iss_shard issue;
  iss_claim := Some claim; iss_handoff := iss_handoff issue;
  iss_signature_provenance := iss_signature_provenance issue;
  iss_verification_notices := iss_verification_notices issue;
  iss_created_at := iss_created_at issue; iss_updated_at := updated_at;
  iss_extra := iss_extra issue |}.

Definition project_issue (t : V2Tracker) (out : FoldOutput) (st : IssueStateV2) : TM Issue :=
  issue ← tlift (project_base out st);
  match is_status st with
  | StClaimed claimant _ _ =>
      found ← host (read_heartbeat (lr_list_uuid (vt_list_ref t)) claimant (is_issue_id st));
      let heartbeat := default EPOCH_RFC3339 found in
      by_ ← tlift (new_agent_id claimant);
      let claim := new_claim (Some (iss_id issue)) by_ heartbeat ManualM1 in
      mret (set_claim issue (with_heartbeat claim heartbeat) heartbeat)
  | _ => mret issue
  end.

Fixpoint project_states (t : V2Tracker) (out : FoldOutput) (states : list IssueStateV2)
    : TM (list Issue) :=
  match states with
  | [] => mret []
  | st :: rest =>
      issue ← project_issue t out st;
      issues ← project_states t out rest;
      mret (issue :: issues)
  end.

Definition project_all (t : V2Tracker) (out : FoldOutput) : TM (list Issue) :=
  project_states t out (btree_values (fo_issues out)).

(** ** Guards and events *)

Definition require_local_agent (t : V2Tracker) (agent what : string) : TM unit :=
  if bool_decide (agent = vt_agent_id t) then mret () else tfail (TeNotLocal what agent).

Definition require_issue (out : FoldOutput) (issue_id : string) : TM IssueStateV2 :=
  match fo_issues out !! issue_id with
  | Some st => mret st
  | None => tfail (TeNoIssue issue_id)
  end.

Definition require_own_fence (t : V2Tracker) (out : FoldOutput) (issue_id : string)
    : TM (string * string) :=
  issue ← require_issue out issue_id;
  match is_status issue with
  | StClaimed claimant claim_nonce claim_event_hash =>
      if bool_decide (claimant = vt_agent_id t) then mret (claim_nonce, claim_event_hash)
      else tfail (TeNotHeld issue_id (is_status issue))
  | other => tfail (TeNotHeld issue_id other)
  end.

Definition claim_issue_id (claim : Claim) : TM string :=
  match cl_issue_id claim with Some id => mret id | None => tfail TeNoClaimIssue end.

Definition transition (t : V2Tracker) (out : FoldOutput) (issue_id : string)
    (kind : TransitionKind) : TransitionEventV2 :=
  let '(author_seq, prev_own_event_hash) := next_chain_link out (vt_agent_id t) in
  {| tr_schema := V2_SCHEMA; tr_list_uuid := lr_list_uuid (vt_list_ref t);
     tr_genesis_manifest_hash := fo_genesis_hash out;
     tr_roster_epoch := fo_latest_roster_epoch out; tr_issue_id := issue_id;
     tr_actor := vt_agent_id t; tr_lamport := sat_add64 (fo_max_admitted_lamport out) 1;
     tr_author_seq := author_seq; tr_prev_own_event_hash := prev_own_event_hash;
     tr_kind := kind |}.

(** [TransitionKind::open]. *)
Definition tk_open (title spec : string) : TransitionKind :=
  TkOpen title spec (sha256_hex title) (sha256_hex spec).

(** ** Display projection: failures are ignored *)

Definition set_display_list (id : string) : TM unit :=
  st ← get_state;
  put_state {| ts_own := ts_own st; ts_display_list := Some id; ts_joined := ts_joined st |}.

Definition ensure_display_list (t : V2Tracker) : TM (option string) :=
  if negb (vt_display t) then mret None
  else
    st ← get_state;
    match ts_display_list st with
    | Some id => mret (Some id)
    | None =>
        let topic := "symphony2-display-" +:+ lr_list_uuid (vt_list_ref t) in
        created ← host (create_task_list topic topic);
        match created with
        | Ok id => _ ← set_display_list id; mret (Some id)
        | Err _ =>
            lists ← host list_task_lists;
            match lists with
            | Ok lists =>
                match List.find (λ l, bool_decide (tl_topic l = topic)) lists with
                | Some l => _ ← set_display_list (tl_id l); mret (Some (tl_id l))
                | None => mret None
                end
            | Err _ => mret None
            end
        end
    end.

Definition newlines : string :=
  String (ascii_of_N 10) (String (ascii_of_N 10) EmptyString).

Definition display_add_issue (t : V2Tracker) (issue_id title spec : string) : TM unit :=
  list ← ensure_display_list t;
  match list with
  | None => mret ()
  | Some list =>
      _ ← host (add_task list {| td_title := title;
             td_description := Some (DISPLAY_MARKER +:+ issue_id +:+ "]" +:+ newlines +:+ spec) |});
      mret ()
  end.

Definition display_reconcile (t : V2Tracker) (issue_id : string) (action : TaskAction) : TM unit :=
  list ← ensure_display_list t;
  match list with
  | None => mret ()
  | Some list =>
      let marker := DISPLAY_MARKER +:+ issue_id +:+ "]" in
      tasks ← host (list_tasks list);
      let task_id :=
        match tasks with
        | Ok tasks => te_id <$> List.find (λ k, starts_with marker (te_description k)) tasks
        | Err _ => None
        end in
      match task_id with
      | None => mret ()
      | Some task_id => _ ← host (update_task list task_id action); mret ()
      end
  end.

(** [ensure_surfaces]: a failing peer join or fold is only logged. *)
Definition attempt_t {A} (c : TM A) : TM (result A terror) :=
  λ s, let '(r, s') := c s in (Ok r, s').

Definition ensure_surfaces (t : V2Tracker) : TM unit :=
  own ← v2_own t;
  let list_uuid := lr_list_uuid (vt_list_ref t) in
  let creator := lr_creator (vt_list_ref t) in
  _ ← (if bool_decide (creator = own_agent_id own) then
         input ← store (read_fold_input (vt_manager t) list_uuid creator);
         if is_ok (fold_v2 input) then mret ()
         else
           now ← now_secs;
           _ ← store (publish_genesis own [own_agent_id own] None now);
           mret ()
       else
         _ ← attempt (join_peer_store (vt_manager t) list_uuid creator);
         mret ());
  _ ← attempt_t (fold_view t);
  _ ← ensure_display_list t;
  mret ().

(** ** The [Tracker] operations *)

Definition list_issues (t : V2Tracker) : TM (list Issue) :=
  out ← fold_view t;
  project_all t out.

(** The fresh issue id: "i" and the first 32 hex digits. *)
Definition fresh_issue_id (own_agent_id now title : string) (lamport : N) : string :=
  "i" +:+ String.substring 0 32 (sha256_hex (own_agent_id +:+ ":" +:+ now +:+ ":" +:+ title +:+ ":" +:+
                                      pretty lamport)).

Definition create_issue (t : V2Tracker) (draft : IssueDraft) : TM Issue :=
  own ← v2_own t;
  out ← fold_view t;
  now ← host now_utc;
  let issue_id := fresh_issue_id (own_agent_id own) now (id_title draft)
                    (fo_max_admitted_lamport out) in
  let description :=
    match id_description draft with
    | Some d => if is_blank d then "" else d
    | None => ""
    end in
  let event := transition t out issue_id (tk_open (id_title draft) description) in
  _ ← store (append_transition own event);
  _ ← display_add_issue t issue_id (id_title draft) description;
  confirm ← fold_view t;
  match fo_issues confirm !! issue_id with
  | None => tfail (TeNotFoldedBack issue_id)
  | Some st => project_issue t confirm st
  end.

Definition fetch_candidates (t : V2Tracker) (active_states : list string) : TM (list Issue) :=
  issues ← list_issues t;
  mret (sort_by iss_id (List.filter (λ i, bool_decide (iss_state i ∈ active_states)) issues)).

Definition fetch_by_ids (t : V2Tracker) (ids : list string) : TM (list Issue) :=
  issues ← list_issues t;
  mret (List.filter (λ i, bool_decide (iss_id i ∈ ids)) issues).

Definition fetch_claimed (t : V2Tracker) (agent_id : option string) : TM (list Issue) :=
  issues ← list_issues t;
  mret (List.filter (λ i,
    match iss_claim i with
    | None => false
    | Some claim =>
        match agent_id with
        | None => true
        | Some agent => bool_decide (cl_by claim = agent)
        end
    end) issues).

Definition v2_claim (t : V2Tracker) (id agent_id : string) : TM Claim :=
  _ ← require_local_agent t agent_id "claim";
  own ← v2_own t;
  out ← fold_view t;
  issue ← require_issue out id;
  if bool_decide (is_status issue ≠ StOpen) then tfail (TeNotClaimable id (is_status issue))
  else
    let event := build_claim_transition out (lr_list_uuid (vt_list_ref t)) (vt_agent_id t) id in
    our_hash ← store (append_transition own event);
    confirm ← fold_view t;
    match fo_issues confirm !! id with
    | None => tfail (TeVanished id)
    | Some confirmed =>
        match is_status confirmed with
        | StClaimed claimant _ claim_event_hash =>
            if bool_decide (claimant = vt_agent_id t) && bool_decide (claim_event_hash = our_hash)
            then
              at_ ← host now_utc;
              _ ← attempt (put_heartbeat own id at_);
              _ ← display_reconcile t id TaskClaim;
              mret (new_claim (Some id) agent_id at_ ManualM1)
            else tfail (TeLostRace id (is_status confirmed))
        | other => tfail (TeLostRace id other)
        end
    end.

Definition v2_heartbeat (t : V2Tracker) (claim : Claim) : TM unit :=
  _ ← require_local_agent t (cl_by claim) "heartbeat";
  issue_id ← claim_issue_id claim;
  own ← v2_own t;
  out ← fold_view t;
  _ ← require_own_fence t out issue_id;
  now ← host now_utc;
  store (put_heartbeat own issue_id now).

(** The common part of the operations of a claim's holder: the own store, the
    fold, the issue and the fence of the claim. *)
Definition held_view (t : V2Tracker) (claim : Claim) (what : string)
    : TM (OwnEventStore * FoldOutput * string * (string * string)) :=
  _ ← require_local_agent t (cl_by claim) what;
  issue_id ← claim_issue_id claim;
  own ← v2_own t;
  out ← fold_view t;
  fence ← require_own_fence t out issue_id;
  mret (own, out, issue_id, fence).

Definition v2_release (t : V2Tracker) (claim : Claim) (reason : ReleaseReason) : TM unit :=
  v ← held_view t claim "release";
  let '(own, out, issue_id, (claim_nonce, claimed_event_hash)) := v in
  _ ← store (append_transition own
               (transition t out issue_id (TkRelease claim_nonce claimed_event_hash)));
  mret ().

Definition block_reason (reason : ReleaseReason) : BlockReason :=
  if bool_decide (rr_code reason = RcAwaitingApproval) then AwaitingApproval
  else OtherReason (reason_code_str (rr_code reason) +:+ ": " +:+ rr_message reason).

Definition v2_block (t : V2Tracker) (claim : Claim) (reason : ReleaseReason) : TM unit :=
  v ← held_view t claim "block";
  let '(own, out, issue_id, (claim_nonce, claimed_event_hash)) := v in
  _ ← store (append_transition own
               (transition t out issue_id
                  (TkBlock claim_nonce claimed_event_hash (block_reason reason))));
  mret ().

Definition handoff_event (t : V2Tracker) (out : FoldOutput) (issue_id : string)
    (fence : string * string) (handoff : Handoff) : HandoffEventV2 :=
  let '(author_seq, prev_own_event_hash) := next_chain_link out (vt_agent_id t) in
  {| he_schema := V2_SCHEMA; he_kind := "handoff"; he_list_uuid := lr_list_uuid (vt_list_ref t);
     he_genesis_manifest_hash := fo_genesis_hash out;
     he_roster_epoch := fo_latest_roster_epoch out; he_issue_id := issue_id;
     he_actor := vt_agent_id t; he_lamport := sat_add64 (fo_max_admitted_lamport out) 1;
     he_author_seq := author_seq; he_prev_own_event_hash := prev_own_event_hash;
     he_claim_nonce := fence.1; he_claimed_event_hash := fence.2;
     he_summary := ho_summary handoff; he_files_changed := ho_files_changed handoff;
     he_validation := validation_to_v2 <$> ho_validation handoff;
     he_follow_up := ho_follow_up handoff; he_proofs_dir := ho_proofs_dir handoff |}.

(** The completion that follows the handoff in the author's chain. *)
Definition complete_event (t : V2Tracker) (out : FoldOutput) (issue_id : string)
    (fence : string * string) (handoff_hash : string) : TransitionEventV2 :=
  {| tr_schema := V2_SCHEMA; tr_list_uuid := lr_list_uuid (vt_list_ref t);
     tr_genesis_manifest_hash := fo_genesis_hash out;
     tr_roster_epoch := fo_latest_roster_epoch out; tr_issue_id := issue_id;
     tr_actor := vt_agent_id t; tr_lamport := sat_add64 (fo_max_admitted_lamport out) 2;
     tr_author_seq := sat_add64 (next_chain_link out (vt_agent_id t)).1 1;
     tr_prev_own_event_hash := handoff_hash; tr_kind := TkComplete fence.1 fence.2 |}.

Definition v2_handoff (t : V2Tracker) (claim : Claim) (handoff : Handoff) : TM unit :=
  v ← held_view t claim "handoff";
  let '(own, out, issue_id, fence) := v in
  handoff_hash ← store (append_handoff own (handoff_event t out issue_id fence handoff));
  _ ← store (append_transition own (complete_event t out issue_id fence handoff_hash));
  display_reconcile t issue_id TaskComplete.

Definition requeue_approval (t : V2Tracker) (out : FoldOutput)
    (issue_id block_event_hash claim_nonce : string) (now : N) : ApprovalPayloadV2 := {|
  ap_schema := V2_SCHEMA; ap_kind := "approval"; ap_list_uuid := lr_list_uuid (vt_list_ref t);
  ap_genesis_manifest_hash := fo_genesis_hash out; ap_issue_id := issue_id;
  ap_block_event_hash := block_event_hash; ap_claim_nonce := claim_nonce;
  ap_approver := vt_agent_id t; ap_approved_at := now |}.

Definition requeue_blocked (t : V2Tracker) (issue_id : string) (reason : ReleaseReason) : TM unit :=
  own ← v2_own t;
  out ← fold_view t;
  issue ← require_issue out issue_id;
  match is_status issue with
  | StBlocked _ claim_nonce _ block_event_hash block_reason =>
      if bool_decide (block_reason ≠ AwaitingApproval) then tfail (TeNotAwaiting issue_id)
      else
        now ← now_secs;
        approval_payload ←
          match enc_approval_payload (requeue_approval t out issue_id block_event_hash claim_nonce now)
          with Ok p => mret p | Err e => tfail (TeEncode "requeue approval" e) end;
        let approval_hash := sha256_hex approval_payload in
        approval_envelope ← store (sign_approval_payload own approval_payload);
        _ ← store (append_transition own (transition t out issue_id (TkRequeue {|
               rj_block_event_hash := block_event_hash; rj_claim_nonce := claim_nonce;
               rj_approval_event_hash := approval_hash;
               rj_approval_payload_sha256 := approval_hash; rj_approver := vt_agent_id t;
               rj_approval := approval_envelope |})));
        mret ()
  | other => tfail (TeNotBlocked issue_id other)
  end.

(** [load_approval_state]: records without a parseable carrier are skipped. *)
Definition carried_approval (issue_id : string) (a : AdmittedApprovalV2) : option ApprovalEvent :=
  if bool_decide (ae_issue_id (aa_approval a) ≠ issue_id)
     || bool_decide (ae_v1_record_json (aa_approval a) = "") then None
  else match dec_v1_approval (ae_v1_record_json (aa_approval a)) with
       | Ok event => Some event | Err _ => None end.

Definition carried_consumed (issue_id : string) (c : EffectiveConsumeV2) : option ApprovalConsumed :=
  if bool_decide (ce_issue_id (ec_consume c) ≠ issue_id)
     || bool_decide (ce_v1_record_json (ec_consume c) = "") then None
  else match dec_v1_consumed (ce_v1_record_json (ec_consume c)) with
       | Ok record => Some record | Err _ => None end.

Definition load_approval_state (t : V2Tracker) (issue_id : string) : TM ApprovalState :=
  out ← fold_view t;
  mret {| aps_events := omap (carried_approval issue_id) (btree_values (fo_approvals out));
          aps_consumed := omap (carried_consumed issue_id)
                            (btree_values (fo_effective_consumes out)) |}.

(** Whole seconds, and zero before the epoch. *)
Definition timestamp_secs (nanos : Z) : N := Z.to_N (nanos / 1000000000).

Definition bridge_approval (t : V2Tracker) (out : FoldOutput) (st : IssueStateV2)
    (event : ApprovalEvent) (approved_at : N) (v1_record_json : string) : ApprovalEventV2 :=
  let '(author_seq, prev_own_event_hash) := next_chain_link out (vt_agent_id t) in
  {| ae_schema := V2_SCHEMA; ae_kind := "dispatch_approval";
     ae_list_uuid := lr_list_uuid (vt_list_ref t);
     ae_genesis_manifest_hash := fo_genesis_hash out;
     ae_roster_epoch := fo_latest_roster_epoch out; ae_issue_id := av_issue_id event;
     ae_open_event_hash := is_open_event_hash st; ae_actor := vt_agent_id t;
     ae_lamport := sat_add64 (fo_max_admitted_lamport out) 1; ae_author_seq := author_seq;
     ae_prev_own_event_hash := prev_own_event_hash;
     ae_verdict := match av_verdict event with V1Approve => Approve | V1Deny => Deny end;
     ae_entropy := sha256_hex (vt_agent_id t +:+ ":" +:+ pretty author_seq +:+ ":" +:+
                     av_issue_id event +:+ ":" +:+ pretty approved_at +:+ ":approval-bridge");
     ae_approved_at := approved_at; ae_v1_record_json := v1_record_json |}.

Definition store_approval (t : V2Tracker) (event : ApprovalEvent) : TM unit :=
  _ ← require_local_agent t (av_approver_agent_id event) "approval";
  own ← v2_own t;
  out ← fold_view t;
  st ← require_issue out (av_issue_id event);
  projected ← project_issue t out st;
  if bool_decide (content_hash projected ≠ av_content_hash event) then
    tfail (TeStaleApproval (av_content_hash event))
  else
    approved_at ←
      match parse_from_rfc3339 (av_approved_at event) with
      | Ok nanos => mret (timestamp_secs nanos)
      | Err e => tfail (TeBadApprovedAt e)
      end;
    v1_record_json ←
      match enc_v1_approval event with
      | Ok json => mret json | Err e => tfail (TeEncode "v1 approval carrier" e) end;
    _ ← store (append_approval own (bridge_approval t out st event approved_at v1_record_json));
    mret ().

Definition bridge_consume (t : V2Tracker) (out : FoldOutput) (event : ApprovalConsumed)
    (fence : string * string) (candidate : AdmittedApprovalV2) (v1_record_json : string)
    : ConsumeEventV2 :=
  let '(author_seq, prev_own_event_hash) := next_chain_link out (vt_agent_id t) in
  {| ce_schema := V2_SCHEMA; ce_kind := "consume"; ce_list_uuid := lr_list_uuid (vt_list_ref t);
     ce_genesis_manifest_hash := fo_genesis_hash out;
     ce_roster_epoch := fo_latest_roster_epoch out; ce_issue_id := ac_issue_id event;
     ce_actor := vt_agent_id t; ce_lamport := sat_add64 (fo_max_admitted_lamport out) 1;
     ce_author_seq := author_seq; ce_prev_own_event_hash := prev_own_event_hash;
     ce_approval_event_hash := aa_event_hash candidate;
     ce_approval_payload_sha256 := aa_event_hash candidate;
     ce_approver := ae_actor (aa_approval candidate);
     ce_claim_nonce := fence.1; ce_claimed_event_hash := fence.2;
     ce_entropy := sha256_hex (vt_agent_id t +:+ ":" +:+ pretty author_seq +:+ ":" +:+
                     ac_nonce event +:+ ":consume-bridge");
     ce_v1_record_json := v1_record_json |}.

Definition store_consumed (t : V2Tracker) (event : ApprovalConsumed) : TM unit :=
  own ← v2_own t;
  out ← fold_view t;
  st ← require_issue out (ac_issue_id event);
  fence ← require_own_fence t out (ac_issue_id event);
  projected ← project_issue t out st;
  if bool_decide (content_hash projected ≠ ac_content_hash event) then tfail TeStaleConsumption
  else
    match unconsumed_approvals out (ac_issue_id event) with
    | [] => tfail (TeNoApproval (ac_issue_id event))
    | candidate :: _ =>
        let approval_event_hash := aa_event_hash candidate in
        v1_record_json ←
          match enc_v1_consumed event with
          | Ok json => mret json | Err e => tfail (TeEncode "v1 consumed carrier" e) end;
        our_hash ← store (append_consume own
                            (bridge_consume t out event fence candidate v1_record_json));
        _ ← (if (vt_settle t =? 0)%N then mret () else λ s, (Ok (), (s.1, sleep (vt_settle t) s.2)));
        confirm ← fold_view t;
        match fo_effective_consumes confirm !! approval_event_hash with
        | Some winner =>
            if bool_decide (ec_event_hash winner = our_hash) then mret ()
            else tfail (TeCompetingConsume approval_event_hash (ce_actor (ec_consume winner)))
        | None =>
            tfail (TeIneffective approval_event_hash
              match List.find (λ d, bool_decide (cd_event_hash d = our_hash))
                              (fo_losing_consumes confirm) with
              | Some d => cd_reason d
              | None => "consume did not take effect"
              end)
        end
    end.
End tracker.

(** ** Inversion of the monad *)

Section tracker_spec.
Context `{X : Extern} `{D : Daemon} `{E : Encoders} `{J : Json} `{C : Chrono} `{V : ApprovalCodec}
  `{H : !Host}.

Lemma tbind_Ok {A B} (c : TM A) (f : A → TM B) s b s' :
  (c ≫= f) s = (Ok b, s') ↔ ∃ a s1, c s = (Ok a, s1) ∧ f a s1 = (Ok b, s').
Proof.
  unfold mbind, TM_bind. destruct (c s) as [[a|e] s1]; [naive_solver|].
  split; [done|]. intros (?&?&[=]&_).
Qed.

Lemma tmret_Ok {A} (a b : A) s s' : (mret a : TM A) s = (Ok b, s') ↔ a = b ∧ s = s'.
Proof. unfold mret, TM_ret. naive_solver. Qed.

Lemma tlift_Ok {A} (r : result A terror) a s s' : tlift r s = (Ok a, s') ↔ r = Ok a ∧ s = s'.
Proof. unfold tlift. naive_solver. Qed.

Lemma attempt_Ok {A} (c : M A) s r s' :
  attempt c s = (Ok r, s') ↔ c s.2 = (r, s'.2) ∧ s'.1 = s.1.
Proof.
  unfold attempt. destruct (c s.2) as [r0 w] eqn:E0, s' as [t' w']. simpl. naive_solver.
Qed.

Lemma store_Ok {A} (c : M A) s a s' :
  store c s = (Ok a, s') ↔ c s.2 = (Ok a, s'.2) ∧ s'.1 = s.1.
Proof.
  unfold store. rewrite tbind_Ok. setoid_rewrite attempt_Ok. split.
  - intros (r&s1&[Hc Hs]&Hr). destruct r; [|done]. apply tmret_Ok in Hr as [-> ->]. done.
  - intros [Hc Hs]. exists (Ok a), s'. split; [done|]. by apply tmret_Ok.
Qed.

Lemma host_Ok {A} (c : world → A * world) s a s' :
  host c s = (Ok a, s') ↔ c s.2 = (a, s'.2) ∧ s'.1 = s.1.
Proof. unfold host. destruct (c s.2) as [a0 w] eqn:E0, s' as [t' w']. simpl. naive_solver. Qed.

Lemma get_state_Ok s t s' : get_state s = (Ok t, s') ↔ t = s.1 ∧ s' = s.
Proof. unfold get_state. naive_solver. Qed.

Lemma put_state_Ok t s u s' : put_state t s = (Ok u, s') ↔ s' = (t, s.2).
Proof. unfold put_state. destruct u. naive_solver. Qed.
End tracker_spec.

(** Unfold an [Ok] run of the tracker monad into the [Ok] runs of its calls. *)
Ltac t_step :=
  match goal with
  | H : (_ ≫= _) _ = (Ok _, _) |- _ => apply tbind_Ok in H as (?&?&?&?)
  | H : mret _ _ = (Ok _, _) |- _ => apply tmret_Ok in H as [? ?]; subst
  | H : tlift _ _ = (Ok _, _) |- _ => apply tlift_Ok in H as [? ?]; subst
  | H : attempt _ _ = (Ok _, _) |- _ => apply attempt_Ok in H as [? ?]
  | H : store _ _ = (Ok _, _) |- _ => apply store_Ok in H as [? ?]
  | H : host _ _ = (Ok _, _) |- _ => apply host_Ok in H as [? ?]
  | H : get_state _ = (Ok _, _) |- _ => apply get_state_Ok in H as [? ?]; subst
  | H : put_state _ _ = (Ok _, _) |- _ => apply put_state_Ok in H; subst
  | H : tfail _ _ = (Ok _, _) |- _ => discriminate H
  | H : (if ?b then _ else _) _ = (Ok _, _) |- _ => destruct b eqn:?
  | H : (match ?o with None => _ | Some _ => _ end) _ = (Ok _, _) |- _ => destruct o eqn:?
  | H : (match ?o with Ok _ => _ | Err _ => _ end) _ = (Ok _, _) |- _ => destruct o eqn:?
  end.
Ltac t_inv := repeat t_step.

Section tracker_facts.
Context `{X : Extern} `{D : Daemon} `{E : Encoders} `{J : Json} `{C : Chrono} `{V : ApprovalCodec}
  `{H : !Host}.

(** [out] is the fold of a read of the tracker's list. *)
Definition viewed (t : V2Tracker) (out : FoldOutput) (w w' : world) : Prop :=
  ∃ input,
    read_fold_input (vt_manager t) (lr_list_uuid (vt_list_ref t)) (lr_creator (vt_list_ref t)) w
      = (Ok input, w') ∧ fold_v2 input = Ok out.

(** The cached own store is one that [ensure_own_store] returned for this list
    and this agent. *)
Definition cache_ok (t : V2Tracker) (st : tracker_state) : Prop :=
  ∀ own, ts_own st = Some own → own_bound own ∧
    own_list_uuid own = lr_list_uuid (vt_list_ref t) ∧ own_agent_id own = vt_agent_id t.

Lemma initial_cache_ok t : cache_ok t initial_state.
Proof. done. Qed.

Lemma v2_own_Ok t s own s' :
  cache_ok t s.1 → v2_own t s = (Ok own, s') →
  cache_ok t s'.1 ∧ own_bound own ∧
  own_list_uuid own = lr_list_uuid (vt_list_ref t) ∧ own_agent_id own = vt_agent_id t.
Proof.
  intros Hc Hrun. unfold v2_own in Hrun. t_inv.
  - split; [done|]. by apply Hc.
  - match goal with He : ensure_own_store _ _ _ = (Ok ?o, _) |- _ =>
      apply ensure_own_store_Ok in He as (Hb&Hl&_) end.
    match goal with Hb : bool_decide (_ ≠ _) = false |- _ =>
      apply bool_decide_eq_false_1, dec_stable in Hb as Hid end.
    simpl. split; [|done]. intros o [= <-]. done.
Qed.

Lemma read_and_fold_Ok t s out s' :
  read_and_fold t s = (Ok out, s') → viewed t out s.2 s'.2 ∧ s'.1 = s.1.
Proof. intros Hrun. unfold read_and_fold in Hrun. t_inv. split; [|done]. by eexists. Qed.

Lemma join_members_own t members joined_any s b s' :
  join_members t members joined_any s = (Ok b, s') → ts_own s'.1 = ts_own s.1.
Proof.
  revert joined_any s. induction members as [|m rest IH]; intros joined_any s Hrun.
  { simpl in Hrun. by t_inv. }
  cbn [join_members] in Hrun. unfold joined, insert_joined in Hrun. t_inv.
  - by eapply IH.
  - match goal with Hr : join_members _ _ _ _ = _ |- _ => apply IH in Hr; rewrite Hr end.
    repeat match goal with Hx : _.1 = _ |- _ => rewrite Hx end. done.
  - repeat case_match; try t_inv;
    match goal with Hr : join_members _ _ _ _ = _ |- _ => apply IH in Hr; rewrite Hr; congruence end.
Qed.

Lemma join_passes_Ok t passes out s out' s' :
  join_passes t passes out s = (Ok out', s') → (∃ w w', viewed t out w w') →
  (∃ w w', viewed t out' w w') ∧ ts_own s'.1 = ts_own s.1.
Proof.
  revert out s. induction passes as [|passes IH]; intros out s Hrun Hv; cbn [join_passes] in Hrun;
    apply tbind_Ok in Hrun as (more&s1&Hjoin&Hrun); apply join_members_own in Hjoin;
    destruct more; simpl in Hrun; try by t_inv.
  apply tbind_Ok in Hrun as (out1&s2&Hr&Hrun).
  apply read_and_fold_Ok in Hr as [Hv1 Hs2]. apply IH in Hrun as [? Ho]; [|eauto].
  split; [done|]. by rewrite Ho, Hs2.
Qed.

Lemma fold_view_Ok t s out s' :
  fold_view t s = (Ok out, s') → (∃ w w', viewed t out w w') ∧ ts_own s'.1 = ts_own s.1.
Proof.
  unfold fold_view. intros (out0&s1&Hr&Hrun)%tbind_Ok.
  apply read_and_fold_Ok in Hr as [Hv Hs1]. apply join_passes_Ok in Hrun as [? Ho]; [|eauto].
  split; [done|]. by rewrite Ho, Hs1.
Qed.

Lemma require_issue_Ok out id s st s' :
  require_issue out id s = (Ok st, s') ↔ fo_issues out !! id = Some st ∧ s = s'.
Proof. unfold require_issue. destruct (fo_issues out !! id); [rewrite tmret_Ok|]; naive_solver. Qed.

Lemma require_own_fence_Ok t out id s n h s' :
  require_own_fence t out id s = (Ok (n, h), s') ↔
  s = s' ∧ ∃ st, fo_issues out !! id = Some st ∧ is_status st = StClaimed (vt_agent_id t) n h.
Proof.
  unfold require_own_fence. rewrite tbind_Ok. setoid_rewrite require_issue_Ok. split.
  - intros (st&s1&[Hi <-]&Hs). destruct (is_status st) eqn:Hst; try done.
    case_bool_decide; [|done]. apply tmret_Ok in Hs as [[= -> ->] <-]. subst. eauto.
  - intros [<- (st&Hi&Hst)]. exists st, s. split; [done|]. rewrite Hst.
    by rewrite bool_decide_eq_true_2.
Qed.

(** What every operation of a claim's holder has established before it writes. *)
Lemma held_view_Ok t claim what s own out id n h s' :
  cache_ok t s.1 →
  held_view t claim what s = (Ok (own, out, id, (n, h)), s') →
  cl_by claim = vt_agent_id t ∧ cl_issue_id claim = Some id ∧
  own_bound own ∧ own_list_uuid own = lr_list_uuid (vt_list_ref t) ∧
  own_agent_id own = vt_agent_id t ∧ (∃ w w', viewed t out w w') ∧
  ∃ st, fo_issues out !! id = Some st ∧ is_status st = StClaimed (vt_agent_id t) n h.
Proof.
  intros Hc Hrun. unfold held_view in Hrun. apply tbind_Ok in Hrun as (u&s1&Hl&Hrun).
  unfold require_local_agent in Hl. case_bool_decide as Hby; [|done]. apply tmret_Ok in Hl as [_ <-].
  apply tbind_Ok in Hrun as (id'&s2&Hid&Hrun). unfold claim_issue_id in Hid.
  destruct (cl_issue_id claim) as [i|]; [|done]. apply tmret_Ok in Hid as [<- <-].
  apply tbind_Ok in Hrun as (own'&s3&Hown&Hrun). apply v2_own_Ok in Hown as (_&Hb&Hu&Ha); [|done].
  apply tbind_Ok in Hrun as (out'&s4&Hf&Hrun). apply fold_view_Ok in Hf as [Hv _].
  apply tbind_Ok in Hrun as ([n' h']&s5&Hfe&Hrun). apply require_own_fence_Ok in Hfe as [_ Hst].
  apply tmret_Ok in Hrun as [[= -> -> -> -> ->] _]. done.
Qed.

(** ** Projection succeeds on named content *)

(** The strings the v1 surface requires are not blank. *)
Definition projectable (st : IssueStateV2) : Prop :=
  is_blank (is_issue_id st) = false ∧ is_blank (is_title st) = false ∧
  ∀ who n h, is_status st = StClaimed who n h → is_blank who = false.

Lemma state_name_ok status handoffs :
  ∃ name, new_issue_state (T := tracker_error) (state_name status handoffs) = Ok name.
Proof.
  destruct status; simpl; [eexists; reflexivity..|].
  destruct handoffs as [[|]|]; eexists; reflexivity.
Qed.

Lemma project_base_Ok out st :
  is_ok (project_base out st) = true ↔
  is_blank (is_issue_id st) = false ∧ is_blank (is_title st) = false.
Proof.
  unfold project_base, new_issue_id, new_issue.
  destruct (state_name_ok (is_status st) (fo_handoffs out !! is_issue_id st)) as [name ->].
  destruct (is_blank (is_issue_id st)); simpl; [naive_solver|].
  destruct (is_blank (is_title st)); simpl; naive_solver.
Qed.

Lemma project_issue_Ok t out st s :
  (∃ issue s', project_issue t out st s = (Ok issue, s')) ↔ projectable st.
Proof.
  unfold project_issue, projectable.
  setoid_rewrite tbind_Ok. setoid_rewrite tlift_Ok.
  pose proof (project_base_Ok out st) as Hp.
  destruct (project_base out st) as [issue|e]; simpl in Hp.
  2: { split; [by intros (?&?&?&?&[? _]&_)|]. intros (Hi&Ht&_).
       by pose proof (proj2 Hp (conj Hi Ht)). }
  destruct (proj1 Hp eq_refl) as [Hi Ht].
  destruct (is_status st) as [|who n h|who n h b r|who h] eqn:Hs.
  2: { unfold new_agent_id. destruct (is_blank who) eqn:Hw.
       - split; [|intros (_&_&Hn); specialize (Hn who n h eq_refl); congruence].
         intros (?&?&?&?&[_ _]&Hrun). t_inv. discriminate.
       - split; [intros _; split_and!; [done..|naive_solver]|]. intros _.
         destruct (host (read_heartbeat (lr_list_uuid (vt_list_ref t)) who (is_issue_id st)) s)
           as [[found|e] s1] eqn:Hh; [|by unfold host in Hh; case_match].
         do 2 eexists. exists issue, s. split; [done|]. apply tbind_Ok.
         exists found, s1. split; [exact Hh|]. apply tbind_Ok. exists who, s1. done. }
  all: split; [intros _; split_and!; [done..|naive_solver]|]; intros _;
    exists issue, s, issue, s; split; [done|]; by apply tmret_Ok.
Qed.

Lemma project_states_Ok t out states s :
  (∃ issues s', project_states t out states s = (Ok issues, s')) ↔ Forall projectable states.
Proof.
  revert s. induction states as [|st rest IH]; intros s; cbn [project_states].
  { split; [by constructor|]. intros _. by exists [], s. }
  rewrite Forall_cons. split.
  - intros (issues&s'&(issue&s1&Hi&(more&s2&Hr&_)%tbind_Ok)%tbind_Ok). split.
    + apply (project_issue_Ok t out st s). eauto.
    + apply (IH s1). eauto.
  - intros [(issue&s1&Hi)%(project_issue_Ok t out st s) Hrest].
    apply (IH s1) in Hrest as (more&s2&Hr). exists (issue :: more), s2.
    apply tbind_Ok. exists issue, s1. split; [done|]. apply tbind_Ok. by exists more, s2.
Qed.

(** One issue that does not project fails the listing of all of them. *)
Lemma list_issues_projectable t s out s1 :
  fold_view t s = (Ok out, s1) →
  (∃ issues s', list_issues t s = (Ok issues, s')) ↔
  map_Forall (λ _, projectable) (fo_issues out).
Proof.
  intros Hf. unfold list_issues, project_all. setoid_rewrite tbind_Ok. rewrite Hf.
  transitivity (∃ issues s', project_states t out (btree_values (fo_issues out)) s1
                             = (Ok issues, s')); [naive_solver|].
  rewrite project_states_Ok, Forall_forall. setoid_rewrite elem_of_btree_values.
  unfold map_Forall. naive_solver.
Qed.
End tracker_facts.
