(* ===== verification/Ports.v ===== *)
(** * What the orchestrator drives

    The traits of the core crate (tracker.rs, workspace.rs, runner.rs,
    workflow.rs) and of the signing crate as classes over a world, with the
    data they exchange.  Any number of other agents act on the world between
    two calls. *)

From S2P Require Import Prelude Wire Identity Core Text Store Claims Approvals Effects.

(** ** Data *)

Record PollContext := {
  pc_active_states : list string;
  pc_terminal_states : list string;
  pc_agent_id : option string
}.

Inductive HookName := AfterCreate | BeforeRun | AfterRun | BeforeRemove.

Definition hook_name_str (h : HookName) : string :=
  match h with
  | AfterCreate => "after_create" | BeforeRun => "before_run"
  | AfterRun => "after_run" | BeforeRemove => "before_remove"
  end.

Record Hook := { hk_name : HookName; hk_script : string; hk_timeout_ms : N }.

Record LifecycleHooks := {
  lh_timeout_ms : N;
  lh_after_create : option string;
  lh_before_run : option string;
  lh_after_run : option string;
  lh_before_remove : option string
}.

Definition default_hooks : LifecycleHooks := {|
  lh_timeout_ms := 60000; lh_after_create := None; lh_before_run := None;
  lh_after_run := None; lh_before_remove := None |}.

Definition hook (hooks : LifecycleHooks) (name : HookName) : option Hook :=
  script ← match name with
           | AfterCreate => lh_after_create hooks
           | BeforeRun => lh_before_run hooks
           | AfterRun => lh_after_run hooks
           | BeforeRemove => lh_before_remove hooks
           end;
  if is_blank script then None
  else Some {| hk_name := name; hk_script := script; hk_timeout_ms := lh_timeout_ms hooks |}.

Inductive HookStatus := HookSucceeded | HookFailed | HookTimedOut.

#[export] Instance HookStatus_eq_dec : EqDecision HookStatus.
Proof. solve_decision. Defined.

Record HookOutcome := {
  hko_status : HookStatus;
  hko_exit_code : option Z;
  hko_stdout : option string;
  hko_stderr : option string
}.

(** [HookEnv]: a [BTreeMap] of variables. *)
Abbreviation HookEnv := (gmap string string).

Record WorkspaceHandle := { wh_issue_id : string; wh_path : string; wh_created_now : bool }.
Record RefusedWorkspace := { rw_issue_id : string; rw_path : string; rw_reason : string }.
Record WorkspaceScan := {
  ws_workspaces : list WorkspaceHandle;
  ws_refused : list RefusedWorkspace
}.

Inductive TurnStatus := TurnSucceeded | TurnFailed | TurnTimedOut | TurnCancelled.

#[export] Instance TurnStatus_eq_dec : EqDecision TurnStatus.
Proof. solve_decision. Defined.

Record SessionHandle := { sh_id : string; sh_workspace_path : string; sh_started_at : string }.

(** [TurnOutcome], less the usage report nobody reads. *)
Record TurnOutcome := { to_status : TurnStatus; to_summary : option string }.

Record RunnerCapabilities := {
  rc_runner_kind : string;
  rc_labels : list string;
  rc_structured_events : bool;
  rc_preset : option string;
  rc_command : option string;
  rc_args : list string;
  rc_env_allowlist : list string
}.

(** [RunnerEventKind]; [Stdout] and [Error] get the prefix [Event]. *)
Inductive RunnerEventKind :=
  | SessionStarted | EventStdout | EventStderr | TurnCompleted | Artifact | EventError.
Record RunnerEvent := {
  re_kind : RunnerEventKind;
  re_message : option string;
  re_at : option string
}.

Inductive VerifyOutcome :=
  | SigValid
  | SigInvalid (reason : string)
  | SigTransportError (reason : string).

Inductive SigningError :=
  | SeBuildClient (source : string)
  | SeRequest (url source : string)
  | SeDecode (url source : string)
  | SeHttp (status body : string)
  | SeBase64 (field source : string)
  | SeInvalidResponse (detail : string)
  | SePayloadTooLarge (max actual : N)
  | SeUntrustedKey (detail : string).

(** [Display] of [SigningError]. *)
Definition show_signing_error (e : SigningError) : string :=
  match e with
  | SeBuildClient source => "failed to construct x0xd HTTP client: " +:+ source
  | SeRequest url source => "request to " +:+ url +:+ " failed: " +:+ source
  | SeDecode url source => "failed to decode response from " +:+ url +:+ ": " +:+ source
  | SeHttp status body => "x0xd returned HTTP " +:+ status +:+ ": " +:+ body
  | SeBase64 field source => "invalid base64 in " +:+ field +:+ ": " +:+ source
  | SeInvalidResponse detail => "invalid sign response: " +:+ detail
  | SePayloadTooLarge max actual =>
      "payload exceeds maximum signable size of " +:+ pretty max +:+ " bytes: " +:+ pretty actual
  | SeUntrustedKey detail => "trusted key rejected: " +:+ detail
  end.

(** ** The traits *)

Section traits.
Context `{X : Extern} `{J : Json}.

Record SessionContext := {
  sc_issue : Issue;
  sc_workspace_path : string;
  sc_issue_source : IssueSource;
  sc_env_allowlist : gmap string string
}.

(** [SessionContext::new]. *)
Definition new_session_context (issue : Issue) (workspace_path : string) : SessionContext :=
  {| sc_issue := issue; sc_workspace_path := workspace_path;
     sc_issue_source := for_execution issue; sc_env_allowlist := ∅ |}.

(** [trait Tracker]. *)
Class TrackerApi (W T : Type) := {
  tk_list_issues : Run W (SymphonyError T) (list Issue);
  tk_create_issue : IssueDraft → Run W (SymphonyError T) Issue;
  tk_fetch_candidates : PollContext → Run W (SymphonyError T) (list Issue);
  tk_fetch_by_ids : list string → Run W (SymphonyError T) (list Issue);
  tk_claim : string → string → Run W (SymphonyError T) Claim;
  tk_heartbeat : Claim → Run W (SymphonyError T) unit;
  tk_release : Claim → ReleaseReason → Run W (SymphonyError T) unit;
  tk_handoff : Claim → Handoff → Run W (SymphonyError T) unit;
  tk_fetch_claimed : option string → Run W (SymphonyError T) (list Issue);
  tk_block : Claim → ReleaseReason → Run W (SymphonyError T) unit;
  tk_requeue_blocked : string → ReleaseReason → Run W (SymphonyError T) unit;
  tk_load_approval_state : string → Run W (SymphonyError T) ApprovalState;
  tk_store_approval : ApprovalEvent → Run W (SymphonyError T) unit;
  tk_store_consumed : ApprovalConsumed → Run W (SymphonyError T) unit
}.

(** [trait Runner].  A turn is raced against the shutdown signal: [None] when
    the signal won; a turn that completes gives the handle back.  The events of
    a session are those its stream yields until it ends. *)
Class RunnerApi (W T : Type) := {
  rn_name : string;
  rn_capabilities : RunnerCapabilities;
  rn_start_session : SessionContext → Run W (SymphonyError T) SessionHandle;
  rn_race_turn : SessionHandle → string → W →
    option (result (TurnOutcome * SessionHandle) (SymphonyError T)) * W;
  rn_stream_events : SessionHandle → W → list RunnerEvent * W;
  rn_stop_session : SessionHandle → Run W (SymphonyError T) unit
}.

(** [trait Workspace]. *)
Class WorkspaceApi (W T : Type) := {
  wk_create : Issue → Run W (SymphonyError T) WorkspaceHandle;
  wk_run_hook_in : WorkspaceHandle → Hook → HookEnv → Run W (SymphonyError T) HookOutcome;
  wk_list_workspaces : Run W (SymphonyError T) WorkspaceScan;
  wk_quarantine_workspace : WorkspaceHandle → string → Run W (SymphonyError T) string;
  wk_destroy : WorkspaceHandle → Run W (SymphonyError T) unit
}.

(** [trait SigningClient] and [trait TrustedKeyResolver]. *)
Class SigningApi (W : Type) := {
  sg_sign : string → bytes → Run W SigningError SignResponse;
  sg_verify : string → bytes → bytes → bytes → Run W SigningError VerifyOutcome;
  kr_resolve : string → Run W SigningError bytes
}.
End traits.
