(* ===== verification/Sandbox.v ===== *)
(** * The sandbox's configuration and plans (lib.rs of saorsa-sandbox)

    What a command is wrapped into: the specification of a sandbox with its
    validation, and the command lines of the backends that are host tools. *)

From S2P Require Import Prelude Core Text Effects Files.

(** ** Errors *)

(** [Error] of the sandbox, with the prefix [Sb]. *)
Inductive SandboxError :=
  | SbInvalidConfig (field message : string)
  | SbUnavailable (backend message : string)
  | SbProbeIo (p : path) (source : IoError)
  | SbIo (p : path) (source : IoError)
  | SbProtocol (message : string)
  | SbLandlock (message : string)
  | SbExec (source : IoError).

(** [Display]; a path is shown as its text. *)
Definition show_sandbox (e : SandboxError) : string :=
  match e with
  | SbInvalidConfig field message => "invalid runner config " +:+ field +:+ ": " +:+ message
  | SbUnavailable backend message =>
      "sandbox backend " +:+ backend +:+ " unavailable: " +:+ message
  | SbProbeIo p source => "sandbox probe I/O error at " +:+ p +:+ ": " +:+ io_text source
  | SbIo p source => "sandbox I/O error at " +:+ p +:+ ": " +:+ io_text source
  | SbProtocol message => "sandbox launcher protocol error: " +:+ message
  | SbLandlock message => "landlock setup failed: " +:+ message
  | SbExec source => "launcher exec failed: " +:+ io_text source
  end.

Definition has_nul (s : bytes) : bool := contains_char (ascii_of_N 0) s.

(** [validate_arg] of the sandbox. *)
Definition validate_domain (arg : string) : result unit SandboxError :=
  bail (SbInvalidConfig "runner.args" "must not contain NUL bytes") when has_nul arg;
  Ok ().

Definition WORKSPACE_MOUNT : string := "/workspace".
Definition SANDBOX_EXEC_PATH : string := "/usr/bin/sandbox-exec".
Definition SRT_BINARY : string := "srt".
Definition BWRAP_BINARY : string := "bwrap".
Definition LANDLOCK_BINARY : string := "landlock-restrict".
(** In milliseconds. *)
Definition PROBE_TIMEOUT : N := 5000.
Definition PROBE_NOT_APPLICABLE_EXIT : Z := 77.

(** ** Plans *)

Record CommandPlan := {
  cp_program : string;
  cp_args : list string;
  cp_cwd : path;
  cp_env : gmap string string
}.

Record WrappedCommand := {
  wr_program : string;
  wr_args : list string;
  wr_cwd : path;
  wr_env_additions : gmap string string
}.

Definition from_plan (plan : CommandPlan) : WrappedCommand := {|
  wr_program := cp_program plan; wr_args := cp_args plan; wr_cwd := cp_cwd plan;
  wr_env_additions := ∅ |}.

(** ** Backends and profiles *)

Inductive Backend :=
  | BkAuto | BkNative | BkSandboxRuntime | BkBubblewrap | BkLandlock | BkSandboxExec | BkNone.
#[export] Instance Backend_eq_dec : EqDecision Backend.
Proof. solve_decision. Defined.

Definition backend_str (b : Backend) : string :=
  match b with
  | BkAuto => "auto" | BkNative => "native" | BkSandboxRuntime => "sandbox-runtime"
  | BkBubblewrap => "bubblewrap" | BkLandlock => "landlock" | BkSandboxExec => "sandbox-exec"
  | BkNone => "none"
  end.

Inductive SandboxProfile := ReadOnly | RepoWrite | NoNetwork | FullDev | CiOnly.
#[export] Instance SandboxProfile_eq_dec : EqDecision SandboxProfile.
Proof. solve_decision. Defined.

Definition profile_str (p : SandboxProfile) : string :=
  match p with
  | ReadOnly => "read-only" | RepoWrite => "repo-write" | NoNetwork => "no-network"
  | FullDev => "full-dev" | CiOnly => "ci-only"
  end.
Definition denies_network_by_default (p : SandboxProfile) : bool :=
  match p with ReadOnly | NoNetwork => true | _ => false end.
Definition denies_secrets (p : SandboxProfile) : bool :=
  match p with FullDev => false | _ => true end.
Definition workspace_read_only (p : SandboxProfile) : bool :=
  match p with ReadOnly => true | _ => false end.

Inductive UnavailablePolicy := FailClosed | Warn.
#[export] Instance UnavailablePolicy_eq_dec : EqDecision UnavailablePolicy.
Proof. solve_decision. Defined.

(** ** The specification *)

Record SandboxSpec := {
  sx_profile : SandboxProfile;
  sx_backend : Backend;
  sx_on_unavailable : UnavailablePolicy;
  sx_egress_allow : list string;
  sx_secrets_deny : list path;
  sx_cpu_seconds : option N;
  sx_memory_bytes : option N;
  sx_pids_max : option N
}.
Definition with_backend (spec : SandboxSpec) (backend : Backend) : SandboxSpec := {|
  sx_profile := sx_profile spec; sx_backend := backend;
  sx_on_unavailable := sx_on_unavailable spec; sx_egress_allow := sx_egress_allow spec;
  sx_secrets_deny := sx_secrets_deny spec; sx_cpu_seconds := sx_cpu_seconds spec;
  sx_memory_bytes := sx_memory_bytes spec; sx_pids_max := sx_pids_max spec |}.
Definition with_secrets (spec : SandboxSpec) (secrets_deny : list path) : SandboxSpec := {|
  sx_profile := sx_profile spec; sx_backend := sx_backend spec;
  sx_on_unavailable := sx_on_unavailable spec; sx_egress_allow := sx_egress_allow spec;
  sx_secrets_deny := secrets_deny; sx_cpu_seconds := sx_cpu_seconds spec;
  sx_memory_bytes := sx_memory_bytes spec; sx_pids_max := sx_pids_max spec |}.

Definition enforceable_for (spec : SandboxSpec) (source : IssueSource) : bool :=
  match source with
  | LocalIssue => bool_decide (sx_backend spec ≠ BkNone) || bool_decide (sx_on_unavailable spec = Warn)
  | NetworkSourced => bool_decide (sx_backend spec ≠ BkNone)
  end.

Fixpoint validate_domains (domains : list string) : result unit SandboxError :=
  match domains with
  | [] => Ok ()
  | domain :: domains =>
      bail (SbInvalidConfig "runner.sandbox.egress_allow" "domains must not be empty")
        when is_blank domain;
      let? _ := validate_domain domain in validate_domains domains
  end.

(** [SandboxSpec::validate]. *)
Definition validate_sandbox (spec : SandboxSpec) : result unit SandboxError :=
  let? _ := validate_domains (sx_egress_allow spec) in
  bail (SbInvalidConfig "runner.sandbox.secrets_deny" "paths must not be empty")
    when existsb (λ p, bool_decide (p = "")) (sx_secrets_deny spec);
  bail (SbInvalidConfig "runner.sandbox.cpu_seconds" "must be greater than zero when set")
    when bool_decide (sx_cpu_seconds spec = Some 0%N);
  bail (SbInvalidConfig "runner.sandbox.memory_bytes" "must be greater than zero when set")
    when bool_decide (sx_memory_bytes spec = Some 0%N);
  bail (SbInvalidConfig "runner.sandbox.pids_max" "must be greater than zero when set")
    when bool_decide (sx_pids_max spec = Some 0%N);
  Ok ().

Definition network_allowed (spec : SandboxSpec) : bool :=
  match sx_profile spec with
  | FullDev => true
  | RepoWrite | CiOnly => bool_decide (sx_egress_allow spec ≠ [])
  | ReadOnly | NoNetwork => false
  end.

(** ** Command lines of the host tools *)

(** [path_string]: [Path::to_string_lossy]. *)
Definition path_string (p : path) : string := from_utf8_lossy p.

Definition replace_with_wrapper (plan : WrappedCommand) (wrapper : string)
    (wrapper_args : list string) : WrappedCommand := {|
  wr_program := wrapper; wr_args := wrapper_args ++ wr_program plan :: wr_args plan;
  wr_cwd := wr_cwd plan; wr_env_additions := wr_env_additions plan |}.

Definition wrap_sandbox_runtime (spec : SandboxSpec) (plan : WrappedCommand) : WrappedCommand :=
  replace_with_wrapper plan SRT_BINARY
    (["run"; "--profile"; profile_str (sx_profile spec); "--cwd"; path_string (wr_cwd plan);
      "--workspace"; path_string (wr_cwd plan)] ++
     concat ((λ domain, ["--egress-allow"; domain]) <$> sx_egress_allow spec) ++
     (if denies_secrets (sx_profile spec)
      then concat ((λ p, ["--deny-path"; path_string p]) <$> sx_secrets_deny spec) else []) ++
     ["--"]).

Definition bubblewrap_namespace_args (spec : SandboxSpec) : list string :=
  if network_allowed spec then
    ["--die-with-parent"; "--unshare-user"; "--unshare-ipc"; "--unshare-pid"; "--unshare-uts";
     "--unshare-cgroup"]
  else ["--die-with-parent"; "--unshare-all"].

Definition wrap_bubblewrap (spec : SandboxSpec) (plan : WrappedCommand) : WrappedCommand :=
  replace_with_wrapper plan BWRAP_BINARY
    (bubblewrap_namespace_args spec ++ ["--ro-bind"; "/"; "/"] ++
     [if workspace_read_only (sx_profile spec) then "--ro-bind" else "--bind";
      path_string (wr_cwd plan); WORKSPACE_MOUNT] ++
     (if denies_secrets (sx_profile spec)
      then concat ((λ p, if is_absolute p then ["--tmpfs"; path_string p] else [])
                   <$> sx_secrets_deny spec)
      else []) ++
     ["--tmpfs"; "/tmp"; "--proc"; "/proc"; "--dev"; "/dev"; "--chdir"; WORKSPACE_MOUNT; "--"]).

Definition wrap_landlock (spec : SandboxSpec) (plan : WrappedCommand) : WrappedCommand :=
  replace_with_wrapper plan LANDLOCK_BINARY
    ([if workspace_read_only (sx_profile spec) then "--ro" else "--rw"; path_string (wr_cwd plan)] ++
     (if network_allowed spec then [] else ["--no-network"]) ++
     (if denies_secrets (sx_profile spec)
      then concat ((λ p, ["--deny"; path_string p]) <$> sx_secrets_deny spec) else []) ++
     ["--"]).

(** [escape_sbpl_string], over bytes: the characters it escapes are ASCII. *)
Definition BACKSLASH : ascii := ascii_of_N 92.
Definition QUOTE : ascii := ascii_of_N 34.
Fixpoint escape_sbpl_string (value : string) : string :=
  match value with
  | EmptyString => ""
  | String c value =>
      let rest := escape_sbpl_string value in
      if bool_decide (c = BACKSLASH) then String BACKSLASH (String BACKSLASH rest)
      else if bool_decide (c = QUOTE) then String BACKSLASH (String QUOTE rest)
      else if bool_decide (c = NL) then String BACKSLASH (String "n" rest)
      else String c rest
  end.

(** A text in double quotes. *)
Definition in_quotes (s : string) : string := String QUOTE (s +:+ String QUOTE "").

(** [(subpath] with the escaped text in quotes[)]. *)
Definition subpath (p : path) : string :=
  "(subpath " +:+ in_quotes (escape_sbpl_string (path_string p)) +:+ ")".

Definition sandbox_exec_profile (spec : SandboxSpec) (workspace : path) : string :=
  str_join (String NL "")
    (["(version 1)"; "(deny default)"; "(allow process*)"; "(allow sysctl-read)";
      "(allow file-read*)"] ++
     (if denies_secrets (sx_profile spec)
      then (λ p, "(deny file-read* file-write* " +:+ subpath p +:+ ")") <$> sx_secrets_deny spec
      else []) ++
     [if workspace_read_only (sx_profile spec)
      then "(allow file-read* " +:+ subpath workspace +:+ ")"
      else "(allow file-write* " +:+ subpath workspace +:+ ")"] ++
     (if bool_decide (sx_profile spec = FullDev) then ["(allow file-write*)"] else []) ++
     (if network_allowed spec then ["(allow network-outbound)"] else [])).

Definition wrap_sandbox_exec (spec : SandboxSpec) (plan : WrappedCommand) : WrappedCommand :=
  replace_with_wrapper plan SANDBOX_EXEC_PATH ["-p"; sandbox_exec_profile spec (wr_cwd plan)].

(** The wrapping of a backend, before resource limits. *)
Definition wrap_backend (spec : SandboxSpec) (plan : WrappedCommand) : WrappedCommand :=
  match sx_backend spec with
  | BkSandboxRuntime => wrap_sandbox_runtime spec plan
  | BkBubblewrap => wrap_bubblewrap spec plan
  | BkLandlock => wrap_landlock spec plan
  | BkSandboxExec => wrap_sandbox_exec spec plan
  | BkNative | BkAuto | BkNone => plan
  end.

(** *** Resource limits *)

Definition limits_set (spec : SandboxSpec) : bool :=
  bool_decide (is_Some (sx_cpu_seconds spec)) || bool_decide (is_Some (sx_memory_bytes spec)) ||
  bool_decide (is_Some (sx_pids_max spec)).

(** One optional [-p name=value]. *)
Definition scope_property (name : string) (value : option N) : list string :=
  match value with Some n => ["-p"; name +:+ "=" +:+ pretty n] | None => [] end.

(** The [systemd-run] scope, when the tool is there. *)
Definition linux_scope (spec : SandboxSpec) (plan : WrappedCommand) : WrappedCommand :=
  replace_with_wrapper plan "systemd-run"
    (["--user"; "--scope"; "--quiet"] ++ scope_property "MemoryMax" (sx_memory_bytes spec) ++
     scope_property "RuntimeMaxSec" (sx_cpu_seconds spec) ++
     scope_property "TasksMax" (sx_pids_max spec) ++ ["--"]).

Definition apply_macos_resource_limits (spec : SandboxSpec) (plan : WrappedCommand) : WrappedCommand :=
  let script :=
    (match sx_cpu_seconds spec with
     | Some cpu_seconds => "ulimit -t " +:+ pretty cpu_seconds +:+ "; " | None => "" end) +:+
    (match sx_memory_bytes spec with
     | Some memory_bytes => "ulimit -v " +:+ pretty (sat_add64 memory_bytes 1023 / 1024)%N +:+ "; "
     | None => "" end) +:+
    "exec " +:+ in_quotes "$@" in
  replace_with_wrapper plan "/bin/sh" ["-c"; script; "sh"].

(** ** Probes *)

Inductive ProbeStatus := ProbePass | ProbeFail | ProbeNotApplicable.
#[export] Instance ProbeStatus_eq_dec : EqDecision ProbeStatus.
Proof. solve_decision. Defined.

Record ProbeCheck := { pk_name : string; pk_status : ProbeStatus; pk_detail : string }.
Record ProbeReport := {
  pr_backend : Backend;
  pr_profile : SandboxProfile;
  pr_checks : list ProbeCheck
}.

(** ** The host's environment *)

Inductive Platform := Linux | MacOs | OtherOs.
#[export] Instance Platform_eq_dec : EqDecision Platform.
Proof. solve_decision. Defined.

(** What [cfg!(target_os)] selects, and [std::env::var_os]. *)
Class HostEnv (W : Type) := {
  target_os : Platform;
  env_var_os : string → W → option bytes * W
}.

Section environment.
Context {W : Type} `{HE : !HostEnv W} `{F : !Fs W}.

(** [env::var(key).ok()], and [Path::is_file]. *)
Definition env_var_text {E} (key : string) : Run W E (option string) :=
  value ← embed (env_var_os key); mret (value ≫= to_str).
Definition is_file {E} (p : path) : Run W E bool :=
  metadata ← catch (fs_metadata p);
  mret (match metadata with Ok kind => bool_decide (kind = KFile) | Err _ => false end).

(** [env::split_paths] on Unix. *)
Definition split_paths (paths : bytes) : list path := split_char ":" paths.

Definition home_dir {E} : Run W E (option path) :=
  home ← embed (env_var_os "HOME");
  match home with Some home => mret (Some home) | None => embed (env_var_os "USERPROFILE") end.

Definition expand_tilde_path {E} (p : path) : Run W E path :=
  let text := path_string p in
  if bool_decide (text = "~") then home ← home_dir; mret (default p home)
  else
    match strip_prefix "~/" text with
    | Some rest => home ← home_dir; mret (match home with Some home => join home rest | None => p end)
    | None => mret p
    end.

Fixpoint expand_paths {E} (paths : list path) : Run W E (list path) :=
  match paths with
  | [] => mret []
  | p :: paths => p ← expand_tilde_path p; paths ← expand_paths paths; mret (p :: paths)
  end.
(** [SandboxSpec::normalize_paths]. *)
Definition normalize_paths {E} (spec : SandboxSpec) : Run W E SandboxSpec :=
  secrets ← expand_paths (sx_secrets_deny spec); mret (with_secrets spec secrets).

Definition default_secret_denies {E} : Run W E (list path) :=
  home ← home_dir;
  mret (match home with
        | None => []
        | Some home =>
            join home <$>
              [".ssh"; ".x0x"; ".aws"; ".config/gcloud"; ".gnupg";
               "Library/Application Support/Google/Chrome"; "Library/Application Support/Firefox";
               ".mozilla"; ".config/google-chrome"; ".config/chromium"]
        end).
Definition default_sandbox_spec {E} : Run W E SandboxSpec :=
  secrets ← default_secret_denies;
  mret {| sx_profile := RepoWrite; sx_backend := BkAuto; sx_on_unavailable := Warn;
          sx_egress_allow := []; sx_secrets_deny := secrets; sx_cpu_seconds := None;
          sx_memory_bytes := None; sx_pids_max := None |}.
End environment.
