(* ===== verification/Native.v ===== *)
(** * The native Linux sandbox (linux.rs of saorsa-sandbox)

    A command is started as a launcher that waits on a private socket; the
    parent puts the launcher into a control group, then sends it the target's
    configuration; the launcher restricts itself with Landlock and replaces
    itself with the target. *)

From S2P Require Import Prelude Core Text Effects Files Containment Sandbox.

Definition LAUNCHER_SENTINEL : string := "--__saorsa-sandbox-launcher".
Definition LAUNCHER_SOCKET_FLAG : string := "--socket".
Definition CGROUP_ROOT : path := "/sys/fs/cgroup".
Definition PROC_SELF_CGROUP : path := "/proc/self/cgroup".
(** In milliseconds. *)
Definition PROTOCOL_TIMEOUT : N := 5000.
Definition CPU_PERIOD_MICROS : N := 100000.
(** [0o700]. *)
Definition TEMP_DIR_MODE : N := 448.

Record LauncherConfig := {
  lc_program : path;
  lc_args : list string;
  lc_cwd : path;
  lc_env : gmap string string;
  lc_read_only_paths : list path;
  lc_read_write_paths : list path;
  lc_deny_network : bool
}.

(** serde_json on the configuration; errors as text. *)
Class LauncherCodec := {
  enc_config : LauncherConfig → result bytes string;
  dec_config : bytes → result LauncherConfig string
}.

(** What the launcher becomes: a program with a cleared environment. *)
Record ExecTarget := {
  et_program : path;
  et_args : list string;
  et_cwd : path;
  et_env : gmap string string
}.

(** The Landlock crate: a ruleset handles access rights and grants some of them
    beneath paths; every step can fail on the running kernel. *)
Record Ruleset := {
  rl_handled_fs : N;
  rl_handled_net : N;
  rl_rules : list (path * N)
}.
Inductive RulesetStatus := FullyEnforced | PartiallyEnforced | NotEnforced.
#[export] Instance RulesetStatus_eq_dec : EqDecision RulesetStatus.
Proof. solve_decision. Defined.

Class Landlock (W : Type) := {
  (** [AccessFs::from_read], [from_all] and [from_file] of ABI V1, and
      [AccessNet::from_all] of ABI V4 *)
  from_read : N;
  from_all : N;
  from_file : N;
  from_net : N;
  ll_handle_fs : N → Run W string unit;
  ll_handle_net : N → Run W string unit;
  ll_create : Run W string unit;
  ll_path_fd : path → Run W string unit;
  ll_add_rule : path → N → Run W string unit;
  ll_restrict_self : Ruleset → Run W string RulesetStatus
}.

(** The other calls: processes and their clock, the counter [NEXT_TEMP_ID] with
    [fetch_add], files opened for writing without creating them, the launcher's
    socket (binding includes the two calls that make it an asynchronous
    listener; accepting waits for at most so many milliseconds), and [exec],
    which returns only an error. *)
Class NativeOs (W : Type) := {
  process_id : N;
  now_nanos : W → N * W;
  next_temp_id : W → N * W;
  current_exe : Run W IoError path;
  temp_dir : W → path * W;
  read_to_string : path → Run W IoError string;
  open_write : path → Run W IoError unit;
  write_existing : path → bytes → Run W IoError unit;
  remove_dir : path → Run W IoError unit;
  remove_file : path → Run W IoError unit;
  sock_bind : path → Run W IoError unit;
  sock_accept : path → N → W → option (result unit IoError) * W;
  sock_write : path → bytes → Run W IoError unit;
  sock_close : path → Run W IoError unit;
  sock_connect : path → Run W IoError unit;
  sock_read_to_end : path → Run W IoError bytes;
  exec : ExecTarget → W → option IoError * W
}.

(** [LinuxSandboxSession], and what its mutexes guard. *)
Record LinuxSandboxSession := {
  ls_spec : SandboxSpec;
  ls_temp_dir : path;
  ls_socket_path : path;
  ls_cgroup : path
}.
Record native_state := { na_listener : bool; na_config : option LauncherConfig }.

(** ** Paths *)

Definition push_unique_path (paths : list path) (p : path) : list path :=
  if existsb (λ existing, same_path existing p) paths then paths else paths ++ [p].

Fixpoint push_components (base : path) (parts : list Component) : result path SandboxError :=
  match parts with
  | [] => Ok base
  | (RootDir | CurDir) :: parts => push_components base parts
  | Normal part :: parts => push_components (join base part) parts
  | ParentDir :: _ => Err (SbProtocol "cgroup path contains unsupported components")
  end.

Fixpoint find_line (prefix : string) (lines : list string) : option string :=
  match lines with
  | [] => None
  | line :: lines =>
      match strip_prefix prefix line with Some rest => Some rest | None => find_line prefix lines end
  end.

Definition derive_cgroup_parent_from_content (root : path) (content : string)
    : result path SandboxError :=
  let? line := ok_or (find_line "0::" (str_lines content))
                     (SbProtocol "/proc/self/cgroup does not contain a cgroup-v2 entry") in
  push_components root (components line).

Definition os_path_to_string (p : path) (field : string) : result string SandboxError :=
  ok_or (to_str p) (SbInvalidConfig field "path must be valid UTF-8").

(** ** The launcher's command line *)

Definition is_launcher_invocation (argv : list bytes) : bool :=
  match argv !! 1%nat with Some arg => bool_decide (arg = LAUNCHER_SENTINEL) | None => false end.

Definition parse_launcher_socket (argv : list bytes) : result path SandboxError :=
  bail (SbProtocol "missing launcher sentinel") when negb (is_launcher_invocation argv);
  match argv !! 2%nat, argv !! 3%nat, argv !! 4%nat with
  | Some flag, Some p, None =>
      if bool_decide (flag = LAUNCHER_SOCKET_FLAG) then Ok p
      else Err (SbProtocol "expected launcher argv: sentinel --socket <path>")
  | _, _, _ => Err (SbProtocol "expected launcher argv: sentinel --socket <path>")
  end.

Definition pass_if (value : bool) : ProbeStatus := if value then ProbePass else ProbeFail.

Section native.
Context {W : Type} `{HE : !HostEnv W} `{F : !Fs W} `{LL : !Landlock W} `{NO : !NativeOs W}
  `{LC : !LauncherCodec} `{DS : !DebugStr}.

Definition sandbox_io {A} (p : path) (c : Run W IoError A) : Run W SandboxError A :=
  mapping_err (SbIo p) c.

Definition to_json_vec (config : LauncherConfig) : result bytes SandboxError :=
  map_err (λ e, SbProtocol ("failed to encode launcher config: " +:+ e)) (enc_config config).
Definition from_json_slice (b : bytes) : result LauncherConfig SandboxError :=
  map_err (λ e, SbProtocol ("failed to decode launcher config: " +:+ e)) (dec_config b).

(** *** Resolving the target *)

Definition canonicalize_existing (p : path) (field : string) : Run W SandboxError path :=
  mapping_err (λ source, SbInvalidConfig field (p +:+ " is not accessible: " +:+ io_text source))
              (fs_canonicalize p).

Definition existing_canonical_path {E} (p : path) : Run W E (option path) :=
  resolved ← catch (fs_canonicalize p);
  mret (match resolved with Ok p => Some p | Err _ => None end).

Fixpoint existing_paths {E} (candidates found : list path) : Run W E (list path) :=
  match candidates with
  | [] => mret found
  | p :: candidates =>
      p ← existing_canonical_path p;
      existing_paths candidates (match p with Some p => push_unique_path found p | None => found end)
  end.
Definition system_read_exec_paths {E} : Run W E (list path) :=
  existing_paths
    ["/bin"; "/usr/bin"; "/usr/local/bin"; "/lib"; "/lib64"; "/usr/lib"; "/usr/lib64";
     "/etc/ld.so.cache"; "/etc/ld.so.conf"; "/etc/ld.so.conf.d"; "/dev/null"; "/dev/zero";
     "/dev/urandom"] [].

Fixpoint find_in_dirs {E} (program : string) (dirs : list path) : Run W E (option path) :=
  match dirs with
  | [] => mret None
  | dir :: dirs =>
      found ← existing_canonical_path (join dir program);
      match found with Some p => mret (Some p) | None => find_in_dirs program dirs end
  end.

Definition resolve_target_executable (program : string) (cwd : path) (target_env : gmap string string)
    : Run W SandboxError path :=
  if (1 <? length (components program)) then
    canonicalize_existing (if is_absolute program then program else join cwd program)
                          "runner.command"
  else
    path_value ← (match target_env !! "PATH" with
                  | Some value => mret (Some value)
                  | None => env_var_text "PATH"
                  end);
    path_value ← lift_result (ok_or path_value
      (SbInvalidConfig "runner.command" "PATH is required for bare commands"));
    found ← find_in_dirs program (split_paths path_value);
    lift_result (ok_or found
      (SbInvalidConfig "runner.command"
         ("could not resolve target executable " +:+ debug_str program +:+ " from PATH"))).

(** [LauncherConfig::from_plan]. *)
Definition launcher_config (plan : CommandPlan) (spec : SandboxSpec)
    : Run W SandboxError LauncherConfig :=
  cwd ← canonicalize_existing (cp_cwd plan) "runner.cwd";
  program ← resolve_target_executable (cp_program plan) cwd (cp_env plan);
  system ← system_read_exec_paths;
  let read_only_paths := push_unique_path system program in
  let '(read_only_paths, read_write_paths) :=
    if workspace_read_only (sx_profile spec) then (push_unique_path read_only_paths cwd, [])
    else (read_only_paths, [cwd]) in
  mret {| lc_program := program; lc_args := cp_args plan; lc_cwd := cwd; lc_env := cp_env plan;
          lc_read_only_paths := read_only_paths; lc_read_write_paths := read_write_paths;
          lc_deny_network := negb (network_allowed spec) |}.

Definition launcher_wrapped_command (socket_path cwd : path) : Run W SandboxError WrappedCommand :=
  launcher ← sandbox_io "current_exe" current_exe;
  program ← lift_result (os_path_to_string launcher "current_exe");
  socket ← lift_result (os_path_to_string socket_path "launcher.socket");
  mret {| wr_program := program; wr_args := [LAUNCHER_SENTINEL; LAUNCHER_SOCKET_FLAG; socket];
          wr_cwd := cwd; wr_env_additions := ∅ |}.

(** *** Control groups *)

Definition cgroup_error (p : path) (source : IoError) : SandboxError :=
  SbUnavailable (backend_str BkNative)
    ("cgroup-v2 operation at " +:+ p +:+ " failed: " +:+ io_text source).
Definition write_cgroup_file (p : path) (value : string) : Run W SandboxError unit :=
  mapping_err (cgroup_error p) (write_existing p value).

Definition unique_name (kind : string) {E} : Run W E string :=
  nonce ← embed next_temp_id; nanos ← embed now_nanos;
  mret (kind +:+ "-" +:+ pretty process_id +:+ "-" +:+ pretty nanos +:+ "-" +:+ pretty nonce).
Definition unique_temp_name {E} : Run W E string := unique_name "xsy-native".
Definition unique_leaf_name {E} : Run W E string := unique_name "symphony".

Definition current_cgroup_parent : Run W SandboxError path :=
  content ← mapping_err (cgroup_error PROC_SELF_CGROUP) (read_to_string PROC_SELF_CGROUP);
  lift_result (derive_cgroup_parent_from_content CGROUP_ROOT content).

(** A removal whose failure is only logged. *)
Definition best_effort {E A} (c : Run W IoError A) : Run W E unit := _ ← catch c; mret ().

(** [CgroupLeaf]: its path. *)
Definition delete_best_effort {E} (leaf : path) : Run W E unit := best_effort (remove_dir leaf).

Definition write_limit (p : path) (value : option string) : Run W SandboxError unit :=
  match value with Some value => write_cgroup_file p value | None => mret () end.
Definition cpu_quota (cpu_seconds : N) : string :=
  pretty (N.min (cpu_seconds * CPU_PERIOD_MICROS) u64_max) +:+ " " +:+ pretty CPU_PERIOD_MICROS.
Definition apply_limits (leaf : path) (spec : SandboxSpec) : Run W SandboxError unit :=
  _ ← write_limit (join leaf "pids.max") (pretty <$> sx_pids_max spec);
  _ ← write_limit (join leaf "memory.max") (pretty <$> sx_memory_bytes spec);
  write_limit (join leaf "cpu.max") (cpu_quota <$> sx_cpu_seconds spec).

Definition create_leaf (spec : SandboxSpec) : Run W SandboxError path :=
  parent ← current_cgroup_parent;
  name ← unique_leaf_name;
  let p := join parent name in
  _ ← mapping_err (cgroup_error p) (fs_create_dir None p);
  limited ← catch (apply_limits p spec);
  match limited with
  | Err error => _ ← delete_best_effort p; throw error
  | Ok _ => mret p
  end.

Definition attach (leaf : path) (pid : N) : Run W SandboxError unit :=
  write_cgroup_file (join leaf "cgroup.procs") (pretty pid).

(** *** Preparing a session *)

Fixpoint try_temp_dirs (attempts : nat) (base : path) : Run W SandboxError path :=
  match attempts with
  | O => throw (SbProtocol "failed to allocate a private launcher temp dir")
  | S attempts =>
      name ← unique_temp_name;
      let p := join base name in
      created ← catch (fs_create_dir (Some TEMP_DIR_MODE) p);
      match created with
      | Ok _ => mret p
      | Err source =>
          if bool_decide (io_kind source = IoAlreadyExists) then try_temp_dirs attempts base
          else throw (SbIo p source)
      end
  end.
Definition create_private_temp_dir : Run W SandboxError path :=
  base ← embed temp_dir; try_temp_dirs 16 base.

Definition cleanup_temp_dir {E} (p : path) : Run W E unit := best_effort (fs_remove_dir_all p).
Definition remove_file_if_exists {E} (p : path) : Run W E unit := best_effort (remove_file p).

(** [LinuxSandboxSession::prepare]. *)
Definition prepare_native (spec : SandboxSpec) : Run W SandboxError LinuxSandboxSession :=
  dir ← create_private_temp_dir;
  let socket_path := join dir "launcher.sock" in
  _ ← sandbox_io socket_path (sock_bind socket_path);
  cgroup ← catch (create_leaf spec);
  match cgroup with
  | Err error => _ ← cleanup_temp_dir dir; throw error
  | Ok cgroup =>
      mret {| ls_spec := spec; ls_temp_dir := dir; ls_socket_path := socket_path;
              ls_cgroup := cgroup |}
  end.
Definition fresh_native : native_state := {| na_listener := true; na_config := None |}.

(** *** The session *)

Definition NM (A : Type) : Type := Run (native_state * W) SandboxError A.
Definition on_os {A E} (c : Run W E A) : Run (native_state * W) E A :=
  λ s, let '(r, w) := c s.2 in (r, (s.1, w)).
Definition close_listener : NM unit :=
  modify (λ s, ({| na_listener := false; na_config := na_config s.1 |}, s.2)).
Definition set_config (config : option LauncherConfig) : NM unit :=
  modify (λ s, ({| na_listener := na_listener s.1; na_config := config |}, s.2)).

Definition take_listener : NM unit :=
  listening ← gets (λ s, na_listener s.1);
  _ ← close_listener;
  if listening : bool then mret ()
  else throw (SbProtocol "launcher listener was already consumed").

Definition native_wrap (session : LinuxSandboxSession) (plan : CommandPlan) : NM WrappedCommand :=
  config ← on_os (launcher_config plan (ls_spec session));
  _ ← set_config (Some config);
  on_os (launcher_wrapped_command (ls_socket_path session) (cp_cwd plan)).

Definition native_child_started (session : LinuxSandboxSession) (pid : N) : NM unit :=
  let socket := ls_socket_path session in
  attached ← catch (on_os (attach (ls_cgroup session) pid));
  match attached with
  | Err error => _ ← close_listener; throw error
  | Ok _ =>
      config ← gets (λ s, na_config s.1);
      _ ← set_config None;
      config ← lift_result (ok_or config
                 (SbProtocol "launcher config was not prepared before spawn"));
      payload ← lift_result (to_json_vec config);
      _ ← take_listener;
      accepted ← on_os (embed (sock_accept socket PROTOCOL_TIMEOUT));
      _ ← lift_result (match accepted with
                       | None => Err (SbProtocol "timed out waiting for launcher socket")
                       | Some r => map_err (SbIo socket) r
                       end);
      _ ← on_os (sandbox_io socket (sock_write socket payload));
      on_os (sandbox_io socket (sock_close socket))
  end.

Definition native_shutdown (session : LinuxSandboxSession) : NM unit :=
  _ ← close_listener;
  _ ← on_os (remove_file_if_exists (ls_socket_path session));
  _ ← on_os (delete_best_effort (ls_cgroup session));
  on_os (cleanup_temp_dir (ls_temp_dir session)).

(** *** The launcher *)

Definition landlock {A} (c : Run W string A) : Run W SandboxError A := mapping_err SbLandlock c.

Definition rights_for_path_type (p : path) (requested file_mask : N) : Run W SandboxError N :=
  metadata ← sandbox_io p (fs_metadata p);
  mret (if bool_decide (metadata = KDir) then requested else N.land requested file_mask).

Fixpoint add_rules (paths : list path) (requested : N) (rules : list (path * N))
    : Run W SandboxError (list (path * N)) :=
  match paths with
  | [] => mret rules
  | p :: paths =>
      access ← rights_for_path_type p requested from_file;
      _ ← landlock (ll_path_fd p);
      _ ← landlock (ll_add_rule p access);
      add_rules paths requested (rules ++ [(p, access)])
  end.

Definition apply_landlock (config : LauncherConfig) : Run W SandboxError unit :=
  _ ← landlock (ll_handle_fs from_all);
  net ← (if lc_deny_network config then _ ← landlock (ll_handle_net from_net); mret from_net
         else mret 0%N);
  _ ← landlock ll_create;
  rules ← add_rules (lc_read_only_paths config) from_read [];
  rules ← add_rules (lc_read_write_paths config) from_all rules;
  status ← landlock (ll_restrict_self
             {| rl_handled_fs := from_all; rl_handled_net := net; rl_rules := rules |});
  if bool_decide (status = NotEnforced) then throw (SbLandlock "ruleset was not enforced")
  else mret ().

(** A return without error stands for the replaced process. *)
Definition exec_target (config : LauncherConfig) : Run W SandboxError unit :=
  failed ← embed (exec {| et_program := lc_program config; et_args := lc_args config;
                          et_cwd := lc_cwd config; et_env := lc_env config |});
  match failed with Some source => throw (SbExec source) | None => mret () end.

Definition launcher_main (argv : list bytes) : Run W SandboxError unit :=
  socket_path ← lift_result (parse_launcher_socket argv);
  _ ← sandbox_io socket_path (sock_connect socket_path);
  payload ← sandbox_io socket_path (sock_read_to_end socket_path);
  config ← lift_result (from_json_slice payload);
  _ ← apply_landlock config;
  exec_target config.

(** *** Probes *)

Record NativeProbe := {
  np_landlock_supported : bool;
  np_landlock_detail : string;
  np_cgroup_supported : bool;
  np_cgroup_detail : string
}.
Definition is_supported (probe : NativeProbe) : bool :=
  np_landlock_supported probe && np_cgroup_supported probe.

Definition probe_landlock {E} (deny_network : bool) : Run W E (bool * string) :=
  created ← catch (
    _ ← ll_handle_fs from_all;
    _ ← (if deny_network then ll_handle_net from_net else mret ());
    ll_create);
  mret (match created with
        | Ok _ =>
            (true, if deny_network
                   then "Landlock ABI v1 file rules and ABI v4 TCP rules are available"
                   else "Landlock ABI v1 file rules are available")
        | Err error => (false, "Landlock probe failed: " +:+ error)
        end).

Definition probe_cgroup_leaf (root : path) : Run W SandboxError unit :=
  content ← mapping_err (cgroup_error PROC_SELF_CGROUP) (read_to_string PROC_SELF_CGROUP);
  parent ← lift_result (derive_cgroup_parent_from_content root content);
  name ← unique_leaf_name;
  let p := join parent name in
  _ ← mapping_err (cgroup_error p) (fs_create_dir None p);
  let procs := join p "cgroup.procs" in
  opened ← catch (open_write procs);
  _ ← best_effort (remove_dir p);
  lift_result (map_err (cgroup_error procs) opened).

Definition probe_cgroup_delegation {E} : Run W E (bool * string) :=
  mounted ← is_file (join CGROUP_ROOT "cgroup.controllers");
  if negb mounted then mret (false, CGROUP_ROOT +:+ " is not a cgroup-v2 mount")
  else
    probed ← catch (probe_cgroup_leaf CGROUP_ROOT);
    mret (match probed with
          | Ok _ => (true, "cgroup-v2 leaf creation and write probe succeeded")
          | Err error =>
              (false, "cgroup-v2 delegation probe failed: " +:+ show_sandbox error)
          end).

Definition native_probe_with_network_policy {E} (deny_network : bool) : Run W E NativeProbe :=
  landlock ← probe_landlock deny_network;
  cgroup ← probe_cgroup_delegation;
  mret {| np_landlock_supported := landlock.1; np_landlock_detail := landlock.2;
          np_cgroup_supported := cgroup.1; np_cgroup_detail := cgroup.2 |}.

Definition native_probe_report {E} (profile : SandboxProfile) : Run W E ProbeReport :=
  probe ← native_probe_with_network_policy false;
  mret {| pr_backend := BkNative; pr_profile := profile;
          pr_checks := [
            {| pk_name := "landlock-abi"; pk_status := pass_if (np_landlock_supported probe);
               pk_detail := np_landlock_detail probe |};
            {| pk_name := "cgroup-v2-delegation"; pk_status := pass_if (np_cgroup_supported probe);
               pk_detail := np_cgroup_detail probe |}] |}.
End native.
