(* ===== verification/HostSandbox.v ===== *)
(** * The host sandbox (lib.rs of saorsa-sandbox)

    Which backend is used, what a session wraps a command into, and the
    self-test that runs forbidden actions in the sandbox. *)

From S2P Require Import Prelude Core Text Effects Files Containment Sandbox Native.

(** ** Child processes *)

(** [std::process::ExitStatus]: the code, or the signal on Unix. *)
Record ProcessStatus := { ps_code : option Z; ps_signal : option Z }.
Definition status_success (status : ProcessStatus) : bool := bool_decide (ps_code status = Some 0%Z).

(** A command with a cleared environment and piped output; whether its input is
    a pipe and whether it leads its own process group. *)
Record ChildCommand := {
  cc_program : string;
  cc_args : list string;
  cc_current_dir : path;
  cc_envs : gmap string string;
  cc_stdin_piped : bool;
  cc_process_group : bool
}.

(** Spawning, and what the self-test does with a child: its id, a kill, and
    waiting for its output for at most so many milliseconds (of which the
    status and the standard error are read). *)
Class ChildProcess (W : Type) := {
  ch_spawn : ChildCommand → Run W IoError N;
  ch_id : N → W → option N * W;
  ch_start_kill : N → Run W IoError unit;
  ch_output : N → N → W → option (result (ProcessStatus * bytes) IoError) * W;
  show_process_status : ProcessStatus → string
}.

(** ** The sandbox and its sessions *)

Record HostSandbox := { hx_spec : SandboxSpec; hx_backend_available : bool }.

Inductive HostWrapMode := Available | UnavailableWarn.
#[export] Instance HostWrapMode_eq_dec : EqDecision HostWrapMode.
Proof. solve_decision. Defined.

(** The implementations of [trait SandboxSession]: [NoopSession],
    [HostSandboxSession] and [LinuxSandboxSession]. *)
Inductive SandboxSession :=
  | NoopSession
  | HostSandboxSession (spec : SandboxSpec) (mode : HostWrapMode)
  | NativeSession (session : LinuxSandboxSession) (st : native_state).

Inductive ProbeRun := Blocked (detail : string) | Allowed (detail : string) | NotApplicable (detail : string).

(** The environment of the child: that of the plan, with the backend's
    additions over it. *)
Definition merged_env (wrapped : WrappedCommand) (base_env : gmap string string) : gmap string string :=
  wr_env_additions wrapped ∪ base_env.

(** [HostSandbox::prepare_mode]. *)
Definition prepare_mode (sandbox : HostSandbox) (source : IssueSource)
    : result HostWrapMode SandboxError :=
  let spec := hx_spec sandbox in
  if bool_decide (sx_backend spec ≠ BkNone) && hx_backend_available sandbox then Ok Available
  else
    let message := if bool_decide (sx_backend spec = BkNone) then "sandbox backend resolved to none"
                   else backend_str (sx_backend spec) +:+ " is unavailable" in
    bail (SbUnavailable (backend_str (sx_backend spec)) message)
      when bool_decide (source = NetworkSourced) ||
           bool_decide (sx_on_unavailable spec = FailClosed);
    Ok UnavailableWarn.

Section host.
Context {W : Type} `{HE : !HostEnv W} `{F : !Fs W} `{LL : !Landlock W} `{NO : !NativeOs W}
  `{CP : !ChildProcess W} `{LC : !LauncherCodec} `{DS : !DebugStr}.

(** *** Resolving the backend *)

Fixpoint any_file {E} (command : string) (dirs : list path) : Run W E bool :=
  match dirs with
  | [] => mret false
  | dir :: dirs =>
      found ← is_file (join dir command);
      if found : bool then mret true else any_file command dirs
  end.
Definition command_available {E} (command : string) : Run W E bool :=
  if (1 <? length (components command)) then is_file command
  else
    paths ← embed (env_var_os "PATH");
    match paths with None => mret false | Some paths => any_file command (split_paths paths) end.

Definition native_backend_available {E} (spec : SandboxSpec) : Run W E bool :=
  if bool_decide (target_os = Linux) then
    probe ← native_probe_with_network_policy (negb (network_allowed spec));
    mret (is_supported probe)
  else mret false.

Definition auto_backend {E} (spec : SandboxSpec) : Run W E (Backend * bool) :=
  if bool_decide (target_os = Linux) then
    native ← native_backend_available spec;
    if native : bool then mret (BkNative, true)
    else
      bwrap ← command_available BWRAP_BINARY;
      if bwrap : bool then mret (BkBubblewrap, true)
      else
        landlock ← command_available LANDLOCK_BINARY;
        if landlock : bool then mret (BkLandlock, true) else mret (BkNone, false)
  else
    srt ← command_available SRT_BINARY;
    if srt : bool then mret (BkSandboxRuntime, true)
    else if bool_decide (target_os = MacOs) then
      sandbox_exec ← command_available SANDBOX_EXEC_PATH;
      if sandbox_exec : bool then mret (BkSandboxExec, true) else mret (BkNone, false)
    else mret (BkNone, false).

Definition resolve_backend {E} (requested : Backend) (spec : SandboxSpec) : Run W E (Backend * bool) :=
  let tool (backend : Backend) (binary : string) :=
    available ← command_available binary; mret (backend, available) in
  match requested with
  | BkAuto => auto_backend spec
  | BkNative => available ← native_backend_available spec; mret (BkNative, available)
  | BkSandboxRuntime => tool BkSandboxRuntime SRT_BINARY
  | BkBubblewrap => tool BkBubblewrap BWRAP_BINARY
  | BkLandlock => tool BkLandlock LANDLOCK_BINARY
  | BkSandboxExec => tool BkSandboxExec SANDBOX_EXEC_PATH
  | BkNone => mret (BkNone, false)
  end.

(** [HostSandbox::new]. *)
Definition new_host_sandbox (spec : SandboxSpec) : Run W SandboxError HostSandbox :=
  spec ← normalize_paths spec;
  _ ← lift_result (validate_sandbox spec);
  resolved ← resolve_backend (sx_backend spec) spec;
  mret {| hx_spec := with_backend spec resolved.1; hx_backend_available := resolved.2 |}.

(** *** Sessions *)

(** [Sandbox::prepare]. *)
Definition prepare (sandbox : HostSandbox) (source : IssueSource)
    : Run W SandboxError SandboxSession :=
  mode ← lift_result (prepare_mode sandbox source);
  if bool_decide (mode = Available) && bool_decide (sx_backend (hx_spec sandbox) = BkNative) then
    if bool_decide (target_os = Linux) then
      session ← prepare_native (hx_spec sandbox);
      mret (NativeSession session fresh_native)
    else throw (SbUnavailable (backend_str (sx_backend (hx_spec sandbox)))
                              "native backend is Linux-only")
  else mret (HostSandboxSession (hx_spec sandbox) mode).

Definition apply_linux_resource_limits {E} (spec : SandboxSpec) (plan : WrappedCommand)
    : Run W E WrappedCommand :=
  available ← command_available "systemd-run";
  mret (if available : bool then linux_scope spec plan else plan).

Definition apply_platform_resource_limits {E} (spec : SandboxSpec) (plan : WrappedCommand)
    : Run W E WrappedCommand :=
  match target_os with
  | Linux => apply_linux_resource_limits spec plan
  | MacOs => mret (apply_macos_resource_limits spec plan)
  | OtherOs => mret plan
  end.
Definition apply_resource_limits {E} (spec : SandboxSpec) (plan : WrappedCommand)
    : Run W E WrappedCommand :=
  if limits_set spec then apply_platform_resource_limits spec plan else mret plan.

(** [HostSandboxSession::wrap_available]. *)
Definition wrap_available {E} (spec : SandboxSpec) (plan : WrappedCommand) : Run W E WrappedCommand :=
  apply_resource_limits spec (wrap_backend spec plan).

(** [HostSandboxSession::wrap]. *)
Definition host_wrap {E} (spec : SandboxSpec) (mode : HostWrapMode) (plan : CommandPlan)
    : Run W E WrappedCommand :=
  let command := from_plan plan in
  match mode with Available => wrap_available spec command | UnavailableWarn => mret command end.

(** The methods of [trait SandboxSession], on the session at hand. *)
Definition SX (A : Type) : Type := Run (SandboxSession * W) SandboxError A.

Definition in_host {A} (c : Run W SandboxError A) : SX A :=
  λ s, let '(r, w) := c s.2 in (r, (s.1, w)).
Definition in_native {A} (session : LinuxSandboxSession) (st : native_state)
    (c : Run (native_state * W) SandboxError A) : SX A :=
  λ s, let '(r, (st, w)) := c (st, s.2) in (r, (NativeSession session st, w)).

Definition session_wrap (plan : CommandPlan) : SX WrappedCommand := λ s,
  match s.1 with
  | NoopSession => in_host (mret (from_plan plan)) s
  | HostSandboxSession spec mode => in_host (host_wrap spec mode plan) s
  | NativeSession session st => in_native session st (native_wrap session plan) s
  end.
Definition session_child_started (pid : N) : SX unit := λ s,
  match s.1 with
  | NoopSession | HostSandboxSession _ _ => in_host (mret ()) s
  | NativeSession session st => in_native session st (native_child_started session pid) s
  end.
Definition session_shutdown : SX unit := λ s,
  match s.1 with
  | NoopSession | HostSandboxSession _ _ => in_host (mret ()) s
  | NativeSession session st => in_native session st (native_shutdown session) s
  end.

(** A call on a session from outside: its result and the session after it. *)
Definition with_session {A E} (session : SandboxSession) (c : SX A)
    : Run W E (result A SandboxError * SandboxSession) :=
  λ w, let '(r, (session, w)) := c (session, w) in (Ok (r, session), w).

(** *** The self-test *)

Definition exit_detail (status : ProcessStatus) (stderr : bytes) : string :=
  let stderr := from_utf8_lossy stderr in
  if is_blank stderr then "exit status " +:+ show_process_status status
  else "exit status " +:+ show_process_status status +:+ "; stderr: " +:+ trim stderr.

Definition run_probe_plan {E} (command : WrappedCommand) (base_env : gmap string string)
    (session : SandboxSession) : Run W E (ProbeRun * SandboxSession) :=
  child ← catch (ch_spawn {|
    cc_program := wr_program command; cc_args := wr_args command; cc_current_dir := wr_cwd command;
    cc_envs := merged_env command base_env; cc_stdin_piped := false; cc_process_group := false |});
  match child with
  | Err error =>
      mret (if bool_decide (io_kind error = IoNotFound)
            then NotApplicable ("probe command not found: " +:+ io_text error)
            else Blocked ("probe command failed to spawn: " +:+ io_text error), session)
  | Ok child =>
      pid ← embed (ch_id child);
      match pid with
      | None =>
          _ ← catch (ch_start_kill child);
          mret (Blocked "probe command spawned without a child id", session)
      | Some pid =>
          started ← with_session session (session_child_started pid);
          let '(started, session) := started in
          match started with
          | Err error =>
              _ ← catch (ch_start_kill child);
              mret (Blocked ("probe child-start hook failed: " +:+ show_sandbox error), session)
          | Ok _ =>
              output ← embed (ch_output child PROBE_TIMEOUT);
              mret (match output with
                    | None => Blocked "probe command timed out"
                    | Some (Err error) =>
                        Blocked ("probe command failed while waiting: " +:+ io_text error)
                    | Some (Ok (status, stderr)) =>
                        if status_success status then Allowed "forbidden action succeeded"
                        else if bool_decide (ps_code status = Some PROBE_NOT_APPLICABLE_EXIT)
                        then NotApplicable "probe dependency is unavailable"
                        else Blocked (exit_detail status stderr)
                    end, session)
          end
      end
  end.

Definition check_of_run (name : string) (run : ProbeRun) : ProbeCheck :=
  match run with
  | Blocked detail => {| pk_name := name; pk_status := ProbePass; pk_detail := detail |}
  | Allowed detail => {| pk_name := name; pk_status := ProbeFail; pk_detail := detail |}
  | NotApplicable detail => {| pk_name := name; pk_status := ProbeNotApplicable; pk_detail := detail |}
  end.
Definition not_applicable (name detail : string) : ProbeCheck :=
  {| pk_name := name; pk_status := ProbeNotApplicable; pk_detail := detail |}.
Definition probe_failed (name detail : string) : ProbeCheck :=
  {| pk_name := name; pk_status := ProbeFail; pk_detail := detail |}.

Definition probe_check {E} (sandbox : HostSandbox) (workspace : path) (name program : string)
    (args : list string) : Run W E ProbeCheck :=
  search ← env_var_text "PATH";
  let env := match search with Some search => {["PATH" := search]} | None => ∅ end in
  let plan := {| cp_program := program; cp_args := args; cp_cwd := workspace; cp_env := env |} in
  prepared ← catch (prepare sandbox LocalIssue);
  match prepared with
  | Err error =>
      mret (not_applicable name ("probe could not prepare command: " +:+ show_sandbox error))
  | Ok session =>
      wrapped ← with_session session (session_wrap plan);
      let '(wrapped, session) := wrapped in
      match wrapped with
      | Err error =>
          ended ← with_session session session_shutdown;
          mret (match ended.1 with
                | Err shutdown_error =>
                    probe_failed name ("probe sandbox shutdown failed after wrap error: " +:+
                                       show_sandbox shutdown_error)
                | Ok _ =>
                    not_applicable name ("probe could not wrap command: " +:+ show_sandbox error)
                end)
      | Ok command =>
          ran ← run_probe_plan command (cp_env plan) session;
          let '(run, session) := ran in
          ended ← with_session session session_shutdown;
          mret (match ended.1 with
                | Err error =>
                    probe_failed name ("probe sandbox shutdown failed: " +:+ show_sandbox error)
                | Ok _ => check_of_run name run
                end)
      end
  end.

Fixpoint first_file {E} (paths : list path) : Run W E (option path) :=
  match paths with
  | [] => mret None
  | p :: paths => found ← is_file p; if found : bool then mret (Some p) else first_file paths
  end.
Definition probe_secret_candidate {E} (sandbox : HostSandbox) : Run W E (option path) :=
  home ← home_dir;
  id_rsa ← match home with
           | None => mret None
           | Some home => first_file [join home ".ssh/id_rsa"]
           end;
  match id_rsa with
  | Some p => mret (Some p)
  | None => first_file (sx_secrets_deny (hx_spec sandbox))
  end.

Definition secret_probe {E} (sandbox : HostSandbox) (workspace synthetic_secret : path)
    : Run W E ProbeCheck :=
  if negb (denies_secrets (sx_profile (hx_spec sandbox))) then
    mret (not_applicable "secret-read" "profile permits secret access")
  else
    candidate ← probe_secret_candidate sandbox;
    let secret := default synthetic_secret candidate in
    let spec := hx_spec sandbox in
    let spec := if existsb (λ p, same_path p secret) (sx_secrets_deny spec) then spec
                else with_secrets spec (sx_secrets_deny spec ++ [secret]) in
    probe_check {| hx_spec := spec; hx_backend_available := hx_backend_available sandbox |}
      workspace "secret-read" "/bin/sh"
      ["-c"; "cat " +:+ in_quotes "$1" +:+ " >/dev/null"; "sh"; path_string secret].

Definition pid_probe {E} (sandbox : HostSandbox) (workspace : path) : Run W E ProbeCheck :=
  if bool_decide (target_os ≠ Linux) then
    mret (not_applicable "host-pid-invisible" "host PID namespace check is Linux-specific")
  else probe_check sandbox workspace "host-pid-invisible" "/bin/sh"
         ["-c"; "test ! -e /proc/1/root"; "sh"].

Definition network_probe {E} (sandbox : HostSandbox) (workspace : path) : Run W E ProbeCheck :=
  if network_allowed (hx_spec sandbox) &&
     negb (denies_network_by_default (sx_profile (hx_spec sandbox))) then
    mret (not_applicable "non-allowlisted-network" "profile permits configured network egress")
  else
    probe_check sandbox workspace "non-allowlisted-network" "/bin/sh"
      ["-c";
       "command -v python3 >/dev/null 2>&1 || exit 77; " +:+ "python3 -c '" +:+ "import socket; " +:+
       "socket.create_connection((" +:+ in_quotes "1.1.1.1" +:+ ", 80), 2).close()" +:+ "'";
       "sh"].

Definition probe_root {E} : Run W E path :=
  root ← embed temp_dir; nanos ← embed now_nanos;
  mret (join root ("xsy-sandbox-probe-" +:+ pretty process_id +:+ "-" +:+ pretty nanos)).

Definition probe_io {A} (p : path) (c : Run W IoError A) : Run W SandboxError A :=
  mapping_err (SbProbeIo p) c.

Definition cleanup_probe_root (root : path) : Run W SandboxError unit :=
  removed ← catch (fs_remove_dir_all root);
  match removed with
  | Ok _ => mret ()
  | Err error =>
      if bool_decide (io_kind error = IoNotFound) then mret () else throw (SbProbeIo root error)
  end.

(** [HostSandbox::probe]; the parent directory of the synthetic secret is the
    one its path was joined to. *)
Definition probe (sandbox : HostSandbox) : Run W SandboxError ProbeReport :=
  let spec := hx_spec sandbox in
  if bool_decide (sx_backend spec = BkNative) then
    if bool_decide (target_os = Linux) then native_probe_report (sx_profile spec)
    else mret {| pr_backend := sx_backend spec; pr_profile := sx_profile spec;
                 pr_checks := [not_applicable "native-linux-only" "native backend is Linux-only"] |}
  else
    root ← probe_root;
    let workspace := join root "workspace" in
    _ ← probe_io workspace (fs_create_dir_all None workspace);
    outside ← probe_check sandbox workspace "write-outside-workspace" "/bin/sh"
      ["-c"; "echo blocked > " +:+ in_quotes "$1"; "sh"; path_string (join root "outside.txt")];
    let parent := join root "synthetic-secret" in
    let synthetic_secret := join parent "id_rsa" in
    _ ← probe_io parent (fs_create_dir_all None parent);
    _ ← probe_io synthetic_secret (fs_write synthetic_secret "synthetic probe secret");
    secret ← secret_probe sandbox workspace synthetic_secret;
    pid ← pid_probe sandbox workspace;
    network ← network_probe sandbox workspace;
    _ ← cleanup_probe_root root;
    mret {| pr_backend := sx_backend spec; pr_profile := sx_profile spec;
            pr_checks := [outside; secret; pid; network] |}.
End host.
