(* ===== verification/RunnerSpec.v ===== *)
(** * The runner's configuration (spec.rs, env.rs, error.rs, preset of the
      shell runner)

    How the runner block of a workflow resolves to a command, its arguments and
    its environment, and the environment of a session's child. *)

From S2P Require Import Prelude Wire Core Text Effects Files Ports Sandbox.

(** ** Errors *)

(** [Error] of the runner crate, with the prefix [Rn]. *)
Inductive RunnerFailure :=
  | RnMissingConfig (field : string)
  | RnInvalidConfig (field message : string)
  | RnSecretEnvDenied (key : string)
  | RnUnknownSession (session_id : string)
  | RnSpawn (command : string) (source : IoError)
  | RnMissingChildPid (command : string)
  | RnMissingPipe (command stream : string)
  | RnWait (command : string) (source : IoError)
  | RnKillProcessGroup (command message : string)
  | RnSandboxUnavailable (backend message : string)
  | RnProbeIo (p : path) (source : IoError)
  | RnSandbox (e : SandboxError)
  | RnDecode (source : string)
  | RnYaml (source : string)
  | RnSessionRegistryPoisoned.

Definition show_runner (e : RunnerFailure) : string :=
  match e with
  | RnMissingConfig field => "missing runner config: " +:+ field
  | RnInvalidConfig field message => "invalid runner config " +:+ field +:+ ": " +:+ message
  | RnSecretEnvDenied key =>
      "environment variable " +:+ key +:+
      " is denied by default; list it in allow_secret_env to pass it explicitly"
  | RnUnknownSession session_id => "runner session " +:+ session_id +:+ " is not active"
  | RnSpawn command source => "failed to spawn " +:+ command +:+ ": " +:+ io_text source
  | RnMissingChildPid command =>
      "child process for " +:+ command +:+ " did not expose a process id"
  | RnMissingPipe command stream =>
      "child process for " +:+ command +:+ " did not expose " +:+ stream +:+ " pipe"
  | RnWait command source => "failed while waiting for " +:+ command +:+ ": " +:+ io_text source
  | RnKillProcessGroup command message =>
      "failed to kill timed-out process group for " +:+ command +:+ ": " +:+ message
  | RnSandboxUnavailable backend message =>
      "sandbox backend " +:+ backend +:+ " unavailable: " +:+ message
  | RnProbeIo p source => "sandbox probe I/O error at " +:+ p +:+ ": " +:+ io_text source
  | RnSandbox e => show_sandbox e
  | RnDecode source => "failed to decode runner workflow config: " +:+ source
  | RnYaml source => "failed to decode runner workflow YAML: " +:+ source
  | RnSessionRegistryPoisoned => "runner session registry is poisoned"
  end.

(** [From<Error> for SymphonyError]. *)
Definition runner_error {T} (e : RunnerFailure) : SymphonyError T := RunnerError (show_runner e).

(** ** Presets *)

Inductive PresetName := Codex | ClaudeCode | Kimi | Glm | Minimax | Pi.
#[export] Instance PresetName_eq_dec : EqDecision PresetName.
Proof. solve_decision. Defined.

Definition preset_str (p : PresetName) : string :=
  match p with
  | Codex => "codex" | ClaudeCode => "claude_code" | Kimi => "kimi" | Glm => "glm"
  | Minimax => "minimax" | Pi => "pi"
  end.
Definition parse_preset (value : string) : result PresetName RunnerFailure :=
  if bool_decide (value = "codex") then Ok Codex
  else if bool_decide (value ∈ ["claude_code"; "claude-code"; "claude"]) then Ok ClaudeCode
  else if bool_decide (value = "kimi") then Ok Kimi
  else if bool_decide (value = "glm") then Ok Glm
  else if bool_decide (value = "minimax") then Ok Minimax
  else if bool_decide (value = "pi") then Ok Pi
  else Err (RnInvalidConfig "runner.preset" ("unknown preset " +:+ value)).
Definition all_presets : list PresetName := [Codex; ClaudeCode; Kimi; Glm; Minimax; Pi].

(** ** The specification *)

Definition DEFAULT_TURN_TIMEOUT_MS : N := 3600000.
Definition DEFAULT_EVENT_CAPACITY : N := 256.
Definition DEFAULT_HIGH_WATER_MARK : N := 192.

Inductive EventOverflowPolicy := DropOldest.

Record RunnerSpec := {
  rs_command : string;
  rs_args : list string;
  rs_env : gmap string string;
  rs_allow_secret_env : list string;
  rs_turn_timeout_ms : N;
  rs_event_capacity : N;
  rs_event_high_water_mark : N;
  rs_event_overflow_policy : EventOverflowPolicy;
  rs_sandbox : option SandboxSpec;
  rs_preset : option PresetName
}.

Definition new_runner_spec (command : string) : result RunnerSpec RunnerFailure :=
  bail (RnInvalidConfig "runner.command" "must not be empty") when is_blank command;
  Ok {| rs_command := command; rs_args := []; rs_env := ∅; rs_allow_secret_env := [];
        rs_turn_timeout_ms := DEFAULT_TURN_TIMEOUT_MS; rs_event_capacity := DEFAULT_EVENT_CAPACITY;
        rs_event_high_water_mark := DEFAULT_HIGH_WATER_MARK;
        rs_event_overflow_policy := DropOldest; rs_sandbox := None; rs_preset := None |}.

(** Updates of some fields. *)
Definition spec_with_command (spec : RunnerSpec) (command : string) (args : list string) : RunnerSpec := {|
  rs_command := command; rs_args := args; rs_env := rs_env spec;
  rs_allow_secret_env := rs_allow_secret_env spec; rs_turn_timeout_ms := rs_turn_timeout_ms spec;
  rs_event_capacity := rs_event_capacity spec;
  rs_event_high_water_mark := rs_event_high_water_mark spec;
  rs_event_overflow_policy := rs_event_overflow_policy spec; rs_sandbox := rs_sandbox spec;
  rs_preset := rs_preset spec |}.
Definition spec_with_env (spec : RunnerSpec) (env : gmap string string) (allow : list string)
    : RunnerSpec := {|
  rs_command := rs_command spec; rs_args := rs_args spec; rs_env := env;
  rs_allow_secret_env := allow; rs_turn_timeout_ms := rs_turn_timeout_ms spec;
  rs_event_capacity := rs_event_capacity spec;
  rs_event_high_water_mark := rs_event_high_water_mark spec;
  rs_event_overflow_policy := rs_event_overflow_policy spec; rs_sandbox := rs_sandbox spec;
  rs_preset := rs_preset spec |}.
Definition spec_with_sizes (spec : RunnerSpec) (timeout capacity high_water_mark : N) : RunnerSpec := {|
  rs_command := rs_command spec; rs_args := rs_args spec; rs_env := rs_env spec;
  rs_allow_secret_env := rs_allow_secret_env spec; rs_turn_timeout_ms := timeout;
  rs_event_capacity := capacity; rs_event_high_water_mark := high_water_mark;
  rs_event_overflow_policy := rs_event_overflow_policy spec; rs_sandbox := rs_sandbox spec;
  rs_preset := rs_preset spec |}.
Definition spec_with_origin (spec : RunnerSpec) (sandbox : option SandboxSpec)
    (preset : option PresetName) : RunnerSpec := {|
  rs_command := rs_command spec; rs_args := rs_args spec; rs_env := rs_env spec;
  rs_allow_secret_env := rs_allow_secret_env spec; rs_turn_timeout_ms := rs_turn_timeout_ms spec;
  rs_event_capacity := rs_event_capacity spec;
  rs_event_high_water_mark := rs_event_high_water_mark spec;
  rs_event_overflow_policy := rs_event_overflow_policy spec; rs_sandbox := sandbox;
  rs_preset := preset |}.

(** [with_arg] and [with_env]. *)
Definition with_arg (spec : RunnerSpec) (arg : string) : RunnerSpec :=
  spec_with_command spec (rs_command spec) (rs_args spec ++ [arg]).
Definition with_env (spec : RunnerSpec) (key value : string) : RunnerSpec :=
  spec_with_env spec (<[key := value]> (rs_env spec)) (rs_allow_secret_env spec).

(** The other builders. *)
Definition with_args (spec : RunnerSpec) (args : list string) : RunnerSpec :=
  spec_with_command spec (rs_command spec) args.
Definition with_allowed_secret_env (spec : RunnerSpec) (key : string) : RunnerSpec :=
  spec_with_env spec (rs_env spec) (rs_allow_secret_env spec ++ [key]).
Definition with_turn_timeout_ms (spec : RunnerSpec) (timeout_ms : N) : RunnerSpec :=
  spec_with_sizes spec timeout_ms (rs_event_capacity spec) (rs_event_high_water_mark spec).
Definition with_event_capacity (spec : RunnerSpec) (capacity : N) : RunnerSpec :=
  spec_with_sizes spec (rs_turn_timeout_ms spec) capacity (rs_event_high_water_mark spec).
Definition with_event_high_water_mark (spec : RunnerSpec) (high_water_mark : N) : RunnerSpec :=
  spec_with_sizes spec (rs_turn_timeout_ms spec) (rs_event_capacity spec) high_water_mark.
Definition with_sandbox (spec : RunnerSpec) (sandbox : SandboxSpec) : RunnerSpec :=
  spec_with_origin spec (Some sandbox) (rs_preset spec).

Definition base_env (spec : RunnerSpec) : RunnerSpec :=
  with_env (with_env spec "NO_COLOR" "1") "TERM" "dumb".

Definition codex_spec : result RunnerSpec RunnerFailure :=
  let? spec := new_runner_spec "codex" in Ok (base_env (with_arg spec "exec")).
Definition claude_code_spec : result RunnerSpec RunnerFailure :=
  let? spec := new_runner_spec "claude" in
  Ok (base_env (with_arg (with_arg (with_arg (with_arg spec "--print") "--output-format")
                                   "stream-json") "--verbose")).
Definition config_only_spec (preset_name command : string) : result RunnerSpec RunnerFailure :=
  let? spec := new_runner_spec command in Ok (base_env (with_arg spec "--stdin")).
Definition pi_spec : result RunnerSpec RunnerFailure :=
  let? spec := new_runner_spec "pi" in Ok (base_env (with_arg spec "--print")).

(** [preset::resolve]. *)
Definition resolve_preset (name : PresetName) : result RunnerSpec RunnerFailure :=
  match name with
  | Codex => codex_spec
  | ClaudeCode => claude_code_spec
  | Kimi => config_only_spec "kimi" "kimi"
  | Glm => config_only_spec "glm" "glm"
  | Minimax => config_only_spec "minimax" "minimax"
  | Pi => pi_spec
  end.

(** ** Validation *)

Definition validate_command (command : string) : result unit RunnerFailure :=
  bail (RnInvalidConfig "runner.command" "must not be empty") when is_blank command;
  bail (RnInvalidConfig "runner.command" "must not contain NUL bytes") when has_nul command;
  Ok ().
Definition validate_arg (arg : string) : result unit RunnerFailure :=
  bail (RnInvalidConfig "runner.args" "must not contain NUL bytes") when has_nul arg;
  Ok ().
(** The names of the workspace manager's checks are taken. *)
Definition validate_child_key (key : string) : result unit RunnerFailure :=
  bail (RnInvalidConfig "runner.env" "key must not be empty") when is_blank key;
  bail (RnInvalidConfig "runner.env" "key must not contain '='") when contains_char "=" key;
  bail (RnInvalidConfig "runner.env" "key must not contain NUL bytes") when has_nul key;
  Ok ().
Definition validate_child_value (value : string) : result unit RunnerFailure :=
  bail (RnInvalidConfig "runner.env" "value must not contain NUL bytes") when has_nul value;
  Ok ().

(** [for x in xs { check(x)?; }]. *)
Fixpoint check_each {A E} (check : A → result unit E) (xs : list A) : result unit E :=
  match xs with [] => Ok () | x :: xs => let? _ := check x in check_each check xs end.

Definition validate_pair (pair : string * string) : result unit RunnerFailure :=
  let? _ := validate_child_key pair.1 in validate_child_value pair.2.

Definition is_secret_like (key : string) : bool :=
  let upper := to_ascii_uppercase key in
  ends_with "_TOKEN" upper || ends_with "_KEY" upper || ends_with "_SECRET" upper.

Definition check_secret (allowed : list string) (key : string) : result unit RunnerFailure :=
  if is_secret_like key && bool_decide (key ∉ allowed) then Err (RnSecretEnvDenied key) else Ok ().
Definition ensure_secret_env_allowed (keys allowed : list string) : result unit RunnerFailure :=
  check_each (check_secret allowed) keys.

(** The keys of a map, in order. *)
Definition env_keys (env : gmap string string) : list string := fst <$> btree_iter env.

(** [RunnerSpec::validate]. *)
Definition validate_spec (spec : RunnerSpec) : result unit RunnerFailure :=
  let? _ := validate_command (rs_command spec) in
  bail (RnInvalidConfig "runner.event_capacity" "must be at least 1")
    when (rs_event_capacity spec =? 0)%N;
  bail (RnInvalidConfig "runner.event_high_water_mark" "must be between 1 and event_capacity")
    when ((rs_event_high_water_mark spec =? 0) ||
          (rs_event_capacity spec <? rs_event_high_water_mark spec))%N;
  let? _ := check_each validate_arg (rs_args spec) in
  let? _ := check_each validate_pair (btree_iter (rs_env spec)) in
  let? _ := check_each validate_child_key (rs_allow_secret_env spec) in
  let? _ := (match rs_sandbox spec with
             | Some sandbox => map_err RnSandbox (validate_sandbox sandbox)
             | None => Ok ()
             end) in
  ensure_secret_env_allowed (env_keys (rs_env spec)) (rs_allow_secret_env spec).

(** [build_child_env]: the declared variables, and over them those the session
    allows. *)
Fixpoint insert_each (pairs : list (string * string)) (env : gmap string string)
    : result (gmap string string) RunnerFailure :=
  match pairs with
  | [] => Ok env
  | (key, value) :: pairs =>
      let? _ := validate_pair (key, value) in insert_each pairs (<[key := value]> env)
  end.

(** ** The workflow's runner block *)

Record RunnerOverrides := {
  ro_command : option string;
  ro_args : option (list string);
  ro_env : option (gmap string string);
  ro_allow_secret_env : option (list string);
  ro_turn_timeout_ms : option N;
  ro_event_capacity : option N;
  ro_event_high_water_mark : option N;
  ro_sandbox_args : option (list string)
}.

(** [RunnerWorkflowConfig]; its top-level fields that can override a preset's
    are [rw_top]. *)
Record RunnerWorkflowConfig := {
  rw_kind : option string;
  rw_preset : option PresetName;
  rw_top : RunnerOverrides;
  rw_sandbox : option SandboxSpec;
  rw_shell : option RunnerOverrides;
  rw_codex : option RunnerOverrides;
  rw_claude_code : option RunnerOverrides;
  rw_kimi : option RunnerOverrides;
  rw_glm : option RunnerOverrides;
  rw_minimax : option RunnerOverrides;
  rw_pi : option RunnerOverrides
}.

Definition selected_preset (config : RunnerWorkflowConfig) : result (option PresetName) RunnerFailure :=
  match rw_preset config with
  | Some preset => Ok (Some preset)
  | None =>
      match rw_kind config with
      | None => Ok None
      | Some kind =>
          if bool_decide (kind = "shell") then Ok None
          else let? preset := parse_preset kind in Ok (Some preset)
      end
  end.

Definition explicit_shell_spec (config : RunnerWorkflowConfig) : result RunnerSpec RunnerFailure :=
  match ro_command (rw_top config) with
  | Some command => new_runner_spec command
  | None =>
      match rw_shell config ≫= ro_command with
      | Some command => new_runner_spec command
      | None => Err (RnMissingConfig "runner.command or runner.preset")
      end
  end.

Definition overrides_for (config : RunnerWorkflowConfig) (preset : option PresetName)
    : option RunnerOverrides :=
  match preset with
  | Some Codex => rw_codex config
  | Some ClaudeCode => rw_claude_code config
  | Some Kimi => rw_kimi config
  | Some Glm => rw_glm config
  | Some Minimax => rw_minimax config
  | Some Pi => rw_pi config
  | None => rw_shell config
  end.

(** [RunnerOverrides::apply_to]. *)
Definition apply_overrides (overrides : RunnerOverrides) (spec : RunnerSpec)
    : result RunnerSpec RunnerFailure :=
  let? command := (match ro_command overrides with
                   | Some command => let? _ := validate_command command in Ok command
                   | None => Ok (rs_command spec)
                   end) in
  let? args := (match ro_args overrides with
                | Some args => let? _ := check_each validate_arg args in Ok args
                | None => Ok (rs_args spec)
                end) in
  let? env := insert_each (match ro_env overrides with Some env => btree_iter env | None => [] end)
                          (rs_env spec) in
  let allow := rs_allow_secret_env spec ++ default [] (ro_allow_secret_env overrides) in
  let? args := (match ro_sandbox_args overrides with
                | Some sandbox_args =>
                    let? _ := check_each validate_arg sandbox_args in Ok (sandbox_args ++ args)
                | None => Ok args
                end) in
  Ok (spec_with_sizes (spec_with_env (spec_with_command spec command args) env allow)
        (default (rs_turn_timeout_ms spec) (ro_turn_timeout_ms overrides))
        (default (rs_event_capacity spec) (ro_event_capacity overrides))
        (default (rs_event_high_water_mark spec) (ro_event_high_water_mark overrides))).

(** Decoding the front matter: the runner block of a JSON value, if any, and
    YAML to JSON; errors as text. *)
Class RunnerCodec `{J : Json} := {
  dec_workflow : Value → result (option RunnerWorkflowConfig) string;
  yaml_to_json : string → result (result Value string) string
}.

Section resolving.
Context `{J : Json} {W : Type} `{HE : !HostEnv W}.

(** [RunnerWorkflowConfig::into_spec]; reading the environment is all it does
    to the world. *)
Definition into_spec (config : RunnerWorkflowConfig) : Run W RunnerFailure RunnerSpec :=
  preset ← lift_result (selected_preset config);
  spec ← lift_result (match preset with
                      | Some name => resolve_preset name
                      | None => explicit_shell_spec config
                      end);
  spec ← lift_result (match overrides_for config preset with
                      | Some block => apply_overrides block spec
                      | None => Ok spec
                      end);
  spec ← lift_result (apply_overrides (rw_top config) spec);
  sandbox ← (match rw_sandbox config with
             | None => mret (rs_sandbox spec)
             | Some sandbox =>
                 sandbox ← normalize_paths sandbox;
                 _ ← lift_result (map_err RnSandbox (validate_sandbox sandbox));
                 mret (Some sandbox)
             end);
  let spec := spec_with_origin spec sandbox preset in
  _ ← lift_result (validate_spec spec);
  mret spec.

Context `{RC : !RunnerCodec}.

Definition from_workflow_config (config : Value) : Run W RunnerFailure RunnerSpec :=
  root ← lift_result (map_err RnDecode (dec_workflow config));
  runner ← lift_result (ok_or root (RnMissingConfig "runner"));
  into_spec runner.
Definition from_workflow_yaml (yaml : string) : Run W RunnerFailure RunnerSpec :=
  json ← lift_result (map_err RnYaml (yaml_to_json yaml));
  json ← lift_result (map_err RnDecode json);
  from_workflow_config json.
End resolving.

(** ** The child's environment *)

Section session.
Context `{X : Extern} `{J : Json}.

Definition build_child_env (spec : RunnerSpec) (ctx : SessionContext)
    : result (gmap string string) RunnerFailure :=
  let? child_env := insert_each (btree_iter (rs_env spec)) ∅ in
  let? child_env := insert_each (btree_iter (sc_env_allowlist ctx)) child_env in
  let? _ := ensure_secret_env_allowed (env_keys child_env) (rs_allow_secret_env spec) in
  Ok child_env.
End session.
