(* ===== verification/ShellRunner.v ===== *)
(** * The shell runner (runner.rs of the shell runner)

    Sessions with their event queues, and the turn: a child process in a
    sandbox, its streams read into the queue, a timeout that kills its process
    group, and the race with the daemon's shutdown. *)

From S2P Require Import Prelude Wire Core Text Effects Files Containment Ports.
From S2P Require Import Sandbox Native HostSandbox RunnerSpec.

Definition READ_CHUNK_BYTES : N := 8192.

(** ** Events *)

(** [RunnerEvent::new] and [with_message]. *)
Definition new_event (kind : RunnerEventKind) : RunnerEvent :=
  {| re_kind := kind; re_message := None; re_at := None |}.
Definition event_with_message (kind : RunnerEventKind) (message : string) : RunnerEvent :=
  {| re_kind := kind; re_message := Some message; re_at := None |}.

(** [Sender::try_send] on a channel with so many places: [None] when it is full. *)
Definition try_send (capacity : N) (queue : list RunnerEvent) (event : RunnerEvent)
    : option (list RunnerEvent) :=
  if (llen queue <? capacity)%N then Some (queue ++ [event]) else None.

Definition drop_oldest_and_send (capacity : N) (queue : list RunnerEvent) (event : RunnerEvent)
    : list RunnerEvent :=
  let queue := tail queue in
  match try_send capacity queue event with Some queue => queue | None => queue end.

(** [BoundedEventQueue::send]; the receiver lives as long as the queue. *)
Definition send_event (policy : EventOverflowPolicy) (capacity : N) (queue : list RunnerEvent)
    (event : RunnerEvent) : list RunnerEvent :=
  match try_send capacity queue event with
  | Some queue => queue
  | None => match policy with DropOldest => drop_oldest_and_send capacity queue event end
  end.

(** ** What a turn's tasks do *)

(** An error of a pipe: whether it is [BrokenPipe], and its text. *)
Record PipeError := { broken_pipe : bool; pipe_text : string }.

(** A completed operation of one of the three tasks of a turn, or the consumer
    of the event stream taking the next event. *)
Inductive TaskStep :=
  | StdinWritten (r : result unit PipeError)
  | StdinClosed (r : result unit PipeError)
  | StreamRead (kind : RunnerEventKind) (r : result bytes PipeError)
  | EventTaken.

(** [write_prompt]: the events of its two calls. *)
Definition write_prompt (step : TaskStep) : list RunnerEvent :=
  let report (what : string) (r : result unit PipeError) :=
    match r with
    | Ok _ => []
    | Err error => if broken_pipe error then []
                   else [event_with_message EventError (what +:+ pipe_text error)]
    end in
  match step with
  | StdinWritten r => report "failed to write prompt to stdin: " r
  | StdinClosed r => report "failed to close child stdin: " r
  | _ => []
  end.

(** One round of [stream_reader]; an empty read or an error is its last. *)
Definition stream_reader (kind : RunnerEventKind) (r : result bytes PipeError) : list RunnerEvent :=
  match r with
  | Ok "" => []
  | Ok chunk => [event_with_message kind (from_utf8_lossy chunk)]
  | Err error => [event_with_message EventError ("failed to read child stream: " +:+ pipe_text error)]
  end.
Definition step_events (step : TaskStep) : list RunnerEvent :=
  match step with
  | StreamRead kind r => stream_reader kind r
  | EventTaken => []
  | _ => write_prompt step
  end.

(** ** The interfaces of the turn *)

(** What a turn asks of the operating system and the runtime besides
    [ChildProcess]: pipes, waiting for at most so many milliseconds and without
    limit, SIGKILL to a process or group (no such process is no error), the
    steps the tasks complete (the first of them writes the prompt) while the
    turn waits for the child and then for them, the failure of a task, and whether the daemon's shutdown signal
    comes first at a point where the turn waits.  The monotonic clock is in
    milliseconds. *)
Class TurnProcess (W : Type) := {
  tp_pipe : N → string → W → bool * W;
  tp_wait_timeout : N → N → W → option (result ProcessStatus IoError) * W;
  tp_wait : N → Run W IoError ProcessStatus;
  tp_kill : Z → Run W string unit;
  tp_steps : N → string → W → list TaskStep * W;
  tp_join : N → string → W → option string * W;
  tp_cancelled : W → bool * W;
  tp_instant_ms : W → N * W;
  tp_now_rfc3339 : W → option string * W
}.

(** How a turn ends early: with an error, or dropped where it waits. *)
Inductive TurnEnd := TurnError (e : RunnerFailure) | TurnDropped.

Inductive WaitStatus := Exited (status : ProcessStatus) | TimedOut.

Definition platform_exit_summary (status : ProcessStatus) : string :=
  match ps_signal status with
  | Some signal => "signal=" +:+ pretty signal
  | None => "terminated_without_exit_code"
  end.
Definition exit_summary (status : ProcessStatus) : string :=
  match ps_code status with
  | Some code => "exit_code=" +:+ pretty code
  | None => platform_exit_summary status
  end.

Definition outcome_from_wait_status (status : WaitStatus) : TurnOutcome :=
  match status with
  | Exited exit_status =>
      if status_success exit_status
      then {| to_status := TurnSucceeded; to_summary := Some (exit_summary exit_status) |}
      else {| to_status := TurnFailed; to_summary := Some (exit_summary exit_status) |}
  | TimedOut => {| to_status := TurnTimedOut; to_summary := Some "turn timed out" |}
  end.

(** ** The runner *)

Record ShellRunner := {
  sn_spec : RunnerSpec;
  sn_sandbox : option HostSandbox;
  sn_capabilities : RunnerCapabilities
}.

(** [SessionState]; its event queue is in the channels. *)
Record SessionState := {
  st_env : gmap string string;
  st_issue_source : IssueSource;
  st_stream_taken : bool;
  st_last_duration_ms : option N
}.

(** A channel: what is queued, and what the consumer took. *)
Record channel := { ch_queue : list RunnerEvent; ch_taken : list RunnerEvent }.
Definition empty_channel : channel := {| ch_queue := []; ch_taken := [] |}.

(** The registry, the number of the next session, and the channels, which
    outlive their sessions while somebody holds them. *)
Record shell (W : Type) := {
  sw_sessions : gmap string SessionState;
  sw_next_session : N;
  sw_channels : gmap string channel;
  sw_world : W
}.
Arguments sw_sessions {W}. Arguments sw_next_session {W}. Arguments sw_channels {W}.
Arguments sw_world {W}.

Definition new_shell {W} (w : W) : shell W := {|
  sw_sessions := ∅; sw_next_session := 1; sw_channels := ∅; sw_world := w |}.
Definition set_sessions {W} (sessions : gmap string SessionState) (s : shell W) : shell W := {|
  sw_sessions := sessions; sw_next_session := sw_next_session s; sw_channels := sw_channels s;
  sw_world := sw_world s |}.
Definition set_channel {W} (id : string) (c : channel) (s : shell W) : shell W := {|
  sw_sessions := sw_sessions s; sw_next_session := sw_next_session s;
  sw_channels := <[id := c]> (sw_channels s); sw_world := sw_world s |}.
Definition count_session {W} (s : shell W) : shell W := {|
  sw_sessions := sw_sessions s; sw_next_session := wrap_add64 (sw_next_session s) 1;
  sw_channels := sw_channels s; sw_world := sw_world s |}.
Definition set_world {W} (w : W) (s : shell W) : shell W := {|
  sw_sessions := sw_sessions s; sw_next_session := sw_next_session s;
  sw_channels := sw_channels s; sw_world := w |}.
Definition channel_of {W} (id : string) (s : shell W) : channel :=
  default empty_channel (sw_channels s !! id).

(** The command of a wrapped plan, with the plan's environment. *)
Definition command_from_wrapped (wrapped : WrappedCommand) (base_env : gmap string string)
    : ChildCommand := {|
  cc_program := wr_program wrapped; cc_args := wr_args wrapped; cc_current_dir := wr_cwd wrapped;
  cc_envs := merged_env wrapped base_env; cc_stdin_piped := true; cc_process_group := true |}.

Section runner.
Context `{X : Extern} `{J : Json} {W : Type}.
Context `{HE : !HostEnv W} `{F : !Fs W} `{LL : !Landlock W} `{NO : !NativeOs W}
  `{CP : !ChildProcess W} `{TP : !TurnProcess W} `{LC : !LauncherCodec} `{DS : !DebugStr}.

(** [ShellRunner::new]. *)
Definition shell_capabilities (spec : RunnerSpec) : RunnerCapabilities := {|
  rc_runner_kind := "shell";
  rc_labels := match rs_preset spec with Some preset => [preset_str preset] | None => [] end;
  rc_structured_events := false; rc_preset := preset_str <$> rs_preset spec;
  rc_command := Some (rs_command spec); rc_args := rs_args spec;
  rc_env_allowlist := env_keys (rs_env spec) |}.
Definition new_shell_runner (spec : RunnerSpec) : Run W RunnerFailure ShellRunner :=
  _ ← lift_result (validate_spec spec);
  sandbox ← (match rs_sandbox spec with
             | None => mret None
             | Some sandbox =>
                 sandbox ← mapping_err RnSandbox (new_host_sandbox sandbox); mret (Some sandbox)
             end);
  mret {| sn_spec := spec; sn_sandbox := sandbox; sn_capabilities := shell_capabilities spec |}.

(** *** The monad of a turn *)

Definition SM (A : Type) : Type := Run (shell W) TurnEnd A.
Definition on_os {A E} (c : Run W E A) : Run (shell W) E A :=
  λ s, let '(r, w) := c (sw_world s) in (r, set_world w s).
Definition asking {A E} (c : W → A * W) : Run (shell W) E A := on_os (embed c).
Definition failing {A E} (f : E → RunnerFailure) (c : Run W E A) : SM A :=
  on_os (mapping_err (λ e, TurnError (f e)) c).
Definition fail {A} (e : RunnerFailure) : SM A := throw (TurnError e).

(** A point where the turn waits: the race may drop it. *)
Definition await_point : SM unit :=
  cancelled ← asking tp_cancelled;
  if cancelled : bool then throw TurnDropped else mret ().

(** The result of a part of the turn as a value; a drop is no result. *)
Definition caught {A} (c : SM A) : SM (result A RunnerFailure) := λ s,
  let '(r, s') := c s in
  match r with
  | Ok a => (Ok (Ok a), s')
  | Err (TurnError e) => (Ok (Err e), s')
  | Err TurnDropped => (Err TurnDropped, s')
  end.

Definition send (r : ShellRunner) (id : string) (event : RunnerEvent) : SM unit :=
  modify (λ s, set_channel id {|
    ch_queue := send_event (rs_event_overflow_policy (sn_spec r)) (rs_event_capacity (sn_spec r))
                  (ch_queue (channel_of id s)) event;
    ch_taken := ch_taken (channel_of id s) |} s).

(** The consumer of the stream takes the next event, if there is one. *)
Definition take_event (id : string) : SM unit :=
  modify (λ s,
    match ch_queue (channel_of id s) with
    | [] => s
    | event :: queue =>
        set_channel id {| ch_queue := queue; ch_taken := ch_taken (channel_of id s) ++ [event] |} s
    end).
Definition run_step (r : ShellRunner) (id : string) (step : TaskStep) : SM unit :=
  match step with EventTaken => take_event id | _ => for_each (send r id) (step_events step) end.
(** The tasks run while the turn waits. *)
Definition run_tasks (r : ShellRunner) (id : string) (child : N) (prompt : string) : SM unit :=
  steps ← asking (tp_steps child prompt); for_each (run_step r id) steps.

(** *** Processes *)

Definition max_i32 : N := 2147483647.

Definition kill_process_group (child : N) (command : string) : Run (shell W) RunnerFailure unit :=
  child_id ← asking (ch_id child);
  match child_id with
  | None => mret ()
  | Some child_id =>
      if (max_i32 <? child_id)%N then
        throw (RnKillProcessGroup command
          "child id does not fit process id: out of range integral type conversion attempted")
      else on_os (mapping_err (RnKillProcessGroup command) (tp_kill (- Z.of_N child_id)))
  end.
Definition killing (child : N) (command : string) : SM unit :=
  mapping_err TurnError (kill_process_group child command).

(** [kill_child_after_start_failure], [shutdown_after_wrap_error] and
    [shutdown_after_spawn_error]: failures are only logged. *)
Definition kill_child_after_start_failure (child : N) (command : string) : SM unit :=
  _ ← catch (kill_process_group child command); mret ().
Definition shutdown_after_error (session : SandboxSession) : SM unit :=
  _ ← on_os (with_session session session_shutdown); mret ().

Definition take_pipe (child : N) (stream command : string) : SM unit :=
  present ← asking (tp_pipe child stream);
  if present : bool then mret ()
  else _ ← killing child command; fail (RnMissingPipe command stream).

Definition wait_with_timeout (r : ShellRunner) (id : string) (child : N) (prompt : string)
    : SM WaitStatus :=
  let command := rs_command (sn_spec r) in
  _ ← run_tasks r id child prompt;
  _ ← await_point;
  waited ← asking (tp_wait_timeout child (rs_turn_timeout_ms (sn_spec r)));
  match waited with
  | Some (Ok status) => mret (Exited status)
  | Some (Err source) => fail (RnWait command source)
  | None =>
      _ ← killing child command;
      _ ← await_point;
      _ ← failing (RnWait command) (tp_wait child);
      mret TimedOut
  end.

Definition join_background_task (r : ShellRunner) (id : string) (child : N)
    (prompt task_name : string) : SM unit :=
  _ ← run_tasks r id child prompt;
  _ ← await_point;
  failed ← asking (tp_join child task_name);
  match failed with
  | None => mret ()
  | Some error =>
      send r id (event_with_message EventError (task_name +:+ " task failed: " +:+ error))
  end.

(** *** A turn *)

Definition command_for_session (r : ShellRunner) (workspace_path : path)
    (child_env : gmap string string) (issue_source : IssueSource)
    : SM (ChildCommand * SandboxSession) :=
  let plan := {| cp_program := rs_command (sn_spec r); cp_args := rs_args (sn_spec r);
                 cp_cwd := workspace_path; cp_env := child_env |} in
  session ← (match sn_sandbox r with
             | Some sandbox => failing RnSandbox (prepare sandbox issue_source)
             | None => mret NoopSession
             end);
  wrapped ← on_os (with_session session (session_wrap plan));
  let '(wrapped, session) := wrapped in
  match wrapped with
  | Ok wrapped => mret (command_from_wrapped wrapped (cp_env plan), session)
  | Err error => _ ← shutdown_after_error session; fail (RnSandbox error)
  end.

Definition finish_sandbox_session {A} (outcome : result A RunnerFailure)
    (session : SandboxSession) : SM A :=
  shutdown ← on_os (with_session session session_shutdown);
  match outcome, shutdown.1 with
  | Ok outcome, Ok _ => mret outcome
  | Err error, Ok _ => fail error
  | _, Err error => fail (RnSandbox error)
  end.

(** The turn of a child that has started: its outcome with its duration. *)
Definition drive_child (r : ShellRunner) (id : string) (child : N) (prompt : string) (started : N)
    : SM (TurnOutcome * N) :=
  let command := rs_command (sn_spec r) in
  _ ← take_pipe child "stdin" command;
  _ ← take_pipe child "stdout" command;
  _ ← take_pipe child "stderr" command;
  status ← wait_with_timeout r id child prompt;
  _ ← join_background_task r id child prompt "stdin writer";
  _ ← join_background_task r id child prompt "stdout reader";
  _ ← join_background_task r id child prompt "stderr reader";
  now ← asking tp_instant_ms;
  let outcome := outcome_from_wait_status status in
  _ ← send r id (event_with_message TurnCompleted (default "turn completed" (to_summary outcome)));
  mret (outcome, (now - started)%N).

Definition run_child (r : ShellRunner) (sess : SessionHandle) (prompt : string)
    (child_env : gmap string string) (issue_source : IssueSource) : SM (TurnOutcome * N) :=
  let command_name := rs_command (sn_spec r) in
  started ← asking tp_instant_ms;
  prepared ← command_for_session r (sh_workspace_path sess) child_env issue_source;
  let '(command, session) := prepared in
  child ← on_os (catch (ch_spawn command));
  match child with
  | Err source => _ ← shutdown_after_error session; fail (RnSpawn command_name source)
  | Ok child =>
      child_pid ← asking (ch_id child);
      match child_pid with
      | None =>
          _ ← kill_child_after_start_failure child command_name;
          _ ← shutdown_after_error session;
          fail (RnMissingChildPid command_name)
      | Some child_pid =>
          _ ← await_point;
          hooked ← on_os (with_session session (session_child_started child_pid));
          let '(hooked, session) := hooked in
          match hooked with
          | Err error =>
              _ ← kill_child_after_start_failure child command_name;
              _ ← shutdown_after_error session;
              fail (RnSandbox error)
          | Ok _ =>
              outcome ← caught (drive_child r (sh_id sess) child prompt started);
              finish_sandbox_session outcome session
          end
      end
  end.

(** *** The methods of [Runner] *)

Definition session_parts (id : string) : SM SessionState :=
  sessions ← gets sw_sessions;
  lift_result (ok_or (sessions !! id) (TurnError (RnUnknownSession id))).

Definition set_last_usage (id : string) (duration_ms : N) : SM unit :=
  sessions ← gets sw_sessions;
  session ← lift_result (ok_or (sessions !! id) (TurnError (RnUnknownSession id)));
  modify (set_sessions (<[id := {|
    st_env := st_env session; st_issue_source := st_issue_source session;
    st_stream_taken := st_stream_taken session; st_last_duration_ms := Some duration_ms |}]>
    sessions)).

Definition start_session (r : ShellRunner) (ctx : SessionContext) : SM SessionHandle :=
  child_env ← lift_result (map_err TurnError (build_child_env (sn_spec r) ctx));
  session_number ← gets sw_next_session;
  _ ← modify count_session;
  let session_id := "shell-" +:+ pretty session_number in
  now ← asking tp_now_rfc3339;
  _ ← modify (set_channel session_id empty_channel);
  _ ← send r session_id (new_event SessionStarted);
  sessions ← gets sw_sessions;
  _ ← modify (set_sessions (<[session_id := {|
    st_env := child_env; st_issue_source := sc_issue_source ctx; st_stream_taken := false;
    st_last_duration_ms := None |}]> sessions));
  mret {| sh_id := session_id; sh_workspace_path := sc_workspace_path ctx;
          sh_started_at := default "1970-01-01T00:00:00Z" now |}.

Definition run_turn (r : ShellRunner) (sess : SessionHandle) (prompt : string) : SM TurnOutcome :=
  session ← session_parts (sh_id sess);
  outcome ← run_child r sess prompt (st_env session) (st_issue_source session);
  _ ← set_last_usage (sh_id sess) outcome.2;
  mret outcome.1.

(** [stream_events]: whether the caller gets the session's events. *)
Definition stream_events (sess : SessionHandle) : shell W → bool * shell W := λ s,
  match sw_sessions s !! sh_id sess with
  | None => (false, s)
  | Some session =>
      if st_stream_taken session then (false, s)
      else (true, set_sessions (<[sh_id sess := {|
              st_env := st_env session; st_issue_source := st_issue_source session;
              st_stream_taken := true; st_last_duration_ms := st_last_duration_ms session |}]>
              (sw_sessions s)) s)
  end.

Definition stop_session (sess : SessionHandle) : SM unit :=
  sessions ← gets sw_sessions;
  _ ← lift_result (ok_or (sessions !! sh_id sess) (TurnError (RnUnknownSession (sh_id sess))));
  modify (set_sessions (delete (sh_id sess) sessions)).

(** *** The runner as the orchestrator sees it *)

Definition as_runner {A T} (c : SM A) : Run (shell W) (SymphonyError T) A :=
  mapping_err (λ e, match e with TurnError e => runner_error e
                               | TurnDropped => RunnerError "" end) c.

(** A dropped turn is the shutdown winning the race, before the turn is polled
    at all or where it waits; that the hook of a started child is dropped
    halfway is left out. The orchestrator takes
    the stream of a session right after its start, so the events it reads from
    it are those the channel held or holds. *)
Definition ShellRunnerApi {T} (r : ShellRunner) : RunnerApi (shell W) T := {|
  rn_name := "shell";
  rn_capabilities := sn_capabilities r;
  rn_start_session ctx := as_runner (start_session r ctx);
  rn_race_turn sess prompt := λ s,
    match (_ ← await_point; run_turn r sess prompt) s with
    | (Ok outcome, s') => (Some (Ok (outcome, sess)), s')
    | (Err (TurnError e), s') => (Some (Err (runner_error e)), s')
    | (Err TurnDropped, s') => (None, s')
    end;
  rn_stream_events sess := λ s,
    let c := channel_of (sh_id sess) s in (ch_taken c ++ ch_queue c, s);
  rn_stop_session sess := as_runner (stop_session sess) |}.
End runner.
