(* ===== verification/Watching.v ===== *)
(** * The calls of a sandboxed turn

    The interfaces of the sandbox and the runner over a world that also keeps
    the calls that change something outside, with their answers, and what is
    read from a socket; and a logic
    for what calls a run makes, for any state that contains such a log. *)

From S2P Require Import Prelude Core Text Effects Files Sandbox Native HostSandbox ShellRunner.

Inductive OsCall :=
  (** a directory: a private one, or the leaf of a control group *)
  | Made (p : path) (done : bool)
  | RemovedTree (p : path) (done : bool)
  | RemovedDir (p : path) (done : bool)
  | RemovedFile (p : path)
  | Bound (p : path) (done : bool)
  (** into an existing file *)
  | Wrote (p : path) (b : bytes) (done : bool)
  | Sent (p : path) (payload : bytes)
  (** all there is to read from a socket *)
  | Received (p : path) (payload : option bytes)
  | Spawned (command : ChildCommand) (child : option N)
  | Killed (pid : Z)
  | WaitedInVain (child : N)
  | Restricted (ruleset : Ruleset) (status : option RulesetStatus)
  | Executed (target : ExecTarget).

Definition watched (W : Type) : Type := W * list OsCall.

Definition ok_value {A E} (r : result A E) : option A := match r with Ok a => Some a | Err _ => None end.

Section watched.
Context {W : Type}.

Definition unwatched {E A} (c : Run W E A) : Run (watched W) E A :=
  λ s, let '(r, w) := c s.1 in (r, (w, s.2)).
Definition noting {E A} (call : result A E → list OsCall) (c : Run W E A) : Run (watched W) E A :=
  λ s, let '(r, w) := c s.1 in (r, (w, s.2 ++ call r)).
Definition aside {A} (c : W → A * W) : watched W → A * watched W :=
  λ s, let '(a, w) := c s.1 in (a, (w, s.2)).
Definition asided {A} (call : A → list OsCall) (c : W → A * W) : watched W → A * watched W :=
  λ s, let '(a, w) := c s.1 in (a, (w, s.2 ++ call a)).

#[export] Instance WatchedEnv (H : HostEnv W) : HostEnv (watched W) := {|
  target_os := target_os; env_var_os key := aside (env_var_os key) |}.

#[export] Instance WatchedFs (F : Fs W) : Fs (watched W) := {|
  fs_canonicalize p := unwatched (fs_canonicalize p);
  fs_metadata p := unwatched (fs_metadata p);
  fs_symlink_metadata p := unwatched (fs_symlink_metadata p);
  fs_read_dir p := unwatched (fs_read_dir p);
  fs_create_dir m p := noting (λ r, [Made p (is_ok r)]) (fs_create_dir m p);
  fs_create_dir_all m p := unwatched (fs_create_dir_all m p);
  fs_set_permissions m p := unwatched (fs_set_permissions m p);
  fs_remove_dir_all p := noting (λ r, [RemovedTree p (is_ok r)]) (fs_remove_dir_all p);
  fs_rename p q := unwatched (fs_rename p q);
  fs_write p b := unwatched (fs_write p b);
  fs_append p b := unwatched (fs_append p b);
  fs_copy p q := unwatched (fs_copy p q) |}.

#[export] Instance WatchedLandlock (L : Landlock W) : Landlock (watched W) := {|
  from_read := from_read; from_all := from_all; from_file := from_file; from_net := from_net;
  ll_handle_fs a := unwatched (ll_handle_fs a); ll_handle_net a := unwatched (ll_handle_net a);
  ll_create := unwatched ll_create; ll_path_fd p := unwatched (ll_path_fd p);
  ll_add_rule p a := unwatched (ll_add_rule p a);
  ll_restrict_self rs := noting (λ r, [Restricted rs (ok_value r)]) (ll_restrict_self rs) |}.

#[export] Instance WatchedOs (N : NativeOs W) : NativeOs (watched W) := {|
  process_id := process_id; now_nanos := aside now_nanos; next_temp_id := aside next_temp_id;
  current_exe := unwatched current_exe; temp_dir := aside temp_dir;
  read_to_string p := unwatched (read_to_string p); open_write p := unwatched (open_write p);
  write_existing p b := noting (λ r, [Wrote p b (is_ok r)]) (write_existing p b);
  remove_dir p := noting (λ r, [RemovedDir p (is_ok r)]) (remove_dir p);
  remove_file p := noting (λ _, [RemovedFile p]) (remove_file p);
  sock_bind p := noting (λ r, [Bound p (is_ok r)]) (sock_bind p);
  sock_accept p ms := aside (sock_accept p ms);
  sock_write p b := noting (λ _, [Sent p b]) (sock_write p b);
  sock_close p := unwatched (sock_close p); sock_connect p := unwatched (sock_connect p);
  sock_read_to_end p := noting (λ r, [Received p (ok_value r)]) (sock_read_to_end p);
  exec t := asided (λ _, [Executed t]) (exec t) |}.

#[export] Instance WatchedChild (C : ChildProcess W) : ChildProcess (watched W) := {|
  ch_spawn command := noting (λ r, [Spawned command (ok_value r)]) (ch_spawn command);
  ch_id child := aside (ch_id child);
  ch_start_kill child := unwatched (ch_start_kill child);
  ch_output child ms := aside (ch_output child ms);
  show_process_status := show_process_status |}.

#[export] Instance WatchedTurn (T : TurnProcess W) : TurnProcess (watched W) := {|
  tp_pipe child stream := aside (tp_pipe child stream);
  tp_wait_timeout child ms :=
    asided (λ r, match r with None => [WaitedInVain child] | Some _ => [] end)
           (tp_wait_timeout child ms);
  tp_wait child := unwatched (tp_wait child);
  tp_kill pid := noting (λ _, [Killed pid]) (tp_kill pid);
  tp_steps child prompt := aside (tp_steps child prompt);
  tp_join child name := aside (tp_join child name);
  tp_cancelled := aside tp_cancelled; tp_instant_ms := aside tp_instant_ms;
  tp_now_rfc3339 := aside tp_now_rfc3339 |}.
End watched.

(** ** States with a log *)

Class HasLog (S : Type) := log_of : S → list OsCall.
#[export] Instance watched_log W : HasLog (watched W) := snd.
#[export] Instance pair_log T W : HasLog (T * watched W) := λ s, s.2.2.
#[export] Instance shell_log W : HasLog (shell (watched W)) := λ s, (sw_world s).2.

(** The calls a run of [c] adds to the log, and its result, are in [L]. *)
Definition logs {S} `{HasLog S} {E A} (c : Run S E A) (L : list OsCall → result A E → Prop) : Prop :=
  ∀ s, ∃ t, log_of (c s).2 = log_of s ++ t ∧ L t (c s).1.

Section logs.
Context {S : Type} `{HL : HasLog S}.

Lemma logs_weaken {E A} (c : Run S E A) (L L' : list OsCall → result A E → Prop) :
  logs c L → (∀ t r, L t r → L' t r) → logs c L'.
Proof. intros Hc HL' s. destruct (Hc s) as (t&Ht&Hr). eauto. Qed.

Lemma logs_both {E A} (c : Run S E A) (L L' : list OsCall → result A E → Prop) :
  logs c L → logs c L' → logs c (λ t r, L t r ∧ L' t r).
Proof.
  intros H1 H2 s. destruct (H1 s) as (t&Ht&Hr), (H2 s) as (t'&Ht'&Hr').
  rewrite Ht in Ht'. apply app_inv_head in Ht' as <-. eauto.
Qed.

Lemma logs_lift {E A} (r : result A E) (L : list OsCall → result A E → Prop) :
  L [] r → logs (lift_result r) L.
Proof. intros H s. exists []. rewrite app_nil_r. by split. Qed.
Lemma logs_ret {E A} (a : A) (L : list OsCall → result A E → Prop) : L [] (Ok a) → logs (mret a) L.
Proof. exact (logs_lift (Ok a) L). Qed.
Lemma logs_throw {E A} (e : E) (L : list OsCall → result A E → Prop) : L [] (Err e) → logs (throw e) L.
Proof. exact (logs_lift (Err e) L). Qed.

Lemma logs_bind {E A B} (c : Run S E A) (f : A → Run S E B) L L' :
  logs c L →
  (∀ a t1, L t1 (Ok a) → logs (f a) (λ t2 r, L' (t1 ++ t2) r)) →
  (∀ e t1, L t1 (Err e) → L' t1 (Err e)) →
  logs (c ≫= f) L'.
Proof.
  intros Hc Hf He s. unfold mbind, Run_bind. destruct (Hc s) as (t1&Ht1&Hr1).
  destruct (c s) as [[a|e] s1]; simpl in *.
  - destruct (Hf a t1 Hr1 s1) as (t2&Ht2&Hr2). exists (t1 ++ t2). split; [|done].
    by rewrite Ht2, Ht1, app_assoc.
  - exists t1. split; [done|]. by apply He.
Qed.

Lemma logs_catch {E F A} (c : Run S E A) (L : list OsCall → result A E → Prop) :
  logs c L → logs (E := F) (catch c) (λ t r, ∃ r', r = Ok r' ∧ L t r').
Proof.
  intros Hc s. destruct (Hc s) as (t&Ht&Hr). unfold catch. destruct (c s) as [r s'].
  exists t. split; [done|]. eauto.
Qed.

Lemma logs_mapping {E F A} (f : E → F) (c : Run S E A) (L : list OsCall → result A E → Prop) :
  logs c L → logs (mapping_err f c) (λ t r, ∃ r', r = map_err f r' ∧ L t r').
Proof.
  intros Hc s. destruct (Hc s) as (t&Ht&Hr). unfold mapping_err. destruct (c s) as [r s'].
  exists t. split; [done|]. eauto.
Qed.

Lemma logs_gets {E A} (f : S → A) (L : list OsCall → result A E → Prop) :
  (∀ s, L [] (Ok (f s))) → logs (gets f) L.
Proof. intros H s. exists []. rewrite app_nil_r. by split; [|apply H]. Qed.

Lemma logs_modify {E} (f : S → S) (L : list OsCall → result unit E → Prop) :
  (∀ s, log_of (f s) = log_of s) → L [] (Ok ()) → logs (modify f) L.
Proof. intros Hf H s. exists []. rewrite app_nil_r. split; [apply Hf|done]. Qed.

(** *** Only calls of a kind *)

(** A run all of whose calls are in [P]. *)
Definition makes (P : OsCall → Prop) {E A} (c : Run S E A) : Prop := logs c (λ t _, Forall P t).

Lemma makes_bind (P : OsCall → Prop) {E A B} (c : Run S E A) (f : A → Run S E B) :
  makes P c → (∀ a, makes P (f a)) → makes P (c ≫= f).
Proof.
  intros Hc Hf. eapply logs_bind; [exact Hc| |done]. intros a t1 Ht1.
  eapply logs_weaken; [apply Hf|]. intros t r Ht. by apply Forall_app.
Qed.
Lemma makes_lift (P : OsCall → Prop) {E A} (r : result A E) : makes P (lift_result r).
Proof. by apply logs_lift. Qed.
Lemma makes_ret (P : OsCall → Prop) {E A} (a : A) : makes (E := E) P (mret a).
Proof. by apply logs_ret. Qed.
Lemma makes_throw (P : OsCall → Prop) {E A} (e : E) : makes (A := A) P (throw e).
Proof. by apply logs_throw. Qed.
Lemma makes_catch (P : OsCall → Prop) {E F A} (c : Run S E A) : makes P c → makes (E := F) P (catch c).
Proof. intros Hc. eapply logs_weaken; [by apply logs_catch|]. naive_solver. Qed.
Lemma makes_mapping (P : OsCall → Prop) {E F A} (f : E → F) (c : Run S E A) :
  makes P c → makes P (mapping_err f c).
Proof. intros Hc. eapply logs_weaken; [by apply logs_mapping|]. naive_solver. Qed.
Lemma makes_gets (P : OsCall → Prop) {E A} (f : S → A) : makes (E := E) P (gets f).
Proof. by apply logs_gets. Qed.
Lemma makes_modify (P : OsCall → Prop) {E} (f : S → S) :
  (∀ s, log_of (f s) = log_of s) → makes (E := E) P (modify f).
Proof. intros Hf. by apply logs_modify. Qed.
Lemma makes_for_each (P : OsCall → Prop) {E A} (body : A → Run S E unit) xs :
  (∀ x, makes P (body x)) → makes P (for_each body xs).
Proof.
  intros Hb. induction xs as [|x xs IH]; [by apply makes_ret|]. by apply makes_bind.
Qed.
Lemma makes_weaken (P Q : OsCall → Prop) {E A} (c : Run S E A) :
  (∀ call, P call → Q call) → makes P c → makes Q c.
Proof. intros HPQ Hc. eapply logs_weaken; [exact Hc|]. intros t r Ht. exact (Forall_impl _ _ _ Ht HPQ). Qed.
End logs.

(** ** The interfaces *)

Section interfaces.
Context {W : Type}.

Lemma logs_noting {E A} (call : result A E → list OsCall) (c : Run W E A) :
  logs (noting call c) (λ t r, t = call r).
Proof. intros s. unfold noting. destruct (c s.1) as [r w]. simpl. eauto. Qed.

Lemma logs_asided {E A} (call : A → list OsCall) (c : W → A * W) :
  logs (E := E) (embed (asided call c)) (λ t r, ∃ a, r = Ok a ∧ t = call a).
Proof. intros s. unfold asided, embed. destruct (c s.1) as [a w]. simpl. eauto. Qed.

Lemma makes_unwatched P {E A} (c : Run W E A) : makes P (unwatched c).
Proof. intros s. unfold unwatched. destruct (c s.1) as [r w]. exists []. rewrite app_nil_r. by split. Qed.
Lemma makes_aside P {E A} (c : W → A * W) : makes (E := E) P (embed (aside c)).
Proof.
  intros s. unfold aside, embed. destruct (c s.1) as [r w]. exists []. rewrite app_nil_r. by split.
Qed.
Lemma makes_noting (P : OsCall → Prop) {E A} (call : result A E → list OsCall) (c : Run W E A) :
  (∀ r, Forall P (call r)) → makes P (noting call c).
Proof. intros Hc. eapply logs_weaken; [apply logs_noting|]. by intros t r ->. Qed.
Lemma makes_asided (P : OsCall → Prop) {E A} (call : A → list OsCall) (c : W → A * W) :
  (∀ a, Forall P (call a)) → makes (E := E) P (embed (asided call c)).
Proof. intros Hc. eapply logs_weaken; [apply logs_asided|]. by intros t r (a&->&->). Qed.

(** *** Larger states *)

Lemma logs_native {E A} (c : Run (watched W) E A) L :
  logs c L → logs (Native.on_os c) L.
Proof.
  intros Hc s. destruct (Hc s.2) as (t&Ht&Hr). unfold Native.on_os.
  destruct (c s.2) as [r w]. exists t. done.
Qed.
Lemma logs_in_host {A} (c : Run (watched W) SandboxError A) L : logs c L → logs (in_host c) L.
Proof.
  intros Hc s. destruct (Hc s.2) as (t&Ht&Hr). unfold in_host. destruct (c s.2) as [r w].
  exists t. done.
Qed.
Lemma logs_in_native {A} session st (c : Run (native_state * watched W) SandboxError A) L :
  logs c L → logs (in_native session st c) L.
Proof.
  intros Hc s. destruct (Hc (st, s.2)) as (t&Ht&Hr). unfold in_native.
  destruct (c (st, s.2)) as [r [st' w]]. exists t. done.
Qed.
Lemma logs_os {E A} (c : Run (watched W) E A) L : logs c L → logs (ShellRunner.on_os c) L.
Proof.
  intros Hc s. destruct (Hc (sw_world s)) as (t&Ht&Hr). unfold ShellRunner.on_os.
  destruct (c (sw_world s)) as [r w]. exists t. done.
Qed.

(** A call on a session: the calls and the result are those of its method. *)
Lemma logs_with_session {A E} session (c : Run (SandboxSession * watched W) SandboxError A) L :
  logs c L →
  logs (E := E) (with_session session c) (λ t r, ∃ r' session', r = Ok (r', session') ∧ L t r').
Proof.
  intros Hc w. destruct (Hc (session, w)) as (t&Ht&Hr). unfold with_session.
  destruct (c (session, w)) as [r [session' w']]. exists t. eauto.
Qed.

Lemma makes_native P {E A} (c : Run (watched W) E A) : makes P c → makes P (Native.on_os c).
Proof. apply logs_native. Qed.
Lemma makes_in_host P {A} (c : Run (watched W) SandboxError A) : makes P c → makes P (in_host c).
Proof. apply logs_in_host. Qed.
Lemma makes_in_native P {A} session st (c : Run (native_state * watched W) SandboxError A) :
  makes P c → makes P (in_native session st c).
Proof. apply logs_in_native. Qed.
Lemma makes_os P {E A} (c : Run (watched W) E A) : makes P c → makes P (ShellRunner.on_os c).
Proof. apply logs_os. Qed.
Lemma makes_with_session P {A E} session (c : Run (SandboxSession * watched W) SandboxError A) :
  makes P c → makes (E := E) P (with_session session c).
Proof.
  intros Hc. eapply logs_weaken; [by apply logs_with_session|]. intros t r (?&?&_&Ht). exact Ht.
Qed.
End interfaces.

(** Prove that a run makes only calls of a kind. *)
Create HintDb watching.
#[export] Hint Resolve makes_lift makes_ret makes_throw makes_gets makes_unwatched makes_aside : watching.
#[export] Hint Extern 2 (makes _ (modify _)) => (apply makes_modify; intros ?; reflexivity) : watching.
#[export] Hint Extern 2 (makes _ (unwatched _)) => apply makes_unwatched : watching.
#[export] Hint Extern 2 (makes _ (embed (aside _))) => apply makes_aside : watching.

Ltac reveal :=
  progress cbn [fs_canonicalize fs_metadata fs_create_dir fs_create_dir_all fs_remove_dir_all fs_write
    env_var_os ll_handle_fs ll_handle_net ll_create ll_path_fd ll_add_rule ll_restrict_self
    now_nanos next_temp_id current_exe temp_dir read_to_string open_write write_existing remove_dir
    remove_file sock_bind sock_accept sock_write sock_close sock_connect sock_read_to_end exec
    ch_spawn ch_id ch_start_kill ch_output tp_pipe tp_wait_timeout tp_wait tp_kill tp_steps tp_join
    tp_cancelled tp_instant_ms tp_now_rfc3339
    WatchedEnv WatchedFs WatchedLandlock WatchedOs WatchedChild WatchedTurn].
Ltac makes_step :=
  match goal with
  | |- makes _ _ => reveal
  | |- ∀ _, makes _ _ => intros ?
  | |- makes _ (_ ≫= _) => apply makes_bind; [|intros ?]
  | |- makes _ (catch _) => apply makes_catch
  | |- makes _ (mapping_err _ _) => apply makes_mapping
  | |- makes _ (for_each _ _) => apply makes_for_each; intros ?
  | |- makes _ (Native.on_os _) => apply makes_native
  | |- makes _ (ShellRunner.on_os _) => apply makes_os
  | |- makes _ (in_host _) => apply makes_in_host
  | |- makes _ (in_native _ _ _) => apply makes_in_native
  | |- makes _ (with_session _ _) => apply makes_with_session
  | |- makes _ (match ?x with _ => _ end) => destruct x eqn:?
  | |- makes _ (if ?b then _ else _) => destruct b eqn:?
  end.
Ltac makes := repeat first [solve [eauto 3 with watching] | makes_step].
#[export] Hint Extern 2 (makes _ (noting _ _)) =>
  (apply makes_noting; intros ?; solve [repeat constructor]) : watching.
#[export] Hint Extern 2 (makes _ (embed (asided _ _))) =>
  (apply makes_asided; intros ?; solve [repeat case_match; repeat constructor]) : watching.

Lemma logs_value {S} `{HasLog S} {E A} (c : Run S E A) (L : list OsCall → result A E → Prop)
    (Φ : A → Prop) :
  logs c L → (∀ s a s', c s = (Ok a, s') → Φ a) → logs c (λ t r, L t r ∧ ∀ a, r = Ok a → Φ a).
Proof.
  intros Hc HΦ s. destruct (Hc s) as (t&Ht&Hr). exists t. split_and!; [done|done|]. intros a Ha.
  apply (HΦ s a (c s).2). rewrite <-Ha. by destruct (c s).
Qed.

Lemma logs_silent {S} `{HasLog S} {E A} (c : Run S E A) :
  makes (λ _, False) c → logs c (λ t _, t = []).
Proof.
  intros Hc. eapply logs_weaken; [exact Hc|]. intros t r Ht. destruct t; [done|].
  by apply Forall_cons in Ht as [].
Qed.
