(* ===== verification/Confining.v ===== *)
(** * What the sandbox guarantees

    What it is for a command to run inside a sandbox, said of its command line,
    and that the wrapping of a tool's backend with its limits is such a line.
    Of the native sandbox: the launcher becomes the target only after it has restricted itself to the
    paths its configuration grants, it gets its configuration only after its
    process is in the control group, and the configuration is the plan it was
    wrapped from. *)

From S2P Require Import Prelude Core Text Effects Files Containment Sandbox Native HostSandbox.
From S2P Require Import ShellRunner Watching.

(** ** Confinement *)

(** A flag before each of some values. *)
Fixpoint flagged (flag : string) (values : list string) : list string :=
  match values with [] => [] | value :: values => flag :: value :: flagged flag values end.

(** The network stays closed, and the paths that stay hidden. *)
Definition offline (spec : SandboxSpec) : Prop :=
  match sx_profile spec with
  | ReadOnly | NoNetwork => True
  | RepoWrite | CiOnly => sx_egress_allow spec = []
  | FullDev => False
  end.
Definition hidden (spec : SandboxSpec) : list path :=
  match sx_profile spec with FullDev => [] | _ => sx_secrets_deny spec end.

(** What a profile of sandbox-exec allows beyond reading and processes. *)
Inductive allowed_line (spec : SandboxSpec) (workspace : path) : string → Prop :=
  | allows_reading : allowed_line spec workspace ("(allow file-read* " +:+ subpath workspace +:+ ")")
  | allows_workspace :
      sx_profile spec ≠ ReadOnly →
      allowed_line spec workspace ("(allow file-write* " +:+ subpath workspace +:+ ")")
  | allows_writing : sx_profile spec = FullDev → allowed_line spec workspace "(allow file-write*)"
  | allows_network : ¬ offline spec → allowed_line spec workspace "(allow network-outbound)".

(** The program and the arguments with which the tool of a backend runs a
    command line in a workspace. *)
Inductive tool_line (spec : SandboxSpec) (workspace : path) (inner : list string)
    : Backend → string → list string → Prop :=
  | srt_line profile :
      (sx_profile spec, profile) ∈
        [(ReadOnly, "read-only"); (RepoWrite, "repo-write"); (NoNetwork, "no-network");
         (FullDev, "full-dev"); (CiOnly, "ci-only")] →
      tool_line spec workspace inner BkSandboxRuntime "srt"
        (["run"; "--profile"; profile; "--cwd"; path_string workspace;
          "--workspace"; path_string workspace] ++
         flagged "--egress-allow" (sx_egress_allow spec) ++
         flagged "--deny-path" (path_string <$> hidden spec) ++ "--" :: inner)
  | bwrap_line namespaces mount :
      (offline spec → namespaces = ["--unshare-all"]) →
      (¬ offline spec → namespaces =
         ["--unshare-user"; "--unshare-ipc"; "--unshare-pid"; "--unshare-uts"; "--unshare-cgroup"]) →
      mount = (if decide (sx_profile spec = ReadOnly) then "--ro-bind" else "--bind") →
      tool_line spec workspace inner BkBubblewrap "bwrap"
        ("--die-with-parent" :: namespaces ++
         ["--ro-bind"; "/"; "/"; mount; path_string workspace; "/workspace"] ++
         flagged "--tmpfs" (path_string <$> List.filter is_absolute (hidden spec)) ++
         ["--tmpfs"; "/tmp"; "--proc"; "/proc"; "--dev"; "/dev"; "--chdir"; "/workspace"; "--"] ++ inner)
  | landlock_line mount network :
      mount = (if decide (sx_profile spec = ReadOnly) then "--ro" else "--rw") →
      (offline spec → network = ["--no-network"]) → (¬ offline spec → network = []) →
      tool_line spec workspace inner BkLandlock "landlock-restrict"
        ([mount; path_string workspace] ++ network ++
         flagged "--deny" (path_string <$> hidden spec) ++ "--" :: inner)
  | sandbox_exec_line allowed :
      Forall (allowed_line spec workspace) allowed →
      tool_line spec workspace inner BkSandboxExec "/usr/bin/sandbox-exec"
        ("-p" :: str_join (String NL "")
           (["(version 1)"; "(deny default)"; "(allow process*)"; "(allow sysctl-read)";
             "(allow file-read*)"] ++
            ((λ p, "(deny file-read* file-write* " +:+ subpath p +:+ ")") <$> hidden spec) ++ allowed)
         :: inner).

(** The resource limits of a specification around a command line: none where
    the platform has no way to set them, or the tool for it is missing; only
    macOS always limits. *)
Definition unlimited (spec : SandboxSpec) : Prop :=
  sx_cpu_seconds spec = None ∧ sx_memory_bytes spec = None ∧ sx_pids_max spec = None.
Definition settings (name : string) (value : option N) : list string :=
  match value with Some n => [name +:+ pretty n] | None => [] end.

Inductive limited (platform : Platform) (spec : SandboxSpec) (program : string) (args : list string)
    : string → list string → Prop :=
  | limited_not :
      (platform = MacOs → unlimited spec) → limited platform spec program args program args
  | limited_scope :
      platform = Linux →
      limited platform spec program args "systemd-run"
        (["--user"; "--scope"; "--quiet"] ++
         flagged "-p" (settings "MemoryMax=" (sx_memory_bytes spec) ++
           settings "RuntimeMaxSec=" (sx_cpu_seconds spec) ++ settings "TasksMax=" (sx_pids_max spec)) ++
         "--" :: program :: args)
  | limited_shell cpu memory :
      platform = MacOs →
      cpu = match sx_cpu_seconds spec with Some n => "ulimit -t " +:+ pretty n +:+ "; " | None => "" end →
      match sx_memory_bytes spec with
      | Some n => ∃ kib, (1024 * kib < n + 1024)%N ∧ memory = "ulimit -v " +:+ pretty kib +:+ "; "
      | None => memory = ""
      end →
      limited platform spec program args "/bin/sh"
        ("-c" :: (cpu +:+ memory +:+ "exec " +:+ in_quotes "$@") :: "sh" :: program :: args).

(** A command that runs a plan inside the sandbox of a specification: the tool
    of its backend around the program and its arguments, within the limits; or,
    for the native backend, the executable of the daemon itself as a launcher
    that waits on a socket. *)
Inductive confined (platform : Platform) (executable : string → Prop) (spec : SandboxSpec)
    (plan : CommandPlan) (socket : path) : string → list string → Prop :=
  | confined_by_tool tool options program args :
      tool_line spec (cp_cwd plan) (cp_program plan :: cp_args plan) (sx_backend spec) tool options →
      limited platform spec tool options program args →
      confined platform executable spec plan socket program args
  | confined_by_launcher program :
      sx_backend spec = BkNative → executable program →
      confined platform executable spec plan socket program
        ["--__saorsa-sandbox-launcher"; "--socket"; socket].

Lemma concat_flagged {A} flag (f : A → string) (xs : list A) :
  concat ((λ x, [flag; f x]) <$> xs) = flagged flag (f <$> xs).
Proof. induction xs as [|x xs IH]; [done|]. rewrite !fmap_cons. simpl. by rewrite IH. Qed.
Lemma concat_flagged_filter flag (xs : list path) :
  concat ((λ p, if is_absolute p then [flag; path_string p] else []) <$> xs) =
  flagged flag (path_string <$> List.filter is_absolute xs).
Proof.
  induction xs as [|x xs IH]; [done|]. rewrite fmap_cons. simpl. rewrite IH.
  by destruct (is_absolute x).
Qed.
Lemma hidden_flagged spec flag :
  (if denies_secrets (sx_profile spec)
   then concat ((λ p, [flag; path_string p]) <$> sx_secrets_deny spec) else []) =
  flagged flag (path_string <$> hidden spec).
Proof. unfold hidden. destruct (sx_profile spec); simpl; by rewrite ?concat_flagged. Qed.

Lemma network_allowed_offline spec : network_allowed spec = false ↔ offline spec.
Proof.
  unfold network_allowed, offline. destruct (sx_profile spec); simpl; try done.
  all: rewrite bool_decide_eq_false; split; [apply dec_stable|intros -> H; by apply H].
Qed.
Lemma workspace_read_only_decide {A} spec (x y : A) :
  (if workspace_read_only (sx_profile spec) then x else y) = if decide (sx_profile spec = ReadOnly) then x else y.
Proof. by destruct (sx_profile spec). Qed.

(** The wrapping of a tool's backend is its line. *)
Lemma wrap_backend_line spec command :
  sx_backend spec ∉ [BkNative; BkAuto; BkNone] →
  let wrapped := wrap_backend spec command in
  tool_line spec (wr_cwd command) (wr_program command :: wr_args command) (sx_backend spec)
    (wr_program wrapped) (wr_args wrapped) ∧
  wr_cwd wrapped = wr_cwd command ∧ wr_env_additions wrapped = wr_env_additions command.
Proof.
  intros Hb. unfold wrap_backend.
  assert (Hnet : (network_allowed spec = true ∧ ¬ offline spec) ∨ (network_allowed spec = false ∧ offline spec)).
  { rewrite <-network_allowed_offline. destruct (network_allowed spec); auto. }
  destruct (sx_backend spec) eqn:Hbackend; try set_solver; (split; [|done]); simpl.
  - unfold wrap_sandbox_runtime. simpl. rewrite hidden_flagged, <-!app_assoc.
    rewrite (concat_flagged _ id), list_fmap_id.
    apply (srt_line spec (wr_cwd command) (wr_program command :: wr_args command)).
    destruct (sx_profile spec); set_solver.
  - unfold wrap_bubblewrap, bubblewrap_namespace_args. cbn [replace_with_wrapper wr_program wr_args].
    rewrite workspace_read_only_decide.
    replace (if denies_secrets _ then _ else []) with (flagged "--tmpfs" (path_string <$> List.filter is_absolute (hidden spec))).
    2:{ unfold hidden. destruct (sx_profile spec); simpl; by rewrite ?concat_flagged_filter. }
    destruct Hnet as [[-> Hon]|[-> Hoff]]; simpl; rewrite <-app_assoc; simpl.
    + by apply (bwrap_line spec _ (wr_program command :: wr_args command)
        ["--unshare-user"; "--unshare-ipc"; "--unshare-pid"; "--unshare-uts"; "--unshare-cgroup"]).
    + by apply (bwrap_line spec _ (wr_program command :: wr_args command) ["--unshare-all"]).
  - unfold wrap_landlock. simpl. rewrite hidden_flagged, workspace_read_only_decide.
    destruct Hnet as [[-> Hon]|[-> Hoff]]; simpl; rewrite <-app_assoc; simpl.
    + by apply (landlock_line spec _ (wr_program command :: wr_args command) _ []).
    + by apply (landlock_line spec _ (wr_program command :: wr_args command) _ ["--no-network"]).
  - unfold wrap_sandbox_exec, sandbox_exec_profile. simpl.
    replace (if denies_secrets _ then _ else []) with
      ((λ p, "(deny file-read* file-write* " +:+ subpath p +:+ ")") <$> hidden spec).
    2:{ unfold hidden. by destruct (sx_profile spec). }
    apply (sandbox_exec_line spec (wr_cwd command) (wr_program command :: wr_args command)).
    constructor; [|apply Forall_app; split].
    + destruct (workspace_read_only _) eqn:Hro; constructor. intros Hp. by rewrite Hp in Hro.
    + case_bool_decide; repeat constructor; done.
    + destruct Hnet as [[-> Hon]|[-> Hoff]]; repeat constructor; done.
Qed.

Lemma scope_settings name value : scope_property name value = flagged "-p" (settings (name +:+ "=") value).
Proof. destruct value; [|done]. simpl. by rewrite str_app_assoc. Qed.
Lemma flagged_app flag xs ys : flagged flag (xs ++ ys) = flagged flag xs ++ flagged flag ys.
Proof. induction xs as [|x xs IH]; [done|]. simpl. by rewrite IH. Qed.

Lemma linux_scope_limited spec command :
  limited Linux spec (wr_program command) (wr_args command)
    (wr_program (linux_scope spec command)) (wr_args (linux_scope spec command)).
Proof.
  unfold linux_scope. cbn [replace_with_wrapper wr_program wr_args].
  rewrite !scope_settings. rewrite <-!app_assoc.
  pose proof (limited_scope Linux spec (wr_program command) (wr_args command) eq_refl) as H.
  rewrite !flagged_app, <-!app_assoc in H. exact H.
Qed.
Lemma macos_limits_limited spec command :
  limited MacOs spec (wr_program command) (wr_args command)
    (wr_program (apply_macos_resource_limits spec command))
    (wr_args (apply_macos_resource_limits spec command)).
Proof.
  unfold apply_macos_resource_limits. cbn [replace_with_wrapper wr_program wr_args app].
  apply limited_shell; [done..|]. destruct (sx_memory_bytes spec) as [n|]; [|done].
  eexists. split; [|done].
  pose proof (sat_add64_le n 1023). pose proof (N.Div0.mul_div_le (sat_add64 n 1023) 1024). lia.
Qed.

Section quiet.
Context {W : Type} `{HE : !HostEnv W} `{F : !Fs W} `{LL : !Landlock W} `{NO : !NativeOs W}
  `{LC : !LauncherCodec} `{DS : !DebugStr}.
Implicit Types P : OsCall → Prop.

(** ** Runs that only read *)

Lemma makes_existing_paths P {E} candidates found :
  makes (E := E) P (existing_paths (W := watched W) candidates found).
Proof.
  revert found. induction candidates as [|p candidates IH]; intros found; cbn [existing_paths]; [makes|].
  apply makes_bind; [unfold existing_canonical_path; makes|intros ?; apply IH].
Qed.

Lemma makes_find_in_dirs P {E} program dirs :
  makes (E := E) P (find_in_dirs (W := watched W) program dirs).
Proof.
  induction dirs as [|dir dirs IH]; cbn [find_in_dirs]; [makes|].
  apply makes_bind; [unfold existing_canonical_path; makes|intros [p|]; [makes|apply IH]].
Qed.

Lemma makes_resolve P program cwd env :
  makes P (resolve_target_executable (W := watched W) program cwd env).
Proof.
  unfold resolve_target_executable, canonicalize_existing, env_var_text.
  destruct (1 <? length (components program)); [makes|].
  apply makes_bind; [makes|intros ?]. apply makes_bind; [makes|intros ?].
  apply makes_bind; [apply makes_find_in_dirs|makes].
Qed.

Lemma makes_launcher_config P plan spec : makes P (launcher_config (W := watched W) plan spec).
Proof.
  unfold launcher_config, canonicalize_existing, system_read_exec_paths.
  apply makes_bind; [makes|intros cwd]. apply makes_bind; [apply makes_resolve|intros program].
  apply makes_bind; [apply makes_existing_paths|intros system].
  destruct (workspace_read_only _); makes.
Qed.

(** Wrapping a command changes nothing outside. *)
Lemma makes_native_wrap P session plan : makes P (native_wrap (W := watched W) session plan).
Proof.
  unfold native_wrap, set_config, launcher_wrapped_command, sandbox_io.
  apply makes_bind; [apply makes_native, makes_launcher_config|makes].
Qed.
End quiet.

Section launcher.
Context {W : Type} `{HE : !HostEnv W} `{F : !Fs W} `{LL : !Landlock W} `{NO : !NativeOs W}
  `{LC : !LauncherCodec} `{DS : !DebugStr}.

(** ** The launcher *)

(** A right that is asked for beneath a path: all of it for a directory, the
    part that makes sense for a file otherwise. *)
Definition granted (requested : N) (rule : path * N) : Prop :=
  rule.2 = requested ∨ rule.2 = N.land requested from_file.

(** The rules a configuration stands for. *)
Record rules_of (config : LauncherConfig) (rs : Ruleset) : Prop := {
  handles_all_files : rl_handled_fs rs = from_all;
  handles_net : lc_deny_network config = true → rl_handled_net rs = from_net;
  rules_paths : (rl_rules rs).*1 = lc_read_only_paths config ++ lc_read_write_paths config;
  rules_read : Forall (granted from_read) (take (length (lc_read_only_paths config)) (rl_rules rs));
  rules_write : Forall (granted from_all) (drop (length (lc_read_only_paths config)) (rl_rules rs))
}.

Definition target_of (config : LauncherConfig) : ExecTarget := {|
  et_program := lc_program config; et_args := lc_args config; et_cwd := lc_cwd config;
  et_env := lc_env config |}.

Lemma logs_add_rules paths requested rules :
  logs (add_rules (W := watched W) paths requested rules) (λ t r, t = [] ∧
    ∀ rules', r = Ok rules' → ∃ added, rules' = rules ++ added ∧ added.*1 = paths ∧
      Forall (granted requested) added).
Proof.
  revert rules. induction paths as [|p paths IH]; intros rules; simpl.
  - apply logs_ret. split; [done|]. intros ? [= <-]. exists []. by rewrite app_nil_r.
  - eapply logs_bind with (L := λ t r, t = [] ∧ ∀ access, r = Ok access → granted requested (p, access)).
    { unfold rights_for_path_type, sandbox_io.
      eapply logs_bind with (L := λ t _, t = []).
      - eapply logs_weaken; [apply logs_mapping, (makes_unwatched (λ _, False))|].
        intros t r (?&_&Ht). by destruct Ht.
      - intros kind t1 ->. apply logs_ret. split; [done|]. intros access [= <-].
        unfold granted. simpl. case_bool_decide; auto.
      - naive_solver. }
    2:{ intros e t1 [-> _]. split; [done|]. naive_solver. }
    intros access t1 [-> Hacc]. specialize (Hacc access eq_refl).
    assert (Hq : ∀ c : Run W string unit, logs (landlock (unwatched c)) (λ t r, t = [])).
    { intros c. unfold landlock. eapply logs_weaken;
        [apply logs_mapping, (makes_unwatched (λ _, False))|]. intros t r (?&_&Ht). by destruct Ht. }
    eapply logs_bind; [apply Hq| |naive_solver]. intros [] t1 ->. simpl.
    eapply logs_bind; [apply Hq| |naive_solver]. intros [] t1 ->. simpl.
    eapply logs_weaken; [apply IH|]. intros t r [-> Hr]. split; [done|].
    intros rules' ->. destruct (Hr rules' eq_refl) as (added&->&Hp&Ha).
    exists ((p, access) :: added). rewrite <-app_assoc. split_and!; [done| |by constructor].
    by rewrite fmap_cons, Hp.
Qed.

Lemma logs_apply_landlock config :
  logs (apply_landlock (W := watched W) config) (λ t r,
    (t = [] ∧ is_ok r = false) ∨
    ∃ rs status, t = [Restricted rs status] ∧ rules_of config rs ∧
      (r = Ok () → ∃ st, status = Some st ∧ st ≠ NotEnforced)).
Proof.
  assert (Hq : ∀ c : Run W string unit, logs (landlock (unwatched c)) (λ t r, t = [])).
  { intros c. unfold landlock. eapply logs_weaken;
      [apply logs_mapping, (makes_unwatched (λ _, False))|]. intros t r (?&_&Ht). by destruct Ht. }
  unfold apply_landlock.
  eapply logs_bind; [apply Hq| |naive_solver]. intros [] t1 ->. simpl.
  eapply logs_bind with (L := λ t r, t = [] ∧ ∀ net, r = Ok net →
    lc_deny_network config = true → net = from_net).
  { destruct (lc_deny_network config).
    - eapply logs_bind; [apply Hq| |naive_solver]. intros [] t1 ->. simpl.
      apply logs_ret. naive_solver.
    - apply logs_ret. naive_solver. }
  2:{ naive_solver. }
  intros net t1 [-> Hnet]. simpl. specialize (Hnet net eq_refl).
  eapply logs_bind; [apply Hq| |naive_solver]. intros [] t1 ->. simpl.
  eapply logs_bind; [apply logs_add_rules| |naive_solver].
  intros ro t1 [-> Hro]. destruct (Hro ro eq_refl) as (ro'&->&Hrop&Hroa). simpl.
  eapply logs_bind; [apply logs_add_rules| |naive_solver].
  intros rw t1 [-> Hrw]. destruct (Hrw rw eq_refl) as (rw'&->&Hrwp&Hrwa). simpl.
  assert (Hrules : rules_of config {| rl_handled_fs := from_all; rl_handled_net := net;
                                      rl_rules := ro' ++ rw' |}).
  { assert (Hlen : length (lc_read_only_paths config) = length ro') by (by rewrite <-Hrop, length_fmap).
    constructor; simpl; [done|done| | |].
    - by rewrite fmap_app, Hrop, Hrwp.
    - by rewrite Hlen, take_app_length.
    - by rewrite Hlen, drop_app_length. }
  eapply logs_bind; [unfold landlock; apply logs_mapping, logs_noting| |].
  - intros status t1 (r'&Hr'&->). destruct r' as [status'|]; [|done]. injection Hr' as <-. simpl.
    case_bool_decide as Hst.
    + apply logs_throw. right. eexists _, _. split; [done|]. split; [done|]. done.
    + apply logs_ret. right. eexists _, _. split; [done|]. split; [done|]. eauto.
  - intros e t1 (r'&Hr'&->). destruct r' as [|e']; [done|]. right. eexists _, _. by split_and!.
Qed.

(** A launcher starts, reads its configuration from the socket of its command
    line, and then nothing else happens but a restriction and the target. *)
Definition launched (argv : list bytes) (t : list OsCall) (target : ExecTarget) : Prop :=
  ∃ program socket payload config rs status,
    argv = [program; LAUNCHER_SENTINEL; LAUNCHER_SOCKET_FLAG; socket] ∧
    t = [Received socket (Some payload); Restricted rs (Some status); Executed target] ∧
    dec_config payload = Ok config ∧ status ≠ NotEnforced ∧ rules_of config rs ∧
    target = target_of config.

Lemma launcher_socket argv socket : parse_launcher_socket argv = Ok socket →
  ∃ program, argv = [program; LAUNCHER_SENTINEL; LAUNCHER_SOCKET_FLAG; socket].
Proof.
  unfold parse_launcher_socket, is_launcher_invocation. intros Hparse.
  destruct argv as [|program [|sentinel [|flag [|p [|? ?]]]]]; simpl in Hparse;
    repeat case_bool_decide; simplify_eq/=; eauto.
Qed.

(** The end of a launcher: it restricts itself, and becomes the target. *)
Lemma logs_confine config :
  logs (_ ← apply_landlock (W := watched W) config; exec_target config) (λ t _, ∀ target,
    Executed target ∈ t → ∃ rs status, t = [Restricted rs (Some status); Executed target] ∧
      status ≠ NotEnforced ∧ rules_of config rs ∧ target = target_of config).
Proof.
  eapply logs_bind; [apply logs_apply_landlock| |].
  - intros [] t1 [[_ Hf]|(rs&status&->&Hrs&Hok)]; [done|].
    destruct (Hok eq_refl) as (st&->&Hst). unfold exec_target.
    eapply logs_bind; [apply logs_asided| |by intros e t2 (?&?&_)].
    intros failed t2 (failed'&_&->).
    assert (H : ∀ target, Executed target ∈ [Restricted rs (Some st); Executed (target_of config)] →
      target = target_of config).
    { intros target [?|[= ->]%list_elem_of_singleton]%elem_of_cons; done. }
    destruct failed as [source|]; [apply logs_throw|apply logs_ret]; intros target;
      rewrite app_nil_r; intros ->%H; by exists rs, st.
  - intros e t1 [[-> _]|(rs&status&->&_&_)] target Hin; [by apply elem_of_nil in Hin|].
    by apply list_elem_of_singleton in Hin.
Qed.

(** C33 The launcher becomes nothing but the target it was sent: it reads its
    configuration from the socket its command line names, once and to the end,
    and the target is the program, arguments, directory and environment that
    the bytes it read stand for; it becomes the target only after it has
    restricted itself to the rules of that configuration, which the kernel
    enforces: every file access is handled, the network is if it is denied,
    reading is granted beneath the listed paths and writing beneath the
    writable ones alone. *)
Theorem launcher_confined argv :
  logs (launcher_main (W := watched W) argv)
    (λ t _, ∀ target, Executed target ∈ t → launched argv t target).
Proof.
  unfold launcher_main.
  eapply logs_bind; [by apply (logs_lift _ (λ t r, t = [] ∧ r = parse_launcher_socket argv))| |].
  2:{ intros e t1 [-> _] target []%elem_of_nil. }
  intros socket t1 [-> Hsocket]. symmetry in Hsocket. apply launcher_socket in Hsocket as (program&->).
  eapply logs_bind with (L := λ t _, t = []); [|intros [] t1 ->|intros e t1 -> target []%elem_of_nil].
  { unfold sandbox_io. eapply logs_weaken; [apply logs_mapping, (makes_unwatched (λ _, False))|].
    intros t r (?&_&Ht). by destruct Ht. }
  eapply logs_bind; [unfold sandbox_io; reveal; apply logs_mapping, logs_noting| |].
  2:{ by intros e t1 (res&_&->) target ?%list_elem_of_singleton. }
  intros payload t1 ([payload'|]&[= <-]&->).
  eapply logs_bind; [by apply (logs_lift _ (λ t r, t = [] ∧ r = from_json_slice payload))| |].
  2:{ by intros e t1 [-> _] target ?%list_elem_of_singleton. }
  intros config t1 [-> Hconfig]. unfold from_json_slice in Hconfig.
  eapply logs_weaken; [apply logs_confine|]. intros t res Ht target Hin.
  apply elem_of_cons in Hin as [?|Hin]; [done|]. destruct (Ht target Hin) as (rs&status&->&?&?&?).
  exists program, socket, payload, config, rs, status. split_and!; [done..| |done|done|done].
  by destruct (dec_config payload); simplify_eq/=.
Qed.

End launcher.

(** ** The hand-over *)

(** The file that puts a process into the control group of a session. *)
Definition procs_file (session : LinuxSandboxSession) : path := join (ls_cgroup session) "cgroup.procs".

Section configuration.
Context {W : Type} `{HE : !HostEnv W} `{F : !Fs W} `{NO : !NativeOs W} `{DS : !DebugStr}.

(** What the operating system says a path stands for, and the executable of
    the daemon. *)
Definition resolves (p q : path) : Prop := ∃ w w' : W, fs_canonicalize p w = (Ok q, w').
Definition own_executable (p : path) : Prop := ∃ w w' : W, current_exe w = (Ok p, w').

(** What every target may read and run. *)
Definition system_paths : list path :=
  ["/bin"; "/usr/bin"; "/usr/local/bin"; "/lib"; "/lib64"; "/usr/lib"; "/usr/lib64";
   "/etc/ld.so.cache"; "/etc/ld.so.conf"; "/etc/ld.so.conf.d"; "/dev/null"; "/dev/zero"; "/dev/urandom"].

(** What a configuration must say for a plan under a specification: the
    program, directly or in some directory, its arguments and environment; the
    workspace as the only writable path, or as one that can only be read; else
    only the program and the system's paths; and no network. *)
Record config_for (plan : CommandPlan) (spec : SandboxSpec) (config : LauncherConfig) : Prop := {
  config_program : ∃ p, resolves p (lc_program config) ∧
    (p = cp_program plan ∨ ∃ dir, p = join dir (cp_program plan));
  config_args : lc_args config = cp_args plan;
  config_env : lc_env config = cp_env plan;
  config_cwd : resolves (cp_cwd plan) (lc_cwd config);
  config_network : lc_deny_network config = true ↔ offline spec;
  config_readable p : p ∈ lc_read_only_paths config →
    p = lc_program config ∨ (p = lc_cwd config ∧ sx_profile spec = ReadOnly) ∨
    ∃ q, q ∈ system_paths ∧ resolves q p;
  config_writable :
    lc_read_write_paths config = if decide (sx_profile spec = ReadOnly) then [] else [lc_cwd config]
}.

Lemma existing_canonical_path_Some {E} p (w : W) q w' :
  existing_canonical_path (E := E) p w = (Ok (Some q), w') → resolves p q.
Proof.
  unfold existing_canonical_path, catch, mbind, Run_bind, mret, Run_ret, resolves. intros Hrun.
  destruct (fs_canonicalize p w) as [[q'|e] w1] eqn:Hp; simplify_eq/=. eauto.
Qed.

Lemma elem_of_push_unique_path paths p q : q ∈ push_unique_path paths p → q ∈ paths ∨ q = p.
Proof.
  unfold push_unique_path. destruct (existsb _ _); [auto|]. rewrite elem_of_app, list_elem_of_singleton. done.
Qed.

Lemma existing_paths_resolve {E} candidates found (w : W) paths w' p :
  existing_paths (E := E) candidates found w = (Ok paths, w') → p ∈ paths →
  p ∈ found ∨ ∃ q, q ∈ candidates ∧ resolves q p.
Proof.
  revert found w. induction candidates as [|c candidates IH]; intros found w Hrun Hp; simpl in Hrun; run_inv.
  - by left.
  - match goal with H : existing_canonical_path c _ = (Ok ?r, _) |- _ => destruct r as [q|]; rename H into Hc end.
    + apply existing_canonical_path_Some in Hc. eapply IH in Hp as [Hp|(q'&?&?)]; [|set_solver|eassumption].
      apply elem_of_push_unique_path in Hp as [?| ->]; [by left|]. right. exists c. split; [by left|done].
    + eapply IH in Hp as [Hp|(q'&?&?)]; [by left| |eassumption]. right. exists q'. split; [by right|done].
Qed.

Lemma find_in_dirs_resolves {E} program dirs (w : W) p w' :
  find_in_dirs (E := E) program dirs w = (Ok (Some p), w') → ∃ dir, resolves (join dir program) p.
Proof.
  revert w. induction dirs as [|dir dirs IH]; intros w Hrun; simpl in Hrun; run_inv; [done|].
  match goal with H : existing_canonical_path _ _ = (Ok ?r, _) |- _ => destruct r as [q|]; rename H into Hc end.
  - run_inv. simplify_eq. exists dir. by eapply existing_canonical_path_Some.
  - by eapply IH.
Qed.

Lemma canonicalize_existing_resolves p field (w : W) q w' :
  canonicalize_existing p field w = (Ok q, w') → resolves p q.
Proof.
  unfold canonicalize_existing, mapping_err, resolves. intros Hrun.
  destruct (fs_canonicalize p w) as [[q'|e] w1] eqn:Hp; simplify_eq/=. eauto.
Qed.

Lemma resolve_target_program program cwd env (w : W) p w' :
  resolve_target_executable program cwd env w = (Ok p, w') →
  ∃ q, resolves q p ∧ (q = program ∨ ∃ dir, q = join dir program).
Proof.
  unfold resolve_target_executable. intros Hrun. destruct (1 <? _).
  - apply canonicalize_existing_resolves in Hrun. eexists. split; [exact Hrun|].
    destruct (is_absolute program); eauto.
  - run_inv. ok_inv. subst.
    match goal with H : find_in_dirs _ _ _ = _ |- _ => apply find_in_dirs_resolves in H as [dir ?] end. eauto.
Qed.

Lemma launcher_config_for plan spec w config w' :
  launcher_config plan spec w = (Ok config, w') → config_for plan spec config.
Proof.
  unfold launcher_config. intros Hrun. run_inv.
  repeat match goal with
  | H : canonicalize_existing _ _ _ = _ |- _ => apply canonicalize_existing_resolves in H
  | H : resolve_target_executable _ _ _ _ = _ |- _ => apply resolve_target_program in H
  | H : system_read_exec_paths _ = _ |- _ => rename H into Hsystem
  end.
  match type of Hsystem with system_read_exec_paths _ = (Ok ?system, _) =>
    assert (Hread : ∀ program p, p ∈ push_unique_path system program →
      p = program ∨ ∃ q, q ∈ system_paths ∧ resolves q p) end.
  { intros program p [Hp| ->]%elem_of_push_unique_path; [|by left].
    eapply existing_paths_resolve in Hp as [?%elem_of_nil|Hp]; [done|by right|exact Hsystem]. }
  match goal with H : context [workspace_read_only ?p] |- _ => destruct (workspace_read_only p) eqn:Hro end;
    run_inv; constructor; simpl; try done.
  all: try (rewrite <-network_allowed_offline; by destruct (network_allowed spec)).
  - intros p [[->|?]%Hread| ->]%elem_of_push_unique_path; auto. right. left. split; [done|].
    by destruct (sx_profile spec).
  - by destruct (sx_profile spec).
  - intros p [->|?]%Hread; auto.
  - by destruct (sx_profile spec).
Qed.

Lemma launcher_argv_parses socket cwd w wrapped w' :
  launcher_wrapped_command socket cwd w = (Ok wrapped, w') →
  parse_launcher_socket (wr_program wrapped :: wr_args wrapped) = Ok socket ∧ wr_cwd wrapped = cwd ∧
  ∃ program, own_executable program ∧ wrapped = {| wr_program := program; wr_cwd := cwd; wr_env_additions := ∅;
                          wr_args := [LAUNCHER_SENTINEL; LAUNCHER_SOCKET_FLAG; socket] |}.
Proof.
  unfold launcher_wrapped_command, os_path_to_string, to_str, sandbox_io, mapping_err. intros Hrun. run_inv.
  ok_inv. repeat case_match; simplify_eq. split_and!; [done..|]. eexists. split; [|done].
  destruct r; simplify_eq/=. by eexists _, _.
Qed.

End configuration.

Section hand_over.
Context {W : Type} `{HE : !HostEnv W} `{F : !Fs W} `{LL : !Landlock W} `{NO : !NativeOs W}
  `{LC : !LauncherCodec} `{DS : !DebugStr}.

(** The calls of the hook that hands the configuration over: at most one
    message, after the process was put into the group. *)
Definition hands_over (session : LinuxSandboxSession) (pid : N) (config : option LauncherConfig)
    (t : list OsCall) : Prop :=
  t = [Wrote (procs_file session) (pretty pid) false] ∨
  t = [Wrote (procs_file session) (pretty pid) true] ∨
  ∃ c payload, config = Some c ∧ to_json_vec c = Ok payload ∧
    t = [Wrote (procs_file session) (pretty pid) true; Sent (ls_socket_path session) payload].

Lemma child_started_hands_over session pid st (w : watched W) :
  ∃ t, log_of (native_child_started session pid (st, w)).2 = w.2 ++ t ∧
    hands_over session pid (na_config st) t.
Proof.
  unfold native_child_started, sandbox_io, attach, write_cgroup_file, catch, mapping_err, Native.on_os, set_config,
    take_listener, close_listener, gets, modify, lift_result, throw, embed.
  unfold mbind, Run_bind, mret, Run_ret. cbn [write_existing sock_accept sock_write sock_close WatchedOs fst snd].
  unfold noting, aside, unwatched.
  destruct (write_existing _ _ w.1) as [[[]|e] w1]; cbn -[hands_over].
  2:{ eexists. split; [done|]. by left. }
  destruct (na_config st) as [c|] eqn:Hc; cbn -[hands_over].
  2:{ eexists. split; [done|]. right. by left. }
  destruct (to_json_vec c) as [payload|] eqn:Hp; cbn -[hands_over].
  2:{ eexists. split; [done|]. right. by left. }
  destruct (na_listener st); cbn -[hands_over].
  2:{ eexists. split; [done|]. right. by left. }
  destruct (sock_accept _ _ w1) as [[[[]|e]|] w2]; cbn -[hands_over].
  2,3: eexists; split; [done|]; right; by left.
  destruct (sock_write _ _ w2) as [[[]|e] w3]; cbn -[hands_over].
  2:{ eexists. rewrite <-app_assoc. split; [done|]. right. right. by eauto. }
  destruct (sock_close _ w3) as [[[]|e] w4]; cbn -[hands_over].
  all: eexists; rewrite <-app_assoc; (split; [done|]); right; right; by eauto.
Qed.

(** A wrapped command starts the launcher on the session's socket, and what
    the launcher is sent there is the plan: its arguments and environment, with
    the workspace as the only writable path (none for a read-only profile) and
    the network denied unless the specification allows it; it is sent once,
    and only after the launcher's process was put into the control group. *)
Theorem launcher_gets_plan (session : LinuxSandboxSession) (plan : CommandPlan) st (w : watched W)
    wrapped st' w' :
  (∀ config payload, enc_config config = Ok payload → dec_config payload = Ok config) →
  native_wrap session plan (st, w) = (Ok wrapped, (st', w')) →
  parse_launcher_socket (wr_program wrapped :: wr_args wrapped) = Ok (ls_socket_path session) ∧
  ∀ pid (w1 : watched W), ∃ t,
    log_of (native_child_started session pid (st', w1)).2 = w1.2 ++ t ∧
    ∀ p payload, Sent p payload ∈ t →
      t = [Wrote (procs_file session) (pretty pid) true; Sent p payload] ∧
      p = ls_socket_path session ∧
      ∃ config, from_json_slice payload = Ok config ∧ config_for (W := watched W) plan (ls_spec session) config.
Proof.
  intros Hlaw Hwrap. unfold native_wrap, set_config, Native.on_os, modify in Hwrap.
  unfold mbind, Run_bind in Hwrap. cbn [fst snd] in Hwrap.
  destruct (launcher_config plan (ls_spec session) w) as [[config|e] w1] eqn:Hconfig; [|done].
  cbn [fst snd] in Hwrap.
  destruct (launcher_wrapped_command _ _ w1) as [r w2] eqn:Hcommand. injection Hwrap as -> <- <-.
  split; [by apply launcher_argv_parses in Hcommand as [? _]|]. intros pid w3.
  destruct (child_started_hands_over session pid
              {| na_listener := na_listener st; na_config := Some config |} w3) as (t&Ht&Hover).
  exists t. split; [done|]. intros p payload Hin.
  destruct Hover as [->|[->|(c&payload'&[= <-]&Henc&->)]].
  - by apply list_elem_of_singleton in Hin.
  - by apply list_elem_of_singleton in Hin.
  - apply elem_of_cons in Hin as [?|Hin]; [done|]. apply list_elem_of_singleton in Hin as [= -> ->].
    split_and!; [done|done|]. exists config. split; [|exact (launcher_config_for _ _ _ _ _ Hconfig)].
    unfold to_json_vec, from_json_slice in *. ok_inv. by erewrite Hlaw.
Qed.
End hand_over.
