(* ===== verification/Running.v ===== *)
(** * What a turn of the shell runner guarantees

    Work from the network is spawned only inside the sandbox; a turn that is
    not dropped gives back what the sandbox took; a dropped one abandons its
    child; the event queue keeps the latest events; and the orchestrator reads
    the exit code the runner reports. *)

From S2P Require Import Prelude Wire Core Text Effects Files Containment Ports.
From S2P Require Import Sandbox Native HostSandbox RunnerSpec ShellRunner Watching Confining.

(** ** Confinement *)

(** The specification a runner resolves a given one to: the backend that is
    there, for one that is chosen by the system, and the denied paths with the
    user's directory in the place of a tilde. *)
Definition expands (p q : path) : Prop :=
  q = p ∨ path_string p = "~" ∨ ∃ home rest, path_string p = "~/" +:+ rest ∧ q = join home rest.
Definition resolved_spec (given spec : SandboxSpec) : Prop := ∃ secrets backend,
  spec = with_backend (with_secrets given secrets) backend ∧ Forall2 expands (sx_secrets_deny given) secrets ∧
  backend ≠ BkAuto ∧ (sx_backend given ≠ BkAuto → backend = sx_backend given).

(** No work without a sandbox is allowed for the source. *)
Definition must_confine (spec : SandboxSpec) (source : IssueSource) : Prop :=
  source = NetworkSourced ∨ sx_on_unavailable spec = FailClosed.

Section prepared.
Context {W : Type} `{HE : !HostEnv W} `{F : !Fs W} `{LL : !Landlock W} `{NO : !NativeOs W}
  `{CP : !ChildProcess W} `{LC : !LauncherCodec} `{DS : !DebugStr}.

Lemma resolve_backend_resolved {E} requested spec (w : W) r w' :
  resolve_backend (E := E) requested spec w = (Ok r, w') → r.1 ≠ BkAuto.
Proof.
  unfold resolve_backend, auto_backend. intros Hrun.
  destruct requested; repeat (run_step || case_match; simplify_eq); done.
Qed.

Lemma new_host_sandbox_resolved spec (w : W) sandbox w' :
  new_host_sandbox spec w = (Ok sandbox, w') → sx_backend (hx_spec sandbox) ≠ BkAuto.
Proof.
  unfold new_host_sandbox. intros Hrun. run_inv. by eapply resolve_backend_resolved.
Qed.

(** The sessions a sandbox prepares. *)
Inductive session_of (sandbox : HostSandbox) (source : IssueSource) : SandboxSession → Prop :=
  | session_host mode :
      prepare_mode sandbox source = Ok mode →
      (mode = Available → sx_backend (hx_spec sandbox) ≠ BkNative) →
      session_of sandbox source (HostSandboxSession (hx_spec sandbox) mode)
  | session_native session :
      sx_backend (hx_spec sandbox) = BkNative → ls_spec session = hx_spec sandbox →
      session_of sandbox source (NativeSession session fresh_native).

Lemma prepare_native_spec spec (w : W) session w' :
  prepare_native spec w = (Ok session, w') → ls_spec session = spec.
Proof. unfold prepare_native. intros Hrun. run_inv. by destruct x3; run_inv. Qed.

Lemma prepare_session_of sandbox source (w : W) session w' :
  prepare sandbox source w = (Ok session, w') → session_of sandbox source session.
Proof.
  unfold prepare. intros Hrun. run_step. run_step. subst.
  destruct (bool_decide (_ = Available) && _) eqn:Hnative.
  - apply andb_true_iff in Hnative as [_ Hb%bool_decide_eq_true].
    case_bool_decide; [|done]. run_inv. constructor; [done|].
    by eapply prepare_native_spec.
  - run_inv. constructor; [done|]. intros -> Hb. rewrite Hb in Hnative. done.
Qed.

Lemma prepare_mode_confines sandbox source mode :
  must_confine (hx_spec sandbox) source → prepare_mode sandbox source = Ok mode →
  mode = Available ∧ sx_backend (hx_spec sandbox) ≠ BkNone.
Proof.
  unfold prepare_mode, must_confine. intros Hmust.
  destruct (bool_decide (_ ≠ BkNone) && _) eqn:Hb.
  - intros [= <-]. apply andb_true_iff in Hb as [Hb%bool_decide_eq_true _]. done.
  - intros Hm. ok_inv. guards. destruct Hmust; done.
Qed.

Lemma wrap_available_limited {E} spec plan (w : W) wrapped w' :
  wrap_available (E := E) spec plan w = (Ok wrapped, w') →
  limited target_os spec (wr_program (wrap_backend spec plan)) (wr_args (wrap_backend spec plan))
    (wr_program wrapped) (wr_args wrapped) ∧
  wr_cwd wrapped = wr_cwd (wrap_backend spec plan) ∧
  wr_env_additions wrapped = wr_env_additions (wrap_backend spec plan).
Proof.
  unfold wrap_available, apply_resource_limits, apply_platform_resource_limits, apply_linux_resource_limits.
  generalize (wrap_backend spec plan) as command. intros command Hrun.
  destruct (limits_set spec) eqn:Hset.
  - destruct target_os eqn:Hos; run_inv.
    + case_match; subst; (split; [|done]); [by apply linux_scope_limited|by constructor].
    + split; [apply macos_limits_limited|done].
    + split; [by constructor|done].
  - run_inv. split; [|done]. constructor. intros _. unfold limits_set, unlimited in *.
    by destruct (sx_cpu_seconds spec), (sx_memory_bytes spec), (sx_pids_max spec).
Qed.

(** A session of the native backend holds what its launcher is to be sent. *)
Definition armed (socket : path) (plan : CommandPlan) (spec : SandboxSpec) (session : SandboxSession)
    : Prop :=
  match session with
  | NativeSession native st =>
      ls_socket_path native = socket ∧
      ∀ config, na_config st = Some config → config_for (W := W) plan spec config
  | _ => True
  end.

(** Whatever such a session wraps is confined. *)
Lemma session_wrap_confined sandbox source session plan (w : W) wrapped s' :
  sx_backend (hx_spec sandbox) ≠ BkAuto → must_confine (hx_spec sandbox) source →
  session_of sandbox source session → session_wrap plan (session, w) = (Ok wrapped, s') →
  wr_cwd wrapped = cp_cwd plan ∧ wr_env_additions wrapped = ∅ ∧ ∃ socket,
    confined target_os (own_executable (W := W)) (hx_spec sandbox) plan socket
      (wr_program wrapped) (wr_args wrapped) ∧
    armed socket plan (hx_spec sandbox) s'.1.
Proof.
  intros Hauto Hmust Hsession. destruct Hsession as [mode Hmode Hnative|native Hb Hspec].
  - destruct (prepare_mode_confines _ _ _ Hmust Hmode) as [-> Hnone].
    unfold session_wrap, in_host, host_wrap. cbn [fst snd]. intros Hrun.
    destruct (wrap_available _ _ w) as [r w1] eqn:Hwrap. simplify_eq.
    apply wrap_available_limited in Hwrap as (Hlimited&Hcwd&Henv).
    destruct (wrap_backend_line (hx_spec sandbox) (from_plan plan)) as (Hline&Hcwd'&Henv').
    { specialize (Hnative eq_refl). destruct (sx_backend (hx_spec sandbox)); set_solver. }
    rewrite Hcwd, Hcwd', Henv, Henv'. split_and!; [done..|]. exists "". split; [|done].
    by econstructor 1.
  - unfold session_wrap, in_native. cbn [fst snd]. intros Hrun.
    destruct (native_wrap native plan (fresh_native, w)) as [r [st w1]] eqn:Hwrap. simplify_eq.
    unfold native_wrap, set_config, Native.on_os, modify, mbind, Run_bind in Hwrap. cbn [fst snd] in Hwrap.
    destruct (launcher_config plan (ls_spec native) w) as [[config|e] w2] eqn:Hconfig; [|done].
    cbn [fst snd] in Hwrap.
    destruct (launcher_wrapped_command _ _ w2) as [r w3] eqn:Hcommand. injection Hwrap as -> <- <-.
    apply launcher_argv_parses in Hcommand as (_&_&program&Hown&->). split_and!; [done..|].
    exists (ls_socket_path native). split; [by constructor 2|]. split; [done|].
    intros ? [= <-]. rewrite <-Hspec. by eapply launcher_config_for.
Qed.
End prepared.

Section spawning.
Context `{X : Extern} `{J : Json} {W : Type}.
Context `{HE : !HostEnv W} `{F : !Fs W} `{LL : !Landlock W} `{NO : !NativeOs W}
  `{CP : !ChildProcess W} `{TP : !TurnProcess W} `{LC : !LauncherCodec} `{DS : !DebugStr}.
Implicit Types (r : ShellRunner) (P : OsCall → Prop).

(** *** Calls of the parts of a turn *)

(** What preparing a session, wrapping with it and shutting it down may do. *)
Definition session_call (call : OsCall) : Prop :=
  match call with Spawned _ _ | Sent _ _ | Killed _ | WaitedInVain _ => False | _ => True end.

Lemma makes_unique_name P kind {E} : makes (E := E) P (unique_name (W := watched W) kind).
Proof. unfold unique_name. makes. Qed.

Lemma makes_try_temp_dirs n base : makes session_call (try_temp_dirs (W := watched W) n base).
Proof.
  induction n as [|n IH]; cbn [try_temp_dirs]; [makes|].
  apply makes_bind; [apply makes_unique_name|intros name]. makes.
Qed.

Lemma makes_create_leaf spec : makes session_call (create_leaf (W := watched W) spec).
Proof.
  unfold create_leaf, current_cgroup_parent, apply_limits, write_limit, write_cgroup_file,
    delete_best_effort, best_effort.
  apply makes_bind; [makes|intros parent]. apply makes_bind; [apply makes_unique_name|makes].
Qed.

Lemma makes_prepare sandbox source : makes session_call (prepare (W := watched W) sandbox source).
Proof.
  unfold prepare, prepare_native, create_private_temp_dir, cleanup_temp_dir, best_effort, sandbox_io.
  apply makes_bind; [makes|intros mode]. destruct (bool_decide _ && _); [|makes].
  destruct (bool_decide _); [|makes]. apply makes_bind; [|makes].
  apply makes_bind; [apply makes_bind; [makes|intros ?; apply makes_try_temp_dirs]|intros dir].
  apply makes_bind; [makes|intros _]. apply makes_bind; [apply makes_catch, makes_create_leaf|makes].
Qed.

Lemma makes_any_file P {E} command dirs : makes (E := E) P (any_file (W := watched W) command dirs).
Proof.
  induction dirs as [|dir dirs IH]; cbn [any_file]; [makes|].
  apply makes_bind; [unfold is_file; makes|intros []; [makes|apply IH]].
Qed.
Lemma makes_command_available P {E} command :
  makes (E := E) P (command_available (W := watched W) command).
Proof.
  unfold command_available, is_file. destruct (1 <? length (components command)); [makes|].
  apply makes_bind; [makes|intros [dirs|]; [apply makes_any_file|makes]].
Qed.

Lemma makes_host_wrap P {E} spec mode plan : makes (E := E) P (host_wrap (W := watched W) spec mode plan).
Proof.
  unfold host_wrap, wrap_available, apply_resource_limits, apply_platform_resource_limits,
    apply_linux_resource_limits.
  destruct mode; [|makes]. destruct (limits_set spec); [|makes].
  destruct target_os; [|makes..]. apply makes_bind; [apply makes_command_available|makes].
Qed.

(** A method of a session is that of its implementation. *)
Lemma makes_session P {A} (c : Run (SandboxSession * watched W) SandboxError A) :
  (∀ session, ∃ d, (∀ w, c (session, w) = d (session, w)) ∧ makes P d) → makes P c.
Proof. intros Hc [session w]. destruct (Hc session) as (d&Hd&Hm). rewrite Hd. apply Hm. Qed.

Lemma makes_session_wrap P plan : makes P (session_wrap (W := watched W) plan).
Proof.
  apply makes_session. intros [|spec mode|session st].
  - exists (in_host (mret (from_plan plan))). split; [done|makes].
  - exists (in_host (host_wrap spec mode plan)). split; [done|apply makes_in_host, makes_host_wrap].
  - exists (in_native session st (native_wrap session plan)).
    split; [done|apply makes_in_native, makes_native_wrap].
Qed.

Lemma makes_session_shutdown : makes session_call (session_shutdown (W := watched W)).
Proof.
  apply makes_session. intros [|spec mode|session st].
  1,2: exists (in_host (mret ())); split; [done|makes].
  exists (in_native session st (native_shutdown session)). split; [done|].
  unfold native_shutdown, close_listener, remove_file_if_exists, delete_best_effort, cleanup_temp_dir,
    best_effort. makes.
Qed.

Lemma makes_shutdown_after_error session :
  makes session_call (shutdown_after_error (W := watched W) session).
Proof.
  unfold shutdown_after_error.
  apply makes_bind; [apply makes_os, makes_with_session, makes_session_shutdown|makes].
Qed.

(** *** The command of a turn *)

(** The plan of a turn, and the commands that run it confined. *)
Definition turn_plan (spec : RunnerSpec) (workspace_path : path) (env : gmap string string) : CommandPlan :=
  {| cp_program := rs_command spec; cp_args := rs_args spec; cp_cwd := workspace_path; cp_env := env |}.
Definition confined_command (spec : SandboxSpec) (plan : CommandPlan) (socket : path)
    (command : ChildCommand) : Prop :=
  cc_current_dir command = cp_cwd plan ∧ cc_envs command = cp_env plan ∧
  confined (target_os (W := watched W)) (own_executable (W := watched W)) spec plan socket
    (cc_program command) (cc_args command).

(** What is sent is sent on the socket, and is a configuration for the plan. *)
Definition configuration_sent (spec : SandboxSpec) (plan : CommandPlan) (socket p : path) (payload : bytes)
    : Prop :=
  p = socket ∧ ∃ config, enc_config config = Ok payload ∧ config_for (W := watched W) plan spec config.
Definition handed (spec : SandboxSpec) (plan : CommandPlan) (socket : path) (call : OsCall) : Prop :=
  match call with
  | Spawned command _ => confined_command spec plan socket command
  | Sent p payload => configuration_sent spec plan socket p payload
  | _ => True
  end.

Lemma child_started_handed spec plan socket session pid :
  armed (W := watched W) socket plan spec session →
  makes (handed spec plan socket)
    (ShellRunner.on_os (E := TurnEnd) (with_session session (session_child_started (W := watched W) pid))).
Proof.
  intros Harmed. apply logs_os. intros w.
  destruct session as [|? ?|native st]; [by exists []; rewrite app_nil_r..|].
  destruct Harmed as [Hsocket Hconfig].
  destruct (child_started_hands_over native pid st w) as (t&Ht&Hover).
  unfold with_session, session_child_started, in_native. cbn [fst snd].
  destruct (native_child_started native pid (st, w)) as [r [st' w']].
  exists t. split; [exact Ht|]. destruct Hover as [->|[->|(c&payload&Hc&Henc&->)]]; [by repeat constructor..|].
  apply Forall_cons. split; [done|]. apply Forall_singleton. split; [done|]. exists c.
  split; [|by apply Hconfig]. unfold to_json_vec in Henc. by destruct (enc_config c); simplify_eq/=.
Qed.

Lemma makes_command_for_session r workspace_path env source :
  makes session_call (command_for_session (W := watched W) r workspace_path env source).
Proof.
  unfold command_for_session, failing, fail.
  apply makes_bind; [destruct (sn_sandbox r); [apply makes_os, makes_mapping, makes_prepare|makes]|].
  intros session.
  apply makes_bind; [apply makes_os, makes_with_session, makes_session_wrap|]. intros [[wrapped|e] se].
  - makes.
  - apply makes_bind; [apply makes_shutdown_after_error|makes].
Qed.

Lemma command_for_session_confined r sandbox workspace_path env source s command session s' :
  sn_sandbox r = Some sandbox → sx_backend (hx_spec sandbox) ≠ BkAuto →
  must_confine (hx_spec sandbox) source →
  command_for_session (W := watched W) r workspace_path env source s = (Ok (command, session), s') →
  ∃ socket, confined_command (hx_spec sandbox) (turn_plan (sn_spec r) workspace_path env) socket command ∧
    armed (W := watched W) socket (turn_plan (sn_spec r) workspace_path env) (hx_spec sandbox) session.
Proof.
  intros Hr Hauto Hmust Hrun. unfold command_for_session in Hrun. rewrite Hr in Hrun.
  run_inv. destruct x1 as [[wrapped|e] se]; [|by run_inv].
  run_inv. simplify_eq. unfold failing, ShellRunner.on_os, mapping_err, with_session in *.
  destruct (prepare sandbox source (sw_world s)) as [[se0|e] w1] eqn:Hprepare; [|done].
  cbn [map_err] in *. simplify_eq. destruct (session_wrap _ _) as [r1 [se1 w2]] eqn:Hwrap. simplify_eq.
  eapply session_wrap_confined in Hwrap as (Hcwd&Henv&socket&Hconfined&Harmed);
    [|done|done|exact (prepare_session_of _ _ _ _ _ Hprepare)].
  exists socket. split; [|exact Harmed]. split; [exact Hcwd|]. split; [|exact Hconfined].
  cbn [command_from_wrapped cc_envs]. unfold merged_env. by rewrite Henv, (left_id_L ∅ (∪)).
Qed.

(** *** The child *)

Definition child_call (call : OsCall) : Prop :=
  match call with Killed _ | WaitedInVain _ => True | _ => False end.

Lemma makes_send P r id event : makes P (send (W := watched W) r id event).
Proof. unfold send. makes. Qed.

Lemma makes_take_event P id : makes P (take_event (W := watched W) id).
Proof. unfold take_event. apply makes_modify. intros s. by destruct (ch_queue _). Qed.

Lemma makes_run_tasks P r id child prompt :
  makes P (run_tasks (W := watched W) r id child prompt).
Proof.
  unfold run_tasks, asking. apply makes_bind; [makes|intros steps]. apply makes_for_each.
  intros step. unfold run_step.
  destruct step; try (apply makes_for_each; intros ?; apply makes_send). apply makes_take_event.
Qed.

Lemma makes_await P : makes P (await_point (W := watched W)).
Proof. unfold await_point, asking. makes. Qed.

Lemma makes_kill_process_group {P : OsCall → Prop} child command :
  (∀ pid, P (Killed pid)) → makes P (kill_process_group (W := watched W) child command).
Proof.
  intros HP. unfold kill_process_group, asking. makes. apply makes_noting. intros ?.
  by apply Forall_singleton.
Qed.

Lemma makes_take_pipe child stream command :
  makes child_call (take_pipe (W := watched W) child stream command).
Proof.
  unfold take_pipe, asking, killing, fail. apply makes_bind; [makes|intros []; [makes|]].
  apply makes_bind; [apply makes_mapping, makes_kill_process_group; done|makes].
Qed.

Lemma makes_wait_with_timeout r id child prompt :
  makes child_call (wait_with_timeout (W := watched W) r id child prompt).
Proof.
  unfold wait_with_timeout, asking, killing, failing, fail.
  apply makes_bind; [apply makes_run_tasks|intros _]. apply makes_bind; [apply makes_await|intros _].
  apply makes_bind; [makes|intros [[status|e]|]; [makes..|]].
  apply makes_bind; [apply makes_mapping, makes_kill_process_group; done|intros _].
  apply makes_bind; [apply makes_await|makes].
Qed.

Lemma makes_join P r id child prompt name :
  makes P (join_background_task (W := watched W) r id child prompt name).
Proof.
  unfold join_background_task, asking.
  apply makes_bind; [apply makes_run_tasks|intros _]. apply makes_bind; [apply makes_await|intros _].
  apply makes_bind; [makes|intros [e|]; [apply makes_send|makes]].
Qed.

Lemma makes_drive_child r id child prompt started :
  makes child_call (drive_child (W := watched W) r id child prompt started).
Proof.
  unfold drive_child, asking.
  do 3 (apply makes_bind; [apply makes_take_pipe|intros _]).
  apply makes_bind; [apply makes_wait_with_timeout|intros status].
  do 3 (apply makes_bind; [apply makes_join|intros _]).
  apply makes_bind; [makes|intros now]. apply makes_bind; [apply makes_send|makes].
Qed.

Lemma makes_caught P {A} (c : SM (W := watched W) A) : makes P c → makes P (caught c).
Proof.
  intros Hc s. destruct (Hc s) as (t&Ht&HP). unfold caught. destruct (c s) as [[a|[e|]] s'];
    by exists t.
Qed.

(** ** Network work runs confined *)

Lemma session_call_handed spec plan socket call : session_call call → handed spec plan socket call.
Proof. by destruct call. Qed.
Lemma child_call_handed spec plan socket call : child_call call → handed spec plan socket call.
Proof. by destruct call. Qed.

Lemma run_child_handed r sess prompt env source sandbox :
  sn_sandbox r = Some sandbox → sx_backend (hx_spec sandbox) ≠ BkAuto →
  must_confine (hx_spec sandbox) source →
  logs (run_child (W := watched W) r sess prompt env source) (λ t _, ∃ socket,
    Forall (handed (hx_spec sandbox) (turn_plan (sn_spec r) (sh_workspace_path sess) env) socket) t).
Proof.
  intros Hr Hauto Hmust. set (plan := turn_plan _ _ _).
  unfold run_child, asking, fail.
  eapply logs_bind; [reveal; apply logs_silent; makes| |by intros e t1 ->; exists ""].
  intros started t1 ->. cbn [app].
  eapply logs_bind with (L := λ t res, Forall session_call t ∧ ∀ a, res = Ok a →
    ∃ socket, confined_command (hx_spec sandbox) plan socket a.1 ∧
      armed (W := watched W) socket plan (hx_spec sandbox) a.2).
  { apply logs_value; [apply makes_command_for_session|].
    intros s [command session] s' Hrun. by eapply command_for_session_confined. }
  2:{ intros e t1 [Ht1 _]. exists "". eapply Forall_impl; [exact Ht1|apply session_call_handed]. }
  intros [command session] t1 [Ht1 Hcommand]. destruct (Hcommand _ eq_refl) as (socket&Hconfined&Harmed).
  set (P := handed (hx_spec sandbox) plan socket).
  assert (Hs : ∀ call, session_call call → P call) by apply session_call_handed.
  assert (Hafter : ∀ session, makes P (shutdown_after_error (W := watched W) session))
    by (intros ?; eapply makes_weaken; [exact Hs|apply makes_shutdown_after_error]).
  assert (Hkill : ∀ child command,
    makes P (kill_child_after_start_failure (W := watched W) child command)).
  { intros. unfold kill_child_after_start_failure.
    apply makes_bind; [by apply makes_catch, makes_kill_process_group|makes]. }
  eapply logs_weaken with (L := λ t _, Forall P t);
    [|intros t res Ht; exists socket; apply Forall_app; split; [exact (Forall_impl _ _ _ Ht1 Hs)|exact Ht]].
  apply makes_bind; [|intros [child|e]].
  { apply makes_os, makes_catch. reveal. apply makes_noting. intros ?. by apply Forall_singleton. }
  2:{ apply makes_bind; [apply Hafter|makes]. }
  apply makes_bind; [makes|intros [pid|]].
  2:{ apply makes_bind; [apply Hkill|intros _]. apply makes_bind; [apply Hafter|makes]. }
  apply makes_bind; [apply makes_await|intros _].
  apply makes_bind; [by apply child_started_handed|intros [[[]|e] se]].
  - apply makes_bind;
      [apply makes_caught; eapply makes_weaken; [apply child_call_handed|apply makes_drive_child]|].
    intros outcome. unfold finish_sandbox_session.
    apply makes_bind; [|makes].
    apply makes_os, makes_with_session. eapply makes_weaken; [exact Hs|apply makes_session_shutdown].
  - apply makes_bind; [apply Hkill|intros _]. apply makes_bind; [apply Hafter|makes].
Qed.

(** *** The sandbox of a runner *)

Lemma expand_tilde_path_expands {E} p (w : W) q w' :
  expand_tilde_path (E := E) p w = (Ok q, w') → expands p q.
Proof.
  unfold expand_tilde_path, expands. intros Hrun. case_bool_decide as Htilde; [|case_match eqn:Hstrip].
  - run_inv. destruct x; simpl; eauto.
  - apply strip_prefix_Some in Hstrip. run_inv. destruct x; eauto 8.
  - run_inv. auto.
Qed.
Lemma expand_paths_expand {E} ps (w : W) qs w' :
  expand_paths (E := E) ps w = (Ok qs, w') → Forall2 expands ps qs.
Proof.
  revert w qs. induction ps as [|p ps IH]; intros w qs Hrun; simpl in Hrun; run_inv; [constructor|].
  constructor; [by eapply expand_tilde_path_expands|by eapply IH].
Qed.
Lemma resolve_backend_same {E} requested spec (w : W) found w' :
  resolve_backend (E := E) requested spec w = (Ok found, w') → requested ≠ BkAuto → found.1 = requested.
Proof. unfold resolve_backend. intros Hrun ?. destruct requested; run_inv; by simplify_eq. Qed.

Lemma new_shell_runner_resolves spec given (w : W) r w' :
  new_shell_runner spec w = (Ok r, w') → rs_sandbox spec = Some given →
  sn_spec r = spec ∧ ∃ sandbox, sn_sandbox r = Some sandbox ∧ resolved_spec given (hx_spec sandbox).
Proof.
  unfold new_shell_runner. intros Hrun Hs. rewrite Hs in Hrun. run_inv. split; [done|].
  match goal with H : new_host_sandbox _ _ = _ |- _ => rename H into Hnew end.
  eexists. split; [done|]. pose proof (new_host_sandbox_resolved _ _ _ _ Hnew) as Hauto.
  unfold new_host_sandbox, normalize_paths in Hnew. run_inv. simpl in *.
  repeat match goal with
  | H : expand_paths _ _ = _ |- _ => apply expand_paths_expand in H
  | H : resolve_backend _ _ _ = _ |- _ => pose proof (resolve_backend_same _ _ _ _ _ H); clear H
  end.
  by eexists _, _.
Qed.

Lemma makes_set_last_usage P id duration :
  makes P (set_last_usage (W := watched W) id duration).
Proof. unfold set_last_usage. makes. Qed.

(** A started session carries the source and the environment of its context. *)
Lemma start_session_registers r ctx (s : shell W) sess s' :
  start_session r ctx s = (Ok sess, s') →
  sh_workspace_path sess = sc_workspace_path ctx ∧
  ∃ session, sw_sessions s' !! sh_id sess = Some session ∧
    st_issue_source session = sc_issue_source ctx ∧ build_child_env (sn_spec r) ctx = Ok (st_env session).
Proof.
  unfold start_session, send. intros Hrun. run_inv. ok_inv. simpl. split; [done|].
  eexists. split; [apply lookup_insert_eq|]. by split.
Qed.
End spawning.

(** *** What a turn takes and gives back *)

(** The directories a trace leaves: those made, less those whose removal the
    system has carried out. *)
Definition hold (dirs : list path) (call : OsCall) : list path :=
  match call with
  | Made p true => p :: dirs
  | RemovedTree p true | RemovedDir p true => List.filter (λ q, negb (bool_decide (q = p))) dirs
  | _ => dirs
  end.
Definition held (t : list OsCall) : list path := foldl hold [] t.
(** A removal the system refused. *)
Definition refused (t : list OsCall) (p : path) : Prop :=
  RemovedTree p false ∈ t ∨ RemovedDir p false ∈ t.

(** Those that nobody has tried to remove, after some that were there. *)
Definition pend (dirs : list path) (call : OsCall) : list path :=
  match call with
  | Made p true => p :: dirs
  | RemovedTree p _ | RemovedDir p _ => List.filter (λ q, negb (bool_decide (q = p))) dirs
  | _ => dirs
  end.
Definition held_after (dirs : list path) (t : list OsCall) : list path := foldl pend dirs t.

(** A trace that leaves at most the directories in [Q] besides those that were
    there, and one that leaves no [p]. *)
Definition leaves (Q : path → Prop) (t : list OsCall) : Prop :=
  ∀ dirs p, p ∈ held_after dirs t → p ∈ dirs ∨ Q p.
Definition frees (p : path) (t : list OsCall) : Prop := ∀ dirs, p ∉ held_after dirs t.

Lemma elem_of_hold_removed (q p : path) dirs :
  q ∈ List.filter (λ q, negb (bool_decide (q = p))) dirs ↔ q ∈ dirs ∧ q ≠ p.
Proof.
  rewrite list_elem_of_In, filter_In, <-list_elem_of_In, negb_true_iff, bool_decide_eq_false. done.
Qed.

(** What is left was not tried to remove, or its removal was refused. *)
Lemma held_pending t dirs1 dirs2 p :
  (p ∈ dirs1 → p ∈ dirs2 ∨ refused t p) → p ∈ foldl hold dirs1 t → p ∈ held_after dirs2 t ∨ refused t p.
Proof.
  unfold held_after. revert dirs1 dirs2. induction t as [|call t IH]; intros dirs1 dirs2 Hdirs; simpl; [exact Hdirs|].
  intros Hp.
  assert (Hlater : refused t p → refused (call :: t) p) by (unfold refused; rewrite !elem_of_cons; tauto).
  assert (Hcall : refused (call :: t) p ∨ (p ∈ hold dirs1 call → p ∈ pend dirs2 call ∨ refused t p)).
  { unfold refused in *. rewrite !elem_of_cons in *.
    destruct call as [q []|q done|q done| | | | | | | | | |]; simpl;
      try (right; rewrite ?elem_of_cons; intuition congruence).
    all: destruct (decide (p = q)) as [->|]; destruct done; rewrite ?elem_of_hold_removed;
      try (left; by auto); right; intuition congruence. }
  destruct Hcall as [|Hcall]; [by right|]. destruct (IH _ _ Hcall Hp); auto.
Qed.

Lemma leaves_app Q t1 t2 : leaves Q t1 → leaves Q t2 → leaves Q (t1 ++ t2).
Proof.
  unfold leaves, held_after. intros H1 H2 dirs p. rewrite foldl_app. intros Hp.
  apply H2 in Hp as [Hp|]; [|by right]. by apply H1.
Qed.
Lemma leaves_weaken (Q Q' : path → Prop) t : (∀ p, Q p → Q' p) → leaves Q t → leaves Q' t.
Proof. intros HQ H dirs p Hp. destruct (H dirs p Hp); auto. Qed.
Lemma leaves_one (Q : path → Prop) call : (∀ p, call = Made p true → Q p) → leaves Q [call].
Proof.
  intros HQ dirs p. unfold held_after. simpl. destruct call as [q []|q ?|q ?| | | | | | | | | | ]; simpl; auto.
  - rewrite elem_of_cons. intros [->|]; auto.
  - rewrite elem_of_hold_removed. intros []; auto.
  - rewrite elem_of_hold_removed. intros []; auto.
Qed.
Lemma leaves_Forall (Q : path → Prop) t :
  Forall (λ call, ∀ p, call = Made p true → Q p) t → leaves Q t.
Proof.
  intros Ht. induction Ht as [|call t Hc Ht IH]; [intros ???; by left|].
  apply (leaves_app Q [call]); [by apply leaves_one|done].
Qed.

(** After a trace that frees what was left, nothing is left. *)
Lemma leaves_freed Q t1 t2 :
  leaves Q t1 → leaves (λ _, False) t2 → (∀ p, Q p → frees p t2) → leaves (λ _, False) (t1 ++ t2).
Proof.
  intros H1 H2 Hf dirs p Hp. unfold held_after in Hp. rewrite foldl_app in Hp.
  assert (HQ : ¬ Q p) by (intros HQ; by apply (Hf p HQ) in Hp).
  apply H2 in Hp as [Hp|[]]. by apply H1 in Hp as [?|?]; [left|].
Qed.

(** What a session holds. *)
Definition takes (session : SandboxSession) (p : path) : Prop :=
  match session with
  | NativeSession n _ => p = ls_temp_dir n ∨ p = ls_cgroup n
  | _ => False
  end.

(** A trace that removes nothing. *)
Definition keeping (call : OsCall) : Prop :=
  match call with RemovedTree _ _ | RemovedDir _ _ => False | _ => True end.
(** The private directories whose socket could not be bound. *)
Definition unbound (t : list OsCall) (p : path) : Prop := Bound (join p "launcher.sock") false ∈ t.


Lemma keeping_holds t dirs p : Forall keeping t → p ∈ dirs ∨ Made p true ∈ t → p ∈ foldl hold dirs t.
Proof.
  intros Hk. revert dirs. induction Hk as [|call t Hc Hk IH]; intros dirs [Hp|Hp]; simpl; try done.
  - by apply elem_of_nil in Hp.
  - apply IH. left. destruct call as [q []| | | | | | | | | | | | ]; try done. by right.
  - apply IH. apply elem_of_cons in Hp as [<-|Hp]; [left; by left|by right].
Qed.

Section sessions.
Context {W : Type} `{HE : !HostEnv W} `{F : !Fs W} `{LL : !Landlock W} `{NO : !NativeOs W}
  `{CP : !ChildProcess W} `{LC : !LauncherCodec} `{DS : !DebugStr}.

Lemma logs_try_temp_dirs n base :
  logs (try_temp_dirs (W := watched W) n base) (λ t res, Forall keeping t ∧
    match res with Ok dir => leaves (.= dir) t | Err _ => leaves (λ _, False) t end).
Proof.
  assert (Hnone : leaves (λ _, False) []) by (by intros dirs p; left).
  induction n as [|n IH]; cbn [try_temp_dirs]; [by apply logs_throw|].
  eapply logs_bind; [apply logs_silent, makes_unique_name| |by intros e t1 ->].
  intros name t1 ->. cbn [app].
  eapply logs_bind; [reveal; apply logs_catch, logs_noting| |by intros e t1 (?&?&_)].
  intros created t1 (res&[= ->]&->). destruct res as [[]|e].
  - apply logs_ret. split; [by repeat constructor|]. apply leaves_one. by intros p [= <-].
  - assert (Hfailed : ∀ p, leaves (λ _, False) [Made p false])
      by (intros ?; apply leaves_one; by intros ? [=]).
    destruct (bool_decide _).
    + eapply logs_weaken; [apply IH|]. intros t res [Hk Hres]. split; [by constructor|].
      destruct res; apply (leaves_app _ [_]); try done.
      eapply leaves_weaken; [|apply Hfailed]. done.
    + apply logs_throw. split; [by repeat constructor|]. apply Hfailed.
Qed.

Lemma logs_apply_limits leaf spec :
  makes (λ call, ∃ p b done, call = Wrote p b done) (apply_limits (W := watched W) leaf spec).
Proof.
  unfold apply_limits, write_limit, write_cgroup_file.
  makes; apply makes_noting; intros ?; apply Forall_singleton; eauto.
Qed.

Lemma wrote_leaves t :
  Forall (λ call, ∃ p b done, call = Wrote p b done) t → leaves (λ _, False) t ∧ Forall keeping t.
Proof.
  intros Ht. split.
  - apply leaves_Forall. eapply Forall_impl; [exact Ht|]. by intros ? (?&?&?&->) p [=].
  - eapply Forall_impl; [exact Ht|]. by intros ? (?&?&?&->).
Qed.

Lemma logs_create_leaf spec :
  logs (create_leaf (W := watched W) spec) (λ t res,
    match res with
    | Ok leaf => Forall keeping t ∧ leaves (.= leaf) t
    | Err _ => leaves (λ _, False) t
    end).
Proof.
  unfold create_leaf.
  eapply logs_bind; [apply logs_silent; unfold current_cgroup_parent; makes| |].
  2:{ by intros e t1 -> dirs p; left. }
  intros parent t1 ->. cbn [app].
  eapply logs_bind; [apply logs_silent, makes_unique_name| |].
  2:{ by intros e t1 -> dirs p; left. }
  intros name t1 ->. cbn [app].
  eapply logs_bind; [reveal; apply logs_mapping, logs_noting| |].
  2:{ intros e t1 ([|e']&[=]&->). apply leaves_one. by intros p [=]. }
  intros [] t1 ([[]|]&[=]&->).
  eapply logs_bind; [apply logs_catch, logs_apply_limits| |by intros e t1 (?&?&_)].
  intros limited t1 (res&[= ->]&[Hl Hk]%wrote_leaves). destruct res as [[]|e].
  - apply logs_ret. rewrite app_nil_r. split; [by constructor|].
    apply (leaves_app _ [_]); [apply leaves_one; by intros p [= <-]|].
    eapply leaves_weaken; [|exact Hl]. done.
  - unfold delete_best_effort, best_effort.
    eapply logs_bind with (L := λ t _, ∃ done, t = [RemovedDir (join parent name) done]).
    { eapply logs_bind; [reveal; apply logs_catch, logs_noting| |by intros e' t2 (?&?&_)].
      intros removed t2 (?&_&->). apply logs_ret. rewrite app_nil_r. eauto. }
    2:{ intros e' t2 [? ->]. cbn [app]. apply (leaves_freed (.= join parent name) (_ :: _)).
        - apply (leaves_app _ [_]); [apply leaves_one; by intros p [= <-]|].
          eapply leaves_weaken; [|exact Hl]. done.
        - apply leaves_one. by intros p [=].
        - intros p -> dirs. unfold held_after. simpl. rewrite elem_of_hold_removed. naive_solver. }
    intros [] t2 [? ->]. apply logs_throw. rewrite app_nil_r. cbn [app].
    apply (leaves_freed (.= join parent name) (_ :: _)).
    + apply (leaves_app _ [_]); [apply leaves_one; by intros p [= <-]|].
      eapply leaves_weaken; [|exact Hl]. done.
    + apply leaves_one. by intros p [=].
    + intros p -> dirs. unfold held_after. simpl. rewrite elem_of_hold_removed. naive_solver.
Qed.

Lemma logs_prepare sandbox source :
  logs (prepare (W := watched W) sandbox source) (λ t res,
    match res with
    | Ok session => Forall keeping t ∧ leaves (takes session) t
    | Err _ => leaves (unbound t) t
    end).
Proof.
  assert (Hnone : ∀ Q, leaves Q []) by (by intros Q dirs p; left).
  unfold prepare. eapply logs_bind; [apply logs_silent; makes| |by intros e t1 ->].
  intros mode t1 ->. destruct (bool_decide _ && _); [|by apply logs_ret].
  destruct (bool_decide _); [|by apply logs_throw]. cbn [app].
  unfold prepare_native, create_private_temp_dir, sandbox_io.
  eapply logs_bind with (L := λ t res,
    match res with
    | Ok n => Forall keeping t ∧ leaves (takes (NativeSession n fresh_native)) t
    | Err _ => leaves (unbound t) t
    end); [| |done].
  2:{ intros n t1 [Hk Hl]. apply logs_ret. by rewrite app_nil_r. }
  eapply logs_bind with (L := λ t res, Forall keeping t ∧
    match res with Ok dir => leaves (.= dir) t | Err _ => leaves (λ _, False) t end).
  { eapply logs_bind; [apply logs_silent; makes|intros base t1 ->; apply logs_try_temp_dirs|].
    by intros e t1 ->. }
  2:{ intros e t1 [_ Hl]. eapply leaves_weaken; [|exact Hl]. done. }
  intros dir t1 [Hk1 Hl1].
  eapply logs_bind; [reveal; apply logs_mapping, logs_noting| |].
  2:{ intros e t2 ([|e']&[=]&->). apply leaves_app.
      - eapply leaves_weaken; [|exact Hl1]. intros p ->. unfold unbound.
        apply elem_of_app. right. by apply list_elem_of_singleton.
      - apply leaves_one. by intros p [=]. }
  intros [] t2 ([[]|]&[=]&->).
  eapply logs_bind; [apply logs_catch, logs_create_leaf| |by intros e t2 (?&?&_)].
  intros cgroup t2 (res&[= ->]&Hres).
  assert (Hbound : leaves (.= dir) (t1 ++ [Bound (join dir "launcher.sock") true])).
  { apply leaves_app; [done|]. apply leaves_one. by intros p [=]. }
  destruct res as [leaf|e].
  - destruct Hres as [Hk2 Hl2]. apply logs_ret. rewrite app_nil_r. split.
    + apply Forall_app. split; [done|]. by constructor.
    + change (_ :: t2) with ([Bound (join dir "launcher.sock") true] ++ t2). rewrite app_assoc.
      apply leaves_app; eapply leaves_weaken; try eassumption; simpl; auto.
  - unfold cleanup_temp_dir, best_effort.
    assert (Hfreed : ∀ done, leaves (λ _, False)
      ((t1 ++ [Bound (join dir "launcher.sock") true]) ++ t2 ++ [RemovedTree dir done])).
    { intros done. apply (leaves_freed (.= dir)); [done| |].
      - apply leaves_app; [done|]. apply leaves_one. by intros p [=].
      - intros p -> dirs. unfold held_after. rewrite foldl_app. simpl.
        rewrite elem_of_hold_removed. naive_solver. }
    eapply logs_bind with (L := λ t _, ∃ done, t = [RemovedTree dir done]).
    { eapply logs_bind; [reveal; apply logs_catch, logs_noting| |by intros e' t3 (?&?&_)].
      intros removed t3 (?&_&->). apply logs_ret. rewrite app_nil_r. eauto. }
    + intros [] t3 [done ->]. apply logs_throw. rewrite app_nil_r.
      eapply leaves_weaken; [|generalize (Hfreed done); by rewrite <-!app_assoc]. done.
    + intros e' t3 [done ->]. eapply leaves_weaken; [|generalize (Hfreed done); by rewrite <-!app_assoc]. done.
Qed.

(** Using a session leaves it the same, and shutting it down frees what it
    holds. *)
Lemma logs_session_shutdown session :
  logs (E := TurnEnd) (with_session session (session_shutdown (W := watched W)))
    (λ t res, is_ok res = true ∧ leaves (λ _, False) t ∧ ∀ p, takes session p → frees p t).
Proof.
  intros w. destruct session as [|spec mode|n st].
  1,2: exists []; split; [by rewrite app_nil_r|]; split_and!; [done|by intros dirs p; left|by intros p []].
  unfold with_session, session_shutdown, in_native, native_shutdown, close_listener,
    remove_file_if_exists, delete_best_effort, cleanup_temp_dir, best_effort, Native.on_os, modify,
    catch, mbind, Run_bind, mret, Run_ret, noting. simpl. unfold noting.
  destruct (remove_file _ w.1) as [r1 w1]. simpl. destruct (remove_dir _ w1) as [r2 w2]. simpl.
  destruct (fs_remove_dir_all _ w2) as [r3 w3]. simpl.
  exists [RemovedFile (ls_socket_path n); RemovedDir (ls_cgroup n) (is_ok r2);
          RemovedTree (ls_temp_dir n) (is_ok r3)].
  split; [unfold log_of, watched_log; simpl; by rewrite <-!app_assoc|]. split_and!; [done| |].
  - intros dirs p. unfold held_after. simpl. rewrite !elem_of_hold_removed. naive_solver.
  - intros p Hp dirs. unfold held_after. simpl. rewrite !elem_of_hold_removed. simpl in Hp. naive_solver.
Qed.

Lemma with_session_takes {A E} session (c : Run (SandboxSession * W) SandboxError A) w res session' w' :
  (∀ n st w, takes (c (NativeSession n st, w)).2.1 = takes (NativeSession n st)) →
  (∀ session w, session = NoopSession ∨ (∃ spec mode, session = HostSandboxSession spec mode) →
     (c (session, w)).2.1 = session) →
  with_session (E := E) session c w = (Ok (res, session'), w') → takes session' = takes session.
Proof.
  intros Hn Hh. unfold with_session. destruct (c (session, w)) as [r [se w1]] eqn:Hc. intros [= <- <- <-].
  destruct session as [|spec mode|n st].
  - specialize (Hh NoopSession w). rewrite Hc in Hh. simpl in Hh. rewrite Hh by auto. done.
  - specialize (Hh (HostSandboxSession spec mode) w). rewrite Hc in Hh. simpl in Hh.
    rewrite Hh by eauto. done.
  - specialize (Hn n st w). by rewrite Hc in Hn.
Qed.
End sessions.

Section giving_back.
Context `{X : Extern} `{J : Json} {W : Type}.
Context `{HE : !HostEnv W} `{F : !Fs W} `{LL : !Landlock W} `{NO : !NativeOs W}
  `{CP : !ChildProcess W} `{TP : !TurnProcess W} `{LC : !LauncherCodec} `{DS : !DebugStr}.
Implicit Types (r : ShellRunner).

Lemma wrap_takes {E} session plan (w : watched W) res session' w' :
  with_session (E := E) session (session_wrap plan) w = (Ok (res, session'), w') →
  takes session' = takes session.
Proof.
  apply with_session_takes.
  - intros n st w1. unfold session_wrap, in_native. simpl. by destruct (native_wrap n plan (st, w1)) as [? []].
  - intros se w1 [->|(spec&mode&->)]; unfold session_wrap, in_host; simpl;
      [done|by destruct (host_wrap _ _ _ w1)].
Qed.

Lemma started_takes {E} session pid (w : watched W) res session' w' :
  with_session (E := E) session (session_child_started pid) w = (Ok (res, session'), w') →
  takes session' = takes session.
Proof.
  apply with_session_takes.
  - intros n st w1. unfold session_child_started, in_native. simpl.
    by destruct (native_child_started n pid (st, w1)) as [? []].
  - by intros se w1 [->|(spec&mode&->)].
Qed.

(** A method of a session in a turn: its calls, and a session that holds the
    same. *)
Lemma logs_session_op {A} P session (c : Run (SandboxSession * watched W) SandboxError A) :
  makes P c →
  (∀ w res session' w', with_session (E := TurnEnd) session c w = (Ok (res, session'), w') →
     takes session' = takes session) →
  logs (E := TurnEnd) (ShellRunner.on_os (with_session session c)) (λ t res,
    Forall P t ∧ ∃ a session', res = Ok (a, session') ∧ takes session' = takes session).
Proof.
  intros Hc Ht s. destruct (logs_os _ _ (logs_with_session (E := TurnEnd) session c _ Hc) s)
    as (t&Hlog&a&se&Hres&HP).
  exists t. split; [done|]. split; [done|]. exists a, se. split; [done|].
  unfold ShellRunner.on_os in Hres.
  destruct (with_session session c (sw_world s)) as [res w'] eqn:Hw. simpl in Hres. subst res.
  by eapply Ht.
Qed.

Lemma logs_shutdown_after_error session :
  logs (shutdown_after_error (W := watched W) session) (λ t res,
    res = Ok () ∧ leaves (λ _, False) t ∧ ∀ p, takes session p → frees p t).
Proof.
  unfold shutdown_after_error. eapply logs_bind; [apply logs_os, logs_session_shutdown| |].
  - intros [res se] t1 [_ Ht1]. apply logs_ret. by rewrite app_nil_r.
  - by intros e t1 [? _].
Qed.

(** The directories that may be left when a turn fails or ends. *)
Definition gives_back {A} (t : list OsCall) (res : result A TurnEnd) : Prop :=
  res = Err TurnDropped ∨ leaves (unbound t) t.

Lemma unbound_mono t1 t t2 p : unbound t p → unbound (t1 ++ t ++ t2) p.
Proof. unfold unbound. rewrite !elem_of_app. auto. Qed.

Lemma logs_command_for_session r workspace_path env source :
  logs (command_for_session (W := watched W) r workspace_path env source) (λ t res,
    match res with
    | Ok (_, session) => Forall keeping t ∧ leaves (takes session) t
    | Err e => e ≠ TurnDropped ∧ leaves (unbound t) t
    end).
Proof.
  assert (Hnone : ∀ Q, leaves Q []) by (by intros Q dirs p; left).
  unfold command_for_session, failing, fail.
  eapply logs_bind with (L := λ t res,
    match res with
    | Ok session => Forall keeping t ∧ leaves (takes session) t
    | Err e => e ≠ TurnDropped ∧ leaves (unbound t) t
    end); [| |done].
  { destruct (sn_sandbox r) as [sandbox|]; [|by apply logs_ret].
    eapply logs_weaken; [apply logs_os, logs_mapping, logs_prepare|].
    intros t res (res'&->&Hres). by destruct res'. }
  intros session t1 [Hk1 Hl1].
  eapply logs_bind; [apply (logs_session_op (λ _, False)); [apply makes_session_wrap|apply wrap_takes]| |].
  2:{ by intros e t2 (_&?&?&[=]&_). }
  intros [wrapped se] t2 [Ht2 (?&?&[= <- <-]&Hse)]. destruct t2; [|by apply Forall_cons in Ht2 as []].
  destruct wrapped as [wrapped|e].
  - apply logs_ret. rewrite !app_nil_r, Hse. done.
  - eapply logs_bind; [apply logs_shutdown_after_error| |by intros e' t3 ([=]&_)].
    intros [] t3 (_&Hl3&Hf3). apply logs_throw. rewrite !app_nil_r. split; [done|].
    eapply leaves_weaken; [|eapply leaves_freed; [exact Hl1|exact Hl3|]]; [done|].
    intros p Hp. apply Hf3. by rewrite Hse.
Qed.

(** *** Dropped turns *)

(** Only a child that has outlived its time is killed. *)
Definition killed_late (t : list OsCall) : Prop :=
  (∀ pid, Killed pid ∈ t → ∃ child, WaitedInVain child ∈ t).
Definition unless_error {A} (Φ : list OsCall → Prop) (t : list OsCall) (res : result A TurnEnd) : Prop :=
  match res with Err (TurnError _) => True | _ => Φ t end.

Lemma killed_late_app t1 t2 : killed_late t1 → killed_late t2 → killed_late (t1 ++ t2).
Proof.
  intros H1 H2 pid [Hp|Hp]%elem_of_app; [destruct (H1 _ Hp) as [c Hc]|destruct (H2 _ Hp) as [c Hc]];
    exists c; apply elem_of_app; auto.
Qed.

Lemma killed_late_bind {A B} (c : SM (W := watched W) A) (f : A → SM (W := watched W) B) :
  logs c (unless_error killed_late) → (∀ a, logs (f a) (unless_error killed_late)) →
  logs (c ≫= f) (unless_error killed_late).
Proof.
  intros Hc Hf. eapply logs_bind; [exact Hc| |].
  - intros a t1 H1. eapply logs_weaken; [apply Hf|]. intros t [b|[e|]]; simpl; try done;
      intros H2; by apply killed_late_app.
  - by intros [e|] t1.
Qed.
Lemma killed_late_none {A} (c : SM (W := watched W) A) :
  makes (λ call, ∀ pid, call ≠ Killed pid) c → logs c (unless_error killed_late).
Proof.
  intros Hc. eapply logs_weaken; [exact Hc|]. intros t res Ht.
  assert (killed_late t).
  { intros pid Hp. rewrite Forall_forall in Ht. by destruct (Ht _ Hp pid). }
  by destruct res as [|[]].
Qed.

Lemma drive_child_killed_late r id child prompt started :
  logs (drive_child (W := watched W) r id child prompt started) (unless_error killed_late).
Proof.
  unfold drive_child, asking.
  assert (Hpipe : ∀ stream command,
    logs (take_pipe (W := watched W) child stream command) (unless_error killed_late)).
  { intros stream command. unfold take_pipe, asking, fail.
    apply killed_late_bind; [apply killed_late_none; makes|intros []].
    - apply killed_late_none. makes.
    - eapply logs_bind with (L := λ t res, res ≠ Err TurnDropped).
      + unfold killing. eapply logs_weaken with (L := λ t res, ∃ res', res = map_err TurnError res').
        * eapply logs_weaken; [apply logs_mapping, (makes_kill_process_group (P := λ _, True)); done|].
          intros t res (res'&->&_). eauto.
        * by intros t res ([a|e]&->).
      + intros [] t1 _. by apply logs_throw.
      + by intros [e|] t1. }
  do 3 (apply killed_late_bind; [apply Hpipe|intros _]).
  apply killed_late_bind.
  - unfold wait_with_timeout, asking, failing, fail.
    apply killed_late_bind; [apply killed_late_none, makes_run_tasks|intros _].
    apply killed_late_bind; [apply killed_late_none, makes_await|intros _].
    eapply logs_bind with (L := λ t res, ∃ waited, res = Ok waited ∧
      t = match waited with None => [WaitedInVain child] | Some _ => [] end).
    + reveal. apply logs_os, logs_asided.
    + intros waited t1 (?&[= <-]&->). destruct waited as [[status|e]|].
      * apply killed_late_none. makes.
      * apply killed_late_none. makes.
      * eapply logs_weaken with (L := λ t _, Forall (λ _, True) t).
        { apply makes_bind; [apply makes_mapping, makes_kill_process_group; done|intros _].
          apply makes_bind; [apply makes_await|makes]. }
        intros t [a|[e|]]; simpl; try done; intros _ pid _; exists child; by left.
    + by intros e t1 (?&[=]&_).
  - intros status. do 3 (apply killed_late_bind; [apply killed_late_none, makes_join|intros _]).
    apply killed_late_bind; [apply killed_late_none; makes|intros now].
    apply killed_late_bind; [apply killed_late_none, makes_send|intros _].
    apply killed_late_none. makes.
Qed.
End giving_back.

(** ** How a turn ends *)

(** A turn that was dropped: its child was started, nothing the sandbox took
    was given back, and the child is not killed unless its time was over. *)
Record abandoned (t : list OsCall) : Prop := {
  child_started_before : ∃ command child, Spawned command (Some child) ∈ t;
  nothing_given_back : Forall keeping t;
  child_not_killed : killed_late t
}.

Section ending.
Context `{X : Extern} `{J : Json} {W : Type}.
Context `{HE : !HostEnv W} `{F : !Fs W} `{LL : !Landlock W} `{NO : !NativeOs W}
  `{CP : !ChildProcess W} `{TP : !TurnProcess W} `{LC : !LauncherCodec} `{DS : !DebugStr}.
Implicit Types (r : ShellRunner).

(** Calls that neither take nor give back a directory. *)
Definition neutral (call : OsCall) : Prop :=
  match call with Made _ _ | RemovedTree _ _ | RemovedDir _ _ => False | _ => True end.
Lemma neutral_leaves t : Forall neutral t → leaves (λ _, False) t ∧ Forall keeping t.
Proof.
  intros Ht. split.
  - apply leaves_Forall. eapply Forall_impl; [exact Ht|]. by intros [] ? ? [=].
  - eapply Forall_impl; [exact Ht|]. by intros [].
Qed.

(** Calls that hand the configuration over. *)
Definition handing (call : OsCall) : Prop :=
  match call with Wrote _ _ _ | Sent _ _ => True | _ => False end.
Lemma makes_child_started_handing pid : makes handing (session_child_started (W := watched W) pid).
Proof.
  apply makes_session. intros [|spec mode|session st].
  1,2: exists (in_host (mret ())); split; [done|makes].
  exists (in_native session st (native_child_started session pid)). split; [done|].
  unfold native_child_started, attach, write_cgroup_file, close_listener, set_config, take_listener,
    close_listener, sandbox_io. makes.
Qed.

(** *** The end of a turn that fails *)

(** What a turn has done when it fails: it holds at most its session. *)
Definition holding_only (session : SandboxSession) (t : list OsCall) : Prop := leaves (takes session) t.

Lemma holding_neutral session t1 t2 :
  holding_only session t1 → Forall neutral t2 → holding_only session (t1 ++ t2).
Proof.
  intros H1 [H2 _]%neutral_leaves. apply leaves_app; [done|]. by eapply leaves_weaken; [|exact H2].
Qed.

Lemma logs_fail_after {A} session (e : RunnerFailure) :
  logs (_ ← shutdown_after_error (W := watched W) session; fail (A := A) e) (λ t res,
    res = Err (TurnError e) ∧ ∀ t1, holding_only session t1 → leaves (λ _, False) (t1 ++ t)).
Proof.
  eapply logs_bind; [apply logs_shutdown_after_error| |by intros e' t ([=]&_)].
  intros [] t (_&Hl&Hf). apply logs_throw. rewrite app_nil_r. split; [done|]. intros t1 Ht1.
  by eapply leaves_freed.
Qed.

Lemma logs_kill_and_fail {A} session child command (e : RunnerFailure) :
  logs (_ ← kill_child_after_start_failure (W := watched W) child command;
        _ ← shutdown_after_error session; fail (A := A) e) (λ t res,
    res = Err (TurnError e) ∧ ∀ t1, holding_only session t1 → leaves (λ _, False) (t1 ++ t)).
Proof.
  unfold kill_child_after_start_failure.
  eapply logs_bind with (L := λ t res, res = Ok () ∧ Forall neutral t).
  - eapply logs_bind; [by apply logs_catch, (makes_kill_process_group (P := neutral))| |].
    + intros res t1 (?&_&Ht). apply logs_ret. by rewrite app_nil_r.
    + by intros e' t1 (?&[=]&_).
  - intros [] t1 [_ Ht1]. eapply logs_weaken; [apply logs_fail_after|]. intros t2 res [-> Hl].
    split; [done|]. intros t0 Ht0. rewrite app_assoc. apply Hl. by apply holding_neutral.
  - by intros e' t1 [[=] _].
Qed.

Lemma logs_finish {A} session (outcome : result A RunnerFailure) :
  logs (finish_sandbox_session (W := watched W) outcome session) (λ t res,
    res ≠ Err TurnDropped ∧ ∀ t1, holding_only session t1 → leaves (λ _, False) (t1 ++ t)).
Proof.
  unfold finish_sandbox_session, fail.
  eapply logs_bind; [apply logs_os, logs_session_shutdown| |by intros e t [[=] _]].
  intros [shutdown se] t (_&Hl&Hf).
  assert (Hend : ∀ t1, holding_only session t1 → leaves (λ _, False) (t1 ++ t ++ [])).
  { intros t1 Ht1. rewrite app_nil_r. by eapply leaves_freed. }
  destruct outcome, shutdown; apply (logs_lift (Ok _)) || apply (logs_lift (Err _)); by split.
Qed.

Lemma logs_await :
  logs (await_point (W := watched W)) (λ t res, t = [] ∧ (res = Ok () ∨ res = Err TurnDropped)).
Proof.
  intros s. exists []. unfold await_point, asking, ShellRunner.on_os, embed, mbind, Run_bind.
  reveal. unfold aside. destruct (tp_cancelled (sw_world s).1) as [[] w]; simpl;
    rewrite app_nil_r; auto.
Qed.

(** *** Every end of a turn *)

(** A turn that was dropped has abandoned its child; any other turn has given
    back everything but private directories whose socket could not be bound. *)
Definition ended {A} (t : list OsCall) (res : result A TurnEnd) : Prop :=
  match res with
  | Err TurnDropped => abandoned t
  | _ => leaves (unbound t) t
  end.

Lemma freed_ended {A} t (res : result A TurnEnd) :
  res ≠ Err TurnDropped → leaves (λ _, False) t → ended t res.
Proof.
  intros Hres Hl. assert (leaves (unbound t) t) by (by eapply leaves_weaken; [|exact Hl]).
  by destruct res as [|[]].
Qed.

Lemma logs_caught {A} (c : SM (W := watched W) A) (L : list OsCall → result A TurnEnd → Prop) :
  logs c L → logs (caught c) (λ t res,
    match res with
    | Ok (Ok a) => L t (Ok a)
    | Ok (Err e) => L t (Err (TurnError e))
    | Err e => e = TurnDropped ∧ L t (Err TurnDropped)
    end).
Proof.
  intros Hc s. destruct (Hc s) as (t&Ht&HL). exists t. unfold caught.
  by destruct (c s) as [[a|[e|]] s'].
Qed.

(** A child at work: its turn, its end, and a drop in between. *)
Lemma logs_work r id session child pid prompt started t0 command :
  Forall keeping t0 → holding_only session t0 → killed_late t0 →
  Spawned command (Some child) ∈ t0 →
  logs (
    _ ← await_point (W := watched W);
    hooked ← ShellRunner.on_os (with_session session (session_child_started pid));
    let '(hooked, session) := hooked in
    match hooked with
    | Err error =>
        _ ← kill_child_after_start_failure child (rs_command (sn_spec r));
        _ ← shutdown_after_error session;
        fail (RnSandbox error)
    | Ok _ =>
        outcome ← caught (drive_child r id child prompt started);
        finish_sandbox_session outcome session
    end) (λ t res, ended (t0 ++ t) res).
Proof.
  intros Hkeep Hhold Hlate Hspawned.
  eapply logs_bind; [apply logs_await| |intros e t1 [-> [[=]|[= ->]]]; rewrite app_nil_r; constructor; eauto].
  intros [] t1 [-> _]. cbn [app].
  eapply logs_bind; [apply (logs_session_op handing); [apply makes_child_started_handing|apply started_takes]| |].
  2:{ by intros e t1 (_&?&?&[=]&_). }
  intros [hooked se] t1 [Ht1 (?&?&[= <- <-]&Hse)].
  assert (Hn1 : Forall neutral t1) by (eapply Forall_impl; [exact Ht1|by intros []]).
  assert (Hhold1 : holding_only se (t0 ++ t1)).
  { unfold holding_only. rewrite Hse. by apply holding_neutral. }
  assert (Hlate1 : killed_late (t0 ++ t1)).
  { apply killed_late_app; [done|]. intros pid' Hp. rewrite Forall_forall in Ht1. by destruct (Ht1 _ Hp). }
  destruct hooked as [[]|e].
  2:{ eapply logs_weaken; [apply logs_kill_and_fail|]. intros t2 res [-> Hl]. rewrite app_assoc.
      apply freed_ended; [done|]. by apply Hl. }
  eapply logs_bind.
  { apply logs_caught, (logs_both _ _ _ (makes_drive_child r id child prompt started)
      (drive_child_killed_late r id child prompt started)). }
  - intros outcome t2 Ht2. assert (Hn2 : Forall neutral t2).
    { destruct outcome; (eapply Forall_impl; [exact (proj1 Ht2)|by intros []]). }
    eapply logs_weaken; [apply logs_finish|]. intros t3 res [Hres Hl].
    apply freed_ended; [done|]. rewrite !app_assoc. apply Hl. by apply holding_neutral.
  - intros e t2 (->&Hc&Hlate2). simpl in Hlate2. rewrite app_assoc. constructor.
    + exists command, child. rewrite !elem_of_app. auto.
    + apply Forall_app. split; [apply Forall_app; split; [done|by apply neutral_leaves]|].
      eapply Forall_impl; [exact Hc|by intros []].
    + by apply killed_late_app.
Qed.

Lemma logs_asking {A} (c : W → A * W) :
  logs (E := TurnEnd) (asking (aside c)) (λ t res, t = [] ∧ ∃ a, res = Ok a).
Proof.
  intros s. exists []. unfold asking, ShellRunner.on_os, embed, aside.
  destruct (c (sw_world s).1) as [a w]. simpl. rewrite app_nil_r. eauto.
Qed.

Lemma logs_spawn command :
  logs (E := TurnEnd) (ShellRunner.on_os (catch (ch_spawn (W := watched W) command)))
    (λ t res, ∃ child, res = Ok child ∧ t = [Spawned command (ok_value child)]).
Proof. apply logs_os. reveal. eapply logs_weaken; [apply logs_catch, logs_noting|]. naive_solver. Qed.

Lemma run_child_ends r sess prompt env source :
  logs (run_child (W := watched W) r sess prompt env source) ended.
Proof.
  unfold run_child. eapply logs_bind; [reveal; apply logs_asking| |by intros e t (_&?&[=])].
  intros started t [-> _]. cbn [app].
  eapply logs_bind; [apply (logs_both _ _ _ (logs_command_for_session _ _ _ _)
      (makes_command_for_session _ _ _ _))| |by intros [e|] t [[]]].
  intros [command session] t0 [[Hkeep Hhold] Hcalls].
  eapply logs_bind; [apply logs_spawn| |by intros e t (?&[=]&_)].
  intros child t (?&[= <-]&->).
  assert (Hsilent : ∀ c, neutral (Spawned command c)) by done.
  assert (Hhold1 : ∀ c, holding_only session (t0 ++ [Spawned command c])).
  { intros c. apply holding_neutral; [done|]. by apply Forall_singleton. }
  destruct child as [child|e]; simpl.
  2:{ eapply logs_weaken; [apply logs_fail_after|]. intros t res [-> Hl]. rewrite cons_middle, app_assoc.
      apply freed_ended; [done|]. by apply Hl. }
  eapply logs_bind; [apply logs_asking| |by intros e t (_&?&[=])].
  intros child_pid t [-> _]. cbn [app]. destruct child_pid as [pid|].
  - eapply logs_weaken; [apply (logs_work r (sh_id sess) session child pid prompt started
      (t0 ++ [Spawned command (Some child)]) command)|..].
    + apply Forall_app. split; [done|]. by apply Forall_singleton.
    + apply Hhold1.
    + intros pid' Hp. apply elem_of_app in Hp as [Hp|Hp]; [|by apply list_elem_of_singleton in Hp].
      rewrite Forall_forall in Hcalls. by destruct (Hcalls _ Hp).
    + apply elem_of_app. right. by apply list_elem_of_singleton.
    + intros t res Ht. by rewrite cons_middle, app_assoc.
  - eapply logs_weaken; [apply logs_kill_and_fail|]. intros t res [-> Hl].
    apply freed_ended; [done|]. rewrite cons_middle, app_assoc. by apply Hl.
Qed.
End ending.

(** ** The guarantees of a turn *)

Section guarantees.
Context `{X : Extern} `{J : Json} {W : Type}.
Context `{HE : !HostEnv W} `{F : !Fs W} `{LL : !Landlock W} `{NO : !NativeOs W}
  `{CP : !ChildProcess W} `{TP : !TurnProcess W} `{LC : !LauncherCodec} `{DS : !DebugStr}.
Implicit Types (r : ShellRunner).

Lemma makes_session_parts P id : makes P (session_parts (W := watched W) id).
Proof. unfold session_parts. makes. Qed.

Lemma run_turn_ends r sess prompt : logs (run_turn (W := watched W) r sess prompt) ended.
Proof.
  assert (Hnone : ∀ Q, leaves Q []) by (by intros Q dirs p; left).
  assert (Hundropped : ∀ {A} (c : SM (W := watched W) A), makes (λ _, False) c →
    (∀ s s', c s ≠ (Err TurnDropped, s')) → logs c (λ t res, t = [] ∧ res ≠ Err TurnDropped)).
  { intros A c Hc Hd s. destruct (logs_silent _ Hc s) as (t&Ht&->). exists []. split_and!; [done..|].
    specialize (Hd s (c s).2). destruct (c s) as [res s']. simpl in *. congruence. }
  unfold run_turn. eapply logs_bind.
  { apply Hundropped; [apply makes_session_parts|]. intros s s'.
    unfold session_parts, gets, lift_result, mbind, Run_bind. by destruct (_ !! _). }
  2:{ intros [e|] t [-> ?]; [apply Hnone|done]. }
  intros session t [-> _]. cbn [app].
  eapply logs_bind; [apply run_child_ends| |by intros [e|] t]. intros [outcome duration] t Ht.
  eapply logs_bind.
  { apply Hundropped; [apply makes_set_last_usage|]. intros s s'.
    unfold set_last_usage, gets, lift_result, modify, mbind, Run_bind. by destruct (_ !! _). }
  - intros [] t' [-> _]. apply logs_ret. by rewrite !app_nil_r.
  - intros [e|] t' [-> ?]; [by rewrite app_nil_r|done].
Qed.

(** C32 Work that comes from the network, and any work of a runner whose
    sandbox fails closed, is started only inside the sandbox: every process
    such a turn spawns has a command line that puts the configured command,
    with its arguments, behind the tool of the sandbox's backend, with the
    options the profile, the allowed hosts and the denied paths call for and
    the resource limits of the platform; or it is the daemon's own executable
    as a launcher that waits on a socket, and what a launcher is sent there is
    a configuration that runs the command, with no network unless the
    specification opens it and nothing writable but the workspace.  It starts
    in the session's workspace and has the session's environment; the source
    and the environment are those the session was started with. *)
Theorem network_work_confined spec given (w w' : watched W) r ctx (s1 s2 : shell (watched W)) sess :
  rs_sandbox spec = Some given → new_shell_runner spec w = (Ok r, w') →
  must_confine given (sc_issue_source ctx) →
  start_session r ctx s1 = (Ok sess, s2) →
  (∃ session, sw_sessions s2 !! sh_id sess = Some session ∧
     st_issue_source session = sc_issue_source ctx ∧ build_child_env spec ctx = Ok (st_env session)) ∧
  ∃ sandbox, resolved_spec given sandbox ∧
  ∀ prompt session (s : shell (watched W)),
    sw_sessions s !! sh_id sess = Some session → st_issue_source session = sc_issue_source ctx →
    let plan := turn_plan spec (sc_workspace_path ctx) (st_env session) in
    ∃ t socket, log_of (run_turn r sess prompt s).2 = log_of s ++ t ∧
      (∀ command child, Spawned command child ∈ t → confined_command sandbox plan socket command) ∧
      (∀ p payload, Sent p payload ∈ t → configuration_sent sandbox plan socket p payload).
Proof.
  intros Hs Hnew Hmust Hstart.
  destruct (new_shell_runner_resolves (W := watched W) _ _ _ _ _ Hnew Hs) as (Hspec&sandbox&Hr&Hresolved).
  destruct (start_session_registers _ _ _ _ _ Hstart) as (Hpath&Hsession). rewrite Hspec in Hsession.
  split; [done|]. exists (hx_spec sandbox). split; [done|]. intros prompt session s Hlookup Hsource plan.
  destruct Hresolved as (secrets&backend&Hsame&_&Hauto&_).
  assert (Hconfine : must_confine (hx_spec sandbox) (st_issue_source session)).
  { rewrite Hsource. unfold must_confine in *. by rewrite Hsame. }
  unfold run_turn, session_parts, gets, lift_result, mbind, Run_bind. rewrite Hlookup. simpl.
  pose proof (run_child_handed r sess prompt (st_env session) (st_issue_source session) sandbox Hr) as Hchild.
  rewrite Hspec, Hpath in Hchild. fold plan in Hchild.
  destruct (logs_bind _ (λ outcome, _ ← set_last_usage (sh_id sess) outcome.2; mret outcome.1) _
    (λ t _, ∃ socket, Forall (handed (hx_spec sandbox) plan socket) t) (Hchild ltac:(by rewrite Hsame) Hconfine))
    with (s := s) as (t&Ht&socket&Hhanded).
  - intros outcome t1 [socket Ht1].
    eapply logs_weaken; [apply (makes_bind (handed (hx_spec sandbox) plan socket));
      [apply makes_set_last_usage|makes]|].
    intros t2 res Ht2. exists socket. by apply Forall_app.
  - done.
  - exists t, socket. split; [exact Ht|]. rewrite Forall_forall in Hhanded.
    split; [intros command child Hin|intros p payload Hin]; exact (Hhanded _ Hin).
Qed.

(** C34 A turn that is not dropped gives back what the sandbox took: every
    private directory and control group it creates is gone at its end, whatever
    fails, but for one whose removal was tried and the operating system
    refused, and a private directory in which the launcher's socket could not
    be bound, which nobody removes. *)
Theorem turn_gives_back r sess prompt :
  logs (run_turn (W := watched W) r sess prompt) (λ t res,
    res ≠ Err TurnDropped → ∀ p, p ∈ held t →
    RemovedTree p false ∈ t ∨ RemovedDir p false ∈ t ∨ Bound (join p "launcher.sock") false ∈ t).
Proof.
  eapply logs_weaken; [apply run_turn_ends|]. intros t res Hend Hres p Hp.
  assert (Hl : leaves (unbound t) t) by (by destruct res as [|[]]).
  destruct (held_pending t [] [] p) as [Hpending|[|]]; [by auto|done| |by auto..].
  destruct (Hl [] p Hpending) as [?%elem_of_nil|]; [done|by auto].
Qed.

(** C35 A turn that is dropped because the daemon shuts down abandons its
    child: it has started one, it removes nothing the sandbox took, and does
    not even try to, and it
    kills no process unless the child has outlived the turn's time limit. *)
Theorem dropped_turn_abandons_child r sess prompt :
  logs (run_turn (W := watched W) r sess prompt) (λ t res,
    res = Err TurnDropped →
    (∃ command child, Spawned command (Some child) ∈ t) ∧
    (∀ p, Made p true ∈ t → p ∈ held t) ∧
    (∀ p done, (RemovedTree p done ∉ t) ∧ (RemovedDir p done ∉ t)) ∧
    (∀ pid, Killed pid ∈ t → ∃ child, WaitedInVain child ∈ t)).
Proof.
  eapply logs_weaken; [apply run_turn_ends|]. intros t res Hend ->. destruct Hend as [Hstart Hkeep Hlate].
  rewrite Forall_forall in Hkeep. split_and!; [done| | |done].
  - intros p Hp. apply keeping_holds; [by apply Forall_forall|auto].
  - intros p done. by split; intros Hin; apply Hkeep in Hin.
Qed.
End guarantees.
