(* ===== verification/Manager.v ===== *)
(** * The workspace manager (manager.rs and error.rs of the workspace crate)

    Workspaces are direct children of a canonical root, named by their issue.
    Every operation is over the file system of [Files] and the processes of
    [HookProcess], whatever these answer. *)

From S2P Require Import Prelude Wire Identity Core Effects Text Files Containment Store Claims.
From S2P Require Import Approvals Ports.

Definition DEFAULT_HOOK_OUTPUT_LIMIT_BYTES : N := 64 * 1024.
Definition HOOK_OUTPUT_TIMEOUT_DRAIN_MS : N := 1000.
Definition BASH_PATH : string := "/bin/bash".
Definition ORPHAN_QUARANTINE_DIR : string := ".orphaned".
Definition MAX_HOOK_ENV_NAME_BYTES : N := 255.
(** 0o700 *)
Definition WORKSPACE_DIR_MODE : N := 448.

(** ** Errors *)

(** [Error] of error.rs. *)
Inductive WsError :=
  | ContainmentFailed (e : ContainmentError)
  | NotDirectory (p : path)
  | CreateRoot (p : path) (source : IoError)
  | CreateDirFailed (p : path) (source : IoError)
  | SetPermissionsFailed (p : path) (source : IoError)
  | CreateQuarantineDir (p : path) (source : IoError)
  | ReadDirFailed (p : path) (source : IoError)
  | ReadDirEntry (p : path) (source : IoError)
  | WsMetadata (p : path) (source : IoError)
  | RemoveDir (p : path) (source : IoError)
  | MoveDir (from to : path) (source : IoError)
  | InvalidQuarantinePath (p : path) (reason : string)
  | InvalidHookEnv (name reason : string)
  | SensitiveHookEnvDenied (name : string)
  | DangerousHookEnvDenied (name : string)
  | HookSpawn (hook : string) (source : IoError)
  | HookWait (hook : string) (source : IoError)
  | HookPipeMissing (hook stream : string)
  | HookOutputRead (stream : string) (source : IoError)
  | HookOutputJoin (stream message : string).

Section show.
Context `{Dbg : DebugStr}.

Definition at_path (what : string) (p : path) (source : IoError) : string :=
  what +:+ " " +:+ p +:+ ": " +:+ io_text source.

Definition show_ws (e : WsError) : string :=
  match e with
  | ContainmentFailed e => show_containment e
  | NotDirectory p => "workspace path is not a directory: " +:+ p
  | CreateRoot p source => at_path "failed to create workspace root" p source
  | CreateDirFailed p source => at_path "failed to create workspace directory" p source
  | SetPermissionsFailed p source => at_path "failed to set owner-only permissions on" p source
  | CreateQuarantineDir p source => at_path "failed to create orphan quarantine directory" p source
  | ReadDirFailed p source => at_path "failed to read workspace root" p source
  | ReadDirEntry p source => at_path "failed to read workspace root entry under" p source
  | WsMetadata p source => at_path "failed to read workspace metadata" p source
  | RemoveDir p source => at_path "failed to remove workspace directory" p source
  | MoveDir from to source =>
      "failed to move workspace directory " +:+ from +:+ " to quarantine " +:+ to +:+ ": " +:+
      io_text source
  | InvalidQuarantinePath p reason => "invalid orphan quarantine path " +:+ p +:+ ": " +:+ reason
  | InvalidHookEnv name reason =>
      "invalid hook environment variable " +:+ debug_str name +:+ ": " +:+ reason
  | SensitiveHookEnvDenied name =>
      "hook environment variable " +:+ debug_str name +:+ " matches the sensitive deny-list"
  | DangerousHookEnvDenied name =>
      "hook environment variable " +:+ debug_str name +:+ " is a dangerous shell/linker variable"
  | HookSpawn hook source => "failed to spawn hook " +:+ hook +:+ ": " +:+ io_text source
  | HookWait hook source => "failed to wait for hook " +:+ hook +:+ ": " +:+ io_text source
  | HookPipeMissing hook stream => "hook " +:+ hook +:+ " did not expose its " +:+ stream +:+ " pipe"
  | HookOutputRead stream source => "failed to read hook " +:+ stream +:+ ": " +:+ io_text source
  | HookOutputJoin stream message => "hook " +:+ stream +:+ " reader task failed: " +:+ message
  end.

Definition into_core {T} (e : WsError) : SymphonyError T := WorkspaceError (show_ws e).
End show.

(** ** Configuration *)

(** [Config], with the prefix [mc_]. *)
Record ManagerConfig := {
  mc_root : path;
  mc_sensitive_env_allowlist : gset string;
  mc_hook_output_limit_bytes : N
}.

Definition new_manager_config (root : path) : ManagerConfig := {|
  mc_root := root; mc_sensitive_env_allowlist := ∅;
  mc_hook_output_limit_bytes := DEFAULT_HOOK_OUTPUT_LIMIT_BYTES |}.
Definition with_sensitive_env (c : ManagerConfig) (name : string) : ManagerConfig := {|
  mc_root := mc_root c; mc_sensitive_env_allowlist := {[name]} ∪ mc_sensitive_env_allowlist c;
  mc_hook_output_limit_bytes := mc_hook_output_limit_bytes c |}.
Definition with_hook_output_limit_bytes (c : ManagerConfig) (limit : N) : ManagerConfig := {|
  mc_root := mc_root c; mc_sensitive_env_allowlist := mc_sensitive_env_allowlist c;
  mc_hook_output_limit_bytes := limit |}.

Inductive CleanupDecision := PreservedRetry | AlreadyAbsent | Removed.

Record Manager := { mg_config : ManagerConfig; mg_root : path }.

(** ** The environment of a hook *)

Definition is_env_first (c : ascii) : bool :=
  in_byte_range 65 90 c || in_byte_range 97 122 c || bool_decide (c = "_"%char).
Definition is_env_rest (c : ascii) : bool := is_env_first c || is_ascii_digit c.

Definition validate_env_name (name : string) : result () WsError :=
  let invalid reason := InvalidHookEnv name reason in
  bail (invalid "name must not be empty") when bool_decide (name = "");
  bail (invalid "name must be at most 255 bytes") when (MAX_HOOK_ENV_NAME_BYTES <? blen name)%N;
  bail (invalid "name must not contain NUL") when contains_char (ascii_of_N 0) name;
  match name with
  | EmptyString => Err (invalid "name must not be empty")
  | String first rest =>
      bail (invalid "name must start with ASCII letter or underscore")
        when negb (is_env_first first);
      bail (invalid "name must contain only ASCII letters, digits, or underscore")
        when negb (str_all is_env_rest rest);
      Ok ()
  end.

(** Why a byte may not stand in a value. *)
Definition bad_value_byte (c : ascii) : option string :=
  let n := N_of_ascii c in
  if (n =? 0)%N then Some "value must not contain NUL"
  else if (n =? 10)%N then Some "value must not contain newline"
  else if (n =? 13)%N then Some "value must not contain carriage return"
  else if ((n <=? 8) || (n =? 11) || (n =? 12) || (14 <=? n) && (n <=? 31))%N
  then Some "value must not contain ASCII control bytes other than tab"
  else None.

Fixpoint validate_env_value (name value : string) : result () WsError :=
  match value with
  | EmptyString => Ok ()
  | String c rest =>
      match bad_value_byte c with
      | Some reason => Err (InvalidHookEnv name reason)
      | None => validate_env_value name rest
      end
  end.

Definition is_sensitive_env_name (name : string) : bool :=
  let uppercase := to_ascii_uppercase name in
  ends_with "_TOKEN" uppercase || ends_with "_KEY" uppercase || ends_with "_SECRET" uppercase.

Definition DANGEROUS : list string :=
  ["BASH_ENV"; "ENV"; "SHELLOPTS"; "CDPATH"; "LD_PRELOAD"; "LD_LIBRARY_PATH"].
Definition is_dangerous_env_name (name : string) : bool :=
  bool_decide (to_ascii_uppercase name ∈ DANGEROUS).

Definition admit_var (allow : gset string) (name value : string) : result () WsError :=
  let? _ := validate_env_name name in
  let? _ := validate_env_value name value in
  bail (SensitiveHookEnvDenied name)
    when is_sensitive_env_name name && negb (bool_decide (name ∈ allow));
  bail (DangerousHookEnvDenied name) when is_dangerous_env_name name;
  Ok ().

(** The loop of [build_hook_env]. *)
Fixpoint admit_vars (allow : gset string) (vars : list (string * string))
    (acc : gmap string string) : result (gmap string string) WsError :=
  match vars with
  | [] => Ok acc
  | (name, value) :: rest =>
      let? _ := admit_var allow name value in
      admit_vars allow rest (<[name := value]> acc)
  end.
Definition build_hook_env (m : Manager) (env : HookEnv) : result (gmap string string) WsError :=
  admit_vars (mc_sensitive_env_allowlist (mg_config m)) (btree_iter env) ∅.

(** ** The output of a hook *)

Record CapturedOutput := { co_text : string; co_truncated : bool }.

Definition TRUNCATED : string := String NL ("[hook output truncated]" +:+ String NL "").

Definition from_bytes (b : bytes) (truncated : bool) : CapturedOutput :=
  let text := from_utf8_lossy b in
  {| co_text := if truncated then text +:+ TRUNCATED else text; co_truncated := truncated |}.
Definition aborted_after_timeout : CapturedOutput := {|
  co_text := "[hook output collection aborted after timeout]" +:+ String NL "";
  co_truncated := true |}.
Definition into_option (o : CapturedOutput) : option string :=
  if bool_decide (co_text o = "") && negb (co_truncated o) then None else Some (co_text o).

(** The loop of [read_limited] over the chunks read before the end. *)
Fixpoint read_chunks (limit : N) (chunks : list bytes) (output : bytes) (truncated : bool)
    : bytes * bool :=
  match chunks with
  | [] => (output, truncated)
  | chunk :: rest =>
      let remaining := (limit - blen output)%N in
      if (remaining =? 0)%N then read_chunks limit rest output true
      else
        let to_copy := N.min remaining (blen chunk) in
        read_chunks limit rest (output +:+ String.substring 0 (N.to_nat to_copy) chunk)
          (if (to_copy <? blen chunk)%N then true else truncated)
  end.
Definition read_limited (chunks : list bytes) (limit : N) : CapturedOutput :=
  let '(output, truncated) := read_chunks limit chunks "" false in from_bytes output truncated.

(** ** Hook processes *)

Section process.
Context {W : Type} `{P : HookProcess W}.

Definition kill_process_group (child : N) : Run W string unit :=
  id ← embed (hp_id child);
  match id with
  | None => mret ()
  | Some id =>
      if in_i32 (Z.of_N id) then hp_kill (- Z.of_N id)
      else throw "child id does not fit process id: out of range integral type conversion attempted"
  end.

Definition decode_output_join (limit : N) (joined : Joined) (stream : string)
    : result CapturedOutput WsError :=
  match joined with
  | ReaderEnded chunks => Ok (read_limited chunks limit)
  | ReaderFailed source => Err (HookOutputRead stream source)
  | TaskFailed message => Err (HookOutputJoin stream message)
  | StillRunning => Ok aborted_after_timeout
  end.

Definition finish_output_task (limit child : N) (stream : string) (timed_out : bool)
    : Run W WsError CapturedOutput :=
  let drain := if timed_out then Some HOOK_OUTPUT_TIMEOUT_DRAIN_MS else None in
  joined ← embed (hp_join child stream drain);
  _ ← match joined with StillRunning => embed (hp_abort child stream) | _ => mret () end;
  lift_result (decode_output_join limit joined stream).

Definition require_pipe (child : N) (hook_name stream : string) : Run W WsError unit :=
  there ← embed (hp_pipe child stream);
  if (there : bool) then mret () else throw (HookPipeMissing hook_name stream).

Definition run_hook_in_dir (m : Manager) (workdir : path) (h : Hook) (env : HookEnv)
    : Run W WsError HookOutcome :=
  env ← lift_result (build_hook_env m env);
  let hook_name := hook_name_str (hk_name h) in
  child ← mapping_err (HookSpawn hook_name) (hp_spawn {|
    hc_program := BASH_PATH; hc_args := ["-e"; "-u"; "-o"; "pipefail"; "-c"; hk_script h];
    hc_current_dir := workdir; hc_envs := env |});
  _ ← require_pipe child hook_name "stdout";
  _ ← require_pipe child hook_name "stderr";
  wait_result ← embed (hp_wait_timeout child (hk_timeout_ms h));
  status ←
    match wait_result with
    | Some (Ok status) => mret (Some status)
    | Some (Err source) => throw (HookWait hook_name source)
    | None =>
        _ ← catch (kill_process_group child);
        _ ← catch (hp_wait child);
        mret None
    end;
  let timed_out := bool_decide (status = None) in
  let limit := mc_hook_output_limit_bytes (mg_config m) in
  stdout ← finish_output_task limit child "stdout" timed_out;
  stderr ← finish_output_task limit child "stderr" timed_out;
  mret {|
    hko_status := match status with
                  | None => HookTimedOut
                  | Some status => if success status then HookSucceeded else HookFailed
                  end;
    hko_exit_code := status ≫= id;
    hko_stdout := into_option stdout; hko_stderr := into_option stderr |}.
End process.

(** ** Operations *)

Section manager.
Context `{X : Extern} `{J : Json}.
Context {W : Type} `{F : Fs W} `{P : HookProcess W} `{Dbg : DebugStr}.

Definition contained {A} (c : Run W ContainmentError A) : Run W WsError A :=
  mapping_err ContainmentFailed c.

Definition set_private_dir_permissions (p : path) : Run W WsError unit :=
  mapping_err (SetPermissionsFailed p) (fs_set_permissions WORKSPACE_DIR_MODE p).

Definition ensure_workspace_root (p : path) : Run W WsError unit :=
  existed ← catch (fs_symlink_metadata p);
  _ ← mapping_err (CreateRoot p) (fs_create_dir_all (Some WORKSPACE_DIR_MODE) p);
  if is_ok existed then mret () else set_private_dir_permissions p.

(** [Manager::new]; the warning about broad permissions is only logged. *)
Definition new_manager (config : ManagerConfig) : Run W WsError Manager :=
  _ ← ensure_workspace_root (mc_root config);
  root ← contained (canonicalize_root (mc_root config));
  mret {| mg_config := config; mg_root := root |}.

Definition issue_path (m : Manager) (identifier : string) : result path WsError :=
  let? sanitized := map_err ContainmentFailed (sanitize_issue_identifier identifier) in
  Ok (deterministic_path (mg_root m) sanitized).

Definition validate_existing_directory (m : Manager) (p : path) : Run W WsError path :=
  canonical ← contained (validate_existing_workspace_path (mg_root m) p);
  metadata ← mapping_err (WsMetadata canonical) (fs_metadata canonical);
  if bool_decide (metadata ≠ KDir) then throw (NotDirectory canonical) else mret canonical.

Definition validate_handle (m : Manager) (handle : WorkspaceHandle) : Run W WsError path :=
  validate_existing_directory m (wh_path handle).

Definition create_or_reuse_directory (m : Manager) (p : path) : Run W WsError (bool * path) :=
  found ← catch (fs_symlink_metadata p);
  match found with
  | Ok _ => canonical ← validate_existing_directory m p; mret (false, canonical)
  | Err source =>
      if bool_decide (io_kind source = IoNotFound) then
        created ← catch (fs_create_dir (Some WORKSPACE_DIR_MODE) p);
        match created with
        | Ok _ =>
            _ ← set_private_dir_permissions p;
            canonical ← validate_existing_directory m p;
            mret (true, canonical)
        | Err create_source =>
            if bool_decide (io_kind create_source = IoAlreadyExists) then
              canonical ← validate_existing_directory m p; mret (false, canonical)
            else throw (CreateDirFailed p create_source)
        end
      else throw (WsMetadata p source)
  end.

Definition create_for_issue (m : Manager) (issue : Issue) : Run W WsError WorkspaceHandle :=
  p ← lift_result (issue_path m (iss_identifier issue));
  r ← create_or_reuse_directory m p;
  mret {| wh_issue_id := iss_id issue; wh_path := r.2; wh_created_now := r.1 |}.

Definition run_hook_in (m : Manager) (handle : WorkspaceHandle) (h : Hook) (env : HookEnv)
    : Run W WsError HookOutcome :=
  workdir ← validate_handle m handle;
  outcome ← run_hook_in_dir m workdir h env;
  _ ← validate_handle m handle;
  mret outcome.

Definition run_hook_at_root (m : Manager) (h : Hook) (env : HookEnv) : Run W WsError HookOutcome :=
  run_hook_in_dir m (mg_root m) h env.

Definition destroy_workspace (m : Manager) (handle : WorkspaceHandle)
    : Run W WsError CleanupDecision :=
  found ← catch (fs_symlink_metadata (wh_path handle));
  match found with
  | Ok _ =>
      canonical ← validate_handle m handle;
      _ ← mapping_err (RemoveDir canonical) (fs_remove_dir_all canonical);
      mret Removed
  | Err source =>
      if bool_decide (io_kind source = IoNotFound) then mret AlreadyAbsent
      else throw (WsMetadata (wh_path handle) source)
  end.

Definition destroy_if_terminal (m : Manager) (handle : WorkspaceHandle) (state : string)
    (terminal_states : list string) : Run W WsError CleanupDecision :=
  if bool_decide (state ∈ terminal_states) then destroy_workspace m handle
  else mret PreservedRetry.

(** *** Scanning *)

(** The order of paths is the order of their components; the names of a path
    hold no NUL, so the components joined by NUL compare the same way. *)
Definition component_key (c : Component) : string :=
  match c with
  | RootDir => str_char 1 | CurDir => str_char 2 | ParentDir => str_char 3
  | Normal name => str_char 4 +:+ name
  end.
Definition path_key (p : path) : string :=
  str_join (str_char 0) (component_key <$> components p).

Definition handle_key (h : WorkspaceHandle) : string * string :=
  (wh_issue_id h, path_key (wh_path h)).
Definition refused_key (r : RefusedWorkspace) : string * string :=
  (rw_issue_id r, path_key (rw_path r)).

Definition push_workspace (h : WorkspaceHandle) (scan : WorkspaceScan) : WorkspaceScan :=
  {| ws_workspaces := ws_workspaces scan ++ [h]; ws_refused := ws_refused scan |}.
Definition push_refused (issue_id : string) (p : path) (reason : string) (scan : WorkspaceScan)
    : WorkspaceScan :=
  {| ws_workspaces := ws_workspaces scan;
     ws_refused := ws_refused scan ++ [{| rw_issue_id := issue_id; rw_path := p; rw_reason := reason |}] |}.

(** One round of the loop over the entries. *)
Definition scan_entry (m : Manager) (scan : WorkspaceScan) (entry : result string IoError)
    : Run W WsError WorkspaceScan :=
  match entry with
  | Err source =>
      mret (push_refused "(read_dir_entry)" (mg_root m)
              (show_ws (ReadDirEntry (mg_root m) source)) scan)
  | Ok file =>
      let p := join (mg_root m) file in
      match to_str file with
      | None =>
          mret (push_refused (from_utf8_lossy file) p "workspace name is not valid UTF-8" scan)
      | Some name =>
          if bool_decide (name = ORPHAN_QUARANTINE_DIR) then mret scan
          else
            match sanitize_issue_identifier name with
            | Err error => mret (push_refused name p (show_containment error) scan)
            | Ok sanitized =>
                match new_issue_id (T := string) sanitized with
                | Err error => mret (push_refused sanitized p (show_symphony id error) scan)
                | Ok issue_id =>
                    r ← catch (validate_existing_directory m p);
                    mret match r with
                         | Ok canonical =>
                             push_workspace {| wh_issue_id := issue_id; wh_path := canonical;
                                               wh_created_now := false |} scan
                         | Err error => push_refused issue_id p (show_ws error) scan
                         end
                end
            end
      end
  end.

Fixpoint scan_entries (m : Manager) (entries : list (result string IoError))
    (scan : WorkspaceScan) : Run W WsError WorkspaceScan :=
  match entries with
  | [] => mret scan
  | entry :: rest => scan ← scan_entry m scan entry; scan_entries m rest scan
  end.

Definition list_workspace_directories (m : Manager) : Run W WsError WorkspaceScan :=
  entries ← mapping_err (ReadDirFailed (mg_root m)) (fs_read_dir (mg_root m));
  scan ← scan_entries m entries {| ws_workspaces := []; ws_refused := [] |};
  mret {| ws_workspaces := sort_by handle_key (ws_workspaces scan);
          ws_refused := sort_by refused_key (ws_refused scan) |}.

(** *** Quarantine *)

Definition file_name_utf8 (p : path) : result string WsError :=
  ok_or (file_name p ≫= to_str) (InvalidQuarantinePath p "path has no UTF-8 file name").

Definition validate_existing_quarantine_child (m : Manager) (expected_parent p : path)
    (expected_name : string) : Run W WsError path :=
  if negb (is_absolute expected_parent) || negb (is_absolute p) then
    throw (InvalidQuarantinePath p "quarantine path is not absolute")
  else
    canonical_parent ← mapping_err (WsMetadata expected_parent) (fs_canonicalize expected_parent);
    canonical ← mapping_err (WsMetadata p) (fs_canonicalize p);
    if negb (path_starts_with canonical (mg_root m)) then
      throw (InvalidQuarantinePath canonical "quarantine path escapes workspace root")
    else if bool_decide (parent_components canonical ≠ Some (components canonical_parent)) then
      throw (InvalidQuarantinePath canonical "quarantine path has unexpected parent")
    else
      resolved_name ← lift_result (file_name_utf8 canonical);
      if bool_decide (resolved_name ≠ expected_name) then
        throw (InvalidQuarantinePath canonical "quarantine path resolved name mismatch")
      else
        metadata ← mapping_err (WsMetadata canonical) (fs_metadata canonical);
        if bool_decide (metadata ≠ KDir) then
          throw (InvalidQuarantinePath canonical "quarantine path is not a directory")
        else mret canonical.

Definition ensure_quarantine_dir (m : Manager) (p expected_parent : path) (expected_name : string)
    (containment_reason : string) : Run W WsError path :=
  found ← catch (fs_symlink_metadata p);
  _ ← match found with
      | Ok kind =>
          if bool_decide (kind ≠ KDir) then
            throw (InvalidQuarantinePath p "quarantine path is not a real directory")
          else mret ()
      | Err source =>
          if bool_decide (io_kind source = IoNotFound) then
            created ← catch (fs_create_dir None p);
            match created with
            | Err create_source =>
                if bool_decide (io_kind create_source ≠ IoAlreadyExists) then
                  throw (CreateQuarantineDir p create_source)
                else mret ()
            | Ok _ => mret ()
            end
          else throw (WsMetadata p source)
      end;
  mapping_err (λ e, match e with
                    | InvalidQuarantinePath p _ => InvalidQuarantinePath p containment_reason
                    | other => other
                    end)
    (validate_existing_quarantine_child m expected_parent p expected_name).

Definition prepare_quarantine_dir (m : Manager) (quarantine_namespace : string)
    : Run W WsError path :=
  namespace ← lift_result (map_err ContainmentFailed (sanitize_issue_identifier quarantine_namespace));
  orphan_root ← ensure_quarantine_dir m (join (mg_root m) ORPHAN_QUARANTINE_DIR) (mg_root m)
    ORPHAN_QUARANTINE_DIR "orphan quarantine root must remain a direct child of workspace root";
  ensure_quarantine_dir m (join orphan_root namespace) orphan_root namespace
    "orphan quarantine namespace must remain under quarantine root".

Definition validate_new_quarantine_target (m : Manager) (quarantine_dir target : path)
    (expected_name : string) : Run W WsError unit :=
  _ ← lift_result (map_err ContainmentFailed (sanitize_issue_identifier expected_name));
  dir_name ← lift_result (file_name_utf8 quarantine_dir);
  _ ← validate_existing_quarantine_child m (join (mg_root m) ORPHAN_QUARANTINE_DIR)
        quarantine_dir dir_name;
  found ← catch (fs_symlink_metadata target);
  match found with
  | Ok _ => throw (InvalidQuarantinePath target "quarantine target already exists")
  | Err source =>
      if bool_decide (io_kind source = IoNotFound) then mret ()
      else throw (WsMetadata target source)
  end.

Definition quarantine_workspace_directory (m : Manager) (handle : WorkspaceHandle)
    (quarantine_namespace : string) : Run W WsError path :=
  source ← validate_handle m handle;
  source_name ← lift_result (file_name_utf8 source);
  if bool_decide (source_name ≠ wh_issue_id handle) then
    throw (InvalidQuarantinePath source "workspace handle issue id does not match directory name")
  else
    quarantine_dir ← prepare_quarantine_dir m quarantine_namespace;
    let target := join quarantine_dir source_name in
    _ ← validate_new_quarantine_target m quarantine_dir target source_name;
    _ ← mapping_err (MoveDir source target) (fs_rename source target);
    _ ← validate_existing_quarantine_child m quarantine_dir target source_name;
    mret target.
End manager.

(** [impl Workspace for Manager]. *)
#[export] Instance ManagerApi `{X : Extern} `{J : Json} {W T} `{F : Fs W} `{P : HookProcess W}
    `{Dbg : DebugStr} (m : Manager) : WorkspaceApi W T := {|
  wk_create issue := mapping_err into_core (create_for_issue m issue);
  wk_run_hook_in handle h env := mapping_err into_core (run_hook_in m handle h env);
  wk_list_workspaces := mapping_err into_core (list_workspace_directories m);
  wk_quarantine_workspace handle ns :=
    mapping_err into_core (quarantine_workspace_directory m handle ns);
  wk_destroy handle :=
    _ ← mapping_err into_core (destroy_workspace m handle); mret () |}.
