(* ===== verification/Workspaces.v ===== *)
(** * What the workspace manager asks of the machine

    Whatever the file system and the processes answer, also when other
    processes change the tree between two calls: the calls the manager makes
    stay inside its root and under the name they are for.  The hook
    environment and the captured output are what they are meant to be. *)

From S2P Require Import Prelude Wire Identity Core Effects Text Files Containment Disk Store Claims.
From S2P Require Import Approvals Ports Manager.

(** ** Operations and the calls they may make *)

Section workspaces.
Context `{X : Extern} `{J : Json}.

Inductive workspace_op :=
  | OpCreate (issue : Issue)
  | OpHook (handle : WorkspaceHandle) (h : Hook) (env : HookEnv)
  | OpDestroy (handle : WorkspaceHandle)
  | OpList
  | OpQuarantine (handle : WorkspaceHandle) (quarantine_namespace : string).

Definition run_workspace_op `{F : Fs W} `{P : HookProcess W} `{Dbg : DebugStr} (m : Manager)
    (op : workspace_op) : Run W WsError unit :=
  match op with
  | OpCreate issue => _ ← create_for_issue m issue; mret ()
  | OpHook handle h env => _ ← run_hook_in m handle h env; mret ()
  | OpDestroy handle => _ ← destroy_workspace m handle; mret ()
  | OpList => _ ← list_workspace_directories m; mret ()
  | OpQuarantine handle ns => _ ← quarantine_workspace_directory m handle ns; mret ()
  end.

(** [p] lies in [root]; its last components are [names]. *)
Definition below (root : path) (names : list string) (p : path) : Prop :=
  components root `prefix_of` components p ∧ ∃ pre, components p = pre ++ (Normal <$> names).

Definition admissible_var (allow : gset string) (name value : string) : Prop :=
  admit_var allow name value = Ok ().

(** What each operation may ask for. *)
Definition op_allows (m : Manager) (op : workspace_op) (call : SysCall) : Prop :=
  let root := mg_root m in
  match op, call with
  | OpCreate issue, CreateDir mode p =>
      mode = Some WORKSPACE_DIR_MODE ∧ child_of root (iss_identifier issue) p
  | OpCreate issue, SetPermissions mode p =>
      mode = WORKSPACE_DIR_MODE ∧ child_of root (iss_identifier issue) p
  | OpHook handle h env, Spawn c =>
      (∃ name, file_name (wh_path handle) = Some name ∧ child_of root name (hc_current_dir c)) ∧
      hc_program c = BASH_PATH ∧ hc_args c = ["-e"; "-u"; "-o"; "pipefail"; "-c"; hk_script h] ∧
      hc_envs c = env ∧
      map_Forall (admissible_var (mc_sensitive_env_allowlist (mg_config m))) env
  | OpHook _ _ _, Kill pid => (pid ≤ 0)%Z
  | OpDestroy handle, RemoveDirAll p =>
      ∃ name, file_name (wh_path handle) = Some name ∧ child_of root name p
  | OpQuarantine _ ns, CreateDir mode p =>
      mode = None ∧ (below root [ORPHAN_QUARANTINE_DIR] p ∨ below root [ORPHAN_QUARANTINE_DIR; ns] p)
  | OpQuarantine handle ns, Rename from to =>
      child_of root (wh_issue_id handle) from ∧ below root [ns; wh_issue_id handle] to
  | _, _ => False
  end.
End workspaces.

(** ** The hook environment *)

Lemma admit_vars_spec allow vars acc :
  NoDup vars.*1 → (∀ n, n ∈ vars.*1 → acc !! n = None) →
  match admit_vars allow vars acc with
  | Ok env => Forall (λ v, admit_var allow v.1 v.2 = Ok ()) vars ∧ env = list_to_map vars ∪ acc
  | Err e => ∃ pre name value post, vars = pre ++ (name, value) :: post ∧
      Forall (λ v, admit_var allow v.1 v.2 = Ok ()) pre ∧ admit_var allow name value = Err e
  end.
Proof.
  revert acc. induction vars as [|[name value] vars IH]; intros acc Hnd Hacc; simpl.
  { split; [done|]. by rewrite (left_id_L ∅ (∪)). }
  apply NoDup_cons in Hnd as [Hn Hnd].
  destruct (admit_var allow name value) as [[]|e] eqn:Hv; [|by exists [], name, value, vars].
  assert (∀ n, n ∈ vars.*1 → <[name:=value]> acc !! n = None) as Hacc'.
  { intros n Hin. rewrite lookup_insert_ne by set_solver. apply Hacc. set_solver. }
  specialize (IH _ Hnd Hacc'). destruct (admit_vars _ _ _) as [env|e].
  - destruct IH as [IH ->]. split; [by constructor|].
    rewrite <-insert_union_r by (by apply not_elem_of_list_to_map_1).
    by rewrite insert_union_l.
  - destruct IH as (pre&n&v&post&->&Hpre&He). exists ((name, value) :: pre), n, v, post.
    split; [done|]. split; [by constructor|done].
Qed.

Lemma btree_iter_to_map {V} (m : gmap string V) : list_to_map (btree_iter m) = m.
Proof.
  unfold btree_iter. rewrite (list_to_map_proper _ (map_to_list m)).
  - apply list_to_map_to_list.
  - rewrite sort_by_perm. apply NoDup_fst_map_to_list.
  - apply sort_by_perm.
Qed.

Lemma build_hook_env_spec m env :
  match build_hook_env m env with
  | Ok vars => vars = env ∧ map_Forall (admissible_var (mc_sensitive_env_allowlist (mg_config m))) env
  | Err e => ∃ name value, env !! name = Some value ∧
      admit_var (mc_sensitive_env_allowlist (mg_config m)) name value = Err e ∧
      ∀ n v, env !! n = Some v → ord_lt n name →
        admissible_var (mc_sensitive_env_allowlist (mg_config m)) n v
  end.
Proof.
  unfold build_hook_env.
  pose proof (admit_vars_spec (mc_sensitive_env_allowlist (mg_config m)) (btree_iter env) ∅
    (NoDup_btree_keys env) (λ n _, lookup_empty n)) as H.
  destruct (admit_vars _ _ _) as [vars|e].
  - destruct H as [H ->]. rewrite (right_id_L ∅ (∪)), btree_iter_to_map. split; [done|].
    intros n v Hnv. rewrite Forall_forall in H. apply (H (n, v)). by apply elem_of_btree_iter.
  - destruct H as (pre&n&v&post&Hl&Hpre&He). exists n, v. split; [|split; [done|]].
    { apply elem_of_btree_iter. rewrite Hl. set_solver. }
    intros n' v' Hn' Hlt. rewrite Forall_forall in Hpre. apply (Hpre (n', v')).
    apply elem_of_btree_iter in Hn'. rewrite Hl in Hn'. apply elem_of_app in Hn' as [|Hn']; [done|].
    exfalso. pose proof (btree_iter_sorted env) as Hs. rewrite Hl in Hs.
    apply StronglySorted_app_1_r in Hs. apply elem_of_cons in Hn' as [[= -> ->]|Hn'].
    + by apply (ord_lt_irrefl n).
    + apply StronglySorted_inv in Hs as [_ Hall]. rewrite Forall_forall in Hall.
      specialize (Hall _ Hn'). unfold key_le in Hall. simpl in Hall.
      apply ord_le_lt_or_eq in Hall as [Hall| ->]; [|by apply (ord_lt_irrefl n')].
      apply (ord_lt_irrefl n). by etrans.
Qed.

(** ** Containment *)

Section contained.
Context `{X : Extern} `{J : Json}.
Context {W : Type} `{F : Fs W} `{P : HookProcess W} `{Dbg : DebugStr}.
Implicit Types (m : Manager) (Q : SysCall → Prop).

Lemma validate_existing_contained Q root p :
  ensures (calls Q) (validate_existing_workspace_path root p)
    (λ canonical, ∃ name, file_name p = Some name ∧ child_of root name canonical).
Proof.
  apply ensures_value.
  - unfold validate_existing_workspace_path.
    keeps.
  - intros s a s' (_&_&name&?&?&_)%validate_existing_Ok. eauto.
Qed.

Lemma validate_directory_contained Q m p :
  ensures (calls Q) (validate_existing_directory m p)
    (λ canonical, ∃ name, file_name p = Some name ∧ child_of (mg_root m) name canonical).
Proof.
  unfold validate_existing_directory, contained.
  eapply ensures_bind; [apply ensures_mapping, validate_existing_contained|].
  intros canonical Hc. keeps.
Qed.
Lemma keeps_validate_directory Q m p :
  ensures (calls Q) (validate_existing_directory m p) (λ _, True).
Proof. eapply keeps_any, validate_directory_contained. Qed.
Hint Resolve keeps_validate_directory : effects.

(** *** Creation *)

Lemma create_contained m issue :
  is_absolute (mg_root m) = true →
  ensures (calls (op_allows m (OpCreate issue))) (create_for_issue m issue)
    (λ h, wh_issue_id h = iss_id issue ∧ child_of (mg_root m) (iss_identifier issue) (wh_path h)).
Proof.
  intros Hr. unfold create_for_issue.
  eapply ensures_bind with (Φ := λ p, child_of (mg_root m) (iss_identifier issue) p).
  { apply ensures_lift. unfold issue_path. intros p Hp.
    pose proof (sanitize_contains (mg_root m) (iss_identifier issue) Hr) as Hs.
    ok_inv. rewrite Hok in Hs. destruct Hs as [-> ?]. done. }
  intros p Hp.
  eapply ensures_bind with (Φ := λ r, child_of (mg_root m) (iss_identifier issue) r.2);
    [|intros r Hr'; by apply ensures_ret].
  assert (Hv : ensures (calls (op_allows m (OpCreate issue))) (validate_existing_directory m p)
    (λ q, child_of (mg_root m) (iss_identifier issue) q)).
  { eapply ensures_weaken; [apply validate_directory_contained|]. simpl.
    intros q (name&Hname&Hq). unfold file_name in Hname. destruct Hp as [Hp _].
    rewrite Hp, last_snoc in Hname. by injection Hname as <-. }
  assert (Hret : ∀ b : bool, ensures (calls (op_allows m (OpCreate issue)))
    (canonical ← validate_existing_directory m p; mret (b, canonical))
    (λ r, child_of (mg_root m) (iss_identifier issue) r.2)).
  { intros b. eapply ensures_bind; [apply Hv|]. intros q Hq. by apply ensures_ret. }
  unfold create_or_reuse_directory, set_private_dir_permissions.
  apply keeps_bind; [keeps|]. intros [?|source]; [apply Hret|].
  destruct (bool_decide _); [|apply ensures_throw].
  apply keeps_bind; [by apply keeps_catch, ensures_logging|]. intros [?|create_source].
  - apply keeps_bind; [by apply ensures_mapping, ensures_logging|]. intros _. apply Hret.
  - destruct (bool_decide _); [apply Hret|apply ensures_throw].
Qed.

(** *** Removal *)

Lemma destroy_contained m handle :
  ensures (calls (op_allows m (OpDestroy handle))) (destroy_workspace m handle) (λ _, True).
Proof.
  unfold destroy_workspace. apply keeps_bind; [keeps|]. intros [?|source]; [|keeps].
  eapply ensures_bind; [apply validate_directory_contained|]. intros canonical Hc.
  apply keeps_bind; [by apply ensures_mapping, ensures_logging|]. keeps.
Qed.

(** *** Hooks *)

Lemma hook_in_dir_contained m handle workdir h env :
  (∃ name, file_name (wh_path handle) = Some name ∧ child_of (mg_root m) name workdir) →
  ensures (calls (op_allows m (OpHook handle h env))) (run_hook_in_dir m workdir h env) (λ _, True).
Proof.
  intros Hw. unfold run_hook_in_dir.
  eapply ensures_bind; [apply ensures_lift; intros a Ha; exact Ha|]. intros vars Hvars.
  pose proof (build_hook_env_spec m env) as Henv. rewrite Hvars in Henv.
  apply keeps_bind; [by apply ensures_mapping, ensures_logging|]. intros child.
  assert (Hk : ensures (calls (op_allows m (OpHook handle h env))) (kill_process_group child)
    (λ _, True)).
  { unfold kill_process_group. apply keeps_bind; [keeps|]. intros [id|]; [|keeps].
    destruct (in_i32 _); [|keeps]. apply ensures_logging. simpl. lia. }
  unfold require_pipe, finish_output_task. keeps.
Qed.

Lemma hook_contained m handle h env :
  ensures (calls (op_allows m (OpHook handle h env))) (run_hook_in m handle h env) (λ _, True).
Proof.
  unfold run_hook_in, validate_handle.
  eapply ensures_bind; [apply validate_directory_contained|]. intros workdir Hw.
  apply keeps_bind; [by apply hook_in_dir_contained|]. keeps.
Qed.

(** *** Scanning *)

Lemma list_contained Q m : ensures (calls Q) (list_workspace_directories m) (λ _, True).
Proof.
  unfold list_workspace_directories. apply keeps_bind; [keeps|]. intros entries.
  apply keeps_bind; [|keeps]. generalize {| ws_workspaces := []; ws_refused := [] |}.
  induction entries as [|entry entries IH]; intros scan; simpl; [keeps|].
  apply keeps_bind; [|apply IH]. unfold scan_entry. keeps.
Qed.

(** *** Quarantine *)

Lemma file_name_utf8_Ok p name : file_name_utf8 p = Ok name → file_name p = Some name.
Proof.
  unfold file_name_utf8. intros H. apply ok_or_Ok in H.
  destruct (file_name p) as [n|]; [|done]. simpl in H. unfold to_str in H.
  destruct (utf8_valid n); naive_solver.
Qed.

Lemma file_name_last p name : file_name p = Some name → ∃ cs, components p = cs ++ [Normal name].
Proof.
  unfold file_name. destruct (components p) as [|c cs] using rev_ind; [done|].
  rewrite last_snoc. destruct c; naive_solver.
Qed.

Lemma quarantine_child_validated Q m parent p name :
  ensures (calls Q) (validate_existing_quarantine_child m parent p name)
    (λ c, components (mg_root m) `prefix_of` components c ∧ file_name c = Some name).
Proof.
  apply ensures_value; [unfold validate_existing_quarantine_child; keeps|].
  intros s c s' H. unfold validate_existing_quarantine_child in H.
  destruct (_ || _); [done|]. run_inv.
  destruct (path_starts_with _ _) eqn:Hs; [|done]. simpl in *.
  case_bool_decide as Hp; [done|]. run_inv. case_bool_decide as Hn; [done|]. run_inv.
  case_bool_decide; [done|]. run_inv. apply bool_decide_eq_true_1 in Hs.
  split; [done|]. by apply file_name_utf8_Ok.
Qed.

Lemma below_join root names p name :
  is_absolute root = true → below root names p → plain_name name = true →
  below root (names ++ [name]) (join p name).
Proof.
  intros Hr [Hpre [pre Hp]] Hn.
  assert (Ha : is_absolute p = true) by by eapply is_absolute_extends.
  split.
  - rewrite components_join by done. by apply prefix_app_r.
  - exists pre. rewrite components_join by done. by rewrite Hp, fmap_app, app_assoc.
Qed.

Lemma below_root root : below root [] root.
Proof. split; [done|]. exists (components root). by rewrite app_nil_r. Qed.

Lemma below_named root c name :
  components root `prefix_of` components c → file_name c = Some name → below root [name] c.
Proof. intros Hpre Hn. split; [done|]. by apply file_name_last in Hn. Qed.

Section quarantine.
Context (m : Manager) (handle : WorkspaceHandle) (ns : string).
Hypothesis absolute : is_absolute (mg_root m) = true.
Local Abbreviation allowed := (calls (op_allows m (OpQuarantine handle ns))).

Lemma ensure_dir_contained p parent name reason (names : list string) :
  names = [ORPHAN_QUARANTINE_DIR] ∨ names = [ORPHAN_QUARANTINE_DIR; ns] →
  below (mg_root m) names p →
  ensures allowed (ensure_quarantine_dir m p parent name reason)
    (λ c, components (mg_root m) `prefix_of` components c ∧ file_name c = Some name).
Proof.
  intros Hnames Hp. unfold ensure_quarantine_dir. apply keeps_bind; [keeps|]. intros found.
  apply keeps_bind; [|intros _; apply ensures_mapping, quarantine_child_validated].
  destruct found as [kind|source]; [keeps|]. destruct (bool_decide _); [|keeps].
  apply keeps_bind; [|keeps]. apply keeps_catch, ensures_logging. split; [done|].
  destruct Hnames as [-> | ->]; auto.
Qed.

Lemma prepare_contained :
  ensures allowed (prepare_quarantine_dir m ns) (λ c, below (mg_root m) [ns] c).
Proof.
  unfold prepare_quarantine_dir.
  eapply ensures_bind; [apply ensures_lift; intros a Ha; exact Ha|].
  intros namespace Hns. simpl in Hns. apply map_err_Ok, sanitize_Ok in Hns as [-> Hsafe].
  eapply ensures_bind.
  { apply ensure_dir_contained with (names := [ORPHAN_QUARANTINE_DIR]); [by left|].
    apply (below_join _ []); [done|apply below_root|done]. }
  intros orphan_root [Hpre Hname]. eapply ensures_weaken.
  - apply ensure_dir_contained with (names := [ORPHAN_QUARANTINE_DIR; ns]); [by right|].
    apply (below_join _ [ORPHAN_QUARANTINE_DIR]); [done| |by apply safe_plain].
    by apply below_named.
  - intros c [Hc Hn]. by apply below_named.
Qed.

Lemma quarantine_contained :
  ensures allowed (quarantine_workspace_directory m handle ns) (λ _, True).
Proof.
  unfold quarantine_workspace_directory, validate_handle.
  eapply ensures_bind; [apply validate_directory_contained|].
  intros source (name&_&Hsource).
  eapply ensures_bind; [apply ensures_lift; intros a Ha; exact Ha|].
  intros source_name Hn. simpl in Hn. apply file_name_utf8_Ok in Hn.
  unfold file_name in Hn. destruct Hsource as [Hsource Hsafe].
  rewrite Hsource, last_snoc in Hn. injection Hn as <-.
  case_bool_decide as Hid; [apply ensures_throw|]. subst name.
  eapply ensures_bind; [apply prepare_contained|]. intros dir Hdir. simpl in Hdir.
  apply keeps_bind.
  { unfold validate_new_quarantine_target. apply keeps_bind; [keeps|]. intros _.
    apply keeps_bind; [keeps|]. intros ?. apply keeps_bind; [|keeps].
    eapply keeps_any, quarantine_child_validated. }
  intros _. apply keeps_bind.
  { apply ensures_mapping, ensures_logging. split; [done|].
    apply (below_join _ [ns]); [done|done|by apply safe_plain]. }
  intros _. apply keeps_bind; [eapply keeps_any, quarantine_child_validated|keeps].
Qed.
End quarantine.

Lemma new_manager_root config s m s' :
  new_manager config s = (Ok m, s') → is_absolute (mg_root m) = true ∧ mg_config m = config.
Proof.
  unfold new_manager, contained, canonicalize_root. intros H. run_inv. simpl.
  destruct (is_absolute _) eqn:Ha; [|done]. simpl in *. run_inv.
  case_bool_decide; [done|]. by run_inv.
Qed.
End contained.

(** C40 the workspace manager stays inside its root, whatever the file system
    and the processes answer and however other processes change the tree
    meanwhile: creation makes and protects only the direct child of the root
    that the issue's identifier names; a hook runs only in the directory its
    handle names, under bash, with exactly the checked environment; only the
    child a handle names is ever removed; the orphan sweep's move takes a child
    to its own name under the quarantine namespace, inside the root; a scan
    changes nothing. *)
Theorem workspace_calls_contained `{J : Json} {W} (F : Fs W) (P : HookProcess W)
    (Dbg : DebugStr) (config : ManagerConfig) (m : Manager) (w0 w1 w w' : W)
    (op : workspace_op) (r : result unit WsError) (log : list SysCall) :
  new_manager config w0 = (Ok m, w1) →
  run_workspace_op (F := LoggedFs F) (P := LoggedProcess P) m op (w, []) = (r, (w', log)) →
  Forall (op_allows m op) log.
Proof.
  intros [Hr _]%new_manager_root Hrun.
  assert (H : ensures (calls (op_allows m op))
    (run_workspace_op (F := LoggedFs F) (P := LoggedProcess P) m op) (λ _, True)).
  { destruct op; simpl; (apply keeps_bind; [|keeps]).
    - by eapply keeps_any, create_contained.
    - apply hook_contained.
    - apply destroy_contained.
    - apply list_contained.
    - by apply quarantine_contained. }
  destruct (H (w, [])) as [Hlog _]; [by apply Forall_nil|]. by rewrite Hrun in Hlog.
Qed.

(** ** The captured output *)

Lemma read_chunks_spec limit chunks output truncated :
  Forall (λ c, c ≠ "") chunks → (blen output ≤ limit)%N →
  read_chunks limit chunks output truncated =
    (output +:+ String.substring 0 (N.to_nat (limit - blen output)) (str_concat chunks),
     truncated || (limit <? blen output + blen (str_concat chunks))%N).
Proof.
  intros Hne. revert output truncated.
  induction Hne as [|chunk chunks Hchunk _ IH]; intros output truncated Hlen; simpl.
  { rewrite (proj2 (N.ltb_ge _ _)) by (unfold blen in *; simpl; lia). rewrite orb_false_r.
    by destruct (N.to_nat _); rewrite str_app_nil_r. }
  assert (Hpos : (1 ≤ blen chunk)%N) by (destruct chunk; [done|unfold blen; simpl; lia]).
  rewrite substring_app.
  assert (Hsum : blen (chunk +:+ str_concat chunks) = (blen chunk + blen (str_concat chunks))%N)
    by (unfold blen; rewrite str_length_app; lia).
  rewrite Hsum. destruct (N.eqb_spec (limit - blen output) 0) as [H0|H0].
  - rewrite IH by done. rewrite H0. simpl.
    rewrite !substring_0, !str_app_nil_r.
    rewrite (proj2 (N.ltb_lt limit _)) by lia. by rewrite orb_true_r.
  - set (n := N.to_nat (limit - blen output)).
    set (k := N.to_nat (N.min (limit - blen output) (blen chunk))).
    assert (Hk : String.substring 0 k chunk = String.substring 0 n chunk ∧
      blen (String.substring 0 k chunk) = N.min (limit - blen output) (blen chunk)).
    { assert (Hl : ∀ j s, String.length (String.substring 0 j s) = j `min` String.length s).
      { induction j as [|j IHj]; intros [|c s]; simpl; [done..|]. by rewrite IHj. }
      split; [|unfold blen; rewrite Hl; unfold k, blen; lia].
      destruct (N.le_gt_cases (blen chunk) (limit - blen output)) as [Hle|Hgt].
      - rewrite !substring_all; unfold n, k, blen in *; lia || done.
      - unfold k, n. by rewrite N.min_l by lia. }
    destruct Hk as [Hk Hlk]. rewrite Hk in *.
    assert (Hout : blen (output +:+ String.substring 0 n chunk) =
      (blen output + N.min (limit - blen output) (blen chunk))%N).
    { unfold blen at 1. rewrite str_length_app. unfold blen in Hlk. unfold blen. lia. }
    rewrite IH by lia. rewrite str_app_assoc. f_equal.
    + f_equal. f_equal. f_equal. unfold n, blen in *. lia.
    + rewrite Hout. destruct (N.ltb_spec (N.min (limit - blen output) (blen chunk)) (blen chunk)),
        (N.ltb_spec limit (blen output + (blen chunk + blen (str_concat chunks)))); simpl;
        rewrite ?orb_true_r, ?orb_false_r; try done; try lia.
      * by rewrite (proj2 (N.ltb_lt _ _)), orb_true_r by lia.
      * by rewrite (proj2 (N.ltb_ge _ _)), orb_false_r by lia.
Qed.

(** The output kept of a hook is the first [limit] bytes it wrote, however
    they were cut into reads, and it is marked as truncated exactly if it wrote
    more; so a hook cannot make the daemon hold more than the limit. *)
Theorem hook_output_bounded (chunks : list bytes) (limit : N) :
  Forall (λ c, c ≠ "") chunks →
  read_limited chunks limit =
    from_bytes (String.substring 0 (N.to_nat limit) (str_concat chunks))
               (limit <? blen (str_concat chunks))%N.
Proof.
  intros Hne. unfold read_limited. rewrite read_chunks_spec; [|done|unfold blen; simpl; lia].
  by rewrite N.sub_0_r.
Qed.

(** ** A workspace on a disk *)

Module WorkspaceDemo.
#[local] Existing Instance plain_json.

Definition root_config : ManagerConfig := new_manager_config "/w".
Definition demo_manager : Manager := {| mg_config := root_config; mg_root := "/w" |}.

(** The root holds one workspace and a link that leads out of it. *)
Definition demo_disk : disk :=
  {[ "/w" := Dir; "/w/XSY-1" := Dir; "/w/XSY-2" := Link "/etc"; "/etc" := Dir ]}.
Definition demo_handle (name : string) : WorkspaceHandle :=
  {| wh_issue_id := name; wh_path := "/w/" +:+ name; wh_created_now := false |}.

(** The workspace moves to the quarantine. *)
Definition demo_run := run_workspace_op (F := LoggedFs DiskFs) (P := LoggedProcess DiskProcess)
  demo_manager (OpQuarantine (demo_handle "XSY-1") "20260101") (demo_disk, []).

Lemma workspace_calls_contained_witness :
  demo_run.2.2 = [CreateDir None "/w/.orphaned"; CreateDir None "/w/.orphaned/20260101";
                  Rename "/w/XSY-1" "/w/.orphaned/20260101/XSY-1"] ∧
  Forall (op_allows demo_manager (OpQuarantine (demo_handle "XSY-1") "20260101")) demo_run.2.2.
Proof.
  split; [vm_compute; reflexivity|].
  apply (workspace_calls_contained DiskFs DiskProcess PlainDebug root_config demo_manager demo_disk
    demo_disk demo_disk demo_run.2.1 (OpQuarantine (demo_handle "XSY-1") "20260101") demo_run.1);
    vm_compute; reflexivity.
Defined.

(** The link is refused before anything is removed. *)
Example link_refused :
  run_workspace_op (F := LoggedFs DiskFs) (P := LoggedProcess DiskProcess) demo_manager
    (OpDestroy (demo_handle "XSY-2")) (demo_disk, []) =
    (Err (ContainmentFailed (EscapesRoot "/w" "/etc")), (demo_disk, [])).
Proof. vm_compute. reflexivity. Qed.

Lemma hook_output_bounded_witness :
  co_truncated (read_limited ["ab"; "cd"; "e"] 4) = true.
Proof. rewrite (hook_output_bounded ["ab"; "cd"; "e"] 4); [reflexivity|]. by repeat constructor. Defined.
End WorkspaceDemo.
