(* ===== verification/Proofs.v ===== *)
(** * Proof artefacts (proofs.rs, reaper.rs and error.rs of the orchestrator)

    Every dispatch writes its logs, artifacts and manifest to a directory of
    its own under the proofs root; the reaper deletes old ones.  [OrchError] is
    the orchestrator's error type. *)

From S2P Require Import Prelude Wire Identity Core Effects Text Files Containment Store Claims.
From S2P Require Import Approvals Ports.
Import Reconcile.

(** ** Errors *)

(** [Error] of error.rs; the sources of HTTP errors are their messages. *)
Inductive OrchError {T : Type} :=
  | CoreError (e : SymphonyError T)
  | HeartbeatError (e : Reconcile.Error)
  | NotEligible (id reason : string)
  | TrustClientBuild (source : string)
  | TrustRequest (url source : string)
  | TrustDecode (url source : string)
  | TrustHttp (status body : string)
  | TrustLevelInvalid (value : string)
  | ProofIo (p : path) (source : IoError)
  | ProofContainment (reason : string)
  | ProofJson (source : string)
  | ProofTask (message : string).
Arguments OrchError : clear implicits.

Definition show_trust_level_parse `{DebugStr} (value : string) : string :=
  "unknown trust level " +:+ debug_str value +:+ "; expected blocked, unknown, known, or trusted".

Definition show_orch `{DebugStr} {T} (show : T → string) (e : OrchError T) : string :=
  match e with
  | CoreError e => show_symphony show e
  | HeartbeatError (BadHeartbeat timestamp source) =>
      "unparseable heartbeat timestamp " +:+ debug_str timestamp +:+ ": " +:+ source
  | NotEligible id reason => "issue " +:+ id +:+ " is not eligible for dispatch: " +:+ reason
  | TrustClientBuild source => "failed to construct x0xd trust HTTP client: " +:+ source
  | TrustRequest url source => "trust request to " +:+ url +:+ " failed: " +:+ source
  | TrustDecode url source => "failed to decode trust response from " +:+ url +:+ ": " +:+ source
  | TrustHttp status body => "x0xd trust lookup returned HTTP " +:+ status +:+ ": " +:+ body
  | TrustLevelInvalid value =>
      "invalid trust level in x0xd contacts response: " +:+ show_trust_level_parse value
  | ProofIo p source => "proof artefact I/O error at " +:+ p +:+ ": " +:+ io_text source
  | ProofContainment reason => "proof artefact path rejected: " +:+ reason
  | ProofJson source => "proof manifest JSON serialization failed: " +:+ source
  | ProofTask message => "proof event writer task failed: " +:+ message
  end.

(** ** Clocks and formats *)

(** [Clock::now], in nanoseconds since the epoch; [Instant::now], in
    nanoseconds; [std::env::var]. *)
Class Machine (W : Type) := {
  clock_now : W → Z * W;
  instant_now : W → N * W;
  env_var : string → W → option string * W
}.

(** The formats of [chrono] the orchestrator uses: "%Y-%m-%dT%H%M%SZ" with its
    parser, "%Y%m%dT%H%M%SZ", and RFC 3339 in seconds and in nanoseconds; and
    the instants [DateTime<Utc>] can hold. *)
Class ChronoFormat := {
  fmt_segment : Z → string;
  parse_segment : string → option Z;
  fmt_compact : Z → string;
  fmt_rfc3339_secs : Z → string;
  fmt_rfc3339_nanos : Z → string;
  date_min : Z;
  date_max : Z
}.

(** [{n:02}] and [{n:04}]. *)
Definition pad (width : nat) (n : N) : string :=
  let digits := pretty n in
  String.concat "" (replicate (width - String.length digits) "0") +:+ digits.

(** ** Records *)

Definition STDOUT_LOG : string := "stdout.log".
Definition STDERR_LOG : string := "stderr.log".
Definition MANIFEST_JSON : string := "manifest.json".

Record ProofManifest := {
  pm_issue_id : string;
  pm_agent_id : string;
  pm_hostname : string;
  pm_runner_kind : string;
  pm_preset : option string;
  pm_command : string;
  pm_args : list string;
  pm_env_allowlist : list string;
  pm_exit_code : Z;
  pm_duration_ms : N;
  pm_started_at : string;
  pm_ended_at : string;
  pm_hooks : list string
}.

Record AbandonManifest := {
  am_issue_id : string;
  am_recorded_at : string;
  am_abandoned_claim : Claim;
  am_reason : ReleaseReason;
  am_winning_agent_id : string
}.

Record RunnerManifestMetadata := {
  rm_runner_kind : string;
  rm_preset : option string;
  rm_command : string;
  rm_args : list string;
  rm_env_allowlist : list string
}.

(** [serde_json::to_writer_pretty]. *)
Class ManifestCodec := {
  enc_manifest : ProofManifest → result bytes string;
  enc_abandon : AbandonManifest → result bytes string
}.

Record ProofRun := {
  pr_issue_id : string;
  pr_agent_id : string;
  pr_dir : path;
  pr_relative_dir : string;
  pr_started_at : Z;
  pr_started_instant : N;
  pr_runner : RunnerManifestMetadata;
  pr_hooks : list string;
  (** the shared counter of artifacts *)
  pr_artifacts : N
}.

Definition from_capabilities (runner_name : string) (c : RunnerCapabilities)
    : RunnerManifestMetadata := {|
  rm_runner_kind := rc_runner_kind c;
  rm_preset := match rc_preset c with Some p => Some p | None => head (rc_labels c) end;
  rm_command := default runner_name (rc_command c);
  rm_args := rc_args c;
  rm_env_allowlist := dedup (sort_by id (rc_env_allowlist c)) |}.

Definition record_hook (phase_name status : string) (p : ProofRun) : ProofRun := {|
  pr_issue_id := pr_issue_id p; pr_agent_id := pr_agent_id p; pr_dir := pr_dir p;
  pr_relative_dir := pr_relative_dir p; pr_started_at := pr_started_at p;
  pr_started_instant := pr_started_instant p; pr_runner := pr_runner p;
  pr_hooks := pr_hooks p ++ [phase_name +:+ ":" +:+ status]; pr_artifacts := pr_artifacts p |}.

Definition with_artifacts (n : N) (p : ProofRun) : ProofRun := {|
  pr_issue_id := pr_issue_id p; pr_agent_id := pr_agent_id p; pr_dir := pr_dir p;
  pr_relative_dir := pr_relative_dir p; pr_started_at := pr_started_at p;
  pr_started_instant := pr_started_instant p; pr_runner := pr_runner p;
  pr_hooks := pr_hooks p; pr_artifacts := n |}.

(** ** Operations *)

Section proofs.
Context `{X : Extern} `{J : Json} `{Dbg : DebugStr} `{CF : ChronoFormat} `{MC : ManifestCodec}.
Context {W T : Type} `{F : Fs W} `{M : Machine W}.
Local Abbreviation PM := (Run W (OrchError T)).

Definition io {A} (p : path) (c : Run W IoError A) : PM A := mapping_err (ProofIo p) c.
Definition containing {A} (c : Run W ContainmentError A) : PM A :=
  mapping_err (λ e, ProofContainment (show_containment e)) c.

Definition prepare_root (root : path) : PM path :=
  _ ← io root (fs_create_dir_all None root);
  containing (canonicalize_root root).

Definition ensure_child_dir (root : path) (child_name : string) : PM path :=
  let child := join root child_name in
  found ← catch (fs_symlink_metadata child);
  _ ← match found with
      | Ok kind =>
          if bool_decide (kind ≠ KDir) then
            throw (ProofContainment ("proof path is not a real directory: " +:+ child))
          else mret ()
      | Err source =>
          if bool_decide (io_kind source = IoNotFound) then io child (fs_create_dir None child)
          else throw (ProofIo child source)
      end;
  containing (validate_existing_workspace_path root child).

Definition sanitize_segment (raw : string) : PM string :=
  lift_result (map_err (λ e, ProofContainment (show_containment e)) (sanitize_issue_identifier raw)).

Definition timestamp_segment (at_ : Z) : string := fmt_segment at_.

Definition run_dir_candidate (base_timestamp : string) (suffix : N) : string :=
  if (suffix =? 0)%N then base_timestamp else base_timestamp +:+ "-" +:+ pad 2 suffix.

(** The loop over the suffixes below one hundred. *)
Fixpoint try_suffixes (issue_dir : path) (base_timestamp : string) (suffixes : list N)
    : PM (path * string) :=
  match suffixes with
  | [] => throw (ProofContainment ("proof timestamp collision for " +:+ base_timestamp))
  | suffix :: rest =>
      run_segment ← sanitize_segment (run_dir_candidate base_timestamp suffix);
      let run_dir := join issue_dir run_segment in
      created ← catch (fs_create_dir None run_dir);
      match created with
      | Ok _ =>
          canonical ← containing (validate_existing_workspace_path issue_dir run_dir);
          mret (canonical, run_segment)
      | Err source =>
          if bool_decide (io_kind source = IoAlreadyExists) then
            try_suffixes issue_dir base_timestamp rest
          else throw (ProofIo run_dir source)
      end
  end.
Definition create_unique_run_dir (issue_dir : path) (base_timestamp : string)
    : PM (path * string) :=
  try_suffixes issue_dir base_timestamp (N.of_nat <$> seq 0 100).

Definition create_empty_log (run_dir : path) (file_name : string) : PM unit :=
  let p := join run_dir file_name in io p (fs_write p "").

(** The file is created before its contents are encoded. *)
Definition write_json_file (p : path) (encoded : result bytes string) : PM unit :=
  match encoded with
  | Ok b => io p (fs_write p (b +:+ str_char 10))
  | Err source => _ ← io p (fs_write p ""); throw (ProofJson source)
  end.

Definition write_abandoned (root : path) (issue : Issue) (abandoned_claim : Claim)
    (reason : ReleaseReason) (winning_claim : Claim) (recorded_at : Z) : PM string :=
  canonical_root ← prepare_root root;
  issue_segment ← sanitize_segment (iss_id issue);
  issue_dir ← ensure_child_dir canonical_root issue_segment;
  created ← create_unique_run_dir issue_dir (timestamp_segment recorded_at +:+ "-abandoned");
  let '(abandon_dir, abandon_segment) := created in
  _ ← write_json_file (join abandon_dir "abandon.json") (enc_abandon {|
        am_issue_id := iss_id issue; am_recorded_at := fmt_rfc3339_secs recorded_at;
        am_abandoned_claim := abandoned_claim; am_reason := reason;
        am_winning_agent_id := cl_by winning_claim |});
  mret ("proofs/" +:+ issue_segment +:+ "/" +:+ abandon_segment).

(** [ProofRun::start]. *)
Definition start (proofs_root : path) (issue : Issue) (agent_id runner_name : string)
    (capabilities : RunnerCapabilities) (started_at : Z) : PM ProofRun :=
  canonical_root ← prepare_root proofs_root;
  issue_segment ← sanitize_segment (iss_id issue);
  issue_dir ← ensure_child_dir canonical_root issue_segment;
  created ← create_unique_run_dir issue_dir (timestamp_segment started_at);
  let '(run_dir, run_segment) := created in
  _ ← create_empty_log run_dir STDOUT_LOG;
  _ ← create_empty_log run_dir STDERR_LOG;
  started_instant ← embed instant_now;
  mret {| pr_issue_id := iss_id issue; pr_agent_id := agent_id; pr_dir := run_dir;
          pr_relative_dir := "proofs/" +:+ issue_segment +:+ "/" +:+ run_segment;
          pr_started_at := started_at; pr_started_instant := started_instant;
          pr_runner := from_capabilities runner_name capabilities; pr_hooks := [];
          pr_artifacts := 0 |}.

Definition elapsed_ms (started : N) : PM N :=
  now ← embed instant_now;
  let millis := ((now - started) / 1000000)%N in
  mret (if (millis <=? u64_max)%N then millis else u64_max).

Fixpoint first_env (keys : list string) : PM string :=
  match keys with
  | [] => mret "unknown"
  | key :: rest =>
      value ← embed (env_var key);
      match value with
      | Some value => if is_blank value then first_env rest else mret value
      | None => first_env rest
      end
  end.
Definition hostname : PM string := first_env ["HOSTNAME"; "COMPUTERNAME"].

(** [ProofRun::finish]. *)
Definition finish (p : ProofRun) (exit_code ended_at : Z) : PM unit :=
  host ← hostname;
  duration ← elapsed_ms (pr_started_instant p);
  write_json_file (join (pr_dir p) MANIFEST_JSON) (enc_manifest {|
    pm_issue_id := pr_issue_id p; pm_agent_id := pr_agent_id p; pm_hostname := host;
    pm_runner_kind := rm_runner_kind (pr_runner p); pm_preset := rm_preset (pr_runner p);
    pm_command := rm_command (pr_runner p); pm_args := rm_args (pr_runner p);
    pm_env_allowlist := rm_env_allowlist (pr_runner p); pm_exit_code := exit_code;
    pm_duration_ms := duration; pm_started_at := fmt_rfc3339_secs (pr_started_at p);
    pm_ended_at := fmt_rfc3339_secs ended_at; pm_hooks := pr_hooks p |}).

(** *** The event writer *)

Definition write_all (p : path) (b : bytes) : PM unit := io p (fs_append p b).

Definition write_artifact_warning (stderr_path : path) (message : string) : PM unit :=
  write_all stderr_path ("[artifact-warning] " +:+ message +:+ str_char 10).

(** [Path::is_absolute] and [join] are one [join]. *)
Definition artifact_source_path (workspace_path : path) (message : string) : path :=
  if is_absolute message then message else join workspace_path message.

(** The number of artifacts so far, and afterwards. *)
Definition persist_artifact_event (message : option string) (workspace_path proof_dir : path)
    (counter : N) (stderr_path : path) : PM N :=
  let warning text := _ ← write_artifact_warning stderr_path text; mret counter in
  match message ≫= non_blank with
  | None => warning "artifact event missing path"
  | Some message =>
      let source := artifact_source_path workspace_path message in
      r ← catch (fs_canonicalize workspace_path);
      match r with
      | Err e =>
          warning ("artifact workspace is unavailable (" +:+ workspace_path +:+ "): " +:+ io_text e)
      | Ok canonical_workspace =>
          r ← catch (fs_canonicalize source);
          match r with
          | Err e => warning ("artifact source is unavailable (" +:+ source +:+ "): " +:+ io_text e)
          | Ok canonical_source =>
              if negb (path_starts_with canonical_source canonical_workspace) then
                warning ("artifact path escaped workspace: " +:+ canonical_source)
              else
                r ← catch (fs_metadata canonical_source);
                match r with
                | Err e =>
                    warning ("artifact metadata failed (" +:+ canonical_source +:+ "): " +:+ io_text e)
                | Ok kind =>
                    if bool_decide (kind ≠ KFile) then
                      warning ("artifact source is not a file: " +:+ canonical_source)
                    else
                      let number := sat_add64 counter 1 in
                      let target := join proof_dir ("artifact-" +:+ pad 4 number +:+ ".bin") in
                      _ ← io target (fs_copy canonical_source target);
                      mret (wrap_add64 counter 1)
                end
          end
      end
  end.

Fixpoint write_events (proof_dir workspace_path stdout_path stderr_path : path)
    (events : list RunnerEvent) (counter : N) : PM N :=
  match events with
  | [] => mret counter
  | event :: rest =>
      counter ←
        match re_kind event, re_message event with
        | EventStdout, Some message => _ ← write_all stdout_path message; mret counter
        | EventStderr, Some message => _ ← write_all stderr_path message; mret counter
        | EventError, Some message =>
            _ ← write_all stderr_path ("[runner-error] " +:+ message +:+ str_char 10); mret counter
        | Artifact, message =>
            persist_artifact_event message workspace_path proof_dir counter stderr_path
        | _, _ => mret counter
        end;
      write_events proof_dir workspace_path stdout_path stderr_path rest counter
  end.

(** [append_file] creates the log; flushing is part of each write. *)
Definition write_runner_events (events : list RunnerEvent) (proof_dir workspace_path : path)
    (counter : N) : PM N :=
  let stdout_path := join proof_dir STDOUT_LOG in
  let stderr_path := join proof_dir STDERR_LOG in
  _ ← write_all stdout_path "";
  _ ← write_all stderr_path "";
  write_events proof_dir workspace_path stdout_path stderr_path events counter.
End proofs.

(** ** The reaper *)

Definition PROOF_TIMESTAMP_LEN : N := 18.
Definition COLLISION_SUFFIX_LEN : N := 3.

Record ReapReport := { rp_scanned : N; rp_reaped : N; rp_skipped_active : N; rp_errors : N }.

Definition sat_add32 (a b : N) : N := N.min (a + b) u32_max.

Definition record_scanned (r : ReapReport) : ReapReport :=
  {| rp_scanned := sat_add32 (rp_scanned r) 1; rp_reaped := rp_reaped r;
     rp_skipped_active := rp_skipped_active r; rp_errors := rp_errors r |}.
Definition record_reaped (r : ReapReport) : ReapReport :=
  {| rp_scanned := rp_scanned r; rp_reaped := sat_add32 (rp_reaped r) 1;
     rp_skipped_active := rp_skipped_active r; rp_errors := rp_errors r |}.
Definition record_skipped_active (r : ReapReport) : ReapReport :=
  {| rp_scanned := rp_scanned r; rp_reaped := rp_reaped r;
     rp_skipped_active := sat_add32 (rp_skipped_active r) 1; rp_errors := rp_errors r |}.
Definition record_error (r : ReapReport) : ReapReport :=
  {| rp_scanned := rp_scanned r; rp_reaped := rp_reaped r;
     rp_skipped_active := rp_skipped_active r; rp_errors := sat_add32 (rp_errors r) 1 |}.

Definition is_collision_suffix (suffix : string) : bool :=
  match suffix with
  | String a (String b (String c EmptyString)) =>
      bool_decide (a = "-"%char) && is_ascii_digit b && is_ascii_digit c &&
      negb (bool_decide (b = "0"%char) && bool_decide (c = "0"%char))
  | _ => false
  end.

(** A split inside a character is refused; its suffix has no dash either. *)
Definition timestamp_prefix (name : string) : option string :=
  if (blen name =? PROOF_TIMESTAMP_LEN)%N then Some name
  else if negb (blen name =? PROOF_TIMESTAMP_LEN + COLLISION_SUFFIX_LEN)%N then None
  else if is_collision_suffix (String.substring 18 3 name) then Some (String.substring 0 18 name)
  else None.

Section reaper.
Context `{CF : ChronoFormat}.
Context {W : Type} `{F : Fs W}.

(** The longest [Duration] of days, and the earliest date. *)
Definition DAY_NS : Z := 86400 * 1000000000.
Definition retention_cutoff (now : Z) (retention_days : N) : option Z :=
  let retention := (Z.of_N retention_days * DAY_NS)%Z in
  if (chrono_max <? retention)%Z then None
  else if (now - retention <? date_min)%Z then None
  else Some (now - retention)%Z.

Definition parse_proof_timestamp (name : string) : option Z :=
  timestamp ← timestamp_prefix name; parse_segment timestamp.

(** Filesystem errors are logged and skipped: no run here fails. *)
Local Abbreviation RM := (Run W IoError).

Definition is_directory (p : path) : RM bool :=
  kind ← catch (fs_symlink_metadata p);
  mret match kind with Ok kind => bool_decide (kind = KDir) | Err _ => false end.

(** [next_entry] ends the loop at the first entry that cannot be read. *)
Fixpoint readable (entries : list (result string IoError)) : list string :=
  match entries with Ok name :: rest => name :: readable rest | _ => [] end.
Definition open_dir (p : path) : RM (option (list string)) :=
  entries ← catch (fs_read_dir p);
  mret match entries with Ok entries => Some (readable entries) | Err _ => None end.

Definition delete_timestamp_dir (p : path) (report : ReapReport) : RM ReapReport :=
  removed ← catch (fs_remove_dir_all p);
  mret match removed with
       | Ok _ => record_reaped report
       | Err source =>
           if bool_decide (io_kind source = IoNotFound) then report else record_error report
       end.

Definition process_timestamp_entry (issue_path : path) (cutoff : Z) (issue_is_active : bool)
    (report : ReapReport) (entry : string) : RM ReapReport :=
  let p := join issue_path entry in
  directory ← is_directory p;
  if negb directory then mret report
  else
    let report := record_scanned report in
    if issue_is_active then mret (record_skipped_active report)
    else
      match to_str entry with
      | None => mret report
      | Some timestamp_name =>
          match parse_proof_timestamp timestamp_name with
          | None => mret report
          | Some started_at =>
              if (started_at <? cutoff)%Z then delete_timestamp_dir p report else mret report
          end
      end.

(** [while let Some(entry) = next_entry(..) { step(entry) }] over a report. *)
Fixpoint each_entry (step : ReapReport → string → RM ReapReport) (entries : list string)
    (report : ReapReport) : RM ReapReport :=
  match entries with
  | [] => mret report
  | entry :: rest => report ← step report entry; each_entry step rest report
  end.

Definition process_issue_entry (proofs_dir : path) (cutoff : Z) (active_issue_ids : gset string)
    (report : ReapReport) (entry : string) : RM ReapReport :=
  let issue_path := join proofs_dir entry in
  directory ← is_directory issue_path;
  if negb directory then mret report
  else
    match to_str entry with
    | None => mret report
    | Some issue_name =>
        match new_issue_id (T := string) issue_name with
        | Err _ => mret report
        | Ok issue_id =>
            entries ← open_dir issue_path;
            match entries with
            | None => mret report
            | Some entries =>
                let issue_is_active := bool_decide (issue_id ∈ active_issue_ids) in
                each_entry (process_timestamp_entry issue_path cutoff issue_is_active)
                  entries report
            end
        end
    end.

Definition default_report : ReapReport :=
  {| rp_scanned := 0; rp_reaped := 0; rp_skipped_active := 0; rp_errors := 0 |}.

Definition reap_old_proofs (proofs_dir : path) (now : Z) (retention_days : N)
    (active_issue_ids : gset string) : RM ReapReport :=
  match retention_cutoff now retention_days with
  | None => mret default_report
  | Some cutoff =>
      entries ← open_dir proofs_dir;
      match entries with
      | None => mret default_report
      | Some entries =>
          each_entry (process_issue_entry proofs_dir cutoff active_issue_ids) entries default_report
      end
  end.
End reaper.
