(* ===== verification/Workers.v ===== *)
(** * The worker list (workers.rs of the core and of the daemon crate)

    Worker cards with their expiry, and the daemon's view of the live workers:
    publishing its own card, and the consumer that verifies the cards that
    arrive by gossip.  An operation can panic, which ends the task it runs in;
    the tasks of one daemon are runs over one state, one at a time. *)

From S2P Require Import Prelude Wire Identity Core Text Events Effects Store Claims Approvals.
From S2P Require Import Ports Proofs.
Import Reconcile.

(** ** Worker cards *)

Definition WORKER_CARD_CONTEXT : string := "x0x-symphony-worker-card-v1".
Definition WORKER_CARD_SCHEMA_VERSION : N := 1.
Definition WORKER_TOPIC : string := "x0x/symphony/workers/v1".

Record PlatformInfo := { pi_os : string; pi_arch : string; pi_version : string }.

Record WorkerCard := {
  wc_schema_version : N;
  wc_agent_id : string;
  wc_issued_at : string;
  wc_ttl_seconds : N;
  wc_capabilities : list string;
  wc_sandbox_levels : list string;
  wc_runner_presets : list string;
  wc_current_load : N;
  wc_max_load : N;
  wc_platform : PlatformInfo;
  wc_signature : option SignatureEnvelope
}.

Record GossipEvent := { ge_topic : string; ge_payload : string; ge_verified : bool }.

(** [serde_json] at a card and at an event of the stream. *)
Class CardCodec := {
  enc_card : WorkerCard → result bytes string;
  dec_card : bytes → result WorkerCard string;
  dec_gossip : string → result GossipEvent string
}.

Definition set_card (card : WorkerCard) (issued_at : string) (load : N)
    (signature : option SignatureEnvelope) : WorkerCard := {|
  wc_schema_version := wc_schema_version card; wc_agent_id := wc_agent_id card;
  wc_issued_at := issued_at; wc_ttl_seconds := wc_ttl_seconds card;
  wc_capabilities := wc_capabilities card; wc_sandbox_levels := wc_sandbox_levels card;
  wc_runner_presets := wc_runner_presets card; wc_current_load := load;
  wc_max_load := wc_max_load card; wc_platform := wc_platform card;
  wc_signature := signature |}.
Definition set_signature (card : WorkerCard) (signature : option SignatureEnvelope) : WorkerCard :=
  set_card card (wc_issued_at card) (wc_current_load card) signature.

(** The greatest number of seconds of a [chrono::Duration], whose limit is
    [i64::MAX] milliseconds. *)
Definition DURATION_MAX_SECONDS : N := 9223372036854775.

Section cards.
Context `{X : Extern} `{C : Chrono} `{CF : ChronoFormat} `{CC : CardCodec}.

Definition card_signing_payload (card : WorkerCard) : result bytes string :=
  enc_card (set_signature card None).

Definition card_payload_sha256 (card : WorkerCard) : result string string :=
  let? payload := card_signing_payload card in Ok (sha256_hex payload).

(** [is_expired]; [None] is the panic of an addition past the last instant of
    a [DateTime]. *)
Definition is_expired (card : WorkerCard) (now : string) : option bool :=
  match parse_from_rfc3339 (wc_issued_at card), parse_from_rfc3339 now with
  | Ok issued_at, Ok now =>
      if (DURATION_MAX_SECONDS <? wc_ttl_seconds card)%N then Some true
      else
        let expiry := (issued_at + Z.of_N (wc_ttl_seconds card) * 1000000000)%Z in
        if (date_max <? expiry)%Z then None else Some (expiry <=? now)%Z
  | _, _ => Some true
  end.

(** [signature_envelope_is_consistent] of the daemon, which is also
    [worker_card_has_verified_signature_marker] of the v1 tracker. *)
Definition card_envelope_is_consistent (card : WorkerCard) : bool :=
  match wc_signature card with
  | None => false
  | Some signature =>
      bool_decide (se_algorithm signature = SIGN_ALGORITHM) &&
      bool_decide (se_context signature = WORKER_CARD_CONTEXT) &&
      bool_decide (se_signer_agent_id signature = wc_agent_id card) &&
      match card_payload_sha256 card with
      | Ok digest => bool_decide (digest = se_payload_sha256 signature)
      | Err _ => false
      end
  end.
End cards.

(** ** The view *)

Record WorkerView := { wv_cards : gmap string WorkerCard; wv_epoch : N }.
Definition new_view : WorkerView := {| wv_cards := ∅; wv_epoch := 0 |}.

Record WorkerViewSnapshot := { vs_cards : list WorkerCard; vs_view_epoch : N }.

Definition bump_epoch (view : WorkerView) : WorkerView :=
  {| wv_cards := wv_cards view; wv_epoch := sat_add64 (wv_epoch view) 1 |}.

(** Insert a card under its agent; whether the agent is new. *)
Definition insert_card (card : WorkerCard) (view : WorkerView) : bool * WorkerView :=
  let is_new := bool_decide (wv_cards view !! wc_agent_id card = None) in
  let view := {| wv_cards := <[wc_agent_id card := card]> (wv_cards view);
                 wv_epoch := wv_epoch view |} in
  (is_new, if is_new then bump_epoch view else view).

Inductive ReceiveOutcome :=
  | IgnoredTopic | DroppedUnverified | DroppedInvalid | DroppedExpired | Inserted | Updated.

#[export] Instance ReceiveOutcome_eq_dec : EqDecision ReceiveOutcome.
Proof. solve_decision. Defined.

(** An [anyhow::Error]: a message, or the context of another error.  [Panicked]
    is a panic: nothing catches it before the task. *)
Inductive DiscoveryError :=
  | Panicked
  | Bail (message : string)
  | WithContext (context source : string).

(** [Display]: the outermost message. *)
Definition show_discovery (e : DiscoveryError) : string :=
  match e with Panicked => "" | Bail message => message | WithContext context _ => context end.

Definition classify_decode_error (e : DiscoveryError) : string :=
  let msg := show_discovery e in
  if str_contains "failed to decode worker gossip event JSON" msg then "gossip_event_decode"
  else if str_contains "worker gossip payload was not a WorkerCard" msg then "worker_card_decode"
  else if str_contains "worker gossip payload was not valid base64" msg then "payload_base64"
  else "unknown_decode".

(** [RetryBackoff], in seconds. *)
Definition default_backoff : N := 1.
Definition next_backoff (current : N) : N * N := (current, N.min (current * 2) 30).

(** The gossip endpoints of x0xd: the event stream is the chunks it yields
    until it ends; time passes while the caller sleeps. *)
Class GossipApi (W : Type) := {
  go_publish : string → bytes → Run W string unit;
  go_subscribe : string → Run W string string;
  go_open_events : Run W string (list (result bytes string));
  go_sleep : N → W → unit * W
}.

(** [WorkerDiscovery], less its handles on the daemon. *)
Record WorkerDiscovery := {
  wd_agent_id : string;
  wd_local_card_template : WorkerCard;
  wd_publish_enabled : bool
}.

(** What changes: the view, the advertised load, whether the consumer was
    started, the subscriptions of the consumers that were spawned, the instants
    of the last warnings, and the world. *)
Record discovery (W : Type) := {
  ds_view : WorkerView;
  ds_current_load : N;
  ds_consumer_started : bool;
  ds_consumers : list string;
  ds_last_warn_at : gmap string N;
  ds_world : W
}.
Arguments ds_view {W}. Arguments ds_current_load {W}. Arguments ds_consumer_started {W}.
Arguments ds_consumers {W}. Arguments ds_last_warn_at {W}. Arguments ds_world {W}.

Definition initial_discovery {W} (w : W) : discovery W := {|
  ds_view := new_view; ds_current_load := 0; ds_consumer_started := false; ds_consumers := [];
  ds_last_warn_at := ∅; ds_world := w |}.

Definition set_view {W} (view : WorkerView) (s : discovery W) : discovery W := {|
  ds_view := view; ds_current_load := ds_current_load s;
  ds_consumer_started := ds_consumer_started s; ds_consumers := ds_consumers s;
  ds_last_warn_at := ds_last_warn_at s; ds_world := ds_world s |}.
Definition set_load {W} (load : N) (s : discovery W) : discovery W := {|
  ds_view := ds_view s; ds_current_load := load;
  ds_consumer_started := ds_consumer_started s; ds_consumers := ds_consumers s;
  ds_last_warn_at := ds_last_warn_at s; ds_world := ds_world s |}.
Definition spawn_consumer {W} (subscription_id : string) (s : discovery W) : discovery W := {|
  ds_view := ds_view s; ds_current_load := ds_current_load s; ds_consumer_started := true;
  ds_consumers := ds_consumers s ++ [subscription_id];
  ds_last_warn_at := ds_last_warn_at s; ds_world := ds_world s |}.
Definition note_warning {W} (discriminator : string) (at_ : N) (s : discovery W) : discovery W := {|
  ds_view := ds_view s; ds_current_load := ds_current_load s;
  ds_consumer_started := ds_consumer_started s; ds_consumers := ds_consumers s;
  ds_last_warn_at := <[discriminator := at_]> (ds_last_warn_at s); ds_world := ds_world s |}.
Definition in_world {W} (w : W) (s : discovery W) : discovery W := {|
  ds_view := ds_view s; ds_current_load := ds_current_load s;
  ds_consumer_started := ds_consumer_started s; ds_consumers := ds_consumers s;
  ds_last_warn_at := ds_last_warn_at s; ds_world := w |}.

Section template.
(** [WorkerDiscovery::new]; the HTTP client is not part of it. *)
Definition new_discovery (agent_id : string) (template : WorkerCard) (publish_enabled : bool)
    : result WorkerDiscovery DiscoveryError :=
  bail (Bail ("worker card template agent " +:+ wc_agent_id template +:+
              " does not match local agent " +:+ agent_id))
    when negb (bool_decide (wc_agent_id template = agent_id));
  bail (Bail ("worker card template schema version " +:+ pretty (wc_schema_version template) +:+
              " is not supported"))
    when negb (wc_schema_version template =? WORKER_CARD_SCHEMA_VERSION)%N;
  Ok {| wd_agent_id := agent_id;
        wd_local_card_template := {|
          wc_schema_version := wc_schema_version template; wc_agent_id := wc_agent_id template;
          wc_issued_at := wc_issued_at template; wc_ttl_seconds := N.max (wc_ttl_seconds template) 1;
          wc_capabilities := wc_capabilities template; wc_sandbox_levels := wc_sandbox_levels template;
          wc_runner_presets := wc_runner_presets template;
          wc_current_load := wc_current_load template; wc_max_load := wc_max_load template;
          wc_platform := wc_platform template; wc_signature := None |};
        wd_publish_enabled := publish_enabled |}.

Definition local_worker_card_template (platform : PlatformInfo) (agent_id : string)
    (ttl_seconds : N) (capabilities sandbox_levels runner_presets : list string) (max_load : N)
    : WorkerCard := {|
  wc_schema_version := WORKER_CARD_SCHEMA_VERSION; wc_agent_id := agent_id;
  wc_issued_at := "1970-01-01T00:00:00Z"; wc_ttl_seconds := N.max ttl_seconds 1;
  wc_capabilities := capabilities; wc_sandbox_levels := sandbox_levels;
  wc_runner_presets := runner_presets; wc_current_load := 0; wc_max_load := max_load;
  wc_platform := platform; wc_signature := None |}.

(** In seconds. *)
Definition publish_interval (d : WorkerDiscovery) : N :=
  N.max (wc_ttl_seconds (wd_local_card_template d) / 2) 1.
End template.

Section discovery.
Context `{X : Extern} `{C : Chrono} `{CF : ChronoFormat} `{CC : CardCodec}.
Context {W : Type} `{SG : !SigningApi W} `{M : !Machine W} `{GO : !GossipApi W}.

Definition DM (A : Type) : Type := Run (discovery W) DiscoveryError A.

(** Calls of the world: a fallible one with the context of its error, one
    whose result is matched, and one that cannot fail. *)
Definition on_daemon {A E} (c : Run W E A) : Run (discovery W) E A :=
  λ s, let '(r, w) := c (ds_world s) in (r, in_world w s).
Definition contextual {A} (context : string) (c : Run W string A) : DM A :=
  on_daemon (mapping_err (WithContext context) c).
Definition attempting {A E} (c : Run W E A) : DM (result A E) := on_daemon (catch c).
Definition plain {A} (c : W → A * W) : DM A := on_daemon (embed c).
(** A run whose error is only logged; a panic passes through. *)
Definition unwinding {A} (c : DM A) : DM (result A DiscoveryError) := λ s,
  let '(r, s') := c s in
  match r with Err Panicked => (Err Panicked, s') | _ => (Ok r, s') end.
(** [result.context(..)?]. *)
Definition with_context {A} (context : string) (r : result A string) : DM A :=
  lift_result (map_err (WithContext context) r).

Definition now_rfc3339_secs : DM string := t ← plain clock_now; mret (fmt_rfc3339_secs t).

(** [BTreeMap::retain] of the cards that are not expired: whether the predicate
    panicked, and the map as it then is. *)
Fixpoint retain_live (now : string) (entries : list (string * WorkerCard))
    (cards : gmap string WorkerCard) : bool * gmap string WorkerCard :=
  match entries with
  | [] => (false, cards)
  | (agent_id, card) :: entries =>
      match is_expired card now with
      | None => (true, cards)
      | Some true => retain_live now entries (delete agent_id cards)
      | Some false => retain_live now entries cards
      end
  end.

Definition reap_expired_at (now : string) : DM unit :=
  view ← gets ds_view;
  let '(panicked, cards) := retain_live now (btree_iter (wv_cards view)) (wv_cards view) in
  let reaped := {| wv_cards := cards; wv_epoch := wv_epoch view |} in
  if panicked : bool then
    _ ← modify (set_view reaped); throw Panicked
  else
    modify (set_view (if bool_decide (size cards = size (wv_cards view)) then reaped
                      else bump_epoch reaped)).

Definition snapshot_view : DM WorkerView :=
  now ← now_rfc3339_secs;
  _ ← reap_expired_at now;
  gets ds_view.

(** [WorkerViewProvider::snapshot] of the daemon. *)
Definition provider_snapshot : DM WorkerViewSnapshot :=
  view ← snapshot_view;
  mret {| vs_cards := btree_values (wv_cards view); vs_view_epoch := wv_epoch view |}.

Definition set_current_load (load : N) : DM unit := modify (set_load load).

(** [insert_local_card] and [insert_verified]. *)
Definition insert_local_card (card : WorkerCard) : DM unit :=
  view ← gets ds_view;
  modify (set_view (insert_card card view).2).
Definition insert_verified (card : WorkerCard) : DM ReceiveOutcome :=
  view ← gets ds_view;
  let '(is_new, view) := insert_card card view in
  _ ← modify (set_view view);
  mret (if is_new : bool then Inserted else Updated).

Definition publish_card (d : WorkerDiscovery) : DM unit :=
  issued_at ← now_rfc3339_secs;
  load ← gets ds_current_load;
  let card := set_card (wd_local_card_template d) issued_at load None in
  signing_payload ← with_context "failed to serialize worker card signing payload"
                                 (card_signing_payload card);
  signature ← contextual "failed to sign worker card"
                (mapping_err show_signing_error (sg_sign WORKER_CARD_CONTEXT signing_payload));
  if bool_decide (sg_agent_id signature ≠ wd_agent_id d) then
    throw (Bail ("worker card signer " +:+ sg_agent_id signature +:+
                 " does not match local agent " +:+ wd_agent_id d))
  else
    let card := set_signature card (Some {|
      se_algorithm := sg_algorithm signature; se_context := sg_context signature;
      se_public_key_b64 := sg_public_key_b64 signature;
      se_signature_b64 := sg_signature_b64 signature;
      se_payload_sha256 := sha256_hex signing_payload;
      se_signer_agent_id := sg_agent_id signature |}) in
    payload ← with_context "failed to encode signed worker card" (enc_card card);
    _ ← contextual "failed to publish worker card to x0xd" (go_publish WORKER_TOPIC payload);
    insert_local_card card.

(** ** The consumer *)

Definition verify_and_insert_card_at (card : WorkerCard) (now : string) : DM ReceiveOutcome :=
  if negb (wc_schema_version card =? WORKER_CARD_SCHEMA_VERSION)%N then mret DroppedInvalid
  else
    match is_expired card now with
    | None => throw Panicked
    | Some true => mret DroppedExpired
    | Some false =>
        if negb (card_envelope_is_consistent card) then mret DroppedInvalid
        else
          match wc_signature card with
          | None => mret DroppedInvalid
          | Some signature =>
              resolved ← attempting (kr_resolve (wc_agent_id card));
              match resolved, b64_decode (se_public_key_b64 signature) with
              | Ok public_key, Ok envelope_public_key =>
                  if bool_decide (envelope_public_key ≠ public_key) then mret DroppedInvalid
                  else
                    match b64_decode (se_signature_b64 signature) with
                    | Err _ => mret DroppedInvalid
                    | Ok signature_bytes =>
                        payload ← with_context "failed to serialize worker card for verification"
                                               (card_signing_payload card);
                        outcome ← attempting (sg_verify WORKER_CARD_CONTEXT payload
                                                        signature_bytes public_key);
                        match outcome with
                        | Ok SigValid => insert_verified card
                        | _ => mret DroppedInvalid
                        end
                    end
              | _, _ => mret DroppedInvalid
              end
          end
    end.

Definition process_sse_data_at (data now : string) : DM ReceiveOutcome :=
  event ← with_context "failed to decode worker gossip event JSON" (dec_gossip data);
  if bool_decide (ge_topic event ≠ WORKER_TOPIC) then mret IgnoredTopic
  else if negb (ge_verified event) then mret DroppedUnverified
  else
    payload ← with_context "worker gossip payload was not valid base64"
                           (b64_decode (ge_payload event));
    card ← with_context "worker gossip payload was not a WorkerCard" (dec_card payload);
    verify_and_insert_card_at card now.

(** The interval between warnings about one kind of event: five minutes. *)
Definition WARN_INTERVAL : N := 300 * 1000000000.

Definition should_warn (discriminator : string) : DM bool :=
  now ← plain instant_now;
  last_warn ← gets ds_last_warn_at;
  match last_warn !! discriminator with
  | Some last =>
      if (now - last <? WARN_INTERVAL)%N then mret false
      else _ ← modify (note_warning discriminator now); mret true
  | None => _ ← modify (note_warning discriminator now); mret true
  end.

(** One event of the stream: an error is logged, at most every five minutes as
    a warning; a panic is not caught. *)
Definition consume_event (event : string) : DM unit :=
  match sse_data event with
  | None => mret ()
  | Some data =>
      now ← now_rfc3339_secs;
      outcome ← unwinding (process_sse_data_at data now);
      match outcome with
      | Ok _ => mret ()
      | Err error => _ ← should_warn (classify_decode_error error); mret ()
      end
  end.

Fixpoint consume_chunks (buffer : string) (chunks : list (result bytes string)) : DM unit :=
  match chunks with
  | [] => mret ()
  | Err e :: _ => throw (WithContext "x0xd /events stream chunk failed" e)
  | Ok chunk :: chunks =>
      let '(events, buffer) := push_chunk buffer chunk in
      _ ← for_each consume_event events;
      consume_chunks buffer chunks
  end.

Definition consume_event_stream_once : DM unit :=
  chunks ← contextual "failed to open x0xd /events stream" go_open_events;
  consume_chunks "" chunks.

(** [rounds] rounds of [consume_loop], with the current backoff. *)
Fixpoint consume_loop (rounds : nat) (subscription_id : option string) (backoff : N) : DM unit :=
  match rounds with
  | O => mret ()
  | S rounds =>
      let consume (backoff : N) : DM unit :=
        _ ← unwinding consume_event_stream_once;
        let '(delay, backoff) := next_backoff backoff in
        _ ← plain (go_sleep delay);
        consume_loop rounds None backoff in
      match subscription_id with
      | Some _ => consume backoff
      | None =>
          subscribed ← attempting (go_subscribe WORKER_TOPIC);
          match subscribed with
          | Ok _ => consume default_backoff
          | Err _ =>
              let '(delay, backoff) := next_backoff backoff in
              _ ← plain (go_sleep delay);
              consume_loop rounds None backoff
          end
      end
  end.

(** ** The daemon's loop *)

Definition subscribe : DM unit :=
  started ← gets ds_consumer_started;
  if started : bool then mret ()
  else
    subscription_id ← contextual "failed to subscribe to worker gossip topic"
                                 (go_subscribe WORKER_TOPIC);
    started ← gets ds_consumer_started;
    if started : bool then mret () else modify (spawn_consumer subscription_id).

(** [rounds] rounds of [run_loop]; errors are logged. *)
Fixpoint run_loop (rounds : nat) (d : WorkerDiscovery) : DM unit :=
  match rounds with
  | O => mret ()
  | S rounds =>
      started ← gets ds_consumer_started;
      _ ← (if started : bool then mret (Ok ()) else catch subscribe);
      _ ← (if wd_publish_enabled d then catch (publish_card d) else mret (Ok ()));
      _ ← plain (go_sleep (publish_interval d));
      run_loop rounds d
  end.
End discovery.
