(* ===== verification/TaskLists.v ===== *)
(** * The task-list tracker ([X0xCrdtTracker] of lib.rs of the tracker crate)

    Issues as tasks of a CRDT list with sidecar records in a key-value store;
    lists in the v2 namespace are delegated to [Tracker].  The tracker keeps
    the scope of its group once it is resolved, and a cache of verification
    outcomes; they, and the state of the v2 tracker, are threaded beside the
    world.  Log messages are left out. *)

From S2P Require Import Prelude Wire Identity Core Text Effects FoldTypes Canonical Fold Store.
From S2P Require Import Client Gate Claims Approvals Mapping Tracker Ports Proofs Workers.
Import Reconcile Shards.

Definition CLAIM_CONTEXT : string := "x0x-symphony-claim-v1".
Definition HANDOFF_CONTEXT : string := "x0x-symphony-handoff-v1".
Definition ISSUE_PROVENANCE_CONTEXT : string := "x0x-symphony-issue-provenance-v1".

(** ** Errors *)

(** [TrackerError], with the prefix [Te1] where the v2 tracker has the name. *)
Inductive TrackerError :=
  | ClientFailed (e : ClientError)
  | MappingFailed (e : MappingError)
  | CoreFailed (e : serror)
  | IssueNotFound (id : string)
  | ClaimRejected (id reason : string)
  | GroupResolution (group reason : string)
  | InvalidClaim (reason : string)
  | SigningFailed (message : string)
  | VerifyTransport (reason : string).

(** [Display], with the text of HTTP statuses as a parameter. *)
Definition show_client_error (show_status : N → string) (e : ClientError) : string :=
  match e with
  | Http status body => "x0xd returned HTTP " +:+ show_status status +:+ ": " +:+ body
  | OtherClientError display => display
  end.
Definition show_tracker_error (show_status : N → string) (e : TrackerError) : string :=
  match e with
  | ClientFailed e => show_client_error show_status e
  | MappingFailed e => show_mapping_error e
  | CoreFailed e => show_symphony id e
  | IssueNotFound id => "issue " +:+ id +:+ " not found"
  | ClaimRejected id reason => "issue " +:+ id +:+ " is not claimable: " +:+ reason
  | GroupResolution group reason =>
      "tracker.group " +:+ group +:+ " could not be resolved: " +:+ reason
  | InvalidClaim reason => "invalid claim: " +:+ reason
  | SigningFailed message => "signing error: " +:+ message
  | VerifyTransport reason => "signature verification transport error: " +:+ reason
  end.

(** [From<TrackerError> for SymphonyError]. *)
Definition to_symphony (show_status : N → string) (e : TrackerError) : serror :=
  match e with CoreFailed source => source | other => Tracker (show_tracker_error show_status other) end.

(** ** Configuration *)

Inductive SigningPolicy := SigningDisabled | SigningRequired.
#[export] Instance SigningPolicy_eq_dec : EqDecision SigningPolicy.
Proof. solve_decision. Defined.

Definition parse_signing_policy (value : string) : option SigningPolicy :=
  if bool_decide (value = "disabled") then Some SigningDisabled
  else if bool_decide (value = "required") then Some SigningRequired
  else None.
Definition signing_policy_str (p : SigningPolicy) : string :=
  match p with SigningDisabled => "disabled" | SigningRequired => "required" end.

Record ResourceScope := { rs_list_id : string; rs_store_id : string; rs_group_scoped : bool }.

Definition group_scoped_list_id (group_id list_id : string) : string :=
  "x0x.group." +:+ group_id +:+ ".symphony." +:+ list_id.
Definition unscoped (list_id : string) : ResourceScope :=
  {| rs_list_id := list_id; rs_store_id := store_id_for_list list_id; rs_group_scoped := false |}.
Definition grouped (base_list_id group_id : string) : ResourceScope :=
  let list_id := group_scoped_list_id group_id base_list_id in
  {| rs_list_id := list_id; rs_store_id := store_id_for_list list_id; rs_group_scoped := true |}.

(** [SigningRuntime]: whether a client and a resolver are configured. *)
Record SigningRuntime := { sr_policy : SigningPolicy; sr_client : bool; sr_resolver : bool }.
Definition signing_disabled : SigningRuntime :=
  {| sr_policy := SigningDisabled; sr_client := false; sr_resolver := false |}.
Definition signing_required : SigningRuntime :=
  {| sr_policy := SigningRequired; sr_client := true; sr_resolver := true |}.

(** [IssueCreationRuntime]: whether a worker view is configured. *)
Record IssueCreationRuntime := { ic_worker_view : bool; ic_replication_factor : N }.
Definition new_creation (worker_view : bool) (replication_factor : N) : IssueCreationRuntime :=
  {| ic_worker_view := worker_view; ic_replication_factor := N.max replication_factor 1 |}.
Definition creation_unsupported : IssueCreationRuntime :=
  {| ic_worker_view := false; ic_replication_factor := DEFAULT_REPLICATION_FACTOR |}.

Record VerifyCacheKey := {
  vk_issue_id : string;
  vk_context : string;
  vk_payload_sha256 : string;
  vk_signature_b64 : string;
  vk_public_key_b64 : string;
  vk_signer_agent_id : string
}.
#[export] Instance VerifyCacheKey_eq_dec : EqDecision VerifyCacheKey.
Proof. solve_decision. Defined.
#[export] Instance VerifyCacheKey_countable : Countable VerifyCacheKey.
Proof.
  refine (inj_countable'
    (λ k, (vk_issue_id k, vk_context k, vk_payload_sha256 k, vk_signature_b64 k,
           vk_public_key_b64 k, vk_signer_agent_id k))
    (λ '(i, c, p, s, b, a), Build_VerifyCacheKey i c p s b a) _).
  by intros [].
Defined.

Record X0xCrdtTrackerBuilder := {
  bl_list_id : string;
  bl_agent_id : string;
  bl_signing : SigningRuntime;
  bl_group : option string;
  bl_worker_view : bool;
  bl_replication_factor : N;
  bl_v2_store_policy : StorePolicyMode;
  bl_v2_settle : N;
  bl_v2_fold_limits : FoldLimits
}.

Record X0xCrdtTracker := {
  xt_list_id : string;
  xt_store_id : string;
  xt_agent_id : string;
  xt_signing : SigningRuntime;
  xt_group : option string;
  xt_creation : IssueCreationRuntime;
  (** the v2 engine, for lists of the v2 namespace *)
  xt_v2 : option V2Tracker
}.

Definition from_client_parts (list_id agent_id : string) (signing : SigningRuntime)
    (group : option string) (creation : IssueCreationRuntime) : X0xCrdtTracker := {|
  xt_list_id := list_id; xt_store_id := store_id_for_list list_id; xt_agent_id := agent_id;
  xt_signing := signing; xt_group := group; xt_creation := creation; xt_v2 := None |}.
Definition from_client (list_id agent_id : string) : X0xCrdtTracker :=
  from_client_parts list_id agent_id signing_disabled None creation_unsupported.

(** [X0xCrdtTrackerBuilder::new] and its [group]; the other setters update one
    field.  The settle delay is in milliseconds. *)
Definition new_builder (list_id agent_id : string) : X0xCrdtTrackerBuilder := {|
  bl_list_id := list_id; bl_agent_id := agent_id;
  bl_signing := signing_disabled; bl_group := None; bl_worker_view := false;
  bl_replication_factor := DEFAULT_REPLICATION_FACTOR; bl_v2_store_policy := AppendOnly;
  bl_v2_settle := 2000; bl_v2_fold_limits := default_limits |}.
Definition builder_group (group : string) (b : X0xCrdtTrackerBuilder) : X0xCrdtTrackerBuilder := {|
  bl_list_id := bl_list_id b; bl_agent_id := bl_agent_id b;
  bl_signing := bl_signing b; bl_group := if is_blank group then None else Some group;
  bl_worker_view := bl_worker_view b; bl_replication_factor := bl_replication_factor b;
  bl_v2_store_policy := bl_v2_store_policy b; bl_v2_settle := bl_v2_settle b;
  bl_v2_fold_limits := bl_v2_fold_limits b |}.

(** [build]; constructing the HTTP clients is left out. *)
Definition build (b : X0xCrdtTrackerBuilder) : result X0xCrdtTracker TrackerError :=
  let? v2_engine :=
    if is_v2_namespace (bl_list_id b) then
      let? list_ref := map_err (λ e, CoreFailed (Validation "tracker.list_id" e))
                               (parse_list_ref (bl_list_id b)) in
      bail (SigningFailed
        ("v2 lists require a signing client (set signing.policy = " +:+ dquote +:+ "required" +:+
         dquote +:+ "): every v2 mutation is an ML-DSA-signed chained event"))
        when negb (sr_client (bl_signing b));
      Ok (Some {| vt_manager := with_limits (new_manager (bl_v2_store_policy b)) (bl_v2_fold_limits b);
                  vt_display := true; vt_list_ref := list_ref; vt_agent_id := bl_agent_id b;
                  vt_settle := bl_v2_settle b |})
    else Ok None in
  let tracker := from_client_parts (bl_list_id b) (bl_agent_id b) (bl_signing b) (bl_group b)
                   (new_creation (bl_worker_view b) (bl_replication_factor b)) in
  Ok {| xt_list_id := xt_list_id tracker; xt_store_id := xt_store_id tracker;
        xt_agent_id := xt_agent_id tracker; xt_signing := xt_signing tracker;
        xt_group := xt_group tracker; xt_creation := xt_creation tracker; xt_v2 := v2_engine |}.

(** ** What the tracker calls besides the v2 interfaces *)

(** The named groups and stores of x0xd, the verifier and the resolver of
    trusted keys (their errors as text), the live worker view, the text of
    HTTP statuses and of the errors of the v2 tracker. *)
Class TaskDaemon `{H : Host} := {
  list_named_groups : world → result (list NamedGroupEntry) ClientError * world;
  get_named_group : string → world → result NamedGroupDetails ClientError * world;
  join_group : string → option string → world → result JoinedGroup ClientError * world;
  list_kv_stores : world → result (list TaskListEntry) ClientError * world;
  create_kv_store : string → string → world → result string ClientError * world;
  verify : string → bytes → bytes → bytes → world → result VerifyOutcome string * world;
  resolve : string → world → result bytes string * world;
  worker_snapshot : world → WorkerViewSnapshot * world;
  status_display : N → string;
  v2_error_display : tracker_error → string
}.

Record crdt_state := {
  cs_scope : option ResourceScope;
  cs_verify_cache : gmap VerifyCacheKey VerifyOutcome;
  cs_v2 : tracker_state
}.
Definition initial_crdt : crdt_state :=
  {| cs_scope := None; cs_verify_cache := ∅; cs_v2 := initial_state |}.

Section task_lists.
Context `{X : Extern} `{D : Daemon} `{E : Encoders} `{J : Json} `{C : Chrono} `{V : ApprovalCodec}
  `{H : !Host} `{TD : !TaskDaemon} `{CF : ChronoFormat} `{CC : CardCodec} `{BC : !BlobCodec}.

Definition XM (A : Type) : Type := Run (crdt_state * world) TrackerError A.

(** A call of the daemon that may fail, and one that cannot. *)
Definition client {A} (c : Run world ClientError A) : XM A := λ s,
  let '(r, w) := c s.2 in (map_err ClientFailed r, (s.1, w)).
Definition try_client {A} (c : Run world ClientError A) : XM (result A ClientError) := λ s,
  let '(r, w) := c s.2 in (Ok r, (s.1, w)).
Definition signer {A} (c : Run world string A) : XM A := λ s,
  let '(r, w) := c s.2 in (map_err SigningFailed r, (s.1, w)).
Definition calling {A} (c : world → A * world) : XM A := λ s,
  let '(a, w) := c s.2 in (Ok a, (s.1, w)).
Definition mapping_result {A} (r : result A MappingError) : XM A := lift_result (map_err MappingFailed r).
(** A JSON error is a core error. *)
Definition json_result {A} (r : result A string) : XM A :=
  lift_result (map_err (λ e, CoreFailed (JsonFailure e)) r).
Definition core_result {A} (r : result A serror) : XM A := lift_result (map_err CoreFailed r).

Definition set_scope (scope : ResourceScope) (s : crdt_state * world) : crdt_state * world :=
  ({| cs_scope := Some scope; cs_verify_cache := cs_verify_cache s.1; cs_v2 := cs_v2 s.1 |}, s.2).
Definition cache_verify_outcome (key : VerifyCacheKey) (outcome : VerifyOutcome)
    (s : crdt_state * world) : crdt_state * world :=
  ({| cs_scope := cs_scope s.1; cs_verify_cache := <[key := outcome]> (cs_verify_cache s.1);
      cs_v2 := cs_v2 s.1 |}, s.2).
Definition cached_verify_outcome (key : VerifyCacheKey) : XM (option VerifyOutcome) :=
  gets (λ s, cs_verify_cache s.1 !! key).

(** ** Groups *)

(** Whether a character of the text is white space ([char::is_whitespace]). *)
Fixpoint has_whitespace (s : string) : bool :=
  match s with
  | EmptyString => false
  | String _ s' => bool_decide (is_Some (ws_tail s)) || has_whitespace s'
  end.

Definition looks_like_group_invite (value : string) : bool :=
  let trimmed := trim value in
  starts_with "x0x://invite/" trimmed || ((80 <? blen trimmed)%N && negb (has_whitespace trimmed)).

Definition resolve_or_join_group (t : X0xCrdtTracker) (group : string) : XM string :=
  groups ← client list_named_groups;
  match List.find (λ g, bool_decide (ng_group_id g = group) || bool_decide (ng_name g = group))
                  groups with
  | Some entry =>
      details ← client (get_named_group (ng_group_id entry));
      mret (nd_group_id details)
  | None =>
      if looks_like_group_invite group then
        joined ← client (join_group group (Some (xt_agent_id t)));
        mret (jg_group_id joined)
      else throw (GroupResolution group "not found in x0xd /groups and not an invite link/token")
  end.

Definition resource_scope (t : X0xCrdtTracker) : XM ResourceScope :=
  match xt_group t with
  | None => mret (unscoped (xt_list_id t))
  | Some group =>
      cached ← gets (λ s, cs_scope s.1);
      match cached with
      | Some scope => mret scope
      | None =>
          group_id ← resolve_or_join_group t group;
          let scope := grouped (xt_list_id t) group_id in
          cached ← gets (λ s, cs_scope s.1);
          _ ← (match cached with None => modify (set_scope scope) | Some _ => mret () end);
          cached ← gets (λ s, cs_scope s.1);
          match cached with
          | Some scope => mret scope
          | None => throw (GroupResolution group "resolved scope cache was unexpectedly empty")
          end
      end
  end.

(** ** Sidecar records *)

(** The common body of the five readers and the five writers. *)
Definition get_blob {B} (t : X0xCrdtTracker) (key : string)
    (decode : bytes → result B MappingError) : XM (option B) :=
  scope ← resource_scope t;
  found ← client (get_kv (rs_store_id scope) key);
  match found with
  | None => mret None
  | Some value => blob ← mapping_result (decode value); mret (Some blob)
  end.
Definition put_blob (t : X0xCrdtTracker) (key : string) (encoded : result bytes MappingError)
    : XM unit :=
  scope ← resource_scope t;
  encoded ← mapping_result encoded;
  client (put_kv (rs_store_id scope) key encoded SYMPHONY_JSON_CONTENT_TYPE).

Definition claim_blob_for_task (t : X0xCrdtTracker) (task_id : string) : XM (option ClaimBlob) :=
  get_blob t (claim_key task_id) decode_claim_blob.
Definition handoff_blob_for_task (t : X0xCrdtTracker) (task_id : string) : XM (option HandoffBlob) :=
  get_blob t (handoff_key task_id) decode_handoff_blob.
Definition shard_blob_for_task (t : X0xCrdtTracker) (task_id : string) : XM (option ShardBlob) :=
  get_blob t (shard_key task_id) decode_shard_blob.
Definition approval_blob_for_issue (t : X0xCrdtTracker) (issue_id : string)
    : XM (option ApprovalBlob) :=
  get_blob t (approval_key issue_id) decode_approval_blob.
Definition provenance_blob_for_task (t : X0xCrdtTracker) (task_id : string)
    : XM (option ProvenanceBlob) :=
  get_blob t (provenance_key task_id) decode_provenance_blob.

Definition put_claim_blob (t : X0xCrdtTracker) (task_id : string) (blob : ClaimBlob) : XM unit :=
  put_blob t (claim_key task_id) (encode_claim_blob blob).
Definition put_handoff_blob (t : X0xCrdtTracker) (task_id : string) (blob : HandoffBlob) : XM unit :=
  put_blob t (handoff_key task_id) (encode_handoff_blob blob).
Definition put_shard_blob (t : X0xCrdtTracker) (task_id : string) (blob : ShardBlob) : XM unit :=
  put_blob t (shard_key task_id) (encode_shard_blob blob).
Definition put_approval_blob (t : X0xCrdtTracker) (issue_id : string) (blob : ApprovalBlob)
    : XM unit :=
  put_blob t (approval_key issue_id) (encode_approval_blob blob).
Definition put_provenance_blob (t : X0xCrdtTracker) (task_id : string) (blob : ProvenanceBlob)
    : XM unit :=
  put_blob t (provenance_key task_id) (encode_provenance_blob blob).

(** ** Signing *)

Definition need_client (t : X0xCrdtTracker) : XM unit :=
  if sr_client (xt_signing t) then mret ()
  else throw (SigningFailed "signing client is not configured").
Definition need_resolver (t : X0xCrdtTracker) : XM unit :=
  if sr_resolver (xt_signing t) then mret ()
  else throw (SigningFailed "trusted key resolver is not configured").

Definition envelope_from_sign_response (response : SignResponse) (target_context : string)
    (payload : bytes) (target_signer : string) : result SignatureEnvelope TrackerError :=
  bail (SigningFailed ("sign response algorithm " +:+ sg_algorithm response +:+
                       " did not match " +:+ SIGN_ALGORITHM))
    when negb (bool_decide (sg_algorithm response = SIGN_ALGORITHM));
  bail (SigningFailed ("sign response context " +:+ sg_context response +:+
                       " did not match " +:+ target_context))
    when negb (bool_decide (sg_context response = target_context));
  bail (SigningFailed ("sign response agent " +:+ sg_agent_id response +:+
                       " did not match claim owner " +:+ target_signer))
    when negb (bool_decide (sg_agent_id response = target_signer));
  Ok {| se_algorithm := sg_algorithm response; se_context := sg_context response;
        se_public_key_b64 := sg_public_key_b64 response;
        se_signature_b64 := sg_signature_b64 response; se_payload_sha256 := sha256_hex payload;
        se_signer_agent_id := sg_agent_id response |}.

(** The common part of [sign_claim], [sign_handoff] and
    [sign_and_put_provenance]. *)
Definition sign_payload (t : X0xCrdtTracker) (context : string) (payload : bytes) (owner : string)
    : XM SignatureEnvelope :=
  _ ← need_client t;
  response ← signer (sign context payload);
  lift_result (envelope_from_sign_response response context payload owner).

Definition sign_claim (t : X0xCrdtTracker) (claim : Claim) : XM Claim :=
  payload ← json_result (claim_signing_payload claim);
  envelope ← sign_payload t CLAIM_CONTEXT payload (cl_by claim);
  mret {| cl_issue_id := cl_issue_id claim; cl_by := cl_by claim; cl_at := cl_at claim;
          cl_heartbeat_at := cl_heartbeat_at claim; cl_shard_role := cl_shard_role claim;
          cl_signature := Some envelope |}.

Definition sign_handoff (t : X0xCrdtTracker) (handoff : Handoff) (by_ : string) : XM Handoff :=
  payload ← json_result (handoff_signing_payload handoff);
  envelope ← sign_payload t HANDOFF_CONTEXT payload by_;
  mret {| ho_summary := ho_summary handoff; ho_files_changed := ho_files_changed handoff;
          ho_validation := ho_validation handoff; ho_follow_up := ho_follow_up handoff;
          ho_proofs_dir := ho_proofs_dir handoff; ho_issue_id := ho_issue_id handoff;
          ho_signer_agent_id := ho_signer_agent_id handoff; ho_signature := Some envelope |}.

(** [serde_json::to_vec] of a sorted map of strings, empty if it fails. *)
Definition issue_provenance_payload (task_id title description : string) : bytes :=
  let payload := {[ "description" := JString description; "issue_id" := JString task_id;
                    "title" := JString title ]} : gmap string Value in
  match enc_object payload with Ok b => b | Err _ => "" end.

Definition sign_and_put_provenance (t : X0xCrdtTracker) (task_id title description : string)
    : XM unit :=
  let payload := issue_provenance_payload task_id title description in
  envelope ← sign_payload t ISSUE_PROVENANCE_CONTEXT payload (xt_agent_id t);
  put_provenance_blob t task_id (new_provenance_blob envelope).

(** ** Verifying *)

Definition verify_outcome_to_result (outcome : VerifyOutcome) : result unit TrackerError :=
  match outcome with
  | SigValid => Ok ()
  | SigInvalid reason => Err (SigningFailed ("x0xd verify rejected signature: " +:+ reason))
  | SigTransportError reason => Err (VerifyTransport reason)
  end.

Definition is_transport_error (outcome : VerifyOutcome) : bool :=
  match outcome with SigTransportError _ => true | _ => false end.

Definition verify_envelope (t : X0xCrdtTracker) (issue_id : string) (envelope : SignatureEnvelope)
    (target_context : string) (payload : bytes) : XM unit :=
  if bool_decide (se_algorithm envelope ≠ SIGN_ALGORITHM) then
    throw (SigningFailed ("unsupported signing algorithm " +:+ se_algorithm envelope))
  else if bool_decide (se_context envelope ≠ target_context) then
    throw (SigningFailed ("signature context " +:+ se_context envelope +:+
                          " does not match " +:+ target_context))
  else
    let actual_digest := sha256_hex payload in
    if bool_decide (se_payload_sha256 envelope ≠ actual_digest) then
      throw (SigningFailed ("payload digest " +:+ se_payload_sha256 envelope +:+
                            " does not match " +:+ actual_digest))
    else
      envelope_key ← lift_result (map_err (λ e, SigningFailed ("invalid public_key_b64: " +:+ e))
                                          (b64_decode (se_public_key_b64 envelope)));
      _ ← need_resolver t;
      trusted_key ← signer (resolve (se_signer_agent_id envelope));
      if bool_decide (envelope_key ≠ trusted_key) then
        throw (SigningFailed ("envelope public key does not belong to signer " +:+
                              se_signer_agent_id envelope))
      else
        signature ← lift_result (map_err (λ e, SigningFailed ("invalid signature_b64: " +:+ e))
                                         (b64_decode (se_signature_b64 envelope)));
        let cache_key := {|
          vk_issue_id := issue_id; vk_context := target_context;
          vk_payload_sha256 := actual_digest; vk_signature_b64 := se_signature_b64 envelope;
          vk_public_key_b64 := se_public_key_b64 envelope;
          vk_signer_agent_id := se_signer_agent_id envelope |} in
        cached ← cached_verify_outcome cache_key;
        match cached with
        | Some outcome => lift_result (verify_outcome_to_result outcome)
        | None =>
            _ ← need_client t;
            outcome ← signer (verify target_context payload signature envelope_key);
            _ ← (if is_transport_error outcome then mret ()
                 else modify (cache_verify_outcome cache_key outcome));
            lift_result (verify_outcome_to_result outcome)
        end.

Definition verify_claim (t : X0xCrdtTracker) (issue : Issue) (claim : Claim) : XM unit :=
  if bool_decide (cl_issue_id claim ≠ Some (iss_id issue)) then
    throw (SigningFailed ("claim issue_id does not match parent issue " +:+ iss_id issue))
  else
    match cl_signature claim with
    | None => throw (SigningFailed ("claim for issue " +:+ iss_id issue +:+ " is unsigned"))
    | Some envelope =>
        if bool_decide (se_signer_agent_id envelope ≠ cl_by claim) then
          throw (SigningFailed ("claim owner " +:+ cl_by claim +:+ " does not match signer " +:+
                                se_signer_agent_id envelope))
        else
          payload ← json_result (claim_signing_payload claim);
          verify_envelope t (iss_id issue) envelope CLAIM_CONTEXT payload
    end.

Definition verify_handoff (t : X0xCrdtTracker) (issue : Issue) (handoff : Handoff) : XM unit :=
  match ho_signature handoff with
  | None => throw (SigningFailed ("handoff for issue " +:+ iss_id issue +:+ " is unsigned"))
  | Some envelope =>
      if bool_decide (ho_issue_id handoff ≠ Some (iss_id issue)) then
        throw (SigningFailed ("handoff issue_id does not match parent issue " +:+ iss_id issue))
      else
        match ho_signer_agent_id handoff with
        | None =>
            throw (SigningFailed ("handoff for issue " +:+ iss_id issue +:+
                                  " is missing signer_agent_id"))
        | Some signer_agent_id =>
            if bool_decide (signer_agent_id ≠ se_signer_agent_id envelope) then
              throw (SigningFailed ("handoff signer binding " +:+ signer_agent_id +:+
                                    " does not match envelope signer " +:+
                                    se_signer_agent_id envelope))
            else
              payload ← json_result (handoff_signing_payload handoff);
              verify_envelope t (iss_id issue) envelope HANDOFF_CONTEXT payload
        end
  end.

Definition verify_issue_provenance (t : X0xCrdtTracker) (issue : Issue) : XM (option string) :=
  blob ← provenance_blob_for_task t (iss_id issue);
  match blob with
  | None => mret None
  | Some blob =>
      let payload :=
        issue_provenance_payload (iss_id issue) (iss_title issue) (iss_description issue) in
      _ ← verify_envelope t (iss_id issue) (pb_envelope blob) ISSUE_PROVENANCE_CONTEXT payload;
      mret (Some (se_signer_agent_id (pb_envelope blob)))
  end.

(** An issue with other claim, state, provenance and notices. *)
Definition update_issue (issue : Issue) (claim : option Claim) (state : string)
    (provenance : option SignatureProvenance) (notices : list VerificationNotice) : Issue := {|
  iss_schema_version := iss_schema_version issue; iss_id := iss_id issue;
  iss_identifier := iss_identifier issue; iss_title := iss_title issue;
  iss_description := iss_description issue; iss_priority := iss_priority issue;
  iss_state := state; iss_branch_name := iss_branch_name issue; iss_url := iss_url issue;
  iss_labels := iss_labels issue; iss_blocked_by := iss_blocked_by issue;
  iss_shard := iss_shard issue; iss_claim := claim; iss_handoff := iss_handoff issue;
  iss_signature_provenance := provenance; iss_verification_notices := notices;
  iss_created_at := iss_created_at issue; iss_updated_at := iss_updated_at issue;
  iss_extra := iss_extra issue |}.

Definition strip_bad_claim (issue : Issue) (claim : Claim) (reason : string)
    : result Issue TrackerError :=
  let? state := (if bool_decide (iss_state issue = "in_progress")
                 then map_err CoreFailed (new_issue_state "todo") else Ok (iss_state issue)) in
  Ok (update_issue issue None state (iss_signature_provenance issue)
        (iss_verification_notices issue ++
         [{| vn_kind := BadClaim; vn_claimant := Some (cl_by claim); vn_reason := reason |}])).

Definition set_provenance (issue : Issue) (signer : string) : Issue :=
  update_issue issue (iss_claim issue) (iss_state issue) (Some (ProvenanceVerified signer))
    (iss_verification_notices issue).

(** [Err(VerifyTransport)] aborts the listing with the issue's id in front. *)
Definition transport_of (issue : Issue) (reason : string) : TrackerError :=
  VerifyTransport ("issue " +:+ iss_id issue +:+ ": " +:+ reason).

(** The claim of an issue: kept, or stripped with a notice. *)
Definition check_claim (t : X0xCrdtTracker) (issue : Issue) : XM Issue :=
  match iss_claim issue with
  | None => mret issue
  | Some claim =>
      checked ← catch (verify_claim t issue claim);
      match checked with
      | Ok _ => mret issue
      | Err (VerifyTransport reason) => throw (transport_of issue reason)
      | Err error => lift_result (strip_bad_claim issue claim (show_tracker_error status_display error))
      end
  end.
(** Whether the handoff of an issue, if any, holds. *)
Definition check_handoff (t : X0xCrdtTracker) (issue : Issue) : XM bool :=
  match iss_handoff issue with
  | None => mret true
  | Some handoff =>
      checked ← catch (verify_handoff t issue handoff);
      match checked with
      | Ok _ => mret true
      | Err (VerifyTransport reason) => throw (transport_of issue reason)
      | Err _ => mret false
      end
  end.
(** The provenance of an issue: attached, or left off. *)
Definition check_provenance (t : X0xCrdtTracker) (issue : Issue) : XM Issue :=
  checked ← catch (verify_issue_provenance t issue);
  match checked with
  | Ok (Some signer) => mret (set_provenance issue signer)
  | Ok None => mret issue
  | Err (VerifyTransport reason) => throw (transport_of issue reason)
  | Err _ => mret issue
  end.

Fixpoint verify_issues (t : X0xCrdtTracker) (issues : list Issue) : XM (list Issue) :=
  match issues with
  | [] => mret []
  | issue :: rest =>
      issue ← check_claim t issue;
      handoff_ok ← check_handoff t issue;
      if handoff_ok : bool then
        issue ← check_provenance t issue;
        verified ← verify_issues t rest;
        mret (issue :: verified)
      else verify_issues t rest
  end.
Definition filter_verified_issues (t : X0xCrdtTracker) (issues : list Issue) : XM (list Issue) :=
  if bool_decide (sr_policy (xt_signing t) = SigningDisabled) then mret issues
  else verify_issues t issues.

(** ** Delegation to the v2 engine *)

(** An operation of [Tracker], with its errors as texts. *)
Definition v2_error (e : SymphonyError tracker_error) : serror :=
  match e with
  | Validation field message => Validation field message
  | Tracker detail => Tracker (v2_error_display detail)
  | Unsupported message => Unsupported message
  | RunnerError message => RunnerError message
  | WorkspaceError message => WorkspaceError message
  | WorkflowError message => WorkflowError message
  | IoFailure message => IoFailure message
  | JsonFailure message => JsonFailure message
  end.
Definition in_v2 {A} (c : TM A) : Run (crdt_state * world) serror A := λ s,
  let '(r, (v2, w)) := c (cs_v2 s.1, s.2) in
  (map_err v2_error r,
   ({| cs_scope := cs_scope s.1; cs_verify_cache := cs_verify_cache s.1; cs_v2 := v2 |}, w)).
(** An operation of the v1 tracker, with its errors as core errors. *)
Definition in_v1 {A} (c : XM A) : Run (crdt_state * world) serror A :=
  mapping_err (to_symphony status_display) c.

(** ** Reading *)

Fixpoint issues_from_tasks (t : X0xCrdtTracker) (tasks : list TaskEntry) : XM (list Issue) :=
  match tasks with
  | [] => mret []
  | task :: rest =>
      claim_blob ← claim_blob_for_task t (te_id task);
      handoff_blob ← handoff_blob_for_task t (te_id task);
      shard_blob ← shard_blob_for_task t (te_id task);
      issue ← mapping_result (issue_from_task task claim_blob handoff_blob shard_blob);
      issues ← issues_from_tasks t rest;
      mret (issue :: issues)
  end.

Definition FORBIDDEN : N := 403.

(** The inherent [list_issues], for a list of tasks. *)
Definition list_v1_issues (t : X0xCrdtTracker) : XM (list Issue) :=
  scope ← resource_scope t;
  tasks ← try_client (list_tasks (rs_list_id scope));
  match tasks with
  | Err (Http status body) =>
      if rs_group_scoped scope && ((status =? FORBIDDEN) || (status =? NOT_FOUND))%N then mret []
      else throw (ClientFailed (Http status body))
  | Err error => throw (ClientFailed error)
  | Ok tasks =>
      issues ← issues_from_tasks t tasks;
      filter_verified_issues t issues
  end.

(** The inherent [list_issues]. *)
Definition list_tracker_issues (t : X0xCrdtTracker) : XM (list Issue) :=
  match xt_v2 t with
  | Some v2 => mapping_err CoreFailed (in_v2 (list_issues v2))
  | None => list_v1_issues t
  end.

Definition fetch_issue (t : X0xCrdtTracker) (id : string) : XM Issue :=
  issues ← list_tracker_issues t;
  match List.find (λ issue, bool_decide (iss_id issue = id)) issues with
  | Some issue => mret issue
  | None => throw (IssueNotFound id)
  end.

Definition ensure_tracker_surfaces (t : X0xCrdtTracker) : XM unit :=
  match xt_v2 t with
  | Some v2 => mapping_err CoreFailed (in_v2 (ensure_surfaces v2))
  | None =>
      scope ← resource_scope t;
      task_lists ← client list_task_lists;
      _ ← (if existsb (λ entry, bool_decide (tl_id entry = rs_list_id scope)) task_lists then mret ""
           else client (create_task_list (rs_list_id scope) (rs_list_id scope)));
      stores ← client list_kv_stores;
      _ ← (if existsb (λ entry, bool_decide (tl_id entry = rs_store_id scope)) stores then mret ""
           else client (create_kv_store (rs_store_id scope) (rs_store_id scope)));
      mret ()
  end.

(** ** Creating issues *)

(** [u8::try_from]. *)
Definition draft_priority_as_u8 (priority : option Z) : result (option N) TrackerError :=
  match priority with
  | None => Ok None
  | Some value =>
      if ((0 <=? value) && (value <=? 255))%Z then Ok (Some (Z.to_N value))
      else Err (CoreFailed (Validation "issue.priority" "must be between 0 and 255"))
  end.

Definition effective_description (description : option string) : string :=
  match description with
  | Some value => if is_blank value then "" else value
  | None => ""
  end.

(** The workers a new issue may be assigned to.  The expiry of a card that is
    in a snapshot of the daemon's view does not panic ([snapshot_live]). *)
Definition live_verified_worker_ids (cards : list WorkerCard) (now : string) : list string :=
  wc_agent_id <$> List.filter (λ card,
    (wc_schema_version card =? WORKER_CARD_SCHEMA_VERSION)%N &&
    bool_decide (is_expired card now = Some false) && card_envelope_is_consistent card) cards.

Definition NO_WORKERS : string :=
  "cannot assign shard: live worker view is empty; start at least one trusted worker".

(** The sidecar records of a new task: the shard, and under required signing
    the signed provenance. *)
Definition put_sidecars (t : X0xCrdtTracker) (task_id title description : string) (shard : Shard)
    (view_epoch : N) : XM unit :=
  written_at ← calling now_utc;
  _ ← put_shard_blob t task_id (new_shard_blob shard view_epoch written_at);
  if bool_decide (sr_policy (xt_signing t) = SigningRequired)
  then sign_and_put_provenance t task_id title description
  else mret ().

Definition create_issue_with_shard (t : X0xCrdtTracker) (draft : IssueDraft) : XM Issue :=
  if is_blank (id_title draft) then
    throw (CoreFailed (Validation "issue.title" "must not be empty"))
  else
    _ ← lift_result (draft_priority_as_u8 (id_priority draft));
    if negb (ic_worker_view (xt_creation t)) then
      throw (CoreFailed (Unsupported "this tracker does not own issue creation"))
    else
      snapshot ← calling worker_snapshot;
      now ← calling now_utc;
      let workers := live_verified_worker_ids (vs_cards snapshot) now in
      if bool_decide (workers = []) then throw (CoreFailed (Unsupported NO_WORKERS))
      else
        let description := effective_description (id_description draft) in
        let add := new_task_draft (id_title draft) in
        let add := if bool_decide (description = "") then add else with_description add description in
        scope ← resource_scope t;
        task_id ← client (add_task (rs_list_id scope) add);
        issue_id ← core_result (new_issue_id task_id);
        match assign_with_metadata issue_id workers (ic_replication_factor (xt_creation t))
                DEFAULT_CLAIM_TTL_MS (vs_view_epoch snapshot) with
        | None => throw (CoreFailed (Unsupported NO_WORKERS))
        | Some shard =>
            written ← catch (put_sidecars t task_id (id_title draft) description shard
                               (vs_view_epoch snapshot));
            match written with
            | Err error =>
                _ ← try_client (update_task (rs_list_id scope) task_id TaskComplete);
                throw error
            | Ok _ => fetch_issue t issue_id
            end
        end.

(** ** Guards *)

Definition ensure_agent_matches (t : X0xCrdtTracker) (id agent_id : string) : XM unit :=
  if bool_decide (agent_id = xt_agent_id t) then mret ()
  else throw (ClaimRejected id ("x0xd claims as local agent " +:+ xt_agent_id t +:+
                                ", not requested agent " +:+ agent_id)).

Definition ensure_issue_claimable (issue : Issue) (id : string) : XM unit :=
  if bool_decide (is_Some (iss_claim issue)) then
    throw (ClaimRejected id "issue already has an active claim")
  else if bool_decide (iss_state issue ≠ "todo") then
    throw (ClaimRejected id ("state is " +:+ iss_state issue))
  else mret ().

Definition v1_claim_issue_id (claim : Claim) : XM string :=
  match cl_issue_id claim with
  | Some id => mret id
  | None => throw (InvalidClaim "claim is missing issue_id")
  end.

Definition current_active_claim (t : X0xCrdtTracker) (id : string) : XM Claim :=
  blob ← claim_blob_for_task t id;
  match blob with
  | None => throw (InvalidClaim ("issue " +:+ id +:+ " has no claim blob"))
  | Some blob =>
      if is_active blob then mret (cb_claim blob)
      else throw (InvalidClaim ("issue " +:+ id +:+ " claim status is " +:+
                                debug_status (cb_status blob)))
  end.

Definition ensure_current_claim_owner (t : X0xCrdtTracker) (claim : Claim) : XM string :=
  id ← v1_claim_issue_id claim;
  current ← current_active_claim t id;
  if bool_decide (cl_by current = cl_by claim) then mret id
  else throw (InvalidClaim ("issue " +:+ id +:+ " is claimed by " +:+ cl_by current +:+ ", not " +:+
                            cl_by claim)).

(** ** The operations on claims, for a list of tasks *)

Definition v1_claim (t : X0xCrdtTracker) (id agent_id : string) : XM Claim :=
  _ ← ensure_agent_matches t id agent_id;
  issue ← fetch_issue t id;
  _ ← ensure_issue_claimable issue id;
  at_ ← calling now_utc;
  let claim := new_claim (Some id) agent_id at_ ManualM1 in
  claim ← (if bool_decide (sr_policy (xt_signing t) = SigningDisabled) then mret claim
           else sign_claim t claim);
  scope ← resource_scope t;
  _ ← client (update_task (rs_list_id scope) id TaskClaim);
  written_at ← calling now_utc;
  _ ← put_claim_blob t id (active_blob claim written_at);
  mret claim.

Definition v1_heartbeat (t : X0xCrdtTracker) (claim : Claim) : XM unit :=
  id ← ensure_current_claim_owner t claim;
  now ← calling now_utc;
  let refreshed := with_heartbeat claim now in
  put_claim_blob t id (active_blob refreshed (cl_heartbeat_at refreshed)).

Definition v1_release (t : X0xCrdtTracker) (claim : Claim) (reason : ReleaseReason) : XM unit :=
  id ← ensure_current_claim_owner t claim;
  now ← calling now_utc;
  put_claim_blob t id (released_blob claim reason now).

Definition v1_block (t : X0xCrdtTracker) (claim : Claim) (reason : ReleaseReason) : XM unit :=
  id ← ensure_current_claim_owner t claim;
  now ← calling now_utc;
  put_claim_blob t id (blocked_blob claim reason now).

(** The handoff as it is stored: bound to issue and signer, and signed. *)
Definition bind_handoff (handoff : Handoff) (issue_id signer : string) : Handoff := {|
  ho_summary := ho_summary handoff; ho_files_changed := ho_files_changed handoff;
  ho_validation := ho_validation handoff; ho_follow_up := ho_follow_up handoff;
  ho_proofs_dir := ho_proofs_dir handoff; ho_issue_id := Some issue_id;
  ho_signer_agent_id := Some signer; ho_signature := None |}.

Definition v1_handoff (t : X0xCrdtTracker) (claim : Claim) (handoff : Handoff) : XM unit :=
  id ← ensure_current_claim_owner t claim;
  prepared ← (if bool_decide (sr_policy (xt_signing t) = SigningDisabled) then mret handoff
              else sign_handoff t (bind_handoff handoff id (cl_by claim)) (cl_by claim));
  now ← calling now_utc;
  _ ← put_handoff_blob t id (new_handoff_blob prepared now);
  scope ← resource_scope t;
  _ ← client (update_task (rs_list_id scope) id TaskComplete);
  now ← calling now_utc;
  put_claim_blob t id (completed_blob claim now).

Definition v1_requeue_blocked (t : X0xCrdtTracker) (issue_id : string) (reason : ReleaseReason)
    : XM unit :=
  blob ← claim_blob_for_task t issue_id;
  match blob with
  | None => throw (InvalidClaim ("issue " +:+ issue_id +:+ " has no claim blob"))
  | Some blob =>
      if bool_decide (cb_status blob ≠ BlobBlocked) then
        throw (InvalidClaim ("issue " +:+ issue_id +:+ " claim status is " +:+
                             debug_status (cb_status blob) +:+ ", not Blocked"))
      else
        let reason_code := rr_code <$> cb_release_reason blob in
        if bool_decide (reason_code ≠ Some RcAwaitingApproval) then
          throw (InvalidClaim ("issue " +:+ issue_id +:+ " is blocked with reason " +:+
                               debug_opt (reason_code_str <$> reason_code) +:+
                               ", not awaiting_approval; refusing requeue"))
        else
          now ← calling now_utc;
          put_claim_blob t issue_id (released_blob (cb_claim blob) reason now)
  end.

(** ** Approvals *)

Definition v1_load_approval_state (t : X0xCrdtTracker) (issue_id : string) : XM ApprovalState :=
  blob ← approval_blob_for_issue t issue_id;
  match blob with
  | None => mret {| aps_events := []; aps_consumed := [] |}
  | Some blob => mret {| aps_events := ab_events blob; aps_consumed := ab_consumed blob |}
  end.

Definition approval_blob_or_new (t : X0xCrdtTracker) (issue_id : string) : XM ApprovalBlob :=
  blob ← approval_blob_for_issue t issue_id;
  match blob with
  | Some blob => mret blob
  | None => now ← calling now_utc; mret (new_approval_blob issue_id now)
  end.

Definition v1_store_approval (t : X0xCrdtTracker) (event : ApprovalEvent) : XM unit :=
  blob ← approval_blob_or_new t (av_issue_id event);
  now ← calling now_utc;
  put_approval_blob t (av_issue_id event) (set_updated_at (with_event blob event) now).

Definition v1_store_consumed (t : X0xCrdtTracker) (event : ApprovalConsumed) : XM unit :=
  blob ← approval_blob_or_new t (ac_issue_id event);
  now ← calling now_utc;
  put_approval_blob t (ac_issue_id event) (set_updated_at (with_consumed blob event) now).

(** ** Selections *)

(** Every blocker is listed, in a terminal state. *)
Definition blockers_are_terminal (issue : Issue) (issues : list Issue) (terminal : list string) : bool :=
  forallb (λ blocker,
    match List.find (λ candidate, bool_decide (iss_id candidate = ir_id blocker)) issues with
    | Some candidate => bool_decide (iss_state candidate ∈ terminal)
    | None => false
    end) (iss_blocked_by issue).

Definition priority_sort_key (issue : Issue) : N := default 255%N (iss_priority issue).

Definition select_candidates (issues : list Issue) (ctx : PollContext) : list Issue :=
  sort_by (λ issue, (priority_sort_key issue, iss_id issue))
    (List.filter (λ issue,
       bool_decide (iss_state issue ∈ pc_active_states ctx) &&
       blockers_are_terminal issue issues (pc_terminal_states ctx)) issues).

Definition select_ids (issues : list Issue) (ids : list string) : list Issue :=
  List.filter (λ issue, bool_decide (iss_id issue ∈ ids)) issues.

Definition select_claimed (issues : list Issue) (agent_id : option string) : list Issue :=
  List.filter (λ issue,
    match iss_claim issue with
    | None => false
    | Some claim =>
        match agent_id with None => true | Some agent => bool_decide (cl_by claim = agent) end
    end) issues.

(** [impl Tracker for X0xCrdtTracker]: every operation goes to the v2 engine
    when there is one. *)
Definition route {A} (t : X0xCrdtTracker) (v2 : V2Tracker → TM A) (v1 : XM A)
    : Run (crdt_state * world) serror A :=
  match xt_v2 t with Some engine => in_v2 (v2 engine) | None => in_v1 v1 end.

Definition CrdtApi (t : X0xCrdtTracker) : TrackerApi (crdt_state * world) string := {|
  tk_list_issues := in_v1 (list_tracker_issues t);
  tk_create_issue draft := route t (λ v2, create_issue v2 draft) (create_issue_with_shard t draft);
  tk_fetch_candidates ctx :=
    route t (λ v2, fetch_candidates v2 (pc_active_states ctx))
      (issues ← list_tracker_issues t; mret (select_candidates issues ctx));
  tk_fetch_by_ids ids :=
    route t (λ v2, fetch_by_ids v2 ids) (issues ← list_tracker_issues t; mret (select_ids issues ids));
  tk_claim id agent_id := route t (λ v2, v2_claim v2 id agent_id) (v1_claim t id agent_id);
  tk_heartbeat claim := route t (λ v2, v2_heartbeat v2 claim) (v1_heartbeat t claim);
  tk_release claim reason := route t (λ v2, v2_release v2 claim reason) (v1_release t claim reason);
  tk_handoff claim handoff := route t (λ v2, v2_handoff v2 claim handoff) (v1_handoff t claim handoff);
  tk_fetch_claimed agent_id :=
    route t (λ v2, fetch_claimed v2 agent_id)
      (issues ← list_tracker_issues t; mret (select_claimed issues agent_id));
  tk_block claim reason := route t (λ v2, v2_block v2 claim reason) (v1_block t claim reason);
  tk_requeue_blocked issue_id reason :=
    route t (λ v2, requeue_blocked v2 issue_id reason) (v1_requeue_blocked t issue_id reason);
  tk_load_approval_state issue_id :=
    route t (λ v2, load_approval_state v2 issue_id) (v1_load_approval_state t issue_id);
  tk_store_approval event :=
    route t (λ v2, store_approval v2 event) (v1_store_approval t event);
  tk_store_consumed event :=
    route t (λ v2, store_consumed v2 event) (v1_store_consumed t event) |}.
End task_lists.
