(* ===== verification/Discovering.v ===== *)
(** * The worker list holds

    What is in a daemon's view of the workers, whatever arrives by gossip: only
    cards whose signature was verified, and the epoch tells changes of the set
    of workers apart.  And how one unsigned card ends the consumer. *)

From S2P Require Import Prelude Wire Identity Core Text Events Effects Store Claims Approvals.
From S2P Require Import Ports Proofs Workers.
Import Reconcile.

Section cards.
Context `{X : Extern} `{C : Chrono} `{CF : ChronoFormat} `{CC : CardCodec}.

(** No time makes the expiry of the card panic. *)
Definition never_overflows (card : WorkerCard) : Prop := ∀ now, is_expired card now ≠ None.

Lemma live_never_overflows card now : is_expired card now = Some false → never_overflows card.
Proof.
  unfold never_overflows, is_expired. intros H now'.
  destruct (parse_from_rfc3339 (wc_issued_at card)); [|done].
  destruct (parse_from_rfc3339 now); [|done].
  destruct (DURATION_MAX_SECONDS <? wc_ttl_seconds card)%N; [done|].
  destruct (date_max <? _)%Z; [done|]. by destruct (parse_from_rfc3339 now').
Qed.

Lemma retain_live_spec now entries cards :
  (∀ k card, (k, card) ∈ entries → never_overflows card) →
  ∃ cards', retain_live now entries cards = (false, cards') ∧
    ∀ k card, cards' !! k = Some card ↔ cards !! k = Some card ∧
      ∀ c, (k, c) ∈ entries → is_expired c now = Some false.
Proof.
  revert cards. induction entries as [|[k c] entries IH]; intros cards Hn; cbn [retain_live].
  { exists cards. split; [done|]. intros k card. split; [|naive_solver].
    intros H. split; [done|]. by intros c ?%elem_of_nil. }
  assert (Hk : is_expired c now ≠ None) by (apply (Hn k); apply elem_of_cons; by left).
  destruct (is_expired c now) as [[]|] eqn:He; [..|done].
  - destruct (IH (delete k cards)) as (cards'&Hr&Hspec).
    { intros k' card Hin. apply (Hn k'). apply elem_of_cons. by right. }
    exists cards'. split; [done|]. intros k' card. rewrite Hspec, lookup_delete_Some.
    setoid_rewrite elem_of_cons. split.
    + intros ([Hne Hc]&Hall). split; [done|]. intros c' [[= -> ->]|Hin]; [done|by apply Hall].
    + intros [Hc Hall]. split_and!; [intros ->|done|auto].
      specialize (Hall c (or_introl eq_refl)). congruence.
  - destruct (IH cards) as (cards'&Hr&Hspec).
    { intros k' card Hin. apply (Hn k'). apply elem_of_cons. by right. }
    exists cards'. split; [done|]. intros k' card. rewrite Hspec. setoid_rewrite elem_of_cons.
    split; [|naive_solver]. intros [Hc Hall]. split; [done|].
    intros c' [[= -> ->]|Hin]; [done|by apply Hall].
Qed.

(** Reaping keeps exactly the live cards. *)
Lemma retain_live_view now cards :
  map_Forall (λ _, never_overflows) cards →
  ∃ cards', retain_live now (btree_iter cards) cards = (false, cards') ∧
    ∀ k card, cards' !! k = Some card ↔ cards !! k = Some card ∧ is_expired card now = Some false.
Proof.
  intros Hn. destruct (retain_live_spec now (btree_iter cards) cards) as (cards'&Hr&Hspec).
  { intros k card Hin%elem_of_btree_iter. by eapply Hn. }
  exists cards'. split; [done|]. intros k card. rewrite Hspec. setoid_rewrite elem_of_btree_iter.
  naive_solver congruence.
Qed.
End cards.

(** ** The view of a daemon *)

Section view.
Context `{X : Extern} `{C : Chrono} `{CF : ChronoFormat} `{CC : CardCodec}.
Context {W : Type} `{SG : !SigningApi W} `{M : !Machine W} `{GO : !GossipApi W}.

(** The card's signature was verified with the key that the resolver trusts for
    its agent: the answers of both. *)
Definition vouched (card : WorkerCard) : Prop :=
  ∃ signature key sig payload w1 w1' w2 w2',
    wc_signature card = Some signature ∧ card_envelope_is_consistent card = true ∧
    b64_decode (se_public_key_b64 signature) = Ok key ∧
    kr_resolve (wc_agent_id card) w1 = (Ok key, w1') ∧
    b64_decode (se_signature_b64 signature) = Ok sig ∧
    card_signing_payload card = Ok payload ∧
    sg_verify WORKER_CARD_CONTEXT payload sig key w2 = (Ok SigValid, w2').

(** The card is this daemon's own, signed by the local signer. *)
Definition own_card (d : WorkerDiscovery) (card : WorkerCard) : Prop :=
  wc_agent_id card = wd_agent_id d ∧
  ∃ signature payload response w w',
    wc_signature card = Some signature ∧ card_signing_payload card = Ok payload ∧
    sg_sign WORKER_CARD_CONTEXT payload w = (Ok response, w') ∧
    se_signature_b64 signature = sg_signature_b64 response ∧
    se_payload_sha256 signature = sha256_hex payload ∧
    se_signer_agent_id signature = wd_agent_id d.

Definition card_ok (d : WorkerDiscovery) (id : string) (card : WorkerCard) : Prop :=
  wc_agent_id card = id ∧ wc_schema_version card = WORKER_CARD_SCHEMA_VERSION ∧
  never_overflows card ∧ (vouched card ∨ own_card d card).
Definition view_ok (d : WorkerDiscovery) (view : WorkerView) : Prop :=
  map_Forall (card_ok d) (wv_cards view).

(** From an earlier view: the epoch has not gone back, and an epoch that is
    still the same shows the same workers. *)
Definition view_follows (earlier view : WorkerView) : Prop :=
  (wv_epoch earlier ≤ wv_epoch view ≤ u64_max)%N ∧
  (wv_epoch view = wv_epoch earlier → (wv_epoch earlier < u64_max)%N →
   dom (wv_cards view) = dom (wv_cards earlier)).

Lemma view_follows_refl view : (wv_epoch view ≤ u64_max)%N → view_follows view view.
Proof. intros Hfit. split; [lia|done]. Qed.

Lemma view_follows_bump earlier view cards :
  view_follows earlier view →
  view_follows earlier (bump_epoch {| wv_cards := cards; wv_epoch := wv_epoch view |}).
Proof.
  intros [Hle _]. unfold view_follows, bump_epoch, sat_add64, u64_max in *. simpl.
  split; [|intros Heq Hlt]; lia.
Qed.

Lemma view_follows_same earlier view cards :
  dom cards = dom (wv_cards view) → view_follows earlier view →
  view_follows earlier {| wv_cards := cards; wv_epoch := wv_epoch view |}.
Proof. intros Hd [Hle Hdom]. split; simpl; [done|]. rewrite Hd. done. Qed.

Context (d : WorkerDiscovery) (earlier : WorkerView).
Hypothesis template_agent : wc_agent_id (wd_local_card_template d) = wd_agent_id d.
Hypothesis template_schema :
  wc_schema_version (wd_local_card_template d) = WORKER_CARD_SCHEMA_VERSION.
(** The configured time to live is not absurd. *)
Hypothesis template_fits : ∀ t load signature,
  never_overflows (set_card (wd_local_card_template d) (fmt_rfc3339_secs t) load signature).

Definition view_inv (s : discovery W) : Prop :=
  view_ok d (ds_view s) ∧ view_follows earlier (ds_view s).

Lemma insert_card_inv card view :
  card_ok d (wc_agent_id card) card → view_ok d view → view_follows earlier view →
  view_ok d (insert_card card view).2 ∧ view_follows earlier (insert_card card view).2.
Proof.
  intros Hc Hv Hf. unfold insert_card. simpl. case_bool_decide as Hn.
  - split; [by apply map_Forall_insert_2|]. by apply view_follows_bump.
  - split; [by apply map_Forall_insert_2|]. apply view_follows_same; [|done].
    apply not_eq_None_Some in Hn. rewrite dom_insert_L. apply elem_of_dom in Hn. set_solver +Hn.
Qed.

Lemma reap_inv now (s : discovery W) :
  view_inv s →
  ∃ s', reap_expired_at now s = (Ok (), s') ∧ view_inv s' ∧
    (∀ k card, wv_cards (ds_view s') !! k = Some card ↔
       wv_cards (ds_view s) !! k = Some card ∧ is_expired card now = Some false).
Proof.
  intros [Hv Hf].
  destruct (retain_live_view now (wv_cards (ds_view s))) as (cards&Hr&Hspec).
  { intros k card Hk. by apply (Hv k card Hk). }
  unfold reap_expired_at, gets, modify, mbind, Run_bind. rewrite Hr. eexists. split; [done|].
  assert (Hok : view_ok d {| wv_cards := cards; wv_epoch := wv_epoch (ds_view s) |}).
  { intros k card [Hk _]%Hspec. by apply (Hv k card Hk). }
  case_bool_decide as Hsz; simpl; (split; [split; [done|]|done]).
  - apply view_follows_same; [|done].
    assert (Hsub : cards ⊆ wv_cards (ds_view s)).
    { apply map_subseteq_spec. intros k card [Hk _]%Hspec. done. }
    apply (f_equal dom). by apply map_subseteq_size_eq; [|rewrite Hsz].
  - by apply view_follows_bump.
Qed.
(** ** The operations keep the view *)

Lemma on_daemon_inv {A E} (c : Run W E A) Φ :
  (∀ w a w', c w = (Ok a, w') → Φ a) → ensures view_inv (on_daemon c) Φ.
Proof.
  intros Hc s Hs. unfold on_daemon. destruct (c (ds_world s)) as [r w] eqn:Hr.
  split; [done|]. simpl. intros a ->. by eapply Hc.
Qed.

Lemma attempting_inv {A E} (c : Run W E A) :
  ensures view_inv (attempting c) (λ r, ∃ w w', c w = (r, w')).
Proof.
  apply on_daemon_inv. intros w r w'. unfold catch.
  destruct (c w) as [r' w1] eqn:Hr. intros [= -> ->]. eauto.
Qed.

Lemma contextual_inv {A} context (c : Run W string A) :
  ensures view_inv (contextual context c) (λ a, ∃ w w', c w = (Ok a, w')).
Proof.
  apply on_daemon_inv. intros w a w' Hc%run_mapping_Ok. eauto.
Qed.

Lemma with_context_inv {A} context (r : result A string) :
  ensures view_inv (with_context context r) (λ a, r = Ok a).
Proof. apply ensures_lift. intros a Ha. by apply map_err_Ok in Ha. Qed.

Lemma plain_inv {A} (c : W → A * W) : ensures view_inv (plain c) (λ _, True).
Proof. by apply on_daemon_inv. Qed.

Lemma quiet_modify_inv (f : discovery W → discovery W) :
  (∀ s, ds_view (f s) = ds_view s) → ensures (E := DiscoveryError) view_inv (modify f) (λ _, True).
Proof. intros Hf. apply ensures_modify; [|done]. intros s. unfold view_inv. by rewrite Hf. Qed.

Lemma now_inv : ensures view_inv now_rfc3339_secs (λ issued, ∃ t, issued = fmt_rfc3339_secs t).
Proof.
  eapply ensures_bind; [apply plain_inv|]. intros t _. apply ensures_ret. eauto.
Qed.

Lemma unwinding_inv {A} (c : DM A) :
  ensures view_inv c (λ _, True) → ensures view_inv (unwinding c) (λ _, True).
Proof.
  intros Hc s Hs. unfold unwinding. destruct (Hc s Hs) as [Hs' _]. destruct (c s) as [[a|[]] s']; done.
Qed.

Lemma insert_verified_inv card :
  card_ok d (wc_agent_id card) card → ensures view_inv (insert_verified card) (λ _, True).
Proof.
  intros Hc s [Hv Hf]. unfold insert_verified, gets, modify, mbind, Run_bind.
  pose proof (insert_card_inv card (ds_view s) Hc Hv Hf) as Hi.
  destruct (insert_card card (ds_view s)) as [is_new view]. done.
Qed.

Lemma insert_local_card_inv card :
  card_ok d (wc_agent_id card) card → ensures view_inv (insert_local_card card) (λ _, True).
Proof.
  intros Hc s [Hv Hf]. unfold insert_local_card, gets, modify, mbind, Run_bind. simpl.
  split; [|done]. by apply insert_card_inv.
Qed.

Lemma verify_and_insert_inv card now :
  ensures view_inv (verify_and_insert_card_at card now) (λ _, True).
Proof.
  unfold verify_and_insert_card_at.
  destruct (N.eqb_spec (wc_schema_version card) WORKER_CARD_SCHEMA_VERSION) as [Hschema|];
    [|by apply ensures_ret].
  destruct (is_expired card now) as [[]|] eqn:He; [by apply ensures_ret| |by apply ensures_throw].
  destruct (card_envelope_is_consistent card) eqn:Hcons; [|by apply ensures_ret].
  destruct (wc_signature card) as [signature|] eqn:Hsig; [|by apply ensures_ret]. simpl.
  eapply ensures_bind; [apply attempting_inv|]. intros resolved (w1&w1'&Hres).
  destruct resolved as [key|]; [|by apply ensures_ret].
  destruct (b64_decode (se_public_key_b64 signature)) as [envelope_key|] eqn:Hkey; [|by apply ensures_ret].
  case_bool_decide as Heq; [by apply ensures_ret|]. subst envelope_key.
  destruct (b64_decode (se_signature_b64 signature)) as [sig|] eqn:Hb; [|by apply ensures_ret].
  eapply ensures_bind; [apply with_context_inv|]. intros payload Hpayload.
  eapply ensures_bind; [apply attempting_inv|]. intros outcome (w2&w2'&Hver).
  destruct outcome as [[]|]; try by apply ensures_ret.
  apply insert_verified_inv. split_and!; [done..|by eapply live_never_overflows|left].
  exists signature, key, sig, payload. naive_solver.
Qed.

Lemma process_inv data now : ensures view_inv (process_sse_data_at data now) (λ _, True).
Proof.
  unfold process_sse_data_at. eapply ensures_bind; [apply with_context_inv|]. intros event _.
  case_bool_decide; [by apply ensures_ret|]. destruct (ge_verified event); [|by apply ensures_ret].
  simpl. eapply ensures_bind; [apply with_context_inv|]. intros payload _.
  eapply ensures_bind; [apply with_context_inv|]. intros card _. apply verify_and_insert_inv.
Qed.

Lemma publish_inv : ensures view_inv (publish_card d) (λ _, True).
Proof.
  unfold publish_card. eapply ensures_bind; [apply now_inv|]. intros issued [t ->].
  eapply ensures_bind; [by apply ensures_gets with (Φ := λ _, True)|]. intros load _.
  eapply ensures_bind; [apply with_context_inv|]. intros payload Hpayload.
  eapply ensures_bind; [apply contextual_inv|]. intros response (w&w'&Hsign%run_mapping_Ok).
  case_bool_decide as Hagent; [by apply ensures_throw|].
  eapply ensures_bind; [apply with_context_inv|]. intros encoded _.
  eapply ensures_bind; [apply contextual_inv|]. intros _ _.
  apply insert_local_card_inv. split_and!; [done|done|apply template_fits|right].
  split; [done|]. do 2 eexists. exists response, w, w'. split_and!; [done|exact Hpayload|done..].
Qed.

Lemma reap_keeps now : ensures view_inv (reap_expired_at now) (λ _, True).
Proof. intros s Hs. destruct (reap_inv now s Hs) as (s'&->&Hs'&_). done. Qed.

Lemma consume_event_inv event : ensures view_inv (consume_event event) (λ _, True).
Proof.
  unfold consume_event. destruct (sse_data event) as [data|]; [|by apply ensures_ret].
  apply keeps_bind; [by eapply keeps_any, now_inv|]. intros now.
  apply keeps_bind; [by apply unwinding_inv, process_inv|]. intros [outcome|e]; [by apply ensures_ret|].
  apply keeps_bind; [|intros; by apply ensures_ret].
  unfold should_warn. apply keeps_bind; [apply plain_inv|]. intros at_.
  apply keeps_bind; [by apply ensures_gets|]. intros last_warn.
  assert (Hnote : ensures view_inv
    (_ ← modify (note_warning (classify_decode_error e) at_); mret true : DM bool) (λ _, True)).
  { apply keeps_bind; [by apply quiet_modify_inv|]. intros. by apply ensures_ret. }
  destruct (last_warn !! _); [|done]. by destruct (_ <? _)%N; [apply ensures_ret|].
Qed.

Lemma consume_chunks_inv buffer chunks : ensures view_inv (consume_chunks buffer chunks) (λ _, True).
Proof.
  revert buffer. induction chunks as [|[chunk|e] chunks IH]; intros buffer; cbn [consume_chunks];
    [by apply ensures_ret| |by apply ensures_throw].
  destruct (push_chunk buffer chunk) as [events rest]. apply keeps_bind; [|intros; apply IH].
  apply ensures_for_each. intros event _. apply consume_event_inv.
Qed.

Lemma consume_loop_inv rounds subscription backoff :
  ensures view_inv (consume_loop rounds subscription backoff) (λ _, True).
Proof.
  revert subscription backoff. induction rounds as [|rounds IH]; intros subscription backoff;
    cbn [consume_loop]; [by apply ensures_ret|]. cbv zeta.
  assert (Hconsume : ∀ backoff, ensures view_inv
    (_ ← unwinding consume_event_stream_once;
     let '(delay, backoff) := next_backoff backoff in
     _ ← plain (go_sleep delay); consume_loop rounds None backoff) (λ _, True)).
  { intros b. apply keeps_bind; [apply unwinding_inv|].
    - apply keeps_bind; [by eapply keeps_any, contextual_inv|]. intros. apply consume_chunks_inv.
    - intros _. unfold next_backoff. apply keeps_bind; [apply plain_inv|]. intros _. apply IH. }
  destruct subscription; [apply Hconsume|].
  apply keeps_bind; [by eapply keeps_any, attempting_inv|]. intros [|]; [apply Hconsume|].
  unfold next_backoff. apply keeps_bind; [apply plain_inv|]. intros _. apply IH.
Qed.

Lemma subscribe_inv : ensures view_inv subscribe (λ _, True).
Proof.
  unfold subscribe. apply keeps_bind; [by apply ensures_gets|]. intros [|]; [by apply ensures_ret|].
  apply keeps_bind; [by eapply keeps_any, contextual_inv|]. intros subscription.
  apply keeps_bind; [by apply ensures_gets|]. intros [|]; [by apply ensures_ret|].
  by apply quiet_modify_inv.
Qed.

Lemma run_loop_inv rounds : ensures view_inv (run_loop rounds d) (λ _, True).
Proof.
  induction rounds as [|rounds IH]; cbn [run_loop]; [by apply ensures_ret|].
  apply keeps_bind; [by apply ensures_gets|]. intros started. apply keeps_bind.
  { destruct started; [by apply ensures_ret|]. apply keeps_catch, subscribe_inv. }
  intros _. apply keeps_bind.
  { destruct (wd_publish_enabled d); [|by apply ensures_ret]. apply keeps_catch, publish_inv. }
  intros _. apply keeps_bind; [apply plain_inv|]. intros _. apply IH.
Qed.

(** A snapshot never fails: it is the live cards of the view in the order of
    their agents, and the view keeps only them. *)
Lemma snapshot_live s snap s' :
  view_inv s → provider_snapshot s = (snap, s') →
  ∃ cards t, snap = Ok {| vs_cards := btree_values cards; vs_view_epoch := wv_epoch (ds_view s') |} ∧
    wv_cards (ds_view s') = cards ∧ view_inv s' ∧
    ∀ k card, cards !! k = Some card ↔
      wv_cards (ds_view s) !! k = Some card ∧ is_expired card (fmt_rfc3339_secs t) = Some false.
Proof.
  intros Hs. unfold provider_snapshot, snapshot_view, now_rfc3339_secs, plain, on_daemon, embed, gets,
    mbind, Run_bind, mret, Run_ret.
  destruct (clock_now (ds_world s)) as [t w] eqn:Ht.
  destruct (reap_inv (fmt_rfc3339_secs t) (in_world w s)) as (s1&->&Hs1&Hspec); [done|].
  intros [= <- <-]. exists (wv_cards (ds_view s1)), t. done.
Qed.
End view.

(** ** The theorems *)

(** What a daemon does with its view. *)
Inductive view_op :=
  | OpReceive (data now : string)
  | OpConsume (rounds : nat) (subscription_id : option string) (backoff : N)
  | OpRun (rounds : nat)
  | OpSnapshot
  | OpSetLoad (load : N).

Definition run_view_op `{X : Extern} `{C : Chrono} `{CF : ChronoFormat} `{CC : CardCodec}
    {W : Type} `{SG : !SigningApi W} `{M : !Machine W} `{GO : !GossipApi W}
    (d : WorkerDiscovery) (op : view_op) (s : discovery W) : discovery W :=
  match op with
  | OpReceive data now => (process_sse_data_at data now s).2
  | OpConsume rounds subscription_id backoff => (consume_loop rounds subscription_id backoff s).2
  | OpRun rounds => (run_loop rounds d s).2
  | OpSnapshot => (provider_snapshot s).2
  | OpSetLoad load => (set_current_load load s).2
  end.

Section theorems.
Context `{X : Extern} `{C : Chrono} `{CF : ChronoFormat} `{CC : CardCodec}.
Context {W : Type} `{SG : !SigningApi W} `{M : !Machine W} `{GO : !GossipApi W}.

Lemma new_discovery_Ok agent_id template publish_enabled d :
  new_discovery agent_id template publish_enabled = Ok d →
  wc_agent_id (wd_local_card_template d) = wd_agent_id d ∧
  wc_schema_version (wd_local_card_template d) = WORKER_CARD_SCHEMA_VERSION.
Proof.
  unfold new_discovery. case_bool_decide as Ha; [|done].
  destruct (N.eqb_spec (wc_schema_version template) WORKER_CARD_SCHEMA_VERSION); [|done].
  by intros [= <-].
Qed.

Lemma view_ops_inv d earlier ops (s : discovery W) :
  wc_agent_id (wd_local_card_template d) = wd_agent_id d →
  wc_schema_version (wd_local_card_template d) = WORKER_CARD_SCHEMA_VERSION →
  (∀ t load signature,
     never_overflows (set_card (wd_local_card_template d) (fmt_rfc3339_secs t) load signature)) →
  view_inv d earlier s → view_inv d earlier (foldl (λ s op, run_view_op d op s) s ops).
Proof.
  intros Ha Hv Hfits. revert s. induction ops as [|op ops IH]; intros s Hs; [done|]. simpl. apply IH.
  destruct op; simpl.
  - by apply process_inv.
  - by apply consume_loop_inv.
  - by apply run_loop_inv.
  - destruct (provider_snapshot s) as [snap s'] eqn:Hsnap.
    by destruct (snapshot_live d earlier s snap s' Hs Hsnap) as (?&?&_&_&?&_).
  - done.
Qed.
End theorems.

(** C19 A daemon lists only workers that spoke for themselves: from the empty view,
    through any sequence of received events, streams, publications and
    snapshots, whatever the network and the signing service answer, every card
    in the view stands under its own agent, has the schema of this version, and
    either was verified with the key trusted for its agent or is the daemon's
    own freshly signed card; the epoch never goes back, and as long as it has
    not changed (and is not exhausted) the set of workers has not either. *)
Theorem worker_view_sound `{X : Extern} `{C : Chrono} `{CF : ChronoFormat} `{CC : CardCodec}
    {W : Type} `{SG : !SigningApi W} `{M : !Machine W} `{GO : !GossipApi W}
    (agent_id : string) (template : WorkerCard) (publish_enabled : bool) (d : WorkerDiscovery)
    (w : W) (before after : list view_op) :
  new_discovery agent_id template publish_enabled = Ok d →
  (∀ t load signature,
     never_overflows (set_card (wd_local_card_template d) (fmt_rfc3339_secs t) load signature)) →
  let s := foldl (λ s op, run_view_op d op s) (initial_discovery w) before in
  let s' := foldl (λ s op, run_view_op d op s) s after in
  view_ok d (ds_view s) ∧ view_follows (ds_view s) (ds_view s').
Proof.
  intros Hd Hfits s s'. apply new_discovery_Ok in Hd as [Ha Hv].
  assert (Hs : view_inv d new_view s) by (by apply view_ops_inv).
  split; [apply Hs|]. apply (view_ops_inv d (ds_view s)); [done..|].
  split; [apply Hs|]. apply view_follows_refl, Hs.
Qed.

(** *** The consumer's panic *)

Section panic.
Context `{X : Extern} `{C : Chrono} `{CF : ChronoFormat} `{CC : CardCodec}.
Context {W : Type} `{SG : !SigningApi W} `{M : !Machine W} `{GO : !GossipApi W}.

(** The consumer counts as started, and these are the consumers spawned. *)
Definition spawned (consumers : list string) (s : discovery W) : Prop :=
  ds_consumer_started s = true ∧ ds_consumers s = consumers.

Lemma on_daemon_spawned {A E} consumers (c : Run W E A) :
  ensures (spawned consumers) (on_daemon c) (λ _, True).
Proof. intros s Hs. unfold on_daemon. by destruct (c (ds_world s)). Qed.

Lemma publish_spawned consumers d : ensures (spawned consumers) (publish_card d) (λ _, True).
Proof.
  unfold publish_card, now_rfc3339_secs, contextual, plain, with_context, insert_local_card.
  repeat first [keeps_step | apply on_daemon_spawned | by apply ensures_lift | by apply ensures_gets
               | by apply ensures_modify].
Qed.

Lemma run_loop_spawned consumers d rounds :
  ensures (spawned consumers) (run_loop rounds d) (λ _, True).
Proof.
  induction rounds as [|rounds IH]; cbn [run_loop]; [by apply ensures_ret|].
  eapply ensures_bind; [apply ensures_gets with (Φ := λ b, b = true); by intros s [? _]|].
  intros started ->. apply keeps_bind; [by apply ensures_ret|]. intros _. apply keeps_bind.
  { destruct (wd_publish_enabled d); [|by apply ensures_ret]. apply keeps_catch, publish_spawned. }
  intros _. apply keeps_bind; [apply on_daemon_spawned|]. intros _. apply IH.
Qed.

Lemma oversized_panics card now issued_at at_ (s : discovery W) :
  wc_schema_version card = WORKER_CARD_SCHEMA_VERSION →
  parse_from_rfc3339 (wc_issued_at card) = Ok issued_at → parse_from_rfc3339 now = Ok at_ →
  (wc_ttl_seconds card ≤ DURATION_MAX_SECONDS)%N →
  (date_max < issued_at + Z.of_N (wc_ttl_seconds card) * 1000000000)%Z →
  verify_and_insert_card_at card now s = (Err Panicked, s).
Proof.
  intros Hv Hi Hn Httl Hmax. unfold verify_and_insert_card_at, is_expired. rewrite Hv, Hi, Hn. simpl.
  rewrite (proj2 (N.ltb_ge _ _) Httl). by rewrite (proj2 (Z.ltb_lt _ _) Hmax).
Qed.
End panic.

(** C20 One card ends the discovery of workers: a gossip event whose card claims a
    time to live past the last representable instant makes the expiry check
    panic, before the signature is looked at (there may be none); the consumer
    task ends with the panic, in whatever round it is, and since it counts as
    started no later round of the daemon subscribes again. *)
Theorem oversized_ttl_ends_consumer `{X : Extern} `{C : Chrono} `{CF : ChronoFormat}
    `{CC : CardCodec} {W : Type} `{SG : !SigningApi W} `{M : !Machine W} `{GO : !GossipApi W}
    (d : WorkerDiscovery) (data : string) (event : GossipEvent) (payload : bytes)
    (card : WorkerCard) (issued_at : Z) :
  dec_gossip data = Ok event → ge_topic event = WORKER_TOPIC → ge_verified event = true →
  b64_decode (ge_payload event) = Ok payload → dec_card payload = Ok card →
  wc_schema_version card = WORKER_CARD_SCHEMA_VERSION →
  parse_from_rfc3339 (wc_issued_at card) = Ok issued_at →
  (wc_ttl_seconds card ≤ DURATION_MAX_SECONDS)%N →
  (date_max < issued_at + Z.of_N (wc_ttl_seconds card) * 1000000000)%Z →
  (∀ t, is_ok (parse_from_rfc3339 (fmt_rfc3339_secs t)) = true) →
  ∀ (s : discovery W) raw chunk chunks w events rest rounds subscription_id backoff,
  go_open_events (ds_world s) = (Ok (Ok chunk :: chunks), w) →
  push_chunk "" chunk = (raw :: events, rest) → sse_data raw = Some data →
  let '(outcome, s') := consume_loop (S rounds) (Some subscription_id) backoff s in
  outcome = Err Panicked ∧
  (ds_consumer_started s = true → ∀ n, ds_consumers (run_loop n d s').2 = ds_consumers s).
Proof.
  intros Hevent Htopic Hverified Hpayload Hcard Hschema Hissued Httl Hmax Hclock.
  intros s raw chunk chunks w events rest rounds subscription_id backoff Hopen Hpush Hdata.
  assert (Hevent_panics : ∀ s0 : discovery W, ∃ w', consume_event raw s0 = (Err Panicked, in_world w' s0)).
  { intros s0. unfold consume_event. rewrite Hdata.
    unfold now_rfc3339_secs, plain, on_daemon, embed, unwinding, process_sse_data_at, with_context,
      lift_result, mbind, Run_bind, mret, Run_ret.
    destruct (clock_now (ds_world s0)) as [t w']. exists w'.
    rewrite Hevent. cbn [map_err]. rewrite bool_decide_eq_false_2 by (intros Hne; by apply Hne).
    rewrite Hverified. cbn [negb]. rewrite Hpayload. cbn [map_err]. rewrite Hcard. cbn [map_err].
    specialize (Hclock t). destruct (parse_from_rfc3339 (fmt_rfc3339_secs t)) as [at_|] eqn:Hat; [|done].
    by rewrite (oversized_panics card _ issued_at at_). }
  destruct (Hevent_panics (in_world w s)) as [w' Hpanics].
  cbn [consume_loop]. cbv zeta. unfold unwinding at 1, consume_event_stream_once, contextual, on_daemon,
    mapping_err, mbind, Run_bind.
  rewrite Hopen. cbn [map_err consume_chunks]. rewrite Hpush. cbn [for_each].
  unfold mbind, Run_bind. rewrite Hpanics. split; [done|]. intros Hstarted n.
  by apply (run_loop_spawned (ds_consumers s) d n).
Qed.

(** ** A daemon, a peer and a troublemaker *)

Module Gossip.
#[local] Instance toy_extern : Extern := {|
  sha256 b := b; b64_decode s := Ok s; MlDsaPublicKey := bytes; MlDsaSignature := bytes;
  pk_from_bytes b := Ok b; sig_from_bytes b := Ok b; mldsa_verify _ _ _ := Ok true;
  json_envelope _ := Err "none"; json_genesis _ := Err "none"; json_roster _ := Err "none";
  json_approval_payload _ := Err "none"; json_transition _ := Err "none";
  json_approval _ := Err "none"; json_consume _ := Err "none"; json_handoff _ := Err "none" |}.

(** The clock shows one instant, a hundred seconds before the last one. *)
#[local] Instance toy_chrono : Chrono :=
  {| parse_from_rfc3339 s := if bool_decide (s = "t") then Ok 0%Z else Err "invalid" |}.
#[local] Instance toy_format : ChronoFormat := {|
  fmt_segment _ := "t"; parse_segment _ := None; fmt_compact _ := "t"; fmt_rfc3339_secs _ := "t";
  fmt_rfc3339_nanos _ := "t"; date_min := 0%Z; date_max := (100 * 1000000000)%Z |}.

Definition here : PlatformInfo := {| pi_os := "linux"; pi_arch := "x86_64"; pi_version := "1" |}.
Definition card_of (agent_id : string) (ttl : N) (signature : option SignatureEnvelope) : WorkerCard :=
  set_card (local_worker_card_template here agent_id ttl [] [] [] 1) "t" 0 signature.
Definition signed_by (agent_id : string) : SignatureEnvelope := {|
  se_algorithm := SIGN_ALGORITHM; se_context := WORKER_CARD_CONTEXT;
  se_public_key_b64 := "key " +:+ agent_id; se_signature_b64 := "sig " +:+ agent_id;
  se_payload_sha256 := hex_encode agent_id; se_signer_agent_id := agent_id |}.

Definition peer_card : WorkerCard := card_of "peer" 60 (Some (signed_by "peer")).
(** A card of nobody, for three hundred million years, without a signature. *)
Definition big_card : WorkerCard := card_of "nobody" DURATION_MAX_SECONDS None.

#[local] Instance toy_codec : CardCodec := {|
  enc_card card := Ok (wc_agent_id card);
  dec_card payload :=
    if bool_decide (payload = "peer") then Ok peer_card
    else if bool_decide (payload = "big") then Ok big_card else Err "no card";
  dec_gossip data := Ok {| ge_topic := WORKER_TOPIC; ge_payload := data; ge_verified := true |} |}.

#[local] Instance toy_signing : SigningApi unit := {|
  sg_sign context payload := mret {| sg_agent_id := "me"; sg_public_key_b64 := "key me";
    sg_signature_b64 := "sig me"; sg_algorithm := SIGN_ALGORITHM; sg_context := context |};
  sg_verify _ payload signature _ :=
    mret (if bool_decide (signature = "sig " +:+ payload) then SigValid else SigInvalid "forged");
  kr_resolve agent_id := mret ("key " +:+ agent_id) |}.
#[local] Instance toy_machine : Machine unit := {|
  clock_now w := (0%Z, w); instant_now w := (0%N, w); env_var _ w := (None, w) |}.
Definition big_chunk : bytes := "data: big" +:+ LF2.
#[local] Instance toy_gossip : GossipApi unit := {|
  go_publish _ _ := mret (); go_subscribe _ := mret "s1";
  go_open_events := mret [Ok big_chunk]; go_sleep _ w := ((), w) |}.

Definition me : WorkerDiscovery := {|
  wd_agent_id := "me";
  wd_local_card_template := local_worker_card_template here "me" 60 [] [] [] 1;
  wd_publish_enabled := true |}.

(** The peer's card is taken, a copy with a changed load is not; the daemon
    lists the peer and itself. *)
Example peer_listed :
  let s := run_view_op me (OpRun 1) (run_view_op me (OpReceive "peer" "t") (initial_discovery ())) in
  (vs_cards <$> match (provider_snapshot s).1 with Ok v => Some v | Err _ => None end)
    ≫= (λ cards, Some (wc_agent_id <$> cards)) = Some ["me"; "peer"] ∧
  ds_consumers s = ["s1"] ∧ wv_epoch (ds_view s) = 2%N.
Proof. vm_compute. done. Qed.

Lemma me_fits t load signature :
  never_overflows (set_card (wd_local_card_template me) (fmt_rfc3339_secs t) load signature).
Proof.
  intros now. unfold is_expired. simpl (fmt_rfc3339_secs t).
  change (parse_from_rfc3339 (wc_issued_at _)) with (Ok (E := string) 0%Z).
  by destruct (parse_from_rfc3339 now).
Qed.

Lemma worker_view_sound_witness :
  let s := foldl (λ s op, run_view_op me op s) (initial_discovery ()) [OpReceive "peer" "t"] in
  let s' := foldl (λ s op, run_view_op me op s) s [OpRun 1; OpSnapshot; OpConsume 1 None 1] in
  view_ok me (ds_view s) ∧ view_follows (ds_view s) (ds_view s').
Proof.
  apply (worker_view_sound "me" (local_worker_card_template here "me" 60 [] [] [] 1) true me ()
           [OpReceive "peer" "t"] [OpRun 1; OpSnapshot; OpConsume 1 None 1]).
  - vm_compute. reflexivity.
  - exact me_fits.
Defined.

Lemma oversized_ttl_ends_consumer_witness :
  let s := run_view_op me (OpRun 1) (initial_discovery ()) in
  let '(outcome, s') := consume_loop 1 (Some "s1") 1 s in
  outcome = Err Panicked ∧
  (ds_consumer_started s = true → ∀ n, ds_consumers (run_loop n me s').2 = ds_consumers s).
Proof.
  apply (oversized_ttl_ends_consumer me "big"
    {| ge_topic := WORKER_TOPIC; ge_payload := "big"; ge_verified := true |} "big" big_card 0)
    with (raw := "data: big") (chunk := big_chunk) (chunks := []) (w := ()) (events := []) (rest := "");
    try reflexivity; try (vm_compute; congruence); try (intros; reflexivity).
Defined.
End Gossip.
