(* ===== verification/Retention.v ===== *)
(** * Proof artefacts stay in their place and expire

    The reaper deletes only expired runs of issues that are not active,
    whatever the file system answers; the names the proof writer gives its runs
    are the names the reaper reads; artifacts are copied only out of the
    workspace. *)

From S2P Require Import Prelude Wire Identity Core Effects Text Files Containment Disk Store Claims.
From S2P Require Import Approvals Ports Workspaces Proofs.
Import Reconcile.

(** ** Deletion *)

Section reaping.
Context `{CF : ChronoFormat} {W : Type} `{F : Fs W}.

(** The directory of a run of an inactive issue that started before [cutoff]. *)
Definition expired_run (proofs_dir : path) (cutoff : Z) (active : gset string) (call : SysCall)
    : Prop :=
  ∃ issue name started,
    call = RemoveDirAll (join (join proofs_dir issue) name) ∧ (issue ∉ active) ∧
    parse_proof_timestamp name = Some started ∧ (started < cutoff)%Z.

Implicit Types Q : SysCall → Prop.

Lemma keeps_is_directory Q p : ensures (calls Q) (is_directory p) (λ _, True).
Proof. unfold is_directory. keeps. Qed.
Lemma keeps_open_dir Q p : ensures (calls Q) (open_dir p) (λ _, True).
Proof. unfold open_dir. keeps. Qed.
Hint Resolve keeps_is_directory keeps_open_dir : effects.

Lemma keeps_each_entry Q (step : ReapReport → string → Run (W * list SysCall) IoError ReapReport)
    entries report :
  (∀ r e, ensures (calls Q) (step r e) (λ _, True)) →
  ensures (calls Q) (each_entry step entries report) (λ _, True).
Proof.
  intros Hstep. revert report. induction entries as [|e entries IH]; intros report; simpl; [keeps|].
  apply keeps_bind; [apply Hstep|apply IH].
Qed.

Lemma process_timestamp_expired proofs_dir issue cutoff (active : gset string) report entry :
  ensures (calls (expired_run proofs_dir cutoff active))
    (process_timestamp_entry (join proofs_dir issue) cutoff (bool_decide (issue ∈ active)) report
      entry) (λ _, True).
Proof.
  unfold process_timestamp_entry. apply keeps_bind; [keeps|]. intros directory.
  destruct (negb directory); [keeps|]. case_bool_decide as Ha; [keeps|].
  unfold to_str. destruct (utf8_valid entry); [|keeps].
  destruct (parse_proof_timestamp entry) as [started|] eqn:Hp; [|keeps].
  destruct (started <? cutoff)%Z eqn:Hlt; [|keeps]. apply Z.ltb_lt in Hlt.
  unfold delete_timestamp_dir. apply keeps_bind; [|keeps].
  apply keeps_catch, ensures_logging. by exists issue, entry, started.
Qed.

Lemma process_issue_expired proofs_dir cutoff active report entry :
  ensures (calls (expired_run proofs_dir cutoff active))
    (process_issue_entry proofs_dir cutoff active report entry) (λ _, True).
Proof.
  unfold process_issue_entry. apply keeps_bind; [keeps|]. intros directory.
  destruct (negb directory); [keeps|]. unfold to_str.
  destruct (utf8_valid entry); [|keeps]. unfold new_issue_id.
  destruct (is_blank entry); [keeps|]. apply keeps_bind; [keeps|]. intros [entries|]; [|keeps].
  apply keeps_each_entry. intros r e. apply process_timestamp_expired.
Qed.

Lemma reap_expired proofs_dir now retention_days active :
  ensures (calls (expired_run proofs_dir (now - Z.of_N retention_days * DAY_NS) active))
    (reap_old_proofs (F := LoggedFs F) proofs_dir now retention_days active) (λ _, True).
Proof.
  unfold reap_old_proofs, retention_cutoff.
  destruct (_ <? _)%Z; [keeps|]. destruct (_ <? _)%Z; [keeps|].
  apply keeps_bind; [apply keeps_open_dir|]. intros [entries|]; [|keeps].
  apply keeps_each_entry. intros report e. apply process_issue_expired.
Qed.
End reaping.

(** The reaper deletes nothing but expired runs: whatever the file system
    answers, each directory it removes is a run directory under the proofs
    root, of an issue that is not active, whose name is a run's timestamp older
    than the retention period; and it changes nothing else. *)
Theorem reaper_deletes_only_expired `{CF : ChronoFormat} {W} (F : Fs W) (proofs_dir : path)
    (now : Z) (retention_days : N) (active : gset string) (w w' : W)
    (r : result ReapReport IoError) (log : list SysCall) :
  reap_old_proofs (F := LoggedFs F) proofs_dir now retention_days active (w, []) = (r, (w', log)) →
  Forall (expired_run proofs_dir (now - Z.of_N retention_days * DAY_NS) active) log.
Proof.
  intros Hrun.
  destruct (reap_expired proofs_dir now retention_days active (w, [])) as [Hlog _]; [by apply Forall_nil|].
  by rewrite Hrun in Hlog.
Qed.

(** ** Names of runs *)

(** The instants whose year has four digits. *)
Definition four_digit_year (t : Z) : Prop := (0 ≤ t < 253402300800 * 1000000000)%Z.
Definition whole_second (t : Z) : Z := (t / 1000000000 * 1000000000)%Z.

(** What [chrono] documents of the format "%Y-%m-%dT%H%M%SZ". *)
Class ChronoFormatLaws `{CF : ChronoFormat} := {
  segment_length : ∀ t, four_digit_year t → blen (fmt_segment t) = PROOF_TIMESTAMP_LEN;
  segment_parses : ∀ t, four_digit_year t → parse_segment (fmt_segment t) = Some (whole_second t)
}.

Lemma substring_app_exact (n : nat) (a b : string) :
  String.length a = n → String.substring 0 n (a +:+ b) = a ∧
  String.substring n (String.length b) (a +:+ b) = b.
Proof.
  intros <-. split.
  - rewrite substring_app, Nat.sub_diag, substring_0, str_app_nil_r. by apply substring_all.
  - induction a as [|c a IH]; simpl; [by apply substring_all|done].
Qed.

Lemma collision_suffixes :
  forallb (λ n, is_collision_suffix ("-" +:+ pad 2 (N.of_nat n)) &&
                bool_decide (String.length ("-" +:+ pad 2 (N.of_nat n)) = 3)) (seq 1 99) = true.
Proof. vm_compute. reflexivity. Qed.

(** The names of runs and their expiry fit together: every name a run that
    starts at [t] can get, with any of the hundred collision suffixes, reads
    back as the second in which it started, so the reaper sees the age of every
    run; the record of an abandoned claim, under any suffix, never reads back,
    so it is never deleted. *)
Theorem run_names_read_back `{CF : ChronoFormat, L : !ChronoFormatLaws} (t : Z) (suffix : N) :
  four_digit_year t → (suffix < 100)%N →
  parse_proof_timestamp (run_dir_candidate (timestamp_segment t) suffix) = Some (whole_second t) ∧
  parse_proof_timestamp (run_dir_candidate (timestamp_segment t +:+ "-abandoned") suffix) = None.
Proof.
  intros Ht Hs. unfold timestamp_segment, parse_proof_timestamp, timestamp_prefix, run_dir_candidate.
  pose proof (segment_length t Ht) as Hlen. pose proof (segment_parses t Ht) as Hparse.
  assert (Hl : String.length (fmt_segment t) = 18) by (unfold blen, PROOF_TIMESTAMP_LEN in Hlen; lia).
  split.
  - destruct (N.eqb_spec suffix 0) as [->|Hne]; [by rewrite Hlen, N.eqb_refl|].
    pose proof collision_suffixes as Hc. rewrite forallb_forall in Hc.
    specialize (Hc (N.to_nat suffix)). rewrite N2Nat.id, in_seq in Hc.
    destruct (andb_prop _ _ (Hc ltac:(lia))) as [Hsuf Hsl%bool_decide_eq_true].
    set (tail := "-" +:+ pad 2 suffix) in *.
    assert (blen (fmt_segment t +:+ tail) = 21%N) as -> by (unfold blen; rewrite str_length_app; lia).
    destruct (substring_app_exact 18 (fmt_segment t) tail Hl) as [Hpre Hpost].
    rewrite Hsl in Hpost. cbn -[String.substring fmt_segment tail].
    rewrite Hpost, Hsuf, Hpre. done.
  - assert (Hlong : ∀ s : string, (blen (fmt_segment t +:+ "-abandoned" +:+ s) =? 18)%N = false ∧
        (blen (fmt_segment t +:+ "-abandoned" +:+ s) =? 21)%N = false).
    { intros s. unfold blen. rewrite !str_length_app, Hl.
      change (String.length "-abandoned") with 10. split; apply N.eqb_neq; lia. }
    change (PROOF_TIMESTAMP_LEN + COLLISION_SUFFIX_LEN)%N with 21%N.
    change PROOF_TIMESTAMP_LEN with 18%N. destruct (suffix =? 0)%N; [|rewrite str_app_assoc].
    + destruct (Hlong "") as [H1 H2]. rewrite str_app_nil_r in H1, H2. by rewrite H1, H2.
    + destruct (Hlong ("-" +:+ pad 2 suffix)) as [H1 H2]. by rewrite H1, H2.
Qed.

(** ** Artifacts *)

Section artifacts.
Context `{X : Extern} `{J : Json} `{Dbg : DebugStr} {W T : Type} `{F : Fs W}.

(** Logs are only appended to; a file is copied only from where the workspace
    resolves to, to a numbered artifact of the run. *)
Definition artifact_call (proof_dir workspace_path : path) (call : SysCall) : Prop :=
  match call with
  | AppendFile p _ => p = join proof_dir STDOUT_LOG ∨ p = join proof_dir STDERR_LOG
  | CopyFile from to =>
      (∃ n, to = join proof_dir ("artifact-" +:+ pad 4 n +:+ ".bin")) ∧
      ∃ canonical_workspace w w', fs_canonicalize workspace_path w = (Ok canonical_workspace, w') ∧
        path_starts_with from canonical_workspace = true
  | _ => False
  end.

Lemma write_log_allowed proof_dir workspace_path log b :
  log = STDOUT_LOG ∨ log = STDERR_LOG →
  ensures (calls (artifact_call proof_dir workspace_path))
    (write_all (F := LoggedFs F) (T := T) (join proof_dir log) b) (λ _, True).
Proof. intros Hlog. apply ensures_mapping, ensures_logging. destruct Hlog as [-> | ->]; simpl; auto. Qed.

Lemma persist_artifact_allowed proof_dir workspace_path message counter :
  ensures (calls (artifact_call proof_dir workspace_path))
    (persist_artifact_event (F := LoggedFs F) (T := T) message workspace_path proof_dir counter
      (join proof_dir STDERR_LOG)) (λ _, True).
Proof.
  unfold persist_artifact_event.
  assert (Hwarn : ∀ text, ensures (calls (artifact_call proof_dir workspace_path))
    (_ ← write_artifact_warning (F := LoggedFs F) (T := T) (join proof_dir STDERR_LOG) text;
     mret counter) (λ _, True)).
  { intros text. apply keeps_bind; [|keeps]. by apply write_log_allowed; right. }
  destruct (message ≫= non_blank) as [msg|]; [|apply Hwarn].
  eapply ensures_bind; [apply ensures_catch, ensures_unlogged|]. intros [cw|e] Hcw; [|apply Hwarn].
  destruct (Hcw cw eq_refl) as (w&w'&Hw).
  apply keeps_bind; [keeps|]. intros [from|e]; [|apply Hwarn].
  destruct (path_starts_with from cw) eqn:Hin; [|apply Hwarn]. simpl negb. cbv iota.
  apply keeps_bind; [keeps|]. intros [kind|e]; [|apply Hwarn].
  destruct (bool_decide _); [apply Hwarn|]. apply keeps_bind; [|keeps].
  apply ensures_mapping, ensures_logging. split; [by eexists|]. by exists cw, w, w'.
Qed.
End artifacts.

(** The event writer of a run appends to the run's two logs and copies
    nothing but files the canonical workspace contains, to numbered artifacts
    of the run: an artifact event cannot bring a file from outside the
    workspace into the proofs, whatever path it names. *)
Theorem artifacts_from_workspace `{Dbg : DebugStr} {W T} (F : Fs W) (events : list RunnerEvent)
    (proof_dir workspace_path : path) (counter : N) (w w' : W) (r : result N (OrchError T))
    (log : list SysCall) :
  write_runner_events (F := LoggedFs F) events proof_dir workspace_path counter (w, []) =
    (r, (w', log)) →
  Forall (artifact_call proof_dir workspace_path) log.
Proof.
  intros Hrun.
  assert (H : ensures (calls (artifact_call proof_dir workspace_path))
    (write_runner_events (F := LoggedFs F) (T := T) events proof_dir workspace_path counter)
    (λ _, True)).
  { unfold write_runner_events. apply keeps_bind; [by apply write_log_allowed; left|]. intros _.
    apply keeps_bind; [by apply write_log_allowed; right|]. intros _. clear Hrun.
    revert counter. induction events as [|event events IH]; intros counter; simpl; [keeps|].
    apply keeps_bind; [|apply IH].
    destruct (re_kind event), (re_message event);
      first [apply persist_artifact_allowed | by keeps
            |apply keeps_bind; [apply write_log_allowed; auto|keeps]]. }
  destruct (H (w, [])) as [Hlog _]; [by apply Forall_nil|]. by rewrite Hrun in Hlog.
Qed.

(** ** Retention on a disk *)

(** A toy clock format: the seconds in eighteen bytes. *)
Fixpoint le_bytes (k : nat) (n : N) : string :=
  match k with
  | O => ""
  | S k => String (ascii_of_N (n mod 256)) (le_bytes k (n / 256))
  end.
Fixpoint le_value (s : string) : N :=
  match s with EmptyString => 0 | String c s => N_of_ascii c + 256 * le_value s end.

Lemma le_bytes_length k n : String.length (le_bytes k n) = k.
Proof. revert n. induction k as [|k IH]; intros n; simpl; [done|]. by rewrite IH. Qed.

Lemma le_value_bytes k n : (n < 256 ^ N.of_nat k)%N → le_value (le_bytes k n) = n.
Proof.
  revert n. induction k as [|k IH]; intros n Hn; simpl.
  - change (256 ^ N.of_nat 0)%N with 1%N in Hn. lia.
  - rewrite Nat2N.inj_succ, N.pow_succ_r' in Hn.
    rewrite N_ascii_embedding by (apply N.mod_lt; lia).
    rewrite IH by (apply N.Div0.div_lt_upper_bound; lia).
    pose proof (N.Div0.div_mod n 256). lia.
Qed.

Module RetentionDemo.
Definition seconds (t : Z) : N := Z.to_N (t / 1000000000).
#[export] Instance toy_format : ChronoFormat := {|
  fmt_segment t := le_bytes 18 (seconds t);
  parse_segment s := Some (Z.of_N (le_value s) * 1000000000)%Z;
  fmt_compact t := "20260101T000000Z"; fmt_rfc3339_secs t := "t"; fmt_rfc3339_nanos t := "t";
  date_min := 0%Z; date_max := (253402300800 * 1000000000)%Z |}.

#[export] Instance toy_format_laws : ChronoFormatLaws.
Proof.
  split; intros t Ht; unfold four_digit_year in Ht;
    change (fmt_segment t) with (le_bytes 18 (seconds t)).
  - unfold blen. by rewrite le_bytes_length.
  - assert (Hs : (0 ≤ t / 1000000000 < 253402300800)%Z).
    { split; [apply Z.div_pos; lia|apply Z.div_lt_upper_bound; lia]. }
    change (parse_segment (le_bytes 18 (seconds t)))
      with (Some (Z.of_N (le_value (le_bytes 18 (seconds t))) * 1000000000)%Z).
    rewrite le_value_bytes.
    + unfold seconds, whole_second. by rewrite Z2N.id by lia.
    + change (256 ^ N.of_nat 18)%N with 22300745198530623141535718272648361505980416%N.
      unfold seconds. lia.
Defined.

Lemma run_names_read_back_witness :
  parse_proof_timestamp (run_dir_candidate (timestamp_segment 5000000007) 42) = Some 5000000000%Z.
Proof. apply (run_names_read_back 5000000007 42); [split; lia|lia]. Defined.

(** Two expired runs: one of an active issue, and one that is deleted. *)
Definition old_run (issue : string) : path := "/proofs/" +:+ issue +:+ "/" +:+ timestamp_segment 0.
Definition proofs_disk : disk :=
  {[ "/proofs" := Dir; "/proofs/a" := Dir; "/proofs/b" := Dir; old_run "a" := Dir;
     old_run "b" := Dir ]}.
Definition day31 : Z := (31 * DAY_NS)%Z.
Definition reap_run := reap_old_proofs (F := LoggedFs DiskFs) "/proofs" day31 30 {["a"]} (proofs_disk, []).

Lemma reaper_deletes_only_expired_witness :
  reap_run.1 = Ok {| rp_scanned := 2; rp_reaped := 1; rp_skipped_active := 1; rp_errors := 0 |} ∧
  reap_run.2.2 = [RemoveDirAll (old_run "b")] ∧
  Forall (expired_run "/proofs" (day31 - 30 * DAY_NS) {["a"]}) reap_run.2.2.
Proof.
  split; [vm_compute; reflexivity|]. split; [vm_compute; reflexivity|].
  apply (reaper_deletes_only_expired DiskFs "/proofs" day31 30 {["a"]} proofs_disk reap_run.2.1
    reap_run.1); vm_compute; reflexivity.
Defined.

(** An artifact in the workspace, and one behind a link that leaves it. *)
Definition artifact_disk : disk :=
  {[ "/w/x" := Dir; "/w/x/out" := File "data"; "/w/x/leak" := Link "/etc/key"; "/etc/key" := File "k" ]}.
Definition artifact_event (p : string) : RunnerEvent :=
  {| re_kind := Artifact; re_message := Some p; re_at := None |}.
Definition artifact_run := write_runner_events (T := string) (F := LoggedFs DiskFs)
  [artifact_event "out"; artifact_event "leak"] "/proofs/r" "/w/x" 0 (artifact_disk, []).

Lemma artifacts_from_workspace_witness :
  List.filter (λ c, match c with CopyFile _ _ => true | _ => false end) artifact_run.2.2 =
    [CopyFile "/w/x/out" "/proofs/r/artifact-0001.bin"] ∧
  Forall (artifact_call "/proofs/r" "/w/x") artifact_run.2.2.
Proof.
  split; [vm_compute; reflexivity|].
  apply (artifacts_from_workspace (T := string) DiskFs [artifact_event "out"; artifact_event "leak"]
    "/proofs/r" "/w/x" 0 artifact_disk artifact_run.2.1 artifact_run.1); vm_compute; reflexivity.
Defined.
End RetentionDemo.
