(* ===== verification/Trust.v ===== *)
(** * Trust levels (trust_gate.rs and clock.rs of the orchestrator)

    The trust relationships of x0xd's contacts, the policy for issues from the
    network, and the lookup the dispatch gate makes. *)

From S2P Require Import Prelude Wire Identity Core Effects Text Files Containment Store Claims.
From S2P Require Import Approvals Ports Proofs.

(** ** Levels and policies *)

(** [TrustLevel], with the prefix [Trust]; the order of the declaration. *)
Inductive TrustLevel := TrustBlocked | TrustUnknown | TrustKnown | TrustTrusted.
#[export] Instance TrustLevel_eq_dec : EqDecision TrustLevel.
Proof. solve_decision. Defined.

Definition trust_rank (l : TrustLevel) : N :=
  match l with TrustBlocked => 0 | TrustUnknown => 1 | TrustKnown => 2 | TrustTrusted => 3 end.
Definition trust_lt (l k : TrustLevel) : bool := (trust_rank l <? trust_rank k)%N.

Definition trust_level_str (l : TrustLevel) : string :=
  match l with
  | TrustBlocked => "blocked" | TrustUnknown => "unknown" | TrustKnown => "known"
  | TrustTrusted => "trusted"
  end.

(** [from_str]; the error carries the text as it was given. *)
Definition parse_trust_level (value : string) : result TrustLevel string :=
  let v := to_ascii_lowercase (trim value) in
  if bool_decide (v = "blocked") then Ok TrustBlocked
  else if bool_decide (v = "unknown") then Ok TrustUnknown
  else if bool_decide (v = "known") then Ok TrustKnown
  else if bool_decide (v = "trusted") then Ok TrustTrusted
  else Err value.

(** [NetworkDispatchPolicy], with the prefix [Policy]. *)
Inductive NetworkDispatchPolicy := PolicyOff | PolicyApprove | PolicyAuto.
#[export] Instance NetworkDispatchPolicy_eq_dec : EqDecision NetworkDispatchPolicy.
Proof. solve_decision. Defined.

Definition policy_str (p : NetworkDispatchPolicy) : string :=
  match p with PolicyOff => "off" | PolicyApprove => "approve" | PolicyAuto => "auto" end.
Definition parse_policy (value : string) : result NetworkDispatchPolicy string :=
  let v := to_ascii_lowercase (trim value) in
  if bool_decide (v = "off") then Ok PolicyOff
  else if bool_decide (v = "approve") then Ok PolicyApprove
  else if bool_decide (v = "auto") then Ok PolicyAuto
  else Err value.

(** ** Lookup *)

(** [trait TrustClient]. *)
Class TrustApi (W T : Type) := { trust_level : string → Run W (OrchError T) TrustLevel }.

Record ContactEntry := { ct_agent_id : string; ct_trust_level : string }.

(** The HTTP client and the decoder of a contacts response, which accepts a
    bare list and one wrapped in an object. *)
Class Http (W : Type) := {
  http_get : string → option string → Run W string (N * bytes);
  http_text : bytes → result string string;
  status_text : N → string;
  dec_contacts : bytes → result (list ContactEntry) string
}.

(** [str::trim_end_matches('/')]. *)
Fixpoint drop_slashes (s : string) : string :=
  match s with
  | EmptyString => ""
  | String c s' =>
      let rest := drop_slashes s' in
      if bool_decide (rest = "") && bool_decide (c = SLASH) then "" else String c rest
  end.

Record X0xdTrustClient := { xt_base_url : string; xt_token : option string }.

Section lookup.
Context {W T : Type} `{H : Http W} `{M : Machine W}.

Definition non_empty_env (name : string) : Run W (OrchError T) (option string) :=
  value ← embed (env_var name); mret (value ≫= non_blank).

Definition with_token (base_url : string) (token : option string) : X0xdTrustClient :=
  {| xt_base_url := drop_slashes base_url; xt_token := token |}.

(** [X0xdTrustClient::new]: the second variable is read when the first is not
    set; constructing the HTTP client itself does not fail here. *)
Definition new_trust_client (base_url : string) : Run W (OrchError T) X0xdTrustClient :=
  token ← non_empty_env "X0XD_TOKEN";
  token ← match token with
          | Some token => mret (Some token)
          | None => non_empty_env "X0X_API_TOKEN"
          end;
  mret (with_token base_url token).

Definition url (c : X0xdTrustClient) (p : string) : string := xt_base_url c +:+ p.

Definition is_success (status : N) : bool := ((200 <=? status) && (status <? 300))%N.

Definition decode_response (response : N * bytes) (url : string)
    : result (list ContactEntry) (OrchError T) :=
  let '(status, body) := response in
  if is_success status then map_err (TrustDecode url) (dec_contacts body)
  else
    let? body := map_err (TrustDecode url) (http_text body) in
    Err (TrustHttp (status_text status) body).

Definition get_json (c : X0xdTrustClient) (p : string) : Run W (OrchError T) (list ContactEntry) :=
  let url := url c p in
  response ← mapping_err (TrustRequest url) (http_get url (xt_token c));
  lift_result (decode_response response url).

Definition contact_trust (contacts : list ContactEntry) (agent_id : string)
    : result TrustLevel (OrchError T) :=
  match List.find (λ contact, bool_decide (ct_agent_id contact = agent_id)) contacts with
  | None => Ok TrustUnknown
  | Some contact => map_err TrustLevelInvalid (parse_trust_level (ct_trust_level contact))
  end.

Definition x0xd_trust_level (c : X0xdTrustClient) (agent_id : string)
    : Run W (OrchError T) TrustLevel :=
  contacts ← get_json c "/contacts";
  lift_result (contact_trust contacts agent_id).
End lookup.

(** [impl TrustClient] for the two clients. *)
Definition X0xdTrust {W T} `{H : Http W} (c : X0xdTrustClient) : TrustApi W T :=
  {| trust_level := x0xd_trust_level c |}.
Definition UnknownTrustClient {W T} : TrustApi W T := {| trust_level := λ _, mret TrustUnknown |}.

(** ** The manual clock *)

Definition advance `{CF : ChronoFormat} (current duration : Z) : Z :=
  let at_ := (current + duration)%Z in
  if ((date_min <=? at_) && (at_ <=? date_max))%Z then at_ else current.

(** ** Facts *)

Lemma parse_trust_level_str l : parse_trust_level (trust_level_str l) = Ok l.
Proof. by destruct l. Qed.
Lemma parse_policy_str p : parse_policy (policy_str p) = Ok p.
Proof. by destruct p. Qed.

Lemma contact_trust_find {T} contacts agent_id l :
  contact_trust (T := T) contacts agent_id = Ok l → l ≠ TrustUnknown →
  ∃ contact, contact ∈ contacts ∧ ct_agent_id contact = agent_id ∧
    parse_trust_level (ct_trust_level contact) = Ok l.
Proof.
  unfold contact_trust. destruct (List.find _ _) as [c|] eqn:Hf; [|congruence].
  apply find_some in Hf as [Hin%list_elem_of_In Hid%bool_decide_eq_true].
  intros Hp%map_err_Ok _. eauto.
Qed.
