(* ===== verification/Orchestrator.v ===== *)
(** * The orchestrator (lib.rs, dispatch.rs and orphans.rs of the orchestrator)

    Polling, claiming, the dispatch gate, the retry loop, startup
    reconciliation and the orphan sweep, over the interfaces of [Ports], the
    proof writer and the trust lookup.  The state is what the orchestrator keeps
    (the budget, the registered runs, the live heartbeat tasks, the guard of the
    run at hand) beside the world.  Log messages are left out. *)

From S2P Require Import Prelude Wire Identity Core Effects Text Files Containment Store Claims.
From S2P Require Import Approvals Ports Scheduling Proofs Trust Manager.
Import Reconcile Concurrency Retry.

(** ** Configuration *)

Record RetentionPolicy := { rt_proofs_days : N; rt_reap_interval : N }.

(** Durations are in nanoseconds. *)
Definition default_retention : RetentionPolicy :=
  {| rt_proofs_days := 30; rt_reap_interval := 3600 * SECOND |}.

(** [Config]; [ConfigBuilder] has the same fields. *)
Record Config := {
  cf_agent_id : string;
  cf_active_states : list string;
  cf_terminal_states : list string;
  cf_polling_interval : N;
  cf_global_concurrency : N;
  cf_per_state_concurrency : gmap string N;
  cf_retry : RetryPolicy;
  cf_hooks : LifecycleHooks;
  cf_proofs_dir : path;
  cf_retention : RetentionPolicy;
  cf_validation_commands : list string;
  cf_claim_ttl : Z;
  cf_required_trust : TrustLevel;
  cf_network_dispatch : NetworkDispatchPolicy;
  cf_approval_ttl : N;
  cf_approval_webhook_url : option string;
  cf_shutdown_grace : N
}.

(** [Config::builder]. *)
Definition builder (agent_id : string) : Config := {|
  cf_agent_id := agent_id; cf_active_states := []; cf_terminal_states := [];
  cf_polling_interval := 5 * SECOND; cf_global_concurrency := 1;
  cf_per_state_concurrency := ∅; cf_retry := default_policy; cf_hooks := default_hooks;
  cf_proofs_dir := "proofs"; cf_retention := default_retention; cf_validation_commands := [];
  cf_claim_ttl := 30 * 60 * Z.of_N SECOND; cf_required_trust := TrustTrusted;
  cf_network_dispatch := PolicyOff; cf_approval_ttl := 24 * 3600 * SECOND;
  cf_approval_webhook_url := None; cf_shutdown_grace := 60 * SECOND |}.

(** [ConfigBuilder::global_concurrency]. *)
Definition global_concurrency (cap : N) (c : Config) : Config := {|
  cf_agent_id := cf_agent_id c; cf_active_states := cf_active_states c;
  cf_terminal_states := cf_terminal_states c; cf_polling_interval := cf_polling_interval c;
  cf_global_concurrency := N.max cap 1; cf_per_state_concurrency := cf_per_state_concurrency c;
  cf_retry := cf_retry c; cf_hooks := cf_hooks c; cf_proofs_dir := cf_proofs_dir c;
  cf_retention := cf_retention c; cf_validation_commands := cf_validation_commands c;
  cf_claim_ttl := cf_claim_ttl c; cf_required_trust := cf_required_trust c;
  cf_network_dispatch := cf_network_dispatch c; cf_approval_ttl := cf_approval_ttl c;
  cf_approval_webhook_url := cf_approval_webhook_url c;
  cf_shutdown_grace := cf_shutdown_grace c |}.

Definition poll_context (c : Config) : PollContext := {|
  pc_active_states := cf_active_states c; pc_terminal_states := cf_terminal_states c;
  pc_agent_id := Some (cf_agent_id c) |}.

(** [Config::heartbeat_interval]. *)
Definition heartbeat_interval (c : Config) : Z := heartbeat_interval_for_ttl (cf_claim_ttl c).

(** ** State *)

Inductive DispatchEvent :=
  | ApprovalRequested (issue_id signer_agent_id : string)
  | ApprovalExpired (issue_id : string).

Inductive Claimable := Free | FreshSelfClaim.

Inductive Resolution := Completed | BlockedResolution | PendingApproval | ShutdownReleased.
Inductive DispatchGateOutcome := GateProceed | GateBlocked | GatePendingApproval.
#[export] Instance Resolution_eq_dec : EqDecision Resolution.
Proof. solve_decision. Defined.
#[export] Instance DispatchGateOutcome_eq_dec : EqDecision DispatchGateOutcome.
Proof. solve_decision. Defined.

(** [CryptoVerify], with the prefix [Crypto]. *)
Inductive CryptoVerify := CryptoValid | CryptoInvalid | CryptoTransportError.

Record CompletedTurn := { tn_status : TurnStatus; tn_summary : option string }.
Inductive AttemptOutcome := AttemptShutdown | AttemptCompleted (turn : CompletedTurn).

Record ReconcileSummary := {
  rs_resumed : N; rs_released : N; rs_taken_over : N; rs_conflicts_abandoned : N
}.

(** [State], the live heartbeat tasks, the [HeldClaim] guard of the run at hand
    (its heartbeat handle) and the emitted events.  A run registered as in
    flight is the state whose slot it holds. *)
Record orch_state (W : Type) := {
  os_budget : Budget;
  os_in_flight : gmap string string;
  os_heartbeats : gmap N (Claim * Z);
  os_next_task : N;
  os_guard : option N;
  os_events : list DispatchEvent;
  os_world : W
}.
Arguments os_budget {W}.
Arguments os_in_flight {W}.
Arguments os_heartbeats {W}.
Arguments os_next_task {W}.
Arguments os_guard {W}.
Arguments os_events {W}.
Arguments os_world {W}.

Definition set_world {W} (w : W) (s : orch_state W) : orch_state W := {|
  os_budget := os_budget s; os_in_flight := os_in_flight s; os_heartbeats := os_heartbeats s;
  os_next_task := os_next_task s; os_guard := os_guard s; os_events := os_events s;
  os_world := w |}.
Definition set_slots {W} (b : Budget) (m : gmap string string) (s : orch_state W) : orch_state W := {|
  os_budget := b; os_in_flight := m; os_heartbeats := os_heartbeats s;
  os_next_task := os_next_task s; os_guard := os_guard s; os_events := os_events s;
  os_world := os_world s |}.
Definition set_tasks {W} (h : gmap N (Claim * Z)) (next : N) (guard : option N) (s : orch_state W)
    : orch_state W := {|
  os_budget := os_budget s; os_in_flight := os_in_flight s; os_heartbeats := h;
  os_next_task := next; os_guard := guard; os_events := os_events s; os_world := os_world s |}.
Definition push_event {W} (e : DispatchEvent) (s : orch_state W) : orch_state W := {|
  os_budget := os_budget s; os_in_flight := os_in_flight s; os_heartbeats := os_heartbeats s;
  os_next_task := os_next_task s; os_guard := os_guard s; os_events := os_events s ++ [e];
  os_world := os_world s |}.

(** [Orchestrator]: the configuration, whether the optional signing client and
    key resolver are there, and whether events have a sink. *)
Record Orchestrator := {
  or_config : Config;
  or_signing_client : bool;
  or_key_resolver : bool;
  or_events_tx : bool
}.

(** [Orchestrator::new_with_signing]. *)
Definition initial_orch {W} (o : Orchestrator) (w : W) : orch_state W := {|
  os_budget := new_budget (cf_global_concurrency (or_config o))
                          (cf_per_state_concurrency (or_config o));
  os_in_flight := ∅; os_heartbeats := ∅; os_next_task := 0; os_guard := None; os_events := [];
  os_world := w |}.

(** ** The rest of the machine *)

Inductive GitDiff :=
  | GitOutput (status : ExitStatus) (stdout : bytes)
  | GitFailed
  | GitTimedOut.

(** Sleeping, the shutdown flag with its notification, random numbers, the
    shell and git. *)
Class OrchHost (W : Type) := {
  oh_sleep : N → W → unit * W;
  oh_shutdown_flag : W → bool * W;
  oh_request_shutdown : W → unit * W;
  oh_entropy : W → N * W;
  oh_shell_status : path → string → Run W IoError ExitStatus;
  oh_git_diff : path → W → GitDiff * W
}.

(** How a tracker error is built from and shown as text. *)
Class TrackerText (T : Type) := { tt_of_text : string → T; tt_show : T → string }.

(** ** Text helpers of dispatch.rs *)

Definition hook_status_name (s : HookStatus) : string :=
  match s with
  | HookSucceeded => "succeeded" | HookFailed => "failed" | HookTimedOut => "timed_out"
  end.

Definition describe_hook_outcome (o : HookOutcome) : string :=
  let status := hook_status_name (hko_status o) in
  match hko_exit_code o with
  | Some code => "status=" +:+ status +:+ ", exit_code=" +:+ pretty code
  | None => "status=" +:+ status
  end.

Definition claim_env_id (c : Claim) : string :=
  match cl_issue_id c with
  | Some issue_id => issue_id +:+ ":" +:+ cl_by c +:+ ":" +:+ cl_at c
  | None => cl_by c +:+ ":" +:+ cl_at c
  end.

(** A white-space character, a comma or a semicolon at the head. *)
Definition exit_code_sep (s : string) : option string :=
  match s with
  | String c s' =>
      if bool_decide (c = ","%char) || bool_decide (c = ";"%char) then Some s' else ws_tail s
  | EmptyString => None
  end.

Fixpoint first_some {A B} (f : A → option B) (l : list A) : option B :=
  match l with
  | [] => None
  | x :: l => match f x with Some b => Some b | None => first_some f l end
  end.

Definition parse_exit_code (summary : option string) : option Z :=
  summary ← summary;
  first_some (λ part, strip_prefix "exit_code=" part ≫= parse_i32) (split_with exit_code_sep summary).

Definition turn_exit_code (status : TurnStatus) (summary : option string) : Z :=
  match status with
  | TurnSucceeded => default 0%Z (parse_exit_code summary)
  | TurnFailed | TurnTimedOut | TurnCancelled =>
      match parse_exit_code summary with
      | Some code => if bool_decide (code = 0%Z) then 1%Z else code
      | None => 1%Z
      end
  end.

(** The first prefix after which something is left. *)
Definition after_prefix (prefixes : list string) (line : string) : option string :=
  first_some (λ prefix, strip_prefix prefix line ≫= non_blank) prefixes.

Definition follow_up_line : string → option string :=
  after_prefix ["follow_up:"; "follow-up:"; "follow_up="].
Definition follow_ups_from_summary (summary : option string) : list string :=
  match summary with
  | None => []
  | Some summary => omap (λ line, follow_up_line (trim line)) (str_lines summary)
  end.

Definition acceptance_validation_command : string → option string :=
  after_prefix ["validation:"; "validation command:"; "command:"].

Definition signing_error_is_transport (e : SigningError) : bool :=
  match e with SeRequest _ _ | SeDecode _ _ | SeHttp _ _ => true | _ => false end.

(** [{n:032x}]: the 32 lowest hex digits, most significant first. *)
Fixpoint hex_fixed (digits : nat) (n : N) : string :=
  match digits with
  | O => ""
  | S digits => hex_fixed digits (n / 16) +:+ String (hex_nibble (n mod 16)) ""
  end.

Section issue.
Context `{J : Json}.

Definition issue_extra_string_list (issue : Issue) (key : string) : list string :=
  match iss_extra issue !! key with
  | None => []
  | Some value => omap (λ v, as_str v ≫= non_blank) (default [] (as_array value))
  end.

Definition configured_validation_commands (configured : list string) (issue : Issue) : list string :=
  match configured, issue_extra_string_list issue "validation" with
  | _ :: _, _ => configured
  | [], _ :: _ => issue_extra_string_list issue "validation"
  | [], [] => omap acceptance_validation_command (issue_extra_string_list issue "acceptance")
  end.

Definition approval_request_signer (issue : Issue) : option string :=
  match iss_signature_provenance issue with
  | Some (ProvenanceVerified signer_agent_id) => non_blank signer_agent_id
  | _ => None
  end.

Definition claimable_for `{C : Chrono} (issue : Issue) (owner : string) (now ttl : Z)
    : result (option Claimable) Reconcile.Error :=
  match iss_claim issue with
  | None => Ok (Some Free)
  | Some claim =>
      let? fresh := is_fresh_self claim owner now ttl in
      Ok (if fresh : bool then Some FreshSelfClaim else None)
  end.
End issue.

(** ** The operations *)

Section orchestrator.
Context `{X : Extern} `{J : Json} `{C : Chrono} `{V : ApprovalCodec} `{Dbg : DebugStr}.
Context `{CF : ChronoFormat} `{MC : ManifestCodec}.
Context {W T : Type} `{TT : TrackerText T}.
Context `{TK : !TrackerApi W T} `{RN : !RunnerApi W T} `{WK : !WorkspaceApi W T}.
Context `{SG : !SigningApi W} `{TR : !TrustApi W T}.
Context `{F : !Fs W} `{M : !Machine W} `{OH : !OrchHost W}.

Definition OM (A : Type) : Type := Run (orch_state W) (OrchError T) A.

(** A call that only touches the world. *)
Definition on_world {A E} (c : Run W E A) : Run (orch_state W) E A :=
  λ s, let '(r, w) := c (os_world s) in (r, set_world w s).
Definition host {A} (c : W → A * W) : OM A := on_world (embed c).
(** A call of the tracker, the runner or the workspace manager. *)
Definition core {A} (c : Run W (SymphonyError T) A) : OM A := on_world (mapping_err CoreError c).
Definition proofs {A} (c : Run W (OrchError T) A) : OM A := on_world c.
(** [call.await] whose result is matched or dropped. *)
Definition attempt {A E} (c : Run W E A) : OM (result A E) := on_world (catch c).

Definition now : OM Z := host clock_now.
Definition is_shutdown : OM bool := host oh_shutdown_flag.
Definition now_rfc3339 : OM string := t ← now; mret (fmt_rfc3339_nanos t).

Definition emit (o : Orchestrator) (event : DispatchEvent) : OM unit :=
  if or_events_tx o then modify (push_event event) else mret ().

Definition ttl (o : Orchestrator) : Z := cf_claim_ttl (or_config o).
Definition issue_ttl (o : Orchestrator) (issue : Issue) : Z :=
  issue_claim_ttl (iss_shard issue) (ttl o).

(** *** Slots *)

Definition current_load (s : orch_state W) : N :=
  let n := N.of_nat (size (os_in_flight s)) in if (n <=? u32_max)%N then n else u32_max.
Definition in_flight_issue_ids (s : orch_state W) : gset string := dom (os_in_flight s).

Definition release_slot (claim : Claim) : OM unit :=
  match cl_issue_id claim with
  | None => mret ()
  | Some id => modify (λ s,
      match os_in_flight s !! id with
      | Some state => set_slots (release (os_budget s) state) (delete id (os_in_flight s)) s
      | None => s
      end)
  end.

Definition acquire_slot (state : string) : OM bool :=
  embed (λ s, let '(acquired, b) := try_acquire (os_budget s) state in
              (acquired, set_slots b (os_in_flight s) s)).
Definition return_slot (state : string) : OM unit :=
  modify (λ s, set_slots (release (os_budget s) state) (os_in_flight s) s).
Definition register (id state : string) : OM unit :=
  modify (λ s, set_slots (os_budget s) (<[id := state]> (os_in_flight s)) s).

(** *** The guard of a run ([HeldClaim]) *)

Definition new_guard : OM unit := modify (λ s, set_tasks (os_heartbeats s) (os_next_task s) None s).

(** The task sleeps and beats, until it is aborted. *)
Definition spawn_heartbeat (claim : Claim) (interval : Z) : OM unit :=
  modify (λ s, set_tasks (<[os_next_task s := (claim, interval)]> (os_heartbeats s))
                         (os_next_task s + 1) (Some (os_next_task s)) s).
Definition cancel_heartbeat : OM unit :=
  modify (λ s, match os_guard s with
               | Some handle => set_tasks (delete handle (os_heartbeats s)) (os_next_task s) None s
               | None => s
               end).

(** One round of a live task: a failing heartbeat is ignored. *)
Definition heartbeat_round (task : Claim * Z) : OM unit :=
  _ ← host (oh_sleep (Z.to_N task.2));
  _ ← attempt (tk_heartbeat task.1);
  mret ().

(** [drop]. *)
Definition drop_guard (claim : Claim) : OM unit := _ ← cancel_heartbeat; release_slot claim.

(** *** Refusing a dispatch *)

Definition block_for_dispatch_refusal (claim : Claim) (code : ReleaseReasonCode) (detail : string)
    : OM unit :=
  _ ← cancel_heartbeat;
  core (tk_block claim {| rr_code := code; rr_message := detail |}).

Definition park_awaiting_approval (claim : Claim) (detail : string) : OM DispatchGateOutcome :=
  _ ← block_for_dispatch_refusal claim RcAwaitingApproval detail;
  mret GatePendingApproval.

Definition require_approval_crypto (o : Orchestrator) (claim : Claim) : OM bool :=
  if or_signing_client o && or_key_resolver o then mret true
  else
    _ ← block_for_dispatch_refusal claim RcApprovalVerifierUnconfigured
          "approval verifier not configured for Approve-policy dispatch";
    mret false.

(** *** Signatures of approvals and consumption records *)

Definition resolved (who : string) : OM (result bytes CryptoVerify) :=
  r ← attempt (kr_resolve who);
  mret (map_err (λ e, if signing_error_is_transport e then CryptoTransportError else CryptoInvalid) r).

Definition verified (context : string) (payload signature public_key : bytes) : OM CryptoVerify :=
  r ← attempt (sg_verify context payload signature public_key);
  mret match r with
       | Ok SigValid => CryptoValid
       | Ok (SigInvalid _) => CryptoInvalid
       | Ok (SigTransportError _) => CryptoTransportError
       | Err e => if signing_error_is_transport e then CryptoTransportError else CryptoInvalid
       end.

Definition verify_approval_signature (event : ApprovalEvent) : OM CryptoVerify :=
  key ← resolved (av_approver_agent_id event);
  match key with
  | Err v => mret v
  | Ok public_key =>
      match enc_v1_approval (unsigned event), av_signature event with
      | Ok payload, Some signature =>
          match b64_decode (se_signature_b64 signature) with
          | Ok signature_bytes => verified APPROVAL_CONTEXT payload signature_bytes public_key
          | Err _ => mret CryptoInvalid
          end
      | _, _ => mret CryptoInvalid
      end
  end.

Definition verify_consumed_signature (consumed : ApprovalConsumed) : OM CryptoVerify :=
  if negb (consumed_envelope_is_consistent consumed) then mret CryptoInvalid
  else
    key ← resolved (se_signer_agent_id (ac_signature consumed));
    match key with
    | Err v => mret v
    | Ok public_key =>
        match enc_v1_consumed_payload consumed with
        | Ok payload =>
            match b64_decode (se_signature_b64 (ac_signature consumed)) with
            | Ok signature_bytes => verified APPROVAL_CONSUMED_CONTEXT payload signature_bytes public_key
            | Err _ => mret CryptoInvalid
            end
        | Err _ => mret CryptoInvalid
        end
    end.

Fixpoint verify_consumed_all (claim : Claim) (records done : list ApprovalConsumed)
    : OM (option (list ApprovalConsumed)) :=
  match records with
  | [] => mret (Some done)
  | consumed :: rest =>
      v ← verify_consumed_signature consumed;
      match v with
      | CryptoValid => verify_consumed_all claim rest (done ++ [consumed])
      | CryptoInvalid =>
          _ ← block_for_dispatch_refusal claim RcInvalidSignature
                "approval consumption record failed signature verification; consumption state is unverifiable";
          mret None
      | CryptoTransportError =>
          _ ← block_for_dispatch_refusal claim RcVerifyTransportError
                "approval consumption signature verification transport failed";
          mret None
      end
  end.
Definition verified_consumed_records (claim : Claim) (records : list ApprovalConsumed)
    : OM (option (list ApprovalConsumed)) := verify_consumed_all claim records [].

Definition emit_approval_expired_once (o : Orchestrator) (issue : Issue)
    (validity : ApprovalValidity) (emitted_expired : bool) : OM bool :=
  if bool_decide (validity = Expired) && negb emitted_expired then
    _ ← emit o (ApprovalExpired (iss_id issue)); mret true
  else mret emitted_expired.

(** The loop over the approval events: the valid and verified ones, or [None]
    when the claim was parked. *)
Fixpoint kept_events (o : Orchestrator) (claim : Claim) (issue : Issue) (signer now : string)
    (consumed : list ApprovalConsumed) (events kept : list ApprovalEvent) (emitted_expired : bool)
    : OM (option (list ApprovalEvent)) :=
  match events with
  | [] => mret (Some kept)
  | event :: rest =>
      let validity := is_valid event issue signer now (cf_approval_ttl (or_config o)) consumed in
      emitted_expired ← emit_approval_expired_once o issue validity emitted_expired;
      if bool_decide (validity ≠ Valid) then
        kept_events o claim issue signer now consumed rest kept emitted_expired
      else
        v ← verify_approval_signature event;
        match v with
        | CryptoValid =>
            kept_events o claim issue signer now consumed rest (kept ++ [event]) emitted_expired
        | CryptoInvalid => kept_events o claim issue signer now consumed rest kept emitted_expired
        | CryptoTransportError =>
            _ ← block_for_dispatch_refusal claim RcVerifyTransportError
                  "approval signature verification transport failed";
            mret None
        end
  end.

(** *** Spending an approval *)

Definition tracker_error_text (text : string) : OrchError T := CoreError (Tracker (tt_of_text text)).

Definition unsigned_consumed (o : Orchestrator) (issue : Issue) (signer consumed_at : string)
    (entropy : N) : ApprovalConsumed :=
  let content := content_hash issue in
  let nonce_source :=
    iss_id issue +:+ ":" +:+ content +:+ ":" +:+ signer +:+ ":" +:+ consumed_at +:+ ":" +:+
    cf_agent_id (or_config o) +:+ ":" +:+ hex_fixed 32 entropy in
  {| ac_issue_id := iss_id issue; ac_content_hash := content; ac_signer_agent_id := signer;
     ac_nonce := sha256_hex nonce_source; ac_consumed_at := consumed_at;
     ac_signature := {|
       se_algorithm := SIGN_ALGORITHM; se_context := APPROVAL_CONSUMED_CONTEXT;
       se_public_key_b64 := ""; se_signature_b64 := ""; se_payload_sha256 := "unsigned";
       se_signer_agent_id := cf_agent_id (or_config o) |} |}.

Definition with_signature (c : ApprovalConsumed) (s : SignatureEnvelope) : ApprovalConsumed := {|
  ac_issue_id := ac_issue_id c; ac_content_hash := ac_content_hash c;
  ac_signer_agent_id := ac_signer_agent_id c; ac_nonce := ac_nonce c;
  ac_consumed_at := ac_consumed_at c; ac_signature := s |}.

Definition signed_consumed_event (o : Orchestrator) (issue : Issue) (signer consumed_at : string)
    : OM ApprovalConsumed :=
  entropy ← host oh_entropy;
  let consumed := unsigned_consumed o issue signer consumed_at entropy in
  payload ← lift_result (map_err (λ e, CoreError (JsonFailure e)) (enc_v1_consumed_payload consumed));
  response ← on_world (mapping_err (λ e, tracker_error_text
      ("approval-consumption signing failed: " +:+ show_signing_error e))
    (sg_sign APPROVAL_CONSUMED_CONTEXT payload));
  if bool_decide (sg_algorithm response ≠ SIGN_ALGORITHM) then
    throw (tracker_error_text ("approval-consumption sign response algorithm " +:+
      sg_algorithm response +:+ " did not match " +:+ SIGN_ALGORITHM))
  else if bool_decide (sg_context response ≠ APPROVAL_CONSUMED_CONTEXT) then
    throw (tracker_error_text ("approval-consumption sign response context " +:+
      sg_context response +:+ " did not match " +:+ APPROVAL_CONSUMED_CONTEXT))
  else
    mret (with_signature consumed {|
      se_algorithm := sg_algorithm response; se_context := sg_context response;
      se_public_key_b64 := sg_public_key_b64 response;
      se_signature_b64 := sg_signature_b64 response; se_payload_sha256 := sha256_hex payload;
      se_signer_agent_id := sg_agent_id response |}).

Definition consume_approval_and_proceed (o : Orchestrator) (claim : Claim) (issue : Issue)
    (signer now : string) : OM DispatchGateOutcome :=
  signed ← catch (signed_consumed_event o issue signer now);
  match signed with
  | Err error =>
      _ ← block_for_dispatch_refusal claim RcVerifyTransportError
            ("failed to sign approval-consumption record: " +:+ show_orch tt_show error +:+
             "; refusing dispatch");
      mret GatePendingApproval
  | Ok consumed => _ ← core (tk_store_consumed consumed); mret GateProceed
  end.

(** *** The gate *)

Definition approval_gate_decision (o : Orchestrator) (claim : Claim) (issue : Issue)
    (signer : string) : OM DispatchGateOutcome :=
  state ← core (tk_load_approval_state (iss_id issue));
  now ← now_rfc3339;
  crypto ← require_approval_crypto o claim;
  if negb crypto then mret GatePendingApproval
  else
    checked ← verified_consumed_records claim (aps_consumed state);
    match checked with
    | None => mret GatePendingApproval
    | Some consumed =>
        kept ← kept_events o claim issue signer now consumed (aps_events state) [] false;
        match kept with
        | None => mret GatePendingApproval
        | Some events =>
            match approval_decision events issue signer now (cf_approval_ttl (or_config o)) consumed with
            | Approved => consume_approval_and_proceed o claim issue signer now
            | DeniedDecision =>
                park_awaiting_approval claim ("network-sourced dispatch was denied for signer " +:+
                  signer +:+ " and current payload")
            | Pending =>
                park_awaiting_approval claim
                  ("network-sourced dispatch requires a valid approval for signer " +:+
                   signer +:+ " and current payload")
            end
        end
    end.

(** Why the trust in a signer is not enough. *)
Definition trust_refusal (o : Orchestrator) (signer : string) (level : TrustLevel)
    : option (ReleaseReasonCode * string) :=
  let who := "network-sourced issue signer " +:+ signer in
  let required := cf_required_trust (or_config o) in
  if bool_decide (level = TrustBlocked) then
    Some (RcBlockedSigner, who +:+ " is blocked in x0xd contacts")
  else if bool_decide (level = TrustUnknown) then
    Some (RcUnknownSigner, who +:+ " is unknown to x0xd contacts")
  else if trust_lt level required then
    Some (RcUntrustedSigner, who +:+ " has trust " +:+ trust_level_str level +:+ "; required " +:+
            trust_level_str required)
  else None.

Definition is_network_sourced (issue : Issue) : bool :=
  bool_decide (from_issue issue = NetworkSourced) ||
  bool_decide (is_Some (iss_signature_provenance issue)).

Definition is_self_authored (o : Orchestrator) (issue : Issue) : bool :=
  match iss_signature_provenance issue with
  | Some (ProvenanceVerified signer_agent_id) =>
      let signer := trim signer_agent_id in
      negb (bool_decide (signer = "")) && bool_decide (signer = cf_agent_id (or_config o))
  | _ => false
  end.

(** The signer a network-sourced issue must have, or why it has none. *)
Definition provenance_signer (issue : Issue) : result string (ReleaseReasonCode * string) :=
  match iss_signature_provenance issue with
  | Some (ProvenanceVerified signer_agent_id) =>
      match non_blank signer_agent_id with
      | Some signer => Ok signer
      | None => Err (RcMissingVerifiedSignature,
                  "network-sourced issue lacks verified ML-DSA-65 signature provenance")
      end
  | None => Err (RcMissingVerifiedSignature,
              "network-sourced issue lacks verified ML-DSA-65 signature provenance")
  | Some (ProvenanceInvalid reason) =>
      Err (RcInvalidSignature, "network-sourced issue signature is invalid: " +:+ reason)
  | Some (ProvenanceTransportError reason) =>
      Err (RcVerifyTransportError,
        "network-sourced issue signature verification transport failed: " +:+ reason)
  end.

Definition block_if_network_dispatch_refused (o : Orchestrator) (claim : Claim) (issue : Issue)
    : OM DispatchGateOutcome :=
  if negb (is_network_sourced issue) then mret GateProceed
  else if is_self_authored o issue then mret GateProceed
  else if bool_decide (cf_network_dispatch (or_config o) = PolicyOff) then
    _ ← block_for_dispatch_refusal claim RcNetworkDispatchDisabled
          "network-sourced dispatch is disabled by security.network_dispatch_enabled";
    mret GateBlocked
  else
    match provenance_signer issue with
    | Err (code, detail) => _ ← block_for_dispatch_refusal claim code detail; mret GateBlocked
    | Ok signer =>
        level ← proofs (trust_level signer);
        match trust_refusal o signer level with
        | Some (code, detail) => _ ← block_for_dispatch_refusal claim code detail; mret GateBlocked
        | None =>
            match cf_network_dispatch (or_config o) with
            | PolicyAuto => mret GateProceed
            | PolicyApprove => approval_gate_decision o claim issue signer
            | PolicyOff => mret GateBlocked
            end
        end
    end.

Definition pending_approval_resolution (o : Orchestrator) (issue : Issue) : OM Resolution :=
  _ ← match approval_request_signer issue with
      | Some signer => emit o (ApprovalRequested (iss_id issue) signer)
      | None => mret ()
      end;
  mret PendingApproval.

Definition dispatch_gate_resolution (o : Orchestrator) (claim : Claim) (issue : Issue)
    : OM (option Resolution) :=
  gate ← block_if_network_dispatch_refused o claim issue;
  match gate with
  | GateProceed => mret None
  | GateBlocked => mret (Some BlockedResolution)
  | GatePendingApproval => r ← pending_approval_resolution o issue; mret (Some r)
  end.

(** *** One run *)

Definition fetch_claim_issue (claim : Claim) : OM Issue :=
  id ← lift_result (ok_or (cl_issue_id claim)
         (NotEligible "(no issue)" "claim carries no issue id"));
  issues ← core (tk_fetch_by_ids [id]);
  lift_result (ok_or (head issues) (NotEligible id "issue behind claim not found")).

Definition hook_env (o : Orchestrator) (claim : Claim) (handle : WorkspaceHandle)
    (phase_name : string) : HookEnv :=
  {[ "ISSUE_ID" := wh_issue_id handle; "AGENT_ID" := cf_agent_id (or_config o);
     "WORKSPACE_DIR" := wh_path handle; "CLAIM_ID" := claim_env_id claim;
     "HOOK_PHASE" := phase_name ]}.

Definition run_hook_phase (o : Orchestrator) (claim : Claim) (handle : WorkspaceHandle)
    (phase : HookName) : OM (option HookOutcome) :=
  match hook (cf_hooks (or_config o)) phase with
  | None => mret None
  | Some h =>
      outcome ← core (wk_run_hook_in handle h (hook_env o claim handle (hook_name_str (hk_name h))));
      mret (Some outcome)
  end.

(** [match self.run_hook_phase(..).await]. *)
Definition attempt_hook (o : Orchestrator) (claim : Claim) (handle : WorkspaceHandle)
    (phase : HookName) : OM (result (option HookOutcome) (OrchError T)) :=
  catch (run_hook_phase o claim handle phase).

Definition block_for_hook_failure (claim : Claim) (phase_name detail : string) : OM unit :=
  _ ← cancel_heartbeat;
  core (tk_block claim {| rr_code := RcOther;
                          rr_message := phase_name +:+ " hook failed: " +:+ detail |}).

(** Whether the hook blocked the claim, and the proof afterwards. *)
Definition block_if_hook_failed (o : Orchestrator) (claim : Claim) (handle : WorkspaceHandle)
    (phase : HookName) (proof : ProofRun) : OM (bool * ProofRun) :=
  let phase_name := hook_name_str phase in
  r ← attempt_hook o claim handle phase;
  match r with
  | Ok None => mret (false, proof)
  | Ok (Some outcome) =>
      let proof := record_hook phase_name (hook_status_name (hko_status outcome)) proof in
      if bool_decide (hko_status outcome = HookSucceeded) then mret (false, proof)
      else
        _ ← block_for_hook_failure claim phase_name (describe_hook_outcome outcome);
        mret (true, proof)
  | Err error =>
      _ ← block_for_hook_failure claim phase_name (show_orch tt_show error);
      mret (true, record_hook phase_name "errored" proof)
  end.

(** The record of a hook whose failure changes nothing else. *)
Definition record_attempt (phase : HookName) (r : result (option HookOutcome) (OrchError T))
    (proof : ProofRun) : ProofRun :=
  match r with
  | Ok None => proof
  | Ok (Some outcome) =>
      record_hook (hook_name_str phase) (hook_status_name (hko_status outcome)) proof
  | Err _ => record_hook (hook_name_str phase) "errored" proof
  end.

Definition warn_after_run_hook_failure (o : Orchestrator) (claim : Claim)
    (handle : WorkspaceHandle) (proof : ProofRun) : OM ProofRun :=
  r ← attempt_hook o claim handle AfterRun; mret (record_attempt AfterRun r proof).

Definition before_remove_allows_cleanup (o : Orchestrator) (claim : Claim)
    (handle : WorkspaceHandle) (proof : ProofRun) : OM (bool * ProofRun) :=
  r ← attempt_hook o claim handle BeforeRemove;
  mret (match r with
        | Ok None => true
        | Ok (Some outcome) => bool_decide (hko_status outcome = HookSucceeded)
        | Err _ => false
        end, record_attempt BeforeRemove r proof).

Definition cleanup_if_terminal (o : Orchestrator) (claim : Claim) (handle : WorkspaceHandle)
    (state_name : string) (proof : ProofRun) : OM ProofRun :=
  if negb (bool_decide (state_name ∈ cf_terminal_states (or_config o))) then mret proof
  else
    r ← before_remove_allows_cleanup o claim handle proof;
    let '(allowed, proof) := r in
    _ ← (if allowed : bool then core (wk_destroy handle) else mret ());
    mret proof.

(** *** Handoffs *)

Definition changed_files_from_git_diff (workspace_path : path) : OM (list string) :=
  output ← host (oh_git_diff workspace_path);
  mret match output with
       | GitOutput status stdout =>
           if success status then omap non_blank (str_lines (from_utf8_lossy stdout)) else []
       | GitFailed | GitTimedOut => []
       end.

Definition run_validation_command (workspace_path : path) (command : string)
    : OM ValidationResult :=
  r ← attempt (oh_shell_status workspace_path command);
  mret match r with
       | Ok status =>
           {| vr_command := command; vr_status := if success status then Passed else Failed;
              vr_exit_code := status |}
       | Err _ => {| vr_command := command; vr_status := Failed; vr_exit_code := None |}
       end.

Fixpoint run_each_command (workspace_path : path) (commands : list string)
    : OM (list ValidationResult) :=
  match commands with
  | [] => mret []
  | command :: rest =>
      result ← run_validation_command workspace_path command;
      results ← run_each_command workspace_path rest;
      mret (result :: results)
  end.
(** Blank commands are skipped. *)
Definition run_validation_commands (workspace_path : path) (commands : list string)
    : OM (list ValidationResult) := run_each_command workspace_path (omap non_blank commands).

Definition build_success_handoff (o : Orchestrator) (issue : Issue) (workspace_path : path)
    (proof : ProofRun) (attempts : N) (outcome : CompletedTurn) : OM Handoff :=
  validation ← run_validation_commands workspace_path
                 (configured_validation_commands (cf_validation_commands (or_config o)) issue);
  files_changed ← changed_files_from_git_diff workspace_path;
  mret {| ho_summary := "runner '" +:+ rn_name +:+ "' succeeded after " +:+ pretty attempts +:+
                        " attempt(s)";
          ho_files_changed := files_changed; ho_validation := validation;
          ho_follow_up := follow_ups_from_summary (tn_summary outcome);
          ho_proofs_dir := Some (pr_relative_dir proof); ho_issue_id := None;
          ho_signer_agent_id := None; ho_signature := None |}.

(** *** Attempts *)

(** Joining the event writer: what the session streamed goes to the proof. *)
Definition join_event_writer (session : SessionHandle) (workspace_path : path) (proof : ProofRun)
    : OM ProofRun :=
  events ← host (rn_stream_events session);
  n ← proofs (write_runner_events events (pr_dir proof) workspace_path (pr_artifacts proof));
  mret (with_artifacts n proof).

Definition race_turn (session : SessionHandle) (prompt : string)
    : OM (option (result (TurnOutcome * SessionHandle) (SymphonyError T))) :=
  down ← is_shutdown;
  if (down : bool) then mret None else host (rn_race_turn session prompt).

Definition run_attempt (o : Orchestrator) (claim : Claim) (issue : Issue) (workspace_path : path)
    (proof : ProofRun) : OM (AttemptOutcome * ProofRun) :=
  session ← core (rn_start_session (new_session_context issue workspace_path));
  selected ← race_turn session (iss_description issue);
  match selected with
  | None =>
      _ ← attempt (rn_stop_session session);
      proof ← join_event_writer session workspace_path proof;
      _ ← cancel_heartbeat;
      _ ← core (tk_release claim {| rr_code := RcShutdown; rr_message := "graceful shutdown" |});
      ended ← now;
      _ ← proofs (finish proof 1 ended);
      mret (AttemptShutdown, proof)
  | Some (Err error) =>
      _ ← attempt (rn_stop_session session);
      _ ← join_event_writer session workspace_path proof;
      throw (CoreError error)
  | Some (Ok (outcome, session')) =>
      _ ← attempt (rn_stop_session session');
      proof ← join_event_writer session workspace_path proof;
      mret (AttemptCompleted {| tn_status := to_status outcome; tn_summary := to_summary outcome |},
            proof)
  end.

Definition finish_blocked (o : Orchestrator) (claim : Claim) (handle : WorkspaceHandle)
    (exit_code : Z) (proof : ProofRun) : OM Resolution :=
  proof ← cleanup_if_terminal o claim handle "blocked" proof;
  ended ← now;
  _ ← proofs (finish proof exit_code ended);
  mret BlockedResolution.

(** One round of the retry loop; [again] is the next one. *)
Definition attempt_round (o : Orchestrator) (claim : Claim) (issue : Issue)
    (handle : WorkspaceHandle) (attempts : N) (proof : ProofRun)
    (again : N → ProofRun → OM Resolution) : OM Resolution :=
  let attempts := (attempts + 1)%N in
  r ← block_if_hook_failed o claim handle BeforeRun proof;
  let '(blocked, proof) := r in
  if blocked : bool then finish_blocked o claim handle 1 proof
  else
    r ← run_attempt o claim issue (wh_path handle) proof;
    let '(outcome, proof) := r in
    match outcome with
    | AttemptShutdown => mret ShutdownReleased
    | AttemptCompleted outcome =>
        proof ← warn_after_run_hook_failure o claim handle proof;
        let exit_code := turn_exit_code (tn_status outcome) (tn_summary outcome) in
        if bool_decide (tn_status outcome = TurnSucceeded) then
          handoff ← build_success_handoff o issue (wh_path handle) proof attempts outcome;
          _ ← cancel_heartbeat;
          _ ← core (tk_handoff claim handoff);
          proof ← cleanup_if_terminal o claim handle "review" proof;
          ended ← now;
          _ ← proofs (finish proof exit_code ended);
          mret Completed
        else if (max_attempts (cf_retry (or_config o)) <=? attempts)%N then
          _ ← cancel_heartbeat;
          _ ← core (tk_block claim {| rr_code := RcRetryExhausted;
                rr_message := "runner '" +:+ rn_name +:+ "' failed after " +:+ pretty attempts +:+
                              " attempt(s)" |});
          finish_blocked o claim handle exit_code proof
        else
          _ ← host (oh_sleep (backoff_after (cf_retry (or_config o)) attempts));
          again attempts proof
    end.

(** The retry loop; [fuel] bounds the attempts that remain. *)
Fixpoint attempt_loop (o : Orchestrator) (claim : Claim) (issue : Issue) (handle : WorkspaceHandle)
    (fuel : nat) (attempts : N) (proof : ProofRun) : OM Resolution :=
  attempt_round o claim issue handle attempts proof (λ attempts proof,
    match fuel with
    | S fuel => attempt_loop o claim issue handle fuel attempts proof
    | O => throw (NotEligible "" "out of fuel")
    end).

(** [run_claim] after the gate let the dispatch through. *)
Definition run_admitted (o : Orchestrator) (claim : Claim) (issue : Issue) : OM Resolution :=
  _ ← spawn_heartbeat claim (issue_heartbeat_interval (iss_shard issue) (ttl o));
  started ← now;
  proof ← proofs (start (cf_proofs_dir (or_config o)) issue (cf_agent_id (or_config o))
                    rn_name rn_capabilities started);
  handle ← core (wk_create issue);
  r ← block_if_hook_failed o claim handle AfterCreate proof;
  let '(blocked, proof) := r in
  if blocked : bool then finish_blocked o claim handle 1 proof
  else attempt_loop o claim issue handle (N.to_nat (max_attempts (cf_retry (or_config o)))) 0 proof.

(** [run_claim] between the guard's creation and its drop. *)
Definition run_claim_body (o : Orchestrator) (claim : Claim) : OM Resolution :=
  issue ← fetch_claim_issue claim;
  gate ← dispatch_gate_resolution o claim issue;
  match gate with
  | Some resolution => mret resolution
  | None => run_admitted o claim issue
  end.

(** The guard is dropped on every exit. *)
Definition run_claim (o : Orchestrator) (claim : Claim) : OM Resolution :=
  _ ← new_guard;
  r ← catch (run_claim_body o claim);
  _ ← drop_guard claim;
  lift_result r.

(** *** Claiming *)

Definition claim_issue (o : Orchestrator) (id : string) : OM Claim :=
  core (tk_claim id (cf_agent_id (or_config o))).

Definition claimable (o : Orchestrator) (issue : Issue) : OM (option Claimable) :=
  at_ ← (if bool_decide (iss_claim issue = None) then mret 0%Z else now);
  lift_result (map_err HeartbeatError
    (claimable_for issue (cf_agent_id (or_config o)) at_ (issue_ttl o issue))).

(** The loop over the candidates. *)
Fixpoint claim_first (o : Orchestrator) (candidates : list Issue) : OM (option Claim) :=
  match candidates with
  | [] => mret None
  | issue :: rest =>
      may ← claimable o issue;
      match may with
      | None => claim_first o rest
      | Some _ =>
          acquired ← acquire_slot (iss_state issue);
          if negb acquired then mret None
          else
            claimed ← catch (claim_issue o (iss_id issue));
            match claimed with
            | Ok claim => _ ← register (iss_id issue) (iss_state issue); mret (Some claim)
            | Err _ => _ ← return_slot (iss_state issue); claim_first o rest
            end
      end
  end.

Definition claim_next (o : Orchestrator) : OM (option Claim) :=
  down ← is_shutdown;
  if (down : bool) then mret None
  else
    candidates ← core (tk_fetch_candidates (poll_context (or_config o)));
    claim_first o candidates.

Definition run_once (o : Orchestrator) : OM (option Resolution) :=
  claimed ← claim_next o;
  match claimed with
  | None => mret None
  | Some claim => resolution ← run_claim o claim; mret (Some resolution)
  end.

(** *** Startup reconciliation *)

Definition no_summary : ReconcileSummary :=
  {| rs_resumed := 0; rs_released := 0; rs_taken_over := 0; rs_conflicts_abandoned := 0 |}.
Definition add_resumed (s : ReconcileSummary) : ReconcileSummary :=
  {| rs_resumed := rs_resumed s + 1; rs_released := rs_released s;
     rs_taken_over := rs_taken_over s; rs_conflicts_abandoned := rs_conflicts_abandoned s |}.
Definition add_released (s : ReconcileSummary) : ReconcileSummary :=
  {| rs_resumed := rs_resumed s; rs_released := rs_released s + 1;
     rs_taken_over := rs_taken_over s; rs_conflicts_abandoned := rs_conflicts_abandoned s |}.
Definition add_taken_over (s : ReconcileSummary) : ReconcileSummary :=
  {| rs_resumed := rs_resumed s; rs_released := rs_released s;
     rs_taken_over := rs_taken_over s + 1; rs_conflicts_abandoned := rs_conflicts_abandoned s |}.
Definition add_abandoned (s : ReconcileSummary) : ReconcileSummary :=
  {| rs_resumed := rs_resumed s; rs_released := rs_released s;
     rs_taken_over := rs_taken_over s; rs_conflicts_abandoned := rs_conflicts_abandoned s + 1 |}.

(** The claimed issues by id, each list in the order they came. *)
Definition group_claimed (claimed : list Issue) : gmap string (list Issue) :=
  foldl (λ m issue, if bool_decide (iss_claim issue = None) then m
                    else <[iss_id issue := default [] (m !! iss_id issue) ++ [issue]]> m)
        ∅ claimed.

Definition should_take_over_stale_primary (o : Orchestrator) (issue : Issue) (claim : Claim)
    (at_ : Z) : result bool Reconcile.Error :=
  match iss_shard issue with
  | None => Ok false
  | Some shard =>
      if bool_decide (primary shard ≠ cl_by claim) || bool_decide (cl_shard_role claim ≠ Primary)
      then Ok false
      else
        match agent_shard_role (iss_shard issue) (cf_agent_id (or_config o)) with
        | Some (Backup index) =>
            if (rank (Backup index) <=? rank (cl_shard_role claim))%N then Ok false
            else is_heartbeat_stale claim at_ (issue_ttl o issue)
        | _ => Ok false
        end
  end.

Definition conflict_reason (winner : Claim) : ReleaseReason := {|
  rr_code := RcConflict;
  rr_message := "duplicate claim abandoned; winner " +:+ cl_by winner +:+ " has shard rank " +:+
                pretty (rank (cl_shard_role winner)) |}.

Fixpoint abandon_losers (o : Orchestrator) (winner : Claim) (at_ : Z) (issues : list Issue)
    (summary : ReconcileSummary) : OM ReconcileSummary :=
  match issues with
  | [] => mret summary
  | issue :: rest =>
      match iss_claim issue with
      | Some claim =>
          if bool_decide (claim ≠ winner) && bool_decide (cl_by claim = cf_agent_id (or_config o)) then
            _ ← core (tk_release claim (conflict_reason winner));
            _ ← proofs (write_abandoned (cf_proofs_dir (or_config o)) issue claim
                          (conflict_reason winner) winner at_);
            abandon_losers o winner at_ rest (add_abandoned summary)
          else abandon_losers o winner at_ rest summary
      | None => abandon_losers o winner at_ rest summary
      end
  end.

(** Whether the issue is settled as a conflict. *)
Definition reconcile_conflict (o : Orchestrator) (issues : list Issue) (summary : ReconcileSummary)
    (at_ : Z) : OM (bool * ReconcileSummary) :=
  let claims := omap iss_claim issues in
  if (llen claims <=? 1)%N then mret (false, summary)
  else
    match winning_conflict_claim claims with
    | None => mret (true, summary)
    | Some winner =>
        summary ← abandon_losers o winner at_ issues summary; mret (true, summary)
    end.

Definition expired_reason (text : string) : ReleaseReason :=
  {| rr_code := RcExpiredHeartbeat; rr_message := text |}.

Definition reconcile_single (o : Orchestrator) (issue : Issue) (claim : Claim) (at_ : Z)
    (summary : ReconcileSummary) : OM ReconcileSummary :=
  stance ← lift_result (map_err HeartbeatError
             (classify claim (cf_agent_id (or_config o)) at_ (issue_ttl o issue)));
  match stance with
  | FreshSelf => mret (add_resumed summary)
  | StaleSelf =>
      _ ← core (tk_release claim (expired_reason "stale claim on startup"));
      mret (add_released summary)
  | Foreign =>
      takes ← lift_result (map_err HeartbeatError (should_take_over_stale_primary o issue claim at_));
      if (takes : bool) then
        _ ← core (tk_release claim (expired_reason "stale primary heartbeat; backup taking over"));
        _ ← core (tk_claim (iss_id issue) (cf_agent_id (or_config o)));
        mret (add_taken_over summary)
      else mret summary
  end.

Fixpoint reconcile_groups (o : Orchestrator) (at_ : Z) (groups : list (string * list Issue))
    (summary : ReconcileSummary) : OM ReconcileSummary :=
  match groups with
  | [] => mret summary
  | (_, issues) :: rest =>
      r ← reconcile_conflict o issues summary at_;
      let '(settled, summary) := r in
      if settled : bool then reconcile_groups o at_ rest summary
      else
        match issues with
        | issue :: _ =>
            match iss_claim issue with
            | Some claim =>
                summary ← reconcile_single o issue claim at_ summary;
                reconcile_groups o at_ rest summary
            | None => reconcile_groups o at_ rest summary
            end
        | [] => reconcile_groups o at_ rest summary
        end
  end.

(** [Orchestrator::reconcile]. *)
Definition reconcile (o : Orchestrator) : OM ReconcileSummary :=
  claimed ← core (tk_fetch_claimed None);
  at_ ← now;
  reconcile_groups o at_ (btree_iter (group_claimed claimed)) no_summary.

(** *** The orphan sweep *)

Record QuarantinedOrphan := { qo_issue_id : string; qo_from : path; qo_to : path }.
(** [RefusedOrphan] has the fields of [RefusedWorkspace]. *)
Record OrphanSweepSummary := {
  ow_preserved : list string;
  ow_quarantined : list QuarantinedOrphan;
  ow_refused : list RefusedWorkspace
}.

Fixpoint live_names (o : Orchestrator) (claimed : list Issue) (names : gset string)
    : OM (gset string) :=
  match claimed with
  | [] => mret names
  | issue :: rest =>
      match iss_claim issue with
      | None => live_names o rest names
      | Some claim =>
          at_ ← now;
          fresh ← lift_result (map_err HeartbeatError
                    (is_fresh_self claim (cf_agent_id (or_config o)) at_ (issue_ttl o issue)));
          if (fresh : bool) then
            live_names o rest ({[iss_id issue; iss_identifier issue]} ∪
              match cl_issue_id claim with Some id => {[id]} | None => ∅ end ∪ names)
          else live_names o rest names
      end
  end.
Definition live_claim_workspace_names (o : Orchestrator) : OM (gset string) :=
  claimed ← core (tk_fetch_claimed (Some (cf_agent_id (or_config o))));
  live_names o claimed ∅.

Definition preserve_orphan_issue (o : Orchestrator) (issue : Issue) : bool :=
  negb (bool_decide (iss_state issue = "blocked")) &&
  negb (bool_decide (iss_state issue ∈ cf_terminal_states (or_config o))).

Definition orphan_quarantine_namespace : OM string := t ← now; mret (fmt_compact t).

(** The issues by id; of issues with the same id the last counts. *)
Definition index_issues (issues : list Issue) : gmap string Issue :=
  foldl (λ m issue, <[iss_id issue := issue]> m) ∅ issues.

Definition preserves (o : Orchestrator) (live : gset string) (known : gmap string Issue)
    (issue_id : string) : bool :=
  bool_decide (issue_id ∈ live) ||
  match known !! issue_id with Some issue => preserve_orphan_issue o issue | None => false end.

(** Show an error of the workspace manager in the summary. *)
Definition refused_orphan (handle : WorkspaceHandle) (e : SymphonyError T) : RefusedWorkspace :=
  {| rw_issue_id := wh_issue_id handle; rw_path := wh_path handle;
     rw_reason := show_symphony tt_show e |}.

Fixpoint sweep_handles (o : Orchestrator) (live : gset string) (known : gmap string Issue)
    (namespace : string) (handles : list WorkspaceHandle) (summary : OrphanSweepSummary)
    : OM OrphanSweepSummary :=
  match handles with
  | [] => mret summary
  | handle :: rest =>
      if preserves o live known (wh_issue_id handle) then
        sweep_handles o live known namespace rest
          {| ow_preserved := ow_preserved summary ++ [wh_issue_id handle];
             ow_quarantined := ow_quarantined summary; ow_refused := ow_refused summary |}
      else
        r ← attempt (wk_quarantine_workspace handle namespace);
        sweep_handles o live known namespace rest
          match r with
          | Ok to => {| ow_preserved := ow_preserved summary;
                        ow_quarantined := ow_quarantined summary ++
                          [{| qo_issue_id := wh_issue_id handle; qo_from := wh_path handle;
                              qo_to := to |}];
                        ow_refused := ow_refused summary |}
          | Err e => {| ow_preserved := ow_preserved summary;
                        ow_quarantined := ow_quarantined summary;
                        ow_refused := ow_refused summary ++ [refused_orphan handle e] |}
          end
  end.

(** [Orchestrator::sweep_orphans]. *)
Definition sweep_orphans (o : Orchestrator) : OM OrphanSweepSummary :=
  scan ← core wk_list_workspaces;
  live ← live_claim_workspace_names o;
  let handles := sort_by handle_key (ws_workspaces scan) in
  let orphan_ids := wh_issue_id <$>
    List.filter (λ h, negb (bool_decide (wh_issue_id h ∈ live))) handles in
  issues ← core (tk_fetch_by_ids orphan_ids);
  namespace ← orphan_quarantine_namespace;
  summary ← sweep_handles o live (index_issues issues) namespace handles
    {| ow_preserved := []; ow_quarantined := []; ow_refused := ws_refused scan |};
  mret {| ow_preserved := sort_by id (ow_preserved summary);
          ow_quarantined := sort_by qo_issue_id (ow_quarantined summary);
          ow_refused := sort_by refused_key (ow_refused summary) |}.

(** *** Shutdown and the daemon loop *)

(** Polling until the runs are gone or the deadline is over; other tasks
    release their slots while this one sleeps ([others]). *)
Fixpoint wait_drained (others : orch_state W → orch_state W) (fuel : nat) (deadline : N) : OM unit :=
  match fuel with
  | O => mret ()
  | S fuel =>
      remaining ← gets (λ s, size (os_in_flight s));
      t ← host instant_now;
      if bool_decide (remaining = 0) || (deadline <=? t)%N then mret ()
      else
        _ ← host (oh_sleep (10 * MILLISECOND));
        _ ← modify others;
        wait_drained others fuel deadline
  end.

(** [Orchestrator::shutdown]: the number of runs that were signaled. *)
Definition shutdown (others : orch_state W → orch_state W) (fuel : nat) (o : Orchestrator) : OM N :=
  signaled ← gets (λ s, N.of_nat (size (os_in_flight s)));
  _ ← host oh_request_shutdown;
  t ← host instant_now;
  _ ← wait_drained others fuel (t + cf_shutdown_grace (or_config o));
  mret signaled.

(** Claim and run until nothing is claimable. *)
Fixpoint drain (o : Orchestrator) (fuel : nat) : OM unit :=
  match fuel with
  | O => mret ()
  | S fuel =>
      r ← run_once o;
      match r with None => mret () | Some _ => drain o fuel end
  end.

(** [Orchestrator::run], for a number of polls; a failing reconciliation is
    ignored. *)
Fixpoint poll_loop (o : Orchestrator) (fuel : nat) : OM unit :=
  match fuel with
  | O => mret ()
  | S fuel' =>
      down ← is_shutdown;
      if (down : bool) then _ ← shutdown id fuel o; mret ()
      else
        _ ← drain o fuel;
        down ← is_shutdown;
        if (down : bool) then _ ← shutdown id fuel o; mret ()
        else
          _ ← host (oh_sleep (cf_polling_interval (or_config o)));
          poll_loop o fuel'
  end.
Definition run (o : Orchestrator) (fuel : nat) : OM unit :=
  _ ← catch (E := OrchError T) (F := OrchError T) (reconcile o);
  poll_loop o fuel.
End orchestrator.
