(* ===== verification/TurnFacts.v ===== *)
(** * Environments, events and exit codes of the shell runner

    The environment of a child, the events its bounded queue keeps, and the
    exit code the orchestrator reads from a turn's summary. *)

From S2P Require Import Prelude Wire Core Text Effects Files Containment Ports.
From S2P Require Import Sandbox Native HostSandbox RunnerSpec ShellRunner Running Workspaces Orchestrator.

(** ** The environment of a child *)

Section environment.
Context `{X : Extern} `{J : Json}.

Lemma check_each_Ok {A E} (check : A → result unit E) xs :
  check_each check xs = Ok () ↔ Forall (λ x, check x = Ok ()) xs.
Proof.
  induction xs as [|x xs IH]; simpl; [by split|]. rewrite Forall_cons, <-IH.
  destruct (check x) as [[]|e]; simpl; naive_solver.
Qed.

Lemma insert_each_spec pairs env env' : NoDup pairs.*1 →
  insert_each pairs env = Ok env' ↔
  Forall (λ pair, validate_pair pair = Ok ()) pairs ∧ env' = list_to_map pairs ∪ env.
Proof.
  revert env. induction pairs as [|[key value] pairs IH]; intros env Hnd; simpl.
  - rewrite (left_id_L ∅ (∪)). naive_solver.
  - apply NoDup_cons in Hnd as [Hkey Hnd]. rewrite Forall_cons.
    destruct (validate_pair (key, value)) as [[]|e]; simpl; [|naive_solver].
    rewrite (IH _ Hnd), <-insert_union_r, insert_union_l by (by apply not_elem_of_list_to_map_1).
    naive_solver.
Qed.

Lemma insert_each_map (m env env' : gmap string string) :
  insert_each (btree_iter m) env = Ok env' ↔
  map_Forall (λ key value, validate_pair (key, value) = Ok ()) m ∧ env' = m ∪ env.
Proof.
  rewrite insert_each_spec by apply NoDup_btree_keys. rewrite btree_iter_to_map.
  apply and_iff_compat_r. rewrite Forall_forall. split.
  - intros H key value Hk. apply H. by apply elem_of_btree_iter.
  - intros H [key value] Hk%elem_of_btree_iter. by apply H.
Qed.

Lemma elem_of_env_keys (env : gmap string string) key : key ∈ env_keys env ↔ is_Some (env !! key).
Proof.
  unfold env_keys. rewrite list_elem_of_fmap. split.
  - intros [[k v] [-> Hk%elem_of_btree_iter]]. eauto.
  - intros [v Hv]. exists (key, v). by rewrite elem_of_btree_iter.
Qed.

(** [s] spells a word of capitals and underscores, each letter in either case. *)
Fixpoint spells (word s : string) : Prop :=
  match word, s with
  | EmptyString, EmptyString => True
  | String w word, String c s =>
      (c = w ∨ ((65 ≤ N_of_ascii w ≤ 90)%N ∧ N_of_ascii c = (N_of_ascii w + 32)%N)) ∧ spells word s
  | _, _ => False
  end.

(** Names that end in one of three words, in capitals, small letters or both. *)
Definition secret_name (key : string) : Prop := ∃ stem suffix,
  key = stem +:+ suffix ∧ (spells "_TOKEN" suffix ∨ spells "_KEY" suffix ∨ spells "_SECRET" suffix).

Definition free_of (c : ascii) (s : string) : Prop := ∀ left right, s ≠ left +:+ String c right.

(** What a variable of a child may be: a name that is not blank, neither part
    with a NUL byte, no equals sign in the name, and a secret's name listed. *)
Definition child_variable (spec : RunnerSpec) (key value : string) : Prop :=
  is_blank key = false ∧ free_of "=" key ∧ free_of Ascii.zero key ∧ free_of Ascii.zero value ∧
  (secret_name key → key ∈ rs_allow_secret_env spec).

Lemma contains_char_free c s : contains_char c s = false ↔ free_of c s.
Proof.
  induction s as [|d s IH]; simpl.
  - split; [|done]. by intros _ [|? ?] right.
  - rewrite orb_false_iff, bool_decide_eq_false, IH. split.
    + intros [Hd Hs] [|e left] right; [intros [= -> _]; done|]. intros [= _ ->]. by apply (Hs left right).
    + intros Hs. split; [intros ->; by eapply (Hs "")|].
      intros left right ->. by apply (Hs (String d left) right).
Qed.

Lemma ascii_upper_spells w c : in_byte_range 97 122 w = false →
  ascii_upper c = w ↔ c = w ∨ ((65 ≤ N_of_ascii w ≤ 90)%N ∧ N_of_ascii c = (N_of_ascii w + 32)%N).
Proof.
  unfold ascii_upper, in_byte_range. rewrite andb_false_iff, !N.leb_gt. intros Hw.
  assert (Hc : (N_of_ascii c < 256)%N) by apply N_ascii_bounded.
  destruct (_ && _) eqn:Hr; rewrite ?andb_true_iff, ?andb_false_iff, ?N.leb_le, ?N.leb_gt in Hr.
  - split.
    + intros <-. right. rewrite N_ascii_embedding by lia. lia.
    + intros [->|[Hb ->]]; [lia|]. rewrite N.add_sub. apply ascii_N_embedding.
  - split; [auto|]. intros [->|[Hb Hn]]; [done|lia].
Qed.

Lemma uppercase_spells word s : Forall (λ w, in_byte_range 97 122 w = false) (String.list_ascii_of_string word) →
  to_ascii_uppercase s = word ↔ spells word s.
Proof.
  unfold to_ascii_uppercase. revert s. induction word as [|w word IH]; intros [|c s] Hword; simpl; [done..|].
  apply Forall_cons in Hword as [Hw Hword]. rewrite <-(IH s Hword), <-(ascii_upper_spells w c Hw).
  split; [by intros [= -> ->]|by intros [-> ->]].
Qed.

Lemma ends_with_uppercase suffix s : ends_with suffix (to_ascii_uppercase s) = true ↔
  ∃ stem rest, s = stem +:+ rest ∧ to_ascii_uppercase rest = suffix.
Proof.
  unfold to_ascii_uppercase. induction s as [|c s IH]; simpl; rewrite orb_true_iff, bool_decide_eq_true.
  - split; [intros [<-|]; [by exists "", ""|done]|]. intros (stem&rest&Hs&<-). left.
    by destruct stem, rest.
  - rewrite IH. split.
    + intros [<-|(stem&rest&->&<-)]; [by exists "", (String c s)|by exists (String c stem), rest].
    + intros ([|d stem]&rest&Hs&<-); [left; change (String c s = rest) in Hs; by rewrite <-Hs|].
      injection Hs as -> ->. eauto.
Qed.

Lemma is_secret_like_name key : is_secret_like key = true ↔ secret_name key.
Proof.
  unfold is_secret_like, secret_name. rewrite !orb_true_iff, !ends_with_uppercase.
  setoid_rewrite uppercase_spells; [naive_solver|by repeat constructor..].
Qed.

Lemma validate_pair_Ok key value :
  validate_pair (key, value) = Ok () ↔
  is_blank key = false ∧ free_of "=" key ∧ free_of Ascii.zero key ∧ free_of Ascii.zero value.
Proof.
  rewrite <-!contains_char_free. change Ascii.zero with (ascii_of_N 0).
  unfold validate_pair, validate_child_key, validate_child_value, has_nul. simpl.
  destruct (is_blank key), (contains_char "=" key), (contains_char _ key), (contains_char _ value);
    simpl; naive_solver.
Qed.

Lemma check_secret_Ok allowed key :
  check_secret allowed key = Ok () ↔ (secret_name key → key ∈ allowed).
Proof.
  rewrite <-is_secret_like_name. unfold check_secret. destruct (is_secret_like key); simpl; [|naive_solver].
  case_bool_decide; naive_solver.
Qed.

Lemma child_variables spec (m : gmap string string) :
  map_Forall (child_variable spec) m ↔
  map_Forall (λ key value, validate_pair (key, value) = Ok ()) m ∧
  ∀ key, is_Some (m !! key) → check_secret (rs_allow_secret_env spec) key = Ok ().
Proof.
  split.
  - intros Hm. split.
    + intros key value Hk. apply validate_pair_Ok. by destruct (Hm key value Hk) as (?&?&?&?&_).
    + intros key [value Hk]. apply check_secret_Ok. by destruct (Hm key value Hk) as (_&_&_&_&?).
  - intros [Hm Hs] key value Hk. destruct (proj1 (validate_pair_Ok _ _) (Hm key value Hk)) as (?&?&?&?).
    split_and!; [done..|]. apply check_secret_Ok. eauto.
Qed.

Lemma ensure_secret_env_allowed_Ok (env : gmap string string) allowed :
  ensure_secret_env_allowed (env_keys env) allowed = Ok () ↔
  ∀ key, is_Some (env !! key) → check_secret allowed key = Ok ().
Proof.
  unfold ensure_secret_env_allowed. rewrite check_each_Ok, Forall_forall. split.
  - intros H key Hkey. by apply H, elem_of_env_keys.
  - intros H key Hkey%elem_of_env_keys. by apply H.
Qed.

(** C37 The environment of a session's child is exact: it is built if and only
    if every declared variable and every variable the session allows is well
    formed, and every one of them whose name ends in _TOKEN, _KEY or _SECRET, in
    letters of either case, is listed by name; it then holds the session's variables, and the declared ones they do not
    override. *)
Theorem child_env_exact spec ctx env :
  build_child_env spec ctx = Ok env ↔
  env = sc_env_allowlist ctx ∪ rs_env spec ∧
  map_Forall (child_variable spec) (sc_env_allowlist ctx) ∧
  map_Forall (child_variable spec) (rs_env spec).
Proof.
  rewrite !child_variables. unfold build_child_env. split.
  - intros Hbuild. ok_inv. apply insert_each_map in Hok as [Hd ->], Hok0 as [Hs ->].
    rewrite (right_id_L ∅ (∪)) in *. destruct a1.
    pose proof (proj1 (ensure_secret_env_allowed_Ok _ _) Hok1) as Hsecret.
    split_and!; [done..| |done|]; intros key [value Hk]; apply Hsecret, lookup_union_is_Some; eauto.
  - intros (->&[Hs Hs']&[Hd Hd']).
    rewrite (proj2 (insert_each_map (rs_env spec) ∅ _) (conj Hd eq_refl)), (right_id_L ∅ (∪)).
    rewrite (proj2 (insert_each_map _ _ _) (conj Hs eq_refl)).
    rewrite (proj2 (ensure_secret_env_allowed_Ok _ _)); [done|].
    intros key [Hk|Hk]%lookup_union_is_Some; auto.
Qed.
End environment.

(** ** Exit codes *)

Lemma pretty_digit d : (d < 10)%N →
  is_ascii_digit (pretty_N_char d) = true ∧ (N_of_ascii (pretty_N_char d) - 48 = d)%N.
Proof. intros Hd. destruct d as [|d]; [done|]. do 9 (destruct d as [d|d|]; try done; try lia). Qed.

Lemma digits_value_pretty x acc s : (0 < x)%N → acc = 0%N →
  digits_value acc (pretty_N_go x s) = digits_value x s.
Proof.
  intros Hx ->. revert s Hx. induction (N.lt_wf_0 x) as [x _ IH]. intros s Hx.
  rewrite pretty_N_go_step by done.
  destruct (pretty_digit (x `mod` 10)%N) as [Hdigit Hvalue]; [by apply N.mod_lt|].
  destruct (decide (x / 10 = 0)%N) as [Hz|Hz].
  - rewrite Hz. simpl. rewrite Hdigit, Hvalue. f_equal. rewrite (N.div_mod x 10) at 2 by done. lia.
  - assert (x / 10 < x)%N by (apply N.div_lt; lia). rewrite IH; [|done|by apply N.neq_0_lt_0]. simpl. rewrite Hdigit, Hvalue. f_equal.
    rewrite (N.mul_comm _ 10). symmetry. by apply N.div_mod.
Qed.

(** Characters that neither are a separator nor start one. *)
Definition plain_char (c : ascii) : bool :=
  let n := N_of_ascii c in
  negb ((in_byte_range 9 13 c || bool_decide (c ∈ [","; ";"]%char)) ||
        bool_decide (n ∈ [32; 194; 225; 226; 227]%N)).
Fixpoint plain (s : string) : bool :=
  match s with "" => true | String c s => plain_char c && plain s end.

Lemma plain_app s1 s2 : plain (s1 +:+ s2) = plain s1 && plain s2.
Proof. induction s1 as [|c s1 IH]; simpl; [done|]. by rewrite IH, andb_assoc. Qed.

Lemma plain_digits x s : plain s = true → plain (pretty_N_go x s) = true.
Proof.
  revert s. induction (N.lt_wf_0 x) as [x _ IH]. intros s Hs.
  destruct (decide (x = 0)%N) as [->|Hx]; [done|].
  rewrite pretty_N_go_step by lia. apply IH; [apply N.div_lt; lia|]. simpl. rewrite Hs, andb_true_r.
  unfold pretty_N_char. by repeat case_match.
Qed.
Lemma plain_pretty_N (n : N) : plain (pretty n) = true.
Proof. unfold pretty, pretty_N. case_decide; [done|]. by apply plain_digits. Qed.
Lemma plain_pretty (z : Z) : plain (pretty z) = true.
Proof.
  destruct z as [|p|p]; [done|exact (plain_pretty_N (N.pos p))|].
  change (plain ("-" +:+ pretty (N.pos p)) = true). rewrite plain_app. apply plain_pretty_N.
Qed.

Lemma plain_not_sep c s : plain_char c = true → exit_code_sep (String c s) = None.
Proof.
  unfold plain_char, in_byte_range. intros Hc. rewrite negb_true_iff, !orb_false_iff in Hc.
  destruct Hc as [[Hr Hs%bool_decide_eq_false] Hn%bool_decide_eq_false].
  rewrite !not_elem_of_cons in Hs. rewrite !not_elem_of_cons in Hn. destruct Hs as (Hs1&Hs2&_), Hn as (Hn1&Hn2&Hn3&Hn4&Hn5&_).
  unfold exit_code_sep. rewrite !bool_decide_eq_false_2 by done. simpl. rewrite Hr.
  apply N.eqb_neq in Hn1, Hn2, Hn3, Hn4, Hn5. rewrite Hn1, Hn2, Hn3, Hn4, Hn5. simpl.
  by destruct s as [|? [|]].
Qed.

Lemma split_plain s : plain s = true → split_with exit_code_sep s = [s].
Proof.
  unfold split_with. generalize (S (String.length s)) as fuel. intros fuel. revert s.
  induction fuel as [|fuel IH]; intros s Hs; [done|]. cbn [split_fuel].
  destruct s as [|c s]; [done|]. simpl in Hs. apply andb_true_iff in Hs as [Hc Hs].
  by rewrite (plain_not_sep _ _ Hc), (IH _ Hs).
Qed.

Lemma parse_i32_pretty z : in_i32 z = true → parse_i32 (pretty z) = Some z.
Proof.
  intros Hz.
  assert (Hdigits : ∀ p, ∃ d s, pretty (N.pos p) = String d s ∧ is_ascii_digit d = true ∧
            parse_digits (String d s) = Some (N.pos p)).
  { intros p. pose proof (digits_value_pretty (N.pos p) 0 "" ltac:(lia) eq_refl) as Hv.
    change (pretty_N_go (N.pos p) "") with (pretty (N.pos p)) in Hv.
    destruct (pretty (N.pos p)) as [|d s] eqn:Hs; [simplify_eq/=|].
    exists d, s. split; [done|]. split; [|done]. simpl in Hv. by destruct (is_ascii_digit d). }
  assert (Hsign : ∀ d s, is_ascii_digit d = true → parse_i32 (String d s) =
    (z ← Z.of_N <$> parse_digits (String d s); if in_i32 z then Some z else None)).
  { intros d s Hd. unfold parse_i32. f_equal. by destruct d as [[] [] [] [] [] [] [] []]. }
  destruct z as [|p|p]; [done|..]; destruct (Hdigits p) as (d&s&Hs&Hd&Hv).
  - change (pretty (Z.pos p)) with (pretty (N.pos p)). rewrite Hs, Hsign, Hv by done. simpl.
    by rewrite Hz.
  - change (pretty (Z.neg p)) with ("-" +:+ pretty (N.pos p)). rewrite Hs.
    change (parse_i32 ("-" +:+ String d s)) with
      (z ← (λ n, (- Z.of_N n)%Z) <$> parse_digits (String d s); if in_i32 z then Some z else None).
    rewrite Hv. exact (f_equal (λ b : bool, if b then Some (Z.neg p) else None) Hz).
Qed.

(** The exit code of a child, as a proof of its run records it. *)
Definition exit_code_of (status : WaitStatus) : Z :=
  match status with
  | Exited status => default 1%Z (ps_code status)
  | TimedOut => 1
  end.

(** The exit code the orchestrator reads back from the summary of a turn
    is the one the child ended with; a child ended by a signal and one that
    outlived its turn count as 1. *)
Theorem exit_code_survives status :
  (∀ exit_status code, status = Exited exit_status → ps_code exit_status = Some code →
     in_i32 code = true) →
  let outcome := outcome_from_wait_status status in
  turn_exit_code (to_status outcome) (to_summary outcome) = exit_code_of status.
Proof.
  intros Hcode outcome. subst outcome.
  assert (Hnone : ∀ s, plain s = true → strip_prefix "exit_code=" s = None →
    parse_exit_code (Some s) = None).
  { intros s Hs Hp. unfold parse_exit_code. cbn [mbind option_bind].
    rewrite split_plain by done. cbn [first_some]. by rewrite Hp. }
  destruct status as [[[code|] signal]|]; [| |by vm_compute].
  - specialize (Hcode _ _ eq_refl eq_refl). clear Hnone.
    assert (Hparse : parse_exit_code (Some ("exit_code=" +:+ pretty code)) = Some code).
    { unfold parse_exit_code. cbn [mbind option_bind].
      rewrite split_plain by exact (plain_pretty code). cbn [first_some].
      change (strip_prefix "exit_code=" ("exit_code=" +:+ pretty code)) with (Some (pretty code)).
      cbn [mbind option_bind]. by rewrite (parse_i32_pretty _ Hcode). }
    unfold outcome_from_wait_status, status_success, exit_summary. cbn [ps_code].
    case_bool_decide as Hsuccess; cbn [to_status to_summary turn_exit_code]; rewrite Hparse; [done|].
    by rewrite bool_decide_eq_false_2 by congruence.
  - unfold outcome_from_wait_status, status_success, exit_summary, platform_exit_summary.
    cbn [ps_code ps_signal]. rewrite bool_decide_eq_false_2 by done.
    cbn [to_status to_summary turn_exit_code]. rewrite Hnone; [done|by destruct signal; [exact (plain_pretty z)|]|by destruct signal].
Qed.

(** ** The event queue *)

(** The reference: a record of all events with a cursor.  A consumer takes the
    event at the cursor; an event that comes moves the cursor on when more than
    [n] events would lie behind it. *)
Record event_log := { el_events : list RunnerEvent; el_next : nat; el_taken : list RunnerEvent }.
Definition append (n : nat) (log : event_log) (event : RunnerEvent) : event_log := {|
  el_events := el_events log ++ [event];
  el_next := el_next log `max` (length (el_events log) + 1 - n); el_taken := el_taken log |}.
Definition consume (log : event_log) : event_log :=
  match el_events log !! el_next log with
  | Some event => {| el_events := el_events log; el_next := S (el_next log);
                     el_taken := el_taken log ++ [event] |}
  | None => log
  end.
Definition reference (n : nat) (log : event_log) (step : TaskStep) : event_log :=
  match step with EventTaken => consume log | _ => foldl (append n) log (step_events step) end.

(** The channel of a log, and the logs that fit into a channel. *)
Definition view (log : event_log) : channel := {|
  ch_queue := drop (el_next log) (el_events log); ch_taken := el_taken log |}.
Definition fits (n : nat) (log : event_log) : Prop :=
  el_next log ≤ length (el_events log) ∧ length (el_events log) - el_next log ≤ n.

Lemma append_fits n log event : 0 < n → fits n log → fits n (append n log event).
Proof. unfold fits. simpl. rewrite length_app. simpl. lia. Qed.
Lemma consume_fits n log : fits n log → fits n (consume log).
Proof.
  unfold fits, consume. destruct (_ !! _) eqn:Hl; [|done]. apply lookup_lt_Some in Hl. simpl. lia.
Qed.

Section queue.
Context `{X : Extern} `{J : Json} {W : Type}.
Context `{HE : !HostEnv W} `{F : !Fs W} `{LL : !Landlock W} `{NO : !NativeOs W}
  `{CP : !ChildProcess W} `{TP : !TurnProcess W} `{LC : !LauncherCodec} `{DS : !DebugStr}.
Implicit Types (r : ShellRunner).

Definition places r : nat := N.to_nat (rs_event_capacity (sn_spec r)).

Lemma send_event_append policy capacity log event :
  0 < N.to_nat capacity → fits (N.to_nat capacity) log →
  send_event policy capacity (ch_queue (view log)) event =
    ch_queue (view (append (N.to_nat capacity) log event)).
Proof.
  intros Hc [Hn Hb]. unfold send_event, try_send, drop_oldest_and_send, llen. destruct policy. simpl.
  rewrite length_drop. destruct (_ <? _)%N eqn:Hlt; [apply N.ltb_lt in Hlt|apply N.ltb_ge in Hlt].
  - rewrite Nat.max_l by lia. by rewrite drop_app_le.
  - destruct (lookup_lt_is_Some_2 (el_events log) (el_next log)) as [e He]; [lia|].
    rewrite (drop_S _ _ _ He). simpl. unfold try_send, llen. rewrite length_drop.
    rewrite (proj2 (N.ltb_lt _ _)) by lia.
    rewrite Nat.max_r, <-drop_app_le by lia. f_equal. lia.
Qed.

(** A channel that is the view of a log. *)
Definition follows r (id : string) (log : event_log) (s : shell W) : Prop :=
  channel_of id s = view log ∧ fits (places r) log.

Lemma channel_of_set id c (s : shell W) : channel_of id (set_channel id c s) = c.
Proof. unfold channel_of. simpl. by rewrite lookup_insert_eq. Qed.

Lemma send_follows r id log event s :
  0 < places r → follows r id log s →
  ∃ s', send r id event s = (Ok (), s') ∧ follows r id (append (places r) log event) s'.
Proof.
  intros Hn [Hview Hfits]. eexists. split; [done|]. split; [|by apply append_fits].
  rewrite channel_of_set, Hview, send_event_append by done. done.
Qed.

Lemma take_event_follows r id log s :
  follows r id log s → ∃ s', take_event id s = (Ok (), s') ∧ follows r id (consume log) s'.
Proof.
  intros [Hview Hfits]. eexists. split; [done|]. split; [|by apply consume_fits].
  rewrite Hview. unfold view, consume. simpl. destruct (el_events log !! el_next log) as [event|] eqn:Hl.
  - rewrite (drop_S _ _ _ Hl), channel_of_set. done.
  - apply lookup_ge_None in Hl. rewrite drop_ge by done. rewrite Hview. unfold view. by rewrite drop_ge.
Qed.

Lemma for_each_follows {A} r id (body : A → SM (W := W) unit) (f : event_log → A → event_log) xs :
  (∀ x log s, follows r id log s → ∃ s', body x s = (Ok (), s') ∧ follows r id (f log x) s') →
  ∀ log s, follows r id log s →
  ∃ s', for_each body xs s = (Ok (), s') ∧ follows r id (foldl f log xs) s'.
Proof.
  intros Hbody. induction xs as [|x xs IH]; intros log s Hs; [by exists s|].
  destruct (Hbody x log s Hs) as (s1&Hx&Hs1). destruct (IH _ _ Hs1) as (s2&Hxs&Hs2).
  exists s2. split; [|done]. simpl. unfold mbind, Run_bind. by rewrite Hx.
Qed.

(** C36 The bounded event queue implements a record of all events with a
    cursor: whatever a turn's tasks complete and whenever the consumer takes an
    event, the queue holds exactly the events behind the cursor, never more
    than its capacity, and the consumer has taken the events the cursor passed
    one by one; only the oldest events are lost, and only when the queue is
    full. *)
Theorem queue_refines_record r id steps log (s : shell W) :
  (0 < rs_event_capacity (sn_spec r))%N →
  channel_of id s = view log → fits (places r) log →
  ∃ s', for_each (run_step r id) steps s = (Ok (), s') ∧
    channel_of id s' = view (foldl (reference (places r)) log steps) ∧
    length (ch_queue (channel_of id s')) ≤ places r.
Proof.
  intros Hc Hview Hfits.
  destruct (for_each_follows r id (run_step r id) (reference (places r)) steps) with log s
    as (s'&Hs'&Hview'&_&Hb); [|by split|].
  - intros step log' s1 Hs1. assert (Hn : 0 < places r) by (unfold places; lia).
    destruct step; simpl; try (by apply (for_each_follows r id (send r id) (append (places r)));
      [intros; apply send_follows|]). by apply take_event_follows.
  - exists s'. split_and!; [done..|]. rewrite Hview'. simpl. by rewrite length_drop.
Qed.
End queue.
