(* ===== verification/Traced.v ===== *)
(** * The calls of a dispatch

    Every interface of the orchestrator lifted to a world that also keeps the
    list of the calls with an effect outside: the tracker's writes, the
    runner's sessions and the workspace manager's operations.  A theorem about
    the orchestrator over the lifted interfaces speaks about what it does,
    whatever it is answered. *)

From S2P Require Import Prelude Wire Identity Core Effects Text Files Containment Store Claims.
From S2P Require Import Approvals Ports Scheduling Proofs Trust Manager Orchestrator.
Import Reconcile Concurrency Retry.

Section traced.
Context `{J : Json}.

(** A call with what it was answered: [None] is an error. *)
Inductive DispatchCall :=
  | SawTime (t : Z)
  | SawIssues (ids : list string) (issues : option (list Issue))
  | SawCandidates (ctx : PollContext) (issues : option (list Issue))
  | SawClaimed (agent_id : option string) (issues : option (list Issue))
  | SawApprovals (id : string) (state : option ApprovalState)
  | SawTrust (who : string) (level : option TrustLevel)
  | SawKey (who : string) (key : option bytes)
  | SawVerdict (context : string) (payload signature key : bytes) (verdict : option VerifyOutcome)
  | SawScan (scan : option WorkspaceScan)
  | DoClaim (id agent_id : string) (claim : option Claim)
  | DoHeartbeat (claim : Claim)
  | DoRelease (claim : Claim) (reason : ReleaseReason) (done : option unit)
  | DoHandoff (claim : Claim) (handoff : Handoff) (done : option unit)
  | DoBlock (claim : Claim) (reason : ReleaseReason) (done : option unit)
  | DoStoreConsumed (consumed : ApprovalConsumed) (done : option unit)
  | DoStartSession (ctx : SessionContext) (session : option SessionHandle)
  | DoTurn (session : SessionHandle) (prompt : string) (after : option SessionHandle)
  | DoStopSession (session : SessionHandle)
  | DoCreate (issue : Issue) (handle : option WorkspaceHandle)
  | DoHook (handle : WorkspaceHandle) (h : Hook)
  | DoQuarantine (handle : WorkspaceHandle) (namespace : string)
  | DoDestroy (handle : WorkspaceHandle).

Definition traced (W : Type) : Type := W * list DispatchCall.

Context {W T : Type}.

(** The answer of a call. *)
Definition answer {A E} (r : result A E) : option A :=
  match r with Ok a => Some a | Err _ => None end.

(** The session a turn hands back: none when it fails or shutdown wins. *)
Definition carried {A E} (r : option (result (A * SessionHandle) E)) : option SessionHandle :=
  match r with Some (Ok (_, session)) => Some session | _ => None end.

Definition quiet {E A} (c : Run W E A) : Run (traced W) E A :=
  λ s, let '(r, w) := c s.1 in (r, (w, s.2)).
Definition noted {E A} (call : option A → DispatchCall) (c : Run W E A) : Run (traced W) E A :=
  λ s, let '(r, w) := c s.1 in (r, (w, s.2 ++ [call (answer r)])).
(** Calls that cannot fail. *)
Definition quietly {A} (c : W → A * W) : traced W → A * traced W :=
  λ s, let '(a, w) := c s.1 in (a, (w, s.2)).
Definition noting {A} (call : A → DispatchCall) (c : W → A * W) : traced W → A * traced W :=
  λ s, let '(a, w) := c s.1 in (a, (w, s.2 ++ [call a])).

#[export] Instance TracedTracker (A : TrackerApi W T) : TrackerApi (traced W) T := {|
  tk_list_issues := quiet tk_list_issues;
  tk_create_issue draft := quiet (tk_create_issue draft);
  tk_fetch_candidates ctx := noted (SawCandidates ctx) (tk_fetch_candidates ctx);
  tk_fetch_by_ids ids := noted (SawIssues ids) (tk_fetch_by_ids ids);
  tk_claim id agent := noted (DoClaim id agent) (tk_claim id agent);
  tk_heartbeat claim := noted (λ _, DoHeartbeat claim) (tk_heartbeat claim);
  tk_release claim reason := noted (DoRelease claim reason) (tk_release claim reason);
  tk_handoff claim handoff := noted (DoHandoff claim handoff) (tk_handoff claim handoff);
  tk_fetch_claimed agent := noted (SawClaimed agent) (tk_fetch_claimed agent);
  tk_block claim reason := noted (DoBlock claim reason) (tk_block claim reason);
  tk_requeue_blocked id reason := quiet (tk_requeue_blocked id reason);
  tk_load_approval_state id := noted (SawApprovals id) (tk_load_approval_state id);
  tk_store_approval e := quiet (tk_store_approval e);
  tk_store_consumed c := noted (DoStoreConsumed c) (tk_store_consumed c) |}.

#[export] Instance TracedRunner (A : RunnerApi W T) : RunnerApi (traced W) T := {|
  rn_name := rn_name; rn_capabilities := rn_capabilities;
  rn_start_session ctx := noted (DoStartSession ctx) (rn_start_session ctx);
  rn_race_turn session prompt := noting (λ r, DoTurn session prompt (carried r)) (rn_race_turn session prompt);
  rn_stream_events session := quietly (rn_stream_events session);
  rn_stop_session session := noted (λ _, DoStopSession session) (rn_stop_session session) |}.

#[export] Instance TracedWorkspace (A : WorkspaceApi W T) : WorkspaceApi (traced W) T := {|
  wk_create issue := noted (DoCreate issue) (wk_create issue);
  wk_run_hook_in handle h env := noted (λ _, DoHook handle h) (wk_run_hook_in handle h env);
  wk_list_workspaces := noted SawScan wk_list_workspaces;
  wk_quarantine_workspace handle ns :=
    noted (λ _, DoQuarantine handle ns) (wk_quarantine_workspace handle ns);
  wk_destroy handle := noted (λ _, DoDestroy handle) (wk_destroy handle) |}.

#[export] Instance TracedSigning (A : SigningApi W) : SigningApi (traced W) := {|
  sg_sign context payload := quiet (sg_sign context payload);
  sg_verify context payload signature key :=
    noted (SawVerdict context payload signature key) (sg_verify context payload signature key);
  kr_resolve who := noted (SawKey who) (kr_resolve who) |}.

#[export] Instance TracedTrust (A : TrustApi W T) : TrustApi (traced W) T :=
  {| trust_level who := noted (SawTrust who) (trust_level who) |}.

#[export] Instance TracedFs (A : Fs W) : Fs (traced W) := {|
  fs_canonicalize p := quiet (fs_canonicalize p); fs_metadata p := quiet (fs_metadata p);
  fs_symlink_metadata p := quiet (fs_symlink_metadata p);
  fs_read_dir p := quiet (fs_read_dir p); fs_create_dir m p := quiet (fs_create_dir m p);
  fs_create_dir_all m p := quiet (fs_create_dir_all m p);
  fs_set_permissions m p := quiet (fs_set_permissions m p);
  fs_remove_dir_all p := quiet (fs_remove_dir_all p); fs_rename p q := quiet (fs_rename p q);
  fs_write p b := quiet (fs_write p b); fs_append p b := quiet (fs_append p b);
  fs_copy p q := quiet (fs_copy p q) |}.

#[export] Instance TracedMachine (A : Machine W) : Machine (traced W) := {|
  clock_now := noting SawTime clock_now; instant_now := quietly instant_now;
  env_var name := quietly (env_var name) |}.

#[export] Instance TracedHost (A : OrchHost W) : OrchHost (traced W) := {|
  oh_sleep n := quietly (oh_sleep n); oh_shutdown_flag := quietly oh_shutdown_flag;
  oh_request_shutdown := quietly oh_request_shutdown; oh_entropy := quietly oh_entropy;
  oh_shell_status p c := quiet (oh_shell_status p c);
  oh_git_diff p := quietly (oh_git_diff p) |}.
End traced.
Arguments traced {J} W.

(** ** Traces of runs

    A run of the orchestrator adds some calls to the trace; [emits c L] says
    that the calls a run of [c] adds and its result are always in [L]. *)

Definition trace_of `{J : Json} {W} (s : orch_state (traced W)) : list DispatchCall :=
  (os_world s).2.

Section emits.
Context `{J : Json} {W E : Type}.
Local Abbreviation S := (orch_state (traced W)).

Definition emits {A} (c : Run S E A) (L : list DispatchCall → result A E → Prop) : Prop :=
  ∀ s, ∃ t, trace_of (c s).2 = trace_of s ++ t ∧ L t (c s).1.

(** Of a value that is returned. *)
Definition yields {A} (c : Run S E A) (Φ : list DispatchCall → A → Prop) : Prop :=
  emits c (λ t r, ∀ a, r = Ok a → Φ t a).

Lemma emits_weaken {A} (c : Run S E A) (L L' : list DispatchCall → result A E → Prop) :
  emits c L → (∀ t r, L t r → L' t r) → emits c L'.
Proof. intros Hc HL s. destruct (Hc s) as (t&Ht&Hr). eauto. Qed.

Lemma emits_and {A} (c : Run S E A) (L L' : list DispatchCall → result A E → Prop) :
  emits c L → emits c L' → emits c (λ t r, L t r ∧ L' t r).
Proof.
  intros H H' s. destruct (H s) as (t&Ht&Hr), (H' s) as (t'&Ht'&Hr'). exists t.
  rewrite Ht in Ht'. by apply app_inv_head in Ht' as <-.
Qed.

Lemma emits_lift {A} (r : result A E) L : L [] r → emits (lift_result r) L.
Proof. intros HL s. exists []. by rewrite app_nil_r. Qed.

(** The calls of both parts, in order; an error ends the run. *)
Lemma emits_bind {A B} (c : Run S E A) (f : A → Run S E B) L L' :
  emits c L →
  (∀ a t1, L t1 (Ok a) → emits (f a) (λ t2 r, L' (t1 ++ t2) r)) →
  (∀ e t1, L t1 (Err e) → L' t1 (Err e)) →
  emits (c ≫= f) L'.
Proof.
  intros Hc Hf He s. unfold mbind, Run_bind. destruct (Hc s) as (t1&Ht1&Hr1).
  destruct (c s) as [[a|e] s1]; simpl in *.
  - destruct (Hf a t1 Hr1 s1) as (t2&Ht2&Hr2). exists (t1 ++ t2). split; [|done].
    by rewrite Ht2, Ht1, app_assoc.
  - exists t1. split; [done|]. by apply He.
Qed.

Lemma emits_modify (f : S → S) L :
  (∀ s, trace_of (f s) = trace_of s) → L [] (Ok ()) → emits (modify f) L.
Proof. intros Hf HL s. exists []. rewrite app_nil_r. split; [apply Hf|done]. Qed.

Lemma yields_ret {A} (a : A) (Φ : list DispatchCall → A → Prop) : Φ [] a → yields (mret a) Φ.
Proof. intros HΦ. refine (emits_lift (Ok a) _ _). by intros ? [= <-]. Qed.

Lemma yields_throw {A} (e : E) (Φ : list DispatchCall → A → Prop) : yields (throw e) Φ.
Proof. by refine (emits_lift (Err e) _ _). Qed.

Lemma yields_lift {A} (r : result A E) (Φ : list DispatchCall → A → Prop) :
  (∀ a, r = Ok a → Φ [] a) → yields (lift_result r) Φ.
Proof. exact (emits_lift r _). Qed.

Lemma yields_weaken {A} (c : Run S E A) (Φ Ψ : list DispatchCall → A → Prop) :
  yields c Φ → (∀ t a, Φ t a → Ψ t a) → yields c Ψ.
Proof. intros Hc HΦ. eapply emits_weaken; [exact Hc|]. auto. Qed.

Lemma yields_bind {A B} (c : Run S E A) (f : A → Run S E B) Φ Ψ :
  yields c Φ → (∀ a t1, Φ t1 a → yields (f a) (λ t2 b, Ψ (t1 ++ t2) b)) → yields (c ≫= f) Ψ.
Proof.
  intros Hc Hf. eapply emits_bind; [exact Hc| |by intros].
  intros a t1 H. apply Hf. by apply H.
Qed.
End emits.

Section calls.
Context `{J : Json} {W : Type}.
Local Abbreviation S := (orch_state (traced W)).

Lemma emits_catch {E F A} (c : Run S E A) (L : list DispatchCall → result A E → Prop) :
  emits c L → emits (E := F) (catch c) (λ t r, ∃ r', r = Ok r' ∧ L t r').
Proof.
  intros Hc s. destruct (Hc s) as (t&Ht&Hr). unfold catch. destruct (c s) as [r s'].
  exists t. split; [done|]. eauto.
Qed.

Lemma emits_noted {E A} (call : option A → DispatchCall) (c : Run W E A) :
  emits (on_world (noted call c)) (λ t r, t = [call (answer r)]).
Proof.
  intros s. unfold on_world, noted. destruct (c (os_world s).1) as [r w]. simpl. eauto.
Qed.

Lemma emits_on_world_mapping {E F A} (f : E → F) (c : Run (traced W) E A) L :
  emits (on_world c) L → emits (on_world (mapping_err f c)) (λ t r, ∃ r', r = map_err f r' ∧ L t r').
Proof.
  intros Hc s. destruct (Hc s) as (t&Ht&Hr). unfold on_world, mapping_err in *.
  destruct (c (os_world s)) as [r w]. simpl in *. eauto 6.
Qed.

Lemma emits_core {T A} (call : option A → DispatchCall) (c : Run W (SymphonyError T) A) :
  emits (core (noted call c)) (λ t r, t = [call (answer r)]).
Proof.
  eapply emits_weaken; [apply emits_on_world_mapping, emits_noted|].
  by intros t r ([a|e]&->&->).
Qed.

(** The result of an attempt is a value. *)
Lemma emits_attempt {T E A} (call : option A → DispatchCall) (c : Run W E A) :
  emits (attempt (T := T) (noted call c)) (λ t r, ∃ r', r = Ok r' ∧ t = [call (answer r')]).
Proof.
  intros s. unfold attempt, on_world, catch, noted. destruct (c (os_world s).1) as [r w].
  simpl. eauto 6.
Qed.

Lemma yields_core {T A} (call : option A → DispatchCall) (c : Run W (SymphonyError T) A) :
  yields (core (noted call c)) (λ t a, t = [call (Some a)]).
Proof. eapply emits_weaken; [apply emits_core|]. by intros t r -> a ->. Qed.

Lemma yields_proofs {T A} (call : option A → DispatchCall) (c : Run W (OrchError T) A) :
  yields (proofs (noted call c)) (λ t a, t = [call (Some a)]).
Proof. eapply emits_weaken; [apply emits_noted|]. by intros t r -> a ->. Qed.

Lemma yields_attempt {T E A} (call : option A → DispatchCall) (c : Run W E A) :
  yields (attempt (T := T) (noted call c)) (λ t r, t = [call (answer r)]).
Proof. eapply emits_weaken; [apply emits_attempt|]. by intros t r (r'&->&->) a [= <-]. Qed.

Lemma emits_now {T} `{M : Machine W} :
  emits (now (T := T) (M := TracedMachine M)) (λ t r, ∃ z, r = Ok z ∧ t = [SawTime z]).
Proof.
  intros s. unfold now, host, on_world, embed. simpl. unfold noting.
  destruct (clock_now _) as [z w]. simpl. eauto 6.
Qed.

Lemma yields_now {T} `{M : Machine W} :
  yields (now (T := T) (M := TracedMachine M)) (λ t z, t = [SawTime z]).
Proof. eapply emits_weaken; [apply emits_now|]. by intros t r (z&->&->) a [= <-]. Qed.
End calls.

(** ** What a run never does

    [adds P t0] holds of the states whose trace is [t0] and then calls in [P]:
    an invariant of the runs that make no other calls. *)

Section adds.
Context `{J : Json} {W : Type}.
Implicit Types P : DispatchCall → Prop.

Definition adds_world P t0 (w : traced W) : Prop := ∃ t, w.2 = t0 ++ t ∧ Forall P t.
Definition adds P t0 (s : orch_state (traced W)) : Prop := adds_world P t0 (os_world s).

Lemma adds_emits {E A} P (c : Run (orch_state (traced W)) E A) :
  (∀ t0, ensures (adds P t0) c (λ _, True)) ↔ emits c (λ t _, Forall P t).
Proof.
  split.
  - intros H s. destruct (H (trace_of s) s) as [(t&Ht&HP) _]; [|by exists t].
    exists []. rewrite app_nil_r. by split; [|apply Forall_nil].
  - intros H t0 s (t&Ht&HP). destruct (H s) as (t'&Ht'&HP'). split; [|done].
    exists (t ++ t'). unfold trace_of in *. rewrite Ht', Ht, app_assoc.
    by split; [|apply Forall_app].
Qed.

Lemma yields_any {E A} (c : Run (orch_state (traced W)) E A) :
  (∀ t0, ensures (adds (λ _, True) t0) c (λ _, True)) → yields c (λ _ _, True).
Proof. intros Hc. apply adds_emits in Hc. by eapply emits_weaken. Qed.

Lemma adds_weaken {E A} P Q (c : Run (orch_state (traced W)) E A) t0 :
  (∀ call, P call → Q call) → (∀ t1, ensures (adds P t1) c (λ _, True)) →
  ensures (adds Q t0) c (λ _, True).
Proof.
  intros HPQ Hc. apply adds_emits in Hc. revert t0. apply adds_emits.
  eapply emits_weaken; [exact Hc|]. intros t r Ht. exact (Forall_impl _ _ _ Ht HPQ).
Qed.

Lemma adds_on_world {E A} P t0 (c : Run (traced W) E A) :
  ensures (adds_world P t0) c (λ _, True) → ensures (adds P t0) (on_world c) (λ _, True).
Proof.
  intros Hc s Hs. unfold on_world. destruct (Hc (os_world s) Hs) as [Hw _].
  destruct (c (os_world s)) as [r w]. done.
Qed.

Lemma adds_quiet {E A} P t0 (c : Run W E A) : ensures (adds_world P t0) (quiet c) (λ _, True).
Proof. intros s Hs. unfold quiet. destruct (c s.1). done. Qed.

Lemma adds_quietly {E A} P t0 (c : W → A * W) :
  ensures (E := E) (adds_world P t0) (embed (quietly c)) (λ _, True).
Proof. apply ensures_embed. intros s Hs. unfold quietly. by destruct (c s.1). Qed.

Lemma adds_one P t0 w call : adds_world P t0 w → P call → ∀ v : W, adds_world P t0 (v, w.2 ++ [call]).
Proof.
  intros (t&Ht&HP) Hc v. exists (t ++ [call]). simpl. rewrite Ht, app_assoc.
  split; [done|]. apply Forall_app. by split; [|apply Forall_singleton].
Qed.

Lemma adds_noted {E A} P t0 (call : option A → DispatchCall) (c : Run W E A) :
  (∀ r, P (call r)) → ensures (adds_world P t0) (noted call c) (λ _, True).
Proof.
  intros Hc s Hs. unfold noted. destruct (c s.1) as [r w]. split; [|done]. by apply adds_one.
Qed.

Lemma adds_noting {E A} P t0 (call : A → DispatchCall) (c : W → A * W) :
  (∀ a, P (call a)) → ensures (E := E) (adds_world P t0) (embed (noting call c)) (λ _, True).
Proof.
  intros Hc. apply ensures_embed. intros s Hs. unfold noting. destruct (c s.1) as [a w].
  split; [|done]. by apply adds_one.
Qed.

Lemma adds_modify {E} P t0 (f : orch_state (traced W) → orch_state (traced W)) :
  (∀ s, os_world (f s) = os_world s) → ensures (E := E) (adds P t0) (modify f) (λ _, True).
Proof. intros Hf. apply ensures_modify; [|done]. intros s Hs. unfold adds. by rewrite Hf. Qed.
End adds.

#[export] Hint Resolve adds_quiet adds_quietly : effects.

(** ** The parts of a run that only work on files *)

Section files.
Context `{X : Extern} `{J : Json} `{Dbg : DebugStr} `{CF : ChronoFormat} `{MC : ManifestCodec}.
Context {W T : Type} `{F : !Fs W} `{M : !Machine W}.
Context (P : DispatchCall → Prop) (t0 : list DispatchCall).
Local Abbreviation silent c := (ensures (adds_world (W := W) P t0) c (λ _, True)).

#[local] Hint Extern 1 (ensures (adds_world _ _) _ _) => apply adds_quiet : effects.
#[local] Hint Extern 1 (ensures (adds_world _ _) (embed _) _) => apply adds_quietly : effects.

Lemma silent_io {A} p (c : Run (traced W) IoError A) : silent c → silent (io (T := T) p c).
Proof. apply ensures_mapping. Qed.
Lemma silent_containing {A} (c : Run (traced W) ContainmentError A) :
  silent c → silent (containing (T := T) c).
Proof. apply ensures_mapping. Qed.
Lemma silent_canonicalize_root root : silent (canonicalize_root root).
Proof. unfold canonicalize_root. keeps. Qed.
Lemma silent_validate root p : silent (validate_existing_workspace_path root p).
Proof. unfold validate_existing_workspace_path. keeps. Qed.
#[local] Hint Resolve silent_io silent_containing silent_canonicalize_root silent_validate : effects.

Lemma silent_prepare_root root : silent (prepare_root (T := T) root).
Proof. unfold prepare_root. keeps. Qed.
Lemma silent_ensure_child_dir root name : silent (ensure_child_dir (T := T) root name).
Proof. unfold ensure_child_dir. keeps. Qed.
Lemma silent_sanitize_segment raw : silent (sanitize_segment (T := T) raw).
Proof. unfold sanitize_segment. keeps. Qed.
#[local] Hint Resolve silent_prepare_root silent_ensure_child_dir silent_sanitize_segment : effects.

Lemma silent_run_dir issue_dir base : silent (create_unique_run_dir (T := T) issue_dir base).
Proof.
  unfold create_unique_run_dir. induction (N.of_nat <$> seq 0 100) as [|n l IH]; simpl; keeps.
Qed.
Lemma silent_json p encoded : silent (write_json_file (T := T) p encoded).
Proof. unfold write_json_file. keeps. Qed.
Lemma silent_write_all p b : silent (write_all (T := T) p b).
Proof. unfold write_all. keeps. Qed.
#[local] Hint Resolve silent_run_dir silent_json silent_write_all : effects.

Lemma silent_start root issue agent name caps at_ :
  silent (start (T := T) root issue agent name caps at_).
Proof. unfold start, create_empty_log. keeps. Qed.

Lemma silent_write_abandoned root issue claim reason winner at_ :
  silent (write_abandoned (T := T) root issue claim reason winner at_).
Proof. unfold write_abandoned. keeps. Qed.

Lemma silent_finish p code at_ : silent (finish (T := T) p code at_).
Proof.
  unfold finish, hostname, elapsed_ms. apply keeps_bind; [|keeps].
  generalize ["HOSTNAME"; "COMPUTERNAME"]. intros keys. induction keys; simpl; keeps.
Qed.

Lemma silent_artifact message workspace dir counter p :
  silent (persist_artifact_event (T := T) message workspace dir counter p).
Proof. unfold persist_artifact_event, write_artifact_warning. keeps. Qed.
#[local] Hint Resolve silent_artifact : effects.

Lemma silent_runner_events events dir workspace counter :
  silent (write_runner_events (T := T) events dir workspace counter).
Proof.
  unfold write_runner_events. do 2 (apply keeps_bind; [keeps|intros _]).
  revert counter. induction events as [|e events IH]; intros counter; simpl; [keeps|].
  apply keeps_bind; [keeps|apply IH].
Qed.
End files.

#[export] Hint Resolve silent_start silent_write_abandoned silent_finish silent_runner_events
  : effects.

(** ** Calls of the orchestrator *)

Section pieces.
Context `{J : Json} {W T : Type}.
Implicit Types P : DispatchCall → Prop.

Lemma adds_core {A} P t0 (call : option A → DispatchCall) (c : Run W (SymphonyError T) A) :
  (∀ r, P (call r)) → ensures (adds P t0) (core (noted call c)) (λ _, True).
Proof. intros HP. by apply adds_on_world, ensures_mapping, adds_noted. Qed.

Lemma adds_attempt {A E} P t0 (call : option A → DispatchCall) (c : Run W E A) :
  (∀ r, P (call r)) → ensures (adds P t0) (attempt (T := T) (noted call c)) (λ _, True).
Proof. intros HP. by apply adds_on_world, keeps_catch, adds_noted. Qed.

Lemma adds_attempt_quiet {A E} P t0 (c : Run W E A) :
  ensures (adds P t0) (attempt (T := T) (quiet c)) (λ _, True).
Proof. apply adds_on_world, keeps_catch, adds_quiet. Qed.

Lemma adds_proofs_noted {A} P t0 (call : option A → DispatchCall) (c : Run W (OrchError T) A) :
  (∀ r, P (call r)) → ensures (adds P t0) (proofs (noted call c)) (λ _, True).
Proof. intros HP. by apply adds_on_world, adds_noted. Qed.

Lemma adds_proofs {A} P t0 (c : Run (traced W) (OrchError T) A) :
  ensures (adds_world P t0) c (λ _, True) → ensures (adds P t0) (proofs c) (λ _, True).
Proof. apply adds_on_world. Qed.

Lemma adds_host {A} P t0 (c : W → A * W) :
  ensures (adds P t0) (host (T := T) (quietly c)) (λ _, True).
Proof. apply adds_on_world, adds_quietly. Qed.

Lemma adds_host_noted {A} P t0 (call : A → DispatchCall) (c : W → A * W) :
  (∀ r, P (call r)) → ensures (adds P t0) (host (T := T) (noting call c)) (λ _, True).
Proof. intros HP. by apply adds_on_world, adds_noting. Qed.

Lemma adds_now `{M : !Machine W} P t0 :
  (∀ z, P (SawTime z)) → ensures (adds P t0) (now (T := T)) (λ _, True).
Proof. apply adds_host_noted. Qed.

Lemma adds_cancel P t0 : ensures (adds P t0) (cancel_heartbeat (W := traced W) (T := T)) (λ _, True).
Proof. apply adds_modify. intros s. by destruct (os_guard s). Qed.
Lemma adds_new_guard P t0 : ensures (adds P t0) (new_guard (W := traced W) (T := T)) (λ _, True).
Proof. by apply adds_modify. Qed.
Lemma adds_spawn P t0 claim interval :
  ensures (adds P t0) (spawn_heartbeat (W := traced W) (T := T) claim interval) (λ _, True).
Proof. by apply adds_modify. Qed.
Lemma adds_release_slot P t0 claim :
  ensures (adds P t0) (release_slot (W := traced W) (T := T) claim) (λ _, True).
Proof.
  unfold release_slot. destruct (cl_issue_id claim); [|by apply ensures_ret].
  apply adds_modify. intros s'. by destruct (_ !! _).
Qed.
Lemma adds_emit P t0 o e : ensures (adds P t0) (emit (W := traced W) (T := T) o e) (λ _, True).
Proof. unfold emit. destruct (or_events_tx o); [by apply adds_modify|by apply ensures_ret]. Qed.
End pieces.

#[export] Hint Resolve adds_cancel adds_new_guard adds_spawn adds_release_slot adds_emit : effects.

(** The calls of a run, by the predicate they are in. *)
Ltac adds_call :=
  match goal with
  | |- ensures (adds _ _) (core _) _ => apply adds_core; by intros
  | |- ensures (adds _ _) (attempt _) _ =>
      first [apply adds_attempt_quiet | apply adds_attempt; by intros]
  | |- ensures (adds _ _) (proofs _) _ =>
      first [apply adds_proofs_noted; by intros | apply adds_proofs; solve [eauto 2 with effects]]
  | |- ensures (adds _ _) (host _) _ => first [apply adds_host | apply adds_host_noted; by intros]
  | |- ensures (adds _ _) now _ => apply adds_now; by intros
  end.
#[export] Hint Extern 1 (ensures (adds _ _) _ _) => adds_call : effects.
