(* ===== verification/Orchestrating.v ===== *)
(** * Who the orchestrator dispatches

    The orchestrator over the traced interfaces: a claim's workspace and runner
    are touched only after the answers the orchestrator was given authorise the
    dispatch. *)

From S2P Require Import Prelude Wire Identity Core Effects Text Files Containment Store Claims.
From S2P Require Import Approvals Ports Scheduling Proofs Trust Manager Orchestrator Traced.
Import Reconcile Concurrency Retry.

(** ** What authorises a dispatch *)

Section authorised.
Context `{X : Extern} `{J : Json} `{C : Chrono} `{V : ApprovalCodec} `{CF : ChronoFormat}.
Implicit Types (t : list DispatchCall) (o : Orchestrator) (issue : Issue).

(** The key resolver named a key for [who], and the signing client accepted
    the signature of [payload] under it. *)
Definition signature_verified t (context who : string) (payload : bytes) (signature_b64 : string)
    : Prop :=
  ∃ key signature, SawKey who (Some key) ∈ t ∧ b64_decode signature_b64 = Ok signature ∧
    SawVerdict context payload signature key (Some SigValid) ∈ t.

Definition approval_verified t (e : ApprovalEvent) : Prop :=
  ∃ payload s, enc_v1_approval (unsigned e) = Ok payload ∧ av_signature e = Some s ∧
    signature_verified t APPROVAL_CONTEXT (av_approver_agent_id e) payload (se_signature_b64 s).

Definition consumption_verified t (c : ApprovalConsumed) : Prop :=
  ∃ payload, enc_v1_consumed_payload c = Ok payload ∧
    signature_verified t APPROVAL_CONSUMED_CONTEXT (se_signer_agent_id (ac_signature c)) payload
      (se_signature_b64 (ac_signature c)).

(** Consent: the tracker's approval state holds a verified approval of this
    issue's content and signer, neither expired at a clock reading nor spent by
    the records of the state, which are all verified; and a record that spends
    it was stored. *)
Definition consented t o issue (signer : string) : Prop :=
  ∃ state now e c,
    SawApprovals (iss_id issue) (Some state) ∈ t ∧ SawTime now ∈ t ∧
    e ∈ aps_events state ∧ binds e V1Approve issue signer ∧
    unexpired e (fmt_rfc3339_nanos now) (cf_approval_ttl (or_config o)) ∧
    unspent e (aps_consumed state) ∧ approval_verified t e ∧
    (∀ c', c' ∈ aps_consumed state → consumption_verified t c') ∧
    spends c issue signer ∧ DoStoreConsumed c (Some ()) ∈ t.

(** The signer of the issue is trusted enough, as x0xd's contacts say. *)
Definition trusted t o issue (signer : string) : Prop :=
  ∃ raw level, iss_signature_provenance issue = Some (ProvenanceVerified raw) ∧
    non_blank raw = Some signer ∧ SawTrust signer (Some level) ∈ t ∧
    level ≠ TrustBlocked ∧ level ≠ TrustUnknown ∧
    (trust_rank (cf_required_trust (or_config o)) ≤ trust_rank level)%N.

(** Nothing marks the issue as coming from the network. *)
Definition local_issue issue : Prop :=
  from_issue issue ≠ NetworkSourced ∧ iss_signature_provenance issue = None.
(** The issue bears this very agent's verified signature. *)
Definition own_issue o issue : Prop :=
  ∃ raw, iss_signature_provenance issue = Some (ProvenanceVerified raw) ∧
    trim raw = cf_agent_id (or_config o) ∧ trim raw ≠ "".

Definition authorised t o issue : Prop :=
  local_issue issue ∨ own_issue o issue ∨
  ∃ signer, trusted t o issue signer ∧
    (cf_network_dispatch (or_config o) = PolicyAuto ∨
     cf_network_dispatch (or_config o) = PolicyApprove ∧ consented t o issue signer).

Lemma is_network_sourced_false issue : is_network_sourced issue = false → local_issue issue.
Proof.
  intros [H1 H2]%orb_false_iff. apply bool_decide_eq_false in H1, H2. split; [done|].
  by apply eq_None_not_Some.
Qed.

Lemma is_self_authored_true o issue : is_self_authored o issue = true → own_issue o issue.
Proof.
  unfold is_self_authored, own_issue. destruct (iss_signature_provenance issue) as [[raw|?|?]|]; try done.
  intros [H1%negb_true_iff H2]%andb_prop. apply bool_decide_eq_false in H1.
  apply bool_decide_eq_true in H2. eauto.
Qed.

(** More answers authorise no less. *)
Lemma signature_verified_mono t t' context who payload s :
  t ⊆ t' → signature_verified t context who payload s → signature_verified t' context who payload s.
Proof. intros Ht (key&sig&?&?&?). exists key, sig. auto. Qed.

Lemma approval_verified_mono t t' e : t ⊆ t' → approval_verified t e → approval_verified t' e.
Proof.
  intros Ht (p&s&?&?&?). exists p, s. split_and!; try done. by eapply signature_verified_mono.
Qed.

Lemma consumption_verified_mono t t' c :
  t ⊆ t' → consumption_verified t c → consumption_verified t' c.
Proof. intros Ht (p&?&?). exists p. split; [done|]. by eapply signature_verified_mono. Qed.

Lemma consented_mono t t' o issue signer :
  t ⊆ t' → consented t o issue signer → consented t' o issue signer.
Proof.
  intros Ht (st&now&e&c&?&?&?&?&?&?&?&Hc&?&?). exists st, now, e, c.
  split_and!; auto; [by eapply approval_verified_mono|].
  intros c' Hc'. eapply consumption_verified_mono; [done|auto].
Qed.

Lemma authorised_mono t t' o issue : t ⊆ t' → authorised t o issue → authorised t' o issue.
Proof.
  intros Ht [?|[?|(signer&(raw&level&?&?&?&?)&Hpol)]]; [by left|by right; left|].
  right; right. exists signer. split; [exists raw, level; auto|].
  destruct Hpol as [?|[? ?]]; [by left|right]. split; [done|]. by eapply consented_mono.
Qed.
End authorised.

Lemma suffix_subset {A} (l k : list A) : k ⊆ l ++ k.
Proof. intros x Hx. apply elem_of_app. by right. Qed.
Lemma prefix_subset {A} (l k : list A) : l ⊆ l ++ k.
Proof. intros x Hx. apply elem_of_app. by left. Qed.
#[export] Hint Resolve suffix_subset prefix_subset : effects.

(** Membership and inclusion of traces, without looking at the context. *)
Ltac in_trace :=
  first [match goal with
         | |- _ ⊆ _ => intros ? ?; repeat first [rewrite elem_of_app | rewrite elem_of_cons]; tauto
         end
        |repeat first [rewrite elem_of_app | rewrite elem_of_cons]; tauto].

(** ** The gate *)

Section gate.
Context `{X : Extern} `{J : Json} `{C : Chrono} `{V : ApprovalCodec} `{Dbg : DebugStr}.
Context `{CF : ChronoFormat} `{MC : ManifestCodec}.
Context {W T : Type} `{TT : TrackerText T}.
Context `{TK : !TrackerApi W T} `{RN : !RunnerApi W T} `{WK : !WorkspaceApi W T}.
Context `{SG : !SigningApi W} `{TR : !TrustApi W T}.
Context `{F : !Fs W} `{M : !Machine W} `{OH : !OrchHost W}.
Local Abbreviation OMT := (OM (W := traced W) (T := T)).
Implicit Types (o : Orchestrator) (issue : Issue).

Lemma yields_resolved who :
  yields (resolved (T := T) (W := traced W) who)
    (λ t r, match r with Ok key => t = [SawKey who (Some key)] | Err v => v ≠ CryptoValid end).
Proof.
  unfold resolved. eapply yields_bind; [apply yields_attempt|]. intros r t1 ->.
  apply yields_ret. destruct r as [key|e]; simpl; [done|].
  by destruct (signing_error_is_transport e).
Qed.

Lemma yields_verified context payload signature key :
  yields (verified (T := T) (W := traced W) context payload signature key)
    (λ t v, v = CryptoValid → SawVerdict context payload signature key (Some SigValid) ∈ t).
Proof.
  unfold verified. eapply yields_bind; [apply yields_attempt|]. intros r t1 ->.
  apply yields_ret. destruct r as [[]|e]; simpl; try done; [set_solver|].
  by destruct (signing_error_is_transport e).
Qed.

Lemma yields_verify_approval e :
  yields (verify_approval_signature (T := T) (W := traced W) e)
    (λ t v, v = CryptoValid → approval_verified t e).
Proof.
  unfold verify_approval_signature. eapply yields_bind; [apply yields_resolved|].
  intros [key|v] t1 Ht1; [|by apply yields_ret].
  destruct (enc_v1_approval (unsigned e)) as [p|] eqn:Hp; [|by apply yields_ret].
  destruct (av_signature e) as [s|] eqn:Hs; [|by apply yields_ret].
  destruct (b64_decode (se_signature_b64 s)) as [b|] eqn:Hb; [|by apply yields_ret].
  eapply yields_weaken; [apply yields_verified|]. intros t v Hv ->. specialize (Hv eq_refl).
  exists p, s. split; [done|]. split; [done|]. exists key, b. set_solver.
Qed.

Lemma yields_verify_consumed c :
  yields (verify_consumed_signature (T := T) (W := traced W) c)
    (λ t v, v = CryptoValid → consumption_verified t c).
Proof.
  unfold verify_consumed_signature. destruct (negb _); [by apply yields_ret|].
  eapply yields_bind; [apply yields_resolved|].
  intros [key|v] t1 Ht1; [|by apply yields_ret].
  destruct (enc_v1_consumed_payload c) as [p|] eqn:Hp; [|by apply yields_ret].
  destruct (b64_decode _) as [b|] eqn:Hb; [|by apply yields_ret].
  eapply yields_weaken; [apply yields_verified|]. intros t v Hv ->. specialize (Hv eq_refl).
  exists p. split; [done|]. exists key, b. set_solver.
Qed.

Lemma adds_refusal P t0 claim code detail :
  (∀ r d, P (DoBlock claim r d)) →
  ensures (adds P t0) (block_for_dispatch_refusal (W := traced W) (T := T) claim code detail)
    (λ _, True).
Proof. intros HP. unfold block_for_dispatch_refusal. keeps. Qed.
Hint Extern 1 (ensures (adds _ _) (block_for_dispatch_refusal _ _ _) _) =>
  apply adds_refusal; by intros : effects.

Lemma yields_consumed_all claim records done :
  yields (verify_consumed_all (T := T) (W := traced W) claim records done)
    (λ t r, ∀ l, r = Some l → l = done ++ records ∧ ∀ c, c ∈ records → consumption_verified t c).
Proof.
  revert done. induction records as [|c records IH]; intros done; simpl.
  { apply yields_ret. intros ? [= <-]. rewrite app_nil_r. split; [done|]. set_solver. }
  eapply yields_bind; [apply yields_verify_consumed|]. intros v t1 Hv.
  assert (Hblocked : ∀ code detail, yields (_ ← block_for_dispatch_refusal (T := T)
      (W := traced W) claim code detail; mret None)
      (λ (t : list DispatchCall) r, ∀ l, r = Some l → l = done ++ c :: records ∧
        ∀ c', c' ∈ c :: records → consumption_verified (t1 ++ t) c')).
  { intros. eapply yields_bind; [apply yields_any; keeps|]. intros _ t2 _. by apply yields_ret. }
  destruct v; [|apply Hblocked..].
  eapply yields_weaken; [apply IH|]. intros t r Hr l ->. destruct (Hr l eq_refl) as [-> Hall].
  rewrite <-app_assoc. split; [done|]. intros c' [->|Hc]%elem_of_cons.
  - eapply consumption_verified_mono; [|by apply Hv]. apply prefix_subset.
  - eapply consumption_verified_mono; [|by apply Hall]. apply suffix_subset.
Qed.

(** The events that are kept are verified. *)
Lemma yields_kept o claim issue signer at_ consumed events kept emitted :
  yields (kept_events (T := T) (W := traced W) o claim issue signer at_ consumed events kept emitted)
    (λ t r, ∀ l e, r = Some l → e ∈ l → e ∈ kept ∨ (e ∈ events ∧ approval_verified t e)).
Proof.
  revert kept emitted. induction events as [|e0 events IH]; intros kept emitted; simpl.
  { apply yields_ret. intros ? e [= <-]. by left. }
  eapply yields_bind; [apply yields_any; unfold emit_approval_expired_once; keeps|].
  intros emitted' t0 _. case_bool_decide.
  { eapply yields_weaken; [apply IH|]. intros t r Hr l e Hl He.
    destruct (Hr l e Hl He) as [|[? ?]]; [by left|right]. split; [set_solver|].
    eapply approval_verified_mono; [apply suffix_subset|done]. }
  eapply yields_bind; [apply yields_verify_approval|]. intros v t1 Hv.
  destruct v.
  - eapply yields_weaken; [apply IH|]. intros t r Hr l e Hl He.
    destruct (Hr l e Hl He) as [[Hk| ->%list_elem_of_singleton]%elem_of_app|[? ?]]; [by left|right..].
    + split; [set_solver|]. eapply approval_verified_mono; [|by apply Hv]. set_solver.
    + split; [set_solver|]. eapply approval_verified_mono; [|done]. set_solver.
  - eapply yields_weaken; [apply IH|]. intros t r Hr l e Hl He.
    destruct (Hr l e Hl He) as [|[? ?]]; [by left|right]. split; [set_solver|].
    eapply approval_verified_mono; [|done]. set_solver.
  - eapply yields_bind; [apply yields_any; keeps|]. intros _ t2 _. by apply yields_ret.
Qed.

Lemma yields_signed_consumed o issue signer at_ :
  yields (signed_consumed_event (T := T) (W := traced W) o issue signer at_)
    (λ _ c, spends c issue signer).
Proof.
  unfold signed_consumed_event. eapply yields_bind; [apply yields_any; keeps|]. intros n t1 _.
  eapply yields_bind; [apply yields_any; keeps|]. intros payload t2 _.
  eapply yields_bind; [apply yields_any|].
  { intros t0. apply adds_on_world, ensures_mapping, adds_quiet. }
  intros r t3 _. case_bool_decide; [by apply yields_throw|].
  case_bool_decide; [by apply yields_throw|]. apply yields_ret. by split_and!.
Qed.

Lemma yields_consume o claim issue signer at_ :
  yields (consume_approval_and_proceed (T := T) (W := traced W) o claim issue signer at_)
    (λ t r, r = GateProceed → ∃ c, spends c issue signer ∧ DoStoreConsumed c (Some ()) ∈ t).
Proof.
  unfold consume_approval_and_proceed. eapply yields_bind.
  { eapply emits_weaken; [apply emits_catch, yields_signed_consumed|].
    intros t r (r'&->&Hr) a [= <-]. exact Hr. }
  intros [c|e] t1 Hc.
  - eapply yields_bind; [apply yields_core|]. intros [] t2 ->. apply yields_ret. intros _.
    exists c. split; [by apply Hc|]. set_solver.
  - eapply yields_bind; [apply yields_any; keeps|]. intros _ t2 _. by apply yields_ret.
Qed.

Lemma yields_rfc3339 :
  yields (now_rfc3339 (T := T) (W := traced W))
    (λ t s, ∃ z, SawTime z ∈ t ∧ s = fmt_rfc3339_nanos z).
Proof.
  unfold now_rfc3339. eapply yields_bind; [apply yields_now|]. intros z t ->. apply yields_ret.
  exists z. set_solver.
Qed.

Lemma yields_park claim detail :
  yields (park_awaiting_approval (T := T) (W := traced W) claim detail)
    (λ _ r, r = GatePendingApproval).
Proof.
  unfold park_awaiting_approval. eapply yields_bind; [apply yields_any; keeps|].
  intros _ t _. by apply yields_ret.
Qed.

Lemma yields_approval_gate o claim issue signer :
  yields (approval_gate_decision (T := T) (W := traced W) o claim issue signer)
    (λ t r, r = GateProceed → consented t o issue signer).
Proof.
  unfold approval_gate_decision. eapply yields_bind; [apply yields_core|]. intros state t1 ->.
  eapply yields_bind; [apply yields_rfc3339|]. intros ? t2 (z&Hz&->).
  eapply yields_bind; [apply yields_any; unfold require_approval_crypto; keeps|].
  intros crypto t3 _. destruct (negb crypto); [by apply yields_ret|].
  eapply yields_bind; [apply yields_consumed_all|].
  intros [consumed|] t4 Hc; [|by apply yields_ret].
  destruct (Hc _ eq_refl) as [-> Hall]. simpl app in *.
  eapply yields_bind; [apply yields_kept|]. intros [events|] t5 Hk; [|by apply yields_ret].
  destruct (approval_decision _ _ _ _ _ _) eqn:Hd.
  2-3: eapply yields_weaken; [apply yields_park|]; by intros ? ? ->.
  apply approval_decision_Approved in Hd as (e&He&Hb&Hx&Hu).
  destruct (Hk _ _ eq_refl He) as [?%elem_of_nil|[Hin Hv]]; [done|].
  eapply yields_weaken; [apply yields_consume|]. intros t r Hr Hp.
  destruct (Hr Hp) as (c&Hsp&Hst). exists state, z, e, c.
  split_and!; try done; try in_trace.
  - eapply approval_verified_mono; [|done]. in_trace.
  - intros c' Hc'. eapply consumption_verified_mono; [|by apply Hall]. in_trace.
Qed.

Lemma trust_refusal_None o signer level :
  trust_refusal o signer level = None →
  level ≠ TrustBlocked ∧ level ≠ TrustUnknown ∧
  (trust_rank (cf_required_trust (or_config o)) ≤ trust_rank level)%N.
Proof.
  unfold trust_refusal, trust_lt. case_bool_decide; [done|]. case_bool_decide; [done|].
  destruct (_ <? _)%N eqn:Hlt; [done|]. apply N.ltb_ge in Hlt. done.
Qed.

Lemma provenance_signer_Ok issue signer :
  provenance_signer issue = Ok signer →
  ∃ raw, iss_signature_provenance issue = Some (ProvenanceVerified raw) ∧
    non_blank raw = Some signer.
Proof.
  unfold provenance_signer. destruct (iss_signature_provenance issue) as [[raw|?|?]|]; try done.
  destruct (non_blank raw) eqn:Hn; [|done]. intros [= <-]. eauto.
Qed.

(** A refusal is not a decision to proceed. *)
Lemma yields_refused claim code detail (outcome : DispatchGateOutcome)
    (Φ : list DispatchCall → DispatchGateOutcome → Prop) :
  (∀ t, Φ t outcome) →
  yields (_ ← block_for_dispatch_refusal (T := T) (W := traced W) claim code detail; mret outcome) Φ.
Proof.
  intros HΦ. eapply yields_bind; [apply yields_any; keeps|]. intros _ t _. by apply yields_ret.
Qed.

Lemma yields_gate o claim issue :
  yields (block_if_network_dispatch_refused (T := T) (W := traced W) o claim issue)
    (λ t r, r = GateProceed → authorised t o issue).
Proof.
  unfold block_if_network_dispatch_refused.
  destruct (is_network_sourced issue) eqn:Hn.
  2: { apply yields_ret. intros _. left. by apply is_network_sourced_false. }
  destruct (is_self_authored o issue) eqn:Hs.
  { apply yields_ret. intros _. right. left. by apply is_self_authored_true. }
  simpl negb. cbv iota. case_bool_decide as Hoff; [by apply yields_refused|].
  destruct (provenance_signer issue) as [signer|[code detail]] eqn:Hp; [|by apply yields_refused].
  apply provenance_signer_Ok in Hp as (raw&Hraw&Hsigner).
  eapply yields_bind; [apply yields_proofs|]. intros level t1 ->.
  destruct (trust_refusal _ _ _) as [[code detail]|] eqn:Hr; [by apply yields_refused|].
  apply trust_refusal_None in Hr as (?&?&?).
  assert (Ht : ∀ t, trusted ([SawTrust signer (Some level)] ++ t) o issue signer).
  { intros t. exists raw, level. split_and!; try done. set_solver. }
  destruct (cf_network_dispatch (or_config o)) eqn:Hpol; [done| |].
  - eapply yields_weaken; [apply yields_approval_gate|]. intros t r Hr Hproceed.
    right; right. exists signer. split; [apply Ht|]. right. split; [done|].
    eapply consented_mono; [|by apply Hr]. set_solver.
  - apply yields_ret. intros _. right; right. exists signer. split; [apply Ht|by left].
Qed.

(** *** The gate acts on nothing *)

Lemma adds_verified P t0 context payload signature key :
  (∀ r, P (SawVerdict context payload signature key r)) →
  ensures (adds P t0) (verified (T := T) (W := traced W) context payload signature key) (λ _, True).
Proof. intros HP. unfold verified. keeps. Qed.

Lemma adds_resolved P t0 who :
  (∀ r, P (SawKey who r)) →
  ensures (adds P t0) (resolved (T := T) (W := traced W) who) (λ _, True).
Proof. intros HP. unfold resolved. keeps. Qed.
End gate.

(** The calls that touch a workspace or the runner. *)
Definition acts `{J : Json} (c : DispatchCall) : bool :=
  match c with
  | DoStartSession _ _ | DoTurn _ _ _ | DoStopSession _ | DoCreate _ _ | DoHook _ _
  | DoQuarantine _ _ | DoDestroy _ => true
  | _ => false
  end.

Section passive.
Context `{X : Extern} `{J : Json} `{C : Chrono} `{V : ApprovalCodec} `{Dbg : DebugStr}.
Context `{CF : ChronoFormat} `{MC : ManifestCodec}.
Context {W T : Type} `{TT : TrackerText T}.
Context `{TK : !TrackerApi W T} `{RN : !RunnerApi W T} `{WK : !WorkspaceApi W T}.
Context `{SG : !SigningApi W} `{TR : !TrustApi W T}.
Context `{F : !Fs W} `{M : !Machine W} `{OH : !OrchHost W}.
Implicit Types (o : Orchestrator) (issue : Issue).
Local Abbreviation passive c :=
  (∀ t0, ensures (E := OrchError T) (adds (W := W) (λ call, acts call = false) t0) c (λ _, True)).

#[local] Hint Extern 1 (ensures (adds _ _) (verified _ _ _ _) _) =>
  apply adds_verified; by intros : effects.
#[local] Hint Extern 1 (ensures (adds _ _) (resolved _) _) => apply adds_resolved; by intros : effects.
#[local] Hint Extern 1 (ensures (adds _ _) (block_for_dispatch_refusal _ _ _) _) =>
  apply adds_refusal; by intros : effects.

Lemma passive_consumed_all claim records done :
  passive (verify_consumed_all (T := T) (W := traced W) claim records done).
Proof.
  revert done. induction records as [|c records IH]; intros done t0; simpl; [keeps|].
  unfold verify_consumed_signature. keeps.
Qed.

Lemma passive_kept o claim issue signer at_ consumed events kept emitted :
  passive (kept_events (T := T) (W := traced W) o claim issue signer at_ consumed events kept emitted).
Proof.
  revert kept emitted. induction events as [|e events IH]; intros kept emitted t0; simpl; [keeps|].
  unfold emit_approval_expired_once, verify_approval_signature. keeps.
Qed.
#[local] Hint Resolve passive_consumed_all passive_kept : effects.

Lemma passive_sign {A E F'} (f : E → F') P t0 (c : Run W E A) :
  ensures (adds P t0) (on_world (mapping_err f (quiet c))) (λ _, True).
Proof. apply adds_on_world, ensures_mapping, adds_quiet. Qed.
#[local] Hint Extern 1 (ensures (adds _ _) (on_world (mapping_err _ _)) _) =>
  apply passive_sign : effects.

Lemma passive_consume o claim issue signer at_ :
  passive (consume_approval_and_proceed (T := T) (W := traced W) o claim issue signer at_).
Proof. intros t0. unfold consume_approval_and_proceed, signed_consumed_event. keeps. Qed.
#[local] Hint Resolve passive_consume : effects.

Lemma passive_approval_gate o claim issue signer :
  passive (approval_gate_decision (T := T) (W := traced W) o claim issue signer).
Proof.
  intros t0. unfold approval_gate_decision, now_rfc3339, require_approval_crypto,
    verified_consumed_records, park_awaiting_approval. keeps.
Qed.
#[local] Hint Resolve passive_approval_gate : effects.

Lemma passive_gate o claim issue :
  passive (dispatch_gate_resolution (T := T) (W := traced W) o claim issue).
Proof.
  intros t0. unfold dispatch_gate_resolution, block_if_network_dispatch_refused,
    pending_approval_resolution. keeps.
Qed.

Lemma passive_fetch claim : passive (fetch_claim_issue (T := T) (W := traced W) claim).
Proof. intros t0. unfold fetch_claim_issue. keeps. Qed.
End passive.

(** ** Calls for an issue *)

Section about.
Context `{J : Json}.
Implicit Types (t : list DispatchCall) (issue : Issue).

(** The sessions of an issue: those the runner started for it, in a workspace
    created for it, and those its turns handed back. *)
Inductive session_for t issue : SessionHandle → Prop :=
  | session_started ctx s :
      DoStartSession ctx (Some s) ∈ t → sc_issue ctx = issue → session_for t issue s
  | session_carried s prompt s' :
      DoTurn s prompt (Some s') ∈ t → session_for t issue s → session_for t issue s'.

(** After the calls [t], the call is for the issue: it creates the issue's
    workspace; runs a hook in, or destroys, a workspace that was created for
    the issue; starts a session on the issue in such a workspace, with no
    extra environment; or prompts a session of the issue with the issue's
    description, or stops it.  Nothing is quarantined. *)
Definition for_issue t issue (c : DispatchCall) : Prop :=
  match c with
  | DoCreate i _ => i = issue
  | DoHook h _ | DoDestroy h => DoCreate issue (Some h) ∈ t
  | DoStartSession ctx _ =>
      sc_issue ctx = issue ∧ sc_env_allowlist ctx = ∅ ∧
      ∃ h, DoCreate issue (Some h) ∈ t ∧ sc_workspace_path ctx = wh_path h
  | DoTurn s prompt _ => session_for t issue s ∧ prompt = iss_description issue
  | DoStopSession s => session_for t issue s
  | DoQuarantine _ _ => False
  | _ => True
  end.

(** The calls of [t], made after those of [t0], are for the issue. *)
Definition follows issue t0 t : Prop :=
  ∀ t1 call t2, t = t1 ++ call :: t2 → acts call = true → for_issue (t0 ++ t1) issue call.
End about.

(** ** One run *)

Section run.
Context `{X : Extern} `{J : Json} `{C : Chrono} `{V : ApprovalCodec} `{Dbg : DebugStr}.
Context `{CF : ChronoFormat} `{MC : ManifestCodec}.
Context {W T : Type} `{TT : TrackerText T}.
Context `{TK : !TrackerApi W T} `{RN : !RunnerApi W T} `{WK : !WorkspaceApi W T}.
Context `{SG : !SigningApi W} `{TR : !TrustApi W T}.
Context `{F : !Fs W} `{M : !Machine W} `{OH : !OrchHost W}.
Implicit Types (o : Orchestrator) (issue : Issue) (P : DispatchCall → Prop).

(** The parts of an attempt, for predicates of their calls. *)
Lemma adds_attempt_hook P t0 o claim handle phase :
  (∀ h, P (DoHook handle h)) →
  ensures (adds P t0) (attempt_hook (T := T) (W := traced W) o claim handle phase) (λ _, True).
Proof. intros HP. unfold attempt_hook, run_hook_phase. keeps. Qed.

Lemma adds_block_if_hook_failed P t0 o claim handle phase proof :
  (∀ h, P (DoHook handle h)) → (∀ r d, P (DoBlock claim r d)) →
  ensures (adds P t0) (block_if_hook_failed (T := T) (W := traced W) o claim handle phase proof)
    (λ _, True).
Proof.
  intros HP HB. unfold block_if_hook_failed, block_for_hook_failure.
  apply keeps_bind; [by apply adds_attempt_hook|]. intros r. keeps.
Qed.

Lemma adds_cleanup P t0 o claim handle name proof :
  (∀ h, P (DoHook handle h)) → P (DoDestroy handle) →
  ensures (adds P t0) (cleanup_if_terminal (T := T) (W := traced W) o claim handle name proof)
    (λ _, True).
Proof.
  intros HP HD. unfold cleanup_if_terminal, before_remove_allows_cleanup.
  destruct (negb _); [keeps|]. apply keeps_bind; [|keeps].
  apply keeps_bind; [by apply adds_attempt_hook|keeps].
Qed.

Lemma adds_finish_blocked P t0 o claim handle code proof :
  (∀ h, P (DoHook handle h)) → P (DoDestroy handle) → (∀ z, P (SawTime z)) →
  ensures (adds P t0) (finish_blocked (T := T) (W := traced W) o claim handle code proof) (λ _, True).
Proof.
  intros HP HD HT. unfold finish_blocked. apply keeps_bind; [by apply adds_cleanup|]. keeps.
Qed.

Lemma adds_handoff P t0 o issue workspace proof attempts turn :
  ensures (adds P t0)
    (build_success_handoff (T := T) (W := traced W) o issue workspace proof attempts turn)
    (λ _, True).
Proof.
  unfold build_success_handoff, changed_files_from_git_diff, run_validation_commands.
  apply keeps_bind; [|keeps].
  generalize (omap non_blank (configured_validation_commands
    (cf_validation_commands (or_config o)) issue)). intros commands.
  induction commands as [|c commands IH]; simpl; [keeps|].
  apply keeps_bind; [unfold run_validation_command; keeps|]. keeps.
Qed.

(** *** Calls for one issue *)

Lemma for_issue_mono t t' issue call :
  t ⊆ t' → for_issue t issue call → for_issue t' issue call.
Proof.
  intros Ht. assert (∀ s, session_for t issue s → session_for t' issue s) as Hs.
  { induction 1; [by econstructor; eauto|by eapply session_carried; eauto]. }
  destruct call; simpl; auto; [|naive_solver]. intros (?&?&h&?&?). eauto 6.
Qed.

Lemma follows_app issue t0 t1 t2 :
  follows issue t0 t1 → follows issue (t0 ++ t1) t2 → follows issue t0 (t1 ++ t2).
Proof.
  intros H1 H2 k1 call k2 Hk Ha. apply app_eq_inv in Hk as [(k&->&Hk)|(k&->&->)].
  - destruct k as [|c k]; simpl in *.
    + rewrite app_nil_r in *. subst t2. rewrite <-(app_nil_r (t0 ++ k1)). by apply (H2 [] call k2).
    + injection Hk as <- ->. by apply (H1 _ call k).
  - rewrite app_assoc. by apply (H2 k call k2).
Qed.

(** [serves issue known c]: wherever the facts [known] hold of the trace
    before it, a run of [c] makes calls for the issue only. *)
Definition serves {A} issue (known : list DispatchCall → Prop) (c : OM (W := traced W) (T := T) A)
    : Prop := emits c (λ t _, ∀ t0, known t0 → follows issue t0 t).

(** Facts that stay. *)
Definition lasting (known : list DispatchCall → Prop) : Prop := ∀ t t', known t → known (t ++ t').

Lemma serves_bind {A B} issue known (c : OM A) (f : A → OM B) :
  lasting known → serves issue known c → (∀ a, serves issue known (f a)) →
  serves issue known (c ≫= f).
Proof.
  intros Hl Hc Hf. eapply emits_bind; [exact Hc| |by intros e t1 H1].
  intros a t1 H1. eapply emits_weaken; [apply Hf|]. intros t2 r H2 t0 Ht0.
  apply follows_app; auto.
Qed.

(** After calls that end with a value, what the value's calls establish. *)
Lemma serves_then {A B} issue (known : list DispatchCall → Prop)
    (known' : A → list DispatchCall → Prop) (c : OM A) (f : A → OM B) :
  serves issue known c → yields c (λ t a, ∀ t0, known t0 → known' a (t0 ++ t)) →
  (∀ a, serves issue (known' a) (f a)) → serves issue known (c ≫= f).
Proof.
  intros Hc Hy Hf. eapply emits_bind; [exact (emits_and _ _ _ Hc Hy)| |by intros e t1 [H1 _]].
  intros a t1 [H1 Hk]. eapply emits_weaken; [apply Hf|]. intros t2 r H2 t0 Ht0.
  apply follows_app; [auto|]. apply H2. by apply Hk.
Qed.

(** Runs whose every call is for the issue once the facts hold. *)
Lemma serves_adds {A} issue known (c : OM (W := traced W) (T := T) A) :
  lasting known →
  (∀ t0, ensures (adds (λ call, ∀ t, known t → for_issue t issue call) t0) c (λ _, True)) →
  serves issue known c.
Proof.
  intros Hl Hc. apply adds_emits in Hc. eapply emits_weaken; [exact Hc|].
  intros t r Ht t0 Ht0 k1 call k2 -> _. apply Forall_app in Ht as [_ Ht].
  apply Forall_cons in Ht as [Ht _]. apply Ht. by apply Hl.
Qed.

(** The workspace was created for the issue; a session was handed out for it. *)
Definition has_workspace issue (handle : WorkspaceHandle) (t : list DispatchCall) : Prop :=
  DoCreate issue (Some handle) ∈ t.
Definition has_session issue handle (s : SessionHandle) (t : list DispatchCall) : Prop :=
  has_workspace issue handle t ∧ session_for t issue s.

Lemma lasting_workspace issue handle : lasting (has_workspace issue handle).
Proof. intros t t' H. apply elem_of_app. by left. Qed.
Lemma session_for_app t t' issue s : session_for t issue s → session_for (t ++ t') issue s.
Proof. apply (for_issue_mono t (t ++ t') issue (DoStopSession s)). auto with effects. Qed.
Lemma lasting_session issue handle s : lasting (has_session issue handle s).
Proof. intros t t' [H1 H2]. split; [by apply lasting_workspace|by apply session_for_app]. Qed.
#[local] Hint Resolve lasting_workspace lasting_session : effects.

Lemma serves_start issue handle (r : option SessionHandle) :
  ∀ t, has_workspace issue handle t →
  for_issue t issue (DoStartSession (new_session_context issue (wh_path handle)) r).
Proof. intros t Ht. simpl. eauto 6. Qed.

Lemma yields_start issue handle :
  yields (core (T := T) (rn_start_session (RunnerApi := TracedRunner RN)
           (new_session_context issue (wh_path handle))))
    (λ t s, ∀ t0, has_workspace issue handle t0 → has_session issue handle s (t0 ++ t)).
Proof.
  eapply yields_weaken; [apply yields_core|]. intros t s -> t0 Ht0. split; [by apply lasting_workspace|].
  eapply session_started; [apply elem_of_app; right; apply elem_of_cons; by left|done].
Qed.

Lemma emits_race session prompt :
  emits (race_turn (T := T) (W := traced W) session prompt)
    (λ t r, (t = [] ∧ r = Ok None) ∨
       ∃ selected, r = Ok selected ∧ t = [DoTurn session prompt (carried selected)]).
Proof.
  intros s. unfold race_turn, is_shutdown, host, on_world, embed, mbind, Run_bind. simpl.
  unfold quietly. destruct (oh_shutdown_flag _) as [[] w]; simpl.
  - exists []. rewrite app_nil_r. auto.
  - unfold noting. destruct (rn_race_turn _ _ _) as [r w']. simpl. eauto 8.
Qed.

Lemma serves_race issue handle session :
  serves issue (has_session issue handle session) (race_turn (T := T) (W := traced W) session (iss_description issue)).
Proof.
  eapply emits_weaken; [apply emits_race|].
  intros t r [[-> _]|(sel&->&->)] t0 [_ Hs] k1 call k2 Hk Ha; [by destruct k1|].
  destruct k1 as [|c k1]; [|by destruct k1]. injection Hk as <- _. by rewrite app_nil_r.
Qed.

(** The session that goes on after the race. *)
Definition goes_on (session : SessionHandle)
    (selected : option (result (TurnOutcome * SessionHandle) (SymphonyError T))) : SessionHandle :=
  match selected with Some (Ok (_, session')) => session' | _ => session end.

Lemma yields_race issue handle session prompt :
  yields (race_turn (T := T) (W := traced W) session prompt)
    (λ t sel, ∀ t0, has_session issue handle session t0 →
       has_session issue handle (goes_on session sel) (t0 ++ t)).
Proof.
  eapply emits_weaken; [apply emits_race|].
  intros t r [[-> ->]|(sel&->&->)] a [= <-] t0 Ht0; [by rewrite app_nil_r|].
  destruct sel as [[[out s']|]|]; simpl; try by apply lasting_session.
  destruct Ht0 as [Hw Hs]. split; [by apply lasting_workspace|].
  eapply session_carried; [|by apply session_for_app]. apply elem_of_app. right.
  apply elem_of_cons. by left.
Qed.

Lemma serves_attempt o claim issue handle proof :
  serves issue (has_workspace issue handle)
    (run_attempt (T := T) (W := traced W) o claim issue (wh_path handle) proof).
Proof.
  unfold run_attempt. eapply (serves_then _ _ (λ s, has_session issue handle s)); [|apply yields_start|].
  { apply serves_adds; [auto with effects|]. intros t0. apply adds_core. intros r. apply serves_start. }
  intros session. eapply (serves_then _ _ (λ sel, has_session issue handle (goes_on session sel)));
    [apply serves_race|apply yields_race|].
  intros selected. unfold join_event_writer.
  destruct selected as [[[outcome s']|e]|]; simpl; (apply serves_adds; [auto with effects|]);
    intros t0; (apply keeps_bind; [apply adds_attempt; by intros r t [_ ?]|keeps]).
Qed.

Lemma serves_round o claim issue handle attempts proof again :
  (∀ n p, serves issue (has_workspace issue handle) (again n p)) →
  serves issue (has_workspace issue handle)
    (attempt_round (T := T) (W := traced W) o claim issue handle attempts proof again).
Proof.
  intros Hagain. unfold attempt_round.
  apply serves_bind; [auto with effects|apply serves_adds; [auto with effects|]; intros t0;
    by apply adds_block_if_hook_failed|].
  intros [[] proof1]; [apply serves_adds; [auto with effects|]; intros t0; by apply adds_finish_blocked|].
  apply serves_bind; [auto with effects|apply serves_attempt|].
  intros [[|turn] proof2]; [apply serves_adds; [auto with effects|]; intros t0; by apply ensures_ret|].
  apply serves_bind; [auto with effects|apply serves_adds; [auto with effects|]; intros t0;
    apply keeps_bind; [by apply adds_attempt_hook|keeps]|].
  intros proof3. destruct (bool_decide _).
  { apply serves_adds; [auto with effects|]; intros t0.
    apply keeps_bind; [by apply adds_handoff|]. intros handoff.
    do 2 (apply keeps_bind; [keeps|intros _]). apply keeps_bind; [by apply adds_cleanup|]. keeps. }
  destruct (_ <=? _)%N.
  - apply serves_adds; [auto with effects|]; intros t0.
    do 2 (apply keeps_bind; [keeps|intros _]). by apply adds_finish_blocked.
  - apply serves_bind; [auto with effects|apply serves_adds; [auto with effects|]; intros t0; keeps|].
    intros _. apply Hagain.
Qed.

Lemma serves_attempt_loop o claim issue handle fuel attempts proof :
  serves issue (has_workspace issue handle)
    (attempt_loop (T := T) (W := traced W) o claim issue handle fuel attempts proof).
Proof.
  revert attempts proof. induction fuel as [|fuel IH]; intros attempts proof; simpl;
    apply serves_round; intros n p; [|apply IH].
  apply serves_adds; [auto with effects|]. intros t0. apply ensures_throw.
Qed.

Lemma serves_run o claim issue :
  serves issue (λ _, True) (run_admitted (T := T) (W := traced W) o claim issue).
Proof.
  unfold run_admitted.
  do 3 (apply serves_bind; [done|apply serves_adds; [done|]; intros t0; keeps; by intros|intros ?]).
  eapply (serves_then _ _ (has_workspace issue)).
  - apply serves_adds; [done|]. intros t0. apply adds_core. by intros r t.
  - eapply yields_weaken; [apply yields_core|]. intros t h -> t0 _. apply elem_of_app. right.
    apply elem_of_cons. by left.
  - intros handle.
    apply serves_bind; [auto with effects|apply serves_adds; [auto with effects|]; intros t0;
      by apply adds_block_if_hook_failed|].
    intros [blocked proof]. destruct blocked; [|apply serves_attempt_loop].
    apply serves_adds; [auto with effects|]. intros t0. by apply adds_finish_blocked.
Qed.

(** What a trace knows: the issue behind the claim was fetched, and its
    dispatch is authorised. *)
Definition admitted (t : list DispatchCall) o (claim : Claim) issue : Prop :=
  ∃ id rest, cl_issue_id claim = Some id ∧ SawIssues [id] (Some (issue :: rest)) ∈ t ∧
    authorised t o issue.

(** Every call that touches a workspace or the runner comes after the answers
    that admit the issue it is for. *)
Definition guarded o (claim : Claim) (t : list DispatchCall) : Prop :=
  ∀ t1 call t2, t = t1 ++ call :: t2 → acts call = true →
  ∃ issue, admitted t1 o claim issue ∧ for_issue t1 issue call.

Lemma passive_guarded o claim t : Forall (λ c, acts c = false) t → guarded o claim t.
Proof.
  intros Ht t1 call t2 -> Ha. apply Forall_app in Ht as [_ Ht]. apply Forall_cons in Ht as [Ht _].
  by rewrite Ha in Ht.
Qed.

Lemma admitted_mono t t' o claim issue :
  t ⊆ t' → admitted t o claim issue → admitted t' o claim issue.
Proof. intros Ht (id&rest&?&?&?). exists id, rest. split_and!; auto. by eapply authorised_mono. Qed.

(** After the answers that admit the issue, its calls are guarded. *)
Lemma admitted_guarded o claim issue t1 t2 :
  Forall (λ c, acts c = false) t1 → admitted t1 o claim issue → follows issue t1 t2 →
  guarded o claim (t1 ++ t2).
Proof.
  intros H1 Ha H2 k1 call k2 Hk Hact. exists issue.
  apply app_eq_inv in Hk as [(k&->&Hk)|(k&->&->)].
  - apply Forall_app in H1 as [_ H1]. destruct k as [|c k]; simpl in *.
    + rewrite app_nil_r in *. subst t2. split; [done|].
      rewrite <-(app_nil_r k1). by apply (H2 [] call k2).
    + injection Hk as -> Hk. apply Forall_cons in H1 as [H1 _]. by rewrite Hact in H1.
  - split; [eapply admitted_mono; [|done]; in_trace|]. by apply (H2 k call k2).
Qed.

Lemma yields_fetch claim :
  yields (fetch_claim_issue (T := T) (W := traced W) claim) (λ t issue,
    ∃ id rest, cl_issue_id claim = Some id ∧ SawIssues [id] (Some (issue :: rest)) ∈ t).
Proof.
  unfold fetch_claim_issue. destruct (cl_issue_id claim) as [id|]; [|by apply yields_throw].
  eapply (yields_bind _ _ (λ t a, a = id)); [apply yields_lift; by intros ? [= <-]|].
  intros ? t1 ->. eapply yields_bind; [apply yields_core|]. intros issues t2 ->.
  apply yields_lift. intros issue Hissue. destruct issues as [|i rest]; [done|].
  injection Hissue as ->. exists id, rest. split; [done|]. in_trace.
Qed.

Lemma yields_resolution o claim issue :
  yields (dispatch_gate_resolution (T := T) (W := traced W) o claim issue)
    (λ t r, r = None → authorised t o issue).
Proof.
  unfold dispatch_gate_resolution. eapply yields_bind; [apply yields_gate|]. intros gate t1 Hg.
  destruct gate; [|by apply yields_ret|].
  - apply yields_ret. intros _. rewrite app_nil_r. by apply Hg.
  - eapply yields_bind; [apply yields_any; unfold pending_approval_resolution; keeps|].
    intros r t2 _. by apply yields_ret.
Qed.

Lemma passively {A} (c : OM (W := traced W) (T := T) A) Φ :
  (∀ t0, ensures (adds (λ call, acts call = false) t0) c (λ _, True)) → yields c Φ →
  emits c (λ t r, Forall (λ call, acts call = false) t ∧ ∀ a, r = Ok a → Φ t a).
Proof. intros Hc HΦ. apply emits_and; [by apply adds_emits|exact HΦ]. Qed.

Lemma run_body_guarded o claim :
  emits (run_claim_body (T := T) (W := traced W) o claim) (λ t _, guarded o claim t).
Proof.
  unfold run_claim_body.
  eapply emits_bind; [apply passively; [apply passive_fetch|apply yields_fetch]| |].
  2: { intros e t [Ht _]. by apply passive_guarded. }
  intros issue t1 [Ht1 Hissue]. destruct (Hissue _ eq_refl) as (id&rest&Hid&Hin).
  eapply emits_bind; [apply passively; [apply passive_gate|apply yields_resolution]| |].
  2: { intros e t [Ht _]. apply passive_guarded, Forall_app. by split. }
  intros [r|] t2 [Ht2 Hauth].
  - refine (emits_lift (Ok r) _ _). rewrite app_nil_r. apply passive_guarded, Forall_app. by split.
  - eapply emits_weaken; [apply serves_run|]. intros t3 r Ht3. rewrite app_assoc.
    apply (admitted_guarded _ _ issue); [apply Forall_app; by split| |by apply Ht3].
    exists id, rest. split; [done|]. split; [in_trace|].
    eapply authorised_mono; [|by eapply Hauth]. in_trace.
Qed.

(** What the guard's drop leaves of the trace. *)
Lemma emits_run_claim o claim L :
  emits (run_claim_body (T := T) (W := traced W) o claim) L →
  emits (run_claim (T := T) (W := traced W) o claim) L.
Proof.
  intros HL. unfold run_claim.
  eapply (emits_bind _ _ (λ t r, t = [] ∧ r = Ok ())); [by apply emits_modify| |by intros ? ? [_ ?]].
  intros _ ? [-> _]. simpl app. eapply emits_bind; [by apply emits_catch| |by intros ? ? (?&?&_)].
  intros r t1 (?&[= <-]&Hr).
  eapply (emits_bind _ _ (λ t u, t = [] ∧ u = Ok ())); [| |by intros ? ? [_ ?]].
  - intros s. exists []. rewrite app_nil_r. unfold drop_guard, cancel_heartbeat, release_slot.
    unfold mbind, Run_bind, modify. destruct (os_guard s), (cl_issue_id claim) as [id|]; simpl;
      try done; by destruct (os_in_flight s !! id).
  - intros _ ? [-> _]. simpl app. refine (emits_lift r _ _). by rewrite app_nil_r.
Qed.
End run.

(** C8 a dispatch is authorised before it does anything: whatever the tracker,
    the runner, the workspace manager, the key resolver, the signing client and
    the contacts of x0xd answer, each call of a run that touches a workspace or
    the runner comes after the issue behind the claim was fetched, is for that
    issue, and the issue is local, or signed by this very agent, or signed by
    a signer the contacts trust enough; in the last case the policy
    is [auto], or it is [approve] and the tracker holds an approval of this
    content and signer whose signature was verified, which is neither expired
    nor spent by the (verified) consumption records, and the record that spends
    it was stored first. *)
Theorem dispatch_authorised `{X : Extern} `{J : Json} `{C : Chrono} `{V : ApprovalCodec}
    `{Dbg : DebugStr} `{CF : ChronoFormat} `{MC : ManifestCodec} {W T} `{TT : TrackerText T}
    `{TK : !TrackerApi W T} `{RN : !RunnerApi W T} `{WK : !WorkspaceApi W T}
    `{SG : !SigningApi W} `{TR : !TrustApi W T} `{F : !Fs W} `{M : !Machine W}
    `{OH : !OrchHost W} (o : Orchestrator) (claim : Claim) :
  emits (run_claim (T := T) (W := traced W) o claim) (λ t _, guarded o claim t).
Proof. apply emits_run_claim, run_body_guarded. Qed.
