(* ===== verification/Settling.v ===== *)
(** * How a run of the orchestrator ends

    A run settles its claim exactly once, by the call that fits the resolution
    it reports; its attempts are bounded and every session it starts is
    stopped; on every exit its slot is free and its heartbeat aborted. *)

From S2P Require Import Prelude Wire Identity Core Effects Text Files Containment Store Claims.
From S2P Require Import Approvals Ports Scheduling Proofs Trust Manager Orchestrator Traced.
From S2P Require Import Orchestrating.
Import Reconcile Concurrency Retry.

(** ** Settling a claim *)

Section settling.
Context `{J : Json}.
Implicit Types (t : list DispatchCall) (claim : Claim).

Inductive Settlement := ByHandoff | ByBlock | ByRelease.

Definition is_settle (c : DispatchCall) : bool :=
  match c with DoHandoff _ _ _ | DoBlock _ _ _ | DoRelease _ _ _ => true | _ => false end.
Definition settles t : list DispatchCall := List.filter is_settle t.

(** The claim's own call, of that kind; it succeeded. *)
Definition settled_by claim (k : Settlement) (c : DispatchCall) : Prop :=
  match k, c with
  | ByHandoff, DoHandoff cl _ (Some _) => cl = claim
  | ByBlock, DoBlock cl _ (Some _) => cl = claim
  | ByRelease, DoRelease cl reason (Some _) => cl = claim ∧ rr_code reason = RcShutdown
  | _, _ => False
  end.
Definition settle_claim (c : DispatchCall) : option Claim :=
  match c with
  | DoHandoff cl _ _ | DoBlock cl _ _ | DoRelease cl _ _ => Some cl
  | _ => None
  end.

(** A value says how the claim was settled, or that it is not yet; an error
    leaves it unsettled or came after one call. *)
Definition settling {A E} claim (how : A → option Settlement) t (r : result A E) : Prop :=
  match r with
  | Ok a => match how a with
            | None => settles t = []
            | Some k => ∃ call, settles t = [call] ∧ settled_by claim k call
            end
  | Err _ => settles t = [] ∨ ∃ call, settles t = [call] ∧ settle_claim call = Some claim
  end.

(** Nothing more is settled, and the value fits. *)
Definition settled_already {A E} (how : A → option Settlement) (k : Settlement) t (r : result A E)
    : Prop := settles t = [] ∧ ∀ a, r = Ok a → how a = Some k.

Lemma settles_app t1 t2 : settles (t1 ++ t2) = settles t1 ++ settles t2.
Proof. apply List.filter_app. Qed.

Lemma settles_none t : Forall (λ c, is_settle c = false) t → settles t = [].
Proof.
  induction 1 as [|c t Hc _ IH]; [done|]. unfold settles in *. simpl. by rewrite Hc.
Qed.

Lemma settled_by_claim claim k call : settled_by claim k call → settle_claim call = Some claim.
Proof. destruct k, call; simpl; try done; destruct done; naive_solver. Qed.

Context {W E : Type}.
Local Abbreviation S := (orch_state (traced W)).

Lemma settle_bind {A B} claim (c : Run S E A) (f : A → Run S E B) how how' :
  emits c (settling claim how) →
  (∀ a, how a = None → emits (f a) (settling claim how')) →
  (∀ a k, how a = Some k → emits (f a) (settled_already how' k)) →
  emits (c ≫= f) (settling claim how').
Proof.
  intros Hc Hf Hdone. eapply emits_bind; [exact Hc| |by intros].
  intros a t1. simpl. destruct (how a) as [k|] eqn:Hk.
  - intros (call&Ht1&Hcall). eapply emits_weaken; [by eapply Hdone|]. intros t2 r [Ht2 Hr].
    unfold settling. rewrite settles_app, Ht1, Ht2, app_nil_r. destruct r as [b|e].
    + rewrite (Hr b eq_refl). eauto.
    + right. exists call. split; [done|]. by eapply settled_by_claim.
  - intros Ht1. eapply emits_weaken; [by apply Hf|]. intros t2 r Hr. unfold settling in *.
    by rewrite settles_app, Ht1.
Qed.

Lemma settle_silent {A} claim (c : Run S E A) (how : A → option Settlement) :
  (∀ t0, ensures (adds (λ call, is_settle call = false) t0) c (λ _, True)) →
  (∀ a, how a = None) → emits c (settling claim how).
Proof.
  intros Hc Hhow. eapply emits_weaken; [by apply adds_emits, Hc|]. intros t r Ht%settles_none.
  destruct r; simpl; [by rewrite Hhow|by left].
Qed.

Lemma settle_value {A} claim (r : result A E) (how : A → option Settlement) :
  (∀ a, r = Ok a → how a = None) → emits (lift_result r : Run S E A) (settling claim how).
Proof.
  intros Hr. apply emits_lift. destruct r; simpl; [by rewrite Hr|by left].
Qed.

Lemma already_silent {A} (c : Run S E A) (how : A → option Settlement) k :
  (∀ t0, ensures (adds (λ call, is_settle call = false) t0) c (λ _, True)) →
  yields c (λ _ a, how a = Some k) → emits c (settled_already how k).
Proof.
  intros Hc Hy. apply adds_emits in Hc. eapply emits_weaken; [apply (emits_and _ _ _ Hc Hy)|].
  intros t r [Ht%settles_none Hr]. by split.
Qed.

Lemma already_value {A} (a : A) (how : A → option Settlement) k :
  how a = Some k → emits (mret a : Run S E A) (settled_already how k).
Proof. intros Ha. refine (emits_lift (Ok a) _ _). split; [done|]. by intros ? [= <-]. Qed.
End settling.

(** ** The parts of a run *)

Section run.
Context `{X : Extern} `{J : Json} `{C : Chrono} `{V : ApprovalCodec} `{Dbg : DebugStr}.
Context `{CF : ChronoFormat} `{MC : ManifestCodec}.
Context {W T : Type} `{TT : TrackerText T}.
Context `{TK : !TrackerApi W T} `{RN : !RunnerApi W T} `{WK : !WorkspaceApi W T}.
Context `{SG : !SigningApi W} `{TR : !TrustApi W T}.
Context `{F : !Fs W} `{M : !Machine W} `{OH : !OrchHost W}.
Implicit Types (o : Orchestrator) (issue : Issue) (claim : Claim).

Definition gate_how (g : DispatchGateOutcome) : option Settlement :=
  match g with GateProceed => None | GateBlocked | GatePendingApproval => Some ByBlock end.
Definition resolution_how (r : Resolution) : option Settlement :=
  Some match r with
       | Completed => ByHandoff
       | BlockedResolution | PendingApproval => ByBlock
       | ShutdownReleased => ByRelease
       end.
(** The gate's answer is [None] when the dispatch may go on. *)
Definition refused_how (r : option Resolution) : option Settlement := r ≫= resolution_how.
(** [None] of an operation that parks the claim. *)
Definition parked_how {A} (r : option A) : option Settlement :=
  match r with Some _ => None | None => Some ByBlock end.
Definition by_block {A} (_ : A) : option Settlement := Some ByBlock.

Lemma settle_block claim reason how :
  (∀ u, how u = Some ByBlock) →
  emits (core (W := traced W) (T := T) (tk_block claim reason)) (settling claim how).
Proof.
  intros Hhow. eapply emits_weaken; [apply emits_core|]. intros t r ->.
  destruct r; simpl; [rewrite Hhow|right]; eexists; (split; [reflexivity|done]).
Qed.

Lemma settle_release claim reason how :
  rr_code reason = RcShutdown → (∀ u, how u = Some ByRelease) →
  emits (core (W := traced W) (T := T) (tk_release claim reason)) (settling claim how).
Proof.
  intros Hr Hhow. eapply emits_weaken; [apply emits_core|]. intros t r ->.
  destruct r; simpl; [rewrite Hhow|right]; eexists; (split; [reflexivity|done]).
Qed.

Lemma settle_handoff claim handoff how :
  (∀ u, how u = Some ByHandoff) →
  emits (core (W := traced W) (T := T) (tk_handoff claim handoff)) (settling claim how).
Proof.
  intros Hhow. eapply emits_weaken; [apply emits_core|]. intros t r ->.
  destruct r; simpl; [rewrite Hhow|right]; eexists; (split; [reflexivity|done]).
Qed.

Lemma settle_skip {A B} claim (c : OM (W := traced W) (T := T) A) (f : A → OM (T := T) B) how :
  (∀ t0, ensures (adds (λ call, is_settle call = false) t0) c (λ _, True)) →
  (∀ a, emits (f a) (settling claim how)) → emits (c ≫= f) (settling claim how).
Proof.
  intros Hc Hf. eapply (settle_bind _ _ _ (λ _, None)); [by apply settle_silent|auto|done].
Qed.

Lemma settle_refusal claim code detail :
  emits (block_for_dispatch_refusal (T := T) (W := traced W) claim code detail)
    (settling claim by_block).
Proof.
  unfold block_for_dispatch_refusal. apply settle_skip; [intros t0; keeps|]. intros _.
  by apply settle_block.
Qed.

(** Refuse, then answer. *)
Lemma settle_refused {A} claim code detail (a : A) how :
  how a = Some ByBlock →
  emits (_ ← block_for_dispatch_refusal (T := T) (W := traced W) claim code detail; mret a)
    (settling claim how).
Proof.
  intros Ha. eapply settle_bind; [apply settle_refusal|done|]. intros _ k [= <-].
  by apply already_value.
Qed.

Lemma settle_ret {A} claim (a : A) how :
  how a = None → emits (mret a : OM (W := traced W) (T := T) A) (settling claim how).
Proof. intros Ha. refine (settle_value claim (Ok a) how _). by intros ? [= <-]. Qed.

#[local] Hint Extern 1 (ensures (adds _ _) (verified _ _ _ _) _) =>
  apply adds_verified; by intros : effects.
#[local] Hint Extern 1 (ensures (adds _ _) (resolved _) _) => apply adds_resolved; by intros : effects.

Lemma settle_consumed_all claim records done :
  emits (verify_consumed_all (T := T) (W := traced W) claim records done)
    (settling claim parked_how).
Proof.
  revert done. induction records as [|c records IH]; intros done; simpl; [by apply settle_ret|].
  apply settle_skip; [intros t0; unfold verify_consumed_signature; keeps|].
  intros []; [apply IH|by apply settle_refused..].
Qed.

Lemma settle_kept o claim issue signer at_ consumed events kept emitted :
  emits (kept_events (T := T) (W := traced W) o claim issue signer at_ consumed events kept emitted)
    (settling claim parked_how).
Proof.
  revert kept emitted. induction events as [|e events IH]; intros kept emitted; simpl;
    [by apply settle_ret|].
  apply settle_skip; [intros t0; unfold emit_approval_expired_once; keeps|]. intros emitted'.
  case_bool_decide; [apply IH|].
  apply settle_skip; [intros t0; unfold verify_approval_signature; keeps|].
  intros []; [apply IH..|by apply settle_refused].
Qed.

Lemma settle_consume o claim issue signer at_ :
  emits (consume_approval_and_proceed (T := T) (W := traced W) o claim issue signer at_)
    (settling claim gate_how).
Proof.
  unfold consume_approval_and_proceed. apply settle_skip.
  { intros t0. apply keeps_catch. unfold signed_consumed_event.
    apply keeps_bind; [keeps|intros n]. apply keeps_bind; [keeps|intros p].
    apply keeps_bind; [apply passive_sign|keeps]. }
  intros [c|e]; [|by apply settle_refused]. apply settle_skip; [intros t0; keeps|].
  intros _. by apply settle_ret.
Qed.

Lemma settle_approval_gate o claim issue signer :
  emits (approval_gate_decision (T := T) (W := traced W) o claim issue signer)
    (settling claim gate_how).
Proof.
  unfold approval_gate_decision. apply settle_skip; [intros t0; keeps|]. intros state.
  apply settle_skip; [intros t0; unfold now_rfc3339; keeps|]. intros at_.
  eapply (settle_bind _ _ _ (λ b : bool, if b then None else Some ByBlock)).
  - unfold require_approval_crypto. destruct (_ && _); [by apply settle_ret|].
    by apply settle_refused.
  - intros [] ?; [|done]. simpl negb. cbv iota.
    eapply settle_bind; [apply settle_consumed_all| |].
    2: { intros [] k; [done|]. intros [= <-]. by apply already_value. }
    intros [consumed|] ?; [|done].
    eapply settle_bind; [apply settle_kept| |].
    2: { intros [] k; [done|]. intros [= <-]. by apply already_value. }
    intros [events|] ?; [|done].
    destruct (approval_decision _ _ _ _ _ _); [apply settle_consume|by apply settle_refused..].
  - intros [] k; [done|]. intros [= <-]. by apply already_value.
Qed.

Lemma settle_gate o claim issue :
  emits (block_if_network_dispatch_refused (T := T) (W := traced W) o claim issue)
    (settling claim gate_how).
Proof.
  unfold block_if_network_dispatch_refused. destruct (negb _); [by apply settle_ret|].
  destruct (is_self_authored _ _); [by apply settle_ret|].
  case_bool_decide as Hoff; [by apply settle_refused|].
  destruct (provenance_signer issue) as [signer|[code detail]]; [|by apply settle_refused].
  apply settle_skip; [intros t0; keeps|]. intros level.
  destruct (trust_refusal _ _ _) as [[code detail]|]; [by apply settle_refused|].
  destruct (cf_network_dispatch _); [done|apply settle_approval_gate|by apply settle_ret].
Qed.

Lemma settle_resolution o claim issue :
  emits (dispatch_gate_resolution (T := T) (W := traced W) o claim issue)
    (settling claim refused_how).
Proof.
  unfold dispatch_gate_resolution. eapply settle_bind; [apply settle_gate| |].
  - intros [] ?; [by apply settle_ret|done..].
  - intros [] k; [done| |]; intros [= <-]; [by apply already_value|].
    apply already_silent; [intros t0; unfold pending_approval_resolution; keeps|].
    unfold pending_approval_resolution. eapply (yields_bind _ _ (λ _ r, r = PendingApproval)).
    + eapply yields_bind; [apply yields_any; keeps|]. intros _ t _. by apply yields_ret.
    + intros ? t ->. by apply yields_ret.
Qed.

(** *** Hooks and attempts *)

Definition hook_how (r : bool * ProofRun) : option Settlement := if r.1 then Some ByBlock else None.
Definition attempt_how (r : AttemptOutcome * ProofRun) : option Settlement :=
  match r.1 with AttemptShutdown => Some ByRelease | AttemptCompleted _ => None end.

Lemma settle_hook o claim handle phase proof :
  emits (block_if_hook_failed (T := T) (W := traced W) o claim handle phase proof)
    (settling claim hook_how).
Proof.
  assert (Hblock : ∀ detail p, emits (_ ← block_for_hook_failure (T := T) (W := traced W) claim
      (hook_name_str phase) detail; mret (true, p)) (settling claim hook_how)).
  { intros detail p. unfold block_for_hook_failure. eapply (settle_bind _ _ _ by_block).
    - apply settle_skip; [intros t0; keeps|]. intros _. by apply settle_block.
    - done.
    - intros _ k [= <-]. by apply already_value. }
  unfold block_if_hook_failed. apply settle_skip; [by intros t0; apply adds_attempt_hook|].
  intros [[outcome|]|error]; [|by apply settle_ret|apply Hblock].
  case_bool_decide; [by apply settle_ret|apply Hblock].
Qed.

(** After a settling call only the proof and the workspace are finished. *)
Lemma already_finish_blocked o claim handle code proof :
  emits (finish_blocked (T := T) (W := traced W) o claim handle code proof)
    (settled_already resolution_how ByBlock).
Proof.
  apply already_silent; [by intros t0; apply adds_finish_blocked|].
  unfold finish_blocked. eapply yields_bind.
  { apply yields_any. intros t0. by apply adds_cleanup. }
  intros p t1 _. eapply yields_bind; [apply yields_any; keeps|]. intros z t2 _.
  eapply yields_bind; [apply yields_any; keeps|]. intros _ t3 _. by apply yields_ret.
Qed.

Lemma settle_run_attempt o claim issue workspace proof :
  emits (run_attempt (T := T) (W := traced W) o claim issue workspace proof)
    (settling claim attempt_how).
Proof.
  assert (Hjoin : ∀ session p t0, ensures (adds (λ call, is_settle call = false) t0)
      (join_event_writer (T := T) (W := traced W) session workspace p) (λ _, True)).
  { intros. unfold join_event_writer. keeps. }
  unfold run_attempt. apply settle_skip; [intros t0; keeps|]. intros session.
  apply settle_skip; [intros t0; unfold race_turn, is_shutdown; keeps|]. intros [[[turn s']|e]|].
  - apply settle_skip; [intros t0; keeps|]. intros _. apply settle_skip; [apply Hjoin|].
    intros p. by apply settle_ret.
  - apply settle_skip; [intros t0; keeps|]. intros _. apply settle_skip; [apply Hjoin|].
    intros p. by refine (settle_value claim (Err _) _ _).
  - apply settle_skip; [intros t0; keeps|]. intros _. apply settle_skip; [apply Hjoin|].
    intros p. apply settle_skip; [intros t0; keeps|]. intros _.
    eapply settle_bind; [by apply (settle_release _ _ (λ _, Some ByRelease))|done|].
    intros _ k [= <-]. apply already_silent; [intros t0; keeps|].
    eapply yields_bind; [apply yields_any; keeps|]. intros z t1 _.
    eapply yields_bind; [apply yields_any; keeps|]. intros _ t2 _. by apply yields_ret.
Qed.

(** The last steps of a successful round. *)
Lemma settle_success o claim handle handoff proof code :
  emits (_ ← cancel_heartbeat (T := T) (W := traced W);
         _ ← core (tk_handoff claim handoff);
         proof ← cleanup_if_terminal o claim handle "review" proof;
         ended ← now;
         _ ← proofs (finish proof code ended);
         mret Completed) (settling claim resolution_how).
Proof.
  apply settle_skip; [intros t0; keeps|]. intros _.
  eapply settle_bind; [by apply (settle_handoff _ _ (λ _, Some ByHandoff))|done|].
  intros _ k [= <-]. apply already_silent.
  - intros t0. apply keeps_bind; [by apply adds_cleanup|]. keeps.
  - eapply yields_bind; [apply yields_any; intros t0; by apply adds_cleanup|]. intros p t1 _.
    eapply yields_bind; [apply yields_any; keeps|]. intros z t2 _.
    eapply yields_bind; [apply yields_any; keeps|]. intros _ t3 _. by apply yields_ret.
Qed.

Lemma settle_round o claim issue handle attempts proof again :
  (∀ n p, emits (again n p) (settling claim resolution_how)) →
  emits (attempt_round (T := T) (W := traced W) o claim issue handle attempts proof again)
    (settling claim resolution_how).
Proof.
  intros Hagain. unfold attempt_round. eapply settle_bind; [apply settle_hook| |].
  2: { intros [[] p] k [= <-]. apply already_finish_blocked. }
  intros [[] proof1] ?; [done|]. eapply settle_bind; [apply settle_run_attempt| |].
  2: { intros [[] p] k [= <-]. by apply already_value. }
  intros [[|turn] proof2] ?; [done|]. apply settle_skip.
  { intros t0. apply keeps_bind; [by apply adds_attempt_hook|keeps]. }
  intros proof3. destruct (bool_decide _).
  { apply settle_skip; [by intros t0; apply adds_handoff|]. intros handoff. apply settle_success. }
  destruct (_ <=? _)%N.
  - apply settle_skip; [intros t0; keeps|]. intros _.
    eapply settle_bind; [by apply (settle_block _ _ by_block)|done|].
    intros _ k [= <-]. apply already_finish_blocked.
  - apply settle_skip; [intros t0; keeps|]. intros _. apply Hagain.
Qed.

Lemma settle_loop o claim issue handle fuel attempts proof :
  emits (attempt_loop (T := T) (W := traced W) o claim issue handle fuel attempts proof)
    (settling claim resolution_how).
Proof.
  revert attempts proof. induction fuel as [|fuel IH]; intros attempts proof; simpl;
    apply settle_round; intros n p; [by refine (settle_value claim (Err _) _ _)|apply IH].
Qed.

Lemma settle_body o claim :
  emits (run_claim_body (T := T) (W := traced W) o claim) (settling claim resolution_how).
Proof.
  unfold run_claim_body. apply settle_skip; [intros t0; unfold fetch_claim_issue; keeps|].
  intros issue. eapply settle_bind; [apply settle_resolution| |].
  2: { intros [r|] k [= <-]. by apply already_value. }
  intros [r|] ?; [done|]. unfold run_admitted. do 4 (apply settle_skip; [intros t0; keeps|intros ?]).
  eapply settle_bind; [apply settle_hook| |].
  2: { intros [[] p] k [= <-]. apply already_finish_blocked. }
  intros [[] p] ?; [done|apply settle_loop].
Qed.
End run.

(** C9 a run settles its claim exactly once, by the call its resolution names:
    whatever the outside answers, a run that reports [Completed] made one
    successful handoff of its claim and no other settling call, a blocked or
    parked one made one successful block, one that was shut down released its
    claim with that reason; and a run that fails settled nothing, or failed in
    or after its one settling call. *)
Theorem run_settles_once `{X : Extern} `{J : Json} `{C : Chrono} `{V : ApprovalCodec}
    `{Dbg : DebugStr} `{CF : ChronoFormat} `{MC : ManifestCodec} {W T} `{TT : TrackerText T}
    `{TK : !TrackerApi W T} `{RN : !RunnerApi W T} `{WK : !WorkspaceApi W T}
    `{SG : !SigningApi W} `{TR : !TrustApi W T} `{F : !Fs W} `{M : !Machine W}
    `{OH : !OrchHost W} (o : Orchestrator) (claim : Claim) :
  emits (run_claim (T := T) (W := traced W) o claim) (settling claim resolution_how).
Proof. apply emits_run_claim, settle_body. Qed.

(** ** Counting calls *)

Section counting.
Context `{J : Json} {W E : Type}.
Local Abbreviation S := (orch_state (traced W)).
Implicit Types (t : list DispatchCall) (n m : nat).

Definition count (p : DispatchCall → bool) t : nat := length (List.filter p t).
Definition at_most {A} (p : DispatchCall → bool) n (c : Run S E A) : Prop :=
  emits c (λ t _, count p t ≤ n).

Lemma count_app p t1 t2 : count p (t1 ++ t2) = count p t1 + count p t2.
Proof. unfold count. by rewrite List.filter_app, length_app. Qed.

Lemma count_none p t : Forall (λ c, p c = false) t → count p t = 0.
Proof.
  unfold count. induction 1 as [|c t Hc _ IH]; [done|]. simpl. by rewrite Hc.
Qed.

Lemma at_most_bind {A B} p n m (c : Run S E A) (f : A → Run S E B) :
  at_most p n c → (∀ a, at_most p m (f a)) → at_most p (n + m) (c ≫= f).
Proof.
  intros Hc Hf. eapply emits_bind; [exact Hc| |simpl; lia]. intros a t1 H1.
  eapply emits_weaken; [apply Hf|]. intros t2 r H2. simpl in *. rewrite count_app. lia.
Qed.

Lemma at_most_skip {A B} p n (c : Run S E A) (f : A → Run S E B) :
  (∀ t0, ensures (adds (λ call, p call = false) t0) c (λ _, True)) →
  (∀ a, at_most p n (f a)) → at_most p n (c ≫= f).
Proof.
  intros Hc Hf. apply (at_most_bind p 0); [|done]. apply adds_emits in Hc.
  eapply emits_weaken; [exact Hc|]. intros t r Ht%count_none. simpl. lia.
Qed.

Lemma at_most_none {A} p n (c : Run S E A) :
  (∀ t0, ensures (adds (λ call, p call = false) t0) c (λ _, True)) → at_most p n c.
Proof.
  intros Hc. apply adds_emits in Hc. eapply emits_weaken; [exact Hc|].
  intros t r Ht%count_none. simpl. lia.
Qed.

Lemma at_most_le {A} p n m (c : Run S E A) : n ≤ m → at_most p n c → at_most p m c.
Proof. intros Hn Hc. eapply emits_weaken; [exact Hc|]. simpl. lia. Qed.
End counting.

(** ** Attempts *)

Definition is_turn `{J : Json} (c : DispatchCall) : bool :=
  match c with DoTurn _ _ _ => true | _ => false end.

Section attempts.
Context `{X : Extern} `{J : Json} `{C : Chrono} `{V : ApprovalCodec} `{Dbg : DebugStr}.
Context `{CF : ChronoFormat} `{MC : ManifestCodec}.
Context {W T : Type} `{TT : TrackerText T}.
Context `{TK : !TrackerApi W T} `{RN : !RunnerApi W T} `{WK : !WorkspaceApi W T}.
Context `{SG : !SigningApi W} `{TR : !TrustApi W T}.
Context `{F : !Fs W} `{M : !Machine W} `{OH : !OrchHost W}.
Implicit Types (o : Orchestrator) (issue : Issue) (claim : Claim).

(** A round runs the agent at most once, and goes on only below the maximum. *)
Lemma turns_round o claim issue handle attempts proof again n :
  (∀ p, (attempts + 1 < max_attempts (cf_retry (or_config o)))%N →
    at_most is_turn n (again (attempts + 1)%N p)) →
  at_most is_turn
    (if (max_attempts (cf_retry (or_config o)) <=? attempts + 1)%N then 1 else 1 + n)
    (attempt_round (T := T) (W := traced W) o claim issue handle attempts proof again).
Proof.
  intros Hagain. unfold attempt_round.
  apply at_most_skip; [by intros t0; apply adds_block_if_hook_failed|]. intros [[] proof1].
  { apply at_most_none. intros t0. by apply adds_finish_blocked. }
  set (n' := if (max_attempts (cf_retry (or_config o)) <=? attempts + 1)%N then 0 else n).
  apply (at_most_le _ (1 + n')); [subst n'; destruct (_ <=? _)%N; lia|].
  apply at_most_bind.
  { unfold run_attempt, join_event_writer. apply at_most_skip; [intros t0; keeps|]. intros session.
    apply (at_most_bind _ 1 0).
    - unfold race_turn. apply at_most_skip; [intros t0; unfold is_shutdown; keeps|].
      intros []; [apply at_most_none; intros t0; keeps|]. intros s. unfold host, on_world, embed.
      simpl. unfold noting. destruct (rn_race_turn _ _ _) as [r w]. simpl.
      by exists [DoTurn session (iss_description issue) (carried r)].
    - intros [[[turn s']|e]|]; apply at_most_none; intros t0; keeps. }
  intros [[|turn] proof2]; [apply at_most_none; intros t0; by apply ensures_ret|].
  apply at_most_skip; [intros t0; apply keeps_bind; [by apply adds_attempt_hook|keeps]|].
  intros proof3. destruct (bool_decide _).
  { apply at_most_none. intros t0. apply keeps_bind; [by apply adds_handoff|]. intros handoff.
    do 2 (apply keeps_bind; [keeps|intros _]). apply keeps_bind; [by apply adds_cleanup|]. keeps. }
  subst n'. destruct (_ <=? _)%N eqn:Hmax.
  - apply at_most_none. intros t0. do 2 (apply keeps_bind; [keeps|intros _]).
    by apply adds_finish_blocked.
  - apply at_most_skip; [intros t0; keeps|]. intros _. apply Hagain. by apply N.leb_gt.
Qed.

Lemma turns_loop o claim issue handle fuel attempts proof :
  at_most is_turn (N.to_nat (N.max 1 (max_attempts (cf_retry (or_config o)) - attempts)))
    (attempt_loop (T := T) (W := traced W) o claim issue handle fuel attempts proof).
Proof.
  revert attempts proof. induction fuel as [|fuel IH]; intros attempts proof; simpl.
  - eapply at_most_le; [|apply (turns_round _ _ _ _ _ _ _ 0)].
    + destruct (_ <=? _)%N; lia.
    + intros p _. refine (at_most_none _ _ _ _). intros t0. apply ensures_throw.
  - eapply at_most_le; [|apply turns_round; intros p _; apply IH].
    destruct (_ <=? _)%N eqn:Hmax; [lia|]. apply N.leb_gt in Hmax. lia.
Qed.

Lemma turns_body o claim :
  at_most is_turn (N.to_nat (N.max 1 (max_attempts (cf_retry (or_config o)))))
    (run_claim_body (T := T) (W := traced W) o claim).
Proof.
  unfold run_claim_body. apply at_most_skip; [intros t0; unfold fetch_claim_issue; keeps|].
  intros issue. apply at_most_skip.
  { intros t0. eapply adds_weaken; [|apply passive_gate]. by intros []. }
  intros [r|]; [apply at_most_none; intros t0; by apply ensures_ret|].
  unfold run_admitted. do 4 (apply at_most_skip; [intros t0; keeps|intros ?]).
  apply at_most_skip; [by intros t0; apply adds_block_if_hook_failed|].
  intros [[] p]; [apply at_most_none; intros t0; by apply adds_finish_blocked|].
  eapply at_most_le; [|apply turns_loop]. lia.
Qed.
End attempts.

(** C38 the agent runs at most as often as the retry policy allows: whatever
    fails, a run makes at most [max_attempts] turns, and one when the policy
    says zero. *)
Theorem run_turns_bounded `{X : Extern} `{J : Json} `{C : Chrono} `{V : ApprovalCodec}
    `{Dbg : DebugStr} `{CF : ChronoFormat} `{MC : ManifestCodec} {W T} `{TT : TrackerText T}
    `{TK : !TrackerApi W T} `{RN : !RunnerApi W T} `{WK : !WorkspaceApi W T}
    `{SG : !SigningApi W} `{TR : !TrustApi W T} `{F : !Fs W} `{M : !Machine W}
    `{OH : !OrchHost W} (o : Orchestrator) (claim : Claim) :
  at_most is_turn (N.to_nat (N.max 1 (max_attempts (cf_retry (or_config o)))))
    (run_claim (T := T) (W := traced W) o claim).
Proof. apply emits_run_claim, turns_body. Qed.

(** ** The retry loop ends *)

Section fuel.
Context `{X : Extern} `{J : Json} `{C : Chrono} `{V : ApprovalCodec} `{Dbg : DebugStr}.
Context `{CF : ChronoFormat} `{MC : ManifestCodec}.
Context {W T : Type} `{TT : TrackerText T}.
Context `{TK : !TrackerApi W T} `{RN : !RunnerApi W T} `{WK : !WorkspaceApi W T}.
Context `{SG : !SigningApi W} `{TR : !TrustApi W T}.
Context `{F : !Fs W} `{M : !Machine W} `{OH : !OrchHost W}.
Implicit Types (o : Orchestrator) (issue : Issue) (claim : Claim).

Lemma round_ext o claim issue handle attempts proof (k1 k2 : N → ProofRun → OM (T := T) Resolution) s :
  (∀ p s, (attempts + 1 < max_attempts (cf_retry (or_config o)))%N →
    k1 (attempts + 1)%N p s = k2 (attempts + 1)%N p s) →
  attempt_round (W := W) o claim issue handle attempts proof k1 s =
  attempt_round (W := W) o claim issue handle attempts proof k2 s.
Proof.
  intros Hk. unfold attempt_round. apply run_bind_ext. intros [[] p1] s1; [done|].
  apply run_bind_ext. intros [[|turn] p2] s2; [done|]. apply run_bind_ext. intros p3 s3.
  destruct (bool_decide _); [done|]. destruct (_ <=? _)%N eqn:Hmax; [done|].
  apply run_bind_ext. intros _ s4. apply Hk. by apply N.leb_gt.
Qed.

Lemma loop_enough o claim issue handle fuel more attempts proof s :
  (max_attempts (cf_retry (or_config o)) ≤ attempts + N.of_nat fuel)%N →
  attempt_loop (T := T) (W := W) o claim issue handle (fuel + more) attempts proof s =
  attempt_loop (T := T) o claim issue handle fuel attempts proof s.
Proof.
  revert attempts proof s. induction fuel as [|fuel IH]; intros attempts proof s Hmax; simpl.
  - destruct more as [|more]; [done|]. simpl. apply round_ext. intros p s' Hlt. lia.
  - apply round_ext. intros p s' Hlt. apply IH. lia.
Qed.
End fuel.

(** C39 the retry loop ends: the attempts that are left below the maximum are
    enough fuel; with any more the loop does the same from every state, so it
    never runs out. *)
Theorem retry_loop_ends `{X : Extern} `{J : Json} `{C : Chrono} `{V : ApprovalCodec}
    `{Dbg : DebugStr} `{CF : ChronoFormat} `{MC : ManifestCodec} {W T} `{TT : TrackerText T}
    `{TK : !TrackerApi W T} `{RN : !RunnerApi W T} `{WK : !WorkspaceApi W T}
    `{SG : !SigningApi W} `{TR : !TrustApi W T} `{F : !Fs W} `{M : !Machine W}
    `{OH : !OrchHost W} (o : Orchestrator) (claim : Claim) (issue : Issue)
    (handle : WorkspaceHandle) (more : nat) (attempts : N) (proof : ProofRun)
    (s : orch_state W) :
  let left := N.to_nat (max_attempts (cf_retry (or_config o)) - attempts) in
  attempt_loop (T := T) o claim issue handle (left + more) attempts proof s =
  attempt_loop (T := T) o claim issue handle left attempts proof s.
Proof. apply loop_enough. lia. Qed.

(** ** Sessions *)

Section sessions.
Context `{J : Json} {W E : Type}.
Local Abbreviation S := (orch_state (traced W)).

(** The sessions that are open after the calls: started ones less stopped ones. *)
Definition session_step (c : DispatchCall) : Z :=
  match c with DoStartSession _ (Some _) => 1 | DoStopSession _ => -1 | _ => 0 end.
Fixpoint open_sessions (t : list DispatchCall) : Z :=
  match t with [] => 0 | c :: t => session_step c + open_sessions t end.

Lemma open_app t1 t2 : open_sessions (t1 ++ t2) = (open_sessions t1 + open_sessions t2)%Z.
Proof. induction t1 as [|c t1 IH]; simpl; lia. Qed.

Lemma open_none t : Forall (λ c, session_step c = 0%Z) t → open_sessions t = 0%Z.
Proof. induction 1; simpl; lia. Qed.

Definition leaves {A} (k : Z) (c : Run S E A) : Prop := emits c (λ t _, open_sessions t = k).

Lemma leaves_none {A} (c : Run S E A) :
  (∀ t0, ensures (adds (λ call, session_step call = 0%Z) t0) c (λ _, True)) → leaves 0 c.
Proof.
  intros Hc. apply adds_emits in Hc. eapply emits_weaken; [exact Hc|]. intros t r. apply open_none.
Qed.

Lemma leaves_bind {A B} (c : Run S E A) (f : A → Run S E B) :
  leaves 0 c → (∀ a, leaves 0 (f a)) → leaves 0 (c ≫= f).
Proof.
  intros Hc Hf. eapply emits_bind; [exact Hc| |done]. intros a t1 H1.
  eapply emits_weaken; [apply Hf|]. intros t2 r H2. simpl in *. rewrite open_app. lia.
Qed.

Lemma leaves_skip {A B} (c : Run S E A) (f : A → Run S E B) k :
  emits c (λ t r, open_sessions t = 0%Z ∧ ∃ a, r = Ok a) →
  (∀ a, leaves k (f a)) → leaves k (c ≫= f).
Proof.
  intros Hc Hf. eapply emits_bind; [exact Hc| |by intros e t [_ [? ?]]]. intros a t1 [H1 _].
  eapply emits_weaken; [apply Hf|]. intros t2 r H2. simpl in *. rewrite open_app. lia.
Qed.
End sessions.

Section stopped.
Context `{X : Extern} `{J : Json} `{C : Chrono} `{V : ApprovalCodec} `{Dbg : DebugStr}.
Context `{CF : ChronoFormat} `{MC : ManifestCodec}.
Context {W T : Type} `{TT : TrackerText T}.
Context `{TK : !TrackerApi W T} `{RN : !RunnerApi W T} `{WK : !WorkspaceApi W T}.
Context `{SG : !SigningApi W} `{TR : !TrustApi W T}.
Context `{F : !Fs W} `{M : !Machine W} `{OH : !OrchHost W}.
Implicit Types (o : Orchestrator) (issue : Issue) (claim : Claim).

Lemma race_keeps session prompt :
  emits (race_turn (T := T) (W := traced W) session prompt)
    (λ t r, open_sessions t = 0%Z ∧ ∃ a, r = Ok a).
Proof.
  intros s. unfold race_turn, is_shutdown, host, on_world, embed, mbind, Run_bind. simpl.
  unfold quietly, noting. destruct (oh_shutdown_flag (os_world s).1) as [[] w]; simpl.
  - exists []. rewrite app_nil_r. eauto.
  - destruct (rn_race_turn session prompt w) as [r w']. simpl. eexists. split; [reflexivity|].
    eauto.
Qed.

Lemma stop_leaves {A} session (f : result unit (SymphonyError T) → OM (T := T) A) :
  (∀ r, leaves (W := W) 0 (f r)) → leaves (-1) (attempt (rn_stop_session session) ≫= f).
Proof.
  intros Hf. eapply emits_bind; [apply emits_attempt| |by intros e t (?&?&_)].
  intros r t1 (r'&_&->). eapply emits_weaken; [apply Hf|]. intros t2 r2 H2. simpl in *. lia.
Qed.

(** Every session that starts is stopped. *)
Lemma attempt_closes o claim issue workspace proof :
  leaves 0 (run_attempt (T := T) (W := traced W) o claim issue workspace proof).
Proof.
  assert (Hjoin : ∀ session p t0, ensures (adds (λ call, session_step call = 0%Z) t0)
      (join_event_writer (T := T) (W := traced W) session workspace p) (λ _, True)).
  { intros. unfold join_event_writer. keeps. }
  unfold run_attempt. eapply emits_bind; [apply emits_core| |by intros e t ->].
  intros session t1 ->.
  apply (emits_weaken _ (λ t _, open_sessions t = -1)%Z); [|intros t r Ht; simpl in *; lia].
  apply leaves_skip; [apply race_keeps|]. intros [[[turn s']|e]|]; apply stop_leaves; intros r;
    apply leaves_none; intros t0; (apply keeps_bind; [apply Hjoin|]); keeps.
Qed.

Lemma round_closes o claim issue handle attempts proof again :
  (∀ n p, leaves 0 (again n p)) →
  leaves 0 (attempt_round (T := T) (W := traced W) o claim issue handle attempts proof again).
Proof.
  intros Hagain. unfold attempt_round.
  apply leaves_bind; [apply leaves_none; intros t0; by apply adds_block_if_hook_failed|].
  intros [[] p1]; [apply leaves_none; intros t0; by apply adds_finish_blocked|].
  apply leaves_bind; [apply attempt_closes|].
  intros [[|turn] p2]; [apply leaves_none; intros t0; by apply ensures_ret|].
  apply leaves_bind; [apply leaves_none; intros t0; apply keeps_bind;
                        [by apply adds_attempt_hook|keeps]|].
  intros p3. destruct (bool_decide _).
  - apply leaves_none. intros t0. apply keeps_bind; [by apply adds_handoff|]. intros handoff.
    do 2 (apply keeps_bind; [keeps|intros _]). apply keeps_bind; [by apply adds_cleanup|]. keeps.
  - destruct (_ <=? _)%N.
    + apply leaves_none. intros t0. do 2 (apply keeps_bind; [keeps|intros _]).
      by apply adds_finish_blocked.
    + apply leaves_bind; [apply leaves_none; intros t0; keeps|]. intros _. apply Hagain.
Qed.

Lemma loop_closes o claim issue handle fuel attempts proof :
  leaves 0 (attempt_loop (T := T) (W := traced W) o claim issue handle fuel attempts proof).
Proof.
  revert attempts proof. induction fuel as [|fuel IH]; intros attempts proof; simpl;
    apply round_closes; intros n p; [apply leaves_none; intros t0; apply ensures_throw|apply IH].
Qed.

Lemma body_closes o claim : leaves 0 (run_claim_body (T := T) (W := traced W) o claim).
Proof.
  unfold run_claim_body.
  apply leaves_bind; [apply leaves_none; intros t0; unfold fetch_claim_issue; keeps|].
  intros issue. apply leaves_bind.
  { apply leaves_none. intros t0. eapply adds_weaken; [|apply passive_gate]. by intros []. }
  intros [r|]; [apply leaves_none; intros t0; by apply ensures_ret|].
  unfold run_admitted. do 4 (apply leaves_bind; [apply leaves_none; intros t0; keeps|intros ?]).
  apply leaves_bind; [apply leaves_none; intros t0; by apply adds_block_if_hook_failed|].
  intros [[] p]; [apply leaves_none; intros t0; by apply adds_finish_blocked|apply loop_closes].
Qed.
End stopped.

(** Every session is stopped: whatever fails, a run stops as many sessions
    as it started. *)
Theorem run_closes_sessions `{X : Extern} `{J : Json} `{C : Chrono} `{V : ApprovalCodec}
    `{Dbg : DebugStr} `{CF : ChronoFormat} `{MC : ManifestCodec} {W T} `{TT : TrackerText T}
    `{TK : !TrackerApi W T} `{RN : !RunnerApi W T} `{WK : !WorkspaceApi W T}
    `{SG : !SigningApi W} `{TR : !TrustApi W T} `{F : !Fs W} `{M : !Machine W}
    `{OH : !OrchHost W} (o : Orchestrator) (claim : Claim) :
  leaves 0 (run_claim (T := T) (W := traced W) o claim).
Proof. apply emits_run_claim, body_closes. Qed.
