(* ===== verification/Slots.v ===== *)
(** * Slots and heartbeats are given back

    The parts of the orchestrator's own state over a run: the budget's slot of
    the claim is free and its heartbeat task is gone on every exit, so a daemon
    that was idle is idle again after any number of polls. *)

From S2P Require Import Prelude Wire Identity Core Effects Text Files Containment Store Claims.
From S2P Require Import Approvals Ports Scheduling Proofs Trust Manager Orchestrator.
Import Reconcile Concurrency Retry.

(** ** What a run leaves alone *)

Section kept.
Context `{X : Extern} `{J : Json} `{C : Chrono} `{V : ApprovalCodec} `{Dbg : DebugStr}.
Context `{CF : ChronoFormat} `{MC : ManifestCodec}.
Context {W T : Type} `{TT : TrackerText T}.
Context `{TK : !TrackerApi W T} `{RN : !RunnerApi W T} `{WK : !WorkspaceApi W T}.
Context `{SG : !SigningApi W} `{TR : !TrustApi W T}.
Context `{F : !Fs W} `{M : !Machine W} `{OH : !OrchHost W}.
Implicit Types (o : Orchestrator) (issue : Issue) (claim : Claim).

(** A property of the state that calls, events and the abortion of the
    heartbeat keep. *)
Context (P : orch_state W → Prop).
Hypothesis P_world : ∀ s w, P s → P (set_world w s).
Hypothesis P_event : ∀ s e, P s → P (push_event e s).
Hypothesis P_cancel : ensures (E := OrchError T) P cancel_heartbeat (λ _, True).
Local Abbreviation kept c := (ensures (E := OrchError T) P c (λ _, True)).

Lemma kept_on_world {A E} (c : Run W E A) : ensures P (on_world c) (λ _, True).
Proof.
  intros s Hs. unfold on_world. destruct (c (os_world s)) as [r w]. split; [by apply P_world|done].
Qed.
Lemma kept_core {A} (c : Run W (SymphonyError T) A) : kept (core c).
Proof. apply kept_on_world. Qed.
Lemma kept_host {A} (c : W → A * W) : kept (host c).
Proof. apply kept_on_world. Qed.
Lemma kept_proofs {A} (c : Run W (OrchError T) A) : kept (proofs c).
Proof. apply kept_on_world. Qed.
Lemma kept_attempt {A E} (c : Run W E A) : kept (attempt c).
Proof. apply kept_on_world. Qed.
Lemma kept_now : kept now.
Proof. apply kept_host. Qed.
Lemma kept_emit o e : kept (emit o e).
Proof.
  unfold emit. destruct (or_events_tx o); [|by apply ensures_ret].
  apply ensures_modify; [|done]. intros s. apply P_event.
Qed.
#[local] Hint Resolve kept_on_world kept_core kept_host kept_proofs kept_attempt kept_now kept_emit
  P_cancel : effects.

Lemma kept_refusal claim code detail : kept (block_for_dispatch_refusal claim code detail).
Proof. unfold block_for_dispatch_refusal. keeps. Qed.
Lemma kept_resolved who : kept (resolved who).
Proof. unfold resolved. keeps. Qed.
Lemma kept_verified context payload signature key : kept (verified context payload signature key).
Proof. unfold verified. keeps. Qed.
#[local] Hint Resolve kept_refusal kept_resolved kept_verified : effects.

Lemma kept_consumed_all claim records done : kept (verify_consumed_all claim records done).
Proof.
  revert done. induction records as [|c records IH]; intros done; simpl; [keeps|].
  unfold verify_consumed_signature. keeps.
Qed.
Lemma kept_kept_events o claim issue signer at_ consumed events l emitted :
  kept (kept_events o claim issue signer at_ consumed events l emitted).
Proof.
  revert l emitted. induction events as [|e events IH]; intros l emitted; simpl; [keeps|].
  unfold emit_approval_expired_once, verify_approval_signature. keeps.
Qed.
#[local] Hint Resolve kept_consumed_all kept_kept_events : effects.

Lemma kept_approval_gate o claim issue signer : kept (approval_gate_decision o claim issue signer).
Proof.
  unfold approval_gate_decision, now_rfc3339, require_approval_crypto, verified_consumed_records,
    park_awaiting_approval, consume_approval_and_proceed, signed_consumed_event. keeps.
Qed.
#[local] Hint Resolve kept_approval_gate : effects.

Lemma kept_resolution o claim issue : kept (dispatch_gate_resolution o claim issue).
Proof.
  unfold dispatch_gate_resolution, block_if_network_dispatch_refused, pending_approval_resolution.
  keeps.
Qed.

Lemma kept_fetch claim : kept (fetch_claim_issue claim).
Proof. unfold fetch_claim_issue. keeps. Qed.

Lemma kept_hook o claim handle phase : kept (attempt_hook o claim handle phase).
Proof. unfold attempt_hook, run_hook_phase. keeps. Qed.
#[local] Hint Resolve kept_hook : effects.

Lemma kept_block_if o claim handle phase proof : kept (block_if_hook_failed o claim handle phase proof).
Proof. unfold block_if_hook_failed, block_for_hook_failure. keeps. Qed.

Lemma kept_cleanup o claim handle name proof : kept (cleanup_if_terminal o claim handle name proof).
Proof. unfold cleanup_if_terminal, before_remove_allows_cleanup. keeps. Qed.
#[local] Hint Resolve kept_block_if kept_cleanup : effects.

Lemma kept_finish_blocked o claim handle code proof : kept (finish_blocked o claim handle code proof).
Proof. unfold finish_blocked. keeps. Qed.

Lemma kept_commands p commands : kept (run_each_command p commands).
Proof.
  induction commands as [|c commands IH]; simpl; [keeps|]. unfold run_validation_command. keeps.
Qed.
#[local] Hint Resolve kept_finish_blocked kept_commands : effects.

Lemma kept_handoff o issue p proof attempts turn :
  kept (build_success_handoff o issue p proof attempts turn).
Proof.
  unfold build_success_handoff, run_validation_commands, changed_files_from_git_diff. keeps.
Qed.
Lemma kept_run_attempt o claim issue p proof : kept (run_attempt o claim issue p proof).
Proof. unfold run_attempt, race_turn, is_shutdown, join_event_writer. keeps. Qed.
#[local] Hint Resolve kept_handoff kept_run_attempt : effects.

Lemma kept_loop o claim issue handle fuel attempts proof :
  kept (attempt_loop o claim issue handle fuel attempts proof).
Proof.
  revert attempts proof. induction fuel as [|fuel IH]; intros attempts proof; simpl;
    unfold attempt_round, warn_after_run_hook_failure; keeps.
Qed.
End kept.

(** ** One run *)

Section run.
Context `{X : Extern} `{J : Json} `{C : Chrono} `{V : ApprovalCodec} `{Dbg : DebugStr}.
Context `{CF : ChronoFormat} `{MC : ManifestCodec}.
Context {W T : Type} `{TT : TrackerText T}.
Context `{TK : !TrackerApi W T} `{RN : !RunnerApi W T} `{WK : !WorkspaceApi W T}.
Context `{SG : !SigningApi W} `{TR : !TrustApi W T}.
Context `{F : !Fs W} `{M : !Machine W} `{OH : !OrchHost W}.
Implicit Types (o : Orchestrator) (claim : Claim) (s : orch_state W).

(** The handles of live tasks are below the next one. *)
Definition tasks_fresh s : Prop := ∀ k, is_Some (os_heartbeats s !! k) → (k < os_next_task s)%N.

(** The tasks of [s0] without, and perhaps with, one of the run's own; the
    slots are those of [s0]. *)
Definition no_task (s0 s : orch_state W) : Prop :=
  os_budget s = os_budget s0 ∧ os_in_flight s = os_in_flight s0 ∧
  os_heartbeats s = os_heartbeats s0 ∧ os_next_task s = os_next_task s0 ∧ os_guard s = None.
Definition own_task (s0 s : orch_state W) : Prop :=
  os_budget s = os_budget s0 ∧ os_in_flight s = os_in_flight s0 ∧
  (os_next_task s0 ≤ os_next_task s)%N ∧
  (os_guard s = None ∧ os_heartbeats s = os_heartbeats s0 ∨
   os_guard s = Some (os_next_task s0) ∧
   ∃ task, os_heartbeats s = <[os_next_task s0 := task]> (os_heartbeats s0)).

Lemma no_task_own s0 s : no_task s0 s → own_task s0 s.
Proof. intros (?&?&?&Hn&?). split_and!; try done; [lia|by left]. Qed.

Lemma fresh_next s : tasks_fresh s → os_heartbeats s !! os_next_task s = None.
Proof.
  intros Hf. destruct (_ !! _) as [t|] eqn:Ht; [|done]. specialize (Hf _ (mk_is_Some _ _ Ht)). lia.
Qed.

Lemma cancel_no_task s0 :
  ensures (E := OrchError T) (no_task s0) cancel_heartbeat (λ _, True).
Proof.
  apply ensures_modify; [|done]. intros s (?&?&?&?&Hg). by rewrite Hg.
Qed.

Lemma cancelled_own s0 s :
  tasks_fresh s0 → own_task s0 s →
  own_task s0 (cancel_heartbeat (T := T) s).2 ∧
  os_heartbeats (cancel_heartbeat (T := T) s).2 = os_heartbeats s0 ∧
  os_guard (cancel_heartbeat (T := T) s).2 = None.
Proof.
  intros Hf%fresh_next (Hb&Hm&Hn&[[Hg Hh]|[Hg [task Hh]]]); unfold cancel_heartbeat, modify; simpl;
    rewrite Hg; simpl; unfold own_task; simpl; [split_and!; try done; by left|].
  rewrite Hh, delete_insert_id by done. split_and!; try done. by left.
Qed.

Lemma cancel_own s0 : tasks_fresh s0 →
  ensures (E := OrchError T) (own_task s0) cancel_heartbeat (λ _, True).
Proof. intros Hf s Hs. split; [by apply cancelled_own|done]. Qed.

Lemma own_task_world s0 s w : own_task s0 s → own_task s0 (set_world w s).
Proof. done. Qed.
Lemma own_task_event s0 s e : own_task s0 s → own_task s0 (push_event e s).
Proof. done. Qed.

(** From a state without a task of its own, the run ends with at most one. *)
Lemma body_own o claim s0 s :
  tasks_fresh s0 → no_task s0 s → own_task s0 (run_claim_body (T := T) o claim s).2.
Proof.
  intros Hf Hs. unfold run_claim_body, mbind, Run_bind.
  destruct (kept_fetch (T := T) (no_task s0) ltac:(done) claim s Hs) as [H1 _].
  destruct (fetch_claim_issue claim s) as [[issue|e] s1]; [|by apply no_task_own].
  destruct (kept_resolution (T := T) (no_task s0) ltac:(done) ltac:(done) (cancel_no_task s0)
    o claim issue s1 H1) as [H2 _].
  destruct (dispatch_gate_resolution o claim issue s1) as [[r|e] s2]; [|by apply no_task_own].
  simpl in *. destruct r as [r|]; [by apply no_task_own|].
  unfold run_admitted, mbind, Run_bind. unfold spawn_heartbeat at 1, modify. simpl.
  match goal with |- own_task _ (match now ?s with _ => _ end).2 => set (s3 := s) end.
  assert (H3 : own_task s0 s3).
  { destruct H2 as (?&?&Hh&Hn&?). unfold s3. rewrite Hn, Hh. split_and!; simpl; try done; [lia|].
    right. split; [done|]. eauto. }
  clearbody s3. revert s3 H3.
  pose proof (cancel_own s0 Hf) as Hcancel.
  assert (Hrest : ensures (own_task s0) (
    started ← now;
    proof ← proofs (start (cf_proofs_dir (or_config o)) issue (cf_agent_id (or_config o))
                      rn_name rn_capabilities started);
    handle ← core (wk_create issue);
    r ← block_if_hook_failed o claim handle AfterCreate proof;
    let '(blocked, proof) := r in
    if blocked : bool then finish_blocked o claim handle 1 proof
    else attempt_loop o claim issue handle (N.to_nat (max_attempts (cf_retry (or_config o)))) 0
           proof) (λ _, True)).
  { apply keeps_bind; [by apply kept_now|]. intros started.
    apply keeps_bind; [by apply kept_proofs|]. intros proof.
    apply keeps_bind; [by apply kept_core|]. intros handle.
    apply keeps_bind; [by apply kept_block_if|]. intros [[] p];
      [by apply kept_finish_blocked|by apply kept_loop]. }
  intros s3 H3. exact (proj1 (Hrest s3 H3)).
Qed.

Definition without_guard s : orch_state W := set_tasks (os_heartbeats s) (os_next_task s) None s.

Lemma run_claim_state o claim s :
  (run_claim (T := T) o claim s).2 =
  (drop_guard (T := T) claim (run_claim_body (T := T) o claim (without_guard s)).2).2.
Proof.
  unfold run_claim, new_guard, drop_guard, catch, mbind, Run_bind, modify, without_guard. simpl.
  destruct (run_claim_body o claim _) as [r s1]. simpl.
  destruct (release_slot claim _) as [[u|e] s2] eqn:Hr; [done|].
  unfold release_slot in Hr. destruct (cl_issue_id claim); done.
Qed.

(** The claim's slot is free: its run is not registered any more, and the
    budget took the slot back if it was. *)
Definition slot_given_back claim s s' : Prop :=
  match cl_issue_id claim ≫= λ id, (os_in_flight s !! id) ≫= λ state, Some (id, state) with
  | Some (id, state) =>
      os_in_flight s' = delete id (os_in_flight s) ∧ os_budget s' = release (os_budget s) state
  | None => os_in_flight s' = os_in_flight s ∧ os_budget s' = os_budget s
  end.

Lemma dropped_own claim s0 s :
  tasks_fresh s0 → own_task s0 s →
  let s' := (drop_guard (T := T) claim s).2 in
  os_heartbeats s' = os_heartbeats s0 ∧ os_guard s' = None ∧ slot_given_back claim s0 s'.
Proof.
  intros Hf Hs. destruct (cancelled_own s0 s Hf Hs) as ((Hb&Hm&_&_)&Hh&Hg).
  unfold drop_guard, cancel_heartbeat, release_slot, slot_given_back, modify, mbind, Run_bind in *.
  simpl in *. set (s1 := match os_guard s with Some _ => _ | None => _ end) in *.
  destruct (cl_issue_id claim) as [id|]; simpl; [|done]. rewrite <-Hm.
  destruct (os_in_flight s1 !! id); simpl; [|done]. by rewrite Hb.
Qed.

Lemma run_gives_back o claim s :
  tasks_fresh s →
  let s' := (run_claim (T := T) o claim s).2 in
  os_heartbeats s' = os_heartbeats s ∧ os_guard s' = None ∧ slot_given_back claim s s'.
Proof.
  intros Hf. rewrite run_claim_state.
  apply (dropped_own claim (without_guard s)); [exact Hf|]. apply body_own; [exact Hf|].
  by split_and!.
Qed.
End run.

(** A run gives back what it holds: on every exit, normal, parked, blocked,
    shut down or failed in any call, the heartbeat task the run started is
    gone and every other is left, the slot of its claim is free, and no other
    slot is touched. *)
Theorem run_claim_gives_back `{X : Extern} `{J : Json} `{C : Chrono} `{V : ApprovalCodec}
    `{Dbg : DebugStr} `{CF : ChronoFormat} `{MC : ManifestCodec} {W T} `{TT : TrackerText T}
    `{TK : !TrackerApi W T} `{RN : !RunnerApi W T} `{WK : !WorkspaceApi W T}
    `{SG : !SigningApi W} `{TR : !TrustApi W T} `{F : !Fs W} `{M : !Machine W}
    `{OH : !OrchHost W} (o : Orchestrator) (claim : Claim) (s : orch_state W) :
  tasks_fresh s →
  let s' := (run_claim (T := T) o claim s).2 in
  os_heartbeats s' = os_heartbeats s ∧ os_guard s' = None ∧ slot_given_back claim s s'.
Proof. apply run_gives_back. Qed.

(** ** The daemon *)

(** What the orchestrator takes for granted of its tracker: a claim that is
    granted is for the issue that was asked for. *)
Class TrackerLaws `{J : Json} {W T} (TK : TrackerApi W T) : Prop :=
  claim_names_issue : ∀ id agent w claim w',
    tk_claim id agent w = (Ok claim, w') → cl_issue_id claim = Some id.

Section daemon.
Context `{X : Extern} `{J : Json} `{C : Chrono} `{V : ApprovalCodec} `{Dbg : DebugStr}.
Context `{CF : ChronoFormat} `{MC : ManifestCodec}.
Context {W T : Type} `{TT : TrackerText T}.
Context `{TK : !TrackerApi W T} `{RN : !RunnerApi W T} `{WK : !WorkspaceApi W T}.
Context `{SG : !SigningApi W} `{TR : !TrustApi W T}.
Context `{F : !Fs W} `{M : !Machine W} `{OH : !OrchHost W} `{TL : !TrackerLaws TK}.
Context (o : Orchestrator).
Implicit Types (s : orch_state W) (held : list string).

Local Abbreviation cap := (cf_global_concurrency (or_config o)).
Local Abbreviation caps := (cf_per_state_concurrency (or_config o)).
(** The caps are machine integers. *)
Hypothesis cap_fits : (cap ≤ u64_max)%N.
Hypothesis caps_fit : ∀ state c, caps !! state = Some c → (c ≤ u64_max)%N.

(** The slots of exactly these runs are taken, and no heartbeat lives. *)
Definition holding (runs : gmap string string) held s : Prop :=
  os_in_flight s = runs ∧ counts cap caps held (os_budget s) ∧ os_heartbeats s = ∅.
Definition idle s : Prop := holding ∅ [] s.

Lemma initial_idle w : idle (initial_orch o w).
Proof.
  split_and!; try done. unfold initial_orch. simpl.
  split; try done; intros; unfold held_in, llen; simpl; lia.
Qed.

Lemma holding_world runs held s w : holding runs held s → holding runs held (set_world w s).
Proof. done. Qed.

Lemma holding_fresh runs held s : holding runs held s → tasks_fresh s.
Proof. intros (_&_&Hh) k [t Ht]. by rewrite Hh, lookup_empty in Ht. Qed.

(** A slot that is taken; the run is not registered yet. *)
Lemma acquire_holding state s s' acquired :
  idle s → acquire_slot (T := T) state s = (Ok acquired, s') →
  holding ∅ (if acquired : bool then [state] else []) s'.
Proof.
  intros (Hm&Hc&Hh). unfold acquire_slot, embed. intros Ha.
  destruct (try_acquire (os_budget s) state) as [ok b] eqn:Hb.
  injection Ha as <- <-. split_and!; try done. simpl.
  pose proof (is_open_fits cap caps cap_fits caps_fit [] _ state Hc) as Hfit.
  unfold try_acquire in Hb. destruct (is_open _) eqn:Hopen; injection Hb as <- <-; [|done].
  pose proof (acquire_counts cap caps cap_fits caps_fit [] _ state Hc (proj1 Hfit eq_refl)) as H.
  unfold try_acquire in H. by rewrite Hopen in H.
Qed.

Lemma idle_any {A} (c : OM (W := W) (T := T) A) :
  (∀ P, (∀ s w, P s → P (set_world w s)) → ensures P c (λ _, True)) → ensures idle c (λ _, True).
Proof. intros Hc. by apply Hc. Qed.

(** A slot that is returned before its run is registered. *)
Lemma return_holding state s :
  holding ∅ [state] s → idle (return_slot (T := T) state s).2.
Proof.
  intros (Hm&Hc&Hh). unfold return_slot, modify. simpl. split_and!; try done. simpl.
  by apply (release_counts cap caps cap_fits [state]).
Qed.

Lemma claim_issue_spec id s r s' :
  claim_issue (T := T) o id s = (r, s') →
  (∃ w, s' = set_world w s) ∧ ∀ claim, r = Ok claim → cl_issue_id claim = Some id.
Proof.
  unfold claim_issue, core, on_world, mapping_err. destruct (tk_claim _ _ _) as [r0 w] eqn:Hc.
  intros [= <- <-]. split; [by exists w|]. intros claim Hr. destruct r0; simplify_eq/=.
  by eapply claim_names_issue.
Qed.

(** Either no slot is taken, or exactly the claimed issue's. *)
Definition claimed_or_idle (r : result (option Claim) (OrchError T) * orch_state W) : Prop :=
  match r.1 with
  | Ok (Some claim) => ∃ id state, cl_issue_id claim = Some id ∧ holding {[id := state]} [state] r.2
  | _ => idle r.2
  end.

Lemma claim_first_idle candidates s :
  idle s → claimed_or_idle (claim_first (T := T) o candidates s).
Proof.
  revert s. induction candidates as [|issue rest IH]; intros s Hs; [exact Hs|]. simpl.
  unfold mbind at 1, Run_bind at 1.
  assert (Hmay : ensures idle (claimable (T := T) o issue) (λ _, True)).
  { unfold claimable. apply keeps_bind; [|keeps]. case_bool_decide; [keeps|].
    by apply kept_now. }
  destruct (Hmay s Hs) as [Hs1 _]. destruct (claimable o issue s) as [[[c|]|e] s1]; simpl in *;
    [|by apply IH|done].
  unfold mbind at 1, Run_bind at 1.
  destruct (acquire_slot (iss_state issue) s1) as [[acquired|e] s2] eqn:Ha.
  2: { unfold acquire_slot, embed in Ha. by destruct (try_acquire _ _). }
  apply acquire_holding in Ha as Hs2; [|done]. destruct acquired; simpl; [|exact Hs2].
  unfold catch at 1, mbind at 1, Run_bind at 1.
  destruct (claim_issue o (iss_id issue) s2) as [r s3] eqn:Hclaim.
  apply claim_issue_spec in Hclaim as [[w ->] Hid].
  destruct r as [claim|e]; simpl.
  - exists (iss_id issue), (iss_state issue). split; [by apply Hid|].
    destruct Hs2 as (Hm&Hc&Hh). split_and!; try done. simpl. by rewrite Hm.
  - unfold mbind at 1, Run_bind at 1. apply IH. by apply return_holding.
Qed.

Lemma run_idle claim id state s :
  cl_issue_id claim = Some id → holding {[id := state]} [state] s →
  idle (run_claim (T := T) o claim s).2.
Proof.
  intros Hid Hs. destruct (run_gives_back o claim s (holding_fresh _ _ _ Hs)) as (Hh&_&Hslot).
  destruct Hs as (Hm&Hc&Hempty). unfold slot_given_back in Hslot.
  rewrite Hid, Hm in Hslot. simpl in Hslot. rewrite lookup_singleton_eq in Hslot. simpl in Hslot.
  destruct Hslot as [Hm' Hb]. split_and!.
  - rewrite Hm'. by rewrite delete_singleton_eq.
  - rewrite Hb. by apply (release_counts cap caps cap_fits [state]).
  - by rewrite Hh.
Qed.

Lemma run_once_idle : ensures idle (run_once (T := T) o) (λ _, True).
Proof.
  intros s Hs. split; [|done]. unfold run_once, mbind, Run_bind.
  assert (Hclaim : claimed_or_idle (claim_next (T := T) o s)).
  { unfold claim_next, mbind, Run_bind.
    destruct (kept_host (T := T) idle ltac:(done) oh_shutdown_flag s Hs) as [Hs1 _].
    unfold is_shutdown. destruct (host oh_shutdown_flag s) as [[[]|e] s1]; try exact Hs1.
    destruct (kept_core (T := T) idle ltac:(done)
      (tk_fetch_candidates (poll_context (or_config o))) s1 Hs1) as [Hs2 _].
    destruct (core _ s1) as [[candidates|e] s2]; [by apply claim_first_idle|exact Hs2]. }
  destruct (claim_next o s) as [[[claim|]|e] s1]; simpl in *; [|exact Hclaim..].
  destruct Hclaim as (id&state&Hid&Hholds).
  pose proof (run_idle claim id state s1 Hid Hholds) as Hidle.
  by destruct (run_claim o claim s1) as [[r|e] s2].
Qed.
#[local] Hint Resolve run_once_idle : effects.

Lemma drain_idle fuel : ensures idle (drain (T := T) o fuel) (λ _, True).
Proof. induction fuel as [|fuel IH]; simpl; keeps. Qed.

Lemma kept_call {A} (c : Run W (SymphonyError T) A) : ensures idle (core (T := T) c) (λ _, True).
Proof. by apply kept_core. Qed.
Lemma kept_machine {A} (c : W → A * W) : ensures idle (host (T := T) c) (λ _, True).
Proof. by apply kept_host. Qed.
Lemma kept_gets {A} (f : orch_state W → A) :
  ensures (E := OrchError T) idle (gets f) (λ _, True).
Proof. by apply ensures_gets. Qed.
Lemma kept_identity : ensures (E := OrchError T) idle (modify id) (λ _, True).
Proof. by apply ensures_modify. Qed.
#[local] Hint Resolve kept_call kept_machine kept_gets kept_identity drain_idle : effects.

Lemma shutdown_idle fuel : ensures idle (shutdown (T := T) id fuel o) (λ _, True).
Proof.
  unfold shutdown. do 3 (apply keeps_bind; [keeps|intros ?]). apply keeps_bind; [|keeps].
  induction fuel as [|fuel IH]; simpl; keeps.
Qed.
#[local] Hint Resolve shutdown_idle : effects.

Lemma poll_idle fuel : ensures idle (poll_loop (T := T) o fuel) (λ _, True).
Proof.
  induction fuel as [|fuel IH]; [simpl; keeps|]. cbn [poll_loop]. unfold is_shutdown. keeps.
Qed.

(** Reconciliation takes no slot. *)
Lemma groups_idle at_ groups summary :
  ensures idle (reconcile_groups (T := T) o at_ groups summary) (λ _, True).
Proof.
  assert (Hproofs : ∀ A (c : Run W (OrchError T) A), ensures idle (proofs c) (λ _, True)).
  { intros A c. by apply kept_proofs. }
  assert (Hlosers : ∀ winner issues summary,
      ensures idle (abandon_losers (T := T) o winner at_ issues summary) (λ _, True)).
  { intros winner issues. induction issues as [|issue issues IH]; intros sm; simpl; keeps. }
  revert summary. induction groups as [|[id issues] groups IH]; intros summary; simpl; [keeps|].
  unfold reconcile_conflict, reconcile_single. keeps.
Qed.

Lemma reconcile_idle : ensures idle (reconcile (T := T) o) (λ _, True).
Proof.
  unfold reconcile. apply keeps_bind; [keeps|]. intros claimed.
  apply keeps_bind; [by apply kept_now|]. intros at_. apply groups_idle.
Qed.

Lemma daemon_run_idle fuel : ensures idle (Orchestrator.run (T := T) o fuel) (λ _, True).
Proof.
  unfold Orchestrator.run. apply keeps_bind; [apply keeps_catch, reconcile_idle|].
  intros _. apply poll_idle.
Qed.
End daemon.

(** C12 no slot leaks over the life of the daemon: from its start, through
    reconciliation, any number of polls with all they claim, run, fail and
    retry, and the shutdown, the orchestrator ends with an empty in-flight map,
    a budget whose slots are all free, and no heartbeat task. *)
Theorem daemon_leaks_nothing `{X : Extern} `{J : Json} `{C : Chrono} `{V : ApprovalCodec}
    `{Dbg : DebugStr} `{CF : ChronoFormat} `{MC : ManifestCodec} {W T} `{TT : TrackerText T}
    `{TK : !TrackerApi W T} `{RN : !RunnerApi W T} `{WK : !WorkspaceApi W T}
    `{SG : !SigningApi W} `{TR : !TrustApi W T} `{F : !Fs W} `{M : !Machine W}
    `{OH : !OrchHost W} `{TL : !TrackerLaws TK} (o : Orchestrator) (fuel : nat) (w : W) :
  (cf_global_concurrency (or_config o) ≤ u64_max)%N →
  (∀ state c, cf_per_state_concurrency (or_config o) !! state = Some c → c ≤ u64_max)%N →
  idle o (Orchestrator.run (T := T) o fuel (initial_orch o w)).2.
Proof. intros Hcap Hcaps. by apply daemon_run_idle, initial_idle. Qed.
