(* ===== verification/Recovering.v ===== *)
(** * What recovery may touch

    Startup reconciliation releases only claims of this agent that are stale or
    lost, and stale primaries it backs up; the orphan sweep quarantines only
    workspaces that no live claim and no open issue needs. *)

From S2P Require Import Prelude Wire Identity Core Effects Text Files Containment Store Claims.
From S2P Require Import Approvals Ports Scheduling Proofs Trust Manager Orchestrator Traced.
From S2P Require Import Orchestrating.
Import Reconcile Concurrency Retry.

(** ** What may be released *)

Section recovery.
Context `{X : Extern} `{J : Json} `{C : Chrono}.
Implicit Types (o : Orchestrator) (issue : Issue) (all : list Issue) (claim : Claim).

(** All claims on an issue, in the order they were reported. *)
Definition claims_of all (id : string) : list Claim :=
  omap iss_claim (List.filter (λ issue, bool_decide (iss_id issue = id)) all).

Definition stale_own o (at_ : Z) issue claim : Prop :=
  cl_by claim = cf_agent_id (or_config o) ∧
  is_heartbeat_stale claim at_ (issue_ttl o issue) = Ok true.

(** The primary of the issue's shard holds the claim, is stale, and this agent
    is one of the backups. *)
Definition backs_up_stale o (at_ : Z) issue claim : Prop :=
  cl_by claim ≠ cf_agent_id (or_config o) ∧
  (∃ shard index, iss_shard issue = Some shard ∧ primary shard = cl_by claim ∧
     cl_shard_role claim = Primary ∧
     agent_shard_role (iss_shard issue) (cf_agent_id (or_config o)) = Some (Backup index)) ∧
  is_heartbeat_stale claim at_ (issue_ttl o issue) = Ok true.

Definition may_release o all (at_ : Z) issue claim (code : ReleaseReasonCode) : Prop :=
  code = RcExpiredHeartbeat ∧ claims_of all (iss_id issue) = [claim] ∧
    (stale_own o at_ issue claim ∨ backs_up_stale o at_ issue claim) ∨
  code = RcConflict ∧ cl_by claim = cf_agent_id (or_config o) ∧
    ∃ winner, winning_conflict_claim (claims_of all (iss_id issue)) = Some winner ∧
      claim ≠ winner.

(** The calls recovery makes. *)
Definition recovery o all (at_ : Z) (call : DispatchCall) : Prop :=
  match call with
  | DoRelease claim reason _ =>
      ∃ issue, issue ∈ all ∧ iss_claim issue = Some claim ∧
        may_release o all at_ issue claim (rr_code reason)
  | DoClaim id agent_id _ =>
      agent_id = cf_agent_id (or_config o) ∧
      ∃ issue claim, issue ∈ all ∧ iss_id issue = id ∧ claims_of all id = [claim] ∧
        backs_up_stale o at_ issue claim
  | _ => False
  end.

(** *** Grouping *)

Definition is_claimed issue : bool := negb (bool_decide (iss_claim issue = None)).
Definition claimed_as all (id : string) : list Issue :=
  List.filter (λ issue, is_claimed issue && bool_decide (iss_id issue = id)) all.

Lemma group_claimed_spec all id :
  group_claimed all !! id = match claimed_as all id with [] => None | l => Some l end.
Proof.
  unfold group_claimed. induction all as [|issue all IH] using rev_ind; [done|].
  rewrite foldl_app. unfold claimed_as in *. rewrite List.filter_app. simpl.
  unfold is_claimed at 2. case_bool_decide as Hc; simpl; [by rewrite app_nil_r|].
  case_bool_decide as Hid; simpl.
  - rewrite <-Hid at 1. rewrite lookup_insert_eq, Hid, IH. by destruct (List.filter _ all).
  - rewrite lookup_insert_ne by done. by rewrite app_nil_r.
Qed.

Lemma claimed_as_claims all id : omap iss_claim (claimed_as all id) = claims_of all id.
Proof.
  unfold claimed_as, claims_of. induction all as [|issue all IH]; [done|]. simpl.
  unfold is_claimed at 1. destruct (iss_claim issue) as [c|] eqn:Hc; simpl;
    case_bool_decide; simpl; rewrite ?Hc; first [exact IH|f_equal; exact IH].
Qed.

Lemma group_members all id issues :
  group_claimed all !! id = Some issues →
  issues = claimed_as all id ∧ omap iss_claim issues = claims_of all id ∧
  ∀ issue, issue ∈ issues → issue ∈ all ∧ iss_id issue = id ∧ is_Some (iss_claim issue).
Proof.
  rewrite group_claimed_spec. intros H.
  assert (issues = claimed_as all id) as ->. { by destruct (claimed_as all id); simplify_eq. }
  split; [done|]. split; [apply claimed_as_claims|]. intros issue.
  unfold claimed_as, is_claimed. rewrite list_elem_of_In, List.filter_In, <-list_elem_of_In.
  intros [? [Hc Hid]%andb_prop]. apply bool_decide_eq_true in Hid. split_and!; try done.
  by destruct (iss_claim issue).
Qed.

(** *** Stances *)

Lemma classify_own claim agent at_ ttl :
  classify claim agent at_ ttl = Ok StaleSelf →
  cl_by claim = agent ∧ is_heartbeat_stale claim at_ ttl = Ok true.
Proof.
  unfold classify, is_heartbeat_stale. case_bool_decide; [done|].
  destruct (parse_heartbeat _) as [h|]; [|done]. simpl. by destruct (ttl <=? at_ - h)%Z.
Qed.

Lemma classify_foreign claim agent at_ ttl :
  classify claim agent at_ ttl = Ok Foreign → cl_by claim ≠ agent.
Proof.
  unfold classify. case_bool_decide; [done|]. destruct (parse_heartbeat _); [|done]. simpl.
  by destruct (_ <=? _)%Z.
Qed.

Lemma takes_over_spec o issue claim at_ :
  cl_by claim ≠ cf_agent_id (or_config o) →
  should_take_over_stale_primary o issue claim at_ = Ok true → backs_up_stale o at_ issue claim.
Proof.
  intros Hf. unfold should_take_over_stale_primary, backs_up_stale.
  destruct (iss_shard issue) as [shard|] eqn:Hs; [|done].
  destruct (_ || _) eqn:Hor; [done|]. apply orb_false_iff in Hor as [Hp Hr].
  apply bool_decide_eq_false in Hp, Hr.
  destruct (agent_shard_role (Some shard) (cf_agent_id (or_config o))) as [[|index|]|] eqn:Ha;
    try done.
  destruct (_ <=? _)%N; [done|]. intros Hst. split; [done|]. split; [|done].
  exists shard, index. split_and!; try done; by apply dec_stable.
Qed.
End recovery.

(** ** Reconciliation *)

Section reconciling.
Context `{X : Extern} `{J : Json} `{C : Chrono} `{V : ApprovalCodec} `{Dbg : DebugStr}.
Context `{CF : ChronoFormat} `{MC : ManifestCodec}.
Context {W T : Type} `{TT : TrackerText T} `{TK : !TrackerApi W T} `{WK : !WorkspaceApi W T}.
Context `{F : !Fs W} `{M : !Machine W}.
Implicit Types (o : Orchestrator) (issue : Issue) (all issues : list Issue).

Lemma recovers_losers o all at_ winner issues summary t0 :
  (∀ issue, issue ∈ issues → issue ∈ all ∧
    winning_conflict_claim (claims_of all (iss_id issue)) = Some winner) →
  ensures (adds (recovery o all at_) t0)
    (abandon_losers (T := T) (W := traced W) o winner at_ issues summary) (λ _, True).
Proof.
  revert summary. induction issues as [|issue issues IH]; intros summary Hall; simpl; [keeps|].
  assert (Hrest : ∀ sm, ensures (adds (recovery o all at_) t0)
    (abandon_losers (T := T) (W := traced W) o winner at_ issues sm) (λ _, True)).
  { intros sm. apply IH. intros i Hi. apply Hall, elem_of_cons. by right. }
  destruct (iss_claim issue) as [claim|] eqn:Hc; [|apply Hrest].
  destruct (bool_decide (claim ≠ winner) && _) eqn:Hb; [|apply Hrest].
  apply andb_prop in Hb as [Hne%bool_decide_eq_true Hown%bool_decide_eq_true].
  destruct (Hall issue) as [Hin Hw]; [apply elem_of_cons; by left|].
  apply keeps_bind.
  - apply adds_core. intros r. exists issue. split_and!; try done. right. split_and!; eauto.
  - intros _. apply keeps_bind; [keeps|]. intros _. apply Hrest.
Qed.

Lemma recovers_single o all at_ issue claim summary t0 :
  issue ∈ all → iss_claim issue = Some claim → claims_of all (iss_id issue) = [claim] →
  ensures (adds (recovery o all at_) t0)
    (reconcile_single (T := T) (W := traced W) o issue claim at_ summary) (λ _, True).
Proof.
  intros Hin Hc Honly. unfold reconcile_single.
  eapply (ensures_bind _ _ _ (λ st, classify claim (cf_agent_id (or_config o)) at_
            (issue_ttl o issue) = Ok st)).
  { apply ensures_lift. intros st. by destruct (classify _ _ _ _); intros [= <-]. }
  intros [] Hst; [keeps|..].
  - apply keeps_bind; [|keeps]. apply adds_core. intros r. exists issue. split_and!; try done.
    left. split_and!; try done. left. by apply classify_own.
  - apply classify_foreign in Hst.
    eapply (ensures_bind _ _ _ (λ b, should_take_over_stale_primary o issue claim at_ = Ok b)).
    { apply ensures_lift. intros b. by destruct (should_take_over_stale_primary _ _ _ _);
        intros [= <-]. }
    intros [] Htake; [|keeps]. apply takes_over_spec in Htake; [|done].
    apply keeps_bind; [|intros _; apply keeps_bind; [|keeps]].
    + apply adds_core. intros r. exists issue. split_and!; try done. left.
      split_and!; try done. by right.
    + apply adds_core. intros r. split; [done|]. by exists issue, claim.
Qed.

Lemma recovers_groups o all at_ groups summary t0 :
  (∀ id issues, (id, issues) ∈ groups → group_claimed all !! id = Some issues) →
  ensures (adds (recovery o all at_) t0)
    (reconcile_groups (T := T) (W := traced W) o at_ groups summary) (λ _, True).
Proof.
  revert summary. induction groups as [|[id issues] groups IH]; intros summary Hall; simpl; [keeps|].
  assert (Hrest : ∀ sm, ensures (adds (recovery o all at_) t0)
    (reconcile_groups (T := T) (W := traced W) o at_ groups sm) (λ _, True)).
  { intros sm. apply IH. intros i l Hi. apply Hall, elem_of_cons. by right. }
  destruct (group_members all id issues) as (_&Hclaims&Hin); [apply Hall, elem_of_cons; by left|].
  eapply (ensures_bind _ _ _ (λ r : bool * _, r.1 = false → (llen (claims_of all id) ≤ 1)%N)).
  { unfold reconcile_conflict. rewrite Hclaims. destruct (_ <=? 1)%N eqn:Hle.
    { apply ensures_ret. intros _. by apply N.leb_le. }
    destruct (winning_conflict_claim _) as [winner|] eqn:Hw; [|by apply ensures_ret].
    eapply ensures_bind; [apply recovers_losers|intros sm _; by apply ensures_ret].
    intros issue Hi. apply Hin in Hi as (?&->&_). done. }
  intros [[] sm] Hone; [apply Hrest|]. specialize (Hone eq_refl).
  destruct issues as [|issue issues]; [apply Hrest|].
  destruct (iss_claim issue) as [claim|] eqn:Hc; [|apply Hrest].
  destruct (Hin issue) as (Hi&Hid&_); [apply elem_of_cons; by left|].
  apply keeps_bind; [|apply Hrest]. apply recovers_single; [done|done|].
  rewrite Hid, <-Hclaims in *.
  assert (omap iss_claim (issue :: issues) = claim :: omap iss_claim issues) as Hcons.
  { simpl. by rewrite Hc. }
  rewrite Hcons in *. destruct (omap iss_claim issues); [done|]. unfold llen in Hone. simpl in Hone. lia.
Qed.
End reconciling.

(** C13 reconciliation touches only what it may: on startup an agent reads the
    claimed issues once and the clock once; after that it only releases and
    claims. It releases a claim as expired only when that is the single claim
    on its issue and its heartbeat is stale, and it is its own or that of a
    primary it backs up; as a conflict only when the claim is its own and
    another one wins; and it claims only an issue it takes over so. *)
Theorem reconcile_touches_only `{X : Extern} `{J : Json} `{C : Chrono} `{V : ApprovalCodec}
    `{Dbg : DebugStr} `{CF : ChronoFormat} `{MC : ManifestCodec} {W T} `{TT : TrackerText T}
    `{TK : !TrackerApi W T} `{F : !Fs W} `{M : !Machine W} (o : Orchestrator) :
  emits (reconcile (T := T) (W := traced W) o) (λ t _,
    t = [SawClaimed None None] ∨
    ∃ all at_ rest, t = SawClaimed None (Some all) :: SawTime at_ :: rest ∧
      Forall (recovery o all at_) rest).
Proof.
  unfold reconcile. eapply emits_bind; [apply emits_core| |intros e t ->; by left].
  intros all t1 ->. eapply emits_bind; [apply emits_now| |by intros e t (z&[=]&_)].
  intros at_ t2 (z&[= <-]&->). eapply emits_weaken; [apply adds_emits; intros t0|].
  - apply (recovers_groups o all at_). intros id issues. apply elem_of_btree_iter.
  - intros t r Ht. right. by exists all, at_, t.
Qed.

(** ** The orphan sweep *)

Section orphans.
Context `{X : Extern} `{J : Json} `{C : Chrono} `{CF : ChronoFormat}.
Context {W T : Type} `{TT : TrackerText T} `{TK : !TrackerApi W T} `{WK : !WorkspaceApi W T}.
Context `{M : !Machine W}.
Implicit Types (o : Orchestrator) (issue : Issue) (t : list DispatchCall).

(** The names under which a live claim's workspace may be known. *)
Definition workspace_names issue (claim : Claim) : gset string :=
  {[iss_id issue; iss_identifier issue]} ∪
  match cl_issue_id claim with Some id => {[id]} | None => ∅ end.

(** Every claim of this agent that bears the name was found stale, at a clock
    reading of the sweep. *)
Definition no_live_claim o t (claimed : list Issue) (name : string) : Prop :=
  ∀ issue claim, issue ∈ claimed → iss_claim issue = Some claim →
    name ∈ workspace_names issue claim →
    ∃ at_, SawTime at_ ∈ t ∧
      is_fresh_self claim (cf_agent_id (or_config o)) at_ (issue_ttl o issue) = Ok false.

(** The tracker does not know the issue, or knows it (last) as blocked or in a
    terminal state. *)
Definition no_open_issue o (issues : list Issue) (name : string) : Prop :=
  match last (List.filter (λ issue, bool_decide (iss_id issue = name)) issues) with
  | Some issue => iss_state issue = "blocked" ∨ iss_state issue ∈ cf_terminal_states (or_config o)
  | None => True
  end.

Lemma no_live_claim_mono o t t' claimed name :
  t ⊆ t' → no_live_claim o t claimed name → no_live_claim o t' claimed name.
Proof.
  intros Ht H issue claim Hi Hc Hn. destruct (H issue claim Hi Hc Hn) as (z&?&?). exists z. auto.
Qed.

Lemma yields_live_names o claimed names :
  yields (live_names (T := T) (W := traced W) o claimed names) (λ t live,
    names ⊆ live ∧ ∀ name, name ∉ live → no_live_claim o t claimed name).
Proof.
  revert names. induction claimed as [|issue claimed IH]; intros names; simpl.
  { apply yields_ret. split; [done|]. intros name _ i c ?%elem_of_nil. done. }
  assert (Hskip : ∀ t1 t2 names' live, names ⊆ names' →
    (∀ claim, iss_claim issue = Some claim → ∀ name, name ∈ workspace_names issue claim →
      name ∈ names' ∨ ∃ at_, SawTime at_ ∈ t1 ∧
        is_fresh_self claim (cf_agent_id (or_config o)) at_ (issue_ttl o issue) = Ok false) →
    names' ⊆ live ∧ (∀ name, name ∉ live → no_live_claim o t2 claimed name) →
    names ⊆ live ∧ ∀ name, name ∉ live → no_live_claim o (t1 ++ t2) (issue :: claimed) name).
  { intros t1 t2 names' live Hsub Hhead [Hlive Htail]. split; [by etrans|].
    intros name Hn i c [->|Hi]%elem_of_cons Hc Hw.
    - destruct (Hhead c Hc name Hw) as [Hin|(z&Hz&Hf)]; [by apply Hlive in Hin|].
      exists z. split; [|done]. apply elem_of_app. by left.
    - destruct (Htail name Hn i c Hi Hc Hw) as (z&Hz&Hf). exists z. split; [|done].
      apply elem_of_app. by right. }
  destruct (iss_claim issue) as [claim|] eqn:Hc.
  2: { eapply yields_weaken; [apply IH|]. intros t live Hl. by apply (Hskip [] t names). }
  eapply yields_bind; [apply yields_now|]. intros at_ t1 ->.
  apply (yields_bind _ _ (λ t fresh, t = [] ∧
    is_fresh_self claim (cf_agent_id (or_config o)) at_ (issue_ttl o issue) = Ok fresh)).
  { apply yields_lift. intros fresh. by destruct (is_fresh_self _ _ _ _); intros [= <-]. }
  intros fresh t2 [-> Hfresh]. simpl app. destruct fresh.
  - eapply yields_weaken; [apply IH|]. intros t live Hl.
    apply (Hskip [SawTime at_] t _ live) in Hl; [done|set_solver|].
    intros c [= <-] name Hn. left. apply elem_of_union. by left.
  - eapply yields_weaken; [apply IH|]. intros t live Hl.
    apply (Hskip [SawTime at_] t names live); [done| |done].
    intros c [= <-] name Hn. right. exists at_. split; [by apply list_elem_of_singleton|done].
Qed.

Lemma index_issues_last issues name :
  index_issues issues !! name = last (List.filter (λ issue, bool_decide (iss_id issue = name)) issues).
Proof.
  unfold index_issues. induction issues as [|issue issues IH] using rev_ind; [done|].
  rewrite foldl_app, List.filter_app. simpl. case_bool_decide as Hid.
  - rewrite <-Hid at 1. by rewrite lookup_insert_eq, last_snoc.
  - by rewrite lookup_insert_ne, app_nil_r.
Qed.

Lemma not_preserved o live issues name :
  preserves o live (index_issues issues) name = false →
  (name ∉ live) ∧ no_open_issue o issues name.
Proof.
  unfold preserves, no_open_issue. rewrite index_issues_last.
  intros [Hl Hk]%orb_false_iff. apply bool_decide_eq_false in Hl. split; [done|].
  destruct (last _) as [issue|]; [|done]. unfold preserve_orphan_issue in Hk.
  apply andb_false_iff in Hk as [Hk|Hk]; apply negb_false_iff, bool_decide_eq_true in Hk; auto.
Qed.

Lemma adds_sweep o live known namespace handles summary t0 :
  ensures (adds (λ call, ∃ handle, handle ∈ handles ∧ call = DoQuarantine handle namespace ∧
      preserves o live known (wh_issue_id handle) = false) t0)
    (sweep_handles (T := T) (W := traced W) o live known namespace handles summary) (λ _, True).
Proof.
  assert (Hgen : ∀ all, handles ⊆ all → ensures (adds (λ call, ∃ handle, handle ∈ all ∧
      call = DoQuarantine handle namespace ∧
      preserves o live known (wh_issue_id handle) = false) t0)
    (sweep_handles (T := T) (W := traced W) o live known namespace handles summary) (λ _, True)).
  { intros all. revert summary. induction handles as [|h handles IH]; intros summary Hall; simpl;
      [keeps|]. assert (handles ⊆ all) by (intros x Hx; apply Hall, elem_of_cons; by right).
    destruct (preserves o live known (wh_issue_id h)) eqn:Hp; [by apply IH|].
    apply keeps_bind; [|intros r; by apply IH]. apply adds_attempt. intros r. exists h.
    split; [|done]. apply Hall, elem_of_cons. by left. }
  by apply Hgen.
Qed.

Definition is_seen (call : DispatchCall) : Prop :=
  match call with
  | SawScan _ | SawClaimed _ _ | SawIssues _ _ | SawTime _ => True
  | _ => False
  end.

(** What the sweep knows when it moves a workspace away. *)
Definition orphaned o t (handle : WorkspaceHandle) : Prop :=
  ∃ scan claimed issues,
    SawScan (Some scan) ∈ t ∧ handle ∈ ws_workspaces scan ∧
    SawClaimed (Some (cf_agent_id (or_config o))) (Some claimed) ∈ t ∧
    no_live_claim o t claimed (wh_issue_id handle) ∧
    (∃ ids, wh_issue_id handle ∈ ids ∧ SawIssues ids (Some issues) ∈ t) ∧
    no_open_issue o issues (wh_issue_id handle).

Lemma orphaned_mono o t t' handle : t ⊆ t' → orphaned o t handle → orphaned o t' handle.
Proof.
  intros Ht (scan&claimed&issues&?&?&?&?&(ids&?&?)&?). exists scan, claimed, issues.
  split_and!; auto; [by eapply no_live_claim_mono|eauto].
Qed.

(** First the sweep looks, then it moves orphans away. *)
Definition swept o t : Prop :=
  ∃ t1 t2, t = t1 ++ t2 ∧ Forall is_seen t1 ∧
    Forall (λ call, ∃ handle namespace, call = DoQuarantine handle namespace ∧ orphaned o t1 handle) t2.

Lemma seen_swept o t : Forall is_seen t → swept o t.
Proof. intros Ht. exists t, []. rewrite app_nil_r. split_and!; [done|done|by apply Forall_nil]. Qed.

Lemma swept_calls o t call :
  swept o t → call ∈ t →
  is_seen call ∨ ∃ handle namespace, call = DoQuarantine handle namespace ∧ orphaned o t handle.
Proof.
  intros (t1&t2&->&H1&H2) [Hc|Hc]%elem_of_app; rewrite Forall_forall in H1, H2; [by left; auto|].
  right. destruct (H2 call Hc) as (h&ns&->&Ho). exists h, ns. split; [done|].
  eapply orphaned_mono; [|done]. intros x Hx. apply elem_of_app. by left.
Qed.

(** A step that only looks. *)
Lemma look_bind {A B} o (c : OM (W := traced W) (T := T) A) (f : A → OM (T := T) B) Φ t0 :
  (∀ t0, ensures (adds is_seen t0) c (λ _, True)) → yields c Φ → Forall is_seen t0 →
  (∀ a t1, Φ t1 a → Forall is_seen (t0 ++ t1) →
    emits (f a) (λ t2 _, swept o ((t0 ++ t1) ++ t2))) →
  emits (c ≫= f) (λ t _, swept o (t0 ++ t)).
Proof.
  intros Hc Hy H0 Hf. apply adds_emits in Hc.
  eapply emits_bind; [apply (emits_and _ _ _ Hc Hy)| |].
  - intros a t1 [H1 HΦ]. eapply emits_weaken; [apply Hf; [by apply HΦ|by apply Forall_app]|].
    intros t2 r. by rewrite app_assoc.
  - intros e t1 [H1 _]. by apply seen_swept, Forall_app.
Qed.

Lemma seen_live_names o claimed names t0 :
  ensures (adds is_seen t0) (live_names (T := T) (W := traced W) o claimed names) (λ _, True).
Proof.
  revert names. induction claimed as [|issue claimed IH]; intros names; simpl; keeps.
Qed.

Lemma orphan_id (handles : list WorkspaceHandle) handle (live : gset string) :
  handle ∈ handles → wh_issue_id handle ∉ live →
  wh_issue_id handle ∈ wh_issue_id <$>
    List.filter (λ h, negb (bool_decide (wh_issue_id h ∈ live))) (sort_by handle_key handles).
Proof.
  intros Hin Hn. apply list_elem_of_fmap. exists handle. split; [done|].
  rewrite list_elem_of_In, List.filter_In, <-list_elem_of_In.
  split; [by apply elem_of_sort_by|]. by rewrite bool_decide_eq_false_2.
Qed.

Lemma sweep_swept o : emits (sweep_orphans (T := T) (W := traced W) o) (λ t _, swept o t).
Proof.
  unfold sweep_orphans.
  eapply (look_bind _ _ _ _ []); [intros t0; keeps|apply yields_core|done|]. intros scan t1 ->.
  intros Hs1. unfold live_claim_workspace_names.
  eapply (look_bind _ _ _ (λ t live, ∃ claimed,
    SawClaimed (Some (cf_agent_id (or_config o))) (Some claimed) ∈ t ∧
    ∀ name, name ∉ live → no_live_claim o t claimed name)); [| |exact Hs1|].
  { intros t0. apply keeps_bind; [keeps|]. intros claimed. apply seen_live_names. }
  { eapply yields_bind; [apply yields_core|]. intros claimed t ->.
    eapply yields_weaken; [apply yields_live_names|]. intros t live [_ Hl]. exists claimed.
    split; [apply elem_of_app; left; by apply list_elem_of_singleton|].
    intros name Hn. eapply no_live_claim_mono; [|by apply Hl].
    intros x Hx. apply elem_of_app. by right. }
  intros live t2 (claimed&Hc&Hlive) Hs2.
  eapply look_bind; [intros t0; keeps|apply yields_core|exact Hs2|]. intros issues t3 -> Hs3.
  assert (Hns : ∀ t0, ensures (adds is_seen t0)
    (orphan_quarantine_namespace (T := T) (W := traced W)) (λ _, True)).
  { intros t0. unfold orphan_quarantine_namespace. keeps. }
  eapply (look_bind _ _ _ (λ _ _, True)); [exact Hns| |exact Hs3|].
  { apply yields_any. intros t0. eapply adds_weaken; [|apply Hns]. done. }
  intros namespace t4 _ Hs4.
  eapply emits_bind; [apply adds_emits; intros t0; apply adds_sweep| |].
  1: intros summary t5 Ht5; refine (emits_lift (Ok _) _ _); rewrite app_nil_r.
  2: intros e t5 Ht5.
  all: eexists _, t5; split; [reflexivity|]; split; [exact Hs4|];
    eapply Forall_impl; [exact Ht5|]; intros call (handle&Hin&->&[Hn Ho]%not_preserved);
    exists handle, namespace; (split; [done|]); exists scan, claimed, issues;
    apply elem_of_sort_by in Hin; split_and!; try done; try in_trace;
    [eapply no_live_claim_mono; [|by apply Hlive]; in_trace|];
    eexists; (split; [|in_trace]); by apply orphan_id.
Qed.
End orphans.

(** C14 the sweep quarantines only orphans: every workspace it moves away was
    found by its scan; no claim of this agent that bears the workspace's name
    is fresh; and the tracker, asked for the issues of all workspaces without a
    live claim, does not know the issue or has it blocked or in a terminal
    state. It makes no other change. *)
Theorem sweep_quarantines_orphans `{X : Extern} `{J : Json} `{C : Chrono} `{CF : ChronoFormat}
    {W T} `{TT : TrackerText T} `{TK : !TrackerApi W T} `{WK : !WorkspaceApi W T}
    `{M : !Machine W} (o : Orchestrator) :
  emits (sweep_orphans (T := T) (W := traced W) o) (λ t _, ∀ call, call ∈ t →
    match call with
    | DoQuarantine handle _ =>
        ∃ scan claimed issues,
          SawScan (Some scan) ∈ t ∧ handle ∈ ws_workspaces scan ∧
          SawClaimed (Some (cf_agent_id (or_config o))) (Some claimed) ∈ t ∧
          no_live_claim o t claimed (wh_issue_id handle) ∧
          (∃ ids, wh_issue_id handle ∈ ids ∧ SawIssues ids (Some issues) ∈ t) ∧
          no_open_issue o issues (wh_issue_id handle)
    | SawScan _ | SawClaimed _ _ | SawIssues _ _ | SawTime _ => True
    | _ => False
    end).
Proof.
  eapply emits_weaken; [apply sweep_swept|]. intros t r Ht call Hc.
  destruct (swept_calls _ _ _ Ht Hc) as [Hs|(handle&ns&Hq&Ho)]; [by destruct call|].
  rewrite Hq. exact Ho.
Qed.
