(* ===== verification/Transport.v ===== *)
(** * HTTP calls

    What the clients of x0xd and of the daemon ask of their HTTP library: one
    request, one response whose body arrives in chunks.  A client answers with
    the decoded body, or with an error of its own that carries the status and
    the text of the body.  A call that only uses part of a world is lifted to
    the whole. *)

From S2P Require Import Prelude Wire Identity Core Text Effects Files Scheduling Proofs Trust.

(** ** Requests and responses *)

(** A request: the bearer token, the Accept header and the JSON body are there
    when the code sets them. *)
Record HttpRequest := {
  hr_method : string;
  hr_url : string;
  hr_bearer : option string;
  hr_accept : option string;
  hr_json : option bytes
}.

(** A response: its body ends with its last chunk, or with the error that cut
    it off. *)
Record HttpResponse := { rs_status : N; rs_chunks : list (result bytes string) }.

Fixpoint read_chunks (chunks : list (result bytes string)) : result bytes string :=
  match chunks with
  | [] => Ok ""
  | Ok chunk :: chunks => let? rest := read_chunks chunks in Ok (chunk +:+ rest)
  | Err e :: _ => Err e
  end.
Definition rs_body (r : HttpResponse) : result bytes string := read_chunks (rs_chunks r).

(** Sending a request, with the text of the error of a request that got no
    response; the text of a body and of a status. *)
Class Transport (W : Type) := { tp_send : HttpRequest → Run W string HttpResponse }.
Class HttpText := { ht_body : bytes → string; ht_status : N → string }.

(** ** Base URLs and tokens *)

(** A server as its base URL without trailing slashes, and the token that every
    request carries. *)
Record Endpoint := { ep_base_url : string; ep_token : option string }.

Definition endpoint (base_url : string) (token : option string) : Endpoint :=
  {| ep_base_url := drop_slashes base_url; ep_token := token |}.
Definition endpoint_url (c : Endpoint) (p : string) : string := ep_base_url c +:+ p.

(** [env::var("X0X_API_TOKEN").ok().filter(..)]. *)
Definition x0xd_api_token {W} `{M : !Machine W} (w : W) : option string * W :=
  let '(value, w) := env_var "X0X_API_TOKEN" w in (value ≫= non_blank, w).

Definition get_request (c : Endpoint) (p : string) : HttpRequest := {|
  hr_method := "GET"; hr_url := endpoint_url c p; hr_bearer := ep_token c;
  hr_accept := None; hr_json := None |}.
Definition json_request (method : string) (c : Endpoint) (p : string) (body : bytes) : HttpRequest := {|
  hr_method := method; hr_url := endpoint_url c p; hr_bearer := ep_token c;
  hr_accept := None; hr_json := Some body |}.

(** ** Decoding *)

Section decoding.
Context `{HT : HttpText} {A E : Type}.

(** [response.json()] and [response.text()]. *)
Definition response_json (undecodable : string → E) (dec : bytes → result A string)
    (r : HttpResponse) : result A E :=
  map_err undecodable (let? body := rs_body r in dec body).
Definition response_text (unreadable : string → E) (r : HttpResponse) : result string E :=
  match rs_body r with Ok body => Ok (ht_body body) | Err e => Err (unreadable e) end.

(** The value of a success; otherwise the error made of status and text. *)
Definition decoded_or (undecodable unreadable : string → E) (failed : N → string → E)
    (dec : bytes → result A string) (r : HttpResponse) : result A E :=
  if is_success (rs_status r) then response_json undecodable dec r
  else let? body := response_text unreadable r in Err (failed (rs_status r) body).
End decoding.

(** ** Parts of a world *)

Section parts.
Context {W K : Type}.

(** A call on the first part of a world. *)
Definition on_first {E A} (c : Run W E A) : Run (W * K) E A := λ s,
  let '(r, w) := c s.1 in (r, (w, s.2)).
Definition on_first_plain {A} (c : W → A * W) (s : W * K) : A * (W * K) :=
  let '(a, w) := c s.1 in (a, (w, s.2)).

Lemma on_first_inv {E A} (c : Run W E A) s r s' :
  on_first c s = (r, s') → c s.1 = (r, s'.1) ∧ s'.2 = s.2.
Proof. unfold on_first. destruct (c s.1) as [r1 w]. by intros [= <- <-]. Qed.

Lemma on_first_keeps {E A} (P : K → Prop) (c : Run W E A) :
  ensures (λ s : W * K, P s.2) (on_first c) (λ _, True).
Proof. intros s Hs. unfold on_first. by destruct (c s.1). Qed.
Lemma on_first_plain_second {A} (c : W → A * W) (s : W * K) : (on_first_plain c s).2.2 = s.2.
Proof. unfold on_first_plain. by destruct (c s.1). Qed.

#[export] Instance Machine_first `{M : !Machine W} : Machine (W * K) := {|
  clock_now := on_first_plain clock_now; instant_now := on_first_plain instant_now;
  env_var name := on_first_plain (env_var name) |}.
End parts.

#[export] Hint Resolve on_first_keeps : effects.

Section facts.
Context `{HT : HttpText} {A E : Type}.
Implicit Types (dec : bytes → result A string) (r : HttpResponse).

(** What a client returns, it decoded from the body of a success. *)
Lemma decoded_or_Ok (undecodable unreadable : string → E) failed dec r (a : A) :
  decoded_or undecodable unreadable failed dec r = Ok a ↔
  is_success (rs_status r) = true ∧ ∃ body, rs_body r = Ok body ∧ dec body = Ok a.
Proof.
  unfold decoded_or, response_json, response_text. destruct (is_success (rs_status r)).
  - destruct (rs_body r) as [body|e]; simpl; [|naive_solver].
    destruct (dec body) eqn:Hdec; simpl; naive_solver congruence.
  - destruct (rs_body r) as [body|e]; simpl; naive_solver.
Qed.
End facts.
