(* ===== verification/Signer.v ===== *)
(** * The signing client of x0xd (x0x-symphony-signing/src/lib.rs)

    [X0xdClient]: signing and verifying through the local x0xd, and the resolver
    of trusted keys, which knows one key: the one that the last signature of the
    local x0xd came with.  The client's state is that key; it implements
    [SigningApi] on the world it talks to together with this state. *)

From S2P Require Import Prelude Wire Identity Core Text Effects Files Store Claims Approvals Ports.
From S2P Require Import Scheduling Proofs Trust Transport.

Definition MAX_SIGNING_PAYLOAD_BYTES : N := 64 * 1024.

(** ** What goes over the wire *)

Record AgentSignRequest := { sq_context : string; sq_payload_b64 : string }.
Record AgentVerifyRequest := {
  vq_payload_b64 : string;
  vq_signature_b64 : string;
  vq_public_key_b64 : string;
  vq_context : string;
  vq_algorithm : string
}.

(** serde_json at the request and response types; the answer to a signing
    request has the fields of [SignResponse]. *)
Class SigningWire := {
  js_sign_request : AgentSignRequest → bytes;
  js_verify_request : AgentVerifyRequest → bytes;
  dec_sign_response : bytes → result SignResponse string;
  dec_verify_response : bytes → result bool string;
  dec_agent_info : bytes → result string string
}.

(** [TrustedLocalKey]. *)
Record TrustedLocalKey := { tl_agent_id : string; tl_public_key : bytes }.

Definition is_verify_transport (e : SigningError) : bool :=
  match e with SeRequest _ _ | SeDecode _ _ | SeHttp _ _ => true | _ => false end.

Section signer.
Context `{X : Extern} `{E : Encoders} `{HT : HttpText} `{SW : SigningWire}.
Context {W : Type} `{TP : !Transport W}.

(** The world and the key in the client's mutex. *)
Definition SignerWorld : Type := W * option TrustedLocalKey.
Definition SM (A : Type) : Type := Run SignerWorld SigningError A.

(** [X0xdClient::new]. *)
Definition new_signing_client `{M : !Machine W} (base_url : string) (w : W) : Endpoint * W :=
  let '(token, w) := x0xd_api_token w in (endpoint base_url token, w).

Context (c : Endpoint).

Definition signing_response {A} (dec : bytes → result A string) (url : string) (r : HttpResponse)
    : result A SigningError :=
  decoded_or (SeDecode url) (SeDecode url) (λ status body, SeHttp (ht_status status) body) dec r.

Definition signing_call {A} (request : HttpRequest) (dec : bytes → result A string) : SM A :=
  response ← on_first (mapping_err (SeRequest (hr_url request)) (tp_send request));
  lift_result (signing_response dec (hr_url request) response).
Definition signing_post {A} (p : string) (body : bytes) (dec : bytes → result A string) : SM A :=
  signing_call (json_request "POST" c p body) dec.
Definition signing_get {A} (p : string) (dec : bytes → result A string) : SM A :=
  signing_call (get_request c p) dec.

(** The key is stored when it decodes. *)
Definition remember_key (agent_id public_key_b64 : string) : SM unit :=
  key ← lift_result (map_err (SeBase64 "public_key_b64") (b64_decode public_key_b64));
  modify (λ s, (s.1, Some {| tl_agent_id := agent_id; tl_public_key := key |})).

Definition x0xd_sign (context : string) (payload : bytes) : SM SignResponse :=
  let actual := N.of_nat (String.length payload) in
  if (MAX_SIGNING_PAYLOAD_BYTES <? actual)%N then throw (SePayloadTooLarge MAX_SIGNING_PAYLOAD_BYTES actual)
  else
    response ← signing_post "/agent/sign"
      (js_sign_request {| sq_context := context; sq_payload_b64 := b64_encode payload |})
      dec_sign_response;
    if bool_decide (sg_algorithm response ≠ SIGN_ALGORITHM) then
      throw (SeInvalidResponse ("algorithm " +:+ sg_algorithm response +:+ " did not match " +:+
                                SIGN_ALGORITHM))
    else if bool_decide (sg_context response ≠ context) then
      throw (SeInvalidResponse ("context " +:+ sg_context response +:+ " did not match " +:+ context))
    else
      _ ← remember_key (sg_agent_id response) (sg_public_key_b64 response);
      mret response.

Definition x0xd_verify (context : string) (payload signature public_key : bytes) : SM VerifyOutcome :=
  let actual := N.of_nat (String.length payload) in
  if (MAX_SIGNING_PAYLOAD_BYTES <? actual)%N then
    mret (SigInvalid ("payload exceeds maximum signable size of " +:+ pretty MAX_SIGNING_PAYLOAD_BYTES +:+
                      " bytes: " +:+ pretty actual))
  else
    answer ← catch (signing_post "/agent/verify"
      (js_verify_request {|
         vq_payload_b64 := b64_encode payload; vq_signature_b64 := b64_encode signature;
         vq_public_key_b64 := b64_encode public_key; vq_context := context;
         vq_algorithm := SIGN_ALGORITHM |})
      dec_verify_response);
    match answer with
    | Ok valid => mret (if valid : bool then SigValid
                        else SigInvalid "x0xd verify endpoint returned false")
    | Err error =>
        if is_verify_transport error then mret (SigTransportError (show_signing_error error))
        else throw error
    end.

Definition agent_identity : SM string := signing_get "/agent" dec_agent_info.

(** ** The resolver *)

Definition BOOTSTRAP_PAYLOAD : bytes := "x0x-symphony-key-bootstrap".
Definition bootstrap_key : SM unit := _ ← x0xd_sign "x0x-symphony-claim-v1" BOOTSTRAP_PAYLOAD; mret ().

Definition cached_key (agent_id : string) (s : SignerWorld) : option (result bytes SigningError) :=
  (λ entry, if bool_decide (tl_agent_id entry = agent_id) then Ok (tl_public_key entry)
            else Err (SeUntrustedKey ("agent " +:+ agent_id +:+ " is not the local x0xd signer " +:+
                                      tl_agent_id entry))) <$> s.2.

Definition x0xd_resolve (agent_id : string) : SM bytes :=
  cached ← gets (cached_key agent_id);
  match cached with
  | Some result => lift_result result
  | None =>
      _ ← bootstrap_key;
      cached ← gets (cached_key agent_id);
      match cached with
      | Some result => lift_result result
      | None => throw (SeUntrustedKey "local x0xd signing key was not cached")
      end
  end.

Definition X0xdSigning : SigningApi SignerWorld := {|
  sg_sign := x0xd_sign; sg_verify := x0xd_verify; kr_resolve := x0xd_resolve |}.
End signer.
Arguments SignerWorld : clear implicits.
