(* ===== verification/GossipClient.v ===== *)
(** * The gossip client (X0xdGossipClient of x0x-symphony-bin/src/workers.rs)

    Publishing, subscribing and opening the event stream of the local x0xd, as
    an implementation of [GossipApi].  An error is its outermost message, which
    is what the callers log. *)

From S2P Require Import Prelude Wire Identity Core Text Effects Files Store Scheduling Proofs Trust.
From S2P Require Import Claims Approvals Ports Workers Transport.

Record PublishRequest := { pr_topic : string; pr_payload : string }.

(** serde_json at the requests and the responses: the flag of a publication and
    the id of a subscription. *)
Class GossipWire := {
  js_publish : PublishRequest → bytes;
  js_subscribe : string → bytes;
  dec_published : bytes → result bool string;
  dec_subscription : bytes → result string string
}.

(** [X0xdGossipClient::new]. *)
Definition new_gossip_client (base_url : string) (token : option string) : Endpoint :=
  endpoint base_url (token ≫= non_blank).

Section gossip.
Context `{E : Encoders} `{HT : HttpText} `{GW : GossipWire} {W : Type} `{TP : !Transport W}.
Context (c : Endpoint).

Definition ensure_success (response : HttpResponse) (url : string) : result HttpResponse string :=
  if is_success (rs_status response) then Ok response
  else
    let body := match rs_body response with
                | Ok body => ht_body body
                | Err error => "failed to read error body: " +:+ error
                end in
    Err ("x0xd " +:+ url +:+ " returned HTTP " +:+ ht_status (rs_status response) +:+ ": " +:+ body).

Definition gossip_send (request : HttpRequest) : Run W string HttpResponse :=
  response ← mapping_err (λ _, "request to " +:+ hr_url request +:+ " failed") (tp_send request);
  lift_result (ensure_success response (hr_url request)).
Definition gossip_post (p : string) (body : bytes) : Run W string HttpResponse :=
  gossip_send (json_request "POST" c p body).

Definition gossip_publish (topic : string) (payload : bytes) : Run W string unit :=
  response ← gossip_post "/publish" (js_publish {| pr_topic := topic; pr_payload := b64_encode payload |});
  ok ← lift_result (response_json (λ _, "failed to decode x0xd /publish response") dec_published response);
  if ok : bool then mret () else throw "x0xd /publish returned ok=false".

Definition gossip_subscribe (topic : string) : Run W string string :=
  response ← gossip_post "/subscribe" (js_subscribe topic);
  lift_result (response_json (λ _, "failed to decode x0xd /subscribe response") dec_subscription response).

(** The stream is the chunks of the response. *)
Definition gossip_open_events : Run W string (list (result bytes string)) :=
  response ← gossip_send (get_request c "/events");
  mret (rs_chunks response).
End gossip.

(** On the world of the signing client. *)
Definition X0xdGossip `{E : Encoders} `{HT : HttpText} `{GW : GossipWire} {W K : Type}
    `{TP : !Transport W} (c : Endpoint) (sleep : N → W → unit * W) : GossipApi (W * K) := {|
  go_publish topic payload := on_first (gossip_publish c topic payload);
  go_subscribe topic := on_first (gossip_subscribe c topic);
  go_open_events := on_first (gossip_open_events c);
  go_sleep delay := on_first_plain (sleep delay) |}.
