(* ===== verification/X0xdClient.v ===== *)
(** * The HTTP client of the trackers (client.rs of the tracker crate)

    [X0xdClient]: every call of the task-list, key-value and named-group
    endpoints, and the event stream.  [HttpDaemon] and the instances after it
    put it behind the interfaces of the two trackers. *)

From S2P Require Import Prelude Wire Identity Core Text Events Effects Files Store Client Scheduling Proofs.
From S2P Require Import Trust Claims Approvals Ports Gate FoldTypes Tracker Mapping Workers TaskLists.
From S2P Require Import Transport Signer.

(** ** What goes over the wire *)

Record CreateNamedResourceRequest := { cn_name : string; cn_topic : string }.
Record CreateStoreWithPolicyRequest := {
  cp_name : string; cp_topic : string; cp_policy : option string
}.
Record JoinGroupRequest := { jr_invite : string; jr_display_name : option string }.
Record PutValueRequest := { pv_value : string; pv_content_type : option string }.
Record StoreCreateOutcome := { so_id : string; so_policy : option string }.
Record KvKeyEntry := {
  ke_key : string; ke_content_type : option string; ke_content_hash : option string;
  ke_size : N; ke_updated_at : option N
}.
(** [KvValue], and its answer with the value in base64. *)
Record KvEntry (V : Type) := {
  kv_key : string; kv_value : V; kv_content_type : option string;
  kv_content_hash : option string; kv_created_at : option N; kv_updated_at : option N
}.
Arguments kv_key {V}. Arguments kv_value {V}. Arguments kv_content_type {V}.
Arguments kv_content_hash {V}. Arguments kv_created_at {V}. Arguments kv_updated_at {V}.
Arguments Build_KvEntry {V}.
Abbreviation GetValueResponse := (KvEntry string).
Abbreviation KvValue := (KvEntry bytes).
Record X0xdEvent := { xe_event_type : option string; xe_data : string }.

(** The untagged enums of list answers: an object around the list, or the list. *)
Inductive Listed (A : Type) := Wrapped (entries : list A) | Bare (entries : list A).
Arguments Wrapped {A}. Arguments Bare {A}.
Definition listed {A} (r : Listed A) : list A :=
  match r with Wrapped entries => entries | Bare entries => entries end.

(** serde_json at the request and the response types. *)
Class X0xdWire := {
  js_named_resource : CreateNamedResourceRequest → bytes;
  js_store_with_policy : CreateStoreWithPolicyRequest → bytes;
  js_join_store : string → bytes;
  js_join_group : JoinGroupRequest → bytes;
  js_add_task : AddTaskDraft → bytes;
  js_update_task : string → bytes;
  js_put_value : PutValueRequest → bytes;
  dec_entries : bytes → result (Listed TaskListEntry) string;
  dec_stores : bytes → result (Listed TaskListEntry) string;
  dec_store_details : bytes → result (Listed StoreDetailEntry) string;
  dec_groups : bytes → result (Listed NamedGroupEntry) string;
  dec_group : bytes → result NamedGroupDetails string;
  dec_joined : bytes → result JoinedGroup string;
  dec_tasks : bytes → result (Listed TaskEntry) string;
  dec_keys : bytes → result (Listed KvKeyEntry) string;
  dec_value : bytes → result GetValueResponse string;
  (** a resource's id, a task's id, a store that was created *)
  dec_created : bytes → result string string;
  dec_task_id : bytes → result string string;
  dec_created_store : bytes → result StoreCreateOutcome string;
  (** any object, and any value *)
  dec_ok : bytes → result unit string;
  dec_any : bytes → result unit string
}.

(** Errors: the code tells only [Http] from the rest. *)
Definition request_failed (url source : string) : ClientError :=
  OtherClientError ("request to " +:+ url +:+ " failed: " +:+ source).
Definition undecodable (url source : string) : ClientError :=
  OtherClientError ("failed to decode response from " +:+ url +:+ ": " +:+ source).
Definition invalid_base64 (field source : string) : ClientError :=
  OtherClientError ("invalid base64 in " +:+ field +:+ ": " +:+ source).

Section client.
Context `{X : Extern} `{E : Encoders} `{HT : HttpText} `{XW : X0xdWire} {W : Type} `{TP : !Transport W}.

Definition CM (A : Type) : Type := Run W ClientError A.

(** [X0xdClient::new] and [with_token]. *)
Definition new_x0xd_client `{M : !Machine W} (base_url : string) (w : W) : Endpoint * W :=
  let '(token, w) := x0xd_api_token w in (endpoint base_url token, w).

Context (c : Endpoint).

Definition error_response (response : HttpResponse) : result ClientError ClientError :=
  let? body := response_text (undecodable "") response in Ok (Store.Http (rs_status response) body).

(** [decode_response]: the error's text that cannot be read has no URL. *)
Definition client_response {A} (dec : bytes → result A string) (url : string) (response : HttpResponse)
    : result A ClientError :=
  if is_success (rs_status response) then response_json (undecodable url) dec response
  else let? error := error_response response in Err error.

Definition client_send (request : HttpRequest) : CM HttpResponse :=
  mapping_err (request_failed (hr_url request)) (tp_send request).
Definition client_call {A} (dec : bytes → result A string) (request : HttpRequest) : CM A :=
  response ← client_send request;
  lift_result (client_response dec (hr_url request) response).

Definition x_get {A} (dec : bytes → result A string) (p : string) : CM A :=
  client_call dec (get_request c p).
Definition x_post {A} (dec : bytes → result A string) (p : string) (body : bytes) : CM A :=
  client_call dec (json_request "POST" c p body).
Definition x_patch {A} (dec : bytes → result A string) (p : string) (body : bytes) : CM A :=
  client_call dec (json_request "PATCH" c p body).
Definition x_put {A} (dec : bytes → result A string) (p : string) (body : bytes) : CM A :=
  client_call dec (json_request "PUT" c p body).

(** ** Task lists *)

Definition x_list_task_lists : CM (list TaskListEntry) :=
  response ← x_get dec_entries "/task-lists"; mret (listed response).
Definition x_create_task_list (name topic : string) : CM string :=
  x_post dec_created "/task-lists" (js_named_resource {| cn_name := name; cn_topic := topic |}).
Definition x_list_tasks (list_id : string) : CM (list TaskEntry) :=
  response ← x_get dec_tasks ("/task-lists/" +:+ list_id +:+ "/tasks"); mret (listed response).
Definition x_add_task (list_id : string) (draft : AddTaskDraft) : CM string :=
  x_post dec_task_id ("/task-lists/" +:+ list_id +:+ "/tasks") (js_add_task draft).
Definition x_update_task (list_id task_id : string) (action : TaskAction) : CM unit :=
  x_patch dec_ok ("/task-lists/" +:+ list_id +:+ "/tasks/" +:+ task_id) (js_update_task (task_action_str action)).

(** ** Named groups *)

Definition x_list_named_groups : CM (list NamedGroupEntry) :=
  response ← x_get dec_groups "/groups"; mret (listed response).
Definition x_get_named_group (group_id : string) : CM NamedGroupDetails :=
  x_get dec_group ("/groups/" +:+ group_id).
Definition x_join_group (invite : string) (display_name : option string) : CM JoinedGroup :=
  x_post dec_joined "/groups/join" (js_join_group {| jr_invite := invite; jr_display_name := display_name |}).

(** ** Stores *)

Definition x_create_kv_store_with_policy (name topic : string) (policy : option string)
    : CM StoreCreateOutcome :=
  x_post dec_created_store "/stores"
    (js_store_with_policy {| cp_name := name; cp_topic := topic; cp_policy := policy |}).
Definition x_join_kv_store (topic expected_owner : string) : CM unit :=
  x_post dec_any ("/stores/" +:+ topic +:+ "/join") (js_join_store expected_owner).
Definition x_kv_store_detail (topic : string) : CM (option StoreDetailEntry) :=
  response ← x_get dec_store_details "/stores";
  mret (List.find (λ entry, bool_decide (sd_id entry = topic)) (listed response)).
Definition x_list_kv_stores : CM (list TaskListEntry) :=
  response ← x_get dec_stores "/stores"; mret (listed response).
Definition x_create_kv_store (name topic : string) : CM string :=
  x_post dec_created "/stores" (js_named_resource {| cn_name := name; cn_topic := topic |}).
Definition x_list_kv_keys (store_id : string) : CM (list KvKeyEntry) :=
  response ← x_get dec_keys ("/stores/" +:+ store_id +:+ "/keys"); mret (listed response).
Definition x_put_kv (store_id key : string) (value : bytes) (content_type : string) : CM unit :=
  x_put dec_ok ("/stores/" +:+ store_id +:+ "/" +:+ key)
    (js_put_value {| pv_value := b64_encode value; pv_content_type := Some content_type |}).

Definition decoded_value (decoded : GetValueResponse) : result KvValue ClientError :=
  let? value := map_err (invalid_base64 "value") (b64_decode (kv_value decoded)) in
  Ok {| kv_key := kv_key decoded; kv_value := value; kv_content_type := kv_content_type decoded;
        kv_content_hash := kv_content_hash decoded; kv_created_at := kv_created_at decoded;
        kv_updated_at := kv_updated_at decoded |}.
Definition x_get_kv (store_id key : string) : CM (option KvValue) :=
  let request := get_request c ("/stores/" +:+ store_id +:+ "/" +:+ key) in
  response ← client_send request;
  if (rs_status response =? NOT_FOUND)%N then mret None
  else
    decoded ← lift_result (client_response dec_value (hr_url request) response);
    value ← lift_result (decoded_value decoded);
    mret (Some value).

(** ** Events *)

(** The line [event: ..] of a chunk, if its value is not blank. *)
Definition parse_sse_event_type (chunk : bytes) : option string :=
  value ← head (omap (λ line, trim <$> strip_prefix "event:" line) (str_lines (from_utf8_lossy chunk)));
  if bool_decide (value = "") then None else Some value.
Definition event_of_chunk (url : string) (chunk : result bytes string) : result X0xdEvent ClientError :=
  match chunk with
  | Ok chunk => Ok {| xe_event_type := parse_sse_event_type chunk; xe_data := from_utf8_lossy chunk |}
  | Err source => Err (request_failed url source)
  end.
Definition x_subscribe_events : CM (list (result X0xdEvent ClientError)) :=
  let request := get_request c "/events" in
  response ← client_send request;
  if negb (is_success (rs_status response)) then
    error ← lift_result (error_response response); throw error
  else mret (event_of_chunk (hr_url request) <$> rs_chunks response).
End client.

(** ** Behind the trackers *)

Section instances.
Context `{X : Extern} `{E : Encoders} `{HT : HttpText} `{XW : X0xdWire} `{SW : SigningWire} {W : Type}
  `{TP : !Transport W} `{M : !Machine W} `{CF : ChronoFormat}.

(** The client and the signing client of one daemon; the wait; the other
    encoder; the worker view and the text of an error of the v2 tracker. *)
Record HttpParts := {
  hp_client : Endpoint;
  hp_signer : Endpoint;
  hp_sleep : N → W → W;
  hp_enc_approval : ApprovalPayloadV2 → result bytes string;
  hp_workers : W → WorkerViewSnapshot * W;
  hp_v2_error : tracker_error → string
}.

Context (parts : HttpParts).

Definition discarding {A F} (c : Run W F A) : Run W F unit := _ ← c; mret ().
Definition as_text {A} (c : SM (W := W) A) : Run (SignerWorld W) string A := mapping_err show_signing_error c.

Definition HttpDaemon : Daemon := {|
  world := SignerWorld W;
  create_kv_store_with_policy name topic policy :=
    on_first (discarding (x_create_kv_store_with_policy (hp_client parts) name topic policy));
  join_kv_store topic owner := on_first (x_join_kv_store (hp_client parts) topic owner);
  kv_store_detail topic := on_first (x_kv_store_detail (hp_client parts) topic);
  list_kv_keys store := on_first (keys ← x_list_kv_keys (hp_client parts) store; mret (ke_key <$> keys));
  get_kv store key := on_first (found ← x_get_kv (hp_client parts) store key; mret (kv_value <$> found));
  put_kv store key value content_type := on_first (x_put_kv (hp_client parts) store key value content_type);
  sign context payload := as_text (x0xd_sign (hp_signer parts) context payload);
  sleep ms s := (hp_sleep parts ms s.1, s.2) |}.

Definition clock_text : SignerWorld W → string * SignerWorld W :=
  on_first_plain (λ w, let '(t, w) := clock_now w in (fmt_rfc3339_nanos t, w)).
Definition clock_seconds : SignerWorld W → Z * SignerWorld W :=
  on_first_plain (λ w, let '(t, w) := clock_now w in ((t / 1000000000)%Z, w)).

Definition HttpHost : Host (D := HttpDaemon) :=
  Build_Host HttpDaemon clock_text clock_seconds (hp_enc_approval parts)
    (λ name topic, on_first (x_create_task_list (hp_client parts) name topic))
    (on_first (x_list_task_lists (hp_client parts)))
    (λ list_id, on_first (x_list_tasks (hp_client parts) list_id))
    (λ list_id draft, on_first (x_add_task (hp_client parts) list_id draft))
    (λ list_id task action, on_first (x_update_task (hp_client parts) list_id task action)).

Definition HttpTaskDaemon : TaskDaemon (H := HttpHost) :=
  Build_TaskDaemon HttpDaemon HttpHost
    (on_first (x_list_named_groups (hp_client parts)))
    (λ id, on_first (x_get_named_group (hp_client parts) id))
    (λ invite name, on_first (x_join_group (hp_client parts) invite name))
    (on_first (x_list_kv_stores (hp_client parts)))
    (λ name topic, on_first (x_create_kv_store (hp_client parts) name topic))
    (λ context payload signature key, as_text (x0xd_verify (hp_signer parts) context payload signature key))
    (λ who, as_text (x0xd_resolve (hp_signer parts) who))
    (on_first_plain (hp_workers parts)) ht_status (hp_v2_error parts).
End instances.
