(* ===== verification/Auth.v ===== *)
(** * Bearer tokens (auth.rs, and constant_time_eq of core/signing.rs)

    The token file of the daemon's API, and what a request must present. *)

From S2P Require Import Prelude Wire Identity Core Text Effects Files.

Definition API_TOKEN_FILE : string := "api-token".

(** Reading a file as text, and thirty-two random bytes. *)
Class LocalFiles (W : Type) := {
  lf_read_to_string : path → Run W IoError string;
  lf_random_32 : W → bytes * W
}.

(** [auth::Error]. *)
Inductive AuthError :=
  | CreateDataDir (p : path) (source : IoError)
  | ReadToken (p : path) (source : IoError)
  | WriteToken (p : path) (source : IoError)
  | SetTokenPermissions (p : path) (source : IoError).
Definition show_auth (e : AuthError) : string :=
  match e with
  | CreateDataDir p source => "failed to create data directory " +:+ p +:+ ": " +:+ io_text source
  | ReadToken p source => "failed to read API token file " +:+ p +:+ ": " +:+ io_text source
  | WriteToken p source => "failed to write API token file " +:+ p +:+ ": " +:+ io_text source
  | SetTokenPermissions p source =>
      "failed to set 0600 permissions on API token file " +:+ p +:+ ": " +:+ io_text source
  end.

Definition api_token_path (data_dir : path) : path := join data_dir API_TOKEN_FILE.

Section token.
Context {W : Type} `{F : !Fs W} `{LF : !LocalFiles W}.

Definition TOKEN_MODE : N := 384.
Definition set_token_permissions (token_path : path) : Run W AuthError unit :=
  mapping_err (SetTokenPermissions token_path) (fs_set_permissions TOKEN_MODE token_path).

Definition generate_and_store_token (token_path : path) : Run W AuthError string :=
  random ← embed lf_random_32;
  let token := hex_encode random in
  _ ← mapping_err (WriteToken token_path) (fs_write token_path token);
  _ ← set_token_permissions token_path;
  mret token.

Definition load_or_generate_api_token (data_dir : path) : Run W AuthError string :=
  _ ← mapping_err (CreateDataDir data_dir) (fs_create_dir_all None data_dir);
  let token_path := api_token_path data_dir in
  read ← catch (lf_read_to_string token_path);
  match read with
  | Ok content =>
      _ ← set_token_permissions token_path;
      let token := trim content in
      if bool_decide (token = "") then generate_and_store_token token_path else mret token
  | Err error =>
      if bool_decide (io_kind error = IoNotFound) then generate_and_store_token token_path
      else throw (ReadToken token_path error)
  end.

Definition read_api_token (p : path) : Run W AuthError string :=
  content ← mapping_err (ReadToken p) (lf_read_to_string p); mret (trim content).
End token.

(** ** Requests *)

Section requests.
Context `{X : Extern}.

(** The bytes are compared by their digests. *)
Definition constant_time_eq (a b : bytes) : bool := bool_decide (sha256 a = sha256 b).
End requests.
