(* ===== verification/WorkflowConfig.v ===== *)
(** * The workflow file (config.rs of the daemon)

    Front matter, the parsers of its blocks, which note every problem they
    find, and the orchestrator's configuration made of it. *)

From S2P Require Import Prelude Wire Core Text Effects Files Containment Claims Ports Scheduling Trust.
From S2P Require Import Sandbox RunnerSpec Client TaskLists Orchestrator Auth.
Import Retry Shards.

Definition LEGACY_CODEX_BLOCK_REMOVAL : string :=
  "`codex:` top-level block was removed in XSY-0031 and is no longer supported; use `runner: {kind: shell, preset: codex}` instead. See docs/symphony/operator.md#migrating-from-the-legacy-codex-block.".
Definition DEFAULT_PROOFS_DAYS : N := 30.
Definition DEFAULT_REAP_INTERVAL_SECS : N := 3600.
Definition DEFAULT_X0XD_URL : string := "http://127.0.0.1:12700".

(** ** Errors *)

(** [config::Error]; errors of other crates as text. *)
Inductive ConfigError :=
  | CfIo (p : path) (source : IoError)
  | CfMissingFrontmatter
  | CfYaml (source : string)
  | CfJson (source : string)
  | CfInvalid (problems : list string)
  | CfNoHomeDirectory (field : string)
  | CfCore (e : SymphonyError string).

Definition show_config (e : ConfigError) : string :=
  match e with
  | CfIo p source => "failed to read workflow file " +:+ p +:+ ": " +:+ io_text source
  | CfMissingFrontmatter => "WORKFLOW.md must start with YAML frontmatter delimited by ---"
  | CfYaml source => "invalid workflow YAML: " +:+ source
  | CfJson source => "failed to normalize workflow config: " +:+ source
  | CfInvalid _ => "workflow config validation failed"
  | CfNoHomeDirectory field => "cannot expand ~ in " +:+ field +:+ ": no home directory is available"
  | CfCore e => show_symphony id e
  end.

(** ** The configuration *)

Record TrackerConfig := {
  tc_kind : string;
  tc_list_id : string;
  tc_group : option string;
  tc_active_states : list string;
  tc_terminal_states : list string;
  tc_v2_store_policy : option string
}.
(** [HooksConfig] has the fields of [LifecycleHooks], and [to_lifecycle_hooks]
    copies them. *)
Record AgentConfig := {
  ag_max_concurrent_agents : N;
  ag_max_concurrent_agents_by_state : gmap string N;
  ag_max_turns : N;
  ag_max_retry_backoff_ms : N
}.
(** Durations in nanoseconds. *)
Record SecurityConfig := {
  sec_required_trust : TrustLevel;
  sec_network_dispatch : NetworkDispatchPolicy;
  sec_approval_ttl : N;
  sec_approval_webhook_url : option string
}.
Record RetentionConfig := { ret_proofs_days : N; ret_reap_interval_secs : N }.
Record SigningConfig := { sgc_policy : SigningPolicy; sgc_x0xd_url : string }.
Record ShardingConfig := { shc_workers : list string; shc_replication_factor : N }.
Record WorkersConfig := {
  wkc_publish_enabled : bool;
  wkc_ttl_seconds : N;
  wkc_capabilities : list string;
  wkc_sandbox_levels : list string;
  wkc_runner_presets : list string
}.

(** A JSON value as its constructors show it; a number by its value as a
    [u64], if it has one. *)
Inductive JsonView (V : Type) :=
  | JvNull
  | JvBool (b : bool)
  | JvNumber (n : option N)
  | JvString (s : string)
  | JvArray (values : list V)
  | JvObject (map : gmap string V).
Arguments JvNull {V}. Arguments JvBool {V} b. Arguments JvNumber {V} n. Arguments JvString {V} s.
Arguments JvArray {V} values. Arguments JvObject {V} map.

Class JsonTree `{J : Json} := { json_view : Value → JsonView Value }.

(** [str::split_once] on a text. *)
Fixpoint split_once_str (sep s : string) : option (string * string) :=
  match strip_prefix sep s with
  | Some rest => Some ("", rest)
  | None =>
      match s with
      | "" => None
      | String c s => prod_map (String c) id <$> split_once_str sep s
      end
  end.

(** What follows the last dot. *)
Fixpoint after_last_dot (s : string) : option string :=
  match s with
  | "" => None
  | String c s =>
      match after_last_dot s with
      | Some leaf => Some leaf
      | None => if bool_decide (c = "."%char) then Some s else None
      end
  end.
Definition leaf_key (p : string) : string := default p (after_last_dot p).

Definition LINE_FEED : string := String "010" "".
Definition split_frontmatter (content : string) : result (string * string) ConfigError :=
  let? after_open := ok_or (strip_prefix ("---" +:+ LINE_FEED) content) CfMissingFrontmatter in
  ok_or (split_once_str (LINE_FEED +:+ "---" +:+ LINE_FEED) after_open) CfMissingFrontmatter.

(** ** Durations *)

Definition parse_u64 (s : string) : option N :=
  n ← parse_digits s; if (n <=? u64_max)%N then Some n else None.

(** The suffixes in the order they are tried, with their milliseconds. *)
Definition duration_units : list (string * N) :=
  [("ms", 1); ("s", 1000); ("m", 60000); ("h", 3600000); ("d", 86400000)]%N.

(** [str::strip_suffix]. *)
Definition strip_suffix (suffix s : string) : option string :=
  if ends_with suffix s
  then Some (String.substring 0 (String.length s - String.length suffix) s) else None.

Definition parse_count (number : string) (multiplier_ms : N) : result N string :=
  bail "must be a duration string like `24h`"
    when bool_decide (number = "") || negb (str_all is_ascii_digit number);
  let? count := ok_or (parse_u64 number) "must fit in u64" in
  bail "must be greater than zero" when (count =? 0)%N;
  bail "is too large" when (u64_max <? count * multiplier_ms)%N;
  Ok (count * multiplier_ms * MILLISECOND)%N.

Fixpoint parse_units (units : list (string * N)) (value : string) : result N string :=
  match units with
  | [] => Err "must be a duration string like `24h`"
  | (suffix, multiplier_ms) :: units =>
      match strip_suffix suffix value with
      | Some number => parse_count number multiplier_ms
      | None => parse_units units value
      end
  end.
Definition parse_duration_literal (raw : string) : result N string :=
  let value := trim raw in
  bail "must not be empty" when bool_decide (value = "");
  parse_units duration_units value.

Definition default_approval_ttl : N := 24 * 3600 * SECOND.

Definition normalize_tracker_kind (value : string) : option string :=
  if bool_decide (value ∈ ["x0x_crdt"; "crdt"; "x0x"]) then Some "x0x_crdt" else None.

(** ** Parsers *)

Section parsers.
Context `{J : Json} `{JT : !JsonTree} {W : Type} `{HE : !HostEnv W} `{DS : !DebugStr}.

Definition home_dir : W → option path * W := λ w,
  let '(home, w) := env_var_os "HOME" w in
  match home with Some home => (Some home, w) | None => env_var_os "USERPROFILE" w end.

Definition expand_tilde_path (input field : string) : Run W ConfigError path :=
  if bool_decide (input = "~") then
    home ← embed home_dir; lift_result (ok_or home (CfNoHomeDirectory field))
  else
    match strip_prefix "~/" input with
    | Some rest =>
        home ← embed home_dir;
        home ← lift_result (ok_or home (CfNoHomeDirectory field));
        mret (join home rest)
    | None => mret input
    end.

(** A parser notes problems; its [None] is the error. *)
Definition PM (A : Type) : Type := Run (list string * W) unit A.
Definition none {A} : PM A := throw tt.
Definition problem (message : string) : PM unit := modify (λ s, (s.1 ++ [message], s.2)).
Definition refuse {A} (message : string) : PM A := _ ← problem message; none.
(** An [Option] as a value, and one that must be there. *)
Definition optional {A} (c : PM A) : PM (option A) :=
  r ← catch c; mret (match r with Ok a => Some a | Err _ => None end).
(** A run beside the problems, with its result as a value. *)
Definition beside {A E} (c : Run W E A) : PM (result A E) :=
  λ s, let '(r, w) := c s.2 in (Ok r, (s.1, w)).
Definition need {A} (o : option A) : PM A := lift_result (ok_or o tt).

Abbreviation Map := (gmap string Value).
Definition as_object (v : Value) : option Map :=
  match json_view v with JvObject map => Some map | _ => None end.
Definition as_list (v : Value) : option (list Value) :=
  match json_view v with JvArray values => Some values | _ => None end.
Definition as_text (v : Value) : option string :=
  match json_view v with JvString s => Some s | _ => None end.
Definition as_u64 (v : Value) : option N :=
  match json_view v with JvNumber n => n | _ => None end.

Definition required_object (root : Map) (key : string) : PM Map :=
  match root !! key with
  | Some value =>
      match json_view value with
      | JvObject map => mret map
      | _ => refuse (key +:+ " must be a mapping")
      end
  | None => refuse ("missing required key `" +:+ key +:+ "`")
  end.

Definition required_string (map : Map) (p : string) : PM string :=
  match map !! leaf_key p with
  | Some value =>
      match json_view value with
      | JvString s => if is_blank s then refuse (p +:+ " must not be empty") else mret s
      | _ => refuse (p +:+ " must be a string")
      end
  | None => refuse ("missing required key `" +:+ p +:+ "`")
  end.

(** [None] without a problem when the key is absent. *)
Definition optional_string (map : Map) (p : string) : PM string :=
  match map !! leaf_key p with
  | Some value =>
      match json_view value with
      | JvString s => mret s
      | _ => refuse (p +:+ " must be a string")
      end
  | None => none
  end.
Definition optional_non_empty_string (map : Map) (p : string) : PM string :=
  value ← optional_string map p;
  if is_blank value then refuse (p +:+ " must not be empty") else mret value.
Definition optional_bool (map : Map) (p : string) : PM bool :=
  match map !! leaf_key p with
  | Some value =>
      match json_view value with
      | JvBool b => mret b
      | _ => refuse (p +:+ " must be a boolean")
      end
  | None => none
  end.

(** A number that is there: at least [min]. *)
Definition number_at_least (p : string) (min : N) (value : Value) : PM N :=
  match as_u64 value with
  | Some n => if (min <=? n)%N then mret n else refuse (p +:+ " must be >= " +:+ pretty min)
  | None => refuse (p +:+ " must be an unsigned integer")
  end.
Definition required_u64 (map : Map) (p : string) (min : N) : PM N :=
  match map !! leaf_key p with
  | Some value => number_at_least p min value
  | None => refuse ("missing required key `" +:+ p +:+ "`")
  end.
Definition optional_u64 (map : Map) (p : string) (min : N) : PM N :=
  match map !! leaf_key p with
  | Some value => number_at_least p min value
  | None => none
  end.

Definition fit_u32 (p : string) (value : N) : PM N :=
  if (value <=? u32_max)%N then mret value else refuse (p +:+ " must fit in u32").
(** [usize] has 64 bits. *)
Definition fit_usize (p : string) (value : N) : PM N :=
  if (value <=? u64_max)%N then mret value else refuse (p +:+ " must fit in usize").
Definition required_u32 (map : Map) (p : string) (min : N) : PM N :=
  value ← required_u64 map p min; fit_u32 p value.
Definition required_usize (map : Map) (p : string) (min : N) : PM N :=
  value ← required_u64 map p min; fit_usize p value.
Definition optional_u32 (map : Map) (p : string) (min : N) : PM N :=
  value ← optional_u64 map p min; fit_u32 p value.
Definition optional_usize (map : Map) (p : string) (min : N) : PM N :=
  value ← optional_u64 map p min; fit_usize p value.

(** One entry of [required_usize_map]; a bad one is only noted. *)
Definition usize_entry (p : string) (min : N) (entry_key : string) (entry_value : Value) : PM N :=
  if is_blank entry_key then refuse (p +:+ " keys must not be empty")
  else
    let entry := p +:+ "." +:+ entry_key in
    raw ← number_at_least entry min entry_value; fit_usize entry raw.
Fixpoint usize_entries (p : string) (min : N) (entries : list (string * Value))
    (result : gmap string N) : PM (gmap string N) :=
  match entries with
  | [] => mret result
  | (entry_key, entry_value) :: entries =>
      value ← optional (usize_entry p min entry_key entry_value);
      usize_entries p min entries
        (match value with Some value => <[entry_key := value]> result | None => result end)
  end.
Definition required_usize_map (map : Map) (p : string) (min : N) : PM (gmap string N) :=
  match map !! leaf_key p with
  | None => refuse ("missing required key `" +:+ p +:+ "`")
  | Some value =>
      match as_object value with
      | None => refuse (p +:+ " must be a mapping")
      | Some object => usize_entries p min (btree_iter object) ∅
      end
  end.

(** Without problems: what is no string is skipped. *)
Definition optional_string_list (map : Map) (p : string) : option (list string) :=
  value ← map !! leaf_key p;
  values ← as_list value;
  match omap as_text values with [] => None | strings => Some strings end.

(** The elements of a checked list; a bad one is only noted. *)
Definition indexed (p : string) (i : nat) : string := p +:+ "[" +:+ pretty i +:+ "]".
Fixpoint checked_each {A} (check : string → Value → PM A) (p : string) (i : nat) (values : list Value)
    : PM (list A) :=
  match values with
  | [] => mret []
  | value :: values =>
      a ← optional (check (indexed p i) value);
      rest ← checked_each check p (S i) values;
      mret (match a with Some a => a :: rest | None => rest end)
  end.
Definition checked_string (at_index : string) (value : Value) : PM string :=
  match as_text value with
  | None => refuse (at_index +:+ " must be a string")
  | Some raw =>
      let trimmed := trim raw in
      if bool_decide (trimmed = "") then refuse (at_index +:+ " must not be empty") else mret trimmed
  end.
Definition checked_agent (at_index : string) (value : Value) : PM string :=
  match as_text value with
  | None => refuse (at_index +:+ " must be a string")
  | Some raw =>
      match new_agent_id (T := string) raw with
      | Ok agent => mret agent
      | Err error => refuse (at_index +:+ " " +:+ show_symphony id error)
      end
  end.
Definition checked_list {A} (check : string → Value → PM A) (map : Map) (key p what : string)
    : PM (list A) :=
  match map !! key with
  | None => mret []
  | Some value =>
      match as_list value with
      | None => refuse (p +:+ " must be a list of " +:+ what)
      | Some values => checked_each check p 0 values
      end
  end.
Definition optional_string_list_checked (map : Map) (p : string) : PM (list string) :=
  checked_list checked_string map (leaf_key p) p "strings".
Definition optional_root_string_list (root : Map) (p : string) : PM (list string) :=
  checked_list checked_string root p p "strings".
Definition optional_agent_list (map : Map) (p : string) : PM (list string) :=
  checked_list checked_agent map (leaf_key p) p "agent id strings".

(** *** The blocks *)

Definition reject_legacy_codex_block (root : Map) : PM unit :=
  if bool_decide (is_Some (root !! "codex")) then problem LEGACY_CODEX_BLOCK_REMOVAL else mret ().

(** A block that may be absent. *)
Definition optional_block {A} (root : Map) (key : string) (absent : A) (parse : Map → PM A) : PM A :=
  match root !! key with
  | None => mret absent
  | Some value =>
      match as_object value with
      | None => refuse (key +:+ " must be a mapping")
      | Some map => parse map
      end
  end.

Definition parse_tracker (root : Map) : PM TrackerConfig :=
  tracker ← required_object root "tracker";
  raw_kind ← required_string tracker "tracker.kind";
  kind ← (match normalize_tracker_kind raw_kind with
          | Some kind => mret kind
          | None =>
              if bool_decide (raw_kind ∈ ["git_issues"; "git_jsonl"])
              then refuse "tracker.kind `git_issues` was removed in M3; use `x0x_crdt`"
              else refuse "tracker.kind must be `x0x_crdt` (aliases: `crdt`, `x0x`)"
          end);
  list_id ← optional (optional_non_empty_string tracker "tracker.list_id");
  list_id ← (match list_id with
             | Some list_id => mret (Some list_id)
             | None =>
                 legacy ← optional (optional_non_empty_string tracker "tracker.path");
                 _ ← (if bool_decide (is_Some legacy)
                      then problem "tracker.path is deprecated for M3; use tracker.list_id" else mret ());
                 mret legacy
             end);
  group ← optional (optional_non_empty_string tracker "tracker.group");
  let active_states := default ["todo"] (optional_string_list tracker "tracker.active_states") in
  let terminal_states := default ["done"; "cancelled"; "duplicate"]
                           (optional_string_list tracker "tracker.terminal_states") in
  _ ← (if bool_decide (list_id = None) then problem "missing required key `tracker.list_id`" else mret ());
  v2_store_policy ← optional (optional_non_empty_string tracker "tracker.v2_store_policy");
  _ ← (match v2_store_policy with
       | Some policy =>
           if bool_decide (policy ∈ ["append_only"; "signed"]) then mret ()
           else problem ("tracker.v2_store_policy must be `append_only` or `signed` (got `" +:+ policy +:+ "`)")
       | None => mret ()
       end);
  list_id ← need list_id;
  mret {| tc_kind := kind; tc_list_id := list_id; tc_group := group;
          tc_active_states := active_states; tc_terminal_states := terminal_states;
          tc_v2_store_policy := v2_store_policy |}.

(** The interval in milliseconds. *)
Definition parse_polling (root : Map) : PM N :=
  polling ← required_object root "polling"; required_u64 polling "polling.interval_ms" 1.

Definition parse_workspace (root : Map) : PM path :=
  workspace ← required_object root "workspace";
  root_value ← required_string workspace "workspace.root";
  expanded ← beside (expand_tilde_path root_value "workspace.root");
  match expanded with
  | Ok p => mret p
  | Err error => refuse (show_config error)
  end.

Definition parse_hooks (root : Map) : PM LifecycleHooks :=
  hooks ← required_object root "hooks";
  timeout_ms ← required_u32 hooks "hooks.timeout_ms" 1;
  after_create ← optional (optional_string hooks "hooks.after_create");
  before_run ← optional (optional_string hooks "hooks.before_run");
  after_run ← optional (optional_string hooks "hooks.after_run");
  before_remove ← optional (optional_string hooks "hooks.before_remove");
  mret {| lh_timeout_ms := timeout_ms; lh_after_create := after_create; lh_before_run := before_run;
          lh_after_run := after_run; lh_before_remove := before_remove |}.

Definition parse_validation (root : Map) : PM (list string) :=
  optional_root_string_list root "validation".

Definition parse_agent (root : Map) : PM AgentConfig :=
  agent ← required_object root "agent";
  max_concurrent_agents ← required_usize agent "agent.max_concurrent_agents" 1;
  by_state ← required_usize_map agent "agent.max_concurrent_agents_by_state" 1;
  max_turns ← required_u32 agent "agent.max_turns" 1;
  max_retry_backoff_ms ← required_u64 agent "agent.max_retry_backoff_ms" 1;
  mret {| ag_max_concurrent_agents := max_concurrent_agents;
          ag_max_concurrent_agents_by_state := by_state; ag_max_turns := max_turns;
          ag_max_retry_backoff_ms := max_retry_backoff_ms |}.

(** The texts of the parse errors of the orchestrator's trust module. *)
Definition trust_level_error (value : string) : string :=
  "unknown trust level " +:+ debug_str value +:+ "; expected blocked, unknown, known, or trusted".
Definition policy_error (value : string) : string :=
  "unknown network dispatch policy " +:+ debug_str value +:+ "; expected off, approve, or auto".

Definition parse_network_dispatch_policy (security : Map) : PM NetworkDispatchPolicy :=
  if bool_decide (is_Some (security !! "network_dispatch")) then
    raw ← optional_string security "security.network_dispatch";
    match parse_policy raw with
    | Ok policy => mret policy
    | Err value => refuse ("security.network_dispatch " +:+ policy_error value)
    end
  else if bool_decide (is_Some (security !! "network_dispatch_enabled")) then
    enabled ← optional_bool security "security.network_dispatch_enabled";
    mret (if enabled : bool then PolicyApprove else PolicyOff)
  else mret PolicyOff.

Definition parse_optional_duration (map : Map) (p : string) (absent : N) : PM N :=
  if negb (bool_decide (is_Some (map !! leaf_key p))) then mret absent
  else
    raw ← optional_string map p;
    match parse_duration_literal raw with
    | Ok duration => mret duration
    | Err message => refuse (p +:+ " " +:+ message)
    end.

Definition parse_security_block (security : Map) : PM SecurityConfig :=
  raw ← optional (optional_string security "security.required_trust");
  required_trust ← (match raw with
                    | Some raw =>
                        match parse_trust_level raw with
                        | Ok level => mret level
                        | Err value => refuse ("security.required_trust " +:+ trust_level_error value)
                        end
                    | None => mret TrustTrusted
                    end);
  network_dispatch ← parse_network_dispatch_policy security;
  _ ← (if bool_decide (network_dispatch = PolicyAuto) then
         ack ← optional (optional_bool security "security.network_dispatch_auto_ack");
         if bool_decide (ack ≠ Some true) then
           refuse "security.network_dispatch=auto requires network_dispatch_auto_ack=true"
         else mret ()
       else mret ());
  approval_ttl ← parse_optional_duration security "security.approval_ttl" default_approval_ttl;
  approval_webhook_url ← optional (optional_string security "security.approval_webhook_url");
  mret {| sec_required_trust := required_trust; sec_network_dispatch := network_dispatch;
          sec_approval_ttl := approval_ttl; sec_approval_webhook_url := approval_webhook_url |}.
Definition parse_security (root : Map) : PM SecurityConfig :=
  optional_block root "security"
    {| sec_required_trust := TrustTrusted; sec_network_dispatch := PolicyOff;
       sec_approval_ttl := default_approval_ttl; sec_approval_webhook_url := None |}
    parse_security_block.

Definition APPROVE_NEEDS_SIGNING : string :=
  "security.network_dispatch=approve requires signing.policy=required: without tracker signing no issue can carry verified provenance, so nothing could ever be approved or dispatched".
Definition OFF_WITHOUT_SIGNING : string :=
  "security.network_dispatch=off with signing.policy!=required: locally created issues carry no verified self-signed provenance and will be refused by the dispatch gate; set signing.policy=required to dispatch local issues".

(** The problem of the pairing, if any, and the warnings. *)
Definition validate_dispatch_signing_pairing (security : SecurityConfig) (signing : SigningConfig)
    (explicit_security : bool) : PM (list string) :=
  match sgc_policy signing, sec_network_dispatch security with
  | SigningRequired, _ => mret []
  | _, PolicyApprove => _ ← problem APPROVE_NEEDS_SIGNING; mret []
  | _, PolicyOff => mret (if explicit_security then [OFF_WITHOUT_SIGNING] else [])
  | _, PolicyAuto => mret []
  end.

Definition parse_retention (root : Map) : PM RetentionConfig :=
  optional_block root "retention"
    {| ret_proofs_days := DEFAULT_PROOFS_DAYS; ret_reap_interval_secs := DEFAULT_REAP_INTERVAL_SECS |}
    (λ retention,
      proofs_days ← optional (optional_u32 retention "retention.proofs_days" 1);
      reap_interval_secs ← optional (optional_u64 retention "retention.reap_interval_secs" 60);
      mret {| ret_proofs_days := default DEFAULT_PROOFS_DAYS proofs_days;
              ret_reap_interval_secs := default DEFAULT_REAP_INTERVAL_SECS reap_interval_secs |}).

Definition parse_signing_block (signing : Map) : PM SigningConfig :=
  raw ← optional (optional_string signing "signing.policy");
  policy ← (match raw with
            | Some raw =>
                match parse_signing_policy raw with
                | Some policy => mret policy
                | None => refuse "signing.policy must be `disabled` or `required`"
                end
            | None => mret SigningDisabled
            end);
  url ← optional (optional_string signing "signing.x0xd_url");
  x0xd_url ← (match url with
              | Some url => if is_blank url then refuse "signing.x0xd_url must not be empty" else mret url
              | None => mret DEFAULT_X0XD_URL
              end);
  mret {| sgc_policy := policy; sgc_x0xd_url := x0xd_url |}.
Definition parse_signing (root : Map) : PM SigningConfig :=
  optional_block root "signing"
    {| sgc_policy := SigningDisabled; sgc_x0xd_url := DEFAULT_X0XD_URL |} parse_signing_block.

Definition parse_sharding (root : Map) : PM ShardingConfig :=
  optional_block root "sharding"
    {| shc_workers := []; shc_replication_factor := DEFAULT_REPLICATION_FACTOR |}
    (λ sharding,
      workers ← optional_agent_list sharding "sharding.workers";
      replication_factor ← optional (optional_usize sharding "sharding.replication_factor" 1);
      mret {| shc_workers := workers;
              shc_replication_factor := default DEFAULT_REPLICATION_FACTOR replication_factor |}).

Definition parse_workers (root : Map) : PM WorkersConfig :=
  optional_block root "workers"
    {| wkc_publish_enabled := true; wkc_ttl_seconds := 60; wkc_capabilities := [];
       wkc_sandbox_levels := []; wkc_runner_presets := [] |}
    (λ workers,
      publish_enabled ← optional (optional_bool workers "workers.publish_enabled");
      ttl_seconds ← optional (optional_u64 workers "workers.ttl_seconds" 1);
      capabilities ← optional_string_list_checked workers "workers.capabilities";
      sandbox_levels ← optional_string_list_checked workers "workers.sandbox_levels";
      runner_presets ← optional_string_list_checked workers "workers.runner_presets";
      mret {| wkc_publish_enabled := default true publish_enabled;
              wkc_ttl_seconds := default 60%N ttl_seconds; wkc_capabilities := capabilities;
              wkc_sandbox_levels := sandbox_levels; wkc_runner_presets := runner_presets |}).

(** The runner block; that it resolves is checked afterwards. *)
Definition parse_runner (root : Map) : PM Value :=
  runner ← required_object root "runner";
  kind ← optional (required_string runner "runner.kind");
  _ ← (match kind with
       | Some value => if bool_decide (value = "shell") then mret ()
                       else problem "runner.kind must be `shell` for M1"
       | None => mret ()
       end);
  _ ← need kind;
  need (root !! "runner").

(** *** The whole file *)

Record WorkflowConfig := {
  wc_definition : Value * string;
  wc_tracker : TrackerConfig;
  wc_polling_interval_ms : N;
  wc_workspace_root : path;
  wc_hooks : LifecycleHooks;
  wc_validation : list string;
  wc_agent : AgentConfig;
  wc_security : SecurityConfig;
  wc_retention : RetentionConfig;
  wc_signing : SigningConfig;
  wc_sharding : ShardingConfig;
  wc_workers : WorkersConfig;
  wc_runner : Value;
  wc_warnings : list string
}.

Definition internal_validation_gap : ConfigError :=
  CfInvalid ["internal validation gap while building workflow config"].
Definition NOT_A_MAPPING : string := "workflow frontmatter must be a mapping".

Context `{RC : !RunnerCodec}.

(** What the parsers gave, block by block. *)
Record Parts := {
  pt_tracker : option TrackerConfig; pt_polling : option N; pt_workspace : option path;
  pt_hooks : option LifecycleHooks; pt_validation : option (list string);
  pt_agent : option AgentConfig; pt_security : option SecurityConfig;
  pt_retention : option RetentionConfig; pt_signing : option SigningConfig;
  pt_sharding : option ShardingConfig; pt_workers : option WorkersConfig;
  pt_runner : option Value; pt_warnings : list string
}.

Definition parse_parts (root : Map) : PM Parts :=
  _ ← reject_legacy_codex_block root;
  tracker ← optional (parse_tracker root);
  polling ← optional (parse_polling root);
  workspace ← optional (parse_workspace root);
  hooks ← optional (parse_hooks root);
  validation ← optional (parse_validation root);
  agent ← optional (parse_agent root);
  security ← optional (parse_security root);
  retention ← optional (parse_retention root);
  signing ← optional (parse_signing root);
  warnings ← (match security, signing with
              | Some security, Some signing =>
                  validate_dispatch_signing_pairing security signing
                    (bool_decide (is_Some (root !! "security")))
              | _, _ => mret []
              end);
  sharding ← optional (parse_sharding root);
  workers ← optional (parse_workers root);
  runner ← optional (parse_runner root);
  mret {| pt_tracker := tracker; pt_polling := polling; pt_workspace := workspace; pt_hooks := hooks;
          pt_validation := validation; pt_agent := agent; pt_security := security;
          pt_retention := retention; pt_signing := signing; pt_sharding := sharding;
          pt_workers := workers; pt_runner := runner; pt_warnings := warnings |}.

Definition assemble (raw : Value) (prompt_template : string) (parts : Parts)
    : result WorkflowConfig ConfigError :=
  let? tracker := ok_or (pt_tracker parts) internal_validation_gap in
  let? polling := ok_or (pt_polling parts) internal_validation_gap in
  let? workspace := ok_or (pt_workspace parts) internal_validation_gap in
  let? hooks := ok_or (pt_hooks parts) internal_validation_gap in
  let? validation := ok_or (pt_validation parts) internal_validation_gap in
  let? agent := ok_or (pt_agent parts) internal_validation_gap in
  let? security := ok_or (pt_security parts) internal_validation_gap in
  let? retention := ok_or (pt_retention parts) internal_validation_gap in
  let? signing := ok_or (pt_signing parts) internal_validation_gap in
  let? sharding := ok_or (pt_sharding parts) internal_validation_gap in
  let? workers := ok_or (pt_workers parts) internal_validation_gap in
  let? runner := ok_or (pt_runner parts) internal_validation_gap in
  Ok {| wc_definition := (raw, prompt_template); wc_tracker := tracker;
        wc_polling_interval_ms := polling; wc_workspace_root := workspace; wc_hooks := hooks;
        wc_validation := validation; wc_agent := agent; wc_security := security;
        wc_retention := retention; wc_signing := signing; wc_sharding := sharding;
        wc_workers := workers; wc_runner := runner; wc_warnings := pt_warnings parts |}.

(** The runner block is resolved only when nothing else is wrong. *)
Definition resolve_runner (raw : Value) : PM unit :=
  problems ← gets fst;
  if bool_decide (problems = []) then
    spec ← beside (from_workflow_config raw);
    match spec with
    | Ok _ => mret ()
    | Err error => problem ("runner block does not resolve: " +:+ show_runner error)
    end
  else mret ().

Definition from_raw (raw : Value) (prompt_template : string) : Run W ConfigError WorkflowConfig :=
  match as_object raw with
  | None => throw (CfInvalid [NOT_A_MAPPING])
  | Some root => λ w,
      let '(parts, (problems, w)) := (parts ← parse_parts root; _ ← resolve_runner raw; mret parts) ([], w) in
      match problems, parts with
      | [], Ok parts => (assemble raw prompt_template parts, w)
      | _, _ => (Err (CfInvalid problems), w)
      end
  end.

Definition from_markdown (content : string) : Run W ConfigError WorkflowConfig :=
  parts ← lift_result (split_frontmatter content);
  yaml ← lift_result (map_err CfYaml (yaml_to_json parts.1));
  raw ← lift_result (map_err CfJson yaml);
  from_raw raw parts.2.

Context `{LF : !LocalFiles W}.

Definition load (p : path) : Run W ConfigError WorkflowConfig :=
  content ← mapping_err (CfIo p) (lf_read_to_string p); from_markdown content.
End parsers.

(** ** The orchestrator's configuration *)

Section orchestrator_config.
Context `{J : Json}.

Fixpoint states_from_strings (values : list string) : result (list string) (SymphonyError string) :=
  match values with
  | [] => Ok []
  | value :: values =>
      let? state := new_issue_state value in
      let? states := states_from_strings values in
      Ok (state :: states)
  end.
Fixpoint caps_from_pairs (pairs : list (string * N)) (caps : gmap string N)
    : result (gmap string N) (SymphonyError string) :=
  match pairs with
  | [] => Ok caps
  | (state, cap) :: pairs =>
      let? state := new_issue_state state in caps_from_pairs pairs (<[state := cap]> caps)
  end.

Definition to_orchestrator_config (c : WorkflowConfig) (agent_id : string) : result Config ConfigError :=
  let? active_states := map_err CfCore (states_from_strings (tc_active_states (wc_tracker c))) in
  let? terminal_states := map_err CfCore (states_from_strings (tc_terminal_states (wc_tracker c))) in
  let? per_state := map_err CfCore
    (caps_from_pairs (btree_iter (ag_max_concurrent_agents_by_state (wc_agent c))) ∅) in
  let base := builder agent_id in
  Ok {| cf_agent_id := agent_id; cf_active_states := active_states;
        cf_terminal_states := terminal_states;
        cf_polling_interval := wc_polling_interval_ms c * MILLISECOND;
        cf_global_concurrency := N.max (ag_max_concurrent_agents (wc_agent c)) 1;
        cf_per_state_concurrency := per_state;
        cf_retry := new_policy (5 * SECOND) (ag_max_retry_backoff_ms (wc_agent c) * MILLISECOND)
                      (ag_max_turns (wc_agent c));
        cf_hooks := wc_hooks c; cf_proofs_dir := cf_proofs_dir base;
        cf_retention := {| rt_proofs_days := ret_proofs_days (wc_retention c);
                           rt_reap_interval := ret_reap_interval_secs (wc_retention c) * SECOND |};
        cf_validation_commands := wc_validation c; cf_claim_ttl := cf_claim_ttl base;
        cf_required_trust := sec_required_trust (wc_security c);
        cf_network_dispatch := sec_network_dispatch (wc_security c);
        cf_approval_ttl := sec_approval_ttl (wc_security c);
        cf_approval_webhook_url := sec_approval_webhook_url (wc_security c);
        cf_shutdown_grace := cf_shutdown_grace base |}%N.
End orchestrator_config.
