(* ===== verification/Literals.v ===== *)
(** * Literals of the workflow file

    Which names of states are taken, and how durations are read. *)

From S2P Require Import Prelude Core Text Effects Ports Scheduling.
From S2P Require Import TurnFacts WorkflowConfig.
Import Retry.

(** Not blank. *)
Definition filled (s : string) : Prop := is_blank s = false.

(** ** Names of states *)

Lemma ws_tail_shorter s s' : ws_tail s = Some s' → (String.length s' < String.length s)%nat.
Proof.
  destruct s as [|a [|b [|c s]]]; cbn [ws_tail]; [done|..]; repeat case_match; intros ?; simplify_eq; simpl; lia.
Qed.
Lemma ws_tail_trim_start s : ws_tail (trim_start s) = None.
Proof.
  unfold trim_start. generalize (Nat.le_refl (String.length s)). generalize (String.length s) at 2 3.
  intros n. revert s. induction n as [|n IH]; intros s Hs; cbn [trim_start_fuel]; [by destruct s; [|simpl in Hs; lia]|].
  destruct (ws_tail s) as [s'|] eqn:Hws; [|done]. apply IH. apply ws_tail_shorter in Hws. lia.
Qed.
Lemma trim_start_idem s : trim_start (trim_start s) = trim_start s.
Proof. unfold trim_start at 1. apply trim_start_fuel_stop, ws_tail_trim_start. Qed.
Lemma trim_blank s : trim s = "" ↔ is_blank s = true.
Proof.
  unfold trim, is_blank. rewrite bool_decide_eq_true. split; [|by intros ->].
  destruct (trim_start s) as [|c rest] eqn:Hs; [done|].
  cbn [trim_end]. unfold is_blank. rewrite <- Hs, trim_start_idem, Hs. done.
Qed.
Lemma ws_tail_app p q r : ws_tail p = Some r → is_Some (ws_tail (p +:+ q)).
Proof.
  destruct p as [|a [|b [|c p]]]; [done| | |]; rewrite ?str_app_cons; unfold ws_tail; cbv zeta.
  - destruct (_ || _)%N; [by eexists|done].
  - destruct (_ || _)%N; [by eexists|]. destruct (_ && _)%N; [by eexists|done].
  - destruct (_ || _)%N; [by eexists|]. destruct (_ && (_ || _))%N; [by eexists|].
    destruct (_ || _)%N; [by eexists|done].
Qed.
Lemma trim_end_prefix s : ∃ q, s = trim_end s +:+ q.
Proof.
  induction s as [|c s IH]; [by exists ""|]. cbn [trim_end]. destruct (is_blank (String c s)); [by exists (String c s)|].
  destruct IH as [q Hq]. exists q. rewrite str_app_cons. by f_equal.
Qed.
Lemma is_blank_trim s : is_blank (trim s) = is_blank s.
Proof.
  destruct (is_blank s) eqn:Hs; [by rewrite (proj2 (trim_blank s) Hs)|].
  assert (trim s ≠ "") as Hne by (intros He%trim_blank; congruence).
  unfold is_blank, trim_start. rewrite trim_start_fuel_stop; [by apply bool_decide_false|].
  destruct (ws_tail (trim s)) as [r|] eqn:Hws; [|done]. exfalso.
  destruct (trim_end_prefix (trim_start s)) as [q Hq]. apply ws_tail_app with (q := q) in Hws.
  unfold trim in Hws. rewrite <-Hq, ws_tail_trim_start in Hws. by destruct Hws.
Qed.
Lemma lower_empty s : to_ascii_lowercase s = "" ↔ s = "".
Proof. by destruct s. Qed.
Lemma new_issue_state_filled {T} s :
  filled s → new_issue_state (T := T) s = Ok (to_ascii_lowercase (trim s)).
Proof.
  unfold filled, new_issue_state. intros Hs. case_bool_decide as Hl; [|done].
  apply lower_empty, trim_blank in Hl. congruence.
Qed.
Lemma new_issue_state_blank {T} s :
  ¬ filled s → new_issue_state (T := T) s = Err (Validation "issue.state" "must not be empty").
Proof.
  unfold filled, new_issue_state. intros Hs. rewrite bool_decide_true; [done|].
  apply lower_empty, trim_blank. by destruct (is_blank s).
Qed.
Lemma states_from_filled values :
  Forall filled values → states_from_strings values = Ok ((λ s, to_ascii_lowercase (trim s)) <$> values).
Proof. induction 1 as [|s l Hs _ IH]; [done|]. simpl. by rewrite new_issue_state_filled, IH. Qed.
Lemma states_from_blank values :
  ¬ Forall filled values →
  states_from_strings values = Err (Validation "issue.state" "must not be empty").
Proof.
  induction values as [|s l IH]; intros Hb; [by destruct Hb|]. simpl.
  destruct (decide (filled s)) as [Hs|Hs]; [|by rewrite new_issue_state_blank].
  rewrite new_issue_state_filled by done. simpl. rewrite IH; [done|]. intros Hl. apply Hb. by constructor.
Qed.
Lemma caps_from_filled pairs caps :
  Forall (λ p, filled p.1) pairs →
  caps_from_pairs pairs caps = Ok (foldl (λ caps p, <[to_ascii_lowercase (trim p.1) := p.2]> caps) caps pairs).
Proof.
  intros Hp. revert caps. induction Hp as [|[k n] l Hk _ IH]; intros caps; [done|].
  simpl. by rewrite new_issue_state_filled.
Qed.

(** ** Durations *)

Lemma plain_not_ws c s : plain_char c = true → ws_tail (String c s) = None.
Proof.
  unfold plain_char, in_byte_range. intros Hc. rewrite negb_true_iff, !orb_false_iff in Hc.
  destruct Hc as [[Hr _] Hn%bool_decide_eq_false].
  rewrite !not_elem_of_cons in Hn. destruct Hn as (Hn1&Hn2&Hn3&Hn4&Hn5&_).
  unfold ws_tail. rewrite Hr.
  apply N.eqb_neq in Hn1, Hn2, Hn3, Hn4, Hn5. rewrite Hn1, Hn2, Hn3, Hn4, Hn5. simpl.
  by destruct s as [|? [|]].
Qed.
Lemma plain_trim s : plain s = true → trim s = s.
Proof.
  intros Hs. unfold trim, trim_start. rewrite trim_start_fuel_stop.
  - induction s as [|c s IH]; [done|]. simpl in Hs. apply andb_true_iff in Hs as [Hc Hs].
    assert (is_blank (String c s) = false) as Hb.
    { unfold is_blank, trim_start. by rewrite trim_start_fuel_stop by (by apply plain_not_ws). }
    cbn [trim_end]. by rewrite Hb, IH.
  - destruct s as [|c s]; [done|]. simpl in Hs. apply andb_true_iff in Hs as [Hc _]. by apply plain_not_ws.
Qed.
Lemma digits_pretty (n : N) : str_all is_ascii_digit (pretty n) = true.
Proof.
  unfold pretty, pretty_N. case_decide; [done|]. clear. assert (str_all is_ascii_digit "" = true) as Hs by done.
  revert Hs. generalize "" as s. induction (N.lt_wf_0 n) as [n _ IH]. intros s Hs.
  destruct (decide (n = 0)%N) as [->|Hn]; [done|]. rewrite pretty_N_go_step by lia.
  apply IH; [apply N.div_lt; lia|]. simpl. rewrite Hs, andb_true_r. apply pretty_digit, N.mod_lt. lia.
Qed.
Lemma parse_u64_pretty n : (0 < n <= u64_max)%N → parse_u64 (pretty n) = Some n.
Proof.
  intros [Hn Hmax]. unfold parse_u64, parse_digits.
  pose proof (digits_value_pretty n 0 "" Hn eq_refl) as Hv. unfold pretty, pretty_N.
  rewrite decide_False by lia. destruct (pretty_N_go n "") eqn:Hp; [simpl in Hv; simplify_eq; lia|].
  rewrite Hv. simpl. by apply N.leb_le in Hmax as ->.
Qed.

Lemma ends_with_app s suffix : ends_with suffix (s +:+ suffix) = true.
Proof.
  induction s as [|c s IH].
  - change ("" +:+ suffix) with suffix. destruct suffix as [|c suffix]; [done|]. cbn [ends_with]. by rewrite bool_decide_true.
  - change (String c s +:+ suffix) with (String c (s +:+ suffix)). cbn [ends_with]. by rewrite IH, orb_true_r.
Qed.
Lemma strip_suffix_app s suffix : strip_suffix suffix (s +:+ suffix) = Some s.
Proof.
  unfold strip_suffix. rewrite ends_with_app. f_equal. rewrite str_length_app, Nat.add_sub.
  induction s as [|c s IH]; simpl; [by destruct suffix|]. by rewrite IH.
Qed.
Lemma strip_suffix_digits a suffix digits rest :
  str_all is_ascii_digit digits = true → is_ascii_digit a = false →
  ends_with (String a suffix) rest = false → strip_suffix (String a suffix) (digits +:+ rest) = None.
Proof.
  intros Hd Ha Hr. unfold strip_suffix. cut (ends_with (String a suffix) (digits +:+ rest) = false); [by intros ->|].
  induction digits as [|c digits IH]; [done|]. simpl in *. apply andb_true_iff in Hd as [Hc Hd].
  rewrite (IH Hd), orb_false_r. apply bool_decide_false. intros [= -> _]. congruence.
Qed.
Lemma parse_count_pretty n ms :
  (0 < n)%N → (n * ms <= u64_max)%N → (0 < ms)%N →
  parse_count (pretty n) ms = Ok (n * ms * MILLISECOND)%N.
Proof.
  intros Hn Hmax Hms. unfold parse_count. rewrite digits_pretty, orb_false_r, bool_decide_false.
  2:{ pose proof (parse_u64_pretty n) as Hp. intros He. rewrite He in Hp. discriminate Hp. nia. }
  rewrite parse_u64_pretty by nia. simpl. rewrite (proj2 (N.eqb_neq n 0)) by lia.
  by rewrite (proj2 (N.ltb_ge _ _)) by done.
Qed.

(** A duration is read back from its count and unit, for every unit and
    every count that is not zero and whose milliseconds fit a [u64]. *)
Theorem duration_literal_roundtrip unit ms n :
  (unit, ms) ∈ duration_units → (0 < n)%N → (n * ms <= u64_max)%N →
  parse_duration_literal (pretty n +:+ unit) = Ok (n * ms * MILLISECOND)%N.
Proof.
  intros Hunit Hn Hmax. pose proof (digits_pretty n) as Hdigits.
  assert (plain unit = true ∧ unit ≠ "" ∧ (0 < ms)%N) as (Hplain & Hne & Hms).
  { unfold duration_units in Hunit. repeat (apply elem_of_cons in Hunit as [[= -> ->]|Hunit]; [done|]).
    by apply elem_of_nil in Hunit. }
  unfold parse_duration_literal. rewrite plain_trim by (by rewrite plain_app, plain_pretty_N).
  rewrite bool_decide_false by (by destruct (pretty n), unit).
  assert (parse_units duration_units (pretty n +:+ unit) = parse_count (pretty n) ms) as ->;
    [|by apply parse_count_pretty].
  unfold duration_units in Hunit |- *.
  repeat (apply elem_of_cons in Hunit as [[= -> ->]|Hunit];
    [cbn [parse_units]; rewrite ?strip_suffix_digits by done; by rewrite strip_suffix_app|]).
  by apply elem_of_nil in Hunit.
Qed.

(** Durations in whole milliseconds of a [u64]. *)
Definition duration_ok (d : N) : Prop := (0 < d <= u64_max * MILLISECOND)%N.
Lemma parse_units_bounds units value d :
  (∀ suffix ms, (suffix, ms) ∈ units → (0 < ms)%N) → parse_units units value = Ok d → duration_ok d.
Proof.
  intros Hunits. induction units as [|[suffix ms] units IH]; [done|]. cbn [parse_units].
  destruct (strip_suffix suffix value) as [number|].
  - intros Hcount. assert (0 < ms)%N as Hms by (apply (Hunits suffix); left).
    unfold parse_count in Hcount. case_match; [done|]. destruct (parse_u64 number) as [count|]; [|done].
    simpl in Hcount. case_match eqn:Hc; [done|]. case_match eqn:Hm; [done|]. simplify_eq.
    apply N.eqb_neq in Hc. apply N.ltb_ge in Hm. unfold duration_ok, MILLISECOND. nia.
  - apply IH. intros. eapply Hunits. by right.
Qed.
Lemma parse_duration_bounds raw d : parse_duration_literal raw = Ok d → duration_ok d.
Proof.
  unfold parse_duration_literal. case_match; [done|]. apply parse_units_bounds.
  intros suffix ms Hin. unfold duration_units in Hin.
  repeat (apply elem_of_cons in Hin as [[= -> ->]|Hin]; [done|]). by apply elem_of_nil in Hin.
Qed.
