(* ===== verification/Configured.v ===== *)
(** * What the workflow configuration guarantees

    A parser that notes no problem gives a value, and a good one; so a rejected
    configuration comes with its problems, an accepted one is well formed, and
    the orchestrator takes it unless the name of a state is blank. *)

From S2P Require Import Prelude Wire Core Text Effects Files Containment Claims Ports Scheduling Trust.
From S2P Require Import Sandbox RunnerSpec Client TaskLists Orchestrator TurnFacts Auth WorkflowConfig Literals.
Import Retry Shards.

(** ** A logic for the parsers *)

Section problems.
Context {W : Type}.

(** Problems are only added. *)
Definition keeps_problems {A} (c : PM (W := W) A) : Prop := ∀ s, s.1 `prefix_of` (c s).2.1.
(** If no problem is added, a value there is good. *)
Definition gives {A} (c : PM (W := W) A) (Q : A → Prop) : Prop :=
  keeps_problems c ∧ ∀ s, (c s).2.1 = s.1 → ∀ a, (c s).1 = Ok a → Q a.
(** If no problem is added, there is a value. *)
Definition parses {A} (c : PM (W := W) A) (Q : A → Prop) : Prop :=
  gives c Q ∧ ∀ s, (c s).2.1 = s.1 → ∀ e, (c s).1 ≠ Err e.

Lemma noted_one (l : list string) message : l ++ [message] ≠ l.
Proof. intros Heq. apply (f_equal length) in Heq. rewrite length_app in Heq. simpl in Heq. lia. Qed.

Lemma parses_gives {A} (c : PM A) Q : parses c Q → gives c Q.
Proof. by intros []. Qed.
Lemma gives_keeps {A} (c : PM A) Q : gives c Q → keeps_problems c.
Proof. by intros []. Qed.
Lemma gives_weaken {A} (c : PM A) (Q R : A → Prop) : gives c Q → (∀ a, Q a → R a) → gives c R.
Proof. intros [Hk Hg] HR. split; [done|]. eauto. Qed.
Lemma parses_weaken {A} (c : PM A) (Q R : A → Prop) : parses c Q → (∀ a, Q a → R a) → parses c R.
Proof. intros [Hg He] HR. split; [by eapply gives_weaken|done]. Qed.

Lemma parses_ret {A} (a : A) (Q : A → Prop) : Q a → parses (mret a) Q.
Proof. intros HQ. split; [split|]; [by intros s|intros s _ b [= <-]; done|done]. Qed.
Lemma gives_none {A} (Q : A → Prop) : gives none Q.
Proof. split; [by intros s|by intros s ?]. Qed.
Lemma parses_problem message (Q : unit → Prop) : parses (problem message) Q.
Proof.
  split; [split|]; [intros s; by exists [message]|..]; intros s Heq; by apply noted_one in Heq.
Qed.

(** What is run with the parser's problems keeps them and yields nothing new:
    the one rule of sequence, for both judgements. *)
Lemma keeps_problems_bind {A B} (c : PM A) (f : A → PM B) :
  keeps_problems c → (∀ a, keeps_problems (f a)) → keeps_problems (c ≫= f).
Proof.
  intros Hc Hf s. unfold mbind, Run_bind. specialize (Hc s). destruct (c s) as [[a|e] s1]; [|done].
  etrans; [exact Hc|apply Hf].
Qed.
Lemma bind_quiet {A B} (c : PM A) (f : A → PM B) s :
  keeps_problems c → (∀ a, keeps_problems (f a)) → ((c ≫= f) s).2.1 = s.1 →
  (c s).2.1 = s.1 ∧
  match (c s).1 with
  | Ok a => (f a (c s).2).2.1 = (c s).2.1 ∧ (c ≫= f) s = f a (c s).2
  | Err e => ((c ≫= f) s).1 = Err e
  end.
Proof.
  intros Hc Hf. unfold mbind, Run_bind. specialize (Hc s).
  destruct (c s) as [[a|e] s1]; simpl in *; [|done]. intros Heq.
  assert (s1.1 = s.1) as H1; [|by rewrite H1].
  apply (anti_symm prefix); [|done]. rewrite <- Heq. apply Hf.
Qed.
Lemma gives_bind {A B} (c : PM A) (f : A → PM B) Q R :
  gives c Q → (∀ a, keeps_problems (f a)) → (∀ a, Q a → gives (f a) R) → gives (c ≫= f) R.
Proof.
  intros [Hk Hc] Hkf Hf. split; [by apply keeps_problems_bind|]. intros s Hquiet b Hb.
  destruct (bind_quiet c f s Hk Hkf Hquiet) as [H1 H2]. destruct ((c s).1) as [a|e] eqn:Ha; [|congruence].
  destruct H2 as [H2 H3]. rewrite H3 in Hb. by eapply (Hf a (Hc _ H1 _ Ha)).
Qed.
Lemma parses_bind {A B} (c : PM A) (f : A → PM B) Q R :
  parses c Q → (∀ a, keeps_problems (f a)) → (∀ a, Q a → parses (f a) R) → parses (c ≫= f) R.
Proof.
  intros [Hg He] Hkf Hf. split; [eapply gives_bind; [done|done|intros a Ha; by apply Hf]|].
  intros s Hquiet e. destruct (bind_quiet c f s (gives_keeps _ _ Hg) Hkf Hquiet) as [H1 H2].
  destruct ((c s).1) as [a|e'] eqn:Ha; [|by eapply He in H1].
  destruct H2 as [H2 H3]. rewrite H3. by apply (Hf a (proj2 Hg _ H1 _ Ha)).
Qed.
Lemma parses_refuse {A} message (Q : A → Prop) : parses (refuse message) Q.
Proof. split; [split|]; [intros s; by exists [message]|..]; intros s Heq; by apply noted_one in Heq. Qed.

(** An [Option] as a value. *)
Lemma optional_run {A} (c : PM (W := W) A) s :
  optional c s = (Ok (match (c s).1 with Ok a => Some a | Err _ => None end), (c s).2).
Proof. unfold optional, catch, mbind, Run_bind. by destruct (c s) as [[a|e] s1]. Qed.
Lemma parses_optional {A} (c : PM A) (Q : A → Prop) :
  gives c Q → parses (optional c) (λ o, ∀ a, o = Some a → Q a).
Proof.
  intros [Hk Hc]. split; [split|]; intros s; rewrite optional_run; cbn [fst snd]; [apply Hk| |done].
  intros Hquiet o [= <-] a Ha. destruct ((c s).1) as [a'|e] eqn:Hr; [|done]. simplify_eq. eauto.
Qed.
Lemma parses_part {A} (c : PM A) (Q : A → Prop) :
  parses c Q → parses (optional c) (λ o, ∃ a, o = Some a ∧ Q a).
Proof.
  intros [[Hk Hc] He]. split; [split|]; intros s; rewrite optional_run; cbn [fst snd]; [apply Hk| |done].
  intros Hquiet o [= <-]. destruct ((c s).1) as [a'|e] eqn:Hr; [eauto|by eapply He in Hquiet].
Qed.
Lemma beside_run {A E} (c : Run W E A) s : beside c s = (Ok (c s.2).1, (s.1, (c s.2).2)).
Proof. unfold beside. by destruct (c s.2). Qed.
Lemma parses_beside {A E} (c : Run W E A) : parses (beside c) (λ _, True).
Proof. split; [split|]; intros s; by rewrite beside_run. Qed.
Lemma parses_need {A} (o : option A) (Q : A → Prop) : (∃ a, o = Some a ∧ Q a) → parses (need o) Q.
Proof. intros (a & -> & HQ). split; [split|]; [by intros s|intros s _ b [= <-]; done|done]. Qed.
Lemma keeps_need {A} (o : option A) : keeps_problems (need o).
Proof. by intros s; destruct o. Qed.
Lemma keeps_optional {A} (c : PM A) : keeps_problems c → keeps_problems (optional c).
Proof. intros Hk s. rewrite optional_run. apply Hk. Qed.
End problems.

Create HintDb problems.
#[export] Hint Resolve parses_ret parses_refuse parses_problem gives_none parses_beside parses_need
  keeps_need I : problems.
#[export] Hint Resolve gives_keeps parses_gives | 8 : problems.

(** Problems are kept along a parser. *)
Ltac keeps_step :=
  match goal with
  | |- ∀ _, _ => intros ?
  | |- keeps_problems (_ ≫= _) => apply keeps_problems_bind
  | |- keeps_problems (optional _) => apply keeps_optional
  | |- keeps_problems (match ?x with _ => _ end) => destruct x
  | |- keeps_problems (if ?b then _ else _) => destruct b
  end.
Ltac keeps := repeat first [solve [eauto 4 with problems] | keeps_step].
#[export] Hint Extern 2 (keeps_problems (mret _)) => (by intros ?) : problems.
#[export] Hint Extern 2 (keeps_problems none) => (by intros ?) : problems.
#[export] Hint Extern 2 (keeps_problems (refuse _)) =>
  (apply gives_keeps with (λ _, True), parses_gives, parses_refuse) : problems.
#[export] Hint Extern 2 (keeps_problems (problem _)) =>
  (apply gives_keeps with (λ _, True), parses_gives, parses_problem) : problems.
#[export] Hint Extern 2 (keeps_problems (beside _)) =>
  (apply gives_keeps with (λ _, True), parses_gives, parses_beside) : problems.

(** The next value of a parser, by what is known of it; the rest keeps the
    problems. *)
Tactic Notation "next_as" uconstr(Q) ident(a) ident(Ha) := eapply (parses_bind _ _ Q); [|keeps|intros a Ha].
Tactic Notation "next" ident(a) ident(Ha) := eapply parses_bind; [solve [eauto 4 with problems]|keeps|intros a Ha].

(** ** The helpers *)

Section helpers.
Context `{J : Json} `{JT : !JsonTree} {W : Type} `{HE : !HostEnv W} `{DS : !DebugStr}.
Implicit Types (map root : gmap string Value) (p : string).

Definition at_least (min n : N) : Prop := (min <= n)%N.
Definition u32_at_least (min n : N) : Prop := (min <= n <= u32_max)%N.
Definition usize_at_least (min n : N) : Prop := (min <= n <= u64_max)%N.
(** Trimmed and not empty. *)
Definition trimmed (s : string) : Prop := ∃ raw, s = trim raw ∧ s ≠ "".

Lemma parses_required_object root key :
  parses (W := W) (required_object root key) (λ map, ∃ v, root !! key = Some v ∧ as_object v = Some map).
Proof.
  unfold required_object, as_object. destruct (root !! key) as [v|] eqn:Hv; [|auto with problems].
  destruct (json_view v) eqn:Hj; auto with problems. apply parses_ret. eexists. by rewrite Hj.
Qed.
Lemma parses_required_string map p : parses (W := W) (required_string map p) filled.
Proof.
  unfold required_string. destruct (map !! _) as [v|]; [|auto with problems].
  destruct (json_view v); auto with problems. destruct (is_blank s) eqn:Hs; auto with problems.
Qed.
Lemma gives_optional_string map p :
  gives (W := W) (optional_string map p) (λ s, as_text <$> map !! leaf_key p = Some (Some s)).
Proof.
  unfold optional_string, as_text. destruct (map !! _) as [v|]; [|auto with problems].
  apply parses_gives. destruct (json_view v) eqn:Hv; auto with problems. apply parses_ret.
  simpl. by rewrite Hv.
Qed.
Lemma parses_optional_string map p :
  is_Some (map !! leaf_key p) → parses (W := W) (optional_string map p) (λ _, True).
Proof.
  unfold optional_string. intros [v ->]. destruct (json_view v); auto with problems.
Qed.
Lemma gives_optional_non_empty_string map p :
  gives (W := W) (optional_non_empty_string map p) filled.
Proof.
  unfold optional_non_empty_string. eapply gives_bind; [apply gives_optional_string|keeps|].
  intros s _. apply parses_gives. destruct (is_blank s) eqn:Hs; auto with problems.
Qed.
Lemma gives_optional_bool map p :
  gives (W := W) (optional_bool map p) (λ b, json_view <$> map !! leaf_key p = Some (JvBool b)).
Proof.
  unfold optional_bool. destruct (map !! _) as [v|]; [|auto with problems]. apply parses_gives.
  destruct (json_view v) eqn:Hv; auto with problems. apply parses_ret. simpl. by rewrite Hv.
Qed.
Lemma parses_optional_bool map p :
  is_Some (map !! leaf_key p) → parses (W := W) (optional_bool map p) (λ _, True).
Proof. unfold optional_bool. intros [v ->]. destruct (json_view v); auto with problems. Qed.

Lemma parses_number_at_least p min value :
  parses (W := W) (number_at_least p min value) (at_least min).
Proof.
  unfold number_at_least. destruct (as_u64 value); [|auto with problems].
  destruct (N.leb_spec min n); [|auto with problems]. by apply parses_ret.
Qed.
#[local] Hint Resolve parses_number_at_least : problems.
Lemma parses_required_u64 map p min : parses (W := W) (required_u64 map p min) (at_least min).
Proof. unfold required_u64. destruct (map !! _); auto with problems. Qed.
Lemma gives_optional_u64 map p min : gives (W := W) (optional_u64 map p min) (at_least min).
Proof. unfold optional_u64. destruct (map !! _); auto with problems. Qed.
Lemma parses_fit_u32 p min value :
  at_least min value → parses (W := W) (fit_u32 p value) (u32_at_least min).
Proof.
  unfold fit_u32, at_least. intros H. case_match eqn:Hn; [apply N.leb_le in Hn|auto with problems].
  by apply parses_ret.
Qed.
Lemma parses_fit_usize p min value :
  at_least min value → parses (W := W) (fit_usize p value) (usize_at_least min).
Proof.
  unfold fit_usize, at_least. intros H. case_match eqn:Hn; [apply N.leb_le in Hn|auto with problems].
  by apply parses_ret.
Qed.
Lemma keeps_fit_u32 p value : keeps_problems (W := W) (fit_u32 p value).
Proof. unfold fit_u32. keeps. Qed.
Lemma keeps_fit_usize p value : keeps_problems (W := W) (fit_usize p value).
Proof. unfold fit_usize. keeps. Qed.
#[local] Hint Resolve parses_required_u64 gives_optional_u64 parses_fit_u32 parses_fit_usize
  keeps_fit_u32 keeps_fit_usize : problems.
Lemma parses_required_u32 map p min : parses (W := W) (required_u32 map p min) (u32_at_least min).
Proof. unfold required_u32. next n Hn. auto with problems. Qed.
Lemma parses_required_usize map p min : parses (W := W) (required_usize map p min) (usize_at_least min).
Proof. unfold required_usize. next n Hn. auto with problems. Qed.
Lemma gives_optional_u32 map p min : gives (W := W) (optional_u32 map p min) (u32_at_least min).
Proof.
  unfold optional_u32. eapply gives_bind; [auto with problems|keeps|]. auto with problems.
Qed.
Lemma gives_optional_usize map p min : gives (W := W) (optional_usize map p min) (usize_at_least min).
Proof.
  unfold optional_usize. eapply gives_bind; [auto with problems|keeps|]. auto with problems.
Qed.
End helpers.
#[export] Hint Resolve parses_required_object parses_required_string gives_optional_string
  gives_optional_non_empty_string gives_optional_bool parses_required_u64 gives_optional_u64
  parses_required_u32 parses_required_usize gives_optional_u32 gives_optional_usize
  parses_number_at_least parses_fit_usize keeps_fit_usize : problems.

Section lists.
Context `{J : Json} `{JT : !JsonTree} {W : Type} `{HE : !HostEnv W} `{DS : !DebugStr}.
Implicit Types (map root : gmap string Value) (p : string).

Lemma parses_usize_entry p min k value :
  parses (W := W) (usize_entry p min k value) (λ n, filled k ∧ usize_at_least min n).
Proof.
  unfold usize_entry. destruct (is_blank k) eqn:Hk; [auto with problems|]. next n Hn.
  eapply parses_weaken; [by apply parses_fit_usize|done].
Qed.
Lemma parses_usize_entries p min entries found :
  map_Forall (λ k n, filled k ∧ usize_at_least min n) found →
  parses (W := W) (usize_entries p min entries found) (map_Forall (λ k n, filled k ∧ usize_at_least min n)).
Proof.
  assert (∀ entries found, keeps_problems (W := W) (usize_entries p min entries found)) as Hkeeps.
  { induction entries0 as [|[k v] rest IH]; intros found'; cbn [usize_entries]; [keeps|].
    apply keeps_problems_bind; [|intros ?; apply IH]. eapply keeps_optional, gives_keeps, parses_gives, parses_usize_entry. }
  revert found. induction entries as [|[k v] rest IH]; intros found Hfound; cbn [usize_entries];
    [auto with problems|].
  eapply parses_bind; [apply parses_part, parses_usize_entry|intros ?; apply Hkeeps|].
  intros o (n & -> & Hn). apply IH. by apply map_Forall_insert_2.
Qed.
Lemma parses_required_usize_map map p min :
  parses (W := W) (required_usize_map map p min) (map_Forall (λ k n, filled k ∧ usize_at_least min n)).
Proof.
  unfold required_usize_map. repeat case_match; auto with problems.
  apply parses_usize_entries, map_Forall_empty.
Qed.

Section checked.
Context {A : Type} (check : string → Value → PM (W := W) A) (Q : A → Prop).
Hypothesis Hcheck : ∀ at_index value, parses (check at_index value) Q.
Lemma keeps_checked_each p i values : keeps_problems (checked_each check p i values).
Proof.
  revert i. induction values as [|value values IH]; intros i; cbn [checked_each]; [keeps|].
  assert (keeps_problems (check (indexed p i) value)) by (eapply gives_keeps, parses_gives, Hcheck).
  apply keeps_problems_bind; [by apply keeps_optional|intros ?]. apply keeps_problems_bind; [apply IH|keeps].
Qed.
Lemma parses_checked_each p i values : parses (checked_each check p i values) (Forall Q).
Proof.
  revert i. induction values as [|value values IH]; intros i; cbn [checked_each]; [auto with problems|].
  eapply parses_bind; [apply parses_part, Hcheck|intros ?; apply keeps_problems_bind; [apply keeps_checked_each|keeps]|].
  intros o (a & -> & Ha). eapply parses_bind; [apply IH|keeps|]. auto with problems.
Qed.
Lemma parses_checked_list map key p what : parses (checked_list check map key p what) (Forall Q).
Proof.
  unfold checked_list. repeat case_match; auto with problems. apply parses_checked_each.
Qed.
End checked.

Lemma parses_checked_string at_index value : parses (W := W) (checked_string at_index value) trimmed.
Proof.
  unfold checked_string. destruct (as_text value) as [raw|]; [|auto with problems].
  case_bool_decide; [auto with problems|]. apply parses_ret. by exists raw.
Qed.
Lemma parses_checked_agent at_index value : parses (W := W) (checked_agent at_index value) filled.
Proof.
  unfold checked_agent. destruct (as_text value) as [raw|]; [|auto with problems].
  unfold new_agent_id. destruct (is_blank raw) eqn:Hraw; auto with problems.
Qed.
Lemma parses_string_list map p : parses (W := W) (optional_string_list_checked map p) (Forall trimmed).
Proof. apply parses_checked_list, parses_checked_string. Qed.
Lemma parses_root_string_list map p : parses (W := W) (optional_root_string_list map p) (Forall trimmed).
Proof. apply parses_checked_list, parses_checked_string. Qed.
Lemma parses_agent_list map p : parses (W := W) (optional_agent_list map p) (Forall filled).
Proof. apply parses_checked_list, parses_checked_agent. Qed.
Lemma optional_string_list_nonempty map p l : optional_string_list map p = Some l → l ≠ [].
Proof.
  unfold optional_string_list. intros H. repeat (apply bind_Some in H as (? & _ & H)).
  case_match; congruence.
Qed.
End lists.
#[export] Hint Resolve parses_required_usize_map parses_string_list parses_root_string_list
  parses_agent_list : problems.

(** ** The blocks *)

Record tracker_ok (t : TrackerConfig) : Prop := {
  to_kind : tc_kind t = "x0x_crdt";
  to_list : filled (tc_list_id t);
  to_group : ∀ g, tc_group t = Some g → filled g;
  to_active : tc_active_states t ≠ [];
  to_terminal : tc_terminal_states t ≠ [];
  to_policy : ∀ policy, tc_v2_store_policy t = Some policy → policy ∈ ["append_only"; "signed"]
}.
Record agent_ok (a : AgentConfig) : Prop := {
  ao_global : usize_at_least 1 (ag_max_concurrent_agents a);
  ao_by_state : map_Forall (λ k n, filled k ∧ usize_at_least 1 n) (ag_max_concurrent_agents_by_state a);
  ao_turns : u32_at_least 1 (ag_max_turns a);
  ao_backoff : (1 <= ag_max_retry_backoff_ms a)%N
}.
(** The operator has acknowledged what [auto] does. *)
Definition auto_acked `{J : Json} `{JT : !JsonTree} (root : gmap string Value) : Prop :=
  ∃ v security, root !! "security" = Some v ∧ as_object v = Some security ∧
    json_view <$> security !! "network_dispatch_auto_ack" = Some (JvBool true).
Definition security_ok `{J : Json} `{JT : !JsonTree} (root : gmap string Value) (s : SecurityConfig) : Prop :=
  duration_ok (sec_approval_ttl s) ∧ (sec_network_dispatch s = PolicyAuto → auto_acked root).
Definition retention_ok (r : RetentionConfig) : Prop :=
  u32_at_least 1 (ret_proofs_days r) ∧ (60 <= ret_reap_interval_secs r)%N.
Definition sharding_ok (s : ShardingConfig) : Prop :=
  Forall filled (shc_workers s) ∧ usize_at_least 1 (shc_replication_factor s).
Definition workers_ok (w : WorkersConfig) : Prop :=
  (1 <= wkc_ttl_seconds w)%N ∧ Forall trimmed (wkc_capabilities w) ∧
  Forall trimmed (wkc_sandbox_levels w) ∧ Forall trimmed (wkc_runner_presets w).
Definition hooks_ok (h : LifecycleHooks) : Prop := u32_at_least 1 (lh_timeout_ms h).

Section blocks.
Context `{J : Json} `{JT : !JsonTree} {W : Type} `{HE : !HostEnv W} `{DS : !DebugStr}.
Implicit Types (map root : gmap string Value).
#[local] Hint Resolve parses_optional : problems.

Lemma parses_optional_block {A} root key (absent : A) (parse : gmap string Value → PM (W := W) A) Q :
  Q absent → (∀ v map, root !! key = Some v → as_object v = Some map → parses (parse map) Q) →
  parses (optional_block root key absent parse) Q.
Proof. intros Ha Hp. unfold optional_block. repeat case_match; eauto with problems. Qed.

Lemma parses_normalized_kind raw_kind :
  parses (W := W) (match normalize_tracker_kind raw_kind with
          | Some kind => mret kind
          | None =>
              if bool_decide (raw_kind ∈ ["git_issues"; "git_jsonl"])
              then refuse "tracker.kind `git_issues` was removed in M3; use `x0x_crdt`"
              else refuse "tracker.kind must be `x0x_crdt` (aliases: `crdt`, `x0x`)"
          end) (λ kind, kind = "x0x_crdt").
Proof.
  unfold normalize_tracker_kind. case_bool_decide; [auto with problems|]. case_match; auto with problems.
Qed.

Lemma parses_parse_tracker root : parses (W := W) (parse_tracker root) tracker_ok.
Proof.
  unfold parse_tracker. next tracker Ht. next raw_kind Hraw.
  eapply parses_bind; [apply parses_normalized_kind|keeps|intros kind Hkind].
  next legacy Hlegacy.
  next_as (λ o : option string, ∀ a, o = Some a → filled a) list_id Hlist.
  { destruct legacy as [l|]; [auto with problems|]. next path Hpath.
    next_as (λ _ : unit, True) u Hu; [case_match; auto with problems|auto with problems]. }
  next group Hgroup.
  next_as (λ _ : unit, is_Some list_id) u Hsome.
  { case_bool_decide; [auto with problems|]. apply parses_ret. by apply not_eq_None_Some. }
  next policy Hpolicy.
  next_as (λ _ : unit, ∀ p, policy = Some p → p ∈ ["append_only"; "signed"]) u' Hin.
  { destruct policy as [p|]; [case_bool_decide|]; auto with problems; apply parses_ret; naive_solver. }
  next_as filled l Hl.
  { destruct Hsome as [l ->]. apply parses_need. eauto. }
  apply parses_ret. split; simpl; auto; unfold default;
    destruct (optional_string_list _ _) eqn:Hs; eauto using optional_string_list_nonempty; done.
Qed.
Lemma parses_parse_polling root : parses (W := W) (parse_polling root) (at_least 1).
Proof. unfold parse_polling. next polling Hp. auto with problems. Qed.
Lemma parses_parse_workspace root : parses (W := W) (parse_workspace root) (λ _, True).
Proof.
  unfold parse_workspace. next workspace Hw. next root_value Hr. next expanded He.
  destruct expanded; auto with problems.
Qed.
Lemma parses_parse_hooks root : parses (W := W) (parse_hooks root) hooks_ok.
Proof.
  unfold parse_hooks. next hooks Hh. next timeout Ht. next a Ha. next b Hb. next c Hc. next d Hd.
  by apply parses_ret.
Qed.
Lemma parses_parse_agent root : parses (W := W) (parse_agent root) agent_ok.
Proof.
  unfold parse_agent. next agent Ha. next n Hn. next by_state Hb. next turns Ht. next backoff Hm.
  by apply parses_ret.
Qed.

Lemma parses_policy security : parses (W := W) (parse_network_dispatch_policy security) (λ _, True).
Proof.
  unfold parse_network_dispatch_policy. case_bool_decide; [|case_bool_decide; [|auto with problems]].
  - next_as (λ _ : string, True) raw Hr; [by apply parses_optional_string|]. case_match; auto with problems.
  - next_as (λ _ : bool, True) enabled He; [by apply parses_optional_bool|]. auto with problems.
Qed.
Lemma parses_duration map p absent :
  duration_ok absent → parses (W := W) (parse_optional_duration map p absent) duration_ok.
Proof.
  intros Ha. unfold parse_optional_duration. case_bool_decide; simpl; [|auto with problems].
  next_as (λ _ : string, True) raw Hr; [by apply parses_optional_string|].
  destruct (parse_duration_literal raw) eqn:Hd; [|auto with problems].
  apply parses_ret. by eapply parse_duration_bounds.
Qed.
Lemma default_ttl_ok : duration_ok default_approval_ttl.
Proof. by vm_compute. Qed.
#[local] Hint Resolve parses_policy parses_duration default_ttl_ok : problems.

Lemma parses_parse_security root : parses (W := W) (parse_security root) (security_ok root).
Proof.
  apply parses_optional_block; [by split; [apply default_ttl_ok|]|]. intros v security Hv Ho.
  unfold parse_security_block. next raw Hr.
  next_as (λ _ : TrustLevel, True) required_trust Htrust; [repeat case_match; auto with problems|].
  next policy Hp.
  next_as (λ _ : unit, policy = PolicyAuto → auto_acked root) u Hack.
  { case_bool_decide; [|by apply parses_ret]. next ack Hack. case_bool_decide as Hne; [auto with problems|].
    apply parses_ret. intros _. exists v, security. split_and!; [done..|].
    by apply Hack. }
  next ttl Httl. next url Hurl. by apply parses_ret.
Qed.
Lemma parses_parse_retention root : parses (W := W) (parse_retention root) retention_ok.
Proof.
  apply parses_optional_block; [by vm_compute|]. intros v retention Hv Ho.
  next days Hd. next secs Hs. apply parses_ret.
  split; simpl; [destruct days|destruct secs]; simpl; [by apply Hd|by vm_compute|by apply Hs|by vm_compute].
Qed.
Lemma parses_parse_signing root : parses (W := W) (parse_signing root) (λ s, filled (sgc_x0xd_url s)).
Proof.
  apply parses_optional_block; [by vm_compute|]. intros v signing Hv Ho. unfold parse_signing_block.
  next raw Hr. next_as (λ _ : SigningPolicy, True) policy Hp; [repeat case_match; auto with problems|].
  next url Hu. next_as filled x0xd_url Hx; [|by apply parses_ret].
  destruct url as [url|]; [destruct (is_blank url) eqn:Hb|]; auto with problems.
  apply parses_ret. by vm_compute.
Qed.
Lemma parses_parse_sharding root : parses (W := W) (parse_sharding root) sharding_ok.
Proof.
  apply parses_optional_block; [by vm_compute|]. intros v sharding Hv Ho.
  next workers Hw. next factor Hf. apply parses_ret. split; [done|]. simpl.
  destruct factor; simpl; [by apply Hf|by vm_compute].
Qed.
Lemma parses_parse_workers root : parses (W := W) (parse_workers root) workers_ok.
Proof.
  apply parses_optional_block; [by unfold workers_ok; simpl; split_and!; [lia|constructor..]|].
  intros v workers Hv Ho.
  next enabled He. next ttl Ht. next caps Hc. next levels Hl. next presets Hp. apply parses_ret.
  unfold workers_ok. simpl. split_and!; [|done..]. destruct ttl; simpl; [by apply Ht|lia].
Qed.
Lemma parses_parse_runner root : parses (W := W) (parse_runner root) (λ v, root !! "runner" = Some v).
Proof.
  unfold parse_runner. next_as (λ _ : gmap string Value, is_Some (root !! "runner")) runner Hr.
  { eapply parses_weaken; [apply parses_required_object|naive_solver]. }
  eapply parses_bind; [apply parses_part, parses_required_string|keeps|]. intros o (kind & -> & Hkind).
  next_as (λ _ : unit, True) u Hu; [case_match; auto with problems|].
  next_as (λ _ : string, True) k Hk; [apply parses_need; eauto|]. apply parses_need. destruct Hr; eauto.
Qed.
End blocks.

(** ** The whole file *)

Record config_ok `{J : Json} `{JT : !JsonTree} (root : gmap string Value) (c : WorkflowConfig) : Prop := {
  co_tracker : tracker_ok (wc_tracker c);
  co_polling : (1 <= wc_polling_interval_ms c)%N;
  co_hooks : hooks_ok (wc_hooks c);
  co_validation : Forall trimmed (wc_validation c);
  co_agent : agent_ok (wc_agent c);
  co_security : security_ok root (wc_security c);
  co_pairing : sec_network_dispatch (wc_security c) = PolicyApprove →
    sgc_policy (wc_signing c) = SigningRequired;
  co_retention : retention_ok (wc_retention c);
  co_signing : filled (sgc_x0xd_url (wc_signing c));
  co_sharding : sharding_ok (wc_sharding c);
  co_workers : workers_ok (wc_workers c);
  co_runner : root !! "runner" = Some (wc_runner c)
}.

Section whole.
Context `{J : Json} `{JT : !JsonTree} {W : Type} `{HE : !HostEnv W} `{DS : !DebugStr} `{RC : !RunnerCodec}.
Implicit Types (root : gmap string Value) (w : W).

Lemma parses_pairing security signing explicit_security :
  parses (W := W) (validate_dispatch_signing_pairing security signing explicit_security)
    (λ _, sec_network_dispatch security = PolicyApprove → sgc_policy signing = SigningRequired).
Proof.
  unfold validate_dispatch_signing_pairing.
  destruct (sgc_policy signing), (sec_network_dispatch security); try (by apply parses_ret).
  next_as (λ _ : unit, False) u Hu; [auto with problems|done].
Qed.

(** A block of the file that is there and good. *)
Tactic Notation "block" ident(a) ident(Ha) :=
  eapply parses_bind; [apply parses_part; solve [eauto 2 with problems]|keeps|intros ? (a & -> & Ha)].

#[local] Hint Extern 1 (keeps_problems (optional _)) => (apply keeps_optional) : problems.
#[local] Hint Resolve parses_parse_tracker parses_parse_polling parses_parse_workspace parses_parse_hooks
  parses_parse_agent parses_parse_security parses_parse_retention parses_parse_signing
  parses_parse_sharding parses_parse_workers parses_parse_runner parses_root_string_list
  parses_pairing : problems.

Lemma parses_parse_parts root :
  parses (W := W) (parse_parts root)
    (λ parts, ∀ raw prompt, ∃ c, assemble raw prompt parts = Ok c ∧ config_ok root c).
Proof.
  unfold parse_parts, parse_validation.
  next_as (λ _ : unit, True) u Hu; [unfold reject_legacy_codex_block; case_match; auto with problems|].
  block tracker Ht. block polling Hp.
  block workspace Hws. block hooks Hh.
  block validation Hv. block agent Ha.
  block security Hs. block retention Hr.
  block signing Hsg.
  eapply parses_bind; [apply parses_pairing|keeps|intros warnings Hpair].
  block sharding Hsh. block workers Hwk.
  block runner Hrn.
  apply parses_ret. intros raw prompt. eexists. split; [reflexivity|]. by split.
Qed.

Lemma resolve_runner_run raw problems w :
  resolve_runner raw (problems, w) =
    if bool_decide (problems = []) then
      match from_workflow_config raw w with
      | (Ok _, w1) => (Ok (), (problems, w1))
      | (Err error, w1) => (Ok (), (problems ++ ["runner block does not resolve: " +:+ show_runner error], w1))
      end
    else (Ok (), (problems, w)).
Proof.
  unfold resolve_runner, beside. destruct problems as [|p ps]; [|done].
  unfold mbind, Run_bind. simpl. by destruct (from_workflow_config raw w) as [[spec|error] w1].
Qed.

(** The parts, and the problems noted with them. *)
Definition checked_parts (raw : Value) root : PM (W := W) Parts :=
  parts ← parse_parts root; _ ← resolve_runner raw; mret parts.

Lemma checked_parts_spec raw root w :
  match checked_parts raw root ([], w) with
  | (Ok parts, ([], _)) =>
      (∀ prompt, ∃ c, assemble raw prompt parts = Ok c ∧ config_ok root c) ∧
      ∃ w0 spec w1, from_workflow_config raw w0 = (Ok spec, w1)
  | (Err _, ([], _)) => False
  | (_, (_ :: _, _)) => True
  end.
Proof.
  unfold checked_parts. destruct (parses_parse_parts root) as [[Hk Hg] He].
  specialize (Hk ([], w)). specialize (Hg ([], w)). specialize (He ([], w)).
  unfold mbind, Run_bind. destruct (parse_parts root ([], w)) as [[parts|e] [problems w1]]; simpl in *.
  - rewrite resolve_runner_run. case_bool_decide as Hp; [subst|by destruct problems].
    destruct (from_workflow_config raw w1) as [[spec|error] w2] eqn:Hrun; simpl; [|done].
    split; [|by eauto]. intros prompt. by apply Hg.
  - destruct problems; [|done]. by eapply He.
Qed.

Lemma from_raw_run raw prompt root w :
  as_object raw = Some root →
  from_raw raw prompt w =
    match checked_parts raw root ([], w) with
    | (Ok parts, ([], w1)) => (assemble raw prompt parts, w1)
    | (_, (problems, w1)) => (Err (CfInvalid problems), w1)
    end.
Proof.
  intros Hroot. unfold from_raw, checked_parts. rewrite Hroot.
  destruct ((parts ← parse_parts root; _ ← resolve_runner raw; mret parts) ([], w))
    as [[parts|e] [[|p ps] w1]]; done.
Qed.

(** ** Acceptance *)

(** A workflow file is refused exactly when a problem was noted, and with
    all the problems: the internal gap of the validation is never reached. *)
Theorem rejected_with_reasons raw prompt root w :
  as_object raw = Some root →
  let '(_, (problems, w1)) := checked_parts raw root ([], w) in
  if bool_decide (problems = []) then ∃ c, from_raw raw prompt w = (Ok c, w1)
  else from_raw raw prompt w = (Err (CfInvalid problems), w1).
Proof.
  intros Hroot. rewrite (from_raw_run _ _ _ _ Hroot). pose proof (checked_parts_spec raw root w) as Hspec.
  destruct (checked_parts raw root ([], w)) as [[parts|e] [[|p ps] w1]]; [|done|done|done]. simpl.
  destruct Hspec as [Hc _]. destruct (Hc prompt) as (c & -> & _). by exists c.
Qed.

Lemma from_raw_accepts raw prompt w c w1 :
  from_raw raw prompt w = (Ok c, w1) →
  (∃ root, as_object raw = Some root ∧ config_ok root c) ∧
  ∃ w0 spec w2, from_workflow_config raw w0 = (Ok spec, w2).
Proof.
  intros Hrun. destruct (as_object raw) as [root|] eqn:Hroot;
    [|unfold from_raw in Hrun; by rewrite Hroot in Hrun].
  rewrite (from_raw_run _ _ _ _ Hroot) in Hrun. pose proof (checked_parts_spec raw root w) as Hspec.
  destruct (checked_parts raw root ([], w)) as [[parts|e] [[|p ps] w2]]; simplify_eq.
  destruct Hspec as [Hc Hrunner]. destruct (Hc prompt) as (c' & Hc' & Hok). split; [|done].
  exists root. split; [done|]. congruence.
Qed.
(** C30 An accepted workflow file is well formed: the tracker is the CRDT one
    with a list that is named, states to dispatch and a known store policy;
    every limit is at least one and fits its type; nothing is dispatched for
    approval without signatures, nor automatically without the operator's
    acknowledgement; and the runner block resolves. *)
Theorem accepted_well_formed raw prompt w c w1 :
  from_raw raw prompt w = (Ok c, w1) →
  (∃ root, as_object raw = Some root ∧ config_ok root c) ∧
  ∃ w0 spec w2, from_workflow_config raw w0 = (Ok spec, w2).
Proof. apply from_raw_accepts. Qed.
End whole.

(** ** The orchestrator's configuration *)

(** A state as it is compared: trimmed, in lower case. *)
Definition normal_state (s : string) : string := to_ascii_lowercase (trim s).

(** The cap of a state: the one written under a name of the state; of several
    names of one state, the last in the order of the file's sorted map. *)
Definition cap_of (caps : gmap string N) (state : string) (cap : N) : Prop :=
  ∃ name, caps !! name = Some cap ∧ normal_state name = state ∧
    ∀ other, is_Some (caps !! other) → normal_state other = state → ord_le other name.

(** The configuration the daemon runs with, field by field from the accepted
    workflow; durations are nanoseconds.  The directory of the proofs is the
    only field that is left open (the daemon sets it). *)
Record runs_with `{J : Json} (c : WorkflowConfig) (agent_id : string) (oc : Config) : Prop := {
  rw_agent : cf_agent_id oc = agent_id;
  (* states *)
  rw_active : cf_active_states oc = normal_state <$> tc_active_states (wc_tracker c);
  rw_some_active : cf_active_states oc ≠ [];
  rw_terminal : cf_terminal_states oc = normal_state <$> tc_terminal_states (wc_tracker c);
  (* limits *)
  rw_global : cf_global_concurrency oc = ag_max_concurrent_agents (wc_agent c);
  rw_not_zero : (1 <= cf_global_concurrency oc)%N;
  rw_caps : ∀ state cap, cf_per_state_concurrency oc !! state = Some cap ↔
    cap_of (ag_max_concurrent_agents_by_state (wc_agent c)) state cap;
  rw_per_state : map_Forall (λ _ cap, 1 <= cap)%N (cf_per_state_concurrency oc);
  rw_attempts : max_attempts (cf_retry oc) = ag_max_turns (wc_agent c);
  rw_base : base (cf_retry oc) = 5000000000%N;
  rw_backoff : max (cf_retry oc) = (ag_max_retry_backoff_ms (wc_agent c) * 1000000)%N;
  rw_polling : cf_polling_interval oc = (wc_polling_interval_ms c * 1000000)%N;
  rw_claim_ttl : cf_claim_ttl oc = 1800000000000%Z;
  rw_grace : cf_shutdown_grace oc = 60000000000%N;
  (* policies *)
  rw_policy : cf_network_dispatch oc = sec_network_dispatch (wc_security c);
  rw_trust : cf_required_trust oc = sec_required_trust (wc_security c);
  rw_ttl : cf_approval_ttl oc = sec_approval_ttl (wc_security c) ∧ duration_ok (cf_approval_ttl oc);
  rw_webhook : cf_approval_webhook_url oc = sec_approval_webhook_url (wc_security c);
  rw_retention : rt_proofs_days (cf_retention oc) = ret_proofs_days (wc_retention c) ∧
    rt_reap_interval (cf_retention oc) = (ret_reap_interval_secs (wc_retention c) * 1000000000)%N;
  (* what runs around a turn *)
  rw_hooks : cf_hooks oc = wc_hooks c;
  rw_validation : cf_validation_commands oc = wc_validation c
}.

Section daemon.
Context `{J : Json} `{JT : !JsonTree}.

Lemma caps_positive pairs (caps : gmap string N) :
  map_Forall (λ _ cap, 1 <= cap)%N caps → Forall (λ p : string * N, (1 <= p.2)%N) pairs →
  map_Forall (λ _ cap, 1 <= cap)%N
    (foldl (λ caps p, <[to_ascii_lowercase (trim p.1) := p.2]> caps) caps pairs).
Proof.
  intros Hcaps Hp. revert caps Hcaps. induction Hp as [|p l Hp _ IH]; intros caps Hcaps; [done|].
  simpl. apply IH. by apply map_Forall_insert_2.
Qed.

(** The caps collected from a list of pairs: the last pair of a state stands. *)
Lemma caps_last (pairs : list (string * N)) state cap :
  foldl (λ caps p, <[normal_state p.1 := p.2]> caps) (∅ : gmap string N) pairs !! state = Some cap ↔
  ∃ l1 name l2, pairs = l1 ++ (name, cap) :: l2 ∧ normal_state name = state ∧
    ∀ p, p ∈ l2 → normal_state p.1 ≠ state.
Proof.
  induction pairs as [|[k n] l IH] using rev_ind.
  { simpl. split; [by intros ?%lookup_empty_Some|]. by intros ([]&?&?&?&_). }
  rewrite foldl_app. simpl. destruct (decide (normal_state k = state)) as [<-|Hne].
  - rewrite lookup_insert_eq. split.
    + intros [= <-]. exists l, k, []. split_and!; [done..|]. by intros ? ?%elem_of_nil.
    + intros (l1&name&l2&Heq&_&Hl2). destruct l2 as [|p l2 _] using rev_ind.
      * apply app_inj_tail in Heq as [_ [= _ ->]]. done.
      * rewrite app_comm_cons, app_assoc in Heq. apply app_inj_tail in Heq as [_ <-].
        destruct (Hl2 (k, n)); [|done]. apply elem_of_app. right. by apply list_elem_of_singleton.
  - rewrite lookup_insert_ne by done. rewrite IH. split.
    + intros (l1&name&l2&->&Hn&Hl2). exists l1, name, (l2 ++ [(k, n)]). split_and!; [by rewrite <-app_assoc|done|].
      intros p [Hp|Hp%list_elem_of_singleton]%elem_of_app; [by apply Hl2|by subst p].
    + intros (l1&name&l2&Heq&Hn&Hl2). destruct l2 as [|p l2 _] using rev_ind.
      * apply app_inj_tail in Heq as [_ [= -> ->]]. done.
      * rewrite app_comm_cons, app_assoc in Heq. apply app_inj_tail in Heq as [-> <-].
        exists l1, name, l2. split_and!; [done..|]. intros q Hq. apply Hl2, elem_of_app. by left.
Qed.

Lemma caps_of_sorted (caps : gmap string N) state cap :
  foldl (λ caps p, <[normal_state p.1 := p.2]> caps) (∅ : gmap string N) (btree_iter caps) !! state
    = Some cap ↔ cap_of caps state cap.
Proof.
  rewrite caps_last. pose proof (btree_iter_sorted caps) as Hsort. pose proof (NoDup_btree_keys caps) as Hnd.
  split.
  - intros (l1&name&l2&Heq&Hn&Hl2). exists name. split_and!; [|done|].
    + apply elem_of_btree_iter. rewrite Heq. apply elem_of_app. right. apply elem_of_cons. by left.
    + intros other [n Hother%elem_of_btree_iter] Ho. rewrite Heq in Hother, Hsort.
      apply elem_of_app in Hother as [Hin|[[= -> _]|Hin]%elem_of_cons]; [|apply ord_le_refl|by apply Hl2 in Hin].
      apply StronglySorted_app_1_elem_of with (x1 := (other, n)) (x2 := (name, cap)) in Hsort; [done|done|].
      apply elem_of_cons. by left.
  - intros (name&Hname&Hn&Hlast). apply elem_of_btree_iter, list_elem_of_split in Hname as (l1&l2&Heq).
    exists l1, name, l2. split_and!; [done..|]. intros [k n] Hk Hs.
    assert (Hle : ord_le k name).
    { apply Hlast; [|done]. exists n. apply elem_of_btree_iter. rewrite Heq. apply elem_of_app. right.
      apply elem_of_cons. by right. }
    rewrite Heq in Hsort, Hnd. apply StronglySorted_app_1_r, StronglySorted_inv in Hsort as [_ Hge].
    rewrite Forall_forall in Hge. specialize (Hge _ Hk).
    rewrite fmap_app in Hnd. apply NoDup_app in Hnd as (_&_&Hnd). apply NoDup_cons in Hnd as [Hnd _].
    apply Hnd. rewrite (anti_symm ord_le name k Hge Hle). by apply (list_elem_of_fmap_2 fst) in Hk.
Qed.

(** The configuration the daemon runs with, or why there is none. *)
Lemma orchestrator_config_exact root c agent_id :
  config_ok root c →
  match to_orchestrator_config c agent_id with
  | Ok oc =>
      Forall filled (tc_active_states (wc_tracker c) ++ tc_terminal_states (wc_tracker c)) ∧
      runs_with c agent_id oc
  | Err e =>
      ¬ Forall filled (tc_active_states (wc_tracker c) ++ tc_terminal_states (wc_tracker c)) ∧
      e = CfCore (Validation "issue.state" "must not be empty")
  end.
Proof.
  intros Hok. pose proof (co_agent _ _ Hok) as [Hglobal Hstates Hturns _].
  unfold to_orchestrator_config.
  destruct (decide (Forall filled (tc_active_states (wc_tracker c)))) as [Ha|Ha];
    [rewrite states_from_filled by done|rewrite states_from_blank by done; simpl; rewrite Forall_app; naive_solver].
  destruct (decide (Forall filled (tc_terminal_states (wc_tracker c)))) as [Ht|Ht];
    [rewrite (states_from_filled _ Ht)|rewrite (states_from_blank _ Ht); simpl; rewrite Forall_app; naive_solver].
  assert (Hpairs : ∀ p, p ∈ btree_iter (ag_max_concurrent_agents_by_state (wc_agent c)) →
    filled p.1 ∧ usize_at_least 1 p.2).
  { intros [k n] Hin%elem_of_btree_iter. by apply Hstates in Hin. }
  rewrite caps_from_filled by (apply Forall_forall; intros p Hp; by apply Hpairs).
  simpl. rewrite Forall_app. split; [done|]. destruct Hglobal, Hturns.
  pose proof (co_security _ _ Hok) as Hsec. split; simpl; try done; try lia.
  - intros Hnil%fmap_nil_inv. by apply (to_active _ (co_tracker _ _ Hok)).
  - intros state cap. apply caps_of_sorted.
  - apply caps_positive; [apply map_Forall_empty|]. apply Forall_forall. intros p Hp. by apply Hpairs.
  - split; [done|]. apply Hsec.
Qed.

(** C31 The daemon takes an accepted workflow unless the name of a state is
    blank, which the validation does not look at; what it then runs with is
    the workflow's, field by field: its states in normal form, its limits (none
    of them zero; the cap of a state is the one written under a name of that
    state, the last in map order if there are several), its retry, polling and
    retention times, its policies, hooks and validation commands, with the
    built-in base delay, claim lifetime and shutdown grace. *)
Theorem daemon_takes_accepted root c agent_id :
  config_ok root c →
  match to_orchestrator_config c agent_id with
  | Ok oc =>
      Forall filled (tc_active_states (wc_tracker c) ++ tc_terminal_states (wc_tracker c)) ∧
      runs_with c agent_id oc
  | Err e =>
      ¬ Forall filled (tc_active_states (wc_tracker c) ++ tc_terminal_states (wc_tracker c)) ∧
      e = CfCore (Validation "issue.state" "must not be empty")
  end.
Proof. apply orchestrator_config_exact. Qed.
End daemon.
