(* ===== verification/Api.v ===== *)
(** * The REST API of the daemon (api.rs)

    The router's table, the authentication in front of it, and every handler
    over the tracker, the signing service, the worker view and the proofs on
    disk.  Axum's path matching and extractors are an interface. *)

From S2P Require Import Prelude Wire Identity Core Text Effects Files Store Claims Approvals Ports.
From S2P Require Import Scheduling Proofs Workers Trust Orchestrator Auth WorkflowConfig.
Import Retry Reconcile.

Definition AUTH_ERROR : string := "missing or invalid Authorization: Bearer token".
Definition HEARTBEAT_SECS : N := 3.

(** ** Errors *)

(** [api::Error]; a socket address as its text. *)
Inductive ApiError :=
  | AeIo (p : path) (source : IoError)
  | AeTracker (message : string)
  | AeBadRequest (message : string)
  | AeNotFound (what : string)
  | AeConflict (message : string)
  | AeServiceUnavailable (message : string)
  | AeSigning (message : string)
  | AeNonLoopbackBind (addr : string)
  | AeInvalidBind (value source : string).

Definition show_api (e : ApiError) : string :=
  match e with
  | AeIo p source => "I/O error at " +:+ p +:+ ": " +:+ io_text source
  | AeTracker message => "tracker error: " +:+ message
  | AeBadRequest message => "bad request: " +:+ message
  | AeNotFound what => "proof not found: " +:+ what
  | AeConflict message => "conflict: " +:+ message
  | AeServiceUnavailable message => "service unavailable: " +:+ message
  | AeSigning message => "signing error: " +:+ message
  | AeNonLoopbackBind addr => "bind address must be loopback; got " +:+ addr
  | AeInvalidBind value source => "invalid bind address " +:+ value +:+ ": " +:+ source
  end.

(** The status of [Error::into_response]. *)
Definition error_status (e : ApiError) : N :=
  match e with
  | AeNotFound _ => 404
  | AeConflict _ => 409
  | AeServiceUnavailable _ => 503
  | AeBadRequest _ | AeInvalidBind _ _ | AeNonLoopbackBind _ => 400
  | AeIo _ _ | AeTracker _ | AeSigning _ => 500
  end.

(** ** Rows *)

Record Task := {
  ta_id : string;
  ta_identifier : string;
  ta_title : string;
  ta_state : string;
  ta_priority : option N;
  ta_labels : list string;
  ta_claim_by : option string;
  ta_verification_notices : list VerificationNotice
}.
Record ClaimInfo := {
  ci_id : string; ci_identifier : string; ci_state : string; ci_by : string; ci_heartbeat_at : string
}.
Record Status := {
  st_agent_id : string;
  st_counts : gmap string N;
  st_active_claims : list ClaimInfo;
  st_orchestrator_attached : bool
}.
Record WorkersReply := {
  wr_workers : list WorkerCard; wr_view_epoch : N; wr_note : option string
}.
Record ApprovalSummary := { as_events : nat; as_consumed : nat; as_has_deny : bool }.
Inductive PendingApprovalProvenance :=
  | PendingVerified (signer_agent_id : string)
  | PendingInvalid (reason : string)
  | PendingTransportError (reason : string).
Record PendingApproval := {
  pa_issue_id : string;
  pa_title : string;
  pa_state : string;
  pa_content_hash : string;
  pa_signer_agent_id : string;
  pa_provenance : option PendingApprovalProvenance;
  pa_approval_summary : ApprovalSummary
}.
Record HandoffRequest := { hq_message : string; hq_file : option string }.
Record SubmitApprovalRequest := {
  sq_verdict : ApprovalVerdict;
  sq_expected_content_hash : option string;
  sq_expected_signer_agent_id : option string
}.

(** A notice of the event bus: its kind, and its data, a text or the object of
    texts that is sent as JSON. *)
Inductive NoticeData := NoticeText (s : string) | NoticeObject (fields : gmap string string).
Record EventNotice := { en_kind : string; en_data : NoticeData }.

Class EventBus (W : Type) := { eb_send : EventNotice → W → unit * W }.

(** [AppState]; of the tracker, the signing client and the worker view, which
    are interfaces of the world, whether there is one. *)
Record AppState (W : Type) := {
  st_proofs_dir : path;
  st_agent : string;
  st_orchestrator : bool;
  st_api_token : string;
  st_signing_client : bool;
  st_worker_discovery : option (W → WorkerViewSnapshot * W);
  st_approval_ttl : N
}.
Arguments st_proofs_dir {W}. Arguments st_agent {W}. Arguments st_orchestrator {W}.
Arguments st_api_token {W}. Arguments st_signing_client {W}.
Arguments st_worker_discovery {W}. Arguments st_approval_ttl {W}.

(** [AppState::new]. *)
Definition new_state {W} (agent api_token : string) (orchestrator : bool) : AppState W := {|
  st_proofs_dir := "proofs"; st_agent := agent; st_orchestrator := orchestrator;
  st_api_token := api_token; st_signing_client := false; st_worker_discovery := None;
  st_approval_ttl := 24 * 3600 * SECOND |}.

(** ** Requests *)

(** What the middleware and the handlers look at; a header is its first value,
    as far as it is visible ASCII. *)
Record Request := {
  rq_method : string;
  rq_path : string;
  rq_query : option string;
  rq_authorization : option string;
  rq_accept : option string;
  rq_body : bytes
}.

Section authentication.
Context `{X : Extern}.

Definition bearer_header_matches (request : Request) (target : string) : bool :=
  match rq_authorization request ≫= strip_prefix "Bearer " with
  | Some token => constant_time_eq token target
  | None => false
  end.

Definition query_token_matches (request : Request) (target : string) : bool :=
  if bool_decide (rq_path request ≠ "/symphony/events") then false
  else
    match rq_query request with
    | Some query =>
        existsb (λ token, constant_time_eq token target)
          (omap (strip_prefix "token=") (split_char "&" query))
    | None => false
    end.

(** Whether [auth_middleware] runs the rest. *)
Definition may_pass (request : Request) (api_token : string) : bool :=
  bool_decide (rq_method request = "OPTIONS") || bool_decide (rq_path request = "/health") ||
  bearer_header_matches request api_token || query_token_matches request api_token.
End authentication.

Definition accepts_json (request : Request) : bool :=
  match rq_accept request with
  | Some value => existsb (λ part, starts_with "application/json" (trim part)) (split_char "," value)
  | None => false
  end.

(** ** Paths of proofs *)

(** The parts of a relative path, put after the root one by one. *)
Fixpoint push_components (p : path) (parts : list Component) : result path ApiError :=
  match parts with
  | [] => Ok p
  | Normal part :: parts => push_components (join p part) parts
  | CurDir :: parts => push_components p parts
  | (ParentDir | RootDir) :: _ => Err (AeBadRequest "proof name must stay inside proofs directory")
  end.
Definition safe_proof_path (root : path) (name : string) : result path ApiError :=
  bail AeBadRequest "proof name must be relative" when is_absolute name;
  let? p := push_components root (components name) in
  bail AeBadRequest "proof name must not be empty" when same_path p root;
  Ok p.

Definition safe_proof_segment (label value : string) : result string ApiError :=
  bail AeBadRequest ("proof " +:+ label +:+ " must not be empty") when is_blank value;
  bail AeBadRequest ("proof " +:+ label +:+ " must be a single path segment")
    when contains_char SLASH value || contains_char "\" value;
  bail AeBadRequest ("proof " +:+ label +:+ " must be relative") when is_absolute value;
  match components value with
  | [Normal _] => Ok value
  | _ => Err (AeBadRequest ("proof " +:+ label +:+ " must stay inside proofs directory"))
  end.
Definition safe_proof_artifact_path (root : path) (issue_id ts file_name : string) : result path ApiError :=
  let? issue_id := safe_proof_segment "issue_id" issue_id in
  let? ts := safe_proof_segment "ts" ts in
  Ok (join (join (join root issue_id) ts) file_name).

(** ** Handlers *)

Section handlers.
Context `{X : Extern} `{J : Json} `{JT : !JsonTree} `{C : Chrono} `{V : ApprovalCodec}.
Context `{CF : ChronoFormat} {W T : Type} `{TX : !TrackerText T}.
Context `{TA : !TrackerApi W T} `{SA : !SigningApi W} `{M : !Machine W}.
Context `{F : !Fs W} `{LF : !LocalFiles W} `{EB : !EventBus W}.
Implicit Types (state : AppState W) (issue : Issue).

(** The run of a handler. *)
Definition Handling (A : Type) : Type := Run W ApiError A.

Definition tracker_error (e : SymphonyError T) : string := show_symphony tt_show e.
Definition tracked {A} (c : Run W (SymphonyError T) A) : Handling A :=
  mapping_err (λ e, AeTracker (tracker_error e)) c.
Definition now_utc : Handling string := t ← embed clock_now; mret (fmt_rfc3339_nanos t).

Definition notify_task_changed (id : string) : Handling unit :=
  embed (eb_send {| en_kind := "task_changed"; en_data := NoticeText id |}).
Definition approval_notice (event : ApprovalEvent) : EventNotice :=
  match av_verdict event with
  | V1Approve => {| en_kind := "approval_granted";
      en_data := NoticeObject {[ "issue_id" := av_issue_id event;
                                 "approver_agent_id" := av_approver_agent_id event;
                                 "content_hash" := av_content_hash event ]} |}
  | V1Deny => {| en_kind := "approval_denied";
      en_data := NoticeObject {[ "issue_id" := av_issue_id event;
                                 "approver_agent_id" := av_approver_agent_id event ]} |}
  end.
Definition notify_approval (event : ApprovalEvent) : Handling unit := embed (eb_send (approval_notice event)).

(** [IssueId::new] of a path's segment, and the issue with it. *)
Definition parse_issue_id (id : string) : Handling string :=
  lift_result (map_err (λ e, AeBadRequest (tracker_error e)) (new_issue_id id)).
Definition fetch_issue (issue_id id : string) : Handling Issue :=
  issues ← tracked (tk_fetch_by_ids [issue_id]);
  lift_result (ok_or (head issues) (AeNotFound id)).

(** *** Tasks and status *)

Definition task_from_issue (issue : Issue) : Task := {|
  ta_id := iss_id issue; ta_identifier := iss_identifier issue; ta_title := iss_title issue;
  ta_state := iss_state issue; ta_priority := iss_priority issue; ta_labels := iss_labels issue;
  ta_claim_by := cl_by <$> iss_claim issue;
  ta_verification_notices := iss_verification_notices issue |}.

Definition state_matches (state_filter : option string) issue : bool :=
  match state_filter with Some wanted => bool_decide (iss_state issue = wanted) | None => true end.
Definition tasks (state_filter : option string) : Handling (list Task) :=
  issues ← tracked tk_list_issues;
  let shown := filter (λ issue, state_matches state_filter issue = true) issues in
  mret (sort_by ta_id (task_from_issue <$> shown)).

Definition claim_info_from_issue (issue : Issue) (claim : Claim) : ClaimInfo := {|
  ci_id := iss_id issue; ci_identifier := iss_identifier issue; ci_state := iss_state issue;
  ci_by := cl_by claim; ci_heartbeat_at := cl_heartbeat_at claim |}.

(** One more issue of a state; a [usize] that saturates. *)
Definition count_state (counts : gmap string N) (issue : Issue) : gmap string N :=
  <[iss_state issue := sat_add64 (default 0%N (counts !! iss_state issue)) 1]> counts.
Definition status_from_issues state (issues : list Issue) : Status := {|
  st_agent_id := st_agent state; st_counts := foldl count_state ∅ issues;
  st_active_claims := sort_by ci_id
    (omap (λ issue, claim_info_from_issue issue <$> iss_claim issue) issues);
  st_orchestrator_attached := st_orchestrator state |}.
Definition status state : Handling Status :=
  issues ← tracked tk_list_issues; mret (status_from_issues state issues).

Definition workers state : Handling WorkersReply :=
  match st_worker_discovery state with
  | None => mret {| wr_workers := []; wr_view_epoch := 0;
                    wr_note := Some "worker discovery is not configured" |}
  | Some snapshot =>
      snapshot ← embed snapshot;
      mret {| wr_workers := sort_by wc_agent_id (vs_cards snapshot);
              wr_view_epoch := vs_view_epoch snapshot; wr_note := None |}
  end.

(** *** Issues *)

Definition create_issue (draft : IssueDraft) : Handling Issue :=
  issue ← tracked (tk_create_issue draft);
  _ ← notify_task_changed (iss_id issue);
  mret issue.

(** The claimed issue and its claimant. *)
Definition claim_issue state (id : string) : Handling (string * string) :=
  issue_id ← parse_issue_id id;
  claim ← tracked (tk_claim issue_id (st_agent state));
  _ ← notify_task_changed issue_id;
  mret (id, cl_by claim).

(** [Handoff::new] and [Handoff::with_file]. *)
Definition requested_handoff (request : HandoffRequest) : Handoff := {|
  ho_summary := hq_message request;
  ho_files_changed := match hq_file request with Some file => [file] | None => [] end;
  ho_validation := []; ho_follow_up := []; ho_proofs_dir := None; ho_issue_id := None;
  ho_signer_agent_id := None; ho_signature := None |}.
Definition handoff_issue (id : string) (request : HandoffRequest) : Handling (string * bool) :=
  if is_blank (hq_message request) then throw (AeBadRequest "handoff message must not be empty")
  else
    issue_id ← parse_issue_id id;
    issue ← fetch_issue issue_id id;
    claim ← lift_result (ok_or (iss_claim issue) (AeBadRequest ("issue " +:+ id +:+ " has no active claim")));
    _ ← tracked (tk_handoff claim (requested_handoff request));
    _ ← notify_task_changed issue_id;
    mret (id, true).

(** *** Approvals *)

Definition pending_provenance (p : SignatureProvenance) : PendingApprovalProvenance :=
  match p with
  | ProvenanceVerified signer_agent_id => PendingVerified signer_agent_id
  | ProvenanceInvalid reason => PendingInvalid reason
  | ProvenanceTransportError reason => PendingTransportError reason
  end.

Definition is_denial (event : ApprovalEvent) : bool := bool_decide (av_verdict event = V1Deny).
Definition approval_summary (approvals : ApprovalState) : ApprovalSummary := {|
  as_events := length (aps_events approvals); as_consumed := length (aps_consumed approvals);
  as_has_deny := existsb is_denial (aps_events approvals) |}.

Record TaskDetail := {
  td_issue : Issue;
  td_verification_notices : list VerificationNotice;
  td_signature_provenance : option PendingApprovalProvenance;
  td_approval_summary : ApprovalSummary
}.
Definition task_detail (id : string) : Handling TaskDetail :=
  issue_id ← parse_issue_id id;
  issue ← fetch_issue issue_id id;
  approvals ← tracked (tk_load_approval_state issue_id);
  mret {| td_issue := issue; td_verification_notices := iss_verification_notices issue;
          td_signature_provenance := pending_provenance <$> iss_signature_provenance issue;
          td_approval_summary := approval_summary approvals |}.

Definition blocked_reason_code issue : option string :=
  reason ← iss_extra issue !! "blocked_reason";
  reason ← as_object reason;
  code ← reason !! "code";
  as_text code.
Definition is_blocked_awaiting_approval issue : bool :=
  bool_decide (iss_state issue = "blocked") &&
  bool_decide (blocked_reason_code issue = Some "awaiting_approval").
Definition is_active_approval_state issue : bool :=
  bool_decide (iss_state issue ∈ ["todo"; "in_progress"]) || is_blocked_awaiting_approval issue.

Definition is_network_sourced issue : bool :=
  bool_decide (from_issue issue = NetworkSourced) ||
  bool_decide (is_Some (iss_signature_provenance issue)).

Definition verified_network_signer_for_pending issue : option string :=
  if negb (is_network_sourced issue) then None
  else
    match iss_signature_provenance issue with
    | Some (ProvenanceVerified signer_agent_id) =>
        if is_blank signer_agent_id then None
        else match new_agent_id (T := T) (trim signer_agent_id) with
             | Ok signer => Some signer
             | Err _ => None
             end
    | _ => None
    end.

Definition require_verified_network_signer issue : result string ApiError :=
  if negb (is_network_sourced issue)
  then Err (AeConflict "issue is not network-sourced; approval not applicable")
  else
    let lacks := AeConflict "network-sourced issue lacks verified ML-DSA-65 signature provenance" in
    match iss_signature_provenance issue with
    | Some (ProvenanceVerified signer_agent_id) =>
        if is_blank signer_agent_id then Err lacks
        else map_err (λ e, AeConflict (tracker_error e)) (new_agent_id (trim signer_agent_id))
    | None => Err lacks
    | Some (ProvenanceInvalid reason) =>
        Err (AeConflict ("network-sourced issue signature is invalid: " +:+ reason))
    | Some (ProvenanceTransportError reason) =>
        Err (AeConflict ("network-sourced issue signature verification transport failed: " +:+ reason))
    end.

Definition pending_approval_from_issue issue (signer : string) (approvals : ApprovalState)
    : PendingApproval := {|
  pa_issue_id := iss_id issue; pa_title := iss_title issue; pa_state := iss_state issue;
  pa_content_hash := content_hash issue; pa_signer_agent_id := signer;
  pa_provenance := pending_provenance <$> iss_signature_provenance issue;
  pa_approval_summary := approval_summary approvals |}.

(** Whether an issue with this decision is shown. *)
Definition surfaced (decision : ApprovalDecision) issue : bool :=
  bool_decide (decision = Pending) ||
  (bool_decide (decision = Approved) && is_blocked_awaiting_approval issue).

(** One issue of the scan: its row, if it has one. *)
Definition pending_row state (at_ : string) issue : Handling (option PendingApproval) :=
  if negb (is_active_approval_state issue) then mret None
  else
    match verified_network_signer_for_pending issue with
    | None => mret None
    | Some signer =>
        approvals ← tracked (tk_load_approval_state (iss_id issue));
        let decision := approval_decision (aps_events approvals) issue signer at_
                          (st_approval_ttl state) (aps_consumed approvals) in
        mret (if surfaced decision issue
              then Some (pending_approval_from_issue issue signer approvals) else None)
    end.
Fixpoint pending_rows state (at_ : string) (issues : list Issue) (pending : list PendingApproval)
    : Handling (list PendingApproval) :=
  match issues with
  | [] => mret pending
  | issue :: issues =>
      row ← pending_row state at_ issue;
      pending_rows state at_ issues (match row with Some row => pending ++ [row] | None => pending end)
  end.
Definition approvals_pending state : Handling (list PendingApproval) :=
  issues ← tracked tk_list_issues;
  at_ ← now_utc;
  pending ← pending_rows state at_ issues [];
  mret (sort_by pa_issue_id pending).

Definition sign_approval_event (event : ApprovalEvent) : Handling ApprovalEvent :=
  payload ← lift_result (map_err AeSigning (enc_v1_approval (unsigned event)));
  response ← mapping_err (λ e, AeSigning (show_signing_error e)) (sg_sign APPROVAL_CONTEXT payload);
  if bool_decide (sg_algorithm response ≠ SIGN_ALGORITHM) then
    throw (AeSigning ("sign response algorithm " +:+ sg_algorithm response +:+ " did not match " +:+
                      SIGN_ALGORITHM))
  else if bool_decide (sg_context response ≠ APPROVAL_CONTEXT) then
    throw (AeSigning ("sign response context " +:+ sg_context response +:+ " did not match " +:+
                      APPROVAL_CONTEXT))
  else if bool_decide (sg_agent_id response ≠ av_approver_agent_id event) then
    throw (AeSigning ("sign response agent " +:+ sg_agent_id response +:+ " did not match approver " +:+
                      av_approver_agent_id event))
  else mret {|
    av_issue_id := av_issue_id event; av_content_hash := av_content_hash event;
    av_signer_agent_id := av_signer_agent_id event; av_verdict := av_verdict event;
    av_approved_at := av_approved_at event; av_approver_agent_id := av_approver_agent_id event;
    av_claim_id := av_claim_id event;
    av_signature := Some {|
      se_algorithm := sg_algorithm response; se_context := sg_context response;
      se_public_key_b64 := sg_public_key_b64 response; se_signature_b64 := sg_signature_b64 response;
      se_payload_sha256 := sha256_hex payload; se_signer_agent_id := sg_agent_id response |} |}.

(** What the operator saw must be what is there. *)
Definition check_expected (expected : option string) (current : string) (message : string → string)
    : Handling unit :=
  match expected with
  | Some expected =>
      if bool_decide (expected ≠ current) then throw (AeConflict (message expected)) else mret ()
  | None => mret ()
  end.

(** [ApprovalEvent::approve] and [ApprovalEvent::deny]. *)
Definition new_approval_event (verdict : ApprovalVerdict) (issue_id content signer approved_at approver : string)
    : ApprovalEvent := {|
  av_issue_id := issue_id; av_content_hash := content; av_signer_agent_id := signer;
  av_verdict := verdict; av_approved_at := approved_at; av_approver_agent_id := approver;
  av_claim_id := None; av_signature := None |}.

(** An issue parked by the gate goes back to [todo]; that another call has
    already moved it is no error. *)
Definition requeue_approved (issue_id : string) : Handling unit :=
  requeued ← catch (tk_requeue_blocked issue_id
    {| rr_code := RcOther; rr_message := "approval granted; requeued for dispatch" |});
  match requeued with
  | Ok _ => mret ()
  | Err error =>
      refetched ← tracked (tk_fetch_by_ids [issue_id]);
      let still_parked := match head refetched with
                          | Some issue => is_blocked_awaiting_approval issue
                          | None => true
                          end in
      if still_parked then throw (AeTracker (tracker_error error)) else mret ()
  end.

Definition submit_approval state (id : string) (request : SubmitApprovalRequest)
    : Handling ApprovalEvent :=
  if negb (st_signing_client state) then throw (AeServiceUnavailable "approval signing not configured")
  else
    issue_id ← parse_issue_id id;
    issue ← fetch_issue issue_id id;
    let current_hash := content_hash issue in
    signer ← lift_result (require_verified_network_signer issue);
    _ ← check_expected (sq_expected_content_hash request) current_hash (λ expected,
      "issue payload changed: expected content hash " +:+ expected +:+ ", current " +:+ current_hash);
    _ ← check_expected (sq_expected_signer_agent_id request) signer (λ expected,
      "issue signer changed: expected " +:+ expected +:+ ", current " +:+ signer);
    approved_at ← now_utc;
    signed ← sign_approval_event (new_approval_event (sq_verdict request) issue_id current_hash signer
                                    approved_at (st_agent state));
    _ ← tracked (tk_store_approval signed);
    _ ← (if bool_decide (sq_verdict request = V1Approve) && is_blocked_awaiting_approval issue
         then requeue_approved issue_id else mret ());
    _ ← notify_approval signed;
    _ ← notify_task_changed issue_id;
    mret signed.

(** *** Proofs *)

Fixpoint entry_names (root : path) (entries : list (result string IoError)) : result (list string) ApiError :=
  match entries with
  | [] => Ok []
  | Ok name :: entries => let? names := entry_names root entries in Ok (from_utf8_lossy name :: names)
  | Err source :: _ => Err (AeIo root source)
  end.
Definition list_proofs state : Handling (list string) :=
  let root := st_proofs_dir state in
  entries ← catch (fs_read_dir root);
  match entries with
  | Ok entries => names ← lift_result (entry_names root entries); mret (sort_by id names)
  | Err source =>
      if bool_decide (io_kind source = IoNotFound) then mret [] else throw (AeIo root source)
  end.

Definition read_proof_to_string (p : path) (name : string) : Handling string :=
  mapping_err (λ source, if bool_decide (io_kind source = IoNotFound) then AeNotFound name
                         else AeIo p source) (lf_read_to_string p).

(** The name and the content of a proof. *)
Definition show_proof_by_name state (name : string) : Handling (string * string) :=
  p ← lift_result (safe_proof_path (st_proofs_dir state) name);
  content ← read_proof_to_string p name;
  mret (name, content).
Definition show_proof_fallback state (request : Request) : Handling (string * string) :=
  name ← lift_result (ok_or (strip_prefix "/symphony/proofs/" (rq_path request))
                        (AeNotFound (rq_path request)));
  show_proof_by_name state name.

(** An artefact: as JSON, or as it is with its content type. *)
Inductive Artefact :=
  | ArtefactJson (proof : string * string)
  | ArtefactText (content_type content : string).
Definition show_proof_artifact state (request : Request) (issue_id ts file_name content_type : string)
    : Handling Artefact :=
  p ← lift_result (safe_proof_artifact_path (st_proofs_dir state) issue_id ts file_name);
  let name := issue_id +:+ "/" +:+ ts +:+ "/" +:+ file_name in
  if accepts_json request then proof ← show_proof_by_name state name; mret (ArtefactJson proof)
  else content ← read_proof_to_string p name; mret (ArtefactText content_type content).
Definition show_proof_manifest state request issue_id ts :=
  show_proof_artifact state request issue_id ts "manifest.json" "application/json".
Definition show_proof_stdout state request issue_id ts :=
  show_proof_artifact state request issue_id ts "stdout.log" "text/plain; charset=utf-8".
Definition show_proof_stderr state request issue_id ts :=
  show_proof_artifact state request issue_id ts "stderr.log" "text/plain; charset=utf-8".

(** *** The event stream *)

(** What the stream wakes up for. *)
Inductive Wakeup := WokeNotice (notice : EventNotice) | WokeLagged | WokeClosed | WokeTick.
Definition sse_event (wakeup : Wakeup) : EventNotice :=
  match wakeup with
  | WokeNotice notice => notice
  | WokeLagged => {| en_kind := "heartbeat"; en_data := NoticeText "lagged" |}
  | WokeClosed => {| en_kind := "heartbeat"; en_data := NoticeText "closed" |}
  | WokeTick => {| en_kind := "heartbeat"; en_data := NoticeText "ok" |}
  end.

(** ** The router *)

Inductive Handler :=
  | HHealth | HTasks | HTaskDetail | HStatus | HWorkers | HEvents | HApprovalsPending
  | HSubmitApproval | HCreateIssue | HClaimIssue | HHandoffIssue | HRoutes | HListProofs
  | HProofManifest | HProofStdout | HProofStderr | HProofFallback.

(** The method, the path and the handler of each route; the nested router of
    the proofs answers any method on any other path below it. *)
Definition route_table : list (string * string * Handler) := [
  ("GET", "/health", HHealth);
  ("GET", "/symphony/tasks", HTasks);
  ("GET", "/symphony/tasks/{id}", HTaskDetail);
  ("GET", "/symphony/status", HStatus);
  ("GET", "/symphony/workers", HWorkers);
  ("GET", "/symphony/events", HEvents);
  ("GET", "/symphony/approvals/pending", HApprovalsPending);
  ("POST", "/symphony/approvals/{id}", HSubmitApproval);
  ("POST", "/symphony/issues", HCreateIssue);
  ("POST", "/symphony/claim/{id}", HClaimIssue);
  ("POST", "/symphony/handoff/{id}", HHandoffIssue);
  ("GET", "/symphony/routes", HRoutes);
  ("GET", "/symphony/proofs", HListProofs);
  ("GET", "/symphony/proofs/{issue_id}/{ts}/manifest.json", HProofManifest);
  ("GET", "/symphony/proofs/{issue_id}/{ts}/stdout.log", HProofStdout);
  ("GET", "/symphony/proofs/{issue_id}/{ts}/stderr.log", HProofStderr);
  ("*", "/symphony/proofs/{*name}", HProofFallback)].

Definition route_infos : list (string * string) := [
  ("GET", "/health");
  ("GET", "/symphony/approvals/pending");
  ("GET", "/symphony/events");
  ("GET", "/symphony/proofs");
  ("GET", "/symphony/proofs/{issue_id}/{ts}/manifest.json");
  ("GET", "/symphony/proofs/{issue_id}/{ts}/stdout.log");
  ("GET", "/symphony/proofs/{issue_id}/{ts}/stderr.log");
  ("GET", "/symphony/proofs/{*name}");
  ("GET", "/symphony/routes");
  ("GET", "/symphony/status");
  ("GET", "/symphony/tasks");
  ("GET", "/symphony/tasks/{id}");
  ("GET", "/symphony/workers");
  ("POST", "/symphony/approvals/{id}");
  ("POST", "/symphony/claim/{id}");
  ("POST", "/symphony/handoff/{id}");
  ("POST", "/symphony/issues")].

(** An answer of axum itself, for a request it does not hand on. *)
Record AxumAnswer := { ax_status : N; ax_text : string }.

(** The pattern, of some, that a path matches, with the decoded segments it
    captures; and the extractors of a query and of bodies. *)
Class Axum := {
  ax_match : list string → string → option (string * list string);
  ax_tasks_query : Request → result (option string) AxumAnswer;
  ax_issue_draft : Request → result IssueDraft AxumAnswer;
  ax_handoff_request : Request → result HandoffRequest AxumAnswer;
  ax_submit_request : Request → result SubmitApprovalRequest AxumAnswer
}.

Inductive Reply :=
  | ReplyHealth
  | ReplyTasks (tasks : list Task)
  | ReplyTask (detail : TaskDetail)
  | ReplyStatus (status : Status)
  | ReplyWorkers (workers : WorkersReply)
  | ReplyEvents
  | ReplyPending (pending : list PendingApproval)
  | ReplyApproval (event : ApprovalEvent)
  | ReplyIssue (issue : Issue)
  | ReplyClaim (id by_ : string)
  | ReplyHandoff (id : string) (recorded : bool)
  | ReplyRoutes (routes : list (string * string))
  | ReplyProofs (names : list string)
  | ReplyProof (name content : string)
  | ReplyArtefact (artefact : Artefact).

(** A reply with status 200, an error with its status, or axum's answer. *)
Inductive Response :=
  | Replied (reply : Reply)
  | Refused (status : N) (error : string)
  | NotHandled (rejection : AxumAnswer).

Context `{AX : Axum}.

Definition respond {A} (reply : A → Reply) (c : Handling A) : W → Response * W := λ w,
  match c w with
  | (Ok a, w) => (Replied (reply a), w)
  | (Err e, w) => (Refused (error_status e) (show_api e), w)
  end.
Definition extracted {A} (r : result A AxumAnswer) (f : A → W → Response * W) : W → Response * W :=
  match r with Ok a => f a | Err rejection => λ w, (NotHandled rejection, w) end.
Definition not_handled (status : N) (text : string) : W → Response * W :=
  λ w, (NotHandled {| ax_status := status; ax_text := text |}, w).

Definition call_handler state (handler : Handler) (params : list string) (request : Request)
    : W → Response * W :=
  match handler, params with
  | HHealth, _ => respond (λ _ : unit, ReplyHealth) (mret ())
  | HTasks, _ => extracted (ax_tasks_query request) (λ query, respond ReplyTasks (tasks query))
  | HTaskDetail, [id] => respond ReplyTask (task_detail id)
  | HStatus, _ => respond ReplyStatus (status state)
  | HWorkers, _ => respond ReplyWorkers (workers state)
  | HEvents, _ => respond (λ _ : unit, ReplyEvents) (mret ())
  | HApprovalsPending, _ => respond ReplyPending (approvals_pending state)
  | HSubmitApproval, [id] =>
      extracted (ax_submit_request request) (λ submit, respond ReplyApproval (submit_approval state id submit))
  | HCreateIssue, _ =>
      extracted (ax_issue_draft request) (λ draft, respond ReplyIssue (create_issue draft))
  | HClaimIssue, [id] => respond (λ p, ReplyClaim p.1 p.2) (claim_issue state id)
  | HHandoffIssue, [id] =>
      extracted (ax_handoff_request request) (λ handoff,
        respond (λ p, ReplyHandoff p.1 p.2) (handoff_issue id handoff))
  | HRoutes, _ => respond (λ _ : unit, ReplyRoutes route_infos) (mret ())
  | HListProofs, _ => respond ReplyProofs (list_proofs state)
  | HProofManifest, [issue_id; ts] => respond ReplyArtefact (show_proof_manifest state request issue_id ts)
  | HProofStdout, [issue_id; ts] => respond ReplyArtefact (show_proof_stdout state request issue_id ts)
  | HProofStderr, [issue_id; ts] => respond ReplyArtefact (show_proof_stderr state request issue_id ts)
  | HProofFallback, _ => respond (λ p, ReplyProof p.1 p.2) (show_proof_fallback state request)
  | _, _ => not_handled 500 "wrong number of path arguments"
  end.

(** A route for GET also answers HEAD. *)
Definition method_matches (route method : string) : bool :=
  bool_decide (route = "*") || bool_decide (route = method) ||
  (bool_decide (route = "GET") && bool_decide (method = "HEAD")).
Definition routed state (request : Request) : W → Response * W :=
  match ax_match (route_table.*1.*2) (rq_path request) with
  | None => not_handled 404 ""
  | Some (pattern, params) =>
      match List.find (λ r, bool_decide (r.1.2 = pattern) && method_matches r.1.1 (rq_method request))
              route_table with
      | Some (_, _, handler) => call_handler state handler params request
      | None => not_handled 405 ""
      end
  end.

(** [build_router] with its authentication layer. *)
Definition serve state (request : Request) : W → Response * W :=
  if may_pass request (st_api_token state) then routed state request
  else λ w, (Refused 401 AUTH_ERROR, w).
End handlers.
