(* ===== verification/Requests.v ===== *)
(** * What the API does for a request

    The interfaces of the handlers lifted to a world that keeps the calls they
    made, and a logic of runs over it: who is served, which files are read,
    what is stored when consent is given, and what is shown. *)

From S2P Require Import Prelude Wire Identity Core Text Effects Files Store Claims Approvals Ports.
From S2P Require Import Scheduling Proofs Workers Trust Orchestrator Auth WorkflowConfig Api.
Import Retry Reconcile.

(** ** Runs *)

(** From [P], an error ends in [R] and a value in [Q]. *)
Definition triple {S E A} (P : S → Prop) (c : Run S E A) (Q : A → S → Prop) (R : S → Prop) : Prop :=
  ∀ s, P s → match c s with (Ok a, s') => Q a s' | (Err _, s') => R s' end.

Section triples.
Context {S E : Type}.
Implicit Types (P R : S → Prop).

Lemma triple_ret {A} P (a : A) (Q : A → S → Prop) R : (∀ s, P s → Q a s) → triple (E := E) P (mret a) Q R.
Proof. intros HQ s Hs. by apply HQ. Qed.
Lemma triple_throw {A} P (e : E) (Q : A → S → Prop) R : (∀ s, P s → R s) → triple P (throw e) Q R.
Proof. intros HR s Hs. by apply HR. Qed.
Lemma triple_lift {A} P (r : result A E) (Q : A → S → Prop) R :
  (∀ a s, r = Ok a → P s → Q a s) → (∀ s, P s → R s) → triple P (lift_result r) Q R.
Proof. intros HQ HR s Hs. unfold lift_result. destruct r; auto. Qed.
Lemma triple_bind {A B} P (c : Run S E A) (f : A → Run S E B) Q Q' R :
  triple P c Q R → (∀ a, triple (Q a) (f a) Q' R) → triple P (c ≫= f) Q' R.
Proof.
  intros Hc Hf s Hs. unfold mbind, Run_bind. specialize (Hc s Hs).
  destruct (c s) as [[a|e] s1]; [by apply Hf|done].
Qed.
Lemma triple_mapping {A F} P (g : E → F) (c : Run S E A) Q R :
  triple P c Q R → triple P (mapping_err g c) Q R.
Proof. intros Hc s Hs. unfold mapping_err. specialize (Hc s Hs). by destruct (c s) as [[a|e] s1]. Qed.
Lemma triple_catch {A F} P (c : Run S E A) (Q : result A E → S → Prop) (R : S → Prop) :
  triple P c (λ a, Q (Ok a)) (λ s, ∀ e, Q (Err e) s) → triple (E := F) P (catch c) Q R.
Proof. intros Hc s Hs. unfold catch. specialize (Hc s Hs). by destruct (c s) as [[a|e] s1]. Qed.
Lemma triple_embed {A} P (c : S → A * S) (Q : A → S → Prop) R :
  (∀ s, P s → Q (c s).1 (c s).2) → triple (E := E) P (embed c) Q R.
Proof. intros HQ s Hs. unfold embed. specialize (HQ s Hs). by destruct (c s). Qed.
Lemma triple_weaken {A} P (c : Run S E A) (Q Q' : A → S → Prop) (R R' : S → Prop) :
  triple P c Q R → (∀ a s, Q a s → Q' a s) → (∀ s, R s → R' s) → triple P c Q' R'.
Proof. intros Hc HQ HR s Hs. specialize (Hc s Hs). destruct (c s) as [[a|e] s1]; auto. Qed.
Lemma ensures_triple {A} P (c : Run S E A) Φ : ensures P c Φ → triple P c (λ a s, P s ∧ Φ a) P.
Proof.
  intros Hc s Hs. destruct (Hc s Hs) as [Hs' Ha]. destruct (c s) as [[a|e] s1]; [|done]. split; [done|by apply Ha].
Qed.
End triples.

(** ** The calls of a handler *)

Section calls.
Context `{J : Json}.

Inductive ApiCall :=
  | CallCreate (draft : IssueDraft)
  | CallClaim (id agent_id : string)
  | CallHandoff (claim : Claim) (handoff : Handoff)
  | CallStore (event : ApprovalEvent) (done : bool)
  | CallRequeue (id : string)
  | CallSign (context : string) (payload : bytes)
  | CallRead (p : path)
  | CallList (p : path)
  | CallNotice (notice : EventNotice).

Definition logged (W : Type) : Type := W * list ApiCall.
Context {W T : Type}.

Definition silent {E A} (c : Run W E A) : Run (logged W) E A :=
  λ s, let '(r, w) := c s.1 in (r, (w, s.2)).
Definition logs {E A} (call : bool → ApiCall) (c : Run W E A) : Run (logged W) E A :=
  λ s, let '(r, w) := c s.1 in (r, (w, s.2 ++ [call (match r with Ok _ => true | Err _ => false end)])).
Definition silently {A} (c : W → A * W) : logged W → A * logged W :=
  λ s, let '(a, w) := c s.1 in (a, (w, s.2)).

#[export] Instance ApiTracker (A : TrackerApi W T) : TrackerApi (logged W) T := {|
  tk_list_issues := silent tk_list_issues;
  tk_create_issue draft := logs (λ _, CallCreate draft) (tk_create_issue draft);
  tk_fetch_candidates ctx := silent (tk_fetch_candidates ctx);
  tk_fetch_by_ids ids := silent (tk_fetch_by_ids ids);
  tk_claim id agent := logs (λ _, CallClaim id agent) (tk_claim id agent);
  tk_heartbeat claim := silent (tk_heartbeat claim);
  tk_release claim reason := silent (tk_release claim reason);
  tk_handoff claim handoff := logs (λ _, CallHandoff claim handoff) (tk_handoff claim handoff);
  tk_fetch_claimed agent := silent (tk_fetch_claimed agent);
  tk_block claim reason := silent (tk_block claim reason);
  tk_requeue_blocked id reason := logs (λ _, CallRequeue id) (tk_requeue_blocked id reason);
  tk_load_approval_state id := silent (tk_load_approval_state id);
  tk_store_approval e := logs (CallStore e) (tk_store_approval e);
  tk_store_consumed c := silent (tk_store_consumed c) |}.
#[export] Instance ApiSigning (A : SigningApi W) : SigningApi (logged W) := {|
  sg_sign context payload := logs (λ _, CallSign context payload) (sg_sign context payload);
  sg_verify context payload signature key := silent (sg_verify context payload signature key);
  kr_resolve who := silent (kr_resolve who) |}.
#[export] Instance ApiFs (A : Fs W) : Fs (logged W) := {|
  fs_canonicalize p := silent (fs_canonicalize p); fs_metadata p := silent (fs_metadata p);
  fs_symlink_metadata p := silent (fs_symlink_metadata p);
  fs_read_dir p := logs (λ _, CallList p) (fs_read_dir p);
  fs_create_dir m p := silent (fs_create_dir m p);
  fs_create_dir_all m p := silent (fs_create_dir_all m p);
  fs_set_permissions m p := silent (fs_set_permissions m p);
  fs_remove_dir_all p := silent (fs_remove_dir_all p); fs_rename p q := silent (fs_rename p q);
  fs_write p b := silent (fs_write p b); fs_append p b := silent (fs_append p b);
  fs_copy p q := silent (fs_copy p q) |}.
#[export] Instance ApiFiles (A : LocalFiles W) : LocalFiles (logged W) := {|
  lf_read_to_string p := logs (λ _, CallRead p) (lf_read_to_string p);
  lf_random_32 := silently lf_random_32 |}.
#[export] Instance ApiMachine (A : Machine W) : Machine (logged W) := {|
  clock_now := silently clock_now; instant_now := silently instant_now;
  env_var name := silently (env_var name) |}.
#[export] Instance ApiBus (A : EventBus W) : EventBus (logged W) := {|
  eb_send notice s := let '(u, w) := eb_send notice s.1 in (u, (w, s.2 ++ [CallNotice notice])) |}.

(** Every call made since [t0] is in [L]. *)
Definition within (L : ApiCall → Prop) (t0 : list ApiCall) (s : logged W) : Prop :=
  ∃ t, s.2 = t0 ++ t ∧ Forall L t.

Lemma within_silent {E A} L t0 (c : Run W E A) : ensures (within L t0) (silent c) (λ _, True).
Proof. intros s Hs. unfold silent. by destruct (c s.1). Qed.
Lemma within_logs {E A} (L : ApiCall → Prop) t0 (call : bool → ApiCall) (c : Run W E A) :
  (∀ b, L (call b)) → ensures (within L t0) (logs call c) (λ _, True).
Proof.
  intros HL s (t & Ht & Hf). unfold logs. destruct (c s.1) as [r w]. simpl. split; [|done].
  exists (t ++ [call (match r with Ok _ => true | Err _ => false end)]). simpl.
  rewrite Ht, (assoc_L (++)). split; [done|]. apply Forall_app. by repeat constructor.
Qed.
Lemma within_silently {E A} L t0 (c : W → A * W) : ensures (within L t0) (embed (E := E) (silently c)) (λ _, True).
Proof. apply ensures_embed. intros s Hs. unfold silently. by destruct (c s.1). Qed.
Lemma within_notice {E} `{EB : EventBus W} (L : ApiCall → Prop) t0 notice :
  L (CallNotice notice) → ensures (within L t0) (embed (E := E) (eb_send notice)) (λ _, True).
Proof.
  intros HL. apply ensures_embed. intros s (t & Ht & Hf). simpl. destruct (eb_send notice s.1) as [u w]. simpl.
  split; [|done]. exists (t ++ [CallNotice notice]). simpl. rewrite Ht, (assoc_L (++)). split; [done|].
  apply Forall_app. by repeat constructor.
Qed.
Lemma within_weaken (L L' : ApiCall → Prop) t0 s : (∀ call, L call → L' call) → within L t0 s → within L' t0 s.
Proof. intros HL (t & Ht & Hf). exists t. split; [done|]. by eapply Forall_impl. Qed.
End calls.

(** ** Who is served *)

Section serving.
Context `{X : Extern}.

(** A token in the header, or in the query of the event stream. *)
Definition presents (request : Request) (token : string) : Prop :=
  rq_authorization request = Some ("Bearer " +:+ token) ∨
  (rq_path request = "/symphony/events" ∧
   ∃ query, rq_query request = Some query ∧ ("token=" +:+ token) ∈ split_char "&" query).
Definition exempt (request : Request) : Prop :=
  rq_method request = "OPTIONS" ∨ rq_path request = "/health".

Lemma bearer_header_spec request key :
  bearer_header_matches request key = true ↔
  ∃ token, rq_authorization request = Some ("Bearer " +:+ token) ∧ sha256 token = sha256 key.
Proof.
  unfold bearer_header_matches, constant_time_eq. destruct (rq_authorization request) as [header|];
    cbn [mbind option_bind].
  - assert (∀ token, Some header = Some ("Bearer " +:+ token) ↔ strip_prefix "Bearer " header = Some token) as Hiff.
    { intros token. rewrite strip_prefix_Some. naive_solver. }
    setoid_rewrite Hiff. destruct (strip_prefix "Bearer " header) as [token|]; [|naive_solver].
    rewrite bool_decide_eq_true. naive_solver.
  - naive_solver.
Qed.
Lemma query_token_spec request key :
  query_token_matches request key = true ↔
  ∃ token, (rq_path request = "/symphony/events" ∧
    ∃ query, rq_query request = Some query ∧ ("token=" +:+ token) ∈ split_char "&" query) ∧
  sha256 token = sha256 key.
Proof.
  unfold query_token_matches, constant_time_eq. case_bool_decide as Hp; [naive_solver|].
  destruct (rq_query request) as [query|]; [|naive_solver].
  rewrite existsb_exists. split.
  - intros (token & (part & Hin & Hpart%strip_prefix_Some)%list_elem_of_In%list_elem_of_omap & Hsha).
    apply bool_decide_eq_true in Hsha. exists token. subst part. split; [|done]. split; [done|by eauto].
  - intros (token & (_ & query' & [= <-] & Hin) & Hsha). exists token. rewrite bool_decide_eq_true.
    split; [|done]. apply list_elem_of_In, list_elem_of_omap. eexists. split; [exact Hin|].
    by apply strip_prefix_Some.
Qed.
Lemma may_pass_spec request key :
  may_pass request key = true ↔
  exempt request ∨ ∃ token, presents request token ∧ sha256 token = sha256 key.
Proof.
  unfold may_pass, exempt, presents. rewrite !orb_true_iff, !bool_decide_eq_true, bearer_header_spec, query_token_spec.
  naive_solver.
Qed.
End serving.

(** ** Paths *)

Lemma split_char_parts sep s part : part ∈ split_char sep s → contains_char sep part = false.
Proof.
  revert part. induction s as [|c s IH]; intros part; simpl.
  - intros Hp%list_elem_of_singleton. by subst.
  - case_bool_decide as Hc.
    + intros [->|Hp]%elem_of_cons; [done|by apply IH].
    + destruct (split_char sep s) as [|p ps] eqn:Hs; [by apply split_char_not_nil in Hs|].
      intros [->|Hp]%elem_of_cons; [|by apply IH; right]. simpl. rewrite bool_decide_false by done.
      apply IH. left.
Qed.
Lemma component_plain part c name :
  contains_char SLASH part = false → component_of part = Some c → c = Normal name → plain_name name = true.
Proof.
  unfold component_of. intros Hslash. repeat case_bool_decide; intros Hc ->; simplify_eq.
  unfold plain_name. by rewrite !bool_decide_false, Hslash by done.
Qed.
Lemma components_plain p name : Normal name ∈ components p → plain_name name = true.
Proof.
  assert (∀ parts : list string, (∀ part, part ∈ parts → contains_char SLASH part = false) →
    Normal name ∈ omap component_of parts → plain_name name = true) as Hparts.
  { intros parts Hp (part & Hin & Hc)%list_elem_of_omap. by eapply component_plain; [apply Hp|..]. }
  pose proof (split_char_parts SLASH p) as Hsplit. unfold components.
  destruct (is_absolute p); [|destruct (split_char SLASH p) as [|part rest] eqn:Hs].
  - intros [?|Hin]%elem_of_cons; [done|by eapply Hparts].
  - by apply split_char_not_nil in Hs.
  - intros Hin. destruct (decide (part = ".")) as [->|Hne].
    + apply elem_of_cons in Hin as [?|Hin]; [done|]. eapply Hparts; [|exact Hin].
      intros q Hq. apply Hsplit. by right.
    + apply (Hparts (part :: rest) Hsplit). destruct part as [|[[] [] [] [] [] [] [] []] [|]]; done.
Qed.

Lemma plain_component s : plain_name s = true →
  contains_char SLASH s = false ∧ is_absolute s = false ∧ component_of s = Some (Normal s) ∧ s ≠ ".".
Proof.
  intros Hs. pose proof (component_of_plain _ Hs) as Hc. unfold plain_name in Hs.
  rewrite !andb_true_iff, !negb_true_iff, !bool_decide_eq_false in Hs. destruct Hs as [[[H1 H2] H3] H4].
  split_and!; [done| |done|done]. destruct s as [|c s]; [done|]. simpl in *. by apply orb_false_iff in H4 as [-> _].
Qed.
(** The components of the parts of a relative path. *)
Definition relative_components (parts : list string) : list Component :=
  match parts with
  | "." :: rest => CurDir :: omap component_of rest
  | _ => omap component_of parts
  end.
Lemma relative_snoc parts part :
  parts ≠ [] → relative_components (parts ++ [part]) = relative_components parts ++ omap component_of [part].
Proof.
  destruct parts as [|q parts]; [done|]. intros _. destruct (decide (q = ".")) as [->|Hq].
  - simpl. by rewrite omap_app.
  - assert (∀ l, relative_components (q :: l) = omap component_of (q :: l)) as Hrel.
    { intros l. destruct q as [|[[] [] [] [] [] [] [] []] [|]]; done. }
    rewrite <-app_comm_cons, !Hrel, app_comm_cons. by rewrite omap_app.
Qed.
Lemma components_relative p : is_absolute p = false → components p = relative_components (split_char SLASH p).
Proof. intros Hp. unfold components. by rewrite Hp. Qed.
(** Joining a plain name to any path adds one component. *)
Lemma components_push p s : plain_name s = true → components (join p s) = components p ++ [Normal s].
Proof.
  intros Hs. destruct (is_absolute p) eqn:Hp; [by apply components_join|].
  destruct (plain_component _ Hs) as (Hslash & Habs & Hc & Hdot).
  assert (omap component_of [s] = [Normal s]) as Hone by (simpl; by rewrite Hc).
  unfold join. rewrite Habs. destruct p as [|c p].
  - rewrite bool_decide_true by done. cbn [orb]. change ("" +:+ s) with s. change (components "") with (@nil Component).
    rewrite (components_relative s Habs), (split_char_single _ _ Hslash).
    change [s] with ([] ++ [s]). unfold relative_components. simpl app.
    destruct s as [|[[] [] [] [] [] [] [] []] [|]]; simpl; try (by rewrite Hc); done.
  - rewrite (bool_decide_eq_false_2 (String c p = "")) by done. simpl orb.
    assert (∀ r, is_absolute (String c p +:+ r) = false) as Hrel by done.
    destruct (ends_with_char SLASH (String c p)) eqn:He.
    + apply split_char_ends in He. set (q := drop_last (String c p)) in *.
      assert (is_absolute (String c p +:+ s) = false) as Hps by apply Hrel.
      rewrite components_relative by done. rewrite (components_relative (String c p)) by done.
      rewrite He, str_app_assoc. change (String SLASH "" +:+ s) with (String SLASH s).
      rewrite !split_char_app, (split_char_single _ s Hslash).
      change (split_char SLASH "") with [""].
      rewrite !relative_snoc by apply split_char_not_nil. rewrite Hone.
      change (omap component_of [""]) with (@nil Component). by rewrite app_nil_r.
    + rewrite components_relative by done. rewrite (components_relative (String c p)) by done.
      rewrite split_char_app, (split_char_single _ s Hslash), relative_snoc by apply split_char_not_nil.
      by rewrite Hone.
Qed.

Definition is_normal (c : Component) : Prop := ∃ name, c = Normal name.
(** Strictly below a directory, without leaving it. *)
Definition below (root p : path) : Prop :=
  ∃ k, components p = components root ++ k ∧ k ≠ [] ∧ Forall is_normal k.

Lemma push_components_below root parts p :
  (∀ name, Normal name ∈ parts → plain_name name = true) →
  push_components root parts = Ok p → ∃ k, components p = components root ++ k ∧ Forall is_normal k.
Proof.
  revert root. induction parts as [|c parts IH]; intros root Hplain; simpl.
  - intros [= <-]. exists []. by rewrite app_nil_r.
  - destruct c as [| | |name]; intros Hpush; simplify_eq.
    + apply IH; [|done]. intros name Hin. apply Hplain. by right.
    + destruct (IH (join root name)) as (k & Hk & Hn); [intros n Hin; apply Hplain; by right|done|].
      rewrite components_push in Hk by (apply Hplain; left). rewrite <-(assoc_L (++)) in Hk.
      exists (Normal name :: k). split; [done|]. constructor; [by exists name|done].
Qed.
Lemma safe_proof_path_below root name p : safe_proof_path root name = Ok p → below root p.
Proof.
  unfold safe_proof_path. destruct (is_absolute name); [done|].
  destruct (push_components root (components name)) as [q|] eqn:Hq; [|done]. simpl.
  unfold same_path. case_bool_decide as Hne; [done|]. intros [= <-].
  apply push_components_below in Hq as (k & Hk & Hn); [|intros n; apply components_plain].
  exists k. split_and!; [done| |done]. intros ->. by rewrite app_nil_r in Hk.
Qed.
Lemma safe_segment_plain label value s : safe_proof_segment label value = Ok s → plain_name s = true.
Proof.
  unfold safe_proof_segment. destruct (is_blank value); [done|]. destruct (_ || _) eqn:Hslash; [done|].
  destruct (is_absolute value) eqn:Habs; [done|].
  destruct (components value) as [|[| | |name] [|]] eqn:Hc; try done. intros [= <-].
  apply orb_false_iff in Hslash as [Hslash _].
  assert (plain_name name = true) as Hname by (apply (components_plain value); rewrite Hc; left).
  rewrite (components_relative _ Habs), (split_char_single _ _ Hslash) in Hc.
  destruct (decide (value = ".")) as [->|Hdot]; [done|].
  assert (relative_components [value] = omap component_of [value]) as Hrel.
  { destruct value as [|[[] [] [] [] [] [] [] []] [|]]; done. }
  rewrite Hrel in Hc. simpl in Hc. unfold component_of in Hc. repeat case_bool_decide; simplify_eq. done.
Qed.
Lemma safe_artifact_below root issue_id ts file_name p :
  plain_name file_name = true → safe_proof_artifact_path root issue_id ts file_name = Ok p → below root p.
Proof.
  intros Hfile. unfold safe_proof_artifact_path.
  destruct (safe_proof_segment "issue_id" issue_id) as [a|] eqn:Ha; [|done]. simpl.
  destruct (safe_proof_segment "ts" ts) as [b|] eqn:Hb; [|done]. simpl. intros [= <-].
  apply safe_segment_plain in Ha, Hb. exists [Normal a; Normal b; Normal file_name].
  rewrite !components_push, <-!(assoc_L (++)) by done. split_and!; [done..|].
  repeat constructor; by eexists.
Qed.

(** ** What a request can do *)

(** The router's match of an exact path. *)
Class AxumLaws `{J : Json} `{AX : !Axum} : Prop := {
  ax_static pattern params :
    ax_match (route_table.*1.*2) "/health" = Some (pattern, params) → pattern = "/health"
}.

Definition authenticated `{X : Extern} {W} (state : AppState W) (request : Request) : Prop :=
  ∃ token, presents request token ∧ sha256 token = sha256 (st_api_token state).

(** Reads stay below the proofs directory; anything else is asked for by an
    authenticated POST. *)
Definition allowed `{X : Extern} `{J : Json} {W} (state : AppState W) (request : Request) (call : ApiCall) : Prop :=
  match call with
  | CallRead p => below (st_proofs_dir state) p
  | CallList p => p = st_proofs_dir state
  | _ => rq_method request = "POST" ∧ authenticated state request
  end.

Section effects.
Context `{X : Extern} `{J : Json} `{JT : !JsonTree} `{C : Chrono} `{V : ApprovalCodec}.
Context `{CF : ChronoFormat} {W T : Type} `{TX : !TrackerText T}.
Context `{TA : !TrackerApi W T} `{SA : !SigningApi W} `{M : !Machine W}.
Context `{F : !Fs W} `{LF : !LocalFiles W} `{EB : !EventBus W} `{AX : !Axum}.
Implicit Types (request : Request) (L : ApiCall → Prop).

(** The state over the lifted interfaces. *)
Definition logged_state (state : AppState W) : AppState (logged W) := {|
  st_proofs_dir := st_proofs_dir state; st_agent := st_agent state;
  st_orchestrator := st_orchestrator state; st_api_token := st_api_token state;
  st_signing_client := st_signing_client state;
  st_worker_discovery := (λ snapshot, silently snapshot) <$> st_worker_discovery state;
  st_approval_ttl := st_approval_ttl state |}.

(** What a handler asks for. *)
Definition reads (root : path) (call : ApiCall) : Prop :=
  match call with CallRead p => below root p | CallList p => p = root | _ => False end.
Definition writes (call : ApiCall) : Prop :=
  match call with CallRead _ | CallList _ => False | _ => True end.
Definition is_write (handler : Handler) : bool :=
  match handler with
  | HSubmitApproval | HCreateIssue | HClaimIssue | HHandoffIssue => true
  | _ => false
  end.

Section keeping.
Context (L : ApiCall → Prop) (t0 : list ApiCall).
Local Abbreviation keeping c := (ensures (within L t0) c (λ _, True)).

Lemma keeping_tracked_silent {A} (c : Run W (SymphonyError T) A) : keeping (tracked (silent c)).
Proof. apply ensures_mapping, within_silent. Qed.
Lemma keeping_tracked_logs {A} (call : bool → ApiCall) (c : Run W (SymphonyError T) A) :
  (∀ b, L (call b)) → keeping (tracked (logs call c)).
Proof. intros HL. by apply ensures_mapping, within_logs. Qed.
Lemma keeping_now : keeping (now_utc (W := logged W)).
Proof. unfold now_utc. apply keeps_bind; [apply within_silently|]. intros t. by apply ensures_ret. Qed.
Lemma keeping_parse id : keeping (parse_issue_id (T := T) (W := logged W) id).
Proof. apply keeps_lift. Qed.
Lemma keeping_fetch issue_id id : keeping (fetch_issue (T := T) (W := logged W) issue_id id).
Proof. apply keeps_bind; [apply keeping_tracked_silent|]. intros issues. apply keeps_lift. Qed.
Lemma keeping_rows (state : AppState (logged W)) at_ issues pending : keeping (pending_rows (T := T) state at_ issues pending).
Proof.
  revert pending. induction issues as [|issue issues IH]; intros pending; cbn [pending_rows]; [by apply ensures_ret|].
  apply keeps_bind; [|intros row; apply IH]. unfold pending_row. destruct (negb _); [by apply ensures_ret|].
  destruct (verified_network_signer_for_pending (T := T) issue); [|by apply ensures_ret].
  apply keeps_bind; [apply keeping_tracked_silent|]. intros approvals. by apply ensures_ret.
Qed.
End keeping.
Lemma respond_within {A} L t0 (reply : A → Reply) (c : Handling (W := logged W) A) s Φ :
  ensures (within L t0) c Φ → within L t0 s → within L t0 (respond reply c s).2.
Proof.
  intros Hc Hs. unfold respond. destruct (Hc s Hs) as [Hs' _]. by destruct (c s) as [[a|e] s1].
Qed.
Lemma extracted_within {A} L t0 (r : result A AxumAnswer) (f : A → logged W → Response * logged W) s :
  (∀ a, within L t0 (f a s).2) → within L t0 s → within L t0 (extracted r f s).2.
Proof. intros Hf Hs. destruct r; [apply Hf|done]. Qed.

Lemma keeping_named L t0 (state : AppState (logged W)) name :
  (∀ p, below (st_proofs_dir state) p → L (CallRead p)) →
  ensures (within L t0) (show_proof_by_name state name) (λ _, True).
Proof.
  intros HL. unfold show_proof_by_name, read_proof_to_string.
  eapply ensures_bind; [apply ensures_lift with (Φ := below (st_proofs_dir state))|].
  - intros p. apply safe_proof_path_below.
  - intros p Hp. apply keeps_bind; [|intros ?; by apply ensures_ret].
    apply ensures_mapping, within_logs. intros _. by apply HL.
Qed.
Lemma keeping_artifact L t0 (state : AppState (logged W)) request issue_id ts file_name content_type :
  (∀ p, below (st_proofs_dir state) p → L (CallRead p)) → plain_name file_name = true →
  ensures (within L t0) (show_proof_artifact state request issue_id ts file_name content_type) (λ _, True).
Proof.
  intros HL Hfile. unfold show_proof_artifact, read_proof_to_string.
  eapply ensures_bind; [apply ensures_lift with (Φ := below (st_proofs_dir state))|].
  - intros p. by apply safe_artifact_below.
  - intros p Hp. destruct (accepts_json request).
    + apply keeps_bind; [by apply keeping_named|]. intros ?. by apply ensures_ret.
    + apply keeps_bind; [|intros ?; by apply ensures_ret].
      apply ensures_mapping, within_logs. intros _. by apply HL.
Qed.

#[local] Hint Extern 3 (ensures _ (tracked _) _) => (apply keeping_tracked_silent) : effects.
#[local] Hint Resolve keeping_now keeping_parse keeping_fetch keeping_rows : effects.

(** The run of a handler in its response. *)
Ltac handled :=
  repeat match goal with
  | |- context [match ?params with _ => _ end] => is_var params; destruct params as [|? params]; try done
  | |- within _ _ (extracted _ _ _).2 => apply extracted_within; [intros ?|done]
  | |- within _ _ (respond _ _ _).2 => apply respond_within with (Φ := λ _, True); [|done]
  end.

(** A handler that is no write only reads, below the proofs directory. *)
Lemma reading_handler t0 state handler params request s :
  is_write handler = false → within (reads (st_proofs_dir state)) t0 s →
  within (reads (st_proofs_dir state)) t0 (call_handler (T := T) (logged_state state) handler params request s).2.
Proof.
  intros Hh Hs. destruct handler; try done; cbn [call_handler]; handled;
    try (by apply keeping_artifact); try (by apply ensures_ret).
  - unfold tasks. keeps.
  - unfold task_detail. keeps.
  - unfold status. keeps.
  - unfold workers. cbn [logged_state st_worker_discovery].
    destruct (st_worker_discovery state) as [snapshot|]; simpl; [|by apply ensures_ret].
    apply keeps_bind; [apply within_silently|]. intros ?. by apply ensures_ret.
  - unfold approvals_pending. keeps.
  - unfold list_proofs. apply keeps_bind; [by apply keeps_catch, within_logs|]. intros entries. keeps.
  - unfold show_proof_fallback. apply keeps_bind; [apply keeps_lift|]. intros name. by apply keeping_named.
Qed.

Lemma keeping_notify t0 notice : ensures (within writes t0) (embed (E := ApiError) (eb_send notice)) (λ _, True).
Proof. by apply within_notice. Qed.
Lemma keeping_write {A} t0 (call : bool → ApiCall) (c : Run W (SymphonyError T) A) :
  (∀ b, writes (call b)) → ensures (within writes t0) (tracked (logs call c)) (λ _, True).
Proof. apply keeping_tracked_logs. Qed.
Lemma keeping_sign t0 event : ensures (within writes t0) (sign_approval_event (W := logged W) event) (λ _, True).
Proof.
  unfold sign_approval_event. apply keeps_bind; [apply keeps_lift|]. intros payload.
  apply keeps_bind; [by apply ensures_mapping, within_logs|]. intros response. keeps; by apply ensures_ret.
Qed.
Lemma keeping_requeue t0 issue_id : ensures (within writes t0) (requeue_approved (T := T) (W := logged W) issue_id) (λ _, True).
Proof.
  unfold requeue_approved. apply keeps_bind; [by apply keeps_catch, within_logs|]. intros requeued. keeps.
Qed.
#[local] Hint Resolve keeping_notify keeping_sign keeping_requeue : effects.

(** A handler that writes reads no file. *)
Lemma writing_handler t0 state handler params request s :
  is_write handler = true → within writes t0 s →
  within writes t0 (call_handler (T := T) (logged_state state) handler params request s).2.
Proof.
  intros Hh Hs. destruct handler; try done; cbn [call_handler]; handled.
  - unfold submit_approval, check_expected, notify_approval, notify_task_changed. keeps; try (by apply ensures_ret).
    by apply keeping_write.
  - unfold create_issue, notify_task_changed. apply keeps_bind; [by apply keeping_write|]. keeps.
  - unfold claim_issue, notify_task_changed. apply keeps_bind; [apply keeping_parse|]. intros issue_id.
    apply keeps_bind; [by apply keeping_write|]. keeps.
  - unfold handoff_issue, notify_task_changed. keeps. by apply keeping_write.
Qed.

Lemma find_route {A} f (l : list A) r : List.find f l = Some r → r ∈ l ∧ f r = true.
Proof. intros Hf%find_some. by rewrite list_elem_of_In. Qed.

(** The routes that write are for POST, and not the one that is exempt. *)
Lemma write_routes method pattern handler :
  (method, pattern, handler) ∈ route_table → is_write handler = true → method = "POST" ∧ pattern ≠ "/health".
Proof.
  unfold route_table. intros Hin. repeat (apply elem_of_cons in Hin as [[= -> -> ->]|Hin]; [done|]).
  by apply elem_of_nil in Hin.
Qed.
Lemma matches_post method : method_matches "POST" method = true → method = "POST".
Proof. unfold method_matches. rewrite !orb_true_iff, andb_true_iff, !bool_decide_eq_true. naive_solver. Qed.

(** C26 Whatever a request is, the files it makes the daemon read lie strictly
    below the proofs directory, and it changes nothing unless it is a POST that
    presents the daemon's token. *)
Theorem request_effects `{AL : !AxumLaws} state request (w : W) calls :
  ∃ made, (serve (T := T) (logged_state state) request (w, calls)).2.2 = calls ++ made ∧
    Forall (allowed state request) made.
Proof.
  assert (Hstart : ∀ L, within L calls (w, calls)) by (intros L; exists []; by rewrite app_nil_r).
  change (within (allowed state request) calls (serve (T := T) (logged_state state) request (w, calls)).2).
  assert (Hread : ∀ s : logged W, within (reads (st_proofs_dir state)) calls s → within (allowed state request) calls s).
  { intros s. apply within_weaken. by intros []. }
  unfold serve. destruct (may_pass _ _) eqn:Hadm; [|apply Hstart]. unfold routed.
  destruct (ax_match _ _) as [[pattern params]|] eqn:Hmatch; [|apply Hstart].
  destruct (List.find _ _) as [[[method pattern'] handler]|] eqn:Hfind; [|apply Hstart].
  apply find_route in Hfind as [Hin [Hpat%bool_decide_eq_true Hmethod]%andb_true_iff]. simpl in Hpat, Hmethod. subst pattern'.
  destruct (is_write handler) eqn:Hwrite; [|by apply Hread, reading_handler].
  destruct (write_routes _ _ _ Hin Hwrite) as [-> Hpath]. apply matches_post in Hmethod.
  apply (within_weaken writes); [|by apply writing_handler].
  apply may_pass_spec in Hadm as [[Hoptions|Hhealth]|Htoken].
  - congruence.
  - rewrite Hhealth in Hmatch. by apply ax_static in Hmatch.
  - intros []; simpl; done.
Qed.

(** ** Serving *)

(** A request that is neither exempt nor presents a token with the digest
    of the daemon's is answered with 401, and nothing happens. *)
Theorem only_bearers_served (state : AppState W) request (w : W) :
  exempt request ∨ authenticated state request ∨
  serve (T := T) state request w = (Refused 401 AUTH_ERROR, w).
Proof.
  unfold serve. destruct (may_pass request (st_api_token state)) eqn:Hadm; [|by auto].
  apply may_pass_spec in Hadm as [?|?]; auto.
Qed.

(** C29 The exemption of OPTIONS lets anyone read the proofs: the fallback of
    the proofs answers every method. *)
Theorem options_reads_proofs (state : AppState W) request name p content (w w1 : W) params :
  rq_method request = "OPTIONS" → rq_path request = "/symphony/proofs/" +:+ name →
  ax_match (route_table.*1.*2) (rq_path request) = Some ("/symphony/proofs/{*name}", params) →
  safe_proof_path (st_proofs_dir state) name = Ok p → lf_read_to_string p w = (Ok content, w1) →
  serve (T := T) state request w = (Replied (ReplyProof name content), w1).
Proof.
  intros Hmethod Hpath Hmatch Hsafe Hread. unfold serve.
  assert (may_pass request (st_api_token state) = true) as -> by (apply may_pass_spec; by left; left).
  unfold routed. rewrite Hmatch.
  rewrite Hmethod.
  assert (List.find (λ r, bool_decide (r.1.2 = "/symphony/proofs/{*name}") && method_matches r.1.1 "OPTIONS")
    route_table = Some ("*", "/symphony/proofs/{*name}", HProofFallback)) as -> by done.
  unfold call_handler, respond, show_proof_fallback, show_proof_by_name, read_proof_to_string, mapping_err, mbind,
    Run_bind, lift_result.
  rewrite Hpath. rewrite (proj2 (strip_prefix_Some "/symphony/proofs/" _ name)) by done. simpl.
  by rewrite Hsafe, Hread.
Qed.

(** ** Consent *)

(** The event of a submission: signed, by the daemon's agent, with the verdict
    of the request, on the content and the signer the issue had when it was
    fetched, which are those the operator expected. *)
Definition consents (state : AppState W) (id : string) (submit : SubmitApprovalRequest) (issue : Issue)
    (event : ApprovalEvent) : Prop :=
  av_issue_id event = id ∧ av_approver_agent_id event = st_agent state ∧
  (∃ w issues w1, tk_fetch_by_ids (T := T) [id] w = (Ok issues, w1) ∧ head issues = Some issue) ∧
  ∃ signer, require_verified_network_signer (T := T) issue = Ok signer ∧
    binds event (sq_verdict submit) issue signer ∧
    (∀ expected, sq_expected_content_hash submit = Some expected → expected = content_hash issue) ∧
    (∀ expected, sq_expected_signer_agent_id submit = Some expected → expected = signer).

(** What a submission does and answers. *)
Inductive submission (state : AppState W) (id : string) (submit : SubmitApprovalRequest)
    : list ApiCall → result ApprovalEvent ApiError → Prop :=
  | SubmissionRefused e : submission state id submit [] (Err e)
  | SubmissionUnsigned payload e : submission state id submit [CallSign APPROVAL_CONTEXT payload] (Err e)
  | SubmissionUnstored payload issue event e :
      consents state id submit issue event →
      submission state id submit [CallSign APPROVAL_CONTEXT payload; CallStore event false] (Err e)
  | SubmissionStillParked payload issue event e :
      consents state id submit issue event → sq_verdict submit = V1Approve →
      is_blocked_awaiting_approval issue = true →
      submission state id submit
        [CallSign APPROVAL_CONTEXT payload; CallStore event true; CallRequeue id] (Err e)
  | SubmissionDone payload issue event :
      consents state id submit issue event →
      submission state id submit
        ([CallSign APPROVAL_CONTEXT payload; CallStore event true] ++
         (if bool_decide (sq_verdict submit = V1Approve) && is_blocked_awaiting_approval issue
          then [CallRequeue id] else []) ++
         [CallNotice (approval_notice event);
          CallNotice {| en_kind := "task_changed"; en_data := NoticeText id |}]) (Ok event).

(** A run with the calls it makes. *)
Definition makes {A} (c : Handling (W := logged W) A) (Q : list ApiCall → result A ApiError → Prop) : Prop :=
  ∀ s, ∃ t, (c s).2.2 = s.2 ++ t ∧ Q t (c s).1.

Lemma calls_bind {A B} (c : Handling A) (f : A → Handling B) Q (R : list ApiCall → result B ApiError → Prop) :
  makes c Q → (∀ t e, Q t (Err e) → R t (Err e)) →
  (∀ a, makes (f a) (λ t' r, ∀ t, Q t (Ok a) → R (t ++ t') r)) → makes (c ≫= f) R.
Proof.
  intros Hc HR Hf s. unfold mbind, Run_bind. destruct (Hc s) as (t & Ht & HQ).
  destruct (c s) as [[a|e] s1]; simpl in *; [|by eauto].
  destruct (Hf a s1) as (t' & Ht' & HR'). exists (t ++ t'). rewrite Ht', Ht, (assoc_L (++)). auto.
Qed.
Lemma calls_lift {A} (r : result A ApiError) (Q : list ApiCall → result A ApiError → Prop) :
  Q [] r → makes (lift_result r) Q.
Proof. intros HQ s. exists []. by rewrite app_nil_r. Qed.
Lemma makes_silent {A} (c : Run W (SymphonyError T) A) (Q : list ApiCall → result A ApiError → Prop) :
  (∀ e, Q [] (Err e)) → (∀ w a w1, c w = (Ok a, w1) → Q [] (Ok a)) → makes (tracked (silent c)) Q.
Proof.
  intros He HQ s. exists []. rewrite app_nil_r. unfold tracked, mapping_err, silent.
  destruct (c s.1) as [[a|e] w1] eqn:Hc; simpl; eauto.
Qed.
Lemma calls_weaken {A} (c : Handling A) (Q R : list ApiCall → result A ApiError → Prop) :
  makes c Q → (∀ t r, Q t r → R t r) → makes c R.
Proof. intros Hc HQ s. destruct (Hc s) as (t & ? & ?). eauto. Qed.
(** What makes no call and gives a value in [φ]. *)
Definition quiet_in {A} (c : Handling (W := logged W) A) (φ : A → Prop) : Prop :=
  makes c (λ t r, t = [] ∧ ∀ a, r = Ok a → φ a).
Lemma makes_quiet {A B} (c : Handling A) (f : A → Handling B) φ (R : list ApiCall → result B ApiError → Prop) :
  quiet_in c φ → (∀ e, R [] (Err e)) → (∀ a, φ a → makes (f a) R) → makes (c ≫= f) R.
Proof.
  intros Hc HR Hf s. unfold mbind, Run_bind. destruct (Hc s) as (t & Ht & -> & Hφ). rewrite app_nil_r in Ht.
  destruct (c s) as [[a|e] s1]; simpl in *; [|exists []; rewrite app_nil_r; auto].
  destruct (Hf a (Hφ a eq_refl) s1) as (t' & Ht' & HR'). exists t'. by rewrite Ht', Ht.
Qed.
Lemma quiet_lift {A} (r : result A ApiError) φ : (∀ a, r = Ok a → φ a) → quiet_in (lift_result r) φ.
Proof. intros Hr. by apply calls_lift. Qed.
Lemma quiet_silent {A} (c : Run W (SymphonyError T) A) (φ : A → Prop) :
  (∀ w a w1, c w = (Ok a, w1) → φ a) → quiet_in (tracked (silent c)) φ.
Proof. intros Hc. apply makes_silent; [done|]. intros w a w1 Hrun. split; [done|]. intros ? [= <-]. eauto. Qed.
Lemma quiet_check expected current message :
  quiet_in (check_expected expected current message) (λ _, ∀ wanted, expected = Some wanted → wanted = current).
Proof.
  intros s. exists []. rewrite app_nil_r. unfold check_expected. destruct expected as [wanted|]; [|done].
  case_bool_decide as Hne; simpl; [done|]. split_and!; [done..|]. by intros _ _ ? [= <-].
Qed.
Lemma quiet_parse id : quiet_in (parse_issue_id (T := T) id) (λ issue_id, issue_id = id).
Proof. apply quiet_lift. intros i. unfold new_issue_id. destruct (is_blank id); simpl; by intros [= <-]. Qed.
Lemma quiet_fetch issue_id id :
  quiet_in (fetch_issue (T := T) issue_id id) (λ issue,
    ∃ w issues w1, tk_fetch_by_ids (T := T) [issue_id] (w : W) = (Ok issues, w1) ∧ head issues = Some issue).
Proof.
  unfold fetch_issue. eapply makes_quiet; [by apply quiet_silent with (φ := λ issues,
    ∃ w w1, tk_fetch_by_ids (T := T) [issue_id] (w : W) = (Ok issues, w1)); eauto|done|].
  intros issues (w & w1 & Hrun). apply quiet_lift. intros issue Hhead. exists w, issues, w1. split; [done|].
  by destruct (head issues); simpl in Hhead; simplify_eq.
Qed.
Lemma quiet_now : quiet_in (now_utc (W := logged W)) (λ _, True).
Proof.
  intros s. unfold now_utc, embed, mbind, Run_bind. simpl. unfold silently. destruct (clock_now s.1) as [t w1].
  exists []. simpl. by rewrite app_nil_r.
Qed.
Lemma makes_sign event :
  makes (sign_approval_event event) (λ t r,
    match r with
    | Ok e => (∃ payload, t = [CallSign APPROVAL_CONTEXT payload]) ∧
        unsigned e = unsigned event ∧ signature_envelope_is_consistent e = true
    | Err _ => t = [] ∨ ∃ payload, t = [CallSign APPROVAL_CONTEXT payload]
    end).
Proof.
  unfold sign_approval_event. eapply calls_bind; [apply (calls_lift _ (λ t r, t = [] ∧ ∀ payload,
    r = Ok payload → enc_v1_approval (unsigned event) = Ok payload))| |].
  - split; [done|]. intros payload. by destruct (enc_v1_approval _); simpl; intros [= <-].
  - intros t e [-> _]. by left.
  - intros payload s. unfold mapping_err, mbind, Run_bind. simpl. unfold logs.
    destruct (sg_sign APPROVAL_CONTEXT payload s.1) as [[response|e] w1]; simpl;
      exists [CallSign APPROVAL_CONTEXT payload]; [|split; [done|]; intros t [-> _]; right; by exists payload].
    repeat case_bool_decide; simpl; (split; [done|]); intros t [-> Hpayload]; simpl; try (right; by exists payload).
    specialize (Hpayload _ eq_refl). split_and!; [by exists payload|done|].
    apply envelope_consistent_spec. simpl. by eexists _, payload.
Qed.
Lemma makes_requeue id :
  makes (requeue_approved (T := T) id) (λ t r, t = [CallRequeue id]).
Proof.
  intros s. unfold requeue_approved, tracked, mapping_err, catch, mbind, Run_bind. simpl. unfold logs.
  destruct (tk_requeue_blocked id _ s.1) as [[u|e] w1]; simpl; [by exists [CallRequeue id]|].
  unfold silent. exists [CallRequeue id]. simpl. destruct (tk_fetch_by_ids [id] w1) as [[issues|e'] w2]; simpl; [|done].
  by destruct (head issues) as [issue|]; [destruct (is_blocked_awaiting_approval issue)|].
Qed.
Lemma makes_notices event id :
  makes (_ ← notify_approval (W := logged W) event; _ ← notify_task_changed id; mret event)
    (λ t r, r = Ok event ∧ t = [CallNotice (approval_notice event);
       CallNotice {| en_kind := "task_changed"; en_data := NoticeText id |}]).
Proof.
  intros s. unfold notify_approval, notify_task_changed, embed, mbind, Run_bind. simpl.
  destruct (eb_send _ s.1) as [u w1]. simpl. destruct (eb_send _ w1) as [u' w2]. simpl.
  eexists. rewrite <-(assoc_L (++)). by split.
Qed.

(** The tail of a submission, after the record is signed. *)
Lemma makes_stored (state : AppState W) id submit issue event :
  makes (_ ← tracked (tk_store_approval (T := T) event);
         _ ← (if bool_decide (sq_verdict submit = V1Approve) && is_blocked_awaiting_approval issue
              then requeue_approved (T := T) id else mret ());
         _ ← notify_approval (W := logged W) event; _ ← notify_task_changed id; mret event)
    (λ t' r, ∀ t, (∃ payload, t = [CallSign APPROVAL_CONTEXT payload] ∧ consents state id submit issue event) →
       submission state id submit (t ++ t') r).
Proof.
  eapply calls_bind with (Q := λ t r, t = [CallStore event (match r with Ok _ => true | Err _ => false end)]).
  { intros s. unfold tracked, mapping_err. simpl. unfold logs.
    destruct (tk_store_approval event s.1) as [[u|e] w1]; by eexists. }
  { intros t e -> ? (payload & -> & Hc). by eapply SubmissionUnstored. }
  intros []. destruct (bool_decide _ && _) eqn:Hparked.
  - eapply calls_bind; [apply makes_requeue| |].
    + intros t e -> t1 -> ? (payload & -> & Hc). apply andb_true_iff in Hparked as [Hv%bool_decide_eq_true Hp].
      by eapply SubmissionStillParked.
    + intros []. eapply calls_weaken; [apply makes_notices|]. simpl. intros t r [-> ->] t1 -> t2 -> ? (payload & -> & Hc).
      pose proof (SubmissionDone state id submit payload issue event Hc) as Hdone. by rewrite Hparked in Hdone.
  - eapply calls_bind; [by apply (calls_lift (Ok ())) with (Q := λ t r, t = [] ∧ r = Ok ())|by intros t e [_ ?]|].
    intros []. eapply calls_weaken; [apply makes_notices|]. simpl. intros t r [-> ->] t1 [-> _] t2 -> ? (payload & -> & Hc).
    pose proof (SubmissionDone state id submit payload issue event Hc) as Hdone. by rewrite Hparked in Hdone.
Qed.

(** C27 A submission stores at most one record: a signed one, of the verdict
    asked for, that binds the content and the signer the operator was shown.
    Only after that record is stored, only for an approval of a parked issue,
    is the issue requeued; and what is answered is the record stored. *)
Theorem submission_stores_consent (state : AppState W) id submit (w : W) calls :
  ∃ made, (submit_approval (T := T) (logged_state state) id submit (w, calls)).2.2 = calls ++ made ∧
    submission state id submit made (submit_approval (T := T) (logged_state state) id submit (w, calls)).1.
Proof.
  assert (makes (submit_approval (T := T) (logged_state state) id submit) (submission state id submit)) as Hmakes;
    [|exact (Hmakes (w, calls))].
  unfold submit_approval. destruct (negb _); [apply (calls_lift (Err _)), SubmissionRefused|].
  eapply makes_quiet; [apply quiet_parse|by apply SubmissionRefused|intros issue_id ->].
  eapply makes_quiet; [apply quiet_fetch|by apply SubmissionRefused|intros issue Hissue; simpl in Hissue].
  eapply makes_quiet; [by apply quiet_lift with (φ := λ signer,
    require_verified_network_signer (T := T) issue = Ok signer)|by apply SubmissionRefused|intros signer Hsigner; simpl in Hsigner].
  eapply makes_quiet; [apply quiet_check|by apply SubmissionRefused|intros u1 Hhash; simpl in Hhash].
  eapply makes_quiet; [apply quiet_check|by apply SubmissionRefused|intros u2 Hexpected; simpl in Hexpected].
  eapply makes_quiet; [apply quiet_now|by apply SubmissionRefused|intros approved_at ?].
  eapply calls_bind; [apply makes_sign| |].
  { intros t e [->|[payload ->]]; [apply SubmissionRefused|apply SubmissionUnsigned]. }
  intros event. eapply calls_weaken; [apply makes_stored|]. intros t' r Hstored t ([payload ->] & Hunsigned & Hconsistent).
  apply Hstored. exists payload. split; [done|].
  pose proof (f_equal av_issue_id Hunsigned) as H1. pose proof (f_equal av_content_hash Hunsigned) as H2.
  pose proof (f_equal av_signer_agent_id Hunsigned) as H3. pose proof (f_equal av_verdict Hunsigned) as H4.
  pose proof (f_equal av_approver_agent_id Hunsigned) as H5. simpl in H1, H2, H3, H4, H5.
  apply envelope_consistent_spec in Hconsistent.
  split_and!; [done..|]. exists signer. by split_and!.
Qed.
End effects.
