(* ===== verification/Shown.v ===== *)
(** * What the API shows

    The list of pending approvals, the counts of the status and the routes, as
    a client reads them. *)

From S2P Require Import Prelude Wire Identity Core Text Effects Files Containment Store Claims Approvals Ports.
From S2P Require Import Scheduling Proofs Workers Trust Orchestrator Auth WorkflowConfig Literals Api.
Import Retry Reconcile.

Section shown.
Context `{X : Extern} `{J : Json} `{JT : !JsonTree} `{C : Chrono} `{V : ApprovalCodec}.
Context `{CF : ChronoFormat} {W T : Type} `{TX : !TrackerText T}.
Context `{TA : !TrackerApi W T} `{SA : !SigningApi W} `{M : !Machine W}.
Context `{F : !Fs W} `{LF : !LocalFiles W} `{EB : !EventBus W} `{AX : !Axum}.
Implicit Types (state : AppState W) (issue : Issue).

(** ** Counts *)

Definition in_state (s : string) (issues : list Issue) : list Issue := filter (λ issue, iss_state issue = s) issues.

Lemma count_states counts issues s :
  (∀ s, (default 0 (counts !! s) + N.of_nat (length issues) <= u64_max)%N) →
  default 0%N (foldl count_state counts issues !! s) =
    (default 0 (counts !! s) + N.of_nat (length (in_state s issues)))%N.
Proof.
  revert counts. induction issues as [|issue issues IH]; intros counts Hmax; [simpl; lia|].
  cbn [foldl]. unfold in_state. rewrite filter_cons. fold (in_state s issues).
  assert (Hone : sat_add64 (default 0%N (counts !! iss_state issue)) 1 = (default 0 (counts !! iss_state issue) + 1)%N).
  { specialize (Hmax (iss_state issue)). simpl in Hmax. unfold sat_add64. lia. }
  rewrite IH.
  - unfold count_state. rewrite Hone. case_decide as Hs.
    + subst s. rewrite lookup_insert_eq. simpl. lia.
    + by rewrite lookup_insert_ne.
  - intros s'. specialize (Hmax s'). simpl in Hmax. unfold count_state. rewrite Hone.
    destruct (decide (iss_state issue = s')) as [<-|Hne]; [rewrite lookup_insert_eq; simpl; lia|].
    rewrite lookup_insert_ne by done. lia.
Qed.
Lemma count_states_dom counts issues : dom (foldl count_state counts issues) = dom counts ∪ list_to_set (iss_state <$> issues).
Proof.
  revert counts. induction issues as [|issue issues IH]; intros counts; simpl; [set_solver|].
  rewrite IH. unfold count_state. set_solver.
Qed.

(** The status counts every issue once, under its state, and no other
    state; and lists exactly the claims there are. *)
Theorem status_counts_exact state issues :
  (N.of_nat (length issues) <= u64_max)%N →
  let status := status_from_issues state issues in
  (∀ s, default 0%N (st_counts status !! s) = N.of_nat (length (in_state s issues))) ∧
  dom (st_counts status) = list_to_set (iss_state <$> issues) ∧
  st_active_claims status ≡ₚ omap (λ issue, claim_info_from_issue issue <$> iss_claim issue) issues.
Proof.
  intros Hlen. simpl. split_and!.
  - intros s. rewrite count_states; [by rewrite lookup_empty|]. intros s'. rewrite lookup_empty. simpl. lia.
  - rewrite count_states_dom. set_solver.
  - apply sort_by_perm.
Qed.

(** ** Routes *)

(** A route as the list shows it. *)
Definition listed_route (r : string * string * Handler) : string * string :=
  (if bool_decide (r.1.1 = "*") then "GET" else r.1.1, r.1.2).

(** The routes that are listed are those that are served, each once; the
    fallback of the proofs is listed as a GET. *)
Theorem routes_listed : NoDup route_infos ∧ route_infos ≡ₚ listed_route <$> route_table.
Proof.
  assert (NoDup route_infos ∧ NoDup (listed_route <$> route_table)) as [H1 H2]
    by (split; apply (bool_decide_unpack _); by vm_compute).
  split; [done|]. apply NoDup_Permutation; [done..|]. intros r.
  assert (Forall (λ r, r ∈ listed_route <$> route_table) route_infos ∧
          Forall (λ r, r ∈ route_infos) (listed_route <$> route_table)) as [Hl Hr]
    by (split; apply (bool_decide_unpack _); by vm_compute).
  rewrite Forall_forall in Hl, Hr. split; auto.
Qed.

(** ** Pending approvals *)

(** The row an issue has, if the scan shows it. *)
Definition row_of state (at_ : string) (approvals : ApprovalState) issue : option PendingApproval :=
  if negb (is_active_approval_state issue) then None
  else
    signer ← verified_network_signer_for_pending (T := T) issue;
    if surfaced (approval_decision (aps_events approvals) issue signer at_ (st_approval_ttl state)
                   (aps_consumed approvals)) issue
    then Some (pending_approval_from_issue issue signer approvals) else None.

(** *** What should be shown

    Stated of the issue's fields, and of the approvals as [binds], [unexpired]
    and [unspent] describe them. *)

(** Parked until somebody consents: blocked, with that code as its reason. *)
Definition parked issue : Prop :=
  iss_state issue = "blocked" ∧ ∃ reason fields code,
    iss_extra issue !! "blocked_reason" = Some reason ∧ as_object reason = Some fields ∧
    fields !! "code" = Some code ∧ as_text code = Some "awaiting_approval".
(** A verified signature came with the issue, by this signer. *)
Definition signed_by issue (signer : string) : Prop :=
  ∃ raw, iss_signature_provenance issue = Some (ProvenanceVerified raw) ∧ trim raw = signer ∧ signer ≠ "".
(** The issue is asked about: it is to do, in progress or parked, and signed. *)
Definition asked issue (signer : string) : Prop :=
  (iss_state issue = "todo" ∨ iss_state issue = "in_progress" ∨ parked issue) ∧ signed_by issue signer.
(** Consent is still wanted: nobody denied this content of this signer, and
    there is no live approval of it, or the issue has not moved on yet. *)
Definition waits (approvals : ApprovalState) issue (signer now : string) (ttl : N) : Prop :=
  (∀ e, e ∈ aps_events approvals → ¬ binds e V1Deny issue signer) ∧
  ((∀ e, e ∈ aps_events approvals → binds e V1Approve issue signer → unexpired e now ttl →
      ¬ unspent e (aps_consumed approvals)) ∨ parked issue).

(** The approvals that a pass over the issues loads, in order, of those that
    are asked about and of no others. *)
Inductive loads : list Issue → W → list (Issue * string * ApprovalState) → W → Prop :=
  | loads_nil w : loads [] w [] w
  | loads_skip issue issues w loaded w' :
      (∀ signer, ¬ asked issue signer) → loads issues w loaded w' → loads (issue :: issues) w loaded w'
  | loads_one issue signer approvals issues w w1 loaded w' :
      asked issue signer → tk_load_approval_state (T := T) (iss_id issue) w = (Ok approvals, w1) →
      loads issues w1 loaded w' →
      loads (issue :: issues) w ((issue, signer, approvals) :: loaded) w'.

(** *** The code's tests *)

Lemma parked_iff issue : is_blocked_awaiting_approval issue = true ↔ parked issue.
Proof.
  unfold is_blocked_awaiting_approval, blocked_reason_code, parked.
  rewrite andb_true_iff, !bool_decide_eq_true. repeat setoid_rewrite bind_Some. naive_solver.
Qed.

Lemma active_iff issue :
  is_active_approval_state issue = true ↔
  iss_state issue = "todo" ∨ iss_state issue = "in_progress" ∨ parked issue.
Proof.
  unfold is_active_approval_state. rewrite orb_true_iff, bool_decide_eq_true, parked_iff.
  rewrite !elem_of_cons, elem_of_nil. tauto.
Qed.

Lemma signer_iff issue signer :
  verified_network_signer_for_pending (T := T) issue = Some signer ↔ signed_by issue signer.
Proof.
  unfold verified_network_signer_for_pending, Api.is_network_sourced, signed_by.
  destruct (iss_signature_provenance issue) as [[raw|raw|raw]|] eqn:Hp; simpl;
    rewrite ?orb_true_r; simpl; try (split; [done|naive_solver]).
  2: { destruct (negb _); split; try done; naive_solver. }
  unfold new_agent_id. rewrite is_blank_trim. destruct (is_blank raw) eqn:Hb.
  - split; [done|]. intros (?&[= <-]&<-&Hne). by apply trim_blank in Hb.
  - split; [|naive_solver]. intros [= <-]. exists raw. split_and!; [done..|].
    intros He. rewrite <-is_blank_trim, He in Hb. done.
Qed.

Lemma asked_not issue :
  (∀ signer, ¬ asked issue signer) ↔
  is_active_approval_state issue = false ∨ verified_network_signer_for_pending (T := T) issue = None.
Proof.
  assert (∀ signer, asked issue signer ↔ is_active_approval_state issue = true ∧
    verified_network_signer_for_pending (T := T) issue = Some signer) as Hask.
  { intros signer. unfold asked. rewrite active_iff, signer_iff. tauto. }
  destruct (is_active_approval_state issue);
    [|by split; [left|intros _ signer [? _]%Hask]].
  destruct (verified_network_signer_for_pending issue) as [who|];
    [|by split; [right|intros _ signer [_ ?]%Hask]].
  split; [|by intros [?|?]]. intros H. destruct (H who). by apply Hask.
Qed.

Lemma surfaced_iff approvals issue signer now ttl :
  surfaced (approval_decision (aps_events approvals) issue signer now ttl (aps_consumed approvals)) issue
    = true ↔ waits approvals issue signer now ttl.
Proof.
  unfold surfaced, waits.
  pose proof (approval_decision_exact (aps_events approvals) issue signer now ttl (aps_consumed approvals)) as Hd.
  cbv zeta in Hd. rewrite orb_true_iff, andb_true_iff, !bool_decide_eq_true, parked_iff.
  destruct (approval_decision _ _ _ _ _ _); rewrite ?Exists_exists in Hd; naive_solver.
Qed.

(** *** The scan *)

(** The row of an issue that is asked about, with the approvals it loaded. *)
Definition pending_of state (now : string) (l : Issue * string * ApprovalState) (row : PendingApproval) : Prop :=
  let '(issue, signer, approvals) := l in
  waits approvals issue signer now (st_approval_ttl state) ∧
  row = {| pa_issue_id := iss_id issue; pa_title := iss_title issue; pa_state := iss_state issue;
           pa_content_hash := content_hash issue; pa_signer_agent_id := signer;
           pa_provenance := pending_provenance <$> iss_signature_provenance issue;
           pa_approval_summary := approval_summary approvals |}.

Lemma pending_row_run state now issue w r w' :
  pending_row (T := T) state now issue w = (r, w') →
  ((∀ signer, ¬ asked issue signer) ∧ r = Ok None ∧ w' = w) ∨
  ∃ signer a, asked issue signer ∧ tk_load_approval_state (T := T) (iss_id issue) w = (a, w') ∧
    match a with
    | Ok approvals => ∃ shown, r = Ok shown ∧
        ∀ row, shown = Some row ↔ pending_of state now (issue, signer, approvals) row
    | Err e => r = Err (AeTracker (tracker_error e))
    end.
Proof.
  unfold pending_row. destruct (is_active_approval_state issue) eqn:Ha; simpl.
  2: { intros [= <- <-]. left. split; [|done]. apply asked_not. by left. }
  destruct (verified_network_signer_for_pending issue) as [signer|] eqn:Hs.
  2: { intros [= <- <-]. left. split; [|done]. apply asked_not. by right. }
  assert (asked issue signer) as Hask by (split; [by apply active_iff|by apply signer_iff]).
  intros Hrun. right. unfold tracked, mapping_err, mbind, Run_bind in Hrun.
  destruct (tk_load_approval_state (iss_id issue) w) as [[approvals|e] w1] eqn:Hload; simpl in Hrun.
  - injection Hrun as <- <-. exists signer, (Ok approvals). split_and!; [done..|].
    eexists. split; [done|]. intros row. unfold pending_of. rewrite <-surfaced_iff.
    destruct (surfaced _ _); naive_solver.
  - injection Hrun as <- <-. by exists signer, (Err e).
Qed.

Lemma pending_rows_run state now issues pending w r w' :
  pending_rows (T := T) state now issues pending w = (r, w') →
  match r with
  | Ok rows => ∃ loaded more, loads issues w loaded w' ∧ rows = pending ++ more ∧
      ∀ row, row ∈ more ↔ ∃ l, l ∈ loaded ∧ pending_of state now l row
  | Err e => ∃ err pre issue post signer loaded w1, e = AeTracker (tracker_error err) ∧
      issues = pre ++ issue :: post ∧ loads pre w loaded w1 ∧ asked issue signer ∧
      tk_load_approval_state (T := T) (iss_id issue) w1 = (Err err, w')
  end.
Proof.
  revert pending w. induction issues as [|issue issues IH]; intros pending w; cbn [pending_rows].
  { intros [= <- <-]. exists [], []. split_and!; [constructor|by rewrite app_nil_r|].
    intros row. split; [by intros ?%elem_of_nil|]. by intros (?&?%elem_of_nil&_). }
  unfold mbind at 1, Run_bind. destruct (pending_row state now issue w) as [r1 w1] eqn:Hrow.
  apply pending_row_run in Hrow as [(Hno&->&->)|(signer&[approvals|e]&Hask&Hload&Hr)].
  - intros Hrun%IH. destruct r as [rows|e].
    + destruct Hrun as (loaded&more&?&?&?). exists loaded, more. by split_and!; [apply loads_skip|..].
    + destruct Hrun as (err&pre&i&post&who&loaded&w2&->&->&?&?&?).
      exists err, (issue :: pre), i, post, who, loaded, w2. by split_and!; [..|apply loads_skip|done|].
  - destruct Hr as (shown&->&Hshown). intros Hrun%IH. destruct r as [rows|e].
    + destruct Hrun as (loaded&more&Hl&->&Hmore). destruct shown as [row0|].
      * exists ((issue, signer, approvals) :: loaded), (row0 :: more).
        split_and!; [by eapply loads_one|by rewrite <-(assoc_L (++))|].
        intros row. setoid_rewrite elem_of_cons. rewrite Hmore. specialize (Hshown row). naive_solver.
      * exists ((issue, signer, approvals) :: loaded), more.
        split_and!; [by eapply loads_one|done|].
        intros row. setoid_rewrite elem_of_cons. rewrite Hmore. specialize (Hshown row). naive_solver.
    + destruct Hrun as (err&pre&i&post&who&loaded&w2&->&->&?&?&?).
      exists err, (issue :: pre), i, post, who, ((issue, signer, approvals) :: loaded), w2.
      by split_and!; [..|eapply loads_one|done|].
  - subst r1. intros [= <- <-]. exists e, [], issue, issues, signer, [], w.
    by split_and!; [..|constructor|done|].
Qed.

(** C28 The pending approvals are, in the order of their ids, exactly the
    issues that wait for consent: of the issues the tracker lists, those that
    are to do, in progress or parked for approval and that a verified signer
    signed; whose approvals, as loaded then, hold no denial of this content of
    this signer; and for which no approval is live, unless the issue is still
    parked.  The list cannot be had exactly when the tracker cannot list its
    issues, or cannot load the approvals of an issue that is asked about. *)
Theorem pending_exact state (w w' : W) r :
  approvals_pending (T := T) state w = (r, w') →
  match r with
  | Ok rows => ∃ issues w1 t w2 loaded,
      tk_list_issues (T := T) w = (Ok issues, w1) ∧ clock_now w1 = (t, w2) ∧
      loads issues w2 loaded w' ∧
      StronglySorted (key_le pa_issue_id) rows ∧
      ∀ row, row ∈ rows ↔ ∃ l, l ∈ loaded ∧ pending_of state (fmt_rfc3339_nanos t) l row
  | Err e => ∃ err, e = AeTracker (tracker_error err) ∧
      (tk_list_issues (T := T) w = (Err err, w') ∨
       ∃ issues w1 t w2 pre issue post signer loaded w3,
         tk_list_issues (T := T) w = (Ok issues, w1) ∧ clock_now w1 = (t, w2) ∧
         issues = pre ++ issue :: post ∧ loads pre w2 loaded w3 ∧ asked issue signer ∧
         tk_load_approval_state (T := T) (iss_id issue) w3 = (Err err, w'))
  end.
Proof.
  unfold approvals_pending, tracked, mapping_err, now_utc, embed. unfold mbind, Run_bind at 1 2 3 4.
  destruct (tk_list_issues w) as [[issues|e] w1] eqn:Hlist; simpl.
  2: { intros [= <- <-]. exists e. split; [done|]. by left. }
  destruct (clock_now w1) as [t w2] eqn:Hclock; simpl.
  destruct (pending_rows state (fmt_rfc3339_nanos t) issues [] w2) as [r1 w3] eqn:Hrows.
  apply pending_rows_run in Hrows. destruct r1 as [rows|e]; intros [= <- <-].
  - destruct Hrows as (loaded&more&Hl&->&Hmore). exists issues, w1, t, w2, loaded.
    split_and!; [done..|apply sort_by_sorted|]. intros row. rewrite elem_of_sort_by. apply Hmore.
  - destruct Hrows as (err&pre&issue&post&signer&loaded&w4&->&?&?&?&?). exists err. split; [done|]. right.
    by exists issues, w1, t, w2, pre, issue, post, signer, loaded, w4.
Qed.

(** ** The daemon's own issues *)

Lemma signer_of_verified issue who :
  iss_signature_provenance issue = Some (ProvenanceVerified who) → is_blank who = false →
  verified_network_signer_for_pending (T := T) issue = Some (trim who).
Proof.
  intros Hp Hb. unfold verified_network_signer_for_pending, Api.is_network_sourced. rewrite Hp, orb_true_r. simpl.
  rewrite Hb. unfold new_agent_id. by rewrite is_blank_trim, Hb.
Qed.

Context `{DS : DebugStr} `{TR : !TrustApi W T} `{OH : !OrchHost W}.

(** An issue the daemon signed itself is shown as waiting for consent,
    although the gate lets it pass without any. *)
Theorem own_issue_shown (o : Orchestrator) claim state at_ approvals issue (s : orch_state W) :
  is_self_authored o issue = true → iss_state issue = "todo" → aps_events approvals = [] →
  is_Some (row_of state at_ approvals issue) ∧
  block_if_network_dispatch_refused (T := T) o claim issue s = (Ok GateProceed, s).
Proof.
  intros Hself Hstate Hevents. split.
  - unfold is_self_authored in Hself. destruct (iss_signature_provenance issue) as [[who| |]|] eqn:Hp; try done.
    simpl in Hself. apply andb_true_iff in Hself as [Hne%negb_true_iff%bool_decide_eq_false _].
    assert (is_blank who = false) as Hb by (destruct (is_blank who) eqn:Hb; [by apply trim_blank in Hb|done]).
    unfold row_of, is_active_approval_state. rewrite Hstate. simpl.
    rewrite (signer_of_verified _ _ Hp Hb). simpl. rewrite Hevents. by eexists.
  - unfold block_if_network_dispatch_refused. rewrite Hself. by destruct (negb _).
Qed.
End shown.
