(* ===== verification/ApiClient.v ===== *)
(** * The client of the daemon (client.rs of x0x-symphony-bin)

    Where the CLI finds the daemon and its token, and one request per call of
    the REST API. *)

From S2P Require Import Prelude Wire Identity Core Text Effects Files Store Claims Approvals Ports.
From S2P Require Import Sandbox Scheduling Proofs Workers Trust Orchestrator Transport Auth WorkflowConfig Api.

Definition DEFAULT_DATA_DIR : string := "~/.x0x-symphony".

(** [client::Options]. *)
Record Options := {
  op_server : option string;
  op_data_dir : option path;
  op_token : option string;
  op_token_file : option path
}.

(** [client::Error]; constructing the HTTP client itself does not fail here. *)
Inductive CallError :=
  | CeConfig (e : ConfigError)
  | CeAuth (e : AuthError)
  | CeReadPort (p : path) (source : IoError)
  | CeInvalidPort (p : path) (value : string)
  | CeRequest (url source : string)
  | CeDecode (url source : string)
  | CeHttp (status : N) (body : string).

Definition show_call_error `{HT : HttpText} (e : CallError) : string :=
  match e with
  | CeConfig e => show_config e
  | CeAuth e => show_auth e
  | CeReadPort p source => "failed to read daemon port file " +:+ p +:+ ": " +:+ io_text source
  | CeInvalidPort p value => "daemon port file " +:+ p +:+ " did not contain a valid port: " +:+ value
  | CeRequest url source => "request to " +:+ url +:+ " failed: " +:+ source
  | CeDecode url source => "failed to decode response from " +:+ url +:+ ": " +:+ source
  | CeHttp status body => "daemon returned HTTP " +:+ ht_status status +:+ ": " +:+ body
  end.

(** serde_json at the types of the API. *)
Class ApiWire `{J : Json} := {
  js_issue_draft : IssueDraft → bytes;
  js_handoff_request : HandoffRequest → bytes;
  js_submit_request : SubmitApprovalRequest → bytes;
  dec_api_tasks : bytes → result (list Task) string;
  dec_api_issue : bytes → result Issue string;
  dec_api_status : bytes → result Status string;
  dec_api_workers : bytes → result WorkersReply string;
  dec_api_pending : bytes → result (list PendingApproval) string;
  dec_api_approval : bytes → result ApprovalEvent string;
  dec_api_claim : bytes → result (string * string) string;
  dec_api_handoff : bytes → result (string * bool) string;
  dec_api_routes : bytes → result (list (string * string)) string;
  dec_api_proofs : bytes → result (list string) string;
  dec_api_proof : bytes → result (string * string) string;
  (** any JSON value *)
  dec_json : string → result Value string
}.

(** [str::parse::<u16>]. *)
Definition u16_max : N := 65535.
Definition parse_u16 (s : string) : option N :=
  n ← parse_digits (match s with String "+" s' => s' | _ => s end);
  if (n <=? u16_max)%N then Some n else None.

(** [SymphonyClient]. *)
Record SymphonyClient := { sy_server : string; sy_token : string }.

(** [SymphonyClient::new]. *)
Definition new_client (server token : string) : SymphonyClient :=
  {| sy_server := drop_slashes server; sy_token := token |}.

Definition PORT_FILE : string := "daemon.port".
Definition loopback_server (port : string) : string := "http://127.0.0.1:" +:+ port.

Section connecting.
Context {W : Type} `{HE : !HostEnv W} `{LF : !LocalFiles W}.

Definition server_from_port_file (data_dir : path) : Run W CallError string :=
  let p := join data_dir PORT_FILE in
  value ← mapping_err (CeReadPort p) (lf_read_to_string p);
  let trimmed := trim value in
  match parse_u16 trimmed with
  | None => throw (CeInvalidPort p trimmed)
  | Some _ => mret (loopback_server trimmed)
  end.

Definition resolved_data_dir (o : Options) : Run W CallError path :=
  match op_data_dir o with
  | Some p => mret p
  | None => mapping_err CeConfig (expand_tilde_path DEFAULT_DATA_DIR "data-dir")
  end.

Definition into_client (o : Options) : Run W CallError SymphonyClient :=
  data_dir ← resolved_data_dir o;
  server ← match op_server o with
           | Some server => mret server
           | None => server_from_port_file data_dir
           end;
  token ← match op_token o with
          | Some token => mret token
          | None =>
              let token_file := default (api_token_path data_dir) (op_token_file o) in
              mapping_err CeAuth (read_api_token token_file)
          end;
  mret (new_client server token).
End connecting.

(** ** Calls *)

Section calls.
Context `{J : Json} `{HT : HttpText} `{AW : !ApiWire} {W : Type} `{TP : !Transport W}.
Context (c : SymphonyClient).

Definition client_url (p : string) : string := sy_server c +:+ p.

Definition api_response {A} (dec : bytes → result A string) (url : string) (response : HttpResponse)
    : result A CallError :=
  decoded_or (CeDecode url) (CeDecode url) CeHttp dec response.
Definition api_call {A} (dec : bytes → result A string) (request : HttpRequest) : Run W CallError A :=
  response ← mapping_err (CeRequest (hr_url request)) (tp_send request);
  lift_result (api_response dec (hr_url request) response).

Definition api_get (p : string) : HttpRequest := {|
  hr_method := "GET"; hr_url := client_url p; hr_bearer := Some (sy_token c);
  hr_accept := Some "application/json"; hr_json := None |}.
Definition api_post (p : string) (body : option bytes) : HttpRequest := {|
  hr_method := "POST"; hr_url := client_url p; hr_bearer := Some (sy_token c);
  hr_accept := None; hr_json := body |}.

Definition tasks_path (state : option string) : string :=
  match state with Some state => "/symphony/tasks?state=" +:+ state | None => "/symphony/tasks" end.
Definition client_tasks (state : option string) : Run W CallError (list Task) :=
  api_call dec_api_tasks (api_get (tasks_path state)).
Definition client_task (id : string) : Run W CallError Issue :=
  api_call dec_api_issue (api_get ("/symphony/tasks/" +:+ id)).
Definition client_status : Run W CallError Status := api_call dec_api_status (api_get "/symphony/status").
Definition client_workers : Run W CallError (list WorkerCard) :=
  response ← api_call dec_api_workers (api_get "/symphony/workers"); mret (wr_workers response).
Definition client_approvals_pending : Run W CallError (list PendingApproval) :=
  api_call dec_api_pending (api_get "/symphony/approvals/pending").

Definition client_submit_approval (id : string) (verdict : ApprovalVerdict)
    (expected_content_hash expected_signer_agent_id : option string) : Run W CallError ApprovalEvent :=
  api_call dec_api_approval (api_post ("/symphony/approvals/" +:+ id) (Some (js_submit_request {|
    sq_verdict := verdict; sq_expected_content_hash := expected_content_hash;
    sq_expected_signer_agent_id := expected_signer_agent_id |}))).
Definition client_approve (id : string) : option string → option string → Run W CallError ApprovalEvent :=
  client_submit_approval id V1Approve.
Definition client_deny (id : string) : option string → option string → Run W CallError ApprovalEvent :=
  client_submit_approval id V1Deny.

Definition client_create_issue (draft : IssueDraft) : Run W CallError Issue :=
  api_call dec_api_issue (api_post "/symphony/issues" (Some (js_issue_draft draft))).
Definition client_claim (id : string) : Run W CallError (string * string) :=
  api_call dec_api_claim (api_post ("/symphony/claim/" +:+ id) None).
Definition client_handoff (id message : string) (file : option string) : Run W CallError (string * bool) :=
  api_call dec_api_handoff (api_post ("/symphony/handoff/" +:+ id)
    (Some (js_handoff_request {| hq_message := message; hq_file := file |}))).
Definition client_routes : Run W CallError (list (string * string)) :=
  api_call dec_api_routes (api_get "/symphony/routes").
Definition client_proofs : Run W CallError (list string) :=
  api_call dec_api_proofs (api_get "/symphony/proofs").
Definition client_proof (name : string) : Run W CallError (string * string) :=
  api_call dec_api_proof (api_get ("/symphony/proofs/" +:+ name)).
End calls.
