(* ===== verification/Cli.v ===== *)
(** * The command line (cli.rs and bin/x0x-symphony.rs of x0x-symphony-bin)

    The commands, what each asks of the daemon, and the text it prints.  Parsing
    the arguments is clap's; a command line is the value it gives. *)

From S2P Require Import Prelude Wire Identity Core Text Effects Files Store Claims Approvals Ports.
From S2P Require Import Sandbox RunnerSpec Scheduling Proofs Workers Trust Orchestrator Transport.
From S2P Require Import Auth WorkflowConfig Api ApiClient.
Import Reconcile.

Inductive ApprovalsCommand :=
  | ApprovalsList
  | ApprovalsApprove (id : string) (expected_hash expected_signer : option string)
  | ApprovalsDeny (id : string) (expected_hash expected_signer : option string).
Inductive ProofsCommand := ProofsList | ProofsShow (name : string).
Inductive IssueCommand :=
  IssueNew (config : path) (title description : string) (priority : option N) (labels : list string).
Inductive ConfigCommand := ConfigShow (config : path) | ConfigCheck (config : path).
Inductive Commands :=
  | CmdTasks (state id : option string)
  | CmdClaim (id : string)
  | CmdHandoff (id message : string) (file : option string)
  | CmdStatus
  | CmdWorkers
  | CmdApprovals (command : ApprovalsCommand)
  | CmdProofs (command : ProofsCommand)
  | CmdIssue (command : IssueCommand)
  | CmdConfig (command : ConfigCommand)
  | CmdRoutes.

Record CommandLine := {
  ln_server : option string;
  ln_data_dir : option path;
  ln_token : option string;
  ln_token_file : option path;
  ln_command : Commands
}.

Record Output := { ou_stdout : string; ou_stderr : string; ou_exit_code : N }.
Definition output_success (stdout : string) : Output := {| ou_stdout := stdout; ou_stderr := ""; ou_exit_code := 0 |}.
Definition output_failure (stderr : string) : Output := {| ou_stdout := ""; ou_stderr := stderr; ou_exit_code := 1 |}.

(** [cli::Error]. *)
Inductive CliError := ClClient (e : CallError) | ClConfig (e : ConfigError).
Definition show_cli_error `{HT : HttpText} (e : CliError) : string :=
  match e with ClClient e => show_call_error e | ClConfig e => show_config e end.

(** ** Text *)

Definition join_lines (lines : list string) : string := str_join LINE_FEED lines +:+ LINE_FEED.
Definition ensure_trailing_newline (content : string) : string :=
  if ends_with LINE_FEED content then content else content +:+ LINE_FEED.

(** [s.chars().take(n)]. *)
Definition continues_char (c : ascii) : bool := in_byte_range 128 191 c.
Fixpoint take_chars (n : nat) (s : string) : string :=
  match s with
  | EmptyString => ""
  | String c s' =>
      if continues_char c then String c (take_chars n s')
      else match n with O => "" | S n => String c (take_chars n s') end
  end.

Definition or_none (rows : list string) : list string := match rows with [] => ["- none"] | _ => rows end.
Definition priority_text (priority : option N) : string :=
  match priority with Some value => "p" +:+ pretty value | None => "p-" end.
Definition joined_or_dash (values : list string) : string :=
  match values with [] => "-" | _ => str_join "," values end.
Definition bool_text (b : bool) : string := if b then "true" else "false".

Definition task_line (task : Task) : string :=
  "- " +:+ ta_identifier task +:+ " [" +:+ ta_state task +:+ "] " +:+ priority_text (ta_priority task) +:+
  " " +:+ ta_title task.
Definition format_tasks (tasks : list Task) : string := join_lines ("tasks:" :: (task_line <$> tasks)).

Section issues.
Context `{J : Json}.

Definition format_task_detail (task : Issue) : string :=
  join_lines (["task:"; "id: " +:+ iss_id task; "identifier: " +:+ iss_identifier task;
    "title: " +:+ iss_title task; "state: " +:+ iss_state task;
    "priority: " +:+ priority_text (iss_priority task); "labels: " +:+ joined_or_dash (iss_labels task)] ++
    match iss_claim task with
    | Some claim => ["claim: " +:+ cl_by claim +:+ " heartbeat " +:+ cl_heartbeat_at claim]
    | None => []
    end ++
    match iss_handoff task with Some handoff => ["handoff: " +:+ ho_summary handoff] | None => [] end).
End issues.

Definition short_agent_id (agent_id : string) : string := take_chars 12 agent_id.
Definition short_hash (content_hash : string) : string := take_chars 12 content_hash.
Definition format_platform (platform : PlatformInfo) : string := pi_os platform +:+ "/" +:+ pi_arch platform.

Definition age_text (seconds : N) : string :=
  (if seconds <? 60 then pretty seconds +:+ "s"
   else if seconds <? 3600 then pretty (seconds / 60) +:+ "m"
   else if seconds <? 86400 then pretty (seconds / 3600) +:+ "h"
   else pretty (seconds / 86400) +:+ "d")%N.

(** The age at a time, in nanoseconds; a card of the future has age zero. *)
Definition age_at (issued_at now : Z) : string :=
  age_text (Z.to_N (Z.max (Z.quot (now - issued_at) 1000000000) 0)).

Definition worker_line (worker : WorkerCard) (age : string) : string :=
  "- " +:+ short_agent_id (wc_agent_id worker) +:+ " caps=" +:+ joined_or_dash (wc_capabilities worker) +:+
  " presets=" +:+ joined_or_dash (wc_runner_presets worker) +:+
  " load=" +:+ pretty (wc_current_load worker) +:+ "/" +:+ pretty (wc_max_load worker) +:+
  " platform=" +:+ format_platform (wc_platform worker) +:+ " age=" +:+ age.

Definition pending_line (approval : PendingApproval) : string :=
  "- " +:+ pa_issue_id approval +:+ " [" +:+ pa_state approval +:+ "] signer " +:+
  pa_signer_agent_id approval +:+ " hash " +:+ short_hash (pa_content_hash approval) +:+ " " +:+
  pa_title approval.
Definition format_pending_approvals (pending : list PendingApproval) : string :=
  join_lines ("approvals:" :: or_none (pending_line <$> pending)).

Definition claim_line (claim : ClaimInfo) : string :=
  "- " +:+ ci_identifier claim +:+ " [" +:+ ci_state claim +:+ "] by " +:+ ci_by claim +:+
  " heartbeat " +:+ ci_heartbeat_at claim.
Definition format_status (status : Status) : string :=
  join_lines (["status:"; "agent: " +:+ st_agent_id status;
    "orchestrator_attached: " +:+ bool_text (st_orchestrator_attached status); "counts:"] ++
    match btree_iter (st_counts status) with
    | [] => ["- none: 0"]
    | counts => (λ p, "- " +:+ p.1 +:+ ": " +:+ pretty p.2) <$> counts
    end ++
    "active_claims:" :: or_none (claim_line <$> st_active_claims status)).

Definition format_routes (routes : list (string * string)) : string :=
  join_lines ("routes:" :: ((λ route, "- " +:+ route.1 +:+ " " +:+ route.2) <$> routes)).
Definition format_proofs (proofs : list string) : string :=
  join_lines ("proofs:" :: or_none ((λ proof, "- " +:+ proof) <$> proofs)).

Definition format_validation_errors (problems : list string) : string :=
  join_lines ((λ problem, "error: " +:+ problem) <$> problems).
Definition format_validation_warnings (warnings : list string) : string :=
  match warnings with [] => "" | _ => join_lines ((λ warning, "warning: " +:+ warning) <$> warnings) end.

(** ** Conflicts of approvals *)

Section conflicts.
Context `{J : Json} `{JT : !JsonTree} `{AW : !ApiWire}.

Definition daemon_error_detail (body : string) : option string :=
  match dec_json body with
  | Ok value => fields ← as_object value; error ← fields !! "error"; as_text error
  | Err _ => None
  end.

Definition STALE_VIEW : string :=
  "issue payload changed since you viewed it; re-check and retry" +:+ LINE_FEED.
Definition conflict_text (detail : string) : string :=
  if str_contains "issue payload changed" detail || str_contains "issue signer changed" detail ||
     bool_decide (detail = "") then STALE_VIEW
  else
    match strip_prefix "conflict: " detail with
    | Some stripped => "approval conflict: " +:+ stripped +:+ LINE_FEED
    | None => "approval conflict: " +:+ detail +:+ LINE_FEED
    end.
Definition format_approval_conflict (body : string) : string :=
  conflict_text (default (trim body) (daemon_error_detail body)).

Definition approval_error_output (error : CallError) : result Output CliError :=
  match error with
  | CeHttp status body =>
      if (status =? 409)%N then Ok (output_failure (format_approval_conflict body)) else Err (ClClient error)
  | _ => Err (ClClient error)
  end.
End conflicts.

(** ** Dispatch *)

Section dispatch.
Context `{J : Json} `{JT : !JsonTree} `{AW : !ApiWire} `{HT : HttpText} `{C : Chrono} `{RC : !RunnerCodec}
  `{DS : Containment.DebugStr}.
Context {W : Type} `{TP : !Transport W} `{M : !Machine W} `{HE : !HostEnv W} `{F : !Fs W} `{LF : !LocalFiles W}.

(** The run of a command; an error of the client is one of the CLI. *)
Definition Dispatch (A : Type) : Type := Run W CliError A.
Definition asking {A} (c : Run W CallError A) : Dispatch A := mapping_err ClClient c.

(** The clock is read for every worker whose time of issue parses. *)
Definition worker_age (issued_at : string) : Dispatch string :=
  match parse_from_rfc3339 issued_at with
  | Err _ => mret "unknown"
  | Ok issued_at => now ← embed clock_now; mret (age_at issued_at now)
  end.
Fixpoint worker_lines (workers : list WorkerCard) : Dispatch (list string) :=
  match workers with
  | [] => mret []
  | worker :: workers =>
      age ← worker_age (wc_issued_at worker);
      rest ← worker_lines workers;
      mret (worker_line worker age :: rest)
  end.
Definition format_workers (workers : list WorkerCard) : Dispatch string :=
  rows ← worker_lines workers; mret (join_lines ("workers:" :: or_none rows)).

Definition run_issue (c : SymphonyClient) (command : IssueCommand) : Dispatch Output :=
  let 'IssueNew _ title description priority labels := command in
  issue ← asking (client_create_issue c {|
    id_title := title; id_description := if is_blank description then None else Some description;
    id_priority := Z.of_N <$> priority; id_labels := labels |});
  mret (output_success ("created " +:+ iss_identifier issue +:+ LINE_FEED)).

(** The verdict's answer, in one word. *)
Definition run_verdict (verdict : string) (c : Run W CallError ApprovalEvent) : Dispatch Output :=
  answer ← catch c;
  match answer with
  | Ok event => mret (output_success (av_issue_id event +:+ " " +:+ verdict +:+ LINE_FEED))
  | Err error => lift_result (approval_error_output error)
  end.

Definition INTERNAL_ERROR : string := "internal error: local command reached daemon dispatch" +:+ LINE_FEED.

Definition run_with (c : SymphonyClient) (command : Commands) : Dispatch Output :=
  match command with
  | CmdTasks _ (Some id) =>
      task ← asking (client_task c id); mret (output_success (format_task_detail task))
  | CmdTasks state None =>
      tasks ← asking (client_tasks c state); mret (output_success (format_tasks tasks))
  | CmdClaim id =>
      claim ← asking (client_claim c id);
      mret (output_success ("claimed " +:+ claim.1 +:+ " by " +:+ claim.2 +:+ LINE_FEED))
  | CmdHandoff id message file =>
      response ← asking (client_handoff c id message file);
      mret (output_success (if response.2 : bool then "handoff recorded for " +:+ response.1 +:+ LINE_FEED
                            else "handoff not recorded for " +:+ response.1 +:+ LINE_FEED))
  | CmdStatus => status ← asking (client_status c); mret (output_success (format_status status))
  | CmdWorkers =>
      workers ← asking (client_workers c);
      text ← format_workers workers;
      mret (output_success text)
  | CmdApprovals ApprovalsList =>
      pending ← asking (client_approvals_pending c);
      mret (output_success (format_pending_approvals pending))
  | CmdApprovals (ApprovalsApprove id expected_hash expected_signer) =>
      run_verdict "approved" (client_approve c id expected_hash expected_signer)
  | CmdApprovals (ApprovalsDeny id expected_hash expected_signer) =>
      run_verdict "denied" (client_deny c id expected_hash expected_signer)
  | CmdProofs ProofsList => proofs ← asking (client_proofs c); mret (output_success (format_proofs proofs))
  | CmdProofs (ProofsShow name) =>
      proof ← asking (client_proof c name);
      mret (output_success (ensure_trailing_newline proof.2))
  | CmdRoutes => routes ← asking (client_routes c); mret (output_success (format_routes routes))
  | CmdIssue command => run_issue c command
  | CmdConfig _ => mret (output_failure INTERNAL_ERROR)
  end.

Definition client_options (l : CommandLine) : Options := {|
  op_server := ln_server l; op_data_dir := ln_data_dir l; op_token := ln_token l;
  op_token_file := ln_token_file l |}.
Definition run_daemon_command (l : CommandLine) (command : Commands) : Dispatch Output :=
  c ← asking (into_client (client_options l));
  run_with c command.

(** serde_json's pretty printer; the keys of an object are sorted in a map. *)
Context (to_string_pretty : Value → result string string).

Definition pretty_config_json (workflow : WorkflowConfig) : result string ConfigError :=
  map_err CfJson (to_string_pretty (wc_definition workflow).1).

Definition run_config (command : ConfigCommand) : Dispatch Output :=
  match command with
  | ConfigShow config =>
      workflow ← mapping_err ClConfig (load config);
      text ← lift_result (map_err ClConfig (pretty_config_json workflow));
      mret (output_success (text +:+ LINE_FEED))
  | ConfigCheck config =>
      loaded ← catch (load config);
      mret (match loaded with
            | Ok workflow => {| ou_stdout := "config ok" +:+ LINE_FEED;
                                ou_stderr := format_validation_warnings (wc_warnings workflow);
                                ou_exit_code := 0 |}
            | Err (CfInvalid problems) => output_failure (format_validation_errors problems)
            | Err error => output_failure (show_config error +:+ LINE_FEED)
            end)
  end.

Definition run (l : CommandLine) : Dispatch Output :=
  match ln_command l with
  | CmdConfig command => run_config command
  | command => run_daemon_command l command
  end.

(** [run] of bin/x0x-symphony.rs: what is printed, and the exit code. *)
Definition run_process (l : CommandLine) (w : W) : Output * W :=
  match run l w with
  | (Ok output, w) => (output, w)
  | (Err error, w) => (output_failure ("error: " +:+ show_cli_error error +:+ LINE_FEED), w)
  end.
End dispatch.

(** The exit code of a command line that clap does not parse. *)
Definition exit_code_from_i32 (value : Z) : N :=
  if ((0 <=? value) && (value <=? 255))%Z then Z.to_N value else 1.
