(* ===== verification/Symphonyd.v ===== *)
(** * The daemon (bin/x0x-symphonyd.rs, and validate_loopback_bind of api.rs)

    What the daemon builds from its arguments and the workflow file before it
    serves anything ([prepare]), the maintenance before it listens, the port
    file, the reaper's scans and the forwarding of events.  Waiting for signals
    and the select between the poll loop and the server are tokio's. *)

From S2P Require Import Prelude Wire Identity Core Text Effects Files Store Client Claims Approvals Ports.
From S2P Require Import Containment Sandbox Native HostSandbox RunnerSpec ShellRunner Manager Scheduling.
From S2P Require Import Proofs Workers Trust Gate FoldTypes Tracker Mapping TaskLists Orchestrator Transport.
From S2P Require Import Signer GossipClient X0xdClient Auth WorkflowConfig Api ApiClient.
Import Reconcile Retry Shards.

(** ** Addresses *)

Inductive IpAddr := V4 (a b c d : N) | V6 (bits : N).
Record SocketAddr := { sa_ip : IpAddr; sa_port : N }.

(** [IpAddr::is_loopback]. *)
Definition is_loopback (ip : IpAddr) : bool :=
  match ip with V4 a _ _ _ => (a =? 127)%N | V6 bits => (bits =? 1)%N end.

(** Parsing and printing an address, and the listening sockets. *)
Class Sockets (W : Type) := {
  so_parse : string → result SocketAddr string;
  so_show : SocketAddr → string;
  so_bind : SocketAddr → Run W string N;
  so_local_addr : N → Run W string SocketAddr
}.

Definition validate_loopback_bind {W} `{SO : !Sockets W} (value : string) : result SocketAddr ApiError :=
  let? addr := map_err (AeInvalidBind value) (so_parse value) in
  if is_loopback (sa_ip addr) then Ok addr else Err (AeNonLoopbackBind (so_show addr)).

(** ** Arguments and errors *)

Record Args := { ar_config : path; ar_data_dir : string; ar_bind : string; ar_agent_id : string }.

(** [anyhow::Error]: an error as it is, one under a message, or a message. *)
Inductive DaemonError :=
  | DeApi (e : ApiError)
  | DeConfig (e : ConfigError)
  | DeAuth (e : AuthError)
  | DeAgent (e : SymphonyError string)
  | DeDiscovery (e : DiscoveryError)
  | DeContext (context source : string)
  | DeMessage (message : string).

(** The path of some components, and [Path::parent]. *)
Definition component_text (c : Component) : path :=
  match c with RootDir => "/" | CurDir => "." | ParentDir => ".." | Normal name => name end.
Definition path_of (cs : list Component) : path := foldl (λ p c, join p (component_text c)) "" cs.
Definition parent (p : path) : option path := path_of <$> parent_components p.

Definition workflow_root (config_path : path) : path := default "." (parent config_path).

Section card_and_tracker.
Context `{J : Json}.

(** ** The local worker card *)

Definition push_unique (values : list string) (value : string) : list string :=
  if existsb (λ existing, bool_decide (existing = value)) values then values else values ++ [value].

Definition configured_or_default_capabilities (workflow : WorkflowConfig) (spec : RunnerSpec) : list string :=
  match wkc_capabilities (wc_workers workflow) with
  | [] => match rs_preset spec with
          | Some preset => push_unique ["shell"] (preset_str preset)
          | None => ["shell"]
          end
  | configured => configured
  end.
Definition configured_or_default_sandbox_levels (workflow : WorkflowConfig) (spec : RunnerSpec) : list string :=
  match wkc_sandbox_levels (wc_workers workflow) with
  | [] => match rs_sandbox spec with
          | Some sandbox => [profile_str (sx_profile sandbox)]
          | None => ["unsandboxed"]
          end
  | configured => configured
  end.
Definition configured_or_default_runner_presets (workflow : WorkflowConfig) (spec : RunnerSpec) : list string :=
  match wkc_runner_presets (wc_workers workflow) with
  | [] => [match rs_preset spec with Some preset => preset_str preset | None => "shell" end]
  | configured => configured
  end.

(** The card of this daemon; [u32::try_from] saturates. *)
Definition daemon_card (here : PlatformInfo) (workflow : WorkflowConfig) (spec : RunnerSpec) (agent_id : string)
    : WorkerCard :=
  local_worker_card_template here agent_id (wkc_ttl_seconds (wc_workers workflow))
    (configured_or_default_capabilities workflow spec) (configured_or_default_sandbox_levels workflow spec)
    (configured_or_default_runner_presets workflow spec)
    (N.min (ag_max_concurrent_agents (wc_agent workflow)) u32_max).

(** ** The tracker *)

(** The setters of the builder that [new_builder] leaves at their defaults. *)
Definition builder_with (b : X0xCrdtTrackerBuilder) (signing : SigningRuntime) (factor : N)
    (policy : StorePolicyMode) : X0xCrdtTrackerBuilder := {|
  bl_list_id := bl_list_id b; bl_agent_id := bl_agent_id b; bl_signing := signing;
  bl_group := bl_group b; bl_worker_view := true; bl_replication_factor := factor;
  bl_v2_store_policy := policy; bl_v2_settle := bl_v2_settle b; bl_v2_fold_limits := bl_v2_fold_limits b |}.

Definition v2_needs_signing (list_id : string) : string :=
  "tracker.list_id " +:+ list_id +:+ " addresses the tracker-integrity v2 namespace, which requires " +:+
  "signing.policy = " +:+ dquote +:+ "required" +:+ dquote +:+
  " (every v2 mutation is an ML-DSA-signed chained event)".

(** The store policy of a v2 list. *)
Definition v2_store_mode (value : option string) : result StorePolicyMode DaemonError :=
  match value with
  | None => Ok AppendOnly
  | Some value =>
      ok_or (from_config_value value)
        (DeMessage ("tracker.v2_store_policy `" +:+ value +:+ "` is not a known mode"))
  end.

Definition build_tracker (status : N → string) (workflow : WorkflowConfig) (agent_id : string)
    : result X0xCrdtTracker DaemonError :=
  let list_id := tc_list_id (wc_tracker workflow) in
  let is_v2 := is_v2_namespace list_id in
  let required := bool_decide (sgc_policy (wc_signing workflow) = SigningRequired) in
  bail (DeMessage (v2_needs_signing list_id)) when is_v2 && negb required;
  let b := new_builder list_id agent_id in
  let b := match tc_group (wc_tracker workflow) with Some group => builder_group group b | None => b end in
  let? mode := (if is_v2 then v2_store_mode (tc_v2_store_policy (wc_tracker workflow))
                else Ok (bl_v2_store_policy b)) in
  map_err (λ e, DeContext "failed to configure x0x CRDT tracker" (show_tracker_error status e))
    (build (builder_with b (if required then signing_required else signing_disabled)
              (shc_replication_factor (wc_sharding workflow)) mode)).

End card_and_tracker.

(** ** Everything before the first request *)

(** What [run] holds when it has built its parts. *)
Record Prepared `{J : Json} := {
  pd_bind_addr : SocketAddr;
  pd_data_dir : path;
  pd_workflow : WorkflowConfig;
  pd_proofs_dir : path;
  pd_api_token : string;
  pd_agent_id : string;
  pd_signer : Endpoint;
  pd_card : WorkerCard;
  pd_discovery : WorkerDiscovery;
  pd_gossip : Endpoint;
  pd_tracker : X0xCrdtTracker;
  pd_client : Endpoint;
  pd_runner : ShellRunner;
  pd_workspace : Manager;
  pd_config : Config;
  pd_trust : X0xdTrustClient
}.

Section prepare.
Context `{X : Extern} `{E : Encoders} `{HT : HttpText} `{SW : SigningWire} `{J : Json} `{JT : !JsonTree}
  `{RC : !RunnerCodec} `{DS : DebugStr} {W : Type} `{TP : !Transport W} `{M : !Machine W} `{HE : !HostEnv W}
  `{F : !Fs W} `{LF : !LocalFiles W} `{LL : !Landlock W} `{NO : !NativeOs W} `{CP : !ChildProcess W}
  `{SO : !Sockets W}.

(** The run of [run]: the world and the signing client's key. *)
Definition Starting (A : Type) : Type := Run (SignerWorld W) DaemonError A.
Definition step {A F'} (f : F' → DaemonError) (c : Run W F' A) : Starting A := on_first (mapping_err f c).

Definition load_workflow (config_path : path) : Run W ConfigError WorkflowConfig := load config_path.

(** [build_signing_identity]. *)
Definition build_signing_identity (workflow : WorkflowConfig) : Starting (string * Endpoint) :=
  signer ← embed (on_first_plain (new_signing_client (sgc_x0xd_url (wc_signing workflow))));
  identity ← mapping_err (λ e, DeContext "failed to read x0xd agent identity" (show_signing_error e))
               (agent_identity signer);
  agent_id ← lift_result (map_err DeAgent (new_agent_id identity));
  mret (agent_id, signer).

(** [build_worker_discovery]. *)
Definition build_worker_discovery (workflow : WorkflowConfig) (agent_id : string) (card : WorkerCard)
    : Starting (WorkerDiscovery * Endpoint) :=
  token ← embed (on_first_plain x0xd_api_token);
  discovery ← lift_result (map_err DeDiscovery
    (new_discovery agent_id card (wkc_publish_enabled (wc_workers workflow))));
  mret (discovery, new_gossip_client (sgc_x0xd_url (wc_signing workflow)) token).

Definition with_proofs_dir (c : Config) (proofs_dir : path) : Config := {|
  cf_agent_id := cf_agent_id c; cf_active_states := cf_active_states c;
  cf_terminal_states := cf_terminal_states c; cf_polling_interval := cf_polling_interval c;
  cf_global_concurrency := cf_global_concurrency c; cf_per_state_concurrency := cf_per_state_concurrency c;
  cf_retry := cf_retry c; cf_hooks := cf_hooks c; cf_proofs_dir := proofs_dir;
  cf_retention := cf_retention c; cf_validation_commands := cf_validation_commands c;
  cf_claim_ttl := cf_claim_ttl c; cf_required_trust := cf_required_trust c;
  cf_network_dispatch := cf_network_dispatch c; cf_approval_ttl := cf_approval_ttl c;
  cf_approval_webhook_url := cf_approval_webhook_url c; cf_shutdown_grace := cf_shutdown_grace c |}.

Definition prepare (here : PlatformInfo) (args : Args) : Starting Prepared :=
  bind_addr ← lift_result (map_err DeApi (validate_loopback_bind (ar_bind args)));
  data_dir ← step DeConfig (expand_tilde_path (ar_data_dir args) "data-dir");
  workflow ← step DeConfig (load_workflow (ar_config args));
  let proofs_dir := join (workflow_root (ar_config args)) "proofs" in
  api_token ← step DeAuth (load_or_generate_api_token data_dir);
  '(agent_id, signer) ← build_signing_identity workflow;
  spec ← step (λ e, DeContext "runner configuration did not resolve" (show_runner e))
           (from_workflow_config (wc_definition workflow).1);
  let card := daemon_card here workflow spec agent_id in
  '(discovery, gossip) ← build_worker_discovery workflow agent_id card;
  client ← embed (on_first_plain (new_x0xd_client (sgc_x0xd_url (wc_signing workflow))));
  tracker ← lift_result (build_tracker ht_status workflow agent_id);
  runner ← step (λ e, DeContext "failed to build shell runner" (show_runner e)) (new_shell_runner spec);
  workspace ← step (λ e, DeContext "failed to initialize workspace manager" (show_ws e))
                (Manager.new_manager (new_manager_config (wc_workspace_root workflow)));
  config ← lift_result (map_err DeConfig (to_orchestrator_config workflow agent_id));
  trust ← step (λ e : OrchError string, DeContext "failed to configure x0xd trust client" (show_orch id e))
            (new_trust_client (sgc_x0xd_url (wc_signing workflow)));
  mret {| pd_bind_addr := bind_addr; pd_data_dir := data_dir; pd_workflow := workflow;
          pd_proofs_dir := proofs_dir; pd_api_token := api_token; pd_agent_id := agent_id;
          pd_signer := signer; pd_card := card; pd_discovery := discovery; pd_gossip := gossip;
          pd_tracker := tracker; pd_client := client; pd_runner := runner; pd_workspace := workspace;
          pd_config := with_proofs_dir config proofs_dir; pd_trust := trust |}.

(** The orchestrator and the state of the API, as [run] and [build_app] set
    them. *)
Definition daemon_orchestrator (p : Prepared) : Orchestrator := {|
  or_config := pd_config p; or_signing_client := true; or_key_resolver := true; or_events_tx := true |}.
Definition app_state {S} (p : Prepared) (snapshot : S → WorkerViewSnapshot * S) : AppState S := {|
  st_proofs_dir := pd_proofs_dir p; st_agent := pd_agent_id p; st_orchestrator := true;
  st_api_token := pd_api_token p; st_signing_client := true; st_worker_discovery := Some snapshot;
  st_approval_ttl := sec_approval_ttl (wc_security (pd_workflow p)) |}.

(** ** Listening *)

Definition bind_http (bind_addr : SocketAddr) (data_dir : path) : Run W DaemonError (SocketAddr * path) :=
  listener ← mapping_err (DeContext ("failed to bind " +:+ so_show bind_addr)) (so_bind bind_addr);
  actual_addr ← mapping_err (DeContext "failed to read local addr") (so_local_addr listener);
  let port_file := join data_dir PORT_FILE in
  _ ← mapping_err (λ e, DeContext ("failed to write " +:+ port_file) (io_text e))
        (fs_write port_file (pretty (sa_port actual_addr) +:+ LINE_FEED));
  mret (actual_addr, port_file).
End prepare.

(** ** Events *)

Definition dispatch_event_notice (event : DispatchEvent) : EventNotice :=
  match event with
  | ApprovalRequested issue_id signer_agent_id =>
      {| en_kind := "approval_requested";
         en_data := NoticeObject {[ "issue_id" := issue_id; "signer_agent_id" := signer_agent_id ]} |}
  | ApprovalExpired issue_id =>
      {| en_kind := "approval_expired"; en_data := NoticeObject {[ "issue_id" := issue_id ]} |}
  end.

(** What the receiver of the dispatch events gets, up to the first closed
    channel, and what the forwarder sends. *)
Inductive Received := GotEvent (event : DispatchEvent) | GotLagged (skipped : N) | GotClosed.
Fixpoint forward_events {W} `{EB : !EventBus W} (received : list Received) (w : W) : W :=
  match received with
  | GotEvent event :: received => forward_events received (eb_send (dispatch_event_notice event) w).2
  | GotLagged _ :: received => forward_events received w
  | GotClosed :: _ | [] => w
  end.

(** ** Beside the poll loop *)

Section serving.
Context `{X : Extern} `{J : Json} `{C : Chrono} `{V : ApprovalCodec} `{Dbg : DebugStr}.
Context `{CF : ChronoFormat} `{MC : ManifestCodec}.
Context {W : Type}.
Context `{TK : !TrackerApi W string} `{RN : !RunnerApi W string} `{WK : !WorkspaceApi W string}.
Context `{SG : !SigningApi W} `{TR : !TrustApi W string} `{TT : !TrackerText string}.
Context `{F : !Fs W} `{M : !Machine W} `{OH : !OrchHost W} `{SO : !Sockets W}.

(** The run of a task beside the loop: it only looks at the loop's state. *)
Definition Beside (A : Type) : Type := Run (orch_state W) DaemonError A.
Definition context {A} (text : string) (c : Run W (SymphonyError string) A) : Beside A :=
  on_world (mapping_err (λ e, DeContext text (show_symphony id e)) c).

(** The tracker's [ensure_surfaces], and what only shows in the log. *)
Definition run_startup_maintenance (ensure_surfaces : Run W (SymphonyError string) unit) (o : Orchestrator)
    : Beside unit :=
  _ ← context "failed to ensure x0xd tracker surfaces" ensure_surfaces;
  _ ← catch (Orchestrator.reconcile o);
  _ ← mapping_err (λ e, DeContext "orphan workspace sweep failed" (show_orch id e)) (sweep_orphans o);
  mret ().

(** The second half of [run], up to the sockets: the port file is written when
    the maintenance is over. *)
Definition bring_up (ensure_surfaces : Run W (SymphonyError string) unit) (o : Orchestrator)
    (bind_addr : SocketAddr) (data_dir : path) : Beside (SocketAddr * path) :=
  _ ← run_startup_maintenance ensure_surfaces o;
  on_world (bind_http bind_addr data_dir).

(** *** The reaper of proofs *)

Definition in_progress_ids (issues : list Issue) : list string :=
  iss_id <$> List.filter (λ issue, bool_decide (iss_state issue = "in_progress")) issues.
Definition proof_reaper_active_issue_ids : Beside (gset string) :=
  issues ← context "failed to list issues for proof reaper active set" tk_list_issues;
  active ← gets in_flight_issue_ids;
  mret (active ∪ list_to_set (in_progress_ids issues)).

(** A scan that cannot tell which issues are active does nothing. *)
Definition run_proof_reaper_scan (o : Orchestrator) (proofs_dir : path) : Beside (option ReapReport) :=
  let retention := cf_retention (or_config o) in
  active ← catch proof_reaper_active_issue_ids;
  match active with
  | Err _ => mret None
  | Ok active =>
      now ← on_world (embed clock_now);
      report ← on_world (catch (reap_old_proofs proofs_dir now (rt_proofs_days retention) active));
      mret match report with Ok report => Some report | Err _ => None end
  end.

(** The rounds of the task that reaps, each with its wait. *)
Fixpoint spawn_proof_reaper (rounds : nat) (o : Orchestrator) (proofs_dir : path) : Beside unit :=
  match rounds with
  | O => mret ()
  | S rounds =>
      _ ← run_proof_reaper_scan o proofs_dir;
      _ ← on_world (embed (oh_sleep (rt_reap_interval (cf_retention (or_config o)))));
      spawn_proof_reaper rounds o proofs_dir
  end.

(** A round of the task that tells the discovery of workers the current load. *)
Definition update_worker_load {D} (s : orch_state W) : DM (W := D) unit := set_current_load (current_load s).
End serving.
