(* ===== verification/Fixture.v ===== *)
(** * A concrete list

    An instance of the external interface with toy cryptography (the digest of
    a byte string is its last byte; a signature verifies when it ends in the
    same byte as the key), codecs that are finite tables, an in-memory daemon,
    and one small list of two authors that uses every record type.  The
    theorems are applied to it to show that their hypotheses can hold. *)

From S2P Require Import Prelude Wire Identity FoldTypes Canonical Admission Fold FoldRun Store.

Module Fixture.
Fixpoint last_byte (s : string) : string :=
  match s with
  | EmptyString => "0"
  | String c EmptyString => String c EmptyString
  | String _ s' => last_byte s'
  end.

Fixpoint pad (n : nat) (s : string) : string :=
  match n with O => s | S n => String "." (pad n s) end.

(** "KA" is the key of author A, "SA" a signature of author A, and "=x" is
    the encoding of "x". *)
Definition demo_b64 (s : string) : result string string :=
  match s with
  | String "K" who => Ok (pad 1951 who)
  | String "S" who => Ok (pad 3308 who)
  | String "=" text => Ok text
  | _ => Err "invalid base64"
  end.

Definition key_of (who : string) : bytes := pad 1951 who.

(** Hex digests of one-letter payloads. *)
Definition hx (s : string) : string := hex_encode s.
Definition alice : string := hx "A".
Definition bob : string := hx "B".

(** ** Codecs as tables *)

Definition dec {A} (table : list (string * A)) (s : bytes) : result A string :=
  match List.find (λ p, bool_decide (p.1 = s)) table with
  | Some p => Ok p.2
  | None => Err "no such record"
  end.

Definition enc {A} `{EqDecision A} (table : list (string * A)) (a : A) : result bytes string :=
  match List.find (λ p, bool_decide (p.2 = a)) table with
  | Some p => Ok p.1
  | None => Err "not encodable"
  end.

Lemma table_roundtrip {A} `{EqDecision A} (table : list (string * A)) a s :
  NoDup table.*1 → enc table a = Ok s → s ∈ table.*1 ∧ dec table s = Ok a.
Proof.
  unfold enc, dec. intros Hnd. induction table as [|[k v] table IH]; simpl; [done|].
  simpl in Hnd. apply NoDup_cons in Hnd as [Hk Hnd].
  destruct (decide (v = a)) as [->|Hne].
  - rewrite bool_decide_eq_true_2 by done. intros [= <-].
    rewrite bool_decide_eq_true_2 by done. set_solver.
  - rewrite bool_decide_eq_false_2 by done. intros H. destruct (IH Hnd H) as [Hs Hd].
    rewrite bool_decide_eq_false_2 by (intros ->; done). set_solver.
Qed.

(** ** The records *)

Definition env (who : string) (context payload : string) : EventEnvelope := {|
  env_schema := V2_SCHEMA; env_algorithm := V2_SIGN_ALGORITHM;
  env_context := context; env_payload_b64 := "=" +:+ payload;
  env_signature_b64 := "S" +:+ who; env_public_key_b64 := "K" +:+ who;
  env_signer_agent_id := hx who |}.

Definition genesis : GenesisManifestV2 := {|
  gen_schema := V2_SCHEMA; gen_kind := "genesis"; gen_list_uuid := "u";
  gen_creator := alice; gen_roster := [alice];
  gen_policy := {| gp_required_trust := None |}; gen_created_at := 0 |}.

Definition roster1 : RosterEventV2 := {|
  ros_schema := V2_SCHEMA; ros_kind := "roster"; ros_list_uuid := "u";
  ros_genesis_manifest_hash := hx "g"; ros_roster_epoch := 1; ros_prev_roster_hash := hx "g";
  ros_roster := [alice; bob]; ros_actor := alice |}.

Definition transition (epoch : N) (actor : string) (lamport seq : N) (prev : string)
    (kind : TransitionKind) : TransitionEventV2 := {|
  tr_schema := V2_SCHEMA; tr_list_uuid := "u"; tr_genesis_manifest_hash := hx "g";
  tr_roster_epoch := epoch; tr_issue_id := "i"; tr_actor := actor; tr_lamport := lamport;
  tr_author_seq := seq; tr_prev_own_event_hash := prev; tr_kind := kind |}.

Definition approval : ApprovalEventV2 := {|
  ae_schema := V2_SCHEMA; ae_kind := "dispatch_approval"; ae_list_uuid := "u";
  ae_genesis_manifest_hash := hx "g"; ae_roster_epoch := 0; ae_issue_id := "i";
  ae_open_event_hash := hx "o"; ae_actor := alice; ae_lamport := 2; ae_author_seq := 2;
  ae_prev_own_event_hash := hx "o"; ae_verdict := Approve; ae_entropy := "x";
  ae_approved_at := 100; ae_v1_record_json := "{}" |}.

Definition consume : ConsumeEventV2 := {|
  ce_schema := V2_SCHEMA; ce_kind := "consume"; ce_list_uuid := "u";
  ce_genesis_manifest_hash := hx "g"; ce_roster_epoch := 1; ce_issue_id := "i";
  ce_actor := bob; ce_lamport := 4; ce_author_seq := 2; ce_prev_own_event_hash := hx "c";
  ce_approval_event_hash := hx "a"; ce_approval_payload_sha256 := hx "a";
  ce_approver := alice; ce_claim_nonce := "n"; ce_claimed_event_hash := hx "c";
  ce_entropy := hx "e"; ce_v1_record_json := "" |}.

Definition handoff : HandoffEventV2 := {|
  he_schema := V2_SCHEMA; he_kind := "handoff"; he_list_uuid := "u";
  he_genesis_manifest_hash := hx "g"; he_roster_epoch := 1; he_issue_id := "i";
  he_actor := bob; he_lamport := 5; he_author_seq := 3; he_prev_own_event_hash := hx "d";
  he_claim_nonce := "n"; he_claimed_event_hash := hx "c"; he_summary := "done";
  he_files_changed := []; he_validation := []; he_follow_up := []; he_proofs_dir := None |}.

Definition open_event : TransitionEventV2 :=
  transition 0 alice 1 1 (hx "g") (TkOpen "T" "P" (hx "T") (hx "P")).
Definition claim_event : TransitionEventV2 := transition 1 bob 3 1 (hx "g") (TkClaim "n").
Definition complete_event : TransitionEventV2 :=
  transition 1 bob 6 4 (hx "h") (TkComplete "n" (hx "c")).
(** A future-dated claim. *)
Definition future_event : TransitionEventV2 := transition 1 bob 200 5 (hx "e") (TkClaim "m").

(** Bob's claim with the nonce [build_claim_transition] derives. *)
Definition derived_claim : TransitionEventV2 := transition 1 bob 3 1 (hx "g") (TkClaim (hx "m")).
Definition block_event : TransitionEventV2 :=
  transition 1 bob 4 2 (hx "c") (TkBlock "n" (hx "c") AwaitingApproval).
(** Bob's approval of the block, and the requeue that carries it. *)
Definition block_approval : ApprovalPayloadV2 := {|
  ap_schema := V2_SCHEMA; ap_kind := "approval"; ap_list_uuid := "u";
  ap_genesis_manifest_hash := hx "g"; ap_issue_id := "i"; ap_block_event_hash := hx "b";
  ap_claim_nonce := "n"; ap_approver := bob; ap_approved_at := 100 |}.
Definition requeue_event : TransitionEventV2 :=
  transition 1 bob 5 3 (hx "b") (TkRequeue {|
    rj_block_event_hash := hx "b"; rj_claim_nonce := "n"; rj_approval_event_hash := hx "p";
    rj_approval_payload_sha256 := hx "p"; rj_approver := bob;
    rj_approval := env "B" APPROVAL_CONTEXT_V2 "p" |}).

(** Bob opens an issue with a blank title. *)
Definition blank_event : TransitionEventV2 := {|
  tr_schema := V2_SCHEMA; tr_list_uuid := "u"; tr_genesis_manifest_hash := hx "g";
  tr_roster_epoch := 1; tr_issue_id := "i32"; tr_actor := bob; tr_lamport := 3;
  tr_author_seq := 1; tr_prev_own_event_hash := hx "g";
  tr_kind := TkOpen " " "" (hx " ") (hx "0") |}.

Definition transitions : list (string * TransitionEventV2) :=
  [("o", open_event); ("c", claim_event); ("e", complete_event); ("f", future_event);
   ("k", derived_claim); ("b", block_event); ("q", requeue_event);
   ("w", blank_event)].

Definition envelopes : list (string * EventEnvelope) :=
  [("g", env "A" GENESIS_CONTEXT_V2 "g"); ("r", env "A" ROSTER_CONTEXT_V2 "r");
   ("o", env "A" TRANSITION_CONTEXT_V2 "o"); ("a", env "A" APPROVAL_CONTEXT_V2 "a");
   ("c", env "B" TRANSITION_CONTEXT_V2 "c"); ("d", env "B" CONSUME_CONTEXT_V2 "d");
   ("h", env "B" HANDOFF_CONTEXT_V2 "h"); ("e", env "B" TRANSITION_CONTEXT_V2 "e");
   ("f", env "B" TRANSITION_CONTEXT_V2 "f"); ("k", env "B" TRANSITION_CONTEXT_V2 "k");
   ("b", env "B" TRANSITION_CONTEXT_V2 "b"); ("q", env "B" TRANSITION_CONTEXT_V2 "q");
   ("w", env "B" TRANSITION_CONTEXT_V2 "w")].

#[export] Instance demo : Extern := {|
  sha256 := last_byte;
  b64_decode := demo_b64;
  MlDsaPublicKey := bytes;
  MlDsaSignature := bytes;
  pk_from_bytes := Ok;
  sig_from_bytes := Ok;
  mldsa_verify := λ pk _ sig, Ok (bool_decide (last_byte pk = last_byte sig));
  json_envelope := dec envelopes;
  json_genesis := dec [("g", genesis)];
  json_roster := dec [("r", roster1)];
  json_approval_payload := dec [("p", block_approval)];
  json_transition := dec transitions;
  json_approval := dec [("a", approval)];
  json_consume := dec [("d", consume)];
  json_handoff := dec [("h", handoff)]
|}.

Lemma dec_elem {A} (table : list (string * A)) s a :
  dec table s = Ok a → a ∈ table.*2.
Proof.
  unfold dec. destruct (List.find _ table) as [[k v]|] eqn:Hf; [|done]. intros [= <-].
  apply find_some in Hf as [Hin _]. apply list_elem_of_In in Hin.
  by apply (list_elem_of_fmap_2 snd) in Hin.
Qed.

#[export] Instance demo_laws : ExternLaws.
Proof.
  constructor. intros [e|e|e|e] payload H; apply dec_elem in H; simpl in H |- *;
    repeat (apply elem_of_cons in H as [->|H]; [vm_compute; discriminate|]);
    by apply elem_of_nil in H.
Qed.

#[export] Instance demo_encoders : Encoders := {|
  b64_encode := λ b, "=" +:+ b;
  enc_envelope := enc envelopes;
  enc_genesis := λ _, Err "not encodable";
  enc_roster := λ _, Err "not encodable";
  enc_transition := enc transitions;
  enc_approval := enc [("a", approval)];
  enc_consume := enc [("d", consume)];
  enc_handoff := enc [("h", handoff)]
|}.

Lemma demo_nonempty {A} `{EqDecision A} (table : list (string * A)) a s :
  NoDup table.*1 → "" ∉ table.*1 → enc table a = Ok s → s ≠ "" ∧ dec table s = Ok a.
Proof.
  intros Hnd Hn Henc. destruct (table_roundtrip table a s Hnd Henc) as [Hin Hd].
  split; [by intros ->|done].
Qed.

Ltac by_decide := by (apply (bool_decide_unpack _); vm_compute).

#[export] Instance demo_encode_laws : EncodeLaws.
Proof.
  constructor; simpl.
  - done.
  - intros e b Henc. by apply table_roundtrip in Henc as [_ ?]; [|by_decide].
  - intros e b. apply demo_nonempty; by_decide.
  - intros e b. apply demo_nonempty; by_decide.
  - intros e b. apply demo_nonempty; by_decide.
  - intros e b. apply demo_nonempty; by_decide.
Qed.

(** ** An in-memory daemon *)

(** One agent's daemon: the stores it knows with their owners, and the entries
    of every store in the order they were written. *)
Record demo_world := {
  dw_who : string;
  dw_stores : list (string * string);
  dw_entries : list (string * StoreRecord)
}.

Definition owner_of (topic : string) (w : demo_world) : option string :=
  snd <$> List.find (λ p, bool_decide (p.1 = topic)) (dw_stores w).

Definition entries_of (topic : string) (w : demo_world) : list StoreRecord :=
  snd <$> List.filter (λ p, bool_decide (p.1 = topic)) (dw_entries w).

Definition entry (topic key : string) (w : demo_world) : option bytes :=
  sr_value <$> List.find (λ r, bool_decide (sr_key r = key)) (entries_of topic w).

#[export] Instance demo_daemon : Daemon := {|
  world := demo_world;
  create_kv_store_with_policy := λ name topic policy w,
    match owner_of topic w with
    | Some _ => (Err (Http CONFLICT "exists"), w)
    | None => (Ok (), {| dw_who := dw_who w; dw_stores := (topic, hx (dw_who w)) :: dw_stores w;
                         dw_entries := dw_entries w |})
    end;
  join_kv_store := λ topic owner w,
    match owner_of topic w with
    | Some _ => (Err (Http CONFLICT "joined"), w)
    | None => (Err (Http NOT_FOUND "unknown"), w)
    end;
  kv_store_detail := λ topic w,
    (Ok ((λ o, {| sd_id := topic; sd_owner := Some o; sd_policy := Some "append_only" |})
           <$> owner_of topic w), w);
  list_kv_keys := λ topic w, (Ok (sr_key <$> entries_of topic w), w);
  get_kv := λ topic key w, (Ok (entry topic key w), w);
  put_kv := λ topic key value ctype w,
    match entry topic key w with
    | Some _ => (Err (Http CONFLICT "append only"), w)
    | None => (Ok (), {| dw_who := dw_who w; dw_stores := dw_stores w;
        dw_entries := dw_entries w ++ [(topic, {| sr_key := key; sr_value := value |})] |})
    end;
  sign := λ ctx payload w,
    (Ok {| sg_agent_id := hx (dw_who w); sg_public_key_b64 := "K" +:+ dw_who w;
           sg_signature_b64 := "S" +:+ dw_who w; sg_algorithm := V2_SIGN_ALGORITHM;
           sg_context := ctx |}, w);
  sleep := λ _ w, w
|}.

(** ** The list *)

Definition rec (key value : string) : StoreRecord := {| sr_key := key; sr_value := value |}.

Definition alice_records : list StoreRecord :=
  [rec (event_key "i" (hx "o")) "o"; rec GENESIS_KEY "g";
   rec (approval_key "i" (hx "a")) "a"; rec (roster_key 1 (hx "r")) "r"].

Definition alice_stream : AuthorStream := {|
  as_owner := alice; as_card_self := Some (key_of "A"); as_records := alice_records |}.

Definition bob_stream : AuthorStream := {|
  as_owner := bob; as_card_self := None;
  as_records := [rec CARD_SELF_KEY (key_of "B"); rec (event_key "i" (hx "c")) "c";
                 rec (consume_key "i" (hx "d")) "d"; rec (handoff_key "i" (hx "h")) "h";
                 rec (event_key "i" (hx "e")) "e"; rec (event_key "i" (hx "f")) "f"] |}.

Definition list_input (streams : list AuthorStream) : FoldInput := {|
  fi_list_uuid := "u"; fi_creator := alice; fi_streams := streams; fi_limits := default_limits |}.

Definition demo_input : FoldInput := list_input [bob_stream; alice_stream].

(** The same list before the second author acts: the approval is unspent. *)
Definition solo_input : FoldInput := list_input [alice_stream].

(** Sets of 1952-byte keys are slow to compute with, so the merge of the
    streams is replaced by its closed form before the fold is evaluated. *)
Definition quick_fold (streams : list AuthorStream) : result FoldOutput ListRefusal :=
  let? _ := raw_budget default_limits streams in
  fold_canonical default_limits "u" alice
    (list_to_map ((λ s, (as_owner s, canonicalize_stream s)) <$> streams)) ∅.

Lemma quick_fold_eq streams :
  NoDup (as_owner <$> streams) → Forall card_consistent streams →
  fold_v2 (list_input streams) = quick_fold streams.
Proof.
  intros Hnd Hc. unfold fold_v2, quick_fold. cbn [fi_streams fi_limits list_input].
  by rewrite canonical_unique.
Qed.

#[local] Opaque key_of.

Lemma alice_consistent : card_consistent alice_stream.
Proof.
  exists (key_of "A"). split; [by intros c [= <-]|]. intros r Hr Hk.
  repeat (apply elem_of_cons in Hr as [->|Hr]; [discriminate Hk|]).
  by apply elem_of_nil in Hr.
Qed.

Lemma bob_consistent : card_consistent bob_stream.
Proof.
  exists (key_of "B"). split; [done|]. intros r Hr Hk.
  apply elem_of_cons in Hr as [->|Hr]; [reflexivity|].
  repeat (apply elem_of_cons in Hr as [->|Hr]; [discriminate Hk|]).
  by apply elem_of_nil in Hr.
Qed.

Lemma demo_fold_ok : is_ok (quick_fold [bob_stream; alice_stream]) = true.
Proof. vm_compute. reflexivity. Qed.
Definition demo_out : FoldOutput := ok_get _ demo_fold_ok.

Lemma demo_ok : fold_v2 demo_input = Ok demo_out.
Proof.
  transitivity (quick_fold [bob_stream; alice_stream]); [|apply ok_get_eq].
  apply quick_fold_eq; [by_decide|].
  repeat constructor; [apply bob_consistent|apply alice_consistent].
Qed.

Lemma solo_fold_ok : is_ok (quick_fold [alice_stream]) = true.
Proof. vm_compute. reflexivity. Qed.
Definition solo_out : FoldOutput := ok_get _ solo_fold_ok.

Lemma solo_ok : fold_v2 solo_input = Ok solo_out.
Proof.
  transitivity (quick_fold [alice_stream]); [|apply ok_get_eq].
  apply quick_fold_eq; [by_decide|]. repeat constructor. apply alice_consistent.
Qed.
(** ** The list as the second author's daemon holds it *)

Definition alice_topic : string := event_store_topic "u" alice.
Definition bob_topic : string := event_store_topic "u" bob.

Definition card (who : string) : StoreRecord := rec CARD_SELF_KEY (key_of who).
Definition claim_record : StoreRecord := rec (event_key "i" (hx "c")) "c".
Definition consume_record : StoreRecord := rec (consume_key "i" (hx "d")) "d".

(** Bob has claimed the issue; he has not consumed the approval yet. *)
Definition claimed_world : world := {|
  dw_who := "B";
  dw_stores := [(alice_topic, alice); (bob_topic, bob)];
  dw_entries := ((λ r, (alice_topic, r)) <$> card "A" :: alice_records) ++
                ((λ r, (bob_topic, r)) <$> [card "B"; claim_record])
|}.

Definition consumed_world : world := {|
  dw_who := "B"; dw_stores := dw_stores (claimed_world : demo_world);
  dw_entries := dw_entries (claimed_world : demo_world) ++ [(bob_topic, consume_record)] |}.

Definition stored_alice : AuthorStream := {|
  as_owner := alice; as_card_self := Some (key_of "A"); as_records := card "A" :: alice_records |}.
Definition stored_bob (records : list StoreRecord) : AuthorStream := {|
  as_owner := bob; as_card_self := Some (key_of "B"); as_records := card "B" :: records |}.

Definition claimed_input : FoldInput := list_input [stored_alice; stored_bob [claim_record]].
Definition consumed_input : FoldInput :=
  list_input [stored_alice; stored_bob [claim_record; consume_record]].

Definition demo_manager : V2StoreManager := new_manager AppendOnly.
Definition bob_store : OwnEventStore := {|
  own_list_uuid := "u"; own_agent_id := bob; own_public_key := key_of "B";
  own_topic := bob_topic; own_policy := AppendOnly |}.

Lemma claimed_read : read_fold_input demo_manager "u" alice claimed_world =
  (Ok claimed_input, claimed_world).
Proof. vm_compute. reflexivity. Qed.

Lemma consumed_read : read_fold_input demo_manager "u" alice consumed_world =
  (Ok consumed_input, consumed_world).
Proof. vm_compute. reflexivity. Qed.

Lemma stored_alice_consistent : card_consistent stored_alice.
Proof.
  exists (key_of "A"). split; [by intros c [= <-]|]. intros r Hr Hk.
  apply elem_of_cons in Hr as [->|Hr]; [reflexivity|].
  repeat (apply elem_of_cons in Hr as [->|Hr]; [discriminate Hk|]).
  by apply elem_of_nil in Hr.
Qed.

Lemma stored_bob_consistent records :
  Forall (λ r, sr_key r ≠ CARD_SELF_KEY) records → card_consistent (stored_bob records).
Proof.
  rewrite Forall_forall. intros Hrec. exists (key_of "B"). split; [by intros c [= <-]|].
  intros r Hr Hk. apply elem_of_cons in Hr as [->|Hr]; [reflexivity|]. by destruct (Hrec r Hr).
Qed.

Lemma claimed_fold_ok : is_ok (quick_fold [stored_alice; stored_bob [claim_record]]) = true.
Proof. vm_compute. reflexivity. Qed.
Definition claimed_out : FoldOutput := ok_get _ claimed_fold_ok.

Lemma claimed_ok : fold_v2 claimed_input = Ok claimed_out.
Proof.
  transitivity (quick_fold [stored_alice; stored_bob [claim_record]]); [|apply ok_get_eq].
  apply quick_fold_eq; [by_decide|].
  repeat constructor; [apply stored_alice_consistent|apply stored_bob_consistent; by_decide].
Qed.

Lemma consumed_fold_ok :
  is_ok (quick_fold [stored_alice; stored_bob [claim_record; consume_record]]) = true.
Proof. vm_compute. reflexivity. Qed.
Definition consumed_out : FoldOutput := ok_get _ consumed_fold_ok.

Lemma consumed_ok : fold_v2 consumed_input = Ok consumed_out.
Proof.
  transitivity (quick_fold [stored_alice; stored_bob [claim_record; consume_record]]);
    [|apply ok_get_eq].
  apply quick_fold_eq; [by_decide|].
  repeat constructor; [apply stored_alice_consistent|apply stored_bob_consistent; by_decide].
Qed.
End Fixture.
