(* ===== verification/Sandboxed.v ===== *)
(** * A turn in memory

    A world in which every call succeeds, with a script that says when the
    daemon's shutdown arrives; the theorems about the sandbox and the shell
    runner are applied to its runs. *)

From S2P Require Import Prelude Wire Identity Core Effects Text Files Containment Disk.
From S2P Require Import Scheduling Ports Sandbox Native HostSandbox RunnerSpec ShellRunner.
From S2P Require Import Watching Confining Running Orchestrator TurnFacts Fixture.
#[local] Existing Instance Fixture.Fixture.demo.
#[local] Existing Instance plain_json.

(** The answers to the question whether the shutdown arrived, a counter, and
    whether the socket cannot be bound and a control group not be removed. *)
Record rig := { rg_cancels : list bool; rg_count : N; rg_bind_fails : bool; rg_busy : bool }.

Definition tick (s : rig) : N * rig :=
  (rg_count s, {| rg_cancels := rg_cancels s; rg_count := rg_count s + 1;
                  rg_bind_fails := rg_bind_fails s; rg_busy := rg_busy s |}).

#[export] Instance rig_env : HostEnv rig := {| target_os := Linux; env_var_os _ := λ s, (None, s) |}.
#[export] Instance rig_fs : Fs rig := {|
  fs_canonicalize p := mret p; fs_metadata _ := mret KFile; fs_symlink_metadata _ := mret KFile;
  fs_read_dir _ := mret []; fs_create_dir _ _ := mret (); fs_create_dir_all _ _ := mret ();
  fs_set_permissions _ _ := mret (); fs_remove_dir_all _ := mret (); fs_rename _ _ := mret ();
  fs_write _ _ := mret (); fs_append _ _ := mret (); fs_copy _ _ := mret () |}.
#[export] Instance rig_landlock : Landlock rig := {|
  from_read := 12; from_all := 8191; from_file := 7; from_net := 3;
  ll_handle_fs _ := mret (); ll_handle_net _ := mret (); ll_create := mret ();
  ll_path_fd _ := mret (); ll_add_rule _ _ := mret (); ll_restrict_self _ := mret FullyEnforced |}.
#[export] Instance rig_os : NativeOs rig := {|
  process_id := 7; now_nanos := tick; next_temp_id := tick; current_exe := mret "/bin/symphony";
  temp_dir := λ s, ("/tmp", s); read_to_string _ := mret "0::/user";
  open_write _ := mret (); write_existing _ _ := mret ();
  remove_dir _ := λ s, (if rg_busy s then Err {| io_kind := IoOther; io_text := "busy" |} else Ok (), s);
  remove_file _ := mret ();
  sock_bind _ := λ s, (if rg_bind_fails s then Err {| io_kind := IoOther; io_text := "no" |} else Ok (), s);
  sock_accept _ _ := λ s, (Some (Ok ()), s);
  sock_write _ _ := mret (); sock_close _ := mret (); sock_connect _ := mret ();
  sock_read_to_end _ := mret "config"; exec _ := λ s, (None, s) |}.
#[export] Instance rig_child : ChildProcess rig := {|
  ch_spawn _ := mret 5%N; ch_id _ := λ s, (Some 42%N, s); ch_start_kill _ := mret ();
  ch_output _ _ := λ s, (None, s); show_process_status _ := "exit" |}.
#[export] Instance rig_turn : TurnProcess rig := {|
  tp_pipe _ _ := λ s, (true, s);
  tp_wait_timeout _ _ := λ s, (Some (Ok {| ps_code := Some 3%Z; ps_signal := None |}), s);
  tp_wait _ := mret {| ps_code := Some 3%Z; ps_signal := None |}; tp_kill _ := mret ();
  tp_steps _ _ := λ s, ([StdinWritten (Ok ()); StreamRead EventStdout (Ok "hello")], s);
  tp_join _ _ := λ s, (None, s);
  tp_cancelled := λ s, (default false (head (rg_cancels s)),
    {| rg_cancels := tail (rg_cancels s); rg_count := rg_count s; rg_bind_fails := rg_bind_fails s;
       rg_busy := rg_busy s |});
  tp_instant_ms := tick; tp_now_rfc3339 := λ s, (Some "t0", s) |}.
#[export] Instance rig_debug : DebugStr := {| debug_str s := s |}.

(** ** The runner *)

Definition rig_sandbox : SandboxSpec := {|
  sx_profile := RepoWrite; sx_backend := BkNative; sx_on_unavailable := Warn;
  sx_egress_allow := []; sx_secrets_deny := []; sx_cpu_seconds := None;
  sx_memory_bytes := Some 1048576%N; sx_pids_max := None |}.
Definition rig_spec : RunnerSpec := {|
  rs_command := "/bin/agent"; rs_args := ["--print"]; rs_env := {["TERM" := "dumb"]};
  rs_allow_secret_env := []; rs_turn_timeout_ms := 1000; rs_event_capacity := 2;
  rs_event_high_water_mark := 1; rs_event_overflow_policy := DropOldest;
  rs_sandbox := Some rig_sandbox; rs_preset := None |}.

(** ** What the runner does on the rig *)

Definition quiet : rig :=
  {| rg_cancels := []; rg_count := 1; rg_bind_fails := false; rg_busy := false |}.
Definition on_rig (s : rig) : shell (watched rig) := new_shell (s, []).

Definition rig_plan : CommandPlan := {|
  cp_program := "/bin/agent"; cp_args := ["--print"]; cp_cwd := "/w/XSY-1";
  cp_env := {["LANG" := "C"; "TERM" := "dumb"]} |}.

(** The one configuration the rig encodes. *)
#[local] Instance LauncherConfig_eq_dec : EqDecision LauncherConfig.
Proof. solve_decision. Defined.
Definition rig_config : LauncherConfig :=
  match launcher_config rig_plan rig_sandbox quiet with
  | (Ok config, _) => config
  | _ => {| lc_program := ""; lc_args := []; lc_cwd := ""; lc_env := ∅; lc_read_only_paths := [];
            lc_read_write_paths := []; lc_deny_network := false |}
  end.
#[export] Instance rig_codec : LauncherCodec := {|
  enc_config := Fixture.enc [("config", rig_config)];
  dec_config := Fixture.dec [("config", rig_config)] |}.

Definition rig_issue : Issue := {|
  iss_schema_version := 1; iss_id := "XSY-1"; iss_identifier := "XSY-1"; iss_title := "Fix it";
  iss_description := "do"; iss_priority := None; iss_state := "todo"; iss_branch_name := None;
  iss_url := None; iss_labels := []; iss_blocked_by := []; iss_shard := None;
  iss_claim := None; iss_handoff := None; iss_signature_provenance := None;
  iss_verification_notices := []; iss_created_at := "t0"; iss_updated_at := "t0"; iss_extra := ∅ |}.
(** A context of work from the network. *)
Definition rig_context : SessionContext := {|
  sc_issue := rig_issue; sc_workspace_path := "/w/XSY-1"; sc_issue_source := NetworkSourced;
  sc_env_allowlist := {["LANG" := "C"]} |}.

Definition rig_runner : ShellRunner := {|
  sn_spec := rig_spec;
  sn_sandbox := Some {| hx_spec := rig_sandbox; hx_backend_available := true |};
  sn_capabilities := shell_capabilities rig_spec |}.

(** The state after a session was started. *)
Definition started (s : rig) : shell (watched rig) := (start_session rig_runner rig_context (on_rig s)).2.
Definition rig_session : SessionHandle :=
  {| sh_id := "shell-1"; sh_workspace_path := "/w/XSY-1"; sh_started_at := "t0" |}.
Definition turn (s : rig) : result TurnOutcome TurnEnd * list OsCall :=
  let '(res, s') := run_turn rig_runner rig_session "prompt" (started s) in (res, log_of s').
Definition shutting_down : rig :=
  {| rg_cancels := [false; true]; rg_count := 1; rg_bind_fails := false; rg_busy := false |}.
Definition unbindable : rig :=
  {| rg_cancels := []; rg_count := 1; rg_bind_fails := true; rg_busy := false |}.
Definition busy : rig :=
  {| rg_cancels := []; rg_count := 1; rg_bind_fails := false; rg_busy := true |}.

(** A quiet turn takes a private directory and a control group, and gives both
    back; the child's exit code is the turn's. *)
Example quiet_turn :
  (turn quiet).1 = Ok {| to_status := TurnFailed; to_summary := Some "exit_code=3" |} ∧
  held (turn quiet).2 = [] ∧ held (take 4 (turn quiet).2) =
    ["/sys/fs/cgroup/user/symphony-7-5-4"; "/tmp/xsy-native-7-3-2"].
Proof. by vm_compute. Qed.

(** A turn that is dropped while its child runs keeps both, and kills nobody. *)
Example dropped_turn :
  (turn shutting_down).1 = Err TurnDropped ∧
  held (turn shutting_down).2 = ["/sys/fs/cgroup/user/symphony-7-5-4"; "/tmp/xsy-native-7-3-2"] ∧
  Forall (λ call, ∀ pid, call ≠ Killed pid) (turn shutting_down).2.
Proof. vm_compute. split_and!; [done..|]. by repeat constructor. Qed.

(** A private directory in which the socket cannot be bound stays. *)
Example unbound_directory_stays :
  held (turn unbindable).2 = ["/tmp/xsy-native-7-3-2"].
Proof. by vm_compute. Qed.

(** A control group the system does not remove stays, and nothing else does. *)
Example busy_group_stays :
  held (turn busy).2 = ["/sys/fs/cgroup/user/symphony-7-5-4"] ∧
  RemovedDir "/sys/fs/cgroup/user/symphony-7-5-4" false ∈ (turn busy).2.
Proof. split; [by vm_compute|]. apply list_elem_of_In. vm_compute. tauto. Qed.

Lemma network_work_confined_witness : ∃ sandbox t socket,
  resolved_spec rig_sandbox sandbox ∧
  log_of (run_turn rig_runner rig_session "prompt" (started quiet)).2 = log_of (started quiet) ++ t ∧
  (∀ command child, Spawned command child ∈ t →
    confined_command (W := rig) sandbox (turn_plan rig_spec "/w/XSY-1" (cp_env rig_plan)) socket command) ∧
  (∀ p payload, Sent p payload ∈ t →
    configuration_sent (W := rig) sandbox (turn_plan rig_spec "/w/XSY-1" (cp_env rig_plan)) socket p payload).
Proof.
  set (session := {| st_env := cp_env rig_plan; st_issue_source := NetworkSourced;
                     st_stream_taken := false; st_last_duration_ms := None |}).
  destruct (proj2 (network_work_confined rig_spec rig_sandbox (quiet, [])
    (new_shell_runner rig_spec (quiet, [])).2 rig_runner rig_context (on_rig quiet) (started quiet)
    rig_session ltac:(reflexivity) ltac:(vm_compute; reflexivity) ltac:(left; reflexivity)
    ltac:(vm_compute; reflexivity))) as (sandbox&Hresolved&Hturn).
  destruct (Hturn "prompt" session (started quiet)) as (t&socket&Ht).
  - vm_compute. reflexivity.
  - reflexivity.
  - exists sandbox, t, socket. split; [exact Hresolved|exact Ht].
Defined.

Lemma launcher_gets_plan_witness :
  ∃ session wrapped st' (w' : watched rig),
    native_wrap session rig_plan (fresh_native, (quiet, [])) = (Ok wrapped, (st', w')) ∧
    parse_launcher_socket (wr_program wrapped :: wr_args wrapped) = Ok (ls_socket_path session).
Proof.
  set (session := {| ls_spec := rig_sandbox; ls_temp_dir := "/tmp/d"; ls_socket_path := "/tmp/d/launcher.sock";
                     ls_cgroup := "/sys/fs/cgroup/user/leaf" |}).
  set (run := native_wrap session rig_plan (fresh_native, (quiet, []))).
  exists session, {| wr_program := "/bin/symphony"; wr_cwd := "/w/XSY-1"; wr_env_additions := ∅;
    wr_args := [LAUNCHER_SENTINEL; LAUNCHER_SOCKET_FLAG; "/tmp/d/launcher.sock"] |}, run.2.1, run.2.2.
  assert (Hrun : run = (Ok {| wr_program := "/bin/symphony"; wr_cwd := "/w/XSY-1"; wr_env_additions := ∅;
    wr_args := [LAUNCHER_SENTINEL; LAUNCHER_SOCKET_FLAG; "/tmp/d/launcher.sock"] |}, (run.2.1, run.2.2)))
    by (vm_compute; reflexivity).
  split; [exact Hrun|].
  refine (proj1 (launcher_gets_plan session rig_plan fresh_native (quiet, []) _ _ _ _ Hrun)).
  intros config payload Henc. eapply Fixture.table_roundtrip; [|exact Henc]. apply NoDup_singleton.
Defined.

Lemma exit_code_survives_witness :
  turn_exit_code TurnFailed (Some "exit_code=3") = 3%Z.
Proof.
  refine (exit_code_survives (Exited {| ps_code := Some 3%Z; ps_signal := None |}) _).
  intros ? ? [= <-] [= <-]. reflexivity.
Defined.

(** A queue of two places and four events, one of them taken in between. *)
Lemma queue_refines_record_witness :
  let steps := [StreamRead EventStdout (Ok "a"); StreamRead EventStdout (Ok "b");
                StreamRead EventStdout (Ok "c"); EventTaken; StreamRead EventStderr (Ok "d")] in
  ∃ s', for_each (run_step rig_runner "shell-2") steps (on_rig quiet) = (Ok (), s') ∧
    channel_of "shell-2" s' = {|
      ch_queue := [event_with_message EventStdout "c"; event_with_message EventStderr "d"];
      ch_taken := [event_with_message EventStdout "b"] |} ∧
    length (ch_queue (channel_of "shell-2" s')) ≤ 2.
Proof.
  refine (queue_refines_record rig_runner "shell-2" _
    {| el_events := []; el_next := 0; el_taken := [] |} (on_rig quiet) _ _ _).
  - vm_compute. reflexivity.
  - vm_compute. reflexivity.
  - vm_compute. split; apply Nat.le_0_l.
Defined.
