(* ===== verification/Rehearsal.v ===== *)
(** * A daemon in memory

    The orchestrator with the real workspace manager, proof writer and budget,
    on a disk in memory, with a tracker of one issue and an agent that fails a
    given number of turns.  The theorems about the daemon are applied to its
    runs. *)

From S2P Require Import Prelude Wire Identity Core Effects Text Files Containment Disk Store.
From S2P Require Import Scheduling Claims Approvals Ports Manager Proofs Retention Trust.
From S2P Require Import Orchestrator Traced Orchestrating Settling Slots Recovering Fixture.
Import Reconcile Concurrency Retry.
#[local] Existing Instance Fixture.Fixture.demo.

#[local] Existing Instance plain_json.

(** ** The world *)

(** The clock of the stage always shows the same second. *)
#[export] Instance stage_format : ChronoFormat := {|
  fmt_segment _ := "2026-01-01T000000Z"; parse_segment _ := Some 0%Z;
  fmt_compact _ := "20260101T000000Z"; fmt_rfc3339_secs _ := "t"; fmt_rfc3339_nanos _ := "t";
  date_min := 0%Z; date_max := (253402300800 * 1000000000)%Z |}.

Record desk := {
  dk_state : string;
  dk_claim : option Claim;
  (** the turns that still fail *)
  dk_failures : nat;
  (** the shutdown signal comes after so many polls of the flag *)
  dk_polls : nat;
  dk_notes : list string
}.
Definition stage : Type := disk * desk.

Definition on_disk {E A} (c : Run disk E A) : Run stage E A :=
  λ s, let '(r, d) := c s.1 in (r, (d, s.2)).
Definition on_disk' {A} (c : disk → A * disk) : stage → A * stage :=
  λ s, let '(a, d) := c s.1 in (a, (d, s.2)).

#[export] Instance stage_fs : Fs stage := {|
  fs_canonicalize p := on_disk (fs_canonicalize p); fs_metadata p := on_disk (fs_metadata p);
  fs_symlink_metadata p := on_disk (fs_symlink_metadata p);
  fs_read_dir p := on_disk (fs_read_dir p); fs_create_dir m p := on_disk (fs_create_dir m p);
  fs_create_dir_all m p := on_disk (fs_create_dir_all m p);
  fs_set_permissions m p := on_disk (fs_set_permissions m p);
  fs_remove_dir_all p := on_disk (fs_remove_dir_all p); fs_rename p q := on_disk (fs_rename p q);
  fs_write p b := on_disk (fs_write p b); fs_append p b := on_disk (fs_append p b);
  fs_copy p q := on_disk (fs_copy p q) |}.

#[export] Instance stage_process : HookProcess stage := {|
  hp_spawn c := on_disk (hp_spawn c); hp_pipe c n := on_disk' (hp_pipe c n);
  hp_wait_timeout c n := on_disk' (hp_wait_timeout c n); hp_id c := on_disk' (hp_id c);
  hp_kill n := on_disk (hp_kill n); hp_wait c := on_disk (hp_wait c);
  hp_join c n k := on_disk' (hp_join c n k); hp_abort c n := on_disk' (hp_abort c n) |}.

(** ** Tracker and agent *)

Definition alone : string := "agent".

Definition the_issue (d : desk) : Issue := {|
  iss_schema_version := 1; iss_id := "XSY-1"; iss_identifier := "XSY-1"; iss_title := "Fix it";
  iss_description := "do"; iss_priority := None; iss_state := dk_state d; iss_branch_name := None;
  iss_url := None; iss_labels := []; iss_blocked_by := []; iss_shard := None;
  iss_claim := dk_claim d; iss_handoff := None; iss_signature_provenance := None;
  iss_verification_notices := []; iss_created_at := "t0"; iss_updated_at := "t0"; iss_extra := ∅ |}.

Definition set_desk (state : string) (claim : option Claim) (note : string) (d : desk) : desk := {|
  dk_state := state; dk_claim := claim; dk_failures := dk_failures d; dk_polls := dk_polls d;
  dk_notes := dk_notes d ++ [note] |}.
Definition settle (state note : string) : Run stage (SymphonyError string) unit :=
  modify (λ s, (s.1, set_desk state None note s.2)).

#[export] Instance stage_tracker : TrackerApi stage string := {|
  tk_list_issues := gets (λ s, [the_issue s.2]);
  tk_create_issue _ := throw (Tracker "read only");
  tk_fetch_candidates ctx := gets (λ s,
    if bool_decide (dk_state s.2 ∈ pc_active_states ctx) then [the_issue s.2] else []);
  tk_fetch_by_ids ids := gets (λ s, (λ _, the_issue s.2) <$> List.filter (String.eqb "XSY-1") ids);
  tk_claim id agent := λ s,
    let claim := new_claim (Some id) agent "t0" ManualM1 in
    (Ok claim, (s.1, set_desk (dk_state s.2) (Some claim) "claimed" s.2));
  tk_heartbeat _ := mret ();
  tk_release _ _ := settle "todo" "released";
  tk_handoff _ _ := settle "review" "handed off";
  tk_fetch_claimed _ := gets (λ s,
    if bool_decide (dk_claim s.2 = None) then [] else [the_issue s.2]);
  tk_block _ _ := settle "blocked" "blocked";
  tk_requeue_blocked _ _ := settle "todo" "requeued";
  tk_load_approval_state _ := throw (Unsupported "approvals");
  tk_store_approval _ := throw (Unsupported "approvals");
  tk_store_consumed _ := throw (Unsupported "approvals") |}.

#[export] Instance stage_tracker_laws : TrackerLaws stage_tracker.
Proof. intros id agent w claim w' [= <- <-]. done. Qed.

Definition the_session : SessionHandle :=
  {| sh_id := "s"; sh_workspace_path := "/w/XSY-1"; sh_started_at := "t0" |}.

(** A turn fails as long as the desk says so. *)
#[export] Instance stage_runner : RunnerApi stage string := {|
  rn_name := "shell";
  rn_capabilities := {| rc_runner_kind := "shell"; rc_labels := []; rc_structured_events := false;
    rc_preset := None; rc_command := None; rc_args := []; rc_env_allowlist := [] |};
  rn_start_session _ := mret the_session;
  rn_race_turn _ _ := λ s,
    let d := s.2 in
    let turn status := Some (Ok ({| to_status := status; to_summary := None |}, the_session)) in
    match dk_failures d with
    | O => (turn TurnSucceeded, (s.1, set_desk (dk_state d) (dk_claim d) "succeeded" d))
    | S n => (turn TurnFailed, (s.1, {| dk_state := dk_state d; dk_claim := dk_claim d;
                dk_failures := n; dk_polls := dk_polls d; dk_notes := dk_notes d ++ ["failed"] |}))
    end;
  rn_stream_events _ := λ s, ([{| re_kind := EventStdout; re_message := Some "out"; re_at := None |}], s);
  rn_stop_session _ := mret () |}.

(** ** The rest *)

#[export] Instance stage_host : OrchHost stage := {|
  oh_sleep _ := λ s, ((), s);
  oh_shutdown_flag := λ s, (bool_decide (dk_polls s.2 = O),
    (s.1, {| dk_state := dk_state s.2; dk_claim := dk_claim s.2; dk_failures := dk_failures s.2;
             dk_polls := pred (dk_polls s.2); dk_notes := dk_notes s.2 |}));
  oh_request_shutdown := λ s, ((), s);
  oh_entropy := λ s, (0%N, s);
  oh_shell_status _ _ := mret (Some 0%Z);
  oh_git_diff _ := λ s, (GitOutput (Some 0%Z) "src/main.rs", s) |}.

#[export] Instance stage_machine : Machine stage := {|
  clock_now := λ s, (1000000000%Z, s); instant_now := λ s, (0%N, s);
  env_var _ := λ s, (None, s) |}.
#[export] Instance stage_signing : SigningApi stage := {|
  sg_sign _ _ := throw (SeBuildClient "none"); sg_verify _ _ _ _ := throw (SeBuildClient "none");
  kr_resolve _ := throw (SeBuildClient "none") |}.
#[export] Instance stage_trust : TrustApi stage string :=
  {| trust_level _ := mret TrustUnknown |}.
#[export] Instance stage_text : TrackerText string := {| tt_of_text := id; tt_show := id |}.
#[export] Instance stage_codec : ApprovalCodec := {|
  enc_v1_approval _ := Ok "approval"; enc_v1_consumed _ := Ok "consumed";
  enc_v1_consumed_payload _ := Ok "consumed";
  dec_v1_approval _ := Err "unused"; dec_v1_consumed _ := Err "unused" |}.
#[export] Instance stage_manifests : ManifestCodec :=
  {| enc_manifest _ := Ok "manifest"; enc_abandon _ := Ok "abandoned" |}.
#[export] Instance stage_chrono : Chrono := {|
  parse_from_rfc3339 s := if bool_decide (s = "t0") then Ok 0%Z else Err "invalid" |}.

#[export] Instance stage_workspace : WorkspaceApi stage string :=
  ManagerApi {| mg_config := new_manager_config "/w"; mg_root := "/w" |}.

(** Up to two attempts, on issues to do. *)
Definition the_config : Config := {|
  cf_agent_id := alone; cf_active_states := ["todo"]; cf_terminal_states := ["done"];
  cf_polling_interval := 1; cf_global_concurrency := 1;
  cf_per_state_concurrency := {["todo" := 1%N]}; cf_retry := new_policy 1 1 2;
  cf_hooks := default_hooks; cf_proofs_dir := "/proofs"; cf_retention := default_retention;
  cf_validation_commands := []; cf_claim_ttl := Z.of_N SECOND; cf_required_trust := TrustTrusted;
  cf_network_dispatch := PolicyOff; cf_approval_ttl := 1; cf_approval_webhook_url := None;
  cf_shutdown_grace := 1 |}.
Definition the_orchestrator : Orchestrator :=
  {| or_config := the_config; or_signing_client := false; or_key_resolver := false;
     or_events_tx := false |}.

Definition the_disk : disk := {[ "/w" := Dir; "/proofs" := Dir ]}.
Definition staged (failures polls : nat) : stage :=
  (the_disk, {| dk_state := "todo"; dk_claim := None; dk_failures := failures; dk_polls := polls;
                dk_notes := [] |}).

(** ** Runs *)

Definition the_daemon (failures fuel : nat) : orch_state stage :=
  (Orchestrator.run (T := string) the_orchestrator fuel
     (initial_orch the_orchestrator (staged failures 9))).2.

(** One failure is retried; two use up the attempts. *)
Example daemon_retries :
  dk_notes (os_world (the_daemon 1 3)).2 = ["claimed"; "failed"; "succeeded"; "handed off"] ∧
  dk_notes (os_world (the_daemon 2 3)).2 = ["claimed"; "failed"; "failed"; "blocked"].
Proof. split; vm_compute; reflexivity. Qed.

Lemma daemon_leaks_nothing_witness :
  dk_notes (os_world (the_daemon 0 3)).2 = ["claimed"; "succeeded"; "handed off"] ∧
  idle the_orchestrator (the_daemon 0 3).
Proof.
  split; [vm_compute; reflexivity|].
  apply (daemon_leaks_nothing (T := string) the_orchestrator 3 (staged 0 9)); [vm_compute; discriminate|].
  intros state c Hc. change (({["todo" := 1%N]} : gmap string N) !! state = Some c) in Hc.
  apply lookup_singleton_Some in Hc as [_ <-]. vm_compute. discriminate.
Defined.

(** A run whose claim holds the slot of "todo". *)
Definition running : orch_state stage := {|
  os_budget := (try_acquire (new_budget 1 {["todo" := 1%N]}) "todo").2;
  os_in_flight := {["XSY-1" := "todo"]}; os_heartbeats := ∅; os_next_task := 0; os_guard := None;
  os_events := []; os_world := staged 0 9 |}.
Definition the_claim : Claim := new_claim (Some "XSY-1") alone "t0" ManualM1.

Lemma run_claim_gives_back_witness :
  (run_claim (T := string) the_orchestrator the_claim running).1 = Ok Completed ∧
  slot_given_back the_claim running (run_claim (T := string) the_orchestrator the_claim running).2.
Proof.
  split; [vm_compute; reflexivity|].
  apply (run_claim_gives_back (T := string) the_orchestrator the_claim running).
  intros k [t Ht]. discriminate Ht.
Defined.
