(* ===== verification/TaskTracking.v ===== *)
(** * The task-list tracker holds

    What the mapping of tasks to issues shows, which signatures stand behind
    the records a listing returns, the life of an issue as an abstract machine,
    and the tracker's place behind the orchestrator's interface. *)

From S2P Require Import Prelude Wire Identity Core Text Effects FoldTypes Canonical Fold Store.
From S2P Require Import Client Gate Claims Approvals Mapping Tracker Ports Proofs Workers TaskLists.
From S2P Require Import Slots.
Import Reconcile Shards.

(** ** The mapping *)

Section mapping.
Context `{X : Extern} `{J : Json} `{BC : !BlobCodec}.

(** The names of states are in normal form. *)
Lemma task_state_name_normal task claim_blob handoff_blob :
  issue_state_for_task task claim_blob handoff_blob =
    Ok (task_state_name task claim_blob handoff_blob).
Proof. unfold issue_state_for_task, task_state_name. repeat case_match; reflexivity. Qed.

(** The records agree with the task about the issue they are for. *)
Definition for_task (task : TaskEntry) (claim_blob : option ClaimBlob)
    (handoff_blob : option HandoffBlob) : Prop :=
  (∀ blob id, claim_blob = Some blob → cl_issue_id (cb_claim blob) = Some id → id = te_id task) ∧
  (∀ blob id, handoff_blob = Some blob → ho_issue_id (hb_handoff blob) = Some id → id = te_id task).

Lemma validate_claim_blob_Ok task claim_blob :
  validate_claim_blob task claim_blob = Ok () ↔
  ∀ blob id, claim_blob = Some blob → cl_issue_id (cb_claim blob) = Some id → id = te_id task.
Proof.
  unfold validate_claim_blob. destruct claim_blob as [blob|]; simpl; [|naive_solver].
  destruct (cl_issue_id (cb_claim blob)) as [id|] eqn:Hid; simpl; [|naive_solver].
  case_bool_decide; naive_solver.
Qed.

Lemma validate_handoff_blob_Ok task handoff_blob :
  validate_handoff_blob task handoff_blob = Ok () ↔
  ∀ blob id, handoff_blob = Some blob → ho_issue_id (hb_handoff blob) = Some id → id = te_id task.
Proof.
  unfold validate_handoff_blob. destruct handoff_blob as [blob|]; simpl; [|naive_solver].
  destruct (ho_issue_id (hb_handoff blob)) as [id|] eqn:Hid; simpl; [|naive_solver].
  case_bool_decide; naive_solver.
Qed.

(** The claim and the state an issue shows. *)
Definition shows (task : TaskEntry) (claim_blob : option ClaimBlob)
    (handoff_blob : option HandoffBlob) (issue : Issue) : Prop :=
  iss_id issue = te_id task ∧ iss_identifier issue = te_id task ∧
  iss_title issue = te_title task ∧ iss_description issue = te_description task ∧
  iss_priority issue = Some (te_priority task) ∧
  iss_state issue = task_state_name task claim_blob handoff_blob ∧
  iss_claim issue = active_claim_for_issue claim_blob handoff_blob ∧
  iss_handoff issue = hb_handoff <$> handoff_blob ∧
  iss_signature_provenance issue = None ∧ iss_verification_notices issue = [] ∧
  iss_blocked_by issue = [] ∧
  iss_extra issue !! "issue_source" = Some (JString (issue_source_str NetworkSourced)).

Lemma extra_for_task_source task claim_blob extra :
  extra_for_task task claim_blob = Ok extra →
  extra !! "issue_source" = Some (JString (issue_source_str NetworkSourced)).
Proof.
  unfold extra_for_task. destruct (blob ← claim_blob; _) as [reason|].
  - destruct (reason_value reason) as [v|]; [|done]. simpl. intros [= <-].
    by rewrite lookup_insert_ne, lookup_insert_eq.
  - intros [= <-]. by rewrite lookup_insert_eq.
Qed.

(** A task and its records map to an issue exactly when the records are for
    that task, its id and its title are not blank and a reason to show can be
    encoded; the issue then has the task's text, the state and the claim that
    the records give it (a handoff hides a claim, an active claim alone shows
    one), no provenance, and counts as coming from the network, whatever the
    task says. *)
Theorem issue_from_task_exact (task : TaskEntry) (claim_blob : option ClaimBlob)
    (handoff_blob : option HandoffBlob) (shard_blob : option ShardBlob) :
  (is_ok (issue_from_task task claim_blob handoff_blob shard_blob) = true ↔
     for_task task claim_blob handoff_blob ∧
     is_blank (te_id task) = false ∧ is_blank (te_title task) = false ∧
     is_ok (extra_for_task task claim_blob) = true) ∧
  ∀ issue, issue_from_task task claim_blob handoff_blob shard_blob = Ok issue →
    shows task claim_blob handoff_blob issue ∧
    ((∀ s, as_str (JString s) = Some s) → for_execution issue = NetworkSourced).
Proof.
  unfold issue_from_task, for_task. rewrite task_state_name_normal.
  rewrite <-validate_claim_blob_Ok, <-validate_handoff_blob_Ok.
  destruct (validate_claim_blob task claim_blob) as [[]|]; [|naive_solver].
  destruct (validate_handoff_blob task handoff_blob) as [[]|]; [|naive_solver].
  unfold new_issue_id, new_issue. destruct (is_blank (te_id task)); [naive_solver|]. cbn [map_err].
  destruct (is_blank (te_title task)); [naive_solver|]. cbn [map_err].
  change (is_blank DEFAULT_TIMESTAMP) with false. cbn [map_err].
  destruct (extra_for_task task claim_blob) as [extra|] eqn:Hextra; [|naive_solver].
  split; [by split|]. intros issue [= <-]. apply extra_for_task_source in Hextra. split.
  - by split_and!.
  - intros Hstr. unfold for_execution, from_issue. cbn [iss_extra]. rewrite Hextra. simpl.
    unfold from_json_value. rewrite Hstr. reflexivity.
Qed.
End mapping.

(** ** Signatures *)

Section signatures.
Context `{X : Extern} `{D : Daemon} `{E : Encoders} `{J : Json} `{C : Chrono} `{V : ApprovalCodec}
  `{H : !Host} `{TD : !TaskDaemon} `{CF : ChronoFormat} `{CC : CardCodec} `{BC : !BlobCodec}.
Implicit Types (t : X0xCrdtTracker) (s : crdt_state * world).

(** The answers of the verifier and of the resolver. *)
Definition verified_as (context : string) (payload signature key : bytes) : Prop :=
  ∃ w w', verify context payload signature key w = (Ok SigValid, w').
Definition trusted_key (signer : string) (key : bytes) : Prop :=
  ∃ w w', resolve signer w = (Ok key, w').

(** A payload of this digest was verified under this context, key and
    signature, in base64. *)
Definition digest_verified (context digest signature_b64 public_key_b64 : string) : Prop :=
  ∃ key signature payload, b64_decode public_key_b64 = Ok key ∧
    b64_decode signature_b64 = Ok signature ∧ sha256_hex payload = digest ∧
    verified_as context payload signature key.

(** The envelope binds the payload to its signer: it names the algorithm, the
    context and the payload's digest, its key is the one the resolver trusts
    for the signer, and the verifier accepted a payload of this digest. *)
Definition attests (envelope : SignatureEnvelope) (context : string) (payload : bytes) : Prop :=
  se_algorithm envelope = SIGN_ALGORITHM ∧ se_context envelope = context ∧
  se_payload_sha256 envelope = sha256_hex payload ∧
  (∃ key, b64_decode (se_public_key_b64 envelope) = Ok key ∧
     trusted_key (se_signer_agent_id envelope) key) ∧
  digest_verified context (sha256_hex payload) (se_signature_b64 envelope)
    (se_public_key_b64 envelope).

(** A cached acceptance was given. *)
Definition cache_sound s : Prop :=
  map_Forall (λ key outcome, outcome = SigValid →
    digest_verified (vk_context key) (vk_payload_sha256 key) (vk_signature_b64 key)
      (vk_public_key_b64 key)) (cs_verify_cache s.1).

Lemma client_cache {A} (c : Run world ClientError A) : ensures cache_sound (client c) (λ _, True).
Proof. intros s Hs. unfold client. by destruct (c s.2). Qed.
Lemma try_client_cache {A} (c : Run world ClientError A) :
  ensures cache_sound (try_client c) (λ _, True).
Proof. intros s Hs. unfold try_client. by destruct (c s.2). Qed.
Lemma calling_cache {A} (c : world → A * world) : ensures cache_sound (calling c) (λ _, True).
Proof. intros s Hs. unfold calling. by destruct (c s.2). Qed.
Lemma signer_cache {A} (c : Run world string A) :
  ensures cache_sound (signer c) (λ a, ∃ w w', c w = (Ok a, w')).
Proof.
  intros s Hs. unfold signer. destruct (c s.2) as [r w] eqn:Hr. split; [done|].
  intros a Ha%map_err_Ok. simpl in Ha. subst r. eauto.
Qed.
Lemma in_v2_cache {A} (c : TM A) : ensures cache_sound (in_v2 c) (λ _, True).
Proof. intros s Hs. unfold in_v2. by destruct (c _) as [r [v2 w]]. Qed.
Lemma gets_cache {A} (f : crdt_state * world → A) :
  ensures (E := TrackerError) cache_sound (gets f) (λ _, True).
Proof. by apply ensures_gets. Qed.
Lemma set_scope_cache scope :
  ensures (E := TrackerError) cache_sound (modify (set_scope scope)) (λ _, True).
Proof. by apply ensures_modify. Qed.
End signatures.

#[export] Hint Resolve client_cache try_client_cache calling_cache in_v2_cache gets_cache
  set_scope_cache : effects.
#[export] Hint Extern 4 (ensures _ (signer _) (λ _, True)) =>
  (eapply keeps_any; apply signer_cache) : effects.

Section listings.
Context `{X : Extern} `{D : Daemon} `{E : Encoders} `{J : Json} `{C : Chrono} `{V : ApprovalCodec}
  `{H : !Host} `{TD : !TaskDaemon} `{CF : ChronoFormat} `{CC : CardCodec} `{BC : !BlobCodec}.
Implicit Types (t : X0xCrdtTracker) (s : crdt_state * world).

Lemma resource_scope_cache t : ensures cache_sound (resource_scope t) (λ _, True).
Proof. unfold resource_scope, resolve_or_join_group. keeps. Qed.
#[local] Hint Resolve resource_scope_cache : effects.

Lemma get_blob_cache {B} t key (decode : bytes → result B MappingError) :
  ensures cache_sound (get_blob t key decode) (λ _, True).
Proof. unfold get_blob, mapping_result. keeps. Qed.
Lemma put_blob_cache t key encoded : ensures cache_sound (put_blob t key encoded) (λ _, True).
Proof. unfold put_blob, mapping_result. keeps. Qed.
#[local] Hint Resolve get_blob_cache put_blob_cache : effects.

(** What [verify_envelope] accepts is attested, from the cache or afresh. *)
Lemma verify_envelope_attests t issue_id envelope context payload :
  ensures cache_sound (verify_envelope t issue_id envelope context payload)
    (λ _, attests envelope context payload).
Proof.
  unfold verify_envelope. case_bool_decide as Halg; [by apply ensures_throw|].
  case_bool_decide as Hctx; [by apply ensures_throw|].
  cbv zeta. case_bool_decide as Hdigest; [by apply ensures_throw|].
  eapply ensures_bind; [apply ensures_lift; intros key Hk; exact Hk|]. intros key Hkey%map_err_Ok.
  eapply ensures_bind with (Φ := λ _, True); [unfold need_resolver; keeps|]. intros _ _.
  eapply ensures_bind; [apply signer_cache|]. intros trusted Htrusted.
  case_bool_decide as Heq; [by apply ensures_throw|]. subst trusted.
  eapply ensures_bind; [apply ensures_lift; intros sig Hs; exact Hs|]. intros sig Hsig%map_err_Ok.
  set (k := {| vk_issue_id := issue_id |}).
  assert (Hok : digest_verified context (sha256_hex payload) (se_signature_b64 envelope)
                  (se_public_key_b64 envelope) → attests envelope context payload).
  { intros Hd. split_and!; [done..|eauto|done]. }
  eapply ensures_bind with (Φ := λ cached, cached = Some SigValid →
    digest_verified context (sha256_hex payload) (se_signature_b64 envelope)
      (se_public_key_b64 envelope)).
  { apply ensures_gets. intros s Hs Hc. by apply (Hs k SigValid Hc). }
  intros [outcome|] Hcached.
  { apply ensures_lift. intros []. destruct outcome; [|done..]. intros _. by apply Hok, Hcached. }
  eapply ensures_bind with (Φ := λ _, True); [unfold need_client; keeps|]. intros _ _.
  eapply ensures_bind; [apply signer_cache|]. intros outcome (w&w'&Hver).
  assert (Hd : outcome = SigValid → digest_verified context (sha256_hex payload)
            (se_signature_b64 envelope) (se_public_key_b64 envelope)).
  { intros ->. exists key, sig, payload. split_and!; [done..|]. by exists w, w'. }
  eapply ensures_bind with (Φ := λ _, True).
  { destruct (is_transport_error outcome); [by apply ensures_ret|]. apply ensures_modify; [|done].
    intros s Hs. apply map_Forall_insert_2; [done|exact Hs]. }
  intros _ _. apply ensures_lift. intros []. destruct outcome; [|done..]. intros _. by apply Hok, Hd.
Qed.
#[local] Hint Extern 4 (ensures _ (verify_envelope _ _ _ _ _) (λ _, True)) =>
  (eapply keeps_any; apply verify_envelope_attests) : effects.

(** ** The records of an issue *)

Definition claim_attested (issue : Issue) (claim : Claim) : Prop :=
  cl_issue_id claim = Some (iss_id issue) ∧
  ∃ envelope payload, cl_signature claim = Some envelope ∧
    se_signer_agent_id envelope = cl_by claim ∧ claim_signing_payload claim = Ok payload ∧
    attests envelope CLAIM_CONTEXT payload.
Definition handoff_attested (issue : Issue) (handoff : Handoff) : Prop :=
  ho_issue_id handoff = Some (iss_id issue) ∧
  ∃ envelope payload, ho_signature handoff = Some envelope ∧
    ho_signer_agent_id handoff = Some (se_signer_agent_id envelope) ∧
    handoff_signing_payload handoff = Ok payload ∧ attests envelope HANDOFF_CONTEXT payload.
(** Someone trusted signed the id and the text of the issue. *)
Definition provenance_attested (issue : Issue) (signer : string) : Prop :=
  ∃ envelope, se_signer_agent_id envelope = signer ∧
    attests envelope ISSUE_PROVENANCE_CONTEXT
      (issue_provenance_payload (iss_id issue) (iss_title issue) (iss_description issue)).

Definition issue_attested (issue : Issue) : Prop :=
  (∀ claim, iss_claim issue = Some claim → claim_attested issue claim) ∧
  (∀ handoff, iss_handoff issue = Some handoff → handoff_attested issue handoff) ∧
  (∀ p, iss_signature_provenance issue = Some p →
     ∃ signer, p = ProvenanceVerified signer ∧ provenance_attested issue signer).

Lemma verify_claim_attests t issue claim :
  ensures cache_sound (verify_claim t issue claim) (λ _, claim_attested issue claim).
Proof.
  unfold verify_claim. case_bool_decide as Hid; [by apply ensures_throw|].
  destruct (cl_signature claim) as [envelope|] eqn:Hsig; [|by apply ensures_throw].
  case_bool_decide as Hby; [by apply ensures_throw|].
  eapply ensures_bind; [apply ensures_lift; intros p Hp; exact Hp|]. intros payload Hpayload%map_err_Ok.
  eapply ensures_weaken; [apply verify_envelope_attests|]. intros u Hatt.
  split; [done|]. by exists envelope, payload.
Qed.

Lemma verify_handoff_attests t issue handoff :
  ensures cache_sound (verify_handoff t issue handoff) (λ _, handoff_attested issue handoff).
Proof.
  unfold verify_handoff. destruct (ho_signature handoff) as [envelope|] eqn:Hsig; [|by apply ensures_throw].
  case_bool_decide as Hid; [by apply ensures_throw|].
  destruct (ho_signer_agent_id handoff) as [who|] eqn:Hwho; [|by apply ensures_throw].
  case_bool_decide as Hby; [by apply ensures_throw|]. subst who.
  eapply ensures_bind; [apply ensures_lift; intros p Hp; exact Hp|]. intros payload Hpayload%map_err_Ok.
  eapply ensures_weaken; [apply verify_envelope_attests|]. intros u Hatt.
  split; [done|]. by exists envelope, payload.
Qed.

Lemma verify_provenance_attests t issue :
  ensures cache_sound (verify_issue_provenance t issue)
    (λ found, ∀ signer, found = Some signer → provenance_attested issue signer).
Proof.
  unfold verify_issue_provenance, provenance_blob_for_task.
  eapply ensures_bind; [apply get_blob_cache|]. intros [blob|] _; [|by apply ensures_ret].
  cbv zeta. eapply ensures_bind; [apply verify_envelope_attests|]. intros u Hatt. apply ensures_ret.
  intros signer [= <-]. by exists (pb_envelope blob).
Qed.

(** Two issues that differ at most in claim, state, provenance and notices. *)
Definition same_text (i j : Issue) : Prop :=
  iss_id i = iss_id j ∧ iss_title i = iss_title j ∧ iss_description i = iss_description j ∧
  iss_handoff i = iss_handoff j.

Lemma check_claim_attests t issue :
  ensures cache_sound (check_claim t issue) (λ issue',
    same_text issue' issue ∧ iss_signature_provenance issue' = iss_signature_provenance issue ∧
    ∀ claim, iss_claim issue' = Some claim → claim_attested issue' claim).
Proof.
  unfold check_claim. destruct (iss_claim issue) as [claim|] eqn:Hclaim.
  2: { apply ensures_ret. by rewrite Hclaim. }
  eapply ensures_bind; [apply ensures_catch, verify_claim_attests|]. intros [[]|e] Hatt.
  { apply ensures_ret. split_and!; [done..|]. intros c. rewrite Hclaim. intros [= <-]. by apply (Hatt ()). }
  assert (Hstrip : ensures cache_sound
    (lift_result (strip_bad_claim issue claim (show_tracker_error status_display e)) : XM Issue)
    (λ issue', same_text issue' issue ∧
       iss_signature_provenance issue' = iss_signature_provenance issue ∧
       ∀ c, iss_claim issue' = Some c → claim_attested issue' c)).
  { apply ensures_lift. intros issue'. unfold strip_bad_claim.
    destruct (if bool_decide _ then _ else _) as [state|]; [|done]. simpl. by intros [= <-]. }
  destruct e; try exact Hstrip. apply ensures_throw.
Qed.

Lemma check_handoff_attests t issue :
  ensures cache_sound (check_handoff t issue) (λ ok, ok = true →
    ∀ handoff, iss_handoff issue = Some handoff → handoff_attested issue handoff).
Proof.
  unfold check_handoff. destruct (iss_handoff issue) as [handoff|] eqn:Hh; [|by apply ensures_ret].
  eapply ensures_bind; [apply ensures_catch, verify_handoff_attests|]. intros [[]|e] Hatt.
  { apply ensures_ret. intros _ h [= <-]. by apply (Hatt ()). }
  destruct e; try (by apply ensures_ret). apply ensures_throw.
Qed.

Lemma check_provenance_attests t issue :
  iss_signature_provenance issue = None →
  ensures cache_sound (check_provenance t issue) (λ issue',
    same_text issue' issue ∧ iss_claim issue' = iss_claim issue ∧
    ∀ p, iss_signature_provenance issue' = Some p →
      ∃ signer, p = ProvenanceVerified signer ∧ provenance_attested issue' signer).
Proof.
  intros Hnone. unfold check_provenance.
  eapply ensures_bind; [apply ensures_catch, verify_provenance_attests|]. intros [[signer|]|e] Hatt.
  - apply ensures_ret. split_and!; [done..|]. intros p [= <-]. exists signer. split; [done|].
    by apply (Hatt (Some signer)).
  - apply ensures_ret. split_and!; [done..|]. by rewrite Hnone.
  - destruct e; try (apply ensures_ret; split_and!; [done..|by rewrite Hnone]). apply ensures_throw.
Qed.

Lemma verify_issues_attests t issues :
  Forall (λ issue, iss_signature_provenance issue = None) issues →
  ensures cache_sound (verify_issues t issues) (Forall issue_attested).
Proof.
  induction 1 as [|issue issues Hnone _ IH]; cbn [verify_issues]; [by apply ensures_ret|].
  eapply ensures_bind; [apply check_claim_attests|]. intros i1 (Htext1&Hprov1&Hclaim1).
  eapply ensures_bind; [apply check_handoff_attests|]. intros [|] Hhandoff; [|exact IH].
  eapply ensures_bind; [apply check_provenance_attests; congruence|]. intros i2 (Htext2&Hclaim2&Hprov2).
  eapply ensures_bind; [exact IH|]. intros verified Hverified. apply ensures_ret.
  constructor; [|exact Hverified]. destruct Htext2 as (Hid&_&_&Hh).
  unfold issue_attested, claim_attested, handoff_attested in *. rewrite Hid, Hclaim2, Hh.
  split_and!; [exact Hclaim1|by apply Hhandoff|exact Hprov2].
Qed.

Lemma issues_from_tasks_fresh t tasks :
  ensures cache_sound (issues_from_tasks t tasks)
    (Forall (λ issue, iss_signature_provenance issue = None)).
Proof.
  induction tasks as [|task tasks IH]; cbn [issues_from_tasks]; [by apply ensures_ret|].
  eapply ensures_bind; [apply get_blob_cache|]. intros cb _.
  eapply ensures_bind; [apply get_blob_cache|]. intros hb _.
  eapply ensures_bind; [apply get_blob_cache|]. intros sb _.
  eapply ensures_bind; [apply ensures_lift; intros i Hi; exact Hi|]. intros issue Hissue%map_err_Ok.
  eapply ensures_bind; [exact IH|]. intros issues Hissues. apply ensures_ret.
  constructor; [|done]. eapply issue_from_task_exact in Hissue as [(_&_&_&_&_&_&_&_&Hp&_) _]. exact Hp.
Qed.

Lemma list_tracker_issues_attests t :
  ensures cache_sound (list_tracker_issues t) (λ issues,
    xt_v2 t = None → sr_policy (xt_signing t) = SigningRequired → Forall issue_attested issues).
Proof.
  unfold list_tracker_issues. destruct (xt_v2 t) as [v2|].
  { apply ensures_mapping. eapply ensures_weaken; [apply in_v2_cache|done]. }
  unfold list_v1_issues. eapply ensures_bind; [apply resource_scope_cache|]. intros scope _.
  eapply ensures_bind; [apply try_client_cache|]. intros [tasks|[status body|text]] _.
  - eapply ensures_bind; [apply issues_from_tasks_fresh|]. intros issues Hfresh.
    unfold filter_verified_issues. case_bool_decide as Hpolicy.
    + apply ensures_ret. intros _ Hreq. congruence.
    + eapply ensures_weaken; [by apply verify_issues_attests|done].
  - destruct (_ && _); [by apply ensures_ret|apply ensures_throw].
  - apply ensures_throw.
Qed.

Lemma list_tracker_issues_cache t : ensures cache_sound (list_tracker_issues t) (λ _, True).
Proof. eapply keeps_any, list_tracker_issues_attests. Qed.
#[local] Hint Resolve list_tracker_issues_cache : effects.

(** ** Every operation keeps the cache sound *)

Inductive tracker_op :=
  | XListIssues
  | XEnsureSurfaces
  | XCreateIssue (draft : IssueDraft)
  | XFetchCandidates (ctx : PollContext)
  | XFetchByIds (ids : list string)
  | XClaim (id agent_id : string)
  | XHeartbeat (claim : Claim)
  | XRelease (claim : Claim) (reason : ReleaseReason)
  | XHandoff (claim : Claim) (handoff : Handoff)
  | XFetchClaimed (agent_id : option string)
  | XBlock (claim : Claim) (reason : ReleaseReason)
  | XRequeueBlocked (issue_id : string) (reason : ReleaseReason)
  | XLoadApprovalState (issue_id : string)
  | XStoreApproval (event : ApprovalEvent)
  | XStoreConsumed (event : ApprovalConsumed).

Definition after_op t (op : tracker_op) s : crdt_state * world :=
  let api := CrdtApi t in
  match op with
  | XListIssues => (tk_list_issues s).2
  | XEnsureSurfaces => (ensure_tracker_surfaces t s).2
  | XCreateIssue draft => (tk_create_issue draft s).2
  | XFetchCandidates ctx => (tk_fetch_candidates ctx s).2
  | XFetchByIds ids => (tk_fetch_by_ids ids s).2
  | XClaim id agent_id => (tk_claim id agent_id s).2
  | XHeartbeat claim => (tk_heartbeat claim s).2
  | XRelease claim reason => (tk_release claim reason s).2
  | XHandoff claim handoff => (tk_handoff claim handoff s).2
  | XFetchClaimed agent_id => (tk_fetch_claimed agent_id s).2
  | XBlock claim reason => (tk_block claim reason s).2
  | XRequeueBlocked issue_id reason => (tk_requeue_blocked issue_id reason s).2
  | XLoadApprovalState issue_id => (tk_load_approval_state issue_id s).2
  | XStoreApproval event => (tk_store_approval event s).2
  | XStoreConsumed event => (tk_store_consumed event s).2
  end.

Lemma route_cache {A} t (v2 : V2Tracker → TM A) (v1 : XM A) :
  ensures cache_sound v1 (λ _, True) → ensures cache_sound (route t v2 v1) (λ _, True).
Proof.
  intros Hv1. unfold route. destruct (xt_v2 t); [apply in_v2_cache|]. by apply ensures_mapping.
Qed.

Lemma sign_payload_cache t context payload owner :
  ensures cache_sound (sign_payload t context payload owner) (λ _, True).
Proof. unfold sign_payload, need_client. keeps. Qed.
Lemma owner_cache t claim : ensures cache_sound (ensure_current_claim_owner t claim) (λ _, True).
Proof.
  unfold ensure_current_claim_owner, v1_claim_issue_id, current_active_claim, claim_blob_for_task. keeps.
Qed.
Lemma fetch_issue_cache t id : ensures cache_sound (fetch_issue t id) (λ _, True).
Proof. unfold fetch_issue. keeps. Qed.
Lemma approval_blob_cache t id : ensures cache_sound (approval_blob_or_new t id) (λ _, True).
Proof. unfold approval_blob_or_new, approval_blob_for_issue. keeps. Qed.
#[local] Hint Resolve sign_payload_cache owner_cache fetch_issue_cache approval_blob_cache : effects.

Lemma create_cache t draft : ensures cache_sound (create_issue_with_shard t draft) (λ _, True).
Proof.
  unfold create_issue_with_shard, put_sidecars, sign_and_put_provenance, put_shard_blob,
    put_provenance_blob, core_result. keeps.
Qed.

Lemma after_op_cache t op s : cache_sound s → cache_sound (after_op t op s).
Proof.
  assert (Hkeep : ∀ {Err A} (c : Run (crdt_state * world) Err A),
    ensures cache_sound c (λ _, True) → cache_sound s → cache_sound (c s).2).
  { intros Err A c Hc Hs. by apply Hc. }
  destruct op; apply Hkeep; simpl; try apply route_cache.
  - apply ensures_mapping. keeps.
  - unfold ensure_tracker_surfaces. keeps.
  - apply create_cache.
  - keeps.
  - keeps.
  - unfold v1_claim, ensure_agent_matches, ensure_issue_claimable, sign_claim, json_result,
      put_claim_blob. keeps.
  - unfold v1_heartbeat, put_claim_blob. keeps.
  - unfold v1_release, put_claim_blob. keeps.
  - unfold v1_handoff, sign_handoff, json_result, put_claim_blob, put_handoff_blob. keeps.
  - keeps.
  - unfold v1_block, put_claim_blob. keeps.
  - unfold v1_requeue_blocked, claim_blob_for_task, put_claim_blob. keeps.
  - unfold v1_load_approval_state, approval_blob_for_issue. keeps.
  - unfold v1_store_approval, put_approval_blob. keeps.
  - unfold v1_store_consumed, put_approval_blob. keeps.
Qed.
End listings.

(** ** Behind the orchestrator's interface *)

Section laws.
Context `{X : Extern} `{D : Daemon} `{E : Encoders} `{J : Json} `{C : Chrono} `{V : ApprovalCodec}
  `{H : !Host} `{TD : !TaskDaemon} `{CF : ChronoFormat} `{CC : CardCodec} `{BC : !BlobCodec}.

Lemma v1_claim_names t id agent_id s claim s' :
  v1_claim t id agent_id s = (Ok claim, s') → cl_issue_id claim = Some id.
Proof.
  unfold v1_claim, sign_claim. intros Hrun. run_inv.
  match goal with Hsign : (if _ then _ else _) _ = _ |- _ =>
    destruct (bool_decide _); run_inv end; done.
Qed.

Lemma v2_claim_names v2 id agent_id s claim s' :
  v2_claim v2 id agent_id s = (Ok claim, s') → cl_issue_id claim = Some id.
Proof.
  unfold v2_claim, require_local_agent. intros Hrun. t_inv.
  repeat case_match; t_inv; done.
Qed.

(** Both kinds of lists grant claims for the issue that was asked for. *)
#[export] Instance crdt_tracker_laws t : TrackerLaws (CrdtApi t).
Proof.
  intros id agent_id s claim s'. simpl. unfold route. destruct (xt_v2 t) as [v2|].
  - unfold in_v2. destruct (v2_claim v2 id agent_id (cs_v2 s.1, s.2)) as [[c|e] [st w]] eqn:Hrun; [|done].
    intros [= <- _]. by eapply v2_claim_names.
  - unfold in_v1. intros Hrun%run_mapping_Ok. by eapply v1_claim_names.
Qed.
End laws.

(** C18 Under required signing a listing returns only records that are vouched for:
    after any operations, starting from the empty cache, and whatever the
    network answers, every claim shown with an issue is for that issue and is
    signed by its owner, every handoff shown is for that issue and signed by
    the signer it names, and provenance is attached only if its signer signed
    the id and the text of the issue; each signature binds the record under its
    own context, with the key the resolver trusts for the signer, and was
    accepted by the verifier, either now or when it was cached. *)
Theorem listed_records_attested `{X : Extern} `{D : Daemon} `{E : Encoders} `{J : Json}
    `{C : Chrono} `{V : ApprovalCodec} `{H : !Host} `{TD : !TaskDaemon} `{CF : ChronoFormat}
    `{CC : CardCodec} `{BC : !BlobCodec}
    (t : X0xCrdtTracker) (w : world) (ops : list tracker_op) (issues : list Issue)
    (s' : crdt_state * world) :
  xt_v2 t = None → sr_policy (xt_signing t) = SigningRequired →
  list_tracker_issues t (foldl (λ s op, after_op t op s) (initial_crdt, w) ops) = (Ok issues, s') →
  Forall issue_attested issues.
Proof.
  intros Hv1 Hreq Hlist.
  assert (Hs : cache_sound (foldl (λ s op, after_op t op s) (initial_crdt, w) ops)).
  { assert (Hgen : ∀ s, cache_sound s → cache_sound (foldl (λ s op, after_op t op s) s ops)).
    { clear Hlist. induction ops as [|op ops IH]; intros s Hs; [done|]. simpl. by apply IH, after_op_cache. }
    apply Hgen. intros k o. simpl. by rewrite lookup_empty. }
  destruct (list_tracker_issues_attests t _ Hs) as [_ Hatt]. rewrite Hlist in Hatt. by apply Hatt.
Qed.
