(* ===== verification/TaskLife.v ===== *)
(** * The life of an issue on a task list

    An abstract machine of phases (to do, running, being handed off, in review,
    blocked), and the refinement theorem that every successful operation of
    the task-list tracker is one of its steps, on a daemon that nobody else
    writes to meanwhile. *)

From S2P Require Import Prelude Wire Identity Core Text Effects FoldTypes Canonical Fold Store.
From S2P Require Import Client Gate Claims Approvals Mapping Tracker Ports Proofs Workers TaskLists.
From S2P Require Import TaskTracking.
Import Reconcile Shards.

(** ** The abstract machine *)

Inductive phase :=
  | PTodo
  | PRunning (claim : Claim)
  (** a handoff is stored, and the claim is not settled yet *)
  | PHanding (claim : Claim)
  | PReview
  | PBlocked (reason : option ReleaseReason) (handed : bool)
  (** claimed or done by the checkbox alone, or not a task *)
  | PLoose
  | PUnreadable.

Definition holding (claim : Claim) (handed : bool) : phase :=
  if handed then PHanding claim else PRunning claim.
Definition settled (handed : bool) : phase := if handed then PReview else PTodo.

Inductive life_op :=
  | LClaim (agent_id : string)
  | LHeartbeat (claim : Claim)
  | LRelease (claim : Claim) (reason : ReleaseReason)
  | LBlock (claim : Claim) (reason : ReleaseReason)
  | LHandoff (claim : Claim) (handoff : Handoff)
  | LRequeue (reason : ReleaseReason).

Section life.
Context `{X : Extern} `{D : Daemon} `{E : Encoders} `{J : Json} `{C : Chrono} `{V : ApprovalCodec}
  `{H : !Host} `{TD : !TaskDaemon} `{CF : ChronoFormat} `{CC : CardCodec} `{BC : !BlobCodec}.
Implicit Types (t : X0xCrdtTracker) (s : crdt_state * world) (scope : ResourceScope).

(** [refused c]: the stored claim [c] does not hold. *)
Inductive life_step (refused : Claim → Prop) (id : string) : life_op → phase → phase → Prop :=
  | step_claim agent_id claim :
      cl_by claim = agent_id → cl_issue_id claim = Some id →
      life_step refused id (LClaim agent_id) PTodo (PRunning claim)
  | step_seize agent_id c0 claim :
      refused c0 → cl_by claim = agent_id → cl_issue_id claim = Some id →
      life_step refused id (LClaim agent_id) (PRunning c0) (PRunning claim)
  | step_heartbeat c0 claim now handed :
      cl_by c0 = cl_by claim →
      life_step refused id (LHeartbeat claim) (holding c0 handed) (holding (with_heartbeat claim now) handed)
  | step_release c0 claim reason handed :
      cl_by c0 = cl_by claim →
      life_step refused id (LRelease claim reason) (holding c0 handed) (settled handed)
  | step_block c0 claim reason handed :
      cl_by c0 = cl_by claim →
      life_step refused id (LBlock claim reason) (holding c0 handed) (PBlocked (Some reason) handed)
  | step_handoff c0 claim handoff handed :
      cl_by c0 = cl_by claim →
      life_step refused id (LHandoff claim handoff) (holding c0 handed) PReview
  | step_requeue blocked reason handed :
      rr_code blocked = RcAwaitingApproval →
      life_step refused id (LRequeue reason) (PBlocked (Some blocked) handed) (settled handed).

(** *** When a claim does not hold

    Read off the claim, the tracker's configuration and what the daemon
    answers in the state [s]. *)

(** Why the envelope does not bind the payload to its signer: a field of it is
    wrong or unreadable, the tracker has nothing to verify with, the resolver
    knows no key of the signer or another one, or the verifier (now, or when
    the same signature was first seen) refuses it. *)
Inductive envelope_refused t s (id : string) (envelope : SignatureEnvelope) (context : string)
    (payload : bytes) : Prop :=
  | refused_algorithm : se_algorithm envelope ≠ SIGN_ALGORITHM → envelope_refused t s id envelope context payload
  | refused_context : se_context envelope ≠ context → envelope_refused t s id envelope context payload
  | refused_digest :
      se_payload_sha256 envelope ≠ sha256_hex payload → envelope_refused t s id envelope context payload
  | refused_encoding e :
      b64_decode (se_public_key_b64 envelope) = Err e ∨ b64_decode (se_signature_b64 envelope) = Err e →
      envelope_refused t s id envelope context payload
  | refused_unequipped :
      sr_resolver (xt_signing t) = false ∨ sr_client (xt_signing t) = false →
      envelope_refused t s id envelope context payload
  | refused_signer key r w :
      b64_decode (se_public_key_b64 envelope) = Ok key →
      resolve (se_signer_agent_id envelope) s.2 = (r, w) → r ≠ Ok key →
      envelope_refused t s id envelope context payload
  | refused_before reason :
      cs_verify_cache s.1 !! {|
        vk_issue_id := id; vk_context := context; vk_payload_sha256 := sha256_hex payload;
        vk_signature_b64 := se_signature_b64 envelope;
        vk_public_key_b64 := se_public_key_b64 envelope;
        vk_signer_agent_id := se_signer_agent_id envelope |} = Some (SigInvalid reason) →
      envelope_refused t s id envelope context payload
  | refused_verdict key signature r w r' w' :
      b64_decode (se_public_key_b64 envelope) = Ok key →
      b64_decode (se_signature_b64 envelope) = Ok signature →
      resolve (se_signer_agent_id envelope) s.2 = (r, w) →
      verify context payload signature key w = (r', w') →
      (∃ e, r' = Err e) ∨ (∃ reason, r' = Ok (SigInvalid reason)) →
      envelope_refused t s id envelope context payload.

(** The claim is not for the issue, is not signed by its owner, or its
    signature does not bind it. *)
Definition claim_refused t s (id : string) (claim : Claim) : Prop :=
  cl_issue_id claim ≠ Some id ∨
  match cl_signature claim with
  | None => True
  | Some envelope =>
      se_signer_agent_id envelope ≠ cl_by claim ∨
      match claim_signing_payload claim with
      | Err _ => True
      | Ok payload => envelope_refused t s id envelope CLAIM_CONTEXT payload
      end
  end.

Lemma verify_envelope_refused t id envelope context payload s e s' :
  verify_envelope t id envelope context payload s = (Err e, s') →
  (∀ text, e ≠ VerifyTransport text) → envelope_refused t s id envelope context payload.
Proof.
  unfold verify_envelope. case_bool_decide as Halg; [by intros; apply refused_algorithm|].
  case_bool_decide as Hctx; [by intros; apply refused_context|].
  cbv zeta. case_bool_decide as Hdigest; [by intros; apply refused_digest|].
  unfold mbind, Run_bind, lift_result, need_resolver, need_client, signer, cached_verify_outcome, gets.
  destruct (b64_decode (se_public_key_b64 envelope)) as [key|] eqn:Hkey; simpl;
    [|intros; eapply refused_encoding; eauto].
  destruct (sr_resolver (xt_signing t)) eqn:Hres; simpl; [|intros; apply refused_unequipped; auto].
  destruct (resolve (se_signer_agent_id envelope) s.2) as [r w] eqn:Hr; simpl.
  destruct r as [key'|e1]; simpl; [|intros; by eapply refused_signer].
  case_bool_decide as Hk; [intros; eapply refused_signer; [done..|congruence]|].
  destruct (b64_decode (se_signature_b64 envelope)) as [sig|] eqn:Hsig; simpl;
    [|intros; eapply refused_encoding; eauto].
  destruct (cs_verify_cache s.1 !! _) as [[|reason|text]|] eqn:Hcache; simpl.
  - done.
  - intros _ _. by eapply refused_before.
  - intros [= <- <-] Hne. by destruct (Hne text).
  - destruct (sr_client (xt_signing t)) eqn:Hcl; simpl; [|intros; apply refused_unequipped; auto].
    destruct (verify context payload sig key w) as [r' w'] eqn:Hv; simpl.
    destruct r' as [[|reason|text]|e2]; simpl; [done|..].
    + intros _ _. eapply refused_verdict; eauto.
    + intros [= <- <-] Hne. by destruct (Hne text).
    + intros _ _. eapply refused_verdict; eauto.
Qed.

(** Only a transport error of the verifier is no verdict. *)
Lemma verify_claim_refused t issue claim s e s' :
  verify_claim t issue claim s = (Err e, s') → (∀ text, e ≠ VerifyTransport text) →
  claim_refused t s (iss_id issue) claim.
Proof.
  unfold verify_claim, claim_refused. case_bool_decide as Hid; [by left|]. intros Hrun Hne. right.
  destruct (cl_signature claim) as [envelope|]; [|done].
  case_bool_decide as Hby; [by left|right].
  destruct (claim_signing_payload claim) as [payload|] eqn:Hp; [|done].
  by eapply verify_envelope_refused.
Qed.

(** ** A quiet daemon *)

(** The keys of the stores and the checkboxes of the tasks, which only this
    tracker's writes change, as the endpoints document them. *)
Class QuietX0xd := {
  kv : world → string → string → option bytes;
  checkbox : world → string → string → option string;
  same_records (w w' : world) : Prop :=
    (∀ store key, kv w' store key = kv w store key) ∧
    (∀ list id, checkbox w' list id = checkbox w list id);
  quiet_get store key w r w' : get_kv store key w = (r, w') →
    same_records w w' ∧ ∀ v, r = Ok v → v = kv w store key;
  quiet_list list w r w' : list_tasks list w = (r, w') →
    same_records w w' ∧ ∀ tasks, r = Ok tasks →
      ∀ task, task ∈ tasks → checkbox w list (te_id task) = Some (te_state task);
  quiet_put store key value content_type w w' :
    put_kv store key value content_type w = (Ok (), w') →
    kv w' store key = Some value ∧
    (∀ store' key', (store', key') ≠ (store, key) → kv w' store' key' = kv w store' key') ∧
    (∀ list id, checkbox w' list id = checkbox w list id);
  quiet_update list id action w w' :
    update_task list id action w = (Ok (), w') →
    (∀ store key, kv w' store key = kv w store key) ∧
    (∀ list' id', (list', id') ≠ (list, id) → checkbox w' list' id' = checkbox w list' id');
  quiet_now w : same_records w (now_utc w).2;
  quiet_sign context payload w : same_records w (sign context payload w).2;
  quiet_verify context payload signature key w :
    same_records w (verify context payload signature key w).2;
  quiet_resolve signer w : same_records w (resolve signer w).2;
  (** [serde_json] reads back what it wrote *)
  claim_blob_roundtrip blob b : json_claim_blob blob = Ok b → parse_claim_blob b = Ok blob
}.
Context `{Q : !QuietX0xd}.

Lemma same_records_refl w : same_records w w.
Proof. done. Qed.
Lemma same_records_trans w1 w2 w3 : same_records w1 w2 → same_records w2 w3 → same_records w1 w3.
Proof. intros [Hk1 Hc1] [Hk2 Hc2]. split; intros; [by rewrite Hk2|by rewrite Hc2]. Qed.

(** ** The phase of an issue *)

Definition checkbox_phase (state : option string) : phase :=
  match state with
  | None => PLoose
  | Some state =>
      let normalized := normalized_task_state state in
      if bool_decide (normalized = "claimed") || bool_decide (normalized = "done")
      then PLoose else PTodo
  end.

Definition blob_phase (state : option string) (claim_blob : option ClaimBlob) (handed : bool) : phase :=
  match claim_blob with
  | None => if handed then PReview else checkbox_phase state
  | Some blob =>
      match cb_status blob with
      | BlobActive => holding (cb_claim blob) handed
      | BlobReleased => settled handed
      | BlobCompleted => if handed then PReview else checkbox_phase state
      | BlobBlocked => PBlocked (cb_release_reason blob) handed
      end
  end.

Definition claim_record (w : world) scope (id : string) : result (option ClaimBlob) MappingError :=
  match kv w (rs_store_id scope) (claim_key id) with
  | None => Ok None
  | Some b => let? blob := decode_claim_blob b in Ok (Some blob)
  end.
Definition handed_off (w : world) scope (id : string) : bool :=
  bool_decide (is_Some (kv w (rs_store_id scope) (handoff_key id))).

Definition phase_at (w : world) scope (id : string) : phase :=
  match claim_record w scope id with
  | Ok claim_blob =>
      blob_phase (checkbox w (rs_list_id scope) id) claim_blob (handed_off w scope id)
  | Err _ => PUnreadable
  end.

(** An issue that a listing shows to do and unclaimed is to do. *)
Lemma shown_todo task claim_blob handoff_blob :
  task_state_name task claim_blob handoff_blob = "todo" →
  active_claim_for_issue claim_blob handoff_blob = None →
  blob_phase (Some (te_state task)) claim_blob (bool_decide (is_Some handoff_blob)) = PTodo.
Proof.
  unfold task_state_name, has_status, active_claim_for_issue, is_active, blob_phase, checkbox_phase.
  destruct handoff_blob as [hb|], claim_blob as [blob|]; simpl;
    try (destruct (cb_status blob)); simpl; try done;
    repeat case_bool_decide; simpl; done.
Qed.

(** A claim is shown exactly while it runs. *)
Lemma shown_claim task claim_blob handoff_blob claim :
  active_claim_for_issue claim_blob handoff_blob = Some claim ↔
  blob_phase (Some (te_state task)) claim_blob (bool_decide (is_Some handoff_blob)) = PRunning claim.
Proof.
  unfold active_claim_for_issue, is_active, blob_phase, checkbox_phase, holding.
  destruct handoff_blob as [hb|], claim_blob as [blob|]; simpl;
    try (destruct (cb_status blob)); simpl; try done; repeat case_bool_decide; simpl; naive_solver.
Qed.

(** ** What a run reads *)

(** The scope of the tracker's resources is known. *)
Definition scoped t scope s : Prop :=
  match xt_group t with
  | None => scope = unscoped (xt_list_id t)
  | Some _ => cs_scope s.1 = Some scope
  end.

(** The records are still those of [w0], and the scope is known. *)
Definition untouched t scope (w0 : world) s : Prop := same_records w0 s.2 ∧ scoped t scope s.

Context (t : X0xCrdtTracker) (scope : ResourceScope) (w0 : world).
Local Abbreviation P := (untouched t scope w0).

Lemma untouched_world s w : P s → same_records s.2 w → P (s.1, w).
Proof. intros [Hw Hs] Hww. split; [by eapply same_records_trans|done]. Qed.

Lemma resource_scope_untouched : ensures P (resource_scope t) (λ a, a = scope).
Proof.
  intros s Hs. assert (Hrun : resource_scope t s = (Ok scope, s)).
  { destruct Hs as [_ Hs]. unfold resource_scope, scoped in *. destruct (xt_group t); [|by subst].
    unfold gets, mbind, Run_bind. by rewrite Hs. }
  rewrite Hrun. split; [done|]. by intros ? [= <-].
Qed.

Lemma calling_untouched {A} (c : world → A * world) :
  (∀ w, same_records w (c w).2) → ensures P (calling c) (λ _, True).
Proof.
  intros Hc s Hs. unfold calling. specialize (Hc s.2). destruct (c s.2) as [a w]. split; [|done].
  by apply untouched_world.
Qed.
Lemma signer_untouched {A} (c : Run world string A) :
  (∀ w, same_records w (c w).2) → ensures P (signer c) (λ _, True).
Proof.
  intros Hc s Hs. unfold signer. specialize (Hc s.2). destruct (c s.2) as [a w]. split; [|done].
  by apply untouched_world.
Qed.

(** Reading a record gives what is stored. *)
Lemma get_blob_untouched {B} key (decode : bytes → result B MappingError) :
  ensures P (get_blob t key decode) (λ found,
    match kv w0 (rs_store_id scope) key with
    | None => found = None
    | Some b => ∃ blob, found = Some blob ∧ decode b = Ok blob
    end).
Proof.
  unfold get_blob. eapply ensures_bind; [apply resource_scope_untouched|]. intros a ->.
  eapply ensures_bind with (Φ := λ v, v = kv w0 (rs_store_id scope) key).
  { intros s Hs. unfold client. destruct (get_kv _ _ s.2) as [r w] eqn:Hr.
    apply quiet_get in Hr as [Hsame Hv]. split; [by apply untouched_world|].
    intros v Hok%map_err_Ok. simpl in Hok. rewrite (Hv v Hok). apply Hs. }
  intros v ->. destruct (kv w0 (rs_store_id scope) key) as [b|]; [|by apply ensures_ret].
  eapply ensures_bind; [apply ensures_lift; intros x Hx; exact Hx|]. intros blob Hblob%map_err_Ok.
  apply ensures_ret. eauto.
Qed.

Lemma get_blob_frame {B} key (decode : bytes → result B MappingError) :
  ensures P (get_blob t key decode) (λ _, True).
Proof. eapply keeps_any, get_blob_untouched. Qed.
Lemma cached_frame key : ensures P (cached_verify_outcome key) (λ _, True).
Proof. by apply ensures_gets. Qed.
Lemma cache_frame key outcome :
  ensures (E := TrackerError) P (modify (cache_verify_outcome key outcome)) (λ _, True).
Proof. by apply ensures_modify. Qed.
#[local] Hint Resolve get_blob_frame cached_frame cache_frame : effects.
#[local] Hint Extern 3 (ensures _ (signer _) _) =>
  (apply signer_untouched; first [apply quiet_sign|apply quiet_verify|apply quiet_resolve]) : effects.
#[local] Hint Extern 3 (ensures _ (calling _) _) => (apply calling_untouched, quiet_now) : effects.

Lemma verify_envelope_frame id envelope context payload :
  ensures P (verify_envelope t id envelope context payload) (λ _, True).
Proof. unfold verify_envelope, need_resolver, need_client. keeps. Qed.
#[local] Hint Resolve verify_envelope_frame : effects.

Lemma verify_claim_frame issue claim : ensures P (verify_claim t issue claim) (λ _, True).
Proof. unfold verify_claim, json_result. keeps. Qed.
#[local] Hint Resolve verify_claim_frame : effects.

(** ** What a listing shows *)

(** The claim was verified and did not hold, while the records were those of
    [w0]. *)
Definition refuted (id : string) (claim : Claim) : Prop :=
  sr_policy (xt_signing t) ≠ SigningDisabled ∧
  ∃ s, same_records w0 s.2 ∧ claim_refused t s id claim.

(** The issue shows what the records of [w0] say, unless its claim did not
    hold: then it shows none, and the notice of it. *)
Definition stripped (claim : Claim) (issue : Issue) : Prop :=
  iss_claim issue = None ∧
  ∃ reason, {| vn_kind := BadClaim; vn_claimant := Some (cl_by claim); vn_reason := reason |}
              ∈ iss_verification_notices issue.
Definition listed (issue : Issue) : Prop :=
  ∃ task claim_blob handoff_blob,
    iss_id issue = te_id task ∧
    checkbox w0 (rs_list_id scope) (te_id task) = Some (te_state task) ∧
    claim_record w0 scope (te_id task) = Ok claim_blob ∧
    handed_off w0 scope (te_id task) = bool_decide (is_Some handoff_blob) ∧
    ((iss_state issue = task_state_name task claim_blob handoff_blob ∧
      iss_claim issue = active_claim_for_issue claim_blob handoff_blob) ∨
     ∃ c0, active_claim_for_issue claim_blob handoff_blob = Some c0 ∧
       refuted (te_id task) c0 ∧ stripped c0 issue).

Lemma issues_from_tasks_listed tasks :
  (∀ task, task ∈ tasks → checkbox w0 (rs_list_id scope) (te_id task) = Some (te_state task)) →
  ensures P (issues_from_tasks t tasks) (Forall listed).
Proof.
  induction tasks as [|task tasks IH]; intros Htasks; cbn [issues_from_tasks]; [by apply ensures_ret|].
  eapply ensures_bind; [apply get_blob_untouched|]. intros cb Hcb.
  eapply ensures_bind; [apply get_blob_untouched|]. intros hb Hhb.
  eapply ensures_bind; [apply get_blob_frame|]. intros sb _.
  eapply ensures_bind; [apply ensures_lift; intros i Hi; exact Hi|]. intros issue Hissue%map_err_Ok.
  eapply ensures_bind; [apply IH; intros k Hk; apply Htasks, elem_of_cons; by right|].
  intros issues Hissues. apply ensures_ret. constructor; [|done].
  apply issue_from_task_exact in Hissue as [(Hid&_&_&_&_&Hstate&Hclaim&_) _].
  exists task, cb, hb. split_and!; [done|apply Htasks, elem_of_cons; by left|..|by left].
  - unfold claim_record. destruct (kv w0 _ (claim_key _)) as [b|]; [|by subst cb].
    destruct Hcb as (blob&->&->). done.
  - unfold handed_off. destruct (kv w0 _ (handoff_key _)) as [b|]; [|by subst hb].
    by destruct Hhb as (blob&->&_).
Qed.

Lemma check_claim_listed issue :
  sr_policy (xt_signing t) ≠ SigningDisabled → listed issue → ensures P (check_claim t issue) listed.
Proof.
  intros Hpol Hl. unfold check_claim. destruct (iss_claim issue) as [claim|] eqn:Hclaim; [|by apply ensures_ret].
  eapply ensures_bind with (Φ := λ r, ∃ s s', P s ∧ verify_claim t issue claim s = (r, s')).
  { intros s Hs. destruct (verify_claim_frame issue claim s Hs) as [Hs' _]. unfold catch.
    destruct (verify_claim t issue claim s) as [r s'] eqn:Hr. split; [done|]. intros a [= <-]. eauto. }
  intros [[]|e] (s&s'&Hs&Hr); [by apply ensures_ret|].
  assert (Hstrip : (∀ text, e ≠ VerifyTransport text) → ensures P
    (lift_result (strip_bad_claim issue claim (show_tracker_error status_display e)) : XM Issue) listed).
  { intros Hne. apply (verify_claim_refused _ _ _ _ _ _ Hr) in Hne.
    apply ensures_lift. intros issue'. unfold strip_bad_claim.
    destruct (if bool_decide _ then _ else _) as [state|]; [|done]. simpl. intros [= <-].
    destruct Hl as (task&cb&hb&Hid&Hck&Hcb&Hhb&Hshow). exists task, cb, hb. split_and!; [done..|right].
    destruct Hshow as [[_ Hc]|(c0&_&_&Hnone&_)]; [|congruence]. exists claim. split_and!; [by rewrite <-Hc|..].
    - split; [done|]. exists s. rewrite <-Hid. split; [apply Hs|done].
    - split; [done|]. eexists. simpl. apply elem_of_app. right. by apply list_elem_of_singleton. }
  destruct e; try (by apply Hstrip). apply ensures_throw.
Qed.

Lemma verify_issue_provenance_frame issue : ensures P (verify_issue_provenance t issue) (λ _, True).
Proof. unfold verify_issue_provenance, provenance_blob_for_task. keeps. Qed.
Lemma verify_handoff_frame issue handoff : ensures P (verify_handoff t issue handoff) (λ _, True).
Proof. unfold verify_handoff, json_result. keeps. Qed.
#[local] Hint Resolve verify_issue_provenance_frame verify_handoff_frame : effects.

Lemma check_provenance_listed issue : listed issue → ensures P (check_provenance t issue) listed.
Proof.
  intros Hl. unfold check_provenance. apply keeps_bind; [keeps|]. intros [[signer|]|e];
    [by apply ensures_ret..|]. destruct e; try (by apply ensures_ret). apply ensures_throw.
Qed.

Lemma verify_issues_listed issues :
  sr_policy (xt_signing t) ≠ SigningDisabled →
  Forall listed issues → ensures P (verify_issues t issues) (Forall listed).
Proof.
  intros Hpol. induction 1 as [|issue issues Hl _ IH]; cbn [verify_issues]; [by apply ensures_ret|].
  eapply ensures_bind; [by apply check_claim_listed|]. intros i1 Hl1.
  apply keeps_bind; [unfold check_handoff; keeps|]. intros [|]; [|exact IH].
  eapply ensures_bind; [by apply check_provenance_listed|]. intros i2 Hl2.
  eapply ensures_bind; [exact IH|]. intros verified Hv. apply ensures_ret. by constructor.
Qed.

Lemma list_tracker_issues_listed :
  xt_v2 t = None → ensures P (list_tracker_issues t) (Forall listed).
Proof.
  intros Hv1. unfold list_tracker_issues, list_v1_issues. rewrite Hv1.
  eapply ensures_bind; [apply resource_scope_untouched|]. intros a ->.
  eapply ensures_bind with (Φ := λ r, ∀ tasks, r = Ok tasks → ∀ task, task ∈ tasks →
    checkbox w0 (rs_list_id scope) (te_id task) = Some (te_state task)).
  { intros s Hs. unfold try_client. destruct (list_tasks _ s.2) as [r w] eqn:Hr.
    apply quiet_list in Hr as [Hsame Htasks]. split; [by apply untouched_world|].
    intros ? [= <-] tasks Hok task Hin. rewrite <-(Htasks tasks Hok task Hin). symmetry. apply Hs. }
  intros [tasks|[status body|text]] Htasks.
  - eapply ensures_bind; [by apply issues_from_tasks_listed, Htasks|]. intros issues Hissues.
    unfold filter_verified_issues. case_bool_decide; [by apply ensures_ret|]. by apply verify_issues_listed.
  - destruct (_ && _); [by apply ensures_ret|apply ensures_throw].
  - apply ensures_throw.
Qed.

Lemma fetch_issue_listed id :
  xt_v2 t = None → ensures P (fetch_issue t id) (λ issue, listed issue ∧ iss_id issue = id).
Proof.
  intros Hv1. unfold fetch_issue. eapply ensures_bind; [by apply list_tracker_issues_listed|].
  intros issues Hl. destruct (List.find _ issues) as [issue|] eqn:Hf; [|apply ensures_throw].
  apply find_some in Hf as [Hin%list_elem_of_In Hid%bool_decide_eq_true]. apply ensures_ret.
  split; [|done]. rewrite Forall_forall in Hl. by apply Hl.
Qed.

(** A claimable issue is to do, or its claim was stripped. *)
Lemma claimable_phase issue id s u s' :
  listed issue → iss_id issue = id → ensure_issue_claimable issue id s = (Ok u, s') →
  phase_at w0 scope id = PTodo ∨ ∃ c0, phase_at w0 scope id = PRunning c0 ∧ refuted id c0 ∧
    stripped c0 issue.
Proof.
  intros (task&cb&hb&Hid&Hck&Hcb&Hhb&Hshow) <- Hrun. unfold ensure_issue_claimable in Hrun.
  case_bool_decide as Hnone; [done|]. case_bool_decide as Htodo; [done|].
  apply eq_None_not_Some in Hnone. unfold phase_at. rewrite Hid, Hcb, Hhb, Hck.
  destruct Hshow as [[Hstate Hclaim]|(c0&Hclaim&Hrej&Hstrip)].
  - left. apply shown_todo; congruence.
  - right. exists c0. split; [by apply shown_claim|done].
Qed.

(** A claim that may act: the stored record is active, of the same agent. *)
Lemma owner_phase claim :
  ensures P (ensure_current_claim_owner t claim) (λ id, cl_issue_id claim = Some id ∧
    ∃ c0, cl_by c0 = cl_by claim ∧ phase_at w0 scope id = holding c0 (handed_off w0 scope id)).
Proof.
  unfold ensure_current_claim_owner, v1_claim_issue_id, current_active_claim.
  destruct (cl_issue_id claim) as [id|]; [|apply ensures_bind with (Φ := λ _, False); [apply ensures_throw|done]].
  eapply ensures_bind with (Φ := λ i, i = id); [by apply ensures_ret|]. intros i ->.
  eapply ensures_bind with (Φ := λ c0, phase_at w0 scope id = holding c0 (handed_off w0 scope id)).
  { eapply ensures_bind; [apply get_blob_untouched|]. intros found Hfound.
    destruct found as [blob|]; [|apply ensures_throw]. destruct (is_active blob) eqn:Ha; [|apply ensures_throw].
    apply ensures_ret. unfold phase_at, claim_record.
    destruct (kv w0 _ _) as [b|]; [|done]. destruct Hfound as (blob'&[= <-]&->). simpl.
    unfold is_active in Ha. apply bool_decide_eq_true in Ha. by rewrite Ha. }
  intros c0 Hphase. case_bool_decide as Hby; [|apply ensures_throw]. apply ensures_ret. eauto.
Qed.

(** ** What a write changes *)

Lemma record_key_inj (prefix a b : string) : prefix +:+ a = prefix +:+ b → a = b.
Proof. by intros [_ Hab]%str_app_inj_l. Qed.

(** The records of the other issues, and with them their phases, stay. *)
Definition others_same (id : string) (w w' : world) : Prop :=
  ∀ id', id' ≠ id → claim_record w' scope id' = claim_record w scope id' ∧
    handed_off w' scope id' = handed_off w scope id' ∧
    checkbox w' (rs_list_id scope) id' = checkbox w (rs_list_id scope) id'.

Lemma others_same_phase id w w' id' :
  others_same id w w' → id' ≠ id → phase_at w' scope id' = phase_at w scope id'.
Proof. intros Ho Hne. destruct (Ho id' Hne) as (Hc&Hh&Hb). unfold phase_at. by rewrite Hc, Hh, Hb. Qed.

Lemma others_same_trans id w1 w2 w3 :
  others_same id w1 w2 → others_same id w2 w3 → others_same id w1 w3.
Proof. intros H1 H2 id' Hne. destruct (H2 id' Hne) as (->&->&->). by apply H1. Qed.

Lemma same_records_others id w w' : same_records w w' → others_same id w w'.
Proof. intros [Hk Hc] id' _. unfold claim_record, handed_off. by rewrite !Hk, Hc. Qed.

Lemma same_records_claim w w' id : same_records w w' → claim_record w' scope id = claim_record w scope id.
Proof. intros [Hk _]. unfold claim_record. by rewrite Hk. Qed.
Lemma same_records_handed w w' id : same_records w w' → handed_off w' scope id = handed_off w scope id.
Proof. intros [Hk _]. unfold handed_off. by rewrite Hk. Qed.

Lemma client_run_Ok {A} (c : Run world ClientError A) s a s' :
  client c s = (Ok a, s') ↔ c s.2 = (Ok a, s'.2) ∧ s'.1 = s.1.
Proof.
  unfold client. destruct (c s.2) as [[b|e] w], s' as [x w']; simpl; naive_solver.
Qed.

Lemma scoped_same s s' : s'.1 = s.1 → scoped t scope s → scoped t scope s'.
Proof. unfold scoped. by intros ->. Qed.

Lemma scope_Ok s a s' :
  scoped t scope s → resource_scope t s = (Ok a, s') → a = scope ∧ s' = s.
Proof.
  unfold resource_scope, scoped. intros Hs. destruct (xt_group t).
  - unfold gets, mbind, Run_bind. rewrite Hs. unfold mret, Run_ret. by intros [= <- <-].
  - unfold mret, Run_ret. subst scope. by intros [= <- <-].
Qed.

Lemma put_blob_effect key encoded s u s' :
  scoped t scope s → put_blob t key encoded s = (Ok u, s') →
  ∃ b, encoded = Ok b ∧ kv s'.2 (rs_store_id scope) key = Some b ∧
    (∀ store' key', (store', key') ≠ (rs_store_id scope, key) →
       kv s'.2 store' key' = kv s.2 store' key') ∧
    (∀ list id, checkbox s'.2 list id = checkbox s.2 list id) ∧ scoped t scope s'.
Proof.
  intros Hs Hrun. unfold put_blob, mapping_result in Hrun.
  apply run_bind_Ok in Hrun as (a&s1&Hscope&Hrun). apply scope_Ok in Hscope as [-> ->]; [|done].
  apply run_bind_Ok in Hrun as (b&s2&[Hb <-]%run_lift_Ok&Hrun). apply map_err_Ok in Hb.
  apply client_run_Ok in Hrun as [Hput Hst]. destruct u. apply quiet_put in Hput as (Hk&Ho&Hc).
  exists b. split_and!; [done..|]. by eapply scoped_same.
Qed.

Lemma put_claim_effect id blob s u s' :
  scoped t scope s → put_claim_blob t id blob s = (Ok u, s') →
  claim_record s'.2 scope id = Ok (Some blob) ∧
  handed_off s'.2 scope id = handed_off s.2 scope id ∧
  others_same id s.2 s'.2 ∧ scoped t scope s'.
Proof.
  intros Hs Hrun. unfold put_claim_blob in Hrun.
  apply put_blob_effect in Hrun as (b&Henc&Hk&Ho&Hc&Hs'); [|done].
  unfold encode_claim_blob in Henc. apply map_err_Ok in Henc.
  split_and!; [..|done].
  - unfold claim_record, decode_claim_blob. rewrite Hk. by rewrite (claim_blob_roundtrip _ _ Henc).
  - unfold handed_off. by rewrite Ho by done.
  - intros id' Hne. unfold claim_record, handed_off.
    rewrite !Ho by first [done | intros Heq; apply (f_equal snd), record_key_inj in Heq; congruence]. by rewrite Hc.
Qed.

Lemma put_handoff_effect id blob s u s' :
  scoped t scope s → put_handoff_blob t id blob s = (Ok u, s') →
  claim_record s'.2 scope id = claim_record s.2 scope id ∧ handed_off s'.2 scope id = true ∧
  others_same id s.2 s'.2 ∧ scoped t scope s'.
Proof.
  intros Hs Hrun. unfold put_handoff_blob in Hrun.
  apply put_blob_effect in Hrun as (b&Henc&Hk&Ho&Hc&Hs'); [|done]. split_and!; [..|done].
  - unfold claim_record. by rewrite Ho by done.
  - unfold handed_off. by rewrite Hk.
  - intros id' Hne. unfold claim_record, handed_off.
    rewrite !Ho by first [done | intros Heq; apply (f_equal snd), record_key_inj in Heq; congruence]. by rewrite Hc.
Qed.

Lemma update_effect id action s u s' :
  scoped t scope s → client (update_task (rs_list_id scope) id action) s = (Ok u, s') →
  claim_record s'.2 scope id = claim_record s.2 scope id ∧
  handed_off s'.2 scope id = handed_off s.2 scope id ∧
  others_same id s.2 s'.2 ∧ scoped t scope s'.
Proof.
  intros Hs [Hup Hst]%client_run_Ok. destruct u. apply quiet_update in Hup as [Hk Hc].
  split_and!; [unfold claim_record; by rewrite Hk|unfold handed_off; by rewrite Hk|..].
  - intros id' Hne. unfold claim_record, handed_off. rewrite !Hk. split_and!; [done..|].
    apply Hc. by intros [=].
  - by eapply scoped_same.
Qed.

Lemma now_effect s a s' :
  scoped t scope s → calling now_utc s = (Ok a, s') → same_records s.2 s'.2 ∧ scoped t scope s'.
Proof.
  intros Hs Hrun. unfold calling in Hrun. pose proof (quiet_now s.2) as Hq.
  destruct (now_utc s.2) as [x w]. injection Hrun as <- <-. done.
Qed.
End life.

(** ** The refinement *)

Section refinement.
Context `{X : Extern} `{D : Daemon} `{E : Encoders} `{J : Json} `{C : Chrono} `{V : ApprovalCodec}
  `{H : !Host} `{TD : !TaskDaemon} `{CF : ChronoFormat} `{CC : CardCodec} `{BC : !BlobCodec}
  `{Q : !QuietX0xd}.
Context (t : X0xCrdtTracker) (scope : ResourceScope).
Hypothesis on_v1 : xt_v2 t = None.
Implicit Types (s : crdt_state * world).

Lemma start_untouched s : scoped t scope s → untouched t scope s.2 s.
Proof. by split. Qed.

(** The operations that settle or refresh a claim with one record. *)
Lemma owned_write claim (blob : string → ClaimBlob) s u s' :
  scoped t scope s →
  (id ← ensure_current_claim_owner t claim; now ← calling now_utc; put_claim_blob t id (blob now)) s
    = (Ok u, s') →
  ∃ id c0 now, cl_issue_id claim = Some id ∧ cl_by c0 = cl_by claim ∧
    phase_at s.2 scope id = holding c0 (handed_off s.2 scope id) ∧
    claim_record s'.2 scope id = Ok (Some (blob now)) ∧
    handed_off s'.2 scope id = handed_off s.2 scope id ∧ others_same scope id s.2 s'.2.
Proof.
  intros Hs (id&s1&Hown&Hrun)%run_bind_Ok.
  destruct (ensures_Ok _ _ _ _ _ _ (owner_phase t scope s.2 claim) (start_untouched s Hs) Hown)
    as [[Hw1 Hs1] (Hid&c0&Hby&Hphase)].
  apply run_bind_Ok in Hrun as (now&s2&Hnow&Hrun). apply now_effect with (t := t) (scope := scope) in Hnow
    as [Hw2 Hs2]; [|done].
  apply put_claim_effect with (scope := scope) in Hrun as (Hrec&Hhanded&Hothers&_); [|done].
  pose proof (same_records_trans _ _ _ Hw1 Hw2) as Hw.
  exists id, c0, now. split_and!; [done..|by rewrite Hhanded; apply same_records_handed|].
  eapply others_same_trans; [by apply same_records_others|done].
Qed.

(** What an operation of the life of issue [id] runs. *)
Definition run_life (id : string) (op : life_op) : Run (crdt_state * world) serror unit :=
  let api := CrdtApi t in
  match op with
  | LClaim agent_id => _ ← tk_claim id agent_id; mret ()
  | LHeartbeat claim => tk_heartbeat claim
  | LRelease claim reason => tk_release claim reason
  | LBlock claim reason => tk_block claim reason
  | LHandoff claim handoff => tk_handoff claim handoff
  | LRequeue reason => tk_requeue_blocked id reason
  end.
Definition names_issue (id : string) (op : life_op) : Prop :=
  match op with
  | LHeartbeat claim | LRelease claim _ | LBlock claim _ | LHandoff claim _ =>
      cl_issue_id claim = Some id
  | LClaim _ | LRequeue _ => True
  end.

Lemma route_v1 {A} v2 (v1 : XM A) s a s' :
  route t v2 v1 s = (Ok a, s') → v1 s = (Ok a, s').
Proof. unfold route, in_v1. rewrite on_v1. apply run_mapping_Ok. Qed.

(** The phase of an issue whose claim record is known. *)
Lemma phase_from_record w id blob handed :
  claim_record w scope id = Ok (Some blob) → handed_off w scope id = handed →
  phase_at w scope id = blob_phase (checkbox w (rs_list_id scope) id) (Some blob) handed.
Proof. unfold phase_at. by intros -> ->. Qed.

Lemma unheld_not_handed w id :
  (phase_at w scope id = PTodo ∨ ∃ c0, phase_at w scope id = PRunning c0) →
  handed_off w scope id = false.
Proof.
  unfold phase_at. destruct (claim_record w scope id) as [[blob|]|]; [..|by intros [|[]]];
    simpl; destruct (handed_off w scope id); try done; [|by intros [|[]]].
  destruct (cb_status blob); simpl; by intros [|[]].
Qed.

(** Signing changes nothing but the signature. *)
Lemma sign_claim_frame w claim :
  ensures (untouched t scope w) (sign_claim t claim)
    (λ signed, cl_by signed = cl_by claim ∧ cl_issue_id signed = cl_issue_id claim).
Proof.
  unfold sign_claim, json_result, sign_payload, need_client.
  eapply ensures_bind with (Φ := λ _, True); [apply keeps_lift|]. intros payload _.
  eapply ensures_bind with (Φ := λ _, True); [|intros; by apply ensures_ret].
  apply keeps_bind; [keeps|]. intros _. apply keeps_bind; [|intros; apply keeps_lift].
  apply signer_untouched, quiet_sign.
Qed.

(** The stored claim of the issue does not hold, as this tracker finds when it
    lists in the state [s]: it verifies claims, the claim is refused in a state
    with the records of [s], and the listing that the operation starts with
    shows the issue without it, under a notice of its bad claim. *)
Definition rejected s (id : string) (c0 : Claim) : Prop :=
  refuted t s.2 id c0 ∧
  ∃ issue s1, fetch_issue t id s = (Ok issue, s1) ∧ stripped c0 issue.

(** The tail of a claim: the checkbox, then the record. *)
Lemma take_claim id claim s u s' :
  scoped t scope s →
  (scope ← resource_scope t;
   _ ← client (update_task (rs_list_id scope) id TaskClaim);
   written_at ← calling now_utc;
   _ ← put_claim_blob t id (active_blob claim written_at); mret claim) s = (Ok u, s') →
  u = claim ∧ (handed_off s.2 scope id = false → phase_at s'.2 scope id = PRunning claim) ∧
  others_same scope id s.2 s'.2.
Proof.
  intros Hs (a&s1&Hscope&Hrun)%run_bind_Ok. apply scope_Ok with (scope := scope) in Hscope as [-> ->]; [|done].
  apply run_bind_Ok in Hrun as (u1&s2&Hup&Hrun).
  apply update_effect with (t := t) (scope := scope) in Hup as (_&Hh2&Ho2&Hs2); [|done].
  apply run_bind_Ok in Hrun as (now&s3&Hnow&Hrun).
  apply now_effect with (t := t) (scope := scope) in Hnow as [Hw3 Hs3]; [|done].
  apply run_bind_Ok in Hrun as (u4&s4&Hput&[<- <-]%run_ret_Ok).
  apply put_claim_effect with (scope := scope) in Hput as (Hrec&Hh4&Ho4&_); [|done].
  split_and!; [done|..].
  - intros Hh. rewrite (phase_from_record _ _ _ false Hrec); [done|].
    rewrite Hh4, (same_records_handed _ _ _ _ Hw3). congruence.
  - eapply others_same_trans; [done|]. eapply others_same_trans; [by apply same_records_others|done].
Qed.

Lemma claim_life id agent_id s claim s' :
  scoped t scope s → v1_claim t id agent_id s = (Ok claim, s') →
  life_step (rejected s id) id (LClaim agent_id) (phase_at s.2 scope id) (phase_at s'.2 scope id) ∧
  others_same scope id s.2 s'.2.
Proof.
  intros Hs Hrun. unfold v1_claim in Hrun. apply run_bind_Ok in Hrun as (u0&s0&Hagent&Hrun).
  assert (s0 = s) as ->.
  { unfold ensure_agent_matches in Hagent. destruct (bool_decide (agent_id = _)); [|done]. by apply run_ret_Ok in Hagent as [_ <-]. }
  apply run_bind_Ok in Hrun as (issue&s1&Hfetch&Hrun).
  destruct (ensures_Ok _ _ _ _ _ _ (fetch_issue_listed t scope s.2 id on_v1) (start_untouched s Hs)
              Hfetch) as [Hs1 [Hlisted Hid]].
  apply run_bind_Ok in Hrun as (u2&s2&Hclaimable&Hrun).
  pose proof (claimable_phase _ _ _ _ _ _ _ _ Hlisted Hid Hclaimable) as Hphase.
  assert (s2 = s1) as ->.
  { clear Hrun. unfold ensure_issue_claimable in Hclaimable. repeat case_bool_decide; try done.
    by apply run_ret_Ok in Hclaimable as [_ <-]. }
  apply run_bind_Ok in Hrun as (at_&s3&Hnow&Hrun).
  destruct (ensures_Ok _ _ _ _ _ _ (calling_untouched t scope s.2 _ quiet_now) Hs1 Hnow) as [Hs3 _].
  apply run_bind_Ok in Hrun as (signed&s4&Hsign&Hrun).
  assert (claimed : ∀ w, ensures (untouched t scope w)
    (if bool_decide (sr_policy (xt_signing t) = SigningDisabled)
     then mret (new_claim (Some id) agent_id at_ ManualM1)
     else sign_claim t (new_claim (Some id) agent_id at_ ManualM1))
    (λ c, cl_by c = agent_id ∧ cl_issue_id c = Some id)).
  { intros w. destruct (bool_decide _); [by apply ensures_ret|apply sign_claim_frame]. }
  destruct (ensures_Ok (untouched t scope s.2) _
              (λ c, cl_by c = agent_id ∧ cl_issue_id c = Some id) _ _ _ (claimed s.2) Hs3 Hsign)
    as [[Hw4 Hs4] [Hby Hissue]].
  apply take_claim in Hrun as (->&Hrunning&Hothers); [|done].
  assert (Hh : handed_off s4.2 scope id = false).
  { rewrite (same_records_handed _ _ _ _ Hw4). apply unheld_not_handed. naive_solver. }
  rewrite (Hrunning Hh). split.
  - destruct Hphase as [->|(c0&->&Hrej&Hstrip)]; constructor; try done. split; [done|].
    by exists issue, s1.
  - eapply others_same_trans; [by apply same_records_others|done].
Qed.

Lemma sign_handoff_frame w handoff by_ :
  ensures (untouched t scope w) (sign_handoff t handoff by_) (λ _, True).
Proof.
  unfold sign_handoff, json_result, sign_payload, need_client. apply keeps_bind; [apply keeps_lift|].
  intros payload. apply keeps_bind; [|intros; by apply ensures_ret].
  apply keeps_bind; [keeps|]. intros _. apply keeps_bind; [|intros; apply keeps_lift].
  apply signer_untouched, quiet_sign.
Qed.

(** The tail of a handoff: its record, the checkbox, and the claim's record. *)
Lemma hand_over id claim handoff s u s' :
  scoped t scope s →
  (now ← calling now_utc;
   _ ← put_handoff_blob t id (new_handoff_blob handoff now);
   scope ← resource_scope t;
   _ ← client (update_task (rs_list_id scope) id TaskComplete);
   now ← calling now_utc;
   put_claim_blob t id (completed_blob claim now)) s = (Ok u, s') →
  phase_at s'.2 scope id = PReview ∧ others_same scope id s.2 s'.2.
Proof.
  intros Hs (now&s1&Hnow&Hrun)%run_bind_Ok.
  apply now_effect with (t := t) (scope := scope) in Hnow as [Hw1 Hs1]; [|done].
  apply run_bind_Ok in Hrun as (u2&s2&Hput&Hrun).
  apply put_handoff_effect with (scope := scope) in Hput as (_&Hh2&Ho2&Hs2); [|done].
  apply run_bind_Ok in Hrun as (a&s3&Hscope&Hrun).
  apply scope_Ok with (scope := scope) in Hscope as [-> ->]; [|done].
  apply run_bind_Ok in Hrun as (u4&s4&Hup&Hrun).
  apply update_effect with (t := t) (scope := scope) in Hup as (_&Hh4&Ho4&Hs4); [|done].
  apply run_bind_Ok in Hrun as (later&s5&Hlater&Hrun).
  apply now_effect with (t := t) (scope := scope) in Hlater as [Hw5 Hs5]; [|done].
  apply put_claim_effect with (scope := scope) in Hrun as (Hrec&Hh6&Ho6&_); [|done].
  split.
  - rewrite (phase_from_record _ _ _ true Hrec); [done|].
    by rewrite Hh6, (same_records_handed _ _ _ _ Hw5), Hh4, Hh2.
  - eapply others_same_trans; [by apply same_records_others|].
    eapply others_same_trans; [done|]. eapply others_same_trans; [done|].
    eapply others_same_trans; [by apply same_records_others|done].
Qed.

Lemma handoff_life id claim handoff s u s' :
  scoped t scope s → cl_issue_id claim = Some id → v1_handoff t claim handoff s = (Ok u, s') →
  life_step (rejected s id) id (LHandoff claim handoff) (phase_at s.2 scope id) (phase_at s'.2 scope id) ∧
  others_same scope id s.2 s'.2.
Proof.
  intros Hs Hissue Hrun. unfold v1_handoff in Hrun.
  apply run_bind_Ok in Hrun as (id'&s1&Hown&Hrun).
  destruct (ensures_Ok _ _ _ _ _ _ (owner_phase t scope s.2 claim) (start_untouched s Hs) Hown)
    as [Hs1 (Hid&c0&Hby&Hphase)]. assert (id' = id) as -> by congruence.
  assert (Hprepare : ∀ w, ensures (untouched t scope w)
    (if bool_decide (sr_policy (xt_signing t) = SigningDisabled) then mret handoff
     else sign_handoff t (bind_handoff handoff id (cl_by claim)) (cl_by claim)) (λ _, True)).
  { intros w. destruct (bool_decide _); [by apply ensures_ret|apply sign_handoff_frame]. }
  apply run_bind_Ok in Hrun as (prepared&s2&Hprep&Hrun).
  destruct (ensures_Ok _ _ _ _ _ _ (Hprepare s.2) Hs1 Hprep) as [[Hw2 Hs2] _].
  apply hand_over in Hrun as [Hreview Hothers]; [|done]. rewrite Hphase, Hreview.
  split; [by constructor|]. eapply others_same_trans; [by apply same_records_others|done].
Qed.

Lemma requeue_life id reason s u s' :
  scoped t scope s → v1_requeue_blocked t id reason s = (Ok u, s') →
  life_step (rejected s id) id (LRequeue reason) (phase_at s.2 scope id) (phase_at s'.2 scope id) ∧
  others_same scope id s.2 s'.2.
Proof.
  intros Hs Hrun. unfold v1_requeue_blocked in Hrun.
  apply run_bind_Ok in Hrun as (found&s1&Hget&Hrun).
  destruct (ensures_Ok _ _ _ _ _ _ (get_blob_untouched t scope s.2 (claim_key id) decode_claim_blob)
              (start_untouched s Hs) Hget) as [[Hw1 Hs1] Hfound].
  destruct found as [blob|]; [|done].
  assert (Hrec : claim_record s.2 scope id = Ok (Some blob)).
  { unfold claim_record. destruct (kv _ _ _) as [b|]; [|done]. by destruct Hfound as (?&[= <-]&->). }
  destruct (decide (cb_status blob = BlobBlocked)) as [Hstatus|];
    [|by rewrite bool_decide_eq_true_2 in Hrun].
  rewrite bool_decide_eq_false_2 in Hrun by (intros Hne; by apply Hne). cbv zeta in Hrun.
  destruct (cb_release_reason blob) as [blocked|] eqn:Hreason; [|done]. simpl in Hrun.
  destruct (decide (rr_code blocked = RcAwaitingApproval)) as [Hcode|];
    [|by rewrite bool_decide_eq_true_2 in Hrun by congruence].
  rewrite bool_decide_eq_false_2 in Hrun by (intros Hne; apply Hne; congruence).
  apply run_bind_Ok in Hrun as (now&s2&Hnow&Hrun).
  apply now_effect with (t := t) (scope := scope) in Hnow as [Hw2 Hs2]; [|done].
  apply put_claim_effect with (scope := scope) in Hrun as (Hrec'&Hh&Ho&_); [|done].
  pose proof (same_records_trans _ _ _ Hw1 Hw2) as Hw. split.
  - rewrite (phase_from_record _ _ _ _ Hrec eq_refl), (phase_from_record _ _ _ _ Hrec' Hh).
    rewrite (same_records_handed _ _ _ _ Hw). simpl. rewrite Hstatus, Hreason. by constructor.
  - eapply others_same_trans; [by apply same_records_others|done].
Qed.

Lemma owned_life id claim (blob : string → ClaimBlob) op s u s' :
  scoped t scope s → cl_issue_id claim = Some id →
  (id ← ensure_current_claim_owner t claim; now ← calling now_utc; put_claim_blob t id (blob now)) s
    = (Ok u, s') →
  (∀ c0 now state handed, cl_by c0 = cl_by claim →
     life_step (rejected s id) id op (holding c0 handed) (blob_phase state (Some (blob now)) handed)) →
  life_step (rejected s id) id op (phase_at s.2 scope id) (phase_at s'.2 scope id) ∧
  others_same scope id s.2 s'.2.
Proof.
  intros Hs Hissue Hrun Hstep.
  apply owned_write in Hrun as (id'&c0&now&Hid&Hby&Hphase&Hrec&Hh&Ho); [|done].
  assert (id' = id) as -> by congruence. split; [|done].
  rewrite Hphase, (phase_from_record _ _ _ _ Hrec Hh). by apply Hstep.
Qed.

Lemma life_refines id op s u s' :
  scoped t scope s → names_issue id op → run_life id op s = (Ok u, s') →
  life_step (rejected s id) id op (phase_at s.2 scope id) (phase_at s'.2 scope id) ∧
  others_same scope id s.2 s'.2.
Proof.
  intros Hs Hid Hrun. destruct op as [agent|claim|claim reason|claim reason|claim handoff|reason];
    cbn [run_life] in Hrun; cbv zeta in Hrun.
  - apply run_bind_Ok in Hrun as (claim&s1&Hrun&[_ <-]%run_ret_Ok). apply route_v1 in Hrun.
    by eapply claim_life.
  - apply route_v1 in Hrun. unfold v1_heartbeat in Hrun.
    eapply (owned_life id claim (λ now, active_blob (with_heartbeat claim now) now)) in Hrun; [exact Hrun|done..|].
    intros c0 now state handed Hby. by constructor.
  - apply route_v1 in Hrun. eapply (owned_life id claim (released_blob claim reason)) in Hrun; [exact Hrun|done..|].
    intros c0 now state handed Hby. by constructor.
  - apply route_v1 in Hrun. eapply (owned_life id claim (blocked_blob claim reason)) in Hrun; [exact Hrun|done..|].
    intros c0 now state handed Hby. by constructor.
  - apply route_v1 in Hrun. by eapply handoff_life.
  - apply route_v1 in Hrun. by eapply requeue_life.
Qed.
End refinement.

(** C17 The tracker implements the life of an issue: on a daemon nobody else writes
    to meanwhile, every operation that reports success is a step of the
    abstract machine on the issue it is about, from the phase the stored
    records show before to the one they show after, and the phases of all other
    issues stay.  So a claim is taken only from an issue to do, or over a stored
    claim that this tracker, listing in this state, verified and found not to
    hold (not for the issue, not signed by its owner, or an envelope that the
    resolver or the verifier refuses), so that the listing shows the issue
    without it; only the agent whose claim is stored as
    active can refresh, release, block or hand off; a release makes the issue
    available again unless a handoff is stored; a handoff ends in review; and a
    blocked issue is requeued only if it waits for approval. *)
Theorem tracker_refines_life `{X : Extern} `{D : Daemon} `{E : Encoders} `{J : Json}
    `{C : Chrono} `{V : ApprovalCodec} `{H : !Host} `{TD : !TaskDaemon} `{CF : ChronoFormat}
    `{CC : CardCodec} `{BC : !BlobCodec} `{Q : !QuietX0xd}
    (t : X0xCrdtTracker) (scope : ResourceScope) (id : string) (op : life_op)
    (s : crdt_state * world) (u : unit) (s' : crdt_state * world) :
  xt_v2 t = None → scoped t scope s → names_issue id op → run_life t id op s = (Ok u, s') →
  life_step (rejected t s id) id op (phase_at s.2 scope id) (phase_at s'.2 scope id) ∧
  ∀ id', id' ≠ id → phase_at s'.2 scope id' = phase_at s.2 scope id'.
Proof.
  intros Hv1 Hs Hid Hrun. destruct (life_refines t scope Hv1 id op s u s' Hs Hid Hrun) as [Hstep Ho].
  split; [done|]. intros id' Hne. by eapply others_same_phase.
Qed.
