(* ===== verification/TaskBoard.v ===== *)
(** * A task list in memory

    A small x0xd: stores and task lists as maps from their keys to values
    and checkboxes, and codecs that are finite tables.  The theorems about the
    task-list tracker are applied to its runs. *)

From S2P Require Import Prelude Wire Identity Core Text Effects Disk FoldTypes Canonical Fold Store.
From S2P Require Import Client Gate Claims Approvals Mapping Tracker Ports Proofs Workers TaskLists.
From S2P Require Import Discovering Fixture TaskTracking TaskLife.
Import Reconcile Shards.
#[local] Existing Instance Gossip.toy_extern.
#[local] Existing Instance Gossip.toy_chrono.
#[local] Existing Instance Gossip.toy_format.
#[local] Existing Instance Gossip.toy_codec.
#[local] Existing Instance plain_json.

(** ** The daemon *)

Record board := { bd_kv : gmap (string * string) bytes; bd_tasks : gmap (string * string) string }.

#[local] Instance board_daemon : Daemon := {|
  world := board;
  create_kv_store_with_policy _ _ _ w := (Ok (), w); join_kv_store _ _ w := (Ok (), w);
  kv_store_detail _ w := (Ok None, w); list_kv_keys _ w := (Ok [], w);
  get_kv store key w := (Ok (bd_kv w !! (store, key)), w);
  put_kv store key value _ w :=
    (Ok (), {| bd_kv := <[(store, key) := value]> (bd_kv w); bd_tasks := bd_tasks w |});
  sign context payload w := (Ok {| sg_agent_id := "me"; sg_public_key_b64 := "key me";
    sg_signature_b64 := "sig " +:+ payload; sg_algorithm := SIGN_ALGORITHM; sg_context := context |}, w);
  sleep _ w := w |}.
#[local] Instance board_encoders : Encoders := {|
  b64_encode b := b; enc_envelope _ := Err "unused"; enc_genesis _ := Err "unused";
  enc_roster _ := Err "unused"; enc_transition _ := Err "unused"; enc_approval _ := Err "unused";
  enc_consume _ := Err "unused"; enc_handoff _ := Err "unused" |}.
#[local] Instance board_approvals : ApprovalCodec := {|
  enc_v1_approval _ := Ok "approval"; enc_v1_consumed _ := Ok "consumed";
  enc_v1_consumed_payload _ := Ok "consumed";
  dec_v1_approval _ := Err "unused"; dec_v1_consumed _ := Err "unused" |}.

Definition task_of (task : string * string * string) : TaskEntry := {|
  te_id := task.1.2; te_title := "Do it"; te_description := "now"; te_state := task.2;
  te_assignee := None; te_priority := 1 |}.

#[local] Instance board_host : Host := {|
  now_utc w := ("t", w); now_timestamp w := (0%Z, w); enc_approval_payload _ := Err "unused";
  create_task_list _ topic w := (Ok topic, w); list_task_lists w := (Ok [], w);
  list_tasks list w :=
    (Ok (task_of <$> List.filter (λ p, bool_decide (p.1.1 = list)) (map_to_list (bd_tasks w))), w);
  add_task list _ w :=
    (Ok "T2", {| bd_kv := bd_kv w; bd_tasks := <[(list, "T2") := "empty"]> (bd_tasks w) |});
  update_task list id action w :=
    (Ok (), {| bd_kv := bd_kv w;
               bd_tasks := <[(list, id) := match action with TaskClaim => "claimed:me"
                                   | TaskComplete => "done:me" end]> (bd_tasks w) |}) |}.
#[local] Instance board_tasks : TaskDaemon := {|
  list_named_groups w := (Ok [], w); get_named_group _ w := (Err (Http NOT_FOUND "none"), w);
  join_group _ _ w := (Err (Http NOT_FOUND "none"), w); list_kv_stores w := (Ok [], w);
  create_kv_store _ topic w := (Ok topic, w);
  verify _ payload signature _ w :=
    (Ok (if bool_decide (signature = "sig " +:+ payload) then SigValid else SigInvalid "forged"), w);
  resolve signer w := (Ok ("key " +:+ signer), w);
  worker_snapshot w := ({| vs_cards := []; vs_view_epoch := 0 |}, w);
  status_display _ := "status"; v2_error_display _ := "v2" |}.

(** ** Its records *)

Definition envelope_of (context payload : string) : SignatureEnvelope := {|
  se_algorithm := SIGN_ALGORITHM; se_context := context; se_public_key_b64 := "key me";
  se_signature_b64 := "sig " +:+ payload; se_payload_sha256 := hex_encode payload;
  se_signer_agent_id := "me" |}.
Definition my_claim : Claim := {|
  cl_issue_id := Some "T1"; cl_by := "me"; cl_at := "t"; cl_heartbeat_at := "t";
  cl_shard_role := ManualM1; cl_signature := Some (envelope_of CLAIM_CONTEXT "claim me") |}.
(** A claim somebody wrote into the store in my name. *)
Definition forged_claim : Claim := {|
  cl_issue_id := Some "T1"; cl_by := "me"; cl_at := "t"; cl_heartbeat_at := "t";
  cl_shard_role := ManualM1; cl_signature := None |}.
Definition parked : ReleaseReason := {| rr_code := RcAwaitingApproval; rr_message := "ask" |}.
Definition my_handoff : Handoff := {|
  ho_summary := "done"; ho_files_changed := []; ho_validation := []; ho_follow_up := [];
  ho_proofs_dir := None; ho_issue_id := None; ho_signer_agent_id := None; ho_signature := None |}.
Definition signed_handoff : Handoff := {|
  ho_summary := "done"; ho_files_changed := []; ho_validation := []; ho_follow_up := [];
  ho_proofs_dir := None; ho_issue_id := Some "T1"; ho_signer_agent_id := Some "me";
  ho_signature := Some (envelope_of HANDOFF_CONTEXT "handoff") |}.

#[local] Instance ReleaseReason_eq_dec : EqDecision ReleaseReason.
Proof. solve_decision. Defined.
#[local] Instance ClaimBlob_eq_dec : EqDecision ClaimBlob.
Proof. solve_decision. Defined.

Definition claim_table : list (string * ClaimBlob) :=
  [("active", active_blob my_claim "t"); ("forged", active_blob forged_claim "t");
   ("released", released_blob my_claim parked "t"); ("blocked", blocked_blob my_claim parked "t");
   ("completed", completed_blob my_claim "t")].

#[local] Instance board_codec : BlobCodec := {|
  json_claim_blob := Fixture.enc claim_table; parse_claim_blob := Fixture.dec claim_table;
  json_handoff_blob _ := Ok "handoff";
  parse_handoff_blob _ := Ok (new_handoff_blob signed_handoff "t");
  json_shard_blob _ := Ok "shard"; parse_shard_blob _ := Err "unused";
  json_provenance_blob _ := Ok "provenance";
  parse_provenance_blob _ :=
    Ok (new_provenance_blob (envelope_of ISSUE_PROVENANCE_CONTEXT "content"));
  json_approval_blob _ := Ok "approval"; parse_approval_blob _ := Err "unused";
  json_claim c := Ok ("claim " +:+ cl_by c); json_handoff _ := Ok "handoff";
  reason_value _ := Ok PlainNull |}.

#[local] Instance board_quiet : QuietX0xd.
Proof.
  refine {| kv := λ (w : world) store key, bd_kv w !! (store, key);
            checkbox := λ (w : world) list id, bd_tasks w !! (list, id) |}.
  - by intros store key w r w' [= <- <-]; split; [|intros v [= <-]].
  - intros list w r w' [= <- <-]. split; [done|]. intros tasks [= <-] task.
    intros ([[l id] state]&->&[Hin Hl]%list_elem_of_In%filter_In)%list_elem_of_fmap. simpl in *.
    apply bool_decide_eq_true in Hl as ->. by apply list_elem_of_In, elem_of_map_to_list in Hin.
  - intros store key value content_type w w' [= <-]. split_and!; [|intros store' key' Hne|done].
    + apply lookup_insert_eq.
    + by apply lookup_insert_ne.
  - intros list id action w w' [= <-]. split; [done|]. intros list' id' Hne.
    by apply lookup_insert_ne.
  - done.
  - done.
  - done.
  - done.
  - intros blob b Hb. by apply Fixture.table_roundtrip in Hb as [_ Hd]; [|apply (bool_decide_unpack _); vm_compute].
Defined.

(** ** Runs *)

(** A list under required signing, with one task. *)
Definition my_tracker : X0xCrdtTracker :=
  from_client_parts "L" "me" signing_required None creation_unsupported.
Definition one_task : board := {| bd_kv := ∅; bd_tasks := {[("L", "T1") := "empty"]} |}.
Definition scope : ResourceScope := unscoped "L".

Definition booted (b : board) : crdt_state * @world board_daemon := (initial_crdt, b).
Definition after (ops : list tracker_op) : crdt_state * @world board_daemon :=
  foldl (λ s op, after_op my_tracker op s) (booted one_task) ops.
(** The task claimed, handed off, parked; and with a forged claim in the store. *)
Definition claimed : crdt_state * @world board_daemon := after [XClaim "T1" "me"].
Definition handed : crdt_state * @world board_daemon := after [XClaim "T1" "me"; XHandoff my_claim my_handoff].
Definition blocked : crdt_state * @world board_daemon := after [XClaim "T1" "me"; XBlock my_claim parked].
Definition forged : crdt_state * @world board_daemon :=
  booted {| bd_kv := {[("symphony-L", "claim-T1") := "forged"]};
           bd_tasks := {[("L", "T1") := "claimed:me"]} |}.

(** State and claim of what a listing shows, with the number of notices. *)
Definition shown (s : crdt_state * @world board_daemon) : option (list (string * option Claim * nat)) :=
  match (list_tracker_issues my_tracker s).1 with
  | Ok issues =>
      Some ((λ i, (iss_state i, iss_claim i, length (iss_verification_notices i))) <$> issues)
  | Err _ => None
  end.

Example board_shows :
  shown (after []) = Some [("todo", None, 0)] ∧
  shown claimed = Some [("in_progress", Some my_claim, 0)] ∧
  shown handed = Some [("review", None, 0)] ∧ shown blocked = Some [("blocked", None, 0)] ∧
  shown forged = Some [("todo", None, 1)] ∧
  (v1_release my_tracker my_claim parked blocked).1 =
    Err (InvalidClaim "issue T1 claim status is Blocked") ∧
  is_ok (v1_requeue_blocked my_tracker "T1" parked blocked).1 = true.
Proof. vm_compute. done. Qed.

(** ** Witnesses *)

Lemma issue_from_task_exact_witness :
  is_ok (issue_from_task (task_of ("L", "T1", "claimed:me")) (Some (active_blob my_claim "t")) None None)
    = true ∧
  ∀ issue, issue_from_task (task_of ("L", "T1", "claimed:me")) (Some (active_blob my_claim "t")) None
             None = Ok issue →
    shows (task_of ("L", "T1", "claimed:me")) (Some (active_blob my_claim "t")) None issue ∧
    ((∀ s, as_str (JString s) = Some s) → for_execution issue = NetworkSourced).
Proof.
  split; [vm_compute; reflexivity|].
  apply (issue_from_task_exact (task_of ("L", "T1", "claimed:me"))
           (Some (active_blob my_claim "t")) None None).
Defined.

(** What a listing returns. *)
Definition listing (s : crdt_state * @world board_daemon) : list Issue :=
  match (list_tracker_issues my_tracker s).1 with Ok issues => issues | Err _ => [] end.

Lemma listing_of (s : crdt_state * @world board_daemon) :
  is_ok (list_tracker_issues my_tracker s).1 = true →
  list_tracker_issues my_tracker s = (Ok (listing s), (list_tracker_issues my_tracker s).2).
Proof. unfold listing. by destruct (list_tracker_issues my_tracker s) as [[issues|e] s']. Qed.

(** A claim made through the daemon and then listed. *)
Definition claimed_ops : list tracker_op := [XClaim "T1" "me"; XListIssues].
Abbreviation after_claim :=
  (foldl (λ s op, after_op my_tracker op s) (initial_crdt, one_task : @world board_daemon) claimed_ops).

Example claim_listed : iss_claim <$> listing after_claim = [Some my_claim].
Proof. vm_compute. reflexivity. Qed.

Lemma claim_lists : is_ok (list_tracker_issues my_tracker after_claim).1 = true.
Proof. vm_compute. reflexivity. Qed.

Lemma listed_records_attested_witness : Forall issue_attested (listing after_claim).
Proof.
  exact (listed_records_attested my_tracker one_task claimed_ops (listing after_claim)
           (list_tracker_issues my_tracker after_claim).2 eq_refl eq_refl
           (listing_of after_claim claim_lists)).
Defined.

Lemma tracker_refines_life_witness :
  ∃ s', run_life my_tracker "T1" (LHandoff my_claim my_handoff) claimed = (Ok (), s') ∧
    life_step (rejected my_tracker claimed "T1") "T1" (LHandoff my_claim my_handoff) (phase_at claimed.2 scope "T1")
      (phase_at s'.2 scope "T1") ∧
    ∀ id', id' ≠ "T1" → phase_at s'.2 scope id' = phase_at claimed.2 scope id'.
Proof.
  exists handed. split; [vm_compute; reflexivity|].
  apply (tracker_refines_life my_tracker scope "T1" (LHandoff my_claim my_handoff) claimed () handed);
    [reflexivity|reflexivity|reflexivity|vm_compute; reflexivity].
Defined.
