(* ===== verification/Guarantees.v ===== *)
(** * What the fold promises

    The contract of [fold_v2] as its readers rely on it, each theorem applied
    to the demo list of [Fixture]: order independence, authenticity of every
    folded event, the genesis gate and the roster chain, issue histories,
    approval and consume safety, chain links, the lamport bound, accounting. *)

From S2P Require Import Prelude Wire Identity FoldTypes Canonical Admission RosterChain Chain.
From S2P Require Import LamportCap StateMachine Fold FoldRun Fixture.

Section guarantees.
Context `{X : Extern}.

(** Streams that differ in their order and in the order of their records. *)
Definition reordered (l1 l2 : list AuthorStream) : Prop :=
  ∃ l, l1 ≡ₚ l ∧ Forall2 stream_perm l l2.

Lemma reordered_same l1 l2 : reordered l1 l2 → same_event_set l1 l2.
Proof.
  intros (l&Hp&HF). etrans; [by apply same_event_set_perm|by apply same_event_set_records].
Qed.

Lemma stream_perm_budget limits s1 s2 :
  stream_perm s1 s2 → within_budget limits s1 ↔ within_budget limits s2.
Proof. intros (_&_&Hp). unfold within_budget, llen. by setoid_rewrite Hp. Qed.

Lemma reordered_budget limits l1 l2 :
  reordered l1 l2 → raw_budget limits l1 = Ok () ↔ raw_budget limits l2 = Ok ().
Proof.
  intros (l&Hp&HF). rewrite !raw_budget_Ok. unfold llen.
  rewrite (Permutation_length Hp), (Forall2_length _ _ _ HF).
  enough ((∀ s, s ∈ l1 → within_budget limits s) ↔ (∀ s, s ∈ l2 → within_budget limits s)) by tauto.
  setoid_rewrite Hp. clear Hp. rewrite <-!Forall_forall.
  induction HF as [|s1 s2 l l2 Hs _ IH]; [done|].
  by rewrite !Forall_cons, IH, (stream_perm_budget _ _ _ Hs).
Qed.

Lemma max_lamport_le l n : (∀ a, a ∈ l → ad_lamport a ≤ n)%N → (max_lamport l ≤ n)%N.
Proof.
  induction l as [|a l IH]; intros Hl; [apply N.le_0_l|].
  change (max_lamport (a :: l)) with (N.max (ad_lamport a) (max_lamport l)).
  apply N.max_lub; [apply Hl|apply IH; intros b Hb; apply Hl]; set_solver.
Qed.

Lemma check_merged_Ok limits l o s :
  check_merged_streams limits l = Ok () → (o, s) ∈ l →
  (llen (as_records s) ≤ max_records_per_stream limits)%N.
Proof.
  induction l as [|[o' s'] l IH]; simpl; [by intros _ ?%elem_of_nil|].
  case_match eqn:Hn; [done|]. apply N.ltb_ge in Hn.
  intros Hl [[= -> ->]|Hin]%elem_of_cons; auto.
Qed.

Lemma check_merged_Err limits l e :
  check_merged_streams limits l = Err e → ∃ reason, e = BudgetExceeded reason.
Proof.
  induction l as [|[o s] l IH]; simpl; [done|]. case_match; [intros [= <-]; eauto|done].
Qed.

(** Only the verification of the creator's own records stands between the
    budgets and a missing genesis. *)
Lemma fold_canonical_missing limits list_uuid creator streams conflicted e :
  fold_canonical limits list_uuid creator streams conflicted = Err e →
  match e with
  | MissingCreatorStream c => c = creator ∧ streams !! creator = None
  | MissingGenesis => ∃ s, streams !! creator = Some s ∧ find_record GENESIS_KEY (as_records s) = None
  | _ => True
  end.
Proof.
  unfold fold_canonical. intros Hf.
  destruct (check_merged_streams _ _) as [[]|e'] eqn:Hm; cbn in Hf;
    [|apply check_merged_Err in Hm as [? ->]; by simplify_eq].
  destruct (conflicted !! creator); cbn in Hf; [by simplify_eq|].
  destruct (streams !! creator) as [s|]; cbn in Hf; [|by simplify_eq].
  destruct (verified_card s) as [card|]; cbn in Hf; [|by simplify_eq].
  destruct (find_record GENESIS_KEY _) as [r|] eqn:Hg; cbn in Hf; [|simplify_eq; eauto].
  destruct (verify_genesis _ _ _ _) as [[gen h]|]; cbn in Hf; [|by simplify_eq].
  case_match; [by simplify_eq|].
  destruct (build_roster_chain _ _ _ _ _ _ _ _ _) as [[[? ?] ?]|e'] eqn:Hb; cbn in Hf; [done|].
  apply build_roster_chain_Err in Hb as [? ->]. by simplify_eq.
Qed.

(** ** What an input admits

    Stated of the supplied records alone: the rosters in force, the events the
    records attest, and the order in which these are read. *)

(** The rosters of a list: its signed genesis roster, then the roster of each
    update of its hash-linked chain. *)
Definition rosters_of (input : FoldInput) (out : FoldOutput) (rosters : list (gset string)) : Prop :=
  ∃ card records ext tip,
    genesis_authentic (fi_streams input) (fi_list_uuid input) (fi_creator input) card
      (fo_genesis out) (fo_genesis_hash out) ∧
    (∀ r, r ∈ records ↔ supplied (fi_streams input) (fi_creator input) r) ∧
    roster_ext (fi_list_uuid input) (fi_creator input) card (fo_genesis_hash out) records 1
      (fo_genesis_hash out) ext tip ∧
    fo_latest_roster_epoch out = llen ext ∧
    rosters = list_to_set (gen_roster (fo_genesis out)) :: ext.

(** [record], supplied by the author of [a], attests [a]: see [authentic]. *)
Definition attested (input : FoldInput) (out : FoldOutput) (rosters : list (gset string))
    (record : StoreRecord) (a : AdmittedEvent) : Prop :=
  supplied (fi_streams input) (ad_author a) record ∧
  ∃ card, derive_agent_id_hex card = ad_author a ∧
    authentic (ad_author a) card (fi_list_uuid input) (fo_genesis_hash out) rosters record a.

(** By lamport time, then author, then payload hash. *)
Definition before (a b : AdmittedEvent) : Prop :=
  (ad_lamport a < ad_lamport b)%N ∨
  (ad_lamport a = ad_lamport b ∧
   (ord_lt (ad_author a) (ad_author b) ∨
    (ad_author a = ad_author b ∧ ord_le (ad_event_hash a) (ad_event_hash b)))).

(** A record stored under one of the four chained-event prefixes. *)
Definition event_keyed (record : StoreRecord) : Prop :=
  ∃ p rest, p ∈ ["ev-"; "ap-"; "cs-"; "ho-"] ∧ sr_key record = p +:+ rest.

(** The events an input admits, in the order they are folded: each one is
    attested by a supplied record, each author's form a hash chain without
    gaps from the genesis hash, no lamport time runs ahead of the events
    before it by more than the permitted skew, and every supplied event record
    is reported as rejected or attests an event whose hash is in the order (or
    is itself reported). *)
Record admitted_order (input : FoldInput) (out : FoldOutput) (rosters : list (gset string))
    (ordered : list AdmittedEvent) : Prop := {
  ao_rosters : rosters_of input out rosters;
  ao_attested : ∀ a, a ∈ ordered → ∃ record, attested input out rosters record a;
  ao_sorted : StronglySorted before ordered;
  ao_nodup : NoDup ordered;
  ao_chain : ∀ o, ∃ l, admitted_chain (fo_genesis_hash out) ordered o l;
  ao_lamport : lamport_clean 0 ordered;
  ao_complete : ∀ o record, supplied (fi_streams input) o record → event_keyed record →
    (∃ x, x ∈ fo_rejections out ∧ rejects o (sr_key record) x) ∨
    (∃ card a a',
       authentic o card (fi_list_uuid input) (fo_genesis_hash out) rosters record a ∧
       ad_author a' = o ∧ ad_event_hash a' = ad_event_hash a ∧
       (a' ∈ ordered ∨ ∃ x, x ∈ fo_rejections out ∧ rejects o (ad_key a') x))
}.

Lemma key_le_before a b : key_le fold_position a b → before a b.
Proof.
  unfold key_le, before, ord_le, ord_lt, fold_position, pair_cmp. simpl. unfold pair_cmp. simpl.
  destruct (N.compare_spec (ad_lamport a) (ad_lamport b)) as [Hl|Hl|Hl]; [|by left|done].
  destruct (ad_author a ?= ad_author b)%string eqn:Ha; [|by auto|done].
  assert (ad_author a = ad_author b) by (by apply rcmp_eq). auto.
Qed.

Lemma event_keyed_iff record : event_keyed record ↔ is_event_record record = true.
Proof.
  unfold event_keyed, is_event_record. rewrite !orb_true_iff, !starts_with_spec.
  split.
  - intros (p&rest&Hp&->). repeat setoid_rewrite elem_of_cons in Hp.
    destruct Hp as [->|[->|[->|[->|[]%elem_of_nil]]]]; eauto 10.
  - intros [[[[x Hx]|[x Hx]]|[x Hx]]|[x Hx]]; eexists _, x; (split; [|exact Hx]);
      repeat setoid_rewrite elem_of_cons; auto 10.
Qed.

Lemma facts_order input out rosters ordered g :
  fold_facts input out rosters ordered g → admitted_order input out rosters ordered.
Proof.
  intros F. constructor; try apply F.
  - destruct (ff_genesis _ _ _ _ _ F) as (card&ext&tip&Hgen&Hros&records&Hrec&Hext).
    exists card, records, ext, tip. split_and!; try done.
    rewrite (ff_epoch _ _ _ _ _ F), Hros. unfold llen. simpl length. lia.
  - intros a Ha. destruct (ff_authentic _ _ _ _ _ F a Ha) as (r&card&?&?&?).
    exists r. split; [done|]. by exists card.
  - apply (StronglySorted_mono (key_le fold_position)); [apply key_le_before|apply F].
  - intros o. destruct (ff_chain _ _ _ _ _ F o) as (l&?&_). by exists l.
  - intros o r Hs He%event_keyed_iff. by apply (ff_accounted _ _ _ _ _ F).
Qed.

(** The output's state of an issue is that of its history. *)
Lemma facts_issue_history input out rosters ordered g id :
  fold_facts input out rosters ordered g →
  ∃ st, history (refused_in (fo_rejections out)) id ordered st ∧ fo_issues out !! id = snd <$> st.
Proof.
  intros F. destruct (ff_ledger _ _ _ _ _ F) as [rej Hg].
  destruct (phase2_history (fo_approvals out) rej id ordered) as [st Hst]. exists st. split.
  - eapply history_impl; [|exact Hst]. intros a [reason Hr]. exists reason.
    by rewrite (ff_rejections _ _ _ _ _ F), Hg.
  - rewrite (ff_issues _ _ _ _ _ F), Hg. by eapply history_ledger.
Qed.

(** ** Properties *)

(** C1 the fold is a function of the event set: however the streams are
    ordered, split into copies or padded with duplicates, and whatever the
    order of their records, the result (state, diagnostics and refusal) is
    the same, provided both inputs are within the raw budgets. *)
Theorem fold_order_independent (i1 i2 : FoldInput) :
  same_event_set (fi_streams i1) (fi_streams i2) →
  fi_list_uuid i1 = fi_list_uuid i2 → fi_creator i1 = fi_creator i2 →
  fi_limits i1 = fi_limits i2 →
  raw_budget (fi_limits i1) (fi_streams i1) = Ok () →
  raw_budget (fi_limits i2) (fi_streams i2) = Ok () →
  fold_v2 i1 = fold_v2 i2.
Proof.
  intros Hs Hu Hc Hl H1 H2. by apply fold_v2_same.
Qed.

(** Without any budget hypothesis: reordering the streams, or the records
    inside them, gives the same result, or both inputs are refused for
    exceeding the raw budget. *)
Theorem fold_permutation (i1 i2 : FoldInput) :
  reordered (fi_streams i1) (fi_streams i2) →
  fi_list_uuid i1 = fi_list_uuid i2 → fi_creator i1 = fi_creator i2 →
  fi_limits i1 = fi_limits i2 →
  fold_v2 i1 = fold_v2 i2 ∨
  ∃ r1 r2, fold_v2 i1 = Err (BudgetExceeded r1) ∧ fold_v2 i2 = Err (BudgetExceeded r2).
Proof.
  intros Hp Hu Hc Hl. pose proof (reordered_budget (fi_limits i1) _ _ Hp) as Hb.
  rewrite Hl in Hb at 2.
  destruct (raw_budget (fi_limits i1) (fi_streams i1)) as [[]|e1] eqn:H1.
  - left. apply fold_v2_same; [by apply reordered_same|done..|by apply Hb].
  - destruct (raw_budget _ (fi_streams i2)) as [[]|e2] eqn:H2;
      [discriminate (proj2 Hb eq_refl)|].
    unfold fold_v2. rewrite H1, H2.
    apply raw_budget_Err in H1 as [r1 ->], H2 as [r2 ->]. right. by exists r1, r2.
Qed.

Context `{!ExternLaws}.

(** C2 nothing enters the state without a signature: every event hash in a
    folded issue's history is the payload digest of a record that some author
    stored under its content address, in an envelope whose ML-DSA-65
    signature verifies under the key that the author's agent id is derived
    from; the payload names this author, this issue, this list and this
    list's genesis; and the author is a member of the roster in force in the
    epoch the payload names, by the list's signed genesis and the hash-linked
    updates that follow it. *)
Theorem fold_event_authentic (input : FoldInput) (out : FoldOutput) (id h : string)
    (issue : IssueStateV2) :
  fold_v2 input = Ok out → fo_issues out !! id = Some issue → h ∈ is_applied issue →
  ∃ author record env card payload ev rosters roster,
    supplied (fi_streams input) author record ∧ sr_key record = event_key id h ∧
    envelope_decode (sr_value record) = Ok env ∧
    envelope_attests env TRANSITION_CONTEXT_V2 card payload h ∧
    derive_agent_id_hex card = author ∧
    json_transition payload = Ok ev ∧ tr_schema ev = V2_SCHEMA ∧
    tr_actor ev = author ∧ tr_issue_id ev = id ∧ tr_list_uuid ev = fi_list_uuid input ∧
    tr_genesis_manifest_hash ev = fo_genesis_hash out ∧
    rosters_of input out rosters ∧ rosters !! N.to_nat (tr_roster_epoch ev) = Some roster ∧
    author ∈ roster.
Proof.
  intros Hf Hi Hh. destruct (fold_v2_facts _ _ Hf) as (rosters&ordered&g&F).
  destruct (facts_issue_history _ _ _ _ _ id F) as (st&Hst&Hid). rewrite Hi in Hid.
  destruct st as [[tr i]|]; simplify_eq/=. apply history_run in Hst as [Hrun Hsub].
  rewrite (issue_run_applied _ _ _ Hrun) in Hh. apply list_elem_of_fmap in Hh as (a&->&Ha).
  pose proof (issue_run_transitions _ _ _ Hrun) as HF. rewrite Forall_forall in HF.
  destruct (HF a Ha) as (ev&Hp&<-). apply facts_order in F.
  destruct (ao_attested _ _ _ _ F a) as (r&Hsup&card&Hder&Hau).
  { eapply elem_of_submseteq; [done|by apply sublist_submseteq]. }
  destruct Hau as [(env&payload&Hdec&Hatt&_&Hjson) _ Hact Hsch Hlist Hgen Hkey _
    (roster&Hros&Hin&_) _ _ _]. rewrite Hp in *. simpl in *.
  exists (ad_author a), r, env, card, payload, ev, rosters, roster. split_and!; try done. apply F.
Qed.

(** C3 the genesis gate and the roster chain: an accepted list has a genesis
    manifest signed by its creator that names this list, and the rosters in
    force are the genesis roster followed by creator-signed updates, each
    naming the hash of the previous one; the last of them is current, and no
    epoch's roster exceeds the member budget. *)
Theorem fold_roster_chain (input : FoldInput) (out : FoldOutput) :
  fold_v2 input = Ok out →
  ∃ card records ext tip,
    genesis_authentic (fi_streams input) (fi_list_uuid input) (fi_creator input) card
      (fo_genesis out) (fo_genesis_hash out) ∧
    (∀ r, r ∈ records ↔ supplied (fi_streams input) (fi_creator input) r) ∧
    roster_ext (fi_list_uuid input) (fi_creator input) card (fo_genesis_hash out) records 1
      (fo_genesis_hash out) ext tip ∧
    fo_latest_roster_epoch out = llen ext ∧
    last (list_to_set (gen_roster (fo_genesis out)) :: ext) = Some (fo_current_roster out) ∧
    ∀ r, r ∈ list_to_set (gen_roster (fo_genesis out)) :: ext →
      (N.of_nat (size r) ≤ max_roster_members (fi_limits input))%N.
Proof.
  intros Hf. destruct (fold_v2_facts _ _ Hf) as (rosters&ordered&g&F).
  destruct (ff_genesis _ _ _ _ _ F) as (card&ext&tip&Hgen&Hros&records&Hrec&Hext).
  pose proof (ff_roster_budget _ _ _ _ _ F) as Hb. pose proof (ff_current _ _ _ _ _ F) as Hcur.
  pose proof (ff_epoch _ _ _ _ _ F) as Hep. rewrite Hros in *.
  exists card, records, ext, tip. split_and!; try done.
  - rewrite Hep. unfold llen. simpl length. lia.
  - intros r Hr. etrans; [|exact Hb]. apply N2Z.inj_le. rewrite !nat_N_Z. apply inj_le, subseteq_size.
    intros x Hx. apply elem_of_union_list. eauto.
Qed.

(** C4 the history of an issue: there is an order of the events the input
    admits (each attested by a supplied record and signed by a roster member,
    hash-chained per author, sorted by lamport time, author and hash, no
    supplied event record missing from it without a reported rejection), and
    the issue's state is the result of its history in this order: the event
    that opened it and then every transition of it that the transition system
    enables at its own position, each other one being reported as rejected.
    [applied] lists exactly the events taken, and whoever the status names as
    claimant or completer signed the claim (and block or completion) it
    records. *)
Theorem fold_issue_history (input : FoldInput) (out : FoldOutput) (id : string)
    (issue : IssueStateV2) :
  fold_v2 input = Ok out → fo_issues out !! id = Some issue →
  ∃ rosters ordered trace,
    admitted_order input out rosters ordered ∧
    history (refused_in (fo_rejections out)) id ordered (Some (trace, issue)) ∧
    is_applied issue = ad_event_hash <$> trace ∧
    head (is_applied issue) = Some (is_open_event_hash issue) ∧
    status_backed id trace (is_status issue).
Proof.
  intros Hf Hi. destruct (fold_v2_facts _ _ Hf) as (rosters&ordered&g&F).
  destruct (facts_issue_history _ _ _ _ _ id F) as (st&Hst&Hid). rewrite Hi in Hid.
  destruct st as [[tr i]|]; simplify_eq/=. exists rosters, ordered, tr.
  destruct (history_run _ _ _ _ _ Hst) as [Hrun _].
  pose proof (issue_run_applied _ _ _ Hrun) as Happ. split_and!; try done.
  - by eapply facts_order.
  - rewrite Happ. destruct (issue_run_opened _ _ _ Hrun)
      as (a&ev&t&s&th&sh&rest&->&_&_&_&_&_&_&_&->). done.
  - by eapply issue_run_backed.
Qed.

(** The approval set of an output holds authentic approvals only. *)
Lemma facts_approval input out rosters ordered g k ap :
  fold_facts input out rosters ordered g → fo_approvals out !! k = Some ap →
  aa_event_hash ap = k ∧
  ∃ a record card, a ∈ ordered ∧ ad_event_hash a = aa_event_hash ap ∧
    ad_payload a = PApproval (aa_approval ap) ∧
    supplied (fi_streams input) (ae_actor (aa_approval ap)) record ∧
    derive_agent_id_hex card = ae_actor (aa_approval ap) ∧
    authentic (ae_actor (aa_approval ap)) card (fi_list_uuid input) (fo_genesis_hash out)
      rosters record a.
Proof.
  intros F Hk. rewrite (ff_approvals _ _ _ _ _ F) in Hk.
  apply collect_approvals_Some in Hk as (a&Ha&Hh&Hp&Hk). split; [done|].
  destruct (ff_authentic _ _ _ _ _ F a Ha) as (r&card&Hsup&Hder&Hau).
  pose proof (au_actor _ _ _ _ _ _ _ Hau) as Hact. rewrite Hp in Hact. simpl in Hact.
  exists a, r, card. rewrite Hact. split_and!; congruence.
Qed.

(** The conditions under which a consume, read after the events [pre], may
    spend the approval it names: an admitted approve verdict of the named
    approver, for the issue and on the content it was opened with, while the
    issue's history so far leaves it claimed by the consumer under the
    consume's nonce and claim hash. *)
Definition consumable (out : FoldOutput) (pre : list AdmittedEvent) (c : ConsumeEventV2) : Prop :=
  ∃ ap trace i,
    fo_approvals out !! ce_approval_event_hash c = Some ap ∧
    ae_issue_id (aa_approval ap) = ce_issue_id c ∧
    ae_actor (aa_approval ap) = ce_approver c ∧
    ae_verdict (aa_approval ap) = Approve ∧
    history (refused_in (fo_rejections out)) (ce_issue_id c) pre (Some (trace, i)) ∧
    ae_open_event_hash (aa_approval ap) = is_open_event_hash i ∧
    is_status i = StClaimed (ce_actor c) (ce_claim_nonce c) (ce_claimed_event_hash c).

(** At the ledger's own position, a consume takes effect when it is
    consumable and the approval unspent. *)
Lemma consumable_effective input out rosters ordered g rej pre post c :
  fold_facts input out rosters ordered g →
  ordered = pre ++ post →
  let l := ledger_at (fo_approvals out) rej pre in
  consume_effective (lg_issues l) (fo_approvals out) (lg_effective_consumes l) c ↔
  consumable out pre c ∧ lg_effective_consumes l !! ce_approval_event_hash c = None.
Proof.
  intros F -> l. subst l.
  destruct (facts_issue_history _ _ _ _ _ (ce_issue_id c) F) as (st&Hst&_).
  apply history_prefix in Hst as [st' Hst].
  pose proof (history_ledger _ (fo_approvals out) rej _ _ _ Hst) as Hl.
  unfold consume_effective, consumable. split.
  - intros (ap&i&?&?&?&?&Hi&?&?&?). rewrite Hl in Hi. destruct st' as [[tr i']|]; simplify_eq/=.
    split; [|done]. by exists ap, tr, i.
  - intros [(ap&tr&i&?&?&?&?&Hi&?&?) ?]. exists ap, i. split_and!; try done.
    by rewrite (history_ledger _ _ _ _ _ _ Hi).
Qed.

(** An attested event is determined by its payload and hash. *)
Lemma attested_inj input out rosters r r' a b :
  attested input out rosters r a → attested input out rosters r' b →
  ad_payload a = ad_payload b → ad_event_hash a = ad_event_hash b → a = b.
Proof.
  intros (_&?&_&[]) (_&?&_&[]). destruct a, b; simpl in *. intros <- <-. f_equal; congruence.
Qed.

(** Where an effective consume sits in the order, and what held there. *)
Lemma effective_position input out rosters ordered g k e :
  fold_facts input out rosters ordered g → fo_effective_consumes out !! k = Some e →
  ∃ rej pre a post, ordered = pre ++ a :: post ∧ ad_payload a = PConsume (ec_consume e) ∧
    ad_event_hash a = ec_event_hash e ∧ ce_approval_event_hash (ec_consume e) = k ∧
    consumable out pre (ec_consume e) ∧
    lg_effective_consumes (ledger_at (fo_approvals out) rej pre) !! k = None.
Proof.
  intros F He. destruct (ff_ledger _ _ _ _ _ F) as [rej Hg].
  rewrite (ff_effective _ _ _ _ _ F), Hg in He.
  apply phase2_effective_iff in He as (pre&a&post&Hord&c&Hp&Hk&->&Hce).
  apply (consumable_effective _ _ _ _ _ rej _ _ _ F Hord) in Hce as [Hc Hn]. subst k.
  by exists rej, pre, a, post.
Qed.

(** The issue of a history's state is in the output, with the same opening. *)
Lemma facts_extends input out rosters ordered g pre post id tr i :
  fold_facts input out rosters ordered g → ordered = pre ++ post →
  history (refused_in (fo_rejections out)) id pre (Some (tr, i)) →
  ∃ issue, fo_issues out !! id = Some issue ∧ issue_extends i issue.
Proof.
  intros F -> Hst. destruct (ff_ledger _ _ _ _ _ F) as [rej Hg].
  pose proof (history_ledger _ (fo_approvals out) rej _ _ _ Hst) as Hi.
  rewrite (ff_issues _ _ _ _ _ F), Hg, phase2_app. by eapply phase2_issue_mono.
Qed.

(** A consumable consume leaves its approval spent. *)
Lemma earlier_spends input out rosters ordered g rej pre b mid post c :
  fold_facts input out rosters ordered g → ordered = (pre ++ b :: mid) ++ post →
  ad_payload b = PConsume c → consumable out pre c →
  is_Some (lg_effective_consumes (ledger_at (fo_approvals out) rej (pre ++ b :: mid))
             !! ce_approval_event_hash c).
Proof.
  intros F Hord Hp Hc. rewrite phase2_app. cbn [phase2 foldl].
  set (l := ledger_at (fo_approvals out) rej pre).
  assert (∃ e, lg_effective_consumes (phase2_step (fo_approvals out) l b)
    !! ce_approval_event_hash c = Some e) as [e He].
  { destruct (lg_effective_consumes l !! ce_approval_event_hash c) as [e|] eqn:Hn.
    - exists e. apply phase2_step_effective_iff. by right.
    - eexists. apply phase2_step_effective_iff. left. exists c. split_and!; [done..|].
      eapply (consumable_effective _ _ _ _ _ rej pre); [done| |done].
      by rewrite Hord, <-app_assoc. }
  eexists. by apply (phase2_effective_mono (fo_approvals out) _ mid).
Qed.

(** Every consume that is not the effective one is reported. *)
Lemma other_consume_loses input out rosters ordered g k e a b c :
  fold_facts input out rosters ordered g → fo_effective_consumes out !! k = Some e →
  a ∈ ordered → ad_payload a = PConsume (ec_consume e) → ad_event_hash a = ec_event_hash e →
  b ∈ ordered → b ≠ a → ad_payload b = PConsume c → ce_approval_event_hash c = k →
  ∃ d, d ∈ fo_losing_consumes out ∧ cd_event_hash d = ad_event_hash b ∧
    cd_author d = ad_author b ∧ cd_key d = ad_key b.
Proof.
  intros F He Ha Hpa Hha Hb Hne Hpb Hk. pose proof (facts_order _ _ _ _ _ F) as AO.
  destruct (ff_ledger _ _ _ _ _ F) as [rej Hg].
  pose proof (phase2_accounted (fo_approvals out) (empty_ledger rej) ordered b Hb) as Hacc.
  unfold accounted in Hacc. rewrite Hpb, <-Hg, <-(ff_effective _ _ _ _ _ F), <-(ff_losing _ _ _ _ _ F),
    Hk, He in Hacc. destruct Hacc as [[= ->]|(d&?&?&?&?&_)]; [|by exists d].
  destruct (ao_attested _ _ _ _ AO a Ha) as [r Hr], (ao_attested _ _ _ _ AO b Hb) as [r' Hr'].
  destruct Hne. eapply attested_inj; [done..| |]; simpl in *; congruence.
Qed.

(** C5 an approval is spent at most once and only by the agent it was issued
    for. The effective consume stored under an approval's hash is an admitted
    event that names that approval; the approval is itself an admitted event,
    an approve verdict by the named approver, on this issue and on exactly
    the content the issue was opened with; at the consume's position the
    issue's history leaves it claimed by the consumer under the consume's
    nonce, by an admitted claim event that precedes the consume. It is the
    first: no consume of the approval before it met these conditions, and
    every other admitted consume of the approval is reported as losing. *)
Theorem fold_effective_consume (input : FoldInput) (out : FoldOutput) (k : string)
    (e : EffectiveConsumeV2) :
  fold_v2 input = Ok out → fo_effective_consumes out !! k = Some e →
  ∃ rosters pre a post ap issue,
    admitted_order input out rosters (pre ++ a :: post) ∧
    ad_payload a = PConsume (ec_consume e) ∧ ad_event_hash a = ec_event_hash e ∧
    ce_approval_event_hash (ec_consume e) = k ∧
    (* the approval *)
    fo_approvals out !! k = Some ap ∧
    (∃ b, b ∈ pre ++ a :: post ∧ ad_event_hash b = k ∧ ad_payload b = PApproval (aa_approval ap)) ∧
    fo_issues out !! ae_issue_id (aa_approval ap) = Some issue ∧
    ae_open_event_hash (aa_approval ap) = is_open_event_hash issue ∧
    (* the fence *)
    consumable out pre (ec_consume e) ∧
    (∃ claim, claim ∈ pre ∧
       is_claim_of (ce_issue_id (ec_consume e)) (ce_actor (ec_consume e))
         (ce_claim_nonce (ec_consume e)) (ce_claimed_event_hash (ec_consume e)) claim) ∧
    (* the only one *)
    (∀ pre' b post' c, pre = pre' ++ b :: post' → ad_payload b = PConsume c →
       ce_approval_event_hash c = k → ¬ consumable out pre' c) ∧
    (∀ b c, b ∈ pre ++ a :: post → b ≠ a → ad_payload b = PConsume c →
       ce_approval_event_hash c = k →
       ∃ d, d ∈ fo_losing_consumes out ∧ cd_event_hash d = ad_event_hash b ∧
         cd_author d = ad_author b ∧ cd_key d = ad_key b).
Proof.
  intros Hf He. destruct (fold_v2_facts _ _ Hf) as (rosters&ordered&g&F).
  destruct (effective_position _ _ _ _ _ _ _ F He) as (rej&pre&a&post&Hord&Hp&Hh&Hk&Hce&Hnone).
  pose proof Hce as (ap&tr&i&Hap&Hid&_&_&Hst&Hopen&Hs). rewrite Hk in Hap.
  destruct (history_run _ _ _ _ _ Hst) as [Hrun Hsub].
  pose proof (issue_run_backed _ _ _ Hrun) as Hback. rewrite Hs in Hback.
  apply Exists_exists in Hback as (claim&Hclaim&His). apply sublist_submseteq in Hsub.
  destruct (facts_extends _ _ _ _ _ _ _ _ _ _ F Hord Hst) as (issue&Hissue&[_ _ _ Hio _]).
  destruct (facts_approval _ _ _ _ _ _ _ F Hap) as [Hapk (b&r&card&Hb&Hbh&Hbp&_)].
  pose proof (facts_order _ _ _ _ _ F) as AO. subst ordered.
  exists rosters, pre, a, post, ap, issue. split_and!; try done; [exists b; by rewrite Hapk in Hbh|
    congruence|congruence| | |].
  - exists claim. split; [by eapply elem_of_submseteq|done].
  - intros pre' b' post' c' -> Hb' Hk' Hc'.
    destruct (earlier_spends _ _ _ _ _ rej _ _ _ _ _ F eq_refl Hb' Hc') as [e' He']. congruence.
  - intros b' c' Hb' Hne Hp' Hk'. eapply (other_consume_loses _ _ _ _ _ k e a); try done.
    apply elem_of_app. right. apply elem_of_cons. by left.
Qed.

(** C6 what a dispatcher may act on: every approval that
    [unconsumed_approvals] returns for an issue is an approve verdict signed
    by an agent that is in the roster epoch it names, on exactly the content
    the issue was opened with; it has not been consumed; and no admitted
    approval event denies that content. *)
Theorem fold_unconsumed_sound (input : FoldInput) (out : FoldOutput) (id : string)
    (ap : AdmittedApprovalV2) :
  fold_v2 input = Ok out → ap ∈ unconsumed_approvals out id →
  ∃ issue record env card payload,
    fo_issues out !! id = Some issue ∧
    ae_verdict (aa_approval ap) = Approve ∧ ae_issue_id (aa_approval ap) = id ∧
    ae_open_event_hash (aa_approval ap) = is_open_event_hash issue ∧
    supplied (fi_streams input) (ae_actor (aa_approval ap)) record ∧
    envelope_decode (sr_value record) = Ok env ∧
    envelope_attests env APPROVAL_CONTEXT_V2 card payload (aa_event_hash ap) ∧
    derive_agent_id_hex card = ae_actor (aa_approval ap) ∧
    json_approval payload = Ok (aa_approval ap) ∧
    (ae_roster_epoch (aa_approval ap) ≤ fo_latest_roster_epoch out)%N ∧
    fo_effective_consumes out !! aa_event_hash ap = None ∧
    ∀ k d, fo_approvals out !! k = Some d → ae_issue_id (aa_approval d) = id →
      ae_open_event_hash (aa_approval d) = is_open_event_hash issue →
      ae_verdict (aa_approval d) ≠ Deny.
Proof.
  intros Hf (issue&k&Hi&Hk&Hcov&Hnone&Hdeny)%elem_of_unconsumed.
  destruct (fold_v2_facts _ _ Hf) as (rosters&ordered&g&F).
  apply approval_covers_true in Hcov as (Hid&Ho&Hv).
  destruct (facts_approval _ _ _ _ _ _ _ F Hk) as (Hh&a&r&card&Ha&Hha&Hp&Hsup&Hder&Hau).
  destruct (au_envelope _ _ _ _ _ _ _ Hau) as (env&payload&Hdec&Hatt&_&Hjson).
  destruct (au_roster _ _ _ _ _ _ _ Hau) as (roster&Hros&_). rewrite Hp in *. simpl in *.
  exists issue, r, env, card, payload. rewrite <-Hha. split_and!; try done.
  - rewrite (ff_epoch _ _ _ _ _ F). apply lookup_lt_Some in Hros. unfold llen. lia.
  - by rewrite Hha.
  - intros k' d Hd Hdi Hdo Hdv. specialize (Hdeny k' d Hd).
    assert (approval_covers id (is_open_event_hash issue) Deny d = true) as Hc
      by (by apply approval_covers_true). congruence.
Qed.

(** Every hash in an issue's history belongs to an event of the fold order. *)
Lemma facts_history input out rosters ordered g id issue h :
  fold_facts input out rosters ordered g → fo_issues out !! id = Some issue →
  h ∈ is_applied issue → ∃ a, a ∈ ordered ∧ ad_event_hash a = h.
Proof.
  intros F Hi Hh. destruct (ff_ledger _ _ _ _ _ F) as [rej Hg].
  rewrite (ff_issues _ _ _ _ _ F), Hg in Hi.
  apply phase2_issue_run in Hi as (tr&Hsub&Hrun).
  rewrite (issue_run_applied _ _ _ Hrun) in Hh.
  apply list_elem_of_fmap in Hh as (a&->&Ha). exists a. split; [|done].
  eapply elem_of_submseteq; [done|by apply sublist_submseteq].
Qed.

(** The link an author must sign next: the admitted events of every author
    form one hash chain from the genesis hash, numbered 1, 2, ..., and
    [next_chain_link] returns the number and hash that continue it, so an
    author who follows it neither forks nor leaves a gap. *)
Theorem fold_next_chain_link (input : FoldInput) (out : FoldOutput) (author : string) :
  fold_v2 input = Ok out →
  ∃ chain,
    linked 1 (fo_genesis_hash out) chain ∧
    (∀ a, a ∈ chain → ad_author a = author ∧
       ∃ record, supplied (fi_streams input) author record ∧ sr_key record = ad_key a) ∧
    (∀ id issue h, fo_issues out !! id = Some issue → h ∈ is_applied issue →
       ∃ a, ad_event_hash a = h ∧ (ad_author a = author → a ∈ chain)) ∧
    next_chain_link out author =
      (wrap_add64 (llen chain) 1, chain_tip (fo_genesis_hash out) chain) ∧
    (llen chain < u64_max → ∀ a, ad_author_seq a = (next_chain_link out author).1 →
       ad_prev_own_event_hash a = (next_chain_link out author).2 →
       linked 1 (fo_genesis_hash out) (chain ++ [a]))%N.
Proof.
  intros Hf. destruct (fold_v2_facts _ _ Hf) as (rosters&ordered&g&F).
  destruct (ff_chain _ _ _ _ _ F author) as (l&[Hl Hin]&Hnext).
  exists l. split_and!; try done.
  - intros a Ha. apply Hin in Ha as [Ha <-]. split; [done|].
    destruct (ff_authentic _ _ _ _ _ F a Ha) as (r&card&Hs&_&Hau). exists r. split; [done|].
    by rewrite (au_adkey _ _ _ _ _ _ _ Hau).
  - intros id issue h Hi Hh. destruct (facts_history _ _ _ _ _ _ _ _ F Hi Hh) as (a&Ha&<-).
    exists a. split; [done|]. intros Hau. by apply Hin.
  - intros Hlt a. rewrite Hnext. simpl.
    rewrite wrap_add64_small by lia. intros Hs Hp. apply linked_tip_snoc; [done|lia|done].
Qed.

(** No author can push the clock: the events the fold accepts, in fold
    order, have lamport times at most [64] times their (one-based) position,
    and [max_admitted_lamport] is their maximum. *)
Theorem fold_lamport_bound (input : FoldInput) (out : FoldOutput) :
  fold_v2 input = Ok out →
  ∃ ordered,
    NoDup ordered ∧ StronglySorted (key_le fold_position) ordered ∧
    fo_max_admitted_lamport out = max_lamport ordered ∧
    (∀ i a, ordered !! i = Some a → (ad_lamport a ≤ LAMPORT_MAX_SKEW * (N.of_nat i + 1))%N) ∧
    (fo_max_admitted_lamport out ≤ LAMPORT_MAX_SKEW * llen ordered)%N ∧
    ∀ id issue, fo_issues out !! id = Some issue →
      ∀ h, h ∈ is_applied issue → ∃ a, a ∈ ordered ∧ ad_event_hash a = h.
Proof.
  intros Hf. destruct (fold_v2_facts _ _ Hf) as (rosters&ordered&g&F).
  pose proof (ff_lamport _ _ _ _ _ F) as Hcl. exists ordered. split_and!; try apply F.
  - intros i a Hi. pose proof (lamport_clean_position 0 _ _ _ Hcl Hi). lia.
  - rewrite (ff_max_lamport _ _ _ _ _ F). apply max_lamport_le. intros a Ha.
    pose proof (lamport_clean_bound _ _ _ Hcl Ha). lia.
  - intros id issue Hi h Hh. by eapply facts_history.
Qed.

(** Where the output records an event with payload hash [h] by [author]. *)
Definition visible (out : FoldOutput) (author h : string) : Prop :=
  (∃ id issue, fo_issues out !! id = Some issue ∧ h ∈ is_applied issue) ∨
  is_Some (fo_approvals out !! h) ∨
  (∃ k e, fo_effective_consumes out !! k = Some e ∧ ec_event_hash e = h) ∨
  (∃ d, d ∈ fo_losing_consumes out ∧ cd_event_hash d = h ∧ cd_author d = author) ∨
  (∃ id r, r ∈ default [] (fo_handoffs out !! id) ∧ hr_event_hash r = h).

(** No event record is dropped silently: every supplied chained record is
    rejected with a diagnostic that names its author and key, or it is
    admitted and its payload hash shows up in an issue's history, among the
    approvals, the effective or losing consumes, or the handoffs, or a
    diagnostic names the admitted copy with the same payload hash. *)
Theorem fold_accounts_for_every_record (input : FoldInput) (out : FoldOutput) (author : string)
    (record : StoreRecord) :
  fold_v2 input = Ok out → supplied (fi_streams input) author record →
  is_event_record record = true →
  (∃ x, x ∈ fo_rejections out ∧ rejects author (sr_key record) x) ∨
  (∃ a a', ad_author a = author ∧ ad_key a = sr_key record ∧ ad_author a' = author ∧
     ad_event_hash a' = ad_event_hash a ∧
     (visible out author (ad_event_hash a) ∨
      ∃ x, x ∈ fo_rejections out ∧ rejects author (ad_key a') x)).
Proof.
  intros Hf Hs He. destruct (fold_v2_facts _ _ Hf) as (rosters&ordered&g&F).
  destruct (ff_accounted _ _ _ _ _ F author record Hs He)
    as [?|(card&a&a'&Hau&Ha'&Hh&Hout)]; [by left|right].
  pose proof (au_author _ _ _ _ _ _ _ Hau) as Ha. pose proof (au_adkey _ _ _ _ _ _ _ Hau) as Hk.
  exists a, a'. split_and!; try done. destruct Hout as [Hin|?]; [|by right].
  destruct (ff_ledger _ _ _ _ _ F) as [rej Hg].
  pose proof (phase2_accounted (fo_approvals out) (empty_ledger rej) ordered a' Hin) as Hacc.
  rewrite <-Hg in Hacc. unfold accounted in Hacc. unfold visible. rewrite <-Hh.
  rewrite (ff_issues _ _ _ _ _ F), (ff_effective _ _ _ _ _ F), (ff_losing _ _ _ _ _ F),
    (ff_handoffs _ _ _ _ _ F).
  assert (Hrej : ∀ reason, rejection_of a' reason ∈ lg_rejections g →
    ∃ x, x ∈ fo_rejections out ∧ rejects author (ad_key a') x).
  { intros reason Hr. exists (rejection_of a' reason).
    by rewrite (ff_rejections _ _ _ _ _ F). }
  destruct (ad_payload a') as [ev|ap|c|hf] eqn:Hp.
  - destruct Hacc as [(i&?&?)|(r&Hr)]; [|right; by eapply Hrej]. left. left. eauto.
  - left. right. left. rewrite (ff_approvals _ _ _ _ _ F). by eapply collect_approvals_is_Some.
  - left. destruct Hacc as [?|(d&?&?&?&_&_)]; [right; right; left; by do 2 eexists|].
    right; right; right; left. exists d. split_and!; congruence.
  - destruct Hacc as [?|(r&Hr)]; [|right; by eapply Hrej]. left. do 4 right. by do 2 eexists.
Qed.

(** A blocked issue returns to the queue only with an approval: every
    requeue in an issue's history embeds an approval envelope whose signature
    verifies under the approver's own key and whose payload names this list,
    this genesis, this issue, the parked block and the parked claim nonce. *)
Theorem fold_requeue_authorised (input : FoldInput) (out : FoldOutput) (id : string)
    (issue : IssueStateV2) :
  fold_v2 input = Ok out → fo_issues out !! id = Some issue →
  ∃ trace, issue_run id trace issue ∧
    ∀ a ev j, a ∈ trace → ad_payload a = PTransition ev → tr_kind ev = TkRequeue j →
      ∃ pk payload ap,
        envelope_attests (rj_approval j) APPROVAL_CONTEXT_V2 pk payload (rj_approval_event_hash j) ∧
        json_approval_payload payload = Ok ap ∧
        ap_approver ap = derive_agent_id_hex pk ∧
        ap_list_uuid ap = fi_list_uuid input ∧
        ap_genesis_manifest_hash ap = fo_genesis_hash out ∧ ap_issue_id ap = id ∧
        ap_block_event_hash ap = rj_block_event_hash j ∧
        ap_claim_nonce ap = rj_claim_nonce j.
Proof.
  intros Hf Hi. destruct (fold_v2_facts _ _ Hf) as (rosters&ordered&g&F).
  destruct (ff_ledger _ _ _ _ _ F) as [rej Hg]. rewrite (ff_issues _ _ _ _ _ F), Hg in Hi.
  apply phase2_issue_run in Hi as (tr&Hsub&Hrun). exists tr. split; [done|].
  intros a ev j Ha Hp Hk.
  pose proof (issue_run_transitions _ _ _ Hrun) as HF. rewrite Forall_forall in HF.
  destruct (HF a Ha) as (ev'&Hp'&Hid). simplify_eq.
  destruct (ff_authentic _ _ _ _ _ F a) as (r&card&Hsup&Hder&Hau).
  { eapply elem_of_submseteq; [done|by apply sublist_submseteq]. }
  destruct (au_roster _ _ _ _ _ _ _ Hau) as (roster&Hros&_&Hj).
  rewrite Hp in Hj. unfold requeue_justified in Hj. rewrite Hk in Hj.
  destruct Hj as (pk&payload&ap&?&?&?&?&?&?&?&?&?&?&?). exists pk, payload, ap.
  split_and!; congruence.
Qed.

(** What an accepted input is bounded by: the number of streams, the
    records of each raw stream and their sizes, and the number of distinct
    records of each owner after merging. *)
Theorem fold_budgets (input : FoldInput) (out : FoldOutput) :
  fold_v2 input = Ok out →
  (llen (fi_streams input) ≤ sat_add64 (max_roster_members (fi_limits input)) 1)%N ∧
  (∀ st, st ∈ fi_streams input → within_budget (fi_limits input) st) ∧
  (∀ o l, NoDup l → (∀ r, r ∈ l → supplied (fi_streams input) o r) →
     (llen l ≤ max_records_per_stream (fi_limits input))%N).
Proof.
  intros Hf. destruct (fold_v2_facts _ _ Hf) as (rosters&ordered&g&F).
  pose proof (ff_raw_budget _ _ _ _ _ F) as [Hn Hb]%raw_budget_Ok. split_and!; [done..|].
  intros o l Hnd Hl. destruct l as [|r0 l0] eqn:El; [apply N.le_0_l|]. rewrite <-El in *.
  pose proof (canonical_supplied (fi_streams input) o) as Hsup.
  unfold fold_v2 in Hf. destruct (raw_budget _ _) as [[]|]; [|done]. cbn in Hf.
  destruct (canonical_streams (fi_streams input)) as [streams conflicted]. cbn in *.
  unfold fold_canonical in Hf.
  destruct (check_merged_streams _ _) as [[]|] eqn:Hm; [|done]. clear Hf.
  assert (Hr0 : r0 ∈ l) by (rewrite El; set_solver).
  destruct (proj1 (Hsup r0) (Hl _ Hr0)) as (s&Hs&_).
  etrans; [|eapply (check_merged_Ok _ _ o s Hm); by apply elem_of_btree_iter].
  unfold llen. apply N2Z.inj_le. rewrite !nat_N_Z. apply inj_le, submseteq_length.
  apply NoDup_submseteq; [done|]. intros r Hr.
  destruct (proj1 (Hsup r) (Hl _ Hr)) as (s'&Hs'&?). congruence.
Qed.

(** The refusals say what is wrong: a list is reported without a creator
    stream only when no stream of its creator was supplied, and without a
    genesis only when the creator published no genesis record. *)
Lemma fold_refusal (input : FoldInput) (e : ListRefusal) :
  fold_v2 input = Err e →
  match e with
  | MissingCreatorStream c =>
      c = fi_creator input ∧ ∀ r, ¬ supplied (fi_streams input) (fi_creator input) r
  | MissingGenesis =>
      ∀ r, supplied (fi_streams input) (fi_creator input) r → sr_key r ≠ GENESIS_KEY
  | InvalidGenesis _ | BudgetExceeded _ => True
  end.
Proof.
  destruct e as [c| |reason|reason]; try done; intros Hf;
    pose proof (canonical_supplied (fi_streams input) (fi_creator input)) as Hsup;
    unfold fold_v2 in Hf;
    (destruct (raw_budget _ _) as [[]|e] eqn:Hr;
     [|apply raw_budget_Err in Hr as [? ->]; discriminate Hf]); cbn in Hf;
    destruct (canonical_streams (fi_streams input)) as [streams conflicted]; cbn in *;
    apply fold_canonical_missing in Hf.
  - destruct Hf as [-> Hnone]. split; [done|]. intros r (s&Hs&_)%Hsup. congruence.
  - destruct Hf as (s&Hs&Hnone). intros r (s'&Hs'&Hin)%Hsup Hk. simplify_eq.
    unfold find_record in Hnone. rewrite find_none_Forall in Hnone.
    specialize (Hnone r Hin). by apply bool_decide_eq_false in Hnone.
Qed.
End guarantees.

(** ** Witnesses on the demo list *)

Import Fixture.

Definition demo_reordered : FoldInput := {|
  fi_list_uuid := "u"; fi_creator := alice;
  fi_streams := [alice_stream; bob_stream]; fi_limits := default_limits |}.

Lemma demo_same : same_event_set (fi_streams demo_input) (fi_streams demo_reordered).
Proof. apply same_event_set_perm. apply Permutation_swap. Qed.

Lemma fold_order_independent_witness : fold_v2 demo_input = fold_v2 demo_reordered.
Proof.
  apply fold_order_independent; [exact demo_same|reflexivity..|vm_compute; reflexivity|].
  vm_compute. reflexivity.
Defined.

Lemma fold_permutation_witness :
  fold_v2 demo_input = fold_v2 demo_reordered ∨
  ∃ r1 r2, fold_v2 demo_input = Err (BudgetExceeded r1) ∧
           fold_v2 demo_reordered = Err (BudgetExceeded r2).
Proof.
  apply fold_permutation; [|reflexivity..].
  exists [alice_stream; bob_stream]. split; [apply Permutation_swap|].
  repeat constructor.
Defined.

Definition demo_issue : IssueStateV2 := {|
  is_issue_id := "i"; is_title := "T"; is_spec := "P"; is_opened_by := alice;
  is_open_event_hash := hx "o"; is_status := StDone bob (hx "e");
  is_applied := [hx "o"; hx "c"; hx "e"] |}.

Lemma demo_issue_eq : fo_issues demo_out !! "i" = Some demo_issue.
Proof. vm_compute. reflexivity. Qed.

Lemma fold_event_authentic_witness :
  ∃ author record env card payload ev rosters roster,
    supplied (fi_streams demo_input) author record ∧ sr_key record = event_key "i" (hx "c") ∧
    envelope_decode (sr_value record) = Ok env ∧
    envelope_attests env TRANSITION_CONTEXT_V2 card payload (hx "c") ∧
    derive_agent_id_hex card = author ∧
    json_transition payload = Ok ev ∧ tr_schema ev = V2_SCHEMA ∧
    tr_actor ev = author ∧ tr_issue_id ev = "i" ∧ tr_list_uuid ev = fi_list_uuid demo_input ∧
    tr_genesis_manifest_hash ev = fo_genesis_hash demo_out ∧
    rosters_of demo_input demo_out rosters ∧ rosters !! N.to_nat (tr_roster_epoch ev) = Some roster ∧
    author ∈ roster.
Proof.
  apply (fold_event_authentic demo_input demo_out "i" (hx "c") demo_issue);
    [exact demo_ok|exact demo_issue_eq|]. apply elem_of_cons. right. apply elem_of_cons. by left.
Defined.

Lemma fold_roster_chain_witness :
  ∃ card records ext tip,
    genesis_authentic (fi_streams demo_input) "u" alice card
      (fo_genesis demo_out) (fo_genesis_hash demo_out) ∧
    (∀ r, r ∈ records ↔ supplied (fi_streams demo_input) alice r) ∧
    roster_ext "u" alice card (fo_genesis_hash demo_out) records 1
      (fo_genesis_hash demo_out) ext tip ∧
    fo_latest_roster_epoch demo_out = llen ext ∧
    last (list_to_set (gen_roster (fo_genesis demo_out)) :: ext) = Some (fo_current_roster demo_out) ∧
    ∀ r, r ∈ list_to_set (gen_roster (fo_genesis demo_out)) :: ext →
      (N.of_nat (size r) ≤ 256)%N.
Proof. exact (fold_roster_chain demo_input demo_out demo_ok). Defined.

Lemma fold_issue_history_witness :
  ∃ rosters ordered trace,
    admitted_order demo_input demo_out rosters ordered ∧
    history (refused_in (fo_rejections demo_out)) "i" ordered (Some (trace, demo_issue)) ∧
    is_applied demo_issue = ad_event_hash <$> trace ∧
    head (is_applied demo_issue) = Some (is_open_event_hash demo_issue) ∧
    status_backed "i" trace (is_status demo_issue).
Proof. exact (fold_issue_history demo_input demo_out "i" demo_issue demo_ok demo_issue_eq). Defined.

Definition demo_effective : EffectiveConsumeV2 := {| ec_event_hash := hx "d"; ec_consume := consume |}.

Lemma demo_effective_eq : fo_effective_consumes demo_out !! hx "a" = Some demo_effective.
Proof. vm_compute. reflexivity. Qed.

Lemma fold_effective_consume_witness :
  ∃ rosters pre a post ap issue,
    admitted_order demo_input demo_out rosters (pre ++ a :: post) ∧
    ad_payload a = PConsume consume ∧ ad_event_hash a = hx "d" ∧
    ce_approval_event_hash consume = hx "a" ∧
    fo_approvals demo_out !! hx "a" = Some ap ∧
    (∃ b, b ∈ pre ++ a :: post ∧ ad_event_hash b = hx "a" ∧
       ad_payload b = PApproval (aa_approval ap)) ∧
    fo_issues demo_out !! ae_issue_id (aa_approval ap) = Some issue ∧
    ae_open_event_hash (aa_approval ap) = is_open_event_hash issue ∧
    consumable demo_out pre consume ∧
    (∃ claim, claim ∈ pre ∧
       is_claim_of (ce_issue_id consume) (ce_actor consume) (ce_claim_nonce consume)
         (ce_claimed_event_hash consume) claim) ∧
    (∀ pre' b post' c, pre = pre' ++ b :: post' → ad_payload b = PConsume c →
       ce_approval_event_hash c = hx "a" → ¬ consumable demo_out pre' c) ∧
    (∀ b c, b ∈ pre ++ a :: post → b ≠ a → ad_payload b = PConsume c →
       ce_approval_event_hash c = hx "a" →
       ∃ d, d ∈ fo_losing_consumes demo_out ∧ cd_event_hash d = ad_event_hash b ∧
         cd_author d = ad_author b ∧ cd_key d = ad_key b).
Proof.
  exact (fold_effective_consume demo_input demo_out (hx "a") demo_effective demo_ok demo_effective_eq).
Defined.

Definition demo_approval : AdmittedApprovalV2 :=
  {| aa_event_hash := hx "a"; aa_approval := approval |}.

Lemma solo_unconsumed : unconsumed_approvals solo_out "i" = [demo_approval].
Proof. vm_compute. reflexivity. Qed.

Lemma fold_unconsumed_sound_witness :
  ∃ issue record env card payload,
    fo_issues solo_out !! "i" = Some issue ∧
    ae_verdict approval = Approve ∧ ae_issue_id approval = "i" ∧
    ae_open_event_hash approval = is_open_event_hash issue ∧
    supplied (fi_streams solo_input) (ae_actor approval) record ∧
    envelope_decode (sr_value record) = Ok env ∧
    envelope_attests env APPROVAL_CONTEXT_V2 card payload (hx "a") ∧
    derive_agent_id_hex card = ae_actor approval ∧
    json_approval payload = Ok approval ∧
    (ae_roster_epoch approval ≤ fo_latest_roster_epoch solo_out)%N ∧
    fo_effective_consumes solo_out !! hx "a" = None ∧
    ∀ k d, fo_approvals solo_out !! k = Some d → ae_issue_id (aa_approval d) = "i" →
      ae_open_event_hash (aa_approval d) = is_open_event_hash issue →
      ae_verdict (aa_approval d) ≠ Deny.
Proof.
  apply (fold_unconsumed_sound solo_input solo_out "i" demo_approval solo_ok).
  rewrite solo_unconsumed. by apply list_elem_of_singleton.
Defined.

Lemma fold_next_chain_link_witness :
  next_chain_link demo_out bob = (5%N, hx "e") ∧
  ∃ chain, linked 1 (fo_genesis_hash demo_out) chain ∧
    next_chain_link demo_out bob =
      (wrap_add64 (llen chain) 1, chain_tip (fo_genesis_hash demo_out) chain).
Proof.
  split; [vm_compute; reflexivity|].
  destruct (fold_next_chain_link demo_input demo_out bob demo_ok) as (l&?&_&_&?&_).
  exists l. split; assumption.
Defined.

Lemma fold_lamport_bound_witness :
  fo_max_admitted_lamport demo_out = 6%N ∧
  ∃ ordered, (fo_max_admitted_lamport demo_out ≤ LAMPORT_MAX_SKEW * llen ordered)%N ∧
    fo_max_admitted_lamport demo_out = max_lamport ordered.
Proof.
  split; [vm_compute; reflexivity|].
  destruct (fold_lamport_bound demo_input demo_out demo_ok) as (l&_&_&?&_&?&_).
  exists l. split; assumption.
Defined.

(** The future-dated claim of the demo list is accounted for. *)
Lemma fold_accounts_witness :
  (∃ x, x ∈ fo_rejections demo_out ∧ rejects bob (event_key "i" (hx "f")) x) ∨
  (∃ a a', ad_author a = bob ∧ ad_key a = event_key "i" (hx "f") ∧ ad_author a' = bob ∧
     ad_event_hash a' = ad_event_hash a ∧
     (visible demo_out bob (ad_event_hash a) ∨
      ∃ x, x ∈ fo_rejections demo_out ∧ rejects bob (ad_key a') x)).
Proof.
  apply (fold_accounts_for_every_record demo_input demo_out bob
           (rec (event_key "i" (hx "f")) "f") demo_ok); [|vm_compute; reflexivity].
  exists bob_stream. split_and!; [apply elem_of_cons; by left|reflexivity|].
  unfold bob_stream. cbn [as_records]. do 5 (apply elem_of_cons; right).
  apply elem_of_cons. by left.
Defined.

Lemma fold_requeue_authorised_witness :
  ∃ trace, issue_run "i" trace demo_issue ∧
    ∀ a ev j, a ∈ trace → ad_payload a = PTransition ev → tr_kind ev = TkRequeue j →
      ∃ pk payload ap,
        envelope_attests (rj_approval j) APPROVAL_CONTEXT_V2 pk payload (rj_approval_event_hash j) ∧
        json_approval_payload payload = Ok ap ∧
        ap_approver ap = derive_agent_id_hex pk ∧
        ap_list_uuid ap = "u" ∧ ap_genesis_manifest_hash ap = fo_genesis_hash demo_out ∧
        ap_issue_id ap = "i" ∧ ap_block_event_hash ap = rj_block_event_hash j ∧
        ap_claim_nonce ap = rj_claim_nonce j.
Proof. exact (fold_requeue_authorised demo_input demo_out "i" demo_issue demo_ok demo_issue_eq). Defined.

Lemma fold_budgets_witness :
  (llen (fi_streams demo_input) ≤ sat_add64 (max_roster_members (fi_limits demo_input)) 1)%N ∧
  (∀ st, st ∈ fi_streams demo_input → within_budget (fi_limits demo_input) st) ∧
  (∀ o l, NoDup l → (∀ r, r ∈ l → supplied (fi_streams demo_input) o r) →
     (llen l ≤ max_records_per_stream (fi_limits demo_input))%N).
Proof. exact (fold_budgets demo_input demo_out demo_ok). Defined.

(** Without the creator's stream the list is refused. *)
Definition demo_headless : FoldInput := {|
  fi_list_uuid := "u"; fi_creator := alice; fi_streams := []; fi_limits := default_limits |}.

Lemma fold_refusal_witness :
  alice = alice ∧ ∀ r, ¬ supplied [] alice r.
Proof.
  apply (fold_refusal demo_headless (MissingCreatorStream alice)). vm_compute. reflexivity.
Defined.
