(* ===== verification/Dispatching.v ===== *)
(** * What the event store and the gate promise

    The store manager: reads that are within the fold's budgets and anchored to
    their authors, writes that never replace a record, appended records that
    every fold admits.  The gate: when it says [Proceed], when it refuses, that
    two gates never both proceed on one approval, and that the claims and
    consumes it builds extend the fold they were built from and take effect. *)

From S2P Require Import Prelude Wire Identity FoldTypes Canonical Admission RosterChain Chain.
From S2P Require Import LamportCap StateMachine Fold FoldRun Store Gate Fixture Guarantees.

Section dispatching.
Context `{X : Extern} `{D : Daemon} `{E : Encoders}.

(** ** Events that extend a fold *)

(** [adm] is stamped with the lamport time and the chain link that [out]
    offers its author, as [gate_consume] and [build_claim_transition] do. *)
Definition stamped (out : FoldOutput) (adm : AdmittedEvent) : Prop :=
  ad_lamport adm = sat_add64 (fo_max_admitted_lamport out) 1 ∧
  (ad_author_seq adm, ad_prev_own_event_hash adm) = next_chain_link out (ad_author adm).

(** [ordered ++ [adm]] is again a list the fold's first phase can produce. *)
Definition extends_order (gh : string) (ordered : list AdmittedEvent) (adm : AdmittedEvent) : Prop :=
  lamport_clean 0 (ordered ++ [adm]) ∧
  StronglySorted (key_le fold_position) (ordered ++ [adm]) ∧
  ∃ chain, admitted_chain gh ordered (ad_author adm) chain ∧ linked 1 gh (chain ++ [adm]).

Lemma max_lamport_cons c l : max_lamport (c :: l) = N.max (ad_lamport c) (max_lamport l).
Proof. done. Qed.

Lemma max_lamport_snoc l a : max_lamport (l ++ [a]) = N.max (max_lamport l) (ad_lamport a).
Proof.
  induction l as [|c l IH]; simpl; [by rewrite max_lamport_cons, N.max_comm|].
  by rewrite !max_lamport_cons, IH, N.max_assoc.
Qed.

Lemma lamport_clean_snoc rm l a :
  lamport_clean rm (l ++ [a]) ↔
  lamport_clean rm l ∧
  (ad_lamport a ≤ sat_add64 (N.max rm (max_lamport l)) LAMPORT_MAX_SKEW)%N.
Proof.
  revert rm. induction l as [|c l IH]; intros rm; simpl.
  - unfold max_lamport. simpl. rewrite N.max_0_r. tauto.
  - rewrite IH, max_lamport_cons, N.max_assoc. tauto.
Qed.

Lemma sorted_snoc_lamport l a :
  StronglySorted (key_le fold_position) l → (max_lamport l < ad_lamport a)%N →
  StronglySorted (key_le fold_position) (l ++ [a]).
Proof.
  induction 1 as [|b l Hs IH HF]; intros Hlt; simpl; [repeat constructor|].
  rewrite max_lamport_cons in Hlt.
  constructor; [apply IH; lia|]. apply Forall_app. split; [done|]. constructor; [|done].
  unfold key_le, ord_le, fold_position. simpl. unfold pair_cmp. simpl.
  assert ((ad_lamport b ?= ad_lamport a)%N = Lt) as -> by (apply N.compare_lt_iff; lia). done.
Qed.
(** An event above the last lamport time, within the skew, that continues its
    author's chain. *)
Lemma extends_intro gh ordered adm l :
  lamport_clean 0 ordered → StronglySorted (key_le fold_position) ordered →
  admitted_chain gh ordered (ad_author adm) l →
  (max_lamport ordered < ad_lamport adm)%N →
  (ad_lamport adm ≤ sat_add64 (max_lamport ordered) LAMPORT_MAX_SKEW)%N →
  ad_author_seq adm = (llen l + 1)%N → ad_prev_own_event_hash adm = chain_tip gh l →
  extends_order gh ordered adm.
Proof.
  intros Hc Hs Hl Hlt Hle Hseq Hprev. split_and!.
  - apply lamport_clean_snoc. by rewrite N.max_0_l.
  - by apply sorted_snoc_lamport.
  - exists l. split; [done|]. apply linked_app. split; [apply Hl|]. simpl.
    rewrite Hseq, Hprev. split_and!; [lia|done|done].
Qed.

Lemma linked_snoc gh l a :
  linked 1 gh l → ad_author_seq a = (llen l + 1)%N → ad_prev_own_event_hash a = chain_tip gh l →
  linked 1 gh (l ++ [a]).
Proof.
  intros Hl Hs Hp. apply linked_app. split; [done|]. simpl. split_and!; [lia|done|done].
Qed.

(** The chain of the author after one more event. *)
Lemma admitted_chain_snoc gh ordered adm l :
  admitted_chain gh ordered (ad_author adm) l → linked 1 gh (l ++ [adm]) →
  admitted_chain gh (ordered ++ [adm]) (ad_author adm) (l ++ [adm]).
Proof.
  intros [_ Hin] Hlk. split; [done|]. intros c. rewrite !elem_of_app, Hin, list_elem_of_singleton.
  naive_solver.
Qed.

Lemma stamped_extends input out rosters ordered g adm :
  fold_facts input out rosters ordered g → stamped out adm →
  (fo_max_admitted_lamport out < u64_max)%N →
  (∀ chain, admitted_chain (fo_genesis_hash out) ordered (ad_author adm) chain →
     llen chain < u64_max)%N →
  extends_order (fo_genesis_hash out) ordered adm.
Proof.
  intros F [Hl Hs] Hmax Hlen. rewrite (ff_max_lamport _ _ _ _ _ F) in Hl, Hmax.
  assert (ad_lamport adm = max_lamport ordered + 1)%N as Hlam.
  { rewrite Hl. unfold sat_add64. lia. }
  destruct (ff_chain _ _ _ _ _ F (ad_author adm)) as (l&Hl'&Hnext).
  rewrite Hnext in Hs. injection Hs as Hseq Hprev.
  apply (extends_intro _ _ _ l); [apply F|apply F|done|lia| | |done].
  - rewrite Hlam. unfold sat_add64, LAMPORT_MAX_SKEW. lia.
  - rewrite Hseq. apply wrap_add64_small. specialize (Hlen l Hl'). lia.
Qed.

Lemma current_roster_epoch input out rosters ordered g :
  fold_facts input out rosters ordered g →
  rosters !! N.to_nat (fo_latest_roster_epoch out) = Some (fo_current_roster out).
Proof.
  intros F. rewrite (ff_epoch _ _ _ _ _ F), <-(ff_current _ _ _ _ _ F), last_lookup.
  f_equal. unfold llen. lia.
Qed.
(** ** The store *)

(** What a read hands to the fold: the streams of distinct authors, the
    creator's first, each from a store whose daemon-reported owner is the
    author (and, in append-only mode, whose policy is append-only), and all
    within the budgets, so the fold never refuses them as raw input. *)
Theorem read_fold_input_accepted (m : V2StoreManager) (list_uuid creator : string) w input w' :
  read_fold_input m list_uuid creator w = (Ok input, w') →
  (max_roster_members (mgr_limits m) < u64_max)%N →
  raw_budget (fi_limits input) (fi_streams input) = Ok () ∧
  fi_list_uuid input = list_uuid ∧ fi_creator input = creator ∧
  head (as_owner <$> fi_streams input) = Some creator ∧
  NoDup (as_owner <$> fi_streams input) ∧
  ∀ s, s ∈ fi_streams input →
    ∃ w1, anchored m (event_store_topic list_uuid (as_owner s)) (as_owner s) w1.
Proof.
  intros H Hmax. apply read_fold_input_Ok in H as (Hu&Hc&Hl&Hlen&Hnd&Hhd&Hall).
  split_and!; try done; [|intros s Hs; by apply Hall].
  apply raw_budget_Ok. rewrite Hl. split; [unfold sat_add64; lia|]. intros s Hs. by apply Hall.
Qed.

(** Records are written once: when the daemon has a value under the key,
    [put_once] leaves the world as the lookup left it, succeeds exactly if the
    value is the encoding of this envelope, and otherwise reports the
    conflict. *)
Lemma put_once_never_overwrites (topic key : string) (envelope : EventEnvelope) w w1 value
    (b : bytes) :
  get_kv topic key w = (Ok (Some value), w1) → enc_envelope envelope = Ok b →
  put_once topic key envelope w =
    (if bool_decide (value = b) then Ok () else Err (ImmutableConflict topic key), w1).
Proof.
  intros Hg He. destruct (put_once topic key envelope w) as [r w'] eqn:Hp.
  pose proof (put_once_present _ _ _ _ _ _ _ _ Hg Hp) as H. rewrite He in H.
  by destruct H as [-> ->].
Qed.

(** The store a manager writes to is bound to the signing key: its agent id
    is derived from its public key, its topic names the list and the agent,
    the daemon reports the agent as the owner, and the daemon returned or
    acknowledged exactly this key as the store's card. *)
Lemma ensure_own_store_bound (m : V2StoreManager) (list_uuid : string) w own w' :
  ensure_own_store m list_uuid w = (Ok own, w') →
  derive_agent_id_hex (own_public_key own) = own_agent_id own ∧
  own_list_uuid own = list_uuid ∧ own_policy own = mgr_mode m ∧
  own_topic own = event_store_topic list_uuid (own_agent_id own) ∧
  (∃ w1, anchored m (own_topic own) (own_agent_id own) w1) ∧
  ((∃ w1, (get_kv (own_topic own) CARD_SELF_KEY w1).1 = Ok (Some (own_public_key own))) ∨
   (∃ w1, (put_kv (own_topic own) CARD_SELF_KEY (own_public_key own) CARD_SELF_CONTENT_TYPE w1).1
            = Ok ())).
Proof.
  intros H. apply ensure_own_store_Ok in H as ([Hd Ht]&<-&Hp&Ha&Hc). by split_and!.
Qed.
Context `{XL : !ExternLaws} `{EL : !EncodeLaws}.

(** What is appended is admitted: a transition, approval, consume or
    handoff that the manager reports as appended is in the author's store
    under its content address, and every fold with this author's card, this
    list and genesis, and a roster epoch that includes the author admits it,
    with the payload hash the operation returned. *)
Theorem append_admitted (own : OwnEventStore) (Hhonest : HonestSigner own) (p : ChainedPayload)
    w h w' (gh : string) (rosters : list (gset string)) (roster : gset string) :
  own_bound own → append_payload own p w = (Ok h, w') →
  p_schema p = V2_SCHEMA → p_genesis p = gh →
  p_content_ok p (own_list_uuid own) gh roster →
  rosters !! N.to_nat (p_epoch p) = Some roster → own_agent_id own ∈ roster →
  ∃ record payload,
    sr_key record = p_key p h ∧ published (own_topic own) (sr_key record) (sr_value record) ∧
    h = sha256_hex payload ∧ p_decodes p payload ∧
    admit_event record (own_agent_id own) (own_public_key own) (own_list_uuid own) gh rosters =
      Ok (mk_admitted (own_agent_id own) record h p).
Proof.
  intros Hb H Hs Hg Hc Hr Hin.
  apply append_payload_Ok in H as (Ha&Hl&payload&w1&env&w2&u&Hne&Hd&->&Hsign&Hput).
  apply sign_envelope_verifies in Hsign as (Hsch&Hv&Hck); [|done..].
  apply put_once_Ok in Hput as (value&Henc&Hpub).
  exists {| sr_key := p_key p (sha256_hex payload); sr_value := value |}, payload.
  split_and!; try done. eapply admit_event_complete; try done.
  unfold envelope_decode. simpl. rewrite (envelope_roundtrip _ _ Henc). simpl.
  rewrite Hsch. done.
Qed.
(** ** The gate *)

(** C7 consume-then-execute: the gate says [Proceed] only if, in the first
    fold, the local agent held the claim of the issue and the approval was an
    approve verdict on this issue and its content, unspent, undenied and within
    its time to live; the signed consume record was then published under its
    content address; and the fold of a later read shows that this very record
    is the one that spent the approval. *)
Theorem gate_proceed_safe (m : V2StoreManager) (config : V2GateConfig) (own : OwnEventStore)
    (creator id : string) (now : N) (seed : string) w (a h : string) w' :
  evaluate_and_consume m config own creator id now seed w = (Ok (Proceed a h), w') →
  ∃ input1 w1 out1 issue nonce claim ap consume payload value w2 input2 out2 e,
    (read_fold_input m (own_list_uuid own) creator w = (Ok input1, w1) ∧
     fold_v2 input1 = Ok out1 ∧ fo_issues out1 !! id = Some issue ∧
     is_status issue = StClaimed (own_agent_id own) nonce claim ∧
     fo_approvals out1 !! a = Some ap ∧ aa_event_hash ap = a ∧
     approval_covers id (is_open_event_hash issue) Approve ap = true ∧
     (now ≤ sat_add64 (ae_approved_at (aa_approval ap)) (approval_ttl_secs config))%N ∧
     fo_effective_consumes out1 !! a = None ∧ ¬ content_denied out1 id issue) ∧
    (json_consume payload = Ok consume ∧ h = sha256_hex payload ∧
     ce_actor consume = own_agent_id own ∧ ce_approval_event_hash consume = a ∧
     ce_claim_nonce consume = nonce ∧ ce_claimed_event_hash consume = claim ∧
     published (own_topic own) (consume_key id h) value) ∧
    (read_fold_input m (own_list_uuid own) creator w2 = (Ok input2, w') ∧
     fold_v2 input2 = Ok out2 ∧ fo_effective_consumes out2 !! a = Some e ∧ ec_event_hash e = h).
Proof.
  intros H. apply evaluate_and_consume_Ok in H
    as (input&out&w1&Hread&Hfold&[[(?&_&[]) _]|(c&h'&w2&w3&input2&confirm&Hc&Happ&_&Hr2&Hf2&Hd)]).
  symmetry in Hd. apply confirm_decision_Proceed in Hd as (->&->&e&He&Heh).
  destruct Hc as (issue&Hi&Hs&Hun&Hle).
  apply elem_of_unconsumed in Hun as (issue'&k&Hi'&Hk&Hcov&Hnone&Hdeny).
  rewrite Hi in Hi'. injection Hi' as <-.
  destruct (fold_v2_facts _ _ Hfold) as (rosters&ordered&g&F).
  destruct (facts_approval _ _ _ _ _ _ _ F Hk) as [<- _].
  apply (append_payload_Ok own (PConsume _)) in Happ
    as (Ha&Hl&payload&wa&env&wb&u&Hne&Hdec&->&Hsign&Hput).
  apply put_once_Ok in Hput as (value&Henc&Hpub). simpl in Hdec, Hpub.
  exists input, w1, out, issue, (gc_claim_nonce c), (gc_claim_event_hash c), (gc_approval c),
    (gate_consume own out id seed c), payload, value, w3, input2, confirm, e.
  split; [|split].
  - split_and!; try done. intros (k&d&Hd&Hcd). by rewrite (Hdeny k d Hd) in Hcd.
  - unfold gate_consume in *. destruct (next_chain_link _ _). by split_and!.
  - by split_and!.
Qed.

(** When the gate refuses: it answers [NotClaimWinner], [Denied] or
    [PendingApproval] exactly when the fold of its first read gives the
    reason, and then that read is all it did, so no record was written. *)
Theorem gate_refusal_exact (m : V2StoreManager) (config : V2GateConfig) (own : OwnEventStore)
    (creator id : string) (now : N) (seed : string) w (d : V2GateDecision) w' :
  d ∈ [NotClaimWinner; Denied; PendingApproval] →
  evaluate_and_consume m config own creator id now seed w = (Ok d, w') ↔
  ∃ input out, read_fold_input m (own_list_uuid own) creator w = (Ok input, w') ∧
    fold_v2 input = Ok out ∧ gate_reason config own out id now d.
Proof.
  intros Hin. split.
  - intros H. apply evaluate_and_consume_Ok in H
      as (input&out&w1&Hread&Hfold&[[Hr ->]|(c&h'&w2&w3&input2&confirm&_&_&_&_&_&->)]); [eauto|].
    exfalso. unfold confirm_decision in Hin. repeat case_match; set_solver.
  - intros (input&out&Hread&Hfold&Hr%gate_select_Decided).
    unfold evaluate_and_consume, mbind, M_bind, lift.
    rewrite Hread. cbn. rewrite Hfold. cbn. by rewrite Hr.
Qed.

(** C10 one execution per approval: once two gates re-read the same set of
    records, in whatever order, at most one consume record is told to
    proceed on an approval, and every other one is told to abort in favour of
    it. *)
Theorem gate_single_winner (i1 i2 : FoldInput) (out1 out2 : FoldOutput) (a h1 h2 : string) :
  same_event_set (fi_streams i1) (fi_streams i2) →
  fi_list_uuid i1 = fi_list_uuid i2 → fi_creator i1 = fi_creator i2 →
  fi_limits i1 = fi_limits i2 →
  fold_v2 i1 = Ok out1 → fold_v2 i2 = Ok out2 →
  confirm_decision out1 a h1 = Proceed a h1 →
  confirm_decision out2 a h2 =
    if bool_decide (h2 = h1) then Proceed a h2
    else AbortCompetingConsume a
           (default "" ((λ e, ce_actor (ec_consume e)) <$> fo_effective_consumes out1 !! a)) h1.
Proof.
  intros Hs Hu Hc Hl H1 H2 Hp.
  destruct (fold_v2_facts _ _ H1) as (?&?&?&F1), (fold_v2_facts _ _ H2) as (?&?&?&F2).
  assert (Ok out1 = Ok out2 :> result FoldOutput ListRefusal) as [= ->].
  { rewrite <-H1, <-H2. apply fold_v2_same; first [done|apply F1|apply F2]. }
  apply confirm_decision_Proceed in Hp as (_&_&e&He&<-).
  unfold confirm_decision. rewrite He. simpl. repeat case_bool_decide; congruence.
Qed.

(** ** Stamped events take effect *)

(** C11 a claim built from a fold takes effect: when the issue is open and the
    agent is in the current roster, the record of [build_claim_transition]
    passes admission for the current epoch, extends the author's hash chain and
    the fold order without tripping the lamport cap, and the state machine, run
    over that order, gives the issue to the agent under the derived nonce. *)
Theorem claim_takes_effect (input : FoldInput) (out : FoldOutput) (agent id : string)
    (issue : IssueStateV2) (record : StoreRecord) (h : string) :
  fold_v2 input = Ok out → fo_issues out !! id = Some issue → is_status issue = StOpen →
  agent ∈ fo_current_roster out → sr_key record = event_key id h →
  (fo_max_admitted_lamport out < u64_max)%N →
  let ev := build_claim_transition out (fi_list_uuid input) agent id in
  let adm := mk_admitted agent record h (PTransition ev) in
  ∃ rosters ordered g,
    fold_facts input out rosters ordered g ∧
    check_chained_common (bindings_of record (p_key (PTransition ev) h) (PTransition ev)) agent
      (fi_list_uuid input) (fo_genesis_hash out) rosters = Ok (fo_current_roster out) ∧
    p_content_ok (PTransition ev) (fi_list_uuid input) (fo_genesis_hash out)
      (fo_current_roster out) ∧
    ((∀ chain, admitted_chain (fo_genesis_hash out) ordered agent chain → llen chain < u64_max)%N →
     extends_order (fo_genesis_hash out) ordered adm) ∧
    ∃ nonce, tr_kind ev = TkClaim nonce ∧
      lg_issues (phase2_step (fo_approvals out) g adm) !! id =
        Some (set_status issue (StClaimed agent nonce h) h).
Proof.
  intros Hf Hi Hs Hin Hk Hmax ev adm. destruct (fold_v2_facts _ _ Hf) as (rosters&ordered&g&F).
  exists rosters, ordered, g. pose proof (current_roster_epoch _ _ _ _ _ F) as Hep.
  rewrite (ff_issues _ _ _ _ _ F) in Hi.
  destruct (next_chain_link out agent) as [seq prev] eqn:Hlink.
  assert (Hst : stamped out adm).
  { subst adm ev. unfold stamped, build_claim_transition. simpl. by rewrite Hlink. }
  split_and!; [done| | |by intros Hlen; eapply stamped_extends|].
  - subst ev. unfold build_claim_transition. rewrite Hlink.
    by apply check_chained_common_complete.
  - subst ev. unfold build_claim_transition. rewrite Hlink. by split.
  - subst adm ev. unfold build_claim_transition. rewrite Hlink. simpl. eexists. split; [done|].
    unfold phase2_step. simpl.
    match goal with |- context [apply_transition ?m ?a ?e] =>
      assert (transition_result m a e (<[id := set_status issue
        (StClaimed agent (derive_claim_nonce agent seq
          (sat_add64 (fo_max_admitted_lamport out) 1) id) h) h]> m)) as Ht end.
    { right. exists issue. eexists. split_and!; [done| |done]. simpl. rewrite Hs. constructor. }
    apply apply_transition_iff in Ht. rewrite Ht. simpl. by rewrite lookup_insert_eq.
Qed.

(** A consume built from a fold takes effect: for an approval the gate may
    spend, the record of [gate_consume] passes admission for the current epoch,
    extends the author's hash chain and the fold order, and in the ledger after
    it this record is the one that spent the approval; a gate that confirms
    against that ledger proceeds. *)
Theorem consume_takes_effect (config : V2GateConfig) (own : OwnEventStore) (input : FoldInput)
    (out : FoldOutput) (id seed : string) (now : N) (c : gate_candidate) (record : StoreRecord)
    (h : string) :
  fold_v2 input = Ok out → own_list_uuid own = fi_list_uuid input →
  gate_select config own out id now = Ok (Selected c) →
  own_agent_id own ∈ fo_current_roster out → sr_key record = consume_key id h →
  (fo_max_admitted_lamport out < u64_max)%N →
  let ev := gate_consume own out id seed c in
  let adm := mk_admitted (own_agent_id own) record h (PConsume ev) in
  ∃ rosters ordered g,
    fold_facts input out rosters ordered g ∧
    check_chained_common (bindings_of record (p_key (PConsume ev) h) (PConsume ev))
      (own_agent_id own) (fi_list_uuid input) (fo_genesis_hash out) rosters
      = Ok (fo_current_roster out) ∧
    p_content_ok (PConsume ev) (fi_list_uuid input) (fo_genesis_hash out)
      (fo_current_roster out) ∧
    ((∀ chain, admitted_chain (fo_genesis_hash out) ordered (own_agent_id own) chain →
       llen chain < u64_max)%N → extends_order (fo_genesis_hash out) ordered adm) ∧
    ∀ confirm,
      fo_effective_consumes confirm = lg_effective_consumes (phase2_step (fo_approvals out) g adm) →
      confirm_decision confirm (aa_event_hash (gc_approval c)) h =
        Proceed (aa_event_hash (gc_approval c)) h.
Proof.
  intros Hf Hu Hsel Hin Hk Hmax ev adm. destruct (fold_v2_facts _ _ Hf) as (rosters&ordered&g&F).
  apply gate_select_Selected in Hsel as (issue&Hi&Hs&Hun&_).
  apply elem_of_unconsumed in Hun as (issue'&k&Hi'&Hka&Hcov&Hnone&_).
  rewrite Hi in Hi'. injection Hi' as <-.
  apply approval_covers_true in Hcov as (Hid&Ho&Hv).
  destruct (facts_approval _ _ _ _ _ _ _ F Hka) as [<- _].
  exists rosters, ordered, g. pose proof (current_roster_epoch _ _ _ _ _ F) as Hep.
  rewrite (ff_issues _ _ _ _ _ F) in Hi. rewrite (ff_effective _ _ _ _ _ F) in Hnone.
  destruct (next_chain_link out (own_agent_id own)) as [seq prev] eqn:Hlink.
  assert (Hst : stamped out adm).
  { subst adm ev. unfold stamped, gate_consume. rewrite Hlink. simpl. by rewrite Hlink. }
  split_and!; [done| |apply gate_consume_content|by intros Hlen; eapply stamped_extends|].
  - subst ev. unfold gate_consume. rewrite Hlink. by apply check_chained_common_complete.
  - intros confirm Hcf. unfold confirm_decision. rewrite Hcf.
    assert (lg_effective_consumes (phase2_step (fo_approvals out) g adm)
              !! aa_event_hash (gc_approval c) =
            Some {| ec_event_hash := h; ec_consume := ev |}) as ->.
    { apply phase2_step_effective_iff. left. exists ev. subst adm ev. unfold gate_consume.
      rewrite Hlink. simpl. split_and!; [done..|]. exists (gc_approval c), issue. by split_and!. }
    simpl. by rewrite bool_decide_eq_true_2.
Qed.
End dispatching.

(** ** The theorems on the demo list *)

Module DispatchingDemo.
Import Fixture.
#[local] Opaque key_of.

Lemma read_fold_input_accepted_witness :
  raw_budget default_limits (fi_streams claimed_input) = Ok () ∧
  NoDup (as_owner <$> fi_streams claimed_input).
Proof.
  destruct (read_fold_input_accepted demo_manager "u" alice claimed_world claimed_input
              claimed_world claimed_read) as (Hb&_&_&_&Hn&_); [reflexivity|].
  exact (conj Hb Hn).
Defined.

(** Writing a different envelope under the key of Bob's claim. *)
Lemma put_once_never_overwrites_witness :
  put_once bob_topic (sr_key claim_record) (env "B" CONSUME_CONTEXT_V2 "d") claimed_world =
    (Err (ImmutableConflict bob_topic (sr_key claim_record)), claimed_world).
Proof.
  apply (put_once_never_overwrites bob_topic (sr_key claim_record)
           (env "B" CONSUME_CONTEXT_V2 "d") claimed_world claimed_world "c" "d");
    vm_compute; reflexivity.
Defined.

Lemma bob_store_opens :
  ensure_own_store demo_manager "u" claimed_world = (Ok bob_store, claimed_world).
Proof. vm_compute. reflexivity. Qed.

Lemma ensure_own_store_bound_witness :
  derive_agent_id_hex (own_public_key bob_store) = bob ∧
  own_topic bob_store = event_store_topic "u" bob.
Proof.
  destruct (ensure_own_store_bound demo_manager "u" claimed_world bob_store claimed_world
              bob_store_opens) as (Hd&_&_&Ht&_). split; assumption.
Defined.

Lemma bob_honest : HonestSigner bob_store.
Proof.
  intros ctx payload w r w' [= <- <-] Hid. apply (inj hex_encode) in Hid. simpl in *. rewrite Hid.
  split; [reflexivity|]. split; [vm_compute; reflexivity|].
  exists (pad 3308 "B"). split; vm_compute; reflexivity.
Qed.

Lemma bob_bound : own_bound bob_store.
Proof. split; vm_compute; reflexivity. Qed.

Lemma consume_appends :
  append_payload bob_store (PConsume consume) claimed_world = (Ok (hx "d"), consumed_world).
Proof. vm_compute. reflexivity. Qed.

Lemma append_admitted_witness :
  ∃ record payload,
    sr_key record = consume_key "i" (hx "d") ∧
    published bob_topic (sr_key record) (sr_value record) ∧
    hx "d" = sha256_hex payload ∧ json_consume payload = Ok consume ∧
    admit_event record bob (key_of "B") "u" (hx "g") [{[alice]}; {[alice; bob]}] =
      Ok (mk_admitted bob record (hx "d") (PConsume consume)).
Proof.
  apply (append_admitted bob_store bob_honest (PConsume consume) claimed_world (hx "d")
           consumed_world (hx "g") [{[alice]}; {[alice; bob]}] {[alice; bob]} bob_bound
           consume_appends); [reflexivity|reflexivity|split; reflexivity|reflexivity|].
  apply elem_of_union. right. by apply elem_of_singleton.
Defined.

Definition gate_config : V2GateConfig := default_gate_config.

Lemma gate_selects :
  gate_select gate_config bob_store claimed_out "i" 3000 =
    Ok (Selected {| gc_approval := {| aa_event_hash := hx "a"; aa_approval := approval |};
                    gc_claim_nonce := "n"; gc_claim_event_hash := hx "c" |}).
Proof. vm_compute. reflexivity. Qed.

Lemma gate_builds :
  gate_consume bob_store claimed_out "i" "seed"
    {| gc_approval := {| aa_event_hash := hx "a"; aa_approval := approval |};
       gc_claim_nonce := "n"; gc_claim_event_hash := hx "c" |} = consume.
Proof. vm_compute. reflexivity. Qed.

Lemma gate_confirms : confirm_decision consumed_out (hx "a") (hx "d") = Proceed (hx "a") (hx "d").
Proof. vm_compute. reflexivity. Qed.

Lemma gate_run :
  evaluate_and_consume demo_manager gate_config bob_store alice "i" 3000 "seed" claimed_world =
    (Ok (Proceed (hx "a") (hx "d")), consumed_world).
Proof.
  unfold evaluate_and_consume, mbind, M_bind, lift.
  change (own_list_uuid bob_store) with "u".
  rewrite claimed_read, claimed_ok. cbn [map_err]. rewrite gate_selects, gate_builds.
  change (append_consume bob_store consume) with (append_payload bob_store (PConsume consume)).
  rewrite consume_appends. change (settle_sleep gate_config consumed_world) with (Ok () : result unit V2StoreError, consumed_world).
  cbv beta iota. rewrite consumed_read, consumed_ok. cbn [map_err gc_approval aa_event_hash].
  by rewrite gate_confirms.
Qed.

Lemma gate_proceed_safe_witness :
  ∃ w2 input2 out2 e,
    read_fold_input demo_manager "u" alice w2 = (Ok input2, consumed_world) ∧
    fold_v2 input2 = Ok out2 ∧ fo_effective_consumes out2 !! hx "a" = Some e ∧
    ec_event_hash e = hx "d".
Proof.
  destruct (gate_proceed_safe demo_manager gate_config bob_store alice "i" 3000 "seed"
              claimed_world (hx "a") (hx "d") consumed_world gate_run)
    as (_&_&_&_&_&_&_&_&_&_&w2&input2&out2&e&_&_&H).
  exists w2, input2, out2, e. exact H.
Defined.

(** The same gate after the approval has expired. *)
Lemma gate_refusal_exact_witness :
  evaluate_and_consume demo_manager gate_config bob_store alice "i" 5000 "seed" claimed_world =
    (Ok PendingApproval, claimed_world).
Proof.
  apply (gate_refusal_exact demo_manager gate_config bob_store alice "i" 5000 "seed"
           claimed_world PendingApproval claimed_world).
  - do 2 (apply elem_of_cons; right). by apply elem_of_cons; left.
  - exists claimed_input, claimed_out. split; [exact claimed_read|]. split; [exact claimed_ok|].
    apply gate_select_Decided. vm_compute. reflexivity.
Defined.

(** Bob's record won; a gate with another record, reading the two streams in
    the other order, aborts. *)
Definition swapped_input : FoldInput :=
  list_input [stored_bob [claim_record; consume_record]; stored_alice].

Lemma swapped_same : same_event_set (fi_streams consumed_input) (fi_streams swapped_input).
Proof. apply same_event_set_perm. apply perm_swap. Qed.

Lemma swapped_ok : fold_v2 swapped_input = Ok consumed_out.
Proof.
  rewrite <-consumed_ok. symmetry.
  apply fold_v2_same; [exact swapped_same|reflexivity..| |]; vm_compute; reflexivity.
Qed.

Lemma gate_single_winner_witness :
  confirm_decision consumed_out (hx "a") "other" = AbortCompetingConsume (hx "a") bob (hx "d").
Proof.
  exact (gate_single_winner consumed_input swapped_input consumed_out consumed_out (hx "a")
           (hx "d") "other" swapped_same eq_refl eq_refl eq_refl consumed_ok swapped_ok
           gate_confirms).
Defined.

(** Bob claims the open issue of the list as Alice left it. *)
Lemma claim_takes_effect_witness :
  ∃ rosters ordered g nonce issue,
    fold_facts solo_input solo_out rosters ordered g ∧
    lg_issues (phase2_step (fo_approvals solo_out) g
      (mk_admitted bob (rec (event_key "i" (hx "c")) "c") (hx "c")
         (PTransition (build_claim_transition solo_out "u" bob "i")))) !! "i" =
      Some (set_status issue (StClaimed bob nonce (hx "c")) (hx "c")).
Proof.
  assert (Hi : ∃ issue, fo_issues solo_out !! "i" = Some issue ∧ is_status issue = StOpen)
    by (eexists; split; vm_compute; reflexivity).
  destruct Hi as (issue&Hi&Hs).
  destruct (claim_takes_effect solo_input solo_out bob "i" issue
              (rec (event_key "i" (hx "c")) "c") (hx "c") solo_ok Hi Hs)
    as (rosters&ordered&g&F&_&_&_&nonce&_&Hc).
  - apply (bool_decide_unpack _). vm_compute. exact I.
  - reflexivity.
  - vm_compute. reflexivity.
  - exists rosters, ordered, g, nonce, issue. split; assumption.
Defined.

Lemma consume_takes_effect_witness :
  ∃ rosters ordered g,
    fold_facts claimed_input claimed_out rosters ordered g ∧
    ∀ confirm,
      fo_effective_consumes confirm = lg_effective_consumes
        (phase2_step (fo_approvals claimed_out) g
           (mk_admitted bob consume_record (hx "d") (PConsume
              (gate_consume bob_store claimed_out "i" "seed"
                 {| gc_approval := {| aa_event_hash := hx "a"; aa_approval := approval |};
                    gc_claim_nonce := "n"; gc_claim_event_hash := hx "c" |})))) →
      confirm_decision confirm (hx "a") (hx "d") = Proceed (hx "a") (hx "d").
Proof.
  destruct (consume_takes_effect gate_config bob_store claimed_input claimed_out "i" "seed" 3000
              {| gc_approval := {| aa_event_hash := hx "a"; aa_approval := approval |};
                 gc_claim_nonce := "n"; gc_claim_event_hash := hx "c" |}
              consume_record (hx "d") claimed_ok eq_refl gate_selects)
    as (rosters&ordered&g&F&_&_&_&Hc).
  - apply (bool_decide_unpack _). vm_compute. exact I.
  - reflexivity.
  - vm_compute. reflexivity.
  - exists rosters, ordered, g. split; [exact F|exact Hc].
Defined.
End DispatchingDemo.
