(* ===== verification/Tracking.v ===== *)
(** * What the tracker's operations achieve

    A confirmed claim is the fold's; a handoff completes the issue; a requeue
    reopens it; a created issue is open under its title, and whether the list
    can still be shown depends on that title. *)

From S2P Require Import Prelude Wire Identity Core FoldTypes Canonical Admission RosterChain Chain.
From S2P Require Import LamportCap StateMachine Fold FoldRun Store Gate Claims Approvals Tracker.
From S2P Require Import Fixture Guarantees Dispatching.
Import Reconcile.

Section tracking.
Context `{X : Extern} `{D : Daemon} `{E : Encoders} `{J : Json} `{C : Chrono} `{V : ApprovalCodec}
  `{H : !Host} `{XL : !ExternLaws} `{EL : !EncodeLaws}.

(** ** The effect of an event built from a fold *)

(** The record of [p] by [agent] passes admission for the current epoch. *)
Definition admissible (out : FoldOutput) (list_uuid agent : string) (rosters : list (gset string))
    (record : StoreRecord) (p : ChainedPayload) (h : string) : Prop :=
  check_chained_common (bindings_of record (p_key p h) p) agent list_uuid (fo_genesis_hash out)
    rosters = Ok (fo_current_roster out) ∧
  p_content_ok p list_uuid (fo_genesis_hash out) (fo_current_roster out).

(** The author's chain is short of the largest sequence number. *)
Definition chain_room (gh : string) (ordered : list AdmittedEvent) (agent : string) (n : N) : Prop :=
  ∀ chain, admitted_chain gh ordered agent chain → (llen chain + n ≤ u64_max)%N.

Lemma admissible_current input out rosters ordered g p record h agent :
  fold_facts input out rosters ordered g → p_actor p = agent → p_schema p = V2_SCHEMA →
  p_list_uuid p = fi_list_uuid input → p_genesis p = fo_genesis_hash out →
  p_epoch p = fo_latest_roster_epoch out → agent ∈ fo_current_roster out →
  sr_key record = p_key p h →
  p_content_ok p (fi_list_uuid input) (fo_genesis_hash out) (fo_current_roster out) →
  admissible out (fi_list_uuid input) agent rosters record p h.
Proof.
  intros F Ha Hs Hu Hg He Hin Hk Hc. split; [|done].
  apply check_chained_common_complete; try done. rewrite He. by eapply current_roster_epoch.
Qed.

Lemma transition_fields t out id kind :
  tr_issue_id (transition t out id kind) = id ∧ tr_actor (transition t out id kind) = vt_agent_id t ∧
  tr_kind (transition t out id kind) = kind.
Proof. unfold transition. by destruct (next_chain_link _ _). Qed.

(** [tracker.transition] for any kind that the state machine accepts. *)
Lemma transition_effect t input out id kind record h :
  fold_v2 input = Ok out → lr_list_uuid (vt_list_ref t) = fi_list_uuid input →
  vt_agent_id t ∈ fo_current_roster out → sr_key record = event_key id h →
  (fo_max_admitted_lamport out < u64_max)%N →
  let ev := transition t out id kind in
  let adm := mk_admitted (vt_agent_id t) record h (PTransition ev) in
  p_content_ok (PTransition ev) (fi_list_uuid input) (fo_genesis_hash out)
    (fo_current_roster out) →
  ∃ rosters ordered g,
    fold_facts input out rosters ordered g ∧
    admissible out (fi_list_uuid input) (vt_agent_id t) rosters record (PTransition ev) h ∧
    (chain_room (fo_genesis_hash out) ordered (vt_agent_id t) 1 →
     extends_order (fo_genesis_hash out) ordered adm) ∧
    ∀ issues', transition_result (fo_issues out) adm ev issues' →
      lg_issues (phase2_step (fo_approvals out) g adm) = issues'.
Proof.
  intros Hf Hu Hin Hk Hmax ev adm Hc. destruct (fold_v2_facts _ _ Hf) as (rosters&ordered&g&F).
  exists rosters, ordered, g. split; [done|]. subst adm ev. unfold transition in *.
  destruct (next_chain_link out (vt_agent_id t)) as [seq prev] eqn:Hlink. split_and!.
  - by apply (admissible_current input out rosters ordered g).
  - intros Hroom. apply (stamped_extends input out rosters _ g); [done| |done|].
    + unfold stamped. simpl. by rewrite Hlink.
    + intros chain Hch. specialize (Hroom chain Hch). lia.
  - intros issues' Ht. rewrite (ff_issues _ _ _ _ _ F) in Ht. apply apply_transition_iff in Ht.
    unfold phase2_step. simpl. by rewrite Ht.
Qed.

(** ** Appended records *)

(** The record of [p] is in the author's store, under its content address. *)
Definition appended (own : OwnEventStore) (p : ChainedPayload) (h : string) : Prop :=
  ∃ payload value, published (own_topic own) (p_key p h) value ∧
    h = sha256_hex payload ∧ p_decodes p payload ∧
    p_actor p = own_agent_id own ∧ p_list_uuid p = own_list_uuid own.

Lemma append_appended own p w h w' : append_payload own p w = (Ok h, w') → appended own p h.
Proof.
  intros (Ha&Hl&payload&w1&env&w2&u&_&Hd&Hh&_&Hput)%append_payload_Ok.
  apply put_once_Ok in Hput as (value&_&Hp). subst h. exists payload, value. by split_and!.
Qed.

(** ** Handoff *)

Lemma v2_handoff_Ok t claim ho s u s' :
  cache_ok t s.1 → v2_handoff t claim ho s = (Ok u, s') →
  ∃ own out id n c h1 h2 issue w w',
    cl_issue_id claim = Some id ∧ viewed t out w w' ∧
    own_list_uuid own = lr_list_uuid (vt_list_ref t) ∧ own_agent_id own = vt_agent_id t ∧
    fo_issues out !! id = Some issue ∧ is_status issue = StClaimed (vt_agent_id t) n c ∧
    appended own (PHandoff (handoff_event t out id (n, c) ho)) h1 ∧
    appended own (PTransition (complete_event t out id (n, c) h1)) h2.
Proof.
  intros Hc Hrun. unfold v2_handoff in Hrun.
  apply tbind_Ok in Hrun as ([[[own out] id] [n c]]&s1&Hv&Hrun).
  apply held_view_Ok in Hv as (_&Hid&_&Hu&Ha&(w&w'&Hv)&issue&Hi&Hst); [|done].
  apply tbind_Ok in Hrun as (h1&s2&[H1 _]%store_Ok&Hrun).
  apply tbind_Ok in Hrun as (h2&s3&[H2 _]%store_Ok&_).
  apply (append_appended own (PHandoff _)) in H1. apply (append_appended own (PTransition _)) in H2.
  exists own, out, id, n, c, h1, h2, issue, w, w'. by split_and!.
Qed.

Section handoff.
Context (t : V2Tracker) (input : FoldInput) (out : FoldOutput) (id n c h1 h2 : string)
  (ho : Handoff) (issue : IssueStateV2) (r1 r2 : StoreRecord).

Let ev1 := handoff_event t out id (n, c) ho.
Let ev2 := complete_event t out id (n, c) h1.
Let adm1 := mk_admitted (vt_agent_id t) r1 h1 (PHandoff ev1).
Let adm2 := mk_admitted (vt_agent_id t) r2 h2 (PTransition ev2).

Lemma handoff_extends rosters ordered g :
  fold_facts input out rosters ordered g →
  (fo_max_admitted_lamport out + 2 ≤ u64_max)%N →
  chain_room (fo_genesis_hash out) ordered (vt_agent_id t) 2 →
  extends_order (fo_genesis_hash out) ordered adm1 ∧
  extends_order (fo_genesis_hash out) (ordered ++ [adm1]) adm2.
Proof.
  intros F Hmax Hroom. rewrite (ff_max_lamport _ _ _ _ _ F) in Hmax.
  destruct (ff_chain _ _ _ _ _ F (vt_agent_id t)) as (l&Hl&Hnext).
  specialize (Hroom l Hl). rewrite wrap_add64_small in Hnext by lia.
  assert (ad_lamport adm1 = max_lamport ordered + 1 ∧ ad_author_seq adm1 = llen l + 1 ∧
    ad_lamport adm2 = max_lamport ordered + 2 ∧ ad_author_seq adm2 = llen l + 2)%N
    as (Hl1&Hs1&Hl2&Hs2).
  { subst adm1 adm2 ev1 ev2. unfold handoff_event, complete_event.
    rewrite Hnext, (ff_max_lamport _ _ _ _ _ F). simpl. unfold sat_add64. lia. }
  assert (ad_prev_own_event_hash adm1 = chain_tip (fo_genesis_hash out) l) as Hp1.
  { subst adm1 ev1. unfold handoff_event. by rewrite Hnext. }
  assert (extends_order (fo_genesis_hash out) ordered adm1) as H1.
  { apply (extends_intro _ _ _ l); [apply F|apply F|done|lia| |done..].
    rewrite Hl1. unfold sat_add64, LAMPORT_MAX_SKEW. lia. }
  split; [done|].
  assert (max_lamport (ordered ++ [adm1]) = max_lamport ordered + 1)%N as Hm.
  { rewrite max_lamport_snoc. lia. }
  apply (extends_intro _ _ _ (l ++ [adm1])); [apply H1|apply H1| |lia| | |].
  - change (ad_author adm2) with (ad_author adm1). apply admitted_chain_snoc; [done|].
    by apply linked_snoc; [apply Hl| |].
  - rewrite Hm, Hl2. unfold sat_add64, LAMPORT_MAX_SKEW. lia.
  - rewrite Hs2. unfold llen. rewrite length_app. simpl. lia.
  - unfold chain_tip. rewrite last_snoc. done.
Qed.

Lemma handoff_ledger rosters ordered g :
  fold_facts input out rosters ordered g →
  fo_issues out !! id = Some issue → is_status issue = StClaimed (vt_agent_id t) n c →
  let g' := phase2 (fo_approvals out) g [adm1; adm2] in
  lg_issues g' !! id = Some (set_status issue (StDone (vt_agent_id t) h2) h2) ∧
  lg_handoffs g' !! id = Some (default [] (fo_handoffs out !! id) ++
                                [{| hr_event_hash := h1; hr_handoff := ev1 |}]).
Proof.
  intros F Hi Hs. rewrite (ff_issues _ _ _ _ _ F) in Hi. rewrite (ff_handoffs _ _ _ _ _ F).
  assert (he_issue_id ev1 = id ∧ he_actor ev1 = vt_agent_id t ∧ he_claim_nonce ev1 = n ∧
    he_claimed_event_hash ev1 = c) as (Hid&Ha&Hn&Hc).
  { subst ev1. unfold handoff_event. by destruct (next_chain_link _ _). }
  assert (handoff_fence (lg_issues g) ev1 = Ok ()) as Hf.
  { apply handoff_fence_Ok. exists issue. by rewrite Hid, Ha, Hn, Hc. }
  assert (apply_transition (lg_issues g) adm2 ev2 =
    Ok (<[id := set_status issue (StDone (vt_agent_id t) h2) h2]> (lg_issues g))) as Ht.
  { apply apply_transition_iff. right. exists issue. eexists. split_and!; [done| |done].
    rewrite Hs. constructor. }
  cbn [phase2 foldl]. unfold phase2_step at 2 4. cbn [ad_payload adm1 mk_admitted]. rewrite Hf.
  unfold phase2_step. cbn [ad_payload adm2 mk_admitted lg_issues]. rewrite Ht.
  cbn [lg_issues lg_handoffs]. rewrite lookup_insert_eq, Hid, lookup_insert_eq. done.
Qed.

Lemma handoff_admissible rosters ordered g :
  fold_facts input out rosters ordered g → lr_list_uuid (vt_list_ref t) = fi_list_uuid input →
  vt_agent_id t ∈ fo_current_roster out →
  sr_key r1 = handoff_key id h1 → sr_key r2 = event_key id h2 →
  admissible out (fi_list_uuid input) (vt_agent_id t) rosters r1 (PHandoff ev1) h1 ∧
  admissible out (fi_list_uuid input) (vt_agent_id t) rosters r2 (PTransition ev2) h2.
Proof.
  intros F Hu Hin Hk1 Hk2. split.
  - subst ev1. unfold handoff_event. destruct (next_chain_link _ _).
    by apply (admissible_current input out rosters ordered g).
  - by apply (admissible_current input out rosters ordered g).
Qed.
End handoff.

(** The records of a handoff and of the completion after it are admitted,
    extend the author's chain, and complete the issue with the handoff on
    record. *)
Definition completes (t : V2Tracker) (input : FoldInput) (out : FoldOutput) (id n c : string)
    (ho : Handoff) (issue : IssueStateV2) (h1 h2 : string) : Prop :=
  ∃ rosters ordered g, fold_facts input out rosters ordered g ∧
  ∀ r1 r2, sr_key r1 = handoff_key id h1 → sr_key r2 = event_key id h2 →
  let p1 := PHandoff (handoff_event t out id (n, c) ho) in
  let p2 := PTransition (complete_event t out id (n, c) h1) in
  let adm1 := mk_admitted (vt_agent_id t) r1 h1 p1 in
  let adm2 := mk_admitted (vt_agent_id t) r2 h2 p2 in
  let g' := phase2 (fo_approvals out) g [adm1; adm2] in
  (vt_agent_id t ∈ fo_current_roster out →
    admissible out (fi_list_uuid input) (vt_agent_id t) rosters r1 p1 h1 ∧
    admissible out (fi_list_uuid input) (vt_agent_id t) rosters r2 p2 h2) ∧
  ((fo_max_admitted_lamport out + 2 ≤ u64_max)%N →
   chain_room (fo_genesis_hash out) ordered (vt_agent_id t) 2 →
    extends_order (fo_genesis_hash out) ordered adm1 ∧
    extends_order (fo_genesis_hash out) (ordered ++ [adm1]) adm2) ∧
  lg_issues g' !! id = Some (set_status issue (StDone (vt_agent_id t) h2) h2) ∧
  lg_handoffs g' !! id = Some (default [] (fo_handoffs out !! id) ++
    [{| hr_event_hash := h1; hr_handoff := handoff_event t out id (n, c) ho |}]).

(** A handoff that the tracker reports as done completes the issue: the
    agent held the claim in the fold it read, both records are in its store,
    and together, in chain order, they are admitted, extend the author's hash
    chain and the fold order, and leave the issue done, with the handoff last
    in its ledger. *)
Theorem handoff_completes (t : V2Tracker) (claim : Claim) (ho : Handoff) s u s' :
  cache_ok t s.1 → v2_handoff t claim ho s = (Ok u, s') →
  ∃ own input out id n c issue h1 h2 w w',
    cl_issue_id claim = Some id ∧ own_agent_id own = vt_agent_id t ∧
    read_fold_input (vt_manager t) (lr_list_uuid (vt_list_ref t)) (lr_creator (vt_list_ref t)) w
      = (Ok input, w') ∧ fold_v2 input = Ok out ∧
    fo_issues out !! id = Some issue ∧ is_status issue = StClaimed (vt_agent_id t) n c ∧
    appended own (PHandoff (handoff_event t out id (n, c) ho)) h1 ∧
    appended own (PTransition (complete_event t out id (n, c) h1)) h2 ∧
    completes t input out id n c ho issue h1 h2.
Proof.
  intros Hc (own&out&id&n&c&h1&h2&issue&w&w'&Hid&(input&Hr&Hf)&Hu&Ha&Hi&Hs&H1&H2)%v2_handoff_Ok;
    [|done].
  exists own, input, out, id, n, c, issue, h1, h2, w, w'. split_and!; try done.
  destruct (fold_v2_facts _ _ Hf) as (rosters&ordered&g&F). exists rosters, ordered, g.
  split; [done|]. intros r1 r2 Hk1 Hk2. apply read_fold_input_Ok in Hr as (Hlu&_).
  cbv zeta. split; [intros Hin; by eapply handoff_admissible|].
  split; [by eapply handoff_extends|by eapply handoff_ledger].
Qed.

(** ** Claim *)

(** Steps of a run whose result is known. *)
Lemma store_run {A} (c : M A) ts (w : world) a w' :
  c w = (Ok a, w') → store c (ts, w) = (Ok a, (ts, w')).
Proof. intros Hc. unfold store, attempt, mbind, TM_bind. cbn [snd fst]. by rewrite Hc. Qed.

Lemma bind_run {A B} (c : TM A) (f : A → TM B) s a s1 :
  c s = (Ok a, s1) → (c ≫= f) s = f a s1.
Proof. intros Hc. unfold mbind, TM_bind. by rewrite Hc. Qed.

(** C15 a claim the tracker returns is the list's.  The run read the list
    (own store, then fold), found the issue open, appended the claim event it
    built from that fold to the agent's own store, and then read the list
    again, from the world the append left: that second fold shows the issue
    claimed by this agent with this very record, and so does the fold of any
    other reader that is given the records it read. *)
Theorem claim_confirmed (t : V2Tracker) (id agent : string) s claim s' :
  cache_ok t s.1 → v2_claim t id agent s = (Ok claim, s') →
  agent = vt_agent_id t ∧ cl_issue_id claim = Some id ∧ cl_by claim = agent ∧
  ∃ own s1 out s2 st h w3 confirm s4 st' n,
    (* the first read *)
    v2_own t s = (Ok own, s1) ∧ own_agent_id own = agent ∧
    fold_view t s1 = (Ok out, s2) ∧
    fo_issues out !! id = Some st ∧ is_status st = StOpen ∧
    (* the append *)
    append_transition own (build_claim_transition out (lr_list_uuid (vt_list_ref t)) agent id)
      s2.2 = (Ok h, w3) ∧
    appended own (PTransition (build_claim_transition out (lr_list_uuid (vt_list_ref t)) agent id))
      h ∧
    (* the confirming read *)
    fold_view t (s2.1, w3) = (Ok confirm, s4) ∧
    fo_issues confirm !! id = Some st' ∧ is_status st' = StClaimed agent n h ∧
    ∃ input w w',
      read_fold_input (vt_manager t) (lr_list_uuid (vt_list_ref t)) (lr_creator (vt_list_ref t)) w
        = (Ok input, w') ∧ fold_v2 input = Ok confirm ∧
      ∀ input' out', same_event_set (fi_streams input) (fi_streams input') →
        fi_list_uuid input' = lr_list_uuid (vt_list_ref t) →
        fi_creator input' = lr_creator (vt_list_ref t) → fi_limits input' = fi_limits input →
        fold_v2 input' = Ok out' →
        ∃ st2, fo_issues out' !! id = Some st2 ∧ is_status st2 = StClaimed agent n h.
Proof.
  intros Hc Hrun. unfold v2_claim in Hrun. apply tbind_Ok in Hrun as (?&s1&Hl&Hrun).
  unfold require_local_agent in Hl. case_bool_decide as Hby; [|done]. apply tmret_Ok in Hl as [_ <-].
  apply tbind_Ok in Hrun as (own&s2&Hown&Hrun). pose proof (v2_own_Ok _ _ _ _ Hc Hown) as (_&_&_&Ha).
  apply tbind_Ok in Hrun as (out&s3&Hview&Hrun).
  apply tbind_Ok in Hrun as (st&s4&[Hi <-]%require_issue_Ok&Hrun).
  case_bool_decide as Hop; [done|].
  apply tbind_Ok in Hrun as (h&s5&[Happ Hs5]%store_Ok&Hrun).
  pose proof (append_appended own (PTransition _) _ _ _ Happ) as Hin.
  apply tbind_Ok in Hrun as (confirm&s6&Hconf&Hrun).
  destruct (fold_view_Ok _ _ _ _ Hconf) as [(w&w'&input&Hr&Hf) _].
  destruct (fo_issues confirm !! id) as [st'|] eqn:Hi'; [|done].
  destruct (is_status st') as [|who n ch|? ? ? ? ?|? ?] eqn:Hst'; try done.
  case_bool_decide as Hw; [|done]. case_bool_decide as Hh; [|done]. simpl in Hrun. t_inv.
  split_and!; [done|done|done|].
  exists own, s2, out, s3, st, h, s5.2, confirm, s6, st', n. split_and!; try done.
  { by rewrite <-Hs5, <-surjective_pairing. }
  exists input, w, w'. split_and!; [done..|].
  intros input' out' Hsame Hu' Hc' Hl' Hf'. apply read_fold_input_Ok in Hr as (Hu&Hcr&_).
  destruct (fold_v2_facts _ _ Hf) as (?&?&?&F1), (fold_v2_facts _ _ Hf') as (?&?&?&F2).
  assert (Ok confirm = Ok out' :> result FoldOutput ListRefusal) as [= <-].
  { rewrite <-Hf, <-Hf'. apply fold_v2_same; try done; [congruence..| |]; [apply F1|apply F2]. }
  by exists st'.
Qed.

(** ** Requeue *)

(** [serde_json] reads back the approvals it writes. *)
Definition ApprovalPayloadRoundtrip : Prop := ∀ a b,
  enc_approval_payload a = Ok b → b ≠ "" ∧ json_approval_payload b = Ok a.

Lemma requeue_content own t out id issue who n c b payload env w w' now :
  HonestSigner own → ApprovalPayloadRoundtrip → own_bound own → own_agent_id own = vt_agent_id t →
  is_status issue = StBlocked who n c b AwaitingApproval →
  enc_approval_payload (requeue_approval t out id b n now) = Ok payload →
  sign_approval_payload own payload w = (Ok env, w') →
  vt_agent_id t ∈ fo_current_roster out →
  let j := {| rj_block_event_hash := b; rj_claim_nonce := n;
              rj_approval_event_hash := sha256_hex payload;
              rj_approval_payload_sha256 := sha256_hex payload; rj_approver := vt_agent_id t;
              rj_approval := env |} in
  p_content_ok (PTransition (transition t out id (TkRequeue j))) (lr_list_uuid (vt_list_ref t))
    (fo_genesis_hash out) (fo_current_roster out).
Proof.
  intros Hh Hrt Hb Ha Hs He Hsign Hin j. destruct (Hrt _ _ He) as [Hne Hj].
  apply sign_envelope_verifies in Hsign as (_&Hv&Hk); [|done..].
  assert (env_signer_agent_id env = vt_agent_id t) as Hsig.
  { unfold check_envelope_key in Hk. ok_inv. guards. congruence. }
  unfold transition. destruct (next_chain_link _ _). split; [done|].
  unfold check_requeue. simpl. rewrite Hv. simpl. rewrite !bool_decide_eq_false_2 by (by intros []).
  rewrite Hj. simpl. rewrite !bool_decide_eq_false_2 by (by intros []).
  done.
Qed.

(** An operator's requeue reopens the issue: with an own store that is
    bound and whose daemon signs for it, a requeue that the tracker reports as
    done found the issue blocked for approval and published a record that
    carries the agent's own signed approval of that very block; that record is
    admitted while the agent is in the roster, extends the author's chain and
    the fold order, and makes the issue open again. *)
Theorem requeue_reopens (t : V2Tracker) (own : OwnEventStore) (Hhonest : HonestSigner own)
    (id : string) (reason : ReleaseReason) s u s' :
  ApprovalPayloadRoundtrip → ts_own s.1 = Some own → cache_ok t s.1 →
  requeue_blocked t id reason s = (Ok u, s') →
  ∃ input out w w' issue who n c b j h,
    read_fold_input (vt_manager t) (lr_list_uuid (vt_list_ref t)) (lr_creator (vt_list_ref t)) w
      = (Ok input, w') ∧ fold_v2 input = Ok out ∧
    fo_issues out !! id = Some issue ∧ is_status issue = StBlocked who n c b AwaitingApproval ∧
    appended own (PTransition (transition t out id (TkRequeue j))) h ∧
    (vt_agent_id t ∈ fo_current_roster out → (fo_max_admitted_lamport out < u64_max)%N →
     ∀ record, sr_key record = event_key id h →
     let p := PTransition (transition t out id (TkRequeue j)) in
     let adm := mk_admitted (vt_agent_id t) record h p in
     ∃ rosters ordered g, fold_facts input out rosters ordered g ∧
       admissible out (fi_list_uuid input) (vt_agent_id t) rosters record p h ∧
       (chain_room (fo_genesis_hash out) ordered (vt_agent_id t) 1 →
        extends_order (fo_genesis_hash out) ordered adm) ∧
       lg_issues (phase2_step (fo_approvals out) g adm) !! id = Some (set_status issue StOpen h)).
Proof.
  intros Hrt Hcache Hc Hrun. destruct (Hc own Hcache) as (Hb&_&Ha).
  unfold requeue_blocked in Hrun. apply tbind_Ok in Hrun as (own'&s1&Hown&Hrun).
  assert (own' = own) as ->.
  { unfold v2_own in Hown. apply tbind_Ok in Hown as (st&?&[-> ->]%get_state_Ok&Hown).
    rewrite Hcache in Hown. by apply tmret_Ok in Hown as [<- _]. }
  apply tbind_Ok in Hrun as (out&s2&[(w&w'&input&Hr&Hf) _]%fold_view_Ok&Hrun).
  apply tbind_Ok in Hrun as (issue&s3&[Hi _]%require_issue_Ok&Hrun).
  destruct (is_status issue) as [| |who n c b br|] eqn:Hs; try done.
  case_bool_decide as Hbr; [done|]. subst br.
  apply tbind_Ok in Hrun as (now&s4&_&Hrun). apply tbind_Ok in Hrun as (payload&s5&He&Hrun).
  destruct (enc_approval_payload _) as [p|] eqn:Henc; [|done]. apply tmret_Ok in He as [<- <-].
  apply tbind_Ok in Hrun as (env&s6&[Hsign _]%store_Ok&Hrun).
  apply tbind_Ok in Hrun as (h&s7&[Happ _]%store_Ok&_).
  apply (append_appended own (PTransition _)) in Happ.
  apply read_fold_input_Ok in Hr as Hu. destruct Hu as (Hu&_).
  exists input, out, w, w', issue, who, n, c, b. do 2 eexists. split_and!; [done..|exact Happ|].
  intros Hin Hmax record Hk. cbv zeta.
  edestruct (transition_effect t input out id) as (rosters&ordered&g&F&Hadm&Hext&Heff);
    [done|done|done|exact Hk|done|rewrite Hu; by eapply requeue_content|].
  exists rosters, ordered, g. split_and!; [done|done|done|].
  match type of Heff with context [mk_admitted _ _ _ (PTransition (transition _ _ _ ?k))] =>
    destruct (transition_fields t out id k) as (Hti&Hta&Htk) end.
  rewrite (Heff (<[id := set_status issue StOpen h]> (fo_issues out))); [apply lookup_insert_eq|].
  right. exists issue, StOpen. rewrite Hti, Hta, Htk, Hs. split_and!; [done|constructor|done].
Qed.

(** ** Creation *)

(** An issue whose title is blank fails the whole listing. *)
Lemma unlistable reader a c b id st :
  fold_view reader a = (Ok c, b) → fo_issues c !! id = Some st → is_blank (is_title st) = true →
  ¬ ∃ listed b', list_issues reader a = (Ok listed, b').
Proof.
  intros Hv Hi Hb. rewrite (list_issues_projectable _ _ _ _ Hv). intros Hall.
  destruct (Hall _ _ Hi) as (_&?&_). congruence.
Qed.

Lemma blank_i x : is_blank ("i" +:+ x) = false.
Proof.
  apply bool_decide_eq_false_2. unfold trim_start.
  rewrite trim_start_fuel_stop; [done|]. by destruct x as [|b [|c x]].
Qed.

(** C16 creating an issue publishes it before its title is looked at.  Take a
    run of [create_issue] whose environment lets every step through: the own
    store, the first fold, the clock, the append of the opening event, the
    display, and the second fold, which shows the issue under its title.  With
    a title that is not blank the issue is returned, open.  With a blank title
    the run ends in an error, but in the state after all these steps, with the
    opening event in the agent's store: whoever then reads a fold that holds
    the issue cannot list any issue of the list. *)
Theorem created_issue_listed (t : V2Tracker) (draft : IssueDraft) own out now h w2 w3
    confirm st s s1 s2 s4 s5 :
  let id := fresh_issue_id (own_agent_id own) now (id_title draft) (fo_max_admitted_lamport out) in
  let description := match id_description draft with
                     | Some d => if is_blank d then "" else d | None => "" end in
  let event := transition t out id (tk_open (id_title draft) description) in
  v2_own t s = (Ok own, s1) → fold_view t s1 = (Ok out, s2) → now_utc s2.2 = (now, w2) →
  append_transition own event w2 = (Ok h, w3) →
  display_add_issue t id (id_title draft) description (s2.1, w3) = (Ok (), s4) →
  fold_view t s4 = (Ok confirm, s5) →
  fo_issues confirm !! id = Some st → is_title st = id_title draft →
  appended own (PTransition event) h ∧
  (is_blank (id_title draft) = true →
     (∃ e, create_issue t draft s = (Err e, s5)) ∧
     ∀ reader a c b st', fold_view reader a = (Ok c, b) →
       fo_issues c !! id = Some st' → is_title st' = id_title draft →
       ¬ ∃ listed b', list_issues reader a = (Ok listed, b')) ∧
  (is_blank (id_title draft) = false → is_status st = StOpen →
     ∃ issue, create_issue t draft s = (Ok issue, s5) ∧
       iss_id issue = id ∧ iss_title issue = id_title draft ∧ iss_state issue = "todo").
Proof.
  intros id description event Hown Hview Hnow Happ Hdisp Hconf Hi Ht.
  assert (is_issue_id st = id) as Hid.
  { apply fold_view_Ok in Hconf as [(w&w'&input&_&Hf) _].
    destruct (fold_v2_facts _ _ Hf) as (rosters&ordered&g&F).
    destruct (ff_ledger _ _ _ _ _ F) as [rej Hg]. rewrite (ff_issues _ _ _ _ _ F), Hg in Hi.
    apply phase2_issue_run in Hi as (tr&_&Hrun).
    by apply issue_run_opened in Hrun as (?&?&?&?&?&?&?&_&_&_&_&?&_). }
  assert (create_issue t draft s = project_issue t confirm st s5) as Hrun.
  { unfold create_issue. rewrite (bind_run _ _ _ _ _ Hown), (bind_run _ _ _ _ _ Hview).
    rewrite (bind_run _ _ _ now (s2.1, w2)) by (unfold host; by rewrite Hnow).
    cbv zeta. fold description. fold id. fold event.
    rewrite (bind_run _ _ _ h (s2.1, w3)) by (by apply store_run).
    rewrite (bind_run _ _ _ _ _ Hdisp), (bind_run _ _ _ _ _ Hconf). by rewrite Hi. }
  split; [by eapply (append_appended own (PTransition event))|]. rewrite Hrun.
  unfold project_issue. split.
  - intros Hb. split.
    + destruct (project_base confirm st) as [issue|e] eqn:Hp; [|by eexists].
      assert (is_ok (project_base confirm st) = true) as [_ ?]%project_base_Ok by (by rewrite Hp).
      congruence.
    + intros reader a c b st' Hv Hi' Ht'. eapply unlistable; [done..|by rewrite Ht'].
  - intros Hb Hs. unfold project_base, new_issue_id, new_issue. rewrite Hid, Ht, Hs, Hb.
    assert (is_blank id = false) as ->; [|by eexists].
    apply blank_i.
Qed.
End tracking.

(** ** The theorems on the demo list *)

Module TrackingDemo.
Import Fixture.
#[local] Opaque key_of.

(** A text is its own encoding as a value; an object has one encoding. *)
#[export] Instance demo_json : Json :=
  {| Value := string; JNull := ""; JString := id; as_str := Some; as_array := λ _, None;
     enc_object := λ _, Ok "content" |}.
(** Timestamps "t0" and "t1" are an hour apart. *)
#[export] Instance demo_chrono : Chrono := {|
  parse_from_rfc3339 := λ s,
    if bool_decide (s = "t0") then Ok 0%Z
    else if bool_decide (s = "t1") then Ok (3600000 * ms_ns)%Z else Err "invalid" |}.
#[export] Instance demo_codec : ApprovalCodec := {|
  enc_v1_approval := λ _, Ok "approval"; enc_v1_consumed := λ _, Ok "consumed";
  enc_v1_consumed_payload := λ _, Ok "consumed";
  dec_v1_approval := λ _, Err "unused"; dec_v1_consumed := λ _, Err "unused" |}.

#[export] Instance demo_host : Host := {|
  now_utc := λ w, ("t1", w); now_timestamp := λ w, (100%Z, w);
  enc_approval_payload := enc [("p", block_approval)];
  create_task_list := λ _ _ w, (Err (Http NOT_FOUND "none"), w);
  list_task_lists := λ w, (Ok [], w); list_tasks := λ _ w, (Ok [], w);
  add_task := λ _ _ w, (Err (Http NOT_FOUND "none"), w);
  update_task := λ _ _ _ w, (Err (Http NOT_FOUND "none"), w) |}.

Definition demo_tracker : V2Tracker := {|
  vt_manager := demo_manager; vt_display := false;
  vt_list_ref := {| lr_list_uuid := "u"; lr_creator := alice |};
  vt_agent_id := bob; vt_settle := 0 |}.

(** Bob's tracker with its store bound, before and after it has joined Alice's. *)
Definition bound : tracker_state :=
  {| ts_own := Some bob_store; ts_display_list := None; ts_joined := ∅ |}.
Definition joined_alice : tracker_state :=
  {| ts_own := Some bob_store; ts_display_list := None; ts_joined := {[alice]} ∪ ∅ |}.

Lemma bob_cache ts : ts_own ts = Some bob_store → cache_ok demo_tracker ts.
Proof. intros Ho own H. rewrite Ho in H. injection H as <-. split; [split|split]; vm_compute; reflexivity. Qed.

(** What Bob's daemon holds: Alice's records, and these records of his. *)
Definition world_with (records : list StoreRecord) : world := {|
  dw_who := "B"; dw_stores := [(alice_topic, alice); (bob_topic, bob)];
  dw_entries := ((λ r, (alice_topic, r)) <$> card "A" :: alice_records) ++
                ((λ r, (bob_topic, r)) <$> card "B" :: records) |}.
Definition input_with (records : list StoreRecord) : FoldInput :=
  list_input [stored_alice; stored_bob records].

Lemma fold_with records out :
  quick_fold [stored_alice; stored_bob records] = Ok out →
  forallb (λ r, negb (bool_decide (sr_key r = CARD_SELF_KEY))) records = true →
  fold_v2 (input_with records) = Ok out.
Proof.
  intros Hq Hk. rewrite <-Hq. apply quick_fold_eq; [by_decide|].
  repeat constructor; [apply stored_alice_consistent|apply stored_bob_consistent].
  rewrite Forall_forall. intros r Hr%list_elem_of_In He. rewrite forallb_forall in Hk.
  specialize (Hk r Hr). rewrite bool_decide_eq_true_2 in Hk; done.
Qed.

Lemma joins_first records out :
  gen_roster (fo_genesis out) ++ bset_iter (fo_current_roster out) = [alice; alice; bob] →
  join_new_members demo_tracker out (bound, world_with records) =
    (Ok true, (joined_alice, world_with records)).
Proof. intros Hr. unfold join_new_members. rewrite Hr. vm_compute. reflexivity. Qed.

Lemma joins_last records out :
  gen_roster (fo_genesis out) ++ bset_iter (fo_current_roster out) = [alice; alice; bob] →
  join_new_members demo_tracker out (joined_alice, world_with records) =
    (Ok false, (joined_alice, world_with records)).
Proof. intros Hr. unfold join_new_members. rewrite Hr. vm_compute. reflexivity. Qed.

Definition stored (records : list StoreRecord) (out : FoldOutput) : Prop :=
  read_fold_input demo_manager "u" alice (world_with records) =
    (Ok (input_with records), world_with records) ∧
  fold_v2 (input_with records) = Ok out ∧
  gen_roster (fo_genesis out) ++ bset_iter (fo_current_roster out) = [alice; alice; bob].

Lemma reads records out ts : stored records out →
  read_and_fold demo_tracker (ts, world_with records) = (Ok out, (ts, world_with records)).
Proof.
  intros (Hr&Hf&_). unfold read_and_fold, store, attempt, mbind, TM_bind, mret, TM_ret.
  cbn [snd fst vt_manager demo_tracker vt_list_ref lr_list_uuid lr_creator].
  by rewrite Hr, Hf.
Qed.

Lemma views_joined records out : stored records out →
  fold_view demo_tracker (joined_alice, world_with records) =
    (Ok out, (joined_alice, world_with records)).
Proof.
  intros Hs. unfold fold_view, mbind, TM_bind. rewrite (reads _ _ _ Hs). cbn [join_passes MAX_JOIN_PASSES].
  unfold mbind, TM_bind. rewrite joins_last by apply Hs. reflexivity.
Qed.

Lemma views records out : stored records out →
  fold_view demo_tracker (bound, world_with records) =
    (Ok out, (joined_alice, world_with records)).
Proof.
  intros Hs. unfold fold_view, mbind, TM_bind. rewrite (reads _ _ _ Hs). cbn [join_passes MAX_JOIN_PASSES].
  unfold mbind, TM_bind. rewrite joins_first by apply Hs. cbn [negb]. rewrite (reads _ _ _ Hs).
  rewrite joins_last by apply Hs. reflexivity.
Qed.

(** A list with these records of Bob's, and its fold. *)
Definition fold_of (records : list StoreRecord) : result FoldOutput ListRefusal :=
  quick_fold [stored_alice; stored_bob records].

Lemma solo_is_ok : is_ok (fold_of []) = true.
Proof. vm_compute. reflexivity. Qed.
Definition open_out : FoldOutput := ok_get _ solo_is_ok.

Lemma open_stored : stored [] open_out.
Proof.
  split; [vm_compute; reflexivity|]. split; [apply fold_with; [apply ok_get_eq|reflexivity]|].
  vm_compute. reflexivity.
Qed.

Definition derived_record : StoreRecord := rec (event_key "i" (hx "k")) "k".
Lemma derived_is_ok : is_ok (fold_of [derived_record]) = true.
Proof. vm_compute. reflexivity. Qed.
Definition derived_out : FoldOutput := ok_get _ derived_is_ok.

Lemma derived_stored : stored [derived_record] derived_out.
Proof.
  split; [vm_compute; reflexivity|]. split; [apply fold_with; [apply ok_get_eq|reflexivity]|].
  vm_compute. reflexivity.
Qed.

Lemma derived_status : is_status <$> fo_issues derived_out !! "i" = Some (StClaimed bob (hx "m") (hx "k")).
Proof. vm_compute. reflexivity. Qed.

Lemma open_status : is_status <$> fo_issues open_out !! "i" = Some StOpen.
Proof. vm_compute. reflexivity. Qed.

Lemma claim_built : build_claim_transition open_out "u" bob "i" = derived_claim.
Proof. vm_compute. reflexivity. Qed.

Lemma claim_appends :
  append_transition bob_store derived_claim (world_with []) =
    (Ok (hx "k"), world_with [derived_record]).
Proof. vm_compute. reflexivity. Qed.

Lemma fmap_status (st : IssueStateV2) s : is_status <$> Some st = Some s → is_status st = s.
Proof. by intros [= ->]. Qed.

(** Bob claims the open issue. *)
Lemma claim_runs :
  ∃ s', v2_claim demo_tracker "i" bob (bound, world_with []) =
    (Ok (new_claim (Some "i") bob "t1" ManualM1), s').
Proof.
  unfold v2_claim. erewrite bind_run by reflexivity. erewrite bind_run by reflexivity.
  erewrite bind_run by apply (views _ _ open_stored).
  pose proof open_status as Hi. destruct (fo_issues open_out !! "i") as [st|] eqn:Hst; [|done].
  apply fmap_status in Hi. erewrite bind_run by (unfold require_issue; rewrite Hst; reflexivity).
  rewrite Hi. rewrite bool_decide_eq_false_2 by (by intros []).
  change (lr_list_uuid (vt_list_ref demo_tracker)) with "u".
  change (vt_agent_id demo_tracker) with bob. rewrite claim_built.
  erewrite bind_run by apply store_run, claim_appends.
  erewrite bind_run by apply (views_joined _ _ derived_stored).
  pose proof derived_status as Hd. destruct (fo_issues derived_out !! "i") as [st'|]; [|done].
  apply fmap_status in Hd. cbv beta zeta. rewrite Hd.
  rewrite !bool_decide_eq_true_2 by reflexivity. eexists. vm_compute. reflexivity.
Qed.

Lemma claim_confirmed_witness :
  ∃ s' own s1 out s2 st h w3 confirm s4 st' n,
    v2_claim demo_tracker "i" bob (bound, world_with []) =
      (Ok (new_claim (Some "i") bob "t1" ManualM1), s') ∧
    v2_own demo_tracker (bound, world_with []) = (Ok own, s1) ∧
    fold_view demo_tracker s1 = (Ok out, s2) ∧
    fo_issues out !! "i" = Some st ∧ is_status st = StOpen ∧
    append_transition own (build_claim_transition out "u" bob "i") s2.2 = (Ok h, w3) ∧
    fold_view demo_tracker (s2.1, w3) = (Ok confirm, s4) ∧
    fo_issues confirm !! "i" = Some st' ∧ is_status st' = StClaimed bob n h.
Proof.
  destruct claim_runs as [s' Hrun].
  destruct (claim_confirmed demo_tracker "i" bob (bound, world_with []) _ s'
              (bob_cache bound eq_refl) Hrun)
    as (_&_&_&own&s1&out&s2&st&h&w3&confirm&s4&st'&n&Ho&_&Hv&Hi&Hs&Ha&_&Hc&Hi'&Hs'&_).
  exists s', own, s1, out, s2, st, h, w3, confirm, s4, st', n. by split_and!.
Defined.

(** Bob hands off the issue whose approval he has consumed. *)
Definition held_records : list StoreRecord := [claim_record; consume_record].
Lemma held_is_ok : is_ok (fold_of held_records) = true.
Proof. vm_compute. reflexivity. Qed.
Definition held_out : FoldOutput := ok_get _ held_is_ok.

Lemma held_stored : stored held_records held_out.
Proof.
  split; [vm_compute; reflexivity|]. split; [apply fold_with; [apply ok_get_eq|reflexivity]|].
  vm_compute. reflexivity.
Qed.

Definition bob_claim : Claim := new_claim (Some "i") bob "t1" ManualM1.
Definition bob_handoff : Handoff := {|
  ho_summary := "done"; ho_files_changed := []; ho_validation := []; ho_follow_up := [];
  ho_proofs_dir := None; ho_issue_id := None; ho_signer_agent_id := None; ho_signature := None |}.

Lemma held_status : is_status <$> fo_issues held_out !! "i" = Some (StClaimed bob "n" (hx "c")).
Proof. vm_compute. reflexivity. Qed.

Lemma handoff_built :
  handoff_event demo_tracker held_out "i" ("n", hx "c") bob_handoff = handoff ∧
  Tracker.complete_event demo_tracker held_out "i" ("n", hx "c") (hx "h") = Fixture.complete_event.
Proof. vm_compute. split; reflexivity. Qed.

Lemma handoff_appends :
  append_handoff bob_store handoff (world_with held_records) =
    (Ok (hx "h"), world_with (held_records ++ [rec (handoff_key "i" (hx "h")) "h"])) ∧
  append_transition bob_store Fixture.complete_event
      (world_with (held_records ++ [rec (handoff_key "i" (hx "h")) "h"])) =
    (Ok (hx "e"), world_with (held_records ++
       [rec (handoff_key "i" (hx "h")) "h"; rec (event_key "i" (hx "e")) "e"])).
Proof. vm_compute. split; reflexivity. Qed.

Lemma held_view_runs :
  held_view demo_tracker bob_claim "handoff" (bound, world_with held_records) =
    (Ok (bob_store, held_out, "i", ("n", hx "c")), (joined_alice, world_with held_records)).
Proof.
  unfold held_view. erewrite bind_run by reflexivity. erewrite bind_run by reflexivity.
  erewrite bind_run by reflexivity. erewrite bind_run by apply (views _ _ held_stored).
  pose proof held_status as Hi. destruct (fo_issues held_out !! "i") as [st|] eqn:Hst; [|done].
  apply fmap_status in Hi. unfold require_own_fence, require_issue. rewrite Hst.
  unfold mbind, TM_bind, mret, TM_ret. rewrite Hi. reflexivity.
Qed.

Lemma handoff_runs :
  ∃ s', v2_handoff demo_tracker bob_claim bob_handoff (bound, world_with held_records) = (Ok (), s').
Proof.
  unfold v2_handoff. erewrite bind_run by apply held_view_runs. cbv beta iota.
  destruct handoff_built as [-> Hc]. destruct handoff_appends as [H1 H2].
  erewrite bind_run by apply store_run, H1. cbv beta. rewrite Hc.
  erewrite bind_run by apply store_run, H2. eexists. vm_compute. reflexivity.
Qed.

Lemma handoff_completes_witness :
  ∃ s' input out n c issue h1 h2,
    v2_handoff demo_tracker bob_claim bob_handoff (bound, world_with held_records) = (Ok (), s') ∧
    fold_v2 input = Ok out ∧ is_status issue = StClaimed bob n c ∧
    completes demo_tracker input out "i" n c bob_handoff issue h1 h2.
Proof.
  destruct handoff_runs as [s' Hrun].
  destruct (handoff_completes demo_tracker bob_claim bob_handoff (bound, world_with held_records)
              () s' (bob_cache bound eq_refl) Hrun)
    as (own&input&out&id&n&c&issue&h1&h2&w&w'&Hid&_&_&Hf&_&Hs&_&_&Hcom).
  injection Hid as <-.
  exists s', input, out, n, c, issue, h1, h2. exact (conj Hrun (conj Hf (conj Hs Hcom))).
Defined.

(** Bob approves the block he is parked on. *)
Definition blocked_records : list StoreRecord := [claim_record; rec (event_key "i" (hx "b")) "b"].
Lemma blocked_is_ok : is_ok (fold_of blocked_records) = true.
Proof. vm_compute. reflexivity. Qed.
Definition blocked_out : FoldOutput := ok_get _ blocked_is_ok.

Lemma blocked_stored : stored blocked_records blocked_out.
Proof.
  split; [vm_compute; reflexivity|]. split; [apply fold_with; [apply ok_get_eq|reflexivity]|].
  vm_compute. reflexivity.
Qed.

Lemma blocked_status : is_status <$> fo_issues blocked_out !! "i" =
  Some (StBlocked bob "n" (hx "c") (hx "b") AwaitingApproval).
Proof. vm_compute. reflexivity. Qed.

Definition block_envelope : EventEnvelope := env "B" APPROVAL_CONTEXT_V2 "p".
Definition requeue_justification : RequeueJustification := {|
  rj_block_event_hash := hx "b"; rj_claim_nonce := "n"; rj_approval_event_hash := hx "p";
  rj_approval_payload_sha256 := hx "p"; rj_approver := bob; rj_approval := block_envelope |}.

Lemma requeue_built :
  requeue_approval demo_tracker blocked_out "i" (hx "b") "n" 100 = block_approval ∧
  Tracker.transition demo_tracker blocked_out "i" (TkRequeue requeue_justification) = requeue_event.
Proof. vm_compute. split; reflexivity. Qed.

Lemma requeue_appends :
  append_transition bob_store requeue_event (world_with blocked_records) =
    (Ok (hx "q"), world_with (blocked_records ++ [rec (event_key "i" (hx "q")) "q"])).
Proof. vm_compute. reflexivity. Qed.

Definition any_reason : ReleaseReason := {| rr_code := RcAwaitingApproval; rr_message := "" |}.

Lemma requeue_runs :
  ∃ s', requeue_blocked demo_tracker "i" any_reason (bound, world_with blocked_records) = (Ok (), s').
Proof.
  unfold requeue_blocked. erewrite bind_run by reflexivity.
  erewrite bind_run by apply (views _ _ blocked_stored).
  pose proof blocked_status as Hi. destruct (fo_issues blocked_out !! "i") as [st|] eqn:Hst; [|done].
  apply fmap_status in Hi. erewrite bind_run by (unfold require_issue; rewrite Hst; reflexivity).
  rewrite Hi, bool_decide_eq_false_2 by (by intros []).
  rewrite (bind_run now_secs _ _ 100%N (joined_alice, world_with blocked_records)) by reflexivity.
  destruct requeue_built as [-> Hq].
  erewrite bind_run by reflexivity. cbv zeta.
  erewrite bind_run by (apply store_run; reflexivity).
  erewrite bind_run; [eexists; reflexivity|]. apply store_run.
  etransitivity; [|exact requeue_appends]. by rewrite <-Hq.
Qed.

Lemma approval_payloads_roundtrip : ApprovalPayloadRoundtrip.
Proof.
  intros a b. apply (demo_nonempty [("p", block_approval)]); by_decide.
Qed.

Lemma requeue_reopens_witness :
  ∃ s' out issue who n c b j h,
    requeue_blocked demo_tracker "i" any_reason (bound, world_with blocked_records) = (Ok (), s') ∧
    fo_issues out !! "i" = Some issue ∧ is_status issue = StBlocked who n c b AwaitingApproval ∧
    appended bob_store (PTransition (Tracker.transition demo_tracker out "i" (TkRequeue j))) h.
Proof.
  destruct requeue_runs as [s' Hrun].
  destruct (requeue_reopens demo_tracker bob_store DispatchingDemo.bob_honest "i" any_reason
              (bound, world_with blocked_records) () s' approval_payloads_roundtrip eq_refl
              (bob_cache bound eq_refl) Hrun)
    as (input&out&w&w'&issue&who&n&c&b&j&h&_&_&Hi&Hs&Ha&_).
  exists s', out, issue, who, n, c, b, j, h. exact (conj Hrun (conj Hi (conj Hs Ha))).
Defined.

(** A draft with a blank title is published, and the list cannot be shown. *)
Definition blank_draft : IssueDraft := {| id_title := " "; id_description := None; id_priority := None;
  id_labels := [] |}.
Definition blank_record : StoreRecord := rec (event_key "i32" (hx "w")) "w".
Lemma blank_is_ok : is_ok (fold_of [blank_record]) = true.
Proof. vm_compute. reflexivity. Qed.
Definition blank_out : FoldOutput := ok_get _ blank_is_ok.

Lemma blank_stored : stored [blank_record] blank_out.
Proof.
  split; [vm_compute; reflexivity|]. split; [apply fold_with; [apply ok_get_eq|reflexivity]|].
  vm_compute. reflexivity.
Qed.

Lemma blank_title : is_title <$> fo_issues blank_out !! "i32" = Some " ".
Proof. vm_compute. reflexivity. Qed.

Lemma blank_id : fresh_issue_id (own_agent_id bob_store) "t1" " " (fo_max_admitted_lamport open_out) = "i32".
Proof. vm_compute. reflexivity. Qed.

Lemma blank_appends :
  append_transition bob_store
    (Tracker.transition demo_tracker open_out "i32" (tk_open " " "")) (world_with []) =
    (Ok (hx "w"), world_with [blank_record]).
Proof. vm_compute. reflexivity. Qed.

Lemma created_issue_listed_witness :
  ∃ e s', create_issue demo_tracker blank_draft (bound, world_with []) = (Err e, s') ∧
    ¬ ∃ listed b, list_issues demo_tracker s' = (Ok listed, b).
Proof.
  pose proof blank_title as Ht. destruct (fo_issues blank_out !! "i32") as [st|] eqn:Hi; [|done].
  injection Ht as Ht.
  destruct (created_issue_listed demo_tracker blank_draft bob_store open_out "t1" (hx "w")
    (world_with []) (world_with [blank_record]) blank_out st
    (bound, world_with []) (bound, world_with []) (joined_alice, world_with [])
    (joined_alice, world_with [blank_record]) (joined_alice, world_with [blank_record]))
    as (_&Hb&_).
  - reflexivity.
  - apply (views _ _ open_stored).
  - reflexivity.
  - change (id_title blank_draft) with " ". rewrite blank_id. exact blank_appends.
  - reflexivity.
  - apply (views_joined _ _ blank_stored).
  - change (id_title blank_draft) with " ". by rewrite blank_id.
  - exact Ht.
  - destruct (Hb eq_refl) as [[e He] Hl]. eexists e, _. split; [exact He|].
    apply (Hl demo_tracker _ _ _ st (views_joined _ _ blank_stored)); [|exact Ht].
    change (id_title blank_draft) with " ". by rewrite blank_id.
Defined.

(** ** A consent, before and after it is spent *)

Definition demo_issue : Issue := {|
  iss_schema_version := 1; iss_id := "i"; iss_identifier := "i"; iss_title := "T";
  iss_description := ""; iss_priority := None; iss_state := "todo"; iss_branch_name := None;
  iss_url := None; iss_labels := []; iss_blocked_by := []; iss_shard := None; iss_claim := None;
  iss_handoff := None; iss_signature_provenance := None; iss_verification_notices := [];
  iss_created_at := "t0"; iss_updated_at := "t0"; iss_extra := ∅ |}.

Definition envelope_of (context digest signer : string) : SignatureEnvelope := {|
  se_algorithm := SIGN_ALGORITHM; se_context := context; se_public_key_b64 := "";
  se_signature_b64 := ""; se_payload_sha256 := digest; se_signer_agent_id := signer |}.

Definition demo_approval (issue_id : string) : ApprovalEvent := {|
  av_issue_id := issue_id; av_content_hash := sha256_hex "content"; av_signer_agent_id := "s";
  av_verdict := V1Approve; av_approved_at := "t0"; av_approver_agent_id := "o";
  av_claim_id := None;
  av_signature := Some (envelope_of APPROVAL_CONTEXT (sha256_hex "approval") "o") |}.

Definition demo_consumed : ApprovalConsumed := {|
  ac_issue_id := "i"; ac_content_hash := sha256_hex "content"; ac_signer_agent_id := "s";
  ac_nonce := "n"; ac_consumed_at := "t1";
  ac_signature := envelope_of APPROVAL_CONSUMED_CONTEXT (sha256_hex "consumed") "d" |}.

(** Approved before the consumption is recorded, not after it. *)
Lemma consumption_spends_witness :
  approval_decision [demo_approval "i"] demo_issue "s" "t1" 86400000000000 [] = Approved ∧
  approval_decision [demo_approval "i"] demo_issue "s" "t1" 86400000000000 [demo_consumed]
    ≠ Approved.
Proof.
  split; [vm_compute; reflexivity|].
  apply (consumption_spends [demo_approval "i"] demo_issue "s" "t1" 86400000000000
           [demo_consumed] demo_consumed).
  - intros e He. apply list_elem_of_singleton in He as ->. reflexivity.
  - apply list_elem_of_singleton. reflexivity.
  - repeat split.
Defined.
End TrackingDemo.
