(* ===== verification/Serving.v ===== *)
(** * A daemon's front in memory

    A workflow file, a hall with one issue that waits for consent, and requests
    to it: the theorems about the configuration and the API are applied to
    them. *)

From S2P Require Import Prelude Wire Identity Core Effects Text Files Containment Disk Store.
From S2P Require Import Scheduling Claims Approvals Ports Proofs Trust Workers Orchestrator.
From S2P Require Import Sandbox RunnerSpec Auth WorkflowConfig Literals Configured Api Requests Shown Fixture.
Import Reconcile Retry Shards.
#[local] Existing Instance Fixture.Fixture.demo.

(** ** A workflow file *)

Inductive tree :=
  | TNull | TBool (b : bool) | TNum (n : N) | TText (s : string)
  | TList (values : list tree) | TObject (fields : list (string * tree)).
#[local] Instance tree_json : Json := {|
  Value := tree; JNull := TNull; JString := TText;
  as_str v := match v with TText s => Some s | _ => None end;
  as_array v := match v with TList values => Some values | _ => None end;
  enc_object _ := Ok "content" |}.
#[local] Instance tree_view : JsonTree := {|
  json_view v := match v with
    | TNull => JvNull | TBool b => JvBool b | TNum n => JvNumber (Some n) | TText s => JvString s
    | TList values => JvArray values | TObject fields => JvObject (list_to_map fields)
    end |}.

(** A world that is nothing but an environment without variables. *)
#[local] Instance bare_env : HostEnv unit := {| target_os := Linux; env_var_os _ := λ w, (None, w) |}.
Definition no_overrides (command : option string) : RunnerOverrides := {|
  ro_command := command; ro_args := None; ro_env := None; ro_allow_secret_env := None;
  ro_turn_timeout_ms := None; ro_event_capacity := None; ro_event_high_water_mark := None;
  ro_sandbox_args := None |}.
#[local] Instance shell_codec : RunnerCodec := {|
  dec_workflow _ := Ok (Some {|
    rw_kind := Some "shell"; rw_preset := None; rw_top := no_overrides (Some "agent"); rw_sandbox := None;
    rw_shell := None; rw_codex := None; rw_claude_code := None; rw_kimi := None; rw_glm := None;
    rw_minimax := None; rw_pi := None |});
  yaml_to_json _ := Err "unused" |}.

Definition fields_with (states : tree) (security : list (string * tree)) : list (string * tree) := [
  ("tracker", TObject [("kind", TText "crdt"); ("list_id", TText "L"); ("active_states", states)]);
  ("polling", TObject [("interval_ms", TNum 1000)]);
  ("workspace", TObject [("root", TText "/w")]);
  ("hooks", TObject [("timeout_ms", TNum 1000)]);
  ("agent", TObject [("max_concurrent_agents", TNum 2);
                     ("max_concurrent_agents_by_state", TObject [("Todo ", TNum 1)]);
                     ("max_turns", TNum 3); ("max_retry_backoff_ms", TNum 1000)]);
  ("security", TObject security);
  ("runner", TObject [("kind", TText "shell")])].
Definition workflow (states : tree) (security : list (string * tree)) : Value :=
  TObject (fields_with states security).
Definition workflow_of (fields : list (string * tree)) : Value := TObject fields.
Definition loaded (raw : Value) : result WorkflowConfig ConfigError := (from_raw (W := unit) raw "prompt" ()).1.

Definition plain_workflow : Value := workflow (TList [TText "Todo"]) [("approval_ttl", TText "2h")].
Definition blank_workflow : Value := workflow (TList [TText " "]) [].

(** Every problem of a file is reported, and a good file is taken. *)
Example files_judged :
  (∃ c, loaded plain_workflow = Ok c ∧ sec_approval_ttl (wc_security c) = (7200 * SECOND)%N) ∧
  loaded (workflow TNull [("network_dispatch", TText "approve"); ("approval_ttl", TText "0h")]) =
    Err (CfInvalid ["security.approval_ttl must be greater than zero"]) ∧
  loaded (workflow TNull [("network_dispatch", TText "approve")]) = Err (CfInvalid [APPROVE_NEEDS_SIGNING]) ∧
  loaded (workflow TNull [("network_dispatch", TText "auto")]) =
    Err (CfInvalid ["security.network_dispatch=auto requires network_dispatch_auto_ack=true"]) ∧
  length (match loaded (workflow_of []) with Err (CfInvalid problems) => problems | _ => [] end) = 6.
Proof. split_and!; [eexists; split|..]; vm_compute; reflexivity. Qed.

(** *** The theorems on them *)

Lemma taken (raw : Value) c : loaded raw = Ok c → ∃ root, as_object raw = Some root ∧ config_ok root c.
Proof.
  unfold loaded. intros Hc. destruct (from_raw raw "prompt" ()) as [r w] eqn:Hrun. simpl in Hc. subst r.
  by apply from_raw_accepts in Hrun as [Hok _].
Qed.

Lemma rejected_with_reasons_witness :
  let '(_, (problems, w1)) := checked_parts (W := unit) (workflow_of []) ∅ ([], ()) in
  if bool_decide (problems = []) then ∃ c, from_raw (workflow_of []) "prompt" () = (Ok c, w1)
  else from_raw (workflow_of []) "prompt" () = (Err (CfInvalid problems), w1).
Proof. apply (rejected_with_reasons (workflow_of []) "prompt" ∅ ()). vm_compute. reflexivity. Defined.

Lemma accepted_well_formed_witness : ∃ c,
  (∃ root, as_object plain_workflow = Some root ∧ config_ok root c) ∧
  ∃ w0 spec w2, from_workflow_config (W := unit) plain_workflow w0 = (Ok spec, w2).
Proof.
  destruct (from_raw (W := unit) plain_workflow "prompt" ()) as [[c|e] w1] eqn:Hrun; [|vm_compute in Hrun; discriminate].
  exists c. exact (accepted_well_formed plain_workflow "prompt" () c w1 Hrun).
Defined.

(** The file with a blank state is taken, and the daemon does not start. *)
Lemma daemon_takes_accepted_witness : ∃ c, loaded blank_workflow = Ok c ∧
  match to_orchestrator_config c "agent" with
  | Ok oc => Forall filled (tc_active_states (wc_tracker c) ++ tc_terminal_states (wc_tracker c)) ∧
             runs_with c "agent" oc
  | Err e => ¬ Forall filled (tc_active_states (wc_tracker c) ++ tc_terminal_states (wc_tracker c)) ∧
             e = CfCore (Validation "issue.state" "must not be empty")
  end.
Proof.
  destruct (loaded blank_workflow) as [c|e] eqn:Hc; [|vm_compute in Hc; discriminate].
  exists c. split; [reflexivity|]. destruct (taken _ _ Hc) as (root & _ & Hok).
  exact (daemon_takes_accepted root c "agent" Hok).
Defined.
Example blank_state_stops_daemon :
  match loaded blank_workflow with
  | Ok c => to_orchestrator_config c "agent" = Err (CfCore (Validation "issue.state" "must not be empty"))
  | Err _ => False
  end.
Proof. vm_compute. reflexivity. Qed.

Lemma duration_literal_roundtrip_witness :
  parse_duration_literal (pretty 90%N +:+ "m") = Ok (90 * 60000 * MILLISECOND)%N.
Proof.
  apply (duration_literal_roundtrip "m" 60000 90); [|reflexivity|vm_compute; discriminate].
  unfold duration_units. rewrite !elem_of_cons. auto.
Defined.

(** ** A hall *)

Definition the_caller : string := "op".
Definition awaiting : Issue := {|
  iss_schema_version := 1; iss_id := "XSY-1"; iss_identifier := "XSY-1"; iss_title := "Fix it";
  iss_description := "do"; iss_priority := None; iss_state := "blocked"; iss_branch_name := None;
  iss_url := None; iss_labels := []; iss_blocked_by := []; iss_shard := None; iss_claim := None;
  iss_handoff := None; iss_signature_provenance := Some (ProvenanceVerified "peer");
  iss_verification_notices := []; iss_created_at := "t0"; iss_updated_at := "t0";
  iss_extra := {["blocked_reason" := TObject [("code", TText "awaiting_approval")]]} |}.

(** The records stored, whether the issue was requeued, and a file. *)
Record hall := { ha_stored : list ApprovalEvent; ha_requeued : bool; ha_file : string }.
Definition opened : hall := {| ha_stored := []; ha_requeued := false; ha_file := "log" |}.

#[local] Instance hall_tracker : TrackerApi hall string := {|
  tk_list_issues := mret [awaiting]; tk_create_issue _ := throw (Tracker "read only");
  tk_fetch_candidates _ := mret []; tk_fetch_by_ids _ := mret [awaiting];
  tk_claim id agent := mret (new_claim (Some id) agent "t0" ManualM1);
  tk_heartbeat _ := mret (); tk_release _ _ := mret (); tk_handoff _ _ := mret ();
  tk_fetch_claimed _ := mret []; tk_block _ _ := mret ();
  tk_requeue_blocked _ _ := modify (λ h,
    {| ha_stored := ha_stored h; ha_requeued := true; ha_file := ha_file h |});
  tk_load_approval_state _ := mret {| aps_events := []; aps_consumed := [] |};
  tk_store_approval e := modify (λ h,
    {| ha_stored := ha_stored h ++ [e]; ha_requeued := ha_requeued h; ha_file := ha_file h |});
  tk_store_consumed _ := mret () |}.
#[local] Instance hall_signing : SigningApi hall := {|
  sg_sign context payload := mret {| sg_agent_id := the_caller; sg_public_key_b64 := "key";
    sg_signature_b64 := "sig"; sg_algorithm := SIGN_ALGORITHM; sg_context := context |};
  sg_verify _ _ _ _ := mret SigValid; kr_resolve _ := mret "key" |}.
#[local] Instance hall_machine : Machine hall := {|
  clock_now := λ h, (1000000000%Z, h); instant_now := λ h, (0%N, h); env_var _ := λ h, (None, h) |}.
#[local] Instance hall_fs : Fs hall := {|
  fs_canonicalize p := mret p; fs_metadata _ := mret KFile; fs_symlink_metadata _ := mret KFile;
  fs_read_dir _ := mret [Ok "b"; Ok "a"]; fs_create_dir _ _ := mret (); fs_create_dir_all _ _ := mret ();
  fs_set_permissions _ _ := mret (); fs_remove_dir_all _ := mret (); fs_rename _ _ := mret ();
  fs_write _ _ := mret (); fs_append _ _ := mret (); fs_copy _ _ := mret () |}.
#[local] Instance hall_files : LocalFiles hall := {|
  lf_read_to_string _ := gets ha_file; lf_random_32 := λ h, ("random", h) |}.
#[local] Instance hall_bus : EventBus hall := {| eb_send _ := λ h, ((), h) |}.
#[local] Instance hall_text : TrackerText string := {| tt_of_text := id; tt_show := id |}.
#[local] Instance hall_codec : ApprovalCodec := {|
  enc_v1_approval _ := Ok "approval"; enc_v1_consumed _ := Ok "consumed";
  enc_v1_consumed_payload _ := Ok "consumed";
  dec_v1_approval _ := Err "unused"; dec_v1_consumed _ := Err "unused" |}.
#[local] Instance hall_chrono : Chrono := {| parse_from_rfc3339 _ := Ok 0%Z |}.
#[local] Instance hall_format : ChronoFormat := {|
  fmt_segment _ := "s"; parse_segment _ := Some 0%Z; fmt_compact _ := "c"; fmt_rfc3339_secs _ := "t";
  fmt_rfc3339_nanos _ := "t"; date_min := 0%Z; date_max := 1%Z |}.

(** Exact paths, one segment after two prefixes, and what is below the proofs. *)
#[local] Instance hall_axum : Axum := {|
  ax_match patterns p :=
    if bool_decide (p ∈ patterns) then Some (p, [])
    else match strip_prefix "/symphony/approvals/" p with
         | Some id => Some ("/symphony/approvals/{id}", [id])
         | None => if starts_with "/symphony/proofs/" p then Some ("/symphony/proofs/{*name}", []) else None
         end;
  ax_tasks_query _ := Ok None;
  ax_issue_draft _ := Err {| ax_status := 400; ax_text := "no draft" |};
  ax_handoff_request _ := Err {| ax_status := 400; ax_text := "no handoff" |};
  ax_submit_request _ := Ok {| sq_verdict := V1Approve; sq_expected_content_hash := None;
                               sq_expected_signer_agent_id := Some "peer" |} |}.
#[local] Instance hall_axum_laws : AxumLaws.
Proof. split. intros pattern params. vm_compute. by intros [= <- _]. Qed.

Definition the_front : AppState hall := {|
  st_proofs_dir := "proofs"; st_agent := the_caller; st_orchestrator := true; st_api_token := "secret";
  st_signing_client := true; st_worker_discovery := None; st_approval_ttl := 60 * SECOND |}.
Definition asking (method p : string) (authorization : option string) : Request := {|
  rq_method := method; rq_path := p; rq_query := None; rq_authorization := authorization;
  rq_accept := None; rq_body := "" |}.
Definition served (request : Request) : Response * hall := serve (T := string) the_front request opened.

(** With the token, consent is stored and the issue goes on; without, nothing
    is done; and nothing outside of the proofs is read. *)
Example requests_served :
  (let '(r, h) := served (asking "POST" "/symphony/approvals/XSY-1" (Some "Bearer secret")) in
   (∃ e, r = Replied (ReplyApproval e) ∧ ha_stored h = [e]) ∧ ha_requeued h = true) ∧
  served (asking "POST" "/symphony/approvals/XSY-1" (Some "Bearer guess!")) = (Refused 401 AUTH_ERROR, opened) ∧
  served (asking "GET" "/symphony/proofs/../key" (Some "Bearer secret")) =
    (Refused 400 "bad request: proof name must stay inside proofs directory", opened) ∧
  served (asking "GET" "/symphony/proofs" (Some "Bearer secret")) = (Replied (ReplyProofs ["a"; "b"]), opened).
Proof. split_and!; [split; [eexists; split|]|..]; vm_compute; reflexivity. Qed.

Lemma request_effects_witness :
  ∃ made, (serve (T := string) (logged_state the_front)
             (asking "GET" "/symphony/proofs/a/b.txt" (Some "Bearer secret")) (opened, [])).2.2 = [] ++ made ∧
    Forall (allowed the_front (asking "GET" "/symphony/proofs/a/b.txt" (Some "Bearer secret"))) made.
Proof.
  exact (request_effects the_front (asking "GET" "/symphony/proofs/a/b.txt" (Some "Bearer secret")) opened []).
Defined.
Lemma options_reads_proofs_witness :
  serve (T := string) the_front (asking "OPTIONS" "/symphony/proofs/XSY-1/t0/run.log" None) opened =
    (Replied (ReplyProof "XSY-1/t0/run.log" "log"), opened).
Proof.
  apply (options_reads_proofs the_front (asking "OPTIONS" "/symphony/proofs/XSY-1/t0/run.log" None)
           "XSY-1/t0/run.log" "proofs/XSY-1/t0/run.log" "log" opened opened []); vm_compute; reflexivity.
Defined.
Lemma pending_exact_witness :
  ∃ rows w', approvals_pending (T := string) the_front opened = (Ok rows, w') ∧
    ∃ issues w1 t w2 loaded,
      tk_list_issues (T := string) opened = (Ok issues, w1) ∧ clock_now w1 = (t, w2) ∧
      loads (T := string) issues w2 loaded w' ∧ StronglySorted (key_le pa_issue_id) rows ∧
      ∀ row, row ∈ rows ↔ ∃ l, l ∈ loaded ∧ pending_of the_front (fmt_rfc3339_nanos t) l row.
Proof.
  destruct (approvals_pending (T := string) the_front opened) as [[rows|e] w'] eqn:Hrun;
    [|vm_compute in Hrun; discriminate].
  exists rows, w'. split; [reflexivity|]. exact (pending_exact the_front opened w' (Ok rows) Hrun).
Defined.
Lemma status_counts_exact_witness :
  let status := status_from_issues the_front [awaiting; awaiting] in
  (∀ s, default 0%N (st_counts status !! s) = N.of_nat (length (in_state s [awaiting; awaiting]))) ∧
  dom (st_counts status) = list_to_set (iss_state <$> [awaiting; awaiting]) ∧
  st_active_claims status ≡ₚ
    omap (λ issue, claim_info_from_issue issue <$> iss_claim issue) [awaiting; awaiting].
Proof. apply (status_counts_exact the_front [awaiting; awaiting]). vm_compute. discriminate. Defined.

(** An issue of the daemon's own. *)
Definition own : Issue := {|
  iss_schema_version := 1; iss_id := "XSY-2"; iss_identifier := "XSY-2"; iss_title := "Mine";
  iss_description := "do"; iss_priority := None; iss_state := "todo"; iss_branch_name := None;
  iss_url := None; iss_labels := []; iss_blocked_by := []; iss_shard := None; iss_claim := None;
  iss_handoff := None; iss_signature_provenance := Some (ProvenanceVerified the_caller);
  iss_verification_notices := []; iss_created_at := "t0"; iss_updated_at := "t0"; iss_extra := ∅ |}.
#[local] Instance hall_trust : TrustApi hall string := {| trust_level _ := mret TrustUnknown |}.
#[local] Instance hall_host : OrchHost hall := {|
  oh_sleep _ := λ h, ((), h); oh_shutdown_flag := λ h, (false, h); oh_request_shutdown := λ h, ((), h);
  oh_entropy := λ h, (0%N, h); oh_shell_status _ _ := mret (Some 0%Z);
  oh_git_diff _ := λ h, (GitFailed, h) |}.
Definition the_dispatcher : Orchestrator := {|
  or_config := builder the_caller; or_signing_client := true; or_key_resolver := true; or_events_tx := false |}.

Lemma own_issue_shown_witness :
  is_Some (row_of (T := string) the_front "t" {| aps_events := []; aps_consumed := [] |} own) ∧
  block_if_network_dispatch_refused (T := string) the_dispatcher (new_claim (Some "XSY-2") the_caller "t0" ManualM1)
    own (initial_orch the_dispatcher opened) = (Ok GateProceed, initial_orch the_dispatcher opened).
Proof.
  apply (own_issue_shown the_dispatcher (new_claim (Some "XSY-2") the_caller "t0" ManualM1) the_front "t"
           {| aps_events := []; aps_consumed := [] |} own (initial_orch the_dispatcher opened)); vm_compute; reflexivity.
Defined.
