(* ===== verification/Peers.v ===== *)
(** * What a daemon takes from its peers

    The resolver of the signing client knows one key, the one of the local
    x0xd.  What follows for the parts of the daemon that ask it: the view of the
    workers and the listings of the task-list tracker.  They are looked at
    through an interface ([LocalSigner], [LocalTrust]) that the signing client
    implements. *)

From S2P Require Import Prelude Wire Identity Core Text Events Effects Files FoldTypes Store Client.
From S2P Require Import Claims Approvals Mapping Tracker Ports Proofs Workers TaskLists.
From S2P Require Import Transport Signer GossipClient X0xdClient Discovering TaskTracking.
Import Reconcile Shards.

(** ** The signing client *)

Section signer.
Context `{X : Extern} `{E : Encoders} `{HT : HttpText} `{SW : SigningWire}.
Context {W : Type} `{TP : !Transport W}.

(** The x0xd at this endpoint signs as one agent. *)
Class OneSigner (c : Endpoint) (local : string) : Prop := one_signer : ∀ body w response w' reply,
  let request := json_request "POST" c "/agent/sign" body in
  tp_send request w = (Ok response, w') →
  signing_response dec_sign_response (hr_url request) response = Ok reply →
  sg_agent_id reply = local.

(** The key in the client, if there is one, is the local agent's. *)
Definition remembers (local : string) (s : SignerWorld W) : Prop :=
  ∀ entry, s.2 = Some entry → tl_agent_id entry = local.

Context (c : Endpoint) (local : string) `{OS : !OneSigner c local}.

Lemma signing_call_world {A} request (dec : bytes → result A string) s r s' :
  signing_call request dec s = (r, s') → s'.2 = s.2.
Proof.
  unfold signing_call, on_first, mbind, Run_bind.
  destruct (mapping_err _ _ s.1) as [[response|e] w]; [|by intros [= _ <-]].
  unfold lift_result. by intros [= _ <-].
Qed.

Lemma signing_call_keeps {A} request (dec : bytes → result A string) :
  ensures (remembers local) (signing_call request dec) (λ _, True).
Proof.
  intros s Hs. split; [|done]. destruct (signing_call request dec s) as [r s'] eqn:Hrun.
  apply signing_call_world in Hrun. unfold remembers. simpl. by rewrite Hrun.
Qed.

Lemma sign_reply_local body :
  ensures (remembers local) (signing_post c "/agent/sign" body dec_sign_response)
    (λ reply, sg_agent_id reply = local).
Proof.
  apply ensures_value; [apply signing_call_keeps|]. intros s reply s'. unfold signing_post, signing_call.
  intros (response&s1&Hsend%on_first_inv&Hreply)%run_bind_Ok.
  destruct Hsend as [Hsend%run_mapping_Ok _]. apply run_lift_Ok in Hreply as [Hreply _].
  by eapply one_signer.
Qed.

Lemma sign_keeps context payload :
  ensures (remembers local) (x0xd_sign c context payload) (λ reply, sg_agent_id reply = local).
Proof.
  unfold x0xd_sign. cbv zeta. destruct (_ <? _)%N; [apply ensures_throw|].
  eapply ensures_bind; [apply sign_reply_local|]. intros reply Hlocal.
  case_bool_decide; [apply ensures_throw|]. case_bool_decide; [apply ensures_throw|].
  eapply ensures_bind with (Φ := λ _, True); [|by intros; apply ensures_ret].
  unfold remember_key. apply keeps_bind; [apply keeps_lift|]. intros key.
  apply ensures_modify; [|done]. intros s Hs entry. by intros [= <-].
Qed.

Lemma verify_keeps context payload signature key :
  ensures (remembers local) (x0xd_verify c context payload signature key) (λ _, True).
Proof.
  unfold x0xd_verify. cbv zeta. destruct (_ <? _)%N; [by apply ensures_ret|].
  apply keeps_bind; [apply keeps_catch, signing_call_keeps|]. intros [valid|error]; [by apply ensures_ret|].
  destruct (is_verify_transport error); [by apply ensures_ret|apply ensures_throw].
Qed.

Lemma cached_local who s key : remembers local s → cached_key who s = Some (Ok key) → who = local.
Proof.
  unfold remembers, cached_key. destruct s.2 as [entry|]; [|done]. intros Hs. simpl.
  case_bool_decide as Hwho; [|done]. intros _. rewrite <-Hwho. by apply Hs.
Qed.

Lemma resolve_keeps who : ensures (remembers local) (x0xd_resolve c who) (λ _, who = local).
Proof.
  unfold x0xd_resolve.
  assert (Hcached : ensures (remembers local) (gets (cached_key who) : SM _)
    (λ cached, ∀ key, cached = Some (Ok key) → who = local)).
  { apply ensures_gets. intros s Hs key. by apply cached_local. }
  eapply ensures_bind; [exact Hcached|]. intros [answer|] Ha.
  { apply ensures_lift. intros key ->. by eapply Ha. }
  eapply ensures_bind with (Φ := λ _, True).
  { unfold bootstrap_key. eapply ensures_bind; [apply sign_keeps|]. intros. by apply ensures_ret. }
  intros _ _. eapply ensures_bind; [exact Hcached|]. intros [answer|] Hb; [|apply ensures_throw].
  apply ensures_lift. intros key ->. by eapply Hb.
Qed.
End signer.

(** ** The view of the workers *)

(** What the discovery of workers has of its signing service: in the states
    [I] of the world, which its calls keep, only the local agent's key is
    trusted. *)
Class LocalSigner {W} `{SG : !SigningApi W} `{M : !Machine W} `{GO : !GossipApi W}
    (I : W → Prop) (local : string) : Prop := {
  ls_sign context payload : ensures I (sg_sign context payload) (λ reply, sg_agent_id reply = local);
  ls_verify context payload signature key :
    ensures I (sg_verify context payload signature key) (λ _, True);
  ls_resolve who : ensures I (kr_resolve who) (λ _, who = local);
  ls_clock w : I w → I (clock_now w).2;
  ls_instant w : I w → I (instant_now w).2;
  ls_publish topic payload : ensures I (go_publish topic payload) (λ _, True);
  ls_subscribe topic : ensures I (go_subscribe topic) (λ _, True);
  ls_open : ensures I go_open_events (λ _, True);
  ls_sleep delay w : I w → I (go_sleep delay w).2
}.

Section workers.
Context `{X : Extern} `{C : Chrono} `{CF : ChronoFormat} `{CC : CardCodec}.
Context {W : Type} `{SG : !SigningApi W} `{M : !Machine W} `{GO : !GossipApi W}.
Context (I : W → Prop) (local : string) `{LS : !LocalSigner I local}.

Definition own_cards (view : WorkerView) : Prop :=
  map_Forall (λ id card, id = local ∧ wc_agent_id card = local) (wv_cards view).
Definition own_inv (s : discovery W) : Prop := I (ds_world s) ∧ own_cards (ds_view s).

Lemma on_daemon_own {A F} (c : Run W F A) Φ : ensures I c Φ → ensures own_inv (on_daemon c) Φ.
Proof.
  intros Hc s [Hw Hv]. unfold on_daemon. destruct (Hc (ds_world s) Hw) as [Hw' Ha].
  by destruct (c (ds_world s)) as [r w].
Qed.
Lemma attempting_own {A F} (c : Run W F A) Φ :
  ensures I c Φ → ensures own_inv (attempting c) (λ r, ∀ a, r = Ok a → Φ a).
Proof. intros Hc. by apply on_daemon_own, ensures_catch. Qed.
Lemma attempting_keeps_own {A F} (c : Run W F A) Φ :
  ensures I c Φ → ensures own_inv (attempting c) (λ _, True).
Proof. intros Hc. by eapply keeps_any, attempting_own. Qed.
Lemma contextual_own {A} context (c : Run W string A) :
  ensures I c (λ _, True) → ensures own_inv (contextual context c) (λ _, True).
Proof. intros Hc. by apply on_daemon_own, ensures_mapping. Qed.
Lemma plain_own {A} (c : W → A * W) :
  (∀ w, I w → I (c w).2) → ensures own_inv (plain c) (λ _, True).
Proof. intros Hc. apply on_daemon_own, ensures_embed. intros w Hw. split; [by apply Hc|done]. Qed.
Lemma with_context_own {A} context (r : result A string) :
  ensures own_inv (with_context context r) (λ _, True).
Proof. by apply ensures_lift. Qed.
Lemma gets_own {A} (f : discovery W → A) : ensures (E := DiscoveryError) own_inv (gets f) (λ _, True).
Proof. by apply ensures_gets. Qed.
Lemma quiet_own (f : discovery W → discovery W) :
  (∀ s, ds_view (f s) = ds_view s ∧ ds_world (f s) = ds_world s) →
  ensures (E := DiscoveryError) own_inv (modify f) (λ _, True).
Proof.
  intros Hf. apply ensures_modify; [|done]. intros s. unfold own_inv. by destruct (Hf s) as [-> ->].
Qed.
Lemma unwinding_own {A} (c : DM A) :
  ensures own_inv c (λ _, True) → ensures own_inv (unwinding c) (λ _, True).
Proof.
  intros Hc s Hs. unfold unwinding. destruct (Hc s Hs) as [Hs' _]. by destruct (c s) as [[a|[]] s'].
Qed.
Lemma now_own : ensures own_inv now_rfc3339_secs (λ _, True).
Proof. apply keeps_bind; [apply plain_own, ls_clock|]. intros. by apply ensures_ret. Qed.
#[local] Hint Resolve with_context_own gets_own now_own : effects.

Lemma insert_card_own card view : wc_agent_id card = local → own_cards view → own_cards (insert_card card view).2.
Proof.
  intros Hc Hv. unfold own_cards, insert_card. simpl.
  case_bool_decide; simpl; by apply map_Forall_insert_2.
Qed.

Lemma insert_verified_own card :
  wc_agent_id card = local → ensures own_inv (insert_verified card) (λ _, True).
Proof.
  intros Hc s [Hw Hv]. unfold insert_verified, gets, modify, mbind, Run_bind.
  pose proof (insert_card_own card (ds_view s) Hc Hv). by destruct (insert_card card (ds_view s)).
Qed.

Lemma verify_and_insert_own card now : ensures own_inv (verify_and_insert_card_at card now) (λ _, True).
Proof.
  unfold verify_and_insert_card_at. destruct (_ =? _)%N; [|by apply ensures_ret].
  destruct (is_expired card now) as [[]|]; [by apply ensures_ret| |by apply ensures_throw].
  destruct (card_envelope_is_consistent card); [|by apply ensures_ret].
  destruct (wc_signature card) as [signature|]; [|by apply ensures_ret]. simpl.
  eapply ensures_bind; [apply attempting_own, ls_resolve|]. intros [key|] Hlocal; [|by apply ensures_ret].
  destruct (b64_decode _) as [envelope_key|]; [|by apply ensures_ret].
  case_bool_decide; [by apply ensures_ret|].
  destruct (b64_decode _) as [sig|]; [|by apply ensures_ret].
  apply keeps_bind; [apply with_context_own|]. intros payload.
  apply keeps_bind; [eapply attempting_keeps_own, ls_verify|].
  intros [[]|]; try by apply ensures_ret. by apply insert_verified_own, (Hlocal key).
Qed.

Lemma process_own data now : ensures own_inv (process_sse_data_at data now) (λ _, True).
Proof. unfold process_sse_data_at. keeps; apply verify_and_insert_own. Qed.

Lemma retain_live_own now entries cards :
  map_Forall (λ id card, id = local ∧ wc_agent_id card = local) cards →
  map_Forall (λ id card, id = local ∧ wc_agent_id card = local) (retain_live now entries cards).2.
Proof.
  revert cards. induction entries as [|[id card] entries IH]; intros cards Hc; cbn [retain_live]; [done|].
  destruct (is_expired card now) as [[]|]; [|by apply IH|done]. apply IH. by apply map_Forall_delete.
Qed.

Lemma reap_own now : ensures own_inv (reap_expired_at now) (λ _, True).
Proof.
  intros s [Hw Hv]. unfold reap_expired_at, gets, modify, throw, mbind, Run_bind.
  pose proof (retain_live_own now (btree_iter (wv_cards (ds_view s))) _ Hv) as Hr.
  destruct (retain_live _ _ _) as [[] cards]; simpl in *; (split; [split; [done|]|done]).
  - exact Hr.
  - simpl. by case_bool_decide.
Qed.

Lemma snapshot_own : ensures own_inv provider_snapshot (λ _, True).
Proof.
  unfold provider_snapshot, snapshot_view. apply keeps_bind; [|intros; by apply ensures_ret].
  apply keeps_bind; [apply now_own|]. intros now. apply keeps_bind; [apply reap_own|]. intros. apply gets_own.
Qed.

Lemma publish_own d : wc_agent_id (wd_local_card_template d) = local → ensures own_inv (publish_card d) (λ _, True).
Proof.
  intros Hd. unfold publish_card. apply keeps_bind; [apply now_own|]. intros issued.
  apply keeps_bind; [apply gets_own|]. intros load. cbv zeta.
  apply keeps_bind; [apply with_context_own|]. intros payload.
  apply keeps_bind. { eapply contextual_own, ensures_mapping, keeps_any, ls_sign. }
  intros reply. case_bool_decide; [apply ensures_throw|].
  apply keeps_bind; [apply with_context_own|]. intros encoded.
  apply keeps_bind; [apply contextual_own, ls_publish|]. intros _ s [Hw Hv].
  unfold insert_local_card, gets, modify, mbind, Run_bind. split; [|done]. split; [done|].
  by apply insert_card_own.
Qed.

Lemma consume_event_own event : ensures own_inv (consume_event event) (λ _, True).
Proof.
  unfold consume_event. destruct (sse_data event) as [data|]; [|by apply ensures_ret].
  apply keeps_bind; [apply now_own|]. intros now.
  apply keeps_bind; [apply unwinding_own, process_own|]. intros [outcome|error]; [by apply ensures_ret|].
  apply keeps_bind; [|intros; by apply ensures_ret].
  unfold should_warn. apply keeps_bind; [apply plain_own, ls_instant|]. intros at_.
  keeps; by apply quiet_own.
Qed.

Lemma consume_chunks_own buffer chunks : ensures own_inv (consume_chunks buffer chunks) (λ _, True).
Proof.
  revert buffer. induction chunks as [|[chunk|e] chunks IH]; intros buffer; cbn [consume_chunks];
    [by apply ensures_ret| |apply ensures_throw].
  destruct (push_chunk buffer chunk) as [events rest]. apply keeps_bind; [|intros; apply IH].
  apply ensures_for_each. intros event _. apply consume_event_own.
Qed.

Lemma consume_loop_own rounds subscription backoff :
  ensures own_inv (consume_loop rounds subscription backoff) (λ _, True).
Proof.
  revert subscription backoff. induction rounds as [|rounds IH]; intros subscription backoff;
    cbn [consume_loop]; [by apply ensures_ret|]. cbv zeta. unfold next_backoff.
  assert (Hconsume : ∀ backoff, ensures own_inv
    (_ ← unwinding consume_event_stream_once;
     _ ← plain (go_sleep backoff); consume_loop rounds None (N.min (backoff * 2) 30)) (λ _, True)).
  { intros b. apply keeps_bind; [apply unwinding_own|].
    - apply keeps_bind; [apply contextual_own, ls_open|]. intros. apply consume_chunks_own.
    - intros _. apply keeps_bind; [apply plain_own, ls_sleep|]. intros _. apply IH. }
  destruct subscription; [apply Hconsume|].
  apply keeps_bind; [eapply attempting_keeps_own, ls_subscribe|]. intros [|]; [apply Hconsume|].
  apply keeps_bind; [apply plain_own, ls_sleep|]. intros _. apply IH.
Qed.

Lemma run_loop_own rounds d :
  wc_agent_id (wd_local_card_template d) = local → ensures own_inv (run_loop rounds d) (λ _, True).
Proof.
  intros Hd. induction rounds as [|rounds IH]; cbn [run_loop]; [by apply ensures_ret|].
  apply keeps_bind; [apply gets_own|]. intros started. apply keeps_bind.
  { destruct started; [by apply ensures_ret|]. apply keeps_catch. unfold subscribe.
    keeps; [apply contextual_own, ls_subscribe|by apply quiet_own]. }
  intros _. apply keeps_bind.
  { destruct (wd_publish_enabled d); [|by apply ensures_ret]. by apply keeps_catch, publish_own. }
  intros _. apply keeps_bind; [apply plain_own, ls_sleep|]. intros _. apply IH.
Qed.
End workers.

(** ** The listings of the task-list tracker *)

(** The same of the daemon behind the task-list tracker: every call a listing
    makes keeps [I]. *)
Class LocalTrust `{TD : TaskDaemon} (I : world → Prop) (local : string) : Prop := {
  lt_resolve who : ensures I (resolve who) (λ _, who = local);
  lt_verify context payload signature key : ensures I (verify context payload signature key) (λ _, True);
  lt_get_kv store key : ensures I (get_kv store key) (λ _, True);
  lt_list_tasks list_id : ensures I (list_tasks list_id) (λ _, True);
  lt_groups : ensures I list_named_groups (λ _, True);
  lt_group id : ensures I (get_named_group id) (λ _, True);
  lt_join invite name : ensures I (join_group invite name) (λ _, True)
}.

(** An issue shows no record of anybody but this agent. *)
Definition only_own `{J : Json} (local : string) (issue : Issue) : Prop :=
  (∀ claim, iss_claim issue = Some claim → cl_by claim = local) ∧
  (∀ handoff, iss_handoff issue = Some handoff → ho_signer_agent_id handoff = Some local) ∧
  (∀ p, iss_signature_provenance issue = Some p → p = ProvenanceVerified local).

Section listings.
Context `{X : Extern} `{D : Daemon} `{E : Encoders} `{J : Json} `{C : Chrono} `{V : ApprovalCodec}
  `{H : !Host} `{TD : !TaskDaemon} `{CF : ChronoFormat} `{CC : CardCodec} `{BC : !BlobCodec}.
Context (I : world → Prop) (local : string) `{LT : !LocalTrust I local}.
Implicit Types (t : X0xCrdtTracker) (issue : Issue).

Definition in_world_of (s : crdt_state * world) : Prop := I s.2.

Lemma client_own {A} (c : Run world ClientError A) :
  ensures I c (λ _, True) → ensures in_world_of (client c) (λ _, True).
Proof. intros Hc s Hs. unfold client. destruct (Hc s.2 Hs). by destruct (c s.2). Qed.
Lemma try_client_own {A} (c : Run world ClientError A) :
  ensures I c (λ _, True) → ensures in_world_of (try_client c) (λ _, True).
Proof. intros Hc s Hs. unfold try_client. destruct (Hc s.2 Hs). by destruct (c s.2). Qed.
Lemma signer_own {A} (c : Run world string A) Φ :
  ensures I c Φ → ensures in_world_of (signer c) Φ.
Proof.
  intros Hc s Hs. unfold signer. destruct (Hc s.2 Hs) as [Hw Ha]. destruct (c s.2) as [r w].
  split; [done|]. simpl. intros a Hr%map_err_Ok. by apply Ha.
Qed.
Lemma gets_world {A} (f : crdt_state * world → A) :
  ensures (E := TrackerError) in_world_of (gets f) (λ _, True).
Proof. by apply ensures_gets. Qed.
Lemma set_scope_own scope : ensures (E := TrackerError) in_world_of (modify (set_scope scope)) (λ _, True).
Proof. by apply ensures_modify. Qed.
#[local] Hint Resolve lt_get_kv lt_list_tasks lt_groups lt_group lt_join gets_world set_scope_own
  client_own try_client_own : effects.

Lemma resource_scope_own t : ensures in_world_of (resource_scope t) (λ _, True).
Proof. unfold resource_scope, resolve_or_join_group. keeps. Qed.
Lemma get_blob_own {B} t key (decode : bytes → result B MappingError) :
  ensures in_world_of (get_blob t key decode) (λ _, True).
Proof.
  unfold get_blob, mapping_result. apply keeps_bind; [apply resource_scope_own|]. intros scope. keeps.
Qed.

Lemma verify_envelope_own t issue_id envelope context payload :
  ensures in_world_of (verify_envelope t issue_id envelope context payload)
    (λ _, se_signer_agent_id envelope = local).
Proof.
  unfold verify_envelope. case_bool_decide; [apply ensures_throw|]. case_bool_decide; [apply ensures_throw|].
  cbv zeta. case_bool_decide; [apply ensures_throw|].
  apply keeps_bind; [apply keeps_lift|]. intros key.
  apply keeps_bind; [unfold need_resolver; keeps|]. intros _.
  eapply ensures_bind; [apply signer_own, lt_resolve|]. intros trusted Hlocal.
  eapply ensures_weaken with (Φ := λ _, True); [|done]. case_bool_decide; [apply ensures_throw|].
  apply keeps_bind; [apply keeps_lift|]. intros sig. apply keeps_bind; [apply gets_world|].
  intros [outcome|]; [apply keeps_lift|]. apply keeps_bind; [unfold need_client; keeps|]. intros _.
  apply keeps_bind; [apply signer_own, lt_verify|]. intros outcome. apply keeps_bind; [|intros; apply keeps_lift].
  destruct (is_transport_error outcome); [by apply ensures_ret|by apply ensures_modify].
Qed.

Lemma verify_claim_own t issue claim :
  ensures in_world_of (verify_claim t issue claim) (λ _, cl_by claim = local).
Proof.
  unfold verify_claim. case_bool_decide; [apply ensures_throw|].
  destruct (cl_signature claim) as [envelope|]; [|apply ensures_throw].
  case_bool_decide as Hby; [apply ensures_throw|]. rewrite <-Hby.
  apply keeps_bind; [apply keeps_lift|]. intros payload. apply verify_envelope_own.
Qed.
Lemma verify_handoff_own t issue handoff :
  ensures in_world_of (verify_handoff t issue handoff) (λ _, ho_signer_agent_id handoff = Some local).
Proof.
  unfold verify_handoff. destruct (ho_signature handoff) as [envelope|]; [|apply ensures_throw].
  case_bool_decide; [apply ensures_throw|].
  destruct (ho_signer_agent_id handoff) as [who|]; [|apply ensures_throw].
  case_bool_decide as Hby; [apply ensures_throw|]. rewrite Hby.
  apply keeps_bind; [apply keeps_lift|]. intros payload.
  eapply ensures_weaken; [apply verify_envelope_own|]. by intros _ ->.
Qed.
Lemma verify_provenance_own t issue :
  ensures in_world_of (verify_issue_provenance t issue) (λ found, ∀ signer, found = Some signer → signer = local).
Proof.
  unfold verify_issue_provenance, provenance_blob_for_task.
  apply keeps_bind; [apply get_blob_own|]. intros [blob|]; [|by apply ensures_ret]. cbv zeta.
  eapply ensures_bind; [apply verify_envelope_own|]. intros u Hlocal. apply ensures_ret. intros ? [= <-]. exact Hlocal.
Qed.

(** A claim that stays is this agent's; one that goes leaves no issue in
    progress. *)
Lemma check_claim_own t issue :
  ensures in_world_of (check_claim t issue) (λ issue',
    iss_handoff issue' = iss_handoff issue ∧
    iss_signature_provenance issue' = iss_signature_provenance issue ∧
    ∀ claim, iss_claim issue' = Some claim → cl_by claim = local).
Proof.
  unfold check_claim. destruct (iss_claim issue) as [claim|] eqn:Hclaim.
  2: { apply ensures_ret. by rewrite Hclaim. }
  eapply ensures_bind; [apply ensures_catch, verify_claim_own|]. intros [[]|e] Hown.
  { apply ensures_ret. split_and!; [done..|]. rewrite Hclaim. intros ? [= <-]. by apply (Hown ()). }
  destruct e; try apply ensures_throw; apply ensures_lift; intros issue'; unfold strip_bad_claim;
    (destruct (if bool_decide _ then _ else _) as [state|]; [|done]); simpl; by intros [= <-].
Qed.
Lemma check_handoff_own t issue :
  ensures in_world_of (check_handoff t issue) (λ ok, ok = true →
    ∀ handoff, iss_handoff issue = Some handoff → ho_signer_agent_id handoff = Some local).
Proof.
  unfold check_handoff. destruct (iss_handoff issue) as [handoff|]; [|by apply ensures_ret].
  eapply ensures_bind; [apply ensures_catch, verify_handoff_own|]. intros [[]|e] Hown.
  { apply ensures_ret. intros _ h [= <-]. by apply (Hown ()). }
  destruct e; try (by apply ensures_ret). apply ensures_throw.
Qed.
Lemma check_provenance_own t issue :
  iss_signature_provenance issue = None →
  ensures in_world_of (check_provenance t issue) (λ issue',
    iss_handoff issue' = iss_handoff issue ∧ iss_claim issue' = iss_claim issue ∧
    ∀ p, iss_signature_provenance issue' = Some p → p = ProvenanceVerified local).
Proof.
  intros Hnone. unfold check_provenance.
  eapply ensures_bind; [apply ensures_catch, verify_provenance_own|]. intros [[signer|]|e] Hown.
  - apply ensures_ret. split_and!; [done..|]. intros p [= <-]. by rewrite (Hown (Some signer) eq_refl signer eq_refl).
  - apply ensures_ret. by rewrite Hnone.
  - destruct e; try (by apply ensures_ret; rewrite Hnone). apply ensures_throw.
Qed.

Lemma verify_issues_own t issues :
  Forall (λ issue, iss_signature_provenance issue = None) issues →
  ensures in_world_of (verify_issues t issues) (Forall (only_own local)).
Proof.
  induction 1 as [|issue issues Hnone _ IH]; cbn [verify_issues]; [by apply ensures_ret|].
  eapply ensures_bind; [apply check_claim_own|]. intros i1 (Hh1&Hp1&Hc1).
  eapply ensures_bind; [apply check_handoff_own|]. intros [|] Hh2; [|exact IH].
  eapply ensures_bind; [apply check_provenance_own; by rewrite Hp1|]. intros i2 (Hh3&Hc3&Hp3).
  eapply ensures_bind; [exact IH|]. intros rest Hrest. apply ensures_ret. constructor; [|done].
  split_and!; [by rewrite Hc3|rewrite Hh3; by apply Hh2|done].
Qed.

Lemma issues_from_tasks_own t tasks :
  ensures in_world_of (issues_from_tasks t tasks)
    (Forall (λ issue, iss_signature_provenance issue = None)).
Proof.
  induction tasks as [|task tasks IH]; cbn [issues_from_tasks]; [by apply ensures_ret|].
  apply keeps_bind; [apply get_blob_own|]. intros cb. apply keeps_bind; [apply get_blob_own|]. intros hb.
  apply keeps_bind; [apply get_blob_own|]. intros sb.
  eapply ensures_bind; [apply ensures_lift; intros i Hi; exact Hi|]. intros issue Hissue%map_err_Ok.
  eapply ensures_bind; [exact IH|]. intros issues Hissues. apply ensures_ret. constructor; [|done].
  eapply issue_from_task_exact in Hissue as [(_&_&_&_&_&_&_&_&Hp&_) _]. exact Hp.
Qed.

Lemma list_tracker_issues_own t :
  xt_v2 t = None → sr_policy (xt_signing t) = SigningRequired →
  ensures in_world_of (list_tracker_issues t) (Forall (only_own local)).
Proof.
  intros Hv1 Hreq. unfold list_tracker_issues. rewrite Hv1. unfold list_v1_issues.
  apply keeps_bind; [apply resource_scope_own|]. intros scope.
  apply keeps_bind; [apply try_client_own, lt_list_tasks|]. intros [tasks|[status body|text]].
  - eapply ensures_bind; [apply issues_from_tasks_own|]. intros issues Hfresh.
    unfold filter_verified_issues. rewrite bool_decide_eq_false_2 by congruence. by apply verify_issues_own.
  - destruct (_ && _); [by apply ensures_ret|apply ensures_throw].
  - apply ensures_throw.
Qed.

(** What becomes of a peer's claim: it is taken off the issue with a notice, and
    an issue in progress is open again. *)
Lemma peer_claim_stripped t issue claim s issue' s' :
  I s.2 → iss_claim issue = Some claim → cl_by claim ≠ local →
  check_claim t issue s = (Ok issue', s') →
  iss_claim issue' = None ∧
  (iss_state issue = "in_progress" → iss_state issue' = "todo") ∧
  ∃ reason, iss_verification_notices issue' = iss_verification_notices issue ++
    [{| vn_kind := BadClaim; vn_claimant := Some (cl_by claim); vn_reason := reason |}].
Proof.
  intros Hs Hclaim Hpeer. unfold check_claim. rewrite Hclaim.
  intros (checked&s1&Hcheck&Hrun)%run_bind_Ok.
  apply (proj1 (run_catch_Ok _ _ _ _)) in Hcheck.
  destruct checked as [[]|e].
  { destruct (verify_claim_own t issue claim s Hs) as [_ Hown]. rewrite Hcheck in Hown.
    destruct Hpeer. by apply (Hown ()). }
  assert (Hstrip : ∀ reason, strip_bad_claim issue claim reason = Ok issue' →
    iss_claim issue' = None ∧ (iss_state issue = "in_progress" → iss_state issue' = "todo") ∧
    ∃ reason, iss_verification_notices issue' = iss_verification_notices issue ++
      [{| vn_kind := BadClaim; vn_claimant := Some (cl_by claim); vn_reason := reason |}]).
  { intros reason. unfold strip_bad_claim. case_bool_decide as Hstate.
    - change (new_issue_state "todo") with (Ok (E := serror) "todo"). simpl. intros [= <-].
      split_and!; [done|done|by eexists].
    - simpl. intros [= <-]. split_and!; [done|done|by eexists]. }
  destruct e; try discriminate Hrun; apply run_lift_Ok in Hrun as [Hrun _]; by eapply Hstrip.
Qed.
End listings.

(** ** A daemon with the signing client *)

Section production.
Context `{X : Extern} `{E : Encoders} `{HT : HttpText} `{SW : SigningWire}.
Context {W : Type} `{TP : !Transport W} `{M : !Machine W}.

Lemma first_remembers local {A F} (call : Run W F A) : ensures (remembers local) (on_first call) (λ _, True).
Proof. exact (on_first_keeps (λ k, ∀ entry, k = Some entry → tl_agent_id entry = local) call). Qed.
Lemma plain_remembers local {A} (call : W → A * W) s : remembers local s → remembers local (on_first_plain call s).2.
Proof. unfold remembers. by rewrite on_first_plain_second. Qed.

#[export] Instance signing_client_local `{GW : GossipWire} (c g : Endpoint) (local : string)
    (wait : N → W → unit * W) `{OS : !OneSigner c local} :
  LocalSigner (SG := X0xdSigning c) (GO := X0xdGossip g wait) (remembers local) local.
Proof.
  split.
  - intros context payload. by apply sign_keeps.
  - intros context payload signature key. apply verify_keeps.
  - intros who. by apply resolve_keeps.
  - apply plain_remembers.
  - apply plain_remembers.
  - intros topic payload. apply first_remembers.
  - intros topic. apply first_remembers.
  - apply first_remembers.
  - intros delay. apply plain_remembers.
Qed.

#[export] Instance http_daemon_local `{XW : X0xdWire} `{CF : ChronoFormat} (parts : HttpParts)
    (local : string) `{OS : !OneSigner (hp_signer parts) local} :
  LocalTrust (TD := HttpTaskDaemon parts) (remembers local) local.
Proof.
  split; try (intros; apply first_remembers); intros; apply ensures_mapping.
  - by apply resolve_keeps.
  - apply verify_keeps.
Qed.
End production.

(** ** The theorems *)

Lemma view_ops_own `{X : Extern} `{C : Chrono} `{CF : ChronoFormat} `{CC : CardCodec}
    {W : Type} `{SG : !SigningApi W} `{M : !Machine W} `{GO : !GossipApi W} (I : W → Prop) (local : string)
    `{LS : !LocalSigner I local} d ops (s : discovery W) :
  wc_agent_id (wd_local_card_template d) = local → own_inv I local s →
  own_inv I local (foldl (λ s op, run_view_op d op s) s ops).
Proof.
  intros Hd. revert s. induction ops as [|op ops IH]; intros s Hs; [done|]. simpl. apply IH.
  destruct op; simpl.
  - by apply process_own.
  - by apply consume_loop_own.
  - by apply run_loop_own.
  - by apply snapshot_own.
  - done.
Qed.

(** A daemon never sees a peer among the workers: with the signing client it
    is built with, on an x0xd that signs as one agent, no sequence of received
    cards, streams, publications and snapshots puts any card into its view but
    its own, whatever the peers publish and however well they sign it. *)
Theorem peers_never_in_view `{X : Extern} `{E : Encoders} `{HT : HttpText} `{SW : SigningWire}
    `{GW : GossipWire} `{C : Chrono} `{CF : ChronoFormat} `{CC : CardCodec}
    {W : Type} `{TP : !Transport W} `{M : !Machine W}
    (c g : Endpoint) (wait : N → W → unit * W) (local : string) (template : WorkerCard)
    (publish_enabled : bool) (d : WorkerDiscovery) (w : W) (ops : list view_op) :
  OneSigner c local → new_discovery local template publish_enabled = Ok d →
  let s := foldl (λ s op, run_view_op (SG := X0xdSigning c) (GO := X0xdGossip g wait) d op s)
             (initial_discovery (w, None)) ops in
  ∀ id card, wv_cards (ds_view s) !! id = Some card → id = local ∧ wc_agent_id card = local.
Proof.
  intros Hone Hd s. pose proof (new_discovery_Ok _ _ _ _ Hd) as [Htemplate _].
  assert (Hlocal : wd_agent_id d = local).
  { unfold new_discovery in Hd. case_bool_decide; [|done]. simpl in Hd.
    destruct (negb _); [done|]. by injection Hd as <-. }
  assert (Hs : own_inv (remembers local) local s).
  { apply view_ops_own with (1 := signing_client_local c g local wait); [congruence|]. split; [done|].
    apply map_Forall_empty. }
  intros id card Hcard. by apply Hs.
Qed.

(** C21 Nor does it see what a peer did to a task: under required signing, with the
    signing client it is built with, a listing of the task-list tracker shows
    claims, handoffs and the provenance of this agent alone; and a peer's claim,
    valid or not, is taken off its issue with a notice, so that an issue a peer
    works on is listed as open. *)
Theorem peers_records_hidden `{X : Extern} `{E : Encoders} `{HT : HttpText} `{SW : SigningWire}
    `{XW : X0xdWire} `{J : Json} `{C : Chrono} `{V : ApprovalCodec} `{CF : ChronoFormat} `{CC : CardCodec}
    `{BC : !BlobCodec} {W : Type} `{TP : !Transport W} `{M : !Machine W}
    (parts : HttpParts) (local : string) (t : X0xCrdtTracker)
    (s : crdt_state * world (Daemon := HttpDaemon parts)) :
  OneSigner (hp_signer parts) local → remembers local s.2 →
  xt_v2 t = None → sr_policy (xt_signing t) = SigningRequired →
  (∀ issues s', list_tracker_issues (TD := HttpTaskDaemon parts) t s = (Ok issues, s') →
     Forall (only_own local) issues ∧ remembers local s'.2) ∧
  (∀ issue claim issue' s', iss_claim issue = Some claim → cl_by claim ≠ local →
     check_claim (TD := HttpTaskDaemon parts) t issue s = (Ok issue', s') →
     iss_claim issue' = None ∧ (iss_state issue = "in_progress" → iss_state issue' = "todo") ∧
     ∃ reason, iss_verification_notices issue' = iss_verification_notices issue ++
       [{| vn_kind := BadClaim; vn_claimant := Some (cl_by claim); vn_reason := reason |}]).
Proof.
  intros Hone Hs Hv1 Hreq. pose proof (http_daemon_local parts local) as LT. split.
  - intros issues s' Hlist.
    destruct (list_tracker_issues_own (TD := HttpTaskDaemon parts) _ local t Hv1 Hreq s Hs) as [Hw Hown].
    rewrite Hlist in Hw, Hown. auto.
  - intros issue claim issue' s'. by apply (peer_claim_stripped (TD := HttpTaskDaemon parts) _ local t).
Qed.
