(* ===== verification/Desk.v ===== *)
(** * The daemon and the command line hold

    What a daemon that has built its parts holds: they agree with each other and
    with a well-formed workflow file; its scans of the proofs spare what it works
    on; and the command line finds it. *)

From S2P Require Import Prelude Wire Identity Core Text Effects Files Store Client Claims Approvals Ports.
From S2P Require Import Containment Sandbox Native HostSandbox RunnerSpec ShellRunner Manager Scheduling.
From S2P Require Import Workspaces Proofs Workers Trust Gate FoldTypes Tracker Mapping TaskLists Orchestrator.
From S2P Require Import Discovering Retention Transport Signer GossipClient X0xdClient TurnFacts.
From S2P Require Import Auth WorkflowConfig Literals Configured Api Requests ApiClient Cli Symphonyd.
Import Reconcile Retry Shards.

(** ** The parts *)

Section parts.
Context `{J : Json} `{JT : !JsonTree}.

Lemma loaded_ok {W} `{HE : !HostEnv W} `{DS : !DebugStr} `{RC : !RunnerCodec} `{LF : !LocalFiles W} p (w w' : W) c :
  load p w = (Ok c, w') → ∃ root, config_ok root c.
Proof.
  unfold load, from_markdown. intros Hrun. run_inv.
  match goal with H : from_raw _ _ _ = _ |- _ => apply from_raw_accepts in H as [(root & _ & Hok) _] end.
  by exists root.
Qed.

(** The tracker is the one of the workflow file: for its list and this agent,
    signing as the file says, with the v2 engine for a v2 list, which has to be
    signed. *)
Definition tracker_of (workflow : WorkflowConfig) (agent_id : string) (t : X0xCrdtTracker) : Prop :=
  xt_list_id t = tc_list_id (wc_tracker workflow) ∧ xt_agent_id t = agent_id ∧
  sr_policy (xt_signing t) = sgc_policy (wc_signing workflow) ∧
  (sr_policy (xt_signing t) = SigningRequired → sr_client (xt_signing t) = true ∧ sr_resolver (xt_signing t) = true) ∧
  match xt_v2 t with
  | Some engine => is_v2_namespace (tc_list_id (wc_tracker workflow)) = true ∧
      sgc_policy (wc_signing workflow) = SigningRequired ∧ vt_agent_id engine = agent_id ∧
      parse_list_ref (tc_list_id (wc_tracker workflow)) = Ok (vt_list_ref engine)
  | None => is_v2_namespace (tc_list_id (wc_tracker workflow)) = false
  end.

(** The group of the workflow file, if there is one. *)
Definition group_applied (workflow : WorkflowConfig) (agent_id : string) : X0xCrdtTrackerBuilder :=
  let b := new_builder (tc_list_id (wc_tracker workflow)) agent_id in
  match tc_group (wc_tracker workflow) with Some group => builder_group group b | None => b end.
Lemma group_applied_fields workflow agent_id :
  bl_list_id (group_applied workflow agent_id) = tc_list_id (wc_tracker workflow) ∧
  bl_agent_id (group_applied workflow agent_id) = agent_id.
Proof. unfold group_applied. by destruct (tc_group _). Qed.

Lemma built_parts b t : build b = Ok t →
  xt_list_id t = bl_list_id b ∧ xt_agent_id t = bl_agent_id b ∧ xt_signing t = bl_signing b ∧
  match xt_v2 t with
  | Some engine => is_v2_namespace (bl_list_id b) = true ∧ vt_agent_id engine = bl_agent_id b ∧
                   parse_list_ref (bl_list_id b) = Ok (vt_list_ref engine)
  | None => is_v2_namespace (bl_list_id b) = false
  end.
Proof.
  unfold build. destruct (is_v2_namespace (bl_list_id b)) eqn:Hv2.
  - destruct (parse_list_ref (bl_list_id b)) as [list_ref|e] eqn:Hparse; [|done]. cbn [map_err].
    destruct (negb _); [done|]. by intros [= <-].
  - by intros [= <-].
Qed.

Lemma built_tracker status workflow agent_id t :
  build_tracker status workflow agent_id = Ok t → tracker_of workflow agent_id t.
Proof.
  unfold build_tracker, tracker_of. cbv zeta. fold (group_applied workflow agent_id).
  destruct (group_applied_fields workflow agent_id) as [Hlist Hagent].
  destruct (is_v2_namespace _ && negb _) eqn:Hbail; [done|].
  destruct (if is_v2_namespace _ then _ else _) as [mode|e]; [|done].
  intros (Hl&Ha&Hs&Hv2)%map_err_Ok%built_parts. cbn [builder_with bl_list_id bl_agent_id bl_signing] in *.
  rewrite Hlist, Hagent in *. rewrite Hs. split_and!; [done|done|..].
  - case_bool_decide as Hp; [done|]. by destruct (sgc_policy _).
  - by case_bool_decide.
  - destruct (xt_v2 t) as [engine|]; [|done]. destruct Hv2 as (Hv2&Hvt&Href). split_and!; [done| |done|done].
    rewrite Hv2 in Hbail. simpl in Hbail. by apply negb_false_iff, bool_decide_eq_true in Hbail.
Qed.

Lemma token_not_empty {W} `{F : !Fs W} `{LF : !LocalFiles W} data_dir (w w' : W) token :
  (∀ w : W, (lf_random_32 w).1 ≠ "") →
  load_or_generate_api_token data_dir w = (Ok token, w') → token ≠ "".
Proof.
  intros Hrandom. assert (Hgen : ∀ p (w w' : W), generate_and_store_token p w = (Ok token, w') → token ≠ "").
  { intros p w1 w2. unfold generate_and_store_token. intros Hrun. run_inv.
    match goal with H : embed lf_random_32 ?w = (Ok ?r, _) |- _ =>
      apply (proj1 (run_embed_Ok _ _ _ _)) in H; pose proof (Hrandom w) as Hr; rewrite H in Hr; by destruct r end. }
  unfold load_or_generate_api_token. intros Hrun. apply run_bind_Ok in Hrun as (?&w1&_&Hrun). cbv zeta in Hrun.
  apply run_bind_Ok in Hrun as (read&w2&_&Hrun). destruct read as [content|error].
  - apply run_bind_Ok in Hrun as (?&w3&_&Hrun). cbv zeta in Hrun. case_bool_decide; [by eapply Hgen|].
    by apply run_ret_Ok in Hrun as [<- _].
  - case_bool_decide; [by eapply Hgen|done].
Qed.
End parts.

(** ** The whole *)

(** What the parts have to do with each other. *)
Record sound_start `{J : Json} `{JT : !JsonTree} (p : Prepared) : Prop := {
  so_loopback : is_loopback (sa_ip (pd_bind_addr p)) = true;
  so_token : pd_api_token p ≠ "";
  so_agent : filled (pd_agent_id p);
  so_workflow : ∃ root, config_ok root (pd_workflow p);
  so_config : runs_with (pd_workflow p) (pd_agent_id p) (pd_config p);
  so_proofs : cf_proofs_dir (pd_config p) = pd_proofs_dir p;
  so_card : wc_agent_id (pd_card p) = pd_agent_id p;
  so_discovery : wd_agent_id (pd_discovery p) = pd_agent_id p ∧
                  wc_agent_id (wd_local_card_template (pd_discovery p)) = pd_agent_id p;
  so_tracker : tracker_of (pd_workflow p) (pd_agent_id p) (pd_tracker p)
}.

Section start.
Context `{X : Extern} `{E : Encoders} `{HT : HttpText} `{SW : SigningWire} `{J : Json} `{JT : !JsonTree}
  `{RC : !RunnerCodec} `{DS : DebugStr} {W : Type} `{TP : !Transport W} `{M : !Machine W} `{HE : !HostEnv W}
  `{F : !Fs W} `{LF : !LocalFiles W} `{LL : !Landlock W} `{NO : !NativeOs W} `{CP : !ChildProcess W}
  `{SO : !Sockets W}.

(** A part of the start succeeds where its call does. *)
Lemma step_Ok {A F'} (f : F' → DaemonError) (c : Run W F' A) s a s' :
  step f c s = (Ok a, s') → ∃ w', c s.1 = (Ok a, w').
Proof.
  unfold step. intros [Hc _]%on_first_inv. apply (proj1 (run_mapping_Ok _ _ _ _ _)) in Hc. by eexists.
Qed.

Lemma identity_filled workflow s agent_id signer s' :
  build_signing_identity workflow s = (Ok (agent_id, signer), s') → filled agent_id.
Proof.
  unfold build_signing_identity. intros Hrun. run_inv. simplify_eq.
  match goal with H : map_err DeAgent _ = Ok _ |- _ => apply map_err_Ok in H; unfold new_agent_id in H end.
  destruct (is_blank _) eqn:Hb; by simplify_eq.
Qed.
Lemma discovery_parts workflow agent_id card s discovery gossip s' :
  build_worker_discovery workflow agent_id card s = (Ok (discovery, gossip), s') →
  wd_agent_id discovery = agent_id ∧ wc_agent_id (wd_local_card_template discovery) = agent_id.
Proof.
  unfold build_worker_discovery. intros Hrun. run_inv. simplify_eq.
  match goal with H : map_err DeDiscovery _ = Ok _ |- _ => apply map_err_Ok in H; pose proof (new_discovery_Ok _ _ _ _ H) as [Hcard _]; unfold new_discovery in H end.
  rewrite Hcard. repeat case_match; by simplify_eq.
Qed.
End start.

(** C25 A daemon that has started is put together right: it listens on a loopback
    address, its API has a token that is not empty, its workflow file is well
    formed, and one agent, the one its x0xd signs as, is the agent of its card,
    of its view of the workers, of its tracker and of its orchestrator; the
    orchestrator has the file's limits and policies and writes its proofs where
    the API looks for them; the tracker is the file's list, signed if the file
    says so, and a v2 list is always signed. *)
Theorem started_daemon_sound `{X : Extern} `{E : Encoders} `{HT : HttpText} `{SW : SigningWire} `{J : Json}
    `{JT : !JsonTree} `{RC : !RunnerCodec} `{DS : DebugStr} {W : Type} `{TP : !Transport W} `{M : !Machine W}
    `{HE : !HostEnv W} `{F : !Fs W} `{LF : !LocalFiles W} `{LL : !Landlock W} `{NO : !NativeOs W}
    `{CP : !ChildProcess W} `{SO : !Sockets W}
    (here : PlatformInfo) (args : Args) (s s' : SignerWorld W) (p : Prepared) :
  (∀ w : W, (lf_random_32 w).1 ≠ "") → prepare here args s = (Ok p, s') → sound_start p.
Proof.
  intros Hrandom. unfold prepare. intros Hrun.
  apply run_bind_Ok in Hrun as (bind_addr&s1&Hbind&Hrun). apply run_bind_Ok in Hrun as (data_dir&s2&_&Hrun).
  apply run_bind_Ok in Hrun as (workflow&s3&Hload&Hrun). cbv zeta in Hrun.
  apply run_bind_Ok in Hrun as (token&s4&Htoken&Hrun).
  apply run_bind_Ok in Hrun as ([agent_id signer]&s5&Hagent&Hrun).
  apply run_bind_Ok in Hrun as (spec&s6&_&Hrun). apply run_bind_Ok in Hrun as ([discovery gossip]&s7&Hdiscovery&Hrun).
  apply run_bind_Ok in Hrun as (client&s8&_&Hrun). apply run_bind_Ok in Hrun as (tracker&s9&Htracker&Hrun).
  apply run_bind_Ok in Hrun as (runner&s10&_&Hrun). apply run_bind_Ok in Hrun as (workspace&s11&_&Hrun).
  apply run_bind_Ok in Hrun as (config&s12&Hconfig&Hrun). apply run_bind_Ok in Hrun as (trust&s13&_&Hrun).
  apply run_ret_Ok in Hrun as [<- _].
  apply run_lift_Ok in Hbind as [Hbind%map_err_Ok _], Htracker as [Htracker _], Hconfig as [Hconfig%map_err_Ok _].
  apply step_Ok in Hload as [w3 Hload], Htoken as [w4 Htoken].
  apply loaded_ok in Hload as (root&Hok).
  split; cbn.
  - unfold validate_loopback_bind in Hbind. ok_inv. by destruct (is_loopback _) eqn:Hl in Hbind; simplify_eq.
  - by eapply token_not_empty.
  - by eapply identity_filled.
  - by exists root.
  - pose proof (orchestrator_config_exact root workflow agent_id Hok) as Hc. rewrite Hconfig in Hc.
    destruct Hc as [_ []]. by split.
  - done.
  - done.
  - by eapply discovery_parts.
  - by eapply built_tracker.
Qed.

(** ** Scans of the proofs *)

Section scans.
Context `{X : Extern} `{J : Json} `{C : Chrono} `{V : ApprovalCodec} `{Dbg : DebugStr}.
Context `{CF : ChronoFormat} `{MC : ManifestCodec} {W : Type} (F : Fs W).

(** The directories a log removes are expired runs of issues that are neither
    in flight in the state nor in progress in the listing. *)
Definition spares (s : orch_state (W * list SysCall)) (issues : list Issue) (proofs_dir : path) (now : Z)
    (retention_days : N) (call : SysCall) : Prop :=
  ∃ issue name started,
    call = RemoveDirAll (join (join proofs_dir issue) name) ∧
    os_in_flight s !! issue = None ∧
    (∀ i, i ∈ issues → iss_id i = issue → iss_state i ≠ "in_progress") ∧
    parse_proof_timestamp name = Some started ∧
    (started < now - Z.of_N retention_days * DAY_NS)%Z.

Lemma spares_expired s issues proofs_dir now days call :
  expired_run proofs_dir (now - Z.of_N days * DAY_NS)
    (in_flight_issue_ids s ∪ list_to_set (in_progress_ids issues)) call →
  spares s issues proofs_dir now days call.
Proof.
  intros (issue&name&started&->&Hnot&Hparse&Hold). exists issue, name, started.
  rewrite not_elem_of_union in Hnot. destruct Hnot as [Hflight Hprogress]. split_and!; [done| | |done..].
  - by apply not_elem_of_dom.
  - intros i Hi Hid Hstate. apply Hprogress, elem_of_list_to_set. unfold in_progress_ids.
    apply list_elem_of_fmap. exists i. split; [done|]. apply list_elem_of_In, filter_In.
    split; [by apply list_elem_of_In|]. by rewrite bool_decide_eq_true.
Qed.
End scans.

(** C22 The daemon's reaper spares what is worked on: a scan removes only run
    directories of the proofs that are older than the retention period at the
    time it reads from the clock, and none
    of an issue that is in flight in the daemon or in progress in the listing
    the scan took; when the listing fails it removes nothing. *)
Theorem scan_spares_active `{X : Extern} `{J : Json} `{CF : ChronoFormat} {W : Type} (F : Fs W)
    `{TK : !TrackerApi (W * list SysCall) string} `{M : !Machine (W * list SysCall)}
    (o : Orchestrator) (proofs_dir : path) (s s' : orch_state (W * list SysCall))
    (r : result (option ReapReport) DaemonError) :
  (∀ w, (tk_list_issues w).2.2 = w.2) → (∀ w, (clock_now w).2.2 = w.2) →
  (os_world s).2 = [] →
  run_proof_reaper_scan (F := LoggedFs F) o proofs_dir s = (r, s') →
  match tk_list_issues (os_world s) with
  | (Ok issues, w1) =>
      let '(now, _) := clock_now w1 in
      Forall (spares s issues proofs_dir now (rt_proofs_days (cf_retention (or_config o)))) (os_world s').2
  | (Err _, _) => (os_world s').2 = []
  end.
Proof.
  intros Hquiet Hclock Hlog. unfold run_proof_reaper_scan, proof_reaper_active_issue_ids, context, catch,
    mapping_err, on_world, embed, gets, mbind, Run_bind, mret, Run_ret.
  specialize (Hquiet (os_world s)). destruct (tk_list_issues (os_world s)) as [[issues|e] w1]; simpl in *.
  2:{ intros [= _ <-]. simpl. by rewrite Hquiet. }
  specialize (Hclock w1). destruct (clock_now w1) as [now [w2 log2]]. simpl in *.
  rewrite Hquiet, Hlog in Hclock. subst log2.
  set (active := in_flight_issue_ids _ ∪ _). set (days := rt_proofs_days _).
  destruct (reap_expired (F := F) proofs_dir now days active (w2, [])) as [Hcalls _]; [by apply Forall_nil|].
  destruct (reap_old_proofs _ _ _ _ _) as [report w3]. simpl in *. intros [= _ <-]. simpl.
  eapply Forall_impl; [exact Hcalls|]. intros call. apply (spares_expired s).
Qed.

(** ** Finding the daemon *)

(** *** Text *)

Lemma trim_line s : plain s = true → trim (s +:+ LINE_FEED) = s.
Proof.
  intros Hs. unfold trim, trim_start. destruct s as [|c s]; [reflexivity|].
  assert (Hblank : ∀ c s, plain_char c = true → is_blank (String c s) = false).
  { intros a q Ha. unfold is_blank, trim_start. by rewrite trim_start_fuel_stop by (by apply plain_not_ws). }
  rewrite str_app_cons. rewrite trim_start_fuel_stop.
  - rewrite <-str_app_cons. revert Hs. generalize (String c s). clear c s. intros q.
    induction q as [|c q IH]; intros Hq; [reflexivity|]. cbn [TurnFacts.plain] in Hq.
    apply andb_true_iff in Hq as [Hc Hq]. rewrite str_app_cons. cbn [trim_end].
    rewrite Hblank by done. by rewrite IH.
  - apply plain_not_ws. by apply andb_true_iff in Hs as [Hc _].
Qed.

Lemma drop_slashes_app p q : q ≠ "" → contains_char SLASH q = false → drop_slashes (p +:+ q) = p +:+ q.
Proof.
  intros Hne Hq.
  assert (Hkeep : drop_slashes q = q).
  { clear Hne. induction q as [|c q IH]; [done|]. cbn [contains_char] in Hq.
    apply orb_false_iff in Hq as [Hc%bool_decide_eq_false Hq]. cbn [drop_slashes]. rewrite IH by done.
    by rewrite (bool_decide_false (c = SLASH)), andb_false_r. }
  induction p as [|c p IH]; [by change ("" +:+ q) with q|]. rewrite str_app_cons. cbn [drop_slashes].
  rewrite IH. rewrite bool_decide_false; [done|]. by destruct p, q.
Qed.

Lemma plain_hex_nibble n : plain_char (hex_nibble n) = true.
Proof.
  destruct (decide (n < 16)%N) as [Hn|Hn].
  - assert (Hall : Forall (λ k, plain_char (hex_nibble k) = true) (N.of_nat <$> seq 0 16)).
    { apply (bool_decide_unpack _). vm_compute. done. }
    rewrite Forall_forall in Hall. apply Hall, list_elem_of_fmap. exists (N.to_nat n).
    split; [by rewrite N2Nat.id|]. apply elem_of_seq. lia.
  - unfold hex_nibble. rewrite (proj2 (N.leb_gt n 9)), (proj2 (N.leb_gt n 15)) by lia. reflexivity.
Qed.
Lemma plain_hex b : TurnFacts.plain (hex_encode b) = true.
Proof.
  induction b as [|c b IH]; [done|]. cbn [hex_encode TurnFacts.plain]. by rewrite !plain_hex_nibble, IH.
Qed.

Lemma join_differs data_dir : join data_dir API_TOKEN_FILE ≠ join data_dir PORT_FILE.
Proof.
  unfold join. change (is_absolute API_TOKEN_FILE) with false. change (is_absolute PORT_FILE) with false.
  intros Heq. apply (f_equal String.length) in Heq.
  destruct (_ || _); rewrite !str_length_app in Heq; simpl in Heq; lia.
Qed.

Lemma pretty_no_slash (n : N) : contains_char SLASH (pretty n) = false.
Proof.
  pose proof (digits_pretty n) as Hd. induction (pretty n) as [|c s IH]; [done|]. cbn [str_all] in Hd.
  apply andb_true_iff in Hd as [Hc Hd]. cbn [contains_char]. rewrite IH by done. rewrite orb_false_r.
  apply bool_decide_false. intros ->. discriminate Hc.
Qed.

Lemma parse_u16_pretty n : (0 < n ≤ u16_max)%N → parse_u16 (pretty n) = Some n.
Proof.
  intros [Hn Hmax]. assert (Hp : parse_u64 (pretty n) = Some n).
  { apply parse_u64_pretty. unfold u16_max, u64_max in *. lia. }
  unfold parse_u16, parse_u64 in *. pose proof (digits_pretty n) as Hd.
  assert (Hplus : (match pretty n with String "+" s' => s' | _ => pretty n end) = pretty n).
  { destruct (pretty n) as [|c s]; [done|]. cbn [str_all] in Hd. apply andb_true_iff in Hd as [Hc _].
    destruct c as [[] [] [] [] [] [] [] []]; try done; discriminate Hc. }
  rewrite Hplus. destruct (parse_digits (pretty n)) as [m|]; [|done]. simpl in *.
  destruct (m <=? u64_max)%N; [|done]. injection Hp as ->. by apply N.leb_le in Hmax as ->.
Qed.

(** *** Files *)

(** What a file system keeps: the text of a file, where there is one.  Writing
    sets it, reading gives it back, and nothing else the daemon and the client
    do here changes it. *)
Class KeepsFiles {W} `{F : !Fs W} `{LF : !LocalFiles W} `{SO : !Sockets W} (file_at : W → path → option string)
    : Prop := {
  kf_read p w r w' : lf_read_to_string p w = (r, w') →
    file_at w' = file_at w ∧ (∀ text, file_at w p = Some text ↔ r = Ok text);
  kf_write p text w w' : TurnFacts.plain text = true ∨ (∃ line, TurnFacts.plain line = true ∧ text = line +:+ LINE_FEED) →
    fs_write p text w = (Ok (), w') → file_at w' p = Some text ∧ ∀ q, q ≠ p → file_at w' q = file_at w q;
  kf_mode mode p w : file_at (fs_set_permissions mode p w).2 = file_at w;
  kf_bind addr w : file_at (so_bind addr w).2 = file_at w;
  kf_local listener w : file_at (so_local_addr listener w).2 = file_at w
}.

Section files.
Context {W : Type} `{F : !Fs W} `{LF : !LocalFiles W} `{SO : !Sockets W} (file_at : W → path → option string)
  `{KF : !KeepsFiles file_at}.

Lemma set_permissions_keeps p w r w' : set_token_permissions p w = (r, w') → file_at w' = file_at w.
Proof.
  unfold set_token_permissions, mapping_err. pose proof (kf_mode TOKEN_MODE p w) as Hm.
  destruct (fs_set_permissions TOKEN_MODE p w) as [r1 w1]. by intros [= _ <-].
Qed.

Lemma generated_token_read p w token w' :
  generate_and_store_token p w = (Ok token, w') → ∃ text, file_at w' p = Some text ∧ trim text = token.
Proof.
  unfold generate_and_store_token. intros Hrun. run_inv.
  match goal with H : fs_write _ _ _ = (Ok ?u, _) |- _ =>
    destruct u; apply (kf_write (file_at := file_at)) in H as [Hw _]; [|by left; apply plain_hex] end.
  match goal with H : set_token_permissions _ _ = _ |- _ => apply set_permissions_keeps in H end.
  eexists. split; [rewrite H1; exact Hw|]. by rewrite plain_trim by apply plain_hex.
Qed.

Lemma loaded_token_read data_dir w token w' :
  load_or_generate_api_token data_dir w = (Ok token, w') →
  ∃ text, file_at w' (api_token_path data_dir) = Some text ∧ trim text = token.
Proof.
  unfold load_or_generate_api_token. intros (?&w1&_&Hrun)%run_bind_Ok. cbv zeta in Hrun.
  apply run_bind_Ok in Hrun as (read&w2&Hread&Hrun). apply (proj1 (run_catch_Ok _ _ _ _)) in Hread.
  destruct read as [text|error].
  - apply (kf_read (file_at := file_at)) in Hread as [Hsame Hread]. apply run_bind_Ok in Hrun as (?&w3&Hmode&Hrun).
    apply set_permissions_keeps in Hmode. cbv zeta in Hrun. case_bool_decide; [by eapply generated_token_read|].
    apply run_ret_Ok in Hrun as [<- <-]. exists text. split; [|done]. rewrite Hmode, Hsame. by apply Hread.
  - case_bool_decide; [by eapply generated_token_read|discriminate Hrun].
Qed.

Lemma bound_port_read addr data_dir w actual port_file w' :
  bind_http addr data_dir w = (Ok (actual, port_file), w') →
  port_file = join data_dir PORT_FILE ∧
  file_at w' port_file = Some (pretty (sa_port actual) +:+ LINE_FEED) ∧
  ∀ q, q ≠ port_file → file_at w' q = file_at w q.
Proof.
  unfold bind_http. intros Hrun. apply run_bind_Ok in Hrun as (listener&w1&Hbind&Hrun).
  apply run_bind_Ok in Hrun as (actual'&w2&Hlocal&Hrun). cbv zeta in Hrun.
  apply run_bind_Ok in Hrun as (?&w3&Hwrite&Hrun). apply run_ret_Ok in Hrun as [[= <- <-] <-].
  apply (proj1 (run_mapping_Ok _ _ _ _ _)) in Hbind, Hlocal, Hwrite.
  pose proof (kf_bind addr w) as H1. pose proof (kf_local listener w1) as H2.
  rewrite Hbind in H1. rewrite Hlocal in H2. simpl in *. destruct x.
  apply (kf_write (file_at := file_at)) in Hwrite as [Hset Hother].
  2:{ right. exists (pretty (sa_port actual')). by split; [apply plain_pretty_N|]. }
  split; [done|]. split; [done|]. intros q Hq. by rewrite Hother, H2, H1.
Qed.
End files.

(** C23 The command line finds the daemon: a daemon that has its token and has bound
    its socket in a data directory leaves there what a command line that is
    pointed at the directory needs; it builds a client with the daemon's token
    for the daemon's port, on 127.0.0.1 whatever loopback address the daemon
    listens on. *)
Theorem client_finds_daemon {W : Type} `{F : !Fs W} `{LF : !LocalFiles W} `{SO : !Sockets W} `{HE : !HostEnv W}
    (file_at : W → path → option string) (data_dir : path) (token : string) (addr actual : SocketAddr)
    (port_file : path) (w0 w1 w2 w3 : W) :
  KeepsFiles file_at →
  load_or_generate_api_token data_dir w0 = (Ok token, w1) →
  file_at w2 (api_token_path data_dir) = file_at w1 (api_token_path data_dir) →
  bind_http addr data_dir w2 = (Ok (actual, port_file), w3) →
  (0 < sa_port actual ≤ u16_max)%N →
  let o := {| op_server := None; op_data_dir := Some data_dir; op_token := None; op_token_file := None |} in
  (into_client o w3).1 =
    Ok {| sy_server := "http://127.0.0.1:" +:+ pretty (sa_port actual); sy_token := token |}.
Proof.
  intros KF Htoken Hkept Hbind Hport o.
  apply (loaded_token_read file_at) in Htoken as (text&Htext&Htrim).
  apply (bound_port_read file_at) in Hbind as (->&Hfile&Hother).
  assert (Htext3 : file_at w3 (api_token_path data_dir) = Some text).
  { rewrite Hother by apply join_differs. by rewrite Hkept. }
  unfold into_client, resolved_data_dir, server_from_port_file, read_api_token. cbn [op_data_dir op_server op_token op_token_file o default].
  unfold mapping_err, mbind, Run_bind, mret, Run_ret, option_bind. cbv zeta.
  destruct (lf_read_to_string (join data_dir PORT_FILE) w3) as [r1 w4] eqn:Hr1.
  apply (kf_read (file_at := file_at)) in Hr1 as [Hsame Hr1]. apply Hr1 in Hfile as ->. simpl.
  rewrite trim_line by apply plain_pretty_N. rewrite parse_u16_pretty by done.
  destruct (lf_read_to_string _ w4) as [r2 w5] eqn:Hr2.
  apply (kf_read (file_at := file_at)) in Hr2 as [_ Hr2]. rewrite Hsame in Hr2. apply Hr2 in Htext3 as ->.
  simpl. unfold new_client, loopback_server. rewrite Htrim, drop_slashes_app; [done| |apply pretty_no_slash].
  intros He. pose proof (parse_u16_pretty _ Hport) as Hp. by rewrite He in Hp.
Qed.
