(* ===== verification/Asking.v ===== *)
(** * The command line and the API

    A command line that talks to a daemon through an HTTP library and a web
    framework that do what they document does what the handler does: the client's
    paths, methods, headers and bodies are those the router and its extractors
    expect, and the client reads the answers the handlers give. *)

From S2P Require Import Prelude Wire Identity Core Text Effects Files Containment Store Claims Approvals Ports.
From S2P Require Import Sandbox RunnerSpec Scheduling Workspaces Proofs Workers Trust Orchestrator Transport.
From S2P Require Import TurnFacts Auth WorkflowConfig Literals Api Requests ApiClient Cli.
Import Reconcile.

(** ** Words of a URL *)

(** A text that stands for itself in a path and in a query. *)
Definition url_word (s : string) : Prop :=
  s ≠ "" ∧ s ≠ "." ∧ s ≠ ".." ∧ str_all is_allowed_identifier_byte s = true.
#[export] Instance url_word_dec s : Decision (url_word s).
Proof. apply _. Defined.

Lemma url_word_plain s : url_word s → plain_name s = true.
Proof.
  intros (H1&H2&H3&Hb). unfold plain_name. rewrite (allowed_no_slash _ Hb). by rewrite !bool_decide_eq_false_2.
Qed.

Lemma allowed_plain c : is_allowed_identifier_byte c = true → plain_char c = true.
Proof. by destruct c as [[] [] [] [] [] [] [] []]. Qed.

Lemma url_word_segment label s : url_word s → safe_proof_segment label s = Ok s.
Proof.
  intros Hs. pose proof (url_word_plain _ Hs) as Hp. destruct (plain_component _ Hp) as (Hslash&Habs&Hc&Hdot).
  destruct Hs as (H1&_&_&Hb). unfold safe_proof_segment. rewrite Hslash, Habs, (components_relative _ Habs),
    (split_char_single _ _ Hslash).
  assert (Hblank : is_blank s = false).
  { destruct s as [|c s]; [done|]. cbn [str_all] in Hb. apply andb_true_iff in Hb as [Hc' _].
    unfold is_blank, trim_start. by rewrite trim_start_fuel_stop by (by apply plain_not_ws, allowed_plain). }
  assert (Hback : contains_char "\" s = false).
  { clear -Hb. induction s as [|c s IH]; [done|]. cbn [str_all] in Hb. apply andb_true_iff in Hb as [Hc Hb].
    cbn [contains_char]. rewrite IH by done. rewrite orb_false_r. apply bool_decide_false. intros ->. by vm_compute in Hc. }
  rewrite Hblank, Hback. cbn [orb].
  destruct s as [|[[] [] [] [] [] [] [] []] [|]]; try done; cbn [relative_components omap list_omap]; by rewrite Hc.
Qed.

(** ** Between client and handlers *)

(** What the router gets of a client's request, and what a client gets of an
    answer. *)
Class HttpStack `{J : Json} := {
  hs_request : HttpRequest → Request;
  hs_response : Response → HttpResponse
}.

(** The fields of an issue that are sent under their names. *)
Definition same_issue `{J : Json} (i i' : Issue) : Prop :=
  iss_id i = iss_id i' ∧ iss_identifier i = iss_identifier i' ∧ iss_title i = iss_title i' ∧
  iss_description i = iss_description i' ∧ iss_priority i = iss_priority i' ∧ iss_state i = iss_state i' ∧
  iss_labels i = iss_labels i' ∧ iss_claim i = iss_claim i' ∧ iss_handoff i = iss_handoff i'.

(** What the client decodes from the body of a reply. *)
Definition carries `{J : Json} `{AW : !ApiWire} (reply : Reply) (body : bytes) : Prop :=
  match reply with
  | ReplyTasks tasks => dec_api_tasks body = Ok tasks
  | ReplyTask detail => ∃ i, dec_api_issue body = Ok i ∧ same_issue i (td_issue detail)
  | ReplyIssue issue => ∃ i, dec_api_issue body = Ok i ∧ same_issue i issue
  | ReplyStatus status => dec_api_status body = Ok status
  | ReplyWorkers workers => dec_api_workers body = Ok workers
  | ReplyPending pending => dec_api_pending body = Ok pending
  | ReplyApproval event => dec_api_approval body = Ok event
  | ReplyClaim id by_ => dec_api_claim body = Ok (id, by_)
  | ReplyHandoff id recorded => dec_api_handoff body = Ok (id, recorded)
  | ReplyRoutes routes => dec_api_routes body = Ok routes
  | ReplyProofs names => dec_api_proofs body = Ok names
  | ReplyProof name content => dec_api_proof body = Ok (name, content)
  | ReplyArtefact (ArtefactJson proof) => dec_api_proof body = Ok proof
  | ReplyArtefact (ArtefactText _ _) | ReplyHealth | ReplyEvents => True
  end.

Definition patterns : list string := route_table.*1.*2.

(** What the HTTP library, the web framework and serde_json document, for a
    server at an address.  A target is a path, or a path with a query. *)
Class StackLaws `{J : Json} `{JT : !JsonTree} `{AW : !ApiWire} `{HT : HttpText} `{AX : !Axum} `{ST : !HttpStack}
    (server : string) : Prop := {
  hs_method r : rq_method (hs_request r) = hr_method r;
  hs_bearer r token : hr_bearer r = Some token → rq_authorization (hs_request r) = Some ("Bearer " +:+ token);
  hs_accept r value : hr_accept r = Some value → rq_accept (hs_request r) = Some value;
  (** a path of words is sent as it is, and so is a query *)
  hs_path r words : Forall url_word words → hr_url r = server +:+ "/" +:+ str_join "/" words →
    rq_path (hs_request r) = "/" +:+ str_join "/" words ∧ rq_query (hs_request r) = None;
  hs_query r words key value : Forall url_word words → url_word key → url_word value →
    hr_url r = server +:+ "/" +:+ str_join "/" words +:+ "?" +:+ key +:+ "=" +:+ value →
    rq_path (hs_request r) = "/" +:+ str_join "/" words ∧ rq_query (hs_request r) = Some (key +:+ "=" +:+ value);
  (** a route without captures goes before those with; a capture is a segment; a
      wildcard is the rest *)
  ax_exact p : p ∈ patterns → contains_char "{" p = false → ax_match patterns p = Some (p, []);
  ax_capture prefix id : (prefix +:+ "{id}") ∈ patterns → url_word id → (prefix +:+ id) ∉ patterns →
    ax_match patterns (prefix +:+ id) = Some (prefix +:+ "{id}", [id]);
  ax_artefact issue_id ts file : url_word issue_id → url_word ts →
    ("/symphony/proofs/{issue_id}/{ts}/" +:+ file) ∈ patterns →
    ax_match patterns ("/symphony/proofs/" +:+ str_join "/" [issue_id; ts; file]) =
      Some ("/symphony/proofs/{issue_id}/{ts}/" +:+ file, [issue_id; ts]);
  ax_rest words : Forall url_word words → words ≠ [] →
    (∀ issue_id ts file, words = [issue_id; ts; file] → ("/symphony/proofs/{issue_id}/{ts}/" +:+ file) ∉ patterns) →
    ax_match patterns ("/symphony/proofs/" +:+ str_join "/" words) =
      Some ("/symphony/proofs/{*name}", [str_join "/" words]);
  (** the extractors of what the client sends *)
  ax_no_state r : rq_query r = None → ax_tasks_query r = Ok None;
  ax_state r state : url_word state → rq_query r = Some ("state=" +:+ state) → ax_tasks_query r = Ok (Some state);
  ax_draft r draft : hr_json r = Some (js_issue_draft draft) → ax_issue_draft (hs_request r) = Ok draft;
  ax_handoff r handoff : hr_json r = Some (js_handoff_request handoff) → ax_handoff_request (hs_request r) = Ok handoff;
  ax_submit r submit : hr_json r = Some (js_submit_request submit) → ax_submit_request (hs_request r) = Ok submit;
  (** a reply, and a refusal: an object with the text under "error" *)
  hs_replied reply : rs_status (hs_response (Replied reply)) = 200%N ∧
    ∃ body, rs_body (hs_response (Replied reply)) = Ok body ∧ carries reply body;
  hs_refused status text : rs_status (hs_response (Refused status text)) = status ∧
    ∃ body value fields, rs_body (hs_response (Refused status text)) = Ok body ∧
      dec_json (ht_body body) = Ok value ∧ as_object value = Some fields ∧
      (fields !! "error") ≫= as_text = Some text
}.

(** ** What the client is told *)

Section asking.
Context `{X : Extern} `{J : Json} `{JT : !JsonTree} `{C : Chrono} `{V : ApprovalCodec} `{CF : ChronoFormat}.
Context `{HT : HttpText} `{AW : !ApiWire} `{RC : !RunnerCodec} `{DS : DebugStr}.
Context {W T : Type} `{TX : !TrackerText T} `{TA : !TrackerApi W T} `{SA : !SigningApi W} `{M : !Machine W}
  `{HE : !HostEnv W} `{F : !Fs W} `{LF : !LocalFiles W} `{EB : !EventBus W} `{AX : !Axum} `{ST : !HttpStack}.
Context (state : AppState W).

(** The daemon at the other end. *)
Definition loopback : Transport W := {|
  tp_send r := λ w, let '(response, w) := serve (T := T) state (hs_request r) w in (Ok (hs_response response), w) |}.
#[local] Existing Instance loopback.

Definition error_body (status : N) (text : string) : string :=
  match rs_body (hs_response (Refused status text)) with Ok body => ht_body body | Err _ => "" end.
Definition refusal (e : ApiError) : CallError := CeHttp (error_status e) (error_body (error_status e) (show_api e)).

(** A handler's run as a part of a command, and the command on the handlers. *)
Definition told {A} (c : Handling A) : Dispatch (W := W) A := mapping_err (λ e, ClClient (refusal e)) c.

Definition told_verdict (verdict : string) (c : Handling ApprovalEvent) : Dispatch (W := W) Output :=
  answer ← catch c;
  match answer with
  | Ok event => mret (output_success (av_issue_id event +:+ " " +:+ verdict +:+ LINE_FEED))
  | Err (AeConflict message) => mret (output_failure (conflict_text ("conflict: " +:+ message)))
  | Err e => throw (ClClient (refusal e))
  end.

Definition told_command (command : Commands) : Dispatch (W := W) Output :=
  match command with
  | CmdTasks _ (Some id) =>
      detail ← told (task_detail (T := T) id); mret (output_success (format_task_detail (td_issue detail)))
  | CmdTasks filter None =>
      rows ← told (tasks (T := T) filter); mret (output_success (format_tasks rows))
  | CmdClaim id =>
      claim ← told (claim_issue (T := T) state id);
      mret (output_success ("claimed " +:+ claim.1 +:+ " by " +:+ claim.2 +:+ LINE_FEED))
  | CmdHandoff id message file =>
      _ ← told (handoff_issue (T := T) id {| hq_message := message; hq_file := file |});
      mret (output_success ("handoff recorded for " +:+ id +:+ LINE_FEED))
  | CmdStatus => answer ← told (status (T := T) state); mret (output_success (format_status answer))
  | CmdWorkers =>
      answer ← told (workers state); text ← format_workers (wr_workers answer); mret (output_success text)
  | CmdApprovals ApprovalsList =>
      rows ← told (approvals_pending (T := T) state); mret (output_success (format_pending_approvals rows))
  | CmdApprovals (ApprovalsApprove id hash signer) =>
      told_verdict "approved" (submit_approval (T := T) state id
        {| sq_verdict := V1Approve; sq_expected_content_hash := hash; sq_expected_signer_agent_id := signer |})
  | CmdApprovals (ApprovalsDeny id hash signer) =>
      told_verdict "denied" (submit_approval (T := T) state id
        {| sq_verdict := V1Deny; sq_expected_content_hash := hash; sq_expected_signer_agent_id := signer |})
  | CmdProofs ProofsList => names ← told (list_proofs state); mret (output_success (format_proofs names))
  | CmdProofs (ProofsShow name) =>
      proof ← told (show_proof_by_name state name); mret (output_success (ensure_trailing_newline proof.2))
  | CmdRoutes => mret (output_success (format_routes route_infos))
  | CmdIssue (IssueNew _ title description priority labels) =>
      issue ← told (create_issue (T := T) {|
        id_title := title; id_description := if is_blank description then None else Some description;
        id_priority := Z.of_N <$> priority; id_labels := labels |});
      mret (output_success ("created " +:+ iss_identifier issue +:+ LINE_FEED))
  | CmdConfig _ => mret (output_failure INTERNAL_ERROR)
  end.

(** The arguments that become parts of a URL are words; the path of the issue
    with the id "pending" is that of the pending approvals. *)
Definition plain_command (command : Commands) : Prop :=
  match command with
  | CmdTasks _ (Some id) | CmdClaim id | CmdHandoff id _ _ => url_word id
  | CmdTasks (Some filter) None => url_word filter
  | CmdApprovals (ApprovalsApprove id _ _ | ApprovalsDeny id _ _) => url_word id ∧ id ≠ "pending"
  | CmdProofs (ProofsShow name) => ∃ words, words ≠ [] ∧ Forall url_word words ∧ name = str_join "/" words
  | _ => True
  end.

Context (c : SymphonyClient) `{SL : !StackLaws (sy_server c)}.

(** *** Requests *)

(** A request of the client on its way: words in the path, its token. *)
Record arrives (r : HttpRequest) (p : string) (query : option string) : Prop := {
  av_method : rq_method (hs_request r) = hr_method r;
  av_path : rq_path (hs_request r) = p;
  av_query : rq_query (hs_request r) = query;
  av_bearer : rq_authorization (hs_request r) = Some ("Bearer " +:+ sy_token c)
}.

Lemma words_arrive r words :
  Forall url_word words → hr_bearer r = Some (sy_token c) →
  hr_url r = client_url c ("/" +:+ str_join "/" words) → arrives r ("/" +:+ str_join "/" words) None.
Proof.
  intros Hw Hb Hurl. destruct (hs_path r words Hw Hurl) as [Hp Hq].
  split; [apply hs_method|done|done|by apply hs_bearer].
Qed.
Lemma query_arrives r words key value :
  Forall url_word words → url_word key → url_word value → hr_bearer r = Some (sy_token c) →
  hr_url r = client_url c ("/" +:+ str_join "/" words +:+ "?" +:+ key +:+ "=" +:+ value) →
  arrives r ("/" +:+ str_join "/" words) (Some (key +:+ "=" +:+ value)).
Proof.
  intros Hw Hk Hv Hb Hurl. destruct (hs_query r words key value Hw Hk Hv Hurl) as [Hp Hq].
  split; [apply hs_method|done|done|by apply hs_bearer].
Qed.

(** *** Answers *)

Lemma error_status_failure e : is_success (error_status e) = false.
Proof. by destruct e. Qed.

Lemma api_refused {A} (dec : bytes → result A string) url status text :
  is_success status = false →
  api_response dec url (hs_response (Refused status text)) = Err (CeHttp status (error_body status text)).
Proof.
  intros Hs. destruct (hs_refused status text) as [Hstatus (body&_&_&Hbody&_)].
  unfold api_response, decoded_or, response_text, error_body. by rewrite Hstatus, Hs, Hbody.
Qed.

(** The answer to a request that a handler serves: its value as the client
    decodes it, or its refusal. *)
Lemma call_related {A B} (R : A → B → Prop) (dec : bytes → result B string) r (reply : A → Reply) (h : Handling A) :
  (∀ w, serve (T := T) state (hs_request r) w = respond reply h w) →
  (∀ a body, carries (reply a) body → ∃ b, dec body = Ok b ∧ R a b) →
  ∀ w, match h w with
       | (Ok a, w') => ∃ b, api_call dec r w = (Ok b, w') ∧ R a b
       | (Err e, w') => api_call dec r w = (Err (refusal e), w')
       end.
Proof.
  intros Hserve Hdec w. unfold api_call, mapping_err, mbind, Run_bind, lift_result, tp_send, loopback.
  rewrite Hserve. unfold respond. destruct (h w) as [[a|e] w']; cbn [map_err].
  - destruct (hs_replied (reply a)) as [Hstatus (body&Hbody&Hcarries)].
    destruct (Hdec a body Hcarries) as (b&Hb&HR). exists b. split; [|done].
    assert (Hresponse : api_response dec (hr_url r) (hs_response (Replied (reply a))) = Ok b).
    { unfold api_response. apply decoded_or_Ok. rewrite Hstatus. split; [done|by exists body]. }
    by rewrite Hresponse.
  - by rewrite api_refused by apply error_status_failure.
Qed.
Lemma call_exact {A} (dec : bytes → result A string) r (reply : A → Reply) (h : Handling A) :
  (∀ w, serve (T := T) state (hs_request r) w = respond reply h w) →
  (∀ a body, carries (reply a) body → dec body = Ok a) →
  ∀ w, api_call dec r w = mapping_err refusal h w.
Proof.
  intros Hserve Hdec w.
  pose proof (call_related eq dec r reply h Hserve (λ a body Hb, ex_intro _ a (conj (Hdec a body Hb) eq_refl)) w) as Hc.
  unfold mapping_err. destruct (h w) as [[a|e] w']; [by destruct Hc as (b&->&->)|by rewrite Hc].
Qed.

(** *** Routes *)

Definition find_route (method pattern : string) : option (string * string * Handler) :=
  List.find (λ route, bool_decide (route.1.2 = pattern) && method_matches route.1.1 method) route_table.

Lemma serve_found r p query pattern params route handler :
  arrives r p query → sy_token c = st_api_token state →
  ax_match patterns p = Some (pattern, params) →
  find_route (hr_method r) pattern = Some (route, pattern, handler) →
  ∀ w, serve (T := T) state (hs_request r) w = call_handler (T := T) state handler params (hs_request r) w.
Proof.
  intros [Hmethod Hpath _ Hbearer] Htoken Hmatch Hfind w. unfold serve.
  assert (Hpass : may_pass (hs_request r) (st_api_token state) = true).
  { apply may_pass_spec. right. exists (sy_token c). split; [by left|congruence]. }
  rewrite Hpass. unfold routed. fold patterns. rewrite Hpath, Hmatch, Hmethod.
  unfold find_route in Hfind. by rewrite Hfind.
Qed.

(** Without the token a request gets no further. *)
Lemma serve_refused r p query :
  arrives r p query → sha256 (sy_token c) ≠ sha256 (st_api_token state) →
  hr_method r ∈ ["GET"; "POST"] → p ≠ "/health" → p ≠ "/symphony/events" →
  ∀ w, serve (T := T) state (hs_request r) w = (Refused 401 AUTH_ERROR, w).
Proof.
  intros [Hmethod Hpath _ Hbearer] Htoken Hm Hp1 Hp2 w. unfold serve.
  destruct (may_pass (hs_request r) (st_api_token state)) eqn:Hpass; [|done].
  apply may_pass_spec in Hpass as [[Ho|Hh]|(token&[Hb|[He _]]&Hsha)].
  - rewrite Hmethod in Ho. rewrite Ho in Hm. set_solver.
  - congruence.
  - rewrite Hbearer in Hb. apply (inj Some), (inj (String.append "Bearer ")) in Hb. congruence.
  - congruence.
Qed.
Lemma call_refused {A} (dec : bytes → result A string) r w :
  serve (T := T) state (hs_request r) w = (Refused 401 AUTH_ERROR, w) →
  api_call dec r w = (Err (CeHttp 401 (error_body 401 AUTH_ERROR)), w).
Proof.
  intros Hserve. unfold api_call, mapping_err, mbind, Run_bind, lift_result, tp_send, loopback.
  rewrite Hserve. cbn [map_err]. by rewrite api_refused.
Qed.

(** *** Calls *)

Lemma bind_same {S E A B} (c1 c2 : Run S E A) (f1 f2 : A → Run S E B) w :
  c1 w = c2 w → (∀ a w', c2 w = (Ok a, w') → f1 a w' = f2 a w') → (c1 ≫= f1) w = (c2 ≫= f2) w.
Proof.
  intros Hc Hf. unfold mbind, Run_bind. rewrite Hc. destruct (c2 w) as [[a|e] w']; [by apply Hf|done].
Qed.
Lemma asking_mapping {A} (g : ApiError → CallError) (h : Handling A) (call : Run W CallError A) w :
  call w = mapping_err g h w → asking call w = mapping_err (λ e, ClClient (g e)) h w.
Proof. unfold asking, mapping_err. intros ->. by destruct (h w) as [[a|e] w']. Qed.

(** A call whose answer is read as it was given. *)
Lemma told_exact {A} (dec : bytes → result A string) r (reply : A → Reply) (h : Handling A)
    p query pattern params route handler :
  sy_token c = st_api_token state → arrives r p query →
  ax_match patterns p = Some (pattern, params) →
  find_route (hr_method r) pattern = Some (route, pattern, handler) →
  (∀ w, call_handler (T := T) state handler params (hs_request r) w = respond reply h w) →
  (∀ a body, carries (reply a) body → dec body = Ok a) →
  ∀ w, api_call dec r w = mapping_err refusal h w.
Proof.
  intros Htoken Ha Hmatch Hfind Hcall Hdec. apply call_exact with reply; [|done]. intros w.
  by rewrite (serve_found r p query pattern params route handler).
Qed.
(** A call that answers with an issue. *)
Lemma told_issue {A} r (reply : A → Reply) (issue_of : A → Issue) (h : Handling A)
    p query pattern params route handler :
  sy_token c = st_api_token state → arrives r p query →
  ax_match patterns p = Some (pattern, params) →
  find_route (hr_method r) pattern = Some (route, pattern, handler) →
  (∀ w, call_handler (T := T) state handler params (hs_request r) w = respond reply h w) →
  (∀ a body, carries (reply a) body → ∃ i, dec_api_issue body = Ok i ∧ same_issue i (issue_of a)) →
  ∀ (text : Issue → string), (∀ i i', same_issue i i' → text i = text i') → ∀ w,
    (issue ← asking (api_call dec_api_issue r); mret (output_success (text issue))) w =
    (a ← told h; mret (output_success (text (issue_of a)))) w.
Proof.
  intros Htoken Ha Hmatch Hfind Hcall Hdec text Htext w.
  pose proof (call_related (λ a i, same_issue i (issue_of a)) dec_api_issue r reply h
    (λ w, eq_trans (serve_found r p query pattern params route handler Ha Htoken Hmatch Hfind w) (Hcall w)) Hdec w) as Hr.
  unfold asking, told, mapping_err, mbind, Run_bind, mret, Run_ret.
  destruct (h w) as [[a|e] w']; [destruct Hr as (i&->&Hi)|rewrite Hr]; simpl; [by rewrite (Htext i (issue_of a))|done].
Qed.

Lemma exact_route p : p ∈ patterns → contains_char "{" p = false → ax_match patterns p = Some (p, []).
Proof. apply ax_exact. Qed.

Lemma error_detail status text : daemon_error_detail (error_body status text) = Some text.
Proof.
  destruct (hs_refused status text) as [_ (body&value&fields&Hbody&Hjson&Hobject&Htext)].
  unfold daemon_error_detail, error_body. rewrite Hbody, Hjson, Hobject. exact Htext.
Qed.

Lemma verdict_told verdict (h : Handling ApprovalEvent) (call : Run W CallError ApprovalEvent) w :
  call w = mapping_err refusal h w → run_verdict verdict call w = told_verdict verdict h w.
Proof.
  unfold run_verdict, told_verdict, catch, mbind, Run_bind, mapping_err. intros ->.
  destruct (h w) as [[event|e] w']; [done|]. cbn [map_err]. unfold approval_error_output, refusal.
  destruct e; try reflexivity. cbn [error_status]. change (409 =? 409)%N with true. cbv iota.
  unfold format_approval_conflict. by rewrite error_detail.
Qed.

(** What a refusal becomes when no one looks at its text. *)
Lemma verdict_refused verdict (call : Run W CallError ApprovalEvent) w status body :
  call w = (Err (CeHttp status body), w) → status ≠ 409%N →
  run_verdict verdict call w = (Err (ClClient (CeHttp status body)), w).
Proof.
  unfold run_verdict, catch, mbind, Run_bind. intros -> Hs. unfold approval_error_output.
  by rewrite (proj2 (N.eqb_neq _ _) Hs).
Qed.

Lemma same_detail i i' : same_issue i i' → format_task_detail i = format_task_detail i'.
Proof.
  intros (H1&H2&H3&H4&H5&H6&H7&H8&H9). unfold format_task_detail. by rewrite H1, H2, H3, H5, H6, H7, H8, H9.
Qed.
Lemma handoff_value id request w p w' : handoff_issue (T := T) id request w = (Ok p, w') → p = (id, true).
Proof.
  unfold handoff_issue. destruct (is_blank _); [done|]. intros Hrun. run_inv. done.
Qed.

(** *** The client's requests arrive *)

Lemma get_arrives words : Forall url_word words →
  arrives (api_get c ("/" +:+ str_join "/" words)) ("/" +:+ str_join "/" words) None.
Proof. intros Hw. by apply words_arrive. Qed.
Lemma post_arrives words body : Forall url_word words →
  arrives (api_post c ("/" +:+ str_join "/" words) body) ("/" +:+ str_join "/" words) None.
Proof. intros Hw. by apply words_arrive. Qed.
Lemma state_arrives filter : url_word filter →
  arrives (api_get c (tasks_path (Some filter))) "/symphony/tasks" (Some ("state=" +:+ filter)).
Proof.
  intros Hw. apply (query_arrives _ ["symphony"; "tasks"] "state" filter); try done.
  by repeat constructor; apply (bool_decide_unpack _); vm_compute.
Qed.

Lemma proof_arrives words : words ≠ [] → Forall url_word words →
  arrives (api_get c ("/symphony/proofs/" +:+ str_join "/" words)) ("/symphony/proofs/" +:+ str_join "/" words) None.
Proof.
  intros Hne Hw. assert (Hpath : "/symphony/proofs/" +:+ str_join "/" words =
    "/" +:+ str_join "/" ("symphony" :: "proofs" :: words)) by (by destruct words).
  rewrite Hpath. apply get_arrives. do 2 (apply List.Forall_cons; [by apply (bool_decide_unpack _); vm_compute|]).
  exact Hw.
Qed.

(** The names below the proofs: three words of which the last is an artefact, or
    anything else. *)
Definition ARTEFACT_PREFIX : string := "/symphony/proofs/{issue_id}/{ts}/".
Lemma artefact_file file : (ARTEFACT_PREFIX +:+ file) ∈ patterns → file ∈ ["manifest.json"; "stdout.log"; "stderr.log"].
Proof.
  intros Hin. apply (list_elem_of_fmap_2 (strip_prefix ARTEFACT_PREFIX)) in Hin.
  rewrite (proj2 (strip_prefix_Some ARTEFACT_PREFIX _ file) eq_refl) in Hin.
  change (strip_prefix ARTEFACT_PREFIX <$> patterns) with
    (replicate 13 None ++ [Some "manifest.json"; Some "stdout.log"; Some "stderr.log"; None]) in Hin.
  rewrite elem_of_app, elem_of_replicate, !elem_of_cons in Hin. rewrite !elem_of_cons.
  destruct Hin as [[Hn _]|[Hf|[Hf|[Hf|[Hf|Hf]]]]]; try discriminate; try (injection Hf as ->; auto).
  by apply elem_of_nil in Hf.
Qed.

(** The routes with one capture. *)
Lemma word_route prefix id :
  (prefix +:+ "{id}") ∈ patterns → url_word id → id ∉ omap (strip_prefix prefix) patterns →
  ax_match patterns (prefix +:+ id) = Some (prefix +:+ "{id}", [id]).
Proof.
  intros Hp Hid Hnot. apply ax_capture; [done..|]. intros Hin. apply Hnot, list_elem_of_omap.
  eexists. split; [exact Hin|]. by apply strip_prefix_Some.
Qed.
Lemma word_not_capture id : url_word id → id ≠ "{id}".
Proof. intros (_&_&_&Hb) ->. discriminate Hb. Qed.

(** *** Every command *)

Ltac words := repeat first
  [apply List.Forall_nil|apply List.Forall_cons; [first [assumption|by apply (bool_decide_unpack _); vm_compute]|]].
Ltac arrive list := first [apply (get_arrives list); words|apply (post_arrives list); words].

(** Without the token no command gets an answer, and nothing happens. *)
Definition unauthorised : CliError := ClClient (CeHttp 401 (error_body 401 AUTH_ERROR)).

Lemma refused_at {A} (dec : bytes → result A string) r p query w :
  sha256 (sy_token c) ≠ sha256 (st_api_token state) → arrives r p query →
  hr_method r ∈ ["GET"; "POST"] → p ≠ "/health" → p ≠ "/symphony/events" →
  api_call dec r w = (Err (CeHttp 401 (error_body 401 AUTH_ERROR)), w).
Proof. intros Hw Ha Hm H1 H2. by apply call_refused, (serve_refused r p query). Qed.
Lemma asking_refused {A B} (call : Run W CallError A) (f : A → Dispatch (W := W) B) w :
  call w = (Err (CeHttp 401 (error_body 401 AUTH_ERROR)), w) → (asking call ≫= f) w = (Err unauthorised, w).
Proof. unfold asking, mapping_err, mbind, Run_bind. by intros ->. Qed.

Lemma command_refused command w :
  sha256 (sy_token c) ≠ sha256 (st_api_token state) → plain_command command →
  (∀ config, command ≠ CmdConfig config) → run_with c command w = (Err unauthorised, w).
Proof.
  intros Hwrong Hplain Hconfig.
  assert (Hverdict : ∀ text verdict id hash signer, url_word id →
    run_verdict text (client_submit_approval c id verdict hash signer) w = (Err unauthorised, w)).
  { intros text verdict id hash signer Hid. apply verdict_refused; [|done].
    eapply refused_at; [exact Hwrong|arrive ["symphony"; "approvals"; id]|set_solver|done..]. }
  destruct command as [filter [id|]|id|id message file| | |command|command|command|command|];
    cbn [plain_command] in Hplain.
  - destruct filter; apply asking_refused;
      (eapply refused_at; [exact Hwrong|arrive ["symphony"; "tasks"; id]|set_solver|done..]).
  - apply asking_refused. destruct filter as [filter|].
    + eapply refused_at; [exact Hwrong|by apply state_arrives|set_solver|done..].
    + eapply refused_at; [exact Hwrong|arrive ["symphony"; "tasks"]|set_solver|done..].
  - apply asking_refused; eapply refused_at; [exact Hwrong|arrive ["symphony"; "claim"; id]|set_solver|done..].
  - apply asking_refused; eapply refused_at; [exact Hwrong|arrive ["symphony"; "handoff"; id]|set_solver|done..].
  - apply asking_refused; eapply refused_at; [exact Hwrong|arrive ["symphony"; "status"]|set_solver|done..].
  - apply asking_refused. unfold client_workers, mbind, Run_bind.
    erewrite refused_at; [done|exact Hwrong|arrive ["symphony"; "workers"]|set_solver|done..].
  - destruct command; [|destruct Hplain; by apply Hverdict..].
    apply asking_refused; eapply refused_at;
      [exact Hwrong|arrive ["symphony"; "approvals"; "pending"]|set_solver|done..].
  - destruct command as [|name]; apply asking_refused.
    + eapply refused_at; [exact Hwrong|arrive ["symphony"; "proofs"]|set_solver|done..].
    + destruct Hplain as (words&Hne&Hw&->). eapply refused_at;
        [exact Hwrong|by apply proof_arrives|set_solver|done..].
  - destruct command. apply asking_refused; eapply refused_at;
      [exact Hwrong|arrive ["symphony"; "issues"]|set_solver|done..].
  - by destruct (Hconfig command).
  - apply asking_refused; eapply refused_at; [exact Hwrong|arrive ["symphony"; "routes"]|set_solver|done..].
Qed.

Context (Htoken : sy_token c = st_api_token state).

Ltac exactly := apply exact_route; [by apply (bool_decide_unpack _); vm_compute|reflexivity].
Ltac captured prefix id :=
  apply (word_route prefix id); [by apply (bool_decide_unpack _); vm_compute|assumption|];
  let others := eval vm_compute in (omap (strip_prefix prefix) patterns) in
  change (id ∉ others); rewrite !elem_of_cons, elem_of_nil;
  pose proof (word_not_capture id); naive_solver.
(** The call of a request to the path of [list] is the run of its handler. *)
Ltac asks reply list pattern params handler route :=
  apply asking_mapping;
  cbv beta delta [client_tasks client_status client_claim client_handoff client_routes client_proofs client_proof
                  client_approvals_pending client_approve client_deny client_submit_approval];
  eapply (told_exact _ _ reply _ _ _ pattern params _ handler);
  [exact Htoken|arrive list|route|reflexivity|try reflexivity|first [done|by intros []]].

Lemma status_told w : run_with c CmdStatus w = told_command CmdStatus w.
Proof.
  apply bind_same; [|done].
  asks ReplyStatus ["symphony"; "status"] "/symphony/status" (@nil string) HStatus exactly.
Qed.
Lemma routes_told w : run_with c CmdRoutes w = told_command CmdRoutes w.
Proof.
  change (told_command CmdRoutes w) with
    ((routes ← told (mret route_infos); mret (output_success (format_routes routes))) w).
  apply bind_same; [|done].
  asks ReplyRoutes ["symphony"; "routes"] "/symphony/routes" (@nil string) HRoutes exactly.
Qed.
Lemma claim_told id w : url_word id → run_with c (CmdClaim id) w = told_command (CmdClaim id) w.
Proof.
  intros Hid. apply bind_same; [|done].
  asks (λ p : string * string, ReplyClaim p.1 p.2) ["symphony"; "claim"; id] "/symphony/claim/{id}" [id] HClaimIssue
    ltac:(captured "/symphony/claim/" id).
Qed.
Lemma handoff_told id message file w :
  url_word id → run_with c (CmdHandoff id message file) w = told_command (CmdHandoff id message file) w.
Proof.
  intros Hid. apply bind_same.
  - asks (λ p : string * bool, ReplyHandoff p.1 p.2) ["symphony"; "handoff"; id] "/symphony/handoff/{id}" [id]
      HHandoffIssue ltac:(captured "/symphony/handoff/" id).
    intros w'. cbn [call_handler]. erewrite ax_handoff by done. reflexivity.
  - intros response w' Hrun. unfold told in Hrun. apply run_mapping_Ok, handoff_value in Hrun as ->. done.
Qed.
Lemma tasks_told filter w :
  match filter with Some filter => url_word filter | None => True end →
  run_with c (CmdTasks filter None) w = told_command (CmdTasks filter None) w.
Proof.
  intros Hfilter. apply bind_same; [|done]. apply asking_mapping. unfold client_tasks. destruct filter as [filter|].
  - pose proof (state_arrives filter Hfilter) as Ha.
    eapply (told_exact _ _ ReplyTasks _ _ _ "/symphony/tasks" [] _ HTasks); [exact Htoken|exact Ha|exactly|done| |done].
    intros w'. cbn [call_handler]. by rewrite (ax_state _ filter Hfilter (av_query _ _ _ Ha)).
  - pose proof (get_arrives ["symphony"; "tasks"] ltac:(words)) as Ha.
    eapply (told_exact _ _ ReplyTasks _ _ _ "/symphony/tasks" [] _ HTasks); [exact Htoken|exact Ha|exactly|done| |done].
    intros w'. cbn [call_handler]. by rewrite (ax_no_state _ (av_query _ _ _ Ha)).
Qed.
Lemma workers_told w : run_with c CmdWorkers w = told_command CmdWorkers w.
Proof.
  change (run_with c CmdWorkers w) with
    ((workers ← asking (client_workers c); text ← format_workers workers; mret (output_success text)) w).
  assert (Hcall : api_call dec_api_workers (api_get c "/symphony/workers") w = mapping_err refusal (workers state) w).
  { eapply (told_exact _ _ ReplyWorkers _ _ _ "/symphony/workers" [] _ HWorkers);
      [exact Htoken|arrive ["symphony"; "workers"]|exactly|done..]. }
  unfold told_command, told, client_workers, asking, mapping_err, mbind, Run_bind, mret, Run_ret in *.
  rewrite Hcall. by destruct (workers state w) as [[reply|e] w'].
Qed.
Lemma pending_told w : run_with c (CmdApprovals ApprovalsList) w = told_command (CmdApprovals ApprovalsList) w.
Proof.
  apply bind_same; [|done].
  asks ReplyPending ["symphony"; "approvals"; "pending"] "/symphony/approvals/pending" (@nil string)
    HApprovalsPending exactly.
Qed.
Lemma names_told w : run_with c (CmdProofs ProofsList) w = told_command (CmdProofs ProofsList) w.
Proof.
  apply bind_same; [|done].
  asks ReplyProofs ["symphony"; "proofs"] "/symphony/proofs" (@nil string) HListProofs exactly.
Qed.
Lemma verdict_call verdict id hash signer w :
  url_word id → id ≠ "pending" →
  client_submit_approval c id verdict hash signer w =
  mapping_err refusal (submit_approval (T := T) state id
    {| sq_verdict := verdict; sq_expected_content_hash := hash; sq_expected_signer_agent_id := signer |}) w.
Proof.
  intros Hid Hnot. unfold client_submit_approval.
  eapply (told_exact _ _ ReplyApproval _ _ _ "/symphony/approvals/{id}" [id] _ HSubmitApproval);
    [exact Htoken|arrive ["symphony"; "approvals"; id]|captured "/symphony/approvals/" id|reflexivity| |done].
  intros w'. cbn [call_handler]. erewrite ax_submit by done. reflexivity.
Qed.
Lemma approve_told id hash signer w :
  url_word id ∧ id ≠ "pending" →
  run_with c (CmdApprovals (ApprovalsApprove id hash signer)) w =
  told_command (CmdApprovals (ApprovalsApprove id hash signer)) w.
Proof. intros [Hid Hnot]. by apply verdict_told, verdict_call. Qed.
Lemma deny_told id hash signer w :
  url_word id ∧ id ≠ "pending" →
  run_with c (CmdApprovals (ApprovalsDeny id hash signer)) w =
  told_command (CmdApprovals (ApprovalsDeny id hash signer)) w.
Proof. intros [Hid Hnot]. by apply verdict_told, verdict_call. Qed.

Lemma detail_told filter id w :
  url_word id → run_with c (CmdTasks filter (Some id)) w = told_command (CmdTasks filter (Some id)) w.
Proof.
  intros Hid. eapply (told_issue _ ReplyTask td_issue _ _ _ "/symphony/tasks/{id}" [id] _ HTaskDetail);
    [exact Htoken|arrive ["symphony"; "tasks"; id]|captured "/symphony/tasks/" id|reflexivity..| |apply same_detail].
  done.
Qed.
Lemma issue_told command w : run_with c (CmdIssue command) w = told_command (CmdIssue command) w.
Proof.
  destruct command as [config title description priority labels].
  refine (told_issue _ ReplyIssue id (create_issue _) _ None "/symphony/issues" [] "POST" HCreateIssue
            Htoken _ _ _ _ _ (λ issue, "created " +:+ iss_identifier issue +:+ LINE_FEED) _ w).
  - arrive ["symphony"; "issues"].
  - exactly.
  - reflexivity.
  - intros w'. cbn [call_handler]. erewrite ax_draft by done. reflexivity.
  - done.
  - intros i i' (_&Hi&_). by rewrite Hi.
Qed.

(** A proof under its name: one of a run's artefacts as JSON, or the file. *)
Lemma proof_words words :
  (∃ issue_id ts file, words = [issue_id; ts; file] ∧ file ∈ ["manifest.json"; "stdout.log"; "stderr.log"]) ∨
  (∀ issue_id ts file, words = [issue_id; ts; file] → (ARTEFACT_PREFIX +:+ file) ∉ patterns).
Proof.
  destruct words as [|i [|t [|f [|? ?]]]]; try by right.
  destruct (decide (f ∈ ["manifest.json"; "stdout.log"; "stderr.log"])) as [Hf|Hf]; [left; by eexists _, _, _|].
  right. intros ??? [= <- <- <-] Hin. by apply Hf, artefact_file.
Qed.

Lemma artefact_call request issue_id ts file content_type w :
  url_word issue_id → url_word ts → accepts_json request = true →
  respond ReplyArtefact (show_proof_artifact state request issue_id ts file content_type) w =
  respond (λ p, ReplyArtefact (ArtefactJson p))
    (show_proof_by_name state (str_join "/" [issue_id; ts; file])) w.
Proof.
  intros Hid Hts Haccept. unfold show_proof_artifact, safe_proof_artifact_path.
  rewrite !url_word_segment by done. rewrite Haccept. unfold respond, mbind, Run_bind, lift_result, mret, Run_ret.
  change (str_join "/" [issue_id; ts; file]) with (issue_id +:+ "/" +:+ ts +:+ "/" +:+ file).
  by destruct (show_proof_by_name state (issue_id +:+ "/" +:+ ts +:+ "/" +:+ file) w) as [[p|e] w'].
Qed.

Lemma proof_call words w :
  words ≠ [] → Forall url_word words →
  api_call dec_api_proof (api_get c ("/symphony/proofs/" +:+ str_join "/" words)) w =
  mapping_err refusal (show_proof_by_name state (str_join "/" words)) w.
Proof.
  intros Hne Hw.
  pose proof (proof_arrives words Hne Hw) as Ha.
  destruct (proof_words words) as [(issue_id&ts&file&->&Hfile)|Hother].
  - apply Forall_cons in Hw as [Hid [Hts _]%Forall_cons].
    assert (Hjson : accepts_json (hs_request (api_get c ("/symphony/proofs/" +:+ str_join "/" [issue_id; ts; file]))) = true).
    { unfold accepts_json. by erewrite hs_accept by done. }
    rewrite !elem_of_cons, elem_of_nil in Hfile.
    destruct Hfile as [->|[->|[->|[]]]];
      (eapply (told_exact _ _ (λ p, ReplyArtefact (ArtefactJson p)) _ _ _ _ [issue_id; ts]);
       [exact Htoken|exact Ha|apply ax_artefact; [done..|by apply (bool_decide_unpack _); vm_compute]|reflexivity| |done];
       intros w'; by apply artefact_call).
  - eapply (told_exact _ _ (λ p, ReplyProof p.1 p.2) _ _ _ "/symphony/proofs/{*name}" [str_join "/" words] _ HProofFallback);
      [exact Htoken|exact Ha|by apply ax_rest|reflexivity| |by intros []].
    intros w'. cbn [call_handler]. unfold show_proof_fallback. rewrite (av_path _ _ _ Ha).
    by rewrite (proj2 (strip_prefix_Some _ _ _) eq_refl).
Qed.
Lemma proof_told name w :
  (∃ words, words ≠ [] ∧ Forall url_word words ∧ name = str_join "/" words) →
  run_with c (CmdProofs (ProofsShow name)) w = told_command (CmdProofs (ProofsShow name)) w.
Proof. intros (words&Hne&Hw&->). apply bind_same; [|done]. by apply asking_mapping, proof_call. Qed.

Lemma command_told command w : plain_command command → run_with c command w = told_command command w.
Proof.
  destruct command as [filter [id|]|id|id message file| | |command|command|command| |]; cbn [plain_command]; intros Hplain.
  - destruct filter; by apply detail_told.
  - by apply tasks_told.
  - by apply claim_told.
  - by apply handoff_told.
  - apply status_told.
  - apply workers_told.
  - destruct command; [apply pending_told|by apply approve_told|by apply deny_told].
  - destruct command; [apply names_told|by apply proof_told].
  - apply issue_told.
  - done.
  - apply routes_told.
Qed.
End asking.

(** C24 The command line and the API fit: over an HTTP library, a router and
    codecs that do what they document, a command with plain arguments and the
    daemon's token does to the world exactly what the handler it is meant for
    does, and prints that handler's value, or its refusal with the status of the
    error and, for an approval in conflict, the conflict's own text; with a token
    of another digest every command is refused with 401 and nothing happens. *)
Theorem cli_refines_handlers `{X : Extern} `{J : Json} `{JT : !JsonTree} `{C : Chrono} `{V : ApprovalCodec}
    `{CF : ChronoFormat} `{HT : HttpText} `{AW : !ApiWire} `{RC : !RunnerCodec} `{DS : DebugStr}
    {W T : Type} `{TX : !TrackerText T} `{TA : !TrackerApi W T} `{SA : !SigningApi W} `{M : !Machine W}
    `{HE : !HostEnv W} `{F : !Fs W} `{LF : !LocalFiles W} `{EB : !EventBus W} `{AX : !Axum} `{ST : !HttpStack}
    (state : AppState W) (c : SymphonyClient) (command : Commands) (w : W) :
  StackLaws (sy_server c) → plain_command command →
  (sy_token c = st_api_token state →
     run_with (TP := loopback (T := T) state) c command w = told_command (T := T) state command w) ∧
  (sha256 (sy_token c) ≠ sha256 (st_api_token state) → (∀ config, command ≠ CmdConfig config) →
     run_with (TP := loopback (T := T) state) c command w = (Err unauthorised, w)).
Proof. intros SL Hplain. split; intros Htoken; [by apply command_told|by apply command_refused]. Qed.
