(* ===== verification/Networked.v ===== *)
(** * A daemon with peers

    A small x0xd behind HTTP: it signs as one agent, verifies everything, and
    holds a task a peer works on, with the peer's claim.  The theorems about the
    peers are applied to it; and those about the daemon's start, scans and files to
    directories in memory. *)

From S2P Require Import Serving Prelude Wire Identity Core Text Events Effects Files Containment Disk FoldTypes Store Client.
From S2P Require Import Scheduling Gate Claims Approvals Mapping Tracker Ports Sandbox Proofs Workers TaskLists.
From S2P Require Import Discovering Retention Trust Orchestrator Transport Signer GossipClient X0xdClient.
From S2P Require Import Native HostSandbox RunnerSpec ShellRunner Manager Auth WorkflowConfig Literals Configured.
From S2P Require Import Api ApiClient Cli Symphonyd Fixture TaskTracking Peers Desk.
Import Reconcile Retry Shards.

(** ** Peers *)

Module Swarm.
#[local] Existing Instance Gossip.toy_extern.
#[local] Existing Instance Gossip.toy_chrono.
#[local] Existing Instance Gossip.toy_format.
#[local] Existing Instance Gossip.toy_codec.
#[local] Existing Instance plain_json.

(** The checkbox of the one task, and the claim stored for it. *)
Record swarm := { sw_task : string; sw_claim : option bytes }.

Definition body_of (r : HttpRequest) : bytes := default "" (hr_json r).
Definition replies (status : N) (body : bytes) : result HttpResponse string :=
  Ok {| rs_status := status; rs_chunks := [Ok body] |}.
Definition host : string := "http://x0xd".

(** An answer of the signing endpoint is the context it was asked for. *)
Definition swarm_send (r : HttpRequest) : Run swarm string HttpResponse := λ w,
  match hr_method r, strip_prefix host (hr_url r) with
  | "POST", Some _ => (replies 200 (body_of r), w)
  | "PATCH", Some _ => (replies 200 "", {| sw_task := body_of r; sw_claim := sw_claim w |})
  | "PUT", Some "/stores/symphony-L/claim-T1" =>
      (replies 200 "", {| sw_task := sw_task w; sw_claim := Some (body_of r) |})
  | "PUT", Some _ => (replies 200 "", w)
  | _, Some "/task-lists/L/tasks" => (replies 200 (sw_task w), w)
  | _, Some "/stores/symphony-L/claim-T1" =>
      (match sw_claim w with Some claim => replies 200 claim | None => replies NOT_FOUND "" end, w)
  | _, Some "/groups" => (replies 200 "", w)
  | _, _ => (replies NOT_FOUND "", w)
  end.
#[local] Instance swarm_transport : Transport swarm := {| tp_send := swarm_send |}.
#[local] Instance swarm_machine : Machine swarm := {|
  clock_now w := (0%Z, w); instant_now w := (0%N, w); env_var _ w := (None, w) |}.
#[local] Instance swarm_text : HttpText := {| ht_body b := b; ht_status _ := "status" |}.

#[local] Instance swarm_encoders : Encoders := {|
  b64_encode b := b; enc_envelope _ := Err "unused"; enc_genesis _ := Err "unused";
  enc_roster _ := Err "unused"; enc_transition _ := Err "unused"; enc_approval _ := Err "unused";
  enc_consume _ := Err "unused"; enc_handoff _ := Err "unused" |}.
#[local] Instance swarm_approvals : ApprovalCodec := {|
  enc_v1_approval _ := Ok "approval"; enc_v1_consumed _ := Ok "consumed";
  enc_v1_consumed_payload _ := Ok "consumed";
  dec_v1_approval _ := Err "unused"; dec_v1_consumed _ := Err "unused" |}.
#[local] Instance swarm_signing : SigningWire := {|
  js_sign_request := sq_context; js_verify_request := vq_context;
  dec_sign_response context := Ok {| sg_agent_id := "me"; sg_public_key_b64 := "key me";
    sg_signature_b64 := "sig me"; sg_algorithm := SIGN_ALGORITHM; sg_context := context |};
  dec_verify_response _ := Ok true; dec_agent_info := Ok |}.
#[local] Instance swarm_gossip : GossipWire := {|
  js_publish := pr_payload; js_subscribe := id; dec_published _ := Ok true; dec_subscription := Ok |}.
#[local] Instance swarm_wire : X0xdWire := {|
  js_named_resource := cn_topic; js_store_with_policy := cp_topic; js_join_store := id;
  js_join_group := jr_invite; js_add_task := td_title;
  js_update_task action := if bool_decide (action = "claim") then "claimed:me" else "done:me";
  js_put_value := pv_value;
  dec_entries _ := Ok (Bare []); dec_stores _ := Ok (Bare []); dec_store_details _ := Ok (Bare []);
  dec_groups _ := Ok (Bare []); dec_group _ := Err "no group"; dec_joined _ := Err "no group";
  dec_tasks state := Ok (Wrapped [{| te_id := "T1"; te_title := "Do it"; te_description := "now";
    te_state := state; te_assignee := None; te_priority := 1 |}]);
  dec_keys _ := Ok (Bare []);
  dec_value value := Ok {| kv_key := "k"; kv_value := value; kv_content_type := None;
    kv_content_hash := None; kv_created_at := None; kv_updated_at := None |};
  dec_created := Ok; dec_task_id := Ok; dec_created_store _ := Err "unused";
  dec_ok _ := Ok (); dec_any _ := Ok () |}.

(** A claim of an agent, signed as the tracker signs. *)
Definition claim_of (who : string) : Claim := {|
  cl_issue_id := Some "T1"; cl_by := who; cl_at := "t"; cl_heartbeat_at := "t";
  cl_shard_role := ManualM1;
  cl_signature := Some {|
    se_algorithm := SIGN_ALGORITHM; se_context := CLAIM_CONTEXT; se_public_key_b64 := "key " +:+ who;
    se_signature_b64 := "sig " +:+ who; se_payload_sha256 := hex_encode ("claim " +:+ who);
    se_signer_agent_id := who |} |}.

#[local] Instance swarm_reason_eq_dec : EqDecision ReleaseReason.
Proof. solve_decision. Defined.
#[local] Instance swarm_blob_eq_dec : EqDecision ClaimBlob.
Proof. solve_decision. Defined.
Definition claims : list (string * ClaimBlob) :=
  [("mine", active_blob (claim_of "me") "t"); ("theirs", active_blob (claim_of "peer") "t")].
#[local] Instance swarm_codec : BlobCodec := {|
  json_claim_blob := Fixture.enc claims; parse_claim_blob := Fixture.dec claims;
  json_handoff_blob _ := Err "unused"; parse_handoff_blob _ := Err "unused";
  json_shard_blob _ := Err "unused"; parse_shard_blob _ := Err "unused";
  json_provenance_blob _ := Ok "provenance"; parse_provenance_blob _ := Err "unused";
  json_approval_blob _ := Ok "approval"; parse_approval_blob _ := Err "unused";
  json_claim c := Ok ("claim " +:+ cl_by c); json_handoff _ := Ok "handoff";
  reason_value _ := Ok PlainNull |}.

Definition swarm_endpoint : Endpoint := endpoint host None.
Definition swarm_parts : HttpParts (W := swarm) := {|
  hp_client := swarm_endpoint; hp_signer := swarm_endpoint; hp_sleep _ w := w;
  hp_enc_approval _ := Err "unused"; hp_workers w := ({| vs_cards := []; vs_view_epoch := 0 |}, w);
  hp_v2_error _ := "v2" |}.

Lemma signs_as_me : OneSigner swarm_endpoint "me".
Proof. intros body w response w' reply request [= <- <-] [= <-]. reflexivity. Qed.

(** A list under required signing, and a task in it that somebody claimed. *)
Definition swarm_tracker : X0xCrdtTracker :=
  from_client_parts "L" "me" signing_required None creation_unsupported.
Definition claimed_by (who : string) (blob : string) : crdt_state * SignerWorld swarm :=
  (initial_crdt, ({| sw_task := "claimed:" +:+ who; sw_claim := Some blob |}, None)).

(** State, claim and notices of the issues of a listing. *)
Definition seen (s : crdt_state * SignerWorld swarm) : option (list (string * option string * nat)) :=
  match (list_tracker_issues (TD := HttpTaskDaemon swarm_parts) swarm_tracker s).1 with
  | Ok issues => Some ((λ i, (iss_state i, cl_by <$> iss_claim i, length (iss_verification_notices i))) <$> issues)
  | Err _ => None
  end.

(** This agent's claim is listed.  A peer's is not: its task is open, and this
    agent takes it. *)
Example taken_from_peer :
  seen (claimed_by "me" "mine") = Some [("in_progress", Some "me", 0)] ∧
  seen (claimed_by "peer" "theirs") = Some [("todo", None, 1)] ∧
  let '(claimed, s) := v1_claim (TD := HttpTaskDaemon swarm_parts) swarm_tracker "T1" "me"
                         (claimed_by "peer" "theirs") in
  is_ok claimed = true ∧ seen s = Some [("in_progress", Some "me", 0)].
Proof. vm_compute. done. Qed.

(** The issue a peer works on, as it is before its claim is looked at. *)
Definition peers_issue : result Issue MappingError :=
  issue_from_task {| te_id := "T1"; te_title := "Do it"; te_description := "now";
    te_state := "claimed:peer"; te_assignee := None; te_priority := 1 |}
    (Some (active_blob (claim_of "peer") "t")) None None.

Lemma peers_records_hidden_witness :
  (∃ issues s', list_tracker_issues (TD := HttpTaskDaemon swarm_parts) swarm_tracker
      (claimed_by "peer" "theirs") = (Ok issues, s') ∧ Forall (only_own "me") issues) ∧
  ∃ issue issue' s', peers_issue = Ok issue ∧ iss_state issue = "in_progress" ∧
    check_claim (TD := HttpTaskDaemon swarm_parts) swarm_tracker issue (claimed_by "peer" "theirs") = (Ok issue', s') ∧
    iss_claim issue' = None ∧ iss_state issue' = "todo".
Proof.
  destruct (peers_records_hidden swarm_parts "me" swarm_tracker (claimed_by "peer" "theirs")
              signs_as_me ltac:(discriminate) eq_refl eq_refl) as [Hlist Hclaim].
  split.
  - destruct (list_tracker_issues (TD := HttpTaskDaemon swarm_parts) swarm_tracker
                (claimed_by "peer" "theirs")) as [[issues|e] s'] eqn:Hrun.
    + exists issues, s'. split; [reflexivity|]. exact (proj1 (Hlist issues s' eq_refl)).
    + vm_compute in Hrun. discriminate.
  - destruct peers_issue as [issue|e] eqn:Hissue; [|vm_compute in Hissue; discriminate].
    assert (Hin : iss_state issue = "in_progress" ∧ iss_claim issue = Some (claim_of "peer") ∧
      is_ok (check_claim (TD := HttpTaskDaemon swarm_parts) swarm_tracker issue (claimed_by "peer" "theirs")).1 = true).
    { vm_compute in Hissue. injection Hissue as <-. vm_compute. done. }
    destruct Hin as (Hstate&Hheld&Hrun).
    destruct (check_claim (TD := HttpTaskDaemon swarm_parts) swarm_tracker issue
                (claimed_by "peer" "theirs")) as [[issue'|e] s'] eqn:Hcheck; [|discriminate Hrun].
    exists issue, issue', s'. split; [reflexivity|]. split; [exact Hstate|]. split; [exact Hcheck|].
    destruct (Hclaim issue (claim_of "peer") issue' s' Hheld ltac:(discriminate) Hcheck) as (Hnone&Hopen&_).
    split; [exact Hnone|exact (Hopen Hstate)].
Defined.

(** The discovery of workers, on the same x0xd. *)
Definition my_template : WorkerCard := local_worker_card_template Gossip.here "me" 60 [] [] [] 1.
Definition still (n : N) (w : swarm) : unit * swarm := ((), w).
Definition swarm_view (ops : list view_op) : discovery (SignerWorld swarm) :=
  foldl (λ s op, run_view_op (SG := X0xdSigning swarm_endpoint) (GO := X0xdGossip swarm_endpoint still)
                   Gossip.me op s)
    (initial_discovery ({| sw_task := "empty"; sw_claim := None |}, None)) ops.

(** The same peer's card that a resolver with the peer's key takes. *)
Example peer_not_listed :
  wc_agent_id <$> (btree_iter (wv_cards (ds_view (swarm_view [OpReceive "peer" "t"; OpRun 1; OpReceive "peer" "t"])))).*2
    = ["me"].
Proof. vm_compute. reflexivity. Qed.

Definition swarmed : WorkerView := ds_view (swarm_view [OpReceive "peer" "t"; OpRun 1; OpReceive "peer" "t"]).
Lemma peers_never_in_view_witness : size (wv_cards swarmed) = 1 ∧ wv_cards swarmed !! "peer" = None.
Proof.
  split; [vm_compute; reflexivity|].
  destruct (wv_cards swarmed !! "peer") as [card|] eqn:Hcard; [|reflexivity].
  pose proof (peers_never_in_view swarm_endpoint swarm_endpoint still "me" my_template true Gossip.me
                {| sw_task := "empty"; sw_claim := None |} [OpReceive "peer" "t"; OpRun 1; OpReceive "peer" "t"]
                signs_as_me eq_refl "peer" card Hcard) as [Hme _].
  discriminate Hme.
Defined.
End Swarm.

(** ** The daemon's directory *)

Module Premises.
#[local] Existing Instance Gossip.toy_extern.
#[local] Existing Instance plain_json.
#[local] Existing Instance RetentionDemo.toy_format.
#[local] Instance premises_chrono : Chrono := {| parse_from_rfc3339 _ := Ok 0%Z |}.
#[local] Instance premises_approvals : ApprovalCodec := {|
  enc_v1_approval _ := Ok "approval"; enc_v1_consumed _ := Ok "consumed";
  enc_v1_consumed_payload _ := Ok "consumed";
  dec_v1_approval _ := Err "unused"; dec_v1_consumed _ := Err "unused" |}.

(** *** A scan *)

Definition in_progress (id : string) : Issue := {|
  iss_schema_version := 1; iss_id := id; iss_identifier := id; iss_title := "Do it";
  iss_description := "now"; iss_priority := None; iss_state := "in_progress"; iss_branch_name := None;
  iss_url := None; iss_labels := []; iss_blocked_by := []; iss_shard := None; iss_claim := None;
  iss_handoff := None; iss_signature_provenance := None; iss_verification_notices := [];
  iss_created_at := "t"; iss_updated_at := "t"; iss_extra := ∅ |}.

(** Proofs of three issues on the disk: one in progress, one in flight, and one
    that nobody works on. *)
Definition old_run (issue : string) : path := "/proofs/" +:+ issue +:+ "/" +:+ timestamp_segment 0.
Definition proofs_disk : disk :=
  {[ "/proofs" := Dir; "/proofs/a" := Dir; "/proofs/b" := Dir; "/proofs/c" := Dir;
     old_run "a" := Dir; old_run "b" := Dir; old_run "c" := Dir ]}.

#[local] Instance premises_tracker : TrackerApi (disk * list SysCall) string := {|
  tk_list_issues := mret [in_progress "a"]; tk_create_issue _ := throw (Core.Tracker "read only");
  tk_fetch_candidates _ := mret []; tk_fetch_by_ids _ := mret [];
  tk_claim id agent := mret (new_claim (Some id) agent "t" ManualM1);
  tk_heartbeat _ := mret (); tk_release _ _ := mret (); tk_handoff _ _ := mret ();
  tk_fetch_claimed _ := mret []; tk_block _ _ := mret (); tk_requeue_blocked _ _ := mret ();
  tk_load_approval_state _ := mret {| aps_events := []; aps_consumed := [] |};
  tk_store_approval _ := mret (); tk_store_consumed _ := mret () |}.
#[local] Instance premises_machine : Machine (disk * list SysCall) := {|
  clock_now w := ((31 * DAY_NS)%Z, w); instant_now w := (0%N, w); env_var _ w := (None, w) |}.

Definition keeper : Orchestrator := {|
  or_config := builder "me"; or_signing_client := true; or_key_resolver := true; or_events_tx := true |}.
(** A state in which an issue is in flight. *)
Definition at_work (id : string) : orch_state (disk * list SysCall) :=
  let s := initial_orch keeper (proofs_disk, []) in
  {| os_budget := os_budget s; os_in_flight := {[ id := "todo" ]}; os_heartbeats := ∅;
     os_next_task := 0; os_guard := None; os_events := []; os_world := os_world s |}.
Definition scanned := run_proof_reaper_scan (F := LoggedFs DiskFs) keeper "/proofs" (at_work "b").

Lemma scan_spares_active_witness :
  (os_world scanned.2).2 = [RemoveDirAll (old_run "c")] ∧
  Forall (spares (at_work "b") [in_progress "a"] "/proofs" (31 * DAY_NS) 30) (os_world scanned.2).2.
Proof.
  split; [vm_compute; reflexivity|].
  exact (scan_spares_active DiskFs keeper "/proofs" (at_work "b") scanned.2 scanned.1
           (λ w, eq_refl) (λ w, eq_refl) eq_refl (surjective_pairing scanned)).
Defined.

(** *** The files of the data directory *)

(** Texts of files, and a socket at the address that was bound. *)
Definition drawer : Type := gmap path string * option SocketAddr.
#[local] Instance drawer_fs : Fs drawer := {|
  fs_canonicalize p := mret p; fs_metadata _ := mret KDir; fs_symlink_metadata _ := mret KDir;
  fs_read_dir _ := mret []; fs_create_dir _ _ := mret (); fs_create_dir_all _ _ := mret ();
  fs_set_permissions _ _ := mret (); fs_remove_dir_all _ := mret (); fs_rename _ _ := mret ();
  fs_write p text := modify (λ w, (<[p := text]> w.1, w.2)); fs_append _ _ := mret (); fs_copy _ _ := mret () |}.
#[local] Instance drawer_files : LocalFiles drawer := {|
  lf_read_to_string p := λ w,
    (match w.1 !! p with Some text => Ok text | None => Err {| io_kind := IoNotFound; io_text := "none" |} end, w);
  lf_random_32 w := ("random", w) |}.
#[local] Instance drawer_env : HostEnv drawer := {| target_os := Linux; env_var_os _ w := (None, w) |}.
#[local] Instance drawer_sockets : Sockets drawer := {|
  so_parse _ := Ok {| sa_ip := V6 1; sa_port := 0 |}; so_show _ := "[::1]:0";
  so_bind addr := λ w, (Ok 3%N, (w.1, Some addr));
  so_local_addr _ := λ w, (match w.2 with Some addr => Ok {| sa_ip := sa_ip addr; sa_port := 4242 |}
                           | None => Err "not bound" end, w) |}.

Definition text_at (w : drawer) (p : path) : option string := w.1 !! p.
#[local] Instance drawer_keeps : KeepsFiles text_at.
Proof.
  split.
  - intros p w r w' [= <- <-]. split; [done|]. intros text. unfold text_at.
    destruct (w.1 !! p); naive_solver.
  - intros p text w w' _ [= <-]. split; [apply lookup_insert_eq|].
    intros q Hq. by apply lookup_insert_ne.
  - done.
  - done.
  - done.
Qed.

(** A daemon that listens on the IPv6 loopback. *)
Definition v6 : SocketAddr := {| sa_ip := V6 1; sa_port := 0 |}.
Definition bound : SocketAddr := {| sa_ip := V6 1; sa_port := 4242 |}.
Definition keyed : drawer := (load_or_generate_api_token "/d" (∅, None)).2.
Definition listening : drawer := (bind_http v6 "/d" keyed).2.

Lemma client_finds_daemon_witness :
  (into_client {| op_server := None; op_data_dir := Some "/d"; op_token := None; op_token_file := None |} listening).1 =
    Ok {| sy_server := "http://127.0.0.1:4242"; sy_token := hex_encode "random" |}.
Proof.
  apply (client_finds_daemon text_at "/d" (hex_encode "random") v6 bound "/d/daemon.port"
           (∅, None) keyed keyed listening drawer_keeps).
  - vm_compute. reflexivity.
  - reflexivity.
  - vm_compute. reflexivity.
  - split; reflexivity || discriminate.
Defined.
End Premises.

(** ** A daemon that starts

    A workflow file for a signed v2 list, and an x0xd that says who it is. *)

Module Founding.
#[local] Existing Instance Gossip.toy_extern.
#[local] Existing Instance Serving.tree_json.
#[local] Existing Instance Serving.tree_view.
#[local] Existing Instance Swarm.swarm_text.
#[local] Existing Instance Swarm.swarm_encoders.
#[local] Existing Instance Swarm.swarm_signing.
#[local] Existing Instance Premises.drawer_fs.
#[local] Existing Instance Premises.drawer_files.
#[local] Existing Instance Premises.drawer_env.
#[local] Existing Instance Premises.drawer_sockets.
#[local] Instance founding_debug : DebugStr := {| debug_str := id |}.

(** The x0xd says who it is, and nothing else is asked of it. *)
#[local] Instance founding_transport : Transport Premises.drawer := {|
  tp_send r := lift_result (Swarm.replies 200 (if ends_with "/agent" (hr_url r) then "me" else "")) |}.
#[local] Instance founding_machine : Machine Premises.drawer := {|
  clock_now w := (0%Z, w); instant_now w := (0%N, w); env_var _ w := (None, w) |}.
#[local] Instance founding_landlock : Landlock Premises.drawer := {|
  from_read := 1; from_all := 3; from_file := 1; from_net := 1;
  ll_handle_fs _ := mret (); ll_handle_net _ := mret (); ll_create := mret (); ll_path_fd _ := mret ();
  ll_add_rule _ _ := mret (); ll_restrict_self _ := mret FullyEnforced |}.
#[local] Instance founding_os : NativeOs Premises.drawer := {|
  process_id := 1; now_nanos w := (0%N, w); next_temp_id w := (0%N, w); current_exe := mret "/bin/daemon";
  temp_dir w := ("/tmp", w); read_to_string _ := mret ""; open_write _ := mret (); write_existing _ _ := mret ();
  remove_dir _ := mret (); remove_file _ := mret (); sock_bind _ := mret (); sock_accept _ _ w := (None, w);
  sock_write _ _ := mret (); sock_close _ := mret (); sock_connect _ := mret (); sock_read_to_end _ := mret "";
  exec _ w := (None, w) |}.
#[local] Instance founding_processes : ChildProcess Premises.drawer := {|
  ch_spawn _ := mret 1%N; ch_id _ w := (None, w); ch_start_kill _ := mret (); ch_output _ _ w := (None, w);
  show_process_status _ := "status" |}.

(** The workflow file. *)
Definition the_list : string := "symphony2:0123456789abcdef0123456789abcdef:" +:+
  "0123456789abcdef0123456789abcdef0123456789abcdef0123456789abcdef".
Definition the_workflow : Value := TObject [
  ("tracker", TObject [("kind", TText "crdt"); ("list_id", TText the_list)]);
  ("polling", TObject [("interval_ms", TNum 1000)]);
  ("workspace", TObject [("root", TText "/w/ws")]);
  ("hooks", TObject [("timeout_ms", TNum 1000)]);
  ("agent", TObject [("max_concurrent_agents", TNum 2);
                     ("max_concurrent_agents_by_state", TObject []); ("max_turns", TNum 3); ("max_retry_backoff_ms", TNum 1000)]);
  ("security", TObject [("network_dispatch", TText "approve"); ("approval_ttl", TText "2h")]);
  ("signing", TObject [("policy", TText "required")]);
  ("runner", TObject [("kind", TText "shell")])].
#[local] Instance founding_codec : RunnerCodec := {|
  dec_workflow := dec_workflow (RunnerCodec := shell_codec);
  yaml_to_json _ := Ok (Ok the_workflow) |}.
Definition directory : Premises.drawer :=
  ({["/w/WORKFLOW.md" := "---" +:+ LINE_FEED +:+ "yaml" +:+ LINE_FEED +:+ "---" +:+ LINE_FEED +:+ "prompt"]}, None).
Definition arguments : Args :=
  {| ar_config := "/w/WORKFLOW.md"; ar_data_dir := "/d"; ar_bind := "[::1]:0"; ar_agent_id := "symphonyd" |}.
Definition started := prepare (W := Premises.drawer) Gossip.here arguments (directory, None).


Lemma started_daemon_sound_witness :
  ∃ p s, started = (Ok p, s) ∧ sound_start p ∧
    pd_agent_id p = "me" ∧ pd_api_token p = hex_encode "random" ∧ is_Some (xt_v2 (pd_tracker p)).
Proof.
  destruct started as [[p|e] s] eqn:Hrun; [|vm_compute in Hrun; discriminate Hrun].
  exists p, s. split; [reflexivity|]. split.
  - apply (started_daemon_sound Gossip.here arguments (directory, None) s p); [intros w; vm_compute; discriminate|].
    exact Hrun.
  - vm_compute in Hrun. injection Hrun as <- _. vm_compute. split_and!; [reflexivity|reflexivity|by eexists].
Defined.
End Founding.
