(* ===== verification/Wired.v ===== *)
(** * A wire between the command line and the API

    An HTTP stack in memory: requests that are taken apart as a router takes them,
    and bodies that carry any value of the API as a number.  The theorem about the
    command line is applied to it, with the front of [Serving] at the other end. *)

From S2P Require Import Prelude Wire Identity Core Text Effects Files Containment Store Claims Approvals Ports.
From S2P Require Import Sandbox RunnerSpec Scheduling Workspaces Proofs Workers Trust Orchestrator Transport.
From S2P Require Import Auth WorkflowConfig Literals Api Requests ApiClient Cli Fixture Serving Asking.
Import Reconcile.
#[local] Existing Instance Fixture.Fixture.demo.
#[local] Existing Instance Serving.tree_json.
#[local] Existing Instance Serving.tree_view.

(** ** Numbers as bytes *)

Fixpoint pos_text (p : positive) : bytes :=
  match p with xH => "" | xO p => String "0" (pos_text p) | xI p => String "1" (pos_text p) end.
Fixpoint text_pos (s : bytes) : positive :=
  match s with
  | "" => xH
  | String "0" s => xO (text_pos s)
  | String _ s => xI (text_pos s)
  end.
Lemma text_pos_text p : text_pos (pos_text p) = p.
Proof. induction p as [p IH|p IH|]; simpl; by rewrite ?IH. Qed.

Definition packed `{Countable A} (a : A) : bytes := pos_text (encode a).
Definition unpacked `{Countable A} (body : bytes) : result A string := ok_or (decode (text_pos body)) "no value".
Lemma unpacked_packed `{Countable A} (a : A) : unpacked (packed a) = Ok a.
Proof. unfold unpacked, packed. by rewrite text_pos_text, decode_encode. Qed.

(** ** The values of the API are countable *)

Section countable.
Ltac by_fields f g := refine (inj_countable' f g _); by intros [].

#[export] Instance notice_kind_eq_dec : EqDecision VerificationNoticeKind.
Proof. solve_decision. Defined.
#[export] Instance notice_kind_countable : Countable VerificationNoticeKind.
Proof. by_fields (λ k, match k with BadClaim => true | _ => false end)
  (λ b : bool, if b then BadClaim else NoticeForkEvidence). Defined.
#[export] Instance validation_status_eq_dec : EqDecision ValidationStatus.
Proof. solve_decision. Defined.
#[export] Instance validation_status_countable : Countable ValidationStatus.
Proof. by_fields (λ s, match s with Passed => Some true | Failed => Some false | Skipped => None end)
  (λ o, match o with Some true => Passed | Some false => Failed | None => Skipped end). Defined.
#[export] Instance verdict_countable : Countable ApprovalVerdict.
Proof. by_fields (λ v, match v with V1Approve => true | V1Deny => false end)
  (λ b : bool, if b then V1Approve else V1Deny). Defined.
#[export] Instance shard_role_countable : Countable ShardRole.
Proof. by_fields (λ r, match r with Primary => inl true | ManualM1 => inl false | Backup i => inr i end)
  (λ o, match o with inl true => Primary | inl false => ManualM1 | inr i => Backup i end). Defined.
#[export] Instance pending_provenance_eq_dec : EqDecision PendingApprovalProvenance.
Proof. solve_decision. Defined.
#[export] Instance pending_provenance_countable : Countable PendingApprovalProvenance.
Proof. by_fields (λ p, match p with PendingVerified s => inl s | PendingInvalid s => inr (inl s)
                       | PendingTransportError s => inr (inr s) end)
  (λ o, match o with inl s => PendingVerified s | inr (inl s) => PendingInvalid s
        | inr (inr s) => PendingTransportError s end). Defined.
#[export] Instance signature_envelope_countable : Countable SignatureEnvelope.
Proof. by_fields (λ r, (se_algorithm r, se_context r, se_public_key_b64 r, se_signature_b64 r, se_payload_sha256 r, se_signer_agent_id r))
  (λ '(a, b, c, d, e, f), Build_SignatureEnvelope a b c d e f). Defined.
#[export] Instance claim_countable : Countable Claim.
Proof. by_fields (λ r, (cl_issue_id r, cl_by r, cl_at r, cl_heartbeat_at r, cl_shard_role r, cl_signature r))
  (λ '(a, b, c, d, e, f), Build_Claim a b c d e f). Defined.
#[export] Instance validation_result_eq_dec : EqDecision ValidationResult.
Proof. solve_decision. Defined.
#[export] Instance validation_result_countable : Countable ValidationResult.
Proof. by_fields (λ r, (vr_command r, vr_status r, vr_exit_code r))
  (λ '(a, b, c), Build_ValidationResult a b c). Defined.
#[export] Instance handoff_eq_dec : EqDecision Handoff.
Proof. solve_decision. Defined.
#[export] Instance handoff_countable : Countable Handoff.
Proof. by_fields (λ r, (ho_summary r, ho_files_changed r, ho_validation r, ho_follow_up r, ho_proofs_dir r, ho_issue_id r, ho_signer_agent_id r, ho_signature r))
  (λ '(a, b, c, d, e, f, g, h), Build_Handoff a b c d e f g h). Defined.
#[export] Instance verification_notice_eq_dec : EqDecision VerificationNotice.
Proof. solve_decision. Defined.
#[export] Instance verification_notice_countable : Countable VerificationNotice.
Proof. by_fields (λ r, (vn_kind r, vn_claimant r, vn_reason r))
  (λ '(a, b, c), Build_VerificationNotice a b c). Defined.
#[export] Instance task_eq_dec : EqDecision Task.
Proof. solve_decision. Defined.
#[export] Instance task_countable : Countable Task.
Proof. by_fields (λ r, (ta_id r, ta_identifier r, ta_title r, ta_state r, ta_priority r, ta_labels r, ta_claim_by r, ta_verification_notices r))
  (λ '(a, b, c, d, e, f, g, h), Build_Task a b c d e f g h). Defined.
#[export] Instance claim_info_eq_dec : EqDecision ClaimInfo.
Proof. solve_decision. Defined.
#[export] Instance claim_info_countable : Countable ClaimInfo.
Proof. by_fields (λ r, (ci_id r, ci_identifier r, ci_state r, ci_by r, ci_heartbeat_at r))
  (λ '(a, b, c, d, e), Build_ClaimInfo a b c d e). Defined.
#[export] Instance status_eq_dec : EqDecision Status.
Proof. solve_decision. Defined.
#[export] Instance status_countable : Countable Status.
Proof. by_fields (λ r, (st_agent_id r, st_counts r, st_active_claims r, st_orchestrator_attached r))
  (λ '(a, b, c, d), Build_Status a b c d). Defined.
#[export] Instance platform_info_eq_dec : EqDecision PlatformInfo.
Proof. solve_decision. Defined.
#[export] Instance platform_info_countable : Countable PlatformInfo.
Proof. by_fields (λ r, (pi_os r, pi_arch r, pi_version r))
  (λ '(a, b, c), Build_PlatformInfo a b c). Defined.
#[export] Instance worker_card_eq_dec : EqDecision WorkerCard.
Proof. solve_decision. Defined.
#[export] Instance worker_card_countable : Countable WorkerCard.
Proof. by_fields (λ r, (wc_schema_version r, wc_agent_id r, wc_issued_at r, wc_ttl_seconds r, wc_capabilities r, wc_sandbox_levels r, wc_runner_presets r, wc_current_load r, wc_max_load r, wc_platform r, wc_signature r))
  (λ '(a, b, c, d, e, f, g, h, i, j, k), Build_WorkerCard a b c d e f g h i j k). Defined.
#[export] Instance workers_reply_eq_dec : EqDecision WorkersReply.
Proof. solve_decision. Defined.
#[export] Instance workers_reply_countable : Countable WorkersReply.
Proof. by_fields (λ r, (wr_workers r, wr_view_epoch r, wr_note r))
  (λ '(a, b, c), Build_WorkersReply a b c). Defined.
#[export] Instance approval_summary_eq_dec : EqDecision ApprovalSummary.
Proof. solve_decision. Defined.
#[export] Instance approval_summary_countable : Countable ApprovalSummary.
Proof. by_fields (λ r, (as_events r, as_consumed r, as_has_deny r))
  (λ '(a, b, c), Build_ApprovalSummary a b c). Defined.
#[export] Instance pending_approval_eq_dec : EqDecision PendingApproval.
Proof. solve_decision. Defined.
#[export] Instance pending_approval_countable : Countable PendingApproval.
Proof. by_fields (λ r, (pa_issue_id r, pa_title r, pa_state r, pa_content_hash r, pa_signer_agent_id r, pa_provenance r, pa_approval_summary r))
  (λ '(a, b, c, d, e, f, g), Build_PendingApproval a b c d e f g). Defined.
#[export] Instance approval_event_eq_dec : EqDecision ApprovalEvent.
Proof. solve_decision. Defined.
#[export] Instance approval_event_countable : Countable ApprovalEvent.
Proof. by_fields (λ r, (av_issue_id r, av_content_hash r, av_signer_agent_id r, av_verdict r, av_approved_at r, av_approver_agent_id r, av_claim_id r, av_signature r))
  (λ '(a, b, c, d, e, f, g, h), Build_ApprovalEvent a b c d e f g h). Defined.
#[export] Instance issue_draft_eq_dec : EqDecision IssueDraft.
Proof. solve_decision. Defined.
#[export] Instance issue_draft_countable : Countable IssueDraft.
Proof. by_fields (λ r, (id_title r, id_description r, id_priority r, id_labels r))
  (λ '(a, b, c, d), Build_IssueDraft a b c d). Defined.
#[export] Instance handoff_request_eq_dec : EqDecision HandoffRequest.
Proof. solve_decision. Defined.
#[export] Instance handoff_request_countable : Countable HandoffRequest.
Proof. by_fields (λ r, (hq_message r, hq_file r))
  (λ '(a, b), Build_HandoffRequest a b). Defined.
#[export] Instance submit_approval_request_eq_dec : EqDecision SubmitApprovalRequest.
Proof. solve_decision. Defined.
#[export] Instance submit_approval_request_countable : Countable SubmitApprovalRequest.
Proof. by_fields (λ r, (sq_verdict r, sq_expected_content_hash r, sq_expected_signer_agent_id r))
  (λ '(a, b, c), Build_SubmitApprovalRequest a b c). Defined.
End countable.

(** ** The stack *)

Definition server : string := "http://127.0.0.1:4242".
Definition issue_fields : Type :=
  string * string * string * string * option N * string * list string * option Claim * option Handoff.
Definition fields_of (i : Issue) : issue_fields :=
  (iss_id i, iss_identifier i, iss_title i, iss_description i, iss_priority i, iss_state i, iss_labels i,
   iss_claim i, iss_handoff i).
Definition issue_with (f : issue_fields) : Issue :=
  let '(id, identifier, title, description, priority, state, labels, claim, handoff) := f in {|
  iss_schema_version := 1; iss_id := id; iss_identifier := identifier; iss_title := title;
  iss_description := description; iss_priority := priority; iss_state := state; iss_branch_name := None;
  iss_url := None; iss_labels := labels; iss_blocked_by := []; iss_shard := None; iss_claim := claim;
  iss_handoff := handoff; iss_signature_provenance := None; iss_verification_notices := [];
  iss_created_at := ""; iss_updated_at := ""; iss_extra := ∅ |}.
Lemma issue_with_fields i : same_issue (issue_with (fields_of i)) i.
Proof. done. Qed.

#[local] Instance wired_api : ApiWire := {|
  js_issue_draft := packed; js_handoff_request := packed; js_submit_request := packed;
  dec_api_tasks := unpacked; dec_api_issue body := let? f := unpacked body in Ok (issue_with f);
  dec_api_status := unpacked; dec_api_workers := unpacked; dec_api_pending := unpacked;
  dec_api_approval := unpacked; dec_api_claim := unpacked; dec_api_handoff := unpacked;
  dec_api_routes := unpacked; dec_api_proofs := unpacked; dec_api_proof := unpacked;
  dec_json text := Ok (TObject [("error", TText text)]) |}.
#[local] Instance wired_text : HttpText := {| ht_body b := b; ht_status := pretty |}.

Definition reply_body (reply : Reply) : bytes :=
  match reply with
  | ReplyTasks tasks => packed tasks
  | ReplyTask detail => packed (fields_of (td_issue detail))
  | ReplyIssue issue => packed (fields_of issue)
  | ReplyStatus status => packed status
  | ReplyWorkers workers => packed workers
  | ReplyPending pending => packed pending
  | ReplyApproval event => packed event
  | ReplyClaim id by_ => packed (id, by_)
  | ReplyHandoff id recorded => packed (id, recorded)
  | ReplyRoutes routes => packed routes
  | ReplyProofs names => packed names
  | ReplyProof name content => packed (name, content)
  | ReplyArtefact (ArtefactJson proof) => packed proof
  | ReplyArtefact (ArtefactText _ content) => content
  | ReplyHealth | ReplyEvents => ""
  end.
Definition whole (status : N) (body : bytes) : HttpResponse := {| rs_status := status; rs_chunks := [Ok body] |}.
Definition target (r : HttpRequest) : string := default "" (strip_prefix server (hr_url r)).

#[local] Instance wired_stack : HttpStack := {|
  hs_request r :=
    let '(p, query) := match split_once "?" (target r) with
                       | Some (p, query) => (p, Some query) | None => (target r, None) end in {|
    rq_method := hr_method r; rq_path := p; rq_query := query;
    rq_authorization := (λ token, "Bearer " +:+ token) <$> hr_bearer r; rq_accept := hr_accept r;
    rq_body := default "" (hr_json r) |};
  hs_response response := match response with
    | Replied reply => whole 200 (reply_body reply)
    | Refused status text => whole status text
    | NotHandled rejection => whole (ax_status rejection) (ax_text rejection)
    end |}.

(** Exact paths, one capture after four prefixes, and the nested router. *)
Definition capturing : list string :=
  ["/symphony/tasks/"; "/symphony/approvals/"; "/symphony/claim/"; "/symphony/handoff/"].
Definition capture (prefixes : list string) (p : string) : option (string * list string) :=
  head (omap (λ prefix, (λ id, (prefix +:+ "{id}", [id])) <$> strip_prefix prefix p) prefixes).
Definition PROOFS : string := "/symphony/proofs/".
#[local] Instance wired_axum : Axum := {|
  ax_match routes p :=
    if bool_decide (p ∈ routes) then Some (p, [])
    else match strip_prefix PROOFS p with
         | Some rest => match split_char SLASH rest with
             | [issue_id; ts; file] =>
                 if bool_decide ((ARTEFACT_PREFIX +:+ file) ∈ routes)
                 then Some (ARTEFACT_PREFIX +:+ file, [issue_id; ts]) else Some (PROOFS +:+ "{*name}", [rest])
             | _ => Some (PROOFS +:+ "{*name}", [rest])
             end
         | None => capture capturing p
         end;
  ax_tasks_query r := Ok (rq_query r ≫= strip_prefix "state=");
  ax_issue_draft r := map_err (λ text, {| ax_status := 422; ax_text := text |}) (unpacked (rq_body r));
  ax_handoff_request r := map_err (λ text, {| ax_status := 422; ax_text := text |}) (unpacked (rq_body r));
  ax_submit_request r := map_err (λ text, {| ax_status := 422; ax_text := text |}) (unpacked (rq_body r)) |}.

(** *** Its laws *)

Lemma str_all_app f s t : str_all f (s +:+ t) = str_all f s && str_all f t.
Proof. induction s as [|c s IH]; [done|]. rewrite str_app_cons. cbn [str_all]. by rewrite IH, andb_assoc. Qed.

Definition in_path (c : ascii) : bool := is_allowed_identifier_byte c || bool_decide (c = SLASH).
Lemma words_in_path words : Forall url_word words → str_all in_path (str_join "/" words) = true.
Proof.
  assert (Hall : ∀ s, str_all is_allowed_identifier_byte s = true → str_all in_path s = true).
  { intros s. induction s as [|a s IH]; [done|]. cbn [str_all]. intros [Ha Hs]%andb_true_iff.
    unfold in_path at 1. by rewrite Ha, IH. }
  induction 1 as [|word words (_&_&_&Hb) _ IH]; [done|]. destruct words as [|next words]; [by apply Hall|].
  change (str_join "/" (word :: next :: words)) with (word +:+ "/" +:+ str_join "/" (next :: words)).
  rewrite !str_all_app, (Hall _ Hb), IH. done.
Qed.
Lemma target_in_path words : Forall url_word words → str_all in_path ("/" +:+ str_join "/" words) = true.
Proof. intros Hw. rewrite str_all_app. by rewrite words_in_path. Qed.
Lemma split_once_skips p rest : str_all in_path p = true → split_once "?" (p +:+ String "?" rest) = Some (p, rest).
Proof.
  induction p as [|a p IH]; [done|]. cbn [str_all]. intros [Ha Hp]%andb_true_iff.
  rewrite str_app_cons. cbn [split_once]. rewrite IH by done.
  rewrite bool_decide_false; [done|]. intros ->. discriminate Ha.
Qed.
Lemma split_once_none p : str_all in_path p = true → split_once "?" p = None.
Proof.
  induction p as [|a p IH]; [done|]. cbn [str_all]. intros [Ha Hp]%andb_true_iff. cbn [split_once].
  rewrite IH by done. rewrite bool_decide_false; [done|]. intros ->. discriminate Ha.
Qed.

Lemma split_words words :
  Forall url_word words → words ≠ [] → split_char SLASH (str_join "/" words) = words.
Proof.
  induction 1 as [|word words Hw _ IH]; intros Hne; [done|].
  pose proof (proj1 (plain_component _ (url_word_plain _ Hw))) as Hfree.
  destruct words as [|next words]; [by apply split_char_single|].
  change (str_join "/" (word :: next :: words)) with (word +:+ String SLASH (str_join "/" (next :: words))).
  rewrite split_char_app, IH by done. by rewrite split_char_single.
Qed.

Lemma target_url r t : hr_url r = server +:+ t → target r = t.
Proof. intros Hurl. unfold target. rewrite Hurl. by rewrite (proj2 (strip_prefix_Some server _ _) eq_refl). Qed.
Lemma split_request r p query :
  split_once "?" (target r) = Some (p, query) →
  rq_path (hs_request r) = p ∧ rq_query (hs_request r) = Some query.
Proof. intros Hs. unfold hs_request, wired_stack. by rewrite Hs. Qed.
Lemma whole_request r :
  split_once "?" (target r) = None → rq_path (hs_request r) = target r ∧ rq_query (hs_request r) = None.
Proof. intros Hs. unfold hs_request, wired_stack. by rewrite Hs. Qed.
Lemma request_fields r :
  rq_method (hs_request r) = hr_method r ∧
  rq_authorization (hs_request r) = (λ token, "Bearer " +:+ token) <$> hr_bearer r ∧
  rq_accept (hs_request r) = hr_accept r ∧ rq_body (hs_request r) = default "" (hr_json r).
Proof. unfold hs_request, wired_stack. by destruct (split_once _ _) as [[p q]|]. Qed.

Lemma whole_body status body : rs_body (whole status body) = Ok body.
Proof. unfold rs_body, whole. cbn. by rewrite str_app_nil_r. Qed.

(** The prefixes of the patterns with one capture. *)
Lemma captured_prefix prefix : (prefix +:+ "{id}") ∈ patterns → prefix ∈ capturing.
Proof.
  intros Hin. apply (list_elem_of_fmap_2 (strip_suffix "{id}")) in Hin. rewrite strip_suffix_app in Hin.
  change (prefix ∈ omap id (strip_suffix "{id}" <$> patterns)). apply list_elem_of_omap. by eexists.
Qed.

(** A path of words below the proofs. *)
Lemma nested_not_pattern words : Forall url_word words → words ≠ [] → (PROOFS +:+ str_join "/" words) ∉ patterns.
Proof.
  intros Hw Hne Hin. assert (Hstr : str_join "/" words ∈ omap (strip_prefix PROOFS) patterns).
  { apply list_elem_of_omap. eexists. split; [exact Hin|]. by apply strip_prefix_Some. }
  pose proof (words_in_path words Hw) as Hpath. revert Hpath. generalize dependent (str_join "/" words).
  intros rest _ Hrest Hpath.
  assert (Hall : Forall (λ rest, str_all in_path rest = false) (omap (strip_prefix PROOFS) patterns)).
  { apply (bool_decide_unpack _). vm_compute. done. }
  rewrite Forall_forall in Hall. by rewrite Hall in Hpath.
Qed.
Lemma wired_nested words : Forall url_word words → words ≠ [] →
  ax_match patterns (PROOFS +:+ str_join "/" words) =
  match words with
  | [issue_id; ts; file] =>
      if bool_decide ((ARTEFACT_PREFIX +:+ file) ∈ patterns)
      then Some (ARTEFACT_PREFIX +:+ file, [issue_id; ts])
      else Some (PROOFS +:+ "{*name}", [str_join "/" words])
  | _ => Some (PROOFS +:+ "{*name}", [str_join "/" words])
  end.
Proof.
  intros Hw Hne. unfold ax_match, wired_axum. rewrite bool_decide_false by (by apply nested_not_pattern).
  rewrite (proj2 (strip_prefix_Some PROOFS _ _) eq_refl). by rewrite split_words.
Qed.

#[local] Instance wired_laws : StackLaws server.
Proof.
  split.
  - intros r. apply request_fields.
  - intros r token Hb. rewrite (proj1 (proj2 (request_fields r))), Hb. done.
  - intros r value Ha. by rewrite (proj1 (proj2 (proj2 (request_fields r)))).
  - intros r words Hw Hurl. apply target_url in Hurl. rewrite <-Hurl. apply whole_request.
    rewrite Hurl. by apply split_once_none, target_in_path.
  - intros r words key value Hw _ _ Hurl. apply target_url in Hurl. apply split_request. rewrite Hurl.
    rewrite <-str_app_assoc. by apply split_once_skips, target_in_path.
  - intros p Hp _. unfold ax_match, wired_axum. by rewrite bool_decide_true.
  - intros prefix id Hp Hid Hnot. unfold ax_match, wired_axum. rewrite bool_decide_false by done.
    apply captured_prefix in Hp. unfold capturing in Hp. rewrite !elem_of_cons, elem_of_nil in Hp.
    by destruct Hp as [->|[->|[->|[->|[]]]]].
  - intros issue_id ts file Hid Hts Hfile.
    assert (Hword : url_word file).
    { apply artefact_file in Hfile. rewrite !elem_of_cons, elem_of_nil in Hfile.
      by destruct Hfile as [->|[->|[->|[]]]]; apply (bool_decide_unpack _); vm_compute. }
    etrans; [apply (wired_nested [issue_id; ts; file]); [|done]|cbv iota beta; by rewrite bool_decide_true].
    by repeat apply List.Forall_cons.
  - intros words Hw Hne Hother. etrans; [by apply wired_nested|].
    destruct words as [|issue_id [|ts [|file [|? ?]]]]; try done.
    rewrite bool_decide_false; [done|]. by apply (Hother issue_id ts file).
  - intros r Hq. unfold ax_tasks_query, wired_axum. by rewrite Hq.
  - intros r state _ Hq. unfold ax_tasks_query, wired_axum. by rewrite Hq.
  - intros r draft Hj. unfold ax_issue_draft, wired_axum.
    rewrite (proj2 (proj2 (proj2 (request_fields r)))), Hj.
    exact (f_equal (map_err _) (unpacked_packed _)).
  - intros r handoff Hj. unfold ax_handoff_request, wired_axum.
    rewrite (proj2 (proj2 (proj2 (request_fields r)))), Hj.
    exact (f_equal (map_err _) (unpacked_packed _)).
  - intros r submit Hj. unfold ax_submit_request, wired_axum.
    rewrite (proj2 (proj2 (proj2 (request_fields r)))), Hj.
    exact (f_equal (map_err _) (unpacked_packed _)).
  - intros reply. split; [done|]. exists (reply_body reply). split; [apply whole_body|].
    destruct reply as [| | | | | | | | | | | | | |[]]; cbn [carries reply_body]; try apply unpacked_packed; try done.
    all: unfold dec_api_issue, wired_api; rewrite unpacked_packed; by eexists.
  - intros status text. split; [done|]. exists text, (TObject [("error", TText text)]), {["error" := TText text]}.
    split; [apply whole_body|done].
Qed.

(** ** The front of a hall *)

#[local] Existing Instance Serving.hall_tracker.
#[local] Existing Instance Serving.hall_signing.
#[local] Existing Instance Serving.hall_machine.
#[local] Existing Instance Serving.hall_fs.
#[local] Existing Instance Serving.hall_files.
#[local] Existing Instance Serving.hall_bus.
#[local] Existing Instance Serving.hall_text.
#[local] Existing Instance Serving.hall_codec.
#[local] Existing Instance Serving.hall_chrono.
#[local] Existing Instance Serving.hall_format.
#[local] Existing Instance Serving.shell_codec.
#[local] Instance hall_env : HostEnv hall := {| target_os := Linux; env_var_os _ h := (None, h) |}.
#[local] Instance hall_debug : DebugStr := {| debug_str := id |}.

(** The operator, and somebody who guesses the token. *)
Definition operator : SymphonyClient := new_client "http://127.0.0.1:4242/" "secret".
Definition stranger : SymphonyClient := new_client server "guess!".
Definition approve : Commands := CmdApprovals (ApprovalsApprove "XSY-1" None (Some "peer")).
Definition typed (c : SymphonyClient) (command : Commands) : result Output CliError * hall :=
  run_with (TP := loopback (T := string) the_front) c command opened.

Lemma cli_refines_handlers_witness :
  (let '(output, h) := typed operator approve in
   output = Ok (output_success ("XSY-1 approved" +:+ LINE_FEED)) ∧ ha_requeued h = true ∧ length (ha_stored h) = 1) ∧
  (typed operator (CmdProofs (ProofsShow "XSY-1/t0/stdout.log"))).1 = Ok (output_success ("log" +:+ LINE_FEED)) ∧
  typed stranger approve = (Err unauthorised, opened).
Proof.
  unfold typed. split; [|split].
  - rewrite (proj1 (cli_refines_handlers (T := string) the_front operator approve opened wired_laws
      ltac:(apply (bool_decide_unpack _); vm_compute; reflexivity)) eq_refl).
    vm_compute. done.
  - rewrite (proj1 (cli_refines_handlers (T := string) the_front operator
      (CmdProofs (ProofsShow "XSY-1/t0/stdout.log")) opened wired_laws
      ltac:(exists ["XSY-1"; "t0"; "stdout.log"]; split; [discriminate|split; [|reflexivity]];
            repeat apply List.Forall_cons; try apply List.Forall_nil; apply (bool_decide_unpack _); vm_compute; reflexivity)) eq_refl).
    vm_compute. done.
  - apply (proj2 (cli_refines_handlers (T := string) the_front stranger approve opened wired_laws
      ltac:(apply (bool_decide_unpack _); vm_compute; reflexivity))); [vm_compute|]; discriminate.
Defined.
